(* ===== verification/_CoqProject ===== *)
-Q . S2P
Prelude.v
BTree.v
LinkedList.v
Scheduler.v
Memory.v
MemoryProps.v
MemorySpec.v
Pipe.v
EventFd.v
Epoll.v
Path.v
Vfs.v
VfsProps.v
RootFs.v
Fops.v
Disk.v
FatFs.v
TaskRun.v
Sync.v
Threads.v
ThreadsProps.v
UserMem.v
Futex.v
TimeStat.v
Link.v
Signal.v
FdManager.v
Process.v
ProcessProps.v
ProcessTree.v
AsyncIo.v
AsyncIoProps.v
Streams.v
StreamsProps.v
FsApi.v
FsApiProps.v
FdCalls.v
Stdio.v
FileObj.v
FdCallsProps.v
FsPaths.v
FsPathsProps.v
FsCalls.v
FsCallsProps.v
Net.v
NetProps.v
Sockets.v
SocketsProps.v
MemCalls.v
MemCallsProps.v
ForkSpec.v
MemSim.v
TaskCalls.v
TaskCallsProps.v
Entry.v
UserTask.v
