(* ===== verification/Prelude.v ===== *)
(** * A verification of the kernel of async-os

    async-os is a kernel written in Rust whose tasks are futures: a dispatcher
    polls them, a task that cannot go on leaves its waker somewhere and returns
    [Pending], and whoever makes it runnable again wakes it.  On top of that
    sit synchronisation, processes with their signals and address spaces, futexes,
    pipes and other files, a virtual file system, sockets, and the system calls of
    Linux in front of them.  The development models the parts that carry the
    kernel's own logic as executable definitions and proves what makes them
    correct.  Where the code does not do what it means to, a lemma or theorem
    shows the behaviour on the model.

    ** Parts of the program and files of the development

    - [Prelude] (this file): outcomes of fallible code ([Ok], [Err], [Panic]),
      machine integers, the shared tactics, hint databases and list lemmas.
    - [BTree]: the model of [BTreeMap], a sorted association list.
    - [LinkedList]: the interface of the intrusive [linked_list] crate, with its
      laws and a list instance.
    - [Scheduler]: [crates/scheduler] - the [BaseScheduler] trait as a class, the
      FIFO, round-robin and CFS schedulers (modules [Fifo], [RoundRobin],
      [Cfs]), the laws [SchedulerLaws] a run queue promises its clients, proved
      for all three; tasks are pointers, their atomic fields a store.
    - [TaskRun]: [modules/taskctx] ([TaskState], [wakeup_task], [CurrentTask],
      joins) and [modules/trampoline] ([run_task], the dispatch loop, the kernel
      coroutines of asynchronous system calls), for any number of CPUs and any
      scheduler that meets the interface.  [kernel] is the state, [kstep] one
      atomic step, [krun] an interleaving.
    - [Sync]: the wait list of [modules/task_api], the wait futures and the mutex
      of [modules/sync]; the mutex is a step function over its atomic accesses.
      What it does to tasks is a list of effects performed by [TaskRun].
    - [Threads], [ThreadsProps]: [modules/kernel_guard], the futures of
      [modules/task_api] a task yields, blocks, exits, joins and sleeps with, the
      kernel stacks ([modules/taskctx/src/kstack.rs]) and the switch and preemption
      of threads, as steps over the kernel of [TaskRun].
    - [Futex]: [modules/axfutex], [modules/executor/src/futex.rs] and the futex
      system calls; [futex_wait] is a state machine over its await points and
      [fstep] interleaves all tasks with user stores, time and signals.
    - [Memory], [MemoryProps], [MemorySpec]: [modules/async_mem] - [MapArea],
      [MemBackend] and [MemorySet] with mmap, munmap, mprotect, msync, page
      faults.  The page table, the page allocator and the files behind mappings
      are the class [MemWorld] with the laws [MemWorldLaws]; [SimWorld] is an
      instance.  [space] is the abstract address space, a map from pages to
      slots.
    - [Pipe], [EventFd], [Epoll]: the files of
      [modules/syscall/src/syscall_fs/ctype]; one call of the model is one poll,
      and what other code decides meanwhile (locks, signals, reference counts,
      the clock) is an argument.
    - [Path]: [canonicalize] of [modules/async_vfs] and [split_path].
    - [Vfs], [VfsProps]: the node interface of [modules/async_vfs] and the RAM
      and device file systems ([modules/axfs_ramfs], [modules/axfs_devfs]) as a
      store of nodes.
    - [RootFs], [Fops]: the root directory with its mount table
      ([modules/async_fs/src/root.rs]) and opened files and directories
      ([modules/async_fs/src/fops.rs]); the capability crate is a class with
      its documented law.
    - [Disk], [FatFs]: the block device with a cursor ([modules/async_fs/src/dev.rs])
      and the FAT file system over it ([modules/async_fs/src/fs/fatfs.rs]); the device
      driver is the class [BlockDevice], the crate fatfs the class [FatVolume].
    - [FsApi], [FsApiProps]: the file interface the kernel itself uses
      ([modules/async_fs/src/api]): open options, whole files by path, open files as
      readers and writers of [AsyncIo], directories as streams.
    - [UserMem]: what every system call shares - its result, its argument words,
      user memory and the lazy allocation the calls ask for before they use it.
    - [TimeStat]: [modules/taskctx/src/stat.rs], the accounting points of
      [modules/syscall/src/trap.rs] and the time calls of [utils.rs].
    - [Signal]: the trap frame, the signal module of a task, delivery and return
      ([modules/executor/src/signal.rs]) and the signal calls; the crate
      [axsignal] is the class [AxSignal] with [AxSignalLaws].
    - [Link], [FdManager]: the tables of hard links and the paths of system calls
      ([modules/executor/src/link.rs]), descriptor tables ([fd_manager.rs]).
    - [Process], [ProcessProps], [ProcessTree]: [modules/executor] - the process
      tables, clone, exec, exit and wait in a monad over the [world]; a weakest
      precondition and the invariant of the tree; the steps and the theorems.
    - [TaskCalls], [TaskCallsProps]: the system calls of
      [modules/syscall/src/syscall_task] over that world, their dispatch, process
      descriptors, scheduling parameters; what the others do while a call waits is
      a list of rounds.
    - [MemCalls], [MemCallsProps], [ForkSpec], [MemSim]: the memory calls
      ([modules/syscall/src/syscall_mem]), shared memory, [mremap] and the copy of
      an address space at a fork, over several page tables; [ForkSpec] says what
      the child of a fork gets; [MemSim] is a concrete world that satisfies the
      laws assumed.
    - [FdCalls], [FileObj], [FdCallsProps]: the calls on descriptors ([io.rs],
      [ctl.rs], [poll.rs] of [syscall_fs/imp]) against the class [FileIO], and
      [FileDesc] and [DirDesc] as instances of it.
    - [FsPaths], [FsPathsProps]: the calls on paths (open, link, mount, stat,
      getdents, rename, ...).
    - [Stdio]: the standard streams ([modules/executor/src/stdio.rs]): the line editor
      of standard input over the characters typed so far.
    - [FsCalls], [FsCallsProps]: the calls on epoll instances, statfs, statx and
      pidfd_open, and [fs_syscall], the dispatcher of all file system calls by their
      numbers.
    - [Net], [NetProps]: TCP and UDP sockets, the socket set and the listening table
      of [modules/async_net]; smoltcp is the class [Smoltcp] with its laws.
    - [Sockets], [SocketsProps]: the sockets behind descriptors and the calls of
      [modules/syscall/src/syscall_net].
    - [AsyncIo], [AsyncIoProps], [Streams], [StreamsProps]: [modules/async_io] -
      readers, writers and their adaptors, streams and their combinators, as
      classes of one poll each.
    - [Entry]: [modules/syscall/src/syscall.rs] and [trap.rs] - the entry of system
      calls over the four dispatchers, each on the part of the kernel's state a
      [View] takes out of it; times and page faults around it.
    - [UserTask]: what a turn of [user_task_top] ([modules/trampoline/src/task_api.rs])
      makes of a trap, and calls a program does not wait for, in the kernel and in
      [syscalls/src/fut.rs].

    The calls of a process meet here: [TaskCalls] and [MemCalls] work on the
    address spaces of [Memory], [FdCalls] and [Sockets] on the descriptor tables of
    [FdManager] and the objects of [FileObj], [Pipe] and [EventFd], [FsPaths] on the
    file systems of [Vfs] under the mounts of [RootFs], [Process] on the signal
    modules of [Signal] and the times of [TimeStat].

    ** What the theorems show

    - Dispatcher: in every interleaving on every number of CPUs a task is in at
      most one place and its state says which; the dispatcher panics only for
      the listed causes; a wake is not lost before the task is polled again, unless
      the task marks itself blocked once more.
    - Mutex: mutual exclusion in every interleaving of its atomic accesses; on
      one CPU a free mutex with waiters has a notified one, as long as nobody but the
      mutex makes a waiter run again, which a signal can do ([Sync]'s examples show
      that, and what goes wrong on two CPUs).
    - Threads: guards put back what they took; in every run in which no task is woken
      while it gives up its CPU, no kernel stack is shared or lost, a CPU between
      putting its thread away and switching its stack pointer apart; what goes wrong
      otherwise, and in that window, is shown by examples.
    - Schedulers: no operation of the three schedulers loses, duplicates or invents a
      task or panics; round robin gives exact slices and rotates; CFS picks the
      least virtual runtime.
    - Processes: clone, exec, exit and wait, and every call on tasks but setsid,
      keep the processes a tree under the kernel's - parents and children agree, and
      no chain of parents is a circle -, so that the unwraps of exit cannot
      fail; waiting reaps exactly a zombie child; an exit is seen by the wait of
      the parent; clone shares what its flags name and copies the rest.
    - Signals and times: a handled signal is undone by sigreturn, frames stay
      within the stack where there is room for them; user and kernel time add up to the time spent.
    - Address spaces: munmap, mprotect and mmap refine the obvious operations on
      the abstract address space, keep areas disjoint, keep the page table in
      step and do not panic off the reserved pages; a page fault serves the page or
      fails, on every branch; sequences of memory calls that ask for what is
      implemented ([mem_call_ok]) keep all of it together with shared segments and the
      heap; a fork gives the child the bytes and the permissions of its parent in pages
      of its own, where the parent has frames: windows, which the page table shows
      without frames, are lost in the child.
    - Conditions: where a property needs something of its caller or of the other tasks,
      its comment and its statement say so, and where the condition can fail in the
      kernel an example shows what happens then.
    - Futexes: waking implements one FIFO per key on the hash table; wakes are
      conserved; a wait whose word has changed returns within three polls.
    - Pipes and event counters: a pipe is a bounded FIFO of bytes, transfers make
      progress and see closed ends; an event counter sums its writes.
    - Files: canonical paths, lookup as a walk, create, remove, read, write and
      directory listing, the longest-prefix rule of mounts, least capabilities
      of open files, sequential reads and appends; link counts are exact when the
      calls do not overlap;
      descriptor calls refine updates of a map; positioned reads and writes and
      copies move exactly the bytes they say.  A disk with its cursor is a flat
      array of bytes; a FAT lookup is a walk, its reads and writes a window of
      the file.  A file
      written by its path in a RAM file system is read back; a directory stream gives every child once.
      The system call epoll_wait stores exactly the events of the first
      round that has any.
    - Standard input: a read gives the edited line however the characters arrive,
      and the terminal shows the line the object holds.
    - The entry: of the four groups of calls at most one knows a number; a call
      that returns leaves the registers but for the result, or the whole frame when
      it is to be made again; a call that is not waited for is made by its first poll
      only, once unless a restart is asked for, and its future is ready exactly when a
      result is stored.
    - Sockets: no operation meets a dangling handle and every socket call keeps the
      invariant, also when descriptors run out, while the other tasks leave alone the
      socket that waits; the search for a free port ends; addresses round trip.
      [Drop] is taken to run to its end and the look of accept at a connection to be
      one step.
    - Asynchronous I/O: adaptors keep the promise of what they wrap, the futures
      deliver exactly the bytes or items the promise names, errors included.

    ** Integers, fuel and loops

    Integers are [Z] with the wrap-around written out; the default build is the
    release build, where additions wrap and do not panic.  Loops are structural
    where the code consumes a list.  [Sync.notify_all] takes fuel, and one more
    than the length of the list is shown to be enough.  The walks of [Vfs] take
    the length of the path as fuel, which bounds the components; the scan of C
    strings and of argument vectors the number of bytes of user memory, behind
    which a scan reads zeroes ([TaskCallsProps.string_vec_total]); the futures of
    [AsyncIo] and [Streams] the polls the promise of their source bounds.
    The loops over a disk, over a file of a FAT volume and over typed characters
    take the length of their buffer, which each turn shortens; the recursion of
    the FAT operations the length of the path.  The
    endless loops of the kernel (the dispatcher, [futex_wait], [epoll_wait]) are not
    given fuel: they are steps of a transition system, or rounds over a stream
    of environments, and the theorems say when they return.  A call that waits
    takes the list of what the others do in its rounds; [None] says it still
    waits when they are over.

    ** Not modelled

    Hardware access, boot and assembly; the TAIC scheduler and its calls, which
    are register accesses and need the controller's behaviour; the random device,
    whose generator is a crate; the volumes of third-party file system crates (their
    wrappers are modelled); the user-space runtime, which is the kernel's
    dispatcher once more over one run queue of the TAIC; the tables of call numbers
    of other architectures; the re-exports of the API crates and the demonstration
    programs.  The thread configuration of the synchronisation primitives and what
    is compiled for x86_64 only are left out: the default is coroutines, the target
    riscv64.  The reports and constants that carry no state (logging, debug
    formatting) have no definition. *)

From Stdlib Require Export Ascii.
From stdpp Require Export strings base tactics functions gmap numbers sorting list.

(** * Outcomes of fallible code

    A Rust function returning [AxResult<T>] either yields a value, an error
    code, or panics (a failed [assert!], an [unwrap] on an error, an index out
    of range).  [Panic] is kept apart from [Err] so that the absence of panics
    is a statement one can prove. *)

(** The error codes of [axerrno::AxError] that the modelled sources name. *)
Inductive AxError :=
  | AddrInUse | AlreadyExists | BadAddress | BadState | ConnectionRefused
  | ConnectionReset | DirectoryNotEmpty | Interrupted | InvalidData | InvalidInput
  | Io | IsADirectory | NoMemory | NotADirectory | NotConnected | NotFound
  | PermissionDenied | StorageFull | Timeout | UnexpectedEof | Unsupported
  | WouldBlock | WriteZero.

#[export] Instance AxError_eq_dec : EqDecision AxError.
Proof. solve_decision. Defined.

Inductive outcome (A : Type) :=
  | Ok (a : A)
  | Err (e : AxError)
  | Panic.
Arguments Ok {A} a.
Arguments Err {A} e.
Arguments Panic {A}.

#[export] Instance outcome_eq_dec `{EqDecision A} : EqDecision (outcome A).
Proof. solve_decision. Defined.

(** [core::task::Poll]. *)
Inductive poll (A : Type) :=
  | Ready (a : A)
  | Pending.
Arguments Ready {A} a.
Arguments Pending {A}.

#[export] Instance outcome_ret : MRet outcome := λ A a, Ok a.
#[export] Instance outcome_bind : MBind outcome := λ A B f o,
  match o with Ok a => f a | Err e => Err e | Panic => Panic end.

Lemma bind_Ok {A B} (a : A) (f : A → outcome B) : Ok a ≫= f = f a.
Proof. done. Qed.
Lemma bind_Ok_inv {A B} (m : outcome A) (f : A → outcome B) b : m ≫= f = Ok b → ∃ a, m = Ok a ∧ f a = Ok b.
Proof. destruct m as [a|e|]; [|done..]. intros H. by exists a. Qed.

(** [Option::ok_or]. *)
Definition ok_or {A} (o : option A) (e : AxError) : outcome A :=
  match o with Some a => Ok a | None => Err e end.

(** [Result::unwrap] / [expect] on a fallible call: an error becomes a panic. *)
Definition unwrap {A} (o : outcome A) : outcome A :=
  match o with Ok a => Ok a | _ => Panic end.

(** [assert!]. *)
Definition rassert (b : bool) : outcome unit := if b then Ok () else Panic.

Definition is_ok {A} (o : outcome A) : bool :=
  match o with Ok _ => true | _ => false end.

(** * Machine integers

    The kernel is built for 64-bit targets and, by default, in release mode
    (Makefile, [MODE ?= release]), where arithmetic wraps. *)

Open Scope Z_scope.

Definition two64 : Z := 2 ^ 64.
Definition two32 : Z := 2 ^ 32.
Definition U64_MAX : Z := two64 - 1.
Definition U32_MAX : Z := two32 - 1.
Definition wrap64 (x : Z) : Z := x mod two64.
Definition wrap32 (x : Z) : Z := x mod two32.
(** Two's complement reading of a 64-bit word. *)
Definition to_i64 (x : Z) : Z :=
  let r := wrap64 x in if decide (r < 2 ^ 63) then r else r - two64.
Definition is_u64 (x : Z) : Prop := 0 ≤ x < two64.
Definition is_u32 (x : Z) : Prop := 0 ≤ x < two32.
Definition is_byte (x : Z) : Prop := 0 ≤ x < 256.

(** [u64::checked_add] and [u64::checked_add_signed]. *)
Definition checked_add_u64 (a b : Z) : option Z :=
  if decide (0 ≤ a + b ≤ U64_MAX) then Some (a + b) else None.

Lemma wrap64_small x : is_u64 x → wrap64 x = x.
Proof. intros H. apply Z.mod_small. exact H. Qed.

Lemma wrap64_range x : is_u64 (wrap64 x).
Proof. apply Z.mod_pos_bound. unfold two64. lia. Qed.

Lemma wrap32_range x : is_u32 (wrap32 x).
Proof. apply Z.mod_pos_bound. unfold two32. lia. Qed.

Lemma to_i64_small x : - 2 ^ 63 ≤ x < 2 ^ 63 → to_i64 x = x.
Proof.
  intros Hx. unfold to_i64, wrap64, two64.
  destruct (decide (0 ≤ x)) as [Hp|Hn].
  - rewrite Z.mod_small by lia. case_decide; lia.
  - replace (x mod 2 ^ 64) with (x + 2 ^ 64).
    { case_decide; lia. }
    apply (Z.mod_unique_pos _ _ (-1)); lia.
Qed.

Lemma checked_add_u64_Some a b c :
  checked_add_u64 a b = Some c ↔ c = a + b ∧ is_u64 (a + b).
Proof.
  unfold checked_add_u64, is_u64, U64_MAX. case_decide; split.
  - intros [= <-]. lia.
  - intros [-> _]. done.
  - done.
  - intros [_ ?]. lia.
Qed.

(** * Hint databases and tactics of the development *)

Create HintDb btree discriminated.
Create HintDb memarea discriminated.

(** Linear arithmetic with division and remainder by constants. *)
Ltac mlia := Z.to_euclidean_division_equations; lia.

(** Case analysis on every [match], [if] and [decide] of the goal. *)
Ltac case_all := repeat (case_match || case_decide); simplify_eq/=.

(** Unfold the outcome monad. *)
Ltac unfold_outcome :=
  unfold mbind, outcome_bind, mret, outcome_ret, ok_or, unwrap, rassert in *.

(** Invert a successful monadic computation in a hypothesis. *)
Ltac inv_ok H :=
  repeat (unfold_outcome; simpl in H;
          match type of H with
          | context [match ?x with _ => _ end] =>
              let E := fresh "E" in destruct x eqn:E; simplify_eq/=
          end).

(** * Lists *)

Section list_facts.
Context {A : Type}.

Lemma filter_all (P : A → Prop) `{!∀ x, Decision (P x)} (l : list A) :
  (∀ x, x ∈ l → P x) → filter P l = l.
Proof.
  induction l as [|x l IH]; [done|]. intros Hl. rewrite filter_cons, decide_True.
  - f_equal. apply IH. set_solver.
  - apply Hl. set_solver.
Qed.

Lemma NoDup_snoc (x : A) (l : list A) : x ∉ l → NoDup l → NoDup (l ++ [x]).
Proof.
  intros Hx Hl. apply NoDup_app. split; [done|]. split; [|apply NoDup_singleton].
  set_solver.
Qed.

Lemma NoDup_tail (l : list A) : NoDup l → NoDup (tail l).
Proof. destruct l; [done|]. by intros [_ ?]%NoDup_cons. Qed.
End list_facts.

(** Replacing one of the lists of a concatenation. *)
Lemma concat_insert {A} (ls : list (list A)) i b b' :
  ls !! i = Some b →
  ∃ l r, concat ls = l ++ b ++ r ∧ concat (<[i := b']> ls) = l ++ b' ++ r.
Proof.
  intros Hb. exists (concat (take i ls)), (concat (drop (S i) ls)). split.
  - rewrite <- (take_drop_middle ls i b Hb) at 1. by rewrite concat_app.
  - rewrite insert_take_drop by (eapply lookup_lt_Some; exact Hb).
    by rewrite concat_app.
Qed.

(** * Step relations *)

(** An invariant kept by every step holds in every reachable state. *)
Lemma rtc_invariant {A} (R : relation A) (P : A → Prop) x y :
  (∀ a b, P a → R a b → P b) → P x → rtc R x y → P y.
Proof. intros HP Hx Hr. induction Hr; eauto. Qed.
