(* ===== verification/BTree.v ===== *)
(** Ordered maps: the model of [alloc::collections::BTreeMap].

    A map is the list of its entries in key order, which is what iteration,
    [first_key_value], [last_key_value] and [pop_first] observe.  [bt_sorted]
    is the representation invariant every operation keeps. *)

From S2P Require Import Prelude.

(** The [Ord] trait: a decidable strict total order. *)
Class Ord (K : Type) := {
  ord_lt : relation K;
  ord_eq_dec :: EqDecision K;
  ord_lt_dec :: RelDecision ord_lt;
  ord_irrefl : ∀ x, ¬ ord_lt x x;
  ord_trans : ∀ x y z, ord_lt x y → ord_lt y z → ord_lt x z;
  ord_trich : ∀ x y, ord_lt x y ∨ x = y ∨ ord_lt y x
}.

#[export] Instance Z_Ord : Ord Z.
Proof. refine {| ord_lt := Z.lt |}; lia. Defined.

(** Tuples compare lexicographically. *)
Definition lex_lt {A B} `{Ord A, Ord B} : relation (A * B) := λ x y,
  ord_lt x.1 y.1 ∨ (x.1 = y.1 ∧ ord_lt x.2 y.2).

#[export] Instance lex_lt_dec `{Ord A, Ord B} : RelDecision (@lex_lt A B _ _).
Proof. intros x y. unfold lex_lt. apply _. Defined.

#[export] Instance pair_Ord `{Ord A, Ord B} : Ord (A * B).
Proof.
  refine {| ord_lt := lex_lt |}; unfold lex_lt.
  - intros [a b] [?%ord_irrefl|[_ ?%ord_irrefl]]; done.
  - intros [a b] [c d] [e f]; simpl. intros [H1|[-> H1]] [H2|[-> H2]];
      eauto using ord_trans.
  - intros [a b] [c d]; simpl. destruct (ord_trich a c) as [?|[->|?]]; auto.
    destruct (ord_trich b d) as [?|[->|?]]; auto.
Defined.

(** [str] and [Vec<u8>] compare lexicographically, element by element. *)
Fixpoint list_lt {A} `{Ord A} (x y : list A) : Prop :=
  match x, y with
  | _, [] => False
  | [], _ :: _ => True
  | a :: x', b :: y' => ord_lt a b ∨ (a = b ∧ list_lt x' y')
  end.

#[export] Instance list_lt_dec `{Ord A} : RelDecision (@list_lt A _).
Proof.
  intros x. induction x as [|a x IH]; intros [|b y]; simpl.
  - apply (False_dec).
  - apply (True_dec).
  - apply (False_dec).
  - apply or_dec; [apply _|]. apply and_dec; [apply _|apply IH].
Defined.

#[export] Instance list_Ord `{Ord A} : Ord (list A).
Proof.
  refine {| ord_lt := list_lt |}.
  - intros x. induction x as [|a x IH]; simpl; [tauto|].
    intros [?%ord_irrefl|[_ ?]]; auto.
  - intros x. induction x as [|a x IH]; intros [|b y] [|c z]; simpl; try done.
    intros [H1|[-> H1]] [H2|[-> H2]]; eauto using ord_trans.
  - intros x. induction x as [|a x IH]; intros [|b y]; simpl; auto.
    destruct (ord_trich a b) as [?|[->|?]]; auto.
    destruct (IH y) as [?|[->|?]]; auto.
Defined.

#[export] Instance ascii_Ord : Ord ascii.
Proof.
  refine {| ord_lt := λ a b, (N_of_ascii a < N_of_ascii b)%N |}.
  - intros x y. apply _.
  - intros x. apply N.lt_irrefl.
  - intros x y z. apply N.lt_trans.
  - intros x y. simpl. destruct (N.lt_trichotomy (N_of_ascii x) (N_of_ascii y)) as [?|[E|?]];
      auto. right; left. rewrite <- (ascii_N_embedding x), <- (ascii_N_embedding y).
    by rewrite E.
Defined.

Section btree.
Context {K : Type} `{Ord K} {V : Type}.
Implicit Types (m : list (K * V)) (k : K) (v : V).

Fixpoint bt_insert k v m : list (K * V) :=
  match m with
  | [] => [(k, v)]
  | (k', v') :: m' =>
      if decide (ord_lt k k') then (k, v) :: m
      else if decide (k = k') then (k, v) :: m'
      else (k', v') :: bt_insert k v m'
  end.

Fixpoint bt_get k m : option V :=
  match m with
  | [] => None
  | (k', v') :: m' => if decide (k = k') then Some v' else bt_get k m'
  end.

Fixpoint bt_remove k m : list (K * V) :=
  match m with
  | [] => []
  | (k', v') :: m' => if decide (k = k') then m' else (k', v') :: bt_remove k m'
  end.

Definition bt_contains_key k m : bool := bool_decide (is_Some (bt_get k m)).
Definition bt_first m : option (K * V) := head m.
Definition bt_pop_first m : option (K * V) * list (K * V) := (head m, tail m).
Definition bt_last m : option (K * V) := last m.

Definition bt_sorted m : Prop := StronglySorted ord_lt m.*1.

Lemma bt_get_elem k v m : bt_get k m = Some v → (k, v) ∈ m.
Proof.
  induction m as [|[k' v'] m IH]; simpl; [done|].
  case_decide; intros; simplify_eq; [left|right]; auto.
Qed.

Lemma bt_get_None k m : bt_get k m = None ↔ k ∉ m.*1.
Proof.
  induction m as [|[k' v'] m IH]; simpl; [set_solver|].
  case_decide; set_solver.
Qed.

Lemma bt_sorted_cons k v m :
  bt_sorted ((k, v) :: m) ↔ (∀ k', k' ∈ m.*1 → ord_lt k k') ∧ bt_sorted m.
Proof.
  unfold bt_sorted. simpl. split.
  - intros Hs. inversion Hs; subst. split; [|done]. by apply Forall_forall.
  - intros [H1 H2]. constructor; [done|]. by apply Forall_forall.
Qed.

Lemma bt_sorted_NoDup m : bt_sorted m → NoDup m.*1.
Proof.
  induction m as [|[k v] m IH]; [constructor|].
  rewrite bt_sorted_cons. simpl. intros [H1 H2]. constructor; [|auto].
  intros Hin%H1. by apply ord_irrefl in Hin.
Qed.

Lemma bt_elem_get k v m : bt_sorted m → (k, v) ∈ m → bt_get k m = Some v.
Proof.
  induction m as [|[k' v'] m IH]; [set_solver|].
  rewrite bt_sorted_cons. intros [H1 H2] [?|Hin]%elem_of_cons; simplify_eq/=.
  - by rewrite decide_True.
  - rewrite decide_False; [auto|]. intros ->.
    apply (ord_irrefl k'), H1, list_elem_of_fmap. by exists (k', v).
Qed.

Lemma bt_elem_get_iff k v m : bt_sorted m → (k, v) ∈ m ↔ bt_get k m = Some v.
Proof. split; [by apply bt_elem_get|apply bt_get_elem]. Qed.

Lemma bt_get_insert_eq k v m : bt_get k (bt_insert k v m) = Some v.
Proof.
  induction m as [|[k' v'] m IH]; simpl; [by rewrite decide_True|].
  repeat case_decide; simpl; rewrite ?decide_True by done; try done.
  by rewrite decide_False.
Qed.

Lemma bt_get_insert_ne k k' v m :
  k ≠ k' → bt_get k' (bt_insert k v m) = bt_get k' m.
Proof.
  intros Hne. induction m as [|[j w] m IH]; simpl; [by rewrite decide_False|].
  repeat case_decide; simplify_eq; simpl; repeat case_decide; simplify_eq; auto.
Qed.

Lemma bt_insert_keys k v m : ∀ k', k' ∈ (bt_insert k v m).*1 ↔ k' = k ∨ k' ∈ m.*1.
Proof.
  intros k'. induction m as [|[j w] m IH]; simpl; [set_solver|].
  repeat case_decide; simplify_eq/=; set_solver.
Qed.

Lemma bt_insert_sorted k v m : bt_sorted m → bt_sorted (bt_insert k v m).
Proof.
  induction m as [|[j w] m IH]; simpl.
  - intros _. repeat constructor.
  - intros Hs. pose proof Hs as [Hlt Hm]%bt_sorted_cons.
    repeat case_decide; simplify_eq.
    + apply bt_sorted_cons. split; [|done]. simpl. intros k' [->|Hin]%elem_of_cons; [done|].
      eapply ord_trans; [done|]. by apply Hlt.
    + by apply bt_sorted_cons.
    + apply bt_sorted_cons. split; [|auto]. intros k' [->|Hin]%bt_insert_keys; [|auto].
      destruct (ord_trich j k) as [?|[->|?]]; done.
Qed.

(** A fresh key adds one entry and keeps the others. *)
Lemma bt_insert_perm k v m :
  bt_get k m = None → bt_insert k v m ≡ₚ (k, v) :: m.
Proof.
  induction m as [|[j w] m IH]; simpl; [done|].
  case_decide; [done|]. intros Hg. case_decide; simplify_eq.
  { done. }
  rewrite IH by done. apply perm_swap.
Qed.

Lemma bt_remove_keys k m k' : k' ∈ (bt_remove k m).*1 → k' ∈ m.*1.
Proof.
  induction m as [|[j w] m IH]; simpl; [done|]. case_decide; set_solver.
Qed.

Lemma bt_remove_sorted k m : bt_sorted m → bt_sorted (bt_remove k m).
Proof.
  induction m as [|[j w] m IH]; simpl; [done|].
  intros [Hlt Hm]%bt_sorted_cons. case_decide; [done|].
  apply bt_sorted_cons. split; [|auto]. intros k' Hk'%bt_remove_keys. auto.
Qed.

Lemma bt_get_remove_eq k m : bt_sorted m → bt_get k (bt_remove k m) = None.
Proof.
  induction m as [|[j w] m IH]; simpl; [done|].
  intros [Hlt Hm]%bt_sorted_cons. case_decide; simplify_eq.
  - apply bt_get_None. intros ?%Hlt. by eapply ord_irrefl.
  - simpl. rewrite decide_False by done. auto.
Qed.

Lemma bt_get_remove_ne k k' m :
  k ≠ k' → bt_get k' (bt_remove k m) = bt_get k' m.
Proof.
  intros Hne. induction m as [|[j w] m IH]; simpl; [done|].
  repeat case_decide; simplify_eq; simpl; repeat case_decide; simplify_eq; auto.
Qed.

Lemma bt_remove_perm k v m : bt_get k m = Some v → m ≡ₚ (k, v) :: bt_remove k m.
Proof.
  induction m as [|[j w] m IH]; simpl; [done|].
  case_decide; intros; simplify_eq; [done|].
  rewrite perm_swap. constructor. auto.
Qed.

Lemma bt_remove_None k m : bt_get k m = None → bt_remove k m = m.
Proof.
  induction m as [|[j w] m IH]; simpl; [done|].
  case_decide; [done|]. intros. by rewrite IH.
Qed.

(** Removing what was just inserted gives the map back. *)
Lemma bt_remove_insert k v m :
  bt_get k m = None → bt_remove k (bt_insert k v m) = m.
Proof.
  induction m as [|[j w] m IH]; simpl; intros Hg; [by rewrite decide_True|].
  repeat case_decide; simplify_eq/=; rewrite ?decide_True, ?decide_False by done; auto.
  by rewrite IH.
Qed.

Lemma bt_first_min k v m :
  bt_sorted m → bt_first m = Some (k, v) →
  ∀ k', k' ∈ m.*1 → k' = k ∨ ord_lt k k'.
Proof.
  destruct m as [|[j w] m]; simpl; [done|].
  intros [Hlt _]%bt_sorted_cons ?; simplify_eq. intros k' [->|?]%elem_of_cons; auto.
Qed.

Lemma bt_sorted_tail m : bt_sorted m → bt_sorted (tail m).
Proof. destruct m as [|[k v] m]; [done|]. by intros [_ ?]%bt_sorted_cons. Qed.

(** Two sorted maps with the same lookups are the same list. *)
Lemma bt_ext m1 m2 :
  bt_sorted m1 → bt_sorted m2 → (∀ k, bt_get k m1 = bt_get k m2) → m1 = m2.
Proof.
  revert m2. induction m1 as [|[k v] m1 IH]; intros m2 H1 H2 Heq.
  - destruct m2 as [|[k v] m2]; [done|].
    specialize (Heq k). simpl in Heq. by rewrite decide_True in Heq.
  - destruct m2 as [|[k2 v2] m2].
    { specialize (Heq k). simpl in Heq. by rewrite decide_True in Heq. }
    pose proof H1 as [Hl1 Hm1]%bt_sorted_cons.
    pose proof H2 as [Hl2 Hm2]%bt_sorted_cons.
    assert (k = k2) as <-.
    { destruct (ord_trich k k2) as [Hk|[?|Hk]]; [|done|]; exfalso.
      - pose proof (Heq k) as Hq. simpl in Hq. rewrite decide_True in Hq by done.
        rewrite decide_False in Hq by (intros ->; by eapply ord_irrefl).
        symmetry in Hq. apply bt_get_elem in Hq.
        assert (k ∈ m2.*1) as Hin by (apply list_elem_of_fmap; by exists (k, v)).
        apply Hl2 in Hin. by eapply ord_irrefl, ord_trans.
      - pose proof (Heq k2) as Hq. simpl in Hq.
        rewrite (decide_True (P := k2 = k2)) in Hq by done.
        rewrite decide_False in Hq by (intros ->; by eapply ord_irrefl).
        apply bt_get_elem in Hq.
        assert (k2 ∈ m1.*1) as Hin by (apply list_elem_of_fmap; by exists (k2, v2)).
        apply Hl1 in Hin. by eapply ord_irrefl, ord_trans. }
    pose proof (Heq k) as Hq. simpl in Hq. rewrite !decide_True in Hq by done.
    simplify_eq. f_equal. apply IH; [done..|]. intros k'.
    destruct (decide (k' = k)) as [->|Hne].
    + transitivity (@None V); [|symmetry]; apply bt_get_None; intros Hin.
      * apply Hl1 in Hin. by eapply ord_irrefl.
      * apply Hl2 in Hin. by eapply ord_irrefl.
    + specialize (Heq k'). simpl in Heq. by rewrite !decide_False in Heq.
Qed.
End btree.

#[export] Hint Resolve bt_insert_sorted bt_remove_sorted bt_sorted_tail : btree.
#[export] Hint Resolve bt_get_insert_eq : btree.
