(* ===== verification/LinkedList.v ===== *)
(** The interface of the intrusive [linked_list] crate.

    [linked_list::List<Arc<T>>] is third-party code: it is a parameter of the
    components that use it (the FIFO scheduler and the wait list).  The class
    [LinkedList] lists the operations they call, [LinkedListLaws] what the
    crate documents about them.  [ll_items] is the sequence of elements a
    front-to-back cursor visits.  Elements are pointers, compared by identity. *)

From S2P Require Import Prelude.

Class LinkedList (A L : Type) := {
  ll_new : L;
  ll_push_back : A → L → L;
  ll_pop_front : L → option A * L;
  ll_remove : A → L → option A * L;
  ll_items : L → list A
}.

Class LinkedListLaws (A L : Type) `{EqDecision A} `{LinkedList A L} : Prop := {
  ll_new_items : ll_items ll_new = [];
  ll_push_back_items : ∀ x l,
    x ∉ ll_items l → ll_items (ll_push_back x l) = ll_items l ++ [x];
  ll_pop_front_items : ∀ l,
    (ll_pop_front l).1 = head (ll_items l) ∧
    ll_items (ll_pop_front l).2 = tail (ll_items l);
  ll_remove_in : ∀ x l, x ∈ ll_items l →
    (ll_remove x l).1 = Some x ∧
    ll_items l ≡ₚ x :: ll_items (ll_remove x l).2 ∧
    ll_items (ll_remove x l).2 = filter (.≠ x) (ll_items l);
  ll_remove_notin : ∀ x l, x ∉ ll_items l → ll_remove x l = (None, l)
}.

(** The plain-list implementation used to show that the laws can hold: a list
    of distinct elements. *)
Record nlist (A : Type) := NList { nl_items : list A; nl_nodup : NoDup nl_items }.
Arguments NList {A} _ _.
Arguments nl_items {A} _.
Arguments nl_nodup {A} _.

Section nlist.
Context {A : Type} `{EqDecision A}.

Definition nl_push (x : A) (l : nlist A) : nlist A :=
  match decide (x ∈ nl_items l) with
  | left _ => l
  | right Hx => NList (nl_items l ++ [x]) (NoDup_snoc x _ Hx (nl_nodup l))
  end.

Definition nl_remove (x : A) (l : nlist A) : option A * nlist A :=
  if decide (x ∈ nl_items l)
  then (Some x, NList (filter (.≠ x) (nl_items l)) (NoDup_filter _ _ (nl_nodup l)))
  else (None, l).

#[global] Instance nlist_LinkedList : LinkedList A (nlist A) := {
  ll_new := NList [] (NoDup_nil_2);
  ll_push_back := nl_push;
  ll_pop_front l := (head (nl_items l), NList (tail (nl_items l)) (NoDup_tail _ (nl_nodup l)));
  ll_remove := nl_remove;
  ll_items := nl_items
}.

Lemma filter_ne_perm (x : A) (l : list A) :
  NoDup l → x ∈ l → l ≡ₚ x :: filter (.≠ x) l.
Proof.
  induction l as [|y l IH]; [set_solver|]. intros [Hy Hl]%NoDup_cons Hx.
  rewrite filter_cons. destruct (decide (y ≠ x)) as [Hne|Heq].
  - rewrite perm_swap. constructor. apply IH; set_solver.
  - apply dec_stable in Heq as ->. constructor.
    rewrite filter_all; [done|]. intros z Hz ->. done.
Qed.

#[global] Instance nlist_LinkedListLaws : LinkedListLaws A (nlist A).
Proof.
  split; simpl.
  - done.
  - intros x l Hx. unfold nl_push. by destruct (decide _).
  - done.
  - intros x l Hx. unfold nl_remove. rewrite decide_True by done. simpl.
    split_and!; [done| |done]. by apply filter_ne_perm, Hx; apply nl_nodup.
  - intros x l Hx. unfold nl_remove. by rewrite decide_False.
Qed.
End nlist.
