(* ===== verification/Scheduler.v ===== *)
(** The schedulers of [crates/scheduler]: the [BaseScheduler] trait, its FIFO,
    round-robin and CFS implementations, and what every run queue promises.

    Tasks are [Arc]s, so they are modelled by a pointer ([TaskRef]) and their
    atomic fields by a store indexed by it: the same task is shared by the
    queue and by its holder, and a field written through one is seen through
    the other.  Operations may panic ([get_weight] indexes a table,
    [TAICScheduler::remove_task] is [unimplemented!]), so they return an
    [outcome]. *)

From S2P Require Import Prelude BTree LinkedList.

#[local] Obligation Tactic := idtac.

Notation TaskRef := nat (only parsing).

(** ** The trait *)

Class BaseScheduler (ST : Type) := {
  init : ST → ST;
  add_task : TaskRef → ST → outcome ST;
  remove_task : TaskRef → ST → outcome (option TaskRef * ST);
  pick_next_task : ST → outcome (option TaskRef * ST);
  put_prev_task : TaskRef → bool → ST → outcome ST;
  task_tick : TaskRef → ST → outcome (bool * ST);
  set_priority : TaskRef → Z → ST → outcome (bool * ST)
}.

(** What a run queue promises its client: under its well-formedness invariant
    no operation panics, and no operation loses, duplicates or invents a task.
    [sched_can_add] and [sched_can_put] are the states in which a task may be
    handed over; a task handed over is never already queued. *)
Class SchedulerLaws (ST : Type) `{BaseScheduler ST} := {
  sched_wf : ST → Prop;
  queued : ST → list TaskRef;
  sched_can_add : ST → TaskRef → Prop;
  sched_can_put : ST → TaskRef → Prop;
  law_add : ∀ s t, sched_wf s → t ∉ queued s → sched_can_add s t →
    ∃ s', add_task t s = Ok s' ∧ sched_wf s' ∧ queued s' ≡ₚ t :: queued s;
  law_put : ∀ s t p, sched_wf s → t ∉ queued s → sched_can_put s t →
    ∃ s', put_prev_task t p s = Ok s' ∧ sched_wf s' ∧ queued s' ≡ₚ t :: queued s;
  law_pick : ∀ s, sched_wf s →
    ∃ o s', pick_next_task s = Ok (o, s') ∧ sched_wf s' ∧
      match o with
      | Some t => queued s ≡ₚ t :: queued s'
      | None => queued s = [] ∧ queued s' = []
      end;
  law_remove : ∀ s t, sched_wf s → t ∈ queued s →
    ∃ s', remove_task t s = Ok (Some t, s') ∧ sched_wf s' ∧
      queued s ≡ₚ t :: queued s';
  law_tick : ∀ s t, sched_wf s → t ∉ queued s →
    ∃ b s', task_tick t s = Ok (b, s') ∧ sched_wf s' ∧ queued s' = queued s;
  law_priority : ∀ s t n, sched_wf s →
    ∃ b s', set_priority t n s = Ok (b, s') ∧ sched_wf s' ∧ queued s' = queued s
}.

(** ** FIFO scheduler ([fifo.rs]) *)
Module Fifo.
Section fifo.
Context {L : Type} `{LinkedList TaskRef L}.

Record FifoScheduler := { ready_queue : L }.

Definition fifo_new : FifoScheduler := {| ready_queue := ll_new |}.

Definition fifo_add_task (t : TaskRef) (s : FifoScheduler) : FifoScheduler :=
  {| ready_queue := ll_push_back t (ready_queue s) |}.

Definition fifo_remove_task (t : TaskRef) (s : FifoScheduler)
    : option TaskRef * FifoScheduler :=
  let r := ll_remove t (ready_queue s) in (r.1, {| ready_queue := r.2 |}).

Definition fifo_pick_next_task (s : FifoScheduler) : option TaskRef * FifoScheduler :=
  let r := ll_pop_front (ready_queue s) in (r.1, {| ready_queue := r.2 |}).

Definition fifo_put_prev_task (prev : TaskRef) (_preempt : bool) (s : FifoScheduler)
    : FifoScheduler :=
  {| ready_queue := ll_push_back prev (ready_queue s) |}.

#[global] Instance Fifo_BaseScheduler : BaseScheduler FifoScheduler := {
  init s := s;
  add_task t s := Ok (fifo_add_task t s);
  remove_task t s := Ok (fifo_remove_task t s);
  pick_next_task s := Ok (fifo_pick_next_task s);
  put_prev_task t p s := Ok (fifo_put_prev_task t p s);
  task_tick _ s := Ok (false, s);
  set_priority _ _ s := Ok (false, s)
}.

Context `{!LinkedListLaws TaskRef L}.

Lemma fifo_remove_in t s :
  t ∈ ll_items (ready_queue s) →
  (fifo_remove_task t s).1 = Some t ∧
  ll_items (ready_queue s) ≡ₚ t :: ll_items (ready_queue (fifo_remove_task t s).2) ∧
  ll_items (ready_queue (fifo_remove_task t s).2) = filter (.≠ t) (ll_items (ready_queue s)).
Proof. apply ll_remove_in. Qed.

Lemma fifo_push_perm t (l : L) :
  t ∉ ll_items l → ll_items (ll_push_back t l) ≡ₚ t :: ll_items l.
Proof. intros Hn. rewrite ll_push_back_items by done. by rewrite Permutation_app_comm. Qed.

#[global] Program Instance Fifo_SchedulerLaws : SchedulerLaws FifoScheduler := {
  sched_wf _ := True;
  queued s := ll_items (ready_queue s);
  sched_can_add _ _ := True;
  sched_can_put _ _ := True
}.
Next Obligation.
  intros s t _ Hn _. eexists. split_and!; [done..|]. by apply fifo_push_perm.
Qed.
Next Obligation.
  intros s t p _ Hn _. eexists. split_and!; [done..|]. by apply fifo_push_perm.
Qed.
Next Obligation.
  intros s _. destruct (ll_pop_front_items (ready_queue s)) as [H1 H2].
  do 2 eexists. split_and!; [done..|]. simpl. rewrite H1, H2.
  destruct (ll_items (ready_queue s)); simpl; [done|reflexivity].
Qed.
Next Obligation.
  intros s t _ Ht. destruct (fifo_remove_in t s Ht) as (H1 & H2 & _).
  eexists. split_and!; [|done|exact H2]. simpl. f_equal.
  by rewrite <- H1, <- surjective_pairing.
Qed.
Next Obligation. intros s t _ _. by do 2 eexists. Qed.
Next Obligation. intros s t n _. by do 2 eexists. Qed.
End fifo.
End Fifo.

(** ** Round-robin scheduler ([round_robin.rs]) *)
Module RoundRobin.
Section rr.
(** [MAX_TIME_SLICE], a [usize] constant of the type. *)
Context (S : Z).

Record RRScheduler := {
  ready_queue : list TaskRef;
  time_slice : TaskRef → Z        (** the [AtomicIsize] of each task *)
}.

Definition new_slice : Z := to_i64 S.

Definition reset_time_slice (t : TaskRef) (s : RRScheduler) : RRScheduler :=
  {| ready_queue := ready_queue s; time_slice := <[t := to_i64 S]> (time_slice s) |}.

Definition rr_set_queue (q : list TaskRef) (s : RRScheduler) : RRScheduler :=
  {| ready_queue := q; time_slice := time_slice s |}.

Definition rr_add_task (t : TaskRef) (s : RRScheduler) : RRScheduler :=
  rr_set_queue (ready_queue s ++ [t]) s.

(** [VecDeque::remove] at the first position whose pointer is [t]. *)
Definition rr_remove_task (t : TaskRef) (s : RRScheduler)
    : option TaskRef * RRScheduler :=
  match list_find (λ x, x = t) (ready_queue s) with
  | Some (idx, x) =>
      (Some x, rr_set_queue (delete idx (ready_queue s)) s)
  | None => (None, s)
  end.

Definition rr_pick_next_task (s : RRScheduler) : option TaskRef * RRScheduler :=
  (head (ready_queue s), rr_set_queue (tail (ready_queue s)) s).

Definition rr_put_prev_task (prev : TaskRef) (preempt : bool) (s : RRScheduler)
    : RRScheduler :=
  if bool_decide (0 < time_slice s prev) && preempt then
    rr_set_queue (prev :: ready_queue s) s
  else
    let s := reset_time_slice prev s in
    rr_set_queue (ready_queue s ++ [prev]) s.

(** [fetch_sub] returns the old value and wraps. *)
Definition rr_task_tick (current : TaskRef) (s : RRScheduler) : bool * RRScheduler :=
  let old_slice := time_slice s current in
  (bool_decide (old_slice ≤ 1),
   {| ready_queue := ready_queue s;
      time_slice := <[current := to_i64 (old_slice - 1)]> (time_slice s) |}).

#[global] Instance RR_BaseScheduler : BaseScheduler RRScheduler := {
  init s := s;
  add_task t s := Ok (rr_add_task t s);
  remove_task t s := Ok (rr_remove_task t s);
  pick_next_task s := Ok (rr_pick_next_task s);
  put_prev_task t p s := Ok (rr_put_prev_task t p s);
  task_tick t s := Ok (rr_task_tick t s);
  set_priority _ _ s := Ok (false, s)
}.

Lemma rr_remove_in t s :
  t ∈ ready_queue s →
  ∃ s', rr_remove_task t s = (Some t, s') ∧ ready_queue s ≡ₚ t :: ready_queue s'.
Proof.
  intros Hin. unfold rr_remove_task.
  destruct (list_find_elem_of (λ x, x = t) (ready_queue s) t Hin eq_refl)
    as [[i x] Hf]. rewrite Hf.
  apply list_find_Some in Hf as (Hi & -> & _).
  eexists. split; [done|]. simpl. by apply delete_Permutation.
Qed.

#[global] Program Instance RR_SchedulerLaws : SchedulerLaws RRScheduler := {
  sched_wf _ := True;
  queued := ready_queue;
  sched_can_add _ _ := True;
  sched_can_put _ _ := True
}.
Next Obligation.
  intros s t _ Hn _. eexists. split_and!; [done..|]. simpl.
  by rewrite Permutation_app_comm.
Qed.
Next Obligation.
  intros s t p _ Hn _. eexists. split_and!; [done..|].
  unfold rr_put_prev_task. case_match; simpl; [reflexivity|].
  by rewrite Permutation_app_comm.
Qed.
Next Obligation.
  intros s _. do 2 eexists. split_and!; [done..|]. simpl.
  destruct (ready_queue s); simpl; [done|reflexivity].
Qed.
Next Obligation.
  intros s t _ Ht. destruct (rr_remove_in t s Ht) as (s' & Hr & Hp).
  exists s'. split_and!; [|done..]. simpl. by rewrite Hr.
Qed.
Next Obligation. intros s t _ _. by do 2 eexists. Qed.
Next Obligation. intros s t n _. by do 2 eexists. Qed.

(** Ticking the same running task [n] times; the result of the last tick. *)
Fixpoint tick_n (t : TaskRef) (n : nat) (s : RRScheduler) : bool * RRScheduler :=
  match n with
  | O => (false, s)
  | Datatypes.S n => rr_task_tick t (tick_n t n s).2
  end.

(** One scheduling round without preemption: the head of the queue runs and
    is put back. *)
Definition round (s : RRScheduler) : RRScheduler :=
  match rr_pick_next_task s with
  | (Some t, s') => rr_put_prev_task t false s'
  | (None, s') => s'
  end.

Lemma tick_n_slice t n s :
  0 < time_slice s t < 2 ^ 63 → Z.of_nat n < 2 ^ 63 →
  time_slice (tick_n t n s).2 t = time_slice s t - Z.of_nat n.
Proof.
  intros Hs. induction n as [|n IH]; intros Hn; simpl tick_n.
  - simpl. lia.
  - unfold rr_task_tick at 1. simpl. rewrite fn_lookup_insert.
    rewrite IH by lia. rewrite to_i64_small by lia. lia.
Qed.

Lemma round_queue s : ready_queue (round s) = drop 1 (ready_queue s) ++ take 1 (ready_queue s).
Proof.
  unfold round, rr_pick_next_task, rr_put_prev_task.
  destruct (ready_queue s) as [|t q] eqn:E; simpl; [done|].
  by rewrite andb_false_r.
Qed.
End rr.
End RoundRobin.

(** ** Completely fair scheduler ([cfs.rs]) *)
Module Cfs.

Definition NICE2WEIGHT_POS : list Z :=
  [1024; 820; 655; 526; 423; 335; 272; 215; 172; 137; 110; 87; 70; 56; 45; 36; 29; 23; 18; 15].
Definition NICE2WEIGHT_NEG : list Z :=
  [1024; 1277; 1586; 1991; 2501; 3121; 3906; 4904; 6100; 7620; 9548; 11916; 14949; 18705;
   23254; 29154; 36291; 46273; 56483; 71755; 88761].

(** The atomic fields of the [CFSTask]s and the scheduler. *)
Record CFScheduler := {
  init_vruntime : TaskRef → Z;
  delta : TaskRef → Z;
  nice : TaskRef → Z;
  id : TaskRef → Z;
  ready_queue : list ((Z * Z) * TaskRef);   (** [BTreeMap<(vruntime, taskid), _>] *)
  min_vruntime : option Z;
  id_pool : Z
}.

Definition cfs_new : CFScheduler :=
  {| init_vruntime := λ _, 0; delta := λ _, 0; nice := λ _, 0; id := λ _, 0;
     ready_queue := []; min_vruntime := None; id_pool := 0 |}.

(** Array indexing panics out of range. *)
Definition index {A} (l : list A) (i : Z) : outcome A :=
  if decide (0 ≤ i) then
    match l !! Z.to_nat i with Some x => Ok x | None => Panic end
  else Panic.

Definition get_weight (t : TaskRef) (s : CFScheduler) : outcome Z :=
  if decide (0 ≤ nice s t) then index NICE2WEIGHT_POS (nice s t)
  else index NICE2WEIGHT_NEG (- nice s t).

(** [isize] arithmetic wraps; [/] truncates. *)
Definition get_vruntime (t : TaskRef) (s : CFScheduler) : outcome Z :=
  if decide (nice s t = 0) then Ok (to_i64 (init_vruntime s t + delta s t))
  else w ← get_weight t s;
       Ok (to_i64 (init_vruntime s t + to_i64 (to_i64 (delta s t * 1024) `quot` w))).

Definition set_vruntime (t : TaskRef) (v : Z) (s : CFScheduler) : CFScheduler :=
  {| init_vruntime := <[t := v]> (init_vruntime s); delta := delta s; nice := nice s;
     id := id s; ready_queue := ready_queue s; min_vruntime := min_vruntime s;
     id_pool := id_pool s |}.

Definition set_id (t : TaskRef) (i : Z) (s : CFScheduler) : CFScheduler :=
  {| init_vruntime := init_vruntime s; delta := delta s; nice := nice s;
     id := <[t := i]> (id s); ready_queue := ready_queue s; min_vruntime := min_vruntime s;
     id_pool := id_pool s |}.

(** [CFSTask::set_priority]. *)
Definition task_set_priority (t : TaskRef) (n : Z) (s : CFScheduler) : outcome CFScheduler :=
  current_init_vruntime ← get_vruntime t s;
  Ok {| init_vruntime := <[t := current_init_vruntime]> (init_vruntime s);
        delta := <[t := 0]> (delta s); nice := <[t := n]> (nice s);
        id := id s; ready_queue := ready_queue s; min_vruntime := min_vruntime s;
        id_pool := id_pool s |}.

(** [CFSTask::task_tick]. *)
Definition task_task_tick (t : TaskRef) (s : CFScheduler) : CFScheduler :=
  {| init_vruntime := init_vruntime s; delta := <[t := to_i64 (delta s t + 1)]> (delta s);
     nice := nice s; id := id s; ready_queue := ready_queue s;
     min_vruntime := min_vruntime s; id_pool := id_pool s |}.

Definition set_queue (q : list ((Z * Z) * TaskRef)) (s : CFScheduler) : CFScheduler :=
  {| init_vruntime := init_vruntime s; delta := delta s; nice := nice s; id := id s;
     ready_queue := q; min_vruntime := min_vruntime s; id_pool := id_pool s |}.

Definition set_min_vruntime (v : option Z) (s : CFScheduler) : CFScheduler :=
  {| init_vruntime := init_vruntime s; delta := delta s; nice := nice s; id := id s;
     ready_queue := ready_queue s; min_vruntime := v; id_pool := id_pool s |}.

(** [id_pool.fetch_add(1)]: the old value, and the counter advanced. *)
Definition fetch_id (s : CFScheduler) : Z * CFScheduler :=
  (id_pool s,
   {| init_vruntime := init_vruntime s; delta := delta s; nice := nice s; id := id s;
      ready_queue := ready_queue s; min_vruntime := min_vruntime s;
      id_pool := to_i64 (id_pool s + 1) |}).

(** The [first_key_value] refresh of [add_task] and [remove_task]. *)
Definition refresh_min (s : CFScheduler) : CFScheduler :=
  set_min_vruntime (match bt_first (ready_queue s) with
                    | Some ((v, _), _) => Some v
                    | None => None
                    end) s.

Arguments refresh_min : simpl never.

Definition cfs_add_task (t : TaskRef) (s : CFScheduler) : CFScheduler :=
  let s := match min_vruntime s with
           | None => set_min_vruntime (Some 0) s
           | Some _ => s
           end in
  let vruntime := default 0 (min_vruntime s) in
  let '(taskid, s) := fetch_id s in
  let s := set_vruntime t vruntime s in
  let s := set_id t taskid s in
  let s := set_queue (bt_insert (vruntime, taskid) t (ready_queue s)) s in
  refresh_min s.

Definition cfs_remove_task (t : TaskRef) (s : CFScheduler)
    : outcome (option TaskRef * CFScheduler) :=
  v ← get_vruntime t s;
  let k := (v, id s t) in
  match bt_get k (ready_queue s) with
  | Some tmp => Ok (Some tmp, refresh_min (set_queue (bt_remove k (ready_queue s)) s))
  | None => Ok (None, s)
  end.

Definition cfs_pick_next_task (s : CFScheduler) : option TaskRef * CFScheduler :=
  match bt_pop_first (ready_queue s) with
  | (Some (_, v), q) => (Some v, set_queue q s)
  | (None, _) => (None, s)
  end.

Definition cfs_put_prev_task (prev : TaskRef) (_preempt : bool) (s : CFScheduler)
    : outcome CFScheduler :=
  let '(taskid, s) := fetch_id s in
  let s := set_id prev taskid s in
  v ← get_vruntime prev s;
  Ok (set_queue (bt_insert (v, taskid) prev (ready_queue s)) s).

Definition cfs_task_tick (current : TaskRef) (s : CFScheduler)
    : outcome (bool * CFScheduler) :=
  let s := task_task_tick current s in
  match min_vruntime s with
  | None => Ok (true, s)
  | Some m => v ← get_vruntime current s; Ok (bool_decide (m < v), s)
  end.

Definition cfs_set_priority (t : TaskRef) (prio : Z) (s : CFScheduler)
    : outcome (bool * CFScheduler) :=
  if decide (-20 ≤ prio ≤ 19) then
    s' ← task_set_priority t prio s; Ok (true, s')
  else Ok (false, s).

#[global] Instance Cfs_BaseScheduler : BaseScheduler CFScheduler := {
  init s := s;
  add_task t s := Ok (cfs_add_task t s);
  remove_task := cfs_remove_task;
  pick_next_task s := Ok (cfs_pick_next_task s);
  put_prev_task := cfs_put_prev_task;
  task_tick := cfs_task_tick;
  set_priority := cfs_set_priority
}.

(** *** Invariant *)

Definition is_isize (x : Z) : Prop := - 2 ^ 63 ≤ x < 2 ^ 63.

(** Every queued task sits under the key its own fields give, below the next
    identifier; identifiers stay in range, priorities stay in the tables. *)
Record cfs_wf (s : CFScheduler) : Prop := {
  wf_sorted : bt_sorted (ready_queue s);
  wf_nodup : NoDup (ready_queue s).*2;
  wf_key : ∀ v i t, ((v, i), t) ∈ ready_queue s →
    get_vruntime t s = Ok v ∧ id s t = i ∧ i < id_pool s;
  wf_nice : ∀ t, -20 ≤ nice s t ≤ 19;
  wf_min : ∀ m, min_vruntime s = Some m → is_isize m;
  wf_pool : 0 ≤ id_pool s < 2 ^ 63
}.

Definition cfs_can_put (s : CFScheduler) (t : TaskRef) : Prop := id_pool s + 1 < 2 ^ 63.
Definition cfs_can_add (s : CFScheduler) (t : TaskRef) : Prop :=
  id_pool s + 1 < 2 ^ 63 ∧ delta s t = 0.

Lemma to_i64_range x : is_isize (to_i64 x).
Proof.
  unfold to_i64, is_isize. pose proof (wrap64_range x) as H. unfold is_u64, two64 in H.
  unfold two64. case_decide; lia.
Qed.

Lemma index_ok (l : list Z) (i : Z) :
  Forall (λ w, 15 ≤ w) l → 0 ≤ i < Z.of_nat (length l) → ∃ w, index l i = Ok w ∧ 15 ≤ w.
Proof.
  intros Hl Hi. unfold index. rewrite decide_True by lia.
  destruct (lookup_lt_is_Some_2 l (Z.to_nat i)) as [w Hw]; [lia|].
  rewrite Hw. exists w. split; [done|]. eapply Forall_lookup_1; eauto.
Qed.

Lemma get_weight_ok t s : -20 ≤ nice s t ≤ 19 → ∃ w, get_weight t s = Ok w ∧ 15 ≤ w.
Proof.
  intros Hn. unfold get_weight. case_decide; apply index_ok.
  all: try (repeat constructor; lia). all: simpl; lia.
Qed.

Lemma get_vruntime_ok t s :
  -20 ≤ nice s t ≤ 19 → ∃ v, get_vruntime t s = Ok v ∧ is_isize v.
Proof.
  intros Hn. unfold get_vruntime. case_decide.
  - eexists. split; [done|]. apply to_i64_range.
  - destruct (get_weight_ok t s Hn) as (w & -> & _). eexists. split; [done|].
    apply to_i64_range.
Qed.

Lemma get_vruntime_ext t s s' :
  init_vruntime s' t = init_vruntime s t → delta s' t = delta s t →
  nice s' t = nice s t → get_vruntime t s' = get_vruntime t s.
Proof. unfold get_vruntime, get_weight. by intros -> -> ->. Qed.

Lemma get_vruntime_delta0 t s :
  -20 ≤ nice s t ≤ 19 → delta s t = 0 → is_isize (init_vruntime s t) →
  get_vruntime t s = Ok (init_vruntime s t).
Proof.
  intros Hn Hd Hi. unfold is_isize in Hi. unfold get_vruntime. rewrite Hd.
  case_decide; [by rewrite Z.add_0_r, to_i64_small|].
  destruct (get_weight_ok t s Hn) as (w & -> & Hw). simpl.
  rewrite Z.mul_0_l, (to_i64_small 0), Z.quot_0_l by lia.
  by rewrite (to_i64_small 0), Z.add_0_r, to_i64_small by lia.
Qed.

(** The queue of a state, with the bookkeeping a queue insertion needs. *)
Lemma cfs_insert_wf s s' t v :
  cfs_wf s → t ∉ (ready_queue s).*2 →
  ready_queue s' = bt_insert (v, id_pool s) t (ready_queue s) →
  get_vruntime t s' = Ok v → id s' t = id_pool s →
  id_pool s' = id_pool s + 1 → id_pool s + 1 < 2 ^ 63 →
  (∀ u, u ≠ t → get_vruntime u s' = get_vruntime u s ∧ id s' u = id s u) →
  (∀ u, nice s' u = nice s u) →
  (∀ m, min_vruntime s' = Some m → is_isize m) →
  cfs_wf s' ∧ (ready_queue s').*2 ≡ₚ t :: (ready_queue s).*2.
Proof.
  intros Hwf Hn Hq Hv Hid Hp Hr Hu Hnice Hm.
  assert (bt_get (v, id_pool s) (ready_queue s) = None) as Hnone.
  { apply bt_get_None. intros ([[v' i'] u] & Heq & Hin)%list_elem_of_fmap.
    simplify_eq/=. apply Hwf in Hin as (_ & _ & ?). lia. }
  assert (ready_queue s' ≡ₚ ((v, id_pool s), t) :: ready_queue s) as Hperm.
  { rewrite Hq. by apply bt_insert_perm. }
  split; [|by rewrite Hperm].
  split.
  - rewrite Hq. apply bt_insert_sorted, Hwf.
  - rewrite Hperm. simpl. constructor; [done|]. apply Hwf.
  - intros w i u Hin. rewrite Hperm in Hin.
    apply elem_of_cons in Hin as [?|Hin]; simplify_eq; [split_and!; auto; lia|].
    assert (u ≠ t) as Hne.
    { intros ->. apply Hn, list_elem_of_fmap. by exists ((w, i), t). }
    apply Hwf in Hin as (H1 & H2 & H3). destruct (Hu u Hne) as [-> ->].
    split_and!; auto; lia.
  - intros u. rewrite Hnice. apply Hwf.
  - done.
  - rewrite Hp. destruct Hwf. lia.
Qed.

Lemma refresh_min_wf s : cfs_wf s → cfs_wf (refresh_min s).
Proof.
  intros [H1 H2 H3 H4 H5 H6]. split; try done. simpl. intros m Hm.
  destruct (bt_first (ready_queue s)) as [[[v i] t]|] eqn:E; simplify_eq.
  unfold bt_first in E. destruct (ready_queue s) as [|e q] eqn:Eq; simplify_eq/=.
  destruct (H3 m i t) as (Hv & _ & _); [left|].
  destruct (get_vruntime_ok t s (H4 t)) as (v & Hv' & ?).
  rewrite Hv in Hv'. by simplify_eq.
Qed.

Lemma refresh_min_queue s : ready_queue (refresh_min s) = ready_queue s.
Proof. done. Qed.

(** Dropping entries keeps the invariant. *)
Lemma cfs_sub_wf s q :
  cfs_wf s → bt_sorted q → (∃ e, ready_queue s ≡ₚ e :: q) → cfs_wf (set_queue q s).
Proof.
  intros Hwf Hs [e He]. split; simpl; try apply Hwf; [done|..].
  - pose proof (wf_nodup s Hwf) as Hn. rewrite He in Hn. simpl in Hn.
    by apply NoDup_cons in Hn as [_ ?].
  - intros v i t Hin. apply Hwf. rewrite He. by right.
Qed.

Lemma cfs_add_ok s t :
  cfs_wf s → t ∉ (ready_queue s).*2 → cfs_can_add s t →
  cfs_wf (cfs_add_task t s) ∧
  (ready_queue (cfs_add_task t s)).*2 ≡ₚ t :: (ready_queue s).*2.
Proof.
  intros Hwf Hn [Hr Hd]. unfold cfs_add_task.
  set (s1 := match min_vruntime s with None => _ | Some _ => _ end).
  assert (is_isize (default 0 (min_vruntime s1))) as Hm.
  { subst s1. destruct (min_vruntime s) as [m|] eqn:E; simpl.
    - rewrite E. by apply (wf_min s Hwf).
    - unfold is_isize. lia. }
  assert (∃ m, min_vruntime s1 = Some m) as [m Em].
  { subst s1. destruct (min_vruntime s) as [m|] eqn:E; simpl; eauto. }
  assert (init_vruntime s1 = init_vruntime s ∧ delta s1 = delta s ∧ nice s1 = nice s ∧
          id s1 = id s ∧ ready_queue s1 = ready_queue s ∧ id_pool s1 = id_pool s)
    as (E1 & E2 & E3 & E4 & E5 & E6).
  { subst s1. by destruct (min_vruntime s). }
  clearbody s1. simpl. rewrite Em in Hm |- *. simpl in Hm |- *.
  rewrite E5, E6.
  match goal with |- context [refresh_min ?x] => set (s2 := x) end.
  enough (cfs_wf s2 ∧ (ready_queue s2).*2 ≡ₚ t :: (ready_queue s).*2) as [H1 H2].
  { split; [by apply refresh_min_wf|done]. }
  pose proof (wf_pool s Hwf) as Hp.
  apply (cfs_insert_wf s s2 t m); simpl; try done.
  - rewrite (get_vruntime_delta0 t s2); simpl; rewrite ?E3, ?E2, ?fn_lookup_insert;
      [done|apply Hwf|done|done].
  - by rewrite fn_lookup_insert.
  - rewrite to_i64_small by lia. done.
  - intros u Hne. split.
    + apply get_vruntime_ext; simpl; rewrite ?E1, ?E2, ?E3; try done.
      by rewrite fn_lookup_insert_ne.
    + rewrite fn_lookup_insert_ne by done. by rewrite E4.
  - intros u. by rewrite E3.
  - intros m' Hm'. by simplify_eq.
Qed.

Lemma cfs_put_ok s t p :
  cfs_wf s → t ∉ (ready_queue s).*2 → cfs_can_put s t →
  ∃ s', cfs_put_prev_task t p s = Ok s' ∧ cfs_wf s' ∧
    (ready_queue s').*2 ≡ₚ t :: (ready_queue s).*2.
Proof.
  intros Hwf Hn Hr. unfold cfs_put_prev_task. simpl.
  match goal with |- context [get_vruntime t ?x] => set (s1 := x) end.
  destruct (get_vruntime_ok t s1) as (v & Hv & _); [apply Hwf|].
  rewrite Hv. simpl. eexists. split; [done|].
  pose proof (wf_pool s Hwf) as Hp.
  apply (cfs_insert_wf s _ t v); simpl; try done.
  - by rewrite fn_lookup_insert.
  - rewrite to_i64_small by (unfold cfs_can_put in *; lia). done.
  - intros u Hne. split; [by apply get_vruntime_ext|].
    by rewrite fn_lookup_insert_ne.
  - apply Hwf.
Qed.

(** Changing the priority leaves every virtual runtime as it is. *)
Lemma set_priority_ok (s s' : CFScheduler) (t : TaskRef) (prio : Z) (b : bool) :
  (∀ u, -20 ≤ nice s u ≤ 19) → cfs_set_priority t prio s = Ok (b, s') →
  (∀ u, get_vruntime u s' = get_vruntime u s) ∧ (∀ u, -20 ≤ nice s' u ≤ 19) ∧
  b = bool_decide (-20 ≤ prio ≤ 19).
Proof.
  intros Hn. unfold cfs_set_priority, task_set_priority.
  case_decide as Hp; [|intros [= <- <-]; by rewrite bool_decide_eq_false_2].
  destruct (get_vruntime_ok t s (Hn t)) as (v & Hv & Hr). rewrite Hv. simpl.
  intros [= <- <-]. rewrite bool_decide_eq_true_2 by done. split_and!; [|simpl|done].
  - intros u. destruct (decide (u = t)) as [->|Hne].
    + rewrite Hv. rewrite get_vruntime_delta0; simpl; by rewrite ?fn_lookup_insert.
    + apply get_vruntime_ext; simpl; by rewrite fn_lookup_insert_ne.
  - intros u. destruct (decide (u = t)) as [->|Hne].
    + by rewrite fn_lookup_insert.
    + by rewrite fn_lookup_insert_ne.
Qed.

Lemma cfs_priority_wf s t n :
  cfs_wf s → ∃ b s', cfs_set_priority t n s = Ok (b, s') ∧ cfs_wf s' ∧ ready_queue s' = ready_queue s.
Proof.
  intros Hwf. destruct (get_vruntime_ok t s (wf_nice s Hwf t)) as (v & Hv & _).
  assert (∃ b s', cfs_set_priority t n s = Ok (b, s') ∧ ready_queue s' = ready_queue s ∧ id s' = id s ∧
    id_pool s' = id_pool s ∧ min_vruntime s' = min_vruntime s) as (b & s' & E & Eq & Ei & Ep & Em).
  { unfold cfs_set_priority, task_set_priority. case_decide; [rewrite Hv|]; by do 2 eexists. }
  exists b, s'. split; [done|]. split; [|done]. destruct (set_priority_ok s s' t n b (wf_nice s Hwf) E) as (Hr & Hn & _).
  destruct Hwf as [H1 H2 H3 H4 H5 H6]. split; rewrite ?Eq, ?Ep, ?Em; try done.
  intros w i u Hin. rewrite Hr, Ei. by apply H3.
Qed.

#[global] Program Instance Cfs_SchedulerLaws : SchedulerLaws CFScheduler := {
  sched_wf := cfs_wf;
  queued s := (ready_queue s).*2;
  sched_can_add := cfs_can_add;
  sched_can_put := cfs_can_put
}.
Next Obligation.
  intros s t Hwf Hn Ha. eexists. split; [done|]. by apply cfs_add_ok.
Qed.
Next Obligation. intros s t p Hwf Hn Ha. by apply cfs_put_ok. Qed.
Next Obligation.
  intros s Hwf. simpl. unfold cfs_pick_next_task, bt_pop_first.
  destruct (ready_queue s) as [|[k t] q] eqn:E; simpl.
  - do 2 eexists. split; [done|]. split; [done|]. by rewrite E.
  - do 2 eexists. split; [done|]. split; [|simpl; reflexivity].
    apply cfs_sub_wf; [done| |exists (k, t); by rewrite E].
    pose proof (wf_sorted s Hwf) as Hs. rewrite E in Hs.
    destruct k. by apply bt_sorted_cons in Hs as [_ ?].
Qed.
Next Obligation.
  intros s t Hwf ([[v i] t'] & -> & Hin)%list_elem_of_fmap. simpl in *.
  unfold cfs_remove_task. pose proof (wf_key s Hwf v i t' Hin) as (Hv & Hi & _).
  rewrite Hv. simpl. rewrite Hi.
  pose proof (bt_elem_get _ _ _ (wf_sorted s Hwf) Hin) as Hg. rewrite Hg.
  eexists. split; [done|].
  pose proof (bt_remove_perm _ _ _ Hg) as Hperm.
  split; [|exact (fmap_Permutation snd _ _ Hperm)].
  apply refresh_min_wf, cfs_sub_wf; eauto. apply bt_remove_sorted, Hwf.
Qed.
Next Obligation.
  intros s t Hwf Hn. simpl. unfold cfs_task_tick.
  assert (cfs_wf (task_task_tick t s)) as Hwf'.
  { destruct Hwf as [H1 H2 H3 H4 H5 H6]. split; try done. simpl.
    intros v i u Hin. pose proof (H3 v i u Hin) as (Hv & Hi & Hl). split_and!; try done.
    rewrite <- Hv. apply get_vruntime_ext; try done. simpl.
    apply fn_lookup_insert_ne. intros ->. apply Hn, list_elem_of_fmap. by exists ((v, i), u). }
  destruct (min_vruntime (task_task_tick t s)); [|by do 2 eexists].
  destruct (get_vruntime_ok t (task_task_tick t s)) as (v & -> & _); [apply Hwf|].
  by do 2 eexists.
Qed.
Next Obligation.
  intros s t n Hwf. destruct (cfs_priority_wf s t n Hwf) as (b & s' & ? & ? & Hq). exists b, s'.
  split; [done|]. split; [done|]. cbn. by rewrite Hq.
Qed.
End Cfs.

(** ** Clients of the interface

    A run queue as the executor uses it: tasks are spawned, picked by a CPU,
    ticked while they run, put back, taken out of the queue, or given a priority.  [run] lists
    the tasks held by CPUs, [all] every task ever handed to the scheduler. *)
Section client.
Context {ST : Type} `{SchedulerLaws ST}.

Inductive rq_step : ST * list TaskRef * list TaskRef → ST * list TaskRef * list TaskRef → Prop :=
  | rq_add s run all t s' :
      t ∉ all → sched_can_add s t → add_task t s = Ok s' →
      rq_step (s, run, all) (s', run, t :: all)
  | rq_pick s run all t s' :
      pick_next_task s = Ok (Some t, s') →
      rq_step (s, run, all) (s', t :: run, all)
  | rq_put s run1 t run2 all p s' :
      sched_can_put s t → put_prev_task t p s = Ok s' →
      rq_step (s, run1 ++ t :: run2, all) (s', run1 ++ run2, all)
  | rq_tick s run all t b s' :
      t ∈ run → task_tick t s = Ok (b, s') →
      rq_step (s, run, all) (s', run, all)
  | rq_remove s run all t s' :
      t ∈ queued s → remove_task t s = Ok (Some t, s') →
      rq_step (s, run, all) (s', t :: run, all)
  | rq_priority s run all t n b s' :
      t ∈ all → set_priority t n s = Ok (b, s') →
      rq_step (s, run, all) (s', run, all).

Definition rq_inv (c : ST * list TaskRef * list TaskRef) : Prop :=
  let '(s, run, all) := c in
  sched_wf s ∧ queued s ++ run ≡ₚ all ∧ NoDup all.

Lemma rq_step_inv c c' : rq_inv c → rq_step c c' → rq_inv c'.
Proof.
  intros Hinv Hs. destruct Hs as [s run all t s' Hn Hc Ha|s run all t s' Hp|
    s run1 t run2 all p s' Hc Hp|s run all t b s' Ht Hk|s run all t s' Ht Hr|s run all t n b s' Ht Hk];
    destruct Hinv as (Hwf & Hperm & Hnd).
  - assert (t ∉ queued s) as Hq by (intros ?; apply Hn; rewrite <- Hperm; set_solver).
    destruct (law_add s t Hwf Hq Hc) as (s2 & Ha' & Hwf2 & Hp2).
    rewrite Ha in Ha'; simplify_eq. split_and!; [done| |by constructor].
    by rewrite Hp2, <- Hperm.
  - destruct (law_pick s Hwf) as (o & s2 & Hp' & Hwf2 & Hq).
    rewrite Hp in Hp'; simplify_eq. split_and!; [done| |done].
    rewrite <- Hperm, Hq. by rewrite <- Permutation_middle.
  - assert (t ∉ queued s) as Hq.
    { intros Ht. rewrite <- Hperm in Hnd. apply NoDup_app in Hnd as (_ & Hd & _).
      apply (Hd t Ht). set_solver. }
    destruct (law_put s t p Hwf Hq Hc) as (s2 & Hp' & Hwf2 & Hp2).
    rewrite Hp in Hp'; simplify_eq. split_and!; [done| |done].
    rewrite <- Hperm, Hp2. simpl.
    by rewrite <- (Permutation_middle run1), <- (Permutation_middle (queued s)).
  - assert (t ∉ queued s) as Hq.
    { intros Hin. rewrite <- Hperm in Hnd. apply NoDup_app in Hnd as (_ & Hd & _).
      by apply (Hd t Hin). }
    destruct (law_tick s t Hwf Hq) as (b2 & s2 & Hk' & Hwf2 & Hq2).
    rewrite Hk in Hk'; simplify_eq. split_and!; [done| |done]. by rewrite Hq2.
  - destruct (law_remove s t Hwf Ht) as (s2 & Hr' & Hwf2 & Hq).
    rewrite Hr in Hr'; simplify_eq. split_and!; [done| |done].
    rewrite <- Hperm, Hq. by rewrite <- Permutation_middle.
  - destruct (law_priority s t n Hwf) as (b2 & s2 & Hk' & Hwf2 & Hq2).
    rewrite Hk in Hk'; simplify_eq. split_and!; [done| |done]. by rewrite Hq2.
Qed.

(** C12: any scheduler meeting the interface and its laws - FIFO, round robin and
    CFS do - conserves tasks: after any sequence of spawns the scheduler can take,
    picks, ticks of running tasks, put-backs, changes of priority and removals of
    queued tasks, starting from an empty queue, the queued tasks and the running
    ones are together exactly the tasks handed over, each once, and the next pick
    does not panic. *)
Theorem scheduler_conserves_tasks s0 s run all :
  sched_wf s0 → queued s0 = [] →
  rtc rq_step (s0, [], []) (s, run, all) →
  queued s ++ run ≡ₚ all ∧ NoDup all ∧ ∃ r, pick_next_task s = Ok r.
Proof.
  intros Hwf Hq Hrtc.
  assert (rq_inv (s, run, all)) as (Hwf' & Hp & Hn).
  { apply (rtc_invariant _ _ _ _ rq_step_inv) in Hrtc; [done|].
    split_and!; [done| |constructor]. by rewrite Hq. }
  split_and!; [done..|]. destruct (law_pick s Hwf') as (o & s' & Hr & _). eauto.
Qed.
End client.

(** A run of the FIFO scheduler over the plain list: two spawns and a pick. *)
Lemma scheduler_conserves_tasks_witness :
  let s0 : Fifo.FifoScheduler (L := nlist TaskRef) := Fifo.fifo_new in
  let s1 := Fifo.fifo_add_task 2 (Fifo.fifo_add_task 1 s0) in
  let s2 := (Fifo.fifo_pick_next_task s1).2 in
  queued s2 ++ [1%nat] ≡ₚ [2%nat; 1%nat] ∧ NoDup [2%nat; 1%nat] ∧
  ∃ r, pick_next_task s2 = Ok r.
Proof.
  intros s0 s1 s2.
  apply (scheduler_conserves_tasks (ST := Fifo.FifoScheduler (L := nlist TaskRef))
    s0 s2 [1%nat] [2%nat; 1%nat]).
  - exact I.
  - reflexivity.
  - eapply rtc_l; [apply (rq_add _ _ _ 1%nat); [set_solver|exact I|reflexivity]|].
    eapply rtc_l; [apply (rq_add _ _ _ 2%nat); [set_solver|exact I|reflexivity]|].
    eapply rtc_l; [apply (rq_pick _ _ _ 1%nat); reflexivity|].
    apply rtc_refl.
Defined.

Module RoundRobinProps.
Import RoundRobin.

(** A task whose time slice was just reset runs for exactly
    [MAX_TIME_SLICE] ticks: the [n]-th consecutive tick asks for a reschedule
    exactly when [n] has reached the slice, and not before. *)
Theorem rr_slice_exact (S : Z) (t : TaskRef) (n : nat) (s : RRScheduler) :
  0 < S < 2 ^ 63 → (0 < n)%nat → Z.of_nat n < 2 ^ 63 →
  (tick_n t n (reset_time_slice S t s)).1 = bool_decide (S ≤ Z.of_nat n).
Proof.
  intros HS Hn Hn2. destruct n as [|n]; [lia|]. simpl.
  assert (time_slice (reset_time_slice S t s) t = S) as Hslice.
  { simpl. rewrite fn_lookup_insert. apply to_i64_small. lia. }
  rewrite tick_n_slice; rewrite ?Hslice; [|lia..].
  apply bool_decide_ext. lia.
Qed.

Lemma rr_slice_exact_witness :
  (tick_n 7 5 (reset_time_slice 5 7 {| ready_queue := []; time_slice := λ _, 0 |})).1
  = bool_decide (5 ≤ Z.of_nat 5).
Proof. apply (rr_slice_exact 5 7 5); lia. Defined.

(** Scheduling without preemption is a rotation: after [k] rounds the
    first [k] tasks of the queue have each run once, in queue order, and wait
    at the end; so each of [n] ready tasks runs once every [n] rounds. *)
Theorem rr_rounds_rotate (S : Z) (k : nat) (s : RRScheduler) :
  (k ≤ length (ready_queue s))%nat →
  ready_queue (Nat.iter k (round S) s) =
    drop k (ready_queue s) ++ take k (ready_queue s).
Proof.
  induction k as [|k IH]; intros Hk; simpl.
  - by rewrite drop_0, app_nil_r.
  - rewrite round_queue, IH by lia.
    destruct (lookup_lt_is_Some_2 (ready_queue s) k) as [x Hx]; [lia|].
    rewrite (drop_S (ready_queue s) x k Hx), (take_S_r (ready_queue s) k x Hx).
    simpl. by rewrite take_0, drop_0, app_assoc.
Qed.

Lemma rr_rounds_rotate_witness :
  ready_queue (Nat.iter 2 (round 5) {| ready_queue := [1; 2; 3]%nat; time_slice := λ _, 0 |})
  = [3; 1; 2]%nat.
Proof. apply (rr_rounds_rotate 5 2 {| ready_queue := [1; 2; 3]%nat; time_slice := λ _, 0 |}).
  simpl. lia. Defined.
End RoundRobinProps.

Module CfsProps.
Import Cfs.

(** [pick_next_task] chooses the task with the least virtual runtime, the
    oldest one among equals, and takes it out of the queue. *)
Theorem cfs_pick_least_vruntime (s s' : CFScheduler) (t : TaskRef) :
  cfs_wf s → cfs_pick_next_task s = (Some t, s') →
  t ∉ (ready_queue s').*2 ∧
  ∃ v, get_vruntime t s = Ok v ∧
    ∀ u w, u ∈ (ready_queue s').*2 → get_vruntime u s = Ok w →
      v < w ∨ (v = w ∧ id s t < id s u).
Proof.
  intros Hwf Hp. unfold cfs_pick_next_task, bt_pop_first in Hp.
  destruct (ready_queue s) as [|[[v i] t'] q] eqn:E; simplify_eq/=.
  pose proof (wf_nodup s Hwf) as Hnd. rewrite E in Hnd. simpl in Hnd.
  apply NoDup_cons in Hnd as [Hnin _]. split; [done|].
  pose proof (wf_sorted s Hwf) as Hs. rewrite E in Hs.
  apply bt_sorted_cons in Hs as [Hlt _].
  destruct (wf_key s Hwf v i t) as (Hv & Hi & _); [rewrite E; left|].
  exists v. split; [done|]. intros u w ([[v2 i2] u'] & -> & Hin)%list_elem_of_fmap Hw.
  destruct (wf_key s Hwf v2 i2 u') as (Hv2 & Hi2 & _); [rewrite E; by right|].
  simpl in Hw. rewrite Hw in Hv2. simplify_eq. simpl.
  apply (Hlt (v2, id s u')). apply list_elem_of_fmap. eexists. split; [|exact Hin]. done.
Qed.

Definition demo : CFScheduler := cfs_add_task 2 (cfs_add_task 1 cfs_new).

Lemma new_wf : cfs_wf cfs_new.
Proof. split; simpl; try done; [constructor|constructor|set_solver]. Qed.

Lemma demo_wf : cfs_wf demo.
Proof.
  apply cfs_add_ok; [apply cfs_add_ok; [apply new_wf|..]|..].
  - set_solver.
  - done.
  - vm_compute. set_solver.
  - done.
Qed.

Lemma cfs_pick_least_vruntime_witness :
  1%nat ∉ (ready_queue (cfs_pick_next_task demo).2).*2 ∧
  ∃ v, get_vruntime 1 demo = Ok v ∧
    ∀ u w, u ∈ (ready_queue (cfs_pick_next_task demo).2).*2 → get_vruntime u demo = Ok w →
      v < w ∨ (v = w ∧ id demo 1%nat < id demo u).
Proof.
  apply (cfs_pick_least_vruntime demo (cfs_pick_next_task demo).2 1).
  - apply demo_wf.
  - reflexivity.
Defined.

(** Changing the priority of a task never moves it in virtual time: the
    virtual runtime before and after [set_priority] is the same, whatever the
    old and new nice values, so the key of a queued task stays valid. *)
Theorem cfs_set_priority_keeps_vruntime (s s' : CFScheduler) (t : TaskRef) (prio : Z) (b : bool) :
  (∀ u, -20 ≤ nice s u ≤ 19) → cfs_set_priority t prio s = Ok (b, s') →
  (∀ u, get_vruntime u s' = get_vruntime u s) ∧ (∀ u, -20 ≤ nice s' u ≤ 19) ∧
  b = bool_decide (-20 ≤ prio ≤ 19).
Proof. apply set_priority_ok. Qed.

Lemma cfs_set_priority_keeps_vruntime_witness :
  ∃ s', cfs_set_priority 1 (-5) demo = Ok (true, s') ∧
    (∀ u, get_vruntime u s' = get_vruntime u demo) ∧ (∀ u, -20 ≤ nice s' u ≤ 19) ∧
    true = bool_decide (-20 ≤ -5 ≤ 19).
Proof.
  eexists. split; [reflexivity|].
  eapply (cfs_set_priority_keeps_vruntime demo _ 1 (-5)); [|reflexivity].
  intros u. apply demo_wf.
Defined.

(** A task that has already run ([delta <> 0]) and is added again is filed
    under the minimum virtual runtime while its own virtual runtime is
    different, so [remove_task] does not find it: it reports [None] and the
    task stays queued. *)
Theorem cfs_readded_task_not_removable (s : CFScheduler) (t : TaskRef) :
  cfs_wf s → t ∉ (ready_queue s).*2 → nice s t = 0 → 0 < delta s t < 2 ^ 63 →
  id_pool s + 1 < 2 ^ 63 →
  cfs_remove_task t (cfs_add_task t s) = Ok (None, cfs_add_task t s) ∧
  t ∈ (ready_queue (cfs_add_task t s)).*2.
Proof.
  intros Hwf Hn Hnice Hd Hr. unfold cfs_remove_task, cfs_add_task.
  set (s1 := match min_vruntime s with None => _ | Some _ => _ end).
  assert (delta s1 = delta s ∧ nice s1 = nice s ∧ ready_queue s1 = ready_queue s ∧
          id_pool s1 = id_pool s) as (E2 & E3 & E5 & E6).
  { subst s1. by destruct (min_vruntime s). }
  assert (is_isize (default 0 (min_vruntime s1))) as Hm.
  { subst s1. destruct (min_vruntime s) as [m|] eqn:E; simpl.
    - rewrite E. by apply (wf_min s Hwf).
    - unfold is_isize. lia. }
  clearbody s1. revert Hm. generalize (default 0 (min_vruntime s1)) as m. intros m Hm.
  simpl. rewrite E5, E6.
  match goal with |- context [refresh_min ?x] => set (s2 := x) end.
  assert (get_vruntime t (refresh_min s2) = Ok (to_i64 (m + delta s t))) as ->.
  { unfold get_vruntime. simpl. rewrite E3, Hnice, decide_True by done.
    by rewrite fn_lookup_insert, E2. }
  rewrite fn_lookup_insert. simpl. split.
  - rewrite bt_get_insert_ne.
    + assert (bt_get (to_i64 (m + delta s t), id_pool s) (ready_queue s) = None) as ->; [|done].
      apply bt_get_None. intros ([[v i] u] & Heq & Hin)%list_elem_of_fmap. simplify_eq/=.
      apply (wf_key s Hwf) in Hin as (_ & _ & ?). lia.
    + intros [=Heq]. revert Heq. unfold to_i64, wrap64, two64, is_isize in *.
      pose proof (Z.div_mod (m + delta s t) (2 ^ 64) ltac:(lia)).
      pose proof (Z.mod_pos_bound (m + delta s t) (2 ^ 64) ltac:(lia)).
      case_decide; intros; nia.
  - apply list_elem_of_fmap. exists ((m, id_pool s), t). split; [done|]. apply bt_get_elem, bt_get_insert_eq.
Qed.

Lemma cfs_readded_task_not_removable_witness :
  let s := task_task_tick 1 cfs_new in
  cfs_remove_task 1 (cfs_add_task 1 s) = Ok (None, cfs_add_task 1 s) ∧
  1%nat ∈ (ready_queue (cfs_add_task 1 s)).*2.
Proof.
  intros s. apply (cfs_readded_task_not_removable s 1).
  - split; simpl; try done; [constructor|constructor|set_solver].
  - set_solver.
  - reflexivity.
  - vm_compute. split; congruence.
  - reflexivity.
Defined.
End CfsProps.
