(* ===== verification/Memory.v ===== *)
(** Process address spaces ([modules/async_mem]): [MapArea] ([area.rs]),
    [MemBackend] ([backend.rs]) and [MemorySet] ([lib.rs]).

    The page table ([axhal::paging::PageTable]), the physical page allocator
    ([axalloc]) and the files behind a mapping are other code: they are the
    parameter [W] with the operations of the class [MemWorld].  An
    [Arc<Mutex<PhysPage>>] is a pointer ([PageRef]).  Addresses are integers;
    the additions of user-supplied addresses and sizes wrap at 64 bits as the
    release build does.  A slice range or a [drain] whose bounds underflow is
    far out of range in 64-bit arithmetic and panics; the model tests the
    bounds on integers and yields [Panic]. *)

From S2P Require Import Prelude BTree.

Definition PAGE_SIZE_4K : Z := 4096.
Notation PageRef := nat (only parsing).
Notation FileId := nat (only parsing).

(** The operations of other code that the memory module calls.  Sizes and
    addresses are in bytes; flags are [MappingFlags] bits. *)
Class MemWorld (W : Type) := {
  pt_map_fault_region : Z → Z → Z → W → outcome W;      (** vaddr, size, flags *)
  pt_map_region : Z → Z → Z → Z → W → outcome W;        (** vaddr, paddr, size, flags *)
  pt_unmap_region : Z → Z → W → outcome W;              (** vaddr, size *)
  pt_update_region : Z → Z → Z → W → outcome W;         (** vaddr, size, flags *)
  pt_map_overwrite : Z → Z → Z → W → outcome W;         (** vaddr, paddr, flags *)
  pt_get_entry : Z → W → option (bool * Z);             (** is_present, flags *)
  page_alloc : W → outcome (PageRef * W);
  page_alloc_contiguous : nat → option (list Z) → W → outcome (list (option PageRef) * W);
  page_paddr : PageRef → W → Z;
  page_bytes : PageRef → W → list Z;
  page_set_bytes : PageRef → list Z → W → W;
  (** [read_full] on a file at a position: the bytes read, and the error that
      stopped it if any. *)
  file_read_full : FileId → Z → nat → W → list Z * option AxError;
  file_write : FileId → Z → list Z → W → outcome Z * W
}.

(** ** Backing files ([backend.rs], [FileExt] of [async_fs/src/api/port.rs]) *)

Record MemBackend := {
  b_file : FileId;
  b_pos : Z;            (** the cursor of the opened file *)
  b_is_file : bool;     (** whether [inner] downcasts to [File] *)
  b_writable : bool
}.

Definition backend_at (b : MemBackend) (pos : Z) : MemBackend :=
  {| b_file := b_file b; b_pos := pos; b_is_file := b_is_file b; b_writable := b_writable b |}.

(** [seek(SeekFrom::Current(delta))] and [seek(SeekFrom::Start(pos))]. *)
Definition backend_seek_current (delta : Z) (b : MemBackend) : outcome MemBackend :=
  pos ← ok_or (checked_add_u64 (b_pos b) (to_i64 delta)) InvalidInput;
  Ok (backend_at b pos).

(** [MemBackend::clone]: panics unless the backing object is a [File]. *)
Definition backend_clone (b : MemBackend) : outcome MemBackend :=
  if b_is_file b then Ok b else Panic.

(** [clone] followed by [seek(Current(delta)).unwrap()], as the splits do. *)
Definition clone_seek (ob : option MemBackend) (delta : Z) : outcome (option MemBackend) :=
  match ob with
  | Some b => b ← backend_clone b; b ← unwrap (backend_seek_current delta b); Ok (Some b)
  | None => Ok None
  end.

Section backend.
Context {W : Type} `{MemWorld W}.

(** [FileExt::read_from_seek] with [SeekFrom::Current(delta)] into a buffer
    of [len] bytes: the bytes read or the error, and the file cursor left
    behind (restored on success, not on a read error). *)
Definition read_from_seek (delta : Z) (len : nat) (b : MemBackend) (w : W)
    : outcome ((list Z * option AxError) * MemBackend) :=
  let old_pos := b_pos b in
  b1 ← unwrap (backend_seek_current delta b);
  let '(bytes, err) := file_read_full (b_file b1) (b_pos b1) len w in
  match err with
  | Some _ => Ok ((bytes, err), backend_at b1 (wrap64 (b_pos b1 + Z.of_nat (length bytes))))
  | None => Ok ((bytes, None), backend_at b1 old_pos)
  end.

(** [FileExt::write_to_seek] with [SeekFrom::Start(pos)]: the cursor is put
    back whatever the write returns. *)
Definition write_to_seek (pos : Z) (buf : list Z) (b : MemBackend) (w : W)
    : outcome Z * MemBackend * W :=
  let '(r, w) := file_write (b_file b) pos buf w in (r, b, w).
End backend.

(** ** Areas ([area.rs]) *)

Record MapArea := {
  pages : list (option PageRef);
  vaddr : Z;
  shared : bool;
  flags : Z;
  backend : option MemBackend
}.

Definition with_pages (a : MapArea) (ps : list (option PageRef)) : MapArea :=
  {| pages := ps; vaddr := vaddr a; shared := shared a; flags := flags a; backend := backend a |}.
Definition with_flags (a : MapArea) (f : Z) : MapArea :=
  {| pages := pages a; vaddr := vaddr a; shared := shared a; flags := f; backend := backend a |}.
Definition with_backend (a : MapArea) (b : option MemBackend) : MapArea :=
  {| pages := pages a; vaddr := vaddr a; shared := shared a; flags := flags a; backend := b |}.
Definition set_shared (a : MapArea) (sh : bool) : MapArea :=
  {| pages := pages a; vaddr := vaddr a; shared := sh; flags := flags a; backend := backend a |}.

Definition size (a : MapArea) : Z := Z.of_nat (length (pages a)) * PAGE_SIZE_4K.
Definition end_va (a : MapArea) : Z := vaddr a + size a.
Definition allocated (a : MapArea) : bool := forallb (λ p, bool_decide (is_Some p)) (pages a).
Definition is_aligned_4k (x : Z) : bool := bool_decide (x mod PAGE_SIZE_4K = 0).
Definition align_down_4k (x : Z) : Z := x - x mod PAGE_SIZE_4K.

Definition overlap_with (a : MapArea) (start end_ : Z) : bool :=
  bool_decide (vaddr a ≤ start ∧ start < end_va a ∨ start ≤ vaddr a ∧ vaddr a < end_).
Definition contained_in (a : MapArea) (start end_ : Z) : bool :=
  bool_decide (start ≤ vaddr a ∧ end_va a ≤ end_).
Definition contains (a : MapArea) (start end_ : Z) : bool :=
  bool_decide (vaddr a ≤ start ∧ end_ ≤ end_va a).
Definition strict_contain (a : MapArea) (start end_ : Z) : bool :=
  bool_decide (vaddr a < start ∧ end_ < end_va a).

(** [Vec::drain(i..)]: what stays and what is removed. *)
Definition drain_from {A} (i : Z) (l : list A) : outcome (list A * list A) :=
  if decide (0 ≤ i ≤ Z.of_nat (length l))
  then Ok (take (Z.to_nat i) l, drop (Z.to_nat i) l) else Panic.

(** [Vec::drain(i..j)]: what stays. *)
Definition drain_range {A} (i j : Z) (l : list A) : outcome (list A) :=
  if decide (0 ≤ i ≤ j ∧ j ≤ Z.of_nat (length l))
  then Ok (take (Z.to_nat i) l ++ drop (Z.to_nat j) l) else Panic.

(** A page of zeroes. *)
Definition zero_page : list Z := replicate (Z.to_nat PAGE_SIZE_4K) 0.

(** [MappingFlags::contains]. *)
Definition flags_contains (f g : Z) : bool := bool_decide (Z.land f g = g).

Section area.
Context {W : Type} `{MemWorld W}.

Definition new_lazy (start : Z) (num_pages : nat) (f : Z) (b : option MemBackend) (w : W)
    : outcome (MapArea * W) :=
  w ← unwrap (pt_map_fault_region start (Z.of_nat num_pages * PAGE_SIZE_4K) f w);
  Ok ({| pages := replicate num_pages None; vaddr := start; shared := false;
         flags := f; backend := b |}, w).

Definition new_without_alloc (start paddr : Z) (num_pages : nat) (f : Z) (w : W)
    : outcome (MapArea * W) :=
  w ← unwrap (pt_map_region start paddr (Z.of_nat num_pages * PAGE_SIZE_4K) f w);
  Ok ({| pages := replicate num_pages None; vaddr := start; shared := false;
         flags := f; backend := None |}, w).

(** [pages[0].as_ref().unwrap()] panics without a first page. *)
Definition new_alloc (start : Z) (num_pages : nat) (f : Z) (data : option (list Z))
    (b : option MemBackend) (w : W) : outcome (MapArea * W) :=
  '(ps, w) ← page_alloc_contiguous num_pages data w;
  p0 ← match ps with Some p0 :: _ => Ok p0 | _ => Panic end;
  w ← unwrap (pt_map_region start (page_paddr p0 w) (Z.of_nat num_pages * PAGE_SIZE_4K) f w);
  Ok ({| pages := ps; vaddr := start; shared := false; flags := f; backend := b |}, w).

Definition dealloc (a : MapArea) (w : W) : outcome (MapArea * W) :=
  w ← unwrap (pt_unmap_region (vaddr a) (size a) w);
  Ok (with_pages a [], w).

(** A freshly allocated page receives the bytes read from the backing file
    over its old contents, or zeroes. *)
Definition fill_page (p : PageRef) (r : list Z * option AxError) (w : W) : W :=
  match r with
  | (bytes, None) => page_set_bytes p (bytes ++ drop (length bytes) (page_bytes p w)) w
  | (_, Some _) => page_set_bytes p zero_page w
  end.

Definition handle_page_fault (addr f : Z) (a : MapArea) (w : W)
    : outcome (bool * MapArea * W) :=
  _ ← rassert (bool_decide (vaddr a ≤ addr ∧ addr < end_va a));
  if negb (flags_contains (flags a) f) then Ok (false, a, w) else
  let page_index := (addr - vaddr a) / PAGE_SIZE_4K in
  match pages a !! Z.to_nat page_index with
  | None => Ok (false, a, w)
  | Some (Some _) => Ok (true, a, w)
  | Some None =>
      '(page, w) ← unwrap (page_alloc w);
      '(a, w) ← match backend a with
                | Some b =>
                    '(r, b) ← read_from_seek (page_index * PAGE_SIZE_4K)
                                (Z.to_nat PAGE_SIZE_4K) b w;
                    Ok (with_backend a (Some b), fill_page page r w)
                | None =>
                    Ok (a, page_set_bytes page zero_page w)
                end;
      w ← unwrap (pt_map_overwrite (align_down_4k addr) (page_paddr page w) (flags a) w);
      Ok (true, with_pages a (<[Z.to_nat page_index := Some page]> (pages a)), w)
  end.

Definition sync_page_with_backend (page_index : nat) (a : MapArea) (w : W)
    : outcome (MapArea * W) :=
  match pages a !! page_index with
  | None => Panic
  | Some None => Ok (a, w)
  | Some (Some page) =>
      match backend a with
      | Some b =>
          if b_writable b then
            let '(r, b, w) := write_to_seek (Z.of_nat page_index * PAGE_SIZE_4K)
                                (page_bytes page w) b w in
            _ ← unwrap r;
            Ok (with_backend a (Some b), w)
          else Ok (a, w)
      | None => Ok (a, w)
      end
  end.

Definition shrink_left (new_start : Z) (a : MapArea) (w : W) : outcome (MapArea * W) :=
  _ ← rassert (is_aligned_4k new_start);
  let delete_size := new_start - vaddr a in
  let delete_pages := delete_size / PAGE_SIZE_4K in
  b ← match backend a with
      | Some b => b ← unwrap (backend_seek_current delete_size b); Ok (Some b)
      | None => Ok None
      end;
  ps ← drain_range 0 delete_pages (pages a);
  w ← unwrap (pt_unmap_region (vaddr a) delete_size w);
  Ok ({| pages := ps; vaddr := new_start; shared := shared a; flags := flags a;
         backend := b |}, w).

Definition shrink_right (new_end : Z) (a : MapArea) (w : W) : outcome (MapArea * W) :=
  _ ← rassert (is_aligned_4k new_end);
  let delete_size := end_va a - new_end in
  let delete_pages := delete_size / PAGE_SIZE_4K in
  let len := Z.of_nat (length (pages a)) in
  ps ← drain_range (len - delete_pages) len (pages a);
  w ← unwrap (pt_unmap_region new_end delete_size w);
  Ok (with_pages a ps, w).

(** [split]: the left part (the receiver) and the right part. *)
Definition split (addr : Z) (a : MapArea) : outcome (MapArea * MapArea) :=
  _ ← rassert (is_aligned_4k addr);
  let right_page_count := (end_va a - addr) / PAGE_SIZE_4K in
  '(left_pages, right_pages) ←
    drain_from (Z.of_nat (length (pages a)) - right_page_count) (pages a);
  b ← clone_seek (backend a) (addr - vaddr a);
  Ok (with_pages a left_pages,
      {| pages := right_pages; vaddr := addr; shared := shared a; flags := flags a;
         backend := b |}).

Definition split3 (start end_ : Z) (a : MapArea) : outcome (MapArea * MapArea * MapArea) :=
  _ ← rassert (is_aligned_4k start);
  _ ← rassert (is_aligned_4k end_);
  _ ← rassert (bool_decide (start < end_));
  _ ← rassert (bool_decide (vaddr a < start));
  _ ← rassert (bool_decide (end_ < end_va a));
  '(ps, right_pages) ←
    drain_from (Z.of_nat (length (pages a)) - (end_va a - end_) / PAGE_SIZE_4K) (pages a);
  let a1 := with_pages a ps in
  '(left_pages, mid_pages) ←
    drain_from (Z.of_nat (length (pages a1)) - (end_va a1 - start) / PAGE_SIZE_4K) (pages a1);
  mid_backend ← clone_seek (backend a) (start - vaddr a);
  right_backend ← clone_seek (backend a) (end_ - vaddr a);
  Ok (with_pages a left_pages,
      {| pages := mid_pages; vaddr := start; shared := shared a; flags := flags a;
         backend := mid_backend |},
      {| pages := right_pages; vaddr := end_; shared := shared a; flags := flags a;
         backend := right_backend |}).

(** [remove_mid]: the left part (the receiver) and the new right area. *)
Definition remove_mid (left_end right_start : Z) (a : MapArea) (w : W)
    : outcome (MapArea * MapArea * W) :=
  _ ← rassert (is_aligned_4k left_end);
  _ ← rassert (is_aligned_4k right_start);
  _ ← rassert (bool_decide (left_end ≤ right_start));
  let delete_size := right_start - left_end in
  let lo := (left_end - vaddr a) / PAGE_SIZE_4K in
  let hi := (right_start - vaddr a) / PAGE_SIZE_4K in
  '(ps, right_pages) ← drain_from hi (pages a);
  right_backend ← clone_seek (backend a) (right_start - vaddr a);
  ps ← drain_range lo hi ps;
  w ← unwrap (pt_unmap_region left_end delete_size w);
  Ok (with_pages a ps,
      {| pages := right_pages; vaddr := right_start; shared := shared a; flags := flags a;
         backend := right_backend |}, w).

Definition update_flags (f : Z) (a : MapArea) (w : W) : outcome (MapArea * W) :=
  w ← unwrap (pt_update_region (vaddr a) (size a) f w);
  Ok (with_flags a f, w).
End area.

(** ** Memory sets ([lib.rs]) *)

Record SharedMemPermInfo := {
  perm_key : Z; perm_uid : Z; perm_gid : Z; perm_cuid : Z; perm_cgid : Z; perm_mode : Z
}.
Record SharedMemInfo := {
  info_perm : SharedMemPermInfo; info_size : Z;
  a_time : Z; d_time : Z; c_time : Z; c_pid : Z; l_pid : Z
}.
Record SharedMem := { sm_paddr : Z; sm_size : Z; sm_info : SharedMemInfo }.

Record MemorySet := {
  owned_mem : list (Z * MapArea);               (** [BTreeMap<usize, MapArea>] *)
  private_mem : list (Z * SharedMem);           (** [BTreeMap<i32, Arc<SharedMem>>] *)
  attached_mem : list (Z * Z * SharedMem)       (** start, flags, segment *)
}.

Definition with_owned (ms : MemorySet) (m : list (Z * MapArea)) : MemorySet :=
  {| owned_mem := m; private_mem := private_mem ms; attached_mem := attached_mem ms |}.

(** [axconfig::USER_MEMORY_START] is generated from the platform file: a
    parameter of [find_free_area]. *)

Definition page_count (sz : Z) : Z := wrap64 (sz + PAGE_SIZE_4K - 1) / PAGE_SIZE_4K.
Definition align_up_size (sz : Z) : Z := page_count sz * PAGE_SIZE_4K.

(** [assert!(owned_mem.insert(k, a).is_none())]. *)
Definition insert_new (a : MapArea) (m : list (Z * MapArea)) : outcome (list (Z * MapArea)) :=
  if bt_contains_key (vaddr a) m then Panic else Ok (bt_insert (vaddr a) a m).

(** The hand-written [drain_filter]: [pop_first] each area, and file it as
    overlapping or put it back in a new map. *)
Fixpoint drain_overlap (start end_ : Z) (m : list (Z * MapArea))
    (overlapped prev : list (Z * MapArea)) : list (Z * MapArea) * list (Z * MapArea) :=
  match m with
  | [] => (overlapped, prev)
  | (idx, a) :: m' =>
      if overlap_with a start end_
      then drain_overlap start end_ m' (overlapped ++ [(idx, a)]) prev
      else drain_overlap start end_ m' overlapped (bt_insert idx a prev)
  end.

Definition max_va (ms : MemorySet) : Z :=
  match bt_last (owned_mem ms) with Some (_, a) => end_va a | None => 0 end.

Inductive PagingError := PagingNoMemory | PagingNotMapped.

Section memory_set.
Context {W : Type} `{MemWorld W}.

Definition new_region (va sz : Z) (sh : bool) (f : Z) (data : option (list Z))
    (b : option MemBackend) (ms : MemorySet) (w : W) : outcome (MemorySet * W) :=
  let num_pages := Z.to_nat (page_count sz) in
  '(a, w) ← match data with
            | Some data => unwrap (new_alloc va num_pages f (Some data) b w)
            | None => new_lazy va num_pages f b w
            end;
  let a := if sh then set_shared a sh else a in
  m ← insert_new a (owned_mem ms);
  Ok (with_owned ms m, w).

(** One overlapping area of [split_for_area]. *)
Definition split_one (start end_ : Z) (a : MapArea) (m : list (Z * MapArea)) (w : W)
    : outcome (list (Z * MapArea) * W) :=
  if contained_in a start end_ then
    '(_, w) ← dealloc a w; Ok (m, w)
  else if strict_contain a start end_ then
    '(a, new_area, w) ← remove_mid start end_ a w;
    m ← insert_new new_area m;
    m ← insert_new a m;
    Ok (m, w)
  else if bool_decide (start ≤ vaddr a ∧ vaddr a < end_) then
    '(a, w) ← shrink_left end_ a w;
    m ← insert_new a m;
    Ok (m, w)
  else
    '(a, w) ← shrink_right start a w;
    m ← insert_new a m;
    Ok (m, w).

(** One overlapping area of [mprotect]. *)
Definition protect_one (start end_ f : Z) (a : MapArea) (m : list (Z * MapArea)) (w : W)
    : outcome (list (Z * MapArea) * W) :=
  '(a, m, w) ←
    (if contained_in a start end_ then
       '(a, w) ← update_flags f a w; Ok (a, m, w)
     else if strict_contain a start end_ then
       '(a, mid, rgt) ← split3 start end_ a;
       '(mid, w) ← update_flags f mid w;
       m ← insert_new mid m;
       m ← insert_new rgt m;
       Ok (a, m, w)
     else if bool_decide (start ≤ vaddr a ∧ vaddr a < end_) then
       '(a, rgt) ← split end_ a;
       '(a, w) ← update_flags f a w;
       m ← insert_new rgt m;
       Ok (a, m, w)
     else
       '(a, rgt) ← split start a;
       '(rgt, w) ← update_flags f rgt w;
       m ← insert_new rgt m;
       Ok (a, m, w));
  m ← insert_new a m;
  Ok (m, w).

(** The loop over the overlapping areas. *)
Fixpoint for_areas (body : MapArea → list (Z * MapArea) → W → outcome (list (Z * MapArea) * W))
    (ov : list (Z * MapArea)) (m : list (Z * MapArea)) (w : W)
    : outcome (list (Z * MapArea) * W) :=
  match ov with
  | [] => Ok (m, w)
  | (_, a) :: ov => '(m, w) ← body a m w; for_areas body ov m w
  end.

Definition split_for_area (start sz : Z) (ms : MemorySet) (w : W) : outcome (MemorySet * W) :=
  let end_ := wrap64 (start + sz) in
  _ ← rassert (is_aligned_4k end_);
  let '(overlapped, prev) := drain_overlap start end_ (owned_mem ms) [] [] in
  '(m, w) ← for_areas (split_one start end_) overlapped prev w;
  Ok (with_owned ms m, w).

Definition mprotect (start sz f : Z) (ms : MemorySet) (w : W) : outcome (MemorySet * W) :=
  let end_ := wrap64 (start + sz) in
  _ ← rassert (is_aligned_4k end_);
  let '(overlapped, prev) := drain_overlap start end_ (owned_mem ms) [] [] in
  '(m, w) ← for_areas (protect_one start end_ f) overlapped prev w;
  Ok (with_owned ms m, w).

Definition munmap (start sz : Z) (ms : MemorySet) (w : W) : outcome (MemorySet * W) :=
  split_for_area start (align_up_size sz) ms w.

(** [handle_page_fault] on the first area that contains the address. *)
Fixpoint fault_areas (addr f : Z) (m : list (Z * MapArea)) (w : W)
    : outcome (option (bool * list (Z * MapArea) * W)) :=
  match m with
  | [] => Ok None
  | (k, a) :: m' =>
      if bool_decide (vaddr a ≤ addr ∧ addr < end_va a) then
        '(b, a, w) ← handle_page_fault addr f a w; Ok (Some (b, (k, a) :: m', w))
      else
        r ← fault_areas addr f m' w;
        Ok (match r with
            | Some (b, m', w) => Some (b, (k, a) :: m', w)
            | None => None
            end)
  end.

Definition ms_handle_page_fault (addr f : Z) (ms : MemorySet) (w : W)
    : outcome unit * MemorySet * W :=
  match fault_areas addr f (owned_mem ms) w with
  | Ok (Some (true, m, w)) => (Ok (), with_owned ms m, w)
  | Ok (Some (false, m, w)) => (Err BadAddress, with_owned ms m, w)
  | Ok None => (Err BadAddress, ms, w)
  | Err e => (Err e, ms, w)
  | Panic => (Panic, ms, w)
  end.

(** [NoMemory] when there is no entry, [NotMapped] when it is not present. *)
Definition check_page_table_entry_validity (addr : Z) (w : W) : unit + PagingError :=
  match pt_get_entry addr w with
  | None => inr PagingNoMemory
  | Some (present, _) => if present : bool then inl () else inr PagingNotMapped
  end.

Definition manual_alloc_for_lazy (addr : Z) (ms : MemorySet) (w : W)
    : outcome unit * MemorySet * W :=
  if existsb (λ '(_, a), bool_decide (vaddr a ≤ addr ∧ addr < end_va a)) (owned_mem ms) then
    match check_page_table_entry_validity addr w with
    | inr PagingNoMemory => (Err InvalidInput, ms, w)
    | inr PagingNotMapped =>
        match pt_get_entry addr w with
        | None => (Panic, ms, w)
        | Some (_, f) => ms_handle_page_fault addr f ms w
        end
    | inl _ => (Ok (), ms, w)
    end
  else (Err InvalidInput, ms, w).

(** [(start..=end).step_by(PAGE_SIZE_4K)], [n] addresses from [addr]. *)
Fixpoint alloc_range (n : nat) (addr : Z) (ms : MemorySet) (w : W)
    : outcome unit * MemorySet * W :=
  match n with
  | O => (Ok (), ms, w)
  | S n =>
      match manual_alloc_for_lazy addr ms w with
      | (Ok _, ms, w) => alloc_range n (addr + PAGE_SIZE_4K) ms w
      | r => r
      end
  end.

Definition manual_alloc_range_for_lazy (start end_ : Z) (ms : MemorySet) (w : W)
    : outcome unit * MemorySet * W :=
  if decide (end_ < start) then (Err InvalidInput, ms, w) else
  let start := align_down_4k start in
  let end_ := align_down_4k end_ in
  alloc_range (Z.to_nat ((end_ - start) / PAGE_SIZE_4K + 1)) start ms w.

Fixpoint dealloc_all (m : list (Z * MapArea)) (w : W) : outcome W :=
  match m with
  | [] => Ok w
  | (_, a) :: m => '(_, w) ← dealloc a w; dealloc_all m w
  end.

Definition unmap_user_areas (ms : MemorySet) (w : W) : outcome (MemorySet * W) :=
  w ← dealloc_all (owned_mem ms) w;
  Ok (with_owned ms [], w).

(** [msync]: the pages of one area whose address lies in the range. *)
Fixpoint sync_pages (start end_ : Z) (i n : nat) (a : MapArea) (w : W) : outcome (MapArea * W) :=
  match n with
  | O => Ok (a, w)
  | S n =>
      let page_vaddr := vaddr a + Z.of_nat i * PAGE_SIZE_4K in
      '(a, w) ← (if bool_decide (start ≤ page_vaddr ∧ page_vaddr < end_)
                 then sync_page_with_backend i a w else Ok (a, w));
      sync_pages start end_ (S i) n a w
  end.

Fixpoint msync_areas (start end_ : Z) (m : list (Z * MapArea)) (w : W)
    : outcome (list (Z * MapArea) * W) :=
  match m with
  | [] => Ok ([], w)
  | (k, a) :: m =>
      '(a, w) ← match backend a with
                | None => Ok (a, w)
                | Some _ =>
                    if overlap_with a start end_
                    then sync_pages start end_ 0 (length (pages a)) a w
                    else Ok (a, w)
                end;
      '(m, w) ← msync_areas start end_ m w;
      Ok ((k, a) :: m, w)
  end.

Definition msync (start sz : Z) (ms : MemorySet) (w : W) : outcome (MemorySet * W) :=
  '(m, w) ← msync_areas start (wrap64 (start + sz)) (owned_mem ms) w;
  Ok (with_owned ms m, w).

Definition map_page_without_alloc (va pa f : Z) (w : W) : outcome W :=
  match pt_map_region va pa PAGE_SIZE_4K f w with
  | Err _ => Err InvalidInput
  | r => r
  end.

Definition map_attach_page_without_alloc (va pa : Z) (num_pages : nat) (f : Z)
    (ms : MemorySet) (w : W) : outcome (MemorySet * W) :=
  '(a, w) ← unwrap (new_without_alloc va pa num_pages f w);
  Ok (with_owned ms (bt_insert (vaddr a) a (owned_mem ms)), w).

Definition attach_shared_mem (mem : SharedMem) (addr f : Z) (ms : MemorySet) (w : W)
    : outcome (MemorySet * W) :=
  w ← unwrap (pt_map_region addr (sm_paddr mem) (sm_size mem) f w);
  Ok ({| owned_mem := owned_mem ms; private_mem := private_mem ms;
         attached_mem := attached_mem ms ++ [(addr, f, mem)] |}, w).
End memory_set.

(** [find_free_area]: the gaps before each used segment, in address order. *)
Fixpoint free_gap (segments : list (Z * Z)) (last_end sz : Z) : option Z :=
  match segments with
  | [] => None
  | (start, end_) :: segments =>
      if decide (wrap64 (last_end + sz) ≤ start) then Some last_end
      else free_gap segments end_ sz
  end.

Definition seg_le (x y : Z * Z) : Prop := x.1 < y.1 ∨ (x.1 = y.1 ∧ x.2 ≤ y.2).

#[export] Instance seg_le_dec : RelDecision seg_le.
Proof. intros x y. unfold seg_le. apply _. Defined.

Definition segments (ms : MemorySet) : list (Z * Z) :=
  ((λ '(start, a), (start, wrap64 (start + size a))) <$> owned_mem ms) ++
  ((λ '(start, _, mem), (start, wrap64 (start + sm_size mem))) <$> attached_mem ms).

Definition find_free_area (user_memory_start hint sz : Z) (ms : MemorySet) : option Z :=
  free_gap (merge_sort seg_le (segments ms)) (Z.max hint user_memory_start) sz.

Section mmap.
Context {W : Type} `{MemWorld W}.

Definition mmap (user_memory_start start sz f : Z) (sh fixed : bool) (b : option MemBackend)
    (ms : MemorySet) (w : W) : outcome (Z * MemorySet * W) :=
  let sz := align_up_size sz in
  if fixed then
    '(ms, w) ← split_for_area start sz ms w;
    '(ms, w) ← new_region start sz sh f None b ms w;
    Ok (start, ms, w)
  else
    match find_free_area user_memory_start start sz ms with
    | Some start =>
        '(ms, w) ← new_region start sz sh f None b ms w;
        Ok (start, ms, w)
    | None => Err NoMemory
    end.
End mmap.
