(* ===== verification/MemoryProps.v ===== *)
(** Correctness of [MemorySet]: an address space is a finite map from page
    addresses to slots (physical page, permissions, sharing, file position),
    and [munmap], [mprotect] and [mmap] implement the obvious operations on
    that map, keep the areas disjoint, keep the page table in step and never
    panic. *)

From S2P Require Import Prelude BTree Memory.

(** ** What the page table documents

    [pt_flags w p] is the permission of the entry of page [p] (present or
    fault entry), [None] when the page has no entry. *)
Class MemWorldLaws (W : Type) `{MemWorld W} := {
  pt_flags : W → Z → option Z;
  law_unmap : ∀ va sz w,
    va mod PAGE_SIZE_4K = 0 → sz mod PAGE_SIZE_4K = 0 → 0 ≤ sz →
    (∀ p, p mod PAGE_SIZE_4K = 0 → va ≤ p < va + sz → is_Some (pt_flags w p)) →
    ∃ w', pt_unmap_region va sz w = Ok w' ∧
      ∀ p, p mod PAGE_SIZE_4K = 0 →
        pt_flags w' p = if decide (va ≤ p < va + sz) then None else pt_flags w p;
  law_update : ∀ va sz f w,
    va mod PAGE_SIZE_4K = 0 → sz mod PAGE_SIZE_4K = 0 → 0 ≤ sz →
    (∀ p, p mod PAGE_SIZE_4K = 0 → va ≤ p < va + sz → is_Some (pt_flags w p)) →
    ∃ w', pt_update_region va sz f w = Ok w' ∧
      ∀ p, p mod PAGE_SIZE_4K = 0 →
        pt_flags w' p = if decide (va ≤ p < va + sz) then Some f else pt_flags w p;
  law_map_fault : ∀ va sz f w,
    va mod PAGE_SIZE_4K = 0 → sz mod PAGE_SIZE_4K = 0 → 0 ≤ sz →
    (∀ p, p mod PAGE_SIZE_4K = 0 → va ≤ p < va + sz → pt_flags w p = None) →
    ∃ w', pt_map_fault_region va sz f w = Ok w' ∧
      ∀ p, p mod PAGE_SIZE_4K = 0 →
        pt_flags w' p = if decide (va ≤ p < va + sz) then Some f else pt_flags w p
}.

(** ** The abstract address space *)

Record slot := {
  s_page : option PageRef;
  s_flags : Z;
  s_shared : bool;
  s_file : option (FileId * Z * bool)     (** file, position of the page in it, writable *)
}.

Definition slot_with_flags (f : Z) (s : slot) : slot :=
  {| s_page := s_page s; s_flags := f; s_shared := s_shared s; s_file := s_file s |}.

Definition mk_slot (a : MapArea) (i : nat) (p : option PageRef) : slot :=
  {| s_page := p; s_flags := flags a; s_shared := shared a;
     s_file := (λ b, (b_file b, b_pos b + Z.of_nat i * PAGE_SIZE_4K, b_writable b))
                 <$> backend a |}.

Definition area_slots (a : MapArea) : list (Z * slot) :=
  imap (λ i p, (vaddr a + Z.of_nat i * PAGE_SIZE_4K, mk_slot a i p)) (pages a).

Definition slots (l : list MapArea) : list (Z * slot) := l ≫= area_slots.

(** The address space of a memory set. *)
Definition space (ms : MemorySet) : gmap Z slot := list_to_map (slots (owned_mem ms).*2).

(** ** Invariants *)

Record backend_ok (b : MemBackend) (sz : Z) : Prop := {
  bk_file : b_is_file b = true;
  bk_pos : 0 ≤ b_pos b;
  bk_end : b_pos b + sz < 2 ^ 63
}.

Record area_ok (a : MapArea) : Prop := {
  ok_aligned : vaddr a mod PAGE_SIZE_4K = 0;
  ok_pos : 0 ≤ vaddr a;
  ok_nonempty : (0 < length (pages a))%nat;
  ok_end : end_va a < 2 ^ 63;
  ok_backend : ∀ b, backend a = Some b → backend_ok b (size a)
}.

Definition map_ok (m : list (Z * MapArea)) : Prop :=
  bt_sorted m ∧ Forall (λ '(k, a), k = vaddr a ∧ area_ok a) m.

(** The sub-area of pages [i .. j) of [a]. *)
Definition shift_backend (i : nat) (ob : option MemBackend) : option MemBackend :=
  (λ b, backend_at b (b_pos b + Z.of_nat i * PAGE_SIZE_4K)) <$> ob.

Definition part (a : MapArea) (i j : nat) : MapArea :=
  {| pages := take (j - i) (drop i (pages a)); vaddr := vaddr a + Z.of_nat i * PAGE_SIZE_4K;
     shared := shared a; flags := flags a; backend := shift_backend i (backend a) |}.

Lemma shift_backend_0 ob : shift_backend 0 ob = ob.
Proof. destruct ob as [[]|]; [|done]. unfold shift_backend, backend_at. simpl. by rewrite Z.add_0_r. Qed.

Lemma part_left a j : with_pages a (take j (pages a)) = part a 0 j.
Proof.
  unfold with_pages, part. rewrite shift_backend_0, Z.add_0_r, Nat.sub_0_r. done.
Qed.

Lemma length_part a i j :
  (i ≤ j ≤ length (pages a))%nat → length (pages (part a i j)) = (j - i)%nat.
Proof. intros ?. simpl. rewrite length_take, length_drop. lia. Qed.

Lemma part_ok a i j :
  area_ok a → (i < j ≤ length (pages a))%nat → area_ok (part a i j).
Proof.
  intros [Ha Hp Hn He Hb] Hij. pose proof (length_part a i j ltac:(lia)) as Hl.
  unfold end_va, size in *. split; rewrite ?Hl; simpl vaddr.
  - simpl. unfold PAGE_SIZE_4K in *. mlia.
  - unfold PAGE_SIZE_4K. lia.
  - lia.
  - unfold end_va, size. rewrite Hl. simpl. unfold PAGE_SIZE_4K in *. lia.
  - simpl. intros b. destruct (backend a) as [b0|]; [|done]. simpl. intros [= <-].
    destruct (Hb b0 eq_refl) as [H1 H2 H3]. split; simpl; [done| |].
    + unfold PAGE_SIZE_4K. lia.
    + unfold size in *. rewrite Hl. unfold PAGE_SIZE_4K in *. lia.
Qed.

Lemma imap_drop {A B} (f : nat → A → B) (l : list A) k :
  drop k (imap f l) = imap (λ i, f (k + i)%nat) (drop k l).
Proof.
  revert f l. induction k as [|k IH]; intros f [|x l]; try done. simpl.
  rewrite IH. done.
Qed.

Lemma imap_take {A B} (f : nat → A → B) (l : list A) k :
  take k (imap f l) = imap f (take k l).
Proof.
  revert f l. induction k as [|k IH]; intros f [|x l]; try done. simpl. by rewrite IH.
Qed.

Lemma slots_part a i j : area_slots (part a i j) = take (j - i) (drop i (area_slots a)).
Proof.
  unfold area_slots. rewrite imap_drop, imap_take. simpl. apply imap_ext.
  intros k p _. unfold mk_slot. simpl. f_equal; [lia|]. f_equal.
  destruct (backend a) as [b|]; [|done]. simpl. do 3 f_equal. lia.
Qed.

Lemma area_slots_elem a p s :
  (p, s) ∈ area_slots a ↔
  ∃ i pg, pages a !! i = Some pg ∧ p = vaddr a + Z.of_nat i * PAGE_SIZE_4K ∧ s = mk_slot a i pg.
Proof.
  unfold area_slots. rewrite list_elem_of_lookup. setoid_rewrite list_lookup_imap.
  split.
  - intros (i & Hi). destruct (pages a !! i) as [pg|] eqn:E; simplify_eq/=. eauto.
  - intros (i & pg & Hi & -> & ->). exists i. by rewrite Hi.
Qed.

Lemma area_slots_range a p s :
  (p, s) ∈ area_slots a → vaddr a ≤ p < end_va a ∧ s_flags s = flags a.
Proof.
  intros (i & pg & Hi & -> & ->)%area_slots_elem. apply lookup_lt_Some in Hi.
  unfold end_va, size, PAGE_SIZE_4K. simpl. lia.
Qed.

Lemma area_slots_aligned a p s :
  area_ok a → (p, s) ∈ area_slots a → p mod PAGE_SIZE_4K = 0.
Proof.
  intros [Ha _ _ _ _] (i & pg & _ & -> & _)%area_slots_elem.
  unfold PAGE_SIZE_4K in *. mlia.
Qed.

(** Every aligned address of an area is one of its pages. *)
Lemma area_slots_cover a p :
  area_ok a → p mod PAGE_SIZE_4K = 0 → vaddr a ≤ p < end_va a →
  ∃ s, (p, s) ∈ area_slots a.
Proof.
  intros [Ha _ _ _ _] Hp Hr. unfold end_va, size in Hr.
  assert (Z.to_nat ((p - vaddr a) / PAGE_SIZE_4K) < length (pages a))%nat as Hlt.
  { unfold PAGE_SIZE_4K in *. mlia. }
  apply lookup_lt_is_Some_2 in Hlt as [pg Hpg].
  eexists. apply area_slots_elem. do 2 eexists. split; [exact Hpg|]. split; [|done].
  unfold PAGE_SIZE_4K in *. mlia.
Qed.

(** ** Operations on one area *)

(** What [munmap] and [mprotect] do to one page. *)
Definition unmap_slot (lo hi : Z) (e : Z * slot) : option (Z * slot) :=
  if decide (lo ≤ e.1 < hi) then None else Some e.
Definition protect_slot (lo hi f : Z) (e : Z * slot) : option (Z * slot) :=
  Some (e.1, if decide (lo ≤ e.1 < hi) then slot_with_flags f e.2 else e.2).

Lemma omap_id {A} (g : A → option A) (l : list A) : (∀ x, x ∈ l → g x = Some x) → omap g l = l.
Proof.
  induction l as [|x l IH]; [done|]. intros Hg. simpl. rewrite Hg by set_solver.
  f_equal. apply IH. set_solver.
Qed.

Lemma omap_nil {A B} (g : A → option B) (l : list A) : (∀ x, x ∈ l → g x = None) → omap g l = [].
Proof.
  induction l as [|x l IH]; [done|]. intros Hg. simpl. rewrite Hg by set_solver.
  apply IH. set_solver.
Qed.

Lemma omap_fmap_Some {A B} (h : A → B) (g : A → option B) (l : list A) :
  (∀ x, x ∈ l → g x = Some (h x)) → omap g l = h <$> l.
Proof.
  induction l as [|x l IH]; [done|]. intros Hg. simpl. rewrite Hg by set_solver.
  f_equal. apply IH. set_solver.
Qed.

(** An aligned address inside an area is a page boundary. *)
Lemma boundary a x :
  area_ok a → x mod PAGE_SIZE_4K = 0 → vaddr a ≤ x ≤ end_va a →
  ∃ k, x = vaddr a + Z.of_nat k * PAGE_SIZE_4K ∧ (k ≤ length (pages a))%nat ∧
    (x - vaddr a) / PAGE_SIZE_4K = Z.of_nat k ∧
    (end_va a - x) / PAGE_SIZE_4K = Z.of_nat (length (pages a)) - Z.of_nat k.
Proof.
  intros [Ha _ _ _ _] Hx Hr. exists (Z.to_nat ((x - vaddr a) / PAGE_SIZE_4K)).
  unfold end_va, size, PAGE_SIZE_4K in *. split_and!; mlia.
Qed.

Lemma end_part a i j :
  (i ≤ j ≤ length (pages a))%nat →
  end_va (part a i j) = vaddr a + Z.of_nat j * PAGE_SIZE_4K.
Proof.
  intros ?. unfold end_va, size. rewrite length_part by lia. simpl.
  unfold PAGE_SIZE_4K. lia.
Qed.

Lemma area_slots_split a i j :
  (i ≤ j ≤ length (pages a))%nat →
  area_slots a = area_slots (part a 0 i) ++ area_slots (part a i j) ++
                 area_slots (part a j (length (pages a))).
Proof.
  intros Hij. rewrite !slots_part.
  assert (length (area_slots a) = length (pages a)) as Hl by apply length_imap.
  rewrite drop_0, Nat.sub_0_r.
  rewrite (take_ge (drop j (area_slots a))) by (rewrite length_drop; lia).
  rewrite <- (take_drop i (area_slots a)) at 1. f_equal.
  rewrite <- (take_drop (j - i) (drop i (area_slots a))) at 1. f_equal.
  rewrite drop_drop. f_equal. lia.
Qed.

Lemma part_all a : part a 0 (length (pages a)) = a.
Proof. rewrite <- part_left, take_ge by done. by destruct a. Qed.

Lemma part_full_slots a i : area_slots (part a i i) = [].
Proof. by rewrite slots_part, Nat.sub_diag, take_0. Qed.

Lemma clone_seek_ok a k :
  area_ok a → (k ≤ length (pages a))%nat →
  clone_seek (backend a) (Z.of_nat k * PAGE_SIZE_4K) = Ok (shift_backend k (backend a)).
Proof.
  intros Ha Hk. destruct (backend a) as [b|] eqn:E; [|done]. simpl.
  destruct (ok_backend a Ha b E) as [H1 H2 H3]. unfold backend_clone. rewrite H1. simpl.
  unfold backend_seek_current, size, PAGE_SIZE_4K in *.
  rewrite to_i64_small by lia.
  assert (checked_add_u64 (b_pos b) (Z.of_nat k * 4096) = Some (b_pos b + Z.of_nat k * 4096)) as ->.
  { apply checked_add_u64_Some. split; [done|]. unfold is_u64, two64. lia. }
  done.
Qed.

Lemma seek_ok a k b :
  area_ok a → (k ≤ length (pages a))%nat → backend a = Some b →
  backend_seek_current (Z.of_nat k * PAGE_SIZE_4K) b =
    Ok (backend_at b (b_pos b + Z.of_nat k * PAGE_SIZE_4K)).
Proof.
  intros Ha Hk E. pose proof (clone_seek_ok a k Ha Hk) as Hc. rewrite E in Hc.
  simpl in Hc. unfold backend_clone in Hc. rewrite (bk_file _ _ (ok_backend a Ha b E)) in Hc.
  simpl in Hc. destruct (backend_seek_current _ b); simpl in Hc; by simplify_eq.
Qed.

Lemma drain_from_ok {A} k (l : list A) :
  (k ≤ length l)%nat → drain_from (Z.of_nat k) l = Ok (take k l, drop k l).
Proof. intros ?. unfold drain_from. rewrite decide_True by lia. by rewrite Nat2Z.id. Qed.

Lemma drain_range_ok {A} i j (l : list A) :
  (i ≤ j ≤ length l)%nat →
  drain_range (Z.of_nat i) (Z.of_nat j) l = Ok (take i l ++ drop j l).
Proof. intros ?. unfold drain_range. rewrite decide_True by lia. by rewrite !Nat2Z.id. Qed.

Section area_ops.
Context {W : Type} `{MemWorldLaws W}.

(** The page table maps every page of the area, with the area's flags. *)
Definition covers (w : W) (a : MapArea) : Prop :=
  ∀ p, p mod PAGE_SIZE_4K = 0 → vaddr a ≤ p < end_va a → pt_flags w p = Some (flags a).

Lemma covers_part w a i j :
  covers w a → (i ≤ j ≤ length (pages a))%nat → covers w (part a i j).
Proof.
  intros Hc Hij p Hp Hr. rewrite end_part in Hr by done. simpl in *.
  apply Hc; [done|]. unfold end_va, size, PAGE_SIZE_4K in *. lia.
Qed.

Lemma unmap_part w a i j :
  area_ok a → covers w a → (i ≤ j ≤ length (pages a))%nat →
  ∃ w', pt_unmap_region (vaddr a + Z.of_nat i * PAGE_SIZE_4K)
          (Z.of_nat j * PAGE_SIZE_4K - Z.of_nat i * PAGE_SIZE_4K) w = Ok w' ∧
    ∀ p, p mod PAGE_SIZE_4K = 0 →
      pt_flags w' p = if decide (vaddr (part a i j) ≤ p < end_va (part a i j))
                      then None else pt_flags w p.
Proof.
  intros Ha Hc Hij. destruct (law_unmap (vaddr a + Z.of_nat i * PAGE_SIZE_4K)
    (Z.of_nat j * PAGE_SIZE_4K - Z.of_nat i * PAGE_SIZE_4K) w) as (w' & Hw & Hp).
  - destruct Ha. unfold PAGE_SIZE_4K in *. mlia.
  - unfold PAGE_SIZE_4K. mlia.
  - unfold PAGE_SIZE_4K. lia.
  - intros p Hp Hr. rewrite (Hc p); [done..|]. unfold end_va, size, PAGE_SIZE_4K in *. lia.
  - exists w'. split; [done|]. intros p Hal. rewrite Hp by done. rewrite end_part by done.
    simpl. apply decide_ext. lia.
Qed.

Lemma update_flags_ok w a f :
  area_ok a → covers w a →
  ∃ w', update_flags f a w = Ok (with_flags a f, w') ∧
    ∀ p, p mod PAGE_SIZE_4K = 0 →
      pt_flags w' p = if decide (vaddr a ≤ p < end_va a) then Some f else pt_flags w p.
Proof.
  intros Ha Hc. destruct (law_update (vaddr a) (size a) f w) as (w' & Hw & Hp).
  - apply Ha.
  - unfold size, PAGE_SIZE_4K. mlia.
  - unfold size, PAGE_SIZE_4K. lia.
  - intros p Hp Hr. by rewrite (Hc p).
  - exists w'. unfold update_flags. rewrite Hw. done.
Qed.

Lemma with_flags_slots a f : area_slots (with_flags a f) =
  (λ e, (e.1, slot_with_flags f e.2)) <$> area_slots a.
Proof. unfold area_slots. rewrite fmap_imap. by apply imap_ext. Qed.

Lemma with_flags_ok a f : area_ok a → area_ok (with_flags a f).
Proof. by intros [? ? ? ? ?]. Qed.

Lemma dealloc_ok w a :
  area_ok a → covers w a →
  ∃ a' w', dealloc a w = Ok (a', w') ∧
    ∀ p, p mod PAGE_SIZE_4K = 0 →
      pt_flags w' p = if decide (vaddr a ≤ p < end_va a) then None else pt_flags w p.
Proof.
  intros Ha Hc. destruct (unmap_part w a 0 (length (pages a)) Ha Hc) as (w' & Hw & Hp); [lia|].
  rewrite part_all in Hp. do 2 eexists. split; [|exact Hp]. unfold dealloc, size.
  simpl in Hw. rewrite Z.add_0_r, Z.sub_0_r in Hw. by rewrite Hw.
Qed.

Lemma shrink_left_ok w a k :
  area_ok a → covers w a → (k ≤ length (pages a))%nat →
  ∃ w', shrink_left (vaddr a + Z.of_nat k * PAGE_SIZE_4K) a w =
          Ok (part a k (length (pages a)), w') ∧
    ∀ p, p mod PAGE_SIZE_4K = 0 →
      pt_flags w' p = if decide (vaddr (part a 0 k) ≤ p < end_va (part a 0 k))
                      then None else pt_flags w p.
Proof.
  intros Ha Hc Hk. destruct (unmap_part w a 0 k Ha Hc) as (w' & Hw & Hp); [lia|].
  exists w'. split; [|exact Hp]. unfold shrink_left.
  assert (is_aligned_4k (vaddr a + Z.of_nat k * PAGE_SIZE_4K) = true) as ->.
  { apply bool_decide_eq_true_2. destruct Ha. unfold PAGE_SIZE_4K in *. mlia. }
  simpl. replace (vaddr a + Z.of_nat k * PAGE_SIZE_4K - vaddr a)
    with (Z.of_nat k * PAGE_SIZE_4K) by lia.
  rewrite Z.div_mul by done.
  simpl in Hw. rewrite Z.add_0_r, Z.sub_0_r in Hw.
  rewrite (drain_range_ok 0 k) by lia. simpl.
  assert (∀ l : list (option PageRef), drop k l = take (length l - k) (drop k l)) as Hd.
  { intros l. rewrite take_ge; [done|]. rewrite length_drop. lia. }
  unfold part. rewrite <- Hd.
  destruct (backend a) as [b|] eqn:E; simpl.
  - rewrite (seek_ok a k b) by done. simpl. by rewrite Hw.
  - by rewrite Hw.
Qed.
Lemma boundary_aligned a k :
  area_ok a → is_aligned_4k (vaddr a + Z.of_nat k * PAGE_SIZE_4K) = true.
Proof. intros []. apply bool_decide_eq_true_2. unfold PAGE_SIZE_4K in *. mlia. Qed.

Lemma end_va_len a : end_va a = vaddr a + Z.of_nat (length (pages a)) * PAGE_SIZE_4K.
Proof. done. Qed.

Lemma boundary_count a k :
  (k ≤ length (pages a))%nat →
  (end_va a - (vaddr a + Z.of_nat k * PAGE_SIZE_4K)) / PAGE_SIZE_4K =
  Z.of_nat (length (pages a)) - Z.of_nat k.
Proof. intros ?. rewrite end_va_len. unfold PAGE_SIZE_4K. mlia. Qed.

Lemma part_right_pages a k :
  drop k (pages a) = pages (part a k (length (pages a))).
Proof. simpl. rewrite take_ge; [done|]. rewrite length_drop. lia. Qed.

Lemma shrink_right_ok w a k :
  area_ok a → covers w a → (k ≤ length (pages a))%nat →
  ∃ w', shrink_right (vaddr a + Z.of_nat k * PAGE_SIZE_4K) a w = Ok (part a 0 k, w') ∧
    ∀ p, p mod PAGE_SIZE_4K = 0 →
      pt_flags w' p = if decide (vaddr (part a k (length (pages a))) ≤ p <
                                 end_va (part a k (length (pages a))))
                      then None else pt_flags w p.
Proof.
  intros Ha Hc Hk.
  destruct (unmap_part w a k (length (pages a)) Ha Hc) as (w' & Hw & Hp); [lia|].
  exists w'. split; [|exact Hp]. unfold shrink_right.
  rewrite boundary_aligned, boundary_count by done. simpl.
  replace (Z.of_nat (length (pages a)) - (Z.of_nat (length (pages a)) - Z.of_nat k))
    with (Z.of_nat k) by lia.
  rewrite drain_range_ok by lia. simpl. rewrite drop_all, app_nil_r.
  replace (end_va a - (vaddr a + Z.of_nat k * PAGE_SIZE_4K))
    with (Z.of_nat (length (pages a)) * PAGE_SIZE_4K - Z.of_nat k * PAGE_SIZE_4K)
    by (rewrite end_va_len; lia).
  rewrite Hw. simpl. by rewrite part_left.
Qed.

Lemma split_ok a k :
  area_ok a → (k ≤ length (pages a))%nat →
  split (vaddr a + Z.of_nat k * PAGE_SIZE_4K) a =
    Ok (part a 0 k, part a k (length (pages a))).
Proof.
  intros Ha Hk. unfold split. rewrite boundary_aligned, boundary_count by done. simpl.
  replace (Z.of_nat (length (pages a)) - (Z.of_nat (length (pages a)) - Z.of_nat k))
    with (Z.of_nat k) by lia.
  rewrite drain_from_ok by done. simpl.
  replace (vaddr a + Z.of_nat k * PAGE_SIZE_4K - vaddr a)
    with (Z.of_nat k * PAGE_SIZE_4K) by lia.
  rewrite clone_seek_ok by done. simpl. by rewrite part_left, part_right_pages.
Qed.

Lemma split3_ok a i j :
  area_ok a → (0 < i < j)%nat → (j < length (pages a))%nat →
  split3 (vaddr a + Z.of_nat i * PAGE_SIZE_4K) (vaddr a + Z.of_nat j * PAGE_SIZE_4K) a =
    Ok (part a 0 i, part a i j, part a j (length (pages a))).
Proof.
  intros Ha Hij Hj. unfold split3. rewrite !boundary_aligned by done.
  rewrite !bool_decide_eq_true_2 by (rewrite ?end_va_len; unfold PAGE_SIZE_4K; lia).
  rewrite boundary_count by lia. simpl.
  replace (Z.of_nat (length (pages a)) - (Z.of_nat (length (pages a)) - Z.of_nat j))
    with (Z.of_nat j) by lia.
  rewrite drain_from_ok by lia. simpl. rewrite part_left, length_take.
  rewrite end_part by lia. simpl.
  replace (Z.of_nat (j `min` length (pages a)) -
           (vaddr a + Z.of_nat j * PAGE_SIZE_4K - (vaddr a + Z.of_nat i * PAGE_SIZE_4K))
           / PAGE_SIZE_4K) with (Z.of_nat i) by (unfold PAGE_SIZE_4K; mlia).
  rewrite drain_from_ok by (rewrite length_take; lia). simpl.
  replace (vaddr a + Z.of_nat i * PAGE_SIZE_4K - vaddr a)
    with (Z.of_nat i * PAGE_SIZE_4K) by lia.
  replace (vaddr a + Z.of_nat j * PAGE_SIZE_4K - vaddr a)
    with (Z.of_nat j * PAGE_SIZE_4K) by lia.
  rewrite !clone_seek_ok by (done || lia). simpl.
  rewrite take_take, Nat.min_l by lia. rewrite part_left, part_right_pages. do 3 f_equal.
  unfold part. f_equal. rewrite skipn_firstn_comm. done.
Qed.

Lemma remove_mid_ok w a i j :
  area_ok a → covers w a → (i ≤ j ≤ length (pages a))%nat →
  ∃ w', remove_mid (vaddr a + Z.of_nat i * PAGE_SIZE_4K)
                   (vaddr a + Z.of_nat j * PAGE_SIZE_4K) a w =
          Ok (part a 0 i, part a j (length (pages a)), w') ∧
    ∀ p, p mod PAGE_SIZE_4K = 0 →
      pt_flags w' p = if decide (vaddr (part a i j) ≤ p < end_va (part a i j))
                      then None else pt_flags w p.
Proof.
  intros Ha Hc Hij. destruct (unmap_part w a i j Ha Hc Hij) as (w' & Hw & Hp).
  exists w'. split; [|exact Hp]. unfold remove_mid. rewrite !boundary_aligned by done.
  rewrite bool_decide_eq_true_2 by (unfold PAGE_SIZE_4K; lia). simpl.
  replace (vaddr a + Z.of_nat i * PAGE_SIZE_4K - vaddr a)
    with (Z.of_nat i * PAGE_SIZE_4K) by lia.
  replace (vaddr a + Z.of_nat j * PAGE_SIZE_4K - vaddr a)
    with (Z.of_nat j * PAGE_SIZE_4K) by lia.
  rewrite !Z.div_mul by done. rewrite drain_from_ok by lia. simpl.
  rewrite clone_seek_ok by (done || lia). simpl.
  rewrite drain_range_ok by (rewrite length_take; lia). simpl.
  replace (vaddr a + Z.of_nat j * PAGE_SIZE_4K - (vaddr a + Z.of_nat i * PAGE_SIZE_4K))
    with (Z.of_nat j * PAGE_SIZE_4K - Z.of_nat i * PAGE_SIZE_4K) by lia.
  rewrite Hw. simpl. rewrite drop_ge, app_nil_r by (rewrite length_take; lia).
  rewrite take_take, Nat.min_l by lia. by rewrite part_left, part_right_pages.
Qed.
End area_ops.

(** ** The area map *)

Lemma slots_app l1 l2 : slots (l1 ++ l2) = slots l1 ++ slots l2.
Proof. apply bind_app. Qed.

#[export] Instance slots_Permutation : Proper ((≡ₚ) ==> (≡ₚ)) slots.
Proof. intros l1 l2 Hl. unfold slots. by rewrite Hl. Qed.

Lemma slots_elem l p s : (p, s) ∈ slots l ↔ ∃ a, a ∈ l ∧ (p, s) ∈ area_slots a.
Proof. unfold slots. rewrite list_elem_of_bind. naive_solver. Qed.

Lemma keys_elem (l : list (Z * slot)) p : p ∈ l.*1 ↔ ∃ s, (p, s) ∈ l.
Proof.
  rewrite list_elem_of_fmap. split.
  - intros ([p' s] & -> & ?). eauto.
  - intros (s & ?). by exists (p, s).
Qed.

Lemma area_first a : area_ok a → vaddr a ∈ (area_slots a).*1.
Proof.
  intros Ha. apply keys_elem. apply area_slots_cover; [done|apply Ha|].
  destruct Ha. unfold end_va, size, PAGE_SIZE_4K in *. lia.
Qed.

Lemma area_nonempty a : area_ok a → vaddr a < end_va a.
Proof. intros []. unfold end_va, size, PAGE_SIZE_4K in *. lia. Qed.

Lemma NoDup_fmap_inj_elem {A B} (f : A → B) (l : list A) x y :
  NoDup (f <$> l) → x ∈ l → y ∈ l → f x = f y → x = y.
Proof.
  intros Hnd (i & Hi)%list_elem_of_lookup (j & Hj)%list_elem_of_lookup Hf.
  assert (i = j) as ->; [|congruence].
  eapply (NoDup_lookup _ _ _ (f x) Hnd); rewrite list_lookup_fmap.
  - by rewrite Hi.
  - rewrite Hj. simpl. by rewrite Hf.
Qed.

Lemma NoDup_keys_disjoint (l1 l2 : list (Z * slot)) p :
  NoDup (l1 ++ l2).*1 → p ∈ l1.*1 → p ∉ l2.*1.
Proof. rewrite fmap_app, NoDup_app. naive_solver. Qed.

Lemma insert_new_ok m a :
  map_ok m → area_ok a → NoDup (slots m.*2 ++ area_slots a).*1 →
  ∃ m', insert_new a m = Ok m' ∧ map_ok m' ∧ m'.*2 ≡ₚ a :: m.*2.
Proof.
  intros [Hs Hf] Ha Hn.
  assert (bt_get (vaddr a) m = None) as Hnone.
  { destruct (bt_get (vaddr a) m) as [a'|] eqn:E; [|done]. exfalso.
    apply bt_get_elem in E. pose proof Hf as Hf'. rewrite Forall_forall in Hf'.
    destruct (Hf' _ E) as [Hv Ha'].
    eapply (NoDup_keys_disjoint _ _ (vaddr a) Hn); [|by apply area_first].
    apply keys_elem. pose proof (area_first a' Ha') as (s & Hin)%keys_elem.
    exists s. apply slots_elem. exists a'. rewrite Hv. split; [|done].
    apply list_elem_of_fmap. by exists (vaddr a, a'). }
  pose proof (bt_insert_perm (vaddr a) a m Hnone) as Hperm.
  unfold insert_new, bt_contains_key. rewrite Hnone, bool_decide_eq_false_2.
  2: { intros [? ?]; done. }
  eexists. split; [done|]. split; [split|].
  - by apply bt_insert_sorted.
  - rewrite Hperm. by constructor.
  - exact (fmap_Permutation snd _ _ Hperm).
Qed.

Definition key_preserving (g : Z * slot → option (Z * slot)) : Prop :=
  ∀ e e', g e = Some e' → e'.1 = e.1.

Lemma unmap_slot_key lo hi : key_preserving (unmap_slot lo hi).
Proof. intros e e'. unfold unmap_slot. case_decide; by intros; simplify_eq. Qed.

Lemma protect_slot_key lo hi f : key_preserving (protect_slot lo hi f).
Proof. intros e e'. unfold protect_slot. by intros; simplify_eq. Qed.

Lemma omap_keys_sublist g l : key_preserving g → (omap g l).*1 `sublist_of` l.*1.
Proof.
  intros Hg. induction l as [|e l IH]; simpl; [done|].
  destruct (g e) as [e'|] eqn:E; simpl; [|by apply sublist_cons].
  rewrite (Hg _ _ E). by apply sublist_skip.
Qed.

Lemma NoDup_omap_middle g l1 l2 l3 :
  key_preserving g → NoDup (l1 ++ l2 ++ l3).*1 → NoDup ((l1 ++ omap g l2) ++ l3).*1.
Proof.
  intros Hg Hn. eapply sublist_NoDup; [exact Hn|]. rewrite <- app_assoc, !fmap_app.
  apply sublist_app; [done|]. apply sublist_app; [|done]. by apply omap_keys_sublist.
Qed.

Section loops.
Context {W : Type} `{MemWorldLaws W}.

(** What handling one overlapping area must achieve: the map gains the
    transformed pages of the area, and the page table changes accordingly on
    the pages of the area only. *)
Definition step_spec (body : MapArea → list (Z * MapArea) → W → outcome (list (Z * MapArea) * W))
    (g : Z * slot → option (Z * slot)) (a : MapArea) : Prop :=
  ∀ m w, map_ok m → NoDup (slots m.*2 ++ area_slots a).*1 → covers w a →
  ∃ m' w', body a m w = Ok (m', w') ∧ map_ok m' ∧
    slots m'.*2 ≡ₚ slots m.*2 ++ omap g (area_slots a) ∧
    (∀ p s, (p, s) ∈ area_slots a → pt_flags w' p = (λ e, s_flags e.2) <$> g (p, s)) ∧
    (∀ p, p mod PAGE_SIZE_4K = 0 → p ∉ (area_slots a).*1 → pt_flags w' p = pt_flags w p).

Lemma covers_elem w a : area_ok a → covers w a ↔
  ∀ p s, (p, s) ∈ area_slots a → pt_flags w p = Some (flags a).
Proof.
  intros Ha. split.
  - intros Hc p s Hin. apply Hc; [by eapply area_slots_aligned|].
    by eapply area_slots_range.
  - intros Hc p Hp Hr. destruct (area_slots_cover a p Ha Hp Hr) as [s Hin]. eauto.
Qed.

Lemma for_areas_ok body g ov : key_preserving g →
  ∀ m w, Forall (λ a, area_ok a ∧ step_spec body g a) ov.*2 → map_ok m →
  NoDup (slots m.*2 ++ slots ov.*2).*1 → Forall (covers w) ov.*2 →
  ∃ m' w', for_areas body ov m w = Ok (m', w') ∧ map_ok m' ∧
    slots m'.*2 ≡ₚ slots m.*2 ++ omap g (slots ov.*2) ∧
    (∀ p s, (p, s) ∈ slots ov.*2 → pt_flags w' p = (λ e, s_flags e.2) <$> g (p, s)) ∧
    (∀ p, p mod PAGE_SIZE_4K = 0 → p ∉ (slots ov.*2).*1 → pt_flags w' p = pt_flags w p).
Proof.
  intros Hg. induction ov as [|[k a] ov IH]; intros m w Hov Hm Hnd Hc; simpl in *.
  { exists m, w. split_and!; try done; [by rewrite app_nil_r|set_solver]. }
  apply Forall_cons in Hov as [[Ha Hstep] Hov]. apply Forall_cons in Hc as [Hca Hc].
  destruct (Hstep m w Hm) as (m1 & w1 & Hb & Hm1 & Hp1 & Hin1 & Hout1); [|done|].
  { rewrite app_assoc in Hnd. rewrite fmap_app in Hnd. by apply NoDup_app in Hnd as (? & _). }
  assert (NoDup (slots m1.*2 ++ slots ov.*2).*1) as Hnd1.
  { rewrite Hp1. by apply NoDup_omap_middle. }
  assert (∀ p, p ∈ (slots ov.*2).*1 → p ∉ (area_slots a).*1) as Hdisj.
  { intros p Hp Hpa. rewrite fmap_app in Hnd. apply NoDup_app in Hnd as (_ & _ & Hnd).
    by eapply (NoDup_keys_disjoint _ _ p Hnd). }
  destruct (IH m1 w1) as (m2 & w2 & Hf & Hm2 & Hp2 & Hin2 & Hout2); [done..| |].
  { rewrite Forall_forall in Hc, Hov |- *. intros b Hb'. destruct (Hov b Hb') as [Hbok _].
    apply covers_elem; [done|]. intros p s Hps.
    assert (p ∈ (slots ov.*2).*1) as Hk
      by (apply keys_elem; exists s; apply slots_elem; eauto).
    rewrite Hout1; [|by eapply area_slots_aligned|by apply Hdisj].
    destruct (covers_elem w b Hbok) as [Hc1 _]. by eapply Hc1; [apply Hc|]. }
  exists m2, w2. rewrite Hb. simpl. rewrite Hf. split_and!; [done..| | |].
  - rewrite Hp2, Hp1, omap_app. by rewrite app_assoc.
  - intros p s [Hps|Hps]%elem_of_app; [|by apply Hin2].
    rewrite Hout2; [by apply Hin1| |].
    + by eapply area_slots_aligned.
    + intros Hk. apply (Hdisj p Hk), keys_elem. eauto.
  - intros p Hp Hk. rewrite fmap_app, not_elem_of_app in Hk.
    rewrite Hout2, Hout1 by naive_solver. done.
Qed.
End loops.

(** Inserting several areas in turn. *)
Fixpoint insert_list (rs : list MapArea) (m : list (Z * MapArea)) : outcome (list (Z * MapArea)) :=
  match rs with
  | [] => Ok m
  | r :: rs => m ← insert_new r m; insert_list rs m
  end.

Lemma insert_list_ok rs : ∀ m,
  map_ok m → Forall area_ok rs → NoDup (slots m.*2 ++ slots rs).*1 →
  ∃ m', insert_list rs m = Ok m' ∧ map_ok m' ∧ slots m'.*2 ≡ₚ slots m.*2 ++ slots rs.
Proof.
  induction rs as [|r rs IH]; intros m Hm Hrs Hnd; simpl.
  { exists m. split_and!; try done. by rewrite app_nil_r. }
  apply Forall_cons in Hrs as [Hr Hrs]. simpl in Hnd.
  destruct (insert_new_ok m r Hm Hr) as (m1 & -> & Hm1 & Hp1).
  { rewrite app_assoc, fmap_app in Hnd. by apply NoDup_app in Hnd as (? & _). }
  assert (slots m1.*2 ≡ₚ slots m.*2 ++ area_slots r) as Hs1.
  { rewrite Hp1. simpl. by rewrite Permutation_app_comm. }
  destruct (IH m1) as (m2 & Hi & Hm2 & Hp2); [done..| |].
  { by rewrite Hs1, <- app_assoc. }
  exists m2. simpl. split_and!; [done..|]. rewrite Hp2, Hs1. by rewrite app_assoc.
Qed.

(** The pages [i .. j) of [a] are those of the address range [lo, hi). *)
Definition range_parts (a : MapArea) (i j : nat) (lo hi : Z) : Prop :=
  (i ≤ j ≤ length (pages a))%nat ∧
  ∀ k, (k < length (pages a))%nat →
    (lo ≤ vaddr a + Z.of_nat k * PAGE_SIZE_4K < hi ↔ (i ≤ k < j)%nat).

Lemma part_elem a i j p s :
  (j ≤ length (pages a))%nat → (p, s) ∈ area_slots (part a i j) →
  ∃ k, (i ≤ k < j)%nat ∧ p = vaddr a + Z.of_nat k * PAGE_SIZE_4K.
Proof.
  intros Hj (k & pg & Hk & -> & _)%area_slots_elem. apply lookup_lt_Some in Hk.
  simpl in Hk. rewrite length_take, length_drop in Hk. exists (i + k)%nat.
  split; [lia|]. simpl. lia.
Qed.

Lemma unmap_parts a i j lo hi :
  range_parts a i j lo hi →
  omap (unmap_slot lo hi) (area_slots a) =
    slots [part a 0 i; part a j (length (pages a))].
Proof.
  intros [Hij Hk]. rewrite (area_slots_split a i j Hij), !omap_app.
  unfold slots. simpl. rewrite app_nil_r.
  rewrite (omap_nil _ (area_slots (part a i j))).
  2: { intros [p s] (k & ? & ->)%part_elem; [|lia]. unfold unmap_slot. simpl.
       rewrite decide_True; [done|]. apply Hk; lia. }
  rewrite !omap_id; [done|..].
  - intros [p s] (k & ? & ->)%part_elem; [|lia]. unfold unmap_slot. simpl.
    rewrite decide_False; [done|]. rewrite Hk; lia.
  - intros [p s] (k & ? & ->)%part_elem; [|lia]. unfold unmap_slot. simpl.
    rewrite decide_False; [done|]. rewrite Hk; lia.
Qed.

Lemma protect_parts a i j lo hi f :
  range_parts a i j lo hi →
  omap (protect_slot lo hi f) (area_slots a) =
    slots [part a 0 i; with_flags (part a i j) f; part a j (length (pages a))].
Proof.
  intros [Hij Hk]. rewrite (area_slots_split a i j Hij), !omap_app.
  unfold slots. simpl. rewrite app_nil_r, with_flags_slots.
  rewrite (omap_fmap_Some (λ e, (e.1, slot_with_flags f e.2)) _ (area_slots (part a i j))).
  2: { intros [p s] (k & ? & ->)%part_elem; [|lia]. unfold protect_slot. simpl.
       rewrite decide_True; [done|]. apply Hk; lia. }
  rewrite !omap_id; [done|..].
  - intros [p s] (k & ? & ->)%part_elem; [|lia]. unfold protect_slot. simpl.
    rewrite decide_False; [done|]. rewrite Hk; lia.
  - intros [p s] (k & ? & ->)%part_elem; [|lia]. unfold protect_slot. simpl.
    rewrite decide_False; [done|]. rewrite Hk; lia.
Qed.

Lemma range_parts_iff a i j lo hi p s :
  range_parts a i j lo hi → (p, s) ∈ area_slots a →
  (vaddr (part a i j) ≤ p < end_va (part a i j)) ↔ lo ≤ p < hi.
Proof.
  intros [Hij Hk] (k & pg & Hlk & -> & _)%area_slots_elem. apply lookup_lt_Some in Hlk.
  rewrite Hk by done. rewrite end_part by done. simpl. unfold PAGE_SIZE_4K. lia.
Qed.

Lemma parts_in_area a i j p :
  (i ≤ j ≤ length (pages a))%nat → vaddr (part a i j) ≤ p < end_va (part a i j) →
  vaddr a ≤ p < end_va a.
Proof. intros Hij. rewrite end_part by done. rewrite end_va_len. simpl. unfold PAGE_SIZE_4K. lia. Qed.

(** The four ways an aligned range meets an overlapping area, as the code
    distinguishes them. *)
Lemma overlap_cases a lo hi :
  area_ok a → lo mod PAGE_SIZE_4K = 0 → hi mod PAGE_SIZE_4K = 0 → lo < hi →
  overlap_with a lo hi = true →
  ∃ i j, range_parts a i j lo hi ∧ (i < j)%nat ∧
    ((contained_in a lo hi = true ∧ i = 0%nat ∧ j = length (pages a)) ∨
     (contained_in a lo hi = false ∧ strict_contain a lo hi = true ∧ (0 < i)%nat ∧
      (j < length (pages a))%nat ∧ lo = vaddr a + Z.of_nat i * PAGE_SIZE_4K ∧
      hi = vaddr a + Z.of_nat j * PAGE_SIZE_4K) ∨
     (contained_in a lo hi = false ∧ strict_contain a lo hi = false ∧
      bool_decide (lo ≤ vaddr a ∧ vaddr a < hi) = true ∧ i = 0%nat ∧
      (j < length (pages a))%nat ∧ hi = vaddr a + Z.of_nat j * PAGE_SIZE_4K) ∨
     (contained_in a lo hi = false ∧ strict_contain a lo hi = false ∧
      bool_decide (lo ≤ vaddr a ∧ vaddr a < hi) = false ∧ (0 < i)%nat ∧
      j = length (pages a) ∧ lo = vaddr a + Z.of_nat i * PAGE_SIZE_4K)).
Proof.
  intros Ha Hlo Hhi Hlt. unfold overlap_with, contained_in, strict_contain.
  rewrite bool_decide_eq_true. intros Hov.
  pose proof (ok_nonempty a Ha) as Hn.
  destruct (decide (lo ≤ vaddr a)) as [H1|H1], (decide (end_va a ≤ hi)) as [H2|H2].
  - exists 0%nat, (length (pages a)). split_and!.
    + split; [lia|]. intros k Hk. rewrite end_va_len in *. unfold PAGE_SIZE_4K in *. lia.
    + lia.
    + left. rewrite bool_decide_eq_true_2 by lia. done.
  - destruct (boundary a hi Ha Hhi ltac:(lia)) as (j & Hj & Hjl & _ & _).
    exists 0%nat, j. rewrite end_va_len in *. split_and!.
    + split; [lia|]. intros k Hk. unfold PAGE_SIZE_4K in *. lia.
    + unfold PAGE_SIZE_4K in *. lia.
    + right; right; left. rewrite !bool_decide_eq_false_2, bool_decide_eq_true_2 by lia.
      split_and!; try done. unfold PAGE_SIZE_4K in *. lia.
  - destruct (boundary a lo Ha Hlo ltac:(lia)) as (i & Hi & Hil & _ & _).
    exists i, (length (pages a)). rewrite end_va_len in *. split_and!.
    + split; [lia|]. intros k Hk. unfold PAGE_SIZE_4K in *. lia.
    + unfold PAGE_SIZE_4K in *. lia.
    + right; right; right. rewrite !bool_decide_eq_false_2 by lia.
      split_and!; try done. unfold PAGE_SIZE_4K in *. lia.
  - destruct (boundary a lo Ha Hlo ltac:(lia)) as (i & Hi & Hil & _ & _).
    destruct (boundary a hi Ha Hhi ltac:(lia)) as (j & Hj & Hjl & _ & _).
    exists i, j. rewrite end_va_len in *. split_and!.
    + split; [unfold PAGE_SIZE_4K in *; lia|]. intros k Hk. unfold PAGE_SIZE_4K in *. lia.
    + unfold PAGE_SIZE_4K in *. lia.
    + right; left. rewrite bool_decide_eq_false_2, bool_decide_eq_true_2 by lia.
      split_and!; try done; unfold PAGE_SIZE_4K in *; lia.
Qed.

Ltac all_parts_ok :=
  repeat (apply Forall_cons_2;
          [try apply with_flags_ok; first [done | apply part_ok; [done | lia]] |]);
  apply Forall_nil_2.

Section steps.
Context {W : Type} `{MemWorldLaws W}.

Lemma step_insert g a m rs :
  key_preserving g → slots rs ≡ₚ omap g (area_slots a) → Forall area_ok rs →
  map_ok m → NoDup (slots m.*2 ++ area_slots a).*1 →
  ∃ m', insert_list rs m = Ok m' ∧ map_ok m' ∧
    slots m'.*2 ≡ₚ slots m.*2 ++ omap g (area_slots a).
Proof.
  intros Hg Hrs Hok Hm Hnd. destruct (insert_list_ok rs m Hm Hok) as (m' & ? & ? & Hp).
  { rewrite Hrs. rewrite <- (app_nil_r (_ ++ omap g _)).
    apply NoDup_omap_middle; [done|]. by rewrite app_nil_r. }
  exists m'. split_and!; [done..|]. by rewrite Hp, Hrs.
Qed.

(** The page table after the pages [i .. j) got the permission [v]. *)
Lemma step_pt (g : Z * slot → option (Z * slot)) a i j lo hi w (w' : W) v :
  area_ok a → covers w a → range_parts a i j lo hi →
  (∀ p s, lo ≤ p < hi → s_flags s = flags a → (λ e, s_flags e.2) <$> g (p, s) = v) →
  (∀ p s, ¬ lo ≤ p < hi → s_flags s = flags a →
          (λ e, s_flags e.2) <$> g (p, s) = Some (flags a)) →
  (∀ p, p mod PAGE_SIZE_4K = 0 →
     pt_flags w' p = if decide (vaddr (part a i j) ≤ p < end_va (part a i j))
                     then v else pt_flags w p) →
  (∀ p s, (p, s) ∈ area_slots a → pt_flags w' p = (λ e, s_flags e.2) <$> g (p, s)) ∧
  (∀ p, p mod PAGE_SIZE_4K = 0 → p ∉ (area_slots a).*1 → pt_flags w' p = pt_flags w p).
Proof.
  intros Ha Hc Hr Hin Hout Hw. split.
  - intros p s Hps. pose proof (area_slots_range _ _ _ Hps) as [Hpr Hsf].
    pose proof (area_slots_aligned _ _ _ Ha Hps) as Hal. rewrite Hw by done.
    pose proof (range_parts_iff _ _ _ _ _ _ _ Hr Hps) as Hiff. case_decide as Hd.
    + symmetry. apply Hin; [|done]. by apply Hiff.
    + rewrite Hout; [by apply Hc| |done]. by rewrite <- Hiff.
  - intros p Hal Hk. rewrite Hw by done. rewrite decide_False; [done|].
    intros Hd. apply Hk, keys_elem. apply area_slots_cover; [done..|].
    eapply parts_in_area; [|exact Hd]. apply Hr.
Qed.

Lemma unmap_slot_flags lo hi a :
  (∀ p s, lo ≤ p < hi → s_flags s = flags a →
     (λ e, s_flags e.2) <$> unmap_slot lo hi (p, s) = None) ∧
  (∀ p s, ¬ lo ≤ p < hi → s_flags s = flags a →
     (λ e, s_flags e.2) <$> unmap_slot lo hi (p, s) = Some (flags a)).
Proof.
  unfold unmap_slot. split; intros p s Hp Hs; simpl.
  - by rewrite decide_True.
  - rewrite decide_False by done. simpl. by rewrite Hs.
Qed.

Lemma protect_slot_flags lo hi f a :
  (∀ p s, lo ≤ p < hi → s_flags s = flags a →
     (λ e, s_flags e.2) <$> protect_slot lo hi f (p, s) = Some f) ∧
  (∀ p s, ¬ lo ≤ p < hi → s_flags s = flags a →
     (λ e, s_flags e.2) <$> protect_slot lo hi f (p, s) = Some (flags a)).
Proof.
  unfold protect_slot. split; intros p s Hp Hs; simpl.
  - by rewrite decide_True.
  - rewrite decide_False by done. by rewrite Hs.
Qed.

Lemma split_one_step lo hi a :
  area_ok a → lo mod PAGE_SIZE_4K = 0 → hi mod PAGE_SIZE_4K = 0 → lo < hi →
  overlap_with a lo hi = true →
  step_spec (W := W) (split_one lo hi) (unmap_slot lo hi) a.
Proof.
  intros Ha Hlo Hhi Hlt Hov m w Hm Hnd Hc.
  destruct (overlap_cases a lo hi Ha Hlo Hhi Hlt Hov) as (i & j & Hr & Hij & Hcases).
  assert (∃ w' rs, slots rs ≡ₚ omap (unmap_slot lo hi) (area_slots a) ∧ Forall area_ok rs ∧
    split_one lo hi a m w = (m ← insert_list rs m; Ok (m, w')) ∧
    ∀ p, p mod PAGE_SIZE_4K = 0 →
      pt_flags w' p = if decide (vaddr (part a i j) ≤ p < end_va (part a i j))
                      then None else pt_flags w p) as (w' & rs & Hrs & Hok & Hb & Hw).
  { rewrite (unmap_parts _ _ _ _ _ Hr). pose proof Hr as [Hle _]. unfold split_one.
    destruct Hcases as [(Hc1 & -> & ->)|[(Hc1 & Hc2 & Hi & Hj & Elo & Ehi)|
      [(Hc1 & Hc2 & Hc3 & -> & Hj & Ehi)|(Hc1 & Hc2 & Hc3 & Hi & -> & Elo)]]].
    - destruct (dealloc_ok w a Ha Hc) as (a' & w' & Hd & Hw). exists w', [].
      rewrite part_all. rewrite Hc1, Hd. split_and!; [|done..].
      unfold slots. simpl. by rewrite ?part_full_slots.
    - destruct (remove_mid_ok w a i j Ha Hc Hle) as (w' & Hd & Hw).
      exists w', [part a j (length (pages a)); part a 0 i].
      rewrite Hc1, Hc2, Elo, Ehi, Hd. split_and!; [| |simpl|done].
      + unfold slots. simpl. rewrite !app_nil_r. apply Permutation_app_comm.
      + all_parts_ok.
      + by destruct (insert_new _ m) as [m1| |]; simpl; [destruct (insert_new _ m1)|..].
    - destruct (shrink_left_ok w a j Ha Hc) as (w' & Hd & Hw); [lia|].
      exists w', [part a j (length (pages a))].
      rewrite Hc1, Hc2, Hc3, Ehi, Hd. split_and!; [| |simpl|done].
      + unfold slots. simpl. by rewrite ?part_full_slots.
      + all_parts_ok.
      + by destruct (insert_new _ m).
    - destruct (shrink_right_ok w a i Ha Hc) as (w' & Hd & Hw); [lia|].
      exists w', [part a 0 i].
      rewrite Hc1, Hc2, Hc3, Elo, Hd. split_and!; [| |simpl|done].
      + unfold slots. simpl. by rewrite ?part_full_slots, ?app_nil_r.
      + all_parts_ok.
      + by destruct (insert_new _ m). }
  destruct (step_insert _ a m rs (unmap_slot_key lo hi) Hrs Hok Hm Hnd) as (m' & Hi & Hm' & Hp).
  exists m', w'. rewrite Hb, Hi. split; [done|]. split; [done|]. split; [done|].
  destruct (unmap_slot_flags lo hi a). by eapply step_pt.
Qed.

Lemma protect_one_step lo hi f a :
  area_ok a → lo mod PAGE_SIZE_4K = 0 → hi mod PAGE_SIZE_4K = 0 → lo < hi →
  overlap_with a lo hi = true →
  step_spec (W := W) (protect_one lo hi f) (protect_slot lo hi f) a.
Proof.
  intros Ha Hlo Hhi Hlt Hov m w Hm Hnd Hc.
  destruct (overlap_cases a lo hi Ha Hlo Hhi Hlt Hov) as (i & j & Hr & Hij & Hcases).
  assert (∃ w' rs, slots rs ≡ₚ omap (protect_slot lo hi f) (area_slots a) ∧
    Forall area_ok rs ∧
    protect_one lo hi f a m w = (m ← insert_list rs m; Ok (m, w')) ∧
    ∀ p, p mod PAGE_SIZE_4K = 0 →
      pt_flags w' p = if decide (vaddr (part a i j) ≤ p < end_va (part a i j))
                      then Some f else pt_flags w p) as (w' & rs & Hrs & Hok & Hb & Hw).
  { rewrite (protect_parts _ _ _ _ _ _ Hr). pose proof Hr as [Hle _].
    assert (area_ok (part a i j)) as Hpok by (apply part_ok; [done|lia]).
    destruct (update_flags_ok w (part a i j) f Hpok (covers_part w a i j Hc Hle))
      as (w' & Hu & Hw). exists w'. unfold protect_one.
    destruct Hcases as [(Hc1 & -> & ->)|[(Hc1 & Hc2 & Hi & Hj & Elo & Ehi)|
      [(Hc1 & Hc2 & Hc3 & -> & Hj & Ehi)|(Hc1 & Hc2 & Hc3 & Hi & -> & Elo)]]].
    - exists [with_flags (part a 0 (length (pages a))) f].
      rewrite part_all in *. rewrite Hc1, Hu. split_and!; [| |simpl|done].
      + unfold slots. simpl. by rewrite ?part_full_slots, ?app_nil_r.
      + all_parts_ok.
      + by destruct (insert_new _ m).
    - exists [with_flags (part a i j) f; part a j (length (pages a)); part a 0 i].
      rewrite Hc1, Hc2, Elo, Ehi. rewrite split3_ok by (done || lia).
      rewrite bind_Ok. cbv beta iota. rewrite Hu.
      split_and!; [| |simpl|done].
      + unfold slots. simpl. rewrite !app_nil_r.
        rewrite (app_assoc (area_slots (with_flags _ _))). apply Permutation_app_comm.
      + all_parts_ok.
      + destruct (insert_new _ m) as [m1| |]; simpl; try done.
        destruct (insert_new _ m1) as [m2| |]; simpl; try done.
        by destruct (insert_new _ m2).
    - exists [part a j (length (pages a)); with_flags (part a 0 j) f].
      rewrite Hc1, Hc2, Hc3, Ehi. rewrite split_ok by (done || lia).
      rewrite bind_Ok. cbv beta iota. rewrite Hu.
      split_and!; [| |simpl|done].
      + unfold slots. simpl. rewrite ?app_nil_r, ?part_full_slots. apply Permutation_app_comm.
      + all_parts_ok.
      + destruct (insert_new _ m) as [m1| |]; simpl; try done.
        by destruct (insert_new _ m1).
    - exists [with_flags (part a i (length (pages a))) f; part a 0 i].
      rewrite Hc1, Hc2, Hc3, Elo. rewrite split_ok by (done || lia).
      rewrite bind_Ok. cbv beta iota. rewrite Hu.
      split_and!; [| |simpl|done].
      + unfold slots. simpl. rewrite ?part_full_slots, ?app_nil_r. apply Permutation_app_comm.
      + all_parts_ok.
      + destruct (insert_new _ m) as [m1| |]; simpl; try done.
        by destruct (insert_new _ m1). }
  destruct (step_insert _ a m rs (protect_slot_key lo hi f) Hrs Hok Hm Hnd)
    as (m' & Hi & Hm' & Hp).
  exists m', w'. rewrite Hb, Hi. split; [done|]. split; [done|]. split; [done|].
  destruct (protect_slot_flags lo hi f a). by eapply step_pt.
Qed.
End steps.

(** ** Memory sets *)

Lemma drain_overlap_ok lo hi m : ∀ ov prev,
  bt_sorted prev → NoDup (prev.*1 ++ m.*1) →
  ∃ prev', drain_overlap lo hi m ov prev =
      (ov ++ filter (λ e, overlap_with e.2 lo hi = true) m, prev') ∧
    bt_sorted prev' ∧ prev' ≡ₚ prev ++ filter (λ e, overlap_with e.2 lo hi ≠ true) m.
Proof.
  induction m as [|[k a] m IH]; intros ov prev Hs Hnd; simpl.
  { exists prev. by rewrite !app_nil_r. }
  rewrite !filter_cons. simpl. destruct (overlap_with a lo hi) eqn:E.
  - rewrite decide_True, decide_False by (done || naive_solver).
    destruct (IH (ov ++ [(k, a)]) prev) as (prev' & -> & Hs' & Hp); [done| |].
    { eapply sublist_NoDup; [exact Hnd|]. apply sublist_app; [done|]. by apply sublist_cons. }
    exists prev'. by rewrite <- app_assoc.
  - rewrite decide_False, decide_True by done.
    assert (bt_get k prev = None) as Hk.
    { apply bt_get_None. intros Hin. apply NoDup_app in Hnd as (_ & Hd & _).
      apply (Hd k Hin). left. }
    destruct (IH ov (bt_insert k a prev)) as (prev' & -> & Hs' & Hp).
    { by apply bt_insert_sorted. }
    { rewrite (bt_insert_perm k a prev Hk).
      change (NoDup (k :: prev.*1 ++ m.*1)). rewrite Permutation_middle. exact Hnd. }
    exists prev'. split_and!; [done..|]. rewrite Hp, (bt_insert_perm k a prev Hk). simpl.
    by rewrite <- Permutation_middle.
Qed.

(** Lookups after a key-preserving transformation of the entries. *)
Lemma lookup_omap_keys (g : Z * slot → option (Z * slot)) (l : list (Z * slot)) (p : Z) :
  key_preserving g → NoDup l.*1 →
  (list_to_map (omap g l) : gmap Z slot) !! p =
    ((list_to_map l : gmap Z slot) !! p ≫= λ s, snd <$> g (p, s)).
Proof.
  intros Hg. induction l as [|[k s] l IH]; simpl; intros Hnd; [by rewrite !lookup_empty|].
  apply NoDup_cons in Hnd as [Hk Hnd]. specialize (IH Hnd).
  destruct (decide (k = p)) as [->|Hne].
  - rewrite lookup_insert_eq. simpl. destruct (g (p, s)) as [[k' s']|] eqn:E; simpl.
    + pose proof (Hg _ _ E) as Hk'. simpl in Hk'. subst k'. by rewrite lookup_insert_eq.
    + etransitivity; [exact IH|]. by rewrite (not_elem_of_list_to_map_1 l p Hk).
  - rewrite lookup_insert_ne by done. destruct (g (k, s)) as [[k' s']|] eqn:E; simpl; [|exact IH].
    pose proof (Hg _ _ E) as Hk'. simpl in Hk'. subst k'. rewrite lookup_insert_ne by done.
    exact IH.
Qed.

#[export] Instance seg_le_trans : Transitive seg_le.
Proof. intros x y z. unfold seg_le. lia. Qed.
#[export] Instance seg_le_total : Total seg_le.
Proof. intros x y. unfold seg_le. lia. Qed.

Section mem_props.
Context {W : Type} `{MemWorldLaws W}.

(** The invariant of a process address space.  [R] is the set of pages that
    other mappings (the kernel, attached shared memory) own. *)
Record ms_wf (R : Z → Prop) (ms : MemorySet) (w : W) : Prop := {
  ms_map : map_ok (owned_mem ms);
  ms_nodup : NoDup (slots (owned_mem ms).*2).*1;
  ms_pt_in : ∀ p s, space ms !! p = Some s → pt_flags w p = Some (s_flags s);
  ms_pt_out : ∀ p, p mod PAGE_SIZE_4K = 0 → ¬ R p → space ms !! p = None →
              pt_flags w p = None;
  ms_reserved : ∀ p, R p → space ms !! p = None
}.

Lemma space_elem ms p s :
  NoDup (slots (owned_mem ms).*2).*1 →
  space ms !! p = Some s ↔ (p, s) ∈ slots (owned_mem ms).*2.
Proof. intros Hnd. unfold space. symmetry. by apply elem_of_list_to_map. Qed.

Lemma outside_no_overlap a lo hi g :
  area_ok a → overlap_with a lo hi ≠ true →
  (∀ e, ¬ lo ≤ e.1 < hi → g e = Some e) → omap g (area_slots a) = area_slots a.
Proof.
  intros Ha Hov Hg. apply omap_id. intros [p s] Hps. apply Hg. simpl.
  apply area_slots_range in Hps as [Hr _]. intros Hin. apply Hov.
  unfold overlap_with. apply bool_decide_eq_true_2. lia.
Qed.

Lemma drain_split lo hi m prev :
  prev ≡ₚ filter (λ e : Z * MapArea, overlap_with e.2 lo hi ≠ true) m →
  m ≡ₚ prev ++ filter (λ e, overlap_with e.2 lo hi = true) m.
Proof.
  intros ->. induction m as [|e m IH]; [done|]. rewrite !filter_cons.
  destruct (decide (overlap_with e.2 lo hi = true)) as [E|E].
  - rewrite (decide_False (P := overlap_with e.2 lo hi ≠ true)) by naive_solver.
    rewrite <- Permutation_middle. by constructor.
  - rewrite decide_True by done. simpl. by constructor.
Qed.

(** The page table agrees with the areas: on the pages of an address space,
    and outside it. *)
Lemma ms_wf_covers R ms w a :
  ms_wf R ms w → a ∈ (owned_mem ms).*2 → area_ok a → covers w a.
Proof.
  intros Hwf Hin Ha. apply covers_elem; [done|]. intros p s Hps.
  destruct (area_slots_range a p s Hps) as [_ <-].
  apply (ms_pt_in R ms w Hwf), space_elem; [apply Hwf|]. apply slots_elem. eauto.
Qed.

Lemma map_ok_elem m a : map_ok m → a ∈ m.*2 → area_ok a.
Proof.
  intros [_ Hf] ([k a'] & -> & Hin)%list_elem_of_fmap. rewrite Forall_forall in Hf.
  by destruct (Hf _ Hin).
Qed.

(** Transforming the pages of some areas ([sel]) and leaving the others alone
    keeps the invariant. *)
Lemma transform_wf R ms m' w w' g (sel : list (Z * slot)) :
  ms_wf R ms w → map_ok m' → NoDup (slots m'.*2).*1 →
  (∀ p, space (with_owned ms m') !! p = (space ms !! p ≫= λ s, snd <$> g (p, s))) →
  (∀ p s, space ms !! p = Some s → p mod PAGE_SIZE_4K = 0 ∧
     ((p, s) ∈ sel ∨ p ∉ sel.*1 ∧ g (p, s) = Some (p, s))) →
  (∀ p s, (p, s) ∈ sel → space ms !! p = Some s) →
  (∀ p s, (p, s) ∈ sel → pt_flags w' p = (λ e, s_flags e.2) <$> g (p, s)) →
  (∀ p, p mod PAGE_SIZE_4K = 0 → p ∉ sel.*1 → pt_flags w' p = pt_flags w p) →
  ms_wf R (with_owned ms m') w'.
Proof.
  intros Hwf Hm Hnd Hsp Hsel Hsel' Hin Hout. split; [done..| | |].
  - intros p s'. rewrite Hsp. destruct (space ms !! p) as [s|] eqn:E; simpl; [|done].
    destruct (Hsel p s E) as [Hal [Hps|[Hps Hgs]]].
    + rewrite (Hin p s Hps). destruct (g (p, s)); simpl; by intros [= ->].
    + rewrite Hgs. simpl. intros [= ->]. rewrite (Hout p Hal Hps).
      by apply (ms_pt_in R ms w Hwf).
  - intros p Hal HR. rewrite Hsp. destruct (space ms !! p) as [s|] eqn:E; simpl.
    + destruct (Hsel p s E) as [_ [Hps|[Hps Hgs]]]; [|by rewrite Hgs].
      rewrite (Hin p s Hps). by destruct (g (p, s)).
    + intros _. rewrite Hout; [by eapply ms_pt_out|done|].
      intros (s & Hs)%keys_elem. apply Hsel' in Hs. congruence.
  - intros p HR. rewrite Hsp, (ms_reserved R ms w Hwf p HR). done.
Qed.

Lemma transform_areas body g R ms w lo hi :
  ms_wf R ms w → key_preserving g →
  (∀ a, area_ok a → overlap_with a lo hi = true → step_spec body g a) →
  (∀ e, ¬ lo ≤ e.1 < hi → g e = Some e) →
  ∃ ov prev m' w', drain_overlap lo hi (owned_mem ms) [] [] = (ov, prev) ∧
    for_areas body ov prev w = Ok (m', w') ∧
    ms_wf R (with_owned ms m') w' ∧
    ∀ p, space (with_owned ms m') !! p = (space ms !! p ≫= λ s, snd <$> g (p, s)).
Proof.
  intros Hwf Hg Hstep Hout. pose proof (ms_map R ms w Hwf) as [Hs Hf].
  destruct (drain_overlap_ok lo hi (owned_mem ms) [] []) as (prev & Hd & Hps & Hpp).
  { constructor. }
  { simpl. by apply bt_sorted_NoDup. }
  simpl in Hd, Hpp. pose proof (drain_split _ _ _ _ Hpp) as Hsplit.
  set (ov := filter (λ e, overlap_with e.2 lo hi = true) (owned_mem ms)) in *.
  assert (slots (owned_mem ms).*2 ≡ₚ slots prev.*2 ++ slots ov.*2) as Hsl.
  { rewrite <- slots_app, <- fmap_app. by rewrite Hsplit at 1. }
  pose proof (ms_nodup R ms w Hwf) as Hnd. rewrite Hsl in Hnd.
  assert (∀ a, a ∈ ov.*2 → area_ok a ∧ a ∈ (owned_mem ms).*2 ∧ overlap_with a lo hi = true)
    as Hov.
  { intros a (e & -> & [He Hin]%list_elem_of_filter)%list_elem_of_fmap.
    assert (e.2 ∈ (owned_mem ms).*2) by (apply list_elem_of_fmap; eauto).
    split_and!; [|done..]. eapply map_ok_elem; [apply Hwf|done]. }
  assert (∀ e, e ∈ slots prev.*2 → g e = Some e) as Hprev.
  { intros [p s] (a & Ha & Hps')%slots_elem. apply Hout. simpl. intros Hr.
    apply list_elem_of_fmap in Ha as ([k a'] & -> & Hin).
    rewrite Hpp in Hin. apply list_elem_of_filter in Hin as [Hno _]. apply Hno. simpl.
    apply area_slots_range in Hps' as [? _]. apply bool_decide_eq_true_2. simpl in *. lia. }
  destruct (for_areas_ok body g ov Hg prev w) as (m' & w' & Hfa & Hm' & Hp & Hin & Hnin).
  - apply Forall_forall. intros a Ha. destruct (Hov a Ha) as (? & ? & ?). split; [done|].
    by apply Hstep.
  - split; [done|]. rewrite Hpp. apply Forall_forall.
    intros e [_ He]%list_elem_of_filter. rewrite Forall_forall in Hf. by apply Hf.
  - exact Hnd.
  - apply Forall_forall. intros a Ha. destruct (Hov a Ha) as (? & ? & ?).
    by eapply ms_wf_covers.
  - exists ov, prev, m', w'. split; [done|]. split; [done|].
    assert (slots m'.*2 ≡ₚ omap g (slots (owned_mem ms).*2)) as Hall.
    { by rewrite Hp, Hsl, omap_app, (omap_id g (slots prev.*2)). }
    assert (NoDup (slots m'.*2).*1) as Hnd'.
    { rewrite Hall. eapply sublist_NoDup; [|by apply omap_keys_sublist]. apply Hwf. }
    assert (∀ p, space (with_owned ms m') !! p = (space ms !! p ≫= λ s, snd <$> g (p, s)))
      as Hsp.
    { intros p. unfold space. simpl.
      rewrite (list_to_map_proper _ _ Hnd' Hall).
      apply lookup_omap_keys; [done|apply Hwf]. }
    split; [|exact Hsp].
    eapply (transform_wf R ms m' w w' g (slots ov.*2)); [done..| | |exact Hin|exact Hnin].
    + intros p s Hsp'. apply space_elem in Hsp'; [|apply Hwf].
      pose proof Hsp' as (a & Ha & Hps')%slots_elem. split.
      { eapply area_slots_aligned; [|done]. eapply map_ok_elem; [apply Hwf|done]. }
      rewrite Hsl in Hsp'. apply elem_of_app in Hsp' as [Hin'|Hin']; [right|by left].
      split; [|by apply Hprev].
      eapply NoDup_keys_disjoint; [exact Hnd|]. apply keys_elem. eauto.
    + intros p s Hps'. apply space_elem; [apply Hwf|]. rewrite Hsl.
      apply elem_of_app. by right.
Qed.

Lemma align_up_ok sz :
  0 < sz → sz + PAGE_SIZE_4K < two64 →
  align_up_size sz mod PAGE_SIZE_4K = 0 ∧ sz ≤ align_up_size sz < sz + PAGE_SIZE_4K.
Proof.
  intros H1 H2. unfold align_up_size, page_count, PAGE_SIZE_4K in *.
  rewrite wrap64_small by (unfold is_u64; lia). mlia.
Qed.

Lemma split_for_area_ok R ms w start sz :
  ms_wf R ms w → start mod PAGE_SIZE_4K = 0 → sz mod PAGE_SIZE_4K = 0 →
  0 ≤ start → 0 < sz → start + sz < two64 →
  ∃ ms' w', split_for_area start sz ms w = Ok (ms', w') ∧ ms_wf R ms' w' ∧
    attached_mem ms' = attached_mem ms ∧
    ∀ p, space ms' !! p = if decide (start ≤ p < start + sz) then None else space ms !! p.
Proof.
  intros Hwf Hst Hsz Hge Hpos Hlt. unfold split_for_area.
  rewrite wrap64_small by (unfold is_u64; lia).
  assert (is_aligned_4k (start + sz) = true) as ->.
  { apply bool_decide_eq_true_2. unfold PAGE_SIZE_4K in *. mlia. }
  destruct (transform_areas (split_one start (start + sz)) (unmap_slot start (start + sz))
              R ms w start (start + sz) Hwf (unmap_slot_key _ _))
    as (ov & prev & m' & w' & Hd & Hfa & Hwf' & Hsp).
  - intros a Ha Hov. apply split_one_step; try done; [|lia]. unfold PAGE_SIZE_4K in *. mlia.
  - intros e He. unfold unmap_slot. by rewrite decide_False.
  - simpl. rewrite Hd, Hfa. do 2 eexists. split_and!; [done..|].
    intros p. rewrite Hsp. unfold unmap_slot. simpl.
    destruct (space ms !! p); simpl; by case_decide.
Qed.

Lemma length_area_pages sz : 0 ≤ sz → sz mod PAGE_SIZE_4K = 0 → sz + PAGE_SIZE_4K < two64 →
  Z.of_nat (Z.to_nat (page_count sz)) * PAGE_SIZE_4K = sz.
Proof.
  intros. unfold page_count, PAGE_SIZE_4K in *.
  rewrite wrap64_small by (unfold is_u64; lia). mlia.
Qed.

(** The slot of page [p] in a fresh lazily allocated mapping at [start]. *)
Definition lazy_slot (start f : Z) (sh : bool) (b : option MemBackend) (p : Z) : slot :=
  {| s_page := None; s_flags := f; s_shared := sh;
     s_file := (λ b, (b_file b, b_pos b + (p - start), b_writable b)) <$> b |}.

Definition lazy_area (start : Z) (n : nat) (f : Z) (sh : bool) (b : option MemBackend) :=
  {| pages := replicate n None; vaddr := start; shared := sh; flags := f; backend := b |}.

Lemma lazy_area_slots start n f sh b p s :
  (p, s) ∈ area_slots (lazy_area start n f sh b) → s = lazy_slot start f sh b p.
Proof.
  intros (i & pg & Hi & -> & ->)%area_slots_elem. apply lookup_replicate in Hi as [-> _].
  unfold mk_slot, lazy_slot. simpl. f_equal. destruct b; [|done]. simpl. do 3 f_equal. lia.
Qed.

Lemma lazy_area_ok start n f sh b :
  start mod PAGE_SIZE_4K = 0 → 0 ≤ start → (0 < n)%nat →
  start + Z.of_nat n * PAGE_SIZE_4K < 2 ^ 63 →
  (∀ bk, b = Some bk → backend_ok bk (Z.of_nat n * PAGE_SIZE_4K)) →
  area_ok (lazy_area start n f sh b).
Proof.
  intros. split; unfold end_va, size; simpl; rewrite ?length_replicate; done.
Qed.

Lemma area_slots_NoDup a : NoDup (area_slots a).*1.
Proof.
  unfold area_slots. rewrite fmap_imap. apply NoDup_alt. intros i j p.
  rewrite !list_lookup_imap. intros Hi Hj.
  destruct (pages a !! i), (pages a !! j); simplify_eq/=. unfold PAGE_SIZE_4K in *. lia.
Qed.

(** Inserting an area over free pages that the page table now maps. *)
Lemma insert_area_wf R ms w w' a :
  ms_wf R ms w → area_ok a →
  (∀ p, p mod PAGE_SIZE_4K = 0 → vaddr a ≤ p < end_va a → ¬ R p ∧ space ms !! p = None) →
  (∀ p, p mod PAGE_SIZE_4K = 0 →
     pt_flags w' p = if decide (vaddr a ≤ p < end_va a) then Some (flags a) else pt_flags w p) →
  ∃ m', insert_new a (owned_mem ms) = Ok m' ∧ ms_wf R (with_owned ms m') w' ∧
    ∀ p s, space (with_owned ms m') !! p = Some s ↔
           space ms !! p = Some s ∨ (p, s) ∈ area_slots a.
Proof.
  intros Hwf Ha Hfree Hw'.
  assert (∀ p s, (p, s) ∈ area_slots a → ¬ R p ∧ space ms !! p = None) as Hno.
  { intros p s Hps. apply Hfree; [by eapply area_slots_aligned|by eapply area_slots_range]. }
  assert (NoDup (slots (owned_mem ms).*2 ++ area_slots a).*1) as Hnd.
  { rewrite fmap_app. apply NoDup_app. split_and!; [apply Hwf| |apply area_slots_NoDup].
    intros p (s1 & Hs1)%keys_elem (s2 & Hs2)%keys_elem.
    apply space_elem in Hs1; [|apply Hwf]. destruct (Hno p s2 Hs2). congruence. }
  destruct (insert_new_ok (owned_mem ms) a (ms_map _ _ _ Hwf) Ha Hnd) as (m' & Hi & Hm' & Hp).
  assert (slots m'.*2 ≡ₚ slots (owned_mem ms).*2 ++ area_slots a) as Hsl.
  { rewrite Hp. simpl. by rewrite Permutation_app_comm. }
  assert (NoDup (slots m'.*2).*1) as Hnd' by by rewrite Hsl.
  assert (∀ p s, space (with_owned ms m') !! p = Some s ↔
    space ms !! p = Some s ∨ (p, s) ∈ area_slots a) as Hsp.
  { intros p s. rewrite !space_elem by (done || apply Hwf). simpl. by rewrite Hsl, elem_of_app. }
  exists m'. split; [done|]. split; [|exact Hsp]. split; [done..| | |].
  - intros p s [Hs|Hs]%Hsp.
    + pose proof (ms_pt_in R ms w Hwf p s Hs) as Hpt. apply space_elem in Hs; [|apply Hwf].
      apply slots_elem in Hs as (b & Hb & Hs).
      pose proof (map_ok_elem _ _ (ms_map _ _ _ Hwf) Hb) as Hbok.
      rewrite Hw' by (by eapply area_slots_aligned). rewrite decide_False; [done|].
      intros Hr. destruct (Hfree p) as [_ Hn]; [by eapply area_slots_aligned|done|].
      apply not_elem_of_list_to_map_2 in Hn. apply Hn, keys_elem. exists s.
      apply slots_elem. eauto.
    + rewrite Hw' by (by eapply area_slots_aligned).
      apply area_slots_range in Hs as [Hr ->]. by rewrite decide_True.
  - intros p Hal HR Hn. rewrite Hw' by done. rewrite decide_False.
    + eapply ms_pt_out; [done..|]. apply eq_None_not_Some. intros [s Hs].
      rewrite (proj2 (Hsp p s)) in Hn by (by left). done.
    + intros Hr. destruct (area_slots_cover a p Ha Hal Hr) as [s Hs].
      rewrite (proj2 (Hsp p s)) in Hn by (by right). done.
  - intros p HR. apply eq_None_not_Some. intros [s [Hs|Hs]%Hsp].
    + by rewrite (ms_reserved R ms w Hwf p HR) in Hs.
    + by destruct (Hno p s Hs).
Qed.

Lemma new_lazy_region_ok R ms w start sz f sh b :
  ms_wf R ms w → start mod PAGE_SIZE_4K = 0 → sz mod PAGE_SIZE_4K = 0 →
  0 ≤ start → 0 < sz → start + sz < 2 ^ 63 →
  (∀ bk, b = Some bk → backend_ok bk sz) →
  (∀ p, p mod PAGE_SIZE_4K = 0 → start ≤ p < start + sz → ¬ R p ∧ space ms !! p = None) →
  ∃ ms' w', new_region start sz sh f None b ms w = Ok (ms', w') ∧ ms_wf R ms' w' ∧
    ∀ p, p mod PAGE_SIZE_4K = 0 →
      space ms' !! p = if decide (start ≤ p < start + sz)
                       then Some (lazy_slot start f sh b p) else space ms !! p.
Proof.
  intros Hwf Hst Hsz Hge Hpos Hlt Hb Hfree. unfold new_region, new_lazy.
  pose proof (length_area_pages sz ltac:(lia) Hsz ltac:(unfold PAGE_SIZE_4K, two64; lia)) as Hn.
  set (n := Z.to_nat (page_count sz)) in *. rewrite Hn.
  destruct (law_map_fault start sz f w Hst Hsz ltac:(lia)) as (w' & -> & Hw').
  { intros p Hal Hr. destruct (Hfree p Hal Hr). by eapply ms_pt_out. }
  assert (area_ok (lazy_area start n f sh b)) as Ha.
  { apply lazy_area_ok; rewrite ?Hn; try done. unfold PAGE_SIZE_4K in *. lia. }
  assert (end_va (lazy_area start n f sh b) = start + sz) as Hend.
  { unfold end_va, size. simpl. rewrite length_replicate. lia. }
  destruct (insert_area_wf R ms w w' (lazy_area start n f sh b) Hwf Ha)
    as (m' & Hi & Hwf' & Hsp); [by rewrite Hend..|].
  assert (∀ a0, a0 = lazy_area start n f false b →
    (if sh then set_shared a0 sh else a0) = lazy_area start n f sh b) as Hsh.
  { intros a0 ->. by destruct sh. }
  simpl. erewrite Hsh by done. rewrite Hi. do 2 eexists. split; [done|]. split; [done|].
  intros p Hal. case_decide as Hr.
  - destruct (area_slots_cover _ p Ha Hal) as [s Hs]; [by rewrite Hend|].
    pose proof (lazy_area_slots _ _ _ _ _ _ _ Hs) as ->. apply Hsp. by right.
  - destruct (space ms !! p) as [s|] eqn:E; [by apply Hsp; left|].
    apply eq_None_not_Some. intros [s [Hs|Hs]%Hsp]; [congruence|].
    apply area_slots_range in Hs. rewrite Hend in Hs. simpl in Hs. lia.
Qed.

(** *** Free areas *)

Definition seg_disj (x y : Z * Z) : Prop := x.2 ≤ y.1 ∨ y.2 ≤ x.1.
Definition seg_ok (x : Z * Z) : Prop := 0 ≤ x.1 < x.2 ∧ x.2 < 2 ^ 63.

(** The segments attached by [shmat]: inside the pages [R], pairwise disjoint. *)
Record attached_wf (R : Z → Prop) (ms : MemorySet) : Prop := {
  att_nodup : NoDup (attached_mem ms).*1.*1;
  att_seg : ∀ s f m, (s, f, m) ∈ attached_mem ms →
    s mod PAGE_SIZE_4K = 0 ∧ sm_size m mod PAGE_SIZE_4K = 0 ∧
    seg_ok (s, s + sm_size m) ∧
    ∀ p, p mod PAGE_SIZE_4K = 0 → s ≤ p < s + sm_size m → R p;
  att_disj : ∀ s f m s' f' m', (s, f, m) ∈ attached_mem ms → (s', f', m') ∈ attached_mem ms →
    s ≠ s' → seg_disj (s, s + sm_size m) (s', s' + sm_size m')
}.
(** The only pages of user space that are reserved besides the attached segments are
    those of [T], which the page table maps although the set has no area of them, as
    the page of the signal trampoline. *)
Record attached_ok (T R : Z → Prop) (ms : MemorySet) : Prop := {
  att_wf :> attached_wf R ms;
  att_all : ∀ p, R p → p < 2 ^ 63 → ¬ T p → ∃ s f m, (s, f, m) ∈ attached_mem ms ∧ s ≤ p < s + sm_size m
}.

(** The scan over sorted disjoint segments returns an address from which the
    [sz] bytes meet neither the segments behind nor those ahead. *)
Lemma free_gap_ok segs : ∀ done last_end sz r,
  StronglySorted (λ x y, x.2 ≤ y.1) segs → Forall seg_ok segs →
  (∀ d x, d ∈ done → x ∈ segs → d.2 ≤ x.1) → (∀ d, d ∈ done → d.2 ≤ last_end) →
  0 ≤ last_end < 2 ^ 63 → 0 < sz < 2 ^ 63 →
  free_gap segs last_end sz = Some r →
  0 ≤ r ∧ (∃ x, x ∈ segs ∧ r + sz ≤ x.1) ∧
  (r = last_end ∨ ∃ x, x ∈ segs ∧ r = x.2) ∧
  ∀ d, d ∈ done ++ segs → d.2 ≤ r ∨ r + sz ≤ d.1.
Proof.
  induction segs as [|[s e] segs IH]; [done|]. intros dn le sz r Hss Hok Hds Hdl Hle Hsz.
  apply StronglySorted_inv in Hss as [Hss Hhd]. apply Forall_cons in Hok as [Hse Hok].
  rewrite Forall_forall in Hhd. unfold seg_ok in Hse. simpl in *.
  rewrite wrap64_small by (unfold is_u64, two64; lia). case_decide as Hd.
  - intros [= <-]. split; [lia|]. split; [|split; [by left|]].
    { exists (s, e). simpl. split; [left|done]. }
    intros d [Hd'|Hd']%elem_of_app; [left; by apply Hdl|].
    apply elem_of_cons in Hd' as [->|Hd']; simpl; right; [done|].
    specialize (Hhd d Hd'). simpl in Hhd. lia.
  - intros Hr. apply (IH (dn ++ [(s, e)]) e sz r) in Hr as (H1 & (x & Hx & Hxr) & H3 & H4); try done.
    + split; [done|]. split; [|split].
      * exists x. split; [by right|done].
      * right. destruct H3 as [->|(y & Hy & ->)]; [exists (s, e)|exists y]; split; try done;
          [left|by right].
      * intros d Hd'. apply H4. rewrite <- app_assoc. done.
    + intros d y [Hd'|Hd']%elem_of_app Hy.
      * apply Hds; [done|by right].
      * apply list_elem_of_singleton in Hd' as ->. by apply Hhd.
    + intros d [Hd'|Hd']%elem_of_app.
      * specialize (Hds d (s, e) Hd' ltac:(left)). simpl in Hds. lia.
      * by apply list_elem_of_singleton in Hd' as ->.
    + lia.
Qed.

(** Sorted by position, pairwise disjoint segments follow one another. *)
Lemma sorted_disjoint l :
  StronglySorted seg_le l → Forall seg_ok l → NoDup l →
  (∀ x y, x ∈ l → y ∈ l → x ≠ y → seg_disj x y) →
  StronglySorted (λ x y, x.2 ≤ y.1) l.
Proof.
  induction 1 as [|x l Hss IH Hhd]; intros Hok Hnd Hdj; [constructor|].
  apply Forall_cons in Hok as [Hx Hok]. apply NoDup_cons in Hnd as [Hxl Hnd].
  constructor.
  - apply IH; [done..|]. intros. apply Hdj; try done; by right.
  - rewrite Forall_forall in Hhd, Hok |- *. intros y Hy.
    destruct (Hdj x y) as [Hd|Hd]; [left|by right|by intros ->|done|].
    specialize (Hhd y Hy). specialize (Hok y Hy). unfold seg_le, seg_ok in *. lia.
Qed.

(** Two areas of a memory set do not overlap. *)
Lemma areas_disjoint R ms w k a k' a' :
  ms_wf R ms w → (k, a) ∈ owned_mem ms → (k', a') ∈ owned_mem ms → k ≠ k' →
  seg_disj (vaddr a, end_va a) (vaddr a', end_va a').
Proof.
  intros Hwf Hin Hin' Hne. unfold seg_disj. simpl.
  assert (area_ok a) as Ha by (eapply map_ok_elem; [apply Hwf|apply list_elem_of_fmap; by eexists (_, _)]).
  assert (area_ok a') as Ha' by (eapply map_ok_elem; [apply Hwf|apply list_elem_of_fmap; by eexists (_, _)]).
  assert (∀ p, p ∈ (area_slots a).*1 → p ∉ (area_slots a').*1) as Hdj.
  { apply elem_of_Permutation in Hin as [m1 Hm1]. rewrite Hm1 in Hin'.
    apply elem_of_cons in Hin' as [?|Hin']; [by simplify_eq|].
    apply elem_of_Permutation in Hin' as [m2 Hm2]. intros p.
    pose proof (ms_nodup _ _ _ Hwf) as Hnd. rewrite Hm1, Hm2 in Hnd. simpl in Hnd.
    intros Hp Hp'. eapply (NoDup_keys_disjoint _ _ p Hnd Hp).
    rewrite fmap_app. apply elem_of_app. by left. }
  pose proof (area_first a Ha) as Hf. pose proof (area_first a' Ha') as Hf'.
  destruct (decide (end_va a ≤ vaddr a')) as [|H1]; [by left|].
  destruct (decide (end_va a' ≤ vaddr a)) as [|H2]; [by right|]. exfalso.
  destruct (decide (vaddr a ≤ vaddr a')).
  - destruct (area_slots_cover a (vaddr a') Ha) as [s Hs]; [apply Ha'|lia|].
    apply (Hdj (vaddr a')); [|done]. apply keys_elem. eauto.
  - destruct (area_slots_cover a' (vaddr a) Ha') as [s Hs]; [apply Ha|lia|].
    apply (Hdj (vaddr a)); [done|]. apply keys_elem. eauto.
Qed.

(** The segments of a well-formed memory set, in terms of its areas. *)
Lemma segments_elem R ms w x :
  ms_wf R ms w → attached_wf R ms → x ∈ segments ms →
  (∃ a, (vaddr a, a) ∈ owned_mem ms ∧ area_ok a ∧ x = (vaddr a, end_va a)) ∨
  (∃ s f m, (s, f, m) ∈ attached_mem ms ∧ seg_ok x ∧ x = (s, s + sm_size m)).
Proof.
  intros Hwf Hatt [Hx|Hx]%elem_of_app; [left|right].
  - apply list_elem_of_fmap in Hx as ([k a] & -> & Hin).
    pose proof (ms_map _ _ _ Hwf) as [_ Hf]. rewrite Forall_forall in Hf.
    destruct (Hf _ Hin) as [-> Ha]. exists a. split_and!; [done..|].
    f_equal. apply wrap64_small. destruct Ha. unfold end_va, size, is_u64, two64, PAGE_SIZE_4K in *. lia.
  - apply list_elem_of_fmap in Hx as ([[s f] m] & -> & Hin). exists s, f, m.
    destruct (att_seg _ _ Hatt _ _ _ Hin) as (_ & _ & Hs & _).
    rewrite wrap64_small; [done|]. unfold seg_ok, is_u64, two64 in *. simpl in *. lia.
Qed.

Lemma segments_ok R ms w :
  ms_wf R ms w → attached_wf R ms → Forall seg_ok (segments ms).
Proof.
  intros Hwf Hatt. apply Forall_forall. intros x Hx.
  destruct (segments_elem R ms w x Hwf Hatt Hx) as [(a & _ & Ha & ->)|(s & f & m & _ & ? & _)];
    [|done].
  destruct Ha. unfold seg_ok, end_va, size, PAGE_SIZE_4K in *. simpl. lia.
Qed.

(** Owned areas lie outside the reserved pages, attached segments inside. *)
Lemma owned_attached_disjoint R ms w a s f m :
  ms_wf R ms w → attached_wf R ms → (vaddr a, a) ∈ owned_mem ms → area_ok a →
  (s, f, m) ∈ attached_mem ms → seg_disj (vaddr a, end_va a) (s, s + sm_size m).
Proof.
  intros Hwf Hatt Hin Ha Hm. unfold seg_disj. simpl.
  destruct (att_seg _ _ Hatt _ _ _ Hm) as (Hal & Hsz & [Hs1 Hs2] & HR). simpl in *.
  assert (∀ p, p mod PAGE_SIZE_4K = 0 → vaddr a ≤ p < end_va a → ¬ R p) as HnR.
  { intros p Hp Hr HRp. pose proof (ms_reserved _ _ _ Hwf p HRp) as Hno.
    destruct (area_slots_cover a p Ha Hp Hr) as [sl Hsl].
    apply not_elem_of_list_to_map_2 in Hno. apply Hno, keys_elem. exists sl.
    apply slots_elem. exists a. split; [|done]. apply list_elem_of_fmap. by exists (vaddr a, a). }
  destruct (decide (end_va a ≤ s)) as [|H1]; [by left|].
  destruct (decide (s + sm_size m ≤ vaddr a)) as [|H2]; [by right|]. exfalso.
  destruct (decide (vaddr a ≤ s)).
  - apply (HnR s Hal); [lia|]. apply HR; [done|lia].
  - apply (HnR (vaddr a)); [apply Ha| |].
    + pose proof (area_nonempty a Ha). lia.
    + apply HR; [apply Ha|lia].
Qed.

Lemma segments_pairwise R ms w :
  ms_wf R ms w → attached_wf R ms →
  NoDup (segments ms) ∧ ∀ x y, x ∈ segments ms → y ∈ segments ms → x ≠ y → seg_disj x y.
Proof.
  intros Hwf Hatt. split.
  - apply (NoDup_fmap_1 fst). unfold segments. rewrite fmap_app, <- !list_fmap_compose.
    apply NoDup_app. split_and!.
    + rewrite (list_fmap_ext _ fst) by (by intros ? []). apply bt_sorted_NoDup, Hwf.
    + intros x ([k a] & -> & Hin)%list_elem_of_fmap ([[s f] m] & Heq & Hm)%list_elem_of_fmap.
      simpl in Heq. subst k. pose proof (ms_map _ _ _ Hwf) as [_ Hf].
      rewrite Forall_forall in Hf. destruct (Hf _ Hin) as [-> Ha].
      destruct (owned_attached_disjoint R ms w a (vaddr a) f m Hwf Hatt Hin Ha Hm) as [Hd|Hd];
        simpl in Hd; [pose proof (area_nonempty a Ha); lia|].
      destruct (att_seg _ _ Hatt _ _ _ Hm) as (_ & _ & [? ?] & _). simpl in *. lia.
    + rewrite (list_fmap_ext _ (fst ∘ fst)) by (by intros ? [[] ?]).
      rewrite list_fmap_compose. apply Hatt.
  - intros x y Hx Hy Hne.
    destruct (segments_elem R ms w x Hwf Hatt Hx) as [(a & Ha & Haok & ->)|(s & f & m & Hm & _ & ->)],
      (segments_elem R ms w y Hwf Hatt Hy) as [(a' & Ha' & Haok' & ->)|(s' & f' & m' & Hm' & _ & ->)].
    + eapply areas_disjoint; [done..|]. intros Heq. apply Hne.
      pose proof (ms_map _ _ _ Hwf) as [Hs _].
      apply (bt_elem_get _ _ _ Hs) in Ha, Ha'. rewrite Heq in Ha. by simplify_eq.
    + by eapply owned_attached_disjoint.
    + destruct (owned_attached_disjoint R ms w a' s f m Hwf Hatt Ha' Haok' Hm); [by right|by left].
    + eapply att_disj; [done..|]. intros ->. apply Hne.
      pose proof (att_nodup _ _ Hatt) as Hnd. rewrite <- list_fmap_compose in Hnd.
      assert ((s', f, m) = (s', f', m')) as Heq; [|by simplify_eq].
      eapply (NoDup_fmap_inj_elem (fst ∘ fst)); done.
Qed.
End mem_props.
