(* ===== verification/MemorySpec.v ===== *)
(** The contract of process address spaces: theorems on [mmap], [munmap],
    [mprotect], page faults and [msync], stated on the abstract address space
    [space], and a concrete page table, page allocator and file store that
    satisfies the laws assumed of the code outside the memory module. *)

From S2P Require Import Prelude BTree Memory MemoryProps.

(** ** A concrete world

    The page table as a map from page addresses to permissions, physical pages
    and files as maps to their bytes.  A region operation fails where the real
    page table reports an error. *)
Record SimWorld := {
  sim_pt : gmap Z Z;
  sim_next : nat;
  sim_pages : gmap nat (list Z);
  sim_files : gmap nat (list Z)
}.

Definition sim_with_pt (w : SimWorld) (pt : gmap Z Z) : SimWorld :=
  {| sim_pt := pt; sim_next := sim_next w; sim_pages := sim_pages w; sim_files := sim_files w |}.

Definition sim_region (va sz : Z) : list Z :=
  (λ i, va + Z.of_nat i * PAGE_SIZE_4K) <$> seq 0 (Z.to_nat (sz / PAGE_SIZE_4K)).

(** Set every page of the region to [v], provided all its entries satisfy [ok]. *)
Definition sim_set (ok : option Z → bool) (v : option Z) (va sz : Z) (w : SimWorld)
    : outcome SimWorld :=
  if forallb (λ p, ok (sim_pt w !! p)) (sim_region va sz)
  then Ok (sim_with_pt w (foldr (λ p m, partial_alter (λ _, v) p m) (sim_pt w) (sim_region va sz)))
  else Err InvalidInput.

Definition sim_mapped (o : option Z) : bool := bool_decide (is_Some o).
Definition sim_free (o : option Z) : bool := bool_decide (o = None).

(** Write [bs] at offset [pos] of [l], padding a gap with zeroes. *)
Definition write_bytes (pos : nat) (bs l : list Z) : list Z :=
  take pos (l ++ replicate (pos - length l) 0) ++ bs ++ drop (pos + length bs) l.

#[export] Instance sim_world : MemWorld SimWorld := {
  pt_map_fault_region va sz f := sim_set sim_free (Some f) va sz;
  pt_map_region va _ sz f := sim_set sim_free (Some f) va sz;
  pt_unmap_region := sim_set sim_mapped None;
  pt_update_region va sz f := sim_set sim_mapped (Some f) va sz;
  pt_map_overwrite va _ f w := Ok (sim_with_pt w (<[va := f]> (sim_pt w)));
  pt_get_entry va w := (λ f, (true, f)) <$> sim_pt w !! align_down_4k va;
  page_alloc w := Ok (sim_next w,
    {| sim_pt := sim_pt w; sim_next := S (sim_next w);
       sim_pages := <[sim_next w := zero_page]> (sim_pages w); sim_files := sim_files w |});
  page_alloc_contiguous n data w := Ok (Some <$> seq (sim_next w) n,
    {| sim_pt := sim_pt w; sim_next := (sim_next w + n)%nat;
       sim_pages := foldr (λ p, <[p := zero_page]>) (sim_pages w) (seq (sim_next w) n);
       sim_files := sim_files w |});
  page_paddr p _ := Z.of_nat p * PAGE_SIZE_4K;
  page_bytes p w := default [] (sim_pages w !! p);
  page_set_bytes p bs w :=
    {| sim_pt := sim_pt w; sim_next := sim_next w;
       sim_pages := <[p := bs]> (sim_pages w); sim_files := sim_files w |};
  file_read_full fd pos n w :=
    match sim_files w !! fd with
    | Some l => (take n (drop (Z.to_nat pos) l), None)
    | None => ([], Some NotFound)
    end;
  file_write fd pos bs w :=
    match sim_files w !! fd with
    | Some l => (Ok (Z.of_nat (length bs)),
        {| sim_pt := sim_pt w; sim_next := sim_next w; sim_pages := sim_pages w;
           sim_files := <[fd := write_bytes (Z.to_nat pos) bs l]> (sim_files w) |})
    | None => (Err NotFound, w)
    end
}.

Lemma sim_region_elem va sz p :
  va mod PAGE_SIZE_4K = 0 → sz mod PAGE_SIZE_4K = 0 → 0 ≤ sz →
  p ∈ sim_region va sz ↔ p mod PAGE_SIZE_4K = 0 ∧ va ≤ p < va + sz.
Proof.
  intros Hva Hsz Hpos. unfold sim_region. rewrite list_elem_of_fmap.
  setoid_rewrite elem_of_seq. unfold PAGE_SIZE_4K in *. split.
  - intros (i & -> & Hi). mlia.
  - intros [Hp Hr]. exists (Z.to_nat ((p - va) / 4096)). mlia.
Qed.

Lemma sim_set_lookup (v : option Z) (l : list Z) (m : gmap Z Z) p :
  foldr (λ p m, partial_alter (λ _, v) p m) m l !! p = if decide (p ∈ l) then v else m !! p.
Proof.
  induction l as [|q l IH]; [done|]. simpl foldr.
  destruct (decide (q = p)) as [->|Hne].
  - rewrite lookup_partial_alter_eq, decide_True by set_solver. done.
  - rewrite lookup_partial_alter_ne by done. rewrite IH. apply decide_ext. set_solver.
Qed.

Lemma sim_set_ok ok v va sz w :
  va mod PAGE_SIZE_4K = 0 → sz mod PAGE_SIZE_4K = 0 → 0 ≤ sz →
  (∀ p, p mod PAGE_SIZE_4K = 0 → va ≤ p < va + sz → ok (sim_pt w !! p) = true) →
  ∃ w', sim_set ok v va sz w = Ok w' ∧
    ∀ p, p mod PAGE_SIZE_4K = 0 →
      sim_pt w' !! p = if decide (va ≤ p < va + sz) then v else sim_pt w !! p.
Proof.
  intros Hva Hsz Hpos Hok. unfold sim_set.
  assert (forallb (λ p, ok (sim_pt w !! p)) (sim_region va sz) = true) as ->.
  { apply forallb_forall. intros p Hp%list_elem_of_In. apply sim_region_elem in Hp; naive_solver. }
  eexists. split; [done|]. intros p Hp. simpl. rewrite sim_set_lookup. apply decide_ext.
  rewrite sim_region_elem by done. naive_solver.
Qed.

#[export, refine] Instance sim_laws : MemWorldLaws SimWorld :=
  {| pt_flags w p := sim_pt w !! p |}.
Proof.
  - intros va sz w ??? Hm. apply sim_set_ok; try done. intros. apply bool_decide_eq_true_2. by apply Hm.
  - intros va sz f w ??? Hm. apply sim_set_ok; try done. intros. apply bool_decide_eq_true_2. by apply Hm.
  - intros va sz f w ??? Hm. apply sim_set_ok; try done. intros. apply bool_decide_eq_true_2. by apply Hm.
Defined.

Section contracts.
Context {W : Type} `{MemWorldLaws W}.

(** C13: [munmap] always succeeds on an aligned range, removes exactly the
    pages of the range (its size rounded up to pages) from the address space,
    keeps every other page with its physical page, permissions and file
    position, and keeps the areas disjoint and the page table in step. *)
Theorem munmap_unmaps R ms w start sz :
  ms_wf R ms w → start mod PAGE_SIZE_4K = 0 → 0 ≤ start → 0 < sz →
  start + sz + PAGE_SIZE_4K < two64 →
  ∃ ms' w', munmap start sz ms w = Ok (ms', w') ∧ ms_wf R ms' w' ∧
    ∀ p, space ms' !! p =
      if decide (start ≤ p < start + align_up_size sz) then None else space ms !! p.
Proof.
  intros Hwf Hal Hge Hpos Hlt.
  destruct (align_up_ok sz) as [Hm Hr]; [done|lia|].
  destruct (split_for_area_ok R ms w start (align_up_size sz))
    as (ms' & w' & ? & ? & _ & ?); try done; try lia.
  exists ms', w'. done.
Qed.

Lemma mprotect_ok R ms w start sz f :
  ms_wf R ms w → start mod PAGE_SIZE_4K = 0 → sz mod PAGE_SIZE_4K = 0 →
  0 ≤ start → 0 < sz → start + sz < two64 →
  ∃ ms' w', mprotect start sz f ms w = Ok (ms', w') ∧ ms_wf R ms' w' ∧
    ∀ p, space ms' !! p =
      if decide (start ≤ p < start + sz) then slot_with_flags f <$> space ms !! p
      else space ms !! p.
Proof.
  intros Hwf Hal Hsz Hge Hpos Hlt. unfold mprotect.
  rewrite wrap64_small by (unfold is_u64; lia).
  assert (is_aligned_4k (start + sz) = true) as ->.
  { apply bool_decide_eq_true_2. unfold PAGE_SIZE_4K in *. mlia. }
  destruct (transform_areas (protect_one start (start + sz) f)
              (protect_slot start (start + sz) f) R ms w start (start + sz) Hwf
              (protect_slot_key _ _ _)) as (ov & prev & m' & w' & Hd & Hfa & Hwf' & Hsp).
  - intros a Ha Hov. apply protect_one_step; try done; [|lia]. unfold PAGE_SIZE_4K in *. mlia.
  - intros [p s] He. unfold protect_slot. simpl in *. by rewrite decide_False.
  - simpl. rewrite Hd, Hfa. do 2 eexists. split_and!; [done..|].
    intros p. rewrite Hsp. unfold protect_slot. simpl.
    destruct (space ms !! p); simpl; by case_decide.
Qed.

(** C14: [mprotect] on an aligned range always succeeds, gives every mapped
    page of the range the new permissions, in the address space and in the
    page table, and changes nothing else, whatever areas it has to split. *)
Theorem mprotect_protects R ms w start sz f :
  ms_wf R ms w → start mod PAGE_SIZE_4K = 0 → sz mod PAGE_SIZE_4K = 0 →
  0 ≤ start → 0 < sz → start + sz < two64 →
  ∃ ms' w', mprotect start sz f ms w = Ok (ms', w') ∧ ms_wf R ms' w' ∧
    ∀ p, space ms' !! p =
      if decide (start ≤ p < start + sz) then slot_with_flags f <$> space ms !! p
      else space ms !! p.
Proof. apply mprotect_ok. Qed.

Lemma mmap_fixed_ok R ms w ums start sz f sh b :
  ms_wf R ms w → start mod PAGE_SIZE_4K = 0 → 0 ≤ start → 0 < sz →
  start + align_up_size sz < 2 ^ 63 → sz < 2 ^ 63 →
  (∀ bk, b = Some bk → backend_ok bk (align_up_size sz)) →
  (∀ p, start ≤ p < start + align_up_size sz → ¬ R p) →
  ∃ ms' w', mmap ums start sz f sh true b ms w = Ok (start, ms', w') ∧ ms_wf R ms' w' ∧
    ∀ p, p mod PAGE_SIZE_4K = 0 →
      space ms' !! p = if decide (start ≤ p < start + align_up_size sz)
                       then Some (lazy_slot start f sh b p) else space ms !! p.
Proof.
  intros Hwf Hal Hge Hpos Hlt Hsz Hb HR. unfold mmap.
  destruct (align_up_ok sz) as [Hm Hr]; [done|unfold two64, PAGE_SIZE_4K; lia|].
  destruct (split_for_area_ok R ms w start (align_up_size sz))
    as (ms1 & w1 & -> & Hwf1 & _ & Hsp1); try done; [lia|unfold two64; lia|].
  destruct (new_lazy_region_ok R ms1 w1 start (align_up_size sz) f sh b)
    as (ms2 & w2 & Hn & Hwf2 & Hsp2); try done; [lia| |].
  - intros p _ Hp. split; [by apply HR|]. rewrite Hsp1. by rewrite decide_True.
  - rewrite bind_Ok. rewrite Hn. exists ms2, w2. split_and!; [done..|].
    intros p Hp. rewrite Hsp2, Hsp1 by done. by case_decide.
Qed.

(** C15: a fixed [mmap] of a range that starts on a page, ends below 2^63 and meets no
    reserved page - of an attached shared segment or of the signal trampoline, over
    which the kernel panics ([MemSim.fixed_over_segment_panics]) - with positions of
    the file, if there is one, that fit 63 bits, replaces the areas that the range
    held by fresh lazily allocated pages with the requested permissions, sharing and
    file positions, and leaves every other page alone. *)
Theorem mmap_fixed_maps R ms w ums start sz f sh b :
  ms_wf R ms w → start mod PAGE_SIZE_4K = 0 → 0 ≤ start → 0 < sz →
  start + align_up_size sz < 2 ^ 63 → sz < 2 ^ 63 →
  (∀ bk, b = Some bk → backend_ok bk (align_up_size sz)) →
  (∀ p, start ≤ p < start + align_up_size sz → ¬ R p) →
  ∃ ms' w', mmap ums start sz f sh true b ms w = Ok (start, ms', w') ∧ ms_wf R ms' w' ∧
    ∀ p, p mod PAGE_SIZE_4K = 0 →
      space ms' !! p = if decide (start ≤ p < start + align_up_size sz)
                       then Some (lazy_slot start f sh b p) else space ms !! p.
Proof. apply mmap_fixed_ok. Qed.

(** The area chosen by [find_free_area] meets no mapping. *)
Lemma find_free_area_ok R ms w ums hint sz r :
  ms_wf R ms w → attached_wf R ms → 0 ≤ hint < 2 ^ 63 → 0 ≤ ums < 2 ^ 63 →
  hint mod PAGE_SIZE_4K = 0 → ums mod PAGE_SIZE_4K = 0 → 0 < sz < 2 ^ 63 →
  find_free_area ums hint sz ms = Some r →
  0 ≤ r ∧ r mod PAGE_SIZE_4K = 0 ∧ r + sz < 2 ^ 63 ∧
  (∀ x, x ∈ segments ms → x.2 ≤ r ∨ r + sz ≤ x.1).
Proof.
  intros Hwf Hatt Hh Hu Hha Hua Hsz Hf. unfold find_free_area in Hf.
  pose proof (segments_ok R ms w Hwf Hatt) as Hok.
  destruct (segments_pairwise R ms w Hwf Hatt) as [Hnd Hdj].
  pose proof (merge_sort_Permutation seg_le (segments ms)) as Hp.
  apply (free_gap_ok _ []) in Hf as (Hr0 & (x & Hx & Hxr) & Hsrc & Hall); [| | |set_solver..|lia|lia].
  - rewrite Hp in Hx. pose proof Hok as Hok'. rewrite Forall_forall in Hok'. pose proof (Hok' x Hx) as Hxok.
    split_and!; [done| |unfold seg_ok in Hxok; lia|].
    + destruct Hsrc as [->|(y & Hy & ->)].
      { destruct (Z.max_spec hint ums) as [[_ ->]|[_ ->]]; done. }
      rewrite Hp in Hy. destruct (segments_elem R ms w y Hwf Hatt Hy)
        as [(a & _ & Ha & ->)|(s & fl & m & Hm & _ & ->)]; simpl.
      * destruct Ha. unfold end_va, size, PAGE_SIZE_4K in *. mlia.
      * destruct (att_seg _ _ Hatt _ _ _ Hm) as (Hs1 & Hs2 & _ & _).
        unfold PAGE_SIZE_4K in *. mlia.
    + intros d Hd. apply Hall. simpl. by rewrite Hp.
  - apply sorted_disjoint.
    + apply StronglySorted_merge_sort; apply _.
    + by rewrite Hp.
    + by rewrite Hp.
    + intros y z Hy Hz. rewrite Hp in Hy, Hz. by apply Hdj.
  - by rewrite Hp.
Qed.

(** A range that meets no segment is free. *)
Lemma segments_free T R ms w r sz p :
  ms_wf R ms w → attached_ok T R ms → r + sz < 2 ^ 63 → ¬ T p →
  (∀ x, x ∈ segments ms → x.2 ≤ r ∨ r + sz ≤ x.1) → r ≤ p < r + sz →
  ¬ R p ∧ space ms !! p = None.
Proof.
  intros Hwf Hatt Hlt HT Hseg Hp. split.
  - intros HR. destruct (att_all _ _ _ Hatt p HR) as (s & f & m & Hm & Hr); [lia|done|].
    destruct (att_seg _ _ Hatt _ _ _ Hm) as (_ & _ & Hok & _).
    destruct (Hseg (s, wrap64 (s + sm_size m))) as [Hd|Hd]; simpl in *.
    + apply elem_of_app. right. apply list_elem_of_fmap. by exists (s, f, m).
    + rewrite wrap64_small in Hd; [lia|]. unfold seg_ok, is_u64, two64 in *. simpl in *. lia.
    + lia.
  - apply eq_None_not_Some. intros [sl Hs]. apply space_elem in Hs; [|apply Hwf].
    apply slots_elem in Hs as (a & ([k a'] & -> & Hin)%list_elem_of_fmap & Hps). simpl in Hps.
    pose proof (ms_map _ _ _ Hwf) as [_ Hf]. rewrite Forall_forall in Hf.
    destruct (Hf _ Hin) as [-> Ha]. apply area_slots_range in Hps as [Hr _].
    destruct (Hseg (vaddr a', wrap64 (vaddr a' + size a'))) as [Hd|Hd]; simpl in *.
    + apply elem_of_app. left. apply list_elem_of_fmap. by exists (vaddr a', a').
    + destruct Ha. unfold end_va in *. rewrite wrap64_small in Hd; [lia|].
      unfold is_u64, two64, size, PAGE_SIZE_4K in *. lia.
    + lia.
Qed.

Lemma mmap_anywhere_ok T R ms w ums hint sz f sh b :
  ms_wf R ms w → attached_ok T R ms →
  (∀ r, find_free_area ums hint (align_up_size sz) ms = Some r → ∀ p, r ≤ p < r + align_up_size sz → ¬ T p) →
  0 ≤ hint < 2 ^ 63 → hint mod PAGE_SIZE_4K = 0 →
  0 ≤ ums < 2 ^ 63 → ums mod PAGE_SIZE_4K = 0 →
  0 < sz → align_up_size sz < 2 ^ 63 → sz < 2 ^ 63 →
  (∀ bk, b = Some bk → backend_ok bk (align_up_size sz)) →
  mmap ums hint sz f sh false b ms w = Err NoMemory ∨
  ∃ r ms' w', mmap ums hint sz f sh false b ms w = Ok (r, ms', w') ∧ ms_wf R ms' w' ∧
    (∀ p, r ≤ p < r + align_up_size sz → ¬ R p ∧ space ms !! p = None) ∧
    ∀ p, p mod PAGE_SIZE_4K = 0 →
      space ms' !! p = if decide (r ≤ p < r + align_up_size sz)
                       then Some (lazy_slot r f sh b p) else space ms !! p.
Proof.
  intros Hwf Hatt HT Hh Hha Hu Hua Hpos Hlt Hsz Hb. unfold mmap.
  destruct (align_up_ok sz) as [Hm Hr]; [done|unfold two64, PAGE_SIZE_4K; lia|].
  destruct (find_free_area ums hint (align_up_size sz) ms) as [r|] eqn:E; [right|by left].
  specialize (HT r eq_refl). apply (find_free_area_ok R ms w) in E as (Hr0 & Hal & Hend & Hseg); try done; [|apply Hatt|lia].
  pose proof (segments_free T R ms w r (align_up_size sz)) as Hfree.
  destruct (new_lazy_region_ok R ms w r (align_up_size sz) f sh b)
    as (ms2 & w2 & Hn & Hwf2 & Hsp2); try done; [lia| |].
  - intros p _ Hp. apply Hfree; auto.
  - rewrite Hn. exists r, ms2, w2. split_and!; try done. intros p Hp. apply Hfree; auto.
Qed.

(** [mmap] without [MAP_FIXED] either reports that no gap is large enough
    and changes nothing, or maps a fresh range that no owned area and no
    attached shared segment meets, leaving every other page alone. *)
Theorem mmap_anywhere_free T R ms w ums hint sz f sh b :
  ms_wf R ms w → attached_ok T R ms →
  (∀ r, find_free_area ums hint (align_up_size sz) ms = Some r → ∀ p, r ≤ p < r + align_up_size sz → ¬ T p) →
  0 ≤ hint < 2 ^ 63 → hint mod PAGE_SIZE_4K = 0 →
  0 ≤ ums < 2 ^ 63 → ums mod PAGE_SIZE_4K = 0 →
  0 < sz → align_up_size sz < 2 ^ 63 → sz < 2 ^ 63 →
  (∀ bk, b = Some bk → backend_ok bk (align_up_size sz)) →
  mmap ums hint sz f sh false b ms w = Err NoMemory ∨
  ∃ r ms' w', mmap ums hint sz f sh false b ms w = Ok (r, ms', w') ∧ ms_wf R ms' w' ∧
    (∀ p, r ≤ p < r + align_up_size sz → ¬ R p ∧ space ms !! p = None) ∧
    ∀ p, p mod PAGE_SIZE_4K = 0 →
      space ms' !! p = if decide (r ≤ p < r + align_up_size sz)
                       then Some (lazy_slot r f sh b p) else space ms !! p.
Proof. apply mmap_anywhere_ok. Qed.
End contracts.

(** ** Page faults *)

(** What [map_overwrite] and the accesses to physical memory promise: a mapped
    page is remapped with the given permissions, and neither filling nor
    mapping a page touches the rest. *)
Class FaultLaws (W : Type) `{MemWorldLaws W} := {
  law_alloc : ∀ w pg w', page_alloc w = Ok (pg, w') →
    (∀ p, pt_flags w' p = pt_flags w p) ∧
    ∀ fd pos n, file_read_full fd pos n w' = file_read_full fd pos n w;
  law_set_bytes : ∀ pg bs w,
    page_bytes pg (page_set_bytes pg bs w) = bs ∧
    ∀ p, pt_flags (page_set_bytes pg bs w) p = pt_flags w p;
  law_overwrite : ∀ va pa f w, is_Some (pt_flags w va) →
    ∃ w', pt_map_overwrite va pa f w = Ok w' ∧
      (∀ p, pt_flags w' p = if decide (p = va) then Some f else pt_flags w p) ∧
      ∀ pg, page_bytes pg w' = page_bytes pg w
}.

#[export] Instance sim_fault_laws : FaultLaws SimWorld.
Proof.
  split.
  - intros w pg w' [= <- <-]. done.
  - intros pg bs w. split; [|done]. simpl. by rewrite lookup_insert_eq.
  - intros va pa f w _. eexists. split; [done|]. split; [|done]. intros p. simpl.
    case_decide as Hd; [subst; by rewrite lookup_insert_eq|by rewrite lookup_insert_ne].
Qed.

Definition slot_with_page (pg : PageRef) (s : slot) : slot :=
  {| s_page := Some pg; s_flags := s_flags s; s_shared := s_shared s; s_file := s_file s |}.

(** Giving page [p] a physical page. *)
Definition fill_slot (p : Z) (pg : PageRef) (e : Z * slot) : option (Z * slot) :=
  Some (e.1, if decide (e.1 = p) then slot_with_page pg e.2 else e.2).

Lemma fill_slot_key p pg : key_preserving (fill_slot p pg).
Proof. intros e e'. unfold fill_slot. by intros; simplify_eq. Qed.

Lemma fill_area_slots a i pg :
  (i < length (pages a))%nat →
  area_slots (with_pages a (<[i := Some pg]> (pages a))) =
  omap (fill_slot (vaddr a + Z.of_nat i * PAGE_SIZE_4K) pg) (area_slots a).
Proof.
  intros Hi.
  rewrite (omap_fmap_Some (λ e, (e.1, if decide (e.1 = vaddr a + Z.of_nat i * PAGE_SIZE_4K)
    then slot_with_page pg e.2 else e.2))) by done.
  apply list_eq. intros k. unfold area_slots. simpl.
  rewrite list_lookup_fmap, !list_lookup_imap. simpl.
  destruct (decide (i = k)) as [->|Hne].
  - rewrite list_lookup_insert_eq by done.
    destruct (pages a !! k) eqn:E; [|apply lookup_ge_None in E; lia]. simpl.
    by rewrite decide_True.
  - rewrite list_lookup_insert_ne by done. destruct (pages a !! k); [|done]. simpl.
    rewrite decide_False; [done|]. unfold PAGE_SIZE_4K. lia.
Qed.

(** The read of the file behind a page fails. *)
Definition read_fails {W} `{MemWorld W} (s : slot) (w : W) : bool :=
  match s_file s with
  | Some (fd, pos, _) => bool_decide (is_Some (file_read_full fd pos (Z.to_nat PAGE_SIZE_4K) w).2)
  | None => false
  end.

(** The bytes a faulting page receives: those of the file at the page's
    position over what the physical page held; zeroes without a file or when the
    read fails. *)
Definition fault_bytes {W} `{MemWorld W} (s : slot) (pg : PageRef) (w : W) : list Z :=
  match s_file s with
  | Some (fd, pos, _) =>
      let bs := (file_read_full fd pos (Z.to_nat PAGE_SIZE_4K) w).1 in
      if read_fails s w then zero_page else bs ++ drop (length bs) (page_bytes pg w)
  | None => zero_page
  end.

(** A slot without its place in the file. *)
Definition slot_core (s : slot) : option PageRef * Z * bool := (s_page s, s_flags s, s_shared s).

Lemma area_slots_core a b : prod_map id slot_core <$> area_slots (with_backend a b) = prod_map id slot_core <$> area_slots a.
Proof.
  unfold area_slots. apply list_eq. intros i. rewrite !list_lookup_fmap, !list_lookup_imap. cbn.
  by destruct (pages a !! i).
Qed.

Lemma space_core ms ms' m1 k a b m2 :
  owned_mem ms = m1 ++ (k, a) :: m2 → owned_mem ms' = m1 ++ (k, with_backend a b) :: m2 →
  ∀ q, slot_core <$> space ms' !! q = slot_core <$> space ms !! q.
Proof.
  intros Hm Hm' q. unfold space. rewrite <- !lookup_fmap, <- !list_to_map_fmap. f_equal. f_equal.
  rewrite Hm, Hm', !fmap_app, !fmap_cons. unfold slots. rewrite !bind_app, !bind_cons, !fmap_app. f_equal. f_equal.
  apply area_slots_core.
Qed.

Lemma page_index_bound a addr :
  vaddr a ≤ addr < end_va a →
  (Z.to_nat ((addr - vaddr a) / PAGE_SIZE_4K) < length (pages a))%nat ∧
  0 ≤ (addr - vaddr a) / PAGE_SIZE_4K.
Proof. intros Hr. unfold end_va, size, PAGE_SIZE_4K in *. mlia. Qed.

Lemma align_down_page a addr :
  area_ok a → vaddr a ≤ addr < end_va a →
  align_down_4k addr =
    vaddr a + Z.of_nat (Z.to_nat ((addr - vaddr a) / PAGE_SIZE_4K)) * PAGE_SIZE_4K.
Proof.
  intros [Ha _ _ _ _] Hr. unfold align_down_4k, PAGE_SIZE_4K in *. mlia.
Qed.

Section faults.
Context {W : Type} `{FaultLaws W}.

Lemma area_fault_ok a addr f w i pg w1 :
  area_ok a → covers w a → vaddr a ≤ addr < end_va a →
  flags_contains (flags a) f = true →
  i = Z.to_nat ((addr - vaddr a) / PAGE_SIZE_4K) → pages a !! i = Some None →
  page_alloc w = Ok (pg, w1) →
  ∃ w' b, handle_page_fault addr f a w =
          Ok (true, with_backend (with_pages a (<[i := Some pg]> (pages a))) b, w') ∧
    (read_fails (mk_slot a i None) w1 = false → b = backend a) ∧
    (∀ p, pt_flags w' p = pt_flags w p) ∧
    page_bytes pg w' = fault_bytes (mk_slot a i None) pg w1.
Proof.
  intros Ha Hc Hr Hf Hi Hpg Hal. unfold handle_page_fault.
  rewrite bool_decide_eq_true_2 by lia. simpl. rewrite Hf. simpl. rewrite <- Hi, Hpg, Hal.
  simpl. destruct (law_alloc w pg w1 Hal) as [Hpt1 Hfile].
  destruct (page_index_bound a addr Hr) as [Hib Hi0].
  assert (pt_flags w (align_down_4k addr) = Some (flags a)) as Hmap.
  { apply Hc; rewrite (align_down_page a addr Ha Hr); rewrite <- Hi in *.
    - destruct Ha. unfold PAGE_SIZE_4K in *. mlia.
    - rewrite end_va_len. unfold PAGE_SIZE_4K. lia. }
  assert (∀ bs, ∃ w', pt_map_overwrite (align_down_4k addr) (page_paddr pg (page_set_bytes pg bs w1))
            (flags a) (page_set_bytes pg bs w1) = Ok w' ∧
            (∀ p, pt_flags w' p = pt_flags w p) ∧ page_bytes pg w' = bs) as Hov.
  { intros bs. destruct (law_set_bytes pg bs w1) as [Hb Hpt2].
    destruct (law_overwrite (align_down_4k addr) (page_paddr pg (page_set_bytes pg bs w1))
      (flags a) (page_set_bytes pg bs w1)) as (w' & -> & Hpt3 & Hbytes).
    { rewrite Hpt2, Hpt1, Hmap. done. }
    exists w'. split; [done|]. split.
    - intros p. rewrite Hpt3. case_decide as Hd; [by subst|]. by rewrite Hpt2, Hpt1.
    - by rewrite Hbytes. }
  unfold fault_bytes, read_fails. simpl. destruct (backend a) as [b|] eqn:Eb; simpl.
  - assert ((addr - vaddr a) / PAGE_SIZE_4K * PAGE_SIZE_4K = Z.of_nat i * PAGE_SIZE_4K) as ->
      by (rewrite Hi, Z2Nat.id by done; done).
    unfold read_from_seek. rewrite (seek_ok a i b Ha) by (done || lia). simpl.
    destruct (file_read_full (b_file b) (b_pos b + Z.of_nat i * PAGE_SIZE_4K)
      (Z.to_nat PAGE_SIZE_4K) w1) as [bs [err|]]; simpl.
    + destruct (Hov zero_page) as (w' & Hw' & ? & ?). rewrite Hw'. eexists w', _. by split.
    + destruct (Hov (bs ++ drop (length bs) (page_bytes pg w1))) as (w' & -> & ? & ?).
      exists w', (backend a). split; [|by rewrite Eb].
      simpl. unfold with_pages, with_backend, backend_at. simpl. rewrite Eb. by destruct b.
  - destruct (Hov zero_page) as (w' & Hw' & ? & ?).
    exists w', None. rewrite Hw'. split; [|done]. unfold with_pages, with_backend. by rewrite Eb.
Qed.

Lemma fault_areas_none addr f m w :
  (∀ k a, (k, a) ∈ m → ¬ vaddr a ≤ addr < end_va a) → fault_areas addr f m w = Ok None.
Proof.
  induction m as [|[k a] m IH]; intros Hm; [done|]. simpl.
  rewrite bool_decide_eq_false_2 by (apply (Hm k); left).
  rewrite IH; [done|]. intros. eapply Hm. by right.
Qed.

Lemma fault_areas_at addr f m1 k a m2 w :
  (∀ k a, (k, a) ∈ m1 → ¬ vaddr a ≤ addr < end_va a) → vaddr a ≤ addr < end_va a →
  fault_areas addr f (m1 ++ (k, a) :: m2) w =
    ('(b, a', w') ← handle_page_fault addr f a w; Ok (Some (b, m1 ++ (k, a') :: m2, w'))).
Proof.
  intros Hm Ha. induction m1 as [|[k' a'] m1 IH]; simpl.
  { by rewrite bool_decide_eq_true_2. }
  rewrite bool_decide_eq_false_2 by (apply (Hm k'); left).
  rewrite IH by (intros; eapply Hm; by right).
  by destruct (handle_page_fault addr f a w) as [[[]]| |].
Qed.

Lemma align_down_in a addr :
  area_ok a → vaddr a ≤ addr < end_va a ↔ vaddr a ≤ align_down_4k addr < end_va a.
Proof.
  intros [Ha _ _ _ _]. unfold align_down_4k, end_va, size, PAGE_SIZE_4K in *. mlia.
Qed.

(** The area of a mapped page, and the areas around it. *)
Lemma space_area R ms w p s :
  ms_wf R ms w → space ms !! p = Some s →
  ∃ m1 k a m2 i pg, owned_mem ms = m1 ++ (k, a) :: m2 ∧ area_ok a ∧ covers w a ∧
    pages a !! i = Some pg ∧ p = vaddr a + Z.of_nat i * PAGE_SIZE_4K ∧ s = mk_slot a i pg ∧
    (∀ k' a', (k', a') ∈ m1 ++ m2 → ¬ vaddr a' ≤ p < end_va a').
Proof.
  intros Hwf Hs. apply space_elem in Hs; [|apply Hwf].
  apply slots_elem in Hs as (a & Ha & Hps).
  pose proof (map_ok_elem _ _ (ms_map _ _ _ Hwf) Ha) as Haok.
  pose proof (ms_wf_covers R ms w a Hwf Ha Haok) as Hc.
  pose proof (area_slots_aligned _ _ _ Haok Hps) as Hal.
  apply list_elem_of_fmap in Ha as ([k a'] & -> & Hin). simpl in *.
  apply list_elem_of_split in Hin as (m1 & m2 & Hsp).
  pose proof Hps as (i & pg & Hi & Hp & Hsl)%area_slots_elem.
  exists m1, k, a', m2, i, pg. split_and!; try done.
  intros k2 a2 Hin2 Hr2. pose proof (ms_nodup _ _ _ Hwf) as Hnd.
  rewrite Hsp, <- Permutation_middle in Hnd. simpl in Hnd.
  assert (a2 ∈ (m1 ++ m2).*2) as Ha2 by (apply list_elem_of_fmap; by exists (k2, a2)).
  assert (area_ok a2) as Ha2ok.
  { eapply map_ok_elem; [apply (ms_map _ _ _ Hwf)|]. rewrite Hsp, <- Permutation_middle. by right. }
  destruct (area_slots_cover a2 p Ha2ok Hal Hr2) as [s2 Hs2].
  eapply (NoDup_keys_disjoint _ _ p Hnd); apply keys_elem; [eauto|].
  exists s2. apply slots_elem. eauto.
Qed.

Lemma with_owned_self ms : with_owned ms (owned_mem ms) = ms.
Proof. by destruct ms. Qed.

(** Filling one page of the area map. *)
Lemma fill_wf R ms w w' m1 k a m2 i pg p :
  ms_wf R ms w → owned_mem ms = m1 ++ (k, a) :: m2 → area_ok a →
  (i < length (pages a))%nat → p = vaddr a + Z.of_nat i * PAGE_SIZE_4K →
  (∀ k' a', (k', a') ∈ m1 ++ m2 → ¬ vaddr a' ≤ p < end_va a') →
  (∀ p, pt_flags w' p = pt_flags w p) →
  let ms' := with_owned ms
    (m1 ++ (k, with_pages a (<[i := Some pg]> (pages a))) :: m2) in
  ms_wf R ms' w' ∧ ∀ q, space ms' !! q = (space ms !! q ≫= λ s, snd <$> fill_slot p pg (q, s)).
Proof.
  intros Hwf Hm Ha Hi Hp Hoth Hpt ms'.
  assert (slots (owned_mem ms').*2 ≡ₚ omap (fill_slot p pg) (slots (owned_mem ms).*2)) as Hsl.
  { simpl. rewrite Hm, <- !Permutation_middle. simpl.
    rewrite (fill_area_slots a i pg Hi), <- Hp, omap_app. f_equiv.
    rewrite omap_id; [done|]. intros [q s] (b & ([k' b'] & -> & Hb)%list_elem_of_fmap & Hq)%slots_elem.
    unfold fill_slot. simpl. rewrite decide_False; [done|]. intros ->.
    eapply Hoth; [exact Hb|]. by eapply area_slots_range. }
  assert (NoDup (slots (owned_mem ms').*2).*1) as Hnd.
  { rewrite Hsl. eapply sublist_NoDup; [|apply omap_keys_sublist, fill_slot_key]. apply Hwf. }
  assert (∀ q, space ms' !! q = (space ms !! q ≫= λ s, snd <$> fill_slot p pg (q, s))) as Hsp.
  { intros q. unfold space at 1. rewrite (list_to_map_proper _ _ Hnd Hsl).
    apply lookup_omap_keys; [apply fill_slot_key|apply Hwf]. }
  split; [|done]. split; [| done | | |].
  - pose proof (ms_map _ _ _ Hwf) as [Hs Hf]. rewrite Hm in Hs, Hf. simpl. split.
    + unfold bt_sorted in *. rewrite fmap_app in *. done.
    + rewrite Forall_app, Forall_cons in *. destruct Hf as (? & [-> Hok] & ?).
      split; [done|]. split; [|done]. split; [done|]. destruct Hok.
      split; unfold end_va, size in *; simpl; rewrite ?length_insert; done.
  - intros q s. rewrite Hsp, Hpt. destruct (space ms !! q) as [s0|] eqn:E; [|done].
    simpl. intros [= <-]. rewrite (ms_pt_in R ms w Hwf q s0 E). by case_decide.
  - intros q Hq HR. rewrite Hsp, Hpt. destruct (space ms !! q) eqn:E; [done|]. intros _.
    by eapply ms_pt_out.
  - intros q HR. by rewrite Hsp, (ms_reserved R ms w Hwf q HR).
Qed.

(** C16: the outcome of a page fault on a user address, in terms of the
    address space, on every branch: an unmapped page or a forbidden access is
    [BadAddress], a resident page needs nothing, and without memory the kernel
    panics.  Otherwise a page not yet allocated receives a physical page filled with
    the bytes of its file position, or with zeroes if it has no file or the read
    fails; no other page changes its physical page, permissions or sharing, and
    the page table permits what it did.  If the read does not fail the address space
    is otherwise as it was, file positions included, and in step with the page
    table. *)
Theorem page_fault_serves R ms w addr f :
  ms_wf R ms w →
  match space ms !! align_down_4k addr with
  | None => ms_handle_page_fault addr f ms w = (Err BadAddress, ms, w)
  | Some s =>
      if negb (flags_contains (s_flags s) f)
      then ms_handle_page_fault addr f ms w = (Err BadAddress, ms, w)
      else match s_page s, page_alloc w with
           | Some _, _ => ms_handle_page_fault addr f ms w = (Ok (), ms, w)
           | None, Ok (pg, w1) =>
               ∃ ms' w', ms_handle_page_fault addr f ms w = (Ok (), ms', w') ∧
                 page_bytes pg w' = fault_bytes s pg w1 ∧ (∀ q, pt_flags w' q = pt_flags w q) ∧
                 (∀ q, slot_core <$> space ms' !! q = if decide (q = align_down_4k addr)
                         then Some (slot_core (slot_with_page pg s)) else slot_core <$> space ms !! q) ∧
                 (read_fails s w1 = false → ms_wf R ms' w' ∧
                    ∀ q, space ms' !! q = if decide (q = align_down_4k addr)
                                          then Some (slot_with_page pg s) else space ms !! q)
           | None, _ => ms_handle_page_fault addr f ms w = (Panic, ms, w)
           end
  end.
Proof.
  intros Hwf. unfold ms_handle_page_fault.
  destruct (space ms !! align_down_4k addr) as [s|] eqn:E.
  - destruct (space_area R ms w _ s Hwf E)
      as (m1 & k & a & m2 & i & op & Hm & Ha & Hc & Hi & Hp & -> & Hoth).
    assert (vaddr a ≤ addr < end_va a) as Hr.
    { apply align_down_in; [done|]. apply lookup_lt_Some in Hi.
      rewrite end_va_len. unfold PAGE_SIZE_4K in *. lia. }
    assert (i = Z.to_nat ((addr - vaddr a) / PAGE_SIZE_4K)) as Hidx.
    { rewrite (align_down_page a addr Ha Hr) in Hp. unfold PAGE_SIZE_4K in *. lia. }
    rewrite Hm, fault_areas_at; [| |done].
    2: { intros k' a' Hin'. rewrite align_down_in.
         - eapply Hoth, elem_of_app. eauto.
         - eapply map_ok_elem; [apply Hwf|]. rewrite Hm, fmap_app. apply elem_of_app. left.
           apply list_elem_of_fmap. by exists (k', a'). }
    simpl s_flags. simpl s_page. destruct (flags_contains (flags a) f) eqn:Ef; simpl negb.
    + destruct op as [q|].
      * unfold handle_page_fault. rewrite bool_decide_eq_true_2 by lia. simpl.
        rewrite Ef, <- Hidx, Hi. simpl. by rewrite <- Hm, with_owned_self.
      * destruct (page_alloc w) as [[pg w1]| |] eqn:Hal.
        2, 3: unfold handle_page_fault; rewrite bool_decide_eq_true_2 by lia; simpl; rewrite Ef; simpl;
          by rewrite <- Hidx, Hi, Hal.
        destruct (area_fault_ok a addr f w i pg w1) as (w' & b & -> & Hb & Hpt & Hby); try done.
        destruct (fill_wf R ms w w' m1 k a m2 i pg (align_down_4k addr)) as [Hwf' Hsp]; try done.
        { by eapply lookup_lt_Some. }
        assert (Hfill : ∀ q, space (with_owned ms (m1 ++ (k, with_pages a (<[i := Some pg]> (pages a))) :: m2)) !! q =
          if decide (q = align_down_4k addr) then Some (slot_with_page pg (mk_slot a i None)) else space ms !! q).
        { intros q. rewrite Hsp. unfold fill_slot. simpl. case_decide as Hd; [subst q; by rewrite E|by destruct (space ms !! q)]. }
        simpl. do 2 eexists. split; [done|]. split; [done|]. split; [done|]. split.
        { intros q. etransitivity; [eapply (space_core (with_owned ms (m1 ++ (k, with_pages a (<[i := Some pg]> (pages a))) :: m2)) _
            m1 k (with_pages a (<[i := Some pg]> (pages a))) b m2); reflexivity|]. rewrite Hfill. by case_decide. }
        intros Hrf. rewrite (Hb Hrf). exact (conj Hwf' Hfill).
    + unfold handle_page_fault. rewrite bool_decide_eq_true_2 by lia. simpl.
      rewrite Ef. simpl. by rewrite <- Hm, with_owned_self.
  - rewrite fault_areas_none; [done|]. intros k a Hin Hr.
    assert (a ∈ (owned_mem ms).*2) as Hin2 by (apply list_elem_of_fmap; by exists (k, a)).
    pose proof (map_ok_elem _ _ (ms_map _ _ _ Hwf) Hin2) as Ha.
    destruct (area_slots_cover a (align_down_4k addr) Ha) as [s Hs].
    + unfold align_down_4k, PAGE_SIZE_4K. mlia.
    + by apply (align_down_in a addr Ha).
    + apply not_elem_of_list_to_map_2 in E. apply E, keys_elem. exists s. apply slots_elem. eauto.
Qed.
End faults.

(** ** Witnesses and concrete runs *)

(** A process with a file mapping of four pages (starting at page 1 of the
    file, first page resident), an anonymous mapping of two pages and one
    attached shared segment. *)
Definition demo_file_area : MapArea :=
  {| pages := [Some 0%nat; None; None; None]; vaddr := 0x10000; shared := true; flags := 3;
     backend := Some {| b_file := 0%nat; b_pos := 4096; b_is_file := true; b_writable := true |} |}.
Definition demo_anon_area : MapArea :=
  {| pages := [None; None]; vaddr := 0x16000; shared := false; flags := 7; backend := None |}.
Definition demo_info : SharedMemInfo :=
  {| info_perm := {| perm_key := 0; perm_uid := 0; perm_gid := 0; perm_cuid := 0; perm_cgid := 0; perm_mode := 0 |};
     info_size := 0x2000; a_time := 0; d_time := 0; c_time := 0; c_pid := 1; l_pid := 0 |}.
Definition demo_shm : SharedMem := {| sm_paddr := 0x80000; sm_size := 0x2000; sm_info := demo_info |}.
Definition demo_ms : MemorySet :=
  {| owned_mem := [(0x10000, demo_file_area); (0x16000, demo_anon_area)]; private_mem := [];
     attached_mem := [(0x20000, 3, demo_shm)] |}.
Definition demo_w : SimWorld :=
  {| sim_pt := s_flags <$> space demo_ms; sim_next := 1;
     sim_pages := {[ 0%nat := replicate 4096 66 ]};
     sim_files := {[ 0%nat := replicate 4096 65 ++ replicate 4096 66 ]} |}.
Definition demo_R (p : Z) : Prop := 0x20000 ≤ p < 0x22000.

Lemma demo_ms_wf : ms_wf demo_R demo_ms demo_w.
Proof.
  assert (NoDup (slots (owned_mem demo_ms).*2).*1) as Hnd.
  { apply (bool_decide_eq_true_1 _). vm_compute. done. }
  split; [|exact Hnd|..].
  - split; [apply (bool_decide_eq_true_1 _); vm_compute; done|].
    apply Forall_cons_2; [|apply Forall_cons_2; [|apply Forall_nil_2]];
      (split; [done|]); split; try (done || (simpl; lia)); intros b [= <-]; split; done.
  - intros p s Hs. simpl. rewrite lookup_fmap, Hs. done.
  - intros p _ _ Hs. simpl. by rewrite lookup_fmap, Hs.
  - intros p Hp. apply not_elem_of_list_to_map_1. intros Hin. unfold demo_R in Hp.
    vm_compute in Hin. repeat (apply elem_of_cons in Hin as [->|Hin]; [lia|]).
    by apply elem_of_nil in Hin.
Qed.

Lemma demo_attached : attached_ok (λ _, False) demo_R demo_ms.
Proof.
  split; [split|].
  - apply NoDup_singleton.
  - intros s f m [=-> -> ->]%list_elem_of_singleton. by split_and!.
  - intros s f m s' f' m' [=-> -> ->]%list_elem_of_singleton [=-> -> ->]%list_elem_of_singleton. done.
  - intros p Hp _ _. exists 0x20000, 3, demo_shm. split; [by left|]. exact Hp.
Qed.

Lemma munmap_unmaps_witness :
  ∃ ms' w', munmap 0x11000 0x5800 demo_ms demo_w = Ok (ms', w') ∧ ms_wf demo_R ms' w' ∧
    ∀ p, space ms' !! p =
      if decide (0x11000 ≤ p < 0x11000 + align_up_size 0x5800) then None else space demo_ms !! p.
Proof. apply (munmap_unmaps demo_R demo_ms demo_w 0x11000 0x5800); [apply demo_ms_wf|done..]. Defined.

Lemma mprotect_protects_witness :
  ∃ ms' w', mprotect 0x11000 0x2000 1 demo_ms demo_w = Ok (ms', w') ∧ ms_wf demo_R ms' w' ∧
    ∀ p, space ms' !! p =
      if decide (0x11000 ≤ p < 0x11000 + 0x2000) then slot_with_flags 1 <$> space demo_ms !! p
      else space demo_ms !! p.
Proof.
  apply (mprotect_protects demo_R demo_ms demo_w 0x11000 0x2000 1); [apply demo_ms_wf|done..].
Defined.

Lemma mmap_fixed_maps_witness :
  ∃ ms' w', mmap 0x1000 0x13000 0x4000 5 false true None demo_ms demo_w =
              Ok (0x13000, ms', w') ∧ ms_wf demo_R ms' w' ∧
    ∀ p, p mod PAGE_SIZE_4K = 0 →
      space ms' !! p = if decide (0x13000 ≤ p < 0x13000 + align_up_size 0x4000)
                       then Some (lazy_slot 0x13000 5 false None p) else space demo_ms !! p.
Proof.
  apply (mmap_fixed_maps demo_R demo_ms demo_w 0x1000 0x13000 0x4000 5 false None);
    [apply demo_ms_wf|done..|]. intros p Hp. change (align_up_size 0x4000) with 0x4000 in Hp.
  unfold demo_R. lia.
Defined.

Lemma mmap_anywhere_free_witness :
  mmap 0x1000 0x14000 0x2000 5 false false None demo_ms demo_w = Err NoMemory ∨
  ∃ r ms' w', mmap 0x1000 0x14000 0x2000 5 false false None demo_ms demo_w = Ok (r, ms', w') ∧
    ms_wf demo_R ms' w' ∧
    (∀ p, r ≤ p < r + align_up_size 0x2000 → ¬ demo_R p ∧ space demo_ms !! p = None) ∧
    ∀ p, p mod PAGE_SIZE_4K = 0 →
      space ms' !! p = if decide (r ≤ p < r + align_up_size 0x2000)
                       then Some (lazy_slot r 5 false None p) else space demo_ms !! p.
Proof.
  apply (mmap_anywhere_free (λ _, False) demo_R demo_ms demo_w 0x1000 0x14000 0x2000 5 false None);
    [apply demo_ms_wf|apply demo_attached|intros ? _ ? _ []|done..].
Defined.

Example mmap_anywhere_run :
  (λ r, r.1.1) <$> (match mmap 0x1000 0x14000 0x2000 5 false false None demo_ms demo_w with
                    | Ok r => Some r | _ => None end) = Some 0x14000.
Proof. vm_compute. reflexivity. Qed.

(** The fault at address 0x11abc: page 1 of the mapping, page 2 of the file. *)
Definition demo_w1 : SimWorld := match page_alloc demo_w with Ok (_, w) => w | _ => demo_w end.

Lemma page_fault_serves_witness :
  ∃ s ms' w', space demo_ms !! 0x11000 = Some s ∧
    ms_handle_page_fault 0x11abc 1 demo_ms demo_w = (Ok (), ms', w') ∧
    ms_wf demo_R ms' w' ∧ page_bytes 1%nat w' = fault_bytes s 1%nat demo_w1 ∧
    space ms' !! 0x11000 = Some (slot_with_page 1%nat s).
Proof.
  pose proof (page_fault_serves demo_R demo_ms demo_w 0x11abc 1 demo_ms_wf) as Hf.
  change (align_down_4k 0x11abc) with 0x11000 in Hf.
  destruct (space demo_ms !! 0x11000) as [s|] eqn:E; [|by vm_compute in E].
  assert (s = mk_slot demo_file_area 1 None) as Hs by (vm_compute in E; by injection E as <-).
  assert (negb (flags_contains (s_flags s) 1) = false) as Hn by (by rewrite Hs).
  assert (s_page s = None) as Hp by (by rewrite Hs). rewrite Hn, Hp in Hf.
  change (page_alloc demo_w) with (Ok (1%nat, demo_w1)) in Hf. cbv iota beta in Hf.
  destruct Hf as (ms' & w' & Hr & Hb & _ & _ & Hsp).
  destruct (Hsp ltac:(rewrite Hs; by vm_compute)) as [Hwf Hq].
  exists s, ms', w'. split_and!; try done.
Defined.

(** A read that fails leaves the cursor of the file where it was sought: the pages of
    the area have other places in the file afterwards. *)
Example failed_read_displaces_file :
  let w := {| sim_pt := sim_pt demo_w; sim_next := sim_next demo_w; sim_pages := sim_pages demo_w; sim_files := ∅ |} in
  let ms' := (ms_handle_page_fault 0x11abc 1 demo_ms w).1.2 in
  (s_file <$> space demo_ms !! 0x10000) = Some (Some (0%nat, 4096, true)) ∧
  (s_file <$> space ms' !! 0x10000) = Some (Some (0%nat, 8192, true)).
Proof. by vm_compute. Qed.

(** [msync] writes page [i] of a mapping at offset [i * 4096] of the file, not
    at the mapping's own position: syncing the unmodified file mapping of the
    example (which starts at page 1 of the file) overwrites page 0, which is
    not mapped at all, with the bytes of page 1. *)
Example msync_overwrites_unmapped_page :
  (λ r, sim_files r.2 !! 0%nat) <$>
    (match msync 0x10000 0x1000 demo_ms demo_w with Ok r => Some r | _ => None end) =
  Some (Some (replicate 8192 66)).
Proof. vm_compute. reflexivity. Qed.
