(* ===== verification/Pipe.v ===== *)
(** Pipes ([modules/syscall/src/syscall_fs/ctype/pipe.rs]) and the yield future
    they wait with ([modules/task_api/src/yield_.rs]).

    A pipe is a ring buffer shared by a read end and a write end.  [read] and
    [write] build a fresh future at every poll, poll it once and drop it: one
    call of the model is one poll, from the top of the [async] block to its
    first suspension or its return.  What other code decides at that moment is
    a record [PipeEnv]: whether the locks are free, whether a signal is pending,
    how many references the buffer has, whether the write end is alive. *)

From S2P Require Import Prelude.

Definition RING_BUFFER_SIZE : Z := 0x4000.

Inductive RingBufferStatus := Full | Empty | Normal.

#[export] Instance RingBufferStatus_eq_dec : EqDecision RingBufferStatus.
Proof. solve_decision. Defined.

(** The buffer.  [write_end] records whether [set_write_end] was called; the
    liveness of that weak reference is part of [PipeEnv]. *)
Record PipeRingBuffer := {
  arr : list Z;
  head : Z;
  tail : Z;
  status : RingBufferStatus;
  write_end : bool
}.

Definition ring_new : PipeRingBuffer :=
  {| arr := replicate (Z.to_nat RING_BUFFER_SIZE) 0; head := 0; tail := 0; status := Empty;
     write_end := false |}.

Definition set_write_end (r : PipeRingBuffer) : PipeRingBuffer :=
  {| arr := arr r; head := head r; tail := tail r; status := status r; write_end := true |}.

(** [write_byte] does not test that there is room: its callers do. *)
Definition write_byte (byte : Z) (r : PipeRingBuffer) : PipeRingBuffer :=
  let tail' := (tail r + 1) mod RING_BUFFER_SIZE in
  {| arr := <[Z.to_nat (tail r) := byte]> (arr r); head := head r; tail := tail';
     status := if decide (tail' = head r) then Full else Normal; write_end := write_end r |}.

Definition read_byte (r : PipeRingBuffer) : Z * PipeRingBuffer :=
  let c := arr r !!! Z.to_nat (head r) in
  let head' := (head r + 1) mod RING_BUFFER_SIZE in
  (c, {| arr := arr r; head := head'; tail := tail r;
         status := if decide (head' = tail r) then Empty else Normal; write_end := write_end r |}).

Definition available_read (r : PipeRingBuffer) : Z :=
  if decide (status r = Empty) then 0
  else if decide (tail r > head r) then tail r - head r
  else tail r + RING_BUFFER_SIZE - head r.

Definition available_write (r : PipeRingBuffer) : Z :=
  if decide (status r = Full) then 0 else RING_BUFFER_SIZE - available_read r.

(** ** Pipe ends *)

(** [OpenFlags] bits the pipe uses. *)
Definition WRONLY : Z := Z.shiftl 1 0.
Definition NON_BLOCK : Z := Z.shiftl 1 11.
Definition CLOEXEC : Z := Z.shiftl 1 19.

Record Pipe := { readable : bool; writable : bool; p_flags : Z }.

Definition read_end_with_buffer (flags : Z) : Pipe :=
  {| readable := true; writable := false; p_flags := Z.lor flags 0 |}.
Definition write_end_with_buffer (flags : Z) : Pipe :=
  {| readable := false; writable := true; p_flags := Z.lor flags WRONLY |}.

Definition make_pipe (flags : Z) : Pipe * Pipe * PipeRingBuffer :=
  (read_end_with_buffer flags, write_end_with_buffer flags, set_write_end ring_new).

Definition is_non_block (p : Pipe) : bool := bool_decide (Z.land (p_flags p) NON_BLOCK = NON_BLOCK).

(** What the rest of the system contributes to one poll. *)
Record PipeEnv := {
  buffer_free : bool;       (** the buffer's mutex can be taken *)
  flags_free : bool;        (** the mutex of the open flags can be taken *)
  have_signals : bool;
  strong_count : Z;         (** references to the buffer *)
  write_end_alive : bool    (** the weak write end upgrades *)
}.

(** [write_end.as_ref().unwrap().upgrade().is_none()]. *)
Definition all_write_ends_closed (e : PipeEnv) (r : PipeRingBuffer) : outcome bool :=
  if write_end r then Ok (negb (write_end_alive e)) else Panic.

(** [YieldFuture::poll] without the [thread] feature. *)
Definition yield_poll (has_polled : bool) : poll unit * bool :=
  if has_polled then (Ready (), true) else (Pending, true).

(** [yield_now().await] in a future polled for the first time, then [k]. *)
Definition yield_then {A} (k : poll A) : poll A :=
  match (yield_poll false).1 with Ready _ => k | Pending => Pending end.

(** The transfer loop of [read]: at most [n] bytes while the buffer of the
    caller has [room] places. *)
Fixpoint read_loop (n room : nat) (acc : list Z) (r : PipeRingBuffer) : list Z * PipeRingBuffer :=
  match n, room with
  | S n, S room =>
      let '(c, r) := read_byte r in
      match room with
      | O => (acc ++ [c], r)
      | _ => read_loop n room (acc ++ [c]) r
      end
  | _, _ => (acc, r)
  end.

(** One poll of [Pipe::read] on a buffer of [want] bytes: the bytes stored. *)
Definition pipe_read (p : Pipe) (e : PipeEnv) (want : nat) (r : PipeRingBuffer)
    : poll (outcome (list Z)) * PipeRingBuffer :=
  if negb (readable p) then (Ready Panic, r) else
  if negb (buffer_free e) then (Pending, r) else
  let loop_read := available_read r in
  if decide (loop_read = 0) then
    if have_signals e then (Ready (Err Interrupted), r) else
    match all_write_ends_closed e r with
    | Ok closed =>
        if decide (strong_count e < 2) then (Ready (Ok []), r) else
        if closed then (Ready (Ok []), r) else
        if negb (flags_free e) then (Pending, r) else
        if is_non_block p then (yield_then (Ready (Err WouldBlock)), r) else
        (yield_then Pending, r)
    | _ => (Ready Panic, r)
    end
  else
    let '(bytes, r) := read_loop (Z.to_nat loop_read) want [] r in
    (Ready (Ok bytes), r).

(** The transfer loop of [write]. *)
Fixpoint write_loop (n : nat) (buf : list Z) (done : nat) (r : PipeRingBuffer)
    : nat * PipeRingBuffer :=
  match n, buf with
  | S n, b :: buf =>
      let r := write_byte b r in
      match buf with
      | [] => (S done, r)
      | _ => write_loop n buf (S done) r
      end
  | _, _ => (done, r)
  end.

(** One poll of [Pipe::write]: the number of bytes taken. *)
Definition pipe_write (p : Pipe) (e : PipeEnv) (buf : list Z) (r : PipeRingBuffer)
    : poll (outcome nat) * PipeRingBuffer :=
  if negb (writable p) then (Ready Panic, r) else
  if negb (buffer_free e) then (Pending, r) else
  let loop_write := available_write r in
  if decide (loop_write = 0) then
    if decide (strong_count e < 2) then (Ready (Ok 0%nat), r) else
    if negb (flags_free e) then (Pending, r) else
    if is_non_block p then (Ready (Ok 0%nat), r) else
    (yield_then Pending, r)
  else
    let '(n, r) := write_loop (Z.to_nat loop_write) buf 0 r in
    (Ready (Ok n), r).

Definition pipe_is_hang_up (p : Pipe) (e : PipeEnv) (r : PipeRingBuffer) : poll (outcome bool) :=
  if readable p then
    if negb (buffer_free e) then Pending
    else if decide (available_read r = 0) then Ready (all_write_ends_closed e r)
    else Ready (Ok false)
  else Ready (Ok (bool_decide (strong_count e < 2))).

Definition pipe_ready_to_read (p : Pipe) (e : PipeEnv) (r : PipeRingBuffer) : poll bool :=
  if negb (readable p) then Ready false
  else if negb (buffer_free e) then Pending
  else Ready (bool_decide (available_read r ≠ 0)).

Definition pipe_ready_to_write (p : Pipe) (e : PipeEnv) (r : PipeRingBuffer) : poll bool :=
  if negb (writable p) then Ready false
  else if negb (buffer_free e) then Pending
  else Ready (bool_decide (available_write r ≠ 0)).

Definition pipe_get_status (p : Pipe) (e : PipeEnv) : poll Z :=
  if flags_free e then Ready (p_flags p) else Pending.

Definition pipe_set_status (p : Pipe) (e : PipeEnv) (flags : Z) : poll bool * Pipe :=
  if flags_free e
  then (Ready true, {| readable := readable p; writable := writable p; p_flags := flags |})
  else (Pending, p).

(** [OpenFlags] is a 32-bit set: the complement of a flag within 32 bits. *)
Definition pipe_set_close_on_exec (p : Pipe) (e : PipeEnv) (is_set : bool) : poll bool * Pipe :=
  if flags_free e then
    let flags := if is_set then Z.lor (p_flags p) CLOEXEC
                 else Z.land (p_flags p) (Z.lxor U32_MAX CLOEXEC) in
    (Ready true, {| readable := readable p; writable := writable p; p_flags := flags |})
  else (Pending, p).

(** ** The bounded queue behind the ring *)

Definition byte_at (r : PipeRingBuffer) (i : Z) : Z :=
  arr r !!! Z.to_nat ((head r + i) mod RING_BUFFER_SIZE).

(** The bytes in the pipe, oldest first. *)
Definition contents (r : PipeRingBuffer) : list Z :=
  (λ i, byte_at r (Z.of_nat i)) <$> seq 0 (Z.to_nat (available_read r)).

Record ring_wf (r : PipeRingBuffer) : Prop := {
  rw_len : length (arr r) = Z.to_nat RING_BUFFER_SIZE;
  rw_head : 0 ≤ head r < RING_BUFFER_SIZE;
  rw_tail : 0 ≤ tail r < RING_BUFFER_SIZE;
  rw_status : status r ≠ Normal ↔ head r = tail r
}.

Lemma ring_new_wf : ring_wf (set_write_end ring_new).
Proof. by split. Qed.

Lemma available_read_range r : ring_wf r → 0 ≤ available_read r ≤ RING_BUFFER_SIZE.
Proof.
  intros [_ Hh Ht _]. unfold available_read, RING_BUFFER_SIZE in *. repeat case_decide; lia.
Qed.

Lemma length_contents r : ring_wf r → Z.of_nat (length (contents r)) = available_read r.
Proof.
  intros Hwf. unfold contents. rewrite length_fmap, length_seq.
  pose proof (available_read_range r Hwf). lia.
Qed.

Lemma available_write_spec r :
  ring_wf r → available_write r = RING_BUFFER_SIZE - Z.of_nat (length (contents r)).
Proof.
  intros Hwf. rewrite length_contents by done. destruct Hwf as [_ Hh Ht Hs].
  unfold available_write, available_read, RING_BUFFER_SIZE in *.
  destruct (status r) eqn:E; simpl; try done.
  assert (head r = tail r) by (by apply Hs). repeat case_decide; try done; lia.
Qed.

Lemma write_byte_ok b r :
  ring_wf r → (length (contents r) < Z.to_nat RING_BUFFER_SIZE)%nat →
  ring_wf (write_byte b r) ∧ contents (write_byte b r) = contents r ++ [b].
Proof.
  intros Hwf Hlt. pose proof (length_contents r Hwf) as Hl. pose proof (available_read_range r Hwf) as Hr.
  destruct Hwf as [Hlen Hh Ht Hs].
  assert (status r ≠ Full) as Hnf.
  { intros E. assert (head r = tail r) by (apply Hs; by rewrite E).
    unfold available_read in Hl. rewrite E in Hl. rewrite decide_False, decide_False in Hl by (done || lia).
    unfold RING_BUFFER_SIZE in *. lia. }
  assert (tail r = (head r + available_read r) mod RING_BUFFER_SIZE) as Htail.
  { unfold available_read. destruct (status r) eqn:E; [done| |].
    - rewrite decide_True by done. rewrite Z.add_0_r, Z.mod_small by lia.
      symmetry. by apply Hs.
    - rewrite decide_False by done. unfold RING_BUFFER_SIZE in *. case_decide; mlia. }
  assert (available_read (write_byte b r) = available_read r + 1) as Hav.
  { unfold available_read at 1. unfold write_byte. simpl.
    unfold RING_BUFFER_SIZE in *. case_decide; simpl; repeat case_decide; simplify_eq; mlia. }
  split.
  - split; simpl.
    + by rewrite length_insert.
    + done.
    + unfold RING_BUFFER_SIZE in *. mlia.
    + case_decide; split; intros; done || congruence.
  - unfold contents. rewrite Hav, Z2Nat.inj_add, seq_app, fmap_app by lia. f_equal.
    + apply list_fmap_ext. intros k i Hi%lookup_seq. unfold byte_at. simpl.
      rewrite list_lookup_total_insert_ne; [done|].
      unfold RING_BUFFER_SIZE in *. mlia.
    + simpl. f_equal. unfold byte_at. simpl. rewrite Z2Nat.id, <- Htail by lia.
      apply list_lookup_total_insert_eq. unfold RING_BUFFER_SIZE in *. lia.
Qed.

Lemma write_byte_end b r : write_end (write_byte b r) = write_end r.
Proof. done. Qed.

Lemma read_byte_ok r c l :
  ring_wf r → contents r = c :: l →
  ∃ r', read_byte r = (c, r') ∧ ring_wf r' ∧ contents r' = l ∧ write_end r' = write_end r.
Proof.
  intros Hwf Hc. pose proof (length_contents r Hwf) as Hl. rewrite Hc in Hl. simpl in Hl.
  pose proof (available_read_range r Hwf) as Hr. destruct Hwf as [Hlen Hh Ht Hs].
  assert (status r ≠ Empty) as Hne.
  { intros E. unfold available_read in Hl. rewrite E in Hl. simpl in Hl. lia. }
  assert (arr r !!! Z.to_nat (head r) = c) as Hat.
  { assert (contents r !! 0%nat = Some c) as H0 by (by rewrite Hc).
    unfold contents in H0. rewrite list_lookup_fmap, lookup_seq_lt in H0 by lia.
    injection H0 as <-. unfold byte_at. rewrite Z.add_0_r, Z.mod_small by lia. done. }
  unfold read_byte. rewrite Hat. eexists. split; [done|]. split; [|split; [|done]].
  - split; simpl; [done| |done|].
    + unfold RING_BUFFER_SIZE in *. mlia.
    + case_decide; split; intros; done || congruence.
  - set (r' := {| arr := _ |}).
    assert (available_read r' = available_read r - 1) as Hav.
    { unfold available_read in *. subst r'. simpl. rewrite decide_False in * by done.
      unfold RING_BUFFER_SIZE in *.
      assert (head r = tail r → status r = Full).
      { intros Heq%Hs. by destruct (status r). }
      repeat case_decide; simplify_eq; try mlia. }
    assert (contents r = c :: contents r') as Heq; [|rewrite Hc in Heq; by simplify_eq].
    unfold contents. rewrite Hav.
    replace (Z.to_nat (available_read r)) with (S (Z.to_nat (available_read r - 1))) by lia.
    rewrite <- cons_seq, fmap_cons, <- fmap_S_seq, <- list_fmap_compose. f_equal.
    + unfold byte_at. by rewrite Z.add_0_r, Z.mod_small by lia.
    + apply list_fmap_ext. intros k i _. unfold byte_at, compose, r'. simpl. do 2 f_equal.
      unfold RING_BUFFER_SIZE in *. mlia.
Qed.

Lemma read_loop_S n room acc r :
  read_loop (S n) (S room) acc r =
  let '(c, r) := read_byte r in
  match room with O => (acc ++ [c], r) | _ => read_loop n room (acc ++ [c]) r end.
Proof. done. Qed.

Lemma write_loop_S n b buf k r :
  write_loop (S n) (b :: buf) k r =
  match buf with [] => (S k, write_byte b r) | _ => write_loop n buf (S k) (write_byte b r) end.
Proof. done. Qed.

Lemma read_loop_ok n : ∀ room acc r,
  ring_wf r → n = length (contents r) →
  ∃ r', read_loop n room acc r = (acc ++ take room (contents r), r') ∧ ring_wf r' ∧
    contents r' = drop room (contents r) ∧ write_end r' = write_end r.
Proof.
  induction n as [|n IH]; intros room acc r Hwf Hn.
  { exists r. simpl. destruct (contents r); [|done]. by rewrite take_nil, drop_nil, app_nil_r. }
  destruct room as [|room]; [exists r; simpl; by rewrite take_0, app_nil_r|].
  rewrite read_loop_S. destruct (contents r) as [|c l] eqn:Hc; [done|].
  destruct (read_byte_ok r c l Hwf Hc) as (r' & -> & Hwf' & Hc' & Hwe).
  destruct room as [|room].
  { exists r'. by rewrite Hc'. }
  destruct (IH (S room) (acc ++ [c]) r' Hwf') as (r2 & -> & ? & Hc2 & Hwe2).
  { rewrite Hc'. simpl in Hn. lia. }
  exists r2. rewrite Hc', Hc2 in *. rewrite <- app_assoc. simpl. by rewrite Hwe2.
Qed.

Lemma write_loop_ok n : ∀ buf done r,
  ring_wf r → (n + length (contents r) = Z.to_nat RING_BUFFER_SIZE)%nat →
  ∃ r', write_loop n buf done r = ((done + min n (length buf))%nat, r') ∧ ring_wf r' ∧
    contents r' = contents r ++ take n buf ∧ write_end r' = write_end r.
Proof.
  induction n as [|n IH]; intros buf dn r Hwf Hn.
  { exists r. simpl. by rewrite Nat.add_0_r, take_0, app_nil_r. }
  destruct buf as [|b buf]; [exists r; simpl; by rewrite Nat.add_0_r, app_nil_r|].
  rewrite write_loop_S. destruct (write_byte_ok b r Hwf) as [Hwf' Hc']; [lia|].
  destruct buf as [|b' buf].
  { exists (write_byte b r). simpl. rewrite Hc', take_nil. split_and!; try done.
    f_equal. lia. }
  destruct (IH (b' :: buf) (S dn) (write_byte b r) Hwf') as (r2 & -> & ? & Hc2 & Hwe2).
  { rewrite Hc', length_app. simpl. lia. }
  exists r2. split; [f_equal; simpl; lia|]. split; [done|]. split; [|done].
  rewrite Hc2, Hc', <- app_assoc. done.
Qed.

(** One poll of either end, in terms of the queue. *)
Lemma pipe_read_queue p e want r :
  ring_wf r → readable p = true → buffer_free e = true → contents r ≠ [] →
  ∃ r', pipe_read p e want r = (Ready (Ok (take want (contents r))), r') ∧ ring_wf r' ∧
    contents r' = drop want (contents r) ∧ write_end r' = write_end r.
Proof.
  intros Hwf Hp Hb Hc. unfold pipe_read. rewrite Hp, Hb. simpl.
  pose proof (length_contents r Hwf) as Hl.
  rewrite decide_False by (rewrite <- Hl; destruct (contents r); simpl; done || lia).
  destruct (read_loop_ok (Z.to_nat (available_read r)) want [] r Hwf) as (r' & -> & ? & ? & ?); [lia|].
  by exists r'.
Qed.

Lemma pipe_read_idle p e want r :
  ring_wf r → contents r = [] ∨ readable p = false ∨ buffer_free e = false →
  (pipe_read p e want r).2 = r ∧
  ∀ bs, (pipe_read p e want r).1 = Ready (Ok bs) → bs = [].
Proof.
  intros Hwf Hc. unfold pipe_read. destruct (readable p); simpl; [|done].
  destruct (buffer_free e); simpl; [|done].
  assert (available_read r = 0) as ->.
  { rewrite <- length_contents by done. destruct Hc as [->|[?|?]]; done. }
  simpl. destruct (have_signals e); [done|].
  unfold all_write_ends_closed. destruct (write_end r); [|done].
  repeat (case_decide || case_match); simpl; split; try done; intros bs [=]; done.
Qed.

Lemma pipe_write_queue p e buf r :
  ring_wf r → writable p = true → buffer_free e = true →
  (length (contents r) < Z.to_nat RING_BUFFER_SIZE)%nat →
  ∃ n r', pipe_write p e buf r = (Ready (Ok n), r') ∧ ring_wf r' ∧
    n = min (Z.to_nat RING_BUFFER_SIZE - length (contents r)) (length buf) ∧
    contents r' = contents r ++ take n buf ∧ write_end r' = write_end r.
Proof.
  intros Hwf Hp Hb Hc. unfold pipe_write. rewrite Hp, Hb. simpl.
  pose proof (available_write_spec r Hwf) as Hl.
  rewrite decide_False by lia.
  destruct (write_loop_ok (Z.to_nat (available_write r)) buf 0 r Hwf) as (r' & -> & ? & Hc' & ?); [lia|].
  eexists _, r'. split; [done|]. split; [done|]. split.
  { simpl. f_equal. lia. }
  split; [|done]. rewrite Hc'. simpl. f_equal.
  destruct (decide (Z.to_nat (available_write r) ≤ length buf)%nat).
  - by rewrite Nat.min_l by lia.
  - rewrite Nat.min_r by lia. rewrite !take_ge by lia. done.
Qed.

Lemma pipe_write_idle p e buf r :
  ring_wf r → length (contents r) = Z.to_nat RING_BUFFER_SIZE ∨ writable p = false ∨ buffer_free e = false →
  (pipe_write p e buf r).2 = r ∧ ∀ n, (pipe_write p e buf r).1 = Ready (Ok n) → n = 0%nat.
Proof.
  intros Hwf Hc. unfold pipe_write. destruct (writable p); simpl; [|done].
  destruct (buffer_free e); simpl; [|done].
  assert (available_write r = 0) as ->.
  { rewrite available_write_spec by done. destruct Hc as [->|[?|?]]; [|done..].
    unfold RING_BUFFER_SIZE. lia. }
  simpl. repeat (case_decide || case_match); simpl; split; try done; intros n [=]; done.
Qed.

(** ** The contract *)

(** The polls of the two ends of one pipe, in any order. *)
Inductive pipe_op :=
  | OpRead (e : PipeEnv) (want : nat)
  | OpWrite (e : PipeEnv) (buf : list Z).

Record pipe_trace := {
  t_ring : PipeRingBuffer;
  t_read : list Z;        (** bytes delivered to readers so far *)
  t_written : list Z;     (** bytes accepted from writers so far *)
  t_panics : bool
}.

Definition pipe_run_op (rp wp : Pipe) (t : pipe_trace) (op : pipe_op) : pipe_trace :=
  match op with
  | OpRead e want =>
      let '(res, r) := pipe_read rp e want (t_ring t) in
      {| t_ring := r;
         t_read := t_read t ++ match res with Ready (Ok bs) => bs | _ => [] end;
         t_written := t_written t;
         t_panics := t_panics t || match res with Ready Panic => true | _ => false end |}
  | OpWrite e buf =>
      let '(res, r) := pipe_write wp e buf (t_ring t) in
      {| t_ring := r; t_read := t_read t;
         t_written := t_written t ++ match res with Ready (Ok n) => take n buf | _ => [] end;
         t_panics := t_panics t || match res with Ready Panic => true | _ => false end |}
  end.

Definition pipe_run (flags : Z) (ops : list pipe_op) : pipe_trace :=
  let '(rp, wp, r) := make_pipe flags in
  foldl (pipe_run_op rp wp) {| t_ring := r; t_read := []; t_written := []; t_panics := false |} ops.

Definition trace_ok (t : pipe_trace) : Prop :=
  ring_wf (t_ring t) ∧ write_end (t_ring t) = true ∧ t_panics t = false ∧
  t_written t = t_read t ++ contents (t_ring t).

Lemma pipe_read_panic p e want r :
  readable p = true → write_end r = true → (pipe_read p e want r).1 ≠ Ready Panic.
Proof.
  intros Hp Hw. unfold pipe_read, all_write_ends_closed, yield_then. rewrite Hp, Hw. simpl.
  repeat (case_match || case_decide); simplify_eq/=; congruence.
Qed.

Lemma pipe_write_panic p e buf r : writable p = true → (pipe_write p e buf r).1 ≠ Ready Panic.
Proof.
  intros Hp. unfold pipe_write, yield_then. rewrite Hp. simpl.
  repeat (case_match || case_decide); simplify_eq/=; congruence.
Qed.

Lemma panic_flag {A} (b : bool) (res : poll (outcome A)) :
  b = false → res ≠ Ready Panic → b || match res with Ready Panic => true | _ => false end = false.
Proof. intros -> Hr. by destruct res as [[| |]|]. Qed.

Lemma pipe_run_op_ok rp wp t op :
  readable rp = true → writable wp = true → trace_ok t → trace_ok (pipe_run_op rp wp t op).
Proof.
  intros Hrp Hwp (Hwf & Hwe & Hpn & Hq). destruct op as [e want|e buf]; simpl.
  - pose proof (pipe_read_panic rp e want (t_ring t) Hrp Hwe) as Hnp.
    destruct (decide (contents (t_ring t) = [] ∨ readable rp = false ∨ buffer_free e = false)) as [Hi|Hi].
    + destruct (pipe_read_idle rp e want (t_ring t) Hwf Hi) as [H1 H2].
      destruct (pipe_read rp e want (t_ring t)) as [res r]. simpl in *. subst r.
      split_and!; simpl; [done..|by apply panic_flag|].
      rewrite Hq. do 2 f_equal. destruct res as [[bs| |]|]; try (by rewrite app_nil_r).
      rewrite (H2 bs eq_refl). by rewrite app_nil_r.
    + destruct (pipe_read_queue rp e want (t_ring t)) as (r' & Hrd & Hwf' & Hc & Hwe'); try done.
      { by destruct (buffer_free e); [|naive_solver]. }
      { naive_solver. }
      rewrite Hrd in *. simpl in *. split_and!; simpl; [done|by rewrite Hwe'|by rewrite Hpn|].
      by rewrite Hc, Hq, <- app_assoc, take_drop.
  - pose proof (pipe_write_panic wp e buf (t_ring t) Hwp) as Hnp.
    pose proof (length_contents _ Hwf) as Hl. pose proof (available_read_range _ Hwf) as Hav.
    destruct (decide (length (contents (t_ring t)) = Z.to_nat RING_BUFFER_SIZE ∨
                      writable wp = false ∨ buffer_free e = false)) as [Hi|Hi].
    + destruct (pipe_write_idle wp e buf (t_ring t) Hwf Hi) as [H1 H2].
      destruct (pipe_write wp e buf (t_ring t)) as [res r]. simpl in *. subst r.
      split_and!; simpl; [done..|by apply panic_flag|].
      rewrite Hq. destruct res as [[n| |]|]; try (by rewrite app_nil_r).
      rewrite (H2 n eq_refl), take_0. by rewrite app_nil_r.
    + destruct (pipe_write_queue wp e buf (t_ring t)) as (n & r' & Hwr & Hwf' & _ & Hc & Hwe'); try done.
      { by destruct (buffer_free e); [|naive_solver]. }
      { unfold RING_BUFFER_SIZE in *. naive_solver lia. }
      rewrite Hwr in *. simpl in *. split_and!; simpl; [done|by rewrite Hwe'|by rewrite Hpn|].
      by rewrite Hc, Hq, <- app_assoc.
Qed.

(** C21: a pipe is a bounded first-in first-out queue: after any sequence of
    polls of its two ends, whatever the locks, signals and reference counts do,
    no poll has panicked and the bytes accepted from the writer are exactly the
    bytes delivered to the reader followed by the bytes in the ring, at most
    [RING_BUFFER_SIZE] of them: nothing is lost, duplicated or reordered. *)
Theorem pipe_fifo (flags : Z) (ops : list pipe_op) :
  let t := pipe_run flags ops in
  t_panics t = false ∧ t_written t = t_read t ++ contents (t_ring t) ∧
  Z.of_nat (length (contents (t_ring t))) ≤ RING_BUFFER_SIZE.
Proof.
  simpl. assert (trace_ok (pipe_run flags ops)) as (Hwf & _ & ? & ?).
  { unfold pipe_run. simpl.
    set (t0 := {| t_ring := _ |}). assert (trace_ok t0) as Ht0.
    { by split; [apply ring_new_wf|]. }
    clearbody t0. revert t0 Ht0. induction ops as [|op ops IH]; intros t0 Ht0; [done|].
    simpl. apply IH. by apply pipe_run_op_ok. }
  split_and!; [done..|]. rewrite length_contents by done.
  by apply available_read_range.
Qed.

(** C22: progress of both ends when the lock is free: a reader of a non-empty
    pipe gets as many bytes as fit at once; a writer of a pipe that is not full
    stores as many bytes as there is room for at once; a reader of an empty
    pipe whose writers are gone sees the end of file; a writer of a full pipe
    whose reader is gone gets zero. *)
Theorem pipe_progress (p : Pipe) (e : PipeEnv) (want : nat) (buf : list Z) (r : PipeRingBuffer) :
  ring_wf r → write_end r = true → buffer_free e = true →
  (readable p = true → contents r ≠ [] →
     (pipe_read p e want r).1 = Ready (Ok (take want (contents r)))) ∧
  (readable p = true → contents r = [] → have_signals e = false → write_end_alive e = false →
     pipe_read p e want r = (Ready (Ok []), r)) ∧
  (writable p = true → (length (contents r) < Z.to_nat RING_BUFFER_SIZE)%nat →
     (pipe_write p e buf r).1 =
       Ready (Ok (min (Z.to_nat RING_BUFFER_SIZE - length (contents r)) (length buf)))) ∧
  (writable p = true → length (contents r) = Z.to_nat RING_BUFFER_SIZE → strong_count e < 2 →
     pipe_write p e buf r = (Ready (Ok 0%nat), r)).
Proof.
  intros Hwf Hwe Hb. split_and!.
  - intros Hp Hc. by destruct (pipe_read_queue p e want r) as (r' & -> & _).
  - intros Hp Hc Hs Hd. unfold pipe_read, all_write_ends_closed. rewrite Hp, Hb, Hs, Hwe, Hd. simpl.
    rewrite <- length_contents, Hc by done. simpl. by case_decide.
  - intros Hp Hc. destruct (pipe_write_queue p e buf r) as (n & r' & -> & _ & -> & _); done.
  - intros Hp Hc Hs. unfold pipe_write. rewrite Hp, Hb. simpl.
    rewrite available_write_spec, Hc by done.
    rewrite decide_True by (unfold RING_BUFFER_SIZE; lia). by rewrite decide_True.
Qed.

Definition demo_env : PipeEnv :=
  {| buffer_free := true; flags_free := true; have_signals := false; strong_count := 2;
     write_end_alive := true |}.

Lemma pipe_progress_witness :
  (pipe_read (read_end_with_buffer 0) demo_env 2 (write_byte 7 (set_write_end ring_new))).1 =
    Ready (Ok [7]).
Proof.
  destruct (write_byte_ok 7 (set_write_end ring_new) ring_new_wf) as [Hwf Hc].
  { vm_compute. lia. }
  change (contents (set_write_end ring_new)) with (@nil Z) in Hc.
  destruct (pipe_progress (read_end_with_buffer 0) demo_env 2 [] _ Hwf eq_refl eq_refl)
    as [Hr _].
  rewrite Hc in Hr. by apply Hr.
Defined.

(** A non-blocking read of an empty pipe with a live writer is suspended at
    every poll: the [WouldBlock] behind [yield_now] is never reached, because
    each poll starts a new future. *)
Theorem pipe_read_never_would_block (p : Pipe) (e : PipeEnv) (want : nat) (r : PipeRingBuffer) :
  (pipe_read p e want r).1 ≠ Ready (Err WouldBlock) ∧
  (readable p = true → is_non_block p = true → buffer_free e = true → have_signals e = false →
   available_read r = 0 → write_end r = true → write_end_alive e = true → 2 ≤ strong_count e →
   pipe_read p e want r = (Pending, r)).
Proof.
  split.
  - unfold pipe_read, all_write_ends_closed, yield_then. simpl.
    repeat (case_match || case_decide); simplify_eq/=; congruence.
  - intros Hp Hn Hb Hs Ha Hw Hl Hc. unfold pipe_read, all_write_ends_closed, yield_then.
    rewrite Hp, Hb, Ha, Hs, Hw, Hl, Hn. simpl. rewrite decide_False by lia.
    by destruct (flags_free e).
Qed.

Lemma pipe_read_never_would_block_witness :
  pipe_read (read_end_with_buffer NON_BLOCK) demo_env 1 (set_write_end ring_new) =
    (Pending, set_write_end ring_new).
Proof.
  destruct (pipe_read_never_would_block (read_end_with_buffer NON_BLOCK) demo_env 1
    (set_write_end ring_new)) as [_ H]. apply H; done.
Defined.
