(* ===== verification/EventFd.v ===== *)
(** Event counters ([modules/syscall/src/syscall_fs/ctype/eventfd.rs]).

    One call of the model is one poll.  The supported targets (x86-64, AArch64,
    RISC-V) are little-endian, which is what [to_ne_bytes] and [from_ne_bytes]
    mean there. *)

From S2P Require Import Prelude.

Definition EFD_SEMAPHORE : Z := 0x1.
Definition EFD_NONBLOCK : Z := 0x800.
Definition EFD_CLOEXEC : Z := 0x80000.

Record EventFd := { ev_value : Z; ev_flags : Z }.

Definition event_new (initval flags : Z) : EventFd := {| ev_value := initval; ev_flags := flags |}.

Definition with_value (e : EventFd) (v : Z) : EventFd := {| ev_value := v; ev_flags := ev_flags e |}.

Definition should_block (e : EventFd) : bool := bool_decide (Z.land (ev_flags e) EFD_NONBLOCK = 0).
Definition has_semaphore_set (e : EventFd) : bool :=
  bool_decide (Z.land (ev_flags e) EFD_SEMAPHORE ≠ 0).

(** [u64::to_ne_bytes] and [u64::from_ne_bytes]. *)
Definition to_ne_bytes (v : Z) : list Z := (λ i, Z.shiftr v (8 * Z.of_nat i) mod 256) <$> seq 0 8.
Fixpoint from_ne_bytes (bs : list Z) : Z :=
  match bs with [] => 0 | b :: bs => b + 256 * from_ne_bytes bs end.

(** [buf[0..8].copy_from_slice(bytes)] on a buffer of at least 8 bytes. *)
Definition put8 (v : Z) (buf : list Z) : list Z := to_ne_bytes v ++ drop 8 buf.

(** The result and the new contents of the caller's buffer. *)
Definition event_read (lock_free : bool) (buf : list Z) (e : EventFd)
    : poll (outcome Z) * list Z * EventFd :=
  if decide (length buf < 8)%nat then (Ready (Err InvalidInput), buf, e) else
  if negb lock_free then (Pending, buf, e) else
  if negb (has_semaphore_set e) && bool_decide (ev_value e ≠ 0) then
    (Ready (Ok 8), put8 (ev_value e) buf, with_value e 0)
  else if has_semaphore_set e && bool_decide (ev_value e ≠ 0) then
    (* [let _ = value_guard.checked_add_signed(-1)]: the sum is dropped *)
    (Ready (Ok 8), put8 1 buf, e)
  else if bool_decide (ev_value e ≠ 0) then
    (Ready (Ok 8), put8 (ev_value e) buf, e)
  else if should_block e then (Pending, buf, e)
  else (Ready (Err WouldBlock), buf, e).

Definition event_write (lock_free : bool) (buf : list Z) (e : EventFd)
    : poll (outcome Z) * EventFd :=
  if decide (length buf < 8)%nat then (Ready Panic, e) else
  let val := from_ne_bytes (take 8 buf) in
  if bool_decide (length buf < 8)%nat || bool_decide (val = U64_MAX) then
    (Ready (Err InvalidInput), e)
  else if negb lock_free then (Pending, e) else
  match checked_add_u64 (ev_value e) (wrap64 (val + 1)) with
  | Some _ => (Ready (Ok 8), with_value e (wrap64 (ev_value e + val)))
  | None => if should_block e then (Pending, e) else (Ready (Err WouldBlock), e)
  end.

Definition event_ready_to_read (lock_free : bool) (e : EventFd) : poll bool :=
  if lock_free then Ready (bool_decide (0 < ev_value e)) else Pending.
Definition event_ready_to_write (lock_free : bool) (e : EventFd) : poll bool :=
  if lock_free then Ready (bool_decide (ev_value e < U64_MAX - 1)) else Pending.

(** [OpenFlags::RDWR], [NON_BLOCK] and [CLOEXEC] of [async_fs]. *)
Definition event_get_status (e : EventFd) : Z :=
  let status := Z.shiftl 1 1 in
  let status := if bool_decide (Z.land (ev_flags e) EFD_NONBLOCK ≠ 0)
                then Z.lor status (Z.shiftl 1 11) else status in
  if bool_decide (Z.land (ev_flags e) EFD_CLOEXEC ≠ 0)
  then Z.lor status (Z.shiftl 1 19) else status.

(** ** Properties *)

Lemma to_ne_bytes_step v n :
  0 ≤ v → (λ i, Z.shiftr v (8 * Z.of_nat i) mod 256) <$> seq 0 (S n) =
  v mod 256 :: ((λ i, Z.shiftr (v / 256) (8 * Z.of_nat i) mod 256) <$> seq 0 n).
Proof.
  intros Hv. rewrite <- cons_seq, fmap_cons, <- fmap_S_seq, <- list_fmap_compose. f_equal.
  apply list_fmap_ext. intros _ i _. unfold compose. f_equal.
  rewrite !Z.shiftr_div_pow2 by lia.
  replace (2 ^ (8 * Z.of_nat (S i))) with (256 * 2 ^ (8 * Z.of_nat i)).
  - rewrite <- Z.div_div by lia. done.
  - replace (8 * Z.of_nat (S i)) with (8 + 8 * Z.of_nat i) by lia.
    rewrite Z.pow_add_r by lia. done.
Qed.

Lemma ne_bytes_roundtrip_n n : ∀ v, 0 ≤ v < 2 ^ (8 * Z.of_nat n) →
  from_ne_bytes ((λ i, Z.shiftr v (8 * Z.of_nat i) mod 256) <$> seq 0 n) = v.
Proof.
  induction n as [|n IH]; intros v Hv.
  - simpl in *. change (2 ^ (8 * Z.of_nat 0)) with 1 in Hv. lia.
  - rewrite to_ne_bytes_step by lia. simpl.
    replace (2 ^ (8 * Z.of_nat (S n))) with (256 * 2 ^ (8 * Z.of_nat n)) in Hv.
    + rewrite IH; mlia.
    + replace (8 * Z.of_nat (S n)) with (8 + 8 * Z.of_nat n) by lia.
      rewrite Z.pow_add_r by lia. done.
Qed.

Lemma ne_bytes_roundtrip v : is_u64 v → from_ne_bytes (to_ne_bytes v) = v.
Proof. intros Hv. apply ne_bytes_roundtrip_n. exact Hv. Qed.

Lemma length_to_ne_bytes v : length (to_ne_bytes v) = 8%nat.
Proof. done. Qed.

Lemma from_ne_bytes_range n : ∀ bs, length bs = n → Forall is_byte bs →
  0 ≤ from_ne_bytes bs < 256 ^ Z.of_nat n.
Proof.
  induction n as [|n IH]; intros [|b bs] Hl Hb; try done.
  apply Forall_cons in Hb as [Hb Hbs]. simpl in Hl.
  destruct (IH bs) as [? ?]; [lia|done|]. simpl from_ne_bytes. unfold is_byte in Hb.
  rewrite Nat2Z.inj_succ, Z.pow_succ_r by lia. lia.
Qed.

Lemma to_ne_bytes_bytes v : Forall is_byte (to_ne_bytes v).
Proof.
  apply Forall_forall. intros b (i & -> & _)%list_elem_of_fmap. apply Z.mod_pos_bound. lia.
Qed.

Lemma event_write_cases buf e :
  (8 ≤ length buf)%nat → Forall is_byte buf → 0 ≤ ev_value e < U64_MAX →
  let v := from_ne_bytes (take 8 buf) in
  event_write true buf e =
    if bool_decide (v = U64_MAX) then (Ready (Err InvalidInput), e) else
    if decide (ev_value e + v < U64_MAX) then (Ready (Ok 8), with_value e (ev_value e + v))
    else (if should_block e then Pending else Ready (Err WouldBlock), e).
Proof.
  intros Hl Hb He v. assert (0 ≤ v < two64) as Hv.
  { destruct (from_ne_bytes_range 8 (take 8 buf)); [|by apply Forall_take|].
    - rewrite length_take. lia.
    - unfold v, two64. change (256 ^ Z.of_nat 8) with (2 ^ 64) in *. lia. }
  unfold event_write. fold v. rewrite decide_False, (bool_decide_eq_false_2 (_ < 8)%nat) by lia.
  rewrite orb_false_l.
  destruct (bool_decide_reflect (v = U64_MAX)) as [|Hne]; [done|]. simpl negb.
  cbv beta iota. unfold U64_MAX in *. rewrite (wrap64_small (v + 1)) by (unfold is_u64; lia).
  unfold checked_add_u64, U64_MAX. case_decide; case_decide; try lia.
  - rewrite wrap64_small; [done|]. unfold is_u64. lia.
  - by destruct (should_block e).
Qed.

Lemma write_value v e :
  0 ≤ v → 0 ≤ ev_value e → ev_value e + v < U64_MAX →
  event_write true (to_ne_bytes v) e = (Ready (Ok 8), with_value e (ev_value e + v)).
Proof.
  intros Hv He Hlt.
  rewrite event_write_cases; [|rewrite length_to_ne_bytes; lia|apply to_ne_bytes_bytes|lia].
  rewrite take_ge by (rewrite length_to_ne_bytes; lia).
  rewrite ne_bytes_roundtrip by (unfold is_u64, U64_MAX in *; lia).
  by rewrite bool_decide_eq_false_2, decide_True by (unfold U64_MAX in *; lia).
Qed.

(** Total of the values written. *)
Definition sum (vs : list Z) : Z := foldr Z.add 0 vs.

Fixpoint write_all (vs : list Z) (e : EventFd) : poll (outcome Z) * EventFd :=
  match vs with
  | [] => (Ready (Ok 8), e)
  | v :: vs =>
      match event_write true (to_ne_bytes v) e with
      | (Ready (Ok _), e) => write_all vs e
      | r => r
      end
  end.

Lemma write_all_ok vs : ∀ e,
  Forall (λ v, 0 ≤ v) vs → 0 ≤ ev_value e → ev_value e + sum vs < U64_MAX →
  write_all vs e = (Ready (Ok 8), with_value e (ev_value e + sum vs)).
Proof.
  induction vs as [|v vs IH]; intros e Hvs He Hs; simpl in *.
  { rewrite Z.add_0_r. by destruct e. }
  apply Forall_cons in Hvs as [Hv Hvs].
  assert (0 ≤ sum vs) as Hsum.
  { clear -Hvs. induction Hvs; simpl; [done|]. unfold sum in *. simpl. lia. }
  rewrite write_value by lia.
  rewrite IH; simpl; [|done|lia|lia]. unfold with_value. simpl. do 2 f_equal. lia.
Qed.

(** Without [EFD_SEMAPHORE], a read returns the sum of everything written
    since the last read and leaves the counter at zero: the values written are
    neither lost nor counted twice. *)
Theorem eventfd_read_sums_writes (vs : list Z) (flags : Z) (buf : list Z) :
  has_semaphore_set (event_new 0 flags) = false → Forall (λ v, 0 ≤ v) vs →
  0 < sum vs < U64_MAX → (8 ≤ length buf)%nat →
  ∃ e buf', write_all vs (event_new 0 flags) = (Ready (Ok 8), e) ∧
    event_read true buf e = (Ready (Ok 8), buf', event_new 0 flags) ∧
    from_ne_bytes (take 8 buf') = sum vs ∧ drop 8 buf' = drop 8 buf.
Proof.
  intros Hsem Hvs Hs Hb. rewrite write_all_ok by (done || simpl; lia).
  eexists _, (put8 (sum vs) buf). split; [done|]. split.
  { unfold event_read. rewrite decide_False by lia. simpl.
    change (has_semaphore_set (with_value _ _)) with (has_semaphore_set (event_new 0 flags)).
    by rewrite Hsem, bool_decide_eq_true_2 by lia. }
  unfold put8.
  rewrite take_app_length', drop_app_length' by done. split; [|done].
  apply ne_bytes_roundtrip. unfold is_u64, U64_MAX in *. lia.
Qed.

Lemma eventfd_read_sums_writes_witness :
  ∃ e buf', write_all [3; 0; 39] (event_new 0 0) = (Ready (Ok 8), e) ∧
    event_read true (replicate 9 5) e = (Ready (Ok 8), buf', event_new 0 0) ∧
    from_ne_bytes (take 8 buf') = sum [3; 0; 39] ∧ drop 8 buf' = drop 8 (replicate 9 5).
Proof.
  apply (eventfd_read_sums_writes [3; 0; 39] 0 (replicate 9 5));
    [done|repeat constructor; done|done|simpl; lia].
Defined.

(** The counter never exceeds 0xfffffffffffffffe: a write that would make it
    larger changes nothing and blocks or reports [WouldBlock], and every other
    write adds its value exactly; [ready_to_write] announces exactly that a
    value of one can be written. *)
Theorem eventfd_write_bounded (buf : list Z) (e : EventFd) :
  (8 ≤ length buf)%nat → Forall is_byte buf → 0 ≤ ev_value e < U64_MAX →
  let v := from_ne_bytes (take 8 buf) in
  0 ≤ ev_value (event_write true buf e).2 < U64_MAX ∧
  (v ≠ U64_MAX → ev_value e + v < U64_MAX →
     event_write true buf e = (Ready (Ok 8), with_value e (ev_value e + v))) ∧
  (v ≠ U64_MAX → U64_MAX ≤ ev_value e + v →
     event_write true buf e = (if should_block e then Pending else Ready (Err WouldBlock), e)) ∧
  (event_ready_to_write true e = Ready true ↔
     (event_write true (to_ne_bytes 1) e).1 = Ready (Ok 8)).
Proof.
  intros Hl Hb He v. rewrite (event_write_cases buf e) by done. fold v.
  split; [|split; [|split]].
  - case_bool_decide; [simpl; lia|].
    assert (0 ≤ v) by (eapply from_ne_bytes_range; [done|by apply Forall_take]).
    case_decide; simpl; lia.
  - intros Hne Hlt. by rewrite bool_decide_eq_false_2, decide_True.
  - intros Hne Hge. by rewrite bool_decide_eq_false_2, decide_False by (done || lia).
  - unfold event_ready_to_write.
    rewrite event_write_cases; [|rewrite length_to_ne_bytes; lia|apply to_ne_bytes_bytes|done].
    change (from_ne_bytes (take 8 (to_ne_bytes 1))) with 1.
    rewrite (bool_decide_eq_false_2 (1 = U64_MAX)) by done.
    case_decide; case_bool_decide; try lia; try done; split; try done.
    by destruct (should_block e).
Qed.

Lemma eventfd_write_bounded_witness :
  0 ≤ ev_value (event_write true (to_ne_bytes 5) (event_new (U64_MAX - 3) 0)).2 < U64_MAX.
Proof.
  apply (eventfd_write_bounded (to_ne_bytes 5) (event_new (U64_MAX - 3) 0));
    [rewrite length_to_ne_bytes; lia|apply to_ne_bytes_bytes|done].
Defined.

(** With [EFD_SEMAPHORE] a read delivers 1 but never decrements the counter,
    so any number of reads succeed once a value has been written, and a write
    from a buffer shorter than 8 bytes panics before its length is tested. *)
Theorem eventfd_semaphore_not_consumed (n : nat) (buf : list Z) (e : EventFd) :
  (has_semaphore_set e = true → ev_value e ≠ 0 → (8 ≤ length buf)%nat →
     Nat.iter n (λ e, (event_read true buf e).2) e = e ∧
     (event_read true buf e).1 = (Ready (Ok 8), put8 1 buf)) ∧
  ((length buf < 8)%nat → event_write true buf e = (Ready Panic, e)).
Proof.
  split.
  - intros Hs Hv Hb. assert (event_read true buf e = (Ready (Ok 8), put8 1 buf, e)) as Hr.
    { unfold event_read. rewrite decide_False by lia. rewrite Hs, bool_decide_eq_true_2 by done. done. }
    split; [|by rewrite Hr]. induction n as [|n IH]; [done|]. simpl. by rewrite IH, Hr.
  - intros Hb. unfold event_write. by rewrite decide_True.
Qed.

Lemma eventfd_semaphore_not_consumed_witness :
  Nat.iter 5 (λ e, (event_read true (replicate 8 0) e).2) (event_new 1 EFD_SEMAPHORE) =
    event_new 1 EFD_SEMAPHORE.
Proof.
  destruct (eventfd_semaphore_not_consumed 5 (replicate 8 0) (event_new 1 EFD_SEMAPHORE))
    as [H _]. apply H; [done|done|simpl; lia].
Defined.
