(* ===== verification/Epoll.v ===== *)
(** Event polling ([modules/syscall/src/syscall_fs/ctype/epoll.rs]).

    The descriptor table, the clock and the signals belong to the process: the
    [k]-th round of [epoll_wait] sees the snapshot [env k], the monitor list
    included, since another task may call [epoll_ctl] while the waiter yields.
    A file is what [epoll_wait] asks of it: its four readiness answers. *)

From S2P Require Import Prelude BTree.

Definition EPOLLIN : Z := 0x001.
Definition EPOLLOUT : Z := 0x004.
Definition EPOLLERR : Z := 0x008.
Definition EPOLLHUP : Z := 0x010.

Record EpollEvent := { event_type : Z; ev_data : Z }.

Inductive EpollCtl := CtlAdd | CtlDel | CtlMod.

Inductive SyscallError := ENOENT.

(** [EpollFileInner::monitor_list] and the open flags of [EpollFile]. *)
Record EpollFile := { monitor_list : list (Z * EpollEvent); ep_flags : Z }.

Definition epoll_new : EpollFile := {| monitor_list := []; ep_flags := 0 |}.

Definition with_monitor (f : EpollFile) (m : list (Z * EpollEvent)) : EpollFile :=
  {| monitor_list := m; ep_flags := ep_flags f |}.

Definition epoll_contains (fd : Z) (f : EpollFile) : bool := bt_contains_key fd (monitor_list f).

Definition epoll_ctl (op : EpollCtl) (fd : Z) (event : EpollEvent) (f : EpollFile)
    : (Z + SyscallError) * EpollFile :=
  let m := monitor_list f in
  match op with
  | CtlAdd =>
      let m := if bt_contains_key fd m then bt_insert fd event m else m in
      (inl 0, with_monitor f (bt_insert fd event m))
  | CtlDel =>
      if negb (bt_contains_key fd m) then (inr ENOENT, f)
      else (inl 0, with_monitor f (bt_remove fd m))
  | CtlMod =>
      if negb (bt_contains_key fd m) then (inr ENOENT, f)
      else (inl 0, with_monitor f (bt_insert fd event m))
  end.

(** [OpenFlags::CLOEXEC]. *)
Definition epoll_set_close_on_exec (is_set : bool) (f : EpollFile) : EpollFile :=
  {| monitor_list := monitor_list f;
     ep_flags := if is_set then Z.lor (ep_flags f) (Z.shiftl 1 19)
                 else Z.land (ep_flags f) (Z.lxor U32_MAX (Z.shiftl 1 19)) |}.

(** ** Readiness *)

Record FileReady := { hang_up : bool; exceptional : bool; can_read : bool; can_write : bool }.

(** [EpollEventType::contains]. *)
Definition has_event (t e : Z) : bool := bool_decide (Z.land t e = e).

Definition ret_event_type (file : FileReady) (req : Z) : Z :=
  let t := 0 in
  let t := if hang_up file then Z.lor t EPOLLHUP else t in
  let t := if exceptional file then Z.lor t EPOLLERR else t in
  let t := if can_read file && has_event req EPOLLIN then Z.lor t EPOLLIN else t in
  if can_write file && has_event req EPOLLOUT then Z.lor t EPOLLOUT else t.

(** [fd_table[*fd as usize]]: out of range panics, negative [fd]s included. *)
Definition table_get (table : list (option FileReady)) (fd : Z) : outcome (option FileReady) :=
  if decide (0 ≤ fd) then
    match table !! Z.to_nat fd with Some o => Ok o | None => Panic end
  else Panic.

(** The scan of one round. *)
Fixpoint epoll_scan (table : list (option FileReady)) (m : list (Z * EpollEvent))
    : outcome (list EpollEvent) :=
  match m with
  | [] => Ok []
  | (fd, req) :: m =>
      o ← table_get table fd;
      let here :=
        match o with
        | Some file =>
            let t := ret_event_type file (event_type req) in
            if decide (t = 0) then [] else [{| event_type := t; ev_data := ev_data req |}]
        | None => [{| event_type := EPOLLERR; ev_data := ev_data req |}]
        end in
      rest ← epoll_scan table m;
      Ok (here ++ rest)
  end.

Record EpollRound := {
  rd_monitor : list (Z * EpollEvent);
  rd_table : list (option FileReady);
  rd_ticks : Z;
  rd_signals : bool       (** pending signals after the yield *)
}.

(** [epoll_wait] from round [k]; [None] when the fuel is used up. *)
Fixpoint epoll_wait (fuel : nat) (env : nat → EpollRound) (k : nat) (expire_time : Z)
    : option (outcome (list EpollEvent)) :=
  match fuel with
  | O => None
  | S fuel =>
      match epoll_scan (rd_table (env k)) (rd_monitor (env k)) with
      | Ok ret_events =>
          if decide (ret_events ≠ []) then Some (Ok ret_events)
          else if decide (expire_time < rd_ticks (env k)) then Some (Ok ret_events)
          else if rd_signals (env k) then Some (Err Timeout)
          else epoll_wait fuel env (S k) expire_time
      | Err e => Some (Err e)
      | Panic => Some Panic
      end
  end.

(** [EpollFile::ready_to_read]: missing files are skipped. *)
Fixpoint epoll_ready_to_read (table : list (option FileReady)) (m : list (Z * EpollEvent))
    : outcome bool :=
  match m with
  | [] => Ok false
  | (fd, req) :: m =>
      o ← table_get table fd;
      match o with
      | Some file =>
          if decide (ret_event_type file (event_type req) ≠ 0) then Ok true
          else epoll_ready_to_read table m
      | None => epoll_ready_to_read table m
      end
  end.

(** ** Properties *)

(** [epoll_ctl] maintains a map from descriptors to events: ADD and a
    successful MOD register the event, DEL forgets it, MOD and DEL of an
    unknown descriptor report [ENOENT] and change nothing, and no other
    descriptor is affected. *)
Theorem epoll_ctl_spec (op : EpollCtl) (fd : Z) (ev : EpollEvent) (f : EpollFile) :
  bt_sorted (monitor_list f) →
  let '(res, f') := epoll_ctl op fd ev f in
  bt_sorted (monitor_list f') ∧
  (res = inr ENOENT ↔ op ≠ CtlAdd ∧ bt_get fd (monitor_list f) = None) ∧
  (res = inr ENOENT → f' = f) ∧
  (res ≠ inr ENOENT → bt_get fd (monitor_list f') = match op with CtlDel => None | _ => Some ev end) ∧
  (∀ fd', fd' ≠ fd → bt_get fd' (monitor_list f') = bt_get fd' (monitor_list f)).
Proof.
  intros Hs. unfold epoll_ctl.
  assert (bt_sorted (bt_insert fd ev (monitor_list f))) as Hs1 by (by apply bt_insert_sorted).
  destruct (bt_contains_key fd (monitor_list f)) eqn:E; unfold bt_contains_key in E.
  - apply bool_decide_eq_true_1 in E as [old Hold].
    destruct op; simpl; (split; [auto using bt_insert_sorted, bt_remove_sorted|]);
      (split; [naive_solver|]); (split; [done|]); split; intros;
      rewrite ?bt_get_insert_eq, ?bt_get_insert_ne, ?bt_get_remove_eq, ?bt_get_remove_ne by auto; done.
  - apply bool_decide_eq_false_1 in E. apply eq_None_not_Some in E.
    destruct op; simpl; (split; [auto|]); (split; [naive_solver|]); (split; [done|]);
      split; intros; rewrite ?bt_get_insert_eq, ?bt_get_insert_ne by auto; done.
Qed.

Lemma epoll_ctl_spec_witness :
  let f := (epoll_ctl CtlAdd 3 {| event_type := EPOLLIN; ev_data := 3 |} epoll_new).2 in
  (epoll_ctl CtlMod 4 {| event_type := EPOLLIN; ev_data := 4 |} f).1 = inr ENOENT.
Proof.
  intros f.
  pose proof (epoll_ctl_spec CtlMod 4 {| event_type := EPOLLIN; ev_data := 4 |} f) as H.
  destruct (epoll_ctl CtlMod 4 _ f) as [res f'].
  destruct H as (_ & [_ H] & _); [unfold bt_sorted; repeat constructor|]. simpl. by apply H.
Defined.

(** The bits reported for a file: hang-up and error always, readable and
    writable when asked for. *)
Lemma ret_event_bits file req :
  has_event (ret_event_type file req) EPOLLHUP = hang_up file ∧
  has_event (ret_event_type file req) EPOLLERR = exceptional file ∧
  has_event (ret_event_type file req) EPOLLIN = can_read file && has_event req EPOLLIN ∧
  has_event (ret_event_type file req) EPOLLOUT = can_write file && has_event req EPOLLOUT.
Proof.
  unfold ret_event_type. destruct file as [[] [] [] []]; simpl;
    destruct (has_event req EPOLLIN), (has_event req EPOLLOUT); by vm_compute.
Qed.

(** [req] on [fd] is answered by [ev]. *)
Definition reports (table : list (option FileReady)) (fd : Z) (req ev : EpollEvent) : Prop :=
  ev_data ev = ev_data req ∧
  match table_get table fd with
  | Ok (Some file) =>
      (hang_up file || exceptional file || (can_read file && has_event (event_type req) EPOLLIN)
       || (can_write file && has_event (event_type req) EPOLLOUT)) = true ∧
      event_type ev = ret_event_type file (event_type req)
  | Ok None => event_type ev = EPOLLERR
  | _ => False
  end.

Lemma ret_event_zero file req :
  ret_event_type file req ≠ 0 ↔
  (hang_up file || exceptional file || (can_read file && has_event req EPOLLIN)
   || (can_write file && has_event req EPOLLOUT)) = true.
Proof.
  unfold ret_event_type. destruct file as [[] [] [] []]; simpl;
    destruct (has_event req EPOLLIN), (has_event req EPOLLOUT); by vm_compute.
Qed.

Lemma epoll_scan_elem table m : ∀ evs, epoll_scan table m = Ok evs →
  ∀ ev, ev ∈ evs ↔ ∃ fd req, (fd, req) ∈ m ∧ reports table fd req ev.
Proof.
  induction m as [|[fd req] m IH]; intros evs; simpl.
  { intros [= <-] ev. split; [set_solver|]. intros (fd & req & Hin & _). set_solver. }
  destruct (table_get table fd) as [o| |] eqn:Et; simpl; [|done..].
  destruct (epoll_scan table m) as [rest| |] eqn:Em; simpl; [|done..].
  intros [= <-] ev. rewrite elem_of_app, (IH rest eq_refl ev).
  assert (ev ∈ match o with
        | Some file =>
            if decide (ret_event_type file (event_type req) = 0) then []
            else [{| event_type := ret_event_type file (event_type req); ev_data := ev_data req |}]
        | None => [{| event_type := EPOLLERR; ev_data := ev_data req |}]
        end ↔ reports table fd req ev) as ->.
  { unfold reports. rewrite Et. destruct ev as [t d], o as [file|]; simpl.
    - rewrite <- ret_event_zero. case_decide; rewrite ?elem_of_nil, ?list_elem_of_singleton; naive_solver.
    - rewrite list_elem_of_singleton. naive_solver. }
  setoid_rewrite elem_of_cons. naive_solver.
Qed.

Definition quiet (env : nat → EpollRound) (expire_time : Z) (i : nat) : Prop :=
  epoll_scan (rd_table (env i)) (rd_monitor (env i)) = Ok [] ∧
  rd_ticks (env i) ≤ expire_time ∧ rd_signals (env i) = false.

(** The round that ends the wait. *)
Lemma epoll_wait_round fuel : ∀ env k expire_time res,
  epoll_wait fuel env k expire_time = Some res →
  ∃ j, (k ≤ j < k + fuel)%nat ∧ (∀ i, (k ≤ i < j)%nat → quiet env expire_time i) ∧
    epoll_wait 1 env j expire_time = Some res.
Proof.
  induction fuel as [|fuel IH]; intros env k ex res; [done|]. intros Hw.
  destruct (epoll_wait 1 env k ex) as [res'|] eqn:E1.
  - exists k. split; [lia|]. split; [lia|]. rewrite E1. simpl in Hw, E1.
    repeat (case_match || case_decide); by simplify_eq/=.
  - assert (quiet env ex k ∧ epoll_wait fuel env (S k) ex = Some res) as [Hq Hw'].
    { unfold quiet. simpl in *. repeat (case_match || case_decide); simplify_eq/=; try done.
      match goal with |- (Ok ?a = Ok [] ∧ _) ∧ _ => assert (a = []) as -> by (by apply dec_stable) end.
      split_and!; done || lia. }
    destruct (IH _ _ _ _ Hw') as (j & Hj & Hqs & Hres). exists j. split; [lia|]. split; [|done].
    intros i Hi. destruct (decide (i = k)) as [->|]; [done|]. apply Hqs. lia.
Qed.

Lemma epoll_wait_expires k : ∀ env i expire_time,
  expire_time < rd_ticks (env (i + k)%nat) → is_Some (epoll_wait (S k) env i expire_time).
Proof.
  induction k as [|k IH]; intros env i ex Ht.
  - rewrite Nat.add_0_r in Ht. simpl. repeat (case_match || case_decide); simplify_eq/=; eauto. done.
  - assert (is_Some (epoll_wait (S k) env (S i) ex)) as Hn.
    { apply IH. by replace (S i + k)%nat with (i + S k)%nat by lia. }
    remember (S k) as fuel. simpl. destruct (epoll_scan _ _); eauto.
    repeat case_decide; eauto. destruct (rd_signals (env i)); eauto.
Qed.

(** A wait that returns events returns, in the first round where a
    monitored descriptor has something to report, exactly the reports of that
    round; an empty answer means the deadline has passed in silence; and the
    wait ends as soon as the clock passes the deadline. *)
Theorem epoll_wait_reports (env : nat → EpollRound) (expire_time : Z) (fuel : nat) :
  (∀ evs, epoll_wait fuel env 0 expire_time = Some (Ok evs) →
     ∃ j, (j < fuel)%nat ∧ (∀ i, (i < j)%nat → quiet env expire_time i) ∧
       (∀ ev, ev ∈ evs ↔ ∃ fd req, (fd, req) ∈ rd_monitor (env j) ∧
                         reports (rd_table (env j)) fd req ev) ∧
       (evs = [] → expire_time < rd_ticks (env j))) ∧
  (∀ k, (k < fuel)%nat → expire_time < rd_ticks (env k) →
     is_Some (epoll_wait fuel env 0 expire_time)).
Proof.
  split.
  - intros evs Hw. apply epoll_wait_round in Hw as (j & Hj & Hq & Hr).
    exists j. split; [lia|]. split; [intros; apply Hq; lia|]. simpl in Hr.
    destruct (epoll_scan (rd_table (env j)) (rd_monitor (env j))) as [l| |] eqn:E; [|done..].
    pose proof (epoll_scan_elem _ _ _ E) as Hel. repeat case_decide; simplify_eq; try done.
    by destruct (rd_signals (env j)).
  - intros k Hk Ht. pose proof (epoll_wait_expires k env 0 expire_time Ht) as [r Hr].
    revert Hr. replace fuel with (S k + (fuel - S k))%nat by lia. generalize (fuel - S k)%nat as d.
    clear. intros d. generalize (S k) as n. intros n. generalize 0%nat as i.
    induction n as [|n IH]; intros i; [done|]. intros Hr. simpl in *.
    repeat (case_match || case_decide); simplify_eq/=; eauto.
Qed.

Definition demo_round (t : Z) : EpollRound :=
  {| rd_monitor := [(1, {| event_type := EPOLLIN; ev_data := 11 |})];
     rd_table := [None; Some {| hang_up := false; exceptional := false;
                                can_read := bool_decide (2 < t); can_write := true |}];
     rd_ticks := t; rd_signals := false |}.

Lemma epoll_wait_reports_witness :
  ∃ j, (j < 9)%nat ∧ (∀ i, (i < j)%nat → quiet (λ k, demo_round (Z.of_nat k)) 5 i) ∧
    (∀ ev, ev ∈ [{| event_type := EPOLLIN; ev_data := 11 |}] ↔
       ∃ fd req, (fd, req) ∈ rd_monitor (demo_round (Z.of_nat j)) ∧
         reports (rd_table (demo_round (Z.of_nat j))) fd req ev).
Proof.
  destruct (epoll_wait_reports (λ k, demo_round (Z.of_nat k)) 5 9) as [H _].
  destruct (H [{| event_type := EPOLLIN; ev_data := 11 |}]) as (j & ? & ? & ? & _).
  - vm_compute. reflexivity.
  - exists j. done.
Defined.

Lemma ready_to_read_scan table m : ∀ evs,
  epoll_ready_to_read table m = Ok true → epoll_scan table m = Ok evs → evs ≠ [].
Proof.
  induction m as [|[fd req] m IH]; intros evs; simpl; [done|].
  destruct (table_get table fd) as [[file|]| |]; simpl; try done;
    destruct (epoll_scan table m); simpl; try done; repeat case_decide; try done;
    intros Hr [= <-]; simpl; try done. by apply IH.
Qed.

(** An epoll file that says it is readable has an event to deliver: a wait
    started in that state returns it in its first round. *)
Theorem epoll_readable_delivers (env : nat → EpollRound) (expire_time : Z) (fuel : nat) :
  epoll_ready_to_read (rd_table (env 0%nat)) (rd_monitor (env 0%nat)) = Ok true →
  is_ok (epoll_scan (rd_table (env 0%nat)) (rd_monitor (env 0%nat))) = true →
  ∃ evs, epoll_wait (S fuel) env 0 expire_time = Some (Ok evs) ∧ evs ≠ [].
Proof.
  intros Hr Hok. simpl. destruct (epoll_scan _ _) as [evs| |] eqn:E; [|done..].
  exists evs. pose proof (ready_to_read_scan _ _ _ Hr E). by rewrite decide_True.
Qed.

Lemma epoll_readable_delivers_witness :
  ∃ evs, epoll_wait 1 (λ k, demo_round (Z.of_nat k + 7)) 0 3 = Some (Ok evs) ∧ evs ≠ [].
Proof. apply (epoll_readable_delivers (λ k, demo_round (Z.of_nat k + 7)) 3 0); vm_compute; reflexivity. Defined.
