(* ===== verification/Path.v ===== *)
(** Paths ([modules/async_vfs/src/path.rs] and the [split_path] of the RAM and
    device file systems).

    A Rust string is the list of its characters, as code points: [pop] removes a
    character, while [&buf[buf.len() - 1..]] slices the last byte and panics when
    that byte is not a whole character. *)

From S2P Require Import Prelude.

Notation str := (list Z) (only parsing).
Definition SLASH : Z := 47.
Definition DOT : Z := 46.

(** A string literal, for examples and for the names the code compares with. *)
Definition lit (s : string) : str := (λ a, Z.of_N (N_of_ascii a)) <$> Stdlib.Strings.String.list_ascii_of_string s.

Definition is_ascii (c : Z) : Prop := 0 ≤ c < 128.

(** [str::split('/')]: at least one part. *)
Fixpoint split_slash (s : str) : list str :=
  match s with
  | [] => [[]]
  | c :: s =>
      if decide (c = SLASH) then [] :: split_slash s
      else match split_slash s with
           | part :: rest => (c :: part) :: rest
           | [] => [[c]]
           end
  end.

Definition starts_with_slash (s : str) : bool :=
  match s with c :: _ => bool_decide (c = SLASH) | [] => false end.

(** [&buf[buf.len() - 1..] != "/"] on a non-empty buffer. *)
Definition last_byte_is_not_slash (buf : str) : outcome bool :=
  match last buf with
  | Some c => if decide (is_ascii c) then Ok (bool_decide (c ≠ SLASH)) else Panic
  | None => Panic
  end.

(** The loop of the [".."] case, on the reversed buffer: [while !buf.is_empty()]
    stop at ["/"], else pop a character and stop after a ['/']. *)
Fixpoint pop_part_rev (rbuf : str) : str :=
  match rbuf with
  | [] => []
  | c :: rest =>
      if decide (rbuf = [SLASH]) then rbuf
      else if decide (c = SLASH) then rest
      else pop_part_rev rest
  end.

Definition pop_part (buf : str) : str := reverse (pop_part_rev (reverse buf)).

Definition canon_step (is_absolute : bool) (buf part : str) : outcome str :=
  if decide (part = [] ∨ part = [DOT]) then Ok buf
  else if decide (part = [DOT; DOT]) then Ok (pop_part buf)
  else
    buf ← (match buf with
           | [] => Ok (if is_absolute then [SLASH] else [])
           | _ => b ← last_byte_is_not_slash buf; Ok (if b : bool then buf ++ [SLASH] else buf)
           end);
    Ok (buf ++ part).

Fixpoint canon_loop (is_absolute : bool) (buf : str) (parts : list str) : outcome str :=
  match parts with
  | [] => Ok buf
  | part :: parts => buf ← canon_step is_absolute buf part; canon_loop is_absolute buf parts
  end.

Definition canonicalize (path : str) : outcome str :=
  let is_absolute := starts_with_slash path in
  buf ← canon_loop is_absolute [] (split_slash path);
  Ok (if is_absolute && bool_decide (buf = []) then [SLASH] else buf).

(** [trim_start_matches('/')], and [find('/')] with the two sides. *)
Fixpoint trim_start_slash (s : str) : str :=
  match s with
  | c :: rest => if decide (c = SLASH) then trim_start_slash rest else s
  | [] => []
  end.

Fixpoint find_slash (s : str) : option (str * str) :=
  match s with
  | [] => None
  | c :: s =>
      if decide (c = SLASH) then Some ([], s)
      else match find_slash s with Some (l, r) => Some (c :: l, r) | None => None end
  end.

Definition split_path (path : str) : str * option str :=
  let trimmed_path := trim_start_slash path in
  match find_slash trimmed_path with
  | None => (trimmed_path, None)
  | Some (name, rest) => (name, Some rest)
  end.

Example canonicalize_ex1 : canonicalize (lit "//a//.//b///c//") = Ok (lit "/a/b/c").
Proof. vm_compute. reflexivity. Qed.
Example canonicalize_ex2 : canonicalize (lit "/bleh/bar/../../foo/..") = Ok (lit "/").
Proof. vm_compute. reflexivity. Qed.
Example canonicalize_ex3 : canonicalize (lit ".././a") = Ok (lit "a").
Proof. vm_compute. reflexivity. Qed.

(** ** The reference: a stack of components *)

Definition proper (part : str) : Prop :=
  part ≠ [] ∧ part ≠ [DOT] ∧ part ≠ [DOT; DOT] ∧ SLASH ∉ part.

Definition norm_step (stack : list str) (part : str) : list str :=
  if decide (part = [] ∨ part = [DOT]) then stack
  else if decide (part = [DOT; DOT]) then take (length stack - 1) stack
  else stack ++ [part].

(** The components of a path, with [.], [..] and empty ones resolved. *)
Definition components (path : str) : list str := foldl norm_step [] (split_slash path).

Fixpoint join (parts : list str) : str :=
  match parts with
  | [] => []
  | [p] => p
  | p :: parts => p ++ SLASH :: join parts
  end.

Definition render (is_absolute : bool) (parts : list str) : str :=
  (if is_absolute then [SLASH] else []) ++ join parts.

Lemma split_slash_cons s : ∃ p ps, split_slash s = p :: ps.
Proof.
  induction s as [|c s (p & ps & E)]; simpl; [eauto|]. case_decide; [eauto|]. rewrite E. eauto.
Qed.

Lemma split_slash_no_slash s : Forall (λ p, SLASH ∉ p) (split_slash s).
Proof.
  induction s as [|c s IH]; simpl; [apply Forall_singleton; set_solver|].
  case_decide as Hc; [constructor; [set_solver|done]|].
  destruct (split_slash_cons s) as (p & ps & E). rewrite E in *.
  apply Forall_cons in IH as [Hp Hps]. constructor; [set_solver|done].
Qed.

Lemma split_slash_elem s p c : p ∈ split_slash s → c ∈ p → c ∈ s.
Proof.
  revert p. induction s as [|x s IH]; intros p; simpl; [by intros ->%list_elem_of_singleton|].
  destruct (split_slash_cons s) as (q & qs & E). rewrite E in *.
  case_decide; intros Hp Hc.
  - apply elem_of_cons in Hp as [->|Hp]; [set_solver|]. right. by eapply IH.
  - apply elem_of_cons in Hp as [->|Hp].
    + apply elem_of_cons in Hc as [->|Hc]; [left|]. right. by eapply (IH q); [left|].
    + right. eapply IH; [by right|done].
Qed.

(** Splitting a component that is followed by a slash. *)
Lemma split_slash_app p s :
  SLASH ∉ p → split_slash (p ++ SLASH :: s) = p :: split_slash s.
Proof.
  induction p as [|c p IH]; intros Hp; simpl; [done|].
  rewrite decide_False by set_solver. rewrite IH by set_solver. done.
Qed.

Lemma split_slash_single p : SLASH ∉ p → split_slash p = [p].
Proof.
  induction p as [|c p IH]; intros Hp; simpl; [done|].
  rewrite decide_False by set_solver. rewrite IH by set_solver. done.
Qed.

Lemma split_join parts :
  parts ≠ [] → Forall (λ p, SLASH ∉ p) parts → split_slash (join parts) = parts.
Proof.
  induction parts as [|p parts IH]; intros Hne Hp; [done|].
  apply Forall_cons in Hp as [Hp Hps]. destruct parts as [|q parts].
  - simpl. by apply split_slash_single.
  - cbn [join]. rewrite split_slash_app by done. f_equal. by apply IH.
Qed.

Lemma norm_step_proper stack part :
  Forall proper stack → SLASH ∉ part → Forall proper (norm_step stack part).
Proof.
  intros Hs Hp. unfold norm_step. repeat case_decide; [done|by apply Forall_take|].
  apply Forall_app. split; [done|]. constructor; [|done]. unfold proper. naive_solver.
Qed.

Lemma foldl_norm_proper parts : ∀ stack,
  Forall proper stack → Forall (λ p, SLASH ∉ p) parts → Forall proper (foldl norm_step stack parts).
Proof.
  induction parts as [|p parts IH]; intros stack Hs Hp; simpl; [done|].
  apply Forall_cons in Hp as [Hp Hps]. apply IH; [|done]. by apply norm_step_proper.
Qed.

Lemma components_proper path : Forall proper (components path).
Proof. apply foldl_norm_proper; [done|]. apply split_slash_no_slash. Qed.

Lemma foldl_norm_id parts : ∀ stack,
  Forall proper parts → foldl norm_step stack parts = stack ++ parts.
Proof.
  induction parts as [|p parts IH]; intros stack Hp; simpl; [by rewrite app_nil_r|].
  apply Forall_cons in Hp as [(H1 & H2 & H3 & _) Hps]. rewrite IH by done.
  unfold norm_step. rewrite decide_False by naive_solver. rewrite decide_False by done.
  by rewrite <- app_assoc.
Qed.

Lemma join_snoc parts p : parts ≠ [] → join (parts ++ [p]) = join parts ++ SLASH :: p.
Proof.
  induction parts as [|q parts IH]; intros Hne; [done|].
  destruct parts as [|q' parts]; [done|].
  change (q ++ SLASH :: join ((q' :: parts) ++ [p]) = (q ++ SLASH :: join (q' :: parts)) ++ SLASH :: p).
  rewrite IH by done. by rewrite <- app_assoc.
Qed.

Lemma render_snoc abs parts p :
  parts ≠ [] → render abs (parts ++ [p]) = render abs parts ++ SLASH :: p.
Proof. intros Hne. unfold render. by rewrite join_snoc, app_assoc. Qed.

Lemma render_nonempty abs parts p : p ≠ [] → render abs (parts ++ [p]) ≠ [].
Proof.
  intros Hp. destruct (decide (parts = [])) as [->|Hne].
  - unfold render. simpl. by destruct abs, p.
  - rewrite render_snoc by done. by destruct (render abs parts).
Qed.

Lemma last_render abs parts p : p ≠ [] → last (render abs (parts ++ [p])) = last p.
Proof.
  intros Hp. destruct (exists_last Hp) as (l & c & ->).
  destruct (decide (parts = [])) as [->|Hne].
  - unfold render. simpl. by rewrite app_assoc, !last_snoc.
  - rewrite render_snoc by done.
    replace (render abs parts ++ SLASH :: l ++ [c])
      with ((render abs parts ++ SLASH :: l) ++ [c]) by (by rewrite <- app_assoc).
    by rewrite !last_snoc.
Qed.

Lemma pop_part_rev_skip l rest : SLASH ∉ l → pop_part_rev (l ++ rest) = pop_part_rev rest.
Proof.
  induction l as [|c l IH]; intros Hl; [done|]. simpl.
  rewrite decide_False by (intros [= -> _]; set_solver).
  rewrite decide_False by set_solver. apply IH. set_solver.
Qed.

Lemma pop_part_rev_slash rest : rest ≠ [] → pop_part_rev (SLASH :: rest) = rest.
Proof. by destruct rest. Qed.

Lemma pop_part_render abs parts p :
  proper p → Forall proper parts →
  pop_part (render abs (parts ++ [p])) =
    match parts with [] => if abs then [SLASH] else [] | _ => render abs parts end.
Proof.
  intros (Hp & _ & _ & Hs) Hps. unfold pop_part.
  assert (SLASH ∉ reverse p) as Hr by (by rewrite elem_of_reverse).
  destruct (decide (parts = [])) as [->|Hne].
  - unfold render. simpl. rewrite reverse_app, pop_part_rev_skip by done. by destruct abs.
  - rewrite render_snoc by done. rewrite reverse_app, reverse_cons, <- app_assoc.
    rewrite pop_part_rev_skip by done.
    destruct (exists_last Hne) as (st & q & ->). apply Forall_app in Hps as [_ [Hq _]%Forall_cons].
    pose proof (render_nonempty abs st q (proj1 Hq)) as Hnn.
    cbn [app]. rewrite pop_part_rev_slash.
    + rewrite reverse_involutive. by destruct st.
    + intros Hc. apply Hnn. rewrite <- (reverse_involutive (render _ _)), Hc. done.
Qed.

(** The buffer of the loop represents the stack. *)
Definition represents (abs : bool) (buf : str) (stack : list str) : Prop :=
  Forall proper stack ∧ Forall (Forall is_ascii) stack ∧
  match stack with
  | [] => buf = [] ∨ abs = true ∧ buf = [SLASH]
  | _ => buf = render abs stack
  end.

Lemma canon_step_ok abs buf stack part :
  represents abs buf stack → SLASH ∉ part → Forall is_ascii part →
  ∃ buf', canon_step abs buf part = Ok buf' ∧ represents abs buf' (norm_step stack part).
Proof.
  intros (Hp & Ha & Hb) Hs Hasc. unfold canon_step, norm_step.
  case_decide as H1; [by exists buf|]. case_decide as H2.
  - eexists. split; [done|]. destruct (decide (stack = [])) as [->|Hne].
    + split; [done|]. split; [done|]. destruct Hb as [->|[-> ->]]; [by left|by right].
    + destruct (exists_last Hne) as (st & p & ->).
      replace (length (st ++ [p]) - 1)%nat with (length st) by (rewrite length_app; simpl; lia).
      rewrite take_app_length. apply Forall_app in Hp as [Hst [Hpp _]%Forall_cons].
      apply Forall_app in Ha as [Hast _]. split; [done|]. split; [done|].
      assert (buf = render abs (st ++ [p])) as -> by (by destruct st).
      rewrite pop_part_render by done. destruct st; [destruct abs; auto|done].
  - assert (proper part) as Hpart by (unfold proper; naive_solver).
    assert (Forall proper (stack ++ [part])) as Hp' by (apply Forall_app; split; [done|by constructor]).
    assert (Forall (Forall is_ascii) (stack ++ [part])) as Ha'
      by (apply Forall_app; split; [done|by constructor]).
    destruct (decide (stack = [])) as [->|Hne].
    + destruct Hb as [->|[-> ->]]; (eexists; split; [done|]); split; [done..|]; done.
    + destruct (exists_last Hne) as (st & p & ->).
      apply Forall_app in Hp as [_ [(Hpne & _ & _ & Hps) _]%Forall_cons].
      apply Forall_app in Ha as [_ [Hpa _]%Forall_cons].
      assert (buf = render abs (st ++ [p])) as -> by (by destruct st).
      assert (last_byte_is_not_slash (render abs (st ++ [p])) = Ok true) as Hl.
      { unfold last_byte_is_not_slash. rewrite last_render by done.
        destruct (exists_last Hpne) as (l & c & ->). rewrite last_snoc.
        apply Forall_app in Hpa as [_ [Hca _]%Forall_cons]. rewrite decide_True by done.
        f_equal. apply bool_decide_eq_true_2. set_solver. }
      exists ((render abs (st ++ [p]) ++ [SLASH]) ++ part). split; [|split; [done|split; [done|]]].
      * destruct (render abs (st ++ [p])) as [|x l] eqn:E.
        { exfalso. by apply (render_nonempty abs st p Hpne). }
        rewrite Hl. simpl. done.
      * assert ((render abs (st ++ [p]) ++ [SLASH]) ++ part = render abs ((st ++ [p]) ++ [part]))
          as -> by (rewrite (render_snoc abs (st ++ [p])), <- app_assoc; by destruct st).
        by destruct st.
Qed.

Lemma canon_loop_ok abs parts : ∀ buf stack,
  represents abs buf stack → Forall (λ p, SLASH ∉ p) parts → Forall (Forall is_ascii) parts →
  ∃ buf', canon_loop abs buf parts = Ok buf' ∧
    represents abs buf' (foldl norm_step stack parts).
Proof.
  induction parts as [|p parts IH]; intros buf stack Hr Hs Ha; simpl; [eauto|].
  apply Forall_cons in Hs as [Hs Hss]. apply Forall_cons in Ha as [Ha Has].
  destruct (canon_step_ok abs buf stack p Hr Hs Ha) as (buf' & -> & Hr'). simpl. by apply IH.
Qed.

Lemma canonicalize_render path :
  Forall is_ascii path →
  canonicalize path = Ok (render (starts_with_slash path) (components path)).
Proof.
  intros Ha. unfold canonicalize.
  destruct (canon_loop_ok (starts_with_slash path) (split_slash path) [] []) as (buf & -> & _ & _ & Hb).
  - split; [done|]. split; [done|]. by left.
  - apply split_slash_no_slash.
  - apply Forall_forall. intros p Hp. apply Forall_forall. intros c Hc.
    rewrite Forall_forall in Ha. apply Ha. by eapply split_slash_elem.
  - simpl. f_equal. fold (components path) in Hb. pose proof (components_proper path) as Hpr.
    destruct (components path) as [|p ps] eqn:E.
    + unfold render. simpl. destruct Hb as [->|[-> ->]]; [|done]. by destruct (starts_with_slash path).
    + assert (buf ≠ []) as Hne.
      { rewrite Hb. destruct (exists_last (l := p :: ps)) as (l & q & Hl); [done|].
        rewrite Hl in *. apply render_nonempty.
        apply Forall_app in Hpr as [_ [(Hq & _) _]%Forall_cons]. done. }
      rewrite bool_decide_eq_false_2, andb_false_r by done. done.
Qed.

Lemma starts_render abs parts : Forall proper parts → starts_with_slash (render abs parts) = abs.
Proof.
  intros Hp. unfold render. destruct abs; [done|]. simpl.
  destruct parts as [|[|c p] ps]; [done| |]; apply Forall_cons in Hp as [(Hne & _ & _ & Hs) _]; [done|].
  assert (starts_with_slash (c :: p) = false) as Hc by (apply bool_decide_eq_false_2; set_solver).
  by destruct ps.
Qed.

Lemma components_render abs parts : Forall proper parts → components (render abs parts) = parts.
Proof.
  intros Hp. unfold components.
  assert (Forall (λ p, SLASH ∉ p) parts) as Hs.
  { eapply Forall_impl; [exact Hp|]. by intros p (_ & _ & _ & ?). }
  destruct (decide (parts = [])) as [->|Hne].
  - unfold render. by destruct abs.
  - unfold render. destruct abs; simpl; rewrite split_join by done; simpl;
      rewrite foldl_norm_id by done; done.
Qed.

Lemma join_ascii parts : Forall (Forall is_ascii) parts → Forall is_ascii (join parts).
Proof.
  induction parts as [|p parts IH]; intros Hp; [by constructor|].
  apply Forall_cons in Hp as [Hp Hps]. destruct parts as [|q parts]; [done|].
  cbn [join]. apply Forall_app. split; [done|]. constructor; [|by apply IH].
  unfold is_ascii, SLASH. lia.
Qed.

Lemma components_ascii path : Forall is_ascii path → Forall (Forall is_ascii) (components path).
Proof.
  intros Ha. unfold components.
  assert (Forall (Forall is_ascii) (split_slash path)) as Hs.
  { apply Forall_forall. intros p Hp. apply Forall_forall. intros c Hc.
    rewrite Forall_forall in Ha. apply Ha. by eapply split_slash_elem. }
  assert (∀ parts stack, Forall (Forall is_ascii) parts → Forall (Forall is_ascii) stack →
    Forall (Forall is_ascii) (foldl norm_step stack parts)) as H; [|by apply H].
  clear. induction parts as [|p parts IH]; intros stack Hp Hs; simpl; [done|].
  apply Forall_cons in Hp as [Hp Hps]. apply IH; [done|]. unfold norm_step.
  repeat case_decide; [done|by apply Forall_take|]. apply Forall_app. split; [done|by constructor].
Qed.

(** C37: on ASCII paths [canonicalize] computes the components of the path with
    empty ones and [.] dropped and [..] resolved against what precedes (never
    above the start), joined by single slashes, absolute exactly when the path
    is; every component of the result is a proper name. *)
Theorem canonicalize_normalizes (path : str) :
  Forall is_ascii path →
  canonicalize path = Ok (render (starts_with_slash path) (components path)) ∧
  Forall proper (components path).
Proof. intros Ha. split; [by apply canonicalize_render|apply components_proper]. Qed.

Lemma lit_ascii_dec s : bool_decide (Forall (λ c, 0 ≤ c ∧ c < 128) s) = true → Forall is_ascii s.
Proof. intros H%bool_decide_eq_true_1. exact H. Qed.

Lemma canonicalize_normalizes_witness :
  canonicalize (lit "/a/./b/../c") = Ok (render true [lit "a"; lit "c"]) ∧
  Forall proper [lit "a"; lit "c"].
Proof.
  apply (canonicalize_normalizes (lit "/a/./b/../c")). apply lit_ascii_dec. by vm_compute.
Defined.

(** [canonicalize] is idempotent: its result is its own canonical form. *)
Theorem canonicalize_idempotent (path p : str) :
  Forall is_ascii path → canonicalize path = Ok p → canonicalize p = Ok p.
Proof.
  intros Ha. rewrite canonicalize_render by done. intros [= <-].
  pose proof (components_proper path) as Hp.
  rewrite canonicalize_render.
  - by rewrite starts_render, components_render.
  - unfold render. apply Forall_app. split.
    + destruct (starts_with_slash path); repeat constructor; done.
    + apply join_ascii. by apply components_ascii.
Qed.

Lemma canonicalize_idempotent_witness : canonicalize (lit "/a/c") = Ok (lit "/a/c").
Proof.
  apply (canonicalize_idempotent (lit "/a/./b/../c")).
  - apply lit_ascii_dec. by vm_compute.
  - vm_compute. reflexivity.
Defined.

Lemma canon_step_proper abs buf part :
  proper part →
  canon_step abs buf part =
    (buf ← (match buf with
            | [] => Ok (if abs then [SLASH] else [])
            | _ => b ← last_byte_is_not_slash buf; Ok (if b : bool then buf ++ [SLASH] else buf)
            end);
     Ok (buf ++ part)).
Proof.
  intros (H1 & H2 & H3 & _). unfold canon_step.
  rewrite decide_False by naive_solver. by rewrite decide_False.
Qed.

(** Outside ASCII the byte slice of the separator test is taken in the
    middle of a character: a proper component that ends in a non-ASCII
    character and is followed by another proper component makes
    [canonicalize] panic. *)
Theorem canonicalize_panics_after_non_ascii (p q : str) (c : Z) (rest : str) :
  proper (p ++ [c]) → ¬ is_ascii c → proper q →
  canonicalize (SLASH :: (p ++ [c]) ++ SLASH :: q ++ SLASH :: rest) = Panic.
Proof.
  intros Hp Hc Hq. pose proof Hp as (_ & _ & _ & Hp4). pose proof Hq as (_ & _ & _ & Hq4).
  unfold canonicalize. change (starts_with_slash (SLASH :: _)) with true.
  rewrite (split_slash_app [] ((p ++ [c]) ++ SLASH :: q ++ SLASH :: rest) ltac:(set_solver) : split_slash (SLASH :: _) = _).
  rewrite split_slash_app, split_slash_app by done.
  cbn [canon_loop]. change (canon_step true [] []) with (@Ok str []). rewrite bind_Ok.
  rewrite canon_step_proper by done. rewrite !bind_Ok.
  rewrite canon_step_proper by done. cbn [app].
  assert (last_byte_is_not_slash (SLASH :: p ++ [c]) = Panic) as ->; [|done].
  unfold last_byte_is_not_slash. rewrite (app_comm_cons p [c] SLASH), last_snoc.
  by rewrite decide_False.
Qed.

(** The path "/é/x/". *)
Lemma canonicalize_panics_after_non_ascii_witness :
  canonicalize [47; 233; 47; 120; 47] = Panic.
Proof.
  apply (canonicalize_panics_after_non_ascii [] [120] 233 []).
  - unfold proper, SLASH. set_solver.
  - unfold is_ascii. lia.
  - unfold proper, SLASH. set_solver.
Defined.
