(* ===== verification/Vfs.v ===== *)
(** The virtual file system layer ([modules/async_vfs]): node attributes,
    permissions, types and directory entries ([structs.rs]), and the nodes of
    the RAM and device file systems ([modules/axfs_ramfs], [modules/axfs_devfs])
    behind [VfsNodeOps].

    An [Arc<dyn VfsNodeOps>] is a node identifier into a store of nodes.  A
    directory's parent is a weak reference: whether it still upgrades depends on
    who else holds the parent, so [alive] is an argument of the operations.  The
    [RwLock] around a directory's children is kept for the one thing a single
    task can observe of it: asking for the write lock while the same call chain
    holds a read guard spins for ever, which is [None] in the results of
    [create] and [remove]. *)

From S2P Require Import Prelude BTree Path.

(** ** Attributes ([structs.rs]) *)

Inductive VfsNodeType := TFifo | TCharDevice | TDir | TBlockDevice | TFile | TSymLink | TSocket.

#[export] Instance VfsNodeType_eq_dec : EqDecision VfsNodeType.
Proof. solve_decision. Defined.

Definition type_bits (ty : VfsNodeType) : Z :=
  match ty with
  | TFifo => 1 | TCharDevice => 2 | TDir => 4 | TBlockDevice => 6
  | TFile => 8 | TSymLink => 10 | TSocket => 12
  end.

Definition type_is_file (ty : VfsNodeType) : bool := bool_decide (ty = TFile).
Definition type_is_dir (ty : VfsNodeType) : bool := bool_decide (ty = TDir).

Definition as_char (ty : VfsNodeType) : Z :=
  match ty with
  | TFifo => 112 | TCharDevice => 99 | TDir => 100 | TBlockDevice => 98
  | TFile => 45 | TSymLink => 108 | TSocket => 115
  end.

(** [VfsNodePerm]: nine bits; [from_bits_truncate] keeps them. *)
Definition from_bits_truncate (b : Z) : Z := Z.land b 511.
Definition default_file : Z := from_bits_truncate 438.   (* 0o666 *)
Definition default_dir : Z := from_bits_truncate 493.    (* 0o755 *)
Definition perm_contains (p bit : Z) : bool := bool_decide (Z.land p bit = bit).

(** [rwx_buf]: one character per bit, from [OWNER_READ] down to [OTHER_EXEC]. *)
Definition rwx_buf (p : Z) : list Z :=
  [ if perm_contains p 256 then 114 else 45; if perm_contains p 128 then 119 else 45;
    if perm_contains p 64 then 120 else 45; if perm_contains p 32 then 114 else 45;
    if perm_contains p 16 then 119 else 45; if perm_contains p 8 then 120 else 45;
    if perm_contains p 4 then 114 else 45; if perm_contains p 2 then 119 else 45;
    if perm_contains p 1 then 120 else 45 ].

Definition owner_readable (p : Z) : bool := perm_contains p 256.
Definition owner_writable (p : Z) : bool := perm_contains p 128.
Definition owner_executable (p : Z) : bool := perm_contains p 64.

Record VfsNodeAttr := { at_mode : Z; at_ty : VfsNodeType; at_size : Z; at_blocks : Z }.

Definition attr_new_file (size blocks : Z) : VfsNodeAttr :=
  {| at_mode := default_file; at_ty := TFile; at_size := size; at_blocks := blocks |}.
Definition attr_new_dir (size blocks : Z) : VfsNodeAttr :=
  {| at_mode := default_dir; at_ty := TDir; at_size := size; at_blocks := blocks |}.
Definition attr_char_dev : VfsNodeAttr :=
  {| at_mode := default_file; at_ty := TCharDevice; at_size := 0; at_blocks := 0 |}.

(** UTF-8, for the byte length of names. *)
Definition utf8_char (c : Z) : list Z :=
  if decide (c < 128) then [c]
  else if decide (c < 2048) then [192 + c / 64; 128 + c mod 64]
  else if decide (c < 65536) then [224 + c / 4096; 128 + c / 64 mod 64; 128 + c mod 64]
  else [240 + c / 262144; 128 + c / 4096 mod 64; 128 + c / 64 mod 64; 128 + c mod 64].
Definition utf8 (s : str) : list Z := s ≫= utf8_char.

Definition DIRENT_NAME : nat := 63.

Record VfsDirEntry := { d_type : VfsNodeType; d_name : list Z }.

(** [VfsDirEntry::new]: warns for a name that does not fit, then slices out of
    range. *)
Definition dirent_new (name : str) (ty : VfsNodeType) : outcome VfsDirEntry :=
  let bytes := utf8 name in
  if decide (DIRENT_NAME < length bytes)%nat then Panic
  else Ok {| d_type := ty; d_name := bytes ++ replicate (DIRENT_NAME - length bytes) 0 |}.

(** Up to the first zero byte. *)
Fixpoint name_as_bytes (d : list Z) : list Z :=
  match d with
  | [] => []
  | c :: d => if decide (c = 0) then [] else c :: name_as_bytes d
  end.

(** ** Nodes *)

Notation nid := nat (only parsing).

Inductive node :=
  | RamDir (parent : option nid) (children : list (str * nid))
  | FileNode (content : list Z)
  | Interrupts
  | DevDir (parent : option nid) (children : list (str * nid))
  | NullDev
  | ZeroDev.

(** [INTERRUPT]: the counters behind the [interrupts] file. *)
Record fs := { nodes : gmap nat node; next_id : nat; counters : list (Z * Z) }.

Definition set_node (n : nid) (nd : node) (s : fs) : fs :=
  {| nodes := <[n := nd]> (nodes s); next_id := next_id s; counters := counters s |}.
Definition alloc_node (nd : node) (s : fs) : nid * fs :=
  (next_id s, {| nodes := <[next_id s := nd]> (nodes s); next_id := S (next_id s);
                 counters := counters s |}).

(** The children and the weak parent of a directory of either file system. *)
Definition dir_of (s : fs) (n : nid) : option (option nid * list (str * nid)) :=
  match nodes s !! n with
  | Some (RamDir p ch) | Some (DevDir p ch) => Some (p, ch)
  | _ => None
  end.

Definition is_dot (name : str) : Prop := name = [] ∨ name = [DOT].
Definition is_dotdot (name : str) : Prop := name = [DOT; DOT].

#[export] Instance is_dot_dec name : Decision (is_dot name).
Proof. unfold is_dot. apply _. Defined.
#[export] Instance is_dotdot_dec name : Decision (is_dotdot name).
Proof. unfold is_dotdot. apply _. Defined.

(** [InterruptCounter::record] and [content]. *)
Definition record (key : Z) (c : list (Z * Z)) : list (Z * Z) :=
  match bt_get key c with
  | Some cnt => bt_insert key (wrap64 (cnt + 1)) c
  | None => bt_insert key 1 c
  end.

Fixpoint decimal_rev (fuel : nat) (n : Z) : list Z :=
  match fuel with
  | O => []
  | S fuel => (48 + n mod 10) :: (if decide (n < 10) then [] else decimal_rev fuel (n / 10))
  end.
(** Twenty digits hold every 64-bit number. *)
Definition decimal (n : Z) : list Z := reverse (decimal_rev 20 n).

Definition interrupt_content (c : list (Z * Z)) : list Z :=
  c ≫= λ '(key, value), decimal key ++ [58; 32] ++ decimal value ++ [10].

Section nodes.
Context (alive : nid → bool).

(** [Weak::upgrade]. *)
Definition upgrade (p : option nid) : option nid :=
  match p with Some p => if alive p then Some p else None | None => None end.

Definition get_attr (n : nid) (s : fs) : outcome VfsNodeAttr :=
  match nodes s !! n with
  | Some (RamDir _ _) | Some (DevDir _ _) => Ok (attr_new_dir 4096 0)
  | Some (FileNode content) => Ok (attr_new_file (Z.of_nat (length content)) 0)
  | Some Interrupts | Some NullDev | Some ZeroDev => Ok attr_char_dev
  | None => Panic
  end.

(** [VfsNodeOps::parent]: [None] for files. *)
Definition parent_of (n : nid) (s : fs) : option nid :=
  match dir_of s n with Some (p, _) => upgrade p | None => None end.

(** One component of [lookup]. *)
Definition lookup_step (s : fs) (n : nid) (name : str) : outcome nid :=
  match dir_of s n with
  | None => Err NotADirectory
  | Some (_, ch) =>
      if decide (is_dot name) then Ok n
      else if decide (is_dotdot name) then ok_or (parent_of n s) NotFound
      else ok_or (bt_get name ch) NotFound
  end.

(** [lookup]: the rest of the path is shorter, so the length of the path is
    enough fuel. *)
Fixpoint lookup_fuel (fuel : nat) (s : fs) (n : nid) (path : str) : outcome nid :=
  match fuel with
  | O => Panic
  | S fuel =>
      let '(name, rest) := split_path path in
      node ← lookup_step s n name;
      match rest with
      | Some rest => lookup_fuel fuel s node rest
      | None => Ok node
      end
  end.
Definition lookup (s : fs) (n : nid) (path : str) : outcome nid :=
  lookup_fuel (S (length path)) s n path.

(** [DirNode::create_node] of the RAM file system. *)
Definition create_node (held : gset nat) (n : nid) (p : option nid) (ch : list (str * nid))
    (name : str) (ty : VfsNodeType) (s : fs) : option (outcome fs) :=
  if bt_contains_key name ch then Some (Err AlreadyExists) else
  let mk := match ty with
            | TFile => Some (if decide (name = lit "interrupts") then Interrupts else FileNode [])
            | TDir => Some (RamDir (Some n) [])
            | _ => None
            end in
  match mk with
  | None => Some (Err Unsupported)
  | Some nd =>
      if decide (n ∈ held) then None
      else let '(c, s) := alloc_node nd s in
           Some (Ok (set_node n (RamDir p (bt_insert name c ch)) s))
  end.

(** [DirNode::remove_node]: the write lock comes first. *)
Definition remove_node (held : gset nat) (n : nid) (p : option nid) (ch : list (str * nid))
    (name : str) (s : fs) : option (outcome fs) :=
  if decide (n ∈ held) then None else
  match bt_get name ch with
  | None => Some (Err NotFound)
  | Some c =>
      match nodes s !! c with
      | Some (RamDir _ (_ :: _)) => Some (Err DirectoryNotEmpty)
      | _ => Some (Ok (set_node n (RamDir p (bt_remove name ch)) s))
      end
  end.

(** What [poll_create] and [poll_remove] share: walk to the directory of the
    last component, holding the read guard of every directory left downwards. *)
Fixpoint walk_fuel (fuel : nat) (held : gset nat) (s : fs) (n : nid) (path : str)
    (leaf : gset nat → nid → str → option (outcome fs)) : option (outcome fs) :=
  match fuel with
  | O => Some Panic
  | S fuel =>
      match dir_of s n with
      | None => Some (Err NotADirectory)
      | Some (_, ch) =>
          let '(name, rest) := split_path path in
          match rest with
          | None => leaf held n name
          | Some rest =>
              if decide (is_dot name) then walk_fuel fuel held s n rest leaf
              else if decide (is_dotdot name) then
                match parent_of n s with
                | Some q => walk_fuel fuel held s q rest leaf
                | None => Some (Err NotFound)
                end
              else
                match bt_get name ch with
                | Some c => walk_fuel fuel ({[ n ]} ∪ held) s c rest leaf
                | None => Some (Err NotFound)
                end
          end
      end
  end.

Definition create_leaf (ty : VfsNodeType) (s : fs) (held : gset nat) (n : nid) (name : str)
    : option (outcome fs) :=
  match nodes s !! n with
  | Some (RamDir p ch) =>
      if decide (is_dot name ∨ is_dotdot name) then Some (Ok s)
      else create_node held n p ch name ty s
  | Some (DevDir _ _) =>
      if decide (is_dot name ∨ is_dotdot name) then Some (Ok s)
      else Some (Err PermissionDenied)
  | _ => Some (Err NotADirectory)
  end.

Definition create (s : fs) (n : nid) (path : str) (ty : VfsNodeType) : option (outcome fs) :=
  walk_fuel (S (length path)) ∅ s n path (create_leaf ty s).

Definition remove_leaf (s : fs) (held : gset nat) (n : nid) (name : str) : option (outcome fs) :=
  match nodes s !! n with
  | Some (RamDir p ch) =>
      if decide (is_dot name ∨ is_dotdot name) then Some (Err InvalidInput)
      else remove_node held n p ch name s
  | Some (DevDir _ _) => Some (Err PermissionDenied)
  | _ => Some (Err NotADirectory)
  end.

Definition remove (s : fs) (n : nid) (path : str) : option (outcome fs) :=
  walk_fuel (S (length path)) ∅ s n path (remove_leaf s).

(** [poll_read_dir]: the entries written, for [slots] places from index
    [i + start_idx] on; [ch] iterates over the children. *)
Fixpoint read_dir_loop (slots i : nat) (start_idx : Z) (ch : list (str * nid)) (s : fs)
    : outcome (list VfsDirEntry) :=
  match slots with
  | O => Ok []
  | S slots =>
      let idx := wrap64 (Z.of_nat i + start_idx) in
      if decide (idx = 0) then
        e ← dirent_new [DOT] TDir; es ← read_dir_loop slots (S i) start_idx ch s; Ok (e :: es)
      else if decide (idx = 1) then
        e ← dirent_new [DOT; DOT] TDir; es ← read_dir_loop slots (S i) start_idx ch s; Ok (e :: es)
      else match ch with
           | [] => Ok []
           | (name, c) :: ch =>
               attr ← unwrap (get_attr c s);
               e ← dirent_new name (at_ty attr);
               es ← read_dir_loop slots (S i) start_idx ch s;
               Ok (e :: es)
           end
  end.

Definition read_dir (s : fs) (n : nid) (start_idx : Z) (slots : nat) : outcome (list VfsDirEntry) :=
  match dir_of s n with
  | None => Err NotADirectory
  | Some (_, ch) => read_dir_loop slots 0 start_idx (drop (Z.to_nat (Z.max start_idx 2 - 2)) ch) s
  end.

(** ** File operations.  A byte vector cannot exceed [isize::MAX]. *)

Definition resize (l : list Z) (sz : Z) : outcome (list Z) :=
  if decide (sz ≤ 2 ^ 63 - 1) then
    Ok (take (Z.to_nat sz) l ++ replicate (Z.to_nat sz - length l) 0)
  else Panic.

(** The bytes read into a buffer of [len] bytes. *)
Definition read_at (s : fs) (n : nid) (offset : Z) (len : nat) : outcome (list Z) :=
  match nodes s !! n with
  | Some (FileNode content) =>
      let size := Z.of_nat (length content) in
      let start := Z.min size offset in
      let end_ := Z.min size (wrap64 (offset + Z.of_nat len)) in
      if decide (start ≤ end_)
      then Ok (take (Z.to_nat (end_ - start)) (drop (Z.to_nat start) content))
      else Panic
  | Some Interrupts =>
      let bytes := interrupt_content (counters s) in
      let size := Z.of_nat (length bytes) in
      if decide (offset > size) then Err InvalidInput
      else let n := if decide (Z.of_nat len < size - offset) then Z.of_nat len else size - offset in
           Ok (take (Z.to_nat n) (drop (Z.to_nat offset) bytes))
  | Some NullDev => Ok []
  | Some ZeroDev => Ok (replicate len 0)
  | Some (RamDir _ _) | Some (DevDir _ _) => Err IsADirectory
  | None => Panic
  end.

Definition write_at (s : fs) (n : nid) (offset : Z) (buf : list Z) : outcome (Z * fs) :=
  match nodes s !! n with
  | Some (FileNode content) =>
      let end_ := wrap64 (offset + Z.of_nat (length buf)) in
      content ← (if decide (end_ > Z.of_nat (length content)) then resize content end_
                 else Ok content);
      (* [&mut content[offset..end]], then [copy_from_slice] *)
      if decide (offset ≤ end_)
      then Ok (Z.of_nat (length buf),
               set_node n (FileNode (take (Z.to_nat offset) content ++ buf ++
                                     drop (Z.to_nat end_) content)) s)
      else Panic
  | Some Interrupts => Err Io
  | Some NullDev | Some ZeroDev => Ok (Z.of_nat (length buf), s)
  | Some (RamDir _ _) | Some (DevDir _ _) => Err IsADirectory
  | None => Panic
  end.

Definition truncate (s : fs) (n : nid) (size : Z) : outcome fs :=
  match nodes s !! n with
  | Some (FileNode content) =>
      content ← (if decide (size < Z.of_nat (length content))
                 then Ok (take (Z.to_nat size) content) else resize content size);
      Ok (set_node n (FileNode content) s)
  | Some Interrupts => Err Io
  | Some NullDev | Some ZeroDev => Ok s
  | Some (RamDir _ _) | Some (DevDir _ _) => Err IsADirectory
  | None => Panic
  end.

(** [poll_fsync]: files keep the trait's default. *)
Definition fsync (s : fs) (n : nid) : outcome unit :=
  match dir_of s n with Some _ => Err IsADirectory | None => Err InvalidInput end.

(** ** File systems: [new], [mount], the device tree *)

Definition ramfs_new (s : fs) : nid * fs := alloc_node (RamDir None []) s.
Definition devfs_new (s : fs) : nid * fs := alloc_node (DevDir None []) s.

(** [DirNode::set_parent]. *)
Definition set_parent (n : nid) (p : option nid) (s : fs) : fs :=
  match nodes s !! n with
  | Some (RamDir _ ch) => set_node n (RamDir p ch) s
  | Some (DevDir _ ch) => set_node n (DevDir p ch) s
  | _ => s
  end.

(** [poll_mount] of both file systems: [once] is the [Once] that keeps the first
    parent alive; later mounts reuse it. *)
Definition fs_mount (root : nid) (once : option nid) (mount_point : nid) (s : fs)
    : option nid * fs :=
  match parent_of mount_point s with
  | Some q =>
      let p := match once with Some p => p | None => q end in
      (Some p, set_parent root (Some p) s)
  | None => (once, set_parent root None s)
  end.

(** [DirNode::mkdir] and [DirNode::add] of the device file system; a name that
    exists is replaced. *)
Definition dev_add (n : nid) (name : str) (c : nid) (s : fs) : fs :=
  match nodes s !! n with
  | Some (DevDir p ch) => set_node n (DevDir p (bt_insert name c ch)) s
  | _ => s
  end.
Definition dev_mkdir (n : nid) (name : str) (s : fs) : nid * fs :=
  let '(c, s) := alloc_node (DevDir (Some n) []) s in
  (c, dev_add n name c s).
End nodes.
