(* ===== verification/VfsProps.v ===== *)
(** Properties of the RAM and device file systems: path lookup is a walk over
    the components, [create], [remove] and [lookup] agree, directory listing
    enumerates the children, and files store what is written. *)

From S2P Require Import Prelude BTree Path Vfs.

(** ** Splitting paths *)

Lemma trim_start_spec s : ∃ k t, s = replicate k SLASH ++ t ∧ trim_start_slash s = t ∧
  starts_with_slash t = false.
Proof.
  induction s as [|c s (k & t & -> & Ht & Hs)].
  - by exists 0%nat, [].
  - simpl. case_decide as Hc.
    + subst c. exists (S k), t. done.
    + eexists 0%nat, _. split_and!; [done..|]. simpl. by apply bool_decide_eq_false_2.
Qed.

Lemma find_slash_spec s :
  match find_slash s with
  | Some (l, r) => s = l ++ SLASH :: r ∧ SLASH ∉ l
  | None => SLASH ∉ s
  end.
Proof.
  induction s as [|c s IH]; simpl; [set_solver|]. case_decide as Hc.
  - subst. split; [done|set_solver].
  - destruct (find_slash s) as [[l r]|]; [|set_solver].
    destruct IH as [-> Hl]. split; [done|set_solver].
Qed.

Lemma split_slash_slashes k t :
  split_slash (replicate k SLASH ++ t) = replicate k [] ++ split_slash t.
Proof. induction k as [|k IH]; [done|]. simpl. by rewrite IH. Qed.

(** [split_path] gives the first non-empty component, or the empty name. *)
Lemma split_path_spec path :
  ∃ k, match split_path path with
       | (name, Some rest) =>
           split_slash path = replicate k [] ++ name :: split_slash rest ∧
           (length rest < length path)%nat
       | (name, None) => split_slash path = replicate k [] ++ [name]
       end.
Proof.
  destruct (trim_start_spec path) as (k & t & Hp & Ht & _). exists k.
  unfold split_path. rewrite Ht. pose proof (find_slash_spec t) as Hf.
  destruct (find_slash t) as [[l r]|].
  - destruct Hf as [-> Hl]. rewrite Hp. split.
    + by rewrite split_slash_slashes, split_slash_app.
    + rewrite !length_app. simpl. lia.
  - rewrite Hp. by rewrite split_slash_slashes, split_slash_single.
Qed.

Lemma split_path_join p q ps :
  proper p → split_path (join (p :: q :: ps)) = (p, Some (join (q :: ps))).
Proof.
  intros (Hne & _ & _ & Hs). unfold split_path.
  assert (trim_start_slash (join (p :: q :: ps)) = join (p :: q :: ps)) as ->.
  { destruct p as [|c p]; [done|]. simpl. rewrite decide_False by set_solver. done. }
  change (join (p :: q :: ps)) with (p ++ SLASH :: join (q :: ps)).
  assert (∀ r, find_slash (p ++ SLASH :: r) = Some (p, r)) as Hf; [|by rewrite Hf].
  clear Hne. intros r. induction p as [|c p IH]; [done|]. simpl.
  rewrite decide_False by set_solver. rewrite IH by set_solver. done.
Qed.

Lemma split_path_single p : proper p → split_path p = (p, None).
Proof.
  intros (Hne & _ & _ & Hs). unfold split_path.
  assert (trim_start_slash p = p) as ->.
  { destruct p as [|c p]; [done|]. simpl. rewrite decide_False by set_solver. done. }
  pose proof (find_slash_spec p) as Hf. destruct (find_slash p) as [[l r]|]; [|done].
  destruct Hf as [-> _]. set_solver.
Qed.

Section props.
Context (alive : nid → bool).
#[local] Notation lookup := (lookup alive).
#[local] Notation lookup_step := (lookup_step alive).

(** The reference semantics of a path: one step per component. *)
Fixpoint walk (s : fs) (n : nid) (parts : list str) : outcome nid :=
  match parts with
  | [] => Ok n
  | p :: parts => m ← lookup_step s n p; walk s m parts
  end.

Lemma walk_app s parts1 parts2 : ∀ n,
  walk s n (parts1 ++ parts2) = (m ← walk s n parts1; walk s m parts2).
Proof.
  induction parts1 as [|p ps IH]; intros n; [done|]. simpl.
  destruct (lookup_step s n p); simpl; [apply IH|done..].
Qed.

(** Empty components change nothing. *)
Lemma walk_empty s n k p ps : walk s n (replicate k [] ++ p :: ps) = walk s n (p :: ps).
Proof.
  induction k as [|k IH]; [done|]. cbn [replicate app walk].
  destruct (lookup_step s n []) as [m|e|] eqn:E; unfold Vfs.lookup_step in E.
  - destruct (dir_of s n) as [[q ch]|] eqn:Ed; [|done].
    rewrite decide_True in E by (by left). injection E as <-. rewrite bind_Ok. exact IH.
  - destruct (dir_of s n) as [[q ch]|] eqn:Ed.
    + rewrite decide_True in E by (by left). done.
    + simpl. unfold Vfs.lookup_step. rewrite Ed. by injection E as <-.
  - destruct (dir_of s n) as [[q ch]|] eqn:Ed; [|done].
    rewrite decide_True in E by (by left). done.
Qed.

Lemma lookup_fuel_walk fuel : ∀ s n path,
  (length path < fuel)%nat → lookup_fuel alive fuel s n path = walk s n (split_slash path).
Proof.
  induction fuel as [|fuel IH]; intros s n path Hl; [lia|]. simpl.
  destruct (split_path_spec path) as (k & Hk). destruct (split_path path) as [name [rest|]].
  - destruct Hk as [-> Hlt]. rewrite walk_empty. cbn [walk].
    destruct (lookup_step s n name); simpl; [|done..]. apply IH. lia.
  - rewrite Hk, walk_empty. cbn [walk]. by destruct (lookup_step s n name).
Qed.

Lemma lookup_walk s n path : lookup s n path = walk s n (split_slash path).
Proof. apply lookup_fuel_walk. lia. Qed.

(** C23: the recursive [lookup] of both file systems, which peels leading slashes
    and one component at a time, is the walk over the components of the path:
    it always terminates, empty components and [.] stay in place, [..] goes to
    the parent, a name goes to that child, and a component applied to something
    that is not a directory is [NotADirectory]. *)
Theorem lookup_walks (s : fs) (n : nid) (path : str) :
  lookup s n path = walk s n (split_slash path) ∧
  (∀ p, lookup_step s n p =
     match dir_of s n with
     | None => Err NotADirectory
     | Some (q, ch) =>
         if decide (p = [] ∨ p = [DOT]) then Ok n
         else if decide (p = [DOT; DOT]) then ok_or (upgrade alive q) NotFound
         else ok_or (bt_get p ch) NotFound
     end).
Proof.
  split; [apply lookup_walk|]. intros p. unfold Vfs.lookup_step, parent_of.
  destruct (dir_of s n) as [[q ch]|] eqn:E; [|done]. rewrite ?E. done.
Qed.

(** ** Trees *)

(** Node identifiers are allocated in order, and children lie strictly below
    their directory. *)
Definition tree_ok (s : fs) : Prop :=
  (∀ n, (next_id s ≤ n)%nat → nodes s !! n = None) ∧
  ∃ rank : nid → nat, ∀ d q ch name c,
    dir_of s d = Some (q, ch) → bt_get name ch = Some c → (c < next_id s)%nat ∧ (rank d < rank c)%nat.

(** Walking down through proper names. *)
Lemma walk_fuel_down leaf name : ∀ ps fuel held s n d (rank : nid → nat),
  (∀ d q ch name c, dir_of s d = Some (q, ch) → bt_get name ch = Some c → (rank d < rank c)%nat) →
  (∀ v, v ∈ held → (rank v < rank n)%nat) →
  Forall proper ps → proper name → walk s n ps = Ok d → is_Some (dir_of s d) →
  (length (join (ps ++ [name])) < fuel)%nat →
  ∃ held', walk_fuel alive fuel held s n (join (ps ++ [name])) leaf = leaf held' d name ∧
    d ∉ held'.
Proof.
  induction ps as [|p ps IH]; intros fuel held s n d rank Hr Hh Hps Hn Hw Hd Hf.
  - injection Hw as ->. destruct fuel; [simpl in Hf; lia|]. exists held. split.
    + destruct Hd as [[q ch] Hd]. simpl. rewrite Hd, split_path_single by done. done.
    + intros Hin. specialize (Hh d Hin). lia.
  - apply Forall_cons in Hps as [Hp Hps]. destruct fuel as [|fuel]; [simpl in Hf; lia|].
    cbn [walk] in Hw. unfold Vfs.lookup_step in Hw.
    destruct (dir_of s n) as [[q ch]|] eqn:Ed; [|done].
    destruct Hp as (Hp1 & Hp2 & Hp3 & Hp4).
    rewrite decide_False in Hw by (unfold is_dot; naive_solver).
    rewrite decide_False in Hw by done.
    destruct (bt_get p ch) as [c|] eqn:Ec; [|done]. simpl in Hw.
    assert (∃ q ps', ps ++ [name] = q :: ps') as (q0 & ps' & Eq).
    { destruct ps; simpl; eauto. }
    cbn [app]. rewrite Eq. cbn [walk_fuel]. rewrite Ed.
    rewrite split_path_join by done.
    rewrite decide_False by (unfold is_dot; naive_solver). rewrite decide_False by done.
    rewrite Ec, <- Eq. apply (IH fuel _ s c d rank); try done.
    + intros v [->%elem_of_singleton|Hv]%elem_of_union.
      * by eapply Hr.
      * specialize (Hh v Hv). specialize (Hr n q ch p c Ed Ec). lia.
    + cbn [app] in Hf. rewrite Eq in *. cbn [join] in Hf. rewrite length_app in Hf. simpl in *. lia.
Qed.

Lemma dir_of_set_node s n nd m :
  dir_of (set_node n nd s) m =
    if decide (m = n) then match nd with RamDir p ch | DevDir p ch => Some (p, ch) | _ => None end
    else dir_of s m.
Proof.
  unfold dir_of, set_node. simpl. case_decide as Hd.
  - subst. by rewrite lookup_insert_eq.
  - by rewrite lookup_insert_ne.
Qed.

Lemma dir_of_alloc s nd m :
  dir_of (alloc_node nd s).2 m =
    if decide (m = next_id s) then match nd with RamDir p ch | DevDir p ch => Some (p, ch) | _ => None end
    else dir_of s m.
Proof. apply (dir_of_set_node s (next_id s) nd m). Qed.

Lemma lookup_step_ext s s' m m' p q ch :
  dir_of s m = Some (q, ch) → dir_of s' m' = Some (q, ch) → m = m' → lookup_step s m p = lookup_step s' m' p.
Proof. intros H1 H2 ->. unfold Vfs.lookup_step, parent_of. by rewrite H1, H2. Qed.

Lemma tree_dir_lt s n q ch : tree_ok s → dir_of s n = Some (q, ch) → (n < next_id s)%nat.
Proof.
  intros [Hb _] Hd. destruct (decide (n < next_id s)%nat) as [|Hge]; [done|].
  unfold dir_of in Hd. by rewrite Hb in Hd by lia.
Qed.

(** The node [create] makes. *)
Definition fresh_node (d : nid) (name : str) (ty : VfsNodeType) : node :=
  match ty with
  | TDir => RamDir (Some d) []
  | _ => if decide (name = lit "interrupts") then Interrupts else FileNode []
  end.

(** A state with one child added to [d]. *)
Definition with_child (s : fs) (d : nid) (p : option nid) (ch : list (str * nid)) (name : str)
    (nd : node) : fs :=
  set_node d (RamDir p (bt_insert name (next_id s) ch)) (alloc_node nd s).2.

Lemma with_child_step s d p ch name ty m q :
  tree_ok s → dir_of s d = Some (p, ch) → proper name → m ≠ next_id s →
  lookup_step (with_child s d p ch name (fresh_node d name ty)) m q =
    if decide (m = d ∧ q = name) then Ok (next_id s) else lookup_step s m q.
Proof.
  intros Ht Hd (H1 & H2 & H3 & _) Hm. unfold with_child, Vfs.lookup_step, parent_of.
  rewrite !dir_of_set_node, dir_of_alloc. destruct (decide (m = d)) as [->|Hne].
  - rewrite Hd. destruct (decide (q = name)) as [->|Hq].
    + rewrite (decide_True (P := d = d ∧ name = name)) by done.
      rewrite decide_False by (unfold is_dot; naive_solver).
      rewrite decide_False by done. by rewrite bt_get_insert_eq.
    + rewrite (decide_False (P := d = d ∧ q = name)) by naive_solver.
      by rewrite bt_get_insert_ne by done.
  - rewrite (decide_False (P := m = next_id s)) by done.
    by rewrite (decide_False (P := m = d ∧ q = name)) by naive_solver.
Qed.

Lemma with_child_tree s d p ch name ty :
  tree_ok s → dir_of s d = Some (p, ch) →
  tree_ok (with_child s d p ch name (fresh_node d name ty)).
Proof.
  intros Ht Hd. pose proof (tree_dir_lt s d p ch Ht Hd) as Hlt. pose proof Ht as [Hb [rank Hr]].
  split.
  - intros n Hn. unfold with_child in *. simpl in *. rewrite !lookup_insert_ne by lia.
    apply Hb. lia.
  - exists (λ n, if decide (n = next_id s) then S (rank d) else rank n).
    intros m q ch' nm c. unfold with_child. rewrite dir_of_set_node, dir_of_alloc.
    simpl next_id. destruct (decide (m = d)) as [->|Hm].
    + intros [= <- <-] Hg. rewrite (decide_False (P := d = next_id s)) by lia.
      destruct (decide (name = nm)) as [->|Hne].
      * rewrite bt_get_insert_eq in Hg. injection Hg as <-. rewrite decide_True by done. lia.
      * rewrite bt_get_insert_ne in Hg by done. destruct (Hr d p ch nm c Hd Hg).
        rewrite decide_False by lia. lia.
    + case_decide as Hnew.
      * destruct ty; simpl; try case_decide; try done; by intros [= <- <-].
      * intros Hdm Hg. destruct (Hr m q ch' nm c Hdm Hg). rewrite decide_False by lia. lia.
Qed.

Lemma split_join_proper ps name :
  Forall proper ps → proper name → split_slash (join (ps ++ [name])) = ps ++ [name].
Proof.
  intros Hps Hn. apply split_join; [by destruct ps|].
  apply Forall_app. split; [|apply Forall_singleton, Hn].
  eapply Forall_impl; [exact Hps|]. by intros ? (_ & _ & _ & ?).
Qed.

(** A proper name only leads down. *)
Lemma step_rank s (rank : nid → nat) n p m :
  (∀ d q ch name c, dir_of s d = Some (q, ch) → bt_get name ch = Some c → (rank d < rank c)%nat) →
  proper p → lookup_step s n p = Ok m → (rank n < rank m)%nat.
Proof.
  intros Hr (H1 & H2 & H3 & _). unfold Vfs.lookup_step.
  destruct (dir_of s n) as [[q ch]|] eqn:Ed; [|done].
  rewrite decide_False by (unfold is_dot; naive_solver). rewrite decide_False by done.
  destruct (bt_get p ch) as [c|] eqn:Ec; [|done]. intros [= <-]. by eapply Hr.
Qed.

Lemma walk_rank s (rank : nid → nat) ps : ∀ n x,
  (∀ d q ch name c, dir_of s d = Some (q, ch) → bt_get name ch = Some c → (rank d < rank c)%nat) →
  Forall proper ps → walk s n ps = Ok x → (rank n ≤ rank x)%nat.
Proof.
  induction ps as [|p ps IH]; intros n x Hr Hp Hw; [by injection Hw as ->|].
  apply Forall_cons in Hp as [Hp Hps]. cbn [walk] in Hw.
  destruct (lookup_step s n p) as [m| |] eqn:E; [|done..]. simpl in Hw.
  pose proof (step_rank s rank n p m Hr Hp E). specialize (IH m x Hr Hps Hw). lia.
Qed.

(** A walk down to [d] is not affected by a change of [d] itself. *)
Lemma walk_agree s s' d (rank : nid → nat) ps : ∀ n,
  (∀ d q ch name c, dir_of s d = Some (q, ch) → bt_get name ch = Some c → (rank d < rank c)%nat) →
  (∀ m q, m ≠ d → (∃ x, lookup_step s m q = Ok x) → lookup_step s' m q = lookup_step s m q) →
  Forall proper ps → walk s n ps = Ok d → walk s' n ps = Ok d.
Proof.
  induction ps as [|p ps IH]; intros n Hr Ha Hp Hw; [done|].
  apply Forall_cons in Hp as [Hp Hps]. cbn [walk] in *.
  destruct (lookup_step s n p) as [m| |] eqn:E; [|done..]. simpl in Hw.
  pose proof (step_rank s rank n p m Hr Hp E) as Hlt.
  pose proof (walk_rank s rank ps m d Hr Hps Hw) as Hle.
  rewrite Ha; [|intros ->; lia|eauto]. rewrite E. simpl. by apply IH.
Qed.

(** Creating a file or a directory at a path of proper names whose directory
    exists in the RAM file system: a taken name is [AlreadyExists]; otherwise the
    call succeeds, the new empty node is what [lookup] of the path returns, and
    the step from any other directory or under any other name is unchanged. *)
Theorem create_then_lookup (s : fs) (n d : nid) (p : option nid) (ch : list (str * nid))
    (ps : list str) (name : str) (ty : VfsNodeType) :
  tree_ok s → Forall proper ps → proper name → walk s n ps = Ok d →
  nodes s !! d = Some (RamDir p ch) → ty = TFile ∨ ty = TDir →
  let path := join (ps ++ [name]) in
  match bt_get name ch with
  | Some _ => create alive s n path ty = Some (Err AlreadyExists)
  | None =>
      ∃ s', create alive s n path ty = Some (Ok s') ∧ tree_ok s' ∧
        lookup s' n path = Ok (next_id s) ∧
        nodes s' !! next_id s = Some (fresh_node d name ty) ∧
        ∀ m q, m ≠ next_id s → ¬ (m = d ∧ q = name) → lookup_step s' m q = lookup_step s m q
  end.
Proof.
  intros Ht Hps Hn Hw Hd Hty path. pose proof Ht as [_ [rank Hr]].
  assert (dir_of s d = Some (p, ch)) as Hdir by (unfold dir_of; by rewrite Hd).
  pose proof (tree_dir_lt _ _ _ _ Ht Hdir) as Hlt.
  destruct (walk_fuel_down (create_leaf ty s) name ps (S (length path)) ∅ s n d rank)
    as (held & Hwf & Hnh); try done; try lia.
  { intros. by eapply Hr. }
  { set_solver. }
  unfold create. fold path in Hwf. rewrite Hwf. unfold create_leaf. rewrite Hd.
  pose proof Hn as (H1 & H2 & H3 & H4).
  rewrite decide_False by (unfold is_dot, is_dotdot; naive_solver).
  unfold create_node, bt_contains_key. destruct (bt_get name ch) as [c|] eqn:Eg.
  { by rewrite bool_decide_eq_true_2. }
  rewrite bool_decide_eq_false_2 by (by intros [? ?]).
  exists (with_child s d p ch name (fresh_node d name ty)). split_and!.
  - destruct Hty as [-> | ->]; by rewrite decide_False.
  - by apply with_child_tree.
  - rewrite lookup_walk. unfold path. rewrite split_join_proper by done. rewrite walk_app.
    rewrite (walk_agree s _ d rank ps n); try done.
    + simpl. rewrite with_child_step by (done || lia). by rewrite decide_True.
    + intros. by eapply Hr.
    + intros m q Hm [x Hx]. rewrite with_child_step; try done.
      * by rewrite decide_False by naive_solver.
      * intros ->. unfold Vfs.lookup_step in Hx.
        destruct (dir_of s (next_id s)) as [[? ?]|] eqn:Ed; [|done].
        pose proof (tree_dir_lt _ _ _ _ Ht Ed). lia.
  - unfold with_child. simpl. rewrite lookup_insert_ne by lia. by rewrite lookup_insert_eq.
  - intros m q Hm Hmq. rewrite with_child_step by done. by rewrite decide_False.
Qed.

(** Removing a node at a path of proper names in the RAM file system: a
    missing name is [NotFound], a directory with children is
    [DirectoryNotEmpty]; otherwise the call succeeds, [lookup] of the path is
    then [NotFound], and every other step is unchanged. *)
Theorem remove_then_lookup (s : fs) (n d : nid) (p : option nid) (ch : list (str * nid))
    (ps : list str) (name : str) :
  tree_ok s → Forall proper ps → proper name → walk s n ps = Ok d →
  nodes s !! d = Some (RamDir p ch) → bt_sorted ch →
  let path := join (ps ++ [name]) in
  match bt_get name ch with
  | None => remove alive s n path = Some (Err NotFound)
  | Some c =>
      match nodes s !! c with
      | Some (RamDir _ (_ :: _)) => remove alive s n path = Some (Err DirectoryNotEmpty)
      | _ => ∃ s', remove alive s n path = Some (Ok s') ∧ tree_ok s' ∧
               lookup s' n path = Err NotFound ∧
               ∀ m q, ¬ (m = d ∧ q = name) → lookup_step s' m q = lookup_step s m q
      end
  end.
Proof.
  intros Ht Hps Hn Hw Hd Hs path. pose proof Ht as [Hb [rank Hr]].
  assert (dir_of s d = Some (p, ch)) as Hdir by (unfold dir_of; by rewrite Hd).
  destruct (walk_fuel_down (remove_leaf s) name ps (S (length path)) ∅ s n d rank)
    as (held & Hwf & Hnh); try done; try lia.
  { intros. by eapply Hr. }
  { set_solver. }
  unfold remove. fold path in Hwf. rewrite Hwf. unfold remove_leaf. rewrite Hd.
  pose proof Hn as (H1 & H2 & H3 & H4).
  rewrite decide_False by (unfold is_dot, is_dotdot; naive_solver).
  unfold remove_node. rewrite decide_False by done.
  destruct (bt_get name ch) as [c|] eqn:Eg; [|done].
  assert (∃ s', Some (Ok (set_node d (RamDir p (bt_remove name ch)) s)) = Some (Ok s') ∧
    tree_ok s' ∧ lookup s' n path = Err NotFound ∧
    ∀ m q, ¬ (m = d ∧ q = name) → lookup_step s' m q = lookup_step s m q) as Hok.
  { eexists. split; [done|]. set (s' := set_node _ _ _).
    assert (∀ m q, lookup_step s' m q =
      if decide (m = d ∧ q = name) then Err NotFound else lookup_step s m q) as Hstep.
    { intros m q. unfold Vfs.lookup_step, parent_of, s'. rewrite !dir_of_set_node.
      destruct (decide (m = d)) as [->|Hne].
      - rewrite Hdir. destruct (decide (q = name)) as [->|Hq].
        + rewrite (decide_True (P := d = d ∧ name = name)) by done.
          rewrite decide_False by (unfold is_dot; naive_solver).
          rewrite decide_False by done. by rewrite bt_get_remove_eq.
        + rewrite (decide_False (P := d = d ∧ q = name)) by naive_solver.
          by rewrite bt_get_remove_ne by done.
      - by rewrite (decide_False (P := m = d ∧ q = name)) by naive_solver. }
    split_and!.
    - split.
      + intros m Hm. unfold s'. simpl in *. pose proof (tree_dir_lt _ _ _ _ Ht Hdir).
        rewrite lookup_insert_ne by lia. by apply Hb.
      + exists rank. intros m q ch' nm c'. unfold s'. rewrite dir_of_set_node.
        case_decide as Hm; [subst m; intros [= <- <-] Hg|by apply Hr].
        apply (Hr d p ch nm c' Hdir). destruct (decide (name = nm)) as [->|Hne].
        * by rewrite bt_get_remove_eq in Hg.
        * by rewrite bt_get_remove_ne in Hg.
    - rewrite lookup_walk. unfold path. rewrite split_join_proper by done. rewrite walk_app.
      rewrite (walk_agree s s' d rank ps n); try done.
      + simpl. rewrite Hstep. by rewrite decide_True.
      + intros. by eapply Hr.
      + intros m q Hm _. rewrite Hstep. by rewrite decide_False by naive_solver.
    - intros m q Hmq. rewrite Hstep. by rewrite decide_False. }
  by destruct (nodes s !! c) as [[? [|]| | | | |]|].
Qed.

(** [create] and [remove] keep the read guard of a directory while they
    work in its subdirectory, so a path that comes back with [..] asks for the
    write lock of a directory the same call still reads: the call never
    returns. *)
Theorem create_through_dotdot_hangs (s : fs) (n a : nid) (p : option nid)
    (ch cha : list (str * nid)) (x b : str) (ty : VfsNodeType) :
  nodes s !! n = Some (RamDir p ch) → nodes s !! a = Some (RamDir (Some n) cha) →
  alive n = true → proper x → proper b → bt_get x ch = Some a → bt_get b ch = None →
  ty = TFile ∨ ty = TDir →
  create alive s n (join [x; [DOT; DOT]; b]) ty = None ∧
  remove alive s n (join [x; [DOT; DOT]; b]) = None.
Proof.
  intros Hn Ha Hal Hx Hb Hxa Hbn Hty.
  assert (split_path (join [[DOT; DOT]; b]) = ([DOT; DOT], Some b)) as Hdd by done.
  assert (∀ leaf, walk_fuel alive (S (length (join [x; [DOT; DOT]; b]))) ∅ s n
                    (join [x; [DOT; DOT]; b]) leaf = leaf ({[ n ]} ∪ ∅) n b) as Hw.
  { intros leaf.
    assert (∃ k, length (join [x; [DOT; DOT]; b]) = S (S k)) as [k ->].
    { simpl. rewrite length_app. simpl. eexists. rewrite Nat.add_comm. done. }
    assert (dir_of s n = Some (p, ch)) as Hdn by (unfold dir_of; by rewrite Hn).
    assert (dir_of s a = Some (Some n, cha)) as Hda by (unfold dir_of; by rewrite Ha).
    pose proof Hx as (H1 & H2 & H3 & _).
    cbn [walk_fuel]. rewrite Hdn, split_path_join by done.
    rewrite decide_False by (unfold is_dot; naive_solver). rewrite decide_False by done.
    rewrite Hxa, Hda, Hdd. rewrite decide_False by (unfold is_dot; naive_solver).
    rewrite decide_True by done. unfold parent_of. rewrite Hda. unfold upgrade. rewrite Hal.
    by rewrite Hdn, split_path_single. }
  pose proof Hb as (H1 & H2 & H3 & _). unfold create, remove. rewrite !Hw.
  unfold create_leaf, remove_leaf. rewrite Hn.
  rewrite !decide_False by (unfold is_dot, is_dotdot; naive_solver).
  unfold create_node, remove_node, bt_contains_key. rewrite Hbn.
  rewrite bool_decide_eq_false_2 by (by intros [? ?]).
  assert (n ∈ ({[ n ]} ∪ ∅ : gset nat)) as Hin by (by apply elem_of_union_l, elem_of_singleton).
  destruct Hty as [-> | ->]; split; by rewrite (decide_True (P := n ∈ _)).
Qed.

(** ** Files *)

(** A file of the RAM file system stores what is written: reading back the
    written range returns the data, a gap left by writing beyond the end reads
    as zeroes, every other byte is unchanged, and the size grows to the end of
    the write when needed. *)
Theorem write_then_read (s : fs) (n : nid) (content buf : list Z) (offset : Z) :
  nodes s !! n = Some (FileNode content) → 0 ≤ offset →
  offset + Z.of_nat (length buf) < 2 ^ 63 → Z.of_nat (length content) < 2 ^ 63 →
  ∃ s' content', write_at s n offset buf = Ok (Z.of_nat (length buf), s') ∧
    nodes s' !! n = Some (FileNode content') ∧
    read_at s' n offset (length buf) = Ok buf ∧
    Z.of_nat (length content') = Z.max (Z.of_nat (length content)) (offset + Z.of_nat (length buf)) ∧
    (∀ i, (i < length content')%nat → ¬ (offset ≤ Z.of_nat i < offset + Z.of_nat (length buf)) →
       content' !! i = Some (default 0 (content !! i))).
Proof.
  intros Hn Hoff Hend Hlen. unfold write_at. rewrite Hn.
  rewrite wrap64_small by (unfold is_u64, two64; lia).
  set (content1 := if decide (offset + Z.of_nat (length buf) > Z.of_nat (length content))
    then content ++ replicate (Z.to_nat (offset + Z.of_nat (length buf)) - length content) 0
    else content).
  assert ((if decide (offset + Z.of_nat (length buf) > Z.of_nat (length content))
           then resize content (offset + Z.of_nat (length buf)) else Ok content) = Ok content1) as ->.
  { unfold content1. case_decide; [|done]. unfold resize. rewrite decide_True by lia.
    by rewrite take_ge by lia. }
  assert (length content1 = Nat.max (length content) (Z.to_nat (offset + Z.of_nat (length buf)))) as Hl1.
  { unfold content1. case_decide; rewrite ?length_app, ?length_replicate; lia. }
  rewrite bind_Ok, decide_True by lia.
  set (content' := take _ _ ++ _). eexists _, content'. split; [done|]. split.
  { simpl. by rewrite lookup_insert_eq. }
  assert (length content' = length content1) as Hl'.
  { unfold content'. rewrite !length_app, length_take, length_drop. lia. }
  split; [|split].
  - unfold read_at. simpl. rewrite lookup_insert_eq, wrap64_small by (unfold is_u64, two64; lia).
    rewrite !Z.min_r by lia. rewrite decide_True by lia. f_equal. unfold content'.
    rewrite drop_app_le by (rewrite length_take; lia).
    rewrite drop_ge by (rewrite length_take; lia). simpl.
    rewrite take_app_le by lia. rewrite take_ge by lia. done.
  - lia.
  - intros i Hi Hout.
    assert (content' !! i = content1 !! i) as ->.
    { unfold content'. destruct (decide (i < Z.to_nat offset)%nat).
      - rewrite lookup_app_l by (rewrite length_take; lia). by rewrite lookup_take_lt.
      - rewrite lookup_app_r by (rewrite length_take; lia). rewrite length_take.
        rewrite lookup_app_r by lia. rewrite lookup_drop. f_equal. lia. }
    unfold content1. case_decide as Hd.
    + destruct (decide (i < length content)%nat) as [Hlt|Hge].
      * rewrite lookup_app_l by lia. destruct (lookup_lt_is_Some_2 _ _ Hlt) as [c Hc]. by rewrite Hc.
      * rewrite lookup_app_r by lia. rewrite (lookup_ge_None_2 content) by lia. simpl.
        apply lookup_replicate. lia.
    + destruct (lookup_lt_is_Some_2 content i) as [c Hc]; [lia|]. by rewrite Hc.
Qed.

(** ** Directory listing *)

(** The entry of one child. *)
Definition child_entry (s : fs) (e : str * nid) (d : VfsDirEntry) : Prop :=
  ∃ attr, get_attr e.2 s = Ok attr ∧ dirent_new e.1 (at_ty attr) = Ok d.

Lemma read_dir_children s start_idx es : ∀ ch slots i,
  Forall2 (child_entry s) ch es → 0 ≤ start_idx → 2 ≤ Z.of_nat i + start_idx →
  Z.of_nat i + start_idx + Z.of_nat slots < two64 →
  read_dir_loop slots i start_idx ch s = Ok (take slots es).
Proof.
  intros ch slots i Hf. revert slots i.
  induction Hf as [|[name c] e ch es (attr & Ha & He) Hf IH]; intros [|slots] i Hs Hi Hlt; try done;
    cbn [read_dir_loop]; rewrite wrap64_small by (unfold is_u64; lia);
    rewrite !decide_False by lia; [done|].
  simpl in Ha, He. rewrite Ha. simpl. rewrite He. simpl. rewrite IH by lia. done.
Qed.

Lemma read_dir_dot slots i start_idx ch s :
  Z.of_nat i + start_idx = 0 →
  read_dir_loop (S slots) i start_idx ch s =
    (e ← dirent_new [DOT] TDir; es ← read_dir_loop slots (S i) start_idx ch s; Ok (e :: es)).
Proof. intros Hi. cbn [read_dir_loop]. by rewrite Hi. Qed.

Lemma read_dir_dotdot slots i start_idx ch s :
  Z.of_nat i + start_idx = 1 →
  read_dir_loop (S slots) i start_idx ch s =
    (e ← dirent_new [DOT; DOT] TDir; es ← read_dir_loop slots (S i) start_idx ch s; Ok (e :: es)).
Proof. intros Hi. cbn [read_dir_loop]. by rewrite Hi. Qed.

(** Listing a directory from any index into any number of places returns that
    window of the list [.], [..], then the children in name order with their
    types: no entry is skipped or repeated by successive calls. *)
Theorem read_dir_window (s : fs) (n : nid) (p : option nid) (ch : list (str * nid))
    (es : list VfsDirEntry) (start_idx : Z) (slots : nat) (e1 e2 : VfsDirEntry) :
  dir_of s n = Some (p, ch) → Forall2 (child_entry s) ch es →
  dirent_new [DOT] TDir = Ok e1 → dirent_new [DOT; DOT] TDir = Ok e2 →
  0 ≤ start_idx → start_idx + Z.of_nat slots < two64 →
  read_dir s n start_idx slots = Ok (take slots (drop (Z.to_nat start_idx) (e1 :: e2 :: es))).
Proof.
  intros Hd Hf He1 He2 Hs Hlt. unfold read_dir. rewrite Hd.
  destruct (decide (2 ≤ start_idx)) as [H2|H2].
  - rewrite (read_dir_children s start_idx (drop (Z.to_nat (start_idx - 2)) es)); try lia.
    + do 2 f_equal. replace (Z.to_nat start_idx) with (S (S (Z.to_nat (start_idx - 2)))) by lia. done.
    + rewrite Z.max_l by lia. by apply Forall2_drop.
  - rewrite Z.max_r by lia. simpl drop at 1.
    assert (start_idx = 0 ∨ start_idx = 1) as [->| ->] by lia.
    + destruct slots as [|slots]; [done|].
      rewrite read_dir_dot, He1, bind_Ok by done. destruct slots as [|slots]; [done|].
      rewrite read_dir_dotdot, He2, bind_Ok by done.
      by rewrite (read_dir_children s 0 es) by (done || lia).
    + destruct slots as [|slots]; [done|].
      rewrite read_dir_dotdot, He2, bind_Ok by done.
      by rewrite (read_dir_children s 1 es) by (done || lia).
Qed.

End props.

Lemma name_as_bytes_app bs : ∀ k, 0 ∉ bs → name_as_bytes (bs ++ replicate k 0) = bs.
Proof.
  induction bs as [|b bs IH]; intros k Hb; simpl; [by destruct k|].
  rewrite decide_False by set_solver. f_equal. apply IH. set_solver.
Qed.

Lemma utf8_nonzero s : Forall (λ c, 0 < c < 1114112) s → 0 ∉ utf8 s.
Proof.
  intros Hs Hin. unfold utf8 in Hin. apply list_elem_of_bind in Hin as (c & Hc & Hcs).
  rewrite Forall_forall in Hs. specialize (Hs c Hcs). unfold utf8_char in Hc.
  repeat case_decide; repeat (apply elem_of_cons in Hc as [Hc|Hc]; [mlia|]);
    by apply elem_of_nil in Hc.
Qed.

(** A directory entry gives back its name and type when the name fits in 63
    bytes of UTF-8 without a zero; a longer name, which the code only warns
    about, makes [VfsDirEntry::new] panic. *)
Theorem dirent_roundtrip (name : str) (ty : VfsNodeType) :
  Forall (λ c, 0 < c < 1114112) name →
  if decide (length (utf8 name) ≤ 63)%nat
  then ∃ d, dirent_new name ty = Ok d ∧ name_as_bytes (d_name d) = utf8 name ∧ d_type d = ty
  else dirent_new name ty = Panic.
Proof.
  intros Hn. unfold dirent_new, DIRENT_NAME. case_decide as Hl.
  - rewrite decide_False by lia. eexists. split; [done|]. split; [|done]. cbn [d_name].
    by apply (name_as_bytes_app _ _ (utf8_nonzero _ Hn)).
  - by rewrite decide_True by lia.
Qed.

Lemma dirent_roundtrip_witness :
  dirent_new (replicate 64 97) TFile = Panic ∧
  ∃ d, dirent_new [233; 97] TDir = Ok d ∧ name_as_bytes (d_name d) = [195; 169; 97] ∧ d_type d = TDir.
Proof.
  split.
  - apply (dirent_roundtrip (replicate 64 97) TFile). apply Forall_replicate. lia.
  - apply (dirent_roundtrip [233; 97] TDir). repeat (apply Forall_cons_2; [lia|]). apply Forall_nil_2.
Defined.

(** ** Witnesses *)

(** A root with one empty directory [a] and one file [f]. *)
Definition demo_fs : fs :=
  {| nodes := {[ 0%nat := RamDir None [(lit "a", 1%nat); (lit "f", 2%nat)];
                 1%nat := RamDir (Some 0%nat) []; 2%nat := FileNode [1; 2; 3] ]};
     next_id := 3; counters := [] |}.

Lemma lit_proper s : bool_decide (proper s) = true → proper s.
Proof. by intros H%bool_decide_eq_true_1. Qed.

Lemma demo_dir d q ch : dir_of demo_fs d = Some (q, ch) →
  d = 0%nat ∧ ch = [(lit "a", 1%nat); (lit "f", 2%nat)] ∨ d = 1%nat ∧ ch = [].
Proof.
  destruct d as [|[|[|d]]]; intros E.
  - left. split; [done|]. vm_compute in E. by injection E as <- <-.
  - right. split; [done|]. vm_compute in E. by injection E as <- <-.
  - by vm_compute in E.
  - exfalso. revert E. unfold dir_of, demo_fs. simpl nodes. by rewrite !lookup_insert_ne, lookup_singleton_ne by done.
Qed.

Lemma demo_tree : tree_ok demo_fs.
Proof.
  split.
  - intros n Hn. simpl in *. by rewrite !lookup_insert_ne, lookup_singleton_ne by lia.
  - exists (λ n, n). intros d q ch name c [[-> ->]|[-> ->]]%demo_dir; [|done].
    intros Hg%bt_get_elem. repeat (apply elem_of_cons in Hg as [[= _ ->]|Hg]; [simpl; lia|]).
    by apply elem_of_nil in Hg.
Qed.

Lemma create_then_lookup_witness :
  ∃ s', create (λ _, true) demo_fs 0 (join [lit "a"; lit "b"]) TFile = Some (Ok s') ∧ tree_ok s' ∧
    lookup (λ _, true) s' 0 (join [lit "a"; lit "b"]) = Ok 3%nat.
Proof.
  destruct (create_then_lookup (λ _, true) demo_fs 0 1 (Some 0%nat) [] [lit "a"] (lit "b") TFile)
    as (s' & ? & ? & ? & _).
  - apply demo_tree.
  - apply Forall_singleton, lit_proper. by vm_compute.
  - apply lit_proper. by vm_compute.
  - by vm_compute.
  - done.
  - by left.
  - by exists s'.
Defined.

Lemma remove_then_lookup_witness :
  ∃ s', remove (λ _, true) demo_fs 0 (join [lit "a"]) = Some (Ok s') ∧ tree_ok s' ∧
    lookup (λ _, true) s' 0 (join [lit "a"]) = Err NotFound.
Proof.
  destruct (remove_then_lookup (λ _, true) demo_fs 0 0 None [(lit "a", 1%nat); (lit "f", 2%nat)]
    [] (lit "a")) as (s' & ? & ? & ? & _).
  - apply demo_tree.
  - done.
  - apply lit_proper. by vm_compute.
  - done.
  - done.
  - constructor; [constructor; constructor|]. apply Forall_singleton. by left.
  - by exists s'.
Defined.

Lemma create_through_dotdot_hangs_witness :
  create (λ _, true) demo_fs 0 (lit "a/../b") TFile = None.
Proof.
  apply (create_through_dotdot_hangs (λ _, true) demo_fs 0 1 None
    [(lit "a", 1%nat); (lit "f", 2%nat)] [] (lit "a") (lit "b") TFile);
    try done; try (apply lit_proper; by vm_compute). by left.
Defined.

Lemma write_then_read_witness :
  ∃ s' content', write_at demo_fs 2 5 [7; 8] = Ok (2, s') ∧
    nodes s' !! 2%nat = Some (FileNode content') ∧ read_at s' 2 5 2 = Ok [7; 8].
Proof.
  destruct (write_then_read demo_fs 2 [1; 2; 3] [7; 8] 5) as (s' & c' & ? & ? & ? & _);
    [done..|]. by exists s', c'.
Defined.

Lemma read_dir_window_witness :
  ∃ es, read_dir demo_fs 0 1 2 = Ok (take 2 (drop 1 es)) ∧ length es = 4%nat.
Proof.
  destruct (dirent_new [DOT] TDir) as [e1| |] eqn:E1; [|done..].
  destruct (dirent_new [DOT; DOT] TDir) as [e2| |] eqn:E2; [|done..].
  destruct (dirent_new (lit "a") TDir) as [e3| |] eqn:E3; [|done..].
  destruct (dirent_new (lit "f") TFile) as [e4| |] eqn:E4; [|done..].
  exists [e1; e2; e3; e4]. split; [|done].
  apply (read_dir_window demo_fs 0 None [(lit "a", 1%nat); (lit "f", 2%nat)] [e3; e4] 1 2 e1 e2);
    try done.
  apply Forall2_cons. split; [by exists (attr_new_dir 4096 0)|].
  apply Forall2_cons. split; [by exists (attr_new_file 3 0)|]. by apply Forall2_nil.
Defined.
