(* ===== verification/RootFs.v ===== *)
(** The root directory and its mount table ([modules/async_fs/src/root.rs]).

    A node reference is a node of the store of [Vfs], or the root directory
    itself, which dispatches to the mounted file systems.  Every mounted file
    system, the main one included, is given by the root node of its tree.
    [None] in a result means that the call spins for ever on a directory lock
    ([Vfs.create], [Vfs.remove]). *)

From S2P Require Import Prelude BTree Path Vfs.

Inductive vnode := VRoot | VNode (n : nid).

Record MountPoint := { mp_path : str; mp_root : nid; mp_once : option nid }.
Record RootDirectory := { main_fs : nid; mounts : list MountPoint }.

(** [ROOT_DIR], [CURRENT_DIR], [CURRENT_DIR_PATH] and the node store. *)
Record gfs := { store : fs; root_dir : RootDirectory; cur_dir : vnode; cur_path : str }.

Definition with_store (g : gfs) (s : fs) : gfs :=
  {| store := s; root_dir := root_dir g; cur_dir := cur_dir g; cur_path := cur_path g |}.

(** Sequencing of calls that may fail, panic or never return. *)
Definition hbind {A B} (x : option (outcome A)) (f : A → option (outcome B)) : option (outcome B) :=
  match x with
  | None => None
  | Some (Ok a) => f a
  | Some (Err e) => Some (Err e)
  | Some Panic => Some Panic
  end.
Notation "'let!' x ':=' e 'in' k" := (hbind e (λ x, k))
  (at level 200, x name, e at level 100, k at level 200).

(** [trim_matches('/')]. *)
Definition trim_slashes (s : str) : str :=
  reverse (trim_start_slash (reverse (trim_start_slash s))).
Definition ends_with_slash (s : str) : bool :=
  match last s with Some c => bool_decide (c = SLASH) | None => false end.

(** [str::starts_with] and [strip_prefix]. *)
Fixpoint strip (pre s : str) : option str :=
  match pre, s with
  | [], _ => Some s
  | c :: pre, d :: s => if decide (c = d) then strip pre s else None
  | _ :: _, [] => None
  end.
Definition starts_with (pre s : str) : bool := bool_decide (is_Some (strip pre s)).
Definition ends_with (suf s : str) : bool := starts_with (reverse suf) (reverse s).

(** The scan of [lookup_mounted_fs]: the index and length of the best match.
    [mp.path[1..]] drops the leading slash. *)
Fixpoint mount_scan (path : str) (i : nat) (ms : list MountPoint) (best : nat * nat) : nat * nat :=
  match ms with
  | [] => best
  | mp :: ms =>
      let p := tail (mp_path mp) in
      let prev := p ++ [SLASH] in
      let '(idx, max_len) := best in
      if starts_with p path &&
         (bool_decide (length path = length prev - 1)%nat || starts_with prev path) &&
         bool_decide (max_len < length prev)%nat
      then mount_scan path (S i) ms (i, length (mp_path mp) - 1)%nat
      else mount_scan path (S i) ms best
  end.

(** [lookup_mounted_fs] up to the call of [f]: the root node of the chosen file
    system and the rest of the path.  Stripping a leading [./] shortens the
    path, so its length is enough fuel. *)
Fixpoint mounted_fuel (fuel : nat) (r : RootDirectory) (path : str) : outcome (nid * str) :=
  match fuel with
  | O => Panic
  | S fuel =>
      let path := trim_slashes path in
      match strip [DOT; SLASH] path with
      | Some rest => mounted_fuel fuel r rest
      | None =>
          let '(idx, max_len) := mount_scan path 0 (mounts r) (0, 0)%nat in
          if decide (max_len = 0%nat) then Ok (main_fs r, path)
          else match mounts r !! idx with
               | Some mp => Ok (mp_root mp, drop max_len path)
               | None => Panic
               end
      end
  end.
Definition lookup_mounted_fs (r : RootDirectory) (path : str) : outcome (nid * str) :=
  mounted_fuel (S (length path)) r path.

Section root.
Context (alive : nid → bool).

(** ** [VfsNodeOps] on node references *)

Definition vlookup (g : gfs) (v : vnode) (path : str) : outcome vnode :=
  match v with
  | VRoot =>
      '(n, rest) ← lookup_mounted_fs (root_dir g) path;
      m ← lookup alive (store g) n rest; Ok (VNode m)
  | VNode n => m ← lookup alive (store g) n path; Ok (VNode m)
  end.

Definition vget_attr (g : gfs) (v : vnode) : outcome VfsNodeAttr :=
  match v with
  | VRoot => get_attr (main_fs (root_dir g)) (store g)
  | VNode n => get_attr n (store g)
  end.

Definition in_store (g : gfs) (x : option (outcome fs)) : option (outcome gfs) :=
  let! s := x in Some (Ok (with_store g s)).

Definition vcreate (g : gfs) (v : vnode) (path : str) (ty : VfsNodeType) : option (outcome gfs) :=
  match v with
  | VRoot =>
      match lookup_mounted_fs (root_dir g) path with
      | Ok (n, rest) =>
          if decide (rest = []) then Some (Ok g)
          else in_store g (create alive (store g) n rest ty)
      | Err e => Some (Err e)
      | Panic => Some Panic
      end
  | VNode n => in_store g (create alive (store g) n path ty)
  end.

Definition vremove (g : gfs) (v : vnode) (path : str) : option (outcome gfs) :=
  match v with
  | VRoot =>
      match lookup_mounted_fs (root_dir g) path with
      | Ok (n, rest) =>
          if decide (rest = []) then Some (Err PermissionDenied)
          else in_store g (remove alive (store g) n rest)
      | Err e => Some (Err e)
      | Panic => Some Panic
      end
  | VNode n => in_store g (remove alive (store g) n path)
  end.

(** [poll_rename]: the RAM and device nodes keep the trait's default. *)
Definition vrename (g : gfs) (v : vnode) (src dst : str) : option (outcome gfs) :=
  match v with
  | VRoot =>
      match lookup_mounted_fs (root_dir g) src with
      | Ok (_, rest) => Some (Err (if decide (rest = []) then PermissionDenied else Unsupported))
      | Err e => Some (Err e)
      | Panic => Some Panic
      end
  | VNode _ => Some (Err Unsupported)
  end.

(** ** The mount table *)

Definition root_contains (r : RootDirectory) (path : str) : bool :=
  existsb (λ mp, bool_decide (mp_path mp = path)) (mounts r).

(** [RootDirectory::mount] of the file system with root [froot] and parent
    cell [once]. *)
Definition mount (r : RootDirectory) (path : str) (froot : nid) (once : option nid) (s : fs)
    : option (outcome (RootDirectory * fs)) :=
  if decide (path = [SLASH]) then Some (Err InvalidInput)
  else if negb (starts_with_slash path) then Some (Err InvalidInput)
  else if root_contains r path then Some (Err InvalidInput)
  else
    let! s := create alive s (main_fs r) path TDir in
    let! mp := Some (lookup alive s (main_fs r) path) in
    let '(once, s) := fs_mount alive froot once mp s in
    Some (Ok ({| main_fs := main_fs r;
                 mounts := mounts r ++ [{| mp_path := path; mp_root := froot; mp_once := once |}] |},
              s)).

Definition umount (r : RootDirectory) (path : str) : RootDirectory :=
  {| main_fs := main_fs r; mounts := filter (λ mp, mp_path mp ≠ path) (mounts r) |}.

(** ** Path operations of the process *)

Definition parent_node_of (g : gfs) (dir : option vnode) (path : str) : vnode :=
  if starts_with_slash path then VRoot
  else match dir with None => cur_dir g | Some d => d end.

Definition absolute_path (g : gfs) (path : str) : outcome str :=
  if starts_with_slash path then canonicalize path
  else canonicalize (cur_path g ++ path).

Definition fs_lookup (g : gfs) (dir : option vnode) (path : str) : outcome vnode :=
  if decide (path = []) then Err NotFound else
  node ← vlookup g (parent_node_of g dir path) path;
  if ends_with_slash path then
    attr ← vget_attr g node;
    if negb (type_is_dir (at_ty attr)) then Err NotADirectory else Ok node
  else Ok node.

Definition create_file (g : gfs) (dir : option vnode) (path : str) : option (outcome (vnode * gfs)) :=
  if decide (path = []) then Some (Err NotFound)
  else if ends_with_slash path then Some (Err NotADirectory)
  else
    let parent := parent_node_of g dir path in
    let! g := vcreate g parent path TFile in
    let! v := Some (vlookup g parent path) in
    Some (Ok (v, g)).

Definition create_dir (g : gfs) (dir : option vnode) (path : str) : option (outcome gfs) :=
  match fs_lookup g dir path with
  | Ok _ => Some (Err AlreadyExists)
  | Err NotFound => vcreate g (parent_node_of g dir path) path TDir
  | Err e => Some (Err e)
  | Panic => Some Panic
  end.

Definition remove_file (g : gfs) (dir : option vnode) (path : str) : option (outcome gfs) :=
  let! node := Some (fs_lookup g dir path) in
  let! attr := Some (vget_attr g node) in
  if type_is_dir (at_ty attr) then Some (Err IsADirectory)
  else if negb (owner_writable (at_mode attr)) then Some (Err PermissionDenied)
  else vremove g (parent_node_of g dir path) path.

Definition remove_dir (g : gfs) (dir : option vnode) (path : str) : option (outcome gfs) :=
  if decide (path = []) then Some (Err NotFound) else
  let path_check := trim_slashes path in
  if decide (path_check = []) then Some (Err DirectoryNotEmpty)
  else if decide (path_check = [DOT] ∨ path_check = [DOT; DOT] ∨
                  ends_with [SLASH; DOT] path_check = true ∨
                  ends_with [SLASH; DOT; DOT] path_check = true)
  then Some (Err InvalidInput)
  else
    let! abs := Some (absolute_path g path) in
    if root_contains (root_dir g) abs then Some (Err PermissionDenied)
    else
      let! node := Some (fs_lookup g dir path) in
      let! attr := Some (vget_attr g node) in
      if negb (type_is_dir (at_ty attr)) then Some (Err NotADirectory)
      else if negb (owner_writable (at_mode attr)) then Some (Err PermissionDenied)
      else vremove g (parent_node_of g dir path) path.

Definition set_current_dir (g : gfs) (path : str) : outcome gfs :=
  abs_path ← absolute_path g path;
  let abs_path := if negb (ends_with_slash abs_path) then abs_path ++ [SLASH] else abs_path in
  if decide (abs_path = [SLASH]) then
    Ok {| store := store g; root_dir := root_dir g; cur_dir := VRoot; cur_path := [SLASH] |}
  else
    node ← fs_lookup g None abs_path;
    attr ← vget_attr g node;
    if negb (type_is_dir (at_ty attr)) then Err NotADirectory
    else if negb (owner_executable (at_mode attr)) then Err PermissionDenied
    else Ok {| store := store g; root_dir := root_dir g; cur_dir := node; cur_path := abs_path |}.

Definition rename (g : gfs) (old new : str) : option (outcome gfs) :=
  let! g := (match vlookup g (parent_node_of g None new) new with
             | Ok _ => remove_file g None new
             | Err _ => Some (Ok g)
             | Panic => Some Panic
             end) in
  vrename g (parent_node_of g None old) old new.

(** ** The mount table: the longest mounted prefix wins *)

(** A mount path covers a (trimmed) path when it is a prefix by components. *)
Definition mp_covers (mp : MountPoint) (path : str) : Prop :=
  path = tail (mp_path mp) ∨ ∃ rest, path = tail (mp_path mp) ++ SLASH :: rest.

Definition mounts_ok (r : RootDirectory) : Prop :=
  NoDup (mp_path <$> mounts r) ∧
  Forall (λ mp, ∃ c p, mp_path mp = SLASH :: c :: p) (mounts r).

Lemma strip_spec pre : ∀ s, match strip pre s with
  | Some r => s = pre ++ r | None => ¬ ∃ r, s = pre ++ r end.
Proof.
  induction pre as [|c pre IH]; intros [|d s]; simpl; try done.
  - intros [r ?]. done.
  - case_decide as Hc.
    + subst. specialize (IH s). destruct (strip pre s) as [r|]; [by subst|].
      intros [r [= ->]]. apply IH. eauto.
    + intros [r [= -> _]]. done.
Qed.

Lemma starts_with_spec pre s : starts_with pre s = true ↔ ∃ r, s = pre ++ r.
Proof.
  unfold starts_with. rewrite bool_decide_eq_true. pose proof (strip_spec pre s) as Hs.
  destruct (strip pre s) as [r|]; [split; eauto|]. split; [by intros [? ?]|]. intros Hr. done.
Qed.

(** The test of the scan decides [mp_covers]. *)
Lemma scan_test path mp :
  (starts_with (tail (mp_path mp)) path &&
   (bool_decide (length path = length (tail (mp_path mp) ++ [SLASH]) - 1)%nat ||
    starts_with (tail (mp_path mp) ++ [SLASH]) path)) = true ↔ mp_covers mp path.
Proof.
  rewrite andb_true_iff, orb_true_iff, !starts_with_spec, bool_decide_eq_true, length_app.
  unfold mp_covers. simpl. split.
  - intros [[r ->] [Hl|[r' Hr']]].
    + rewrite length_app in Hl. destruct r; [left; by rewrite app_nil_r|simpl in Hl; lia].
    + right. exists r'. rewrite Hr'. by rewrite <- app_assoc.
  - intros [->|[rest ->]].
    + split; [exists []; by rewrite app_nil_r|]. left. lia.
    + split; [eauto|]. right. exists rest. by rewrite <- app_assoc.
Qed.
End root.

Lemma mount_scan_spec path ms : ∀ i idx mx idx' mx',
  mount_scan path i ms (idx, mx) = (idx', mx') →
  (mx ≤ mx')%nat ∧
  (∀ mp, mp ∈ ms → mp_covers mp path → (length (tail (mp_path mp)) ≤ mx')%nat) ∧
  ((idx', mx') = (idx, mx) ∨
   ∃ j mp, ms !! j = Some mp ∧ mp_covers mp path ∧ idx' = (i + j)%nat ∧
     mx' = (length (mp_path mp) - 1)%nat).
Proof.
  induction ms as [|mp ms IH]; intros i idx mx idx' mx'; cbn [mount_scan].
  { intros [= <- <-]. split; [done|]. split; [set_solver|by left]. }
  pose proof (scan_test path mp) as Ht.
  destruct (starts_with (tail (mp_path mp)) path &&
            (bool_decide (length path = length (tail (mp_path mp) ++ [SLASH]) - 1)%nat
             || starts_with (tail (mp_path mp) ++ [SLASH]) path)) eqn:Et; simpl.
  - destruct Ht as [Hc _]. specialize (Hc eq_refl).
    clear Et. case_bool_decide as Hlen; rewrite length_app in Hlen; simpl in Hlen.
    + intros Hs. destruct (IH _ _ _ _ _ Hs) as (H1 & H2 & H3).
      assert (length (tail (mp_path mp)) = (length (mp_path mp) - 1)%nat) as Htl
        by (destruct (mp_path mp); simpl; lia).
      split; [lia|]. split.
      * intros mp' [->|Hin]%elem_of_cons Hcov; [lia|by apply H2].
      * right. destruct H3 as [[= -> ->]|(j & mp' & Hj & Hcov & -> & ->)].
        -- exists 0%nat, mp. split_and!; done || lia.
        -- exists (S j), mp'. split_and!; done || lia.
    + intros Hs. destruct (IH _ _ _ _ _ Hs) as (H1 & H2 & H3). split; [done|]. split.
      * intros mp' [->|Hin]%elem_of_cons Hcov; [lia|by apply H2].
      * destruct H3 as [H3|(j & mp' & Hj & Hcov & -> & ->)]; [by left|right].
        exists (S j), mp'. split_and!; done || lia.
  - intros Hs. destruct (IH _ _ _ _ _ Hs) as (H1 & H2 & H3). split; [done|]. split.
    + intros mp' [->|Hin]%elem_of_cons Hcov; [|by apply H2]. apply Ht in Hcov. done.
    + destruct H3 as [H3|(j & mp' & Hj & Hcov & -> & ->)]; [by left|right].
      exists (S j), mp'. split_and!; done || lia.
Qed.

Lemma length_trim_start s : (length (trim_start_slash s) ≤ length s)%nat.
Proof. induction s as [|c s IH]; simpl; [done|]. case_decide; simpl; lia. Qed.

Lemma length_trim_slashes s : (length (trim_slashes s) ≤ length s)%nat.
Proof.
  unfold trim_slashes. rewrite length_reverse.
  pose proof (length_trim_start (reverse (trim_start_slash s))) as H1.
  rewrite length_reverse in H1. pose proof (length_trim_start s). lia.
Qed.

Lemma mounted_fuel_enough r : ∀ fuel1 fuel2 path,
  (length path < fuel1)%nat → (length path < fuel2)%nat →
  mounted_fuel fuel1 r path = mounted_fuel fuel2 r path.
Proof.
  induction fuel1 as [|f1 IH]; intros [|f2] path H1 H2; try lia. cbn [mounted_fuel].
  destruct (strip [DOT; SLASH] (trim_slashes path)) as [rest|] eqn:E; [|done].
  pose proof (strip_spec [DOT; SLASH] (trim_slashes path)) as Hs. rewrite E in Hs.
  pose proof (length_trim_slashes path) as Hl. rewrite Hs, length_app in Hl. simpl in Hl.
  apply IH; lia.
Qed.

(** C24: path resolution at the root.  A leading [./] is skipped; otherwise the
    trimmed path goes to a mounted file system whose mount path is a prefix of
    it by whole components and at least as long as every other such mount path,
    with the mount path cut off, or to the main file system with the whole path
    when no mount path covers it. *)
Theorem mount_longest_prefix (r : RootDirectory) (path : str) :
  mounts_ok r →
  (∀ rest, strip [DOT; SLASH] (trim_slashes path) = Some rest →
     lookup_mounted_fs r path = lookup_mounted_fs r rest) ∧
  (strip [DOT; SLASH] (trim_slashes path) = None →
     let p := trim_slashes path in
     (lookup_mounted_fs r path = Ok (main_fs r, p) ∧ ∀ mp, mp ∈ mounts r → ¬ mp_covers mp p) ∨
     (∃ mp rest, mp ∈ mounts r ∧ mp_covers mp p ∧ p = tail (mp_path mp) ++ rest ∧
        lookup_mounted_fs r path = Ok (mp_root mp, rest) ∧
        ∀ mp', mp' ∈ mounts r → mp_covers mp' p → (length (mp_path mp') ≤ length (mp_path mp))%nat)).
Proof.
  intros [_ Hok]. rewrite Forall_forall in Hok. split.
  - intros rest Hs. unfold lookup_mounted_fs at 1. cbn [mounted_fuel]. rewrite Hs.
    pose proof (strip_spec [DOT; SLASH] (trim_slashes path)) as Hsp. rewrite Hs in Hsp.
    pose proof (length_trim_slashes path) as Hl. rewrite Hsp, length_app in Hl. simpl in Hl.
    apply mounted_fuel_enough; lia.
  - intros Hs p. unfold lookup_mounted_fs. cbn [mounted_fuel]. rewrite Hs. fold p.
    destruct (mount_scan p 0 (mounts r) (0, 0)%nat) as [idx mx] eqn:Em.
    apply mount_scan_spec in Em as (_ & Hmax & Hres).
    assert (∀ mp, mp ∈ mounts r → length (mp_path mp) = S (length (tail (mp_path mp))) ∧
                  tail (mp_path mp) ≠ []) as Htl.
    { intros mp Hin. destruct (Hok mp Hin) as (c & q & ->). simpl. done. }
    case_decide as Hz.
    + left. split; [done|]. intros mp Hin Hc. specialize (Hmax mp Hin Hc).
      destruct (Htl mp Hin) as [_ Hne]. destruct (tail (mp_path mp)); simpl in *; [done|lia].
    + right. destruct Hres as [[= -> ->]|(j & mp & Hj & Hc & -> & ->)]; [done|].
      assert (mp ∈ mounts r) as Hin by (by eapply list_elem_of_lookup_2).
      destruct (Htl mp Hin) as [Hl Hne]. simpl. rewrite Hj.
      exists mp, (drop (length (mp_path mp) - 1) p).
      assert (p = tail (mp_path mp) ++ drop (length (mp_path mp) - 1) p) as Hp.
      { replace (length (mp_path mp) - 1)%nat with (length (tail (mp_path mp))) by lia.
        destruct Hc as [->|[rest ->]].
        - by rewrite drop_all, app_nil_r.
        - by rewrite drop_app_length. }
      split_and!; try done. intros mp' Hin' Hc'. specialize (Hmax mp' Hin' Hc').
      destruct (Htl mp' Hin') as [Hl' _]. lia.
Qed.

(** ** Mounting *)

Section mounting.
Context (alive : nid → bool).

(** C25: A successful [mount] keeps the mount table well formed: mount paths are
    distinct, absolute and never the root, and the new path resolves to the
    mounted tree. *)
Theorem mount_keeps_table (r r' : RootDirectory) (path : str) (froot : nid) (once : option nid)
    (s s' : fs) :
  mounts_ok r → mount alive r path froot once s = Some (Ok (r', s')) →
  mounts_ok r' ∧ main_fs r' = main_fs r ∧
  ∃ mp, mounts r' = mounts r ++ [mp] ∧ mp_path mp = path ∧ mp_root mp = froot.
Proof.
  intros [Hnd Hok]. unfold mount. case_decide as Hroot; [done|].
  destruct (starts_with_slash path) eqn:Es; simpl; [|done].
  destruct (root_contains r path) eqn:Ec; [done|].
  destruct (create alive s (main_fs r) path TDir) as [[s1| |]|]; simpl; try done.
  destruct (lookup alive s1 (main_fs r) path) as [mp| |]; simpl; try done.
  destruct (fs_mount alive froot once mp s1) as [once' s2]. intros [= <- <-]. simpl.
  split; [|eauto]. split; simpl.
  - rewrite fmap_app. apply NoDup_snoc; [|done]. simpl. intros (m & -> & Hin)%list_elem_of_fmap.
    apply not_true_iff_false in Ec. apply Ec. apply existsb_exists. exists m.
    split; [by apply list_elem_of_In|]. by apply bool_decide_eq_true_2.
  - apply Forall_app. split; [done|]. apply Forall_singleton. simpl.
    destruct path as [|c [|c' p]]; simpl in Es; try done.
    + apply bool_decide_eq_true_1 in Es. by subst.
    + apply bool_decide_eq_true_1 in Es as ->. eauto.
Qed.

End mounting.

(** ** Canonical absolute paths *)

Lemma split_slash_app_gen x y : split_slash (x ++ SLASH :: y) = split_slash x ++ split_slash y.
Proof.
  induction x as [|c x IH]; [done|]. simpl. rewrite IH. case_decide; [done|].
  destruct (split_slash_cons x) as (p & ps & ->). done.
Qed.

Lemma trim_start_id s : starts_with_slash s = false → trim_start_slash s = s.
Proof.
  destruct s as [|c s]; [done|]. simpl. intros Hc%bool_decide_eq_false_1. by rewrite decide_False.
Qed.

Lemma starts_reverse s c : last s = Some c → c ≠ SLASH → starts_with_slash (reverse s) = false.
Proof.
  destruct s as [|x s _] using rev_ind; [done|]. rewrite last_snoc, reverse_snoc.
  intros [= ->] Hc. by apply bool_decide_eq_false_2.
Qed.

Lemma trim_slashes_render ps :
  ps ≠ [] → Forall proper ps → trim_slashes (render true ps) = join ps.
Proof.
  intros Hne Hp. unfold trim_slashes, render. simpl.
  pose proof (starts_render false ps Hp) as Hs. unfold render in Hs. simpl in Hs.
  rewrite (trim_start_id (join ps)) by done.
  assert (starts_with_slash (reverse (join ps)) = false) as Hr.
  { destruct (exists_last Hne) as (st & q & ->).
    apply Forall_app in Hp as [_ [(Hq & _ & _ & Hqs) _]%Forall_cons].
    pose proof (last_render false st q Hq) as Hl. unfold render in Hl. simpl in Hl.
    destruct (exists_last Hq) as (l & c & ->). rewrite last_snoc in Hl.
    apply (starts_reverse _ c Hl). set_solver. }
  rewrite trim_start_id by done. apply reverse_involutive.
Qed.

Lemma join_last_elem ps x y :
  ps ≠ [] → Forall proper ps → join ps = x ++ SLASH :: y → SLASH ∉ y → y ∈ ps.
Proof.
  intros Hne Hp Hj Hy. rewrite <- (split_join ps Hne), Hj, split_slash_app_gen.
  - rewrite (split_slash_single y Hy). apply elem_of_app. right. by apply list_elem_of_singleton.
  - eapply Forall_impl; [exact Hp|]. by intros ? (_ & _ & _ & ?).
Qed.

Lemma ends_with_spec suf s : ends_with suf s = true → ∃ x, s = x ++ suf.
Proof.
  intros [r Hr]%starts_with_spec. exists (reverse r).
  by rewrite <- (reverse_involutive s), Hr, reverse_app, reverse_involutive.
Qed.

(** None of the names [remove_dir] refuses as [.] or [..]. *)
Lemma join_not_dots ps :
  ps ≠ [] → Forall proper ps →
  ¬ (join ps = [DOT] ∨ join ps = [DOT; DOT] ∨ ends_with [SLASH; DOT] (join ps) = true ∨
     ends_with [SLASH; DOT; DOT] (join ps) = true).
Proof.
  intros Hne Hp. assert (Forall (λ p, SLASH ∉ p) ps) as Hns.
  { eapply Forall_impl; [exact Hp|]. by intros ? (_ & _ & _ & ?). }
  pose proof Hp as Hp'. rewrite Forall_forall in Hp'.
  intros [Hj|[Hj|[[x Hj]%ends_with_spec|[x Hj]%ends_with_spec]]].
  - pose proof (split_join ps Hne Hns) as Hs. rewrite Hj in Hs.
    destruct (Hp' [DOT]) as (_ & ? & _); [|done]. rewrite <- Hs. by left.
  - pose proof (split_join ps Hne Hns) as Hs. rewrite Hj in Hs.
    destruct (Hp' [DOT; DOT]) as (_ & _ & ? & _); [|done]. rewrite <- Hs. by left.
  - destruct (Hp' [DOT]) as (_ & ? & _); [|done].
    apply (join_last_elem ps x); try done. unfold SLASH, DOT. set_solver.
  - destruct (Hp' [DOT; DOT]) as (_ & _ & ? & _); [|done].
    apply (join_last_elem ps x); try done. unfold SLASH, DOT. set_solver.
Qed.

Lemma canonical_fixed ps :
  Forall proper ps → Forall (Forall is_ascii) ps →
  canonicalize (render true ps) = Ok (render true ps).
Proof.
  intros Hp Ha. rewrite canonicalize_render.
  - by rewrite starts_render, components_render.
  - unfold render. apply Forall_app. split; [apply Forall_singleton; done|by apply join_ascii].
Qed.

(** Mount points cannot be removed: [remove_dir] of the mount path of a
    mounted file system is [PermissionDenied] and of the root directory
    [DirectoryNotEmpty], whatever the trees hold. *)
Theorem mount_points_protected (alive : nid → bool) (g : gfs) (dir : option vnode) (ps : list str) :
  ps ≠ [] → Forall proper ps → Forall (Forall is_ascii) ps →
  root_contains (root_dir g) (render true ps) = true →
  remove_dir alive g dir (render true ps) = Some (Err PermissionDenied) ∧
  remove_dir alive g dir [SLASH] = Some (Err DirectoryNotEmpty).
Proof.
  intros Hne Hp Ha Hc. split; [|done]. unfold remove_dir.
  rewrite decide_False by (by unfold render). rewrite trim_slashes_render by done.
  rewrite (decide_False (P := join ps = [])), decide_False; [|by apply join_not_dots|].
  - unfold absolute_path. rewrite starts_render by done. rewrite canonical_fixed by done.
    simpl. by rewrite Hc.
  - intros Hj. pose proof (render_nonempty false) as Hr. destruct (exists_last Hne) as (st & q & ->).
    apply Forall_app in Hp as [_ [(Hq & _) _]%Forall_cons]. by apply (Hr st q Hq).
Qed.

(** ** Witnesses *)

Definition demo_root : RootDirectory :=
  {| main_fs := 0; mounts := [ {| mp_path := lit "/dev"; mp_root := 5; mp_once := None |};
                               {| mp_path := lit "/dev/shm"; mp_root := 6; mp_once := None |} ] |}.

Lemma demo_root_ok : mounts_ok demo_root.
Proof.
  split.
  - apply (bool_decide_eq_true_1 _). by vm_compute.
  - repeat (apply Forall_cons_2; [by eexists _, _|]). apply Forall_nil_2.
Qed.

Lemma mount_longest_prefix_witness :
  lookup_mounted_fs demo_root (lit "/dev/shm/x") = Ok (6%nat, lit "/x") ∧
  lookup_mounted_fs demo_root (lit "./dev/null") = lookup_mounted_fs demo_root (lit "dev/null").
Proof.
  split.
  - destruct (mount_longest_prefix demo_root (lit "/dev/shm/x") demo_root_ok) as [_ H].
    destruct (H eq_refl) as [[Hr _]|(mp & rest & _ & _ & _ & Hr & _)].
    + vm_compute in Hr. discriminate Hr.
    + clear Hr. vm_compute. reflexivity.
  - destruct (mount_longest_prefix demo_root (lit "./dev/null") demo_root_ok) as [H _].
    apply H. by vm_compute.
Defined.

(** A main file system with an empty root (node 0) and a RAM tree (node 1). *)
Definition demo_store : fs :=
  {| nodes := {[ 0%nat := RamDir None []; 1%nat := RamDir None [] ]}; next_id := 2; counters := [] |}.
Definition demo_mount : option (outcome (RootDirectory * fs)) :=
  mount (λ _, true) {| main_fs := 0; mounts := [] |} (lit "/tmp") 1 None demo_store.

Lemma mount_keeps_table_witness :
  match demo_mount with
  | Some (Ok (r, s)) => mounts_ok r
  | _ => False
  end.
Proof.
  destruct demo_mount as [[[r s]| |]|] eqn:E; try (vm_compute in E; discriminate E).
  apply (mount_keeps_table (λ _, true) {| main_fs := 0; mounts := [] |} r (lit "/tmp") 1 None
    demo_store s); [|exact E]. split; constructor.
Defined.

Lemma mount_points_protected_witness :
  remove_dir (λ _, true) {| store := demo_store; root_dir := demo_root; cur_dir := VRoot;
    cur_path := [SLASH] |} None (render true [lit "dev"; lit "shm"]) = Some (Err PermissionDenied).
Proof.
  apply (mount_points_protected (λ _, true) {| store := demo_store; root_dir := demo_root;
    cur_dir := VRoot; cur_path := [SLASH] |} None [lit "dev"; lit "shm"]).
  - done.
  - apply (bool_decide_eq_true_1 _). by vm_compute.
  - apply (bool_decide_eq_true_1 _). by vm_compute.
  - by vm_compute.
Defined.
