(* ===== verification/Fops.v ===== *)
(** Opened files and directories ([modules/async_fs/src/fops.rs]).

    [WithCap] belongs to the [capability] crate: [cap_access granted wanted] is
    its [access], a parameter with the documented law that it succeeds exactly
    when the granted capabilities contain the wanted ones.  Handles keep a node
    and a cursor; the node store is the [gfs] of [RootFs]. *)

From S2P Require Import Prelude BTree Path Vfs RootFs.

Definition CAP_READ : Z := 1.
Definition CAP_WRITE : Z := 2.
Definition CAP_EXECUTE : Z := 4.
Definition cap_contains (g w : Z) : bool := bool_decide (Z.land g w = w).

Class Capability := { cap_access : Z → Z → outcome unit }.
Class CapabilityLaws `{Capability} := {
  cap_access_spec : ∀ g w, cap_access g w = if cap_contains g w then Ok () else Err PermissionDenied
}.

#[export] Instance sim_capability : Capability :=
  {| cap_access g w := if cap_contains g w then Ok () else Err PermissionDenied |}.
#[export] Instance sim_capability_laws : CapabilityLaws.
Proof. split. done. Qed.

Record OpenOptions := {
  o_read : bool; o_write : bool; o_append : bool;
  o_truncate : bool; o_create : bool; o_create_new : bool
}.

Definition is_valid (o : OpenOptions) : bool :=
  if negb (o_read o) && negb (o_write o) && negb (o_append o) then false
  else match o_write o, o_append o with
       | true, false => true
       | false, false => negb (o_truncate o || o_create o || o_create_new o)
       | _, true => negb (o_truncate o && negb (o_create_new o))
       end.

(** [From<&OpenOptions> for Cap] and [perm_to_cap]. *)
Definition opts_to_cap (o : OpenOptions) : Z :=
  let cap := if o_read o then Z.lor 0 CAP_READ else 0 in
  if o_write o || o_append o then Z.lor cap CAP_WRITE else cap.
Definition perm_to_cap (perm : Z) : Z :=
  let cap := if owner_readable perm then Z.lor 0 CAP_READ else 0 in
  let cap := if owner_writable perm then Z.lor cap CAP_WRITE else cap in
  if owner_executable perm then Z.lor cap CAP_EXECUTE else cap.

Record File := { f_node : vnode; f_cap : Z; is_append : bool; f_offset : Z }.
Record Directory := { d_node : vnode; d_cap : Z; entry_idx : Z }.

Definition with_offset (f : File) (off : Z) : File :=
  {| f_node := f_node f; f_cap := f_cap f; is_append := is_append f; f_offset := off |}.

Inductive SeekFrom := SeekStart (pos : Z) | SeekCurrent (off : Z) | SeekEnd (off : Z).

(** File operations on a node reference: the root directory is a directory. *)
Definition vread_at (g : gfs) (v : vnode) (off : Z) (len : nat) : outcome (list Z) :=
  match v with VRoot => Err IsADirectory | VNode n => read_at (store g) n off len end.
Definition vwrite_at (g : gfs) (v : vnode) (off : Z) (buf : list Z) : outcome (Z * gfs) :=
  match v with
  | VRoot => Err IsADirectory
  | VNode n => '(k, s) ← write_at (store g) n off buf; Ok (k, with_store g s)
  end.
Definition vtruncate (g : gfs) (v : vnode) (size : Z) : outcome gfs :=
  match v with
  | VRoot => Err IsADirectory
  | VNode n => s ← truncate (store g) n size; Ok (with_store g s)
  end.
Definition vfsync (g : gfs) (v : vnode) : outcome unit :=
  match v with VRoot => Err IsADirectory | VNode n => fsync (store g) n end.
(** [RootDirectory] does not implement [poll_read_dir]: the trait's default. *)
Definition vread_dir (g : gfs) (v : vnode) (start : Z) (slots : nat) : outcome (list VfsDirEntry) :=
  match v with VRoot => Err Unsupported | VNode n => read_dir (store g) n start slots end.

Section fops.
Context (alive : nid → bool) `{Capability}.

(** [File::_open_at]; [node.open()] is the trait's default. *)
Definition open_at (g : gfs) (dir : option vnode) (path : str) (o : OpenOptions)
    : option (outcome (File * gfs)) :=
  if negb (is_valid o) then Some (Err InvalidInput) else
  let node_option := fs_lookup alive g dir path in
  let! ng := (if o_create o || o_create_new o then
                match node_option with
                | Ok node => if o_create_new o then Some (Err AlreadyExists) else Some (Ok (node, g))
                | Err NotFound => create_file alive g dir path
                | Err e => Some (Err e)
                | Panic => Some Panic
                end
              else let! node := Some node_option in Some (Ok (node, g))) in
  let '(node, g) := ng in
  let! attr := Some (vget_attr g node) in
  if type_is_dir (at_ty attr) &&
     (o_create o || o_create_new o || o_write o || o_append o || o_truncate o)
  then Some (Err IsADirectory)
  else
    let access_cap := opts_to_cap o in
    if negb (cap_contains (perm_to_cap (at_mode attr)) access_cap) then Some (Err PermissionDenied)
    else
      let! g := (if o_truncate o then Some (vtruncate g node 0) else Some (Ok g)) in
      Some (Ok ({| f_node := node; f_cap := access_cap; is_append := o_append o; f_offset := 0 |}, g)).

Definition file_get_attr (g : gfs) (f : File) : outcome VfsNodeAttr :=
  _ ← cap_access (f_cap f) 0; vget_attr g (f_node f).

Definition file_truncate (g : gfs) (f : File) (size : Z) : outcome gfs :=
  _ ← cap_access (f_cap f) CAP_WRITE; vtruncate g (f_node f) size.

(** [File::read] into a buffer of [len] bytes. *)
Definition file_read (g : gfs) (f : File) (len : nat) : outcome (list Z) * File :=
  match (_ ← cap_access (f_cap f) CAP_READ; vread_at g (f_node f) (f_offset f) len) with
  | Ok bs => (Ok bs, with_offset f (wrap64 (f_offset f + Z.of_nat (length bs))))
  | Err e => (Err e, f)
  | Panic => (Panic, f)
  end.

Definition file_read_at (g : gfs) (f : File) (off : Z) (len : nat) : outcome (list Z) :=
  _ ← cap_access (f_cap f) CAP_READ; vread_at g (f_node f) off len.

(** [File::write]: in append mode the cursor is moved to the end before the
    write is attempted. *)
Definition file_write (g : gfs) (f : File) (buf : list Z) : outcome (Z * gfs) * File :=
  match cap_access (f_cap f) CAP_WRITE with
  | Ok _ =>
      match (if is_append f then attr ← file_get_attr g f; Ok (with_offset f (at_size attr))
             else Ok f) with
      | Ok f =>
          match vwrite_at g (f_node f) (f_offset f) buf with
          | Ok (n, g) => (Ok (n, g), with_offset f (wrap64 (f_offset f + n)))
          | Err e => (Err e, f)
          | Panic => (Panic, f)
          end
      | Err e => (Err e, f)
      | Panic => (Panic, f)
      end
  | Err e => (Err e, f)
  | Panic => (Panic, f)
  end.

Definition file_write_at (g : gfs) (f : File) (off : Z) (buf : list Z) : outcome (Z * gfs) :=
  _ ← cap_access (f_cap f) CAP_WRITE; vwrite_at g (f_node f) off buf.

Definition file_flush (g : gfs) (f : File) : outcome unit :=
  _ ← cap_access (f_cap f) CAP_WRITE; vfsync g (f_node f).

Definition file_seek (g : gfs) (f : File) (pos : SeekFrom) : outcome (Z * File) :=
  attr ← file_get_attr g f;
  new_offset ← ok_or (match pos with
                      | SeekStart pos => Some pos
                      | SeekCurrent off => checked_add_u64 (f_offset f) off
                      | SeekEnd off => checked_add_u64 (at_size attr) off
                      end) InvalidInput;
  Ok (new_offset, with_offset f new_offset).

(** [Directory::_open_dir_at]. *)
Definition open_dir_at (g : gfs) (dir : option vnode) (path : str) (o : OpenOptions)
    : outcome Directory :=
  if negb (o_read o) then Err InvalidInput
  else if o_create o || o_create_new o || o_write o || o_append o || o_truncate o
  then Err InvalidInput
  else
    node ← fs_lookup alive g dir path;
    attr ← vget_attr g node;
    if negb (type_is_dir (at_ty attr)) then Err NotADirectory
    else
      let access_cap := opts_to_cap o in
      if negb (cap_contains (perm_to_cap (at_mode attr)) access_cap) then Err PermissionDenied
      else Ok {| d_node := node; d_cap := access_cap; entry_idx := 0 |}.

Definition access_at (d : Directory) (path : str) : outcome (option vnode) :=
  if starts_with_slash path then Ok None
  else _ ← cap_access (d_cap d) CAP_EXECUTE; Ok (Some (d_node d)).

(** The operations relative to an opened directory. *)
Definition dir_open_file_at (g : gfs) (d : Directory) (path : str) (o : OpenOptions)
    : option (outcome (File * gfs)) :=
  let! dir := Some (access_at d path) in open_at g dir path o.
Definition dir_open_dir_at (g : gfs) (d : Directory) (path : str) (o : OpenOptions)
    : outcome Directory :=
  dir ← access_at d path; open_dir_at g dir path o.
Definition dir_create_file (g : gfs) (d : Directory) (path : str) : option (outcome (vnode * gfs)) :=
  let! dir := Some (access_at d path) in create_file alive g dir path.
Definition dir_create_dir (g : gfs) (d : Directory) (path : str) : option (outcome gfs) :=
  let! dir := Some (access_at d path) in create_dir alive g dir path.
Definition dir_remove_file (g : gfs) (d : Directory) (path : str) : option (outcome gfs) :=
  let! dir := Some (access_at d path) in remove_file alive g dir path.
Definition dir_remove_dir (g : gfs) (d : Directory) (path : str) : option (outcome gfs) :=
  let! dir := Some (access_at d path) in remove_dir alive g dir path.

Definition dir_read_dir (g : gfs) (d : Directory) (slots : nat)
    : outcome (list VfsDirEntry) * Directory :=
  match (_ ← cap_access (d_cap d) CAP_READ; vread_dir g (d_node d) (entry_idx d) slots) with
  | Ok es => (Ok es, {| d_node := d_node d; d_cap := d_cap d;
                        entry_idx := wrap64 (entry_idx d + Z.of_nat (length es)) |})
  | Err e => (Err e, d)
  | Panic => (Panic, d)
  end.

(** The [AsyncRead], [AsyncWrite] and [AsyncSeek] implementations: as above, but
    errors of [poll_write_at] and [poll_get_attr] are unwrapped. *)
Definition poll_file_write (g : gfs) (f : File) (buf : list Z) : outcome (Z * gfs) * File :=
  match cap_access (f_cap f) CAP_WRITE with
  | Ok _ =>
      match (if is_append f then attr ← unwrap (vget_attr g (f_node f)); Ok (with_offset f (at_size attr))
             else Ok f) with
      | Ok f =>
          match unwrap (vwrite_at g (f_node f) (f_offset f) buf) with
          | Ok (n, g) => (Ok (n, g), with_offset f (wrap64 (f_offset f + n)))
          | _ => (Panic, f)
          end
      | _ => (Panic, f)
      end
  | Err e => (Err e, f)
  | Panic => (Panic, f)
  end.

Definition poll_file_seek (g : gfs) (f : File) (pos : SeekFrom) : outcome (Z * File) :=
  _ ← cap_access (f_cap f) 0;
  attr ← unwrap (vget_attr g (f_node f));
  new_offset ← ok_or (match pos with
                      | SeekStart pos => Some pos
                      | SeekCurrent off => checked_add_u64 (f_offset f) off
                      | SeekEnd off => checked_add_u64 (at_size attr) off
                      end) InvalidInput;
  Ok (new_offset, with_offset f new_offset).

(** Consecutive reads with buffers of the given sizes. *)
Fixpoint read_many (g : gfs) (f : File) (lens : list nat) : outcome (list Z) * File :=
  match lens with
  | [] => (Ok [], f)
  | len :: lens =>
      match file_read g f len with
      | (Ok bs, f) =>
          match read_many g f lens with
          | (Ok rest, f) => (Ok (bs ++ rest), f)
          | r => r
          end
      | (Err e, f) => (Err e, f)
      | (Panic, f) => (Panic, f)
      end
  end.
End fops.

(** ** Properties *)

Section props.
Context (alive : nid → bool) `{CapabilityLaws}.

(** A file handle never carries more than its options ask for and the node's
    owner permissions allow: opening succeeds only for valid options, a
    directory is only ever opened for reading, [create_new] succeeds only where
    the path led nowhere, and the cursor starts at zero. *)
Theorem open_grants_least (g g' : gfs) (dir : option vnode) (path : str) (o : OpenOptions) (f : File) :
  open_at alive g dir path o = Some (Ok (f, g')) →
  is_valid o = true ∧ f_cap f = opts_to_cap o ∧ f_offset f = 0 ∧
  (o_create_new o = true → fs_lookup alive g dir path = Err NotFound) ∧
  ∃ g1 attr, vget_attr g1 (f_node f) = Ok attr ∧
    cap_contains (perm_to_cap (at_mode attr)) (f_cap f) = true ∧
    (at_ty attr = TDir → f_cap f = CAP_READ) ∧
    (o_truncate o = true → vtruncate g1 (f_node f) 0 = Ok g').
Proof.
  unfold open_at. destruct (is_valid o) eqn:Ev; simpl; [|done].
  set (ng := if o_create o || o_create_new o then _ else _).
  destruct ng as [[[node g1]| |]|] eqn:En; simpl; try done.
  destruct (vget_attr g1 node) as [attr| |] eqn:Ea; simpl; try done.
  destruct (type_is_dir (at_ty attr) && _) eqn:Ed; [done|].
  destruct (cap_contains (perm_to_cap (at_mode attr)) (opts_to_cap o)) eqn:Ec; simpl; [|done].
  intros Hopen.
  assert (f = {| f_node := node; f_cap := opts_to_cap o; is_append := o_append o; f_offset := 0 |} ∧
          (o_truncate o = true → vtruncate g1 node 0 = Ok g')) as [-> Htr].
  { destruct (o_truncate o); simpl in Hopen; [|by simplify_eq].
    destruct (vtruncate g1 node 0); simpl in Hopen; by simplify_eq. }
  split_and!; try done.
  - intros Hnew. unfold ng in En. rewrite Hnew, orb_true_r in En.
    destruct (fs_lookup alive g dir path) as [|[]|]; done.
  - exists g1, attr. split_and!; try done. intros Hdir. simpl.
    unfold type_is_dir in Ed. rewrite Hdir in Ed. simpl in Ed.
    unfold is_valid in Ev. unfold opts_to_cap.
    destruct (o_read o), (o_write o), (o_append o), (o_create o), (o_create_new o), (o_truncate o);
      simpl in *; done.
Qed.

Lemma file_read_content g f n content len :
  f_node f = VNode n → nodes (store g) !! n = Some (FileNode content) →
  cap_contains (f_cap f) CAP_READ = true → 0 ≤ f_offset f →
  f_offset f + Z.of_nat len < two64 → Z.of_nat (length content) < two64 →
  file_read g f len =
    (Ok (take len (drop (Z.to_nat (f_offset f)) content)),
     with_offset f (f_offset f + Z.of_nat (length (take len (drop (Z.to_nat (f_offset f)) content))))).
Proof.
  intros Hn Hc Hcap Hoff Hlt Hlen. unfold file_read. rewrite cap_access_spec, Hcap, bind_Ok, Hn. simpl.
  unfold read_at. rewrite Hc. rewrite wrap64_small by (unfold is_u64; lia).
  rewrite decide_True by lia.
  assert (take (Z.to_nat (Z.min (Z.of_nat (length content)) (f_offset f + Z.of_nat len) -
                          Z.min (Z.of_nat (length content)) (f_offset f)))
            (drop (Z.to_nat (Z.min (Z.of_nat (length content)) (f_offset f))) content) =
          take len (drop (Z.to_nat (f_offset f)) content)) as ->.
  { destruct (decide (f_offset f ≤ Z.of_nat (length content))).
    - rewrite (Z.min_r (Z.of_nat (length content)) (f_offset f)) by lia.
      destruct (decide (f_offset f + Z.of_nat len ≤ Z.of_nat (length content))).
      + rewrite Z.min_r by lia. f_equal. lia.
      + rewrite Z.min_l by lia. rewrite !take_ge; [done|..]; rewrite length_drop; lia.
    - rewrite (drop_ge content (Z.to_nat (f_offset f))) by lia.
      rewrite Z.min_l, drop_ge by lia. by rewrite !take_nil. }
  rewrite wrap64_small; [done|]. unfold is_u64. rewrite length_take, length_drop. lia.
Qed.

(** Reading a file of the RAM file system piece by piece, with buffers of any
    sizes, delivers exactly the bytes from the cursor on, in order and without
    gaps, up to the end of the file, and leaves the cursor after the last byte
    delivered. *)
Theorem file_reads_sequential (g : gfs) (n : nid) (content : list Z) (lens : list nat) (f : File) :
  f_node f = VNode n → nodes (store g) !! n = Some (FileNode content) →
  cap_contains (f_cap f) CAP_READ = true → 0 ≤ f_offset f →
  f_offset f + Z.of_nat (sum_list lens) < two64 → Z.of_nat (length content) < two64 →
  let data := take (sum_list lens) (drop (Z.to_nat (f_offset f)) content) in
  read_many g f lens = (Ok data, with_offset f (f_offset f + Z.of_nat (length data))).
Proof.
  revert f. induction lens as [|len lens IH]; intros f Hn Hc Hcap Hoff Hlt Hlen; simpl in *.
  { rewrite take_0. simpl. rewrite Z.add_0_r. by destruct f. }
  rewrite (file_read_content g f n content len) by (done || lia).
  set (l := drop (Z.to_nat (f_offset f)) content) in *.
  rewrite IH; simpl; try done; try (rewrite length_take; lia).
  assert (drop (Z.to_nat (f_offset f + Z.of_nat (length (take len l)))) content =
          drop (length (take len l)) l) as ->.
  { generalize (length (take len l)) as k. intros k. unfold l. rewrite drop_drop. f_equal. lia. }
  assert (take len l ++ take (sum_list lens) (drop (length (take len l)) l) =
          take (len + sum_list lens) l) as Heq.
  { destruct (decide (len ≤ length l)%nat).
    - rewrite length_take, Nat.min_l by lia. by rewrite take_take_drop.
    - rewrite (take_ge l len), drop_all, take_nil, app_nil_r, take_ge by lia. done. }
  rewrite <- Heq. f_equal. unfold with_offset. simpl. f_equal. rewrite length_app. lia.
Qed.

(** Every write of an append-mode handle lands at the end of the file, wherever
    the cursor was, and leaves the cursor at the new end; a handle without the
    write capability changes nothing and reports [PermissionDenied]. *)
Theorem append_writes_at_end (g : gfs) (n : nid) (content buf : list Z) (f : File) :
  f_node f = VNode n → nodes (store g) !! n = Some (FileNode content) →
  Z.of_nat (length content) + Z.of_nat (length buf) < 2 ^ 63 →
  if cap_contains (f_cap f) CAP_WRITE then
    is_append f = true → ∃ g',
      file_write g f buf =
        (Ok (Z.of_nat (length buf), g'),
         with_offset f (Z.of_nat (length content) + Z.of_nat (length buf))) ∧
      nodes (store g') !! n = Some (FileNode (content ++ buf)) ∧
      ∀ m, m ≠ n → nodes (store g') !! m = nodes (store g) !! m
  else file_write g f buf = (Err PermissionDenied, f).
Proof.
  intros Hn Hc Hlt. unfold file_write. rewrite cap_access_spec.
  destruct (cap_contains (f_cap f) CAP_WRITE); [|done]. intros Happ. rewrite Happ.
  unfold file_get_attr. rewrite cap_access_spec.
  assert (cap_contains (f_cap f) 0 = true) as -> by (apply bool_decide_eq_true_2, Z.land_0_r).
  rewrite Hn. simpl. unfold get_attr. rewrite Hc. simpl. rewrite Hn. simpl.
  unfold write_at. rewrite Hc. rewrite wrap64_small by (unfold is_u64, two64; lia).
  assert ((if decide (Z.of_nat (length content) + Z.of_nat (length buf) > Z.of_nat (length content))
           then resize content (Z.of_nat (length content) + Z.of_nat (length buf)) else Ok content) =
          Ok (content ++ replicate (length buf) 0)) as ->.
  { case_decide.
    - unfold resize. rewrite decide_True by lia. rewrite take_ge by lia. do 3 f_equal. lia.
    - assert (length buf = 0%nat) as -> by lia. by rewrite app_nil_r. }
  rewrite bind_Ok, decide_True by lia. eexists. split.
  - simpl. unfold with_offset. simpl. f_equal. f_equal. apply wrap64_small. unfold is_u64, two64. lia.
  - simpl. split.
    + rewrite lookup_insert_eq. do 2 f_equal. rewrite Nat2Z.id, take_app_length.
      rewrite drop_ge by (rewrite length_app, length_replicate; lia). by rewrite app_nil_r.
    + intros m Hm. by rewrite lookup_insert_ne.
Qed.

Lemma opts_cap_no_execute o : cap_contains (opts_to_cap o) CAP_EXECUTE = false.
Proof.
  unfold opts_to_cap. destruct (o_read o), (o_write o), (o_append o); by vm_compute.
Qed.

(** An opened directory never carries the execute capability, which every
    operation relative to it demands: opening, creating or removing anything
    through a directory handle by a relative path is always
    [PermissionDenied]. *)
Theorem directory_relative_denied (g : gfs) (dir : option vnode) (path rel : str) (o o' : OpenOptions)
    (d : Directory) :
  open_dir_at alive g dir path o = Ok d → starts_with_slash rel = false →
  dir_open_file_at alive g d rel o' = Some (Err PermissionDenied) ∧
  dir_open_dir_at alive g d rel o' = Err PermissionDenied ∧
  dir_create_file alive g d rel = Some (Err PermissionDenied) ∧
  dir_create_dir alive g d rel = Some (Err PermissionDenied) ∧
  dir_remove_file alive g d rel = Some (Err PermissionDenied) ∧
  dir_remove_dir alive g d rel = Some (Err PermissionDenied).
Proof.
  intros Hopen Hrel. assert (d_cap d = opts_to_cap o) as Hcap.
  { unfold open_dir_at in Hopen. repeat case_match; try done.
    destruct (fs_lookup alive g dir path) as [node| |]; simpl in Hopen; try done.
    destruct (vget_attr g node); simpl in Hopen; try done.
    repeat case_match; by simplify_eq. }
  assert (access_at d rel = Err PermissionDenied) as Ha.
  { unfold access_at. rewrite Hrel, cap_access_spec, Hcap, opts_cap_no_execute. done. }
  unfold dir_open_file_at, dir_open_dir_at, dir_create_file, dir_create_dir, dir_remove_file,
    dir_remove_dir. rewrite Ha. done.
Qed.

(** Seeking moves the cursor to the position asked for, from the start, the
    current position or the end of the file, without bound above the size, and
    fails with the cursor unchanged exactly when the position is not a 64-bit
    number. *)
Theorem file_seek_spec (g : gfs) (f : File) (pos : SeekFrom) (attr : VfsNodeAttr) :
  vget_attr g (f_node f) = Ok attr →
  let target := match pos with
                | SeekStart p => p
                | SeekCurrent off => f_offset f + off
                | SeekEnd off => at_size attr + off
                end in
  (match pos with SeekStart p => is_u64 p | _ => True end) →
  if decide (is_u64 target) then file_seek g f pos = Ok (target, with_offset f target)
  else file_seek g f pos = Err InvalidInput.
Proof.
  intros Ha target Hp. unfold file_seek, file_get_attr. rewrite cap_access_spec.
  assert (cap_contains (f_cap f) 0 = true) as -> by (apply bool_decide_eq_true_2, Z.land_0_r).
  simpl. rewrite Ha. simpl.
  destruct pos as [p|off|off]; subst target; simpl.
  - by rewrite decide_True.
  - unfold checked_add_u64, is_u64, U64_MAX. repeat case_decide; simpl; done || lia.
  - unfold checked_add_u64, is_u64, U64_MAX. repeat case_decide; simpl; done || lia.
Qed.
End props.

(** ** Witnesses *)

Definition demo_gfs : gfs :=
  {| store := {| nodes := {[ 0%nat := RamDir None [(lit "f", 1%nat)];
                             1%nat := FileNode [10; 20; 30; 40; 50] ]};
                 next_id := 2; counters := [] |};
     root_dir := {| main_fs := 0; mounts := [] |}; cur_dir := VRoot; cur_path := [SLASH] |}.
Definition demo_opts (r w a t c cn : bool) : OpenOptions :=
  {| o_read := r; o_write := w; o_append := a; o_truncate := t; o_create := c; o_create_new := cn |}.
Definition demo_file (cap : Z) (app : bool) (off : Z) : File :=
  {| f_node := VNode 1; f_cap := cap; is_append := app; f_offset := off |}.

Lemma open_grants_least_witness :
  ∃ f g', open_at (λ _, true) demo_gfs None (lit "/f") (demo_opts true true false true false false) =
            Some (Ok (f, g')) ∧ f_cap f = 3.
Proof.
  destruct (open_at (λ _, true) demo_gfs None (lit "/f") (demo_opts true true false true false false))
    as [[[f g']| |]|] eqn:E; try (vm_compute in E; discriminate E).
  exists f, g'. split; [done|].
  destruct (open_grants_least (λ _, true) demo_gfs g' None (lit "/f")
    (demo_opts true true false true false false) f E) as (_ & Hc & _). exact Hc.
Defined.

Lemma file_reads_sequential_witness :
  read_many demo_gfs (demo_file 1 false 1) [2; 0; 5]%nat = (Ok [20; 30; 40; 50], demo_file 1 false 5).
Proof.
  apply (file_reads_sequential demo_gfs 1 [10; 20; 30; 40; 50] [2; 0; 5]%nat (demo_file 1 false 1));
    done.
Defined.

Lemma append_writes_at_end_witness :
  ∃ g', file_write demo_gfs (demo_file 2 true 0) [60] = (Ok (1, g'), demo_file 2 true 6).
Proof.
  destruct (append_writes_at_end demo_gfs 1 [10; 20; 30; 40; 50] [60] (demo_file 2 true 0))
    as (g' & Hw & _); [done..|]. exists g'. exact Hw.
Defined.

Lemma directory_relative_denied_witness :
  ∃ d, open_dir_at (λ _, true) demo_gfs None (lit "/") (demo_opts true false false false false false) = Ok d ∧
    dir_create_file (λ _, true) demo_gfs d (lit "x") = Some (Err PermissionDenied).
Proof.
  destruct (open_dir_at (λ _, true) demo_gfs None (lit "/") (demo_opts true false false false false false))
    as [d| |] eqn:E; try (vm_compute in E; discriminate E).
  exists d. split; [done|].
  destruct (directory_relative_denied (λ _, true) demo_gfs None (lit "/") (lit "x")
    (demo_opts true false false false false false) (demo_opts true false false false false false) d E eq_refl)
    as (_ & _ & Hc & _). exact Hc.
Defined.

Lemma file_seek_spec_witness :
  file_seek demo_gfs (demo_file 1 false 2) (SeekEnd (-6)) = Err InvalidInput ∧
  file_seek demo_gfs (demo_file 1 false 2) (SeekEnd 100) = Ok (105, demo_file 1 false 105).
Proof.
  split.
  - apply (file_seek_spec demo_gfs (demo_file 1 false 2) (SeekEnd (-6)) (attr_new_file 5 0)); done.
  - apply (file_seek_spec demo_gfs (demo_file 1 false 2) (SeekEnd 100) (attr_new_file 5 0)); done.
Defined.
