(* ===== verification/Disk.v ===== *)
(** The disk with a cursor that a disk file system works on
    ([modules/async_fs/src/dev.rs]), and the byte streams [Read], [Write] and
    [Seek] the FAT file system makes of it ([modules/async_fs/src/fs/fatfs.rs]).

    The block device behind it (axdriver, not in the repository) is the class
    [BlockDevice]: a whole block is read or written at a time, and a call may
    fail with a device error.  [BlockLaws] states what a driver promises: the
    device has a fixed number of 512-byte blocks, a block read is the block, a
    block written replaces that block and nothing else.  The theorems say that
    the cursor turns such a device into one flat array of bytes. *)

From S2P Require Import Prelude Path Vfs RootFs Fops.

Definition BLOCK_SIZE : Z := 512.

Class BlockDevice (D E : Type) := {
  block_size : D → Z;
  num_blocks : D → Z;
  (** [read_block(block_id, buf)]: the bytes put in a buffer of one block. *)
  read_block : Z → D → (list Z + E) * D;
  write_block : Z → list Z → D → (unit + E) * D }.

(** [Result<A, E>] of a call that can also panic. *)
Inductive dev_result (E A : Type) := DOk (a : A) | DErr (e : E) | DPanic.
Arguments DOk {E A} a.
Arguments DErr {E A} e.
Arguments DPanic {E A}.

Record Disk (D : Type) := mk_disk { block_id : Z; offset : Z; dev : D }.
Arguments mk_disk {D} block_id offset dev.
Arguments block_id {D} d.
Arguments offset {D} d.
Arguments dev {D} d.

(** [&data[start..start + count]] and the [copy_from_slice] into it. *)
Definition sub_slice (start count : Z) (data : list Z) : list Z := take (Z.to_nat count) (drop (Z.to_nat start) data).
Definition splice (start : Z) (buf data : list Z) : list Z :=
  take (Z.to_nat start) data ++ buf ++ drop (Z.to_nat start + length buf) data.

Section disk.
Context {D E : Type} `{BlockDevice D E}.
Implicit Types d : Disk D.

Definition new_disk (v : D) : outcome (Disk D) :=
  if decide (block_size v = BLOCK_SIZE) then Ok (mk_disk 0 0 v) else Panic.

Definition size d : Z := wrap64 (num_blocks (dev d) * BLOCK_SIZE).
Definition position d : Z := wrap64 (block_id d * BLOCK_SIZE + offset d).
Definition set_position (pos : Z) d : Disk D := mk_disk (pos / BLOCK_SIZE) (pos mod BLOCK_SIZE) (dev d).

(** The cursor after [count] bytes of a block. *)
Definition advance (count : Z) (v : D) d : Disk D :=
  let off := wrap64 (offset d + count) in
  if decide (BLOCK_SIZE ≤ off) then mk_disk (wrap64 (block_id d + 1)) (off - BLOCK_SIZE) v
  else mk_disk (block_id d) off v.

(** [start + count] is a slice's end: within the block, and not before its start. *)
Definition in_block (start count : Z) : Prop := start ≤ wrap64 (start + count) ≤ BLOCK_SIZE.
#[export] Instance in_block_dec start count : Decision (in_block start count).
Proof. unfold in_block. apply _. Defined.

(** [read_one] on a buffer of [n] bytes: how many were read, and the bytes. *)
Definition read_one (n : Z) d : dev_result E (Z * list Z) * Disk D :=
  if decide (offset d = 0 ∧ BLOCK_SIZE ≤ n) then
    match read_block (block_id d) (dev d) with
    | (inl bs, v) => (DOk (BLOCK_SIZE, bs), mk_disk (wrap64 (block_id d + 1)) (offset d) v)
    | (inr e, v) => (DErr e, mk_disk (block_id d) (offset d) v)
    end
  else
    let count := Z.min n (wrap64 (BLOCK_SIZE - offset d)) in
    match read_block (block_id d) (dev d) with
    | (inl data, v) =>
        if decide (in_block (offset d) count)
        then (DOk (count, sub_slice (offset d) count data), advance count v d)
        else (DPanic, mk_disk (block_id d) (offset d) v)
    | (inr e, v) => (DErr e, mk_disk (block_id d) (offset d) v)
    end.

Definition write_one (buf : list Z) d : dev_result E Z * Disk D :=
  let n := Z.of_nat (length buf) in
  if decide (offset d = 0 ∧ BLOCK_SIZE ≤ n) then
    match write_block (block_id d) (take 512 buf) (dev d) with
    | (inl _, v) => (DOk BLOCK_SIZE, mk_disk (wrap64 (block_id d + 1)) (offset d) v)
    | (inr e, v) => (DErr e, mk_disk (block_id d) (offset d) v)
    end
  else
    let count := Z.min n (wrap64 (BLOCK_SIZE - offset d)) in
    match read_block (block_id d) (dev d) with
    | (inr e, v) => (DErr e, mk_disk (block_id d) (offset d) v)
    | (inl data, v) =>
        if decide (in_block (offset d) count) then
          match write_block (block_id d) (splice (offset d) (take (Z.to_nat count) buf) data) v with
          | (inl _, v') => (DOk count, advance count v' d)
          | (inr e, v') => (DErr e, mk_disk (block_id d) (offset d) v')
          end
        else (DPanic, mk_disk (block_id d) (offset d) v)
    end.

(** [read_offset] and [write_offset] leave the cursor alone; both unwrap. *)
Definition read_offset (off : Z) d : outcome (list Z) * Disk D :=
  match read_block (off / BLOCK_SIZE) (dev d) with
  | (inl data, v) => (Ok data, mk_disk (block_id d) (offset d) v)
  | (inr _, v) => (Panic, mk_disk (block_id d) (offset d) v)
  end.
Definition write_offset (off : Z) (buf : list Z) d : outcome Z * Disk D :=
  if decide (Z.of_nat (length buf) = BLOCK_SIZE ∧ off mod BLOCK_SIZE = 0) then
    match write_block (off / BLOCK_SIZE) buf (dev d) with
    | (inl _, v) => (Ok BLOCK_SIZE, mk_disk (block_id d) (offset d) v)
    | (inr _, v) => (Panic, mk_disk (block_id d) (offset d) v)
    end
  else (Panic, d).

(** *** [fatfs::Read], [Write] and [Seek] for [Disk]

    The loops run until the buffer is empty; the fuel is one more than its
    length, and [None] stands for a loop that is out of fuel. *)
Fixpoint read_loop (fuel : nat) (n read_len : Z) (acc : list Z) d
    : option (dev_result unit (Z * list Z)) * Disk D :=
  match fuel with
  | O => (None, d)
  | S fuel =>
      if decide (n = 0) then (Some (DOk (read_len, acc)), d) else
      match read_one n d with
      | (DOk (k, bs), d') =>
          if decide (k = 0) then (Some (DOk (read_len, acc)), d')
          else read_loop fuel (n - k) (read_len + k) (acc ++ bs) d'
      | (DErr _, d') => (Some (DErr ()), d')
      | (DPanic, d') => (Some DPanic, d')
      end
  end.
Definition disk_read (n : Z) d := read_loop (S (Z.to_nat n)) n 0 [] d.

Fixpoint write_loop (fuel : nat) (buf : list Z) (write_len : Z) d : option (dev_result unit Z) * Disk D :=
  match fuel with
  | O => (None, d)
  | S fuel =>
      if decide (buf = []) then (Some (DOk write_len), d) else
      match write_one buf d with
      | (DOk k, d') =>
          if decide (k = 0) then (Some (DOk write_len), d')
          else write_loop fuel (drop (Z.to_nat k) buf) (write_len + k) d'
      | (DErr _, d') => (Some (DErr ()), d')
      | (DPanic, d') => (Some DPanic, d')
      end
  end.
Definition disk_write (buf : list Z) d := write_loop (S (length buf)) buf 0 d.

(** [flush] does nothing. *)
Definition disk_flush d : (unit + unit) * Disk D := (inl (), d).

Definition disk_seek (pos : SeekFrom) d : (Z + unit) * Disk D :=
  match match pos with
        | SeekStart p => Some p
        | SeekCurrent off => checked_add_u64 (position d) off
        | SeekEnd off => checked_add_u64 (size d) off
        end with
  | None => (inr (), d)
  | Some new_pos => (inl new_pos, set_position new_pos d)
  end.
End disk.

(** ** The flat array *)

Class BlockLaws (D E : Type) `{BlockDevice D E} := {
  bytes_of : D → list Z;
  bytes_length v : Z.of_nat (length (bytes_of v)) = num_blocks v * BLOCK_SIZE;
  read_block_ok b v r v' :
    read_block b v = (r, v') →
    bytes_of v' = bytes_of v ∧
    (∀ bs, r = inl bs → 0 ≤ b < num_blocks v ∧ bs = sub_slice (b * BLOCK_SIZE) BLOCK_SIZE (bytes_of v));
  write_block_ok b bs v r v' :
    length bs = 512%nat → write_block b bs v = (r, v') →
    num_blocks v' = num_blocks v ∧
    (r = inl () → 0 ≤ b < num_blocks v ∧ bytes_of v' = splice (b * BLOCK_SIZE) bs (bytes_of v)) }.

(** A device that fails no call within its range. *)
Class Healthy (D E : Type) `{BlockDevice D E} := {
  read_healthy b v : 0 ≤ b < num_blocks v → ∃ bs, (read_block b v).1 = inl bs;
  write_healthy b bs v : 0 ≤ b < num_blocks v → length bs = 512%nat → (write_block b bs v).1 = inl () }.

Section flat.
Context {D E : Type} `{BL : BlockLaws D E}.
Implicit Types d : Disk D.

(** The cursor is inside a block, and the device can be addressed. *)
Definition disk_ok d : Prop :=
  0 ≤ block_id d ∧ 0 ≤ offset d < BLOCK_SIZE ∧ num_blocks (dev d) * BLOCK_SIZE < two64 ∧
  block_id d * BLOCK_SIZE + offset d < two64.
Definition flat d : list Z := bytes_of (dev d).

(** Some block of the device could not be read, or not be written. *)
Definition device_failed : Prop := ∃ e b v, 0 ≤ b < num_blocks v ∧
  ((read_block b v).1 = inr e ∨ ∃ bs, length bs = 512%nat ∧ (write_block b bs v).1 = inr e).

Lemma blocks_kept v v' : bytes_of v' = bytes_of v → num_blocks v' = num_blocks v.
Proof. intros Hv. pose proof (bytes_length v). pose proof (bytes_length v'). rewrite Hv in *. unfold BLOCK_SIZE in *. lia. Qed.

Lemma length_flat d : disk_ok d → Z.of_nat (length (flat d)) = size d.
Proof.
  intros (Hb & Ho & Hn & Hp). unfold flat, size. pose proof (bytes_length (dev d)) as Hl. rewrite Hl, wrap64_small; [done|].
  unfold is_u64. lia.
Qed.

Lemma position_eq d : disk_ok d → position d = block_id d * BLOCK_SIZE + offset d.
Proof. intros (? & ? & ? & ?). unfold position. apply wrap64_small. unfold is_u64, BLOCK_SIZE in *. lia. Qed.

Lemma sub_slice_slice a n b m (l : list Z) :
  0 ≤ a → 0 ≤ n → 0 ≤ b → 0 ≤ m → b + m ≤ n → sub_slice b m (sub_slice a n l) = sub_slice (a + b) m l.
Proof.
  intros. unfold sub_slice. rewrite skipn_firstn_comm, take_take, drop_drop. f_equal; [lia|]. f_equal. lia.
Qed.

Lemma lookup_sub_slice a n (l : list Z) i :
  sub_slice a n l !! i = if decide (i < Z.to_nat n)%nat then l !! (Z.to_nat a + i)%nat else None.
Proof.
  unfold sub_slice. case_decide.
  - by rewrite lookup_take_lt, lookup_drop by done.
  - apply lookup_take_ge. lia.
Qed.

Lemma lookup_splice a (b l : list Z) i : a + Z.of_nat (length b) ≤ Z.of_nat (length l) → 0 ≤ a →
  splice a b l !! i = if decide (Z.to_nat a ≤ i < Z.to_nat a + length b)%nat then b !! (i - Z.to_nat a)%nat else l !! i.
Proof.
  intros Hl Ha. unfold splice. assert (Ht : length (take (Z.to_nat a) l) = Z.to_nat a) by (rewrite length_take; lia).
  case_decide as Hi.
  - rewrite lookup_app_r, lookup_app_l; rewrite Ht; [done|lia..].
  - destruct (decide (i < Z.to_nat a)%nat).
    + rewrite lookup_app_l by lia. by apply lookup_take_lt.
    + rewrite lookup_app_r by lia. rewrite lookup_app_r by lia. rewrite Ht, lookup_drop. f_equal. lia.
Qed.

Lemma sub_slice_app a n m (l : list Z) :
  0 ≤ a → 0 ≤ n → 0 ≤ m → sub_slice a n l ++ sub_slice (a + n) m l = sub_slice a (n + m) l.
Proof.
  intros. unfold sub_slice. rewrite !Z2Nat.inj_add, <- drop_drop by lia. apply take_take_drop.
Qed.

Lemma length_sub_slice a n (l : list Z) :
  0 ≤ a → 0 ≤ n → a + n ≤ Z.of_nat (length l) → Z.of_nat (length (sub_slice a n l)) = n.
Proof. intros. unfold sub_slice. rewrite length_take, length_drop. lia. Qed.

Lemma length_splice a (b l : list Z) :
  0 ≤ a → a + Z.of_nat (length b) ≤ Z.of_nat (length l) → length (splice a b l) = length l.
Proof. intros. unfold splice. rewrite !length_app, length_take, length_drop. lia. Qed.

(** Writing a part of a block back to the array, and two writes in a row. *)
Lemma splice_block a n o (b l : list Z) :
  0 ≤ a → 0 ≤ o → o + Z.of_nat (length b) ≤ n → a + n ≤ Z.of_nat (length l) →
  splice a (splice o b (sub_slice a n l)) l = splice (a + o) b l.
Proof.
  intros Ha Ho Hn Hl. assert (Hs := length_sub_slice a n l Ha ltac:(lia) Hl).
  apply list_eq. intros i. rewrite !lookup_splice; rewrite ?length_splice; try lia.
  rewrite lookup_sub_slice. repeat case_decide; try lia; f_equal; lia.
Qed.

Lemma splice_app a (b c l : list Z) :
  0 ≤ a → a + Z.of_nat (length b + length c) ≤ Z.of_nat (length l) →
  splice (a + Z.of_nat (length b)) c (splice a b l) = splice a (b ++ c) l.
Proof.
  intros Ha Hl. apply list_eq. intros i. rewrite !lookup_splice; rewrite ?length_splice, ?length_app; try lia.
  repeat case_decide; try lia; try done.
  - rewrite lookup_app_r by lia. f_equal. lia.
  - by rewrite lookup_app_l by lia.
Qed.

Lemma sub_slice_splice a (b l : list Z) :
  0 ≤ a → a + Z.of_nat (length b) ≤ Z.of_nat (length l) → sub_slice a (Z.of_nat (length b)) (splice a b l) = b.
Proof.
  intros Ha Hl. apply list_eq. intros i. rewrite lookup_sub_slice, lookup_splice by lia.
  repeat case_decide; try lia; [f_equal; lia|]. symmetry. apply lookup_ge_None. lia.
Qed.

(** Where the cursor stands, as numbers. *)
Lemma cursor_facts d n : disk_ok d → 0 < n → position d + n ≤ size d →
  position d = block_id d * BLOCK_SIZE + offset d ∧ size d = num_blocks (dev d) * BLOCK_SIZE ∧
  0 ≤ block_id d < num_blocks (dev d) ∧ 0 ≤ offset d < BLOCK_SIZE ∧ num_blocks (dev d) * BLOCK_SIZE < two64.
Proof.
  intros Hd Hn Hp. pose proof (position_eq d Hd) as Hpos. destruct Hd as (Hb & Ho & Hnb & _).
  assert (Hsz : size d = num_blocks (dev d) * BLOCK_SIZE).
  { unfold size. apply wrap64_small. pose proof (bytes_length (dev d)). unfold is_u64. lia. }
  unfold BLOCK_SIZE in *. lia.
Qed.

(** The part of the current block that one step handles. *)
Lemma step_facts d n : disk_ok d → 0 < n → position d + n ≤ size d →
  let count := Z.min n (wrap64 (BLOCK_SIZE - offset d)) in
  count = Z.min n (BLOCK_SIZE - offset d) ∧ 0 < count ∧ in_block (offset d) count.
Proof.
  intros Hd Hn Hp. destruct (cursor_facts d n Hd Hn Hp) as (_ & _ & _ & Ho & _). cbn zeta.
  assert (Hw : wrap64 (BLOCK_SIZE - offset d) = BLOCK_SIZE - offset d)
    by (apply wrap64_small; unfold is_u64, BLOCK_SIZE, two64 in *; lia).
  rewrite Hw. split_and!; [done|unfold BLOCK_SIZE in *; lia|].
  unfold in_block. rewrite wrap64_small by (unfold is_u64, BLOCK_SIZE, two64 in *; lia). lia.
Qed.

Lemma advance_ok d count v n :
  disk_ok d → 0 < count ≤ n → count ≤ BLOCK_SIZE - offset d → position d + n ≤ size d →
  num_blocks v = num_blocks (dev d) →
  disk_ok (advance count v d) ∧ dev (advance count v d) = v ∧ position (advance count v d) = position d + count.
Proof.
  intros Hd Hc Hcb Hp Hv. destruct (cursor_facts d n Hd ltac:(lia) Hp) as (Hpos & Hsz & Hb & Ho & Hnb).
  assert (Hw : wrap64 (offset d + count) = offset d + count)
    by (apply wrap64_small; unfold is_u64, BLOCK_SIZE, two64 in *; lia).
  assert (Hw1 : wrap64 (block_id d + 1) = block_id d + 1)
    by (apply wrap64_small; unfold is_u64, BLOCK_SIZE, two64 in *; lia).
  assert (Hok : disk_ok (advance count v d)).
  { unfold advance. rewrite Hw, Hw1. case_decide; unfold disk_ok; cbn; rewrite Hv; unfold BLOCK_SIZE in *; lia. }
  split; [done|]. split; [unfold advance; by case_decide|].
  rewrite (position_eq _ Hok), Hpos. unfold advance. rewrite Hw, Hw1. case_decide; cbn; unfold BLOCK_SIZE in *; lia.
Qed.

Lemma next_block_ok d v n :
  disk_ok d → offset d = 0 → BLOCK_SIZE ≤ n → position d + n ≤ size d → num_blocks v = num_blocks (dev d) →
  let d' := mk_disk (wrap64 (block_id d + 1)) (offset d) v in
  disk_ok d' ∧ position d' = position d + BLOCK_SIZE.
Proof.
  intros Hd Ho Hn Hp Hv d'.
  destruct (advance_ok d BLOCK_SIZE v n Hd ltac:(unfold BLOCK_SIZE in *; lia) ltac:(lia) Hp Hv) as (Hok & _ & Hpos).
  replace (advance BLOCK_SIZE v d) with d' in *; [done|].
  unfold advance, d'. by rewrite Ho.
Qed.

(** A step either fails with the device, or moves on over bytes of the array. *)
Lemma read_one_ok d n r d' :
  disk_ok d → 0 < n → position d + n ≤ size d → read_one n d = (r, d') →
  disk_ok d' ∧ flat d' = flat d ∧ size d' = size d ∧
  match r with
  | DOk (k, bs) => 0 < k ≤ n ∧ position d' = position d + k ∧ bs = sub_slice (position d) k (flat d)
  | DErr _ => device_failed
  | DPanic => False
  end.
Proof.
  intros Hd Hn Hp. destruct (cursor_facts d n Hd Hn Hp) as (Hpos & Hsz & Hb & Ho & Hnb).
  destruct (step_facts d n Hd Hn Hp) as (Hc & Hc0 & Hin). unfold read_one.
  destruct (read_block (block_id d) (dev d)) as [rr v] eqn:Er.
  destruct (read_block_ok _ _ _ _ Er) as [Hbytes Hr]. pose proof (blocks_kept _ _ Hbytes) as Hnv.
  assert (Hfl : ∀ b o, flat (mk_disk b o v) = flat d) by (intros; exact Hbytes).
  assert (Hszv : ∀ d0, dev d0 = v → size d0 = size d) by (intros d0 Hd0; unfold size; by rewrite Hd0, Hnv).
  assert (Hsame : disk_ok (mk_disk (block_id d) (offset d) v)) by (unfold disk_ok; cbn; rewrite Hnv; exact Hd).
  destruct rr as [bs|e].
  2: { case_decide; intros [= <- <-]; split_and!; try done; eauto; (exists e, (block_id d), (dev d); rewrite Er; split; [lia|by left]). }
  destruct (Hr bs eq_refl) as [_ Hbs]. case_decide as Hdec.
  - intros [= <- <-]. destruct (next_block_ok d v n Hd ltac:(lia) ltac:(lia) Hp Hnv) as [Hok Hpos'].
    split_and!; try done; try lia; [by apply Hszv|].
    rewrite Hbs. f_equal. lia.
  - rewrite decide_True by done. intros [= <- <-].
    destruct (advance_ok d _ v n Hd (conj Hc0 (Z.le_min_l _ _)) ltac:(lia) Hp Hnv) as (Hok & Hdev & Hpos').
    split_and!; try done; try lia; [unfold flat; by rewrite Hdev, Hbytes|by apply Hszv|].
    rewrite Hbs. rewrite sub_slice_slice by (unfold BLOCK_SIZE in *; lia). f_equal. unfold BLOCK_SIZE in *; lia.
Qed.

Lemma write_one_ok d buf r d' :
  disk_ok d → buf ≠ [] → position d + Z.of_nat (length buf) ≤ size d → write_one buf d = (r, d') →
  disk_ok d' ∧ size d' = size d ∧
  match r with
  | DOk k => 0 < k ≤ Z.of_nat (length buf) ∧ position d' = position d + k ∧
             flat d' = splice (position d) (take (Z.to_nat k) buf) (flat d)
  | DErr _ => device_failed
  | DPanic => False
  end.
Proof.
  intros Hd Hne Hp. set (n := Z.of_nat (length buf)) in *. assert (Hn : 0 < n) by (destruct buf; cbn in *; [done|lia]).
  destruct (cursor_facts d n Hd Hn Hp) as (Hpos & Hsz & Hb & Ho & Hnb).
  destruct (step_facts d n Hd Hn Hp) as (Hc & Hc0 & Hin). unfold write_one. fold n.
  assert (Hszv : ∀ d0, num_blocks (dev d0) = num_blocks (dev d) → size d0 = size d) by (intros d0 Hd0; unfold size; by rewrite Hd0).
  assert (Hsame : ∀ v, num_blocks v = num_blocks (dev d) → disk_ok (mk_disk (block_id d) (offset d) v))
    by (intros v Hv; unfold disk_ok; cbn; rewrite Hv; exact Hd).
  pose proof (bytes_length (dev d)) as Hlen. case_decide as Hdec.
  - assert (H512 : length (take 512 buf) = 512%nat) by (rewrite length_take; subst n; unfold BLOCK_SIZE in *; lia).
    destruct (write_block (block_id d) (take 512 buf) (dev d)) as [[[]|e] v] eqn:Ew;
      destruct (write_block_ok _ _ _ _ _ H512 Ew) as [Hnv Hr]; intros [= <- <-].
    + destruct (Hr eq_refl) as [_ Hby]. destruct (next_block_ok d v n Hd ltac:(lia) ltac:(lia) Hp Hnv) as [Hok Hpos'].
      split_and!; try done; try lia; [by apply Hszv|]. unfold flat; cbn. rewrite Hby. f_equal. lia.
    + split_and!; [by apply Hsame|by apply Hszv|]. exists e, (block_id d), (dev d). split; [done|]. right.
      exists (take 512 buf). by rewrite Ew.
  - destruct (read_block (block_id d) (dev d)) as [rr v] eqn:Er.
    destruct (read_block_ok _ _ _ _ Er) as [Hbytes Hr]. pose proof (blocks_kept _ _ Hbytes) as Hnv.
    destruct rr as [data|e].
    2: { intros [= <- <-]. split_and!; [by apply Hsame|by apply Hszv|]. exists e, (block_id d), (dev d). rewrite Er. split; [done|by left]. }
    destruct (Hr data eq_refl) as [_ ->]. rewrite decide_True by done.
    set (part := take (Z.to_nat _) buf). set (blk := splice _ _ _).
    set (count := Z.min n (wrap64 (BLOCK_SIZE - offset d))) in *.
    assert (Hpl : Z.of_nat (length part) = count) by (unfold part; rewrite length_take; subst n; lia).
    assert (Hsl := length_sub_slice (block_id d * BLOCK_SIZE) BLOCK_SIZE (bytes_of (dev d)) ltac:(unfold BLOCK_SIZE; lia) ltac:(done) ltac:(unfold BLOCK_SIZE in *; lia)).
    assert (Hbl : length blk = 512%nat) by (unfold blk; rewrite length_splice; unfold BLOCK_SIZE in *; lia).
    destruct (write_block (block_id d) blk v) as [[[]|e] v'] eqn:Ew;
      destruct (write_block_ok _ _ _ _ _ Hbl Ew) as [Hnv' Hw]; intros [= <- <-].
    + destruct (Hw eq_refl) as [_ Hby].
      destruct (advance_ok d count v' n Hd ltac:(lia) ltac:(lia) Hp ltac:(congruence)) as (Hok & Hdev & Hpos').
      split_and!; try done; try lia; [apply Hszv; rewrite Hdev; congruence|].
      unfold flat. rewrite Hdev, Hby, Hbytes. fold part. unfold blk. rewrite splice_block; unfold BLOCK_SIZE in *; try lia.
      f_equal. lia.
    + split_and!; [apply Hsame; congruence|apply Hszv; cbn; congruence|]. exists e, (block_id d), v.
      split; [lia|]. right. exists blk. by rewrite Ew.
Qed.

Lemma disk_read_loop_ok fuel : ∀ n k acc d, disk_ok d → 0 ≤ n → (Z.to_nat n < fuel)%nat → position d + n ≤ size d →
  ∃ r d', read_loop fuel n k acc d = (Some r, d') ∧ disk_ok d' ∧ flat d' = flat d ∧ size d' = size d ∧
    match r with
    | DOk (k', bs) => k' = k + n ∧ position d' = position d + n ∧ bs = acc ++ sub_slice (position d) n (flat d)
    | DErr _ => device_failed
    | DPanic => False
    end.
Proof.
  induction fuel as [|fuel IH]; intros n k acc d Hd Hn Hf Hp; [lia|]. cbn. case_decide as Hz.
  { subst n. do 2 eexists. split; [done|]. split_and!; try done; try lia. unfold sub_slice. by rewrite app_nil_r. }
  destruct (read_one n d) as [r d'] eqn:Eo. destruct (read_one_ok d n r d' Hd ltac:(lia) Hp Eo) as (Hok & Hfl & Hsz & Hr).
  destruct r as [[k' bs]|e|]; [|by do 2 eexists|done]. destruct Hr as (Hk & Hpos & ->). rewrite decide_False by lia.
  destruct (IH (n - k') (k + k') (acc ++ sub_slice (position d) k' (flat d)) d' Hok) as (r & d2 & -> & Hok2 & Hfl2 & Hsz2 & Hr2); [lia..|].
  exists r, d2. split_and!; try done; try congruence. destruct r as [[k2 bs]| |]; [|done..].
  destruct Hr2 as (-> & -> & ->). split_and!; [lia..|]. rewrite Hfl, Hpos, <- app_assoc, sub_slice_app.
  - do 2 f_equal. lia.
  - rewrite position_eq by done. destruct Hd as (? & ? & _). unfold BLOCK_SIZE in *. lia.
  - lia.
  - lia.
Qed.

Lemma disk_write_loop_ok fuel : ∀ buf k d, disk_ok d → (length buf < fuel)%nat → position d + Z.of_nat (length buf) ≤ size d →
  ∃ r d', write_loop fuel buf k d = (Some r, d') ∧ disk_ok d' ∧ size d' = size d ∧
    match r with
    | DOk k' => k' = k + Z.of_nat (length buf) ∧ position d' = position d + Z.of_nat (length buf) ∧
                flat d' = splice (position d) buf (flat d)
    | DErr _ => device_failed
    | DPanic => False
    end.
Proof.
  induction fuel as [|fuel IH]; intros buf k d Hd Hf Hp; [lia|]. cbn [write_loop]. case_decide as Hz.
  { subst buf. do 2 eexists. split; [done|]. cbn. split_and!; try done; try lia. unfold splice. cbn.
    by rewrite Nat.add_0_r, take_drop. }
  destruct (write_one buf d) as [r d'] eqn:Eo. destruct (write_one_ok d buf r d' Hd Hz Hp Eo) as (Hok & Hsz & Hr).
  destruct r as [k'|e|]; [|by do 2 eexists|done]. destruct Hr as (Hk & Hpos & Hfl). rewrite decide_False by lia.
  destruct (IH (drop (Z.to_nat k') buf) (k + k') d' Hok) as (r & d2 & -> & Hok2 & Hsz2 & Hr2); [rewrite length_drop; lia..|].
  exists r, d2. split_and!; try done; try congruence. destruct r as [k2| |]; [|done..].
  destruct Hr2 as (-> & -> & ->). rewrite length_drop. split_and!; [lia..|].
  rewrite Hfl, Hpos. replace k' with (Z.of_nat (length (take (Z.to_nat k') buf))) at 1 by (rewrite length_take; lia).
  rewrite splice_app, take_drop; [done| |].
  - rewrite position_eq by done. destruct Hd as (? & ? & _). unfold BLOCK_SIZE in *. lia.
  - rewrite <- length_app, take_drop. rewrite length_flat by done. lia.
Qed.

Lemma set_position_ok d p : disk_ok d → is_u64 p → disk_ok (set_position p d) ∧ position (set_position p d) = p.
Proof.
  intros (_ & _ & Hn & _) [Hp Hp2]. assert (Hok : disk_ok (set_position p d)).
  { unfold disk_ok, set_position, BLOCK_SIZE in *; cbn. split_and!; try done; mlia. }
  split; [done|]. rewrite position_eq by done. unfold set_position, BLOCK_SIZE; cbn. mlia.
Qed.
End flat.

(** ** The disk as an array of bytes with a position *)

(** What the file system asks of the disk, and the answers. *)
Inductive request := RRead (n : Z) | RWrite (buf : list Z) | RSeek (pos : SeekFrom).
Inductive answer := ARead (k : Z) (bs : list Z) | AWritten (k : Z) | APos (p : Z) | AFailed.
Record array := mk_array { ar_bytes : list Z; ar_pos : Z }.

Definition new_position (pos : SeekFrom) (cur sz : Z) : option Z :=
  match pos with
  | SeekStart p => Some p
  | SeekCurrent off => checked_add_u64 cur off
  | SeekEnd off => checked_add_u64 sz off
  end.

(** The specification says nothing of a request that leaves the array. *)
Definition array_step (r : request) (a : array) : option (answer * array) :=
  let sz := Z.of_nat (length (ar_bytes a)) in
  match r with
  | RRead n =>
      if decide (0 ≤ n ∧ ar_pos a + n ≤ sz)
      then Some (ARead n (sub_slice (ar_pos a) n (ar_bytes a)), mk_array (ar_bytes a) (ar_pos a + n)) else None
  | RWrite buf =>
      let n := Z.of_nat (length buf) in
      if decide (ar_pos a + n ≤ sz)
      then Some (AWritten n, mk_array (splice (ar_pos a) buf (ar_bytes a)) (ar_pos a + n)) else None
  | RSeek pos =>
      match new_position pos (ar_pos a) sz with
      | Some p => if decide (is_u64 p) then Some (APos p, mk_array (ar_bytes a) p) else None
      | None => Some (AFailed, a)
      end
  end.

Section refinement.
Context {D E : Type} `{BL : BlockLaws D E}.
Implicit Types d : Disk D.

Definition disk_step (r : request) d : option answer * Disk D :=
  match r with
  | RRead n =>
      match disk_read n d with
      | (Some (DOk (k, bs)), d') => (Some (ARead k bs), d')
      | (Some (DErr _), d') => (Some AFailed, d')
      | (_, d') => (None, d')
      end
  | RWrite buf =>
      match disk_write buf d with
      | (Some (DOk k), d') => (Some (AWritten k), d')
      | (Some (DErr _), d') => (Some AFailed, d')
      | (_, d') => (None, d')
      end
  | RSeek pos =>
      match disk_seek pos d with
      | (inl p, d') => (Some (APos p), d')
      | (inr _, d') => (Some AFailed, d')
      end
  end.

(** A list of requests: the answers, and what is left. *)
Fixpoint disk_run (rs : list request) d : option (list answer) * Disk D :=
  match rs with
  | [] => (Some [], d)
  | r :: rs =>
      match disk_step r d with
      | (Some a, d') => let '(l, d2) := disk_run rs d' in ((a ::.) <$> l, d2)
      | (None, d') => (None, d')
      end
  end.
Fixpoint array_run (rs : list request) (a : array) : option (list answer * array) :=
  match rs with
  | [] => Some ([], a)
  | r :: rs => '(x, a') ← array_step r a; '(l, a2) ← array_run rs a'; Some (x :: l, a2)
  end.

Definition as_array d : array := mk_array (flat d) (position d).

Lemma healthy_works : Healthy D E → device_failed → False.
Proof.
  intros HH (e & b & v & Hb & [Hr|(bs & Hl & Hw)]).
  - destruct (read_healthy b v Hb) as [bs Hok]. by rewrite Hok in Hr.
  - by rewrite (write_healthy b bs v Hb Hl) in Hw.
Qed.

Lemma position_nonneg d : disk_ok d → 0 ≤ position d.
Proof. intros Hd. rewrite position_eq by done. destruct Hd as (? & ? & _). unfold BLOCK_SIZE in *. lia. Qed.

Lemma disk_step_refines (HH : Healthy D E) r d x a :
  disk_ok d → array_step r (as_array d) = Some (x, a) →
  ∃ d', disk_step r d = (Some x, d') ∧ disk_ok d' ∧ as_array d' = a.
Proof.
  intros Hd. pose proof (length_flat d Hd) as Hlen. unfold array_step, disk_step, as_array. destruct r as [n|buf|pos]; cbn -[disk_read disk_write disk_seek].
  - case_decide as Hn; [|done]. intros [= <- <-].
    destruct (disk_read_loop_ok (S (Z.to_nat n)) n 0 [] d Hd) as (r & d' & Hrun & Hok & Hfl & Hsz & Hr); [lia..|].
    unfold disk_read. rewrite Hrun. destruct r as [[k bs]|u|]; [|destruct (healthy_works HH Hr)|done].
    destruct Hr as (-> & Hpos & ->). exists d'. split_and!; [done..|]. by rewrite Hfl, Hpos.
  - case_decide as Hn; [|done]. intros [= <- <-].
    destruct (disk_write_loop_ok (S (length buf)) buf 0 d Hd) as (r & d' & Hrun & Hok & Hsz & Hr); [lia..|].
    unfold disk_write. rewrite Hrun. destruct r as [k|u|]; [|destruct (healthy_works HH Hr)|done].
    destruct Hr as (-> & Hpos & Hfl). exists d'. split_and!; [done..|]. by rewrite Hfl, Hpos.
  - unfold disk_seek. rewrite Hlen. fold (new_position pos (position d) (size d)).
    destruct (new_position pos (position d) (size d)) as [p|].
    + case_decide as Hp; [|done]. intros [= <- <-]. destruct (set_position_ok d p Hd Hp) as [Hok Hpos].
      eexists. split_and!; [done..|]. by rewrite Hpos.
    + intros [= <- <-]. by exists d.
Qed.

(** C28: On a device whose driver serves every call within its range, the disk
    with its cursor refines an array of bytes with a position: whatever reads,
    writes and seeks are made within the array, of any length and across any
    number of blocks, the loops end, nothing panics, every answer is the
    array's, and the bytes and the position are the array's afterwards. *)
Theorem disk_refines_array (HH : Healthy D E) (rs : list request) (d : Disk D) (xs : list answer) (a : array)
  (Hd : disk_ok d) (Hrun : array_run rs (as_array d) = Some (xs, a)) :
  ∃ d', disk_run rs d = (Some xs, d') ∧ disk_ok d' ∧ as_array d' = a.
Proof.
  revert d xs a Hd Hrun. induction rs as [|r rs IH]; intros d xs a Hd; cbn.
  { intros [= <- <-]. by exists d. }
  destruct (array_step r (as_array d)) as [[x a1]|] eqn:Es; [|done]. cbn.
  destruct (disk_step_refines HH r d x a1 Hd Es) as (d1 & -> & Hok & <-).
  destruct (array_run rs (as_array d1)) as [[l a2]|] eqn:Er; [|done]. intros [= <- <-].
  destruct (IH d1 l a2 Hok Er) as (d2 & -> & Hok2 & Ha2). by exists d2.
Qed.

(** Whatever the device does, bytes written at a position inside the disk
    are what a read of the same length at that position gives back, unless a
    block could not be read or written; neither loop runs on or panics. *)
Theorem disk_write_read (d : Disk D) (p : Z) (buf : list Z)
  (Hd : disk_ok d) (Hp : 0 ≤ p ∧ p + Z.of_nat (length buf) ≤ size d) :
  let n := Z.of_nat (length buf) in
  ∃ rw d1, disk_write buf (set_position p d) = (Some rw, d1) ∧
    match rw with
    | DOk k => k = n ∧ ∃ rr d2, disk_read n (set_position p d1) = (Some rr, d2) ∧
        match rr with DOk (k', bs) => k' = n ∧ bs = buf | DErr _ => device_failed | DPanic => False end
    | DErr _ => device_failed
    | DPanic => False
    end.
Proof.
  cbn zeta. pose proof (length_flat d Hd) as Hlen.
  assert (Hu : is_u64 p) by (pose proof (wrap64_range (num_blocks (dev d) * BLOCK_SIZE)); unfold is_u64, size in *; lia).
  destruct (set_position_ok d p Hd Hu) as [Hok Hpos].
  destruct (disk_write_loop_ok (S (length buf)) buf 0 _ Hok) as (rw & d1 & Hrun & Hok1 & Hsz & Hw); [lia|rewrite Hpos; apply Hp|].
  exists rw, d1. split; [exact Hrun|]. destruct rw as [k| |]; [|done..]. destruct Hw as (-> & _ & Hfl). split; [done|].
  destruct (set_position_ok d1 p Hok1 Hu) as [Hok2 Hpos2]. set (n := Z.of_nat (length buf)).
  destruct (disk_read_loop_ok (S (Z.to_nat n)) n 0 [] _ Hok2) as (rr & d2 & Hrun2 & _ & _ & _ & Hr); [lia|lia| |].
  { rewrite Hpos2. change (size (set_position p d1)) with (size d1). rewrite Hsz. apply Hp. }
  exists rr, d2. split; [exact Hrun2|]. destruct rr as [[k bs]| |]; [|done..]. destruct Hr as (-> & _ & ->). split; [done|].
  cbn. rewrite Hpos2. change (flat (set_position p d1)) with (flat d1). rewrite Hfl, Hpos.
  apply sub_slice_splice; [lia|]. change (flat (set_position p d)) with (flat d). lia.
Qed.
End refinement.

(** ** A device in memory *)
Module RamDisk.
Definition blocks (v : list Z) : Z := Z.of_nat (length v) / BLOCK_SIZE.

#[export] Instance ram_device : BlockDevice (list Z) () := {
  block_size _ := BLOCK_SIZE;
  num_blocks := blocks;
  read_block b v :=
    (if decide (0 ≤ b < blocks v) then inl (sub_slice (b * BLOCK_SIZE) BLOCK_SIZE v) else inr (), v);
  write_block b bs v :=
    if decide (0 ≤ b < blocks v ∧ length bs = 512%nat) then (inl (), splice (b * BLOCK_SIZE) bs v) else (inr (), v) }.

Definition whole (v : list Z) : list Z := take (Z.to_nat (blocks v * BLOCK_SIZE)) v.

Lemma blocks_fit v : 0 ≤ blocks v ∧ blocks v * BLOCK_SIZE ≤ Z.of_nat (length v).
Proof. unfold blocks, BLOCK_SIZE. mlia. Qed.

Lemma block_inside b v : 0 ≤ b < blocks v → b * BLOCK_SIZE + BLOCK_SIZE ≤ blocks v * BLOCK_SIZE.
Proof. unfold BLOCK_SIZE. lia. Qed.

#[export] Instance ram_laws : BlockLaws (list Z) ().
Proof.
  refine {| bytes_of := whole |}.
  - intros v. unfold whole. pose proof (blocks_fit v) as [H1 H2]. rewrite length_take. change (num_blocks v) with (blocks v).
    unfold BLOCK_SIZE in *. lia.
  - intros b v r v'. cbn. intros [= <- <-]. split; [done|]. case_decide as Hb; [|done]. intros bs [= <-].
    split; [done|]. pose proof (block_inside b v Hb). apply list_eq. intros i. rewrite !lookup_sub_slice.
    case_decide; [|done]. symmetry. apply lookup_take_lt. unfold BLOCK_SIZE in *. lia.
  - intros b bs v r v' Hl. cbn [write_block num_blocks ram_device]. case_decide as Hb; intros [= <- <-]; [|by split].
    destruct Hb as [Hb _]. pose proof (block_inside b v Hb). pose proof (blocks_fit v).
    assert (Hls : length (splice (b * BLOCK_SIZE) bs v) = length v)
      by (apply length_splice; unfold BLOCK_SIZE in *; lia).
    assert (Hbl : blocks (splice (b * BLOCK_SIZE) bs v) = blocks v) by (unfold blocks; by rewrite Hls).
    split; [done|]. intros _. split; [done|]. unfold whole. rewrite Hbl. apply list_eq. intros i.
    assert (Hlw : length (take (Z.to_nat (blocks v * BLOCK_SIZE)) v) = Z.to_nat (blocks v * BLOCK_SIZE)) by (rewrite length_take; lia).
    rewrite (lookup_splice _ _ (take _ _)) by (unfold BLOCK_SIZE in *; lia).
    destruct (decide (i < Z.to_nat (blocks v * BLOCK_SIZE))%nat).
    + rewrite !lookup_take_lt by done. rewrite lookup_splice by (unfold BLOCK_SIZE in *; lia). done.
    + rewrite !lookup_take_ge by lia. rewrite decide_False; [done|]. unfold BLOCK_SIZE in *. lia.
Defined.

#[export] Instance ram_healthy : Healthy (list Z) ().
Proof.
  split.
  - intros b v Hb. cbn in *. rewrite decide_True by done. by eexists.
  - intros b bs v Hb Hl. cbn in *. by rewrite decide_True.
Qed.

Definition demo : Disk (list Z) := mk_disk 0 0 (replicate 1536 0).

Lemma demo_ok : disk_ok demo.
Proof. unfold disk_ok. vm_compute. split_and!; done. Qed.

(** A write over the end of a block, read back from its middle. *)
Definition demo_requests : list request :=
  [RSeek (SeekStart 510); RWrite [1; 2; 3; 4]; RSeek (SeekCurrent (-3)); RRead 5; RSeek (SeekEnd 1)].

Lemma disk_refines_array_witness :
  ∃ d', disk_run demo_requests demo = (Some [APos 510; AWritten 4; APos 511; ARead 5 [2; 3; 4; 0; 0]; APos 1537], d') ∧
    disk_ok d' ∧ as_array d' = mk_array (splice 510 [1; 2; 3; 4] (replicate 1536 0)) 1537.
Proof. apply (disk_refines_array ram_healthy _ _ _ _ demo_ok). vm_compute. reflexivity. Defined.

Lemma disk_write_read_witness :
  ∃ rw d1, disk_write [7; 8; 9] (set_position 1023 demo) = (Some rw, d1) ∧
    match rw with
    | DOk k => k = 3 ∧ ∃ rr d2, disk_read 3 (set_position 1023 d1) = (Some rr, d2) ∧
        match rr with DOk (k', bs) => k' = 3 ∧ bs = [7; 8; 9] | DErr _ => device_failed | DPanic => False end
    | DErr _ => device_failed
    | DPanic => False
    end.
Proof. apply (disk_write_read demo 1023 [7; 8; 9] demo_ok). vm_compute. split; done. Defined.
End RamDisk.
