(* ===== verification/FatFs.v ===== *)
(** The FAT file system behind the VFS ([modules/async_fs/src/fs/fatfs.rs]):
    the wrappers that make VFS nodes of the files and directories of a mounted
    FAT volume.

    The volume itself is the crate fatfs, which is not in the repository: it is
    the class [FatVolume], over a state [W] that every call may change (the
    cursor of the disk moves whenever a directory is read).  Open files and
    directories are handles.  [FatFileLaws] states what its [Read], [Write] and
    [Seek] promise of a file: a position, short reads and writes, an end.  A
    wrapper holds its file in a [Mutex] and does all of an operation with it
    locked, so an operation here is one step of [W]. *)

From S2P Require Import Prelude Path Vfs VfsProps RootFs Fops Disk.

(** The errors of fatfs that [as_vfs_err] tells apart. *)
Inductive FatError :=
  | FatAlreadyExists | FatCorruptedFileSystem | FatDirectoryIsNotEmpty | FatInvalidInput
  | FatInvalidFileNameLength | FatUnsupportedFileNameCharacter | FatNotEnoughSpace | FatNotFound
  | FatUnexpectedEof | FatWriteZero | FatIo | FatOther.

Definition as_vfs_err (e : FatError) : AxError :=
  match e with
  | FatAlreadyExists => AlreadyExists
  | FatCorruptedFileSystem => InvalidData
  | FatDirectoryIsNotEmpty => DirectoryNotEmpty
  | FatInvalidInput | FatInvalidFileNameLength | FatUnsupportedFileNameCharacter => InvalidInput
  | FatNotEnoughSpace => StorageFull
  | FatNotFound => NotFound
  | FatUnexpectedEof => UnexpectedEof
  | FatWriteZero => WriteZero
  | FatIo => Io
  | FatOther => Io
  end.

(** An entry a directory's iterator yields, and the handles it opens. *)
Record FatEntry := { fe_name : str; fe_is_file : bool; fe_is_dir : bool; fe_file : Z; fe_dir : Z }.

Class FatVolume (W : Type) := {
  ff_seek : Z → SeekFrom → W → (Z + FatError) * W;
  (** the bytes put at the front of a buffer of the given length *)
  ff_read : Z → Z → W → (list Z + FatError) * W;
  ff_write : Z → list Z → W → (Z + FatError) * W;
  ff_truncate : Z → W → (unit + FatError) * W;
  fd_iter : Z → W → list (FatEntry + FatError) * W;
  fd_open_dir : Z → str → W → (Z + FatError) * W;
  fd_create_file : Z → str → W → (unit + FatError) * W;
  fd_create_dir : Z → str → W → (unit + FatError) * W;
  fd_remove : Z → str → W → (unit + FatError) * W;
  fd_rename : Z → str → Z → str → W → (unit + FatError) * W;
  fv_root_dir : W → Z }.

(** A node of the volume: [FileWrapper] or [DirWrapper]. *)
Inductive fatnode := FatFile (f : Z) | FatDir (d : Z).
#[export] Instance fatnode_eq_dec : EqDecision fatnode.
Proof. solve_decision. Defined.

Definition PERM_755 : Z := from_bits_truncate 493.

(** [map_err(as_vfs_err)]. *)
Definition vfs_result {A} (r : A + FatError) : outcome A :=
  match r with inl a => Ok a | inr e => Err (as_vfs_err e) end.

Section wrapper.
Context {W : Type} `{FatVolume W}.
Implicit Types (w : W) (path : str).

(** *** [FatFileSystem] *)

(** [init] keeps the root's wrapper; [root_dir] unwraps it. *)
Definition fat_init w : option fatnode := Some (FatDir (fv_root_dir w)).
Definition fat_root_dir (root : option fatnode) : outcome fatnode :=
  match root with Some n => Ok n | None => Panic end.

(** *** [FileWrapper] *)
Definition file_get_attr (f : Z) w : outcome VfsNodeAttr * W :=
  match ff_seek f (SeekEnd 0) w with
  | (inl sz, w) =>
      (Ok {| at_mode := PERM_755; at_ty := TFile; at_size := sz;
             at_blocks := wrap64 (sz + BLOCK_SIZE - 1) / BLOCK_SIZE |}, w)
  | (inr e, w) => (Err (as_vfs_err e), w)
  end.

(** The loop of [poll_read_at]: [probe] starts as long as the buffer and is cut
    by what was read, so its length is what is still missing. *)
Fixpoint read_at_loop (fuel : nat) (f missing : Z) (acc : list Z) w : option (outcome (list Z)) * W :=
  match fuel with
  | O => (None, w)
  | S fuel =>
      if decide (missing ≤ 0) then (Some (Ok acc), w) else
      match ff_read f missing w with
      | (inr e, w) => (Some (Err (as_vfs_err e)), w)
      | (inl bs, w) =>
          if decide (bs = []) then (Some (Ok acc), w)
          else if decide (missing < Z.of_nat (length bs)) then (Some Panic, w)
          else read_at_loop fuel f (missing - Z.of_nat (length bs)) (acc ++ bs) w
      end
  end.

(** The bytes read; how many there are is the answer. *)
Definition file_read_at (f offset len : Z) w : option (outcome (list Z)) * W :=
  match ff_seek f (SeekStart offset) w with
  | (inr e, w) => (Some (Err (as_vfs_err e)), w)
  | (inl _, w) => read_at_loop (S (Z.to_nat len)) f len [] w
  end.

Fixpoint write_at_loop (fuel : nat) (f : Z) (probe : list Z) (now_offset : Z) w : option (outcome Z) * W :=
  match fuel with
  | O => (None, w)
  | S fuel =>
      if decide (probe = []) then (Some (Ok now_offset), w) else
      match ff_write f probe w with
      | (inr e, w) => (Some (Err (as_vfs_err e)), w)
      | (inl k, w) =>
          if decide (k = 0) then (Some (Ok now_offset), w)
          else if decide (Z.of_nat (length probe) < k) then (Some Panic, w)
          else write_at_loop fuel f (drop (Z.to_nat k) probe) (now_offset + k) w
      end
  end.
Definition file_write_at (f offset : Z) (buf : list Z) w : option (outcome Z) * W :=
  match ff_seek f (SeekStart offset) w with
  | (inr e, w) => (Some (Err (as_vfs_err e)), w)
  | (inl _, w) => write_at_loop (S (length buf)) f buf 0 w
  end.

Definition file_truncate (f sz : Z) w : outcome unit * W :=
  match ff_seek f (SeekStart sz) w with
  | (inr e, w) => (Err (as_vfs_err e), w)
  | (inl _, w) => let '(r, w) := ff_truncate f w in (vfs_result r, w)
  end.

(** *** [DirWrapper] *)
Definition dir_get_attr : outcome VfsNodeAttr :=
  Ok {| at_mode := PERM_755; at_ty := TDir; at_size := BLOCK_SIZE; at_blocks := 1 |}.

Definition dir_parent (d : Z) w : option fatnode * W :=
  match fd_open_dir d [DOT; DOT] w with
  | (inl p, w) => (Some (FatDir p), w)
  | (inr _, w) => (None, w)
  end.

(** The scan of [lookup]: an entry that cannot be read ends it; an entry of the
    name that is neither file nor directory is passed over. *)
Fixpoint scan_entries (es : list (FatEntry + FatError)) path : outcome fatnode :=
  match es with
  | [] => Err NotFound
  | inr _ :: _ => Err Io
  | inl e :: es =>
      if decide (fe_name e = path) then
        if fe_is_file e then Ok (FatFile (fe_file e))
        else if fe_is_dir e then Ok (FatDir (fe_dir e)) else scan_entries es path
      else scan_entries es path
  end.

Definition find_entry (d : Z) path w : outcome fatnode * W :=
  let '(es, w) := fd_iter d w in (scan_entries es path, w).

(** [strip_prefix("./")] and [split_once('/')]. *)
Definition strip_here path : option str := strip [DOT; SLASH] path.

Fixpoint dir_lookup (fuel : nat) (d : Z) path w : option (outcome fatnode) * W :=
  match fuel with
  | O => (None, w)
  | S fuel =>
      let path := trim_slashes path in
      if decide (path = [] ∨ path = [DOT]) then (Some (Ok (FatDir d)), w) else
      match strip_here path with
      | Some rest => dir_lookup fuel d rest w
      | None =>
          match find_slash path with
          | Some (dir, rest) =>
              match dir_lookup fuel d dir w with
              | (Some (Ok (FatDir d')), w) => dir_lookup fuel d' rest w
              | (Some (Ok (FatFile _)), w) => (Some (Err NotADirectory), w)
              | r => r
              end
          | None => let '(r, w) := find_entry d path w in (Some r, w)
          end
      end
  end.
(** Each call is on a shorter path. *)
Definition fat_lookup (v : fatnode) path w : option (outcome fatnode) * W :=
  match v with
  | FatFile _ => (Some (Err NotADirectory), w)
  | FatDir d => dir_lookup (S (length path)) d path w
  end.

Fixpoint dir_create (fuel : nat) (d : Z) path (ty : VfsNodeType) w : option (outcome unit) * W :=
  match fuel with
  | O => (None, w)
  | S fuel =>
      let path := trim_slashes path in
      if decide (path = [] ∨ path = [DOT]) then (Some (Ok ()), w) else
      match strip_here path with
      | Some rest => dir_create fuel d rest ty w
      | None =>
          match ty with
          | TFile => let '(r, w) := fd_create_file d path w in (Some (vfs_result r), w)
          | TDir => let '(r, w) := fd_create_dir d path w in (Some (vfs_result r), w)
          | _ => (Some (Err Unsupported), w)
          end
      end
  end.
Definition fat_create (v : fatnode) path (ty : VfsNodeType) w : option (outcome unit) * W :=
  match v with
  | FatFile _ => (Some (Err NotADirectory), w)
  | FatDir d => dir_create (S (length path)) d path ty w
  end.

(** The [assert!] is on every recursive call too. *)
Fixpoint dir_remove (fuel : nat) (d : Z) path w : option (outcome unit) * W :=
  match fuel with
  | O => (None, w)
  | S fuel =>
      let path := trim_slashes path in
      if decide (path = []) then (Some Panic, w) else
      match strip_here path with
      | Some rest => dir_remove fuel d rest w
      | None => let '(r, w) := fd_remove d path w in (Some (vfs_result r), w)
      end
  end.
Definition fat_remove (v : fatnode) path w : option (outcome unit) * W :=
  match v with
  | FatFile _ => (Some (Err NotADirectory), w)
  | FatDir d => dir_remove (S (length path)) d path w
  end.

(** The entries stored in [slots] slots, up to an unreadable entry or the end. *)
Fixpoint fill_dirents (slots : nat) (es : list (FatEntry + FatError)) : outcome (list VfsDirEntry) :=
  match slots, es with
  | S slots, inl e :: es =>
      ty ← (if fe_is_dir e then Ok TDir else if fe_is_file e then Ok TFile else Panic : outcome VfsNodeType);
      x ← dirent_new (fe_name e) ty;
      xs ← fill_dirents slots es;
      mret (x :: xs)
  | _, _ => mret []
  end.
Definition fat_read_dir (v : fatnode) (start_idx : Z) (slots : nat) w : outcome (list VfsDirEntry) * W :=
  match v with
  | FatFile _ => (Err NotADirectory, w)
  | FatDir d => let '(es, w) := fd_iter d w in (fill_dirents slots (drop (Z.to_nat start_idx) es), w)
  end.

(** Only the destination is trimmed. *)
Definition dir_rename (d : Z) (src dst : str) w : outcome unit * W :=
  let '(r, w) := fd_rename d src d (trim_slashes dst) w in (vfs_result r, w).
End wrapper.

(** ** Paths of directories

    What a lookup in a directory means: the components of the path that are not
    empty, one after the other. *)
Definition comps (path : str) : list str := filter (λ p, p ≠ []) (split_slash path).

Lemma comps_slashes j t : comps (replicate j SLASH ++ t) = comps t.
Proof.
  unfold comps. rewrite split_slash_slashes, filter_app.
  assert (filter (λ p : str, p ≠ []) (replicate j []) = []) as ->; [|done].
  induction j as [|j IH]; [done|]. cbn. exact IH.
Qed.

Lemma comps_app x y : comps (x ++ SLASH :: y) = comps x ++ comps y.
Proof. unfold comps. by rewrite split_slash_app_gen, filter_app. Qed.

Lemma comps_end t k : comps (t ++ replicate k SLASH) = comps t.
Proof.
  destruct k as [|k]; [by rewrite app_nil_r|]. cbn. rewrite comps_app.
  rewrite <- (app_nil_r (replicate k SLASH)), comps_slashes. apply app_nil_r.
Qed.

Lemma trim_slashes_spec s : ∃ j k, s = replicate j SLASH ++ trim_slashes s ++ replicate k SLASH ∧
  starts_with_slash (trim_slashes s) = false ∧ last (trim_slashes s) ≠ Some SLASH.
Proof.
  destruct (trim_start_spec s) as (j & t & Hs & Ht & Hst).
  destruct (trim_start_spec (reverse t)) as (k & u & Hr & Hu & Hus).
  unfold trim_slashes. rewrite Ht, Hu.
  assert (t = reverse u ++ replicate k SLASH) as Heq.
  { rewrite <- (reverse_involutive t), Hr, reverse_app. f_equal. apply reverse_replicate. }
  exists j, k. split; [by rewrite <- Heq|]. split.
  - destruct (reverse u) as [|c v]; [done|]. rewrite Heq in Hst. exact Hst.
  - rewrite last_reverse. destruct u as [|c v]; [done|]. cbn in *. intros [= ->]. by apply bool_decide_eq_false_1 in Hus.
Qed.

(** A path without a name is nothing but slashes. *)
Lemma comps_nil s : comps s = [] → s = replicate (length s) SLASH.
Proof.
  induction s as [|c s IH]; [done|]. unfold comps in *. cbn. destruct (decide (c = SLASH)) as [->|Hc].
  - cbn. intros Hs. f_equal. by apply IH.
  - destruct (split_slash_cons s) as (q & qs & ->). cbn. done.
Qed.

Lemma comps_trim s : comps (trim_slashes s) = comps s.
Proof. destruct (trim_slashes_spec s) as (j & k & Hs & _ & _). rewrite Hs at 2. by rewrite comps_slashes, comps_end. Qed.

Lemma trim_name p : SLASH ∉ p → trim_slashes p = p.
Proof.
  intros Hp. destruct (trim_slashes_spec p) as (j & k & Hs & _). rewrite Hs at 2.
  destruct j as [|j]; [|rewrite Hs in Hp; set_solver]. destruct k as [|k]; [by rewrite app_nil_r|].
  rewrite Hs in Hp. cbn in Hp. set_solver.
Qed.

Section lookup_props.
Context {W : Type} `{FatVolume W}.

Definition fat_step (v : fatnode) (c : str) (w : W) : outcome fatnode * W :=
  match v with
  | FatFile _ => (Err NotADirectory, w)
  | FatDir d => if decide (c = [DOT]) then (Ok v, w) else find_entry d c w
  end.
Fixpoint fat_walk (v : fatnode) (cs : list str) (w : W) : outcome fatnode * W :=
  match cs with
  | [] => (Ok v, w)
  | c :: cs =>
      match fat_step v c w with
      | (Ok v', w) => fat_walk v' cs w
      | r => r
      end
  end.

Lemma name_comps p : p ≠ [] → SLASH ∉ p → comps p = [p].
Proof. intros Hne Hp. unfold comps. rewrite split_slash_single by done. cbn. by rewrite decide_True. Qed.

Lemma strip_here_name p : SLASH ∉ p → strip_here p = None.
Proof.
  intros Hp. pose proof (strip_spec [DOT; SLASH] p) as Hs. unfold strip_here.
  destruct (strip _ p) as [r|]; [|done]. subst p. set_solver.
Qed.

(** A single name is one step. *)
Lemma dir_lookup_name fuel d p w : p ≠ [] → SLASH ∉ p →
  dir_lookup (S fuel) d p w = let '(r, w') := fat_step (FatDir d) p w in (Some r, w').
Proof.
  intros Hne Hp. cbn [dir_lookup fat_step]. rewrite trim_name by done. case_decide as Hd.
  - destruct Hd as [?| ->]; done.
  - rewrite strip_here_name by done. pose proof (find_slash_spec p) as Hf.
    destruct (find_slash p) as [[l r]|]; [destruct Hf as [-> _]; set_solver|].
    rewrite decide_False; [done|]. intros ->. apply Hd. by right.
Qed.

Lemma dir_lookup_walk fuel : ∀ d path w, (length path < fuel)%nat →
  dir_lookup fuel d path w = let '(r, w') := fat_walk (FatDir d) (comps path) w in (Some r, w').
Proof.
  induction fuel as [|fuel IH]; intros d path w Hf; [lia|].
  cbn [dir_lookup]. pose proof (length_trim_slashes path) as Hlen. rewrite <- comps_trim.
  destruct (trim_slashes_spec path) as (_ & _ & _ & Hst & Hend). set (p := trim_slashes path) in *. clearbody p.
  case_decide as Hd; [by destruct Hd as [-> | ->]|].
  pose proof (strip_spec [DOT; SLASH] p) as Hs. unfold strip_here.
  destruct (strip [DOT; SLASH] p) as [rest|].
  { subst p. cbn [length app] in Hlen. rewrite IH by lia. change ([DOT; SLASH] ++ rest) with ([DOT] ++ SLASH :: rest).
    rewrite comps_app. cbn. done. }
  pose proof (find_slash_spec p) as Hfs. destruct (find_slash p) as [[l r]|].
  - destruct Hfs as [-> Hl]. rewrite comps_app. rewrite length_app in Hlen. cbn [length] in Hlen.
    assert (Hne : l ≠ []) by (intros ->; cbn in Hst; done).
    destruct fuel as [|fuel]; [lia|]. rewrite dir_lookup_name, name_comps by done. cbn [app fat_walk].
    destruct (fat_step (FatDir d) l w) as [[[f|d']|e|] w']; [|by rewrite IH by lia|done..].
    destruct (comps r) as [|c cs] eqn:Hr; [|done]. destruct Hend. rewrite (comps_nil r Hr), last_app_cons.
    change (SLASH :: replicate (length r) SLASH) with (replicate (S (length r)) SLASH).
    by rewrite replicate_S_end, last_snoc.
  - rewrite name_comps by tauto. cbn [fat_walk]. unfold fat_step. rewrite decide_False by tauto.
    destruct (find_entry d p w) as [[v|e|] w']; done.
Qed.
End lookup_props.

(** ** Files

    What fatfs promises of an open file, as [Read], [Write] and [Seek] document
    it: bytes and a position inside them; a seek inside the file goes there; a
    read gives a part of what follows the position, nothing only at the end (or
    into an empty buffer); a write replaces or appends what it says it wrote. *)
Class FatFileLaws (W : Type) `{FatVolume W} := {
  ff_bytes : Z → W → list Z;
  ff_pos : Z → W → Z;
  ff_seek_ok f p w k w' :
    0 ≤ p ≤ Z.of_nat (length (ff_bytes f w)) → ff_seek f (SeekStart p) w = (inl k, w') →
    ff_bytes f w' = ff_bytes f w ∧ ff_pos f w' = p;
  ff_read_ok f n w bs w' :
    0 < n → ff_read f n w = (inl bs, w') →
    ff_bytes f w' = ff_bytes f w ∧ ff_pos f w' = ff_pos f w + Z.of_nat (length bs) ∧ Z.of_nat (length bs) ≤ n ∧
    bs = sub_slice (ff_pos f w) (Z.of_nat (length bs)) (ff_bytes f w) ∧
    (bs = [] → Z.of_nat (length (ff_bytes f w)) ≤ ff_pos f w);
  ff_write_ok f buf w k w' :
    buf ≠ [] → ff_write f buf w = (inl k, w') →
    0 ≤ k ≤ Z.of_nat (length buf) ∧ ff_pos f w' = ff_pos f w + k ∧
    ff_bytes f w' = splice (ff_pos f w) (take (Z.to_nat k) buf) (ff_bytes f w) }.

Section file_props.
Context {W : Type} `{FL : FatFileLaws W}.

(** What a read of [len] bytes at [offset] is to give. *)
Definition window (offset len : Z) (l : list Z) : list Z := sub_slice offset len l.

Lemma window_short offset len (l : list Z) : 0 ≤ offset → Z.of_nat (length l) ≤ offset → window offset len l = [].
Proof. intros H1 H2. unfold window, sub_slice. rewrite drop_ge by lia. apply take_nil. Qed.

Lemma read_at_loop_ok fuel : ∀ f n acc w, (Z.to_nat n < fuel)%nat → 0 ≤ ff_pos f w →
  ∃ r w', read_at_loop fuel f n acc w = (Some r, w') ∧ r ≠ Panic ∧
    ∀ bs, r = Ok bs → ff_bytes f w' = ff_bytes f w ∧ bs = acc ++ window (ff_pos f w) n (ff_bytes f w).
Proof.
  induction fuel as [|fuel IH]; intros f n acc w Hf Hp; [lia|]. cbn. case_decide as Hn.
  { do 2 eexists. split; [done|]. split; [done|]. intros bs [= <-]. split; [done|]. unfold window, sub_slice.
    replace (Z.to_nat n) with 0%nat by lia. by rewrite app_nil_r. }
  destruct (ff_read f n w) as [[bs|e] w1] eqn:Er; [|by do 2 eexists].
  destruct (ff_read_ok f n w bs w1 ltac:(lia) Er) as (Hb & Hpos & Hle & Hbs & Hend). case_decide as Hnil.
  - subst bs. do 2 eexists. split; [done|]. split; [done|]. intros bs [= <-]. split; [done|].
    rewrite window_short, app_nil_r; [done|lia|by apply Hend].
  - rewrite decide_False by lia.
    assert (Hl : 0 < Z.of_nat (length bs)) by (destruct bs; [done|cbn; lia]).
    destruct (IH f (n - Z.of_nat (length bs)) (acc ++ bs) w1) as (r & w2 & -> & Hr & Hok); [lia..|].
    exists r, w2. split; [done|]. split; [done|]. intros bs' ->. destruct (Hok _ eq_refl) as [Hb2 ->].
    split; [congruence|]. rewrite <- app_assoc. f_equal. rewrite Hbs at 1. rewrite Hpos, Hb. unfold window.
    rewrite sub_slice_app by lia. f_equal. lia.
Qed.

(** Reading a file of the FAT volume at an offset inside it either fails
    with an error of the volume or gives exactly the bytes of the file from
    there, as many as were asked for or are left: however short the reads of
    the volume are, the loop ends, does not panic and repeats or loses
    nothing, and leaves the contents as they were. *)
Theorem fat_read_at_window (f offset len : Z) (w : W)
  (Hoff : 0 ≤ offset ≤ Z.of_nat (length (ff_bytes f w))) :
  ∃ r w', file_read_at f offset len w = (Some r, w') ∧ r ≠ Panic ∧
    ∀ bs, r = Ok bs → ff_bytes f w' = ff_bytes f w ∧ bs = window offset len (ff_bytes f w).
Proof.
  unfold file_read_at. destruct (ff_seek f (SeekStart offset) w) as [[k|e] w1] eqn:Es; [|by do 2 eexists].
  destruct (ff_seek_ok f offset w k w1 Hoff Es) as [Hb Hp].
  destruct (read_at_loop_ok (S (Z.to_nat len)) f len [] w1) as (r & w2 & -> & Hr & Hok); [lia..|].
  exists r, w2. split; [done|]. split; [done|]. intros bs Hbs. destruct (Hok bs Hbs) as [Hb2 ->].
  split; [congruence|]. by rewrite Hp, Hb.
Qed.

(** Two writes in a row, the second where the first ended, may both run past the end. *)
Lemma splice_grow a (b c l : list Z) :
  0 ≤ a ≤ Z.of_nat (length l) → splice (a + Z.of_nat (length b)) c (splice a b l) = splice a (b ++ c) l.
Proof.
  intros Ha. unfold splice at 1 3. rewrite Z2Nat.inj_add, Nat2Z.id by lia. unfold splice.
  assert (Ht : length (take (Z.to_nat a) l) = Z.to_nat a) by (rewrite length_take; lia).
  rewrite (take_app_add' (take _ l)) by done. rewrite take_app_length, <- !app_assoc. do 2 f_equal.
  rewrite <- Nat.add_assoc. rewrite drop_app_add' by done. rewrite drop_app_add, drop_drop, length_app.
  by rewrite Nat.add_assoc.
Qed.

Lemma write_at_loop_ok fuel : ∀ f buf done_ w, (length buf < fuel)%nat →
  0 ≤ ff_pos f w ≤ Z.of_nat (length (ff_bytes f w)) → 0 ≤ done_ →
  ∃ r w', write_at_loop fuel f buf done_ w = (Some r, w') ∧ r ≠ Panic ∧
    ∀ k, r = Ok k → ∃ j, k = done_ + j ∧ 0 ≤ j ≤ Z.of_nat (length buf) ∧
      ff_bytes f w' = splice (ff_pos f w) (take (Z.to_nat j) buf) (ff_bytes f w).
Proof.
  assert (Hnil : ∀ a l, splice a [] l = l) by (intros a l; unfold splice; cbn; by rewrite Nat.add_0_r, take_drop).
  induction fuel as [|fuel IH]; intros f buf k0 w Hf Hp Hk; [lia|]. cbn [write_at_loop]. case_decide as Hn.
  { do 2 eexists. split; [done|]. split; [done|]. intros k [= <-]. exists 0. split_and!; [lia..|]. cbn. by rewrite Hnil. }
  destruct (ff_write f buf w) as [[k|e] w1] eqn:Ew; [|by do 2 eexists].
  destruct (ff_write_ok f buf w k w1 Hn Ew) as (Hk1 & Hpos & Hb). case_decide as Hz.
  { subst k. do 2 eexists. split; [done|]. split; [done|]. intros k [= <-]. exists 0. split_and!; [lia..|done]. }
  rewrite decide_False by lia.
  destruct (IH f (drop (Z.to_nat k) buf) (k0 + k) w1) as (r & w2 & -> & Hr & Hok); [rewrite length_drop; lia| |lia|].
  { rewrite Hpos, Hb. unfold splice. rewrite !length_app, !length_take, length_drop. lia. }
  exists r, w2. split; [done|]. split; [done|]. intros k2 ->. destruct (Hok _ eq_refl) as (j & -> & Hj & Hb2).
  rewrite length_drop in Hj. exists (k + j). split_and!; [lia..|]. rewrite Hb2, Hpos, Hb.
  replace (ff_pos f w + k) with (ff_pos f w + Z.of_nat (length (take (Z.to_nat k) buf))) by (rewrite length_take; lia).
  rewrite splice_grow by done. f_equal. rewrite Z2Nat.inj_add by lia. apply take_take_drop.
Qed.

(** Writing to a file of the FAT volume at an offset inside it either fails
    with an error of the volume or answers how many bytes it wrote, and these,
    the first ones of the buffer, stand in the file at the offset, which grows
    when they pass its end; nothing else of the file changes, the loop ends and
    does not panic. *)
Theorem fat_write_at_splices (f offset : Z) (buf : list Z) (w : W)
  (Hoff : 0 ≤ offset ≤ Z.of_nat (length (ff_bytes f w))) :
  ∃ r w', file_write_at f offset buf w = (Some r, w') ∧ r ≠ Panic ∧
    ∀ k, r = Ok k → 0 ≤ k ≤ Z.of_nat (length buf) ∧
      ff_bytes f w' = splice offset (take (Z.to_nat k) buf) (ff_bytes f w).
Proof.
  unfold file_write_at. destruct (ff_seek f (SeekStart offset) w) as [[k|e] w1] eqn:Es; [|by do 2 eexists].
  destruct (ff_seek_ok f offset w k w1 Hoff Es) as [Hb Hp].
  destruct (write_at_loop_ok (S (length buf)) f buf 0 w1) as (r & w2 & -> & Hr & Hok); [lia|by rewrite Hp, Hb|lia|].
  exists r, w2. split; [done|]. split; [done|]. intros k2 ->. destruct (Hok _ eq_refl) as (j & -> & Hj & Hb2).
  rewrite Z.add_0_l. split; [done|]. by rewrite Hb2, Hp, Hb.
Qed.
End file_props.

(** C29: A lookup in a directory of the FAT volume walks the non-empty
    components of the path from that directory, one entry at a time: slashes at
    the ends and in a row do not matter, a dot stays in a directory, a file met
    before the last component is not a directory, and a missing or unreadable
    entry ends the walk with its error; every lookup ends. *)
Theorem fat_lookup_walks `{FatVolume W} (d : Z) (path : str) (w : W) :
  fat_lookup (FatDir d) path w = let '(r, w') := fat_walk (FatDir d) (comps path) w in (Some r, w').
Proof. apply dir_lookup_walk. lia. Qed.

(** ** A volume in memory

    One file, read and written at most two bytes at a time, and two
    directories. *)
Module RamVolume.
Record volume := mk_vol { vo_bytes : list Z; vo_pos : Z }.

Definition file_entry (name : string) (f : Z) : FatEntry + FatError :=
  inl {| fe_name := lit name; fe_is_file := true; fe_is_dir := false; fe_file := f; fe_dir := 0 |}.
Definition dir_entry (name : string) (d : Z) : FatEntry + FatError :=
  inl {| fe_name := lit name; fe_is_file := false; fe_is_dir := true; fe_file := 0; fe_dir := d |}.
Definition entries (d : Z) : list (FatEntry + FatError) :=
  if decide (d = 0) then [file_entry "init" 1; dir_entry "bin" 1]
  else [dir_entry "." 1; dir_entry ".." 0; file_entry "sh" 2].

Definition vo_seek (pos : SeekFrom) (v : volume) : (Z + FatError) * volume :=
  match pos with
  | SeekStart p =>
      if decide (0 ≤ p ≤ Z.of_nat (length (vo_bytes v))) then (inl p, mk_vol (vo_bytes v) p) else (inr FatInvalidInput, v)
  | _ => (inl (Z.of_nat (length (vo_bytes v))), mk_vol (vo_bytes v) (Z.of_nat (length (vo_bytes v))))
  end.

#[export] Instance ram_volume : FatVolume volume := {
  ff_seek _ := vo_seek;
  ff_read _ n v :=
    if decide (0 ≤ vo_pos v) then
      let bs := sub_slice (vo_pos v) (Z.min n 2) (vo_bytes v) in
      (inl bs, mk_vol (vo_bytes v) (vo_pos v + Z.of_nat (length bs)))
    else (inr FatIo, v);
  ff_write _ buf v :=
    let part := take 2 buf in
    (inl (Z.of_nat (length part)),
     mk_vol (splice (vo_pos v) part (vo_bytes v)) (vo_pos v + Z.of_nat (length part)));
  ff_truncate _ v := (inl (), mk_vol (take (Z.to_nat (vo_pos v)) (vo_bytes v)) (vo_pos v));
  fd_iter d v := (entries d, v);
  fd_open_dir d p v := (if decide (d = 1) then inl 0 else inr FatNotFound, v);
  fd_create_file _ _ v := (inr FatNotEnoughSpace, v);
  fd_create_dir _ _ v := (inr FatNotEnoughSpace, v);
  fd_remove _ _ v := (inr FatNotFound, v);
  fd_rename _ _ _ _ v := (inr FatNotFound, v);
  fv_root_dir _ := 0 }.

Lemma sub_slice_self a n (l : list Z) : sub_slice a (Z.of_nat (length (sub_slice a n l))) l = sub_slice a n l.
Proof.
  apply list_eq. intros i. rewrite lookup_sub_slice, Nat2Z.id. case_decide as Hi.
  - rewrite lookup_sub_slice. unfold sub_slice in Hi. rewrite length_take in Hi. by rewrite decide_True by lia.
  - symmetry. apply lookup_ge_None. lia.
Qed.

#[export] Instance ram_file_laws : FatFileLaws volume.
Proof.
  refine {| ff_bytes := λ _, vo_bytes; ff_pos := λ _, vo_pos |}.
  - intros f p w k w' Hp. cbn. rewrite decide_True by done. by intros [= <- <-].
  - intros f n w bs w' Hn. cbn. case_decide as Hpos; [|done]. intros [= <- <-]. cbn.
    split_and!; [done..| |symmetry; apply sub_slice_self|].
    + unfold sub_slice. rewrite length_take. lia.
    + intros Hnil%(f_equal length). unfold sub_slice in Hnil. rewrite length_take, length_drop in Hnil. cbn in Hnil. lia.
  - intros f buf w k w' Hne. cbn. intros [= <- <-]. cbn. split_and!; [lia|rewrite length_take; lia|done|].
    rewrite Nat2Z.id, length_take. f_equal.
    destruct (decide (length buf ≤ 2)%nat); [rewrite !take_ge; [done|lia..]|by rewrite Nat.min_l by lia].
Defined.

Definition demo : volume := mk_vol [10; 20; 30; 40; 50] 3.

Lemma fat_read_at_window_witness :
  ∃ r w', file_read_at 1 1 3 demo = (Some r, w') ∧ r ≠ Panic ∧
    ∀ bs, r = Ok bs → vo_bytes w' = vo_bytes demo ∧ bs = [20; 30; 40].
Proof. refine (fat_read_at_window 1 1 3 demo _). vm_compute. split; done. Defined.

Lemma fat_write_at_splices_witness :
  ∃ r w', file_write_at 1 4 [1; 2; 3] demo = (Some r, w') ∧ r ≠ Panic ∧
    ∀ k, r = Ok k → 0 ≤ k ≤ 3 ∧ vo_bytes w' = splice 4 (take (Z.to_nat k) [1; 2; 3]) [10; 20; 30; 40; 50].
Proof. refine (fat_write_at_splices 1 4 [1; 2; 3] demo _). vm_compute. split; done. Defined.

Example read_ex : (file_read_at 1 1 3 demo).1 = Some (Ok [20; 30; 40]).
Proof. reflexivity. Qed.
Example write_ex : file_write_at 1 4 [1; 2; 3] demo = (Some (Ok 3), mk_vol [10; 20; 30; 40; 1; 2; 3] 7).
Proof. reflexivity. Qed.
Example lookup_ex : (fat_lookup (FatDir 0) (lit "/bin//./sh/") demo).1 = Some (Ok (FatFile 2)).
Proof. reflexivity. Qed.
Example lookup_file_ex : (fat_lookup (FatDir 0) (lit "init/x") demo).1 = Some (Err NotADirectory).
Proof. reflexivity. Qed.
End RamVolume.
