(* ===== verification/TaskRun.v ===== *)
(** Tasks on CPUs: the state machine of a task ([modules/taskctx]: [TaskState],
    [wakeup_task], joining, [CurrentTask]) and the dispatch loop that polls the
    tasks' futures ([modules/trampoline/src/lib.rs], [run_task]), on any number
    of CPUs sharing the kernel scheduler.

    A step is what happens atomically: everything [run_task] does under the
    lock of the task's state, one [wakeup_task], one operation of the run queue
    and the like; the CPUs interleave between steps.  What the future of a task
    does while it is polled is arbitrary: it may register itself somewhere and
    mark itself [Blocking] (a wait list, the timer, a join), wake others, spawn,
    exit.  The scheduler is any instance of the interface of [Scheduler]. *)

From S2P Require Import Prelude BTree LinkedList Scheduler.

Local Open Scope nat_scope.

(** ** Data *)

Inductive TaskState := Running | Runable | Blocking | Waked | Blocked | Exited.

#[export] Instance TaskState_eq_dec : EqDecision TaskState.
Proof. solve_decision. Defined.

(** What a CPU is doing: waiting for a task; holding a task it took from the
    queue and has not made current yet; polling its current task; polling, on
    behalf of its current task, the coroutine of an asynchronous system call;
    telling the joiners of a task that returned. *)
Inductive cpu :=
  | CIdle
  | CPicked (t : TaskRef)
  | CRunning (t : TaskRef)
  | CNested (t kt : TaskRef)
  | CExiting (t : TaskRef).

(** A scheduler that takes any task at any time. *)
Class OpenScheduler (ST : Type) `{SchedulerLaws ST} : Prop := {
  open_add : ∀ s t, sched_can_add s t;
  open_put : ∀ s t, sched_can_put s t
}.

#[export] Instance fifo_open {L : Type} `{!LinkedList TaskRef L, !LinkedListLaws TaskRef L} :
  OpenScheduler (Fifo.FifoScheduler (L := L)).
Proof. by split. Qed.

#[export] Instance rr_open (S : Z) :
  OpenScheduler RoundRobin.RRScheduler (H0 := RoundRobin.RR_SchedulerLaws S).
Proof. by split. Qed.

(** ** The kernel *)

Section kernel.
Context {ST : Type} `{OpenScheduler ST}.

(** The run queue, the state of every task, what every CPU does, and the
    [wait_wakers] and [exit_code] of the tasks. *)
Record kernel := mk_kernel {
  k_sched : ST;
  k_state : gmap TaskRef TaskState;
  k_cpus : list cpu;
  k_wakers : gmap TaskRef (list TaskRef);
  k_exit : gmap TaskRef Z
}.

Definition with_sched (s : ST) (k : kernel) : kernel :=
  mk_kernel s (k_state k) (k_cpus k) (k_wakers k) (k_exit k).
Definition set_state (t : TaskRef) (s : TaskState) (k : kernel) : kernel :=
  mk_kernel (k_sched k) (<[t := s]> (k_state k)) (k_cpus k) (k_wakers k) (k_exit k).
Definition set_cpu (c : nat) (x : cpu) (k : kernel) : kernel :=
  mk_kernel (k_sched k) (k_state k) (<[c := x]> (k_cpus k)) (k_wakers k) (k_exit k).
Definition set_wakers (t : TaskRef) (ws : list TaskRef) (k : kernel) : kernel :=
  mk_kernel (k_sched k) (k_state k) (k_cpus k) (<[t := ws]> (k_wakers k)) (k_exit k).
Definition set_exit_code (t : TaskRef) (code : Z) (k : kernel) : kernel :=
  mk_kernel (k_sched k) (k_state k) (k_cpus k) (k_wakers k) (<[t := code]> (k_exit k)).
Definition drop_task (t : TaskRef) (k : kernel) : kernel :=
  mk_kernel (k_sched k) (delete t (k_state k)) (k_cpus k) (k_wakers k) (k_exit k).

(** [wakeup_task].  A pointer to no task is outside the model: [Panic]. *)
Definition wakeup_task (t : TaskRef) (k : kernel) : outcome kernel :=
  match k_state k !! t with
  | Some Running => Ok k
  | Some Blocking => Ok (set_state t Waked k)
  | Some Runable => Ok k
  | Some Blocked =>
      let k := set_state t Runable k in
      s ← add_task t (k_sched k);
      Ok (with_sched s k)
  | Some Waked => Panic
  | Some Exited => Panic
  | None => Panic
  end.

(** [spawn_raw]: a new task is [Runable] and goes to the run queue. *)
Definition spawn_raw (t : TaskRef) (k : kernel) : outcome kernel :=
  let k := set_wakers t [] (set_state t Runable k) in
  s ← add_task t (k_sched k);
  Ok (with_sched s k).

(** The choice of the next task in [trampoline], when the CPU has none. *)
Definition trampoline_pick (c : nat) (k : kernel) : outcome kernel :=
  '(o, s) ← pick_next_task (k_sched k);
  Ok (match o with
      | Some t => set_cpu c (CPicked t) (with_sched s k)
      | None => with_sched s k
      end).

(** [CurrentTask::init_current]. *)
Definition init_current (c : nat) (t : TaskRef) (k : kernel) : kernel :=
  set_cpu c (CRunning t) (set_state t Running k).

(** [CurrentTask::clean_current]. *)
Definition clean_current (c : nat) (k : kernel) : kernel := set_cpu c CIdle k.

(** [TaskInner::join]: the waiting task marks itself and leaves its waker. *)
Definition join (target waiter : TaskRef) (k : kernel) : kernel :=
  let k := set_state waiter Blocking k in
  set_wakers target (default [] (k_wakers k !! target) ++ [waiter]) k.

(** The [Poll::Pending] arm of [run_task] (and [set_task_tf] for threads).
    [to_user] says that the task has a user trap frame ready to return to: the
    CPU then goes to user mode, and the next trap polls the task again. *)
Definition run_task_pending (c : nat) (t : TaskRef) (to_user : bool) (k : kernel)
    : outcome kernel :=
  match k_state k !! t with
  | Some Running =>
      if to_user then Ok k
      else
        let k := set_state t Runable k in
        s ← put_prev_task t false (k_sched k);
        Ok (clean_current c (with_sched s k))
  | Some Runable => Panic
  | Some Blocking => Ok (clean_current c (set_state t Blocked k))
  | Some Waked => Ok (set_state t Running k)
  | Some Blocked => Panic
  | Some Exited => Panic
  | None => Panic
  end.

(** The [Poll::Ready] arm, up to [notify_waker_for_exit].  The shutdown of the
    machine when the initial task returns is not modelled. *)
Definition run_task_ready (c : nat) (t : TaskRef) (exit_code : Z) (k : kernel) : kernel :=
  set_cpu c (CExiting t) (set_exit_code t exit_code (set_state t Exited k)).

(** One turn of [notify_waker_for_exit], then [clean_current]. *)
Definition notify_waker_for_exit (c : nat) (t : TaskRef) (k : kernel) : outcome kernel :=
  match default [] (k_wakers k !! t) with
  | w :: ws => wakeup_task w (set_wakers t ws k)
  | [] => Ok (clean_current c k)
  end.

(** An asynchronous system call of a user task ([user_task_top]): a new kernel
    task takes the CPU, is polled once, and the user task gets the CPU back. *)
Definition nested_begin (c : nat) (t kt : TaskRef) (k : kernel) : kernel :=
  set_cpu c (CNested t kt) (set_state kt Running (set_wakers kt [] k)).

Definition nested_pending (c : nat) (t kt : TaskRef) (k : kernel) : outcome kernel :=
  let k := set_state kt Runable k in
  s ← add_task kt (k_sched k);
  Ok (init_current c t (with_sched s k)).

Definition nested_ready (c : nat) (t kt : TaskRef) (k : kernel) : kernel :=
  init_current c t (drop_task kt k).

(** [on_timer_tick], without the timer events, which are wakes. *)
Definition on_timer_tick (c : nat) (t : TaskRef) (k : kernel) : outcome kernel :=
  '(_, s) ← task_tick t (k_sched k); Ok (with_sched s k).

(** ** Steps *)

Inductive klabel :=
  | KSpawn (t : TaskRef)                 (** anyone spawns a task *)
  | KPick (c : nat)
  | KInit (c : nat)
  | KBlock (c : nat)                     (** the polled task marks itself [Blocking] *)
  | KJoin (c : nat) (target : TaskRef)   (** the polled task joins another *)
  | KWake (t : TaskRef)                  (** anyone wakes a task *)
  | KPending (c : nat) (to_user : bool)  (** the poll returned [Pending] *)
  | KReady (c : nat) (exit_code : Z)     (** the poll returned [Ready] *)
  | KNotify (c : nat)
  | KExit (c : nat)                      (** the polled task calls [exit] *)
  | KNest (c : nat) (kt : TaskRef)
  | KNestPending (c : nat)
  | KNestReady (c : nat)
  | KTick (c : nat).

(** The task that is being polled on a CPU. *)
Definition polled (x : cpu) : option TaskRef :=
  match x with CRunning t => Some t | CNested _ kt => Some kt | _ => None end.

(** A step that is not possible leaves the kernel as it is. *)
Definition kstep (l : klabel) (k : kernel) : outcome kernel :=
  match l with
  | KSpawn t => match k_state k !! t with None => spawn_raw t k | Some _ => Ok k end
  | KPick c => match k_cpus k !! c with Some CIdle => trampoline_pick c k | _ => Ok k end
  | KInit c => match k_cpus k !! c with Some (CPicked t) => Ok (init_current c t k) | _ => Ok k end
  | KBlock c =>
      match k_cpus k !! c ≫= polled with Some t => Ok (set_state t Blocking k) | None => Ok k end
  | KJoin c target =>
      match k_cpus k !! c ≫= polled with Some t => Ok (join target t k) | None => Ok k end
  | KWake t => match k_state k !! t with Some _ => wakeup_task t k | None => Ok k end
  | KPending c to_user =>
      match k_cpus k !! c with
      | Some (CRunning t) => run_task_pending c t to_user k
      | _ => Ok k
      end
  | KReady c code =>
      match k_cpus k !! c with Some (CRunning t) => Ok (run_task_ready c t code k) | _ => Ok k end
  | KNotify c =>
      match k_cpus k !! c with Some (CExiting t) => notify_waker_for_exit c t k | _ => Ok k end
  | KExit c =>
      match k_cpus k !! c with Some (CRunning t) => Ok (set_state t Exited k) | _ => Ok k end
  | KNest c kt =>
      match k_cpus k !! c, k_state k !! kt with
      | Some (CRunning t), None =>
          if decide (k_state k !! t = Some Running) then Ok (nested_begin c t kt k) else Ok k
      | _, _ => Ok k
      end
  | KNestPending c =>
      match k_cpus k !! c with Some (CNested t kt) => nested_pending c t kt k | _ => Ok k end
  | KNestReady c =>
      match k_cpus k !! c with Some (CNested t kt) => Ok (nested_ready c t kt k) | _ => Ok k end
  | KTick c =>
      match k_cpus k !! c ≫= polled with Some t => on_timer_tick c t k | None => Ok k end
  end.

Fixpoint krun (ls : list klabel) (k : kernel) : outcome kernel :=
  match ls with [] => Ok k | l :: ls => k ← kstep l k; krun ls k end.

(** [n] idle CPUs and an empty run queue. *)
Definition kernel_init (n : nat) (s : ST) : kernel := mk_kernel s ∅ (replicate n CIdle) ∅ ∅.
End kernel.
Arguments kernel : clear implicits.

(** ** Where a task is *)

(** The places that hold a task: the run queue, a CPU that has just picked it,
    a CPU polling it, a CPU whose current task waits for a nested poll, the
    nested poll, a CPU finishing it. *)
Inductive place := PQueue | PPicked | PPolled | POuter | PNested | PExit.

Definition cpu_places (x : cpu) : list (place * TaskRef) :=
  match x with
  | CIdle => []
  | CPicked t => [(PPicked, t)]
  | CRunning t => [(PPolled, t)]
  | CNested t kt => [(POuter, t); (PNested, kt)]
  | CExiting t => [(PExit, t)]
  end.

(** The states a task may have in a place. *)
Definition allowed (p : place) (s : TaskState) : bool :=
  match p, s with
  | PQueue, Runable | PPicked, Runable => true
  | PPolled, (Running | Blocking | Waked | Exited) => true
  | POuter, Running => true
  | PNested, (Running | Blocking | Waked) => true
  | PExit, Exited => true
  | _, _ => false
  end.

(** The states in which a task must be somewhere. *)
Definition needs_place (s : TaskState) : bool :=
  match s with Blocked | Exited => false | _ => true end.

(** No task is in two places, a task is only where its state allows, and a task
    whose state needs a place has one. *)
Record placed (l : list (place * TaskRef)) (st : gmap TaskRef TaskState) : Prop := {
  pl_nodup : NoDup l.*2;
  pl_allowed : ∀ p t, (p, t) ∈ l → ∃ s, st !! t = Some s ∧ allowed p s = true;
  pl_needs : ∀ t s, st !! t = Some s → needs_place s = true → t ∈ l.*2 }.

#[export] Instance placed_proper : Proper ((≡ₚ) ==> eq ==> iff) placed.
Proof.
  assert (∀ l l' st, l ≡ₚ l' → placed l st → placed l' st) as Hp.
  { intros l l' st Hl [H1 H2 H3]. split.
    - by rewrite <- Hl.
    - intros p t. rewrite <- Hl. apply H2.
    - intros t s. rewrite <- Hl. apply H3. }
  intros l l' Hl st st' <-. split; apply Hp; [done|by symmetry].
Qed.

(** A task that is nowhere. *)
Lemma placed_nowhere l st t s :
  placed l st → st !! t = Some s → (∀ p, allowed p s = false) → t ∉ l.*2.
Proof.
  intros [_ H2 _] Hs Hn Ht. apply list_elem_of_fmap in Ht as ([p t'] & -> & Ht).
  destruct (H2 p t' Ht) as (s' & Hs' & Ha). simpl in *. simplify_eq. by rewrite Hn in Ha.
Qed.

Lemma placed_unknown l st t : placed l st → st !! t = None → t ∉ l.*2.
Proof.
  intros [_ H2 _] Hs Ht. apply list_elem_of_fmap in Ht as ([p t'] & -> & Ht).
  destruct (H2 p t' Ht) as (s' & Hs' & _). simpl in *. congruence.
Qed.

(** A task moves to a place and changes state. *)
Lemma placed_put p t s l st :
  placed l st → t ∉ l.*2 → allowed p s = true → placed ((p, t) :: l) (<[t := s]> st).
Proof.
  intros [H1 H2 H3] Hn Ha. split; simpl.
  - by apply NoDup_cons.
  - intros p' t' [[= -> ->]|Ht]%elem_of_cons.
    + exists s. by rewrite lookup_insert_eq.
    + destruct (H2 p' t' Ht) as (s' & Hs' & ?). exists s'. rewrite lookup_insert_ne; [done|].
      intros ->. apply Hn, list_elem_of_fmap. by exists (p', t').
  - intros t' s'. destruct (decide (t' = t)) as [->|Hne]; [set_solver|].
    rewrite lookup_insert_ne by done. intros Hs Hneed. apply elem_of_cons. right. by eapply H3.
Qed.

(** A task leaves its place for a state that needs none. *)
Lemma placed_leave p t s l st :
  placed ((p, t) :: l) st → needs_place s = false → placed l (<[t := s]> st) ∧ t ∉ l.*2.
Proof.
  intros [H1 H2 H3] Hs. simpl in H1. apply NoDup_cons in H1 as [Hn H1]. split; [|done]. split.
  - done.
  - intros p' t' Ht. destruct (H2 p' t') as (s' & Hs' & ?); [set_solver|].
    exists s'. rewrite lookup_insert_ne; [done|].
    intros ->. apply Hn, list_elem_of_fmap. by exists (p', t').
  - intros t' s'. destruct (decide (t' = t)) as [->|Hne].
    + rewrite lookup_insert_eq. intros [= <-]. congruence.
    + rewrite lookup_insert_ne by done. intros Hs' Hneed.
      specialize (H3 t' s' Hs' Hneed). simpl in H3. set_solver.
Qed.

(** A task changes place and state. *)
Lemma placed_move p p' t s l st :
  placed ((p, t) :: l) st → allowed p' s = true → placed ((p', t) :: l) (<[t := s]> st).
Proof.
  intros Hl Ha. destruct (placed_leave p t Blocked l st Hl eq_refl) as [Hl' Hn].
  replace (<[t := s]> st) with (<[t := s]> (<[t := Blocked]> st)).
  - by apply placed_put.
  - by rewrite insert_insert_eq.
Qed.

(** A task is dropped. *)
Lemma placed_drop p t l st : placed ((p, t) :: l) st → placed l (delete t st).
Proof.
  intros [H1 H2 H3]. simpl in H1. apply NoDup_cons in H1 as [Hn H1]. split; [done|..].
  - intros p' t' Ht. destruct (H2 p' t') as (s' & Hs' & ?); [set_solver|].
    exists s'. rewrite lookup_delete_ne; [done|].
    intros ->. apply Hn, list_elem_of_fmap. by exists (p', t').
  - intros t' s' Hs Hneed. apply lookup_delete_Some in Hs as [Hne Hs].
    specialize (H3 t' s' Hs Hneed). simpl in H3. set_solver.
Qed.

Lemma placed_state l st p t :
  placed ((p, t) :: l) st → ∃ s, st !! t = Some s ∧ allowed p s = true.
Proof. intros [_ H2 _]. apply H2. set_solver. Qed.

(** A task changes state where it is. *)
Lemma placed_at p t s l st :
  placed l st → (p, t) ∈ l → allowed p s = true → placed l (<[t := s]> st).
Proof.
  intros Hl Ht Ha. apply elem_of_Permutation in Ht as [l' Hp].
  rewrite Hp in Hl |- *. by eapply placed_move.
Qed.

Section invariant.
Context {ST : Type} `{OpenScheduler ST}.

Definition cpus_places (cs : list cpu) : list (place * TaskRef) := concat (cpu_places <$> cs).

Definition places (k : kernel ST) : list (place * TaskRef) :=
  (pair PQueue <$> queued (k_sched k)) ++ cpus_places (k_cpus k).

Definition kinv (k : kernel ST) : Prop :=
  sched_wf (k_sched k) ∧ placed (places k) (k_state k).

(** The CPUs other than [c]. *)
Lemma cpus_split cs c x :
  cs !! c = Some x →
  ∃ rest, cpus_places cs ≡ₚ cpu_places x ++ rest ∧
    ∀ y, cpus_places (<[c := y]> cs) ≡ₚ cpu_places y ++ rest.
Proof.
  intros Hc.
  exists (cpus_places (take c cs) ++ cpus_places (drop (S c) cs)).
  assert (∀ y, cpus_places (<[c := y]> cs) ≡ₚ
    cpu_places y ++ cpus_places (take c cs) ++ cpus_places (drop (S c) cs)) as Hy.
  { intros y. rewrite insert_take_drop by (eapply lookup_lt_Some; exact Hc).
    unfold cpus_places. rewrite fmap_app, fmap_cons, concat_app. simpl. solve_Permutation. }
  split; [|done]. rewrite <- (Hy x). by rewrite list_insert_id.
Qed.

(** The places of a kernel with CPU [c] and queue [q] replaced. *)
Lemma places_split k c x :
  k_cpus k !! c = Some x →
  ∃ rest, (places k ≡ₚ cpu_places x ++ (pair PQueue <$> queued (k_sched k)) ++ rest) ∧
    ∀ k' y, k_cpus k' = <[c := y]> (k_cpus k) →
      places k' ≡ₚ cpu_places y ++ (pair PQueue <$> queued (k_sched k')) ++ rest.
Proof.
  intros Hc. destruct (cpus_split _ _ _ Hc) as (rest & Hr1 & Hr2). exists rest.
  unfold places. split.
  - rewrite Hr1. solve_Permutation.
  - intros k' y ->. rewrite Hr2. solve_Permutation.
Qed.

Lemma queue_not_placed k t : t ∉ (places k).*2 → t ∉ queued (k_sched k).
Proof.
  intros Hn Ht. apply Hn, list_elem_of_fmap. exists (PQueue, t). split; [done|].
  unfold places. apply elem_of_app. left. by apply list_elem_of_fmap_2.
Qed.

(** Adding a task that is nowhere to the run queue. *)
Lemma add_placed k t s' :
  kinv k → t ∉ (places k).*2 → add_task t (k_sched k) = Ok s' →
  kinv (with_sched s' (set_state t Runable k)).
Proof.
  intros [Hwf Hpl] Hn Ha.
  destruct (law_add (k_sched k) t Hwf (queue_not_placed _ _ Hn) (open_add _ _))
    as (s2 & Ha2 & Hwf2 & Hq).
  rewrite Ha in Ha2. simplify_eq. split; [done|].
  assert (places (with_sched s2 (set_state t Runable k)) ≡ₚ (PQueue, t) :: places k) as Hp.
  { unfold places. simpl. by rewrite Hq. }
  rewrite Hp. by apply placed_put.
Qed.

Lemma add_total k t :
  kinv k → t ∉ (places k).*2 → ∃ s', add_task t (k_sched k) = Ok s'.
Proof.
  intros [Hwf _] Hn.
  destruct (law_add (k_sched k) t Hwf (queue_not_placed _ _ Hn) (open_add _ _)) as (s2 & ? & _).
  eauto.
Qed.

(** The polled task of a CPU is in a place where it may be in any state of a
    polled task. *)
Lemma polled_place k c t :
  kinv k → k_cpus k !! c ≫= polled = Some t →
  ∃ p, (p, t) ∈ places k ∧ allowed p Blocking = true ∧ allowed p Waked = true ∧
       allowed p Running = true.
Proof.
  intros _ Hc. destruct (k_cpus k !! c) as [x|] eqn:Hx; [|done]. simpl in Hc.
  destruct (places_split k c x Hx) as (rest & Hr1 & _).
  destruct x; simpl in *; simplify_eq.
  - exists PPolled. rewrite Hr1. split; [set_solver|done].
  - exists PNested. rewrite Hr1. split; [set_solver|done].
Qed.

Lemma set_state_inv k p t s :
  kinv k → (p, t) ∈ places k → allowed p s = true → kinv (set_state t s k).
Proof. intros [Hwf Hpl] Ht Ha. split; [done|]. by eapply placed_at. Qed.

Lemma wakeup_inv k t k' : kinv k → wakeup_task t k = Ok k' → kinv k'.
Proof.
  intros Hi. unfold wakeup_task. destruct (k_state k !! t) as [[]|] eqn:Hs; intros Hw;
    simplify_eq; try done.
  - destruct Hi as [Hwf Hpl]. assert (t ∈ (places k).*2) as Ht by by eapply pl_needs.
    apply list_elem_of_fmap in Ht as ([p t'] & -> & Ht). simpl in *.
    destruct (pl_allowed _ _ Hpl p t' Ht) as (s & Hs' & Ha). rewrite Hs in Hs'. simplify_eq.
    eapply set_state_inv; [done|exact Ht|]. by destruct p.
  - inv_ok Hw. eapply add_placed; [done| |exact E].
    eapply placed_nowhere; [apply Hi|exact Hs|]. by intros [].
Qed.

(** A wake panics only on a task that was woken already, or is gone. *)
Lemma wakeup_panic k t :
  kinv k → wakeup_task t k = Panic →
  k_state k !! t = Some Waked ∨ k_state k !! t = Some Exited ∨ k_state k !! t = None.
Proof.
  intros Hi. unfold wakeup_task. destruct (k_state k !! t) as [[]|] eqn:Hs; try done; auto.
  assert (t ∉ (places k).*2) as Hn.
  { eapply placed_nowhere; [apply Hi|exact Hs|]. by intros []. }
  destruct (add_total k t Hi Hn) as [s' Ha]. simpl. rewrite Ha. done.
Qed.

(** The run queue takes a task back from a place. *)
Lemma requeue_placed (add : TaskRef → ST → outcome ST) k c x y p t rest0 s' :
  (∀ s, sched_wf s → t ∉ queued s →
     ∃ s2, add t s = Ok s2 ∧ sched_wf s2 ∧ queued s2 ≡ₚ t :: queued s) →
  kinv k → k_cpus k !! c = Some x → cpu_places x ≡ₚ (p, t) :: rest0 → cpu_places y = rest0 →
  add t (k_sched k) = Ok s' →
  kinv (set_cpu c y (with_sched s' (set_state t Runable k))).
Proof.
  intros Hlaw [Hwf Hpl] Hc Hx Hy Ha. destruct (places_split k c x Hc) as (rest & Hr1 & Hr2).
  rewrite Hr1, Hx in Hpl. simpl in Hpl.
  destruct (placed_leave _ _ Blocked _ _ Hpl eq_refl) as [_ Hn].
  destruct (Hlaw (k_sched k) Hwf) as (s2 & Ha2 & Hwf2 & Hq).
  { intros Ht. apply Hn. rewrite !fmap_app, !elem_of_app. right. left.
    rewrite <- list_fmap_compose. apply list_elem_of_fmap. by exists t. }
  rewrite Ha in Ha2. simplify_eq. split; [done|].
  rewrite (Hr2 (set_cpu c y (with_sched s2 (set_state t Runable k))) y eq_refl). simpl.
  eapply (placed_move _ PQueue _ Runable) in Hpl; [|reflexivity].
  revert Hpl. apply placed_proper; [|done]. rewrite Hq. simpl. solve_Permutation.
Qed.

Lemma pending_inv k c t b k' :
  kinv k → k_cpus k !! c = Some (CRunning t) → run_task_pending c t b k = Ok k' → kinv k'.
Proof.
  intros Hi Hc. pose proof Hi as [Hwf Hpl].
  destruct (places_split k c _ Hc) as (rest & Hr1 & Hr2). simpl in Hr1.
  unfold run_task_pending. destruct (k_state k !! t) as [[]|] eqn:Hs; intros Hk; try done.
  - destruct b; simplify_eq; [done|]. inv_ok Hk.
    eapply (requeue_placed (λ t, put_prev_task t false)); [|done|done|simpl; reflexivity|reflexivity|exact E].
    intros s ??. by apply law_put, open_put.
  - simplify_eq. split; [done|]. rewrite Hr1 in Hpl.
    rewrite (Hr2 (clean_current c (set_state t Blocked k)) CIdle eq_refl). simpl.
    by apply (placed_leave _ _ _ _ _ Hpl).
  - simplify_eq. eapply set_state_inv; [done|rewrite Hr1; apply elem_of_cons; by left|done].
Qed.

(** The three panics of [run_task] do not happen, unless the task exited. *)
Lemma pending_panic k c t b :
  kinv k → k_cpus k !! c = Some (CRunning t) → run_task_pending c t b k = Panic →
  k_state k !! t = Some Exited.
Proof.
  intros [Hwf Hpl] Hc. destruct (places_split k c _ Hc) as (rest & Hr1 & _).
  rewrite Hr1 in Hpl. simpl in Hpl.
  destruct (placed_state _ _ _ _ Hpl) as (s & Hs & Ha).
  destruct (placed_leave _ _ Blocked _ _ Hpl eq_refl) as [_ Hn].
  unfold run_task_pending. rewrite Hs. destruct s; try done. destruct b; [done|].
  destruct (law_put (k_sched k) t false Hwf) as (s2 & Hp2 & _).
  { intros Ht. apply Hn. rewrite !fmap_app, !elem_of_app. left.
    rewrite <- list_fmap_compose. apply list_elem_of_fmap. by exists t. }
  { apply open_put. }
  simpl. by rewrite Hp2.
Qed.

Lemma pick_inv k c k' :
  kinv k → k_cpus k !! c = Some CIdle → trampoline_pick c k = Ok k' → kinv k'.
Proof.
  intros [Hwf Hpl] Hc. destruct (places_split k c _ Hc) as (rest & Hr1 & Hr2). simpl in Hr1.
  destruct (law_pick (k_sched k) Hwf) as (o & s' & Hp & Hwf' & Hq).
  unfold trampoline_pick. rewrite Hp. simpl. intros [= <-]. destruct o as [t|].
  - split; [done|]. rewrite (Hr2 (set_cpu c (CPicked t) (with_sched s' k)) _ eq_refl). simpl.
    rewrite Hr1, Hq in Hpl. simpl in Hpl.
    destruct (placed_state _ _ _ _ Hpl) as (s & Hs & Ha).
    assert (s = Runable) as -> by by destruct s.
    eapply (placed_move _ PPicked _ Runable) in Hpl; [|done].
    by rewrite insert_id in Hpl.
  - split; [done|]. destruct Hq as [Hq1 Hq2]. unfold places in *. simpl.
    rewrite Hq1 in Hpl. by rewrite Hq2.
Qed.

(** A CPU changes what it does with the one task it holds. *)
Lemma move_inv k c x y p p' t s k' :
  kinv k → k_cpus k !! c = Some x → cpu_places x = [(p, t)] → cpu_places y = [(p', t)] →
  allowed p' s = true → k_sched k' = k_sched k → k_cpus k' = <[c := y]> (k_cpus k) →
  k_state k' = <[t := s]> (k_state k) → kinv k'.
Proof.
  intros [Hwf Hpl] Hc Hx Hy Ha Es Ec Et.
  destruct (places_split k c _ Hc) as (rest & Hr1 & Hr2).
  split; [by rewrite Es|]. rewrite (Hr2 k' y Ec), Es, Et, Hy. rewrite Hr1, Hx in Hpl.
  by eapply placed_move.
Qed.

Lemma notify_inv k c t k' :
  kinv k → k_cpus k !! c = Some (CExiting t) → notify_waker_for_exit c t k = Ok k' → kinv k'.
Proof.
  intros Hi Hc. unfold notify_waker_for_exit.
  destruct (default [] (k_wakers k !! t)) as [|w ws].
  - intros [= <-]. destruct Hi as [Hwf Hpl].
    destruct (places_split k c _ Hc) as (rest & Hr1 & Hr2). split; [done|].
    rewrite (Hr2 (clean_current c k) CIdle eq_refl). simpl. rewrite Hr1 in Hpl. simpl in Hpl.
    destruct (placed_state _ _ _ _ Hpl) as (s & Hs & Ha).
    assert (s = Exited) as -> by by destruct s.
    destruct (placed_leave _ _ Exited _ _ Hpl eq_refl) as [Hpl' _].
    by rewrite insert_id in Hpl'.
  - intros Hw. eapply wakeup_inv; [|exact Hw]. exact Hi.
Qed.

Lemma nested_begin_inv k c t kt :
  kinv k → k_cpus k !! c = Some (CRunning t) → k_state k !! t = Some Running →
  k_state k !! kt = None → kinv (nested_begin c t kt k).
Proof.
  intros [Hwf Hpl] Hc Hs Hkt. destruct (places_split k c _ Hc) as (rest & Hr1 & Hr2).
  split; [done|]. rewrite (Hr2 (nested_begin c t kt k) (CNested t kt) eq_refl). simpl.
  pose proof (placed_unknown _ _ kt Hpl Hkt) as Hn. rewrite Hr1 in Hpl, Hn. simpl in Hpl, Hn.
  eapply (placed_move _ POuter _ Running) in Hpl; [|done]. rewrite insert_id in Hpl by done.
  rewrite (perm_swap (PNested, kt)). by apply placed_put.
Qed.

Lemma nested_pending_inv k c t kt k' :
  kinv k → k_cpus k !! c = Some (CNested t kt) → nested_pending c t kt k = Ok k' → kinv k'.
Proof.
  intros [Hwf Hpl] Hc Hk. unfold nested_pending in Hk. inv_ok Hk.
  destruct (places_split k c _ Hc) as (rest & Hr1 & Hr2). rewrite Hr1 in Hpl. simpl in Hpl.
  rewrite (perm_swap (PNested, kt)) in Hpl.
  destruct (placed_leave _ _ Blocked _ _ Hpl eq_refl) as [_ Hn].
  destruct (law_add (k_sched k) kt Hwf) as (s2 & Ha2 & Hwf2 & Hq).
  { intros Ht. apply Hn. rewrite fmap_cons, !fmap_app. apply elem_of_cons. right.
    apply elem_of_app. left. rewrite <- list_fmap_compose. apply list_elem_of_fmap. by exists kt. }
  { apply open_add. }
  rewrite E in Ha2. simplify_eq. split; [done|].
  rewrite (Hr2 (init_current c t (with_sched s2 (set_state kt Runable k))) (CRunning t) eq_refl).
  simpl. eapply (placed_move _ PQueue _ Runable) in Hpl; [|done].
  rewrite perm_swap in Hpl. eapply (placed_move _ PPolled _ Running) in Hpl; [|done].
  revert Hpl. apply placed_proper; [|done]. rewrite Hq. done.
Qed.

Lemma nested_ready_inv k c t kt :
  kinv k → k_cpus k !! c = Some (CNested t kt) → kinv (nested_ready c t kt k).
Proof.
  intros [Hwf Hpl] Hc. destruct (places_split k c _ Hc) as (rest & Hr1 & Hr2).
  rewrite Hr1 in Hpl. simpl in Hpl. rewrite (perm_swap (PNested, kt)) in Hpl. split; [done|].
  rewrite (Hr2 (nested_ready c t kt k) (CRunning t) eq_refl). simpl.
  apply placed_drop in Hpl. eapply (placed_move _ PPolled _ Running) in Hpl; [|done]. exact Hpl.
Qed.

(** A polled task is not in the run queue. *)
Lemma polled_not_queued k c t :
  kinv k → k_cpus k !! c ≫= polled = Some t → t ∉ queued (k_sched k).
Proof.
  intros Hi Hc Hq. destruct (polled_place k c t Hi Hc) as (p & Ht & Ha & _ & _).
  destruct Hi as [_ Hpl].
  assert ((PQueue, t) ∈ places k) as Hin.
  { unfold places. apply elem_of_app. left. by apply list_elem_of_fmap_2. }
  apply elem_of_Permutation in Ht as [l Hp]. rewrite Hp in Hpl, Hin.
  destruct (placed_leave _ _ Blocked _ _ Hpl eq_refl) as [_ Hnl].
  apply elem_of_cons in Hin as [[= <-]|Hin]; [done|].
  apply Hnl, list_elem_of_fmap. by exists (PQueue, t).
Qed.

Lemma tick_total k c t :
  kinv k → k_cpus k !! c ≫= polled = Some t →
  ∃ b s', task_tick t (k_sched k) = Ok (b, s') ∧ sched_wf s' ∧ queued s' = queued (k_sched k).
Proof. intros Hi Hc. eapply law_tick; [apply Hi|by eapply polled_not_queued]. Qed.

Lemma tick_inv k c t k' :
  kinv k → k_cpus k !! c ≫= polled = Some t → on_timer_tick c t k = Ok k' → kinv k'.
Proof.
  intros Hi Hc Hk. destruct (tick_total k c t Hi Hc) as (b & s' & Htk & Hwf' & Hq).
  unfold on_timer_tick in Hk. rewrite Htk in Hk. simpl in Hk. injection Hk as <-.
  split; [done|]. destruct Hi as [_ Hpl]. unfold places in *. simpl. by rewrite Hq.
Qed.

Lemma kstep_inv l k k' : kinv k → kstep l k = Ok k' → kinv k'.
Proof.
  intros Hi. destruct l as [t|c|c|c|c target|t|c b|c code|c|c|c kt|c|c|c]; simpl.
  - destruct (k_state k !! t) eqn:Hs; intros Hk; simplify_eq; [done|].
    unfold spawn_raw in Hk. inv_ok Hk. pose proof (placed_unknown _ _ t (proj2 Hi) Hs) as Hn.
    exact (add_placed k t _ Hi Hn E).
  - destruct (k_cpus k !! c) as [[]|] eqn:Hc; intros Hk; simplify_eq; try done.
    by eapply pick_inv.
  - destruct (k_cpus k !! c) as [[]|] eqn:Hc; intros Hk; simplify_eq; try done.
    by eapply (move_inv k c (CPicked t) (CRunning t) PPicked PPolled t Running).
  - destruct (k_cpus k !! c ≫= polled) as [t|] eqn:Hc; intros Hk; simplify_eq; [|done].
    destruct (polled_place k c t Hi Hc) as (p & Ht & Ha & _). by eapply set_state_inv.
  - destruct (k_cpus k !! c ≫= polled) as [t|] eqn:Hc; intros Hk; simplify_eq; [|done].
    destruct (polled_place k c t Hi Hc) as (p & Ht & Ha & _).
    exact (set_state_inv k p t Blocking Hi Ht Ha).
  - destruct (k_state k !! t) eqn:Hs; intros Hk; simplify_eq; [|done]. by eapply wakeup_inv.
  - destruct (k_cpus k !! c) as [[]|] eqn:Hc; intros Hk; simplify_eq; try done.
    by eapply pending_inv.
  - destruct (k_cpus k !! c) as [[]|] eqn:Hc; intros Hk; simplify_eq; try done.
    by eapply (move_inv k c (CRunning t) (CExiting t) PPolled PExit t Exited).
  - destruct (k_cpus k !! c) as [[]|] eqn:Hc; intros Hk; simplify_eq; try done.
    by eapply notify_inv.
  - destruct (k_cpus k !! c) as [[]|] eqn:Hc; intros Hk; simplify_eq; try done.
    destruct (places_split k c _ Hc) as (rest & Hr1 & _).
    eapply (set_state_inv k PPolled); [done|rewrite Hr1; apply elem_of_cons; by left|done].
  - destruct (k_cpus k !! c) as [[]|] eqn:Hc; intros Hk; simplify_eq; try done.
    destruct (k_state k !! kt) eqn:Hkt; simplify_eq; [done|].
    case_decide as Ht; simplify_eq; [|done]. by apply nested_begin_inv.
  - destruct (k_cpus k !! c) as [[]|] eqn:Hc; intros Hk; simplify_eq; try done.
    by eapply nested_pending_inv.
  - destruct (k_cpus k !! c) as [[]|] eqn:Hc; intros Hk; simplify_eq; try done.
    by apply nested_ready_inv.
  - destruct (k_cpus k !! c ≫= polled) as [t|] eqn:Hc; intros Hk; simplify_eq; [|done].
    by eapply tick_inv.
Qed.

Lemma krun_inv ls k k' : kinv k → krun ls k = Ok k' → kinv k'.
Proof.
  revert k. induction ls as [|l ls IH]; intros k Hi Hk; simpl in Hk; [by simplify_eq|].
  destruct (kstep l k) as [k1| |] eqn:E; try done. eapply IH; [|exact Hk]. by eapply kstep_inv.
Qed.

Lemma kernel_init_inv n s : sched_wf s → queued s = [] → kinv (kernel_init n s).
Proof.
  intros Hwf Hq. split; [done|].
  assert (places (kernel_init n s) = []) as ->.
  { unfold places, cpus_places. simpl. rewrite Hq, fmap_replicate. simpl.
    by induction n. }
  split; [constructor|set_solver|]. intros t s'. simpl. by rewrite lookup_empty.
Qed.

(** The one thing that makes a step panic: waking a task that was woken
    already, exited or is gone, or a poll that returns [Pending] after [exit]. *)
Definition wake_panics (k : kernel ST) (t : TaskRef) : Prop :=
  k_state k !! t = Some Waked ∨ k_state k !! t = Some Exited ∨ k_state k !! t = None.

Definition panic_cause (l : klabel) (k : kernel ST) : Prop :=
  match l with
  | KWake t => wake_panics k t
  | KNotify c => ∃ t w ws, k_cpus k !! c = Some (CExiting t) ∧
      k_wakers k !! t = Some (w :: ws) ∧ wake_panics k w
  | KPending c _ => ∃ t, k_cpus k !! c = Some (CRunning t) ∧ k_state k !! t = Some Exited
  | _ => False
  end.

Lemma kstep_panic l k : kinv k → kstep l k = Panic → panic_cause l k.
Proof.
  intros Hi. destruct l as [t|c|c|c|c target|t|c b|c code|c|c|c kt|c|c|c]; simpl.
  - destruct (k_state k !! t) eqn:Hs; [done|]. unfold spawn_raw. simpl.
    destruct (add_total k t Hi (placed_unknown _ _ t (proj2 Hi) Hs)) as [s' ->]. done.
  - destruct (k_cpus k !! c) as [[]|] eqn:Hc; try done. unfold trampoline_pick.
    destruct (law_pick (k_sched k) (proj1 Hi)) as (o & s' & -> & _). done.
  - by destruct (k_cpus k !! c) as [[]|].
  - by destruct (k_cpus k !! c ≫= polled).
  - by destruct (k_cpus k !! c ≫= polled).
  - destruct (k_state k !! t) eqn:Hs; [|done]. by apply wakeup_panic.
  - destruct (k_cpus k !! c) as [[]|] eqn:Hc; try done. intros Hp. exists t.
    split; [done|]. by eapply pending_panic.
  - by destruct (k_cpus k !! c) as [[]|].
  - destruct (k_cpus k !! c) as [[]|] eqn:Hc; try done. unfold notify_waker_for_exit.
    destruct (k_wakers k !! t) as [[|w ws]|] eqn:Hw; try done. simpl. intros Hp.
    exists t, w, ws. split; [done|]. split; [done|].
    by apply (wakeup_panic (set_wakers t ws k)) in Hp.
  - by destruct (k_cpus k !! c) as [[]|].
  - destruct (k_cpus k !! c) as [[]|]; try done. destruct (k_state k !! kt); [done|].
    by case_decide.
  - destruct (k_cpus k !! c) as [[]|] eqn:Hc; try done. unfold nested_pending. simpl.
    destruct Hi as [Hwf Hpl]. destruct (places_split k c _ Hc) as (rest & Hr1 & _).
    rewrite Hr1 in Hpl. simpl in Hpl. rewrite (perm_swap (PNested, kt)) in Hpl.
    destruct (placed_leave _ _ Blocked _ _ Hpl eq_refl) as [_ Hn].
    destruct (law_add (k_sched k) kt Hwf) as (s2 & -> & _); [|apply open_add|done].
    intros Ht. apply Hn. rewrite fmap_cons, !fmap_app. apply elem_of_cons. right.
    apply elem_of_app. left. rewrite <- list_fmap_compose. apply list_elem_of_fmap. by exists kt.
  - by destruct (k_cpus k !! c) as [[]|].
  - destruct (k_cpus k !! c ≫= polled) as [t|] eqn:Hc; [|done]. intros Hp. exfalso. revert Hp.
    unfold on_timer_tick. destruct (tick_total k c t Hi Hc) as (b & s' & -> & _). done.
Qed.

Lemma elem_cpus_places p t cs :
  (p, t) ∈ cpus_places cs → ∃ c x, cs !! c = Some x ∧ (p, t) ∈ cpu_places x.
Proof.
  unfold cpus_places. intros Hin. apply list_elem_of_In, in_concat in Hin as (l & Hl & Hin).
  apply list_elem_of_In, list_elem_of_fmap in Hl as (x & -> & Hx).
  apply list_elem_of_lookup in Hx as [c Hc]. exists c, x. by apply list_elem_of_In in Hin.
Qed.

Lemma elem_places p t k :
  (p, t) ∈ places k → (p = PQueue ∧ t ∈ queued (k_sched k)) ∨
    ∃ c x, k_cpus k !! c = Some x ∧ (p, t) ∈ cpu_places x.
Proof.
  unfold places. rewrite elem_of_app. intros [Hq|Hc]; [left|right; by apply elem_cpus_places].
  apply list_elem_of_fmap in Hq as (t' & [= -> ->] & Hq). done.
Qed.

Lemma places_fst k : (places k).*2 = queued (k_sched k) ++ (cpus_places (k_cpus k)).*2.
Proof.
  unfold places. rewrite fmap_app. f_equal. rewrite <- list_fmap_compose.
  rewrite <- (list_fmap_id (queued (k_sched k))) at 2. by apply list_fmap_ext.
Qed.

Lemma queued_place k t : t ∈ queued (k_sched k) → (PQueue, t) ∈ places k.
Proof. intros Ht. unfold places. apply elem_of_app. left. by apply list_elem_of_fmap_2. Qed.

(** Where a task of a given state is. *)
Definition well_placed (k : kernel ST) (t : TaskRef) (s : TaskState) : Prop :=
  match s with
  | Runable => t ∈ queued (k_sched k) ∨ ∃ c, k_cpus k !! c = Some (CPicked t)
  | Running | Blocking | Waked => ∃ c x, k_cpus k !! c = Some x ∧ t ∈ (cpu_places x).*2
  | Blocked => t ∉ queued (k_sched k) ∧ t ∉ (cpus_places (k_cpus k)).*2
  | Exited => t ∉ queued (k_sched k)
  end.

Lemma kinv_well_placed k t s : kinv k → k_state k !! t = Some s → well_placed k t s.
Proof.
  intros [_ Hpl] Hs.
  assert (needs_place s = true → ∃ p, (p, t) ∈ places k ∧ allowed p s = true) as Hneed.
  { intros Hn. pose proof (pl_needs _ _ Hpl t s Hs Hn) as Ht.
    apply list_elem_of_fmap in Ht as ([p t'] & -> & Ht). exists p.
    destruct (pl_allowed _ _ Hpl p t' Ht) as (s' & Hs' & Ha). simpl in *. by simplify_eq. }
  assert ((∀ p, allowed p s = false) → t ∉ queued (k_sched k) ∧ t ∉ (cpus_places (k_cpus k)).*2)
    as Hnone.
  { intros Ha. pose proof (placed_nowhere _ _ _ _ Hpl Hs Ha) as Hn.
    rewrite places_fst, elem_of_app in Hn. tauto. }
  assert (∀ p, (p, t) ∈ places k → allowed p s = true → p ≠ PQueue →
    ∃ c x, k_cpus k !! c = Some x ∧ (p, t) ∈ cpu_places x) as Hcpu.
  { intros p Hp Ha Hne. by apply elem_places in Hp as [[-> _]|?]. }
  destruct s; simpl.
  - destruct Hneed as (p & Hp & Ha); [done|].
    destruct (Hcpu p Hp Ha) as (c & x & ? & ?); [by intros ->|].
    exists c, x. split; [done|]. apply list_elem_of_fmap. by exists (p, t).
  - destruct Hneed as (p & Hp & Ha); [done|].
    apply elem_places in Hp as [[-> Hq]|(c & x & Hc & Hx)]; [by left|right].
    exists c. rewrite Hc. f_equal.
    destruct p; try done; destruct x; simpl in Hx; set_solver.
  - destruct Hneed as (p & Hp & Ha); [done|].
    destruct (Hcpu p Hp Ha) as (c & x & ? & ?); [by intros ->|].
    exists c, x. split; [done|]. apply list_elem_of_fmap. by exists (p, t).
  - destruct Hneed as (p & Hp & Ha); [done|].
    destruct (Hcpu p Hp Ha) as (c & x & ? & ?); [by intros ->|].
    exists c, x. split; [done|]. apply list_elem_of_fmap. by exists (p, t).
  - apply Hnone. by intros [].
  - intros Hq. apply queued_place in Hq.
    destruct (pl_allowed _ _ Hpl _ _ Hq) as (s' & Hs' & Ha). by simplify_eq.
Qed.

(** C1: On any number of CPUs and for every interleaving of spawns, dispatches,
    polls, blocking, wakes, joins, exits, asynchronous system calls and timer
    ticks: a task is never in two places (the run queue counted once, and every
    CPU); a [Runable] task is in the run queue or being dispatched, a task in
    [Running], [Blocking] or [Waked] is on a CPU, a [Blocked] task is nowhere
    and an [Exited] one is not queued.  The panics of the dispatcher on
    [Runable] and [Blocked] tasks never happen: a step panics only when it wakes
    a task that is already [Waked], exited or dropped, or when a poll returns
    [Pending] after [exit]. *)
Theorem task_placement n s ls k :
  sched_wf s → queued s = [] → krun ls (kernel_init n s) = Ok k →
  NoDup (queued (k_sched k) ++ (cpus_places (k_cpus k)).*2) ∧
  (∀ t st, k_state k !! t = Some st → well_placed k t st) ∧
  (∀ l, kstep l k = Panic → panic_cause l k).
Proof.
  intros Hwf Hq Hk. assert (kinv k) as Hi by (eapply krun_inv, Hk; by apply kernel_init_inv).
  split_and!.
  - rewrite <- places_fst. apply Hi.
  - intros t st. by apply kinv_well_placed.
  - intros l. by apply kstep_panic.
Qed.

(** ** Wakes are not lost *)

(** The step polls the future of [t] (again). *)
Definition repolls (l : klabel) (k : kernel ST) (t : TaskRef) : Prop :=
  match l with
  | KInit c => k_cpus k !! c = Some (CPicked t)
  | KPending c _ => k_cpus k !! c = Some (CRunning t)
  | KNest _ kt => kt = t
  | _ => False
  end.

(** The step is [t] marking itself [Blocking]. *)
Definition reblocks (l : klabel) (k : kernel ST) (t : TaskRef) : Prop :=
  match l with
  | KBlock c | KJoin c _ => k_cpus k !! c ≫= polled = Some t
  | _ => False
  end.

(** The states from which a task goes on: woken on its CPU, runnable, or
    finished. *)
Definition wake_kept (k : kernel ST) (t : TaskRef) : Prop :=
  match k_state k !! t with Some (Waked | Runable | Exited) | None => True | _ => False end.

Lemma cpu_allowed k c x p t :
  kinv k → k_cpus k !! c = Some x → (p, t) ∈ cpu_places x →
  ∃ s, k_state k !! t = Some s ∧ allowed p s = true.
Proof.
  intros [_ Hpl] Hc Hx. destruct (places_split k c x Hc) as (rest & Hr1 & _).
  apply (pl_allowed _ _ Hpl). rewrite Hr1. apply elem_of_app. by left.
Qed.

Lemma wake_kept_set k t u s :
  wake_kept k t → (u = t → match s with Waked | Runable | Exited => True | _ => False end) →
  wake_kept (set_state u s k) t.
Proof.
  unfold wake_kept. simpl. intros Hk Hs. destruct (decide (u = t)) as [->|Hne].
  - rewrite lookup_insert_eq. by specialize (Hs eq_refl).
  - by rewrite lookup_insert_ne.
Qed.

Lemma wake_kept_wakeup k t u k' :
  wake_kept k t → wakeup_task u k = Ok k' → wake_kept k' t.
Proof.
  unfold wakeup_task. intros Hk Hw.
  destruct (k_state k !! u) as [[]|] eqn:Hs; simplify_eq; try done.
  - by apply wake_kept_set.
  - inv_ok Hw. by apply (wake_kept_set k t u Runable).
Qed.

Lemma kstep_wake_kept l k k' t :
  kinv k → wake_kept k t → kstep l k = Ok k' → ¬ repolls l k t → ¬ reblocks l k t →
  wake_kept k' t.
Proof.
  intros Hi Hw. destruct l as [u|c|c|c|c target|u|c b|c code|c|c|c kt|c|c|c]; simpl;
    intros Hk Hp Hb.
  - destruct (k_state k !! u); simplify_eq; [done|]. unfold spawn_raw in Hk. inv_ok Hk.
    by apply (wake_kept_set k t u Runable).
  - destruct (k_cpus k !! c) as [[]|]; simplify_eq; try done.
    unfold trampoline_pick in Hk. inv_ok Hk. by destruct o.
  - destruct (k_cpus k !! c) as [[|u| | |]|] eqn:Hc; simplify_eq; try done.
    apply (wake_kept_set k t u Running); [done|]. intros ->. done.
  - destruct (k_cpus k !! c ≫= polled) as [u|]; simplify_eq; [|done].
    apply wake_kept_set; [done|]. intros ->. done.
  - destruct (k_cpus k !! c ≫= polled) as [u|]; simplify_eq; [|done].
    apply (wake_kept_set k t u Blocking); [done|]. intros ->. done.
  - destruct (k_state k !! u); simplify_eq; [|done]. by eapply wake_kept_wakeup.
  - destruct (k_cpus k !! c) as [[| |u| |]|] eqn:Hc; simplify_eq; try done.
    unfold run_task_pending in Hk. destruct (k_state k !! u) as [[]|]; try done.
    + destruct b; simplify_eq; [done|]. inv_ok Hk. by apply (wake_kept_set k t u Runable).
    + simplify_eq. apply (wake_kept_set k t u Blocked); [done|]. intros ->. done.
    + simplify_eq. apply (wake_kept_set k t u Running); [done|]. intros ->. done.
  - destruct (k_cpus k !! c) as [[]|]; simplify_eq; try done.
    by apply (wake_kept_set k t _ Exited).
  - destruct (k_cpus k !! c) as [[]|]; simplify_eq; try done.
    unfold notify_waker_for_exit in Hk. destruct (default [] _) as [|w ws]; simplify_eq; [done|].
    eapply wake_kept_wakeup; [|exact Hk]. exact Hw.
  - destruct (k_cpus k !! c) as [[]|]; simplify_eq; try done. by apply wake_kept_set.
  - destruct (k_cpus k !! c) as [[| |u| |]|]; simplify_eq; try done.
    destruct (k_state k !! kt); simplify_eq; [done|]. case_decide; simplify_eq; [|done].
    by apply (wake_kept_set k t kt Running).
  - destruct (k_cpus k !! c) as [[| | |u kt|]|] eqn:Hc; simplify_eq; try done.
    unfold nested_pending in Hk. inv_ok Hk.
    apply (wake_kept_set (set_state kt Runable k) t u Running).
    + by apply wake_kept_set.
    + intros ->. destruct (cpu_allowed k c _ POuter t Hi Hc) as (s & Hs & Ha);
        [apply elem_of_cons; by left|]. unfold wake_kept in Hw. rewrite Hs in Hw. by destruct s.
  - destruct (k_cpus k !! c) as [[| | |u kt|]|] eqn:Hc; simplify_eq; try done.
    apply (wake_kept_set (drop_task kt k) t u Running).
    + unfold wake_kept in *. simpl. destruct (decide (kt = t)) as [->|Hne];
        [by rewrite lookup_delete_eq|by rewrite lookup_delete_ne].
    + intros ->. destruct (cpu_allowed k c _ POuter t Hi Hc) as (s & Hs & Ha);
        [apply elem_of_cons; by left|]. unfold wake_kept in Hw. rewrite Hs in Hw. by destruct s.
  - destruct (k_cpus k !! c ≫= polled) as [u|]; simplify_eq; [|done].
    unfold on_timer_tick in Hk. inv_ok Hk. done.
Qed.

(** [along ls k P]: every step of the run of [ls] from [k] satisfies [P]. *)
Fixpoint along (P : klabel → kernel ST → Prop) (ls : list klabel) (k : kernel ST) : Prop :=
  match ls with
  | [] => True
  | l :: ls => P l k ∧ match kstep l k with Ok k' => along P ls k' | _ => True end
  end.

Lemma krun_wake_kept ls k k' t :
  kinv k → wake_kept k t → krun ls k = Ok k' →
  along (λ l k, ¬ repolls l k t ∧ ¬ reblocks l k t) ls k → wake_kept k' t.
Proof.
  revert k. induction ls as [|l ls IH]; intros k Hi Hw Hk Ha; simpl in *; [by simplify_eq|].
  destruct (kstep l k) as [k1| |] eqn:E; try done. destruct Ha as [[Hp Hb] Ha].
  eapply (IH k1); [by eapply kstep_inv|by eapply kstep_wake_kept|exact Hk|exact Ha].
Qed.

(** C2: A wake is not lost.  Once a task that is blocked, or on its way to
    block, has been woken, then whatever the other CPUs do, until it is polled
    again and as long as it does not mark itself [Blocking] a second time, it is
    in the run queue, being dispatched, or [Waked] on its CPU, unless it has
    finished; and the dispatcher polls a [Waked] task again instead of blocking
    it. *)
Theorem wake_not_lost n s ls0 k t k1 ls k2 :
  sched_wf s → queued s = [] → krun ls0 (kernel_init n s) = Ok k →
  k_state k !! t = Some Blocking ∨ k_state k !! t = Some Blocked →
  wakeup_task t k = Ok k1 → krun ls k1 = Ok k2 →
  along (λ l k, ¬ repolls l k t ∧ ¬ reblocks l k t) ls k1 →
  (t ∈ queued (k_sched k2) ∨ (∃ c, k_cpus k2 !! c = Some (CPicked t))) ∨
  (k_state k2 !! t = Some Waked ∧
   ∀ c b, k_cpus k2 !! c = Some (CRunning t) →
     kstep (KPending c b) k2 = Ok (set_state t Running k2)) ∨
  k_state k2 !! t = Some Exited ∨ k_state k2 !! t = None.
Proof.
  intros Hwf Hq Hk Hs Hw1 Hk2 Ha.
  assert (kinv k) as Hi by (eapply krun_inv, Hk; by apply kernel_init_inv).
  assert (kinv k1) as Hi1 by by eapply wakeup_inv.
  assert (kinv k2) as Hi2 by by eapply krun_inv.
  assert (wake_kept k1 t) as Hw.
  { unfold wakeup_task in Hw1. unfold wake_kept. destruct Hs as [Hs|Hs]; rewrite Hs in Hw1.
    - simplify_eq. simpl. by rewrite lookup_insert_eq.
    - inv_ok Hw1. simpl. by rewrite lookup_insert_eq. }
  pose proof (krun_wake_kept ls k1 k2 t Hi1 Hw Hk2 Ha) as Hw2. unfold wake_kept in Hw2.
  destruct (k_state k2 !! t) as [[]|] eqn:Hs2; try done; auto.
  - left. exact (kinv_well_placed k2 t _ Hi2 Hs2).
  - right. left. split; [done|]. intros c b Hc. simpl. rewrite Hc.
    unfold run_task_pending. by rewrite Hs2.
Qed.
End invariant.

(** ** Examples, on the round-robin scheduler *)

Section demo.
Local Instance demo_sched : BaseScheduler RoundRobin.RRScheduler := RoundRobin.RR_BaseScheduler 5.
Local Instance demo_laws : SchedulerLaws RoundRobin.RRScheduler := RoundRobin.RR_SchedulerLaws 5.

Definition demo_rr : RoundRobin.RRScheduler :=
  {| RoundRobin.ready_queue := []; RoundRobin.time_slice := λ _, 0%Z |}.

Definition demo_kernel : kernel RoundRobin.RRScheduler := kernel_init 2 demo_rr.

(** Task 1 runs on CPU 0 and task 2 on CPU 1. *)
Definition demo_two : list klabel := [KSpawn 1; KSpawn 2; KPick 0; KInit 0; KPick 1; KInit 1].

Definition state_after (ls : list klabel) (t : TaskRef) : option TaskState :=
  match krun ls demo_kernel with Ok k => k_state k !! t | _ => None end.

(** A task that marks itself [Blocking] twice in one poll, as [wait_timeout]
    (wait list, then alarm) and the thread variant of [wait] (wait list, then
    [block_current]) do, loses a wake that arrives in between: it ends up
    [Blocked], in no queue. *)
Lemma second_block_loses_wake :
  state_after (demo_two ++ [KBlock 0; KWake 1; KBlock 0; KPending 0 false]) 1 = Some Blocked ∧
  state_after (demo_two ++ [KBlock 0; KWake 1; KPending 0 false]) 1 = Some Running.
Proof. split; vm_compute; reflexivity. Qed.

(** Two wakes of a task that is on its way to block, one by a wait list and one
    by the timer, panic; after the task has left its CPU they do not. *)
Lemma second_wake_panics :
  krun (demo_two ++ [KBlock 0; KWake 1; KWake 1]) demo_kernel = Panic ∧
  state_after (demo_two ++ [KBlock 0; KPending 0 false; KWake 1; KWake 1]) 1 = Some Runable.
Proof. split; vm_compute; reflexivity. Qed.

Lemma task_placement_witness :
  ∃ k, krun (demo_two ++ [KBlock 0; KPending 0 false]) demo_kernel = Ok k ∧
    k_state k !! 1 = Some Blocked ∧ well_placed k 1 Blocked.
Proof.
  destruct (krun (demo_two ++ [KBlock 0; KPending 0 false]) demo_kernel) as [k| |] eqn:E;
    [|vm_compute in E; discriminate..].
  assert (k_state k !! 1 = Some Blocked) as Hs.
  { vm_compute in E. injection E as <-. vm_compute. reflexivity. }
  exists k. split; [done|]. split; [done|].
  destruct (task_placement (H0 := demo_laws) (H1 := rr_open 5) 2 demo_rr _ k I eq_refl E) as (_ & Hw & _). exact (Hw 1 Blocked Hs).
Defined.

(** Task 1 is woken by CPU 1 while it is on its way to block on CPU 0. *)
Lemma wake_not_lost_witness :
  ∃ k k1, krun (demo_two ++ [KBlock 0]) demo_kernel = Ok k ∧ wakeup_task 1 k = Ok k1 ∧
    (t1 ← kstep (KPending 0 false) k1; Ok (k_state t1 !! 1)) = Ok (Some Running).
Proof.
  destruct (krun (demo_two ++ [KBlock 0]) demo_kernel) as [k| |] eqn:E;
    [|vm_compute in E; discriminate..].
  assert (k_state k !! 1 = Some Blocking ∧ k_cpus k !! 0 = Some (CRunning 1)) as [Hs Hc].
  { vm_compute in E. injection E as <-. by vm_compute. }
  assert (wakeup_task 1 k = Ok (set_state 1 Waked k)) as Hw by (unfold wakeup_task; by rewrite Hs).
  exists k, (set_state 1 Waked k). split; [done|]. split; [done|].
  destruct (wake_not_lost (H0 := demo_laws) (H1 := rr_open 5) 2 demo_rr _ k 1 _ [] _ I eq_refl E (or_introl Hs) Hw eq_refl I)
    as [[Hq|[c Hp]]|[[_ Hp]|[He|He]]].
  - exfalso. vm_compute in E. injection E as <-. vm_compute in Hq. by apply elem_of_nil in Hq.
  - exfalso. vm_compute in E. injection E as <-. destruct c as [|[|[|c]]]; by vm_compute in Hp.
  - rewrite (Hp 0 false Hc). simpl. by rewrite lookup_insert_eq.
  - exfalso. simpl in He. by rewrite lookup_insert_eq in He.
  - exfalso. simpl in He. by rewrite lookup_insert_eq in He.
Defined.
End demo.
