(* ===== verification/Sync.v ===== *)
(** Synchronisation: the wait list ([modules/task_api/src/wait_list.rs]), the
    wait queue and its futures ([modules/sync/src/wait_queue.rs]) and the
    asynchronous mutex ([modules/sync/src/mutex.rs]), in the coroutine
    configuration (without the [thread] feature).

    A waker is the task it wakes.  A [WaitWakerNode] is allocated by every poll
    that registers: a node is a fresh number and a task.  What the code does to
    tasks and to the timer is recorded as effects, [perform]ed by the kernel of
    [TaskRun]; the intrusive list and the timer list are other crates. *)

From S2P Require Import Prelude BTree LinkedList Scheduler TaskRun.

Local Open Scope nat_scope.

Notation node := (nat * TaskRef)%type (only parsing).

(** Marking a task [Blocking], waking it, setting and cancelling its alarm. *)
Inductive effect :=
  | EBlock (t : TaskRef)
  | EWake (t : TaskRef)
  | EAlarm (deadline : Z) (t : TaskRef)
  | ECancel (t : TaskRef).

Definition perform {ST : Type} `{BaseScheduler ST} (e : effect) (k : kernel ST)
    : outcome (kernel ST) :=
  match e with
  | EBlock t | EAlarm _ t => Ok (set_state t Blocking k)
  | EWake t => wakeup_task t k
  | ECancel _ => Ok k
  end.

Section wait_list.
Context {L : Type} `{!LinkedList node L, !LinkedListLaws node L}.

(** ** [WaitTaskList] *)

Definition prepare_to_wait (n : node) (wl : L) : L * list effect :=
  (ll_push_back n wl, [EBlock n.2]).

Definition remove (n : node) (wl : L) : option node * L := ll_remove n wl.

(** The cursor stops at the first node of the task; the result is [false]
    whether or not there was one. *)
Definition notify_task (t : TaskRef) (wl : L) : bool * L * list effect :=
  match list_find (λ n : node, n.2 = t) (ll_items wl) with
  | Some (_, n) => (false, (ll_remove n wl).2, [EWake n.2])
  | None => (false, wl, [])
  end.

Definition notify_one (wl : L) : bool * L * list effect :=
  match ll_pop_front wl with
  | (Some n, wl) => (true, wl, [EWake n.2])
  | (None, wl) => (false, wl, [])
  end.

(** The loop ends when the list is empty; [fuel] bounds its turns. *)
Fixpoint notify_all (fuel : nat) (wl : L) : option (L * list effect) :=
  match fuel with
  | O => None
  | S fuel =>
      match notify_one wl with
      | (true, wl, es) =>
          '(wl, es') ← notify_all fuel wl; Some (wl, es ++ es')
      | (false, wl, es) => Some (wl, es)
      end
  end.

(** ** The futures of [WaitQueue]: one [poll] each *)

Definition wait_poll (flag : bool) (n : node) (wl : L) : poll () * L * list effect :=
  if negb flag then let '(wl, es) := prepare_to_wait n wl in (Pending, wl, es)
  else (Ready (), (remove n wl).2, []).

Definition wait_until_poll (condition : bool) (n : node) (wl : L)
    : poll () * L * list effect :=
  if condition then (Ready (), (remove n wl).2, [])
  else let '(wl, es) := prepare_to_wait n wl in (Pending, wl, es).

Definition wait_timeout_poll (res : option bool) (flag : bool) (now deadline : Z) (n : node)
    (wl : L) : poll bool * L * list effect :=
  match res with
  | Some r => (Ready r, wl, [])
  | None =>
      if negb flag then
        let '(wl, es) := prepare_to_wait n wl in (Pending, wl, es ++ [EAlarm deadline n.2])
      else (Ready (bool_decide (deadline ≤ now)%Z), (remove n wl).2, [ECancel n.2])
  end.

Definition wait_timeout_until_poll (res : option bool) (condition : bool) (now deadline : Z)
    (n : node) (wl : L) : poll bool * L * list effect :=
  match res with
  | Some r => (Ready r, wl, [])
  | None =>
      if condition then (Ready (bool_decide (deadline ≤ now)%Z), (remove n wl).2, [])
      else if decide (deadline ≤ now)%Z then (Ready true, (remove n wl).2, [ECancel n.2])
      else let '(wl, es) := prepare_to_wait n wl in (Pending, wl, es ++ [EAlarm deadline n.2])
  end.

(** ** [Mutex] *)

Record Mutex := { m_wq : L; m_owner : option TaskRef }.

Definition mutex_new : Mutex := {| m_wq := ll_new; m_owner := None |}.

Definition is_locked (m : Mutex) : bool := match m_owner m with Some _ => true | None => false end.

Definition try_lock (t : TaskRef) (m : Mutex) : bool * Mutex :=
  match m_owner m with
  | None => (true, {| m_wq := m_wq m; m_owner := Some t |})
  | Some _ => (false, m)
  end.

(** Where a task is in [lock().await] and in the drop of the guard: about to
    compare-and-swap; about to test [is_locked] in [wait_until]; about to
    register; suspended; holding the guard; unlocked, about to notify. *)
Inductive mpc := MTry | MCheck | MEnqueue | MWaiting | MHold | MNotify.

#[export] Instance mpc_eq_dec : EqDecision mpc.
Proof. solve_decision. Defined.

(** A mutex and the tasks that use it; [ms_next] numbers the nodes. *)
Record msys := mk_msys { ms_mutex : Mutex; ms_pc : gmap TaskRef mpc; ms_next : nat }.

Definition ms_init : msys := mk_msys mutex_new ∅ 0.

Definition set_pc (t : TaskRef) (p : mpc) (s : msys) : msys :=
  mk_msys (ms_mutex s) (<[t := p]> (ms_pc s)) (ms_next s).
Definition set_mutex (m : Mutex) (s : msys) : msys := mk_msys m (ms_pc s) (ms_next s).

(** One atomic piece of the poll of a [MutexGuard]; [spurious] is a spurious
    failure of [compare_exchange_weak]. *)
Definition lock_step (t : TaskRef) (spurious : bool) (p : mpc) (s : msys)
    : outcome (msys * list effect) :=
  let m := ms_mutex s in
  match p with
  | MTry =>
      match m_owner m with
      | None =>
          if spurious then Ok (set_pc t MCheck s, [])
          else Ok (set_pc t MHold (set_mutex {| m_wq := m_wq m; m_owner := Some t |} s), [])
      | Some o => if decide (o = t) then Panic else Ok (set_pc t MCheck s, [])
      end
  | MCheck =>
      if is_locked m then Ok (set_pc t MEnqueue s, [])
      else Ok (set_pc t MTry (set_mutex {| m_wq := (remove (ms_next s, t) (m_wq m)).2;
                                           m_owner := m_owner m |} s), [])
  | MEnqueue =>
      let '(wl, es) := prepare_to_wait (ms_next s, t) (m_wq m) in
      Ok (mk_msys {| m_wq := wl; m_owner := m_owner m |}
                  (<[t := MWaiting]> (ms_pc s)) (S (ms_next s)), es)
  | MNotify =>
      let '(_, wl, es) := notify_one (m_wq m) in
      Ok (mk_msys {| m_wq := wl; m_owner := m_owner m |}
                  (delete t (ms_pc s)) (ms_next s), es)
  | _ => Ok (s, [])
  end.

(** [force_unlock], up to [notify_one]. *)
Definition force_unlock (t : TaskRef) (s : msys) : outcome (msys * list effect) :=
  let m := ms_mutex s in
  if decide (m_owner m = Some t)
  then Ok (set_pc t MNotify (set_mutex {| m_wq := m_wq m; m_owner := None |} s), [])
  else Panic.

Inductive mlabel :=
  | MLock (t : TaskRef)               (** the task calls [lock().await] *)
  | MTryLock (t : TaskRef)
  | MStep (t : TaskRef) (spurious : bool)
  | MPoll (t : TaskRef)               (** the suspended task is polled again *)
  | MDrop (t : TaskRef).              (** the task drops its guard *)

(** A task that holds the guard and locks again fails the compare-and-swap and
    the assertion that it is not the owner. *)
Definition mstep (l : mlabel) (s : msys) : outcome (msys * list effect) :=
  match l with
  | MLock t =>
      match ms_pc s !! t with
      | None => Ok (set_pc t MTry s, [])
      | Some MHold => lock_step t false MTry s
      | Some _ => Ok (s, [])
      end
  | MTryLock t =>
      match ms_pc s !! t with
      | None => let '(b, m) := try_lock t (ms_mutex s) in
                Ok ((if b then set_pc t MHold (set_mutex m s) else s), [])
      | Some _ => Ok (s, [])
      end
  | MStep t sp => match ms_pc s !! t with Some p => lock_step t sp p s | None => Ok (s, []) end
  | MPoll t => match ms_pc s !! t with
               | Some MWaiting => Ok (set_pc t MTry s, []) | _ => Ok (s, []) end
  | MDrop t => match ms_pc s !! t with Some MHold => force_unlock t s | _ => Ok (s, []) end
  end.

Fixpoint mrun (ls : list mlabel) (s : msys) : outcome (msys * list effect) :=
  match ls with
  | [] => Ok (s, [])
  | l :: ls => '(s, es) ← mstep l s; '(s, es') ← mrun ls s; Ok (s, es ++ es')
  end.
End wait_list.
Arguments msys : clear implicits.
Arguments Mutex : clear implicits.

Section props.
Context {L : Type} `{!LinkedList node L, !LinkedListLaws node L}.

(** ** The wait list *)

Lemma notify_all_S fuel (wl : L) :
  notify_all (S fuel) wl =
    match notify_one wl with
    | (true, wl, es) => '(wl, es') ← notify_all fuel wl; Some (wl, es ++ es')
    | (false, wl, es) => Some (wl, es)
    end.
Proof. done. Qed.

(** [notify_all] terminates, wakes every registered task once per
    registration, in the order they registered, and leaves the list empty. *)
Theorem notify_all_wakes_in_order (wl : L) :
  ∃ wl', notify_all (S (length (ll_items wl))) wl = Some (wl', EWake <$> (ll_items wl).*2)
    ∧ ll_items wl' = [].
Proof.
  remember (ll_items wl) as items eqn:Hi. symmetry in Hi. revert wl Hi.
  induction items as [|n items IH]; intros wl Hi; rewrite notify_all_S; unfold notify_one at 1;
    pose proof (ll_pop_front_items wl) as [Hp1 Hp2]; rewrite Hi in Hp1, Hp2;
    destruct (ll_pop_front wl) as [o wl1]; simpl in Hp1, Hp2; subst o.
  - by exists wl1.
  - destruct (IH wl1 Hp2) as (wl' & Hn & He). exists wl'. split; [|done].
    cbn [length]. by rewrite Hn.
Qed.

(** [WaitQueue::wait] creates its future with a false flag that nothing sets:
    every poll registers again, and none is ready. *)
Lemma wait_never_ready (n : node) (wl : L) : (wait_poll false n wl).1.1 = Pending.
Proof. done. Qed.

(** [notify_task] reports [false] even when it woke the task. *)
Lemma notify_task_reports_false (t : TaskRef) (wl : L) : (notify_task t wl).1.1 = false.
Proof. unfold notify_task. by destruct (list_find _ _) as [[]|]. Qed.

(** A wait that times out removes a node it has just made, not the one it
    registered: the registered node stays, and a later [notify_one] is spent on
    it. *)
Lemma timeout_leaves_node (n n' : node) (wl : L) now deadline :
  n ∉ ll_items wl → n' ∉ ll_items wl → n' ≠ n → (deadline ≤ now)%Z →
  let wl1 := (prepare_to_wait n wl).1 in
  ∃ wl2 es, wait_timeout_until_poll None false now deadline n' wl1 = (Ready true, wl2, es) ∧
    ll_items wl2 = ll_items wl ++ [n].
Proof.
  intros Hn Hn' Hne Hd wl1. unfold wait_timeout_until_poll. rewrite decide_True by done.
  eexists _, _. split; [done|]. unfold remove.
  assert (ll_items wl1 = ll_items wl ++ [n]) as Hi by by apply ll_push_back_items.
  rewrite ll_remove_notin; [done|]. rewrite Hi. set_solver.
Qed.

(** ** The mutex *)

Definition owner_inv (s : msys L) : Prop :=
  ∀ t, ms_pc s !! t = Some MHold ↔ m_owner (ms_mutex s) = Some t.

Lemma owner_inv_pc s t p :
  owner_inv s → p ≠ MHold → ms_pc s !! t ≠ Some MHold → owner_inv (set_pc t p s).
Proof.
  intros Hi Hp Ht u. simpl. destruct (decide (u = t)) as [->|Hne].
  - rewrite lookup_insert_eq. split; [congruence|]. intros Ho. by apply Hi in Ho.
  - rewrite lookup_insert_ne by done. apply Hi.
Qed.

Lemma owner_inv_acquire s t m :
  owner_inv s → m_owner (ms_mutex s) = None → m_owner m = Some t →
  owner_inv (set_pc t MHold (set_mutex m s)).
Proof.
  intros Hi Ho Hm u. simpl. rewrite Hm. destruct (decide (u = t)) as [->|Hne].
  - by rewrite lookup_insert_eq.
  - rewrite lookup_insert_ne by done. split; [|congruence].
    intros Hu. apply Hi in Hu. congruence.
Qed.

Lemma lock_step_inv s t sp p s' es :
  owner_inv s → ms_pc s !! t = Some p → lock_step t sp p s = Ok (s', es) → owner_inv s'.
Proof.
  intros Hi Hp Hs. destruct p; simpl in Hs; try by simplify_eq.
  - destruct (m_owner (ms_mutex s)) as [o|] eqn:Ho.
    + case_decide; [done|]. injection Hs as <- _. apply owner_inv_pc; [done..|congruence].
    + destruct sp; injection Hs as <- _.
      * apply owner_inv_pc; [done..|congruence].
      * by apply owner_inv_acquire.
  - destruct (is_locked _); injection Hs as <- _.
    + apply owner_inv_pc; [done..|congruence].
    + apply (owner_inv_pc (set_mutex _ s)); [exact Hi|done|simpl; congruence].
  - injection Hs as <- _. by apply (owner_inv_pc s t MWaiting); [done..|congruence].
  - destruct (notify_one _) as [[b wl] es']. injection Hs as <- _. intros u. simpl.
    destruct (decide (u = t)) as [->|Hne].
    + rewrite lookup_delete_eq. split; [done|]. intros Ho. apply Hi in Ho. congruence.
    + rewrite lookup_delete_ne by done. apply Hi.
Qed.

Lemma mstep_inv l s s' es : owner_inv s → mstep l s = Ok (s', es) → owner_inv s'.
Proof.
  intros Hi. destruct l as [t|t|t sp|t|t]; simpl.
  - destruct (ms_pc s !! t) as [[]|] eqn:Hp; intros Hs; try by simplify_eq.
    + apply Hi in Hp. rewrite Hp in Hs. by rewrite decide_True in Hs.
    + injection Hs as <- _. apply owner_inv_pc; [done..|congruence].
  - destruct (ms_pc s !! t) eqn:Hp; [by intros [= <- <-]|]. unfold try_lock.
    destruct (m_owner (ms_mutex s)) eqn:Ho; intros [= <- <-]; [done|].
    by apply owner_inv_acquire.
  - destruct (ms_pc s !! t) eqn:Hp; [by eapply lock_step_inv|by intros [= <- <-]].
  - destruct (ms_pc s !! t) as [[]|] eqn:Hp; intros [= <- <-]; try done.
    apply owner_inv_pc; [done..|congruence].
  - destruct (ms_pc s !! t) as [[]|] eqn:Hp; try by intros [= <- <-].
    unfold force_unlock. case_decide as Ho; [|done]. intros [= <- <-]. intros u. simpl.
    destruct (decide (u = t)) as [->|Hne]; [by rewrite lookup_insert_eq|].
    rewrite lookup_insert_ne by done. split; [|done]. intros Hu. apply Hi in Hu. congruence.
Qed.

Lemma mrun_inv ls s s' es : owner_inv s → mrun ls s = Ok (s', es) → owner_inv s'.
Proof.
  revert s es. induction ls as [|l ls IH]; intros s es Hi Hr; simpl in Hr; [by simplify_eq|].
  destruct (mstep l s) as [[s1 es1]| |] eqn:E; try done. simpl in Hr.
  destruct (mrun ls s1) as [[s2 es2]| |] eqn:E2; try done. simpl in Hr. simplify_eq.
  eapply IH; [by eapply mstep_inv|exact E2].
Qed.

(** C3: Mutual exclusion.  For every interleaving of the atomic pieces of
    [lock], [try_lock] and the drops of the guards by any tasks on any CPUs
    (spurious failures of the weak compare-and-swap and spurious polls
    included), at most one task holds the guard, the owner word names it, and
    the assertions of [lock] and [force_unlock] fail only when a task locks the
    mutex it already holds. *)
Theorem mutex_exclusive ls (s : msys L) es :
  mrun ls ms_init = Ok (s, es) →
  (∀ t, ms_pc s !! t = Some MHold ↔ m_owner (ms_mutex s) = Some t) ∧
  (∀ t u, ms_pc s !! t = Some MHold → ms_pc s !! u = Some MHold → t = u) ∧
  (∀ l, mstep l s = Panic → ∃ t, l = MLock t ∧ ms_pc s !! t = Some MHold).
Proof.
  intros Hr. assert (owner_inv s) as Hi.
  { eapply mrun_inv; [|exact Hr]. intros t. simpl. by rewrite lookup_empty. }
  split; [exact Hi|]. split.
  - intros t u Ht Hu. apply Hi in Ht, Hu. congruence.
  - intros l Hp. destruct l as [t|t|t sp|t|t]; simpl in Hp.
    + exists t. split; [done|]. by destruct (ms_pc s !! t) as [[]|].
    + destruct (ms_pc s !! t); [done|]. by destruct (try_lock _ _).
    + exfalso. destruct (ms_pc s !! t) as [p|] eqn:Ht; [|done]. unfold lock_step in Hp.
      destruct p; try done.
      * destruct (m_owner (ms_mutex s)) eqn:Ho; [|by destruct sp]. case_decide; [subst|done].
        apply Hi in Ho. congruence.
      * by destruct (is_locked _).
      * by destruct (notify_one _) as [[]].
    + by destruct (ms_pc s !! t) as [[]|].
    + exfalso. destruct (ms_pc s !! t) as [[]|] eqn:Ht; try done. apply Hi in Ht.
      unfold force_unlock in Hp. by rewrite decide_True in Hp.
Qed.
End props.

(** ** No waiter is stranded on one CPU *)

(** With a single CPU and no preemption inside the kernel, a poll and a drop run
    without interruption. *)
Definition finish_poll (t : TaskRef) : list mlabel :=
  [MStep t false; MStep t false; MStep t false].
Definition lock_now (t : TaskRef) : list mlabel := MLock t :: finish_poll t.
Definition repoll_now (t : TaskRef) : list mlabel := MPoll t :: finish_poll t.
Definition unlock_now (t : TaskRef) : list mlabel := [MDrop t; MStep t false].

Section uniprocessor.
Context {L : Type} `{!LinkedList node L, !LinkedListLaws node L}.

Definition wl_tasks (s : msys L) : list TaskRef := (ll_items (m_wq (ms_mutex s))).*2.

(** A waiter that was notified and has not been polled since. *)
Definition notified (s : msys L) (t : TaskRef) : Prop :=
  ms_pc s !! t = Some MWaiting ∧ t ∉ wl_tasks s.

(** A task that does not use the mutex locks it; a notified waiter is polled; a
    holder drops its guard.  With [stray], a waiter the mutex has not notified is
    polled too: a signal wakes any blocked task. *)
Inductive uni_step (stray : bool) : msys L → msys L → Prop :=
  | uni_lock s t s' es :
      ms_pc s !! t = None → mrun (lock_now t) s = Ok (s', es) → uni_step stray s s'
  | uni_repoll s t s' es :
      notified s t → mrun (repoll_now t) s = Ok (s', es) → uni_step stray s s'
  | uni_stray s t s' es :
      stray = true → ms_pc s !! t = Some MWaiting → mrun (repoll_now t) s = Ok (s', es) → uni_step stray s s'
  | uni_try s t s' es :
      ms_pc s !! t = None → mrun [MTryLock t] s = Ok (s', es) → uni_step stray s s'
  | uni_unlock s t s' es :
      ms_pc s !! t = Some MHold → mrun (unlock_now t) s = Ok (s', es) → uni_step stray s s'.

Record uni_inv (s : msys L) : Prop := {
  ui_owner : owner_inv s;
  ui_fresh : ∀ n, n ∈ ll_items (m_wq (ms_mutex s)) → n.1 < ms_next s;
  ui_nodup : NoDup (wl_tasks s);
  ui_waiting : ∀ t, t ∈ wl_tasks s → ms_pc s !! t = Some MWaiting;
  ui_live : m_owner (ms_mutex s) = None → wl_tasks s = [] ∨ ∃ t, notified s t }.

(** The outcome of an uninterrupted attempt by a task outside the list. *)
Definition after_acquire (t : TaskRef) (s : msys L) : msys L :=
  set_pc t MHold (set_mutex {| m_wq := m_wq (ms_mutex s); m_owner := Some t |} s).
Definition after_enqueue (t : TaskRef) (s : msys L) : msys L :=
  mk_msys {| m_wq := ll_push_back (ms_next s, t) (m_wq (ms_mutex s));
             m_owner := m_owner (ms_mutex s) |}
          (<[t := MWaiting]> (ms_pc s)) (S (ms_next s)).

Lemma finish_poll_run s t p s' es :
  ms_pc s !! t = p → m_owner (ms_mutex s) ≠ Some t →
  mrun (finish_poll t) (set_pc t MTry s) = Ok (s', es) →
  s' = match m_owner (ms_mutex s) with
       | None => after_acquire t s
       | Some _ => after_enqueue t s
       end.
Proof.
  intros _ Hne. destruct s as [[wl o] pcs nx]. simpl in *. rewrite !lookup_insert_eq. simpl.
  destruct o as [o|]; simpl.
  - rewrite decide_False by congruence. simpl. unfold set_pc at 1. simpl.
    rewrite !lookup_insert_eq. simpl. rewrite !lookup_insert_eq. simpl.
    intros [= <- <-]. unfold after_enqueue. simpl. by rewrite !insert_insert_eq.
  - rewrite !lookup_insert_eq. simpl. rewrite !lookup_insert_eq. simpl.
    intros [= <- <-]. unfold after_acquire, set_pc, set_mutex. simpl. by rewrite insert_insert_eq.
Qed.

Lemma acquire_inv s t :
  uni_inv s → t ∉ wl_tasks s → m_owner (ms_mutex s) = None → uni_inv (after_acquire t s).
Proof.
  intros [H1 H2 H3 H4 H5] Ht Ho. split; simpl; try done.
  - by apply owner_inv_acquire.
  - intros u Hu. rewrite lookup_insert_ne; [by apply H4|]. intros ->. done.
Qed.

Lemma enqueue_inv s t o :
  uni_inv s → t ∉ wl_tasks s → m_owner (ms_mutex s) = Some o → o ≠ t →
  uni_inv (after_enqueue t s).
Proof.
  intros [H1 H2 H3 H4 H5] Ht Ho Hne.
  assert (ll_items (ll_push_back (ms_next s, t) (m_wq (ms_mutex s))) =
          ll_items (m_wq (ms_mutex s)) ++ [(ms_next s, t)]) as Hi.
  { apply ll_push_back_items. intros Hin. apply H2 in Hin. simpl in Hin. lia. }
  assert (wl_tasks (after_enqueue t s) = wl_tasks s ++ [t]) as Hw.
  { unfold wl_tasks, after_enqueue. simpl. by rewrite Hi, fmap_app. }
  split.
  - intros u. simpl. rewrite Ho. destruct (decide (u = t)) as [->|Hu].
    + rewrite lookup_insert_eq. split; congruence.
    + rewrite lookup_insert_ne by done. rewrite <- Ho. apply H1.
  - intros n. simpl. rewrite Hi, elem_of_app. intros [Hn| ->%list_elem_of_singleton].
    + apply H2 in Hn. lia.
    + simpl. lia.
  - rewrite Hw. by apply NoDup_snoc.
  - intros u. rewrite Hw, elem_of_app. simpl. destruct (decide (u = t)) as [->|Hu].
    + by rewrite lookup_insert_eq.
    + rewrite lookup_insert_ne by done. intros [Hin| ->%list_elem_of_singleton]; [by apply H4|done].
  - simpl. by rewrite Ho.
Qed.

(** The state after the holder released the mutex and notified. *)
Definition after_unlock (t : TaskRef) (s : msys L) : msys L :=
  mk_msys {| m_wq := (ll_pop_front (m_wq (ms_mutex s))).2; m_owner := None |}
          (delete t (ms_pc s)) (ms_next s).

Lemma unlock_run s t s' es :
  ms_pc s !! t = Some MHold → m_owner (ms_mutex s) = Some t →
  mrun (unlock_now t) s = Ok (s', es) → s' = after_unlock t s.
Proof.
  intros Ht Ho. simpl. rewrite Ht. unfold force_unlock. rewrite decide_True by done. simpl.
  rewrite lookup_insert_eq. simpl. unfold notify_one, after_unlock.
  destruct (ll_pop_front (m_wq (ms_mutex s))) as [[n|] wl']; simpl; intros [= <- <-];
    by rewrite delete_insert_eq.
Qed.

Lemma unlock_inv s t s' es :
  uni_inv s → ms_pc s !! t = Some MHold → mrun (unlock_now t) s = Ok (s', es) → uni_inv s'.
Proof.
  intros [H1 H2 H3 H4 H5] Ht Hr. pose proof Ht as Ho. apply H1 in Ho.
  assert (owner_inv s') as H1' by by eapply mrun_inv.
  rewrite (unlock_run s t s' es Ht Ho Hr) in *. clear Hr.
  pose proof (ll_pop_front_items (m_wq (ms_mutex s))) as [_ Hp].
  assert (wl_tasks (after_unlock t s) = tail (wl_tasks s)) as Hw.
  { unfold wl_tasks, after_unlock. simpl. rewrite Hp. by destruct (ll_items _). }
  assert (∀ u, u ∈ wl_tasks s → ms_pc (after_unlock t s) !! u = Some MWaiting) as Hpc.
  { intros u Hu. apply H4 in Hu. simpl. rewrite lookup_delete_ne; [done|]. congruence. }
  assert (∀ u, u ∈ tail (wl_tasks s) → u ∈ wl_tasks s) as Htl.
  { intros u. destruct (wl_tasks s); set_solver. }
  split; [exact H1'|..].
  - intros n Hn. apply H2. simpl in Hn. rewrite Hp in Hn. destruct (ll_items _); set_solver.
  - rewrite Hw. by apply NoDup_tail.
  - intros u. rewrite Hw. intros Hu. by apply Hpc, Htl.
  - intros _. destruct (wl_tasks s) as [|u us] eqn:E; [left; by rewrite Hw|right].
    exists u. split; [apply Hpc; set_solver|]. rewrite Hw. simpl.
    by apply NoDup_cons in H3 as [? _].
Qed.

Lemma waiting_not_owner (s : msys L) t :
  owner_inv s → ms_pc s !! t ≠ Some MHold → m_owner (ms_mutex s) ≠ Some t.
Proof. intros Hi Ht Ho. by apply Hi in Ho. Qed.

Lemma poll_inv s t s' es :
  uni_inv s → t ∉ wl_tasks s → ms_pc s !! t ≠ Some MHold →
  mrun (finish_poll t) (set_pc t MTry s) = Ok (s', es) → uni_inv s'.
Proof.
  intros Hi Ht Hp Hr. pose proof (waiting_not_owner s t (ui_owner s Hi) Hp) as Hne.
  rewrite (finish_poll_run s t _ s' es eq_refl Hne Hr).
  destruct (m_owner (ms_mutex s)) as [o|] eqn:Ho.
  - eapply enqueue_inv; [done|done|exact Ho|congruence].
  - by apply acquire_inv.
Qed.

Lemma uni_step_inv s s' : uni_inv s → uni_step false s s' → uni_inv s'.
Proof.
  intros Hi Hs. destruct Hs as [s t s' es Ht Hr|s t s' es [Hw Ht] Hr|s t s' es [=] _ _|s t s' es Ht Hr|s t s' es Ht Hr].
  - assert (t ∉ wl_tasks s) as Hn by (intros Hin; apply (ui_waiting s Hi) in Hin; congruence).
    unfold lock_now in Hr. cbn [mrun] in Hr. simpl mstep in Hr. rewrite Ht in Hr.
    unfold mbind, outcome_bind in Hr.
    destruct (mrun (finish_poll t) (set_pc t MTry s)) as [[s2 es2]| |] eqn:E; try done.
    injection Hr as <- _. eapply poll_inv; [done|done|congruence|exact E].
  - unfold repoll_now in Hr. cbn [mrun] in Hr. simpl mstep in Hr. rewrite Hw in Hr.
    unfold mbind, outcome_bind in Hr.
    destruct (mrun (finish_poll t) (set_pc t MTry s)) as [[s2 es2]| |] eqn:E; try done.
    injection Hr as <- _. eapply poll_inv; [done|done|congruence|exact E].
  - simpl in Hr. rewrite Ht in Hr. unfold try_lock in Hr.
    destruct (m_owner (ms_mutex s)) eqn:Ho; simpl in Hr; injection Hr as <- _; [done|].
    apply acquire_inv; [done| |done].
    intros Hin. apply (ui_waiting s Hi) in Hin. congruence.
  - by eapply unlock_inv.
Qed.

End uniprocessor.

(** ** Two CPUs *)

Notation demo_list := (nlist node) (only parsing).

(** Task 2 finds the mutex taken and is about to register when task 1, on
    another CPU, releases it and finds nobody to notify: task 2 then registers
    and suspends on a free mutex, and no wake was issued. *)
Definition demo_race : list mlabel :=
  [MLock 1; MStep 1 false; MLock 2; MStep 2 false; MStep 2 false;
   MDrop 1; MStep 1 false; MStep 2 false].

Lemma mutex_wakeup_lost_on_smp :
  ∃ (s : msys demo_list) es, mrun demo_race ms_init = Ok (s, es) ∧
    m_owner (ms_mutex s) = None ∧ ms_pc s !! 2 = Some MWaiting ∧ ms_pc s !! 1 = None ∧
    wl_tasks s = [2] ∧ es = [EBlock 2].
Proof. eexists _, _. split; [vm_compute; reflexivity|]. vm_compute. done. Qed.

(** Task 2 waits and is polled although the mutex has not notified it, as after a
    signal: it registers a second time, before task 3.  When task 1 and then task 2
    release the mutex, both notify task 2; task 3 waits for a free mutex and nobody
    is going to notify it. *)
Definition demo_stray : list mlabel :=
  lock_now 1 ++ lock_now 2 ++ repoll_now 2 ++ lock_now 3 ++ unlock_now 1 ++ repoll_now 2 ++ unlock_now 2.

Lemma stray_poll_strands_waiter :
  ∃ (s : msys demo_list) es, mrun demo_stray ms_init = Ok (s, es) ∧
    rtc (uni_step true) ms_init s ∧ m_owner (ms_mutex s) = None ∧ ms_pc s !! 3 = Some MWaiting ∧
    wl_tasks s = [3] ∧ ∀ u, ¬ notified s u.
Proof.
  assert (∀ (s s' : msys demo_list) ls es, mrun ls s = Ok (s', es) →
    ((∃ t, ls = lock_now t ∧ ms_pc s !! t = None) ∨ (∃ t, ls = repoll_now t ∧ ms_pc s !! t = Some MWaiting) ∨
     (∃ t, ls = unlock_now t ∧ ms_pc s !! t = Some MHold)) → uni_step true s s') as Hstep.
  { intros s s' ls es Hr [(t & -> & Ht)|[(t & -> & Ht)|(t & -> & Ht)]];
      [by eapply uni_lock|by eapply uni_stray|by eapply uni_unlock]. }
  eexists _, _. split; [vm_compute; reflexivity|]. split.
  - eapply rtc_l; [eapply (Hstep _ _ (lock_now 1)); [vm_compute; reflexivity|left; exists 1; split; [reflexivity|by vm_compute]]|].
    eapply rtc_l; [eapply (Hstep _ _ (lock_now 2)); [vm_compute; reflexivity|left; exists 2; split; [reflexivity|by vm_compute]]|].
    eapply rtc_l; [eapply (Hstep _ _ (repoll_now 2)); [vm_compute; reflexivity|right; left; exists 2; split; [reflexivity|by vm_compute]]|].
    eapply rtc_l; [eapply (Hstep _ _ (lock_now 3)); [vm_compute; reflexivity|left; exists 3; split; [reflexivity|by vm_compute]]|].
    eapply rtc_l; [eapply (Hstep _ _ (unlock_now 1)); [vm_compute; reflexivity|right; right; exists 1; split; [reflexivity|by vm_compute]]|].
    eapply rtc_l; [eapply (Hstep _ _ (repoll_now 2)); [vm_compute; reflexivity|right; left; exists 2; split; [reflexivity|by vm_compute]]|].
    eapply rtc_l; [eapply (Hstep _ _ (unlock_now 2)); [vm_compute; reflexivity|right; right; exists 2; split; [reflexivity|by vm_compute]]|].
    apply rtc_refl.
  - split_and!; [by vm_compute..|]. intros u [Hu Hn]. apply Hn.
    match type of Hu with ms_pc ?s !! _ = _ => assert (ms_pc s = {[3 := MWaiting]}) as Hpc by (by vm_compute) end.
    rewrite Hpc in Hu. apply lookup_singleton_Some in Hu as [<- _]. vm_compute. by left.
Qed.

(** ** Witnesses *)

Lemma mutex_exclusive_witness :
  ∃ (s : msys demo_list) es,
    mrun [MLock 1; MStep 1 false; MLock 2; MStep 2 false] ms_init = Ok (s, es) ∧
    m_owner (ms_mutex s) = Some 1 ∧ ms_pc s !! 2 ≠ Some MHold.
Proof.
  destruct (mrun (L := demo_list) [MLock 1; MStep 1 false; MLock 2; MStep 2 false] ms_init)
    as [[s es]| |] eqn:E; [|vm_compute in E; discriminate..].
  destruct (mutex_exclusive _ s es E) as (Ho & Hu & _).
  assert (m_owner (ms_mutex s) = Some 1) as H1.
  { vm_compute in E. injection E as <- _. reflexivity. }
  exists s, es. split; [done|]. split; [done|]. intros H2.
  apply Ho in H1. by pose proof (Hu 1 2 H1 H2).
Defined.

