(* ===== verification/Threads.v ===== *)
(** Kernel threads and preemption: the guards of [modules/kernel_guard], the
    futures of [modules/task_api] that a task waits with, the kernel stacks
    ([modules/taskctx/src/kstack.rs]) and the switch of threads
    ([set_task_tf], [restore_from_stack_ctx] and the checks for preemption of
    [modules/trampoline/src/task_api.rs] and [trap_api.rs]).

    A coroutine leaves nothing behind when its poll returns, so one stack serves a
    CPU.  A thread is suspended in the middle of a poll: it takes the stack it is
    on with it, and the CPU goes on with another one of its pool.  The features
    [thread] and [preempt] (which the round-robin and the CFS scheduler ask for)
    turn this on; they are arguments here.  The switch itself is the step of
    [run_task_pending] of [TaskRun]. *)

From S2P Require Import Prelude BTree LinkedList Scheduler TaskRun Sync.

Local Open Scope Z_scope.

(** ** Guards

    A CPU as the guards see it: the interrupt enable bit of [sstatus], and the
    count of the current task, if there is one. *)
Record hart := mk_hart { sie : bool; count : option Z }.

Definition SIE_BIT : Z := 2.
(** [csrrc] and [csrrs]. *)
Definition local_irq_save_and_disable (h : hart) : Z * hart := (if sie h then SIE_BIT else 0, mk_hart false (count h)).
Definition local_irq_restore (flags : Z) (h : hart) : hart := mk_hart (sie h || Z.testbit flags 1) (count h).

(** [KernelGuardIf] of the kernel: [disable_preempt] and [enable_preempt] of the
    current task. *)
Definition disable_preempt (h : hart) : hart := mk_hart (sie h) ((λ n, wrap64 (n + 1)) <$> count h).
Definition enable_preempt (h : hart) : hart := mk_hart (sie h) ((λ n, wrap64 (n - 1)) <$> count h).
Definition can_preempt (h : hart) : bool := bool_decide (count h = Some 0).

Section guards.
(** The features. *)
Context (preempt thread : bool).

Inductive guard := GNoOp | GIrqSave | GNoPreempt | GNoPreemptIrqSave.

(** What a guard saves. *)
Definition acquire (g : guard) (h : hart) : Z * hart :=
  match g with
  | GNoOp => (0, h)
  | GIrqSave => local_irq_save_and_disable h
  | GNoPreempt => (0, if preempt then disable_preempt h else h)
  | GNoPreemptIrqSave => local_irq_save_and_disable (if preempt then disable_preempt h else h)
  end.
Definition release (g : guard) (state : Z) (h : hart) : hart :=
  match g with
  | GNoOp => h
  | GIrqSave => local_irq_restore state h
  | GNoPreempt => if preempt then enable_preempt h else h
  | GNoPreemptIrqSave => let h := local_irq_restore state h in if preempt then enable_preempt h else h
  end.

(** Guards in scopes one inside the other, around [body]. *)
Fixpoint guarded (gs : list guard) (body : hart → hart) (h : hart) : hart :=
  match gs with
  | [] => body h
  | g :: gs => let '(st, h) := acquire g h in release g st (guarded gs body h)
  end.

(** ** The futures a task waits with

    Each saves the interrupts when it is made, and is to restore them when the
    task goes on.  With the feature [thread] the waiting is over when the future
    is made, and a poll is ready. *)
Record wait_future := mk_wf { has_polled : bool; irq_state : Z }.

Definition wait_new (h : hart) : wait_future * hart :=
  if thread then (mk_wf false 0, h)
  else let '(st, h) := acquire GNoPreemptIrqSave h in (mk_wf false st, h).

Definition yield_new := wait_new.
Definition yield_future_poll (f : wait_future) (h : hart) : poll unit * wait_future * hart :=
  if thread then (Ready (), f, h)
  else if has_polled f then (Ready (), f, release GNoPreemptIrqSave (irq_state f) h)
  else (Pending, mk_wf true (irq_state f), h).

Definition block_new := wait_new.
Definition block_future_poll (f : wait_future) (h : hart) : poll unit * wait_future * hart :=
  if thread then (Ready (), f, h)
  else if has_polled f then (Ready (), f, release GNoPreemptIrqSave (irq_state f) h)
  else let '(st, h) := acquire GNoPreemptIrqSave h in (Pending, mk_wf true st, h).

Definition exit_new := wait_new.
Definition exit_future_poll (f : wait_future) (h : hart) : poll unit * wait_future * hart :=
  if thread then (Ready (), f, h)
  else let '(st, h) := acquire GNoPreemptIrqSave h in (Pending, mk_wf (has_polled f) st, h).

(** [JoinFuture]: [exited] is the exit code of the task, when it has exited; the
    flag says that the waker is left with it. *)
Record join_future := mk_jf { jf_res : option Z; jf_irq : Z }.
Definition join_new (res : option Z) : join_future := mk_jf res 0.
Definition join_poll (exited : option Z) (f : join_future) (h : hart) : poll (option Z) * join_future * hart * bool :=
  if thread then (Ready (jf_res f), mk_jf None (jf_irq f), h, false)
  else match jf_res f with
       | None =>
           match exited with
           | Some code => (Ready (Some code), f, release GNoPreemptIrqSave (jf_irq f) h, false)
           | None => let '(st, h) := acquire GNoPreemptIrqSave h in (Pending, mk_jf None st, h, true)
           end
       | Some r => (Ready (Some r), mk_jf None (jf_irq f), release GNoPreemptIrqSave (jf_irq f) h, false)
       end.

(** What [thread_yield], [thread_blocked] and [thread_exit] leave of the guard they
    take: [acquire] gives back the saved state and not a guard, and nothing
    releases it. *)
Definition thread_guard (h : hart) : hart := (acquire GNoPreemptIrqSave h).2.

(** [SleepFuture] with interrupts, of the task [t]; [now] is the clock. *)
Record sleep_future := mk_sf { has_sleep : bool; sf_irq : Z; sf_deadline : Z }.
Definition sleep_new (deadline : Z) (h : hart) : sleep_future * hart :=
  if thread then (mk_sf false 0 deadline, h)
  else let '(st, h) := acquire GNoPreemptIrqSave h in (mk_sf false st deadline, h).
Definition sleep_poll (now : Z) (t : TaskRef) (f : sleep_future) (h : hart)
    : poll bool * sleep_future * hart * list effect :=
  if thread then (Ready (bool_decide (sf_deadline f ≤ now)), f, h, [])
  else if has_sleep f then
    (Ready (bool_decide (sf_deadline f ≤ now)), f, release GNoPreemptIrqSave (sf_irq f) h, [ECancel t])
  else (Pending, mk_sf true (sf_irq f) (sf_deadline f), h, [EAlarm (sf_deadline f) t]).
End guards.

(** ** Kernel stacks ([kstack.rs])

    A stack is its number; the allocator gives a new one each time.  The vector
    of free stacks is used at its end. *)
Record StackPool := mk_pool { free_stacks : list nat; current : option nat }.

Definition pool_new : StackPool := mk_pool [] None.
Definition pool_init (boot : nat) (p : StackPool) : StackPool := mk_pool (free_stacks p) (Some boot).
Definition pool_alloc (next : nat) (p : StackPool) : nat * StackPool * nat :=
  match last (free_stacks p) with
  | Some s => (s, mk_pool (removelast (free_stacks p)) (current p), next)
  | None => (next, p, S next)
  end.
Definition pick_current_stack (next : nat) (p : StackPool) : outcome (nat * StackPool * nat) :=
  match current p with
  | None => Panic
  | Some cur => let '(s, p, next) := pool_alloc next p in Ok (cur, mk_pool (free_stacks p) (Some s), next)
  end.
Definition current_stack (p : StackPool) : outcome nat := match current p with Some s => Ok s | None => Panic end.
Definition put_prev_stack (kstack : nat) (p : StackPool) : outcome StackPool :=
  match current p with None => Panic | Some cur => Ok (mk_pool (free_stacks p ++ [cur]) (Some kstack)) end.

(** ** Threads *)

Inductive CtxType := CtxThread | CtxInterrupt.
Record StackCtx := mk_ctx { kstack : nat; trap_frame : Z; ctx_type : CtxType }.

Section threads.
Context {ST : Type} `{OpenScheduler ST}.

(** The kernel of [TaskRun], the pool of every CPU, the stack every CPU is on, the
    stacks of suspended tasks, the next stack, of every task whether it is to be
    preempted and how often that is forbidden, and the CPUs that have given their
    thread away but have not changed their stack pointer yet. *)
Record threads := mk_thr {
  th_kernel : kernel ST; th_pools : list StackPool; th_on : list nat; th_leaving : gset nat;
  th_ctx : gmap TaskRef StackCtx; th_next : nat; th_resched : gset TaskRef; th_count : gmap TaskRef Z }.

Definition set_kernel (k : kernel ST) (w : threads) : threads :=
  mk_thr k (th_pools w) (th_on w) (th_leaving w) (th_ctx w) (th_next w) (th_resched w) (th_count w).
Definition set_resched (t : TaskRef) (b : bool) (w : threads) : threads :=
  mk_thr (th_kernel w) (th_pools w) (th_on w) (th_leaving w) (th_ctx w) (th_next w)
    (if b then {[ t ]} ∪ th_resched w else th_resched w ∖ {[ t ]}) (th_count w).

Definition set_stack_ctx (c : nat) (t : TaskRef) (tf : Z) (ty : CtxType) (w : threads) : outcome threads :=
  match th_ctx w !! t, th_pools w !! c with
  | None, Some p =>
      '(kstack, p, next) ← pick_current_stack (th_next w) p;
      Ok (mk_thr (th_kernel w) (<[c := p]> (th_pools w)) (th_on w) (th_leaving w) (<[t := mk_ctx kstack tf ty]> (th_ctx w)) next
            (th_resched w) (th_count w))
  | _, _ => Panic
  end.

(** The CPU goes on on the current stack of its pool. *)
Definition enter_current (c : nat) (w : threads) : outcome threads :=
  match th_pools w !! c with
  | Some p =>
      s ← current_stack p;
      Ok (mk_thr (th_kernel w) (th_pools w) (<[c := s]> (th_on w)) (th_leaving w ∖ {[ c ]}) (th_ctx w) (th_next w) (th_resched w) (th_count w))
  | None => Panic
  end.

Definition set_leaving (c : nat) (w : threads) : threads :=
  mk_thr (th_kernel w) (th_pools w) (th_on w) ({[ c ]} ∪ th_leaving w) (th_ctx w) (th_next w) (th_resched w) (th_count w).

(** [set_task_tf], up to the release of the state lock: the stack is put away first;
    a task that was woken meanwhile just returns, another is given away, while the
    CPU is still on its stack.  That the CPU then jumps to [trampoline] on the new
    stack is a step of its own ([enter_current]). *)
Definition set_task_tf (c : nat) (t : TaskRef) (tf : Z) (ty : CtxType) (w : threads) : outcome threads :=
  w ← set_stack_ctx c t tf ty w;
  let was := k_state (th_kernel w) !! t in
  k ← run_task_pending c t false (th_kernel w);
  let w := set_kernel k w in
  Ok (if decide (was = Some Waked) then w else set_leaving c w).

(** [restore_from_stack_ctx]: a suspended thread goes on where it was. *)
Definition restore_from_stack_ctx (c : nat) (t : TaskRef) (w : threads) : outcome threads :=
  match th_ctx w !! t, th_pools w !! c with
  | None, _ => Ok w
  | Some x, Some p =>
      p ← put_prev_stack (kstack x) p;
      enter_current c (mk_thr (th_kernel w) (<[c := p]> (th_pools w)) (th_on w) (th_leaving w) (delete t (th_ctx w)) (th_next w)
        (th_resched w) (th_count w))
  | _, None => Panic
  end.

(** [current_check_preempt_pending], at the end of [handle_irq]. *)
Definition may_preempt (t : TaskRef) (w : threads) : bool :=
  bool_decide (t ∈ th_resched w) && bool_decide (default 0 (th_count w !! t) = 0) &&
  negb (bool_decide (k_state (th_kernel w) !! t = Some Exited)) && negb (bool_decide (k_state (th_kernel w) !! t = Some Blocking)).
Definition current_check_preempt_pending (c : nat) (t : TaskRef) (tf : Z) (w : threads) : outcome threads :=
  if may_preempt t w then set_task_tf c t tf CtxInterrupt (set_resched t false w) else Ok w.

(** [on_timer_tick], without the timer events. *)
Definition preempt_timer_tick (t : TaskRef) (w : threads) : outcome threads :=
  '(b, s) ← task_tick t (k_sched (th_kernel w));
  let w := set_kernel (with_sched s (th_kernel w)) w in
  Ok (if b : bool then set_resched t true w else w).

Inductive tlabel :=
  | TKernel (l : klabel)          (** anything else the kernel does *)
  | TRestore (c : nat)            (** [run_task] takes up its task *)
  | TSwitch (c : nat) (tf : Z)    (** [thread_yield], [thread_blocked], [thread_exit] *)
  | TEnter (c : nat)              (** the end of the switch: the stack pointer *)
  | TTick (c : nat)
  | TIrq (c : nat) (tf : Z).

Definition running (c : nat) (w : threads) : option TaskRef :=
  match k_cpus (th_kernel w) !! c with Some (CRunning t) => Some t | _ => None end.

(** The CPU that makes a step. *)
Definition kernel_cpu (l : klabel) : option nat :=
  match l with
  | KSpawn _ | KWake _ => None
  | KPick c | KInit c | KBlock c | KPending c _ | KReady c _ | KNotify c | KExit c | KJoin c _ | KNest c _
  | KNestPending c | KNestReady c | KTick c => Some c
  end.
Definition label_cpu (l : tlabel) : option nat :=
  match l with
  | TKernel l => kernel_cpu l
  | TRestore c | TSwitch c _ | TEnter c | TTick c | TIrq c _ => Some c
  end.
(** In the middle of the switch a CPU does nothing but to go on with it. *)
Definition may_step (l : tlabel) (w : threads) : bool :=
  match l, label_cpu l with
  | TEnter c, _ => bool_decide (c ∈ th_leaving w)
  | _, Some c => bool_decide (c ∉ th_leaving w)
  | _, None => true
  end.

(** A step that is not possible leaves the kernel as it is. *)
Definition tstep (l : tlabel) (w : threads) : outcome threads :=
  if negb (may_step l w) then Ok w else
  match l with
  | TKernel l => k ← kstep l (th_kernel w); Ok (set_kernel k w)
  | TRestore c => match running c w with Some t => restore_from_stack_ctx c t w | None => Ok w end
  | TSwitch c tf => match running c w with Some t => set_task_tf c t tf CtxThread w | None => Ok w end
  | TEnter c => enter_current c w
  | TTick c => match running c w with Some t => preempt_timer_tick t w | None => Ok w end
  | TIrq c tf => match running c w with Some t => current_check_preempt_pending c t tf w | None => Ok w end
  end.
Fixpoint trun (ls : list tlabel) (w : threads) : outcome threads :=
  match ls with [] => Ok w | l :: ls => w ← tstep l w; trun ls w end.

(** At boot every CPU is on its boot stack. *)
Definition threads_init (n : nat) (s : ST) : threads :=
  mk_thr (kernel_init n s) ((λ b, pool_init b pool_new) <$> seq 0 n) (seq 0 n) ∅ ∅ n ∅ ∅.
End threads.
Arguments threads : clear implicits.
