(* ===== verification/ThreadsProps.v ===== *)
(** Kernel threads: what the guards and the futures restore, and that the stacks
    of threads are never shared. *)

From S2P Require Import Prelude BTree LinkedList Scheduler TaskRun Sync Threads.

Local Open Scope Z_scope.

(** ** Guards *)
Section guards.
Context (preempt : bool).

Lemma count_back h : (∀ n, count h = Some n → is_u64 n) → enable_preempt (disable_preempt h) = h.
Proof.
  destruct h as [s [n|]]; intros Hn; [|done]. unfold enable_preempt, disable_preempt. cbn. do 2 f_equal.
  unfold wrap64. rewrite Zminus_mod_idemp_l, Z.add_simpl_r. apply Z.mod_small. by apply Hn.
Qed.

(** A scope that leaves the interrupts off and the count as it found them is
    restored by its guards, whatever they are. *)
Lemma guarded_restores gs (body : hart → hart) h :
  (∀ h, count (body h) = count h ∧ sie (body h) = sie h) → (∀ n, count h = Some n → is_u64 n) →
  guarded preempt gs body h = h.
Proof.
  intros Hb. revert h. induction gs as [|g gs IH]; intros h Hn.
  { cbn [guarded]. destruct (Hb h) as [H1 H2]. destruct (body h), h. cbn in *. congruence. }
  assert (Hd : ∀ n, count (disable_preempt h) = Some n → is_u64 n).
  { unfold disable_preempt. cbn. destruct (count h); intros n Hc; simplify_eq/=. apply wrap64_range. }
  assert (Hi : ∀ h, guarded preempt gs body h = h → local_irq_restore (local_irq_save_and_disable h).1 (mk_hart false (count h)) = h).
  { intros [s n] _. unfold local_irq_restore, local_irq_save_and_disable. cbn. by destruct s. }
  destruct g; cbn [guarded acquire release local_irq_save_and_disable].
  - by apply IH.
  - rewrite IH by done. unfold local_irq_restore. destruct h as [[] n]; done.
  - destruct preempt; [rewrite IH by done; by apply count_back|by apply IH].
  - destruct preempt; cbn.
    + rewrite IH by done. unfold local_irq_restore. cbn. rewrite <- (count_back h) at 3 by done.
      unfold enable_preempt, disable_preempt. destruct h as [[] n]; done.
    + rewrite IH by done. unfold local_irq_restore. destruct h as [[] n]; done.
Qed.

(** A task that yields goes on as it was: made at [h], polled a first time at
    once, and polled again on any CPU with interrupts off. *)
Lemma yield_restores h h1 : sie h1 = false → (∀ n, count h = Some n → is_u64 n) →
  count h1 = count (yield_new preempt false h).2 →
  let '(f, h') := yield_new preempt false h in
  yield_future_poll preempt false f h' = (Pending, mk_wf true (irq_state f), h') ∧
  yield_future_poll preempt false (mk_wf true (irq_state f)) h1 = (Ready (), mk_wf true (irq_state f), h).
Proof.
  intros Hs Hn Hc. unfold yield_new, wait_new, yield_future_poll in *. cbn in *. split; [done|].
  destruct h1 as [s1 n1]. cbn in Hs, Hc. subst s1. unfold local_irq_restore. destruct preempt; cbn in *; subst n1.
  - assert (He : enable_preempt (mk_hart (sie h) (count (disable_preempt h))) = h) by (by apply count_back).
    do 2 f_equal. rewrite <- He at 3. destruct h as [[] n]; done.
  - by destruct h as [[] n].
Qed.

(** A task that blocks with interrupts on goes on with interrupts off: the first
    poll saves them a second time, when they are off already. *)
Lemma block_loses_interrupts h h1 : sie h1 = false →
  let '(f, h') := block_new preempt false h in
  let '(_, f, _) := block_future_poll preempt false f h' in
  sie (block_future_poll preempt false f h1).2 = false.
Proof. intros Hs. unfold block_new, wait_new, block_future_poll. cbn. destruct preempt; cbn; by rewrite Hs. Qed.

(** Joining a task that has exited already allows preemption once too often: with
    preemption the count wraps, and the task is never preempted again. *)
Lemma join_exited_unbalanced h code : preempt = true → count h = Some 0 →
  let '(r, _, h', _) := join_poll preempt false (Some code) (join_new None) h in
  r = Ready (Some code) ∧ count h' = Some U64_MAX ∧ can_preempt h' = false.
Proof.
  intros -> Hc. unfold join_poll, join_new. cbn [jf_res jf_irq release]. unfold enable_preempt. cbn [count local_irq_restore]. rewrite Hc.
  cbn [fmap option_fmap option_map]. assert (Hw : wrap64 (0 - 1) = U64_MAX) by reflexivity. rewrite Hw. split_and!; [done..|].
  by apply bool_decide_eq_false_2.
Qed.
End guards.

(** ** Stacks *)
Section stacks.
Context {ST : Type} `{OpenScheduler ST}.
Implicit Types w : threads ST.

Definition pool_stacks (p : StackPool) : list nat := option_list (current p) ++ free_stacks p.
(** Every use of a stack: by a pool, or by a suspended task. *)
Definition stacks w : list nat := concat (pool_stacks <$> th_pools w) ++ (kstack ∘ snd <$> map_to_list (th_ctx w)).

(** Every stack there is has exactly one use, and every CPU that is not in the middle
    of a switch is on the current stack of its pool. *)
Record tinv w : Prop := {
  ti_len : length (th_on w) = length (th_pools w);
  ti_all : stacks w ≡ₚ seq 0 (th_next w);
  ti_on : ∀ c p, th_pools w !! c = Some p → ∃ s, current p = Some s ∧ (c ∉ th_leaving w → th_on w !! c = Some s) }.

Lemma pools_split (ps : list StackPool) c p : ps !! c = Some p →
  ∃ rest, concat (pool_stacks <$> ps) ≡ₚ pool_stacks p ++ rest ∧
    ∀ q, concat (pool_stacks <$> <[c := q]> ps) ≡ₚ pool_stacks q ++ rest.
Proof.
  intros Hc. exists (concat (pool_stacks <$> take c ps) ++ concat (pool_stacks <$> drop (S c) ps)).
  assert (Hq : ∀ q, concat (pool_stacks <$> <[c := q]> ps) ≡ₚ
    pool_stacks q ++ concat (pool_stacks <$> take c ps) ++ concat (pool_stacks <$> drop (S c) ps)).
  { intros q. rewrite insert_take_drop by (by eapply lookup_lt_Some). rewrite fmap_app, fmap_cons, concat_app. simpl. solve_Permutation. }
  split; [|done]. rewrite <- (Hq p). by rewrite list_insert_id.
Qed.

(** Taking a stack out of a pool, or a new one. *)
Lemma pool_alloc_ok next p s p' next' : pool_alloc next p = (s, p', next') →
  current p' = current p ∧
  ((next' = next ∧ free_stacks p ≡ₚ s :: free_stacks p') ∨ (s = next ∧ next' = S next ∧ free_stacks p' = free_stacks p)).
Proof.
  unfold pool_alloc. destruct (last (free_stacks p)) as [x|] eqn:El; intros [= <- <- <-]; [|by auto].
  split; [done|]. left. split; [done|]. apply last_Some in El as [l' Hl]. cbn. rewrite Hl, removelast_last. solve_Permutation.
Qed.

(** A new stack changes what all stacks are to those there were and it. *)
Definition grown w w' : Prop :=
  (stacks w' ≡ₚ stacks w ∧ th_next w' = th_next w) ∨ (stacks w' ≡ₚ th_next w :: stacks w ∧ th_next w' = S (th_next w)).

Lemma grown_all w w' : grown w w' → stacks w ≡ₚ seq 0 (th_next w) → stacks w' ≡ₚ seq 0 (th_next w').
Proof.
  intros [[Hs Hn]|[Hs Hn]] Hall; rewrite Hs, Hn, Hall; [done|]. rewrite seq_S. cbn. solve_Permutation.
Qed.

(** Putting the stack of a CPU away. *)
Lemma set_stack_ctx_ok c t tf ty w w' : tinv w → set_stack_ctx c t tf ty w = Ok w' →
  ∃ p p' s s', th_pools w !! c = Some p ∧ current p = Some s ∧ th_ctx w !! t = None ∧ current p' = Some s' ∧
    th_pools w' = <[c := p']> (th_pools w) ∧ th_ctx w' = <[t := mk_ctx s tf ty]> (th_ctx w) ∧
    th_on w' = th_on w ∧ th_leaving w' = th_leaving w ∧ th_kernel w' = th_kernel w ∧ grown w w'.
Proof.
  intros Hi. unfold set_stack_ctx. destruct (th_ctx w !! t) eqn:Et; [done|]. destruct (th_pools w !! c) as [p|] eqn:Ep; [|done].
  destruct (ti_on w Hi c p Ep) as (s & Hs & _). unfold pick_current_stack. rewrite Hs.
  destruct (pool_alloc (th_next w) p) as [[s' p1] next'] eqn:Ea. cbn. intros [= <-].
  apply pool_alloc_ok in Ea as [Hcur Ha]. exists p, (mk_pool (free_stacks p1) (Some s')), s, s'. split_and!; try done.
  unfold grown, stacks. cbn. destruct (pools_split (th_pools w) c p Ep) as (rest & Hr1 & Hr2). rewrite Hr1, Hr2.
  rewrite map_to_list_insert by done. unfold pool_stacks. rewrite Hs. cbn.
  destruct Ha as [[-> Hf]|(-> & -> & Hf)]; [left|right]; (split; [|done]).
  - rewrite Hf. solve_Permutation.
  - rewrite Hf. solve_Permutation.
Qed.

(** A CPU goes on on the current stack of its pool. *)
Lemma enter_current_ok c w w' : enter_current c w = Ok w' → stacks w ≡ₚ seq 0 (th_next w) → length (th_on w) = length (th_pools w) →
  (∀ c' p, th_pools w !! c' = Some p → ∃ s, current p = Some s ∧ (c' = c ∨ (c' ∉ th_leaving w → th_on w !! c' = Some s))) →
  tinv w' ∧ th_ctx w' = th_ctx w ∧ th_pools w' = th_pools w ∧ c ∉ th_leaving w'.
Proof.
  intros He Hall Hlen Hcur. unfold enter_current in He. destruct (th_pools w !! c) as [p|] eqn:Ep; [|done].
  destruct (Hcur c p Ep) as (s & Hs & _). unfold current_stack in He. rewrite Hs in He. cbn in He. simplify_eq.
  split_and!; try done; [|set_solver]. split; cbn; [by rewrite length_insert|exact Hall|].
  intros c' p' Hp'. destruct (Hcur c' p' Hp') as (s' & Hs' & Hc').
  exists s'. split; [done|]. intros Hnl. destruct (decide (c' = c)) as [->|Hne].
  - simplify_eq. apply list_lookup_insert_eq. rewrite Hlen. by eapply lookup_lt_Some.
  - rewrite list_lookup_insert_ne by done. destruct Hc' as [?|Hc']; [done|]. apply Hc'. set_solver.
Qed.

(** The switch of a task that was not woken meanwhile. *)
Lemma set_task_tf_ok c t tf ty w w' : tinv w → k_state (th_kernel w) !! t ≠ Some Waked → set_task_tf c t tf ty w = Ok w' →
  tinv w'.
Proof.
  intros Hi Hwk. unfold set_task_tf. destruct (set_stack_ctx c t tf ty w) as [w1| |] eqn:E1; [|done..]. cbn.
  destruct (set_stack_ctx_ok _ _ _ _ _ _ Hi E1) as (p & p' & s & s' & Hp & Hs & Hct & Hs' & Hpools & Hctx & Hon & Hlv & Hk & Hg).
  destruct (run_task_pending c t false (th_kernel w1)) as [k| |]; [|done..]. cbn. rewrite Hk, decide_False by done. intros [= <-].
  split; cbn.
  - rewrite Hon, Hpools, length_insert. by apply Hi.
  - by apply (grown_all w w1), Hi.
  - intros c' q. rewrite Hpools, Hon, Hlv. destruct (decide (c' = c)) as [->|Hne].
    + rewrite list_lookup_insert_eq by (by eapply lookup_lt_Some). intros [= <-]. exists s'. split; [done|]. set_solver.
    + rewrite list_lookup_insert_ne by done. intros Hq. destruct (ti_on w Hi c' q Hq) as (s3 & ? & Hq3). exists s3.
      split; [done|]. intros Hn. apply Hq3. set_solver.
Qed.

(** A suspended thread goes on on the stack it was suspended with. *)
Lemma restore_ok c t w w' : tinv w → restore_from_stack_ctx c t w = Ok w' →
  tinv w' ∧ th_ctx w' = delete t (th_ctx w) ∧
  match th_ctx w !! t with Some x => is_Some (th_pools w !! c) → th_on w' !! c = Some (kstack x) | None => w' = w end.
Proof.
  intros Hi. unfold restore_from_stack_ctx. destruct (th_ctx w !! t) as [x|] eqn:Et; [|intros [= <-]; by rewrite delete_id].
  destruct (th_pools w !! c) as [p|] eqn:Ep; [|done]. destruct (ti_on w Hi c p Ep) as (s & Hs & Hon).
  unfold put_prev_stack. rewrite Hs. cbn. intros He. pose proof He as He0. apply enter_current_ok in He as (Hi' & Hctx' & Hpools' & Hnl); cbn in *.
  - split; [done|]. split; [done|]. intros _. destruct (ti_on w' Hi' c (mk_pool (free_stacks p ++ [s]) (Some (kstack x)))) as (s1 & Hs1 & Hon1).
    { rewrite Hpools'. apply list_lookup_insert_eq. by eapply lookup_lt_Some. }
    injection Hs1 as <-. by apply Hon1.
  - rewrite <- (ti_all w Hi). unfold stacks. cbn. destruct (pools_split (th_pools w) c p Ep) as (rest & Hr1 & Hr2). rewrite Hr1, Hr2.
    rewrite <- (insert_delete_id (th_ctx w) t x Et) at 2. rewrite map_to_list_insert by apply lookup_delete_eq.
    unfold pool_stacks. rewrite Hs. cbn. solve_Permutation.
  - rewrite length_insert. by apply Hi.
  - intros c' q. destruct (decide (c' = c)) as [->|Hne].
    + rewrite list_lookup_insert_eq by (by eapply lookup_lt_Some). intros [= <-]. eauto.
    + rewrite list_lookup_insert_ne by done. intros Hq. destruct (ti_on w Hi c' q Hq) as (s3 & ? & ?). eauto.
Qed.

(** ** Runs *)

(** The task that gives up its CPU was not woken while it was about to. *)
Definition unwoken (l : tlabel) w : Prop :=
  match l with
  | TSwitch c _ | TIrq c _ => ∀ t, running c w = Some t → k_state (th_kernel w) !! t ≠ Some Waked
  | _ => True
  end.
Fixpoint unwoken_run (ls : list tlabel) w : Prop :=
  match ls with
  | [] => True
  | l :: ls => unwoken l w ∧ match tstep l w with Ok w' => unwoken_run ls w' | _ => True end
  end.

Lemma tinv_kernel w k rs ct : tinv w → tinv (mk_thr k (th_pools w) (th_on w) (th_leaving w) (th_ctx w) (th_next w) rs ct).
Proof. intros [Ha Hb Hc]. by split. Qed.

Lemma tstep_inv l w w' : tinv w → unwoken l w → tstep l w = Ok w' → tinv w'.
Proof.
  intros Hi Hu. unfold tstep. destruct (may_step l w); [|by intros [= <-]]. cbn [negb].
  destruct l as [l|c|c tf|c|c|c tf]; cbn.
  - destruct (kstep l (th_kernel w)) as [k| |]; intros [= <-]. by apply tinv_kernel.
  - destruct (running c w) as [t|]; intros Hs; [by eapply restore_ok|by simplify_eq].
  - destruct (running c w) as [t|] eqn:Er; intros Hs; [|by simplify_eq]. exact (set_task_tf_ok _ _ _ _ _ _ Hi (Hu t Er) Hs).
  - intros Hs. eapply enter_current_ok; [exact Hs|apply Hi..|]. intros c' p Hp. destruct (ti_on w Hi c' p Hp) as (s & ? & ?). eauto.
  - destruct (running c w) as [t|]; [|by intros [= <-]]. unfold preempt_timer_tick.
    destruct (task_tick t (k_sched (th_kernel w))) as [[b s]| |]; intros [= <-]. destruct b; by apply (tinv_kernel w).
  - destruct (running c w) as [t|] eqn:Er; [|by intros [= <-]]. unfold current_check_preempt_pending.
    destruct (may_preempt t w); [|by intros [= <-]]. intros Hs. refine (set_task_tf_ok _ _ _ _ _ _ _ _ Hs); [by apply (tinv_kernel w)|exact (Hu t Er)].
Qed.

Lemma trun_inv ls w w' : tinv w → unwoken_run ls w → trun ls w = Ok w' → tinv w'.
Proof.
  revert w. induction ls as [|l ls IH]; cbn; intros w Hi Hu Hr; [by simplify_eq|]. destruct Hu as [Hu1 Hu2].
  destruct (tstep l w) as [w1| |] eqn:E1; [|done..]. cbn in Hr. eapply IH; [|done..]. by eapply tstep_inv.
Qed.

Lemma threads_init_inv n s : tinv (threads_init n s).
Proof.
  split.
  - unfold threads_init. cbn. by rewrite length_fmap.
  - unfold stacks, threads_init. cbn. rewrite map_to_list_empty, app_nil_r. match goal with |- ?a ≡ₚ ?b => cut (a = b); [by intros ->|] end.
    generalize 0%nat as i. induction n as [|n IH]; intros i; cbn; [done|]. by rewrite IH.
  - unfold threads_init. cbn. intros c p. rewrite list_lookup_fmap, fmap_Some. intros (b & Hb & ->). exists b. eauto.
Qed.

(** Who owns a stack: a CPU that runs on it and is not in the middle of a switch, or a
    task that is suspended on it. *)
Definition owns w (o : nat + TaskRef) (s : nat) : Prop :=
  match o with
  | inl c => c ∉ th_leaving w ∧ th_on w !! c = Some s
  | inr t => ∃ x, th_ctx w !! t = Some x ∧ kstack x = s
  end.

Lemma pool_stack_in (ps : list StackPool) c p s : ps !! c = Some p → s ∈ pool_stacks p → s ∈ concat (pool_stacks <$> ps).
Proof.
  intros Hp Hs. apply list_elem_of_In, in_concat. exists (pool_stacks p). split; [|by apply list_elem_of_In].
  apply in_map, list_elem_of_In. by eapply list_elem_of_lookup_2.
Qed.

(** A stack that the pool of a CPU has is at one position of all stacks. *)
Lemma pool_position w c p s : tinv w → th_pools w !! c = Some p → s ∈ pool_stacks p →
  s ∉ (kstack ∘ snd <$> map_to_list (th_ctx w)) ∧ ∀ c' p', th_pools w !! c' = Some p' → s ∈ pool_stacks p' → c' = c.
Proof.
  intros Hi Hp Hs. assert (Hnd : NoDup (stacks w)) by (rewrite (ti_all w Hi); apply NoDup_seq).
  unfold stacks in Hnd. apply NoDup_app in Hnd as (Hnd & Hdis & _). split.
  - apply Hdis. by eapply pool_stack_in.
  - intros c' p' Hp' Hs'. destruct (decide (c' = c)) as [|Hne]; [done|]. exfalso.
    destruct (pools_split (th_pools w) c p Hp) as (rest & Hr1 & Hr2). rewrite Hr1 in Hnd.
    apply NoDup_app in Hnd as (_ & Hd & _). apply (Hd s Hs).
    specialize (Hr2 (mk_pool [] None)). unfold pool_stacks at 2 in Hr2. cbn in Hr2. rewrite <- Hr2.
    eapply pool_stack_in; [|done]. by rewrite list_lookup_insert_ne.
Qed.

Lemma owns_unique w o o' s : tinv w → owns w o s → owns w o' s → o = o'.
Proof.
  intros Hi. assert (Hcpu : ∀ c s, c ∉ th_leaving w ∧ th_on w !! c = Some s → ∃ p, th_pools w !! c = Some p ∧ s ∈ pool_stacks p).
  { intros c x [Hnl Hx]. assert (is_Some (th_pools w !! c)) as [p Hp].
    { apply lookup_lt_is_Some_2. rewrite <- (ti_len w Hi). by eapply lookup_lt_Some. }
    exists p. split; [done|]. destruct (ti_on w Hi c p Hp) as (y & Hy & Hon). rewrite (Hon Hnl) in Hx. injection Hx as <-.
    unfold pool_stacks. rewrite Hy. set_solver. }
  assert (Hctx : ∀ t x, th_ctx w !! t = Some x → kstack x ∈ (kstack ∘ snd <$> map_to_list (th_ctx w))).
  { intros t x Hx. apply (list_elem_of_fmap_2' _ _ (t, x)); [|done]. by apply elem_of_map_to_list. }
  destruct o as [c|t], o' as [c'|t']; cbn.
  - intros Ho1 Ho2. destruct (Hcpu c s Ho1) as (p & Hp & Hs), (Hcpu c' s Ho2) as (p' & Hp' & Hs').
    destruct (pool_position w c p s Hi Hp Hs) as [_ Hu]. by rewrite (Hu c' p').
  - intros Ho1 (x & Hx & <-). destruct (Hcpu c _ Ho1) as (p & Hp & Hs). by destruct (pool_position w c p _ Hi Hp Hs) as [[] _]; eauto.
  - intros (x & Hx & <-) Ho1. destruct (Hcpu c' _ Ho1) as (p & Hp & Hs). by destruct (pool_position w c' p _ Hi Hp Hs) as [[] _]; eauto.
  - intros (x & Hx & <-) (x' & Hx' & Heq). destruct (decide (t = t')) as [|Hne]; [by subst|]. exfalso.
    assert (Hnd : NoDup (stacks w)) by (rewrite (ti_all w Hi); apply NoDup_seq). unfold stacks in Hnd.
    apply NoDup_app in Hnd as (_ & _ & Hnd). rewrite <- (insert_delete_id (th_ctx w) t x Hx) in Hnd.
    rewrite map_to_list_insert in Hnd by apply lookup_delete_eq. apply NoDup_cons in Hnd as [Hnd _]. apply Hnd.
    cbn. rewrite <- Heq. apply (list_elem_of_fmap_2' _ _ (t', x')); [|done]. apply elem_of_map_to_list.
    by rewrite lookup_delete_ne.
Qed.

(** C5: in every run of threads, preemptions and kernel steps from the boot of [n]
    CPUs, in which no task is woken between marking itself blocked and giving up
    its CPU, no stack has two owners — two CPUs, two suspended threads, or a CPU
    and a suspended thread — and no stack is lost: every stack ever made is the
    current or a free one of exactly one pool, or that of one suspended thread.
    A CPU that has given its thread away and has not changed its stack pointer yet
    is not an owner: until then it is still on the stack it has given away, and
    nothing keeps another CPU from running the thread there ([switch_race]). *)
Theorem threads_keep_stacks n s ls w' :
  unwoken_run ls (threads_init n s) → trun ls (threads_init n s) = Ok w' →
  (∀ o o' x, owns w' o x → owns w' o' x → o = o') ∧ stacks w' ≡ₚ seq 0 (th_next w').
Proof.
  intros Hu Hr. assert (Hi : tinv w') by (eapply trun_inv, Hr; [apply threads_init_inv|done]).
  split; [|apply Hi]. intros o o' x. by apply owns_unique.
Qed.
End stacks.

(** Every [thread_yield] forbids preemption once more and leaves interrupts off:
    after one, the task is not preempted. *)
Lemma thread_guard_sticks n h : count h = Some 0 → Z.of_nat n < 2 ^ 64 →
  sie (Nat.iter (S n) (thread_guard true) h) = false ∧
  (Z.of_nat (S n) < 2 ^ 64 → count (Nat.iter (S n) (thread_guard true) h) = Some (Z.of_nat (S n)) ∧
     can_preempt (Nat.iter (S n) (thread_guard true) h) = false).
Proof.
  intros Hc Hn.
  assert (Hcount : ∀ m, Z.of_nat m < 2 ^ 64 → count (Nat.iter m (thread_guard true) h) = Some (Z.of_nat m)).
  { induction m as [|m IH]; intros Hm; [done|]. rewrite Nat.iter_succ. unfold thread_guard at 1.
    cbn [acquire snd local_irq_save_and_disable disable_preempt count]. rewrite IH by lia. cbn [fmap option_fmap option_map]. f_equal.
    rewrite wrap64_small; unfold is_u64, two64; lia. }
  split; [done|]. intros Hn'. split; [by apply Hcount|]. unfold can_preempt. rewrite Hcount by done.
  apply bool_decide_eq_false_2. intros [=].
Qed.

(** ** Examples, on the round-robin scheduler of [TaskRun] *)
Module ThreadDemo.
#[local] Existing Instances demo_sched demo_laws.
#[local] Instance demo_open : OpenScheduler RoundRobin.RRScheduler := rr_open 5.

Definition boot : threads RoundRobin.RRScheduler := threads_init 2 demo_rr.
Definition start : list tlabel := TKernel <$> [KSpawn 1; KSpawn 2; KPick 0; KInit 0].
(** Task 1 yields in the middle of its poll, task 2 runs and yields, and task 1 goes
    on, on the stack it had. *)
Definition two_yields : list tlabel :=
  start ++ [TSwitch 0 100; TEnter 0; TKernel (KPick 0); TKernel (KInit 0); TRestore 0; TSwitch 0 200; TEnter 0; TKernel (KPick 0); TKernel (KInit 0); TRestore 0].

Definition view (r : outcome (threads RoundRobin.RRScheduler)) : outcome (list nat * list (TaskRef * nat) * list StackPool * nat) :=
  w ← r; Ok (th_on w, prod_map id kstack <$> map_to_list (th_ctx w), th_pools w, th_next w).

Lemma two_yields_run : view (trun two_yields boot) =
  Ok ([0; 1]%nat, [(2%nat, 2%nat)], [mk_pool [3%nat] (Some 0%nat); mk_pool [] (Some 1%nat)], 4%nat).
Proof. vm_compute. reflexivity. Qed.

Lemma threads_keep_stacks_witness :
  ∃ w', trun two_yields boot = Ok w' ∧ (∀ o o' x, owns w' o x → owns w' o' x → o = o') ∧ stacks w' ≡ₚ seq 0 (th_next w').
Proof.
  destruct (trun two_yields boot) as [w'| |] eqn:E; [|vm_compute in E; discriminate..]. exists w'. split; [done|].
  apply (threads_keep_stacks (H0 := demo_laws) (H1 := rr_open 5) 2 demo_rr two_yields w'); [|exact E].
  vm_compute. repeat split; intros t [= <-]; discriminate.
Defined.

(** A thread that is woken while it is about to give up its CPU goes on with its
    stack put away, and panics when it next gives up the CPU. *)
Lemma woken_thread_panics :
  let woken := start ++ (TKernel <$> [KBlock 0; KWake 1]) ++ [TSwitch 0 100] in
  view (trun woken boot) = Ok ([0; 1]%nat, [(1%nat, 0%nat)], [mk_pool [] (Some 2%nat); mk_pool [] (Some 1%nat)], 3%nat) ∧
  trun (woken ++ [TSwitch 0 200]) boot = Panic.
Proof. split; vm_compute; reflexivity. Qed.

(** Task 1 is given away by CPU 0, and CPU 1 takes it up and runs it on its stack before
    CPU 0 has left that stack: the state lock is released first. *)
Lemma switch_race :
  let race := start ++ [TSwitch 0 100; TKernel (KPick 1); TKernel (KInit 1); TSwitch 1 200; TEnter 1;
    TKernel (KPick 1); TKernel (KInit 1); TRestore 1] in
  ∃ w, trun race boot = Ok w ∧ running 1 w = Some 1%nat ∧ th_on w = [0; 0]%nat ∧ 0%nat ∈ th_leaving w.
Proof. eexists. split; [vm_compute; reflexivity|]. vm_compute. split_and!; try reflexivity. Qed.

(** A thread that exits through [exit_current] panics. *)
Lemma thread_exit_panics : trun (start ++ [TKernel (KExit 0); TSwitch 0 100]) boot = Panic.
Proof. vm_compute. reflexivity. Qed.
End ThreadDemo.
