(* ===== verification/UserMem.v ===== *)
(** * The system call interface

    What every system call shares: the results it returns ([SyscallResult]),
    the argument words, and the user memory behind the pointers among them.
    User memory is what the calls see of it: the pages
    [Executor::manual_alloc_for_lazy] accepts (their faults are handled in the
    file on address spaces) and their bytes; loads and stores are
    little-endian. *)

From S2P Require Import Prelude.
From S2P Require Import Memory.

Open Scope Z_scope.

(** ** Results of the system calls *)

(** The [LinuxError] codes the system calls return. *)
Inductive LinuxError :=
  | EAFNOSUPPORT | EAGAIN | EBADF | ECHILD | ECONNABORTED | ECONNREFUSED | EEXIST
  | EFAULT | EINPROGRESS | EINTR | EINVAL | EISCONN | EISDIR | EMFILE | ENFILE
  | ENOENT | ENOMEM | ENOPROTOOPT | ENOSYS | ENOTCONN | ENOTDIR | ENOTSOCK
  | EOPNOTSUPP | EPERM | EPIPE | ERANGE | ERESTART | ESRCH | ETIMEDOUT.

#[export] Instance LinuxError_eq_dec : EqDecision LinuxError.
Proof. solve_decision. Defined.

(** A call returns a value or an error, panics, or never returns because it waits
    for a lock it holds itself. *)
Inductive sysret :=
  | SOk (v : Z)
  | SErr (e : LinuxError)
  | SPanic
  | SHang.

Definition returned (r : sysret) : bool :=
  match r with SOk _ | SErr _ => true | SPanic | SHang => false end.

#[export] Instance sysret_eq_dec : EqDecision sysret.
Proof. solve_decision. Defined.

(** [x as i32]. *)
Definition as_i32 (x : Z) : Z :=
  let r := wrap32 x in if decide (r < 2 ^ 31) then r else r - two32.

(** The arguments [[usize; 6]] of a system call. *)
Definition arg (args : list Z) (i : nat) : Z := default 0 (args !! i).

(** ** User memory *)

(** What the system calls see of a process's memory: the pages
    [manual_alloc_for_lazy] accepts, and their bytes. *)
Record usermem := mk_usermem { um_pages : gset Z; um_bytes : gmap Z Z }.

Definition manual_alloc_for_lazy_ok (um : usermem) (addr : Z) : bool :=
  bool_decide (align_down_4k addr ∈ um_pages um).

(** [manual_alloc_range_for_lazy]: every page from the one of [start] to the
    one of [end_], an inclusive end, must be accepted. *)
Fixpoint pages_ok (n : nat) (addr : Z) (um : usermem) : bool :=
  match n with
  | O => true
  | S n => manual_alloc_for_lazy_ok um addr && pages_ok n (addr + PAGE_SIZE_4K) um
  end.

Definition manual_alloc_range_for_lazy_ok (um : usermem) (start end_ : Z) : bool :=
  if decide (end_ < start) then false else
  let start := align_down_4k start in
  let end_ := align_down_4k end_ in
  pages_ok (Z.to_nat ((end_ - start) / PAGE_SIZE_4K + 1)) start um.

(** [manual_alloc_type_for_lazy::<T>], [sz] being [size_of::<T>()]. *)
Definition manual_alloc_type_for_lazy_ok (um : usermem) (addr sz : Z) : bool :=
  manual_alloc_range_for_lazy_ok um addr (wrap64 (addr + sz - 1)).

(** A little-endian load of [n] bytes. *)
Fixpoint load_le (um : usermem) (addr : Z) (n : nat) : Z :=
  match n with
  | O => 0
  | S n => default 0 (um_bytes um !! addr) + 256 * load_le um (addr + 1) n
  end.

(** A little-endian store of the low [n] bytes of [v]. *)
Fixpoint store_le (um : usermem) (addr : Z) (n : nat) (v : Z) : usermem :=
  match n with
  | O => um
  | S n =>
      store_le (mk_usermem (um_pages um) (<[addr := v mod 256]> (um_bytes um)))
        (addr + 1) n (v / 256)
  end.

(** The [n] bytes at an address, and storing a list of bytes there. *)
Fixpoint load_bytes (um : usermem) (addr : Z) (n : nat) : list Z :=
  match n with
  | O => []
  | S n => load_le um addr 1 :: load_bytes um (addr + 1) n
  end.

Fixpoint store_bytes (um : usermem) (addr : Z) (bs : list Z) : usermem :=
  match bs with
  | [] => um
  | b :: bs => store_bytes (store_le um addr 1 b) (addr + 1) bs
  end.

(** ** Times in user memory (ctypes.rs) *)

Definition NSEC_PER_SEC : Z := 1000000000.

(** [TimeSecs], two [usize] fields, and [turn_to_nanos]. *)
Record TimeSecs := mk_timesecs { tv_sec : Z; tv_nsec : Z }.

Definition load_TimeSecs (um : usermem) (addr : Z) : TimeSecs :=
  mk_timesecs (load_le um addr 8) (load_le um (addr + 8) 8).

Definition store_TimeSecs (um : usermem) (addr : Z) (ts : TimeSecs) : usermem :=
  store_le (store_le um addr 8 (tv_sec ts)) (addr + 8) 8 (tv_nsec ts).

Definition turn_to_nanos (ts : TimeSecs) : Z :=
  wrap64 (tv_sec ts * NSEC_PER_SEC + tv_nsec ts).

(** ** Loads and stores *)

Lemma store_le_pages um addr n v : um_pages (store_le um addr n v) = um_pages um.
Proof.
  revert um addr v. induction n as [|n IH]; intros um addr v; [done|].
  simpl. by rewrite IH.
Qed.

Lemma store_le_bytes um addr n v b :
  ¬ (addr ≤ b < addr + Z.of_nat n) →
  um_bytes (store_le um addr n v) !! b = um_bytes um !! b.
Proof.
  revert um addr v. induction n as [|n IH]; intros um addr v Hb; [done|].
  simpl. rewrite IH by lia. simpl. apply lookup_insert_ne. lia.
Qed.

Lemma load_le_ext um um' addr n :
  (∀ b, addr ≤ b < addr + Z.of_nat n → um_bytes um' !! b = um_bytes um !! b) →
  load_le um' addr n = load_le um addr n.
Proof.
  revert addr. induction n as [|n IH]; intros addr Hb; [done|].
  simpl. rewrite Hb by lia. f_equal. f_equal. apply IH. intros b Hb'. apply Hb. lia.
Qed.

(** A store leaves the words it does not overlap as they are. *)
Lemma load_store_ne um a n v a' n' :
  a + Z.of_nat n ≤ a' ∨ a' + Z.of_nat n' ≤ a →
  load_le (store_le um a n v) a' n' = load_le um a' n'.
Proof. intros Hd. apply load_le_ext. intros b Hb. apply store_le_bytes. lia. Qed.

(** A load reads back the word just stored. *)
Lemma load_store_eq um a n v :
  0 ≤ v < 256 ^ Z.of_nat n → load_le (store_le um a n v) a n = v.
Proof.
  revert um a v. induction n as [|n IH]; intros um a v Hv.
  { simpl in *. lia. }
  simpl. rewrite store_le_bytes by lia. simpl. rewrite lookup_insert_eq. simpl.
  rewrite IH.
  - pose proof (Z.div_mod v 256). lia.
  - rewrite Nat2Z.inj_succ, Z.pow_succ_r in Hv by lia.
    split; [apply Z.div_pos; lia|]. apply Z.div_lt_upper_bound; lia.
Qed.

Lemma load_store_u64 um a v : is_u64 v → load_le (store_le um a 8 v) a 8 = v.
Proof. intros Hv. apply load_store_eq. unfold is_u64, two64 in Hv. simpl. lia. Qed.

Lemma load_store_TimeSecs um a ts :
  is_u64 (tv_sec ts) → is_u64 (tv_nsec ts) →
  load_TimeSecs (store_TimeSecs um a ts) a = ts.
Proof.
  destruct ts as [s n]. intros Hs Hn. unfold load_TimeSecs, store_TimeSecs.
  cbn [tv_sec tv_nsec] in *. rewrite load_store_ne by lia. by rewrite !load_store_u64.
Qed.

(** ** Byte strings *)

Lemma load_byte um a : load_le um a 1 = default 0 (um_bytes um !! a).
Proof. simpl. lia. Qed.

Lemma store_bytes_pages um a bs : um_pages (store_bytes um a bs) = um_pages um.
Proof.
  revert um a. induction bs as [|b bs IH]; intros um a; [done|]. simpl. by rewrite IH.
Qed.

Lemma store_bytes_ne um a bs x :
  ¬ (a ≤ x < a + Z.of_nat (length bs)) →
  um_bytes (store_bytes um a bs) !! x = um_bytes um !! x.
Proof.
  revert um a. induction bs as [|b bs IH]; intros um a Hx; [done|].
  simpl in Hx. cbn [store_bytes]. rewrite IH by lia. apply store_le_bytes. lia.
Qed.

Lemma store_bytes_lookup um a bs i b :
  Forall is_byte bs → bs !! i = Some b →
  um_bytes (store_bytes um a bs) !! (a + Z.of_nat i) = Some b.
Proof.
  revert um a i. induction bs as [|b' bs IH]; intros um a i Hb Hi; [done|].
  apply Forall_cons in Hb as [Hb' Hb]. cbn [store_bytes]. destruct i as [|i]; simplify_eq/=.
  - rewrite store_bytes_ne by lia. rewrite Z.add_0_r. cbn [store_le um_bytes].
    rewrite lookup_insert_eq. unfold is_byte in Hb'. by rewrite Z.mod_small.
  - rewrite <- (IH (store_le um a 1 b') (a + 1) i Hb Hi). cbn [store_le]. f_equal. lia.
Qed.

Lemma load_store_bytes_prefix um a bs bs' :
  Forall is_byte bs → bs' `prefix_of` bs →
  load_bytes (store_bytes um a bs) a (length bs') = bs'.
Proof.
  intros Hb Hp. set (um' := store_bytes um a bs).
  assert (Hl : ∀ i b, bs' !! i = Some b → load_le um' (a + Z.of_nat i) 1 = b).
  { intros i b Hi. rewrite load_byte. unfold um'.
    by erewrite store_bytes_lookup by (done || by eapply prefix_lookup_Some). }
  clearbody um'. clear Hp Hb. revert a Hl.
  induction bs' as [|b bs' IH]; intros a Hl; [done|].
  cbn [load_bytes length]. f_equal.
  - rewrite <- (Z.add_0_r a). by apply (Hl 0%nat).
  - apply IH. intros i c Hi. replace (a + 1 + Z.of_nat i) with (a + Z.of_nat (S i)) by lia.
    by apply Hl.
Qed.

Lemma length_load_bytes um a n : length (load_bytes um a n) = n.
Proof. revert a. induction n as [|n IH]; intros a; simpl; [done|]. by rewrite IH. Qed.
