(* ===== verification/Futex.v ===== *)
(** * Futexes

    Models [modules/axfutex] (operation flags, keys, the Jenkins hash and the
    hash table of waiters), [modules/executor/src/futex.rs] (wait, wake,
    wake-bitset, requeue) and the system calls of
    [modules/syscall/src/syscall_task/imp/futex.rs].

    [futex_wait] is an [async fn]: it runs in atomic pieces between its await
    points, and other tasks run in between.  Its body is a state machine
    ([WaitPc], one state per await point) advanced by [futex_wait_poll]; the
    other operations hold the bucket lock from their first access to their
    last and are single functions on the table.  [fstep] interleaves the system
    calls of all tasks, the polls of the waiting ones and the environment (user
    stores, the clock, signals).  The executor requeues a task that yields, so
    a waiter is polled again whether or not it was woken. *)

From S2P Require Import Prelude.
From S2P Require Import Memory.
From S2P Require Import UserMem.

Open Scope Z_scope.

(** ** Flags (flags.rs) *)

Definition FUTEX_PRIVATE_FLAG : Z := 128.
Definition FUTEX_CLOCK_REALTIME : Z := 256.
Definition FUTEX_CMD_MASK : Z := Z.lnot (Z.lor FUTEX_PRIVATE_FLAG FUTEX_CLOCK_REALTIME).
Definition FUTEX_WAIT : Z := 0.
Definition FUTEX_WAKE : Z := 1.
Definition FUTEX_REQUEUE : Z := 3.
Definition FUTEX_CMP_REQUEUE : Z := 4.
Definition FUTEX_WAKE_OP : Z := 5.
Definition FUTEX_WAIT_BITSET : Z := 9.
Definition FUTEX_WAKE_BITSET : Z := 10.
Definition FLAGS_SHARED : Z := 16.
Definition FLAGS_CLOCKRT : Z := 32.
Definition FUTEX_BITSET_MATCH_ANY : Z := U32_MAX.

Definition futex_op_to_flag (op : Z) : Z :=
  let flags := 0 in
  let flags := if decide (Z.land op FUTEX_PRIVATE_FLAG = 0)
               then Z.lor flags FLAGS_SHARED else flags in
  if decide (Z.land op FUTEX_CLOCK_REALTIME ≠ 0)
  then Z.lor flags FLAGS_CLOCKRT else flags.

(** ** The hash (jhash.rs) *)

Definition JHASH_INITVAL : Z := 0xdeadbeef.

Definition add32 (a b : Z) : Z := wrap32 (a + b).
Definition sub32 (a b : Z) : Z := wrap32 (a - b).
(** [u32::rotate_left]. *)
Definition rotate_left (x n : Z) : Z :=
  wrap32 (Z.lor (Z.shiftl x n) (Z.shiftr x (32 - n))).

Definition jhash_mix (a b c : Z) : Z * Z * Z :=
  let a := sub32 a c in
  let a := Z.lxor a (rotate_left c 4) in
  let c := add32 c b in
  let b := sub32 b a in
  let b := Z.lxor b (rotate_left a 6) in
  let a := add32 a c in
  let c := sub32 c b in
  let c := Z.lxor c (rotate_left b 8) in
  let b := add32 b a in
  let a := sub32 a c in
  let a := Z.lxor a (rotate_left c 16) in
  let c := add32 c b in
  let b := sub32 b a in
  let b := Z.lxor b (rotate_left a 19) in
  let a := add32 a c in
  let c := sub32 c b in
  let c := Z.lxor c (rotate_left b 4) in
  let b := add32 b a in
  (a, b, c).

Definition jhash_final (a b c : Z) : Z :=
  let c := Z.lxor c b in
  let c := sub32 c (rotate_left b 14) in
  let a := Z.lxor a c in
  let a := sub32 a (rotate_left c 11) in
  let b := Z.lxor b a in
  let b := sub32 b (rotate_left a 25) in
  let c := Z.lxor c b in
  let c := sub32 c (rotate_left b 16) in
  let a := Z.lxor a c in
  let a := sub32 a (rotate_left c 4) in
  let b := Z.lxor b a in
  let b := sub32 b (rotate_left a 14) in
  let c := Z.lxor c b in
  let c := sub32 c (rotate_left b 24) in
  c.

(** The [while key.len() > 3] loop and the [match] on the last words; the
    exhaustive cases show that its [unreachable!] arm is. *)
Fixpoint jhash_words (key : list Z) (a b c : Z) : Z :=
  match key with
  | k0 :: k1 :: k2 :: ((_ :: _) as key') =>
      let '(a, b, c) := jhash_mix (add32 a k0) (add32 b k1) (add32 c k2) in
      jhash_words key' a b c
  | [k0; k1; k2] => jhash_final (add32 a k0) (add32 b k1) (add32 c k2)
  | [k0; k1] => jhash_final (add32 a k0) (add32 b k1) c
  | [k0] => jhash_final (add32 a k0) b c
  | [] => c
  end.

Definition jhash2 (key : list Z) (initval : Z) : Z :=
  let a := add32 (add32 JHASH_INITVAL (wrap32 (Z.of_nat (length key)))) initval in
  jhash_words key a a a.

(** ** Keys and the table of waiters (futex.rs, queues.rs) *)

Record FutexKey := mk_key { k_pid : Z; k_aligned : Z; k_offset : Z }.

#[export] Instance FutexKey_eq_dec : EqDecision FutexKey.
Proof. solve_decision. Defined.

(** [FutexKey::new]: [pid as u32] and [aligned as u32] truncate. *)
Definition futex_key_new (pid aligned offset : Z) : FutexKey :=
  mk_key (wrap32 pid) (wrap32 aligned) offset.

(** A task is named by its id. *)
Record FutexQ := mk_futexq { q_key : FutexKey; q_task : Z; q_bitset : Z }.

Definition FUTEX_HASH_SIZE : Z := 256.

Definition futex_hash (k : FutexKey) : Z :=
  let hash := jhash2 [k_pid k; k_aligned k; k_offset k] (k_offset k) in
  Z.land hash (FUTEX_HASH_SIZE - 1).

(** [FutexQueues]: the buckets, each with its queue of waiters. *)
Notation FutexQueues := (list (list FutexQ)).

Definition futex_queues_new (size : Z) : FutexQueues := replicate (Z.to_nat size) [].

(** The index expression [FUTEXQUEUES.buckets[futex_hash(&key)]]. *)
Definition bucket_index (k : FutexKey) : nat := Z.to_nat (futex_hash k).

(** ** Operations (executor/src/futex.rs) *)

Definition futex_get_value_locked (um : usermem) (vaddr : Z) : sysret :=
  if manual_alloc_for_lazy_ok um vaddr then SOk (load_le um vaddr 4) else SErr EFAULT.

Definition get_futex_key (pid uaddr flags : Z) : FutexKey :=
  if decide (Z.land flags FLAGS_SHARED ≠ 0)
  then futex_key_new 0 (align_down_4k uaddr) (uaddr mod PAGE_SIZE_4K)
  else futex_key_new pid (align_down_4k uaddr) (uaddr mod PAGE_SIZE_4K).

(** The [retain] of [futex_wake], with its captured counter. *)
Fixpoint retain_wake (key : FutexKey) (nr_waken ret : Z) (b : list FutexQ)
    : list FutexQ * Z :=
  match b with
  | [] => ([], ret)
  | q :: b =>
      if decide (ret < nr_waken ∧ q_key q = key)
      then retain_wake key nr_waken (wrap32 (ret + 1)) b
      else let '(b', r) := retain_wake key nr_waken ret b in (q :: b', r)
  end.

Definition futex_wake (pid : Z) (qs : FutexQueues) (vaddr flags nr_waken : Z)
    : FutexQueues * sysret :=
  let key := get_futex_key pid vaddr flags in
  match qs !! bucket_index key with
  | None => (qs, SPanic)
  | Some [] => (qs, SOk 0)
  | Some b =>
      let '(b', ret) := retain_wake key nr_waken 0 b in
      (<[bucket_index key := b']> qs, SOk ret)
  end.

(** The [retain] of [futex_wake_bitset]. *)
Fixpoint retain_wake_bitset (key : FutexKey) (bitset nr_waken ret : Z) (b : list FutexQ)
    : list FutexQ * Z :=
  match b with
  | [] => ([], ret)
  | q :: b =>
      if decide (ret = nr_waken)
      then let '(b', r) := retain_wake_bitset key bitset nr_waken ret b in (q :: b', r)
      else if decide (Z.land (q_bitset q) bitset ≠ 0 ∧ q_key q = key)
      then retain_wake_bitset key bitset nr_waken (wrap32 (ret + 1)) b
      else let '(b', r) := retain_wake_bitset key bitset nr_waken ret b in (q :: b', r)
  end.

Definition futex_wake_bitset (pid : Z) (qs : FutexQueues) (vaddr flags nr_waken bitset : Z)
    : FutexQueues * sysret :=
  if decide (bitset = 0) then (qs, SErr EINVAL) else
  let key := get_futex_key pid vaddr flags in
  match qs !! bucket_index key with
  | None => (qs, SPanic)
  | Some [] => (qs, SOk 0)
  | Some b =>
      let '(b', ret) := retain_wake_bitset key bitset nr_waken 0 b in
      (<[bucket_index key := b']> qs, SOk ret)
  end.

(** First loop of [futex_requeue]: pops until [nr_waken] waiters of [key] are
    woken; an entry of another key is popped too, and dropped. *)
Fixpoint requeue_wake (key : FutexKey) (nr_waken ret : Z) (b : list FutexQ)
    : list FutexQ * Z :=
  match b with
  | [] => ([], ret)
  | q :: b =>
      if decide (q_key q = key) then
        let ret := wrap32 (ret + 1) in
        if decide (ret = nr_waken) then (b, ret) else requeue_wake key nr_waken ret b
      else requeue_wake key nr_waken ret b
  end.

(** Second loop: moves entries to the other bucket. *)
Fixpoint requeue_move (nr_requeue requeued : Z) (b req : list FutexQ)
    : list FutexQ * list FutexQ :=
  match b with
  | [] => ([], req)
  | q :: b =>
      let req := req ++ [q] in
      let requeued := wrap32 (requeued + 1) in
      if decide (requeued = nr_requeue) then (b, req) else requeue_move nr_requeue requeued b req
  end.

(** Locking the second bucket when it is the first one is the mutex's
    "tried to acquire mutex it already owns" panic (sync/src/mutex.rs). *)
Definition futex_requeue (pid : Z) (qs : FutexQueues)
    (uaddr flags nr_waken uaddr2 nr_requeue : Z) : FutexQueues * sysret :=
  let key := get_futex_key pid uaddr flags in
  let req_key := get_futex_key pid uaddr2 flags in
  if decide (key = req_key) then futex_wake pid qs uaddr flags nr_waken else
  match qs !! bucket_index key with
  | None => (qs, SPanic)
  | Some [] => (qs, SOk 0)
  | Some b =>
      let '(b, ret) := requeue_wake key nr_waken 0 b in
      let qs := <[bucket_index key := b]> qs in
      if decide (b = []) then (qs, SOk ret)
      else if decide (bucket_index req_key = bucket_index key) then (qs, SPanic)
      else match qs !! bucket_index req_key with
           | None => (qs, SPanic)
           | Some req =>
               let '(b, req) := requeue_move nr_requeue 0 b req in
               (<[bucket_index req_key := req]> (<[bucket_index key := b]> qs), SOk ret)
           end
  end.

(** *** [futex_wait] *)

(** Where a [futex_wait] stands: at the head of its loop; past the comparison
    and awaiting the bucket lock to enqueue; enqueued, and past [yield_now]
    (or the timeout), awaiting the bucket lock to look for itself. *)
Inductive WaitPc :=
  | WStart
  | WEnqueue (key : FutexKey)
  | WYielded (key : FutexKey).

(** The arguments and locals of a [futex_wait] in progress. *)
Record WaitFrame := mk_frame {
  f_pid : Z;
  f_vaddr : Z;
  f_flags : Z;
  f_expected : Z;
  f_deadline : option Z;
  f_bitset : Z;
  f_timeout : bool;
  f_pc : WaitPc }.

Definition goto (f : WaitFrame) (pc : WaitPc) : WaitFrame :=
  mk_frame (f_pid f) (f_vaddr f) (f_flags f) (f_expected f) (f_deadline f)
           (f_bitset f) (f_timeout f) pc.

Definition set_timeout (f : WaitFrame) (b : bool) : WaitFrame :=
  mk_frame (f_pid f) (f_vaddr f) (f_flags f) (f_expected f) (f_deadline f)
           (f_bitset f) b (f_pc f).

(** One piece of [futex_wait], run by task [t]: the new table, and the frame
    it suspends with or the result it returns. *)
Definition futex_wait_poll (um : usermem) (now : Z) (have_signals : bool)
    (t : Z) (f : WaitFrame) (qs : FutexQueues) : FutexQueues * (WaitFrame + sysret) :=
  match f_pc f with
  | WStart =>
      let key := get_futex_key (f_pid f) (f_vaddr f) (f_flags f) in
      match futex_get_value_locked um (f_vaddr f) with
      | SOk v => if decide (f_expected f ≠ wrap32 v) then (qs, inr (SErr EAGAIN))
                 else (qs, inl (goto f (WEnqueue key)))
      | r => (qs, inr r)
      end
  | WEnqueue key =>
      match qs !! bucket_index key with
      | None => (qs, inr SPanic)
      | Some b =>
          let qs := <[bucket_index key := b ++ [mk_futexq key t (f_bitset f)]]> qs in
          let is_timeout := match f_deadline f with
                            | Some deadline => bool_decide (deadline < now)
                            | None => f_timeout f
                            end in
          (qs, inl (goto (set_timeout f is_timeout) (WYielded key)))
      end
  | WYielded key =>
      match qs !! bucket_index key with
      | None => (qs, inr SPanic)
      | Some b =>
          match list_find (λ q, q_task q = t) b with
          | Some (idx, _) =>
              let qs := <[bucket_index key := delete idx b]> qs in
              if f_timeout f then (qs, inr (SErr ETIMEDOUT))
              else if have_signals then (qs, inr (SErr EINTR))
              else (qs, inl (goto f WStart))
          | None => (qs, inr (SOk 0))
          end
      end
  end.

(** ** The system calls (syscall_task/imp/futex.rs) *)

(** A futex call either returns or goes on as a [futex_wait]. *)
Inductive futex_action :=
  | Return (qs : FutexQueues) (r : sysret)
  | Wait (f : WaitFrame).

Definition ret_of (p : FutexQueues * sysret) : futex_action := Return p.1 p.2.

Definition syscall_futex (pid : Z) (um : usermem) (now : Z) (qs : FutexQueues)
    (args : list Z) : futex_action :=
  let uaddr := arg args 0 in
  let futex_op := as_i32 (arg args 1) in
  let val := wrap32 (arg args 2) in
  let val2 := arg args 3 in
  let uaddr2 := arg args 4 in
  let val3 := wrap32 (arg args 5) in
  let timeout :=
    if bool_decide (val2 ≠ 0) && manual_alloc_for_lazy_ok um val2
    then turn_to_nanos (load_TimeSecs um val2) else 0 in
  let flags := futex_op_to_flag futex_op in
  let cmd := Z.land futex_op FUTEX_CMD_MASK in
  if decide (Z.land flags FLAGS_CLOCKRT ≠ 0) then Return qs SPanic
  else if decide (cmd = FUTEX_WAIT) then
    let val3 := FUTEX_BITSET_MATCH_ANY in
    let deadline := if decide (timeout ≠ 0) then Some (timeout + now) else None in
    Wait (mk_frame pid uaddr flags val deadline val3 false WStart)
  else if decide (cmd = FUTEX_WAIT_BITSET) then
    let deadline := if decide (timeout ≠ 0) then Some timeout else None in
    Wait (mk_frame pid uaddr flags val deadline val3 false WStart)
  else if decide (cmd = FUTEX_WAKE) then ret_of (futex_wake pid qs uaddr flags val)
  else if decide (cmd = FUTEX_WAKE_BITSET) then
    ret_of (futex_wake_bitset pid qs uaddr flags val val3)
  else if decide (cmd = FUTEX_REQUEUE) then
    ret_of (futex_requeue pid qs uaddr flags val uaddr2 (wrap32 val2))
  else Return qs (SErr ENOSYS).

(** [FutexRobustList], kept per task in the process's [robust_list] map. *)
Record FutexRobustList := mk_robust { rl_head : Z; rl_len : Z }.

(** [size_of::<RobustList>()]: three [usize] fields. *)
Definition RobustList_size : Z := 24.

Definition syscall_set_robust_list (um : usermem) (cur : Z)
    (robust_list : gmap Z FutexRobustList) (args : list Z)
    : gmap Z FutexRobustList * sysret :=
  let head := arg args 0 in
  let len := arg args 1 in
  if decide (len ≠ RobustList_size) then (robust_list, SErr EINVAL)
  else if manual_alloc_for_lazy_ok um head
  then (<[cur := mk_robust head len]> robust_list, SOk 0)
  else (robust_list, SErr EINVAL).

(** The result carries the words stored through [head] and [len]. *)
Definition syscall_get_robust_list (um : usermem) (cur : Z)
    (robust_list : gmap Z FutexRobustList) (args : list Z)
    : option (Z * Z) * sysret :=
  let pid := as_i32 (arg args 0) in
  let head := arg args 1 in
  if decide (pid = 0) then
    if manual_alloc_for_lazy_ok um head then
      match robust_list !! cur with
      | Some list => (Some (rl_head list, rl_len list), SOk 0)
      | None => (None, SErr EPERM)
      end
    else (None, SErr EPERM)
  else (None, SErr EPERM).

(** ** The system: tasks, their futex calls and the environment *)

Record World := mk_world {
  w_queues : FutexQueues;
  w_user : gmap Z usermem;
  w_now : Z;
  w_signals : gset Z;
  w_waits : gmap Z WaitFrame }.

Definition user_of (w : World) (pid : Z) : usermem :=
  default (mk_usermem ∅ ∅) (w_user w !! pid).

(** What happens next: a task of a process enters [sys_futex]; the executor
    polls a task that is inside [futex_wait]; user code changes the memory of a
    process; time passes; the pending signals change. *)
Inductive label :=
  | LSyscall (t pid : Z) (args : list Z)
  | LPoll (t : Z)
  | LUser (pid : Z) (um : usermem)
  | LTick (now : Z)
  | LSignals (ts : gset Z).

(** What is observed: a system call returned, a wait returned. *)
Inductive event :=
  | ECall (t : Z) (r : sysret)
  | EWait (t : Z) (r : sysret).

Definition set_queues (w : World) (qs : FutexQueues) : World :=
  mk_world qs (w_user w) (w_now w) (w_signals w) (w_waits w).
Definition set_waits (w : World) (ws : gmap Z WaitFrame) : World :=
  mk_world (w_queues w) (w_user w) (w_now w) (w_signals w) ws.

Definition fstep (l : label) (w : World) : World * list event :=
  match l with
  | LSyscall t pid args =>
      match w_waits w !! t with
      | Some _ => (w, [])
      | None =>
          match syscall_futex pid (user_of w pid) (w_now w) (w_queues w) args with
          | Return qs r => (set_queues w qs, [ECall t r])
          | Wait f => (set_waits w (<[t := f]> (w_waits w)), [])
          end
      end
  | LPoll t =>
      match w_waits w !! t with
      | None => (w, [])
      | Some f =>
          let sig := bool_decide (t ∈ w_signals w) in
          let '(qs, o) :=
            futex_wait_poll (user_of w (f_pid f)) (w_now w) sig t f (w_queues w) in
          match o with
          | inl f' => (set_waits (set_queues w qs) (<[t := f']> (w_waits w)), [])
          | inr r => (set_waits (set_queues w qs) (delete t (w_waits w)), [EWait t r])
          end
      end
  | LUser pid um => (mk_world (w_queues w) (<[pid := um]> (w_user w)) (w_now w)
                              (w_signals w) (w_waits w), [])
  | LTick now => (mk_world (w_queues w) (w_user w) now (w_signals w) (w_waits w), [])
  | LSignals ts => (mk_world (w_queues w) (w_user w) (w_now w) ts (w_waits w), [])
  end.

Fixpoint frun (ls : list label) (w : World) : World * list event :=
  match ls with
  | [] => (w, [])
  | l :: ls =>
      let '(w1, e1) := fstep l w in
      let '(w2, e2) := frun ls w1 in
      (w2, e1 ++ e2)
  end.

Definition world_init (user : gmap Z usermem) : World :=
  mk_world (futex_queues_new FUTEX_HASH_SIZE) user 0 ∅ ∅.

(** ** The abstract table: one FIFO of waiters per key *)

Definition has_key (key : FutexKey) (q : FutexQ) : Prop := q_key q = key.
Definition matches (bitset : Z) (q : FutexQ) : Prop := Z.land (q_bitset q) bitset ≠ 0.

#[export] Instance has_key_dec key q : Decision (has_key key q).
Proof. unfold has_key. apply _. Defined.
#[export] Instance matches_dec bitset q : Decision (matches bitset q).
Proof. unfold matches. apply _. Defined.

Definition waiters (qs : FutexQueues) (key : FutexKey) : list FutexQ :=
  filter (has_key key) (default [] (qs !! bucket_index key)).

Section drop_first.
Context {A : Type} (P : A → Prop) `{!∀ x, Decision (P x)}.

(** The list without the first [n] elements that satisfy [P]. *)
Fixpoint drop_first (n : nat) (l : list A) : list A :=
  match l, n with
  | [], _ => []
  | x :: l, O => x :: l
  | x :: l, S n' => if decide (P x) then drop_first n' l else x :: drop_first n l
  end.

Lemma drop_first_0 l : drop_first 0 l = l.
Proof. by destruct l. Qed.

Lemma drop_first_sublist n l : drop_first n l `sublist_of` l.
Proof.
  revert n. induction l as [|x l IH]; intros [|n]; simpl; try done.
  case_decide; [by apply sublist_cons|by apply sublist_skip].
Qed.

Lemma drop_first_filter n l : filter P (drop_first n l) = drop n (filter P l).
Proof.
  revert n. induction l as [|x l IH]; intros [|n]; simpl; try done.
  rewrite filter_cons. case_decide as Hx; simpl; [apply IH|].
  rewrite filter_cons, decide_False by done. apply (IH (S n)).
Qed.

Lemma drop_first_other (Q : A → Prop) `{!∀ x, Decision (Q x)} n l :
  (∀ x, P x → ¬ Q x) → filter Q (drop_first n l) = filter Q l.
Proof.
  intros HPQ. revert n. induction l as [|x l IH]; intros [|n]; simpl; try done.
  rewrite (filter_cons _ x l). case_decide as Hx.
  - rewrite decide_False by auto. apply IH.
  - rewrite filter_cons. case_decide; by rewrite (IH (S n)).
Qed.

Lemma drop_first_length n l :
  (length (drop_first n l) + n `min` length (filter P l) = length l)%nat.
Proof.
  revert n. induction l as [|x l IH]; intros [|n]; simpl; try done.
  rewrite filter_cons. case_decide; simpl.
  - specialize (IH n). lia.
  - specialize (IH (S n)). simpl in IH. lia.
Qed.
End drop_first.

Lemma drop_first_ext {A} (P Q : A → Prop) `{!∀ x, Decision (P x), !∀ x, Decision (Q x)} n l :
  (∀ x, x ∈ l → P x ↔ Q x) → drop_first P n l = drop_first Q n l.
Proof.
  revert n. induction l as [|x l IH]; intros [|n] HPQ; simpl; try done.
  assert (P x ↔ Q x) as Hx by (apply HPQ; set_solver).
  assert (∀ y, y ∈ l → P y ↔ Q y) as Hl by (intros; apply HPQ; set_solver).
  destruct (decide (P x)), (decide (Q x)); try tauto; [auto|f_equal; auto].
Qed.

Lemma filter_ext_in {A} (P Q : A → Prop) `{!∀ x, Decision (P x), !∀ x, Decision (Q x)}
    (l : list A) :
  (∀ x, x ∈ l → P x ↔ Q x) → filter P l = filter Q l.
Proof.
  induction l as [|x l IH]; intros HPQ; [done|]. rewrite !filter_cons.
  assert (P x ↔ Q x) as Hx by (apply HPQ; set_solver).
  rewrite IH by (intros; apply HPQ; set_solver).
  destruct (decide (P x)), (decide (Q x)); tauto || done.
Qed.

(** Restricting to a key commutes with removing matching waiters of it. *)
Lemma drop_first_restrict {A} (K M : A → Prop) `{!∀ x, Decision (K x), !∀ x, Decision (M x)} n l :
  filter K (drop_first (λ x, M x ∧ K x) n l) = drop_first M n (filter K l).
Proof.
  revert n. induction l as [|x l IH]; intros [|n]; simpl; try done.
  - by rewrite drop_first_0.
  - rewrite (filter_cons K x l). destruct (decide (M x ∧ K x)) as [[HM HK]|Hn].
    + rewrite IH, (decide_True _ _ HK). simpl. by rewrite decide_True.
    + rewrite filter_cons. case_decide; simpl.
      * rewrite (decide_False (P := M x)) by tauto. f_equal. apply (IH (S n)).
      * apply (IH (S n)).
Qed.

(** ** The hash picks an existing bucket *)

Lemma futex_hash_range k : 0 ≤ futex_hash k < FUTEX_HASH_SIZE.
Proof.
  unfold futex_hash. change (FUTEX_HASH_SIZE - 1) with (Z.ones 8).
  rewrite Z.land_ones by lia. apply Z.mod_pos_bound. done.
Qed.

#[global] Opaque futex_hash.

Definition table_ok (qs : FutexQueues) : Prop := length qs = Z.to_nat FUTEX_HASH_SIZE.

Lemma bucket_Some qs k : table_ok qs → ∃ b, qs !! bucket_index k = Some b.
Proof.
  intros H. apply lookup_lt_is_Some. rewrite H. unfold bucket_index.
  pose proof (futex_hash_range k). lia.
Qed.

Lemma table_ok_insert qs i b : table_ok qs → table_ok (<[i := b]> qs).
Proof. unfold table_ok. by rewrite length_insert. Qed.

(** ** The two [retain]s *)

Lemma wrap32_small x : is_u32 x → wrap32 x = x.
Proof. intros H. apply Z.mod_small. exact H. Qed.

Lemma retain_wake_eq key nr ret b :
  is_u32 nr → 0 ≤ ret ≤ nr →
  retain_wake key nr ret b =
    (drop_first (has_key key) (Z.to_nat (nr - ret)) b,
     ret + Z.of_nat (Z.to_nat (nr - ret) `min` length (filter (has_key key) b))).
Proof.
  intros Hnr. revert ret. induction b as [|q b IH]; intros ret Hr; simpl.
  { f_equal. lia. }
  rewrite filter_cons. destruct (decide (ret = nr)) as [->|Hne].
  - rewrite decide_False by (intros [? _]; lia). rewrite IH by lia.
    rewrite Z.sub_diag. simpl. rewrite drop_first_0. by f_equal.
  - replace (Z.to_nat (nr - ret)) with (S (Z.to_nat (nr - (ret + 1)))) by lia.
    unfold is_u32 in Hnr. destruct (decide (has_key key q)) as [Hk|Hk].
    + rewrite decide_True by (split; [lia|done]).
      rewrite wrap32_small by (unfold is_u32; lia). rewrite IH by lia. f_equal. simpl. lia.
    + rewrite decide_False by (intros [_ ?]; done). rewrite IH by lia. simpl.
      by replace (Z.to_nat (nr - ret)) with (S (Z.to_nat (nr - (ret + 1)))) by lia.
Qed.

Lemma retain_wake_bitset_eq key bitset nr ret b :
  is_u32 nr → 0 ≤ ret ≤ nr →
  retain_wake_bitset key bitset nr ret b =
    (drop_first (λ q, matches bitset q ∧ has_key key q) (Z.to_nat (nr - ret)) b,
     ret + Z.of_nat (Z.to_nat (nr - ret) `min`
                     length (filter (λ q, matches bitset q ∧ has_key key q) b))).
Proof.
  intros Hnr. revert ret. induction b as [|q b IH]; intros ret Hr; simpl.
  { f_equal. lia. }
  rewrite filter_cons. destruct (decide (ret = nr)) as [->|Hne].
  - rewrite IH by lia. rewrite Z.sub_diag. simpl. rewrite drop_first_0. by f_equal.
  - replace (Z.to_nat (nr - ret)) with (S (Z.to_nat (nr - (ret + 1)))) by lia.
    unfold is_u32 in Hnr. destruct (decide (matches bitset q ∧ has_key key q)) as [Hk|Hk].
    + rewrite decide_True by exact Hk.
      rewrite wrap32_small by (unfold is_u32; lia). rewrite IH by lia. f_equal. simpl. lia.
    + rewrite decide_False by exact Hk. rewrite IH by lia. simpl.
      by replace (Z.to_nat (nr - ret)) with (S (Z.to_nat (nr - (ret + 1)))) by lia.
Qed.

(** ** Waking *)

Lemma wake_bucket pid qs vaddr flags nr b :
  is_u32 nr → let key := get_futex_key pid vaddr flags in
  qs !! bucket_index key = Some b →
  futex_wake pid qs vaddr flags nr =
    (<[bucket_index key := drop_first (has_key key) (Z.to_nat nr) b]> qs,
     SOk (Z.of_nat (Z.to_nat nr `min` length (filter (has_key key) b)))).
Proof.
  intros Hnr key Hb. unfold futex_wake. fold key. rewrite Hb.
  destruct b as [|q b].
  - simpl. rewrite list_insert_id by done. by rewrite Nat.min_0_r.
  - rewrite retain_wake_eq by (unfold is_u32 in *; lia). by rewrite Z.sub_0_r, Z.add_0_l.
Qed.

Lemma wake_bitset_bucket pid qs vaddr flags nr bitset b :
  is_u32 nr → bitset ≠ 0 → let key := get_futex_key pid vaddr flags in
  qs !! bucket_index key = Some b →
  futex_wake_bitset pid qs vaddr flags nr bitset =
    (<[bucket_index key :=
        drop_first (λ q, matches bitset q ∧ has_key key q) (Z.to_nat nr) b]> qs,
     SOk (Z.of_nat (Z.to_nat nr `min`
            length (filter (λ q, matches bitset q ∧ has_key key q) b)))).
Proof.
  intros Hnr Hbs key Hb. unfold futex_wake_bitset. rewrite decide_False by done.
  fold key. rewrite Hb. destruct b as [|q b].
  - simpl. rewrite list_insert_id by done. by rewrite Nat.min_0_r.
  - rewrite retain_wake_bitset_eq by (unfold is_u32 in *; lia).
    by rewrite Z.sub_0_r, Z.add_0_l.
Qed.

Lemma waiters_insert_same qs key b b' :
  qs !! bucket_index key = Some b →
  waiters (<[bucket_index key := b']> qs) key = filter (has_key key) b'.
Proof.
  intros Hb. unfold waiters.
  by rewrite list_lookup_insert_eq by (eapply lookup_lt_Some; exact Hb).
Qed.

(** Replacing a bucket by one with the same entries for [k] keeps the FIFO of
    [k], whether or not [k] hashes there. *)
Lemma waiters_insert_other qs i k b b' :
  qs !! i = Some b → filter (has_key k) b' = filter (has_key k) b →
  waiters (<[i := b']> qs) k = waiters qs k.
Proof.
  intros Hb Hf. unfold waiters. destruct (decide (i = bucket_index k)) as [->|Hne].
  - rewrite list_lookup_insert_eq by (eapply lookup_lt_Some; exact Hb). by rewrite Hb.
  - by rewrite list_lookup_insert_ne.
Qed.

(** [futex_wake] on the table of 256 buckets implements one FIFO per futex
    key: it removes the [nr_waken] oldest waiters of the key (all of them if
    there are fewer), returns how many it removed, and leaves the queue of every
    other key as it was, including keys that share the bucket. *)
Theorem futex_wake_fifo pid qs vaddr flags nr :
  table_ok qs → is_u32 nr →
  let key := get_futex_key pid vaddr flags in
  ∃ qs', futex_wake pid qs vaddr flags nr =
           (qs', SOk (Z.min nr (Z.of_nat (length (waiters qs key)))))
    ∧ table_ok qs'
    ∧ waiters qs' key = drop (Z.to_nat nr) (waiters qs key)
    ∧ ∀ k, k ≠ key → waiters qs' k = waiters qs k.
Proof.
  intros Hok Hnr key. destruct (bucket_Some qs key Hok) as [b Hb].
  eexists. split; [|split; [|split]].
  - rewrite (wake_bucket _ _ _ _ _ b) by done. fold key. f_equal. f_equal.
    unfold waiters. rewrite Hb. simpl. unfold is_u32 in Hnr. lia.
  - by apply table_ok_insert.
  - rewrite (waiters_insert_same _ _ b) by done. rewrite drop_first_filter.
    unfold waiters. by rewrite Hb.
  - intros k Hk. apply (waiters_insert_other _ _ _ b); [done|].
    apply drop_first_other. unfold has_key. intros q <- <-. done.
Qed.

(** [futex_wake_bitset] removes the [nr_waken] oldest waiters of the key
    whose bit set meets the given one, and no other waiter of any key; with
    [FUTEX_BITSET_MATCH_ANY] and non-empty bit sets it is [futex_wake]. *)
Theorem futex_wake_bitset_selects pid qs vaddr flags nr bitset :
  table_ok qs → is_u32 nr → bitset ≠ 0 →
  let key := get_futex_key pid vaddr flags in
  (∃ qs', futex_wake_bitset pid qs vaddr flags nr bitset =
           (qs', SOk (Z.min nr (Z.of_nat (length (filter (matches bitset) (waiters qs key))))))
    ∧ table_ok qs'
    ∧ waiters qs' key = drop_first (matches bitset) (Z.to_nat nr) (waiters qs key)
    ∧ ∀ k, k ≠ key → waiters qs' k = waiters qs k)
  ∧ (bitset = FUTEX_BITSET_MATCH_ANY →
     (∀ b q, b ∈ qs → q ∈ b → is_u32 (q_bitset q) ∧ q_bitset q ≠ 0) →
     futex_wake_bitset pid qs vaddr flags nr bitset = futex_wake pid qs vaddr flags nr).
Proof.
  intros Hok Hnr Hbs key. destruct (bucket_Some qs key Hok) as [b Hb]. split.
  - eexists. split; [|split; [|split]].
    + rewrite (wake_bitset_bucket _ _ _ _ _ _ b) by done. fold key. f_equal. f_equal.
      unfold waiters. rewrite Hb. simpl. rewrite list_filter_filter.
      unfold is_u32 in Hnr. lia.
    + by apply table_ok_insert.
    + rewrite (waiters_insert_same _ _ b) by done. rewrite drop_first_restrict.
      unfold waiters. by rewrite Hb.
    + intros k Hk. apply (waiters_insert_other _ _ _ b); [done|].
      apply drop_first_other. unfold has_key. intros q [_ <-] <-. done.
  - intros -> Hall.
    assert (∀ q, q ∈ b → (matches FUTEX_BITSET_MATCH_ANY q ∧ has_key key q) ↔ has_key key q)
      as Hm.
    { intros q Hq. destruct (Hall b q) as [Hu Hz]; [by eapply list_elem_of_lookup_2|done|].
      split; [by intros [_ ?]|]. intros Hk. split; [|done]. unfold matches.
      change FUTEX_BITSET_MATCH_ANY with (Z.ones 32). rewrite Z.land_ones by lia.
      by rewrite Z.mod_small. }
    rewrite (wake_bitset_bucket _ _ _ _ _ _ b), (wake_bucket _ _ _ _ _ b) by done. fold key.
    f_equal.
    + f_equal. by apply drop_first_ext.
    + do 4 f_equal. by apply filter_ext_in.
Qed.

(** ** Every wake reaches exactly one waiter *)

(** A wait that has enqueued itself and not yet looked again. *)
Definition is_parked (f : WaitFrame) : bool :=
  match f_pc f with WYielded _ => true | _ => false end.

Definition parked (ws : gmap Z WaitFrame) : gset Z :=
  dom (filter (λ p, is_parked p.2 = true) ws).

Definition queued (qs : FutexQueues) : list Z := q_task <$> concat qs.

(** Waiters that were dequeued by a wake and have not returned yet. *)
Definition pending (w : World) : gset Z :=
  parked (w_waits w) ∖ list_to_set (queued (w_queues w)).

(** The system calls in which [FUTEX_REQUEUE] does not occur. *)
Definition no_requeue (l : label) : bool :=
  match l with
  | LSyscall _ _ args => bool_decide (Z.land (as_i32 (arg args 1)) FUTEX_CMD_MASK ≠ FUTEX_REQUEUE)
  | _ => true
  end.

(** The wakes the callers were told of, and the waits that returned woken. *)
Definition event_wakes (e : event) : Z := match e with ECall _ (SOk v) => v | _ => 0 end.
Definition event_woken (e : event) : Z := match e with EWait _ (SOk 0) => 1 | _ => 0 end.
Definition total (f : event → Z) (es : list event) : Z := foldr Z.add 0 (f <$> es).

Record fut_inv (w : World) : Prop := {
  inv_table : table_ok (w_queues w);
  inv_place : ∀ i b q, w_queues w !! i = Some b → q ∈ b →
    i = bucket_index (q_key q) ∧
    ∃ f, w_waits w !! q_task q = Some f ∧ f_pc f = WYielded (q_key q);
  inv_nodup : NoDup (queued (w_queues w)) }.

Lemma total_app f es1 es2 : total f (es1 ++ es2) = total f es1 + total f es2.
Proof. unfold total. induction es1 as [|e es1 IH]; csimpl; [done|]. rewrite IH. lia. Qed.

Lemma elem_of_parked t ws :
  t ∈ parked ws ↔ ∃ f, ws !! t = Some f ∧ is_parked f = true.
Proof.
  unfold parked. rewrite elem_of_dom. split.
  - intros [f Hf]. apply map_lookup_filter_Some in Hf. naive_solver.
  - intros (f & Hf & Hp). exists f. by apply map_lookup_filter_Some.
Qed.

Lemma parked_insert t f ws :
  parked (<[t := f]> ws) =
    if is_parked f then {[t]} ∪ parked ws else parked ws ∖ {[t]}.
Proof.
  apply set_eq. intros t'. rewrite elem_of_parked.
  destruct (decide (t' = t)) as [->|Hne];
    [rewrite lookup_insert_eq|rewrite lookup_insert_ne, <- elem_of_parked by done];
    destruct (is_parked f) eqn:E;
    rewrite ?elem_of_union, ?elem_of_difference, elem_of_singleton.
  - split; [by left|by eauto].
  - split; [intros (f0 & [= <-] & ?); congruence|tauto].
  - tauto.
  - tauto.
Qed.

Lemma parked_delete t ws : parked (delete t ws) = parked ws ∖ {[t]}.
Proof.
  apply set_eq. intros t'. rewrite elem_of_parked, elem_of_difference, elem_of_singleton.
  destruct (decide (t' = t)) as [->|Hne].
  - rewrite lookup_delete_eq. split; [by intros (? & ? & ?)|tauto].
  - rewrite lookup_delete_ne, <- elem_of_parked by done. tauto.
Qed.

Lemma queued_elem qs i b q : qs !! i = Some b → q ∈ b → q_task q ∈ queued qs.
Proof.
  intros Hb Hq. unfold queued. apply list_elem_of_fmap. exists q. split; [done|].
  apply list_elem_of_In, in_concat. exists b.
  split; apply list_elem_of_In; [by eapply list_elem_of_lookup_2|done].
Qed.

Lemma queued_inv t qs : t ∈ queued qs → ∃ i b q, qs !! i = Some b ∧ q ∈ b ∧ q_task q = t.
Proof.
  intros Ht. apply list_elem_of_fmap in Ht as (q & -> & Hq).
  apply list_elem_of_In, in_concat in Hq as (b & Hb & Hq).
  apply list_elem_of_In, list_elem_of_lookup in Hb as [i Hi].
  exists i, b, q. by apply list_elem_of_In in Hq.
Qed.

(** A queued task is parked. *)
Lemma queued_parked w t : fut_inv w → t ∈ queued (w_queues w) → t ∈ parked (w_waits w).
Proof.
  intros Hi Ht. apply queued_inv in Ht as (i & b & q & Hb & Hq & <-).
  destruct (inv_place w Hi i b q Hb Hq) as (_ & f & Hf & Hpc).
  apply elem_of_parked. exists f. unfold is_parked. by rewrite Hpc.
Qed.

(** [Memory] has a [size] of its own. *)
Local Notation card := base.size.

(** The invariant in counting form: the pending wakes are the parked tasks that
    are not queued. *)
Definition pcount (w : World) : Z :=
  Z.of_nat (card (parked (w_waits w))) - Z.of_nat (length (queued (w_queues w))).

Lemma pcount_pending w : fut_inv w → pcount w = Z.of_nat (card (pending w)).
Proof.
  intros Hi. unfold pcount, pending.
  assert (list_to_set (queued (w_queues w)) ⊆@{gset Z} parked (w_waits w)) as Hsub.
  { intros t Ht. apply elem_of_list_to_set in Ht. by apply queued_parked. }
  rewrite size_difference by done.
  rewrite size_list_to_set by apply (inv_nodup w Hi).
  apply subseteq_size in Hsub. rewrite size_list_to_set in Hsub by apply (inv_nodup w Hi). lia.
Qed.

(** Removing entries from a bucket. *)
Lemma inv_sublist w i b b' :
  fut_inv w → w_queues w !! i = Some b → b' `sublist_of` b →
  let w' := set_queues w (<[i := b']> (w_queues w)) in
  fut_inv w' ∧ pcount w' = pcount w + Z.of_nat (length b) - Z.of_nat (length b').
Proof.
  intros Hi Hb Hsub w'.
  destruct (concat_insert (w_queues w) i b b' Hb) as (l & r & E1 & E2).
  split; [split|].
  - apply table_ok_insert, Hi.
  - intros j b'' q Hj Hq. simpl in *.
    apply list_lookup_insert_Some in Hj as [(<- & <- & _)|[_ Hj]].
    + apply (inv_place w Hi i b); [done|]. eapply elem_of_sublist; eauto.
    + by apply (inv_place w Hi j b'').
  - simpl. unfold queued. rewrite E2. pose proof (inv_nodup w Hi) as Hn.
    unfold queued in Hn. rewrite E1 in Hn. eapply sublist_NoDup; [exact Hn|].
    apply fmap_sublist. apply sublist_app; [done|]. by apply sublist_app.
  - unfold pcount, queued. simpl. rewrite E1, E2, !length_fmap, !length_app. lia.
Qed.

Lemma inv_drop_first w i b (P : FutexQ → Prop) `{!∀ q, Decision (P q)} n :
  fut_inv w → w_queues w !! i = Some b →
  let w' := set_queues w (<[i := drop_first P n b]> (w_queues w)) in
  fut_inv w' ∧ pcount w' = pcount w + Z.of_nat (n `min` length (filter P b)).
Proof.
  intros Hi Hb w'.
  destruct (inv_sublist w i b _ Hi Hb (drop_first_sublist P n b)) as [H1 H2].
  split; [done|]. unfold w'. rewrite H2. pose proof (drop_first_length P n b). lia.
Qed.

(** Changing the frame of a task that is not queued. *)
Lemma inv_frame w t ws :
  fut_inv w → t ∉ queued (w_queues w) → (∀ t', t' ≠ t → ws !! t' = w_waits w !! t') →
  fut_inv (set_waits w ws).
Proof.
  intros Hi Ht Hws. split; simpl; try apply Hi.
  intros i b q Hb Hq. destruct (inv_place w Hi i b q Hb Hq) as (-> & f & Hf & Hpc).
  split; [done|]. exists f. rewrite Hws; [done|].
  intros <-. apply Ht. by eapply queued_elem.
Qed.

(** A waiter removes its own entry: it is no longer queued. *)
Lemma delete_not_queued w i b idx q :
  fut_inv w → w_queues w !! i = Some b → b !! idx = Some q →
  q_task q ∉ queued (<[i := delete idx b]> (w_queues w)).
Proof.
  intros Hi Hb Hq.
  destruct (concat_insert (w_queues w) i b (delete idx b) Hb) as (l & r & E1 & E2).
  unfold queued. rewrite E2, delete_take_drop.
  pose proof (inv_nodup w Hi) as Hn. unfold queued in Hn. rewrite E1 in Hn.
  rewrite <- (take_drop_middle b idx q Hq) in Hn.
  assert (q_task <$> l ++ (take idx b ++ q :: drop (S idx) b) ++ r ≡ₚ
          q_task q :: (q_task <$> l ++ (take idx b ++ drop (S idx) b) ++ r)) as Hp.
  { rewrite !fmap_app, fmap_cons. solve_Permutation. }
  rewrite Hp in Hn. by apply NoDup_cons in Hn as [? _].
Qed.

(** A parked waiter that does not find itself in its bucket is in none. *)
Lemma not_found_not_queued w t f key b :
  fut_inv w → w_waits w !! t = Some f → f_pc f = WYielded key →
  w_queues w !! bucket_index key = Some b → list_find (λ q, q_task q = t) b = None →
  t ∉ queued (w_queues w).
Proof.
  intros Hi Hf Hpc Hb Hnone Ht.
  apply queued_inv in Ht as (i & b' & q & Hb' & Hq & <-).
  destruct (inv_place w Hi i b' q Hb' Hq) as (-> & f' & Hf' & Hpc').
  simplify_eq. rewrite Hpc in Hpc'. simplify_eq.
  apply list_find_None in Hnone. rewrite Forall_forall in Hnone. by eapply Hnone.
Qed.

(** A waiter enqueues itself. *)
Lemma inv_enqueue w t f f' key b :
  fut_inv w → w_waits w !! t = Some f → is_parked f = false → f_pc f' = WYielded key →
  w_queues w !! bucket_index key = Some b →
  let w' := set_waits (set_queues w
              (<[bucket_index key := b ++ [mk_futexq key t (f_bitset f)]]> (w_queues w)))
              (<[t := f']> (w_waits w)) in
  fut_inv w' ∧ pcount w' = pcount w.
Proof.
  intros Hi Hf Hp Hpc Hb w'.
  assert (t ∉ parked (w_waits w)) as Hnp.
  { rewrite elem_of_parked. intros (? & ? & ?). congruence. }
  assert (t ∉ queued (w_queues w)) as Hnq by (intros ?; by apply Hnp, queued_parked).
  destruct (concat_insert (w_queues w) (bucket_index key) b
              (b ++ [mk_futexq key t (f_bitset f)]) Hb) as (l & r & E1 & E2).
  assert (queued (w_queues w') ≡ₚ t :: queued (w_queues w)) as Hperm.
  { unfold w', queued. simpl. rewrite E1, E2, !fmap_app. simpl. solve_Permutation. }
  split; [split|].
  - apply table_ok_insert, Hi.
  - assert (∀ i b' q, w_queues w !! i = Some b' → q ∈ b' →
      i = bucket_index (q_key q) ∧
      ∃ f0, <[t := f']> (w_waits w) !! q_task q = Some f0 ∧ f_pc f0 = WYielded (q_key q)) as Hold.
    { intros i b' q Hb' Hq. destruct (inv_place w Hi i b' q Hb' Hq) as (-> & f0 & ? & ?).
      split; [done|]. exists f0. rewrite lookup_insert_ne; [done|].
      intros ->. apply Hnq. by eapply queued_elem. }
    intros i b' q Hb' Hq. simpl in *.
    apply list_lookup_insert_Some in Hb' as [(<- & <- & _)|[_ Hb']]; [|by eapply Hold].
    apply elem_of_app in Hq as [Hq| ->%list_elem_of_singleton]; [by eapply Hold|].
    simpl. split; [done|]. exists f'. by rewrite lookup_insert_eq.
  - rewrite Hperm. apply NoDup_cons. split; [done|apply Hi].
  - unfold pcount. rewrite (Permutation_length Hperm). simpl.
    rewrite parked_insert. unfold is_parked at 1. rewrite Hpc.
    rewrite size_union, size_singleton by set_solver. lia.
Qed.

Lemma size_remove (t : Z) (X : gset Z) :
  Z.of_nat (card (X ∖ {[t]})) = Z.of_nat (card X) - (if decide (t ∈ X) then 1 else 0).
Proof.
  case_decide.
  - assert (X = {[t]} ∪ X ∖ {[t]}) as HX by (apply union_difference_L; set_solver).
    assert (card X = S (card (X ∖ {[t]}))) as E; [|lia].
    rewrite HX at 1. rewrite size_union, size_singleton by set_solver. done.
  - replace (X ∖ {[t]}) with X by set_solver. lia.
Qed.

(** The frame of an unqueued task is replaced by one that is not parked, or
    dropped: the count loses the task if it was parked. *)
Lemma inv_leave w t f ws :
  fut_inv w → w_waits w !! t = Some f → t ∉ queued (w_queues w) →
  (ws = delete t (w_waits w) ∨ ∃ f', is_parked f' = false ∧ ws = <[t := f']> (w_waits w)) →
  fut_inv (set_waits w ws) ∧
  pcount (set_waits w ws) = pcount w - (if is_parked f then 1 else 0).
Proof.
  intros Hi Hf Hq Hws.
  assert (parked ws = parked (w_waits w) ∖ {[t]}) as Hp.
  { destruct Hws as [->|(f' & Hf' & ->)]; [apply parked_delete|].
    rewrite parked_insert. by rewrite Hf'. }
  split.
  - apply (inv_frame w t); [done|done|]. intros t' Hne.
    destruct Hws as [->|(f' & _ & ->)]; [by rewrite lookup_delete_ne|by rewrite lookup_insert_ne].
  - unfold pcount. simpl. rewrite Hp, size_remove.
    destruct (is_parked f) eqn:E; case_decide as Hin; try lia; exfalso.
    + apply Hin, elem_of_parked. eauto.
    + apply elem_of_parked in Hin as (? & ? & ?). congruence.
Qed.

Lemma unparked_not_queued w t f :
  fut_inv w → w_waits w !! t = Some f → is_parked f = false → t ∉ queued (w_queues w).
Proof.
  intros Hi Hf Hp Hq. apply queued_parked, elem_of_parked in Hq as (? & ? & ?); [|done].
  congruence.
Qed.

Definition step_ok (w w' : World) (es : list event) : Prop :=
  fut_inv w' ∧ total event_wakes es + pcount w = total event_woken es + pcount w'.

(** A poll in which an unqueued task leaves the wait, or goes on unparked. *)
Lemma leave_ok w qs t f ws es :
  fut_inv (set_queues w qs) → w_waits w !! t = Some f → t ∉ queued qs →
  (ws = delete t (w_waits w) ∨ ∃ f', is_parked f' = false ∧ ws = <[t := f']> (w_waits w)) →
  total event_wakes es + pcount w =
    total event_woken es + pcount (set_queues w qs) - (if is_parked f then 1 else 0) →
  step_ok w (set_waits (set_queues w qs) ws) es.
Proof.
  intros Hi Hf Hq Hws He.
  destruct (inv_leave (set_queues w qs) t f ws Hi Hf Hq Hws) as [H1 H2].
  split; [done|]. rewrite H2. lia.
Qed.

Lemma poll_start_ok w t f w' es :
  fut_inv w → w_waits w !! t = Some f → f_pc f = WStart →
  fstep (LPoll t) w = (w', es) → step_ok w w' es.
Proof.
  intros Hi Hf Hpc. simpl. rewrite Hf. unfold futex_wait_poll. rewrite Hpc.
  assert (is_parked f = false) as Hp by (unfold is_parked; by rewrite Hpc).
  pose proof (unparked_not_queued w t f Hi Hf Hp) as Hq.
  unfold futex_get_value_locked.
  destruct (manual_alloc_for_lazy_ok _ _); [case_decide|]; intros [= <- <-];
    (eapply leave_ok; [by destruct Hi|done|done| |rewrite Hp; unfold total, pcount; simpl; lia]).
  - by left.
  - right. eexists. split; [|reflexivity]. done.
  - by left.
Qed.

Lemma poll_enqueue_ok w t f key w' es :
  fut_inv w → w_waits w !! t = Some f → f_pc f = WEnqueue key →
  fstep (LPoll t) w = (w', es) → step_ok w w' es.
Proof.
  intros Hi Hf Hpc. simpl. rewrite Hf. unfold futex_wait_poll. rewrite Hpc.
  assert (is_parked f = false) as Hp by (unfold is_parked; by rewrite Hpc).
  destruct (bucket_Some _ key (inv_table w Hi)) as [b Hb]. rewrite Hb.
  intros [= <- <-]. split; [by eapply inv_enqueue|].
  unfold total; simpl. symmetry. by eapply inv_enqueue.
Qed.

Lemma poll_yielded_ok w t f key w' es :
  fut_inv w → w_waits w !! t = Some f → f_pc f = WYielded key →
  fstep (LPoll t) w = (w', es) → step_ok w w' es.
Proof.
  intros Hi Hf Hpc. simpl. rewrite Hf. unfold futex_wait_poll. rewrite Hpc.
  assert (is_parked f = true) as Hp by (unfold is_parked; by rewrite Hpc).
  destruct (bucket_Some _ key (inv_table w Hi)) as [b Hb]. rewrite Hb.
  destruct (list_find _ b) as [[idx q]|] eqn:Hfind.
  - apply list_find_Some in Hfind as (Hidx & Ht & _).
    destruct (inv_sublist w _ b _ Hi Hb (sublist_delete b idx)) as [H1 H2].
    pose proof (delete_not_queued w _ b idx q Hi Hb Hidx) as Hnq. rewrite Ht in Hnq.
    assert (length b = S (length (delete idx b))) as Hlen.
    { pose proof (lookup_lt_Some _ _ _ Hidx). rewrite length_delete by done. lia. }
    destruct (f_timeout f); [|destruct (bool_decide _)]; intros [= <- <-];
      (eapply leave_ok; [exact H1|exact Hf|exact Hnq| |rewrite Hp, H2; unfold total; simpl; lia]).
    + by left.
    + by left.
    + right. eexists. split; [|reflexivity]. done.
  - intros [= <- <-].
    pose proof (not_found_not_queued w t f key b Hi Hf Hpc Hb Hfind) as Hnq.
    eapply leave_ok; [by destruct Hi|done|done|by left|].
    rewrite Hp. unfold total, pcount; simpl; lia.
Qed.

(** The system calls other than [FUTEX_REQUEUE]. *)
Lemma syscall_ok w t pid args w' es :
  fut_inv w → no_requeue (LSyscall t pid args) = true →
  fstep (LSyscall t pid args) w = (w', es) → step_ok w w' es.
Proof.
  intros Hi Hreq. simpl in *. apply bool_decide_eq_true in Hreq.
  destruct (w_waits w !! t) as [f|] eqn:Hf; [by intros [= <- <-]|].
  assert (t ∉ queued (w_queues w)) as Hq.
  { intros Hq. apply queued_parked, elem_of_parked in Hq as (? & ? & ?); [|done]. congruence. }
  assert (∀ f', is_parked f' = false → step_ok w (set_waits w (<[t := f']> (w_waits w))) []) as Hwait.
  { intros f' Hf'. split.
    - apply (inv_frame w t); [done|done|]. intros t' ?. by rewrite lookup_insert_ne.
    - unfold pcount, total. simpl. rewrite parked_insert, Hf', size_remove.
      rewrite decide_False; [lia|]. rewrite elem_of_parked. intros (? & ? & ?). congruence. }
  assert (∀ i b (P : FutexQ → Prop) (HP : ∀ q, Decision (P q)) n, w_queues w !! i = Some b →
    step_ok w (set_queues w (<[i := drop_first P n b]> (w_queues w)))
      [ECall t (SOk (Z.of_nat (n `min` length (filter P b))))]) as Hwake.
  { intros i b P HP n Hb. destruct (inv_drop_first w i b P n Hi Hb) as [H1 H2].
    split; [exact H1|]. rewrite H2. unfold total; simpl. lia. }
  assert (∀ r, (∀ v, r ≠ SOk v) → step_ok w (set_queues w (w_queues w)) [ECall t r]) as Hfail.
  { intros r Hr. split; [by destruct Hi|]. unfold total, pcount; simpl.
    destruct r; naive_solver lia. }
  unfold syscall_futex. simpl.
  repeat (case_decide; [try (intros [= <- <-]; (by apply Hfail) || (by apply Hwait))|]).
  - destruct (bucket_Some (w_queues w) (get_futex_key pid (arg args 0)
      (futex_op_to_flag (as_i32 (arg args 1)))) (inv_table w Hi)) as [b Hb].
    unfold ret_of. rewrite (wake_bucket _ _ _ _ _ b) by (done || apply wrap32_range).
    intros [= <- <-]. by apply Hwake.
  - destruct (decide (wrap32 (arg args 5) = 0)) as [Hz|Hz].
    { unfold futex_wake_bitset, ret_of. rewrite decide_True by done.
      intros [= <- <-]. by apply Hfail. }
    destruct (bucket_Some (w_queues w) (get_futex_key pid (arg args 0)
      (futex_op_to_flag (as_i32 (arg args 1)))) (inv_table w Hi)) as [b Hb].
    unfold ret_of. rewrite (wake_bitset_bucket _ _ _ _ _ _ b) by (done || apply wrap32_range).
    intros [= <- <-]. by apply Hwake.
  - by destruct Hreq.
  - intros [= <- <-]. by apply Hfail.
Qed.

Lemma fstep_ok l w w' es :
  fut_inv w → no_requeue l = true → fstep l w = (w', es) → step_ok w w' es.
Proof.
  intros Hi Hreq. destruct l as [t pid args|t|pid um|now|ts].
  - by apply syscall_ok.
  - destruct (w_waits w !! t) as [f|] eqn:Hf.
    + destruct (f_pc f) eqn:Hpc;
        [by eapply poll_start_ok|by eapply poll_enqueue_ok|by eapply poll_yielded_ok].
    + simpl. rewrite Hf. by intros [= <- <-].
  - simpl. intros [= <- <-]. by split; [destruct Hi|].
  - simpl. intros [= <- <-]. by split; [destruct Hi|].
  - simpl. intros [= <- <-]. by split; [destruct Hi|].
Qed.

Lemma frun_ok ls w w' es :
  fut_inv w → Forall (λ l, no_requeue l = true) ls → frun ls w = (w', es) → step_ok w w' es.
Proof.
  revert w w' es. induction ls as [|l ls IH]; simpl; intros w w' es Hi Hall.
  { intros [= <- <-]. by split. }
  apply Forall_cons in Hall as [Hl Hall].
  destruct (fstep l w) as [w1 e1] eqn:E1. destruct (frun ls w1) as [w2 e2] eqn:E2.
  intros [= <- <-]. destruct (fstep_ok l w w1 e1 Hi Hl E1) as [Hi1 H1].
  destruct (IH w1 w2 e2 Hi1 Hall E2) as [Hi2 H2].
  split; [done|]. rewrite !total_app. lia.
Qed.

Lemma concat_replicate_nil {A} n : concat (replicate n []) = @nil A.
Proof. by induction n. Qed.

Lemma fut_inv_init user : fut_inv (world_init user).
Proof.
  split; simpl.
  - unfold table_ok, futex_queues_new. by rewrite length_replicate.
  - intros i b q Hb Hq. unfold futex_queues_new in Hb. apply lookup_replicate in Hb as [-> _].
    by apply elem_of_nil in Hq.
  - unfold queued, futex_queues_new. rewrite concat_replicate_nil. constructor.
Qed.

Lemma pcount_init user : pcount (world_init user) = 0.
Proof. reflexivity. Qed.

(** C19: Wakes are neither lost nor duplicated.  However the system calls, the
    polls of the waiters, user stores, the clock and signals interleave, as long
    as no [FUTEX_REQUEUE] is issued: the wakes reported to the callers of
    [FUTEX_WAKE] and [FUTEX_WAKE_BITSET] are, in number, the waits that returned
    0 plus the waiters already dequeued whose next poll returns 0. *)
Theorem futex_wakes_conserved user ls w es :
  Forall (λ l, no_requeue l = true) ls → frun ls (world_init user) = (w, es) →
  total event_wakes es = total event_woken es + Z.of_nat (card (pending w)) ∧
  ∀ t, t ∈ pending w → (fstep (LPoll t) w).2 = [EWait t (SOk 0)].
Proof.
  intros Hall Hrun.
  destruct (frun_ok ls _ w es (fut_inv_init user) Hall Hrun) as [Hi Hc]. split.
  - rewrite <- pcount_pending by done. rewrite pcount_init in Hc. lia.
  - intros t Ht. apply elem_of_difference in Ht as [(f & Hf & Hp)%elem_of_parked Hq].
    rewrite elem_of_list_to_set in Hq. unfold is_parked in Hp.
    destruct (f_pc f) as [| |key] eqn:Hpc; try done.
    simpl. rewrite Hf. unfold futex_wait_poll. rewrite Hpc.
    destruct (bucket_Some _ key (inv_table w Hi)) as [b Hb]. rewrite Hb.
    destruct (list_find _ b) as [[idx q]|] eqn:Hfind; [|done].
    apply list_find_Some in Hfind as (Hidx & <- & _). exfalso.
    apply Hq. eapply queued_elem; [exact Hb|]. by eapply list_elem_of_lookup_2.
Qed.

(** ** A waiter notices a changed word *)

Definition is_poll (t : Z) (l : label) : Prop := l = LPoll t.

#[export] Instance is_poll_dec t l : Decision (is_poll t l).
Proof.
  unfold is_poll. destruct l as [| t'| | |]; try by right.
  destruct (decide (t' = t)) as [->|Hne]; [by left|right; congruence].
Defined.

(** The polls a wait still takes when the word has changed. *)
Definition polls_left (f : WaitFrame) : nat :=
  match f_pc f with WStart => 1 | WYielded _ => 2 | WEnqueue _ => 3 end.

(** The word the waiter compares is readable and equal to the expected value. *)
Definition word_matches (w : World) (f : WaitFrame) : Prop :=
  ∃ v, futex_get_value_locked (user_of w (f_pid f)) (f_vaddr f) = SOk v ∧ wrap32 v = f_expected f.

Definition same_args (f f' : WaitFrame) : Prop :=
  f_pid f' = f_pid f ∧ f_vaddr f' = f_vaddr f ∧ f_expected f' = f_expected f.

Lemma fst_futex_wake_table pid qs vaddr flags nr :
  table_ok qs → table_ok (futex_wake pid qs vaddr flags nr).1.
Proof.
  intros Hok. unfold futex_wake. destruct (qs !! _) as [b0|]; [|done]. case_match; [done|].
  destruct (retain_wake _ _ _ _). by apply table_ok_insert.
Qed.

Lemma fst_futex_wake_bitset_table pid qs vaddr flags nr bitset :
  table_ok qs → table_ok (futex_wake_bitset pid qs vaddr flags nr bitset).1.
Proof.
  intros Hok. unfold futex_wake_bitset. case_decide; [done|].
  destruct (qs !! _) as [b0|]; [|done]. case_match; [done|].
  destruct (retain_wake_bitset _ _ _ _ _). by apply table_ok_insert.
Qed.

Lemma fst_futex_requeue_table pid qs uaddr flags nr uaddr2 nr2 :
  table_ok qs → table_ok (futex_requeue pid qs uaddr flags nr uaddr2 nr2).1.
Proof.
  intros Hok. unfold futex_requeue. case_decide; [by apply fst_futex_wake_table|].
  destruct (qs !! _) as [b0|]; [|done]. case_match; [done|].
  destruct (requeue_wake _ _ _ _) as [b ret].
  repeat case_decide; try by apply table_ok_insert.
  case_match; [|by apply table_ok_insert].
  destruct (requeue_move _ _ _ _). by do 3 apply table_ok_insert.
Qed.

Lemma syscall_table pid um now qs args qs' r :
  table_ok qs → syscall_futex pid um now qs args = Return qs' r → table_ok qs'.
Proof.
  intros Hok. unfold syscall_futex, ret_of. simpl.
  repeat case_decide; intros [= <- _]; auto using fst_futex_wake_table,
    fst_futex_wake_bitset_table, fst_futex_requeue_table.
Qed.

Lemma poll_table um now sig t f qs :
  table_ok qs → table_ok (futex_wait_poll um now sig t f qs).1.
Proof.
  intros Hok. unfold futex_wait_poll. destruct (f_pc f).
  - case_match; [case_decide|..]; done.
  - case_match; [by apply table_ok_insert|done].
  - case_match; [|done]. destruct (list_find _ _) as [[]|]; [|done].
    destruct (f_timeout f); [|destruct sig]; by apply table_ok_insert.
Qed.

Lemma fstep_table l w : table_ok (w_queues w) → table_ok (w_queues (fstep l w).1).
Proof.
  intros Hok. destruct l as [t pid args|t| | |]; simpl; try done.
  - case_match; [done|]. case_match eqn:E; [|done]. by eapply syscall_table.
  - destruct (w_waits w !! t) as [f|]; [|done]. pose proof (poll_table (user_of w (f_pid f)) (w_now w)
      (bool_decide (t ∈ w_signals w)) t f _ Hok).
    destruct (futex_wait_poll _ _ _ _ _ _) as [qs [f'|r]]; done.
Qed.

(** A step other than a poll of [t] leaves its wait as it is. *)
Lemma fstep_frame l w t f :
  w_waits w !! t = Some f → ¬ is_poll t l → w_waits (fstep l w).1 !! t = Some f.
Proof.
  intros Hf Hl. destruct l as [t' pid args|t'| | |]; simpl; try done.
  - destruct (w_waits w !! t') eqn:E; [done|]. case_match; [done|].
    simpl. rewrite lookup_insert_ne; [done|]. congruence.
  - assert (t' ≠ t) by (unfold is_poll in Hl; congruence).
    destruct (w_waits w !! t') as [f'|]; [|done].
    destruct (futex_wait_poll _ _ _ _ _ _) as [qs [f''|r]]; simpl;
      [by rewrite lookup_insert_ne|by rewrite lookup_delete_ne].
Qed.

(** A poll either ends the wait, and not in a panic, or brings it closer. *)
Lemma poll_progress w t f :
  table_ok (w_queues w) → w_waits w !! t = Some f → ¬ word_matches w f →
  (∃ r, (fstep (LPoll t) w).2 = [EWait t r] ∧ returned r = true) ∨
  (∃ f', w_waits (fstep (LPoll t) w).1 !! t = Some f' ∧ same_args f f' ∧
         polls_left f = S (polls_left f')).
Proof.
  intros Hok Hf Hw. simpl. rewrite Hf. unfold futex_wait_poll, polls_left.
  destruct (f_pc f) as [|key|key] eqn:Hpc.
  - left. unfold word_matches in Hw. destruct (futex_get_value_locked _ _) as [v|e| |] eqn:E.
    + rewrite decide_True; [by eexists|]. intros Heq. apply Hw. by exists v.
    + by eexists.
    + unfold futex_get_value_locked in E. by case_match.
    + unfold futex_get_value_locked in E. by case_match.
  - right. destruct (bucket_Some _ key Hok) as [b ->]. simpl.
    rewrite lookup_insert_eq. by eexists.
  - destruct (bucket_Some _ key Hok) as [b ->].
    destruct (list_find _ _) as [[idx q]|]; [|left; by eexists].
    destruct (f_timeout f); [left; by eexists|].
    destruct (bool_decide _); [left; by eexists|].
    right. simpl. rewrite lookup_insert_eq. by eexists.
Qed.

Lemma frun_cons l ls w :
  frun (l :: ls) w = ((frun ls (fstep l w).1).1, (fstep l w).2 ++ (frun ls (fstep l w).1).2).
Proof. simpl. destruct (fstep l w) as [w1 e1]. simpl. by destruct (frun ls w1). Qed.

(** Polls do not touch user memory. *)
Lemma frun_polls_user t ls w : Forall (is_poll t) ls → w_user (frun ls w).1 = w_user w.
Proof.
  intros Hall. revert w. induction Hall as [|l ls Hl _ IH]; intros w; [done|].
  rewrite frun_cons. simpl. rewrite IH, Hl. simpl. destruct (w_waits w !! t); [|done].
  by destruct (futex_wait_poll _ _ _ _ _ _) as [qs [f'|r]].
Qed.

(** No lost wake-up.  [futex_wait] compares the word before it takes the
    bucket lock, so a store and a wake may fall between the comparison and the
    enqueueing; the waiter still returns.  If the word differs from the expected
    value throughout, the wait returns, without a panic, within three polls of
    its task, whatever the other tasks do (requeues included) in between. *)
Theorem futex_wait_returns_on_change ls w t f :
  table_ok (w_queues w) → w_waits w !! t = Some f →
  (∀ p, p `prefix_of` ls → ¬ word_matches (frun p w).1 f) →
  (3 ≤ length (filter (is_poll t) ls))%nat →
  ∃ p r, p `prefix_of` ls ∧ EWait t r ∈ (frun p w).2 ∧ returned r = true.
Proof.
  intros Hok Hf Hw Hn.
  assert (polls_left f ≤ length (filter (is_poll t) ls))%nat as Hle.
  { unfold polls_left. case_match; lia. }
  clear Hn. revert w f Hok Hf Hw Hle. induction ls as [|l ls IH]; intros w f Hok Hf Hw Hle.
  { simpl in Hle. unfold polls_left in Hle. case_match; lia. }
  assert (∀ f', same_args f f' → ∀ p, p `prefix_of` ls →
            ¬ word_matches (frun p (fstep l w).1).1 f') as Hw'.
  { intros f' (E1 & E2 & E3) p Hp (v & Hv & He). apply (Hw (l :: p)).
    - by apply prefix_cons.
    - rewrite frun_cons. exists v. by rewrite <- E1, <- E2, <- E3. }
  assert (∀ f', w_waits (fstep l w).1 !! t = Some f' → same_args f f' →
            (polls_left f' ≤ length (filter (is_poll t) ls))%nat →
            ∃ p r, p `prefix_of` (l :: ls) ∧ EWait t r ∈ (frun p w).2 ∧ returned r = true) as Hgo.
  { intros f' Hf' Hs Hle'.
    destruct (IH (fstep l w).1 f') as (p & r & Hp & He & Hr); eauto using fstep_table.
    exists (l :: p), r. split; [by apply prefix_cons|]. split; [|done].
    rewrite frun_cons. apply elem_of_app. by right. }
  rewrite filter_cons in Hle. case_decide as Hl.
  - unfold is_poll in Hl. subst l. simpl in Hle.
    destruct (poll_progress w t f Hok Hf (Hw [] (prefix_nil _))) as [(r & He & Hr)|(f' & ? & ? & ?)].
    + exists [LPoll t], r. split; [by apply prefix_cons, prefix_nil|]. split; [|done].
      rewrite frun_cons, He. simpl. set_solver.
    + eapply Hgo; [done|done|lia].
  - eapply Hgo; [by apply fstep_frame|by split_and!|done].
Qed.

(** ** What [FUTEX_REQUEUE] does to the waiters *)

(** A process with one readable page, all zero. *)
Definition demo_user : gmap Z usermem := {[ 1 := mk_usermem {[ 0x1000 ]} ∅ ]}.

(** A task calls [FUTEX_WAIT] (private) on a word and runs until it is parked. *)
Definition demo_wait (t addr : Z) : list label :=
  [LSyscall t 1 [addr; 128; 0; 0; 0; 0]; LPoll t; LPoll t].

(** A task calls [FUTEX_REQUEUE] (private) waking one and moving at most one. *)
Definition demo_requeue (t addr addr2 : Z) : label :=
  LSyscall t 1 [addr; 131; 1; 1; addr2; 0].

(** The words at 0x1000 and 0x11ec of one process hash to the same bucket. *)
Example demo_collision :
  get_futex_key 1 0x1000 0 ≠ get_futex_key 1 0x11ec 0 ∧
  bucket_index (get_futex_key 1 0x1000 0) = bucket_index (get_futex_key 1 0x11ec 0).
Proof. split; vm_compute; [congruence|reflexivity]. Qed.

(** A waiter moved by [FUTEX_REQUEUE] returns at its next poll as if woken: it
    looks for itself in the bucket of its old key only.  A waiter of another word
    that shares the bucket is dropped, and returns 0 too, with no wake on its
    word.  Requeueing onto a word of the same bucket panics. *)
Lemma futex_requeue_breaks_conservation :
  (let es := (frun (demo_wait 1 0x1000 ++ demo_wait 2 0x1000 ++
                    [demo_requeue 3 0x1000 0x1004; LPoll 1; LPoll 2]) (world_init demo_user)).2 in
   es = [ECall 3 (SOk 1); EWait 1 (SOk 0); EWait 2 (SOk 0)] ∧
   total event_wakes es < total event_woken es)
  ∧ (frun (demo_wait 1 0x11ec ++ demo_wait 2 0x1000 ++
           [demo_requeue 3 0x1000 0x1004; LPoll 1]) (world_init demo_user)).2
    = [ECall 3 (SOk 1); EWait 1 (SOk 0)]
  ∧ (frun (demo_wait 1 0x1000 ++ demo_wait 2 0x1000 ++
           [demo_requeue 3 0x1000 0x11ec]) (world_init demo_user)).2 = [ECall 3 SPanic].
Proof. vm_compute. done. Qed.

(** ** Robust lists *)

(** What a task registers with [set_robust_list] is what its
    [get_robust_list(0)] returns; other tasks keep theirs. *)
Lemma robust_list_roundtrip um cur rl args args' rl' :
  syscall_set_robust_list um cur rl args = (rl', SOk 0) →
  as_i32 (arg args' 0) = 0 → manual_alloc_for_lazy_ok um (arg args' 1) = true →
  syscall_get_robust_list um cur rl' args' = (Some (arg args 0, RobustList_size), SOk 0) ∧
  ∀ t, t ≠ cur → rl' !! t = rl !! t.
Proof.
  unfold syscall_set_robust_list, syscall_get_robust_list. intros Hs Hp Hm.
  case_decide as Hlen; [done|]. destruct (manual_alloc_for_lazy_ok um (arg args 0)); [|done].
  injection Hs as <-. rewrite decide_True, Hm, lookup_insert_eq by done.
  simpl. rewrite Hlen. split; [done|]. intros t Ht. by rewrite lookup_insert_ne.
Qed.

(** ** Witnesses *)

(** Three waiters on two words that share a bucket. *)
Definition demo_ls : list label :=
  demo_wait 1 0x1000 ++ demo_wait 2 0x11ec ++ demo_wait 3 0x1000.

Definition demo_world : World := (frun demo_ls (world_init demo_user)).1.

Lemma futex_wake_fifo_witness :
  table_ok (w_queues demo_world) ∧ is_u32 1 ∧
  (q_task <$> waiters (w_queues demo_world) (get_futex_key 1 0x1000 0)) = [1; 3] ∧
  let key := get_futex_key 1 0x1000 0 in
  ∃ qs', futex_wake 1 (w_queues demo_world) 0x1000 0 1 =
           (qs', SOk (Z.min 1 (Z.of_nat (length (waiters (w_queues demo_world) key)))))
    ∧ table_ok qs'
    ∧ waiters qs' key = drop (Z.to_nat 1) (waiters (w_queues demo_world) key)
    ∧ ∀ k, k ≠ key → waiters qs' k = waiters (w_queues demo_world) k.
Proof.
  assert (table_ok (w_queues demo_world)) as Hok by (vm_compute; reflexivity).
  assert (is_u32 1) as H1 by (unfold is_u32, two32; lia).
  split; [exact Hok|]. split; [exact H1|]. split; [vm_compute; reflexivity|].
  exact (futex_wake_fifo 1 (w_queues demo_world) 0x1000 0 1 Hok H1).
Defined.

(** Two waits, one wake: one wait returns woken, the next wake is pending. *)
Definition demo_wakes : list label :=
  demo_ls ++ [LSyscall 9 1 [0x1000; 129; 1; 0; 0; 0]; LPoll 1;
              LSyscall 9 1 [0x1000; 138; 5; 0; 0; 7]].

Lemma futex_wakes_conserved_witness :
  total event_wakes (frun demo_wakes (world_init demo_user)).2 = 2 ∧
  total event_wakes (frun demo_wakes (world_init demo_user)).2 =
    total event_woken (frun demo_wakes (world_init demo_user)).2 +
    Z.of_nat (card (pending (frun demo_wakes (world_init demo_user)).1)).
Proof.
  split; [vm_compute; reflexivity|].
  apply (futex_wakes_conserved demo_user demo_wakes
           (frun demo_wakes (world_init demo_user)).1
           (frun demo_wakes (world_init demo_user)).2).
  - unfold demo_wakes, demo_ls, demo_wait. repeat constructor.
  - apply surjective_pairing.
Defined.

(** The word at 0x1000 becomes 1 after task 1 compared it and before it
    enqueued itself. *)
Definition demo_race : World :=
  (frun [LSyscall 1 1 [0x1000; 128; 0; 0; 0; 0]; LPoll 1;
         LUser 1 (mk_usermem {[ 0x1000 ]} {[ 0x1000 := 1 ]})] (world_init demo_user)).1.

Lemma futex_wait_returns_on_change_witness :
  ∃ f p r, w_waits demo_race !! 1 = Some f ∧ f_expected f = 0 ∧
    p `prefix_of` [LPoll 1; LPoll 1; LPoll 1] ∧ EWait 1 r ∈ (frun p demo_race).2 ∧ returned r = true.
Proof.
  destruct (w_waits demo_race !! 1) as [f|] eqn:Hf; [|vm_compute in Hf; discriminate].
  assert (f = mk_frame 1 0x1000 0 0 None FUTEX_BITSET_MATCH_ANY false
                (WEnqueue (mk_key 1 0x1000 0))) as ->.
  { vm_compute in Hf. injection Hf as <-. vm_compute. reflexivity. }
  destruct (futex_wait_returns_on_change [LPoll 1; LPoll 1; LPoll 1] demo_race 1 _
              (ltac:(vm_compute; reflexivity)) Hf) as (p & r & Hp & He & Hr).
  - intros p [k Hk] (v & Hv & Hm).
    assert (futex_get_value_locked (user_of (frun p demo_race).1 1) 0x1000 = SOk 1) as Hv1.
    { unfold user_of. rewrite (frun_polls_user 1).
      - vm_compute; reflexivity.
      - assert (Forall (is_poll 1) (p ++ k)) as Hall by (rewrite <- Hk; repeat constructor).
        by apply Forall_app in Hall as [? _]. }
    simpl in Hv. rewrite Hv1 in Hv. injection Hv as <-. discriminate Hm.
  - vm_compute. reflexivity.
  - by exists (mk_frame 1 0x1000 0 0 None FUTEX_BITSET_MATCH_ANY false
                 (WEnqueue (mk_key 1 0x1000 0))), p, r.
Defined.
