(* ===== verification/TimeStat.v ===== *)
(** * CPU time statistics and interval timers

    Models [modules/taskctx/src/stat.rs] (the per-task [TimeStat]: user and
    kernel time, the interval timer and its pending signal), the [TaskInner]
    methods that forward to it, the points of [modules/syscall/src/trap.rs]
    that call them, and the time calls of
    [modules/syscall/src/syscall_task/imp/utils.rs].

    All times are [usize] nanoseconds; additions and subtractions wrap.  The
    theorems follow a task through its modes ([TUser], [TKernel], [TOff] while
    another task has the CPU) and compare the counters with the time spent in
    each mode, computed from the trace alone. *)

From S2P Require Import Prelude.
From S2P Require Import Memory.
From S2P Require Import UserMem.

Open Scope Z_scope.

(** ** [TimeStat] *)

(** [NONE = -1], [REAL = 0], [VIRTUAL = 1], [PROF = 2]. *)
Inductive TimerType := NONE | REAL | VIRTUAL | PROF.

#[export] Instance TimerType_eq_dec : EqDecision TimerType.
Proof. solve_decision. Defined.

(** [TimerType::try_from], generated from the discriminants. *)
Definition timer_type_try_from (num : Z) : option TimerType :=
  if decide (num = -1) then Some NONE else
  if decide (num = 0) then Some REAL else
  if decide (num = 1) then Some VIRTUAL else
  if decide (num = 2) then Some PROF else None.

(** [From<usize> for TimerType]. *)
Definition timer_type_from (num : Z) : TimerType :=
  match timer_type_try_from (as_i32 num) with Some v => v | None => NONE end.

Record TimeStat := mk_timestat {
  utime_ns : Z;
  stime_ns : Z;
  user_timestamp : Z;
  kernel_timestamp : Z;
  timer_type : TimerType;
  timer_interval_ns : Z;
  timer_remained_ns : Z;
  pending_timer_signal : bool;
}.

Definition timestat_new : TimeStat := mk_timestat 0 0 0 0 NONE 0 0 false.

Definition output (t : TimeStat) : Z * Z := (utime_ns t, stime_ns t).

Definition reset (now : Z) (t : TimeStat) : TimeStat :=
  mk_timestat 0 0 0 now (timer_type t) (timer_interval_ns t) (timer_remained_ns t)
    (pending_timer_signal t).

(** The field updates of the methods below. *)
Definition add_utime (d : Z) (t : TimeStat) : TimeStat :=
  mk_timestat (wrap64 (utime_ns t + d)) (stime_ns t) (user_timestamp t) (kernel_timestamp t)
    (timer_type t) (timer_interval_ns t) (timer_remained_ns t) (pending_timer_signal t).
Definition add_stime (d : Z) (t : TimeStat) : TimeStat :=
  mk_timestat (utime_ns t) (wrap64 (stime_ns t + d)) (user_timestamp t) (kernel_timestamp t)
    (timer_type t) (timer_interval_ns t) (timer_remained_ns t) (pending_timer_signal t).
Definition set_user_timestamp (now : Z) (t : TimeStat) : TimeStat :=
  mk_timestat (utime_ns t) (stime_ns t) now (kernel_timestamp t)
    (timer_type t) (timer_interval_ns t) (timer_remained_ns t) (pending_timer_signal t).
Definition set_kernel_timestamp (now : Z) (t : TimeStat) : TimeStat :=
  mk_timestat (utime_ns t) (stime_ns t) (user_timestamp t) now
    (timer_type t) (timer_interval_ns t) (timer_remained_ns t) (pending_timer_signal t).
Definition set_remained (r : Z) (p : bool) (t : TimeStat) : TimeStat :=
  mk_timestat (utime_ns t) (stime_ns t) (user_timestamp t) (kernel_timestamp t)
    (timer_type t) (timer_interval_ns t) r p.

Definition update_timer (delta : Z) (t : TimeStat) : TimeStat :=
  if decide (timer_remained_ns t = 0) then t
  else if decide (timer_remained_ns t > delta)
  then set_remained (timer_remained_ns t - delta) (pending_timer_signal t) t
  else set_remained (timer_remained_ns t) true t.

Definition switch_into_kernel_mode (now : Z) (t : TimeStat) : TimeStat :=
  let delta := wrap64 (now - user_timestamp t) in
  let t := set_kernel_timestamp now (add_utime delta t) in
  if decide (timer_type t ≠ NONE) then update_timer delta t else t.

Definition switch_into_user_mode (now : Z) (t : TimeStat) : TimeStat :=
  let delta := wrap64 (now - kernel_timestamp t) in
  let t := set_user_timestamp now (add_stime delta t) in
  if decide (timer_type t = REAL ∨ timer_type t = PROF) then update_timer delta t else t.

Definition swtich_from_old_task (now : Z) (t : TimeStat) : TimeStat :=
  let delta := wrap64 (now - kernel_timestamp t) in
  let t := set_kernel_timestamp now (add_stime delta t) in
  if decide (timer_type t = REAL ∨ timer_type t = PROF) then update_timer delta t else t.

Definition switch_to_new_task (now : Z) (t : TimeStat) : TimeStat :=
  let delta := wrap64 (now - kernel_timestamp t) in
  let t := set_kernel_timestamp now t in
  if decide (timer_type t = REAL) then update_timer delta t else t.

Definition output_timer_as_us (t : TimeStat) : Z * Z :=
  (timer_interval_ns t / 1000, timer_remained_ns t / 1000).

Definition set_timer (interval remained type : Z) (t : TimeStat) : bool * TimeStat :=
  let ty := timer_type_from type in
  (bool_decide (ty ≠ NONE),
   mk_timestat (utime_ns t) (stime_ns t) (user_timestamp t) (kernel_timestamp t)
     ty interval remained false).

Definition check_pending_timer_signal (t : TimeStat) : option Z * TimeStat :=
  if pending_timer_signal t then
    let t := set_remained (timer_interval_ns t) false t in
    (match timer_type t with
     | REAL => Some 14
     | VIRTUAL => Some 26
     | PROF => Some 27
     | NONE => None
     end, t)
  else (None, t).

(** ** The life of a task between mode changes *)

(** The calls the kernel makes, each with the clock it reads: entering the
    kernel from user mode and back, being switched out and in. *)
Inductive tevent := EKernel (now : Z) | EUser (now : Z) | EOut (now : Z) | EIn (now : Z).

Definition tnow (e : tevent) : Z :=
  match e with EKernel n | EUser n | EOut n | EIn n => n end.

Definition tstep (t : TimeStat) (e : tevent) : TimeStat :=
  match e with
  | EKernel now => switch_into_kernel_mode now t
  | EUser now => switch_into_user_mode now t
  | EOut now => swtich_from_old_task now t
  | EIn now => switch_to_new_task now t
  end.

Definition trun (t : TimeStat) (es : list tevent) : TimeStat := foldl tstep t es.

Inductive tmode := TUser | TKernel | TOff.

#[export] Instance tmode_eq_dec : EqDecision tmode.
Proof. solve_decision. Defined.

(** The mode an event leads to, where the event can happen in a mode. *)
Definition tnext (m : tmode) (e : tevent) : option tmode :=
  match m, e with
  | TUser, EKernel _ => Some TKernel
  | TKernel, EUser _ => Some TUser
  | TKernel, EOut _ => Some TOff
  | TOff, EIn _ => Some TKernel
  | _, _ => None
  end.

(** A trace possible from mode [m] at time [now], the clock never going back. *)
Fixpoint tlegal (m : tmode) (now : Z) (es : list tevent) : Prop :=
  match es with
  | [] => True
  | e :: es =>
      match tnext m e with
      | Some m' => now ≤ tnow e < two64 ∧ tlegal m' (tnow e) es
      | None => False
      end
  end.

(** The time a trace spends in the modes [sel] selects. *)
Fixpoint spent (sel : tmode → bool) (m : tmode) (now : Z) (es : list tevent) : Z :=
  match es with
  | [] => 0
  | e :: es =>
      (if sel m then tnow e - now else 0) +
      spent sel (default m (tnext m e)) (tnow e) es
  end.

Definition in_mode (m m' : tmode) : bool := bool_decide (m = m').

(** What an interval timer counts: wall-clock time, user time, or CPU time. *)
Definition timer_counts (ty : TimerType) (m : tmode) : bool :=
  match ty, m with
  | REAL, _ => true
  | VIRTUAL, TUser => true
  | PROF, (TUser | TKernel) => true
  | _, _ => false
  end.

(** The timestamp the next event subtracts. *)
Definition stamp (m : tmode) (t : TimeStat) : Z :=
  match m with TUser => user_timestamp t | _ => kernel_timestamp t end.

(** ** The time calls (syscall_task/imp/utils.rs) *)

Definition NANOS_PER_SEC : Z := 1000000000.
Definition NANOS_PER_MICROS : Z := 1000.
Definition MICROS_PER_SEC : Z := 1000000.

Record TimeVal := mk_timeval { sec : Z; usec : Z }.

Definition timeval_turn_to_nanos (v : TimeVal) : Z :=
  wrap64 (sec v * NANOS_PER_SEC + usec v * NANOS_PER_MICROS).

Definition from_micro (micro : Z) : TimeVal :=
  mk_timeval (micro / MICROS_PER_SEC) (micro mod MICROS_PER_SEC).

Record ITimerVal := mk_itimerval { it_interval : TimeVal; it_value : TimeVal }.

Definition load_TimeVal (um : usermem) (a : Z) : TimeVal :=
  mk_timeval (load_le um a 8) (load_le um (a + 8) 8).
Definition store_TimeVal (um : usermem) (a : Z) (v : TimeVal) : usermem :=
  store_le (store_le um a 8 (sec v)) (a + 8) 8 (usec v).
Definition load_ITimerVal (um : usermem) (a : Z) : ITimerVal :=
  mk_itimerval (load_TimeVal um a) (load_TimeVal um (a + 16)).
Definition store_ITimerVal (um : usermem) (a : Z) (v : ITimerVal) : usermem :=
  store_TimeVal (store_TimeVal um a (it_interval v)) (a + 16) (it_value v).

(** [size_of] of the structures above. *)
Definition TimeVal_size : Z := 16.
Definition ITimerVal_size : Z := 32.
Definition TimeSecs_size : Z := 16.
Definition SysInfo_size : Z := 112.

(** (user seconds, user microseconds, kernel seconds, kernel microseconds). *)
Definition time_stat_output (t : TimeStat) : Z * Z * Z * Z :=
  let '(u, s) := output t in
  (u / NANOS_PER_SEC, u / NANOS_PER_MICROS, s / NANOS_PER_SEC, s / NANOS_PER_MICROS).

(** [Tms] is four words; [ticks] is [nanos_to_ticks(current_time_nanos())]. *)
Definition syscall_time (ticks : Z) (t : TimeStat) (um : usermem) (args : list Z)
    : usermem * sysret :=
  let tms := arg args 0 in
  let '(_, utime_us, _, stime_us) := time_stat_output t in
  let um := store_le um tms 8 utime_us in
  let um := store_le um (tms + 8) 8 stime_us in
  let um := store_le um (tms + 16) 8 utime_us in
  let um := store_le um (tms + 24) 8 stime_us in
  (um, SOk (to_i64 ticks)).

Definition syscall_get_time_of_day (now : Z) (um : usermem) (args : list Z)
    : usermem * sysret :=
  let current_us := now / 1000 in
  (store_TimeVal um (arg args 0)
     (mk_timeval (current_us / 1000000) (current_us mod 1000000)), SOk 0).

(** [TimeSecs::now]. *)
Definition timesecs_now (now : Z) : TimeSecs :=
  let tv_sec := now / NSEC_PER_SEC in
  mk_timesecs tv_sec (now - tv_sec * NSEC_PER_SEC).

Definition UTIME_NOW : Z := 0x3fffffff.
Definition UTIME_OMIT : Z := 0x3ffffffe.

Definition set_as_utime (now : Z) (other self : TimeSecs) : TimeSecs :=
  if decide (tv_nsec other = UTIME_NOW) then timesecs_now now
  else if decide (tv_nsec other = UTIME_OMIT) then self
  else other.

Definition syscall_clock_get_time (now : Z) (um : usermem) (args : list Z)
    : usermem * sysret :=
  (store_TimeSecs um (arg args 1) (timesecs_now now), SOk 0).

Definition syscall_settimer (t : TimeStat) (um : usermem) (args : list Z)
    : TimeStat * usermem * sysret :=
  let which := arg args 0 in
  let new_value := arg args 1 in
  let old_value := arg args 2 in
  if decide (new_value = 0) then (t, um, SErr EFAULT)
  else if negb (manual_alloc_type_for_lazy_ok um new_value ITimerVal_size)
  then (t, um, SErr EFAULT)
  else if bool_decide (old_value ≠ 0) &&
          negb (manual_alloc_type_for_lazy_ok um old_value ITimerVal_size)
  then (t, um, SErr EFAULT)
  else
    let um :=
      if decide (old_value ≠ 0) then
        let '(interval_us, remained_us) := output_timer_as_us t in
        store_ITimerVal um old_value
          (mk_itimerval (from_micro interval_us) (from_micro remained_us))
      else um in
    (** [new_value] is a reference: it is read after the old value is stored *)
    let v := load_ITimerVal um new_value in
    let interval := timeval_turn_to_nanos (it_interval v) in
    let remained := timeval_turn_to_nanos (it_value v) in
    let '(ok, t) := set_timer interval remained which t in
    (t, um, if ok then SOk 0 else SErr EFAULT).

Definition syscall_gettimer (t : TimeStat) (um : usermem) (args : list Z)
    : usermem * sysret :=
  let value := arg args 1 in
  if negb (manual_alloc_type_for_lazy_ok um value ITimerVal_size) then (um, SErr EFAULT)
  else
    let '(interval_us, remained_us) := output_timer_as_us t in
    (store_ITimerVal um value
       (mk_itimerval (from_micro interval_us) (from_micro remained_us)), SOk 0).

(** [RusageFlags::from]. *)
Definition rusage_flags_ok (who : Z) : bool :=
  bool_decide (who = 0 ∨ who = -1 ∨ who = 1).

Definition syscall_getrusage (t : TimeStat) (um : usermem) (args : list Z)
    : usermem * sysret :=
  let who := as_i32 (arg args 0) in
  let utime := arg args 1 in
  let stime := wrap64 (utime + TimeVal_size) in
  if negb (manual_alloc_type_for_lazy_ok um utime TimeVal_size) ||
     negb (manual_alloc_type_for_lazy_ok um stime TimeVal_size) then (um, SErr EFAULT)
  else if rusage_flags_ok who then
    let '(_, utime_us, _, stime_us) := time_stat_output t in
    (store_TimeVal (store_TimeVal um utime (from_micro utime_us)) stime
       (from_micro stime_us), SOk 0)
  else (um, SErr EINVAL).

Inductive ClockId := CLOCK_REALTIME | CLOCK_MONOTONIC.

#[export] Instance ClockId_eq_dec : EqDecision ClockId.
Proof. solve_decision. Defined.

Definition clock_id_try_from (id : Z) : option ClockId :=
  if decide (id = 0) then Some CLOCK_REALTIME
  else if decide (id = 1) then Some CLOCK_MONOTONIC else None.

Definition syscall_clock_getres (um : usermem) (args : list Z) : usermem * sysret :=
  match clock_id_try_from (arg args 0) with
  | None => (um, SErr EINVAL)
  | Some id =>
      if decide (id ≠ CLOCK_MONOTONIC) then (um, SErr EINVAL)
      else if negb (manual_alloc_type_for_lazy_ok um (arg args 1) TimeSecs_size)
      then (um, SErr EFAULT)
      else (store_TimeSecs um (arg args 1) (mk_timesecs 0 1), SOk 0)
  end.

(** [Duration::new]: whole seconds of the nanoseconds carry into the seconds,
    whose overflow panics.  A duration is its number of nanoseconds. *)
Definition duration_new (secs nanos : Z) : option Z :=
  if decide (secs + nanos / NANOS_PER_SEC < two64)
  then Some (secs * NANOS_PER_SEC + nanos) else None.

(** [Duration + Duration] panics when the seconds overflow. *)
Definition duration_add (a b : Z) : option Z :=
  if decide ((a + b) / NANOS_PER_SEC < two64) then Some (a + b) else None.

(** [now] is the clock when the call starts, [woken] the clock when
    [sleep_until(deadline)] returns; the result carries the deadline slept
    for, if the call slept. *)
Definition TIMER_ABSTIME : Z := 1.

Definition syscall_clock_nanosleep (now woken : Z) (um : usermem) (args : list Z)
    : usermem * option Z * sysret :=
  let flags := arg args 1 in
  let request := arg args 2 in
  let remain := arg args 3 in
  match clock_id_try_from (arg args 0) with
  | None => (um, None, SErr EINVAL)
  | Some _ =>
      if negb (manual_alloc_type_for_lazy_ok um request TimeSecs_size)
      then (um, None, SErr EFAULT)
      else
        let req := load_TimeSecs um request in
        match duration_new (tv_sec req) (wrap32 (tv_nsec req)) with
        | None => (um, None, SPanic)
        | Some request_time =>
            let sleep deadline :=
              if bool_decide (woken < deadline) && bool_decide (remain ≠ 0) then
                if negb (manual_alloc_type_for_lazy_ok um remain TimeSecs_size)
                then (um, Some deadline, SErr EFAULT)
                else
                  let delta := wrap64 (deadline - woken) in
                  (store_TimeSecs um remain
                     (mk_timesecs (delta / 1000000000) (delta mod 1000000000)),
                   Some deadline, SErr EINTR)
              else (um, Some deadline, SOk 0) in
            if decide (flags ≠ TIMER_ABSTIME) then
              match duration_add now request_time with
              | None => (um, None, SPanic)
              | Some deadline => sleep deadline
              end
            else if decide (request_time < now) then (um, None, SOk 0)
            else sleep request_time
        end
  end.

(** The call stores the uptime in the first word of [SysInfo]. *)
Definition syscall_sysinfo (now : Z) (um : usermem) (args : list Z) : usermem * sysret :=
  let info := arg args 0 in
  if negb (manual_alloc_type_for_lazy_ok um info SysInfo_size) then (um, SErr EFAULT)
  else (store_le um info 8 (now / NANOS_PER_SEC), SOk 0).

(** ** Accounting *)

(** The effect of one charge on the timer's remaining time and pending flag. *)
Definition charge (d : Z) (rp : Z * bool) : Z * bool :=
  let '(r, p) := rp in
  if decide (r = 0) then (r, p) else if decide (r > d) then (r - d, p) else (r, true).

Definition timer_state (t : TimeStat) : Z * bool :=
  (timer_remained_ns t, pending_timer_signal t).

Lemma update_timer_spec d t :
  output (update_timer d t) = output t ∧
  user_timestamp (update_timer d t) = user_timestamp t ∧
  kernel_timestamp (update_timer d t) = kernel_timestamp t ∧
  timer_type (update_timer d t) = timer_type t ∧
  timer_state (update_timer d t) = charge d (timer_state t).
Proof. unfold update_timer, charge, timer_state. by repeat case_decide. Qed.

Section step.
Context (m m' : tmode) (e : tevent) (now : Z) (t : TimeStat).
Hypothesis Hnext : tnext m e = Some m'.
Hypothesis Hnow : 0 ≤ now.
Hypothesis Hclock : now ≤ tnow e < two64.
Hypothesis Hstamp : stamp m t = now.

Lemma tstep_stamp : stamp m' (tstep t e) = tnow e.
Proof.
  destruct m, e; simplify_eq/=; unfold switch_into_kernel_mode, switch_into_user_mode,
    swtich_from_old_task, switch_to_new_task; case_decide; try done.
  all: by rewrite ?(proj1 (proj2 (proj2 (update_timer_spec _ _)))),
    ?(proj1 (proj2 (update_timer_spec _ _))).
Qed.

Lemma tstep_delta : wrap64 (tnow e - stamp m t) = tnow e - now.
Proof. rewrite Hstamp. apply wrap64_small. unfold is_u64. lia. Qed.

Lemma tstep_output :
  is_u64 (utime_ns t) → is_u64 (stime_ns t) →
  output (tstep t e) =
    (wrap64 (utime_ns t + if in_mode TUser m then tnow e - now else 0),
     wrap64 (stime_ns t + if in_mode TKernel m then tnow e - now else 0)).
Proof.
  intros Hu Hs. pose proof tstep_delta as Hd.
  destruct m, e; simplify_eq/=; unfold switch_into_kernel_mode, switch_into_user_mode,
    swtich_from_old_task, switch_to_new_task; case_decide;
    rewrite ?(proj1 (update_timer_spec _ _)); unfold output; simpl; rewrite ?Hd, ?Z.add_0_r;
    by rewrite ?(wrap64_small (utime_ns t)), ?(wrap64_small (stime_ns t)).
Qed.

Lemma tstep_timer :
  timer_type (tstep t e) = timer_type t ∧
  timer_state (tstep t e) =
    if timer_counts (timer_type t) m then charge (tnow e - now) (timer_state t)
    else timer_state t.
Proof.
  pose proof tstep_delta as Hd.
  destruct m, e; simplify_eq/=; unfold switch_into_kernel_mode, switch_into_user_mode,
    swtich_from_old_task, switch_to_new_task;
    case_decide as Hty; simpl in Hty;
    rewrite ?(proj1 (proj2 (proj2 (proj2 (update_timer_spec _ _))))),
      ?(proj2 (proj2 (proj2 (proj2 (update_timer_spec _ _))))); (split; [done|]); simpl;
    rewrite ?Hd; destruct (timer_type t); by naive_solver.
Qed.
End step.

Lemma spent_nonneg sel m now es : tlegal m now es → 0 ≤ spent sel m now es.
Proof.
  revert m now. induction es as [|e es IH]; intros m now Hl; [done|].
  simpl in *. destruct (tnext m e); [|done]. destruct Hl as [? Hl].
  specialize (IH _ _ Hl). simpl. destruct (sel m); lia.
Qed.

(** The clock at the end of a trace. *)
Definition tlast (now : Z) (es : list tevent) : Z := foldl (λ _ e, tnow e) now es.

Lemma spent_partition m now es :
  tlegal m now es →
  spent (in_mode TUser) m now es + spent (in_mode TKernel) m now es +
    spent (in_mode TOff) m now es = tlast now es - now.
Proof.
  revert m now. induction es as [|e es IH]; intros m now Hl; [simpl; lia|].
  simpl in *. destruct (tnext m e) as [m'|]; [|done]. destruct Hl as [? Hl].
  specialize (IH _ _ Hl). destruct m; simpl; lia.
Qed.

Lemma tlast_range m now es :
  tlegal m now es → now < two64 → now ≤ tlast now es < two64.
Proof.
  revert m now. induction es as [|e es IH]; intros m now Hl Hn; [simpl; lia|].
  simpl in *. destruct (tnext m e) as [m'|]; [|done]. destruct Hl as [? Hl].
  specialize (IH _ _ Hl). lia.
Qed.

Lemma wrap64_add_wrap a b : wrap64 (wrap64 a + b) = wrap64 (a + b).
Proof. unfold wrap64. apply Zplus_mod_idemp_l. Qed.

Lemma trun_output m now t es :
  tlegal m now es → 0 ≤ now → stamp m t = now →
  is_u64 (utime_ns t) → is_u64 (stime_ns t) →
  output (trun t es) =
    (wrap64 (utime_ns t + spent (in_mode TUser) m now es),
     wrap64 (stime_ns t + spent (in_mode TKernel) m now es)).
Proof.
  revert m now t. induction es as [|e es IH]; intros m now t Hl Hn Hst Hu Hs.
  { simpl. rewrite !Z.add_0_r, !wrap64_small by done. done. }
  simpl in *. destruct (tnext m e) as [m'|] eqn:He; [|done]. destruct Hl as [Hc Hl].
  pose proof (tstep_output m m' e now t He Hn Hc Hst Hu Hs) as Ho.
  injection Ho as Hou Hos.
  rewrite (IH m' (tnow e) (tstep t e) Hl) by
    (first [lia | by eapply tstep_stamp | rewrite ?Hou, ?Hos; apply wrap64_range]).
  rewrite Hou, Hos, !wrap64_add_wrap. simpl. by rewrite !Z.add_assoc.
Qed.

(** The statistics account for every nanosecond.  After a reset in kernel
    mode at [t0], along any possible sequence of mode changes and task
    switches, the user and kernel counters are exactly the times spent in user
    and in kernel mode, and with the time spent switched out they add up to
    the time elapsed. *)
Theorem cpu_time_accounted t t0 es :
  tlegal TKernel t0 es → is_u64 t0 →
  output (trun (reset t0 t) es) =
    (spent (in_mode TUser) TKernel t0 es, spent (in_mode TKernel) TKernel t0 es) ∧
  spent (in_mode TUser) TKernel t0 es + spent (in_mode TKernel) TKernel t0 es +
    spent (in_mode TOff) TKernel t0 es = tlast t0 es - t0.
Proof.
  intros Hl [H0 H1]. pose proof (spent_partition _ _ _ Hl) as Hp.
  pose proof (tlast_range _ _ _ Hl H1).
  pose proof (spent_nonneg (in_mode TUser) _ _ _ Hl).
  pose proof (spent_nonneg (in_mode TKernel) _ _ _ Hl).
  pose proof (spent_nonneg (in_mode TOff) _ _ _ Hl).
  split; [|done]. rewrite (trun_output TKernel t0) by (done || (unfold is_u64; simpl; lia)).
  simpl. rewrite !wrap64_small by (unfold is_u64; lia). done.
Qed.

Lemma trun_type m now t es :
  tlegal m now es → 0 ≤ now → stamp m t = now → timer_type (trun t es) = timer_type t.
Proof.
  revert m now t. induction es as [|e es IH]; intros m now t Hl Hn Hst; [done|].
  simpl in *. destruct (tnext m e) as [m'|] eqn:He; [|done]. destruct Hl as [Hc Hl].
  rewrite (IH m' (tnow e) _ Hl) by (lia || by eapply tstep_stamp).
  by apply (tstep_timer m m' e now t).
Qed.

Lemma charge_0 t : 0 ≤ timer_remained_ns t → charge 0 (timer_state t) = timer_state t.
Proof.
  intros Hr. unfold charge, timer_state. repeat case_decide; [done| |lia].
  by rewrite Z.sub_0_r.
Qed.

Lemma charge_cases d r p r' p' :
  0 < r → (r', p') = charge d (r, p) →
  ((d < r ∧ r' = r - d ∧ p' = p) ∨ (r ≤ d ∧ r' = r ∧ p' = true)) ∧ 0 < r'.
Proof. unfold charge. intros Hr. repeat case_decide; intros [= -> ->]; (split; [|lia]); [lia| |]; [left|right]; repeat split; lia. Qed.

(** The timer along a trace: pending once the counted time reaches its value. *)
Lemma trun_timer m now t es :
  tlegal m now es → 0 ≤ now → stamp m t = now → 0 < timer_remained_ns t →
  let s := spent (timer_counts (timer_type t)) m now es in
  pending_timer_signal (trun t es) = pending_timer_signal t || bool_decide (timer_remained_ns t ≤ s) ∧
  (s < timer_remained_ns t → timer_remained_ns (trun t es) = timer_remained_ns t - s) ∧
  0 < timer_remained_ns (trun t es).
Proof.
  revert m now t. induction es as [|e es IH]; intros m now t Hl Hn Hst Hr; simpl.
  { rewrite bool_decide_eq_false_2 by lia. by rewrite orb_false_r, Z.sub_0_r. }
  simpl in Hl. destruct (tnext m e) as [m'|] eqn:He; [|done]. destruct Hl as [Hc Hl].
  destruct (tstep_timer m m' e now t He Hn Hc Hst) as [Hty Hts].
  pose proof (spent_nonneg (timer_counts (timer_type t)) _ _ _ Hl) as Hsp.
  assert (stamp m' (tstep t e) = tnow e) as Hst' by (by apply (tstep_stamp m m' e now t)).
  simpl default. set (d := if timer_counts (timer_type t) m then tnow e - now else 0) in *.
  assert (timer_state (tstep t e) = charge d (timer_state t)) as Hch.
  { rewrite Hts. unfold d. destruct (timer_counts _ m); [done|].
    rewrite charge_0; [done|lia]. }
  destruct (charge_cases _ _ _ _ _ Hr Hch) as (Hcase & Hr').
  assert (0 ≤ d) by (unfold d; destruct (timer_counts _ m); lia).
  destruct (IH m' (tnow e) (tstep t e) Hl ltac:(lia) Hst' Hr') as (IHp & IHr & IH0).
  rewrite Hty in *. split; [|split; [|done]].
  - rewrite IHp. destruct Hcase as [(? & -> & ->)|(? & -> & ->)].
    + f_equal. apply bool_decide_ext. lia.
    + rewrite (bool_decide_eq_true_2 (_ ≤ _ + _)) by lia. by rewrite orb_true_r.
  - intros Hs. rewrite IHr; lia.
Qed.

(** An interval timer fires exactly when its time is up.  A timer set to
    [remained] nanoseconds (counted from the last mode change) has its signal
    pending after a trace iff the time the trace spent in the modes its type
    counts (all time for [REAL], user time for [VIRTUAL], user and kernel time
    for [PROF]) has reached [remained]; before that the remaining time is the
    difference.  The check then delivers the signal of the type once and
    rearms the timer with its interval. *)
Theorem timer_fires_on_time m now t interval remained which es :
  tlegal m now es → 0 ≤ now → stamp m t = now → 0 < remained →
  let ty := timer_type_from which in
  let t1 := (set_timer interval remained which t).2 in
  let s := spent (timer_counts ty) m now es in
  let t2 := trun t1 es in
  pending_timer_signal t2 = bool_decide (remained ≤ s) ∧
  (s < remained → timer_remained_ns t2 = remained - s) ∧
  (remained ≤ s → ty ≠ NONE →
   ∃ sig t3, check_pending_timer_signal t2 = (Some sig, t3) ∧ sig ∈ [14; 26; 27] ∧
     timer_remained_ns t3 = timer_interval_ns t2 ∧ (check_pending_timer_signal t3).1 = None).
Proof.
  intros Hl Hn Hst Hr ty t1 s t2.
  destruct (trun_timer m now t1 es Hl Hn Hst Hr) as (Hp & Hrem & _).
  fold t2 in Hp, Hrem. split; [done|]. split; [done|].
  intros Hs Hty. assert (timer_type t2 = ty) as Hty2.
  { by apply (trun_type m now t1 es). }
  change (pending_timer_signal t2 = bool_decide (remained ≤ s)) in Hp.
  rewrite bool_decide_eq_true_2 in Hp by done.
  unfold check_pending_timer_signal. rewrite Hp. simpl. rewrite Hty2.
  destruct ty; [done| | |]; eexists _, _; (split; [done|]); (split; [set_solver|]); done.
Qed.

(** ** The timer calls *)

Lemma load_store_TimeVal um a v :
  is_u64 (sec v) → is_u64 (usec v) → load_TimeVal (store_TimeVal um a v) a = v.
Proof.
  destruct v as [s u]. intros Hs Hu. unfold load_TimeVal, store_TimeVal.
  cbn [sec usec] in *. rewrite load_store_ne by lia. by rewrite !load_store_u64.
Qed.

Lemma load_store_TimeVal_ne um a v a' :
  a + 16 ≤ a' ∨ a' + 16 ≤ a → load_TimeVal (store_TimeVal um a v) a' = load_TimeVal um a'.
Proof.
  intros Hd. unfold load_TimeVal, store_TimeVal. by rewrite !load_store_ne by lia.
Qed.

Definition timeval_ok (v : TimeVal) : Prop := is_u64 (sec v) ∧ is_u64 (usec v).

Lemma load_store_ITimerVal um a v :
  timeval_ok (it_interval v) → timeval_ok (it_value v) →
  load_ITimerVal (store_ITimerVal um a v) a = v.
Proof.
  destruct v as [i r]. intros [] []. unfold load_ITimerVal, store_ITimerVal.
  cbn [it_interval it_value] in *. rewrite load_store_TimeVal_ne by lia.
  by rewrite !load_store_TimeVal.
Qed.

Lemma load_store_ITimerVal_ne um a v a' :
  a + 32 ≤ a' ∨ a' + 32 ≤ a →
  load_ITimerVal (store_ITimerVal um a v) a' = load_ITimerVal um a'.
Proof.
  intros Hd. unfold load_ITimerVal, store_ITimerVal.
  by rewrite !load_store_TimeVal_ne by lia.
Qed.

(** A normalized time that fits in 64 bits of nanoseconds. *)
Definition timeval_normal (v : TimeVal) : Prop :=
  0 ≤ sec v ∧ 0 ≤ usec v < MICROS_PER_SEC ∧
  sec v * NANOS_PER_SEC + usec v * NANOS_PER_MICROS < two64.

Lemma from_micro_nanos v :
  timeval_normal v → from_micro (timeval_turn_to_nanos v / 1000) = v.
Proof.
  destruct v as [s u]. unfold timeval_normal, timeval_turn_to_nanos, from_micro,
    NANOS_PER_SEC, NANOS_PER_MICROS, MICROS_PER_SEC. cbn [sec usec]. intros (? & ? & ?).
  rewrite wrap64_small by (unfold is_u64; lia).
  replace ((s * 1000000000 + u * 1000) / 1000) with (s * 1000000 + u) by mlia.
  f_equal; mlia.
Qed.

Lemma timeval_normal_ok v : timeval_normal v → timeval_ok v.
Proof.
  unfold timeval_normal, timeval_ok, is_u64, two64, NANOS_PER_SEC, NANOS_PER_MICROS,
    MICROS_PER_SEC. lia.
Qed.

(** Setting a timer and reading it back.  [setitimer] with normalized
    times that fit, a valid timer and accepted pointers succeeds, whether or
    not it also returns the old value; a [getitimer] that follows stores
    exactly the structure that was set, and the old value stored by a later
    [setitimer] is that structure too. *)
Theorem settimer_gettimer_roundtrip t um args args' v :
  load_ITimerVal um (arg args 1) = v →
  timeval_normal (it_interval v) → timeval_normal (it_value v) →
  timer_type_from (arg args 0) ≠ NONE →
  arg args 1 ≠ 0 → manual_alloc_type_for_lazy_ok um (arg args 1) ITimerVal_size = true →
  (arg args 2 = 0 ∨
   manual_alloc_type_for_lazy_ok um (arg args 2) ITimerVal_size = true ∧
   (arg args 2 + 32 ≤ arg args 1 ∨ arg args 1 + 32 ≤ arg args 2)) →
  let '(t', um', r) := syscall_settimer t um args in
  r = SOk 0 ∧
  (manual_alloc_type_for_lazy_ok um' (arg args' 1) ITimerVal_size = true →
   let '(um'', r') := syscall_gettimer t' um' args' in
   r' = SOk 0 ∧ load_ITimerVal um'' (arg args' 1) = v).
Proof.
  intros Hv Hi Hr Hty Hnn Hok Hold. unfold syscall_settimer, syscall_gettimer.
  rewrite decide_False by done. rewrite Hok. cbn [negb].
  replace (bool_decide (arg args 2 ≠ 0) && negb (manual_alloc_type_for_lazy_ok um (arg args 2) ITimerVal_size))
    with false.
  2: { destruct Hold as [->|[-> _]]; [done|]. by rewrite andb_false_r. }
  cbn iota. set (um1 := if decide (arg args 2 ≠ 0) then _ else um).
  assert (load_ITimerVal um1 (arg args 1) = v) as Hv1.
  { unfold um1. case_decide as Ho; [|done]. destruct Hold as [?|[_ Hd]]; [done|].
    unfold output_timer_as_us. by rewrite load_store_ITimerVal_ne by lia. }
  clearbody um1. cbv zeta. rewrite Hv1. unfold set_timer. cbv zeta beta iota.
  rewrite bool_decide_eq_true_2 by done. split; [done|].
  intros ->. unfold output_timer_as_us. cbn [negb timer_interval_ns timer_remained_ns].
  rewrite !from_micro_nanos by done. split; [done|].
  rewrite load_store_ITimerVal by (by apply timeval_normal_ok). by destruct v.
Qed.

(** ** Examples *)

(** A task reset at 100: kernel until 130, user until 150, kernel until 155,
    off until 200, kernel until 210, then user until 260. *)
Definition demo_trace : list tevent :=
  [EUser 130; EKernel 150; EOut 155; EIn 200; EUser 210; EKernel 260].

Lemma cpu_time_accounted_witness :
  output (trun (reset 100 timestat_new) demo_trace) = (70, 45).
Proof.
  apply (cpu_time_accounted timestat_new 100 demo_trace).
  - vm_compute. intuition discriminate.
  - vm_compute. intuition discriminate.
Defined.

(** A [VIRTUAL] timer of 60 ns with interval 25 over the same trace. *)
Lemma timer_fires_on_time_witness :
  pending_timer_signal (trun (set_timer 25 60 1 (reset 100 timestat_new)).2 demo_trace) = true ∧
  pending_timer_signal (trun (set_timer 25 60 1 (reset 100 timestat_new)).2
    (take 5 demo_trace)) = false.
Proof.
  split.
  - apply (timer_fires_on_time TKernel 100 (reset 100 timestat_new) 25 60 1 demo_trace);
      vm_compute; intuition discriminate.
  - apply (timer_fires_on_time TKernel 100 (reset 100 timestat_new) 25 60 1 (take 5 demo_trace));
      vm_compute; intuition discriminate.
Defined.

(** The page at 4096, holding at its start a timer of 1.5 s every 2 s. *)
Definition demo_timer_mem : usermem :=
  store_ITimerVal (mk_usermem {[ 4096 ]} ∅) 4096
    (mk_itimerval (mk_timeval 2 0) (mk_timeval 1 500000)).

Lemma settimer_gettimer_roundtrip_witness :
  let '(t', um', r) := syscall_settimer timestat_new demo_timer_mem [0; 4096; 4200; 0; 0; 0] in
  r = SOk 0 ∧
  let '(um'', r') := syscall_gettimer t' um' [0; 4300; 0; 0; 0; 0] in
  r' = SOk 0 ∧
  load_ITimerVal um'' 4300 = mk_itimerval (mk_timeval 2 0) (mk_timeval 1 500000).
Proof.
  pose proof (settimer_gettimer_roundtrip timestat_new demo_timer_mem
    [0; 4096; 4200; 0; 0; 0] [0; 4300; 0; 0; 0; 0]
    (mk_itimerval (mk_timeval 2 0) (mk_timeval 1 500000))) as H.
  destruct (syscall_settimer _ _ _) as [[t' um'] r] eqn:E.
  destruct H as [Hr H]; [vm_compute; reflexivity
    | vm_compute; intuition discriminate | vm_compute; intuition discriminate
    | discriminate | discriminate | vm_compute; reflexivity
    | right; split; [vm_compute; reflexivity|vm_compute; intuition discriminate] |].
  split; [exact Hr|]. apply H.
  apply (f_equal (λ x, x.1.2)) in E. cbn [fst snd] in E. rewrite <- E.
  vm_compute. reflexivity.
Defined.

(** A new task's kernel timestamp is 0, not the time it was created: its first
    return to user mode charges it the time since boot. *)
Lemma new_task_charged_since_boot now :
  is_u64 now → output (switch_into_user_mode now timestat_new) = (0, now).
Proof. intros Hn. unfold output. simpl. by rewrite Z.sub_0_r, !wrap64_small by (rewrite ?wrap64_small; done). Qed.

(** [setitimer] with an invalid timer fails, but has cancelled the timer in
    force. *)
Lemma settimer_invalid_cancels t um args :
  timer_type_from (arg args 0) = NONE → arg args 1 ≠ 0 → arg args 2 = 0 →
  manual_alloc_type_for_lazy_ok um (arg args 1) ITimerVal_size = true →
  let '(t', _, r) := syscall_settimer t um args in
  r = SErr EFAULT ∧ timer_type t' = NONE.
Proof.
  intros Hty Hn Ho Hok. unfold syscall_settimer, set_timer.
  by rewrite Hty, decide_False, Hok, Ho by done.
Qed.
