(* ===== verification/Link.v ===== *)
(** * File paths and hard links

    Models [modules/executor/src/link.rs]: [FilePath] (canonical path names and
    their directory and file parts), the C strings system calls receive, the
    two global tables that emulate hard links on file systems without them
    ([LINK_PATH_MAP] from a name to the file behind it, [LINK_COUNT_MAP] from a
    file to its number of names), and [deal_with_path], which turns the
    (directory descriptor, pointer) pair of a system call into a [FilePath].

    The file system itself is the one of the file on the root directory.  Each
    table operation runs under the lock of [LINK_PATH_MAP]; [create_link] lets go
    of it once, between dropping an old link and inserting the new one, and its
    two pieces are separate definitions. *)

From S2P Require Import Prelude Memory UserMem BTree Path Vfs RootFs.

Open Scope Z_scope.

(** ** C strings *)

(** [get_str_len]: bytes up to the first zero.  Unmapped bytes read as zero, so
    the scan ends; [str_len] gives the bound that is always enough. *)
Fixpoint str_len_fuel (fuel : nat) (um : usermem) (start : Z) : option Z :=
  match fuel with
  | O => None
  | S fuel =>
      if decide (load_le um start 1 = 0) then Some 0
      else n ← str_len_fuel fuel um (start + 1); Some (1 + n)
  end.

Definition get_str_len (um : usermem) (start : Z) : option Z :=
  str_len_fuel (S (base.size (um_bytes um))) um start.

(** [core::str::from_utf8]. *)
Definition cont_byte (b : Z) : bool := bool_decide (128 ≤ b < 192).

Fixpoint from_utf8 (s : list Z) : option str :=
  match s with
  | [] => Some []
  | b0 :: s =>
      if decide (b0 < 128) then l ← from_utf8 s; Some (b0 :: l)
      else if decide (b0 < 192) then None
      else if decide (b0 < 224) then
        match s with
        | b1 :: s =>
            let c := (b0 - 192) * 64 + (b1 - 128) in
            if cont_byte b1 && bool_decide (128 ≤ c)
            then l ← from_utf8 s; Some (c :: l) else None
        | _ => None
        end
      else if decide (b0 < 240) then
        match s with
        | b1 :: b2 :: s =>
            let c := (b0 - 224) * 4096 + (b1 - 128) * 64 + (b2 - 128) in
            if cont_byte b1 && cont_byte b2 && bool_decide (2048 ≤ c) &&
               negb (bool_decide (55296 ≤ c < 57344))
            then l ← from_utf8 s; Some (c :: l) else None
        | _ => None
        end
      else if decide (b0 < 248) then
        match s with
        | b1 :: b2 :: b3 :: s =>
            let c := (b0 - 240) * 262144 + (b1 - 128) * 4096 + (b2 - 128) * 64 + (b3 - 128) in
            if cont_byte b1 && cont_byte b2 && cont_byte b3 && bool_decide (65536 ≤ c < 1114112)
            then l ← from_utf8 s; Some (c :: l) else None
        | _ => None
        end
      else None
  end.

(** Bytes that are not UTF-8 read as the empty string. *)
Definition raw_ptr_to_ref_str (um : usermem) (start : Z) : option str :=
  len ← get_str_len um start;
  Some (default [] (from_utf8 (load_bytes um start (Z.to_nat len)))).

(** ** [FilePath] *)

Definition AT_FDCWD : Z := wrap64 (-100).

(** [char::is_whitespace], the Unicode property White_Space. *)
Definition is_whitespace (c : Z) : bool :=
  bool_decide (9 ≤ c ≤ 13 ∨ c = 32 ∨ c = 133 ∨ c = 160 ∨ c = 5760 ∨ 8192 ≤ c ≤ 8202 ∨
               c = 8232 ∨ c = 8233 ∨ c = 8239 ∨ c = 8287 ∨ c = 12288).

Fixpoint trim_start (s : str) : str :=
  match s with
  | c :: rest => if is_whitespace c then trim_start rest else s
  | [] => []
  end.
Definition trim (s : str) : str := reverse (trim_start (reverse (trim_start s))).

Definition is_root (p : str) : bool := bool_decide (p = [SLASH]).
Definition is_dir (p : str) : bool := ends_with_slash p.
Definition is_file (p : str) : bool := negb (ends_with_slash p).
Definition equal_to (p q : str) : bool := bool_decide (p = q).
Definition start_with (p q : str) : bool := starts_with q p.
Definition end_with (p q : str) : bool := ends_with q p.

(** [rfind('/')]: the index of the last slash. *)
Fixpoint rfind_slash (s : str) : option nat :=
  match s with
  | [] => None
  | c :: s =>
      match rfind_slash s with
      | Some i => Some (S i)
      | None => if decide (c = SLASH) then Some O else None
      end
  end.

(** The position at which [dir] and [file] split the path: the last slash, or
    the one before when the path ends with a slash. *)
Definition split_pos (p : str) : option nat :=
  pos ← rfind_slash p;
  if decide (pos = length p - 1)%nat then rfind_slash (take pos p) else Some pos.

Definition dir (p : str) : outcome str :=
  if is_root p then Ok [SLASH] else
  match split_pos p with
  | Some pos => Ok (take (S pos) p)
  | None => Err NotADirectory
  end.

Definition file (p : str) : outcome str :=
  if is_root p then Ok [SLASH] else
  match split_pos p with
  | Some pos => Ok (drop (S pos) p)
  | None => Err NotFound
  end.

(** ** The link tables *)

Record links := mk_links { path_map : gmap (list Z) (list Z); count_map : gmap (list Z) Z }.

Definition GCC_DIR_SRC : str :=
  lit "/riscv64-linux-musl-native/lib/gcc/riscv64-linux-musl/11.2.1/include".
Definition GCC_DIR_DST : str := lit "/riscv64-linux-musl-native/include".
Definition MUSL_DIR_SRC : str := lit "/riscv64-linux-musl-native/riscv64-linux-musl/include".
Definition MUSL_DIR_DST : str := lit "/riscv64-linux-musl-native/include".

Definition real_path (L : links) (src_path : str) : str :=
  match path_map L !! src_path with
  | Some dest_path => dest_path
  | None =>
      match strip GCC_DIR_SRC src_path with
      | Some rest => GCC_DIR_DST ++ rest
      | None =>
          match strip MUSL_DIR_SRC src_path with
          | Some rest => MUSL_DIR_DST ++ rest
          | None => src_path
          end
      end
  end.

(** [FilePath::new]. *)
Definition filepath_new (g : gfs) (L : links) (path : str) : outcome str :=
  match absolute_path g path with
  | Panic => Panic
  | Err _ => Err NotFound
  | Ok new_path =>
      let new_path := trim new_path in
      let new_path :=
        if ends_with_slash path && negb (ends_with_slash new_path)
        then new_path ++ [SLASH] else new_path in
      Ok (real_path L new_path)
  end.

(** The future of [remove_file] is dropped without being polled: when the count
    reaches zero nothing happens to the file. *)
Definition remove_link (L : links) (src_path : str) : outcome (option str * links) :=
  match path_map L !! src_path with
  | None => Ok (None, L)
  | Some dest_path =>
      let pm := delete src_path (path_map L) in
      let count := default 0 (count_map L !! dest_path) in
      if decide (0 < count) then
        Ok (Some dest_path, mk_links pm (<[dest_path := count - 1]> (count_map L)))
      else Panic
  end.

Definition get_link_count (L : links) (src_path : str) : outcome Z :=
  match path_map L !! src_path with
  | Some dest_path =>
      match count_map L !! dest_path with Some count => Ok count | None => Panic end
  | None => Ok 0
  end.

(** The last piece of [create_link]: insert the link and count it. *)
Definition insert_link (L : links) (src dest : str) : links :=
  mk_links (<[src := dest]> (path_map L))
    (<[dest := wrap64 (default 0 (count_map L !! dest) + 1)]> (count_map L)).

(** ** Open files, as [deal_with_path] sees them *)

Inductive FileIOType :=
  | FileDesc | DirDesc | Stdin | Stdout | Stderr | Pipe | Link | Socket | Other.

#[export] Instance FileIOType_eq_dec : EqDecision FileIOType.
Proof. solve_decision. Defined.

(** What the call asks an open file: its type and path. *)
Record fd_view := mk_fd { fd_type : FileIOType; fd_path : str }.

Section create.
Context (alive : nid → bool).

Definition path_exists (g : gfs) (path : str) : outcome bool :=
  match fs_lookup alive g None path with Ok _ => Ok true | Err _ => Ok false | Panic => Panic end.

(** The first piece, up to the test of the existing link: an answer, or
    whether an old link has to be dropped first. *)
Definition create_check (g : gfs) (L : links) (src dest : str) : outcome (bool + bool) :=
  if negb (is_file src) || negb (is_file dest) then Ok (inl false) else
  ex ← path_exists g dest;
  if negb ex then Ok (inl false) else
  match path_map L !! src with
  | Some old => if decide (old = dest) then Ok (inl true) else Ok (inr true)
  | None => Ok (inr false)
  end.

Definition create_link (g : gfs) (L : links) (src dest : str) : outcome (bool * links) :=
  r ← create_check g L src dest;
  match r with
  | inl b => Ok (b, L)
  | inr false => Ok (true, insert_link L src dest)
  | inr true => '(_, L) ← remove_link L src; Ok (true, insert_link L src dest)
  end.

(** ** [deal_with_path] *)

(** [alloc] is the answer of [manual_alloc_for_lazy], whose error is returned. *)
Definition user_path (um : usermem) (alloc : Z → outcome unit) (path_addr : option Z)
    : outcome str :=
  match path_addr with
  | None => Ok []
  | Some a =>
      if decide (a = 0) then Err BadAddress
      else _ ← alloc a; Ok (default [] (raw_ptr_to_ref_str um a))
  end.

(** The path before the working directory is prepended. *)
Definition path_at_fd (fds : list (option fd_view)) (dir_fd : Z) (path : str) : outcome str :=
  if decide (path = []) then
    if decide (dir_fd = AT_FDCWD) then Ok [DOT]
    else if decide (Z.of_nat (length fds) ≤ dir_fd) then Err InvalidInput
    else match fds !! Z.to_nat dir_fd with
         | Some (Some d) => Ok (fd_path d)
         | _ => Err NotFound
         end
  else if negb (starts_with_slash path) && bool_decide (dir_fd ≠ AT_FDCWD) &&
          bool_decide (wrap32 dir_fd ≠ wrap32 AT_FDCWD)
  then
    if decide (Z.of_nat (length fds) ≤ dir_fd) then Err InvalidInput
    else match fds !! Z.to_nat dir_fd with
         | Some (Some d) =>
             if decide (fd_type d ≠ DirDesc) then Err NotADirectory
             else Ok (fd_path d ++ path)
         | _ => Err NotFound
         end
  else Ok path.

Definition deal_with_path (g : gfs) (L : links) (um : usermem) (alloc : Z → outcome unit)
    (cwd : str) (fds : list (option fd_view)) (dir_fd : Z) (path_addr : option Z) (force_dir : bool)
    : outcome str :=
  path ← user_path um alloc path_addr;
  path ← path_at_fd fds dir_fd path;
  path ← (if negb (starts_with_slash path)
          then rassert (ends_with_slash cwd) ≫= λ _, Ok (cwd ++ path)
          else Ok path);
  let path := if force_dir && negb (ends_with_slash path) then path ++ [SLASH] else path in
  let path := if decide (last path = Some DOT) then path ++ [SLASH] else path in
  filepath_new g L path.
End create.

(** ** C strings: the scan ends, and strings are read back *)

Lemma str_len_fuel_None fuel um a :
  str_len_fuel fuel um a = None →
  ∀ i, 0 ≤ i < Z.of_nat fuel → is_Some (um_bytes um !! (a + i)).
Proof.
  revert a. induction fuel as [|fuel IH]; intros a; [lia|]. cbn [str_len_fuel].
  case_decide as Hb; [done|]. intros Hn i Hi.
  destruct (decide (i = 0)) as [->|Hi0].
  - rewrite Z.add_0_r. rewrite load_byte in Hb. by destruct (um_bytes um !! a).
  - destruct (str_len_fuel fuel um (a + 1)) eqn:E; [done|].
    replace (a + i) with (a + 1 + (i - 1)) by lia. apply (IH _ E). lia.
Qed.

Lemma str_len_fuel_Some fuel um a n :
  str_len_fuel fuel um a = Some n →
  0 ≤ n ∧ load_le um (a + n) 1 = 0 ∧ ∀ i, 0 ≤ i < n → load_le um (a + i) 1 ≠ 0.
Proof.
  revert a n. induction fuel as [|fuel IH]; intros a n; [done|]. cbn [str_len_fuel].
  case_decide as Hb.
  { intros [= <-]. rewrite Z.add_0_r. split; [lia|]. split; [done|]. lia. }
  destruct (str_len_fuel fuel um (a + 1)) as [k|] eqn:E; [|done].
  intros [= <-]. destruct (IH _ _ E) as (Hk & H0 & Hi).
  split; [lia|]. split; [by replace (a + (1 + k)) with (a + 1 + k) by lia|].
  intros i Hik. destruct (decide (i = 0)) as [->|]; [by rewrite Z.add_0_r|].
  replace (a + i) with (a + 1 + (i - 1)) by lia. apply Hi. lia.
Qed.

Lemma get_str_len_total um a :
  ∃ n, get_str_len um a = Some n ∧ 0 ≤ n ≤ Z.of_nat (base.size (um_bytes um)) ∧
    load_le um (a + n) 1 = 0 ∧ ∀ i, 0 ≤ i < n → load_le um (a + i) 1 ≠ 0.
Proof.
  assert (Hbound : ∀ n : nat, (∀ i, 0 ≤ i < Z.of_nat n → is_Some (um_bytes um !! (a + i))) →
            (n ≤ base.size (um_bytes um))%nat).
  { intros n Hn. rewrite <- size_dom.
    transitivity (base.size (list_to_set (C := gset Z) (seqZ a (Z.of_nat n)))).
    - rewrite size_list_to_set by apply NoDup_seqZ. rewrite length_seqZ. lia.
    - apply subseteq_size. intros x. rewrite elem_of_list_to_set, elem_of_seqZ, elem_of_dom.
      intros Hx. replace x with (a + (x - a)) by lia. apply Hn. lia. }
  destruct (get_str_len um a) as [n|] eqn:E.
  - exists n. destruct (str_len_fuel_Some _ _ _ _ E) as (Hn & H0 & Hi). split; [done|].
    split; [|done]. split; [done|].
    specialize (Hbound (Z.to_nat n)). rewrite Z2Nat.id in Hbound by done.
    apply Z2Nat.inj_le; [lia..|]. rewrite Nat2Z.id. apply Hbound. intros i Hin.
    specialize (Hi i Hin). rewrite load_byte in Hi. by destruct (um_bytes um !! (a + i)).
  - exfalso. pose proof (str_len_fuel_None _ _ _ E) as Hn. apply Hbound in Hn. lia.
Qed.

(** The scan for the end of a user string terminates.  [get_str_len] has
    no bound of its own; whatever the memory, it stops after at most as many
    steps as there are bytes, at the first zero byte. *)
Theorem get_str_len_terminates um a :
  ∃ n, get_str_len um a = Some n ∧ 0 ≤ n ≤ Z.of_nat (base.size (um_bytes um)) ∧
    load_le um (a + n) 1 = 0 ∧ ∀ i, 0 ≤ i < n → load_le um (a + i) 1 ≠ 0.
Proof. apply get_str_len_total. Qed.

(** A Unicode scalar value. *)
Definition is_char (c : Z) : Prop := 0 ≤ c < 1114112 ∧ ¬ (55296 ≤ c < 57344).

Local Ltac ulia :=
  repeat match goal with b := _ : Z |- _ => subst b end; mlia.

Lemma from_utf8_char c rest :
  is_char c → from_utf8 (utf8_char c ++ rest) = l ← from_utf8 rest; Some (c :: l).
Proof.
  intros [Hc Hs]. unfold utf8_char. repeat case_decide; cbn [app from_utf8].
  - by rewrite decide_True by lia.
  - set (b0 := 192 + c / 64). set (b1 := 128 + c mod 64).
    assert (194 ≤ b0 < 224 ∧ 128 ≤ b1 < 192) by ulia.
    replace ((b0 - 192) * 64 + (b1 - 128)) with c by ulia.
    rewrite !decide_False, decide_True by lia. unfold cont_byte.
    by rewrite !bool_decide_eq_true_2 by lia.
  - set (b0 := 224 + c / 4096). set (b1 := 128 + c / 64 mod 64). set (b2 := 128 + c mod 64).
    assert (224 ≤ b0 < 240 ∧ 128 ≤ b1 < 192 ∧ 128 ≤ b2 < 192) by ulia.
    replace ((b0 - 224) * 4096 + (b1 - 128) * 64 + (b2 - 128)) with c by ulia.
    rewrite !decide_False, decide_True by lia. unfold cont_byte.
    rewrite (bool_decide_eq_false_2 (55296 ≤ c < 57344)) by done.
    by rewrite !bool_decide_eq_true_2 by lia.
  - set (b0 := 240 + c / 262144). set (b1 := 128 + c / 4096 mod 64).
    set (b2 := 128 + c / 64 mod 64). set (b3 := 128 + c mod 64).
    assert (240 ≤ b0 < 248 ∧ 128 ≤ b1 < 192 ∧ 128 ≤ b2 < 192 ∧ 128 ≤ b3 < 192) by ulia.
    replace ((b0 - 240) * 262144 + (b1 - 128) * 4096 + (b2 - 128) * 64 + (b3 - 128))
      with c by ulia.
    rewrite !decide_False, decide_True by lia. unfold cont_byte.
    by rewrite !bool_decide_eq_true_2 by lia.
Qed.

Lemma from_utf8_utf8 s : Forall is_char s → from_utf8 (utf8 s) = Some s.
Proof.
  induction 1 as [|c s Hc Hs IH]; [done|].
  change (utf8 (c :: s)) with (utf8_char c ++ utf8 s). by rewrite from_utf8_char, IH.
Qed.

Lemma utf8_nonempty_char c : ∃ b l, utf8_char c = b :: l.
Proof. unfold utf8_char. repeat case_decide; eauto. Qed.

Lemma utf8_no_nul s : Forall is_char s → 0 ∉ s → 0 ∉ utf8 s.
Proof.
  intros Hs H0 Hin. apply list_elem_of_bind in Hin as (c & Hc & Hcs).
  rewrite Forall_forall in Hs. destruct (Hs c Hcs) as [Hr _].
  assert (c ≠ 0) by (intros ->; done).
  unfold utf8_char in Hc. repeat case_decide; set_unfold; mlia.
Qed.

Lemma get_str_len_unique um a n :
  0 ≤ n → load_le um (a + n) 1 = 0 → (∀ i, 0 ≤ i < n → load_le um (a + i) 1 ≠ 0) →
  get_str_len um a = Some n.
Proof.
  intros Hn H0 Hi. destruct (get_str_len_total um a) as (m & E & Hm & Hm0 & Hmi).
  rewrite E. f_equal. destruct (Z.lt_trichotomy m n) as [Hlt|[|Hlt]]; [|done|].
  - by destruct (Hi m ltac:(lia)).
  - by destruct (Hmi n ltac:(lia)).
Qed.

Lemma utf8_bytes s : Forall is_char s → Forall is_byte (utf8 s ++ [0]).
Proof.
  intros Hs. apply Forall_app. split; [|by repeat constructor].
  apply Forall_forall. intros b Hb. apply list_elem_of_bind in Hb as (c & Hc & Hcs).
  rewrite Forall_forall in Hs. destruct (Hs c Hcs) as [Hr _].
  unfold utf8_char, is_byte in *. repeat case_decide; set_unfold; mlia.
Qed.

(** A program's string reaches the kernel unchanged.  A string without NUL,
    stored in user memory in UTF-8 with a terminating zero byte, is what
    [raw_ptr_to_ref_str] reads at its address. *)
Theorem user_string_roundtrip um a s :
  Forall is_char s → 0 ∉ s →
  raw_ptr_to_ref_str (store_bytes um a (utf8 s ++ [0])) a = Some s.
Proof.
  intros Hs H0. pose proof (utf8_bytes s Hs) as Hby.
  set (um' := store_bytes um a (utf8 s ++ [0])).
  assert (Hb : ∀ i c, (utf8 s ++ [0]) !! i = Some c → load_le um' (a + Z.of_nat i) 1 = c).
  { intros i c Hi. unfold um'. rewrite load_byte. by rewrite (store_bytes_lookup _ _ _ _ c). }
  unfold raw_ptr_to_ref_str.
  rewrite (get_str_len_unique um' a (Z.of_nat (length (utf8 s)))).
  - simpl. rewrite Nat2Z.id. unfold um'. rewrite load_store_bytes_prefix by
      (done || by apply prefix_app_r). by rewrite from_utf8_utf8.
  - lia.
  - apply (Hb (length (utf8 s)) 0). by rewrite lookup_app_r, Nat.sub_diag by lia.
  - intros i Hi E. rewrite <- (Z2Nat.id i) in E by lia.
    destruct (lookup_lt_is_Some_2 (utf8 s) (Z.to_nat i)) as [c Hc]; [lia|].
    rewrite (Hb _ c) in E by (by apply lookup_app_l_Some). subst c.
    by apply (utf8_no_nul s Hs H0), (list_elem_of_lookup_2 _ _ _ Hc).
Qed.

(** ** [dir] and [file] *)

Lemma rfind_slash_Some p i : rfind_slash p = Some i → p !! i = Some SLASH.
Proof.
  revert i. induction p as [|c p IH]; intros i; [done|]. simpl.
  destruct (rfind_slash p) as [j|]; [intros [= <-]; simpl; by apply IH|].
  case_decide; [|done]. intros [= <-]. simpl. by subst.
Qed.

Lemma rfind_slash_None p : rfind_slash p = None ↔ SLASH ∉ p.
Proof.
  induction p as [|c p IH]; simpl; [set_solver|].
  destruct (rfind_slash p) as [j|] eqn:E.
  - split; [done|]. intros H. exfalso. apply H. right.
    by apply list_elem_of_lookup_2 with j, rfind_slash_Some.
  - case_decide; [set_solver|]. set_solver.
Qed.

Lemma rfind_slash_last p i : rfind_slash p = Some i → SLASH ∉ drop (S i) p.
Proof.
  revert i. induction p as [|c p IH]; intros i; [done|]. simpl.
  destruct (rfind_slash p) as [j|] eqn:E; [intros [= <-]; simpl; by apply IH|].
  case_decide; [|done]. intros [= <-]. rewrite drop_0. by apply rfind_slash_None.
Qed.

(** The file part of a path: a name with no slash in it, but for one at the end
    when the path is a directory's. *)
Definition is_name (p name : str) : Prop :=
  SLASH ∉ name ∨ (is_dir p = true ∧ ∃ n, name = n ++ [SLASH] ∧ SLASH ∉ n).

Lemma split_pos_spec p pos :
  split_pos p = Some pos → p !! pos = Some SLASH ∧ is_name p (drop (S pos) p).
Proof.
  unfold split_pos. destruct (rfind_slash p) as [i|] eqn:E; [|done]. simpl.
  pose proof (rfind_slash_Some _ _ E) as Hi. pose proof (lookup_lt_Some _ _ _ Hi).
  case_decide as Hl; [|intros [= <-]; split; [done|]; left; by apply rfind_slash_last].
  intros Hp. pose proof (rfind_slash_Some _ _ Hp) as Hpos.
  apply lookup_take_Some in Hpos as [Hpos Hlt]. split; [done|]. right.
  assert (p = take i p ++ [SLASH]) as Hsnoc.
  { rewrite <- (take_drop_middle p i SLASH) at 1 by done. f_equal. f_equal.
    rewrite drop_ge by lia. done. }
  split; [unfold is_dir, ends_with_slash; rewrite Hsnoc, last_snoc; by rewrite bool_decide_eq_true_2|].
  exists (drop (S pos) (take i p)). split; [|by apply rfind_slash_last].
  rewrite Hsnoc at 1. rewrite drop_app_le; [done|]. rewrite length_take. lia.
Qed.

(** A path splits into its directory and its file.  For a path other than
    the root, [dir] and [file] succeed together, exactly when the path has a
    component below a slash; the parts concatenate to the path, the directory
    ends with a slash, and the file part is a single name. *)
Theorem dir_file_split p :
  is_root p = false →
  (∀ d f, dir p = Ok d → file p = Ok f →
     p = d ++ f ∧ is_dir d = true ∧ is_name p f) ∧
  (is_ok (dir p) = is_ok (file p)) ∧ dir p ≠ Panic ∧ file p ≠ Panic.
Proof.
  intros Hr. unfold dir, file. rewrite Hr.
  destruct (split_pos p) as [pos|] eqn:E; [|done].
  destruct (split_pos_spec _ _ E) as [Hpos Hname]. split; [|done].
  intros d f [= <-] [= <-]. split; [by rewrite take_drop|]. split; [|done].
  unfold is_dir, ends_with_slash. rewrite (take_S_r _ _ _ Hpos), last_snoc.
  by rewrite bool_decide_eq_true_2.
Qed.

(** ** The link tables *)

(** The names of a file: the entries of the table that lead to it. *)
Definition names (L : links) (d : str) : gmap (list Z) (list Z) :=
  filter (λ kv, kv.2 = d) (path_map L).

Definition link_inv (L : links) : Prop :=
  ∀ d, default 0 (count_map L !! d) = Z.of_nat (base.size (names L d)) ∧
       (0 < base.size (names L d) → is_Some (count_map L !! d))%nat.

Lemma names_insert_new L src dest d cm :
  path_map L !! src = None →
  base.size (names (mk_links (<[src := dest]> (path_map L)) cm) d) =
    ((if decide (d = dest) then 1 else 0) + base.size (names L d))%nat.
Proof.
  intros Hs. unfold names. simpl. rewrite map_filter_insert. simpl. case_decide as Hd.
  - subst d. rewrite decide_True by done. rewrite map_size_insert_None; [done|].
    apply map_lookup_filter_None. by left.
  - rewrite decide_False by congruence. rewrite delete_id; [done|]. done.
Qed.

Lemma names_delete L src dest d cm :
  path_map L !! src = Some dest →
  base.size (names L d) =
    ((if decide (d = dest) then 1 else 0) +
     base.size (names (mk_links (delete src (path_map L)) cm) d))%nat.
Proof.
  intros Hs. rewrite <- (names_insert_new (mk_links (delete src (path_map L)) cm) src dest d cm).
  - unfold names. simpl. by rewrite insert_delete_id.
  - simpl. apply lookup_delete_eq.
Qed.

Lemma insert_link_inv L src dest :
  link_inv L → path_map L !! src = None →
  Z.of_nat (base.size (path_map L)) < U64_MAX → link_inv (insert_link L src dest).
Proof.
  intros HL Hs Hsz d. unfold insert_link. rewrite names_insert_new by done.
  cbn [count_map path_map].
  destruct (HL d) as [Hc Hi].
  assert (base.size (names L d) ≤ base.size (path_map L))%nat by
    (apply map_subseteq_size, map_filter_subseteq).
  case_decide as Hd.
  - subst d. rewrite lookup_insert_eq. split; [|eauto]. rewrite Hc.
    rewrite wrap64_small by (unfold is_u64, U64_MAX in *; lia). cbn. lia.
  - by rewrite lookup_insert_ne by done.
Qed.

(** Under the invariant the assertion of [remove_link] holds. *)
Lemma remove_link_spec L src :
  link_inv L →
  ∃ L', remove_link L src = Ok (path_map L !! src, L') ∧ link_inv L' ∧
        path_map L' = delete src (path_map L).
Proof.
  intros HL. unfold remove_link. destruct (path_map L !! src) as [dest|] eqn:E.
  - pose proof (names_delete L src dest dest (count_map L) E) as Hn.
    rewrite decide_True in Hn by done. destruct (HL dest) as [Hc _].
    rewrite decide_True by lia. eexists. split; [done|]. split; [|done].
    intros d. pose proof (names_delete L src dest d (<[dest:=default 0 (count_map L !! dest) - 1]> (count_map L)) E) as Hnd.
    destruct (HL d) as [Hcd Hid]. cbn [count_map]. case_decide as Hd.
    + subst d. rewrite lookup_insert_eq. split; [cbn [from_option id]; lia|eauto].
    + rewrite lookup_insert_ne by done. by rewrite Nat.add_0_l in Hnd; rewrite <- Hnd.
  - exists L. split; [done|]. split; [done|]. by rewrite delete_id.
Qed.

Inductive link_op := LCreate (g : gfs) (src dest : str) | LRemove (src : str).

Section run.
Context (alive : nid → bool).

Definition link_step (op : link_op) (L : links) : outcome links :=
  match op with
  | LCreate g src dest => '(_, L) ← create_link alive g L src dest; Ok L
  | LRemove src => '(_, L) ← remove_link L src; Ok L
  end.

Fixpoint link_run (ops : list link_op) (L : links) : outcome links :=
  match ops with
  | [] => Ok L
  | op :: ops => L ← link_step op L; link_run ops L
  end.

(** The file system answers the existence test of the operation. *)
Definition lookup_answers (op : link_op) : Prop :=
  match op with LCreate g _ dest => path_exists alive g dest ≠ Panic | LRemove _ => True end.

Lemma create_link_spec g L src dest :
  link_inv L → path_exists alive g dest ≠ Panic →
  Z.of_nat (base.size (path_map L)) < U64_MAX →
  ∃ b L', create_link alive g L src dest = Ok (b, L') ∧ link_inv L' ∧
    path_map L' = if b : bool then <[src := dest]> (path_map L) else path_map L.
Proof.
  intros HL Hp Hsz. unfold create_link, create_check.
  destruct (negb (is_file src) || negb (is_file dest)); [by eexists false, L|].
  destruct (path_exists alive g dest) as [[]| |] eqn:Hex; [|by eexists false, L| |done].
  2: { unfold path_exists in Hex. by destruct (fs_lookup _ _ _ _). }
  cbn [mbind outcome_bind negb]. destruct (path_map L !! src) as [old|] eqn:Eo.
  - case_decide as Hod; cbn [mbind outcome_bind].
    + subst. exists true, L. by rewrite insert_id.
    + destruct (remove_link_spec L src HL) as (L1 & -> & HL1 & Hp1). cbn [mbind outcome_bind].
      exists true. eexists. split; [done|]. split.
      * apply insert_link_inv; [done|by rewrite Hp1, lookup_delete_eq|].
        rewrite Hp1. pose proof (map_size_delete src (path_map L)) as Hd. rewrite Eo in Hd.
        rewrite Hd. lia.
      * simpl. by rewrite Hp1, insert_delete_eq.
  - exists true. eexists. split; [done|]. split; [|done]. by apply insert_link_inv.
Qed.

Lemma link_step_spec op L :
  link_inv L → lookup_answers op → Z.of_nat (base.size (path_map L)) < U64_MAX →
  ∃ L', link_step op L = Ok L' ∧ link_inv L' ∧
        (base.size (path_map L') ≤ S (base.size (path_map L)))%nat.
Proof.
  intros HL Ha Hsz. destruct op as [g src dest|src]; cbn [link_step lookup_answers] in *.
  - destruct (create_link_spec g L src dest HL Ha Hsz) as (b & L' & -> & HL' & Hp).
    exists L'. split; [done|]. split; [done|]. rewrite Hp. destruct b; [|lia].
    rewrite map_size_insert. destruct (path_map L !! src); cbn [id]; lia.
  - destruct (remove_link_spec L src HL) as (L' & -> & HL' & Hp). exists L'.
    split; [done|]. split; [done|]. rewrite Hp, map_size_delete.
    destruct (path_map L !! src); cbn [id]; lia.
Qed.

Lemma link_run_spec ops L :
  link_inv L → Forall lookup_answers ops →
  Z.of_nat (base.size (path_map L) + length ops) < U64_MAX →
  ∃ L', link_run ops L = Ok L' ∧ link_inv L'.
Proof.
  revert L. induction ops as [|op ops IH]; intros L HL Ha Hsz; [by exists L|].
  cbn [length] in Hsz.
  apply Forall_cons in Ha as [Ha Hops].
  destruct (link_step_spec op L HL Ha ltac:(lia)) as (L1 & E & HL1 & Hs1). cbn [link_run]. rewrite E. cbn [mbind outcome_bind].
  apply IH; [done..|]. lia.
Qed.

(** C20: link counts are exact when the calls do not overlap.  After any sequence of
    fewer than 2^64 [create_link] and [remove_link] calls, each run as a whole, on a
    file system whose lookups answer, starting from empty tables, no assertion or
    unwrap has failed or can fail: the count [get_link_count] reports for a linked name
    is the number of names that lead to its file, and [remove_link] returns the file
    the name led to.  A name that is not linked is counted 0, an existing file too,
    which the comment of [get_link_count] says counts 1.  Two calls that overlap break
    the counts ([create_link_race]). *)
Theorem link_counts_exact ops :
  Forall lookup_answers ops → Z.of_nat (length ops) < U64_MAX →
  ∃ L, link_run ops (mk_links ∅ ∅) = Ok L ∧
  ∀ src,
    get_link_count L src =
      Ok (match path_map L !! src with
          | Some d => Z.of_nat (base.size (names L d))
          | None => 0
          end) ∧
    ∃ L', remove_link L src = Ok (path_map L !! src, L') ∧
          path_map L' = delete src (path_map L).
Proof.
  intros Ha Hl. destruct (link_run_spec ops (mk_links ∅ ∅)) as (L & Hrun & HL).
  - intros d. unfold names. simpl. rewrite map_filter_empty, map_size_empty. by split; [|lia].
  - done.
  - cbn [path_map]. rewrite map_size_empty. lia.
  - exists L. split; [done|]. intros src. split.
    + unfold get_link_count. destruct (path_map L !! src) as [d|] eqn:E; [|done].
      destruct (HL d) as [Hc Hs]. destruct Hs as [c Hcd].
      { rewrite (names_delete L src d d (count_map L) E), decide_True by done. lia. }
      rewrite Hcd in *. simpl in Hc. by subst c.
    + destruct (remove_link_spec L src HL) as (L' & ? & _ & ?). by exists L'.
Qed.
End run.

(** [create_link] over an old link lets go of the tables after dropping it: a
    second [create_link] of the same name can run in between, and the file the
    loser linked keeps a count of 1 with no name. *)
Lemma create_link_race :
  let A := lit "/a" in let B := lit "/b" in let C := lit "/c" in
  let L0 := insert_link (mk_links ∅ ∅) (lit "/x") A in
  ∃ L1 L3,
    remove_link L0 (lit "/x") = Ok (Some A, L1) ∧
    insert_link (insert_link L1 (lit "/x") C) (lit "/x") B = L3 ∧
    count_map L3 !! C = Some 1 ∧ names L3 C = ∅.
Proof. eexists _, _. split; [vm_compute; reflexivity|]. split; [reflexivity|]. by vm_compute. Qed.

Lemma user_string_roundtrip_witness :
  raw_ptr_to_ref_str (store_bytes (mk_usermem {[ 4096 ]} ∅) 4100 (utf8 [47; 233; 26085] ++ [0])) 4100
    = Some [47; 233; 26085].
Proof.
  apply (user_string_roundtrip (mk_usermem {[ 4096 ]} ∅) 4100 [47; 233; 26085]).
  - repeat constructor; lia.
  - set_unfold. lia.
Defined.

Lemma dir_file_split_witness :
  is_root (lit "/usr/lib/") = false ∧ dir (lit "/usr/lib/") = Ok (lit "/usr/") ∧
  file (lit "/usr/lib/") = Ok (lit "lib/") ∧ lit "/usr/lib/" = lit "/usr/" ++ lit "lib/".
Proof.
  split; [reflexivity|]. split; [vm_compute; reflexivity|]. split; [vm_compute; reflexivity|].
  apply (dir_file_split (lit "/usr/lib/")); vm_compute; reflexivity.
Defined.

(** A RAM file system with two empty files, [/a] and [/b]. *)
Definition demo_link_fs : gfs :=
  {| store := {| nodes := {[ 0%nat := RamDir None [(lit "a", 1%nat); (lit "b", 2%nat)];
                             1%nat := FileNode []; 2%nat := FileNode [] ]};
                 next_id := 3; counters := [] |};
     root_dir := {| main_fs := 0; mounts := [] |}; cur_dir := VRoot; cur_path := [SLASH] |}.

Definition demo_link_ops : list link_op :=
  [LCreate demo_link_fs (lit "/x") (lit "/b"); LCreate demo_link_fs (lit "/x") (lit "/a");
   LCreate demo_link_fs (lit "/y") (lit "/a"); LCreate demo_link_fs (lit "/z") (lit "/none");
   LCreate demo_link_fs (lit "/w") (lit "/a"); LRemove (lit "/w"); LRemove (lit "/q")].

Lemma link_counts_exact_witness :
  ∃ L, link_run (λ _, true) demo_link_ops (mk_links ∅ ∅) = Ok L ∧
       get_link_count L (lit "/x") = Ok 2.
Proof.
  destruct (link_counts_exact (λ _, true) demo_link_ops) as (L & Hrun & H).
  - repeat constructor; vm_compute; discriminate.
  - vm_compute. reflexivity.
  - exists L. split; [exact Hrun|]. destruct (H (lit "/x")) as [-> _]. clear H.
    vm_compute in Hrun. injection Hrun as <-. vm_compute. reflexivity.
Defined.
