(* ===== verification/Signal.v ===== *)
(** * Signals

    Models [modules/taskctx/src/arch/riscv/mod.rs] (the trap frame and its
    accessors), [modules/executor/src/signal.rs] (the per-task [SignalModule],
    delivery to a user handler, return from it) and the signal system calls of
    [modules/syscall/src/syscall_task/imp/signal.rs].

    The signal set, the table of actions and the structures pushed on the user
    stack come from the [axsignal] crate, which is not part of the repository:
    they are the parameters of the class [AxSignal], with what the code relies
    on as the class [AxSignalLaws].  A reference instance closes the file.

    [handle_signals] runs for one task: what it does to the rest of the process
    (exit, terminate) is its result, carried out by the file on processes. *)

From S2P Require Import Prelude Memory UserMem.

Open Scope Z_scope.

(** ** Trap frames (taskctx/src/arch/riscv/mod.rs) *)

(** [GeneralRegisters]. *)
Inductive reg :=
  | ra | sp | gp | tp | t0 | t1 | t2 | s0 | s1 | a0 | a1 | a2 | a3 | a4 | a5 | a6 | a7
  | s2 | s3 | s4 | s5 | s6 | s7 | s8 | s9 | s10 | s11 | t3 | t4 | t5 | t6.

#[export] Instance reg_eq_dec : EqDecision reg.
Proof. solve_decision. Defined.

Inductive TrapStatus := Done | TsBlocked | Unknown.

#[export] Instance TrapStatus_eq_dec : EqDecision TrapStatus.
Proof. solve_decision. Defined.

Definition trap_status_from (nr : Z) : TrapStatus :=
  if decide (nr = 0) then Done else if decide (nr = 1) then TsBlocked else Unknown.

Definition trap_status_try_into (s : TrapStatus) : TrapStatus + Z :=
  match s with Unknown => inl Unknown | Done => inr 0 | TsBlocked => inr 1 end.

Record TrapFrame := mk_tf {
  regs : reg → Z;
  sepc : Z;
  sstatus : Z;
  tf_fs : Z * Z;
  scause : Z;
  stval : Z;
  trap_status : TrapStatus;
  kernel_sp : Z;
}.

Definition set_reg (r : reg) (v : Z) (tf : TrapFrame) : TrapFrame :=
  mk_tf (λ r', if decide (r' = r) then v else regs tf r') (sepc tf) (sstatus tf) (tf_fs tf)
    (scause tf) (stval tf) (trap_status tf) (kernel_sp tf).
Definition set_sepc (v : Z) (tf : TrapFrame) : TrapFrame :=
  mk_tf (regs tf) v (sstatus tf) (tf_fs tf) (scause tf) (stval tf) (trap_status tf)
    (kernel_sp tf).
Definition set_trap_status (s : TrapStatus) (tf : TrapFrame) : TrapFrame :=
  mk_tf (regs tf) (sepc tf) (sstatus tf) (tf_fs tf) (scause tf) (stval tf) s (kernel_sp tf).

Definition set_user_sp (v : Z) : TrapFrame → TrapFrame := set_reg sp v.
Definition set_ret_code (v : Z) : TrapFrame → TrapFrame := set_reg a0 v.
Definition set_tls (v : Z) : TrapFrame → TrapFrame := set_reg tp v.
Definition get_sp (tf : TrapFrame) : Z := regs tf sp.
Definition set_pc (v : Z) : TrapFrame → TrapFrame := set_sepc v.
Definition rewind_pc (tf : TrapFrame) : TrapFrame := set_sepc (wrap64 (sepc tf - 4)) tf.
Definition set_arg0 (v : Z) : TrapFrame → TrapFrame := set_reg a0 v.
Definition set_arg1 (v : Z) : TrapFrame → TrapFrame := set_reg a1 v.
Definition set_arg2 (v : Z) : TrapFrame → TrapFrame := set_reg a2 v.
Definition get_pc (tf : TrapFrame) : Z := sepc tf.
Definition get_ret_code (tf : TrapFrame) : Z := regs tf a0.
Definition set_ra (v : Z) : TrapFrame → TrapFrame := set_reg ra v.
Definition get_syscall_args (tf : TrapFrame) : list Z :=
  [regs tf a0; regs tf a1; regs tf a2; regs tf a3; regs tf a4; regs tf a5].
Definition get_syscall_num (tf : TrapFrame) : Z := regs tf a7.

(** [TrapFrame::default], and [init_user_context] with the [sstatus] register and
    the words at the user stack pointer it reads. *)
Definition tf_default : TrapFrame := mk_tf (λ _, 0) 0 0 (0, 0) 0 0 Done 0.

Definition init_user_context (status : Z) (um : usermem) (app_entry user_sp : Z) : TrapFrame :=
  let tf := set_user_sp user_sp tf_default in
  let tf := mk_tf (regs tf) app_entry
              (Z.land (Z.land status (Z.lnot (Z.shiftl 1 8))) (Z.lnot (Z.shiftl 1 1)))
              (tf_fs tf) 0 0 (trap_status tf) (kernel_sp tf) in
  set_reg a1 (load_le um (user_sp + 8) 8) (set_reg a0 (load_le um user_sp 8) tf).

(** ** The [axsignal] crate *)

(** [axsignal::ucontext::SignalStack]. *)
Record SignalStack := mk_sigstack { ss_sp : Z; ss_flags : Z; ss_size : Z }.

Inductive SignalDefault := DIgnore | DTerminate | DStop | DCont | DCore.

Class AxSignal (SS SH SA SI : Type) := {
  (** [SignalSet]: the set with its [mask] and the [info] of pending signals *)
  sigset_new : SS;
  sigset_mask : SS → Z;
  set_sigset_mask : Z → SS → SS;
  find_signal : SS → option Z;
  get_one_signal : SS → option (Z * SS);
  try_add_signal : Z → option SI → SS → SS;
  sigset_info : SS → Z → option SI;
  (** [SignalHandler] and [SigAction] *)
  handler_new : SH;
  get_action : SH → Z → SA;
  set_action : SH → Z → SA → SH;
  sa_handler : SA → Z;
  sa_onstack : SA → bool;
  sa_siginfo : SA → bool;
  get_storer : SA → option Z;
  need_restart : SA → bool;
  (** [SignalDefault::get_action], [SignalNo::from] as a number *)
  default_action : Z → SignalDefault;
  signo_from : Z → Z;
  (** the structures in user memory *)
  siginfo_default : Z → SI;
  siginfo_size : Z;
  ucontext_size : Z;
  store_siginfo : usermem → Z → SI → usermem;
  store_ucontext : usermem → Z → Z → Z → usermem;
  ucontext_pc : usermem → Z → Z;
  load_sigaction : usermem → Z → SA;
  store_sigaction : usermem → Z → SA → usermem;
  stack_default : SignalStack;
  load_sigstack : usermem → Z → SignalStack;
  store_sigstack : usermem → Z → SignalStack → usermem;
  sigstack_size : Z;
}.

(** What the crate documents: the program counter saved in a user context is
    read back, and the structures have a size. *)
Class AxSignalLaws SS SH SA SI `{AxSignal SS SH SA SI} := {
  ucontext_pc_stored um a pc mask :
    is_u64 pc → ucontext_pc (store_ucontext um a pc mask) a = pc;
  siginfo_size_pos : 0 < siginfo_size;
  ucontext_size_pos : 0 < ucontext_size;
}.

Definition SIG_DFL : Z := 0.
Definition SIG_IGN : Z := 1.
Definition SS_DISABLE : Z := 2.
Definition SIGBUS : Z := 7.
Definition SIGKILL : Z := 9.
Definition SIGSEGV : Z := 11.
Definition SIGCHLD : Z := 17.
Definition SIGSTOP : Z := 19.

(** [x & !0xf] on a [usize]. *)
Definition align16 (x : Z) : Z := x - x mod 16.

Definition USER_SIGNAL_PROTECT : Z := 512.

Section signal.
Context {SS SH SA SI : Type} `{AxSignal SS SH SA SI}.
(** [axconfig::SIGNAL_TRAMPOLINE]. *)
Context (SIGNAL_TRAMPOLINE : Z).

(** ** [SignalModule] *)

(** [signal_handler] is a shared object, named by its identity. *)
Record SignalModule := mk_sigmod {
  sig_info : bool;
  last_trap_frame_for_signal : option TrapFrame;
  signal_handler : Z;
  signal_set : SS;
  exit_signal : option Z;
  alternate_stack : SignalStack;
}.

(** [init_signal]; the caller has made the handler object. *)
Definition init_signal (handler : Z) : SignalModule :=
  mk_sigmod false None handler sigset_new None stack_default.

Definition set_exit_signal (s : Z) (m : SignalModule) : SignalModule :=
  mk_sigmod (sig_info m) (last_trap_frame_for_signal m) (signal_handler m) (signal_set m)
    (Some s) (alternate_stack m).
Definition get_exit_signal (m : SignalModule) : option Z := exit_signal m.

Definition with_set (s : SS) (m : SignalModule) : SignalModule :=
  mk_sigmod (sig_info m) (last_trap_frame_for_signal m) (signal_handler m) s
    (exit_signal m) (alternate_stack m).
Definition with_saved (i : bool) (f : option TrapFrame) (m : SignalModule) : SignalModule :=
  mk_sigmod i f (signal_handler m) (signal_set m) (exit_signal m) (alternate_stack m).
Definition with_altstack (s : SignalStack) (m : SignalModule) : SignalModule :=
  mk_sigmod (sig_info m) (last_trap_frame_for_signal m) (signal_handler m) (signal_set m)
    (exit_signal m) s.

Definition have_restart_signal (h : SH) (m : SignalModule) : option bool :=
  match find_signal (signal_set m) with
  | Some sig_num => Some (need_restart (get_action h sig_num))
  | None => None
  end.

(** [send_signal_to_process] and [send_signal_to_thread], on the module they
    have found. *)
Definition add_signal (signum : Z) (info : option SI) (m : SignalModule) : SignalModule :=
  with_set (try_add_signal signum info (signal_set m)) m.

(** ** Delivery *)

Definition load_trap_for_signal (um : usermem) (m : SignalModule) (tf : TrapFrame)
    : bool * SignalModule * TrapFrame :=
  match last_trap_frame_for_signal m with
  | Some old_trap_frame =>
      let sp := get_sp tf in
      let tf := old_trap_frame in
      let tf := if sig_info m then set_pc (ucontext_pc um sp) tf else tf in
      (true, with_saved (sig_info m) None m, tf)
  | None => (false, m, tf)
  end.

Definition signal_return (um : usermem) (m : SignalModule) (tf : TrapFrame)
    : Z * SignalModule * TrapFrame :=
  let '(b, m, tf) := load_trap_for_signal um m tf in
  (if b then to_i64 (get_ret_code tf) else -1, m, tf).

(** What [handle_signals] leaves to its caller. *)
Inductive sig_result :=
  | SigReturn                    (** back to user mode *)
  | SigExit (code : Z)           (** [exit(code)], then back *)
  | SigExitPanic (code : Z)      (** [exit(code)], then an unwrap of the module it removed *)
  | SigTerminate (signal : Z)    (** [terminate_process(signal)] *)
  | SigPanic.                    (** [unimplemented!] or a failed [expect] *)

(** The call of a user handler: the trap frame returns into the handler, with
    the signal information and the context on its stack. *)
Definition enter_handler (um : usermem) (m : SignalModule) (action : SA) (sig_num mask : Z)
    (tf : TrapFrame) : option (usermem * SignalModule * TrapFrame) :=
  let sp := if sa_onstack action && bool_decide (ss_flags (alternate_stack m) ≠ SS_DISABLE)
            then align16 (wrap64 (ss_sp (alternate_stack m) + ss_size (alternate_stack m) - 1))
            else wrap64 (get_sp tf - USER_SIGNAL_PROTECT) in
  let restorer := default SIGNAL_TRAMPOLINE (get_storer action) in
  let tf := set_ra restorer tf in
  let old_pc := get_pc tf in
  let tf := set_pc (sa_handler action) tf in
  let tf := set_arg0 sig_num tf in
  if sa_siginfo action then
    let m := with_saved true (last_trap_frame_for_signal m) m in
    let sp_base := align16 (wrap64 (align16 (wrap64 (sp - siginfo_size)) - ucontext_size)) in
    if manual_alloc_range_for_lazy_ok um sp_base sp then
      let sp := align16 (wrap64 (sp - siginfo_size)) in
      let info := default (siginfo_default sig_num) (sigset_info (signal_set m) (sig_num - 1)) in
      let um := store_siginfo um sp info in
      let tf := set_arg1 sp tf in
      let sp := align16 (wrap64 (sp - ucontext_size)) in
      let um := store_ucontext um sp old_pc mask in
      let tf := set_arg2 sp tf in
      Some (um, m, set_user_sp sp tf)
    else None
  else Some (um, m, set_user_sp sp tf).

(** [handle_signals] from the point where it has found the task's module; [h] is
    the handler object of the module. *)
Definition deliver (um : usermem) (h : SH) (m : SignalModule) (tf : TrapFrame)
    : sig_result * usermem * SignalModule * TrapFrame :=
  match get_one_signal (signal_set m) with
  | None => (SigReturn, um, m, tf)
  | Some (sig_num, set) =>
      let m := with_set set m in
      let signal := signo_from sig_num in
      let mask := sigset_mask set in
      match last_trap_frame_for_signal m with
      | Some _ =>
          if decide (signal = SIGSEGV ∨ signal = SIGBUS)
          then (SigExit (-1), um, m, tf) else (SigReturn, um, m, tf)
      | None =>
          let m := with_saved false (Some tf) m in
          let action := get_action h sig_num in
          if decide (sa_handler action = SIG_DFL) then
            match default_action signal with
            | DIgnore =>
                let '(_, m, tf) := load_trap_for_signal um m tf in
                (SigReturn, um, m, tf)
            | DTerminate | DCore => (SigTerminate signal, um, m, tf)
            | DStop | DCont => (SigPanic, um, m, tf)
            end
          else if decide (sa_handler action = SIG_IGN) then (SigReturn, um, m, tf)
          else
            match enter_handler um m action sig_num mask tf with
            | Some (um, m, tf) => (SigReturn, um, m, tf)
            | None => (SigPanic, um, m, tf)
            end
      end
  end.

(** [handle_signals]: [timer] is the signal of an expired interval timer, which
    is first sent to the task itself. *)
Definition KERNEL_EXECUTOR_ID : Z := 1.

Definition handle_signals (pid : Z) (zombie leader : bool) (timer : option Z)
    (um : usermem) (h : SH) (m : SignalModule) (tf : TrapFrame)
    : sig_result * usermem * SignalModule * TrapFrame :=
  let m := match timer with Some s => add_signal s None m | None => m end in
  if zombie then
    if leader then (SigReturn, um, m, tf)
    else if decide (pid = KERNEL_EXECUTOR_ID) then (SigExit 0, um, m, tf)
    else (SigExitPanic 0, um, m, tf)
  else if decide (pid = KERNEL_EXECUTOR_ID) then (SigReturn, um, m, tf)
  else deliver um h m tf.

(** ** System calls *)

Definition syscall_sigaction (um : usermem) (h : SH) (args : list Z)
    : usermem * SH * sysret :=
  let signum := arg args 0 in
  let action := arg args 1 in
  let old_action := arg args 2 in
  if decide (signum = SIGKILL ∨ signum = SIGSTOP) then (um, h, SErr EPERM)
  else if bool_decide (old_action ≠ 0) && negb (manual_alloc_for_lazy_ok um old_action)
  then (um, h, SErr EPERM)
  else
    let um := if decide (old_action ≠ 0)
              then store_sigaction um old_action (get_action h signum) else um in
    if decide (action ≠ 0) then
      if manual_alloc_for_lazy_ok um action
      then (um, set_action h signum (load_sigaction um action), SOk 0)
      else (um, h, SErr EPERM)
    else (um, h, SOk 0).

(** [SigMaskFlag::from] panics for another value. *)
Inductive SigMaskFlag := Block | Unblock | Setmask.

Definition sigmaskflag_from (v : Z) : option SigMaskFlag :=
  if decide (v = 0) then Some Block else if decide (v = 1) then Some Unblock
  else if decide (v = 2) then Some Setmask else None.

Definition SIGSET_SIZE_IN_BYTE : Z := 8.

Definition apply_mask (flag : SigMaskFlag) (old now : Z) : Z :=
  match flag with
  | Block => Z.lor old now
  | Unblock => Z.land old (Z.lxor now U64_MAX)
  | Setmask => now
  end.

Definition syscall_sigprocmask (um : usermem) (m : SignalModule) (args : list Z)
    : usermem * SignalModule * sysret :=
  let new_mask := arg args 1 in
  let old_mask := arg args 2 in
  match sigmaskflag_from (arg args 0) with
  | None => (um, m, SPanic)
  | Some flag =>
      if decide (arg args 3 ≠ SIGSET_SIZE_IN_BYTE) then (um, m, SErr EINVAL)
      else if bool_decide (old_mask ≠ 0) && negb (manual_alloc_for_lazy_ok um old_mask)
      then (um, m, SErr EFAULT)
      else if bool_decide (new_mask ≠ 0) && negb (manual_alloc_for_lazy_ok um new_mask)
      then (um, m, SErr EPERM)
      else
        let um := if decide (old_mask ≠ 0)
                  then store_le um old_mask 8 (sigset_mask (signal_set m)) else um in
        let m := if decide (new_mask ≠ 0)
                 then with_set (set_sigset_mask
                        (apply_mask flag (sigset_mask (signal_set m)) (load_le um new_mask 8))
                        (signal_set m)) m
                 else m in
        (um, m, SOk 0)
  end.

(** [sigsuspend] up to its first look for a signal: an error, or the module with
    the new mask, which the call then polls. *)
Definition sigsuspend_begin (um : usermem) (m : SignalModule) (args : list Z)
    : SignalModule * option sysret :=
  let mask := arg args 0 in
  if negb (manual_alloc_for_lazy_ok um mask) then (m, Some (SErr EFAULT))
  else match last_trap_frame_for_signal m with
       | Some _ => (m, Some (SErr EINTR))
       | None => (with_set (set_sigset_mask (load_le um mask 8) (signal_set m)) m, None)
       end.

(** One turn of its loop: an answer, or a yield. *)
Definition sigsuspend_poll (m : SignalModule) : option sysret :=
  match find_signal (signal_set m) with None => None | Some _ => Some (SErr EINTR) end.

Definition syscall_sigreturn (um : usermem) (m : SignalModule) (tf : TrapFrame)
    : sysret * SignalModule * TrapFrame :=
  let '(r, m, tf) := signal_return um m tf in (SOk r, m, tf).

Definition syscall_sigaltstack (um : usermem) (m : SignalModule) (args : list Z)
    : usermem * SignalModule * sysret :=
  let ss := arg args 0 in
  let old_ss := arg args 1 in
  if bool_decide (ss ≠ 0) && negb (manual_alloc_type_for_lazy_ok um ss sigstack_size)
  then (um, m, SErr EFAULT)
  else if bool_decide (old_ss ≠ 0) && negb (manual_alloc_type_for_lazy_ok um old_ss sigstack_size)
  then (um, m, SErr EFAULT)
  else
    let um := if decide (old_ss ≠ 0) then store_sigstack um old_ss (alternate_stack m) else um in
    let m := if decide (ss ≠ 0) then with_altstack (load_sigstack um ss) m else m in
    (um, m, SOk 0).
End signal.
Arguments SignalModule : clear implicits.

(** ** Delivery and return *)

Section delivery.
Context {SS SH SA SI : Type} `{AxSignalLaws SS SH SA SI}.
Context (SIGNAL_TRAMPOLINE : Z).

Lemma set_pc_same tf : set_pc (get_pc tf) tf = tf.
Proof. by destruct tf. Qed.

(** The action catches the signal: its handler is a user function. *)
Definition catches (a : SA) : Prop := sa_handler a ≠ SIG_DFL ∧ sa_handler a ≠ SIG_IGN.

Lemma deliver_catch um h m tf n set :
  get_one_signal (signal_set m) = Some (n, set) →
  last_trap_frame_for_signal m = None → catches (get_action h n) →
  deliver SIGNAL_TRAMPOLINE um h m tf =
    match enter_handler SIGNAL_TRAMPOLINE um (with_saved false (Some tf) (with_set set m))
            (get_action h n) n (sigset_mask set) tf with
    | Some (um', m', tf') => (SigReturn, um', m', tf')
    | None => (SigPanic, um, with_saved false (Some tf) (with_set set m), tf)
    end.
Proof.
  intros Hg Hl [Hd Hi]. unfold deliver. rewrite Hg. simpl. rewrite Hl.
  rewrite decide_False by done. by rewrite decide_False by done.
Qed.

(** What [enter_handler] leaves in the module, the frame and the memory. *)
Lemma enter_handler_spec um m action n mask tf um' m' tf' :
  is_u64 (sepc tf) →
  enter_handler SIGNAL_TRAMPOLINE um m action n mask tf = Some (um', m', tf') →
  sig_info m = false →
  last_trap_frame_for_signal m' = last_trap_frame_for_signal m ∧
  sig_info m' = sa_siginfo action ∧
  sepc tf' = sa_handler action ∧ regs tf' a0 = n ∧
  regs tf' ra = default SIGNAL_TRAMPOLINE (get_storer action) ∧
  (∀ r, r ∉ [ra; sp; a0; a1; a2] → regs tf' r = regs tf r) ∧
  (sa_siginfo action = true → ucontext_pc um' (get_sp tf') = sepc tf).
Proof.
  intros Hpc. unfold enter_handler. destruct (sa_siginfo action).
  - destruct (manual_alloc_range_for_lazy_ok _ _ _); [|done].
    intros [= <- <- <-] Hs. repeat (split; [done|]). split.
    + intros r Hr. unfold set_user_sp, set_arg2, set_arg1, set_arg0, set_pc, set_ra, set_reg.
      simpl. by repeat rewrite decide_False by set_solver.
    + intros _. unfold get_sp, set_user_sp. simpl. by apply ucontext_pc_stored.
  - intros [= <- <- <-] Hs. repeat (split; [done|]). split; [|done].
    intros r Hr. unfold set_user_sp, set_arg2, set_arg1, set_arg0, set_pc, set_ra, set_reg.
    simpl. by repeat rewrite decide_False by set_solver.
Qed.

(** C10: a caught signal runs its handler and returns.  When a pending signal has
    a user handler and none is running, delivery makes the task return into the
    handler with the signal number as first argument and the restorer as return
    address, every register the calling convention preserves unchanged; and
    whatever the handler does to the registers, [sigreturn] restores the
    interrupted trap frame and its result register, leaving no handler active
    (with [SA_SIGINFO], provided the stack pointer is back and the saved
    program counter untouched). *)
Theorem signal_delivery_roundtrip um h m tf n set um' m' tf' :
  get_one_signal (signal_set m) = Some (n, set) →
  last_trap_frame_for_signal m = None → catches (get_action h n) → is_u64 (sepc tf) →
  deliver SIGNAL_TRAMPOLINE um h m tf = (SigReturn, um', m', tf') →
  sepc tf' = sa_handler (get_action h n) ∧ regs tf' a0 = n ∧
  regs tf' ra = default SIGNAL_TRAMPOLINE (get_storer (get_action h n)) ∧
  (∀ r, r ∉ [ra; sp; a0; a1; a2] → regs tf' r = regs tf r) ∧
  ∀ um2 tf2,
    (sa_siginfo (get_action h n) = true →
     get_sp tf2 = get_sp tf' ∧ ucontext_pc um2 (get_sp tf') = ucontext_pc um' (get_sp tf')) →
    ∃ m2, signal_return um2 m' tf2 = (to_i64 (get_ret_code tf), m2, tf) ∧
          last_trap_frame_for_signal m2 = None.
Proof.
  intros Hg Hl Hc Hpc Hd. rewrite (deliver_catch um h m tf n set) in Hd by done.
  destruct (enter_handler _ _ _ _ _ _ _) as [[[um1 m1] tf1]|] eqn:E; [|done].
  injection Hd as <- <- <-.
  destruct (enter_handler_spec _ _ _ _ _ _ _ _ _ Hpc E eq_refl)
    as (Hl' & Hs & Hp & Hn & Hra & Hregs & Hu).
  split_and!; [done..|]. intros um2 tf2 Hcond. simpl in Hl'.
  unfold signal_return, load_trap_for_signal. rewrite Hl', Hs.
  destruct (sa_siginfo (get_action h n)) eqn:Esi.
  - destruct Hcond as [Hsp Hpc2]; [done|]. rewrite Hsp, Hpc2, Hu by done.
    change (sepc tf) with (get_pc tf). rewrite set_pc_same. by eexists.
  - by eexists.
Qed.

Lemma align16_bounds x : align16 x ≤ x < align16 x + 16 ∧ align16 x mod 16 = 0.
Proof. unfold align16. mlia. Qed.

(** C11: the stack frame of an [SA_SIGINFO] handler is in bounds, when it is built on
    the interrupted stack ([SA_ONSTACK] not used) and there is room for it below the
    stack pointer: it lies below the 512 bytes the interrupted code may still use, the
    stack pointer is 16-byte aligned and is the third argument, the context lies above
    it, the signal information (second argument) above the context, without overlap.
    A handler without [SA_SIGINFO] gets no such frame. *)
Theorem signal_frame_bounds um m action n mask tf um' m' tf' :
  enter_handler SIGNAL_TRAMPOLINE um m action n mask tf = Some (um', m', tf') →
  sa_onstack action = false → sa_siginfo action = true →
  is_u64 (get_sp tf) →
  USER_SIGNAL_PROTECT + siginfo_size + ucontext_size + 32 ≤ get_sp tf →
  get_sp tf' = regs tf' a2 ∧ get_sp tf' mod 16 = 0 ∧ 0 ≤ get_sp tf' ∧
  regs tf' a2 + ucontext_size ≤ regs tf' a1 ∧
  regs tf' a1 + siginfo_size ≤ get_sp tf - USER_SIGNAL_PROTECT.
Proof.
  intros E Ho Hs Hsp Hroom. unfold enter_handler in E. rewrite Ho, Hs in E. simpl in E.
  destruct (manual_alloc_range_for_lazy_ok _ _ _); [|done]. injection E as <- <- <-.
  pose proof siginfo_size_pos. pose proof ucontext_size_pos.
  unfold get_sp, set_user_sp, set_arg2, set_arg1, set_arg0, set_pc, set_ra, set_reg in *.
  simpl. unfold USER_SIGNAL_PROTECT in *. unfold is_u64 in Hsp.
  rewrite !(wrap64_small (regs tf sp - 512)) by (unfold is_u64; lia).
  rewrite !(wrap64_small (regs tf sp - 512 - siginfo_size)) by (unfold is_u64; lia).
  set (x := regs tf sp - 512 - siginfo_size) in *.
  pose proof (align16_bounds x) as [? _].
  rewrite !(wrap64_small (align16 x - ucontext_size)) by (unfold is_u64; lia).
  pose proof (align16_bounds (align16 x - ucontext_size)) as [? ?].
  repeat split; [done|lia..].
Qed.

(** A signal that arrives while a handler runs is taken out of the set and
    dropped: no trace of it is left. *)
Lemma nested_signal_lost um h m tf n set saved :
  get_one_signal (signal_set m) = Some (n, set) →
  last_trap_frame_for_signal m = Some saved → signo_from n ≠ SIGSEGV → signo_from n ≠ SIGBUS →
  deliver SIGNAL_TRAMPOLINE um h m tf = (SigReturn, um, with_set set m, tf).
Proof.
  intros Hg Hl H1 H2. unfold deliver. rewrite Hg. simpl. rewrite Hl.
  by rewrite decide_False by naive_solver.
Qed.

(** An ignored signal leaves its trap frame saved, as if a handler were running:
    from then on caught signals are dropped too. *)
Lemma ignored_signal_blocks_later um h m tf n set :
  get_one_signal (signal_set m) = Some (n, set) → last_trap_frame_for_signal m = None →
  sa_handler (get_action h n) = SIG_IGN →
  ∃ m', deliver SIGNAL_TRAMPOLINE um h m tf = (SigReturn, um, m', tf) ∧
    ∀ h' s info tf2 n2 set2,
      get_one_signal (signal_set (add_signal s info m')) = Some (n2, set2) →
      signo_from n2 ≠ SIGSEGV → signo_from n2 ≠ SIGBUS →
      ∃ m2, deliver SIGNAL_TRAMPOLINE um h' (add_signal s info m') tf2 = (SigReturn, um, m2, tf2).
Proof.
  intros Hg Hl Hi. unfold deliver at 1. rewrite Hg. simpl. rewrite Hl, Hi.
  rewrite decide_False by done. rewrite decide_True by done. eexists. split; [done|].
  intros h' s info tf2 n2 set2 Hg2 H1 H2. eexists.
  by apply (nested_signal_lost _ _ _ _ n2 set2 tf).
Qed.
End delivery.

(** ** A reference instance of the crate *)

Module RefSignal.
(** Pending signals in order of arrival with the mask; actions by number. *)
Record sset := mk_sset { pend : list Z; smask : Z }.
Record saction := mk_saction { act_handler : Z; act_flags : Z; act_restorer : Z }.

Definition unmasked (s : sset) (n : Z) : bool := negb (Z.testbit (smask s) (n - 1)).
Definition SA_SIGINFO : Z := 4.
Definition SA_RESTORER : Z := 0x04000000.
Definition SA_ONSTACK : Z := 0x08000000.
Definition SA_RESTART : Z := 0x10000000.
Definition has (f g : Z) : bool := bool_decide (Z.land f g ≠ 0).

#[export] Instance ref_signal : AxSignal sset (gmap Z saction) saction Z := {
  sigset_new := mk_sset [] 0;
  sigset_mask := smask;
  set_sigset_mask m s := mk_sset (pend s) m;
  find_signal s := List.find (unmasked s) (pend s);
  get_one_signal s :=
    n ← List.find (unmasked s) (pend s);
    Some (n, mk_sset (filter (λ x, x ≠ n) (pend s)) (smask s));
  try_add_signal n _ s := if decide (n ∈ pend s) then s else mk_sset (pend s ++ [n]) (smask s);
  sigset_info _ _ := None;
  handler_new := ∅;
  get_action h n := default (mk_saction 0 0 0) (h !! n);
  set_action h n a := <[n := a]> h;
  sa_handler := act_handler;
  sa_onstack a := has (act_flags a) SA_ONSTACK;
  sa_siginfo a := has (act_flags a) SA_SIGINFO;
  get_storer a := if has (act_flags a) SA_RESTORER then Some (act_restorer a) else None;
  need_restart a := has (act_flags a) SA_RESTART;
  default_action n :=
    if decide (n = 17 ∨ n = 23 ∨ n = 28) then DIgnore
    else if decide (n = 18) then DCont
    else if decide (n = 19 ∨ n = 20 ∨ n = 21 ∨ n = 22) then DStop else DTerminate;
  signo_from n := n;
  siginfo_default n := n;
  siginfo_size := 128;
  ucontext_size := 960;
  store_siginfo um a i := store_le um a 4 i;
  store_ucontext um a pc mask := store_le (store_le um (a + 40) 8 mask) (a + 176) 8 pc;
  ucontext_pc um a := load_le um (a + 176) 8;
  load_sigaction um a :=
    mk_saction (load_le um a 8) (load_le um (a + 8) 8) (load_le um (a + 16) 8);
  store_sigaction um a s :=
    store_le (store_le (store_le um a 8 (act_handler s)) (a + 8) 8 (act_flags s)) (a + 16) 8
      (act_restorer s);
  stack_default := mk_sigstack 0 2 0;
  load_sigstack um a := mk_sigstack (load_le um a 8) (load_le um (a + 8) 4) (load_le um (a + 16) 8);
  store_sigstack um a s :=
    store_le (store_le (store_le um a 8 (ss_sp s)) (a + 8) 4 (ss_flags s)) (a + 16) 8 (ss_size s);
  sigstack_size := 24;
}.

#[export] Instance ref_signal_laws : AxSignalLaws sset (gmap Z saction) saction Z.
Proof.
  split.
  - intros um a pc mask Hpc. by apply load_store_u64.
  - done.
  - done.
Qed.
End RefSignal.

Section demo.
Import RefSignal.

(** SIGUSR1 (10) pending, caught with [SA_SIGINFO] by the function at 0x5000; the
    task was interrupted at 0x1234 with its stack in the page at 0x8000. *)
Definition demo_sig_mod : SignalModule sset :=
  mk_sigmod false None 0 (mk_sset [10] 0) None (mk_sigstack 0 2 0).
Definition demo_handlers : gmap Z saction := {[ 10 := mk_saction 0x5000 4 0 ]}.
Definition demo_tf : TrapFrame := set_ret_code 77 (set_user_sp 0x8f00 (set_sepc 0x1234 tf_default)).
Definition demo_sig_um : usermem := mk_usermem {[ 0x8000 ]} ∅.
Definition demo_delivery := deliver 0x3000 demo_sig_um demo_handlers demo_sig_mod demo_tf.

Lemma signal_delivery_roundtrip_witness :
  let '(r, um', m', tf') := demo_delivery in
  r = SigReturn ∧ sepc tf' = 0x5000 ∧
  ∃ m2, signal_return um' m' (set_user_sp (get_sp tf') tf_default) = (77, m2, demo_tf).
Proof.
  destruct demo_delivery as [[[r um'] m'] tf'] eqn:E. unfold demo_delivery in E.
  assert (r = SigReturn) as -> by (apply (f_equal (λ x, x.1.1.1)) in E; vm_compute in E; congruence).
  pose proof (signal_delivery_roundtrip 0x3000 demo_sig_um demo_handlers demo_sig_mod demo_tf
    10 (mk_sset [] 0) um' m' tf') as HT.
  destruct HT as (Hpc & _ & _ & _ & Hret); [vm_compute; reflexivity|reflexivity
    |split; vm_compute; discriminate|vm_compute; intuition discriminate|exact E|].
  split; [reflexivity|]. split; [exact Hpc|].
  destruct (Hret um' (set_user_sp (get_sp tf') tf_default)) as (m2 & Hm2 & _).
  { intros _. split; reflexivity. }
  exists m2. exact Hm2.
Defined.

Lemma signal_frame_bounds_witness :
  ∃ um' m' tf', enter_handler 0x3000 demo_sig_um demo_sig_mod (mk_saction 0x5000 4 0) 10 0 demo_tf
    = Some (um', m', tf') ∧ get_sp tf' mod 16 = 0 ∧ regs tf' a1 + 128 ≤ 0x8f00 - 512.
Proof.
  destruct (enter_handler 0x3000 demo_sig_um demo_sig_mod (mk_saction 0x5000 4 0) 10 0 demo_tf)
    as [[[um' m'] tf']|] eqn:E; [|vm_compute in E; discriminate E].
  exists um', m', tf'. split; [reflexivity|].
  destruct (signal_frame_bounds 0x3000 demo_sig_um demo_sig_mod (mk_saction 0x5000 4 0) 10 0
    demo_tf um' m' tf' E) as (_ & Ha & _ & _ & Hb);
    [reflexivity|reflexivity|vm_compute; intuition discriminate|vm_compute; intuition discriminate|].
  split; [exact Ha|exact Hb].
Defined.
End demo.
