(* ===== verification/FdManager.v ===== *)
(** * File descriptor tables

    Models [modules/executor/src/fd_manager.rs], [Executor::alloc_fd] of
    [modules/executor/src/executor.rs] and [OpenFlags] of
    [modules/async_fs/src/api/port.rs].

    A table is a vector of optional references to open files; a reference is the
    identity of the shared file object, whose status flags live in the object. *)

From S2P Require Import Prelude.

Open Scope Z_scope.

(** ** [OpenFlags] *)

Definition RDONLY : Z := 0.
Definition WRONLY : Z := Z.shiftl 1 0.
Definition RDWR : Z := Z.shiftl 1 1.
Definition CREATE : Z := Z.shiftl 1 6.
Definition EXCLUSIVE : Z := Z.shiftl 1 7.
Definition NOCTTY : Z := Z.shiftl 1 8.
Definition TRUNC : Z := Z.shiftl 1 9.
Definition NON_BLOCK : Z := Z.shiftl 1 11.
Definition TEXT : Z := Z.shiftl 1 14.
Definition BINARY : Z := Z.shiftl 1 15.
Definition DSYNC : Z := Z.shiftl 1 16.
Definition NOFOLLOW : Z := Z.shiftl 1 17.
Definition CLOEXEC : Z := Z.shiftl 1 19.
Definition DIR : Z := Z.shiftl 1 21.

Definition OpenFlags_all : Z :=
  foldr Z.lor 0 [WRONLY; RDWR; CREATE; EXCLUSIVE; NOCTTY; TRUNC; NON_BLOCK; TEXT; BINARY;
                 DSYNC; NOFOLLOW; CLOEXEC; DIR].

Definition of_contains (f g : Z) : bool := bool_decide (Z.land f g = g).

(** [From<usize> for OpenFlags]. *)
Definition open_flags_from (val : Z) : Z := Z.land (wrap32 val) OpenFlags_all.

Definition read_write (f : Z) : bool * bool :=
  if decide (f = 0) then (true, false)
  else if of_contains f WRONLY then (false, true) else (true, true).
Definition readable (f : Z) : bool := negb (of_contains f WRONLY).
Definition writable (f : Z) : bool := of_contains f WRONLY || of_contains f RDWR.
Definition creatable (f : Z) : bool := of_contains f CREATE.
Definition new_creatable (f : Z) : bool := of_contains f EXCLUSIVE.
Definition flags_is_dir (f : Z) : bool := of_contains f DIR.
Definition is_close_on_exec (f : Z) : bool := of_contains f CLOEXEC.

(** ** The table *)

Notation fdtable := (list (option Z)).

(** [FdManager]: the table, mask and working directory are shared objects. *)
Record FdManager := mk_fdm { fd_table : Z; limit : Z; umask : Z; cwd : Z }.

Definition FD_LIMIT_ORIGIN : Z := 1025.

Definition fdm_new (table cwd_src mask_src lim : Z) : FdManager :=
  mk_fdm table lim mask_src cwd_src.
Definition get_limit (f : FdManager) : Z := limit f.
Definition set_limit (l : Z) (f : FdManager) : FdManager :=
  mk_fdm (fd_table f) l (umask f) (cwd f).

(** [set_mask] on the mask object: the new value and the old one. *)
Definition set_mask (new old : Z) : Z * Z := (new, old).

(** [Executor::alloc_fd]: the first empty slot, or a new one at the end. *)
Fixpoint first_none (i : Z) (t : fdtable) : option Z :=
  match t with
  | [] => None
  | None :: _ => Some i
  | Some _ :: t => first_none (i + 1) t
  end.

Definition alloc_fd (lim : Z) (t : fdtable) : outcome (Z * fdtable) :=
  match first_none 0 t with
  | Some i => Ok (i, t)
  | None =>
      if decide (lim ≤ Z.of_nat (length t)) then Err StorageFull
      else Ok (Z.of_nat (length (t ++ [None])) - 1, t ++ [None])
  end.

(** [close_on_exec]: the loop over the slots, then standard input and output are
    opened again if they are empty ([stdin] and [stdout] are the new objects). *)
Definition close_slots (status : Z → Z) (t : fdtable) : fdtable :=
  (λ fd, match fd with
         | Some f => if is_close_on_exec (status f) then None else Some f
         | None => None
         end) <$> t.

Definition reopen (i : nat) (obj : Z) (t : fdtable) : outcome fdtable :=
  match t !! i with
  | None => Panic
  | Some None => Ok (<[i := Some obj]> t)
  | Some (Some _) => Ok t
  end.

Definition close_on_exec (status : Z → Z) (stdin stdout : Z) (t : fdtable) : outcome fdtable :=
  t ← reopen 0 stdin (close_slots status t);
  reopen 1 stdout t.

(** ** Properties *)

Lemma first_none_spec i t :
  match first_none i t with
  | Some j => i ≤ j ∧ t !! Z.to_nat (j - i) = Some None ∧
              ∀ k, (k < Z.to_nat (j - i))%nat → ∃ f, t !! k = Some (Some f)
  | None => ∀ k x, t !! k = Some x → is_Some x
  end.
Proof.
  revert i. induction t as [|[f|] t IH]; intros i; simpl; [by intros k x Hk|..].
  - specialize (IH (i + 1)). destruct (first_none (i + 1) t) as [j|].
    + destruct IH as (Hij & Hj & Hk). split; [lia|].
      replace (Z.to_nat (j - i)) with (S (Z.to_nat (j - (i + 1)))) by lia.
      split; [done|]. intros [|k] Hlt; [by exists f|]. apply (Hk k). lia.
    + intros [|k] x; simpl; [intros [= <-]; eauto|]. apply IH.
  - rewrite Z.sub_diag. split; [lia|]. split; [done|]. intros k Hk. simpl in Hk. lia.
Qed.

(** [alloc_fd] hands out the lowest free descriptor.  It returns an empty slot
    below which every slot is taken, growing the table by at most that slot and
    leaving the open files in place; it fails exactly when the table is full: as
    long as the limit, with no empty slot. *)
Theorem alloc_fd_lowest lim t :
  match alloc_fd lim t with
  | Ok (fd, t') =>
      0 ≤ fd ∧ t' !! Z.to_nat fd = Some None ∧
      (∀ k, (k < Z.to_nat fd)%nat → ∃ f, t' !! k = Some (Some f)) ∧
      (t' = t ∨ t' = t ++ [None] ∧ fd = Z.of_nat (length t) ∧ Z.of_nat (length t') ≤ lim)
  | Err e => e = StorageFull ∧ lim ≤ Z.of_nat (length t) ∧ Forall is_Some t
  | Panic => False
  end.
Proof.
  unfold alloc_fd. pose proof (first_none_spec 0 t) as Hf.
  destruct (first_none 0 t) as [j|].
  - rewrite Z.sub_0_r in Hf. destruct Hf as (? & ? & ?). eauto 10.
  - case_decide as Hl.
    + split; [done|]. split; [done|]. apply Forall_lookup. intros k x. apply Hf.
    + rewrite length_app. simpl. replace (Z.of_nat (length t + 1) - 1) with (Z.of_nat (length t)) by lia.
      split; [lia|]. rewrite Nat2Z.id. split; [by rewrite lookup_app_r, Nat.sub_diag by lia|].
      split; [|right; split; [done|split; [done|lia]]].
      intros k Hk. destruct (lookup_lt_is_Some_2 t k Hk) as [x Hx].
      destruct (Hf k x Hx) as [f ->]. exists f. by apply lookup_app_l_Some.
Qed.

Lemma close_slots_lookup status t i :
  close_slots status t !! i =
    (λ fd, match fd with
           | Some f => if is_close_on_exec (status f) then None else Some f
           | None => None
           end) <$> t !! i.
Proof. apply list_lookup_fmap. Qed.

Lemma reopen_spec i obj t t' :
  reopen i obj t = Ok t' →
  length t' = length t ∧ (∀ j, j ≠ i → t' !! j = t !! j) ∧
  t' !! i = Some (Some (default obj (mjoin (t !! i)))).
Proof.
  unfold reopen. destruct (t !! i) as [[f|]|] eqn:E; [|intros [= <-]|done].
  - intros [= <-]. split; [done|]. split; [done|]. by rewrite E.
  - split; [by rewrite length_insert|]. split; [by intros j Hj; rewrite list_lookup_insert_ne|].
    rewrite list_lookup_insert_eq by (by eapply lookup_lt_Some). done.
Qed.

(** [exec] keeps exactly the descriptors that are not marked close-on-exec.
    The table keeps its length; a descriptor above 1 is kept when it was open and
    not marked, and closed otherwise; descriptors 0 and 1 are kept under the
    same condition and otherwise refer to the new standard streams.  The code
    panics exactly on a table with fewer than two slots. *)
Theorem close_on_exec_spec status stdin stdout t :
  if decide (2 ≤ length t)%nat then
    ∃ t', close_on_exec status stdin stdout t = Ok t' ∧ length t' = length t ∧
      ∀ i fd, t !! i = Some fd →
        let kept := f ← fd; if is_close_on_exec (status f) then None else Some f in
        t' !! i = Some (match i with
                        | 0 => Some (default stdin kept)
                        | 1 => Some (default stdout kept)
                        | _ => kept
                        end)%nat
  else close_on_exec status stdin stdout t = Panic.
Proof.
  unfold close_on_exec.
  destruct t as [|x0 [|x1 t]]; simpl; [done|by destruct x0 as [f|]; simpl; [destruct (is_close_on_exec _)|]|].
  assert (Hr : ∀ i obj (u : fdtable), (i < length u)%nat → ∃ u', reopen i obj u = Ok u').
  { intros i obj u Hi. unfold reopen. destruct (lookup_lt_is_Some_2 u i Hi) as [[f|] ->]; eauto. }
  set (u := _ :: _). change u with (close_slots status (x0 :: x1 :: t)).
  destruct (Hr 0%nat stdin (close_slots status (x0 :: x1 :: t))) as [u1 E1]; [simpl; lia|].
  destruct (reopen_spec _ _ _ _ E1) as (Hl1 & Hn1 & Hi1).
  destruct (Hr 1%nat stdout u1) as [u2 E2]; [rewrite Hl1; simpl; lia|].
  destruct (reopen_spec _ _ _ _ E2) as (Hl2 & Hn2 & Hi2).
  exists u2. rewrite E1. simpl. split; [done|]. split.
  { rewrite Hl2, Hl1. unfold close_slots. by rewrite length_fmap. }
  intros i fd Hi. pose proof (close_slots_lookup status (x0 :: x1 :: t) i) as Hc.
  rewrite Hi in Hc. destruct i as [|[|i]].
  - rewrite Hn2, Hi1, Hc by done. by destruct fd.
  - rewrite Hi2, Hn1, Hc by done. by destruct fd.
  - rewrite Hn2, Hn1, Hc by done. by destruct fd.
Qed.

Lemma close_on_exec_spec_example :
  close_on_exec (λ f, if decide (f = 7) then CLOEXEC else 0) 100 101 [Some 7; Some 8; Some 7; None; Some 9]
  = Ok [Some 100; Some 8; None; None; Some 9].
Proof. vm_compute. reflexivity. Qed.

(** [read_write] takes any set flag other than [WRONLY] for write permission: a
    file opened read-only with close-on-exec is reported writable. *)
Lemma read_only_reported_writable :
  read_write (Z.lor RDONLY CLOEXEC) = (true, true) ∧ writable (Z.lor RDONLY CLOEXEC) = false.
Proof. vm_compute. done. Qed.
