(* ===== verification/Process.v ===== *)
(** * Processes: clone, exec, exit and wait

    Models [modules/executor/src/executor.rs] (the [Executor] and its clone and
    exec), [modules/executor/src/api.rs] (exit and wait), the senders of
    [modules/executor/src/signal.rs], and [CloneFlags] and [WaitStatus] of
    [modules/executor/src/flags.rs].

    The address-space operations, the loader and user memory are the class
    [ProcMem]; the [axsignal] crate is the class of the file on signals.  The
    operations run in a monad over the [world] that keeps the state reached when
    a call fails or panics half way.  A step of the theorems is the code between
    two points where the task may be suspended: [exit] is three pieces (up to
    the loop that waits for the other threads, one turn of that loop, the
    rest), and [clone] with [CLONE_VFORK] ends where it starts to wait.  Locks
    are not contended within a piece. *)

From S2P Require Import Prelude Memory UserMem Path Vfs RootFs TaskRun Futex TimeStat Signal FdManager.

Open Scope Z_scope.

(** ** Flags (flags.rs) *)

Definition CLONE_NEWTIME : Z := Z.shiftl 1 7.
Definition CLONE_VM : Z := Z.shiftl 1 8.
Definition CLONE_FS : Z := Z.shiftl 1 9.
Definition CLONE_FILES : Z := Z.shiftl 1 10.
Definition CLONE_SIGHAND : Z := Z.shiftl 1 11.
Definition CLONE_PIDFD : Z := Z.shiftl 1 12.
Definition CLONE_PTRACE : Z := Z.shiftl 1 13.
Definition CLONE_VFORK : Z := Z.shiftl 1 14.
Definition CLONE_PARENT : Z := Z.shiftl 1 15.
Definition CLONE_THREAD : Z := Z.shiftl 1 16.
Definition CLONE_NEWNS : Z := Z.shiftl 1 17.
Definition CLONE_SYSVSEM : Z := Z.shiftl 1 18.
Definition CLONE_SETTLS : Z := Z.shiftl 1 19.
Definition CLONE_PARENT_SETTID : Z := Z.shiftl 1 20.
Definition CLONE_CHILD_CLEARTID : Z := Z.shiftl 1 21.
Definition CLONE_DETACHED : Z := Z.shiftl 1 22.
Definition CLONE_UNTRACED : Z := Z.shiftl 1 23.
Definition CLONE_CHILD_SETTID : Z := Z.shiftl 1 24.
Definition CLONE_NEWPID : Z := Z.shiftl 1 29.

Definition CloneFlags_all : Z :=
  foldr Z.lor 0
    [CLONE_NEWTIME; CLONE_VM; CLONE_FS; CLONE_FILES; CLONE_SIGHAND; CLONE_PIDFD; CLONE_PTRACE;
     CLONE_VFORK; CLONE_PARENT; CLONE_THREAD; CLONE_NEWNS; CLONE_SYSVSEM; CLONE_SETTLS;
     CLONE_PARENT_SETTID; CLONE_CHILD_CLEARTID; CLONE_DETACHED; CLONE_UNTRACED;
     CLONE_CHILD_SETTID; CLONE_NEWPID].

(** [CloneFlags::from_bits((flags & !0x3f) as u32)]: [None] for an unknown bit. *)
Definition clone_flags_of (flags : Z) : option Z :=
  let b := wrap32 (Z.land flags (Z.lnot 0x3f)) in
  if decide (Z.land b CloneFlags_all = b) then Some b else None.

Definition has_flag (f g : Z) : bool := bool_decide (Z.land f g = g).

Inductive WaitStatus := WExited | WRunning | WNotExist.

#[export] Instance WaitStatus_eq_dec : EqDecision WaitStatus.
Proof. solve_decision. Defined.

(** ** The address spaces, as processes use them *)

Class ProcMem (M : Type) := {
  mem_new : M;                                     (** [MemorySet::new_memory_set] *)
  mem_token : M → Z;                               (** [page_table_token] *)
  mem_clone : M → outcome M * M;                   (** [clone_or_err] on [&mut self] *)
  mem_map_trampoline : M → outcome unit * M;       (** [map_page_without_alloc] *)
  mem_query : Z → M → bool;                        (** [query(..).is_ok()] *)
  mem_alloc : Z → M → bool * M;                    (** [manual_alloc_for_lazy(..).is_ok()] *)
  mem_store_i32 : Z → Z → M → M;                   (** a store through the page table *)
  mem_unmap_user : M → M;                          (** [unmap_user_areas] *)
  mem_view : M → usermem;                          (** the bytes user code sees *)
  load_app : str → list str → list str → M → option (Z * Z * Z) * M;  (** the loader *)
}.

(** Calls to other components. *)
Inductive peffect :=
  | AddTask (tid : Z)           (** [scheduler.add_task] *)
  | WakeTask (tid : Z)          (** [taskctx::wakeup_task] *)
  | FutexWake (pid vaddr : Z).  (** [futex_wake(vaddr, 0, 1)] *)

Section process.
Context {SS SH SA SI M : Type} `{AxSignal SS SH SA SI} `{ProcMem M}.
(** [axconfig::TASK_STACK_SIZE], [axconfig::SIGNAL_TRAMPOLINE], and the [sstatus]
    register a new context starts from. *)
Context (TASK_STACK_SIZE SIGNAL_TRAMPOLINE STATUS : Z).

(** [Executor]: a process.  [children] holds references to executors, named by
    their pids; the descriptor table, working directory, mask, address space and
    signal handlers are shared objects, named by their identities. *)
Record Executor := mk_exec {
  pid : Z;
  parent : Z;
  children : list Z;
  fd_manager : FdManager;
  is_zombie : bool;
  exit_code : Z;
  memory_set : Z;
  heap_bottom : Z;
  heap_top : Z;
  blocked_by_vfork : bool;
  file_path : str;
  signal_modules : gmap Z (SignalModule SS);
  stack_size : Z;
  main_task : option Z;
  etasks : list Z;
  robust_list : gmap Z FutexRobustList;
}.

Definition set_parent (v : Z) (x : Executor) : Executor :=
  mk_exec (pid x) v (children x) (fd_manager x) (is_zombie x) (exit_code x) (memory_set x)
    (heap_bottom x) (heap_top x) (blocked_by_vfork x) (file_path x) (signal_modules x)
    (stack_size x) (main_task x) (etasks x) (robust_list x).
Definition set_children (v : list Z) (x : Executor) : Executor :=
  mk_exec (pid x) (parent x) v (fd_manager x) (is_zombie x) (exit_code x) (memory_set x)
    (heap_bottom x) (heap_top x) (blocked_by_vfork x) (file_path x) (signal_modules x)
    (stack_size x) (main_task x) (etasks x) (robust_list x).
Definition set_fd_manager (v : FdManager) (x : Executor) : Executor :=
  mk_exec (pid x) (parent x) (children x) v (is_zombie x) (exit_code x) (memory_set x)
    (heap_bottom x) (heap_top x) (blocked_by_vfork x) (file_path x) (signal_modules x)
    (stack_size x) (main_task x) (etasks x) (robust_list x).
Definition set_is_zombie (v : bool) (x : Executor) : Executor :=
  mk_exec (pid x) (parent x) (children x) (fd_manager x) v (exit_code x) (memory_set x)
    (heap_bottom x) (heap_top x) (blocked_by_vfork x) (file_path x) (signal_modules x)
    (stack_size x) (main_task x) (etasks x) (robust_list x).
Definition set_exit_code (v : Z) (x : Executor) : Executor :=
  mk_exec (pid x) (parent x) (children x) (fd_manager x) (is_zombie x) v (memory_set x)
    (heap_bottom x) (heap_top x) (blocked_by_vfork x) (file_path x) (signal_modules x)
    (stack_size x) (main_task x) (etasks x) (robust_list x).
Definition set_memory_set (v : Z) (x : Executor) : Executor :=
  mk_exec (pid x) (parent x) (children x) (fd_manager x) (is_zombie x) (exit_code x) v
    (heap_bottom x) (heap_top x) (blocked_by_vfork x) (file_path x) (signal_modules x)
    (stack_size x) (main_task x) (etasks x) (robust_list x).
Definition set_heap_bottom (v : Z) (x : Executor) : Executor :=
  mk_exec (pid x) (parent x) (children x) (fd_manager x) (is_zombie x) (exit_code x)
    (memory_set x) v (heap_top x) (blocked_by_vfork x) (file_path x) (signal_modules x)
    (stack_size x) (main_task x) (etasks x) (robust_list x).
Definition set_heap_top (v : Z) (x : Executor) : Executor :=
  mk_exec (pid x) (parent x) (children x) (fd_manager x) (is_zombie x) (exit_code x)
    (memory_set x) (heap_bottom x) v (blocked_by_vfork x) (file_path x) (signal_modules x)
    (stack_size x) (main_task x) (etasks x) (robust_list x).
Definition set_blocked_by_vfork (v : bool) (x : Executor) : Executor :=
  mk_exec (pid x) (parent x) (children x) (fd_manager x) (is_zombie x) (exit_code x)
    (memory_set x) (heap_bottom x) (heap_top x) v (file_path x) (signal_modules x)
    (stack_size x) (main_task x) (etasks x) (robust_list x).
Definition set_file_path (v : str) (x : Executor) : Executor :=
  mk_exec (pid x) (parent x) (children x) (fd_manager x) (is_zombie x) (exit_code x)
    (memory_set x) (heap_bottom x) (heap_top x) (blocked_by_vfork x) v (signal_modules x)
    (stack_size x) (main_task x) (etasks x) (robust_list x).
Definition set_signal_modules (v : gmap Z (SignalModule SS)) (x : Executor) : Executor :=
  mk_exec (pid x) (parent x) (children x) (fd_manager x) (is_zombie x) (exit_code x)
    (memory_set x) (heap_bottom x) (heap_top x) (blocked_by_vfork x) (file_path x) v
    (stack_size x) (main_task x) (etasks x) (robust_list x).
Definition set_stack_size (v : Z) (x : Executor) : Executor :=
  mk_exec (pid x) (parent x) (children x) (fd_manager x) (is_zombie x) (exit_code x)
    (memory_set x) (heap_bottom x) (heap_top x) (blocked_by_vfork x) (file_path x)
    (signal_modules x) v (main_task x) (etasks x) (robust_list x).
Definition set_main_task (v : option Z) (x : Executor) : Executor :=
  mk_exec (pid x) (parent x) (children x) (fd_manager x) (is_zombie x) (exit_code x)
    (memory_set x) (heap_bottom x) (heap_top x) (blocked_by_vfork x) (file_path x)
    (signal_modules x) (stack_size x) v (etasks x) (robust_list x).
Definition set_etasks (v : list Z) (x : Executor) : Executor :=
  mk_exec (pid x) (parent x) (children x) (fd_manager x) (is_zombie x) (exit_code x)
    (memory_set x) (heap_bottom x) (heap_top x) (blocked_by_vfork x) (file_path x)
    (signal_modules x) (stack_size x) (main_task x) v (robust_list x).
Definition set_robust_list (v : gmap Z FutexRobustList) (x : Executor) : Executor :=
  mk_exec (pid x) (parent x) (children x) (fd_manager x) (is_zombie x) (exit_code x)
    (memory_set x) (heap_bottom x) (heap_top x) (blocked_by_vfork x) (file_path x)
    (signal_modules x) (stack_size x) (main_task x) (etasks x) v.

(** What processes use of a [TaskInner]. *)
Record Task := mk_task {
  process_id : Z;
  is_leader : bool;
  tstate : TaskState;
  texit_code : Z;
  child_tid : Z;
  clear_child_tid : Z;
  tname : str;
  page_table_token : Z;
  utrap_frame : option TrapFrame;
  ttime : TimeStat;
}.

Definition set_is_leader (v : bool) (x : Task) : Task :=
  mk_task (process_id x) v (tstate x) (texit_code x) (child_tid x) (clear_child_tid x) (tname x)
    (page_table_token x) (utrap_frame x) (ttime x).
Definition set_tstate (v : TaskState) (x : Task) : Task :=
  mk_task (process_id x) (is_leader x) v (texit_code x) (child_tid x) (clear_child_tid x)
    (tname x) (page_table_token x) (utrap_frame x) (ttime x).
Definition set_texit_code (v : Z) (x : Task) : Task :=
  mk_task (process_id x) (is_leader x) (tstate x) v (child_tid x) (clear_child_tid x) (tname x)
    (page_table_token x) (utrap_frame x) (ttime x).
Definition set_child_tid (v : Z) (x : Task) : Task :=
  mk_task (process_id x) (is_leader x) (tstate x) (texit_code x) v (clear_child_tid x) (tname x)
    (page_table_token x) (utrap_frame x) (ttime x).
Definition set_clear_child_tid (v : Z) (x : Task) : Task :=
  mk_task (process_id x) (is_leader x) (tstate x) (texit_code x) (child_tid x) v (tname x)
    (page_table_token x) (utrap_frame x) (ttime x).
Definition set_tname (v : str) (x : Task) : Task :=
  mk_task (process_id x) (is_leader x) (tstate x) (texit_code x) (child_tid x)
    (clear_child_tid x) v (page_table_token x) (utrap_frame x) (ttime x).
Definition set_page_table_token (v : Z) (x : Task) : Task :=
  mk_task (process_id x) (is_leader x) (tstate x) (texit_code x) (child_tid x)
    (clear_child_tid x) (tname x) v (utrap_frame x) (ttime x).
Definition set_utrap_frame (v : option TrapFrame) (x : Task) : Task :=
  mk_task (process_id x) (is_leader x) (tstate x) (texit_code x) (child_tid x)
    (clear_child_tid x) (tname x) (page_table_token x) v (ttime x).
Definition set_ttime (v : TimeStat) (x : Task) : Task :=
  mk_task (process_id x) (is_leader x) (tstate x) (texit_code x) (child_tid x)
    (clear_child_tid x) (tname x) (page_table_token x) (utrap_frame x) v.

(** The global tables, the objects behind the references, the counters that name
    new ones ([TaskId::new] and fresh allocations) and the calls made to the
    scheduler and the futexes. *)
Record world := mk_world {
  execs : gmap Z Executor;
  PID2PC : gset Z;
  tasks : gmap Z Task;
  TID2TASK : gset Z;
  fd_tables : gmap Z fdtable;
  fstatus : gmap Z Z;
  cwds : gmap Z (list Z);
  umasks : gmap Z Z;
  mems : gmap Z M;
  handlers : gmap Z SH;
  next_tid : Z;
  next_obj : Z;
  effects : list peffect;
}.

Definition set_execs (v : gmap Z Executor) (x : world) : world :=
  mk_world v (PID2PC x) (tasks x) (TID2TASK x) (fd_tables x) (fstatus x) (cwds x) (umasks x)
    (mems x) (handlers x) (next_tid x) (next_obj x) (effects x).
Definition set_PID2PC (v : gset Z) (x : world) : world :=
  mk_world (execs x) v (tasks x) (TID2TASK x) (fd_tables x) (fstatus x) (cwds x) (umasks x)
    (mems x) (handlers x) (next_tid x) (next_obj x) (effects x).
Definition set_tasks (v : gmap Z Task) (x : world) : world :=
  mk_world (execs x) (PID2PC x) v (TID2TASK x) (fd_tables x) (fstatus x) (cwds x) (umasks x)
    (mems x) (handlers x) (next_tid x) (next_obj x) (effects x).
Definition set_TID2TASK (v : gset Z) (x : world) : world :=
  mk_world (execs x) (PID2PC x) (tasks x) v (fd_tables x) (fstatus x) (cwds x) (umasks x)
    (mems x) (handlers x) (next_tid x) (next_obj x) (effects x).
Definition set_fd_tables (v : gmap Z fdtable) (x : world) : world :=
  mk_world (execs x) (PID2PC x) (tasks x) (TID2TASK x) v (fstatus x) (cwds x) (umasks x)
    (mems x) (handlers x) (next_tid x) (next_obj x) (effects x).
Definition set_fstatus (v : gmap Z Z) (x : world) : world :=
  mk_world (execs x) (PID2PC x) (tasks x) (TID2TASK x) (fd_tables x) v (cwds x) (umasks x)
    (mems x) (handlers x) (next_tid x) (next_obj x) (effects x).
Definition set_cwds (v : gmap Z (list Z)) (x : world) : world :=
  mk_world (execs x) (PID2PC x) (tasks x) (TID2TASK x) (fd_tables x) (fstatus x) v (umasks x)
    (mems x) (handlers x) (next_tid x) (next_obj x) (effects x).
Definition set_umasks (v : gmap Z Z) (x : world) : world :=
  mk_world (execs x) (PID2PC x) (tasks x) (TID2TASK x) (fd_tables x) (fstatus x) (cwds x) v
    (mems x) (handlers x) (next_tid x) (next_obj x) (effects x).
Definition set_mems (v : gmap Z M) (x : world) : world :=
  mk_world (execs x) (PID2PC x) (tasks x) (TID2TASK x) (fd_tables x) (fstatus x) (cwds x)
    (umasks x) v (handlers x) (next_tid x) (next_obj x) (effects x).
Definition set_handlers (v : gmap Z SH) (x : world) : world :=
  mk_world (execs x) (PID2PC x) (tasks x) (TID2TASK x) (fd_tables x) (fstatus x) (cwds x)
    (umasks x) (mems x) v (next_tid x) (next_obj x) (effects x).
Definition set_next_tid (v : Z) (x : world) : world :=
  mk_world (execs x) (PID2PC x) (tasks x) (TID2TASK x) (fd_tables x) (fstatus x) (cwds x)
    (umasks x) (mems x) (handlers x) v (next_obj x) (effects x).
Definition set_next_obj (v : Z) (x : world) : world :=
  mk_world (execs x) (PID2PC x) (tasks x) (TID2TASK x) (fd_tables x) (fstatus x) (cwds x)
    (umasks x) (mems x) (handlers x) (next_tid x) v (effects x).
Definition set_effects (v : list peffect) (x : world) : world :=
  mk_world (execs x) (PID2PC x) (tasks x) (TID2TASK x) (fd_tables x) (fstatus x) (cwds x)
    (umasks x) (mems x) (handlers x) (next_tid x) (next_obj x) v.

(** ** The monad *)

Definition P (A : Type) : Type := world → outcome A * world.
Definition pret {A} (a : A) : P A := λ w, (Ok a, w).
Definition pbind {A B} (x : P A) (f : A → P B) : P B := λ w,
  match x w with
  | (Ok a, w) => f a w
  | (Err e, w) => (Err e, w)
  | (Panic, w) => (Panic, w)
  end.
Notation "'let*' x ':=' e 'in' k" := (pbind e (λ x, k))
  (at level 200, x name, e at level 100, k at level 200).
Notation "e ;; k" := (pbind e (λ _, k)) (at level 100, k at level 200, right associativity).

Definition perr {A} (e : AxError) : P A := λ w, (Err e, w).
Definition ppanic {A} : P A := λ w, (Panic, w).
Definition modify (f : world → world) : P unit := λ w, (Ok (), f w).
Definition reads {A} (f : world → A) : P A := λ w, (Ok (f w), w).
(** [Option::unwrap]. *)
Definition punwrap {A} (o : option A) : P A :=
  match o with Some a => pret a | None => ppanic end.
Definition pwhen (b : bool) (x : P unit) : P unit := if b then x else pret ().

Definition upd_exec (p : Z) (f : Executor → Executor) : P unit :=
  modify (λ w, set_execs (alter f p (execs w)) w).
Definition upd_task (t : Z) (f : Task → Task) : P unit :=
  modify (λ w, set_tasks (alter f t (tasks w)) w).
Definition the_exec (p : Z) : P Executor := λ w, punwrap (execs w !! p) w.
Definition the_task (t : Z) : P Task := λ w, punwrap (tasks w !! t) w.
Definition effect (e : peffect) : P unit := modify (λ w, set_effects (effects w ++ [e]) w).

(** [TaskId::new]; the counter does not wrap in the life of the system. *)
Definition new_task_id : P Z := λ w, (Ok (next_tid w), set_next_tid (next_tid w + 1) w).
Definition new_obj : P Z := λ w, (Ok (next_obj w), set_next_obj (next_obj w + 1) w).

Definition new_mem (m : M) : P Z :=
  let* i := new_obj in modify (λ w, set_mems (<[i := m]> (mems w)) w) ;; pret i.
Definition new_handler (h : SH) : P Z :=
  let* i := new_obj in modify (λ w, set_handlers (<[i := h]> (handlers w)) w) ;; pret i.
Definition new_cwd (s : str) : P Z :=
  let* i := new_obj in modify (λ w, set_cwds (<[i := s]> (cwds w)) w) ;; pret i.
Definition new_umask (m : Z) : P Z :=
  let* i := new_obj in modify (λ w, set_umasks (<[i := m]> (umasks w)) w) ;; pret i.
Definition new_table (t : fdtable) : P Z :=
  let* i := new_obj in modify (λ w, set_fd_tables (<[i := t]> (fd_tables w)) w) ;; pret i.
(** A new file object with its status flags. *)
Definition new_file (status : Z) : P Z :=
  let* i := new_obj in modify (λ w, set_fstatus (<[i := status]> (fstatus w)) w) ;; pret i.

Definition the_mem (i : Z) : P M := λ w, punwrap (mems w !! i) w.
Definition put_mem (i : Z) (m : M) : P unit := modify (λ w, set_mems (<[i := m]> (mems w)) w).
(** [manual_alloc_for_lazy(addr).is_ok()] on a memory object. *)
Definition alloc_for_lazy (i addr : Z) : P bool :=
  let* m := the_mem i in
  let r := mem_alloc addr m in
  put_mem i r.2 ;; pret r.1.
Definition store_i32 (i addr v : Z) : P unit :=
  let* m := the_mem i in put_mem i (mem_store_i32 addr (as_i32 v) m).

(** ** Processes *)

(** [Executor::new]. *)
Definition executor_new (pid parent memory heap : Z) (table cwd_src mask : Z) : Executor :=
  mk_exec pid parent [] (fdm_new table cwd_src mask FD_LIMIT_ORIGIN) false 0 memory heap heap
    false [] ∅ TASK_STACK_SIZE None [] ∅.

(** The descriptor table of a new system: standard input, output and error. *)
Definition new_std_table : P Z :=
  let* i := new_file 0 in
  let* o := new_file 0 in
  let* e := new_file 0 in
  new_table [Some i; Some o; Some e].

Definition new_init : P unit :=
  let* table := new_std_table in
  let* mem := new_mem mem_new in
  let* cwd := new_cwd [SLASH] in
  let* mask := new_umask 18 in
  modify (λ w, set_execs (<[KERNEL_EXECUTOR_ID :=
    executor_new KERNEL_EXECUTOR_ID KERNEL_EXECUTOR_ID mem 0 table cwd mask]> (execs w)) w).

Definition get_code_if_exit (e : Executor) : option Z :=
  if is_zombie e then Some (exit_code e) else None.

Definition get_cwd (e : Executor) : P str :=
  λ w, punwrap (cwds w !! FdManager.cwd (fd_manager e)) w.
Definition set_cwd (e : Executor) (s : str) : P unit :=
  modify (λ w, set_cwds (<[FdManager.cwd (fd_manager e) := s]> (cwds w)) w).

(** [current_executor]: the process of the running task, through [PID2PC]. *)
Definition current_executor (cur : Z) : P Executor :=
  let* t := the_task cur in
  let* live := reads (λ w, bool_decide (process_id t ∈ PID2PC w)) in
  if live then the_exec (process_id t) else ppanic.

Definition insert_module (p t : Z) (m : SignalModule SS) : P unit :=
  upd_exec p (λ e, set_signal_modules (<[t := m]> (signal_modules e)) e).
Definition insert_robust (p t : Z) : P unit :=
  upd_exec p (λ e, set_robust_list (<[t := mk_robust 0 0]> (robust_list e)) e).

(** [TaskInner::new_user] and [TaskInner::new]. *)
Definition new_task_inner (name : str) (pid token : Z) (tf : option TrapFrame) : P Z :=
  let* t := new_task_id in
  modify (λ w, set_tasks (<[t := mk_task pid false Runable 0 0 0 name token tf timestat_new]> (tasks w)) w) ;;
  pret t.

(** The last component of a name, [split('/').last()]. *)
Definition last_component (name : str) : str := default [] (last (split_slash name)).

(** ** [init_user] *)

Definition init_user (args envs : list str) : P Z :=
  let* path := punwrap (args !! 0%nat) in
  let r := mem_map_trampoline mem_new in
  match r.1 with
  | Panic => ppanic
  | Err e => perr e
  | Ok _ =>
      let token := mem_token r.2 in
      let l := load_app path args envs r.2 in
      match l.1 with
      | None => perr NotFound
      | Some (entry, user_stack_bottom, heap_bottom) =>
          let* table := new_std_table in
          let* p := new_task_id in
          let* mem := new_mem l.2 in
          let* cwd := new_cwd [SLASH] in
          let* mask := new_umask 18 in
          modify (λ w, set_execs (<[p := executor_new p KERNEL_EXECUTOR_ID mem heap_bottom
            table cwd mask]> (execs w)) w) ;;
          let path := if starts_with_slash path then path else [SLASH] ++ path in
          upd_exec p (set_file_path path) ;;
          let* t := new_task_inner path p token
            (Some (init_user_context STATUS (mem_view l.2) entry user_stack_bottom)) in
          upd_exec p (λ e, set_etasks (etasks e ++ [t]) e) ;;
          effect (AddTask t) ;;
          modify (λ w, set_TID2TASK ({[t]} ∪ TID2TASK w) w) ;;
          upd_task t (set_is_leader true) ;;
          upd_exec p (set_main_task (Some t)) ;;
          let* h := new_handler handler_new in
          insert_module p t (init_signal h) ;;
          insert_robust p t ;;
          modify (λ w, set_PID2PC ({[p]} ∪ PID2PC w) w) ;;
          modify (λ w, set_PID2PC ({[KERNEL_EXECUTOR_ID]} ∪ PID2PC w) w) ;;
          upd_exec KERNEL_EXECUTOR_ID (λ e, set_children (children e ++ [p]) e) ;;
          pret t
      end
  end.

(** ** [clone_task] *)

(** The address space of the new task. *)
Definition clone_memory (cf : Z) (e : Executor) : P Z :=
  if has_flag cf CLONE_VM then pret (memory_set e)
  else
    let* m := the_mem (memory_set e) in
    let r := mem_clone m in
    put_mem (memory_set e) r.2 ;;
    match r.1 with
    | Panic => ppanic
    | Err err => perr err
    | Ok m' =>
        let r' := mem_map_trampoline m' in
        match r'.1 with
        | Panic => ppanic
        | Err err => perr err
        | Ok _ => new_mem r'.2
        end
    end.

(** The signal handlers of the new task: shared, or a copy. *)
Definition clone_handler (cf cur : Z) (e : Executor) : P Z :=
  let* m := punwrap (signal_modules e !! cur) in
  if has_flag cf CLONE_SIGHAND then pret (signal_handler m)
  else let* h := (λ w, punwrap (handlers w !! signal_handler m) w) in new_handler h.

(** Writing the new thread id where the caller asked for it. *)
Definition clone_settid (cf ptid ctid new_task self_mem new_mem_id : Z) : P unit :=
  let* ok := alloc_for_lazy self_mem ptid in
  pwhen (has_flag cf CLONE_PARENT_SETTID && ok) (store_i32 self_mem ptid new_task) ;;
  if has_flag cf CLONE_CHILD_SETTID || has_flag cf CLONE_CHILD_CLEARTID then
    pwhen (has_flag cf CLONE_CHILD_SETTID) (upd_task new_task (set_child_tid ctid)) ;;
    pwhen (has_flag cf CLONE_CHILD_CLEARTID) (upd_task new_task (set_clear_child_tid ctid)) ;;
    let v := if has_flag cf CLONE_CHILD_SETTID then new_task else 0 in
    if has_flag cf CLONE_VM then
      let* ok := alloc_for_lazy self_mem ctid in
      if ok then store_i32 self_mem ctid v else perr BadAddress
    else
      let* ok := alloc_for_lazy new_mem_id ctid in
      if ok then
        let* m := the_mem new_mem_id in
        if mem_query ctid m then store_i32 new_mem_id ctid v else perr BadAddress
      else perr BadAddress
  else pret ().

Definition clone_module (handler : Z) (exit_sig : option Z) : SignalModule SS :=
  let m := init_signal handler in
  match exit_sig with Some s => set_exit_signal s m | None => m end.

(** The new process of a clone without [CLONE_THREAD]. *)
Definition clone_process (cf process_id parent_id mem new_task handler : Z)
    (exit_sig : option Z) (e : Executor) : P Z :=
  let* cwd0 := new_cwd [SLASH] in
  let* mask0 := new_umask 18 in
  let fdm := fd_manager e in
  let cwd_src := if has_flag cf CLONE_FS then FdManager.cwd fdm else cwd0 in
  let mask_src := if has_flag cf CLONE_FS then umask fdm else mask0 in
  let* table :=
    (if has_flag cf CLONE_FILES then pret (fd_table fdm)
     else let* t := (λ w, punwrap (fd_tables w !! fd_table fdm) w) in new_table t) in
  let np := executor_new process_id parent_id mem (heap_bottom e) table cwd_src mask_src in
  modify (λ w, set_execs (<[process_id := np]> (execs w)) w) ;;
  let* s := get_cwd e in
  set_cwd np s ;;
  modify (λ w, set_PID2PC ({[process_id]} ∪ PID2PC w) w) ;;
  upd_task new_task (set_is_leader true) ;;
  upd_exec process_id (set_main_task (Some new_task)) ;;
  upd_exec process_id (λ e, set_etasks (etasks e ++ [new_task]) e) ;;
  insert_module process_id new_task (clone_module handler exit_sig) ;;
  insert_robust process_id new_task ;;
  let* live := reads (λ w, bool_decide (parent_id ∈ PID2PC w)) in
  if live
  then upd_exec parent_id (λ e, set_children (children e ++ [process_id]) e) ;; pret process_id
  else ppanic.

(** [clone_task] of process [self] by its task [cur]: the id returned, and whether
    the caller now waits for the child ([CLONE_VFORK]). *)
Definition clone_task (cur self flags : Z) (stack : option Z) (ptid tls ctid : Z)
    (exit_sig : option Z) : P (Z * bool) :=
  let* cf := punwrap (clone_flags_of flags) in
  let* e := the_exec self in
  let* mem := clone_memory cf e in
  let* process_id := (if has_flag cf CLONE_THREAD then pret (pid e) else new_task_id) in
  let parent_id := if has_flag cf CLONE_PARENT then parent e else pid e in
  let* m := the_mem mem in
  let* c := the_task cur in
  let* tf := punwrap (utrap_frame c) in
  let* t := new_task_inner (last_component (tname c)) process_id (mem_token m) (Some tf) in
  modify (λ w, set_TID2TASK ({[t]} ∪ TID2TASK w) w) ;;
  let* handler := clone_handler cf cur e in
  clone_settid cf ptid ctid t (memory_set e) mem ;;
  let* return_id :=
    (if has_flag cf CLONE_THREAD then
       upd_exec self (λ e, set_etasks (etasks e ++ [t]) e) ;;
       insert_module self t (clone_module handler exit_sig) ;;
       insert_robust self t ;;
       pret t
     else clone_process cf process_id parent_id mem t handler exit_sig e) in
  let tf := set_trap_status Done (set_ret_code 0 tf) in
  let tf := if has_flag cf CLONE_SETTLS then set_tls tls tf else tf in
  let tf := match stack with Some s => set_user_sp s tf | None => tf end in
  upd_task t (set_utrap_frame (Some tf)) ;;
  effect (AddTask t) ;;
  pwhen (has_flag cf CLONE_VFORK) (upd_exec self (set_blocked_by_vfork true)) ;;
  pret (return_id, has_flag cf CLONE_VFORK).

(** The loop a [CLONE_VFORK] caller polls. *)
Definition vfork_done (self : Z) : P bool :=
  let* e := the_exec self in pret (negb (blocked_by_vfork e)).

(** ** [exec] *)

(** The references to a memory object: one per executor that exists. *)
Definition strong_count (w : world) (mem : Z) : nat :=
  base.size (filter (λ pe, memory_set pe.2 = mem) (execs w)).

Definition exec_memory (self : Z) (e : Executor) : P unit :=
  let* n := reads (λ w, strong_count w (memory_set e)) in
  let* m := the_mem (memory_set e) in
  if decide (n = 1)%nat then put_mem (memory_set e) (mem_unmap_user m)
  else
    let r := mem_clone m in
    put_mem (memory_set e) r.2 ;;
    match r.1 with
    | Panic => ppanic
    | Err err => perr err
    | Ok m' =>
        (** [*self.memory_set.lock() = memory_set]: the shared object is overwritten *)
        put_mem (memory_set e) (mem_unmap_user m') ;;
        let token := mem_token (mem_unmap_user m') in
        modify (λ w, set_tasks (foldr (λ t ts, alter (set_page_table_token token) t ts)
          (tasks w) (etasks e)) w)
    end.

(** The loop over the tasks of the process: pop the last one, push it back if it
    is the current one, panic otherwise. *)
Fixpoint exec_tasks (n : nat) (cur : Z) (ts : list Z) : P (list Z) :=
  match n with
  | O => pret ts
  | S n =>
      match last ts with
      | None => ppanic
      | Some t =>
          if decide (t = cur) then exec_tasks n cur (take (length ts - 1) ts ++ [t])
          else modify (λ w, set_TID2TASK (TID2TASK w ∖ {[t]}) w) ;; ppanic
      end
  end.

Definition exec_close_files (e : Executor) : P unit :=
  let* t := (λ w, punwrap (fd_tables w !! fd_table (fd_manager e)) w) in
  let* i := new_file 0 in
  let* o := new_file 0 in
  let* st := reads fstatus in
  match close_on_exec (λ f, default 0 (st !! f)) i o t with
  | Ok t' => modify (λ w, set_fd_tables (<[fd_table (fd_manager e) := t']> (fd_tables w)) w)
  | _ => ppanic
  end.

Definition exec (cur self now : Z) (name : str) (args envs : list str) : P unit :=
  let* e := the_exec self in
  exec_memory self e ;;
  exec_close_files e ;;
  let* ts := exec_tasks (length (etasks e)) cur (etasks e) in
  upd_exec self (set_etasks ts) ;;
  upd_task cur (set_is_leader true) ;;
  upd_exec self (set_main_task (Some cur)) ;;
  upd_task cur (λ t, set_ttime (reset now (ttime t)) t) ;;
  upd_task cur (set_tname (last_component name)) ;;
  (if decide (length ts = 1)%nat then pret () else ppanic) ;;
  let args := match args with [] => [name] | _ => args end in
  let* m := the_mem (memory_set e) in
  let l := load_app name args envs m in
  put_mem (memory_set e) l.2 ;;
  match l.1 with
  | None => perr NotFound
  | Some (entry, user_stack_bottom, heap) =>
      upd_exec self (set_heap_bottom heap) ;;
      upd_exec self (set_heap_top heap) ;;
      upd_exec self (set_robust_list {[ cur := mk_robust 0 0 ]}) ;;
      let* h := new_handler handler_new in
      upd_exec self (set_signal_modules {[ cur := init_signal h ]}) ;;
      let* m := the_mem (memory_set e) in
      pwhen (negb (mem_query SIGNAL_TRAMPOLINE m))
        (put_mem (memory_set e) (mem_map_trampoline m).2) ;;
      let* m := the_mem (memory_set e) in
      upd_task cur (set_utrap_frame
        (Some (init_user_context STATUS (mem_view m) entry user_stack_bottom))) ;;
      let* live := reads (λ w, bool_decide (parent e ∈ PID2PC w)) in
      if live then upd_exec (parent e) (set_blocked_by_vfork false) else ppanic
  end.

(** [new_ktask], the kernel coroutine of a system call. *)
Definition new_ktask (self : Z) (name : str) : P Z :=
  let* e := the_exec self in
  let* m := the_mem (memory_set e) in
  let* t := new_task_inner name self (mem_token m) None in
  let* h := new_handler handler_new in
  insert_module self t (init_signal h) ;;
  pret t.

(** ** Sending signals *)

Definition wake_if_blocked (t : Z) : P unit :=
  let* tk := the_task t in
  pwhen (bool_decide (tstate tk = Blocked)) (effect (WakeTask t)).

Definition add_to_module (p t signum : Z) (info : option SI) : P unit :=
  upd_exec p (λ e, set_signal_modules (alter (add_signal signum info) t (signal_modules e)) e).

Definition send_signal_to_process (p signum : Z) (info : option SI) : P unit :=
  let* live := reads (λ w, bool_decide (p ∈ PID2PC w)) in
  if negb live then perr NotFound
  else
    let* e := the_exec p in
    match main_task e with
    | None => pret ()
    | Some t =>
        let* _m := punwrap (signal_modules e !! t) in
        add_to_module p t signum info ;;
        wake_if_blocked t
    end.

Definition send_signal_to_thread (tid signum : Z) : P unit :=
  let* known := reads (λ w, bool_decide (tid ∈ TID2TASK w)) in
  if negb known then perr NotFound
  else
    let* t := the_task tid in
    let p := process_id t in
    let* live := reads (λ w, bool_decide (p ∈ PID2PC w)) in
    if negb live then perr NotFound
    else
      let* e := the_exec p in
      match signal_modules e !! tid with
      | None => perr NotFound
      | Some _ => add_to_module p tid signum None ;; wake_if_blocked tid
      end.

(** [.await.unwrap()] of a call that may fail. *)
Definition must {A} (x : P A) : P A := λ w,
  match x w with (Err _, w) => (Panic, w) | r => r end.

(** ** [exit] *)

(** Up to the loop over the other threads: tell the parent, clear the thread id. *)
Definition exit_begin (cur : Z) : P unit :=
  let* e := current_executor cur in
  let* m := punwrap (signal_modules e !! cur) in
  let* c := the_task cur in
  pwhen ((bool_decide (is_Some (exit_signal m)) || is_leader c) &&
         bool_decide (parent e ≠ KERNEL_EXECUTOR_ID))
    (must (send_signal_to_process (parent e) (default SIGCHLD (exit_signal m)) None)) ;;
  pwhen (bool_decide (clear_child_tid c ≠ 0))
    (let* ok := alloc_for_lazy (memory_set e) (clear_child_tid c) in
     pwhen ok (store_i32 (memory_set e) (clear_child_tid c) 0 ;;
               effect (FutexWake (pid e) (clear_child_tid c)))).

(** One turn of the loop of a leader: kill the threads that still run, and tell
    whether there were none. *)
Fixpoint exit_kill (ts : list Z) (all_exited : bool) : P bool :=
  match ts with
  | [] => pret all_exited
  | t :: ts =>
      let* tk := the_task t in
      if negb (is_leader tk) && bool_decide (tstate tk ≠ Exited)
      then must (send_signal_to_thread t SIGKILL) ;; exit_kill ts false
      else exit_kill ts all_exited
  end.

Definition exit_poll (cur : Z) : P bool :=
  let* e := current_executor cur in exit_kill (etasks e) true.

(** Handing the children to the kernel process. *)
Fixpoint adopt (cs : list Z) : P unit :=
  match cs with
  | [] => pret ()
  | c :: cs =>
      upd_exec c (set_parent KERNEL_EXECUTOR_ID) ;;
      upd_exec KERNEL_EXECUTOR_ID (λ e, set_children (children e ++ [c]) e) ;;
      adopt cs
  end.

(** The rest of [exit]. *)
Definition exit_leader (cur code : Z) (e : Executor) : P unit :=
  modify (λ w, set_TID2TASK (TID2TASK w ∖ {[cur]}) w) ;;
  upd_exec (pid e) (set_main_task None) ;;
  upd_exec (pid e) (set_etasks []) ;;
  modify (λ w, set_fd_tables (<[fd_table (fd_manager e) := []]> (fd_tables w)) w) ;;
  upd_exec (pid e) (set_signal_modules ∅) ;;
  adopt (children e) ;;
  let* live := reads (λ w, bool_decide (parent e ∈ PID2PC w)) in
  pwhen live (upd_exec (parent e) (set_blocked_by_vfork false)) ;;
  modify (λ w, set_PID2PC (PID2PC w ∖ {[pid e]}) w) ;;
  upd_exec (pid e) (set_exit_code code) ;;
  upd_exec (pid e) (set_is_zombie true).

(** [tasks.remove] of the first entry of the thread. *)
Fixpoint remove_first (t : Z) (l : list Z) : list Z :=
  match l with
  | [] => []
  | x :: l => if decide (x = t) then l else x :: remove_first t l
  end.

Definition exit_thread (cur : Z) (e : Executor) : P unit :=
  modify (λ w, set_TID2TASK (TID2TASK w ∖ {[cur]}) w) ;;
  upd_exec (pid e) (λ e, set_etasks (remove_first cur (etasks e)) e) ;;
  upd_exec (pid e) (λ e, set_signal_modules (delete cur (signal_modules e)) e).

Definition exit_finish (cur code : Z) : P unit :=
  let* e := current_executor cur in
  let* c := the_task cur in
  (if is_leader c then exit_leader cur code e else exit_thread cur e) ;;
  upd_task cur (set_texit_code code) ;;
  upd_task cur (set_tstate Exited).

(** ** [wait_pid] *)

(** The scan of the children: the index and pid of a child to reap, or the status. *)
Fixpoint wait_scan (execs : gmap Z Executor) (want : Z) (i : nat) (status : WaitStatus)
    (cs : list Z) : WaitStatus * option (nat * Z * Z) :=
  match cs with
  | [] => (status, None)
  | c :: cs =>
      match execs !! c with
      | None => (status, None)
      | Some ce =>
          if decide (want ≤ 0) then
            match get_code_if_exit ce with
            | Some code => (WExited, Some (i, c, code))
            | None => wait_scan execs want (S i) WRunning cs
            end
          else if decide (pid ce = want) then
            match get_code_if_exit ce with
            | Some code => (WExited, Some (i, c, code))
            | None => (WRunning, None)
            end
          else wait_scan execs want (S i) status cs
      end
  end.

(** The reaped child is dropped with the last reference to it. *)
Definition wait_pid (cur want exit_code_ptr : Z) : P (Z + WaitStatus) :=
  let* e := current_executor cur in
  let* r := reads (λ w, wait_scan (execs w) want 0 WNotExist (children e)) in
  match r.2 with
  | Some (i, c, code) =>
      pwhen (bool_decide (exit_code_ptr ≠ 0))
        (let* m := the_mem (memory_set e) in
         put_mem (memory_set e)
           (mem_store_i32 exit_code_ptr (as_i32 (as_i32 code * 256)) m)) ;;
      upd_exec (pid e) (λ e, set_children (take i (children e) ++ drop (S i) (children e)) e) ;;
      modify (λ w, set_execs (delete c (execs w)) w) ;;
      pret (inl c)
  | None => pret (inr r.1)
  end.
End process.
Arguments Executor : clear implicits.
Arguments world : clear implicits.
