(* ===== verification/ProcessProps.v ===== *)
(** * The process tree

    The invariant of the process tables ([pinv]): the processes of [PID2PC] form
    a tree rooted at the kernel process, a process is in the list of children of
    its parent, the processes that have left the table are zombies waiting to be
    reaped, and every thread of a live process has its signal module and its
    entry in [TID2TASK].  Every operation keeps it, and under it the unwraps of
    [exit] cannot fail.  The proofs use a weakest precondition [wp] for the
    monad of the file on processes. *)

From S2P Require Import Prelude Memory UserMem Path Vfs RootFs.
From S2P Require Import TaskRun Futex TimeStat Signal FdManager Process.

Open Scope Z_scope.

Section props.
Context {SS SH SA SI M : Type} `{AxSignal SS SH SA SI} `{ProcMem M}.
Context (TASK_STACK_SIZE SIGNAL_TRAMPOLINE STATUS : Z).
Notation W := (world SS SH M).
Notation E := (Executor SS).
Implicit Types (w : W) (e : E).

(** ** Weakest preconditions *)

(** [Q] after success, [R] after an error, [N] if the code panics. *)
Definition wp {A} (Q : A → W → Prop) (R : W → Prop) (N : Prop) (x : P A) (w : W) : Prop :=
  match x w with
  | (Ok a, w') => Q a w'
  | (Err _, w') => R w'
  | (Panic, _) => N
  end.

Lemma wp_bind {A B} Q R N (x : P A) (f : A → P B) w :
  wp (λ a w', wp Q R N (f a) w') R N x w → wp Q R N (pbind x f) w.
Proof. unfold wp, pbind. by destruct (x w) as [[a|err|] w']. Qed.

Lemma wp_mono {A} (Q Q' : A → W → Prop) (R R' : W → Prop) N (x : P A) w :
  wp Q R N x w → (∀ a w', Q a w' → Q' a w') → (∀ w', R w' → R' w') → wp Q' R' N x w.
Proof. unfold wp. destruct (x w) as [[a|err|] w']; naive_solver. Qed.

Lemma wp_punwrap {A} (Q : A → W → Prop) R N (o : option A) w :
  (∀ a, o = Some a → Q a w) → (o = None → N) → wp Q R N (punwrap o) w.
Proof. unfold wp, punwrap, pret, ppanic. destruct o; naive_solver. Qed.

Lemma wp_lookup {A} (Q : A → W → Prop) R N (f : W → option A) w :
  (∀ a, f w = Some a → Q a w) → (f w = None → N) → wp Q R N (λ w, punwrap (f w) w) w.
Proof. apply (wp_punwrap Q R N). Qed.
Lemma wp_reads {A} (Q : A → W → Prop) R N (f : W → A) w : Q (f w) w → wp Q R N (reads f) w.
Proof. done. Qed.

(** The state after an update, by its equation. *)
Lemma wp_modify (Q : () → W → Prop) R N f w :
  (∀ w', w' = f w → Q () w') → wp Q R N (modify f) w.
Proof. intros HQ. by apply HQ. Qed.

Lemma wp_new_task_id (Q : Z → W → Prop) R N w :
  (∀ w', w' = set_next_tid (next_tid w + 1) w → Q (next_tid w) w') → wp Q R N new_task_id w.
Proof. intros HQ. by apply HQ. Qed.

Lemma wp_the_exec Q R N p w :
  (∀ e, execs w !! p = Some e → Q e w) → (execs w !! p = None → N) → wp Q R N (the_exec p) w.
Proof. apply (wp_punwrap Q R N). Qed.
Lemma wp_the_task Q R N t w :
  (∀ tk, tasks w !! t = Some tk → Q tk w) → (tasks w !! t = None → N) → wp Q R N (the_task t) w.
Proof. apply (wp_punwrap Q R N). Qed.
Lemma wp_the_mem Q R N i w :
  (∀ m, mems w !! i = Some m → Q m w) → (mems w !! i = None → N) → wp Q R N (the_mem i) w.
Proof. apply (wp_punwrap Q R N). Qed.

Lemma wp_pwhen Q R N b (x : P unit) w :
  (b = true → wp Q R N x w) → (b = false → Q () w) → wp Q R N (pwhen b x) w.
Proof. unfold pwhen. destruct b; [auto|]. unfold wp, pret. auto. Qed.

(** ** Worlds that agree on the tree *)

(** Executors that agree on what the tree looks at; signal modules may have been
    added. *)
Record esim e e' : Prop := {
  es_pid : pid e' = pid e;
  es_parent : parent e' = parent e;
  es_children : children e' = children e;
  es_zombie : is_zombie e' = is_zombie e;
  es_main : main_task e' = main_task e;
  es_tasks : etasks e' = etasks e;
  es_memory : memory_set e' = memory_set e;
  es_modules t : is_Some (signal_modules e !! t) → is_Some (signal_modules e' !! t);
}.

Lemma esim_refl e : esim e e.
Proof. by split. Qed.
Lemma esim_trans e1 e2 e3 : esim e1 e2 → esim e2 e3 → esim e1 e3.
Proof. intros [] []. split; try congruence. auto. Qed.

(** [w'] comes after [w], with the tree unchanged; tasks, objects and ids may have
    been added. *)
Record stable w w' : Prop := {
  st_execs p e : execs w !! p = Some e → ∃ e', execs w' !! p = Some e' ∧ esim e e';
  st_dom p : is_Some (execs w' !! p) → is_Some (execs w !! p);
  st_live : PID2PC w' = PID2PC w;
  st_tids : TID2TASK w ⊆ TID2TASK w';
  st_next : next_tid w ≤ next_tid w';
  st_mems i : is_Some (mems w !! i) → is_Some (mems w' !! i);
  st_new t tk : tasks w' !! t = Some tk → is_Some (tasks w !! t) ∨ next_tid w ≤ t < next_tid w';
  st_tasks t tk : tasks w !! t = Some tk →
    ∃ tk', tasks w' !! t = Some tk' ∧ process_id tk' = process_id tk ∧ is_leader tk' = is_leader tk;
}.

Lemma stable_refl w : stable w w.
Proof. split; try done; eauto using esim_refl. Qed.

Lemma stable_trans w1 w2 w3 : stable w1 w2 → stable w2 w3 → stable w1 w3.
Proof.
  intros [E1 D1 L1 T1 N1 M1 A1 K1] [E2 D2 L2 T2 N2 M2 A2 K2].
  split; [|auto|congruence|set_solver|lia|auto|..].
  - intros p e He. destruct (E1 p e He) as (e1 & He1 & S1).
    destruct (E2 p e1 He1) as (e2 & He2 & S2). eauto using esim_trans.
  - intros t tk Ht. destruct (A2 t tk Ht) as [[tk2 Ht2]|?]; [|right; lia].
    destruct (A1 t tk2 Ht2) as [?|?]; [by left|right; lia].
  - intros t tk Ht. destruct (K1 t tk Ht) as (tk1 & Ht1 & Hp1 & Hl1).
    destruct (K2 t tk1 Ht1) as (tk2 & Ht2 & Hp2 & Hl2). exists tk2. split; [done|]. split; congruence.
Qed.

Lemma wp_stable {A} (x : P A) w0 w N :
  stable w0 w → wp (λ _ w', stable w w') (stable w) N x w →
  wp (λ _ w', stable w0 w') (stable w0) N x w.
Proof. intros Hs Hx. eapply wp_mono; [exact Hx|..]; intros; by eapply stable_trans. Qed.

(** Updates of the parts the tree does not look at. *)
Lemma stable_same w w' :
  execs w' = execs w → PID2PC w' = PID2PC w → TID2TASK w' = TID2TASK w →
  next_tid w' = next_tid w → mems w' = mems w → tasks w' = tasks w → stable w w'.
Proof.
  intros E1 L1 T1 N1 M1 K1.
  split; rewrite ?E1, ?L1, ?T1, ?N1, ?M1, ?K1; eauto using esim_refl; lia.
Qed.

Lemma stable_put_mem i m w : stable w (set_mems (<[i := m]> (mems w)) w).
Proof.
  split; try done; eauto using esim_refl. simpl. intros j Hj.
  destruct (decide (i = j)) as [->|];
    [rewrite lookup_insert_eq; eauto|by rewrite lookup_insert_ne].
Qed.

Lemma stable_upd_task t f w :
  (∀ tk, process_id (f tk) = process_id tk ∧ is_leader (f tk) = is_leader tk) →
  stable w (set_tasks (alter f t (tasks w)) w).
Proof.
  intros Hf. split; try done; simpl; [eauto using esim_refl|..].
  - intros t' tk Ht. left. destruct (decide (t = t')) as [->|].
    + rewrite lookup_alter_eq in Ht. by destruct (tasks w !! t').
    + rewrite lookup_alter_ne in Ht by done. eauto.
  - intros t' tk Ht. destruct (decide (t = t')) as [->|].
    + rewrite lookup_alter_eq, Ht. simpl. destruct (Hf tk). eauto.
    + rewrite lookup_alter_ne by done. eauto.
Qed.

Lemma stable_upd_exec p f w :
  (∀ e, execs w !! p = Some e → esim e (f e)) → stable w (set_execs (alter f p (execs w)) w).
Proof.
  intros Hf. split; try done; simpl; eauto.
  - intros q e He. destruct (decide (p = q)) as [->|].
    + rewrite lookup_alter_eq, He. simpl. eauto.
    + rewrite lookup_alter_ne by done. eauto using esim_refl.
  - intros q. destruct (decide (p = q)) as [->|].
    + rewrite lookup_alter_eq, fmap_is_Some. done.
    + by rewrite lookup_alter_ne.
Qed.

(** ** The invariant *)

(** What holds of a live process; the kernel process has no parent and no thread
    the tables know of. *)
Record live_ok w (p : Z) (e : E) : Prop := {
  lo_nodup : NoDup (children e);
  lo_children c : c ∈ children e →
    c ≠ KERNEL_EXECUTOR_ID ∧ ∃ ec, execs w !! c = Some ec ∧ parent ec = p;
  lo_zombie : p ≠ KERNEL_EXECUTOR_ID → is_zombie e = false;
  lo_parent : p ≠ KERNEL_EXECUTOR_ID → parent e ≠ p ∧ parent e ∈ PID2PC w ∧
    ∃ ep, execs w !! parent e = Some ep ∧ p ∈ children ep;
  lo_main : p ≠ KERNEL_EXECUTOR_ID → ∃ t tk, main_task e = Some t ∧
    is_Some (signal_modules e !! t) ∧ tasks w !! t = Some tk ∧ is_leader tk = true;
  lo_tasks_nodup : NoDup (etasks e);
  lo_tasks t : t ∈ etasks e → is_Some (signal_modules e !! t) ∧ t ∈ TID2TASK w ∧
    ∃ tk, tasks w !! t = Some tk ∧ process_id tk = p;
  lo_below : p ≠ KERNEL_EXECUTOR_ID → parent e < p ∧ KERNEL_EXECUTOR_ID < p;
}.

Record pinv w : Prop := {
  pi_ids p e : execs w !! p = Some e → pid e = p ∧ p < next_tid w ∧ is_Some (mems w !! memory_set e);
  pi_tids t tk : tasks w !! t = Some tk → t < next_tid w;
  pi_next : KERNEL_EXECUTOR_ID < next_tid w;
  pi_kernel : KERNEL_EXECUTOR_ID ∈ PID2PC w;
  pi_live p : p ∈ PID2PC w → ∃ e, execs w !! p = Some e ∧ live_ok w p e;
  pi_dead p e : execs w !! p = Some e → p ∉ PID2PC w → is_zombie e = true;
}.

(** [q] is the parent of the live process [c]. *)
Definition child_of w (c q : Z) : Prop :=
  c ≠ KERNEL_EXECUTOR_ID ∧ c ∈ PID2PC w ∧ ∃ e, execs w !! c = Some e ∧ parent e = q.

(** The live processes are a tree: from each the parents lead to the kernel process,
    which has none, and never round in a circle. *)
Record tree w : Prop := {
  tr_root : KERNEL_EXECUTOR_ID ∈ PID2PC w;
  tr_rooted p : p ∈ PID2PC w → rtc (child_of w) p KERNEL_EXECUTOR_ID;
  tr_acyclic p : ¬ tc (child_of w) p p;
}.

Lemma child_below w c q : pinv w → child_of w c q → q ∈ PID2PC w ∧ q < c.
Proof.
  intros I (Hk & Hc & e & He & <-). destruct (pi_live _ I c Hc) as (x & Hx & L). assert (x = e) as -> by congruence.
  split; [apply (lo_parent _ _ _ L Hk)|apply (lo_below _ _ _ L Hk)].
Qed.

Lemma pinv_tree w : pinv w → tree w.
Proof.
  intros I. split; [apply I| |].
  - assert (∀ n : nat, ∀ p, p ∈ PID2PC w → p - KERNEL_EXECUTOR_ID < Z.of_nat n → rtc (child_of w) p KERNEL_EXECUTOR_ID) as Hn.
    { induction n as [|n IH]; intros p Hp Hlt; (destruct (decide (p = KERNEL_EXECUTOR_ID)) as [->|Hk]; [apply rtc_refl|]);
        destruct (pi_live _ I p Hp) as (e & He & L).
      - pose proof (lo_below _ _ _ L Hk). lia.
      - eapply rtc_l; [split_and!; [exact Hk|exact Hp|exists e; split; [exact He|reflexivity]]|].
        apply IH; [apply (lo_parent _ _ _ L Hk)|]. pose proof (lo_below _ _ _ L Hk). lia. }
    intros p Hp. apply (Hn (Z.to_nat (p - KERNEL_EXECUTOR_ID + 1)) p Hp). destruct (decide (p = KERNEL_EXECUTOR_ID)) as [->|Hk]; [done|].
    destruct (pi_live _ I p Hp) as (e & _ & L). pose proof (lo_below _ _ _ L Hk). lia.
  - intros p Hp. assert (∀ c q, tc (child_of w) c q → q < c) as Hlt.
    { intros c q Hcq. induction Hcq as [c q Hcq|c r q Hcr Hrq IH].
      - by destruct (child_below w c q I Hcq).
      - destruct (child_below w c r I Hcr). lia. }
    specialize (Hlt p p Hp). lia.
Qed.

(** Task [cur] runs in the user process [p]. *)
Definition runs w (cur p : Z) : Prop :=
  p ≠ KERNEL_EXECUTOR_ID ∧ p ∈ PID2PC w ∧ ∃ e, execs w !! p = Some e ∧ cur ∈ etasks e.

Lemma live_ok_stable w w' p e e' : stable w w' → esim e e' → live_ok w p e → live_ok w' p e'.
Proof.
  intros [SE SD SL ST SN SM SA' SK] [Q1 Q2 Q3 Q4 Q5 Q6 Q7 Q8] [L1 L2 L3 L4 L5 L6 L7 L8].
  split; rewrite ?Q2, ?Q3, ?Q4, ?Q5, ?Q6, ?SL; try done.
  - intros c Hc. destruct (L2 c Hc) as (Hk & ec & Hec & Hp). split; [done|].
    destruct (SE c ec Hec) as (ec' & Hec' & Hs). exists ec'. split; [done|].
    rewrite (es_parent _ _ Hs). done.
  - intros Hk. destruct (L4 Hk) as (? & ? & ep & Hep & Hin). split; [done|]. split; [done|].
    destruct (SE _ _ Hep) as (ep' & Hep' & Hs). exists ep'. split; [done|].
    by rewrite (es_children _ _ Hs).
  - intros Hk. destruct (L5 Hk) as (t & tk & Hm & Hs & Ht & Hl).
    destruct (SK t tk Ht) as (tk' & Ht' & _ & Hl'). exists t, tk'. split_and!; [done|auto|done|congruence].
  - intros t Ht. destruct (L7 t Ht) as (Hs & Hi & tk & Htk & Hp).
    destruct (SK t tk Htk) as (tk' & Htk' & Hp' & _). split; [auto|]. split; [set_solver|].
    exists tk'. split; [done|congruence].
Qed.

Lemma pinv_stable w w' : stable w w' → pinv w → pinv w'.
Proof.
  intros S I. pose proof S as [SE SD SL ST SN SM SA' SK]. destruct I as [I1 I2 I3 I4 I5 I6].
  assert (Hback : ∀ p e', execs w' !! p = Some e' → ∃ e, execs w !! p = Some e ∧ esim e e').
  { intros p e' He'. destruct (SD p) as [e He]; [eauto|].
    destruct (SE p e He) as (e2 & He2 & Hs). exists e. split; [done|]. congruence. }
  split.
  - intros p e' He'. destruct (Hback p e' He') as (e & He & Hs).
    destruct (I1 p e He) as (? & ? & ?). rewrite (es_pid _ _ Hs), (es_memory _ _ Hs).
    split_and!; [done|lia|auto].
  - intros t tk Ht. destruct (SA' t tk Ht) as [[tk0 Ht0]|?]; [|lia].
    specialize (I2 t tk0 Ht0). lia.
  - lia.
  - by rewrite SL.
  - rewrite SL. intros p Hp. destruct (I5 p Hp) as (e & He & Hl).
    destruct (SE p e He) as (e' & He' & Hs). exists e'. split; [done|]. by eapply live_ok_stable.
  - rewrite SL. intros p e' He' Hp. destruct (Hback p e' He') as (e & He & Hs).
    rewrite (es_zombie _ _ Hs). by eapply I6.
Qed.

Lemma runs_stable w w' cur p : stable w w' → runs w cur p → runs w' cur p.
Proof.
  intros S (? & Hl & e & He & Hc). destruct (st_execs _ _ S p e He) as (e' & He' & Hs).
  split; [done|]. rewrite (st_live _ _ S). split; [done|]. exists e'. split; [done|].
  by rewrite (es_tasks _ _ Hs).
Qed.

(** ** Operations that do not touch the tree *)

Definition keeps {A} (x : P (SS := SS) (SH := SH) (M := M) A) : Prop := ∀ w, stable w (x w).2.

Lemma keeps_bind {A B} (x : P A) (f : A → P B) :
  keeps x → (∀ a, keeps (f a)) → keeps (pbind x f).
Proof.
  intros Hx Hf w. unfold pbind. specialize (Hx w). destruct (x w) as [[a|err|] w']; [|done..].
  eapply stable_trans; [done|apply Hf].
Qed.

Lemma keeps_ret {A} (a : A) : keeps (pret a).
Proof. intros w. apply stable_refl. Qed.
Lemma keeps_err {A} err : keeps (perr (A := A) err).
Proof. intros w. apply stable_refl. Qed.
Lemma keeps_panic {A} : keeps (ppanic (A := A)).
Proof. intros w. apply stable_refl. Qed.
Lemma keeps_lookup {A} (f : W → option A) : keeps (λ w, punwrap (f w) w).
Proof. intros w. destruct (f w); apply stable_refl. Qed.
Lemma keeps_unwrap {A} (o : option A) : keeps (punwrap o).
Proof. intros w. destruct o; apply stable_refl. Qed.
Lemma keeps_reads {A} (f : W → A) : keeps (reads f).
Proof. intros w. apply stable_refl. Qed.
Lemma keeps_when b (x : P unit) : keeps x → keeps (pwhen b x).
Proof. intros Hx. destruct b; [done|apply keeps_ret]. Qed.
Lemma keeps_modify (f : W → W) : (∀ w, stable w (f w)) → keeps (modify f).
Proof. intros Hf w. apply Hf. Qed.
Lemma keeps_must {A} (x : P A) : keeps x → keeps (must x).
Proof. intros Hx w. specialize (Hx w). unfold must. by destruct (x w) as [[]]. Qed.
Lemma keeps_if {A} (b : bool) (x y : P A) : keeps x → keeps y → keeps (if b then x else y).
Proof. by destruct b. Qed.

Lemma keeps_new_obj : keeps new_obj.
Proof. intros w. by apply stable_same. Qed.
Lemma keeps_effect f : keeps (effect f).
Proof. intros w. by apply stable_same. Qed.
Lemma keeps_put_mem i m : keeps (put_mem i m).
Proof. intros w. apply stable_put_mem. Qed.
Lemma keeps_add_tid t : keeps (modify (λ w, set_TID2TASK ({[t]} ∪ TID2TASK w) w)).
Proof. intros w. split; try done; simpl; eauto using esim_refl. set_solver. Qed.
Lemma keeps_upd_exec p f : (∀ e, esim e (f e)) → keeps (upd_exec p f).
Proof. intros Hf w. apply stable_upd_exec. auto. Qed.
Lemma keeps_upd_task t f :
  (∀ tk, process_id (f tk) = process_id tk ∧ is_leader (f tk) = is_leader tk) →
  keeps (upd_task t f).
Proof. intros Hf w. by apply stable_upd_task. Qed.
Lemma keeps_new_task_id : keeps new_task_id.
Proof.
  intros w. split; try done; simpl; eauto using esim_refl. lia.
Qed.

(** ** Reading results of such operations *)

Lemma wp_keeps {A} (Q : A → W → Prop) R (N : Prop) (x : P A) w :
  keeps x → (∀ a w', x w = (Ok a, w') → stable w w' → Q a w') → (∀ w', stable w w' → R w') → N →
  wp Q R N x w.
Proof.
  intros Hx HQ HR HN. specialize (Hx w). unfold wp. destruct (x w) as [[a|err|] w'] eqn:Ex; auto.
Qed.
End props.

Create HintDb keeps discriminated.
#[export] Hint Resolve keeps_bind keeps_ret keeps_err keeps_panic keeps_lookup keeps_unwrap
  keeps_reads keeps_when keeps_must keeps_if keeps_new_obj keeps_effect keeps_put_mem
  keeps_add_tid keeps_new_task_id : keeps.

(** Symbolic execution of the operations that leave the tree alone. *)
Ltac keep_step :=
  match goal with
  | |- keeps (pbind _ _) => apply keeps_bind; [|intros ?]
  | |- keeps (pwhen _ _) => apply keeps_when
  | |- keeps (must _) => apply keeps_must
  | |- keeps (if ?b then _ else _) => destruct b
  | |- keeps (match ?o with _ => _ end) => destruct o
  | |- keeps (upd_task _ _) => apply keeps_upd_task; by intros ?
  | |- keeps (upd_exec _ _) => apply keeps_upd_exec; by intros ?
  | |- keeps (modify _) => apply keeps_modify; intros ?; by apply stable_same
  | |- keeps (λ _, punwrap _ _) => apply keeps_lookup
  | |- keeps _ => solve [eauto with keeps]
  end.
Ltac keep := repeat (keep_step; cbv zeta).

Section ops.
Context {SS SH SA SI M : Type} `{AxSignal SS SH SA SI} `{ProcMem M}.
Context (TASK_STACK_SIZE SIGNAL_TRAMPOLINE STATUS : Z).
Notation W := (world SS SH M).
Notation E := (Executor SS).
Implicit Types (w : W) (e : E).

Lemma keeps_new_mem m : keeps (SS := SS) (SH := SH) (M := M) (new_mem m).
Proof. unfold new_mem. keep. Qed.
Lemma keeps_new_handler h : keeps (SS := SS) (SH := SH) (M := M) (new_handler h).
Proof. unfold new_handler. keep. Qed.
Lemma keeps_new_cwd s : keeps (SS := SS) (SH := SH) (M := M) (new_cwd s).
Proof. unfold new_cwd. keep. Qed.
Lemma keeps_new_umask s : keeps (SS := SS) (SH := SH) (M := M) (new_umask s).
Proof. unfold new_umask. keep. Qed.
Lemma keeps_new_table t : keeps (SS := SS) (SH := SH) (M := M) (new_table t).
Proof. unfold new_table. keep. Qed.
Lemma keeps_new_file t : keeps (SS := SS) (SH := SH) (M := M) (new_file t).
Proof. unfold new_file. keep. Qed.
Lemma keeps_alloc i a : keeps (SS := SS) (SH := SH) (M := M) (alloc_for_lazy i a).
Proof. unfold alloc_for_lazy, the_mem. keep. Qed.
Lemma keeps_store i a v : keeps (SS := SS) (SH := SH) (M := M) (store_i32 i a v).
Proof. unfold store_i32, the_mem. keep. Qed.
End ops.
#[export] Hint Resolve keeps_new_mem keeps_new_handler keeps_new_cwd keeps_new_umask
  keeps_new_table keeps_new_file keeps_alloc keeps_store : keeps.

Section clone.
Context {SS SH SA SI M : Type} `{AxSignal SS SH SA SI} `{ProcMem M}.
Context (TASK_STACK_SIZE SIGNAL_TRAMPOLINE STATUS : Z).
Notation W := (world SS SH M).
Notation E := (Executor SS).
Implicit Types (w : W) (e : E).

Lemma keeps_clone_memory cf e : keeps (SS := SS) (SH := SH) (M := M) (clone_memory cf e).
Proof. unfold clone_memory, the_mem. keep. Qed.
Lemma keeps_clone_handler cf cur e : keeps (SS := SS) (SH := SH) (M := M) (clone_handler cf cur e).
Proof. unfold clone_handler. keep. Qed.
Lemma keeps_clone_settid cf ptid ctid t i j :
  keeps (SS := SS) (SH := SH) (M := M) (clone_settid cf ptid ctid t i j).
Proof. unfold clone_settid, the_mem. keep. Qed.

Lemma esim_insert_module t (m : SignalModule SS) e :
  esim e (set_signal_modules (<[t := m]> (signal_modules e)) e).
Proof.
  split; try done. simpl. intros t' Ht'. destruct (decide (t = t')) as [->|];
    [rewrite lookup_insert_eq; eauto|by rewrite lookup_insert_ne].
Qed.
Lemma esim_alter_module t (f : SignalModule SS → SignalModule SS) e :
  esim e (set_signal_modules (alter f t (signal_modules e)) e).
Proof.
  split; try done. simpl. intros t' Ht'. destruct (decide (t = t')) as [->|];
    [by rewrite lookup_alter_eq, fmap_is_Some|by rewrite lookup_alter_ne].
Qed.

Lemma keeps_insert_module p t m : keeps (SS := SS) (SH := SH) (M := M) (insert_module p t m).
Proof. apply keeps_upd_exec. intros e. apply esim_insert_module. Qed.
Lemma keeps_insert_robust p t : keeps (SS := SS) (SH := SH) (M := M) (insert_robust p t).
Proof. by apply keeps_upd_exec. Qed.
Lemma keeps_add_to_module p t n i : keeps (SS := SS) (SH := SH) (M := M) (add_to_module p t n i).
Proof. apply keeps_upd_exec. intros e. apply esim_alter_module. Qed.
Lemma keeps_wake t : keeps (SS := SS) (SH := SH) (M := M) (wake_if_blocked t).
Proof. unfold wake_if_blocked, the_task. keep. Qed.
Lemma keeps_std_table : keeps (SS := SS) (SH := SH) (M := M) new_std_table.
Proof. unfold new_std_table. keep. Qed.

(** A new task has a fresh id. *)
Lemma stable_new_task w tk :
  (∀ t tk, tasks w !! t = Some tk → t < next_tid w) →
  stable w (set_tasks (<[next_tid w := tk]> (tasks w)) (set_next_tid (next_tid w + 1) w)).
Proof.
  intros I. assert (tasks w !! next_tid w = None) as Hn.
  { destruct (tasks w !! next_tid w) as [tk'|] eqn:Ht; [|done]. apply I in Ht. lia. }
  split; try done; simpl; eauto using esim_refl; [lia|..].
  - intros t tk' Ht. destruct (decide (next_tid w = t)) as [<-|]; [right; lia|].
    rewrite lookup_insert_ne in Ht by done. left. eauto.
  - intros t tk' Ht. rewrite lookup_insert_ne; [eauto|]. intros <-. congruence.
Qed.

Lemma wp_new_task_inner Q R N name p token tf w :
  (∀ t tk, tasks w !! t = Some tk → t < next_tid w) →
  (∀ w', stable w w' → next_tid w < next_tid w' →
     tasks w' !! next_tid w = Some (mk_task p false Runable 0 0 0 name token tf timestat_new) →
     Q (next_tid w) w') →
  wp Q R N (new_task_inner name p token tf) w.
Proof.
  intros I HQ. unfold wp, new_task_inner, pbind, new_task_id, modify, pret. simpl.
  apply HQ; simpl; [by apply stable_new_task|lia|apply lookup_insert_eq].
Qed.

(** ** Growing the tree *)

(** Process [p] with its first task [t] is added under [pp]. *)
Lemma pinv_fork w w' p t pp np :
  pinv w → execs w !! p = None → KERNEL_EXECUTOR_ID < p → pp < p → p < next_tid w → pp ∈ PID2PC w →
  pid np = p → parent np = pp → children np = [] → is_zombie np = false →
  main_task np = Some t → is_Some (signal_modules np !! t) → etasks np = [t] →
  is_Some (mems w !! memory_set np) →
  (∃ tk, tasks w !! t = Some tk ∧ process_id tk = p) → t ∈ TID2TASK w →
  execs w' = alter (λ e, set_children (children e ++ [p]) e) pp (<[p := np]> (execs w)) →
  PID2PC w' = {[p]} ∪ PID2PC w → tasks w' = alter (set_is_leader true) t (tasks w) →
  TID2TASK w' = TID2TASK w → next_tid w' = next_tid w →
  (∀ i, is_Some (mems w !! i) → is_Some (mems w' !! i)) → pinv w'.
Proof.
  intros I Hp Hkp Hlt Hpn Hpp N1 N2 N3 N4 N5 N6 N7 N8 (tk & Ht & Htp) Hti HE HL HT HD HN HM.
  assert (p ≠ KERNEL_EXECUTOR_ID) as Hpk by lia.
  destruct (pi_live _ I pp Hpp) as (epp & Hepp & Lpp).
  assert (p ∉ PID2PC w) as Hpl.
  { intros Hin. destruct (pi_live _ I p Hin) as (e & He & _). congruence. }
  assert (pp ≠ p) as Hne by (intros ->; done).
  assert (Hlk : ∀ q, execs w' !! q =
    if decide (q = p) then Some np else
    if decide (q = pp) then Some (set_children (children epp ++ [p]) epp) else execs w !! q).
  { intros q. rewrite HE. destruct (decide (q = pp)) as [->|].
    - rewrite lookup_alter_eq, lookup_insert_ne, Hepp by done. by rewrite decide_False.
    - rewrite lookup_alter_ne by done. destruct (decide (q = p)) as [->|].
      + by rewrite lookup_insert_eq.
      + by rewrite lookup_insert_ne. }
  assert (Htk : ∀ u uk, tasks w !! u = Some uk → ∃ uk', tasks w' !! u = Some uk' ∧
            process_id uk' = process_id uk ∧ (is_leader uk = true → is_leader uk' = true)).
  { intros u uk Hu. rewrite HT. destruct (decide (t = u)) as [<-|].
    - rewrite lookup_alter_eq, Hu. simpl. eauto.
    - rewrite lookup_alter_ne by done. eauto. }
  assert (Hold : ∀ q e, q ≠ p → live_ok w q e →
            live_ok w' q (if decide (q = pp) then set_children (children e ++ [p]) e else e)).
  { intros q e Hq [L1 L2 L3 L4 L5 L6 L7 L8]. split.
    - case_decide; [|done]. simpl. apply NoDup_snoc; [|done]. intros Hin.
      destruct (L2 p Hin) as (_ & ec & Hec & _). congruence.
    - intros c Hc. assert (c = p ∧ q = pp ∨ c ∈ children e) as [[-> ->]|Hc'].
      { case_decide; simpl in Hc; [|by right].
        apply elem_of_app in Hc as [?|?%list_elem_of_singleton]; auto. }
      + split; [done|]. exists np. rewrite Hlk, decide_True by done. done.
      + destruct (L2 c Hc') as (? & ec & Hec & Hpar). split; [done|]. rewrite Hlk.
        rewrite decide_False by congruence. destruct (decide (c = pp)) as [->|]; [|by eauto].
        eexists. split; [done|]. simpl. congruence.
    - intros Hk. case_decide; simpl; auto.
    - intros Hk. destruct (L4 Hk) as (H1 & H2 & ep & Hep & Hin).
      replace (parent (if decide (q = pp) then set_children (children e ++ [p]) e else e))
        with (parent e) by (by case_decide).
      split; [done|]. rewrite HL. split; [set_solver|]. rewrite Hlk.
      rewrite decide_False by congruence.
      destruct (decide (parent e = pp)) as [Hpe|]; [|by eauto].
      eexists. split; [done|]. simpl. apply elem_of_app. left. congruence.
    - intros Hk. destruct (L5 Hk) as (u & uk & Hm & Hs & Hu & Hl).
      destruct (Htk u uk Hu) as (uk' & Hu' & _ & Hl'). exists u, uk'.
      split_and!; [by case_decide|by case_decide|done|auto].
    - by case_decide.
    - intros u Hu. assert (u ∈ etasks e) as Hu' by (by case_decide).
      destruct (L7 u Hu') as (? & ? & uk & Huk & ?). destruct (Htk u uk Huk) as (uk' & ? & ? & _).
      split_and!; [by case_decide|by rewrite HD|]. exists uk'. split; [done|congruence].
    - by case_decide. }
  split.
  - intros q e. rewrite Hlk. case_decide as Hq; [intros [= <-]; subst; rewrite HN; by split_and!; auto|].
    destruct (decide (q = pp)) as [->|].
    + intros [= <-]. simpl. destruct (pi_ids _ I pp epp Hepp) as (? & ? & ?). rewrite HN. auto.
    + intros He. destruct (pi_ids _ I q e He) as (? & ? & ?). rewrite HN. auto.
  - intros u uk. rewrite HT, HN. intros Hu. destruct (decide (t = u)) as [<-|].
    + by eapply pi_tids.
    + rewrite lookup_alter_ne in Hu by done. by eapply pi_tids.
  - rewrite HN. apply I.
  - rewrite HL. pose proof (pi_kernel _ I). set_solver.
  - intros q. rewrite HL. intros Hq. destruct (decide (q = p)) as [->|Hqp].
    + exists np. rewrite Hlk, decide_True by done. split; [done|]. split; rewrite ?N2, ?N3, ?N4, ?N5, ?N7.
      * constructor.
      * intros c Hc. by apply not_elem_of_nil in Hc.
      * done.
      * intros _. split; [done|]. rewrite HL. split; [set_solver|].
        rewrite Hlk, decide_False, decide_True by done. eexists. split; [done|]. simpl. set_solver.
      * intros _. exists t, (set_is_leader true tk). split_and!; [done|done| |done].
        rewrite HT, lookup_alter_eq, Ht. done.
      * apply NoDup_singleton.
      * intros u ->%list_elem_of_singleton. split; [done|]. rewrite HD. split; [done|].
        destruct (Htk t tk Ht) as (tk' & ? & ? & _). exists tk'. split; [done|congruence].
      * by split.
    + assert (q ∈ PID2PC w) as Hqw by set_solver.
      destruct (pi_live _ I q Hqw) as (e & He & L). rewrite Hlk, decide_False by done.
      destruct (decide (q = pp)) as [->|Hqpp].
      * eexists. split; [done|]. pose proof (Hold pp e Hqp L) as HL'.
        rewrite decide_True in HL' by done. congruence.
      * exists e. split; [done|]. pose proof (Hold q e Hqp L) as HL'. by rewrite decide_False in HL'.
  - intros q e. rewrite Hlk, HL. intros He Hq. rewrite decide_False in He by set_solver.
    rewrite decide_False in He by set_solver. apply (pi_dead _ I q e He). set_solver.
Qed.
End clone.
#[export] Hint Resolve keeps_clone_memory keeps_clone_handler keeps_clone_settid
  keeps_insert_module keeps_insert_robust keeps_add_to_module keeps_wake keeps_std_table : keeps.

Section clone2.
Context {SS SH SA SI M : Type} `{AxSignal SS SH SA SI} `{ProcMem M}.
Context (TASK_STACK_SIZE SIGNAL_TRAMPOLINE STATUS : Z).
Notation W := (world SS SH M).
Notation E := (Executor SS).
Implicit Types (w : W) (e : E).

(** ** Replacing a process by one at the same place in the tree *)

(** The threads of [e'] and its main thread are in order. *)
Record threads_ok w (p : Z) (e' : E) : Prop := {
  th_nodup : NoDup (etasks e');
  th_tasks t : t ∈ etasks e' → is_Some (signal_modules e' !! t) ∧ t ∈ TID2TASK w ∧
    ∃ tk, tasks w !! t = Some tk ∧ process_id tk = p;
  th_main : p ≠ KERNEL_EXECUTOR_ID → ∃ t tk, main_task e' = Some t ∧
    is_Some (signal_modules e' !! t) ∧ tasks w !! t = Some tk ∧ is_leader tk = true;
}.

Lemma live_threads w p e : live_ok w p e → threads_ok w p e.
Proof. intros L. split; apply L. Qed.

Lemma pinv_replace w w' p e e' :
  pinv w → execs w !! p = Some e →
  pid e' = pid e → parent e' = parent e → children e' = children e →
  is_zombie e' = is_zombie e → memory_set e' = memory_set e →
  threads_ok w' p e' →
  execs w' = <[p := e']> (execs w) → PID2PC w' = PID2PC w → next_tid w' = next_tid w →
  mems w' = mems w →
  (∀ u uk, tasks w !! u = Some uk → ∃ uk', tasks w' !! u = Some uk' ∧
     process_id uk' = process_id uk ∧ (is_leader uk = true → is_leader uk' = true)) →
  (∀ u, is_Some (tasks w' !! u) → is_Some (tasks w !! u)) →
  (∀ u uk, tasks w !! u = Some uk → process_id uk ≠ p → u ∈ TID2TASK w → u ∈ TID2TASK w') →
  pinv w'.
Proof.
  intros I He Q1 Q2 Q3 Q4 Q7 [T1 T2 T3] HE HL HN HM HT HU HD.
  assert (Hlk : ∀ q, execs w' !! q = if decide (q = p) then Some e' else execs w !! q).
  { intros q. rewrite HE. destruct (decide (q = p)) as [->|]; [by rewrite lookup_insert_eq|].
    by rewrite lookup_insert_ne. }
  assert (Hpar : ∀ c ec, execs w !! c = Some ec → ∃ ec', execs w' !! c = Some ec' ∧
            parent ec' = parent ec ∧ children ec' = children ec).
  { intros c ec Hc. rewrite Hlk. destruct (decide (c = p)) as [->|]; [|eauto].
    exists e'. split; [done|]. split; congruence. }
  split.
  - intros q x. rewrite Hlk, HN, HM. destruct (decide (q = p)) as [->|]; [|apply I].
    intros [= <-]. rewrite Q1, Q7. by apply (pi_ids _ I).
  - intros u uk Hu. destruct (HU u) as [uk0 Hu0]; [eauto|]. rewrite HN. by eapply pi_tids.
  - rewrite HN. apply I.
  - rewrite HL. apply I.
  - rewrite HL. intros q Hq. destruct (pi_live _ I q Hq) as (x & Hx & [L1 L2 L3 L4 L5 L6 L7 L8]).
    rewrite Hlk.
    assert (Hc : ∀ c, c ∈ children x → c ≠ KERNEL_EXECUTOR_ID ∧
              ∃ ec, execs w' !! c = Some ec ∧ parent ec = q).
    { intros c Hc. destruct (L2 c Hc) as (? & ec & Hec & ?).
      destruct (Hpar c ec Hec) as (ec' & ? & ? & _). split; [done|]. exists ec'. split; congruence. }
    assert (Hp : q ≠ KERNEL_EXECUTOR_ID → parent x ≠ q ∧ parent x ∈ PID2PC w' ∧
              ∃ ep, execs w' !! parent x = Some ep ∧ q ∈ children ep).
    { intros Hk. destruct (L4 Hk) as (? & ? & ep & Hep & ?).
      destruct (Hpar _ ep Hep) as (ep' & ? & _ & ?). rewrite HL. split_and!; [done..|].
      exists ep'. split; congruence. }
    destruct (decide (q = p)) as [->|Hqp].
    + assert (x = e) as -> by congruence. exists e'. split; [done|].
      split; rewrite ?Q2, ?Q3, ?Q4; done.
    + exists x. split; [done|]. split; try done.
      * intros Hk. destruct (L5 Hk) as (u & uk & ? & ? & Hu & ?).
        destruct (HT u uk Hu) as (uk' & ? & _ & ?). exists u, uk'. auto.
      * intros u Hu. destruct (L7 u Hu) as (? & ? & uk & Huk & ?).
        destruct (HT u uk Huk) as (uk' & ? & ? & _). split_and!; [done| |exists uk'; split; congruence].
        apply (HD u uk); congruence.
  - rewrite HL. intros q x. rewrite Hlk. destruct (decide (q = p)) as [->|]; [|apply I].
    intros [= <-] Hq. rewrite Q4. by apply (pi_dead _ I p).
Qed.

(** Task [t] is added to process [p], with its signal module. *)
Lemma pinv_thread w w' p t e e' :
  pinv w → p ∈ PID2PC w → execs w !! p = Some e → t ∉ etasks e →
  (∃ tk, tasks w !! t = Some tk ∧ process_id tk = p) → t ∈ TID2TASK w →
  etasks e' = etasks e ++ [t] → is_Some (signal_modules e' !! t) →
  esim (set_etasks (etasks e') e) e' →
  execs w' = <[p := e']> (execs w) → PID2PC w' = PID2PC w → tasks w' = tasks w →
  TID2TASK w' = TID2TASK w → next_tid w' = next_tid w → mems w' = mems w → pinv w'.
Proof.
  intros I Hp He Ht Htk Hti He' Hmod [Q1 Q2 Q3 Q4 Q5 Q6 Q7 Q8] HE HL HT HD HN HM.
  simpl in *. destruct (pi_live _ I p Hp) as (x & Hx & L). assert (x = e) as -> by congruence.
  apply live_threads in L as [T1 T2 T3].
  apply (pinv_replace w w' p e e'); rewrite ?HT, ?HD; eauto. split.
  - rewrite He'. by apply NoDup_snoc.
  - intros u. rewrite He', HT, HD. intros [Hu|Hu%list_elem_of_singleton]%elem_of_app.
    + destruct (T2 u Hu) as (? & ? & ?). auto.
    + subst u. auto.
  - rewrite HT, Q5. intros Hk. destruct (T3 Hk) as (u & uk & ? & ? & ? & ?). exists u, uk. auto.
Qed.

(** [clone_process] adds the process it makes. *)
Lemma wp_clone_process cf p pp mem t handler xs e w :
  pinv w → execs w !! p = None → KERNEL_EXECUTOR_ID < p → pp < p → p < next_tid w → pp ∈ PID2PC w →
  is_Some (mems w !! mem) → (∃ tk, tasks w !! t = Some tk ∧ process_id tk = p) →
  t ∈ TID2TASK w →
  wp (λ _ w', pinv w' ∧ PID2PC w' = {[p]} ∪ PID2PC w) pinv True
    (clone_process TASK_STACK_SIZE cf p pp mem t handler xs e) w.
Proof.
  intros I Hp Hkp Hlt Hpn Hpp Hmem Htk Hti. unfold clone_process.
  apply wp_bind, wp_keeps; [eauto with keeps|intros cwd0 w1 _ S1|eauto using pinv_stable|done].
  apply wp_bind, wp_keeps; [eauto with keeps|intros mask0 w2 _ S2|eauto using pinv_stable, stable_trans|done].
  pose proof (stable_trans _ _ _ S1 S2) as S12. clear S1 S2 w1.
  apply wp_bind, wp_keeps; [keep|intros table w3 _ S3|eauto using pinv_stable, stable_trans|done].
  pose proof (stable_trans _ _ _ S12 S3) as S. clear S12 S3 w2.
  set (np := executor_new _ _ _ _ _ _ _ _).
  apply wp_bind, wp_modify. intros w4 E4.
  apply wp_bind, wp_lookup; [intros s _|done].
  apply wp_bind, wp_modify. intros w5 E5.
  apply wp_bind, wp_modify. intros w6 E6.
  apply wp_bind, wp_modify. intros w7 E7.
  apply wp_bind, wp_modify. intros w8 E8.
  apply wp_bind, wp_modify. intros w9 E9.
  apply wp_bind, wp_modify. intros w10 E10.
  apply wp_bind, wp_modify. intros w11 E11.
  apply wp_bind, wp_reads.
  assert (HL : PID2PC w11 = {[p]} ∪ PID2PC w).
  { rewrite E11, E10, E9, E8, E7, E6, E5, E4. simpl. by rewrite (st_live _ _ S). }
  rewrite bool_decide_eq_true_2 by (rewrite HL; set_solver).
  apply wp_bind, wp_modify. intros w12 E12.
  unfold wp, pret. split; [|by rewrite E12].
  apply (pinv_fork w3 w12 p t pp (set_robust_list (<[t := mk_robust 0 0]> ∅)
    (set_signal_modules (<[t := clone_module handler xs]> ∅) (set_etasks [t]
      (set_main_task (Some t) np))))).
  - by eapply pinv_stable.
  - destruct (execs w3 !! p) eqn:E3; [|done]. destruct (st_dom _ _ S p) as [? ?]; [eauto|congruence].
  - done.
  - done.
  - pose proof (st_next _ _ S). lia.
  - by rewrite (st_live _ _ S).
  - done.
  - done.
  - done.
  - done.
  - done.
  - exists (clone_module handler xs). apply lookup_insert_eq.
  - done.
  - by apply (st_mems _ _ S).
  - destruct Htk as (tk & Htk & Hpid). destruct (st_tasks _ _ S t tk Htk) as (tk' & ? & ? & _).
    exists tk'. split; [done|congruence].
  - by apply (st_tids _ _ S).
  - rewrite E12, E11, E10, E9, E8, E7, E6, E5, E4. simpl. by rewrite !alter_insert_eq.
  - by rewrite E12, E11, E10, E9, E8, E7, E6, E5, E4.
  - by rewrite E12, E11, E10, E9, E8, E7, E6, E5, E4.
  - by rewrite E12, E11, E10, E9, E8, E7, E6, E5, E4.
  - by rewrite E12, E11, E10, E9, E8, E7, E6, E5, E4.
  - by rewrite E12, E11, E10, E9, E8, E7, E6, E5, E4.
Qed.

(** What is left of [clone_task] once the new thread or process is in place. *)
Lemma keeps_clone_tail cf self t (tf : TrapFrame) (r : Z) :
  keeps (SS := SS) (SH := SH) (M := M)
    (pbind (upd_task t (set_utrap_frame (Some tf))) (λ _,
     pbind (effect (AddTask t)) (λ _,
     pbind (pwhen (has_flag cf CLONE_VFORK) (upd_exec self (set_blocked_by_vfork true))) (λ _,
     pret (r, has_flag cf CLONE_VFORK))))).
Proof. keep. Qed.

Lemma wp_keeps_pinv {A} (x : P A) w :
  keeps x → pinv w → wp (SS := SS) (SH := SH) (M := M) (λ _ w', pinv w') pinv True x w.
Proof. intros Hx I. apply wp_keeps; eauto using pinv_stable. Qed.

Lemma clone_task_pinv cur self flags stack ptid tls ctid xs w :
  pinv w → runs w cur self →
  wp (λ _ w', pinv w') pinv True
    (clone_task TASK_STACK_SIZE cur self flags stack ptid tls ctid xs) w.
Proof.
  intros I R. unfold clone_task.
  apply wp_bind, wp_punwrap; [intros cf _|done].
  apply wp_bind, wp_the_exec; [intros e He|done].
  apply wp_bind, wp_keeps; [eauto with keeps|intros mem w1 _ S1|eauto using pinv_stable|done].
  pose proof (pinv_stable _ _ S1 I) as I1. destruct R as (Hself & Hlive & e0 & He0 & Hcur).
  assert (e0 = e) as -> by congruence. destruct (pi_ids _ I self e He) as (Hpid & _ & _).
  apply wp_bind, wp_keeps; [keep|intros p w2 G2 S2|eauto using pinv_stable, stable_trans|done].
  pose proof (pinv_stable _ _ S2 I1) as I2.
  apply wp_bind, wp_the_mem; [intros m Hm|done].
  apply wp_bind, wp_the_task; [intros c _|done].
  apply wp_bind, wp_punwrap; [intros tf _|done].
  apply wp_bind, wp_new_task_inner; [apply (pi_tids _ I2)|]. intros w3 S3 Hn3 Ht3. set (t := next_tid w2) in *.
  pose proof (pinv_stable _ _ S3 I2) as I3.
  apply wp_bind, wp_modify. intros w4 E4.
  assert (stable w3 w4) as S4 by (rewrite E4; apply (keeps_add_tid t)).
  pose proof (pinv_stable _ _ S4 I3) as I4.
  apply wp_bind, wp_keeps; [eauto with keeps|intros handler w5 _ S5|eauto using pinv_stable|done].
  pose proof (pinv_stable _ _ S5 I4) as I5.
  apply wp_bind, wp_keeps; [eauto with keeps|intros _ w6 _ S6|eauto using pinv_stable|done].
  pose proof (pinv_stable _ _ S6 I5) as I6.
  assert (stable w3 w6) as S36 by eauto using stable_trans.
  assert (stable w w6) as S06 by eauto using stable_trans.
  assert (t ∈ TID2TASK w6) as Hti.
  { apply (st_tids _ _ S6), (st_tids _ _ S5). rewrite E4. simpl. set_solver. }
  assert (∃ tk, tasks w6 !! t = Some tk ∧ process_id tk = p) as Htk.
  { destruct (st_tasks _ _ S36 t _ Ht3) as (tk & ? & ? & _). eauto. }
  assert (is_Some (mems w6 !! mem)) as Hmem.
  { apply (st_mems _ _ S36), (st_mems _ _ S3). eauto. }
  apply wp_bind. apply wp_mono with (Q := λ _ w', pinv w') (R := pinv); [|intros rid w7 I7|done].
  2: { cbv zeta. apply wp_keeps_pinv; [apply keeps_clone_tail|done]. }
  destruct (st_execs _ _ S06 self e He) as (e6 & He6 & Hs6).
  destruct (has_flag cf CLONE_THREAD).
  - injection G2 as <- <-. rewrite Hpid in *.
    apply wp_bind, wp_modify. intros w7 E7. apply wp_bind, wp_modify. intros w8 E8.
    apply wp_bind, wp_modify. intros w9 E9. unfold wp, pret.
    eapply (pinv_thread w6 w9 self t e6); [done|by rewrite (st_live _ _ S06)|done|..].
    + intros Hin. destruct (pi_live _ I self Hlive) as (e1 & He1 & L). assert (e1 = e) as -> by congruence.
      rewrite (es_tasks _ _ Hs6) in Hin. destruct (lo_tasks _ _ _ L t Hin) as (_ & _ & tk & Htk0 & _).
      apply (pi_tids _ I) in Htk0. pose proof (st_next _ _ S1). unfold t in Htk0. lia.
    + done.
    + done.
    + shelve.
    + shelve.
    + shelve.
    + rewrite E9, E8, E7. simpl.
      rewrite <- (insert_id (execs w6) self e6 He6) at 1. rewrite !alter_insert_eq. reflexivity.
    + by rewrite E9, E8, E7.
    + by rewrite E9, E8, E7.
    + by rewrite E9, E8, E7.
    + by rewrite E9, E8, E7.
    + by rewrite E9, E8, E7.
    Unshelve.
    * done.
    * simpl. rewrite lookup_insert_eq. eauto.
    * split; try done. simpl. intros u Hu. destruct (decide (t = u)) as [->|];
        [rewrite lookup_insert_eq; eauto|by rewrite lookup_insert_ne].
  - unfold new_task_id in G2. injection G2 as <- <-.
    assert (next_tid w ≤ next_tid w1) by apply (st_next _ _ S1).
    eapply wp_mono; [apply wp_clone_process|by intros ? ? [? _]|done]; [done|..].
    + destruct (execs w6 !! next_tid w1) as [x|] eqn:Ex; [|done]. exfalso.
      destruct (st_dom _ _ S06 (next_tid w1)) as [y Hy]; [eauto|].
      destruct (pi_ids _ I _ _ Hy) as (_ & ? & _). lia.
    + pose proof (pi_next _ I). lia.
    + destruct (pi_ids _ I self e He) as (_ & Hs & _). destruct (has_flag cf CLONE_PARENT); [|lia].
      destruct (pi_live _ I self Hlive) as (e1 & He1 & L). assert (e1 = e) as -> by congruence.
      pose proof (lo_below _ _ _ L Hself). lia.
    + pose proof (st_next _ _ S36). unfold t in *. simpl in *. lia.
    + rewrite (st_live _ _ S06). destruct (has_flag cf CLONE_PARENT); [|by rewrite Hpid].
      destruct (pi_live _ I self Hlive) as (e1 & He1 & L). assert (e1 = e) as -> by congruence.
      apply (lo_parent _ _ _ L Hself).
    + done.
    + done.
    + done.
Qed.
End clone2.

Section lifecycle.
Context {SS SH SA SI M : Type} `{AxSignal SS SH SA SI} `{ProcMem M}.
Context (TASK_STACK_SIZE SIGNAL_TRAMPOLINE STATUS : Z).
Notation W := (world SS SH M).
Notation E := (Executor SS).
Implicit Types (w : W) (e : E).

(** ** [exec] *)

Lemma stable_alter_all f ts w :
  (∀ tk, process_id (f tk) = process_id tk ∧ is_leader (f tk) = is_leader tk) →
  stable w (set_tasks (foldr (λ t m, alter f t m) (tasks w) ts) w).
Proof.
  intros Hf. induction ts as [|t ts IH]; simpl.
  - by apply stable_same.
  - eapply stable_trans; [exact IH|]. set (m := foldr _ _ _).
    exact (stable_upd_task t f (set_tasks m w) Hf).
Qed.

Lemma keeps_exec_memory self e : keeps (SS := SS) (SH := SH) (M := M) (exec_memory self e).
Proof.
  unfold exec_memory, the_mem. keep. apply keeps_modify. intros w. by apply stable_alter_all.
Qed.
Lemma keeps_close_files e : keeps (SS := SS) (SH := SH) (M := M) (exec_close_files e).
Proof. unfold exec_close_files. keep. Qed.

(** The loop over the tasks succeeds only on a list that ends with the current
    task, and leaves it as it is. *)
Lemma exec_tasks_spec n cur ts R w :
  wp (SS := SS) (SH := SH) (M := M) (λ ts' w', w' = w ∧ ts' = ts) R True (exec_tasks n cur ts) w.
Proof.
  induction n as [|n IH]; simpl; [done|].
  destruct (last ts) as [t|] eqn:El; [|done]. case_decide as Ht; [|done].
  apply last_Some in El as [ts0 ->]. rewrite length_app. simpl.
  replace (length ts0 + 1 - 1)%nat with (length ts0) by lia. by rewrite take_app_length.
Qed.

Lemma exec_pinv cur self now name args envs w :
  pinv w → runs w cur self →
  wp (λ _ w', pinv w') pinv True (exec SIGNAL_TRAMPOLINE STATUS cur self now name args envs) w.
Proof.
  intros I R. unfold exec. pose proof R as (Hself & Hlive & e0 & He0 & Hcur).
  apply wp_bind, wp_the_exec; [intros e He|done]. assert (e0 = e) as -> by congruence.
  apply wp_bind, wp_keeps; [apply keeps_exec_memory|intros _ w1 _ S1|eauto using pinv_stable|done].
  apply wp_bind, wp_keeps; [apply keeps_close_files|intros _ w2 _ S2|eauto using pinv_stable, stable_trans|done].
  pose proof (stable_trans _ _ _ S1 S2) as S. pose proof (pinv_stable _ _ S I) as I2.
  apply wp_bind. eapply wp_mono; [apply exec_tasks_spec|intros ts w2' [-> ->]|done].
  destruct (st_execs _ _ S self e He) as (e2 & He2 & Hs2).
  assert (self ∈ PID2PC w2) as Hl2 by (by rewrite (st_live _ _ S)).
  destruct (pi_live _ I2 self Hl2) as (x & Hx & L2). assert (x = e2) as -> by congruence.
  apply live_threads in L2 as [T1 T2 T3].
  assert (cur ∈ etasks e2) as Hc2 by (by rewrite (es_tasks _ _ Hs2)).
  destruct (T2 cur Hc2) as (Hmod & Hti & tkc & Htk & Hpc).
  (* the current task becomes the main one *)
  apply wp_bind, wp_modify. intros w3 E3. apply wp_bind, wp_modify. intros w4 E4.
  apply wp_bind, wp_modify. intros w5 E5.
  set (e5 := set_main_task (Some cur) (set_etasks (etasks e) e2)).
  assert (He5 : execs w5 = <[self := e5]> (execs w2)).
  { rewrite E5, E4, E3. simpl. rewrite <- (insert_id (execs w2) self e2 He2) at 1.
    by rewrite !alter_insert_eq. }
  assert (HT5 : tasks w5 = alter (set_is_leader true) cur (tasks w2)) by (by rewrite E5, E4, E3).
  assert (I5 : pinv w5).
  { apply (pinv_replace w2 w5 self e2 e5); try done; try (by rewrite E5, E4, E3).
    - assert (Ht : ∀ u uk, tasks w2 !! u = Some uk → ∃ uk', tasks w5 !! u = Some uk' ∧
                process_id uk' = process_id uk).
      { intros u uk Hu. rewrite HT5. destruct (decide (cur = u)) as [<-|];
          [rewrite lookup_alter_eq, Hu; simpl; eauto|rewrite lookup_alter_ne; eauto]. }
      split; simpl; rewrite <- ?(es_tasks _ _ Hs2).
      + done.
      + intros u Hu. destruct (T2 u Hu) as (? & ? & uk & Huk & ?).
        destruct (Ht u uk Huk) as (uk' & ? & ?). split_and!; [done|by rewrite E5, E4, E3|].
        exists uk'. split; congruence.
      + intros _. exists cur, (set_is_leader true tkc). split_and!; [done|done| |done].
        by rewrite HT5, lookup_alter_eq, Htk.
    - intros u uk Hu. rewrite HT5. destruct (decide (cur = u)) as [<-|];
        [rewrite lookup_alter_eq, Hu; simpl; eauto|rewrite lookup_alter_ne; eauto].
    - intros u. rewrite HT5. destruct (decide (cur = u)) as [<-|];
        [by rewrite lookup_alter_eq, fmap_is_Some|by rewrite lookup_alter_ne]. }
  apply wp_bind, wp_keeps; [keep|intros _ w6 _ S6|eauto using pinv_stable|done].
  apply wp_bind, wp_keeps; [keep|intros _ w7 _ S7|eauto using pinv_stable, stable_trans|done].
  apply wp_bind. case_decide as Hone; [|done]. unfold wp at 1, pret.
  apply wp_bind, wp_the_mem; [intros m Hm|done].
  apply wp_bind, wp_keeps; [keep|intros _ w8 _ S8|eauto using pinv_stable, stable_trans|done].
  assert (stable w5 w8) as S58 by eauto using stable_trans.
  destruct (load_app name _ envs m).1 as [[[entry usp] heap]|]; [|by eapply pinv_stable].
  apply wp_bind, wp_keeps; [keep|intros _ w9 _ S9|eauto using pinv_stable, stable_trans|done].
  apply wp_bind, wp_keeps; [keep|intros _ w10 _ S10|eauto using pinv_stable, stable_trans|done].
  apply wp_bind, wp_keeps; [keep|intros _ w11 _ S11|eauto using pinv_stable, stable_trans|done].
  assert (stable w5 w11) as S511 by eauto using stable_trans. clear S9 S10 S11 w9 w10.
  apply wp_bind, wp_keeps; [eauto with keeps|intros h w12 _ S12|eauto using pinv_stable, stable_trans|done].
  assert (stable w5 w12) as S512 by eauto using stable_trans.
  pose proof (pinv_stable _ _ S512 I5) as I12.
  (* only the current task keeps a signal module *)
  apply wp_bind, wp_modify. intros w13 E13.
  destruct (st_execs _ _ S512 self e5) as (e12 & He12 & Hs12); [by rewrite He5, lookup_insert_eq|].
  assert (etasks e = [cur]) as Hsing.
  { destruct (etasks e) as [|u [|]]; simplify_eq/=. by apply list_elem_of_singleton in Hcur as ->. }
  assert (I13 : pinv w13).
  { assert (self ∈ PID2PC w12) as Hl12.
    { rewrite (st_live _ _ S512), E5, E4, E3. done. }
    destruct (pi_live _ I12 self Hl12) as (x & Hx12 & L12). assert (x = e12) as -> by congruence.
    apply live_threads in L12 as [U1 U2 U3]. pose proof (es_tasks _ _ Hs12) as Htasks.
    pose proof (es_main _ _ Hs12) as Hmain. simpl in Htasks, Hmain. rewrite Hsing in Htasks.
    apply (pinv_replace w12 w13 self e12 (set_signal_modules {[cur := init_signal h]} e12));
      try done; try (by rewrite E13); try (by rewrite E13; eauto).
    - split; simpl.
      + done.
      + intros u Hu. destruct (U2 u Hu) as (_ & ? & ?). rewrite E13. split; [|auto].
        rewrite Htasks in Hu. apply list_elem_of_singleton in Hu as ->. rewrite lookup_singleton_eq. eauto.
      + intros Hk. destruct (U3 Hk) as (u & uk & Hu & _ & Huk & ?). exists u, uk. rewrite E13.
        split_and!; [done| |done|done]. assert (u = cur) as -> by congruence.
        rewrite lookup_singleton_eq. eauto.
    - rewrite E13. simpl. rewrite <- (insert_id (execs w12) self e12 He12) at 1.
      by rewrite alter_insert_eq. }
  apply wp_keeps_pinv; [|done]. unfold the_mem. keep.
Qed.

(** ** [exit]: the pieces before the last do not panic *)

Lemma wp_current_executor Q R N cur p e w :
  pinv w → p ∈ PID2PC w → execs w !! p = Some e → cur ∈ etasks e →
  Q e w → wp Q R N (current_executor cur) w.
Proof.
  intros I Hp He Hc HQ. destruct (pi_live _ I p Hp) as (x & Hx & L).
  assert (x = e) as -> by congruence.
  destruct (lo_tasks _ _ _ L cur Hc) as (_ & _ & tk & Htk & Hpid). unfold current_executor.
  apply wp_bind, wp_the_task; [intros tk' Htk'|congruence].
  assert (tk' = tk) as -> by congruence. apply wp_bind, wp_reads.
  rewrite bool_decide_eq_true_2 by congruence. rewrite Hpid.
  apply wp_the_exec; [intros e' He'|congruence]. by assert (e' = e) as -> by congruence.
Qed.

(** Under the invariant a signal reaches a live user process. *)
Lemma send_to_process_ok p signum info w :
  pinv w → p ∈ PID2PC w → p ≠ KERNEL_EXECUTOR_ID →
  wp (λ _ w', stable w w') (λ _, False) False
    (must (send_signal_to_process (SS := SS) (SH := SH) (M := M) p signum info)) w.
Proof.
  intros I Hp Hk. destruct (pi_live _ I p Hp) as (e & He & L).
  destruct (lo_main _ _ _ L Hk) as (t & tk & Hm & [m Hmod] & Htk & _).
  pose proof (keeps_add_to_module (SS := SS) (SH := SH) (M := M) p t signum info w) as S1.
  unfold wp, must, send_signal_to_process, pbind, reads. rewrite bool_decide_eq_true_2 by done.
  cbn [negb]. unfold the_exec, punwrap at 1. rewrite He. cbn [pret]. rewrite Hm. unfold punwrap at 1.
  rewrite Hmod. cbn [pret].
  destruct (add_to_module p t signum info w) as [r w1] eqn:E1. injection E1 as <- <-. cbn [snd] in S1.
  set (w1 := set_execs _ w) in *.
  destruct (st_tasks _ _ S1 t tk Htk) as (tk1 & Htk1 & _).
  pose proof (keeps_wake (SS := SS) (SH := SH) (M := M) t w1) as S2.
  unfold wake_if_blocked, pbind, the_task in *. rewrite Htk1 in *. cbn [punwrap pret] in *.
  destruct (bool_decide _); simpl in *; by eapply stable_trans.
Qed.

Lemma send_to_thread_ok t p e signum w :
  pinv w → p ∈ PID2PC w → execs w !! p = Some e → t ∈ etasks e →
  wp (λ _ w', stable w w') (λ _, False) False
    (must (send_signal_to_thread (SS := SS) (SH := SH) (M := M) t signum)) w.
Proof.
  intros I Hp He Ht. destruct (pi_live _ I p Hp) as (x & Hx & L). assert (x = e) as -> by congruence.
  destruct (lo_tasks _ _ _ L t Ht) as ([m Hmod] & Hti & tk & Htk & Hpid).
  pose proof (keeps_add_to_module (SS := SS) (SH := SH) (M := M) p t signum None w) as S1.
  unfold wp, must, send_signal_to_thread, pbind, reads. rewrite bool_decide_eq_true_2 by done.
  cbn [negb]. unfold the_task at 1, punwrap at 1. rewrite Htk. cbn [pret]. rewrite Hpid.
  rewrite bool_decide_eq_true_2 by done. cbn [negb]. unfold the_exec, punwrap at 1. rewrite He.
  cbn [pret]. rewrite Hmod.
  destruct (add_to_module p t signum None w) as [r w1] eqn:E1. injection E1 as <- <-. cbn [snd] in S1.
  set (w1 := set_execs _ w) in *.
  destruct (st_tasks _ _ S1 t tk Htk) as (tk1 & Htk1 & _).
  pose proof (keeps_wake (SS := SS) (SH := SH) (M := M) t w1) as S2.
  unfold wake_if_blocked, pbind, the_task in *. rewrite Htk1 in *. cbn [punwrap pret] in *.
  destruct (bool_decide _); simpl in *; by eapply stable_trans.
Qed.

Lemma wp_alloc_store i a v b w (f : P unit) (R : W → Prop) :
  is_Some (mems w !! i) → (∀ w', stable w w' → wp (λ _ w'', stable w w'') R False f w') →
  wp (λ _ w', stable w w') R False
    (pbind (alloc_for_lazy i a) (λ ok, pwhen (b ok) (pbind (store_i32 i a v) (λ _, f)))) w.
Proof.
  intros Hm Hf.
  pose proof (keeps_alloc (SS := SS) (SH := SH) (M := M) i a w) as S1.
  unfold wp, pbind at 1. unfold alloc_for_lazy, pbind, the_mem in *. destruct Hm as [m Hm].
  rewrite Hm in *. cbn [punwrap pret] in *. destruct (put_mem i (mem_alloc a m).2 w) as [r w1] eqn:E1.
  injection E1 as <- <-. cbn [snd pret] in *. set (w1 := set_mems _ w) in *.
  destruct (b _); [|exact S1]. cbn [pwhen].
  pose proof (keeps_store (SS := SS) (SH := SH) (M := M) i a v w1) as S2.
  unfold store_i32, pbind, the_mem in *. destruct (st_mems _ _ S1 i ltac:(eauto)) as [m1 Hm1].
  rewrite Hm1 in *. cbn [punwrap pret] in *.
  destruct (put_mem i _ w1) as [r2 w2] eqn:E2. injection E2 as <- <-. cbn [snd] in S2.
  apply Hf. by eapply stable_trans.
Qed.

(** Telling the parent and clearing the thread id. *)
Lemma exit_begin_ok cur p w :
  pinv w → runs w cur p →
  wp (λ _ w', stable w w') (λ _, False) False (exit_begin (SS := SS) (SH := SH) (M := M) cur) w.
Proof.
  intros I (Hk & Hp & e & He & Hc). destruct (pi_live _ I p Hp) as (x & Hx & L).
  assert (x = e) as -> by congruence.
  destruct (lo_tasks _ _ _ L cur Hc) as ([m Hmod] & _ & tk & Htk & Hpid). unfold exit_begin.
  apply wp_bind, (wp_current_executor _ _ _ _ p e); [done..|].
  apply wp_bind, wp_punwrap; [intros m' _|congruence].
  apply wp_bind, wp_the_task; [intros c _|congruence].
  apply wp_bind. apply (wp_mono (λ _ w', stable w w') _ (λ _, False)); [|intros _ w1 S1|done].
  - apply wp_pwhen; [|intros; apply stable_refl].
    intros [_ Hpar]%andb_true_iff. apply bool_decide_eq_true in Hpar.
    apply send_to_process_ok; [done| |done]. apply (lo_parent _ _ _ L Hk).
  - apply wp_pwhen; [intros _|intros; done].
    apply wp_mono with (Q := λ _ w', stable w1 w') (R := λ _, False);
      [apply (wp_alloc_store _ _ _ (λ ok, ok))|intros; by eapply stable_trans|done].
    + apply (st_mems _ _ S1). by apply (pi_ids _ I p).
    + intros w2 S2. unfold wp, effect, modify. eapply stable_trans; [done|]. by apply stable_same.
Qed.

(** One turn of the loop over the other threads. *)
Lemma exit_kill_ok ts b p w :
  pinv w → p ∈ PID2PC w → (∃ e, execs w !! p = Some e ∧ ∀ t, t ∈ ts → t ∈ etasks e) →
  wp (λ _ w', stable w w') (λ _, False) False (exit_kill (SS := SS) (SH := SH) (M := M) ts b) w.
Proof.
  revert b w. induction ts as [|t ts IH]; intros b w I Hp (e & He & Hts); [apply stable_refl|].
  cbn [exit_kill]. destruct (pi_live _ I p Hp) as (x & Hx & L). assert (x = e) as -> by congruence.
  destruct (lo_tasks _ _ _ L t (Hts t ltac:(by left))) as (_ & _ & tk & Htk & _).
  apply wp_bind, wp_the_task; [intros tk' _|congruence].
  destruct (negb _ && _).
  - apply wp_bind. apply wp_mono with (Q := λ _ w', stable w w') (R := λ _, False);
      [apply (send_to_thread_ok t p e); try done; apply Hts; by left|intros _ w1 S1|done].
    apply wp_mono with (Q := λ _ w', stable w1 w') (R := λ _, False);
      [apply IH|intros; by eapply stable_trans|done].
    + by eapply pinv_stable.
    + by rewrite (st_live _ _ S1).
    + destruct (st_execs _ _ S1 p e He) as (e1 & He1 & Hs). exists e1. split; [done|].
      intros u Hu. rewrite (es_tasks _ _ Hs). apply Hts. by right.
  - apply IH; [done..|]. exists e. split; [done|]. intros u Hu. apply Hts. by right.
Qed.

Lemma exit_poll_ok cur p w :
  pinv w → runs w cur p →
  wp (λ _ w', stable w w') (λ _, False) False (exit_poll (SS := SS) (SH := SH) (M := M) cur) w.
Proof.
  intros I (Hk & Hp & e & He & Hc). unfold exit_poll.
  apply wp_bind, (wp_current_executor _ _ _ _ p e); [done..|].
  apply (exit_kill_ok _ _ p); eauto.
Qed.
End lifecycle.
