(* ===== verification/ProcessTree.v ===== *)
(** * Processes: leaving the tree, and the theorems

    The operations that take a process out of the tree ([exit] of a leader and
    [wait_pid]), the first process ([init_user]), the step relation of all the
    process operations, and the theorems about them. *)

From S2P Require Import Prelude Memory UserMem Path Vfs RootFs.
From S2P Require Import TaskRun Futex TimeStat Signal FdManager Process ProcessProps.

Open Scope Z_scope.

Section leave.
Context {SS SH SA SI M : Type} `{AxSignal SS SH SA SI} `{ProcMem M}.
Context (TASK_STACK_SIZE SIGNAL_TRAMPOLINE STATUS : Z).
Notation W := (world SS SH M).
Notation E := (Executor SS).
Implicit Types (w : W) (e : E).

(** ** [exit] of a thread *)

Lemma remove_first_elem t u (l : list Z) : u ∈ remove_first t l → u ∈ l.
Proof.
  induction l as [|x l IH]; simpl; [done|]. case_decide; [by right|].
  intros [->|Hu]%elem_of_cons; [by left|right; auto].
Qed.

Lemma remove_first_nodup t (l : list Z) :
  NoDup l → NoDup (remove_first t l) ∧ t ∉ remove_first t l.
Proof.
  induction l as [|x l IH]; simpl; intros Hl; [by split; [|apply not_elem_of_nil]|].
  apply NoDup_cons in Hl as [Hx Hl]. destruct (IH Hl) as [IH1 IH2]. case_decide as Ht.
  - by subst.
  - split.
    + apply NoDup_cons. split; [|done]. intros Hin. by apply Hx, (remove_first_elem t).
    + intros [?|?]%elem_of_cons; [congruence|done].
Qed.

Lemma exit_thread_pinv cur p e w :
  pinv w → p ∈ PID2PC w → execs w !! p = Some e → cur ∈ etasks e →
  (∃ tk, tasks w !! cur = Some tk ∧ is_leader tk = false) →
  wp (λ _ w', pinv w' ∧ tasks w' = tasks w) (λ _, False) False
    (exit_thread (SS := SS) (SH := SH) (M := M) cur e) w.
Proof.
  intros I Hp He Hc (ctk & Hctk & Hlead). destruct (pi_ids _ I p e He) as (Hpid & _).
  unfold exit_thread. rewrite Hpid.
  apply wp_bind, wp_modify. intros w1 E1. apply wp_bind, wp_modify. intros w2 E2.
  apply wp_modify. intros w3 E3.
  destruct (pi_live _ I p Hp) as (x & Hx & L). assert (x = e) as -> by congruence.
  apply live_threads in L as [T1 T2 T3].
  split; [|by rewrite E3, E2, E1].
  set (e' := set_signal_modules (delete cur (signal_modules e)) (set_etasks (remove_first cur (etasks e)) e)).
  apply (pinv_replace w w3 p e e'); try done; try (by rewrite E3, E2, E1); try (by rewrite E3, E2, E1; eauto).
  - destruct (remove_first_nodup cur _ T1) as [Hnd Hnin]. split; simpl.
    + done.
    + intros u Hu. assert (u ≠ cur) as Hne by (by intros ->).
      destruct (T2 u (remove_first_elem _ _ _ Hu)) as (? & ? & ?).
      rewrite lookup_delete_ne by done. split_and!; [done| |by rewrite E3, E2, E1].
      rewrite E3, E2, E1. simpl. set_solver.
    + intros Hk. destruct (T3 Hk) as (t & tk & ? & ? & Ht & ?). exists t, tk.
      assert (t ≠ cur) by (intros ->; congruence).
      rewrite lookup_delete_ne by done. split_and!; try done. by rewrite E3, E2, E1.
  - rewrite E3, E2, E1. simpl. rewrite <- (insert_id (execs w) p e He) at 1.
    by rewrite !alter_insert_eq.
  - intros u uk Hu Hne Hin. rewrite E3, E2, E1. simpl. apply elem_of_difference. split; [done|].
    intros ->%elem_of_singleton. destruct (T2 cur Hc) as (_ & _ & tk & ? & ?). congruence.
Qed.

(** ** [exit] of a leader *)

(** An executor after its children [cs] have been handed over, as seen by pid. *)
Definition adopted (cs : list Z) (q : Z) (x : E) : E :=
  let x := if decide (q = KERNEL_EXECUTOR_ID) then set_children (children x ++ cs) x else x in
  if decide (q ∈ cs) then set_parent KERNEL_EXECUTOR_ID x else x.

Lemma adopt_spec cs w Q R N :
  KERNEL_EXECUTOR_ID ∉ cs →
  (∀ w', (∀ q, execs w' !! q = adopted cs q <$> execs w !! q) →
     PID2PC w' = PID2PC w → tasks w' = tasks w → TID2TASK w' = TID2TASK w →
     next_tid w' = next_tid w → mems w' = mems w → Q () w') →
  wp (SS := SS) (SH := SH) (M := M) Q R N (adopt cs) w.
Proof.
  revert w Q. induction cs as [|c cs IH]; intros w Q Hk HQ; cbn [adopt].
  { apply HQ; try done. intros q. destruct (execs w !! q) as [x|]; [|done]. cbn [fmap option_fmap option_map].
    f_equal. unfold adopted. rewrite (decide_False (P := q ∈ [])) by apply not_elem_of_nil.
    case_decide; [|done]. destruct x. unfold set_children. simpl. by rewrite app_nil_r. }
  apply not_elem_of_cons in Hk as [Hck Hk].
  apply wp_bind, wp_modify. intros w1 E1. apply wp_bind, wp_modify. intros w2 E2.
  apply IH; [done|]. intros w' HE HL HT HD HN HM.
  apply HQ; try (by rewrite ?HL, ?HT, ?HD, ?HN, ?HM, E2, E1).
  intros q. rewrite HE, E2, E1. simpl.
  destruct (decide (q = KERNEL_EXECUTOR_ID)) as [->|Hqk].
  - rewrite lookup_alter_eq, lookup_alter_ne by done.
    destruct (execs w !! KERNEL_EXECUTOR_ID) as [x|]; [|done]. simpl. f_equal. unfold adopted.
    rewrite !(decide_True (P := KERNEL_EXECUTOR_ID = _)) by done.
    rewrite !decide_False by set_solver. simpl. by rewrite <- app_assoc.
  - rewrite lookup_alter_ne by done. destruct (decide (c = q)) as [->|Hcq].
    + rewrite lookup_alter_eq. destruct (execs w !! q) as [x|]; [|done]. simpl. f_equal. unfold adopted.
      rewrite !(decide_False (P := q = _)) by done. rewrite (decide_True (P := q ∈ q :: cs)) by set_solver.
      by case_decide.
    + rewrite lookup_alter_ne by done. destruct (execs w !! q) as [x|]; [|done]. simpl. f_equal.
      unfold adopted. rewrite !(decide_False (P := q = _)) by done.
      destruct (decide (q ∈ cs)); [rewrite decide_True by set_solver|rewrite decide_False by set_solver]; done.
Qed.

(** An executor [x] that is not the leaving one, after the leader of [p] is gone. *)
Record left_behind (cs : list Z) (q : Z) (x x' : E) : Prop := {
  lb_pid : pid x' = pid x;
  lb_zombie : is_zombie x' = is_zombie x;
  lb_main : main_task x' = main_task x;
  lb_tasks : etasks x' = etasks x;
  lb_memory : memory_set x' = memory_set x;
  lb_modules : signal_modules x' = signal_modules x;
  lb_parent : parent x' = if decide (q ∈ cs) then KERNEL_EXECUTOR_ID else parent x;
  lb_children : children x' =
    if decide (q = KERNEL_EXECUTOR_ID) then children x ++ cs else children x;
}.

Lemma adopted_left_behind cs q x : left_behind cs q x (adopted cs q x).
Proof. unfold adopted. split; by repeat case_decide. Qed.

Lemma pinv_leave w w' p cur e :
  pinv w → p ∈ PID2PC w → p ≠ KERNEL_EXECUTOR_ID → execs w !! p = Some e → cur ∈ etasks e →
  (∀ q x, q ≠ p → execs w !! q = Some x →
     ∃ x', execs w' !! q = Some x' ∧ left_behind (children e) q x x') →
  (∀ q, is_Some (execs w' !! q) → is_Some (execs w !! q)) →
  (∃ e', execs w' !! p = Some e' ∧ pid e' = p ∧ parent e' = parent e ∧ is_zombie e' = true ∧
         memory_set e' = memory_set e) →
  PID2PC w' = PID2PC w ∖ {[p]} → tasks w' = tasks w → TID2TASK w' = TID2TASK w ∖ {[cur]} →
  next_tid w' = next_tid w → mems w' = mems w → pinv w'.
Proof.
  intros I Hp Hpk He Hc Hoth Hdom (e' & He' & Q1 & Q2 & Q3 & Q4) HL HT HD HN HM.
  destruct (pi_live _ I p Hp) as (xe & Hxe & Lp). assert (xe = e) as -> by congruence.
  destruct (lo_parent _ _ _ Lp Hpk) as (Hppne & Hpp & _).
  assert (Hpcs : p ∉ children e).
  { intros Hin. destruct (lo_children _ _ _ Lp p Hin) as (_ & ec & ? & ?). congruence. }
  assert (Hcs : ∀ q x, execs w !! q = Some x → q ∈ children e → parent x = p).
  { intros q x Hx Hin. destruct (lo_children _ _ _ Lp q Hin) as (_ & ec & ? & ?). congruence. }
  (* what a surviving executor looks like from its parent *)
  assert (Hchild : ∀ c q, c ≠ KERNEL_EXECUTOR_ID → q ≠ p →
            (∃ ec, execs w !! c = Some ec ∧ parent ec = q) →
            ∃ ec', execs w' !! c = Some ec' ∧ parent ec' = q).
  { intros c q Hck Hqp (ec & Hec & Hpar). destruct (decide (c = p)) as [->|Hcp].
    - exists e'. split; [done|]. congruence.
    - destruct (Hoth c ec Hcp Hec) as (ec' & Hec' & B). exists ec'. split; [done|].
      rewrite (lb_parent _ _ _ _ B). rewrite decide_False; [done|].
      intros Hin. apply (Hcs c ec Hec) in Hin. congruence. }
  split.
  - intros q x' Hx'. rewrite HN, HM. destruct (decide (q = p)) as [->|Hqp].
    + assert (x' = e') as -> by congruence. rewrite Q4. split; [done|]. by apply (pi_ids _ I p).
    + destruct (Hdom q) as [x Hx]; [eauto|]. destruct (Hoth q x Hqp Hx) as (x2 & ? & B).
      assert (x2 = x') as -> by congruence. rewrite (lb_pid _ _ _ _ B), (lb_memory _ _ _ _ B).
      by apply (pi_ids _ I).
  - rewrite HT, HN. apply I.
  - rewrite HN. apply I.
  - rewrite HL. pose proof (pi_kernel _ I). set_solver.
  - rewrite HL. intros q [Hq Hqp%not_elem_of_singleton]%elem_of_difference.
    destruct (pi_live _ I q Hq) as (x & Hx & [L1 L2 L3 L4 L5 L6 L7 L8]).
    destruct (Hoth q x Hqp Hx) as (x' & Hx' & B). exists x'. split; [done|].
    destruct B as [B1 B2 B3 B4 B5 B6 B7 B8].
    split; rewrite ?B2, ?B3, ?B4, ?B6; try done.
    + rewrite B8. case_decide as Hqk; [|done]. apply NoDup_app. split; [done|].
      split; [|apply (lo_nodup _ _ _ Lp)]. intros c Hc1 Hc2.
      destruct (L2 c Hc1) as (_ & ec & Hec & ?). apply (Hcs c ec Hec) in Hc2. congruence.
    + intros c. rewrite B8. intros Hc'.
      assert (c ∈ children x ∨ q = KERNEL_EXECUTOR_ID ∧ c ∈ children e) as [Hin|[-> Hin]].
      { case_decide; [|by left]. apply elem_of_app in Hc' as [?|?]; auto. }
      * destruct (L2 c Hin) as (Hck & Hec). split; [done|]. by apply Hchild.
      * destruct (lo_children _ _ _ Lp c Hin) as (Hck & ec & Hec & _). split; [done|].
        destruct (Hoth c ec) as (ec' & ? & B); [by intros ->|done|]. exists ec'. split; [done|].
        by rewrite (lb_parent _ _ _ _ B), decide_True.
    + intros Hqk. rewrite B7. destruct (L4 Hqk) as (? & Hpq & ep & Hep & Hin).
      destruct (decide (q ∈ children e)) as [Hqcs|Hqcs].
      * split; [done|]. rewrite HL. split; [pose proof (pi_kernel _ I); set_solver|].
        destruct (pi_live _ I _ (pi_kernel _ I)) as (k & Hk & _).
        destruct (Hoth _ k (not_eq_sym Hpk) Hk) as (k' & ? & B). exists k'. split; [done|].
        rewrite (lb_children _ _ _ _ B), decide_True by done. set_solver.
      * assert (parent x ≠ p) as Hpxp by (intros Heq; apply Hqcs; congruence).
        split; [done|]. rewrite HL. split; [set_solver|].
        destruct (Hoth _ ep Hpxp Hep) as (ep' & ? & B). exists ep'. split; [done|].
        rewrite (lb_children _ _ _ _ B).
        destruct (decide (parent x = KERNEL_EXECUTOR_ID)); set_solver.
    + intros Hqk. rewrite HT. auto.
    + intros u Hu. rewrite HT, HD. destruct (L7 u Hu) as (? & ? & uk & Huk & Hup).
      split; [done|]. split; [|eauto]. apply elem_of_difference. split; [done|].
      intros ->%elem_of_singleton. destruct (lo_tasks _ _ _ Lp cur Hc) as (_ & _ & tk & ? & ?). congruence.
    + intros Hqk. rewrite B7. destruct (L8 Hqk). destruct (decide (q ∈ children e)); lia.
  - rewrite HL. intros q x' Hx' Hq. destruct (decide (q = p)) as [->|Hqp]; [congruence|].
    destruct (Hdom q) as [x Hx]; [eauto|]. destruct (Hoth q x Hqp Hx) as (x2 & ? & B).
    assert (x2 = x') as -> by congruence. rewrite (lb_zombie _ _ _ _ B).
    apply (pi_dead _ I q x Hx). set_solver.
Qed.

(** What [exit] of a leader leaves of the process: a zombie with its exit code. *)
Definition zombie_of (e : E) (code : Z) (w' : W) : Prop :=
  ∃ e', execs w' !! pid e = Some e' ∧ is_zombie e' = true ∧ exit_code e' = code ∧
        pid e' = pid e ∧ parent e' = parent e ∧ memory_set e' = memory_set e.

Lemma exit_leader_pinv cur p code e w :
  pinv w → p ≠ KERNEL_EXECUTOR_ID → p ∈ PID2PC w → execs w !! p = Some e → cur ∈ etasks e →
  wp (λ _ w', pinv w' ∧ zombie_of e code w' ∧ PID2PC w' = PID2PC w ∖ {[p]} ∧ tasks w' = tasks w)
    (λ _, False) False (exit_leader (SS := SS) (SH := SH) (M := M) cur code e) w.
Proof.
  intros I Hk Hp He Hc. destruct (pi_ids _ I p e He) as (Hpid & _).
  destruct (pi_live _ I p Hp) as (xe & Hxe & Lp). assert (xe = e) as -> by congruence.
  destruct (lo_parent _ _ _ Lp Hk) as (Hppne & Hpp & _).
  assert (Hpcs : p ∉ children e).
  { intros Hin. destruct (lo_children _ _ _ Lp p Hin) as (_ & ec & ? & ?). congruence. }
  unfold exit_leader. rewrite Hpid.
  apply wp_bind, wp_modify. intros w1 E1. apply wp_bind, wp_modify. intros w2 E2.
  apply wp_bind, wp_modify. intros w3 E3. apply wp_bind, wp_modify. intros w4 E4.
  apply wp_bind, wp_modify. intros w5 E5.
  assert (HX5 : execs w5 = <[p := set_signal_modules ∅ (set_etasks [] (set_main_task None e))]> (execs w)).
  { rewrite E5, E4, E3, E2, E1. simpl. rewrite <- (insert_id (execs w) p e He) at 1.
    by rewrite !alter_insert_eq. }
  apply wp_bind, adopt_spec.
  { intros Hin. by destruct (lo_children _ _ _ Lp _ Hin) as [? _]. }
  intros w6 HX6 HL6 HT6 HD6 HN6 HM6.
  apply wp_bind, wp_reads. rewrite bool_decide_eq_true_2 by (by rewrite HL6, E5, E4, E3, E2, E1).
  apply wp_bind, wp_modify. intros w7 E7. apply wp_bind, wp_modify. intros w8 E8.
  apply wp_bind, wp_modify. intros w9 E9. apply wp_modify. intros w10 E10.
  assert (HX10 : ∀ q, q ≠ p → execs w10 !! q =
    (λ x, if decide (q = parent e) then set_blocked_by_vfork false (adopted (children e) q x)
          else adopted (children e) q x) <$> execs w !! q).
  { intros q Hq. rewrite E10, E9, E8, E7. simpl.
    rewrite (lookup_alter_ne _ _ p q), (lookup_alter_ne _ _ p q) by done.
    destruct (decide (q = parent e)) as [->|Hqp].
    - rewrite lookup_alter_eq, HX6, HX5, lookup_insert_ne by done. by destruct (execs w !! parent e).
    - rewrite lookup_alter_ne, HX6, HX5, lookup_insert_ne by done. done. }
  assert (HXp : ∃ e', execs w10 !! p = Some e' ∧ is_zombie e' = true ∧ exit_code e' = code ∧
            pid e' = p ∧ parent e' = parent e ∧ memory_set e' = memory_set e).
  { rewrite E10, E9, E8, E7. simpl. rewrite !lookup_alter_eq, lookup_alter_ne by done.
    rewrite HX6, HX5, lookup_insert_eq. eexists. split; [done|]. simpl.
    unfold adopted. rewrite !decide_False by done. done. }
  assert (HL10 : PID2PC w10 = PID2PC w ∖ {[p]}).
  { rewrite E10, E9, E8, E7. simpl. by rewrite HL6, E5, E4, E3, E2, E1. }
  assert (HT10 : tasks w10 = tasks w).
  { rewrite E10, E9, E8, E7. simpl. by rewrite HT6, E5, E4, E3, E2, E1. }
  split_and!; [|by unfold zombie_of; rewrite Hpid|done|done].
  destruct HXp as (e' & He' & ? & _ & ? & ? & ?).
  apply (pinv_leave w w10 p cur e); try done.
  - intros q x Hq Hx. rewrite HX10, Hx by done. eexists. split; [done|].
    pose proof (adopted_left_behind (children e) q x) as B.
    destruct (decide (q = parent e)); [|done]. destruct B. by split.
  - intros q. destruct (decide (q = p)) as [->|]; [eauto|]. rewrite HX10 by done.
    by rewrite fmap_is_Some.
  - exists e'. done.
  - rewrite E10, E9, E8, E7. simpl. by rewrite HD6, E5, E4, E3, E2, E1.
  - rewrite E10, E9, E8, E7. simpl. by rewrite HN6, E5, E4, E3, E2, E1.
  - rewrite E10, E9, E8, E7. simpl. by rewrite HM6, E5, E4, E3, E2, E1.
Qed.

Lemma exit_finish_pinv cur p code w :
  pinv w → runs w cur p →
  wp (λ _ w', pinv w') (λ _, False) False (exit_finish (SS := SS) (SH := SH) (M := M) cur code) w.
Proof.
  intros I (Hk & Hp & e & He & Hc). unfold exit_finish.
  apply wp_bind, (wp_current_executor _ _ _ _ p e); [done..|].
  destruct (pi_live _ I p Hp) as (x & Hx & L). assert (x = e) as -> by congruence.
  destruct (lo_tasks _ _ _ L cur Hc) as (_ & _ & tk & Htk & _).
  apply wp_bind, wp_the_task; [intros tk' Htk'|congruence].
  assert (tk' = tk) as -> by congruence. apply wp_bind.
  apply wp_mono with (Q := λ _ w', pinv w') (R := λ _, False); [|intros _ w1 I1|done].
  - destruct (is_leader tk) eqn:El.
    + eapply wp_mono; [by apply (exit_leader_pinv cur p code)|by intros ? ? [? _]|done].
    + eapply wp_mono; [apply (exit_thread_pinv cur p); eauto|by intros ? ? [? _]|done].
  - apply wp_bind, wp_modify. intros w2 E2. apply wp_modify. intros w3 E3.
    eapply pinv_stable; [|exact I1]. eapply stable_trans.
    + by apply (stable_upd_task cur (set_texit_code code) w1).
    + rewrite E3, E2. by apply (stable_upd_task cur (set_tstate Exited)).
Qed.

(** ** [wait_pid] *)

(** The children a call [wait_pid(want)] is about, and those it can reap. *)
Definition wanted (want c : Z) : Prop := want ≤ 0 ∨ c = want.
Definition zombie_at (X : gmap Z E) (c : Z) : bool :=
  match X !! c with Some ec => is_zombie ec | None => false end.
Definition code_at (X : gmap Z E) (c : Z) : Z :=
  match X !! c with Some ec => exit_code ec | None => 0 end.
Definition reapable (X : gmap Z E) (want c : Z) : Prop := wanted want c ∧ zombie_at X c = true.

#[global] Instance wanted_dec want c : Decision (wanted want c).
Proof. unfold wanted. apply _. Defined.
#[global] Instance reapable_dec X want c : Decision (reapable X want c).
Proof. unfold reapable. apply _. Defined.

(** The scan finds the first child that can be reaped; if there is none it tells
    whether a child is still running. *)
Lemma wait_scan_ref (X : gmap Z E) want i st cs :
  (∀ c, c ∈ cs → ∃ ec, X !! c = Some ec ∧ pid ec = c) → NoDup cs →
  wait_scan X want i st cs =
    match list_find (reapable X want) cs with
    | Some (k, c) => (WExited, Some ((i + k)%nat, c, code_at X c))
    | None => (if decide (Exists (wanted want) cs) then WRunning else st, None)
    end.
Proof.
  revert i st. induction cs as [|c cs IH]; intros i st Hcs Hnd;
    cbn [wait_scan list_find].
  { rewrite decide_False; [done|]. by intros Hx%Exists_nil. }
  destruct (Hcs c) as (ec & Hec & Hpid); [by left|]. rewrite Hec.
  apply NoDup_cons in Hnd as [Hcn Hnd].
  assert (Hcs' : ∀ c, c ∈ cs → ∃ ec, X !! c = Some ec ∧ pid ec = c) by (intros; apply Hcs; by right).
  assert (Hz : zombie_at X c = is_zombie ec) by (unfold zombie_at; by rewrite Hec).
  assert (Hco : code_at X c = exit_code ec) by (unfold code_at; by rewrite Hec).
  unfold get_code_if_exit.
  assert (Hr : reapable X want c ↔ wanted want c ∧ is_zombie ec = true) by (unfold reapable; by rewrite Hz).
  destruct (decide (wanted want c)) as [Hw|Hw].
  - destruct (is_zombie ec) eqn:Ez.
    { rewrite (decide_True (P := reapable _ _ _)) by (by apply Hr). rewrite Hco, Nat.add_0_r.
      destruct (decide (want ≤ 0)); [done|]. destruct Hw as [?|?]; [done|].
      by rewrite (decide_True (P := pid ec = want)) by congruence. }
    rewrite (decide_False (P := reapable _ _ _)) by (rewrite Hr; by intros [_ ?]).
    rewrite (decide_True (P := Exists _ _)) by (by left).
    destruct (decide (want ≤ 0)) as [Hall|Hall].
    + rewrite IH by done. destruct (list_find _ cs) as [[k c']|]; simpl; [|by case_decide].
      by replace (S (i + k)) with (i + S k)%nat by lia.
    + destruct Hw as [?|Heq]; [lia|]. rewrite decide_True by congruence.
      destruct (list_find _ cs) as [[k c']|] eqn:Ef; [|done]. exfalso.
      apply list_find_Some in Ef as (Hk & [[?|?] _] & _); [lia|].
      apply Hcn. subst. by eapply list_elem_of_lookup_2.
  - rewrite (decide_False (P := reapable _ _ _)) by tauto.
    rewrite (decide_False (P := want ≤ 0)) by (intros ?; apply Hw; by left).
    rewrite (decide_False (P := pid ec = want)) by (intros ?; apply Hw; right; congruence).
    rewrite IH by done. destruct (list_find _ cs) as [[k c']|]; simpl.
    + by replace (S (i + k)) with (i + S k)%nat by lia.
    + f_equal. case_decide as Hx; [rewrite decide_True; [done|by right]|].
      rewrite decide_False; [done|]. intros Hx'%Exists_cons. tauto.
Qed.

(** Reaping child [c], the [i]-th of process [p]. *)
Lemma pinv_reap w w' p e i c :
  pinv w → p ∈ PID2PC w → execs w !! p = Some e → children e !! i = Some c →
  zombie_at (execs w) c = true →
  execs w' = delete c (<[p := set_children (take i (children e) ++ drop (S i) (children e)) e]> (execs w)) →
  PID2PC w' = PID2PC w → tasks w' = tasks w → TID2TASK w' = TID2TASK w →
  next_tid w' = next_tid w → (∀ j, is_Some (mems w !! j) → is_Some (mems w' !! j)) → pinv w'.
Proof.
  intros I Hp He Hi Hz HE HL HT HD HN HM.
  destruct (pi_live _ I p Hp) as (x & Hx & Lp). assert (x = e) as -> by congruence.
  destruct (lo_children _ _ _ Lp c) as (Hck & ec & Hec & Hpar); [by eapply list_elem_of_lookup_2|].
  assert (Hcl : c ∉ PID2PC w).
  { intros Hin. destruct (pi_live _ I c Hin) as (x & Hx' & L). pose proof (lo_zombie _ _ _ L Hck).
    unfold zombie_at in Hz. rewrite Hx' in Hz. congruence. }
  assert (Hcp : c ≠ p) by (by intros ->).
  set (cs := take i (children e) ++ drop (S i) (children e)) in *.
  assert (Hsplit : children e ≡ₚ c :: cs).
  { unfold cs. rewrite <- (take_drop_middle _ _ _ Hi) at 1. by rewrite Permutation_middle. }
  pose proof (lo_nodup _ _ _ Lp) as Hnd. rewrite Hsplit in Hnd. apply NoDup_cons in Hnd as [Hcn Hnd].
  assert (Hlk : ∀ q, execs w' !! q = if decide (q = c) then None else
            if decide (q = p) then Some (set_children cs e) else execs w !! q).
  { intros q. rewrite HE. destruct (decide (q = c)) as [->|]; [by rewrite lookup_delete_eq|].
    rewrite lookup_delete_ne by done. destruct (decide (q = p)) as [->|];
      [by rewrite lookup_insert_eq|by rewrite lookup_insert_ne]. }
  (* the other executors, from their parent or child *)
  assert (Hsame : ∀ q x, q ≠ c → execs w !! q = Some x → ∃ x', execs w' !! q = Some x' ∧
            parent x' = parent x ∧ (∀ d, d ≠ c → d ∈ children x → d ∈ children x')).
  { intros q x Hq Hx'. rewrite Hlk, decide_False by done. destruct (decide (q = p)) as [->|]; [|eauto].
    eexists. split; [done|]. assert (x = e) as -> by congruence. split; [done|]. simpl.
    intros d Hd. rewrite Hsplit. set_solver. }
  assert (Hlive : ∀ q x, q ∈ PID2PC w → execs w !! q = Some x → live_ok w q x → q ≠ p → live_ok w' q x).
  { intros q x Hq Hx' [L1 L2 L3 L4 L5 L6 L7 L8] Hqp. split; rewrite ?HT, ?HD, ?HL; try done.
    - intros d Hd. destruct (L2 d Hd) as (? & ed & Hed & Hpd). split; [done|].
      destruct (Hsame d ed) as (ed' & ? & ? & _); [intros ->; congruence|done|].
      exists ed'. split; congruence.
    - intros Hk. destruct (L4 Hk) as (? & Hpl & ep & Hep & ?). split; [done|]. split; [done|].
      assert (parent x ≠ c) as Hpc by (intros Heq; by rewrite Heq in Hpl).
      destruct (Hsame _ ep Hpc Hep) as (ep' & ? & _ & Hch).
      exists ep'. split; [done|]. apply Hch; [by intros ->|done]. }
  split.
  - intros q x. rewrite Hlk, HN. case_decide; [done|]. destruct (decide (q = p)) as [->|].
    + intros [= <-]. destruct (pi_ids _ I p e He) as (? & ? & ?). simpl. auto.
    + intros Hx'. destruct (pi_ids _ I q x Hx') as (? & ? & ?). auto.
  - rewrite HT, HN. apply I.
  - rewrite HN. apply I.
  - rewrite HL. apply I.
  - rewrite HL. intros q Hq. destruct (pi_live _ I q Hq) as (x & Hx' & L).
    rewrite Hlk, decide_False by (by intros ->). destruct (decide (q = p)) as [->|Hqp]; [|eauto].
    assert (x = e) as -> by congruence. eexists. split; [done|].
    destruct L as [L1 L2 L3 L4 L5 L6 L7 L8]. split; simpl; rewrite ?HT, ?HD, ?HL; try done.
    + intros d Hd. assert (d ∈ children e) as Hde by (rewrite Hsplit; by right).
      destruct (L2 d Hde) as (? & ed & Hed & Hpd). split; [done|].
      destruct (Hsame d ed) as (ed' & ? & ? & _); [by intros ->|done|]. exists ed'. split; congruence.
    + intros Hk. destruct (L4 Hk) as (? & Hpl & ep & Hep & ?). split; [done|]. split; [done|].
      assert (parent e ≠ c) as Hpc by (intros Heq; by rewrite Heq in Hpl).
      destruct (Hsame _ ep Hpc Hep) as (ep' & ? & _ & Hch).
      exists ep'. split; [done|]. apply Hch; [by intros <-|done].
  - rewrite HL. intros q x. rewrite Hlk. case_decide; [done|].
    destruct (decide (q = p)) as [->|]; [done|]. apply I.
Qed.

Lemma wait_pid_run cur p e want ptr w :
  pinv w → runs w cur p → execs w !! p = Some e →
  match list_find (reapable (execs w) want) (children e) with
  | Some (i, c) =>
      ∃ w', wait_pid (SS := SS) (SH := SH) (M := M) cur want ptr w = (Ok (inl c), w') ∧
        execs w' = delete c (<[p := set_children (take i (children e) ++ drop (S i) (children e)) e]> (execs w)) ∧
        mems w' !! memory_set e =
          (if decide (ptr = 0) then id
           else fmap (mem_store_i32 ptr (as_i32 (as_i32 (code_at (execs w) c) * 256))))
            (mems w !! memory_set e) ∧
        PID2PC w' = PID2PC w ∧ pinv w'
  | None =>
      wait_pid cur want ptr w =
        (Ok (inr (if decide (Exists (wanted want) (children e)) then WRunning else WNotExist)), w)
  end.
Proof.
  intros I (Hk & Hp & e0 & He0 & Hc) He. assert (e0 = e) as -> by congruence.
  destruct (pi_live _ I p Hp) as (x & Hx & L). assert (x = e) as -> by congruence.
  destruct (pi_ids _ I p e He) as (Hpid & _ & [m Hm]).
  assert (Hcur : current_executor cur w = (Ok e, w)).
  { pose proof (wp_current_executor (λ e' w', (e', w') = (e, w)) (λ _, False) False cur p e w
      I Hp He Hc eq_refl) as Hwp. unfold wp in Hwp.
    destruct (current_executor cur w) as [[e'|?|] w']; simplify_eq; done. }
  unfold wait_pid, pbind, reads. rewrite Hcur. rewrite wait_scan_ref; cycle 1.
  { intros c Hin. destruct (lo_children _ _ _ L c Hin) as (_ & ec & Hec & _). exists ec.
    split; [done|]. by apply (pi_ids _ I). }
  { apply L. }
  destruct (list_find _ _) as [[i c]|] eqn:Ef; [|done]. cbn [snd]. rewrite Nat.add_0_l.
  apply list_find_Some in Ef as (Hi & [_ Hz] & _).
  set (code := as_i32 _). unfold the_mem, put_mem, pwhen, modify, pret, upd_exec.
  assert (Hgoal : ∀ w1, execs w1 = execs w → PID2PC w1 = PID2PC w → tasks w1 = tasks w →
    TID2TASK w1 = TID2TASK w → next_tid w1 = next_tid w →
    (∀ j, is_Some (mems w !! j) → is_Some (mems w1 !! j)) →
    let w' := set_execs (delete c (alter (λ e, set_children (take i (children e) ++ drop (S i) (children e)) e)
                (pid e) (execs w1))) (set_execs (alter (λ e, set_children (take i (children e) ++ drop (S i) (children e)) e)
                (pid e) (execs w1)) w1) in
    execs w' = delete c (<[p := set_children (take i (children e) ++ drop (S i) (children e)) e]> (execs w)) ∧
    pinv w').
  { intros w1 HE HL HT HD HN HM w'.
    assert (execs w' = delete c (<[p := set_children (take i (children e) ++ drop (S i) (children e)) e]> (execs w)))
      as HE'.
    { unfold w'. simpl. rewrite HE, Hpid. f_equal. rewrite <- (insert_id (execs w) p e He) at 1.
      by rewrite alter_insert_eq. }
    split; [done|]. by apply (pinv_reap w w' p e i c). }
  destruct (decide (ptr = 0)) as [->|Hptr].
  - rewrite bool_decide_eq_false_2 by tauto. eexists. split; [done|].
    destruct (Hgoal w) as [? ?]; done.
  - rewrite bool_decide_eq_true_2 by done. rewrite Hm. cbn [punwrap pret]. eexists. split; [done|].
    match goal with |- context [set_mems ?mm w] => set (w1 := set_mems mm w) end.
    destruct (Hgoal w1) as [? ?]; try done.
    { intros j Hj. unfold w1. simpl. destruct (decide (memory_set e = j)) as [<-|];
        [rewrite lookup_insert_eq; eauto|by rewrite lookup_insert_ne]. }
    split; [done|]. split; [simpl; by rewrite lookup_insert_eq|done].
Qed.

(** ** [init_user] *)

(** The kernel process enters [PID2PC] with the first user process. *)
Definition with_kernel w : W := set_PID2PC ({[KERNEL_EXECUTOR_ID]} ∪ PID2PC w) w.

Lemma with_kernel_id w : KERNEL_EXECUTOR_ID ∈ PID2PC w → with_kernel w = w.
Proof.
  intros Hk. unfold with_kernel. replace ({[KERNEL_EXECUTOR_ID]} ∪ PID2PC w) with (PID2PC w) by set_solver.
  by destruct w.
Qed.

Lemma stable_with_kernel w w' : stable w w' → stable (with_kernel w) (with_kernel w').
Proof. intros []. split; simpl; try done. congruence. Qed.

Lemma init_user_pinv args envs w :
  pinv (with_kernel w) →
  wp (λ _ w', pinv w') (λ w', w' = w) True
    (init_user TASK_STACK_SIZE STATUS args envs) w.
Proof.
  intros I. unfold init_user.
  apply wp_bind, wp_punwrap; [intros path _|done].
  destruct (mem_map_trampoline mem_new).1; [|done..].
  destruct (load_app path args envs _).1 as [[[entry usp] heap]|]; [|done].
  assert (Hbind : ∀ A B (x : P A) (f : A → P B) (Q : B → W → Prop) (R : W → Prop) w0,
    keeps x → (∀ w1 err, x w0 ≠ (Err err, w1)) →
    (∀ a w1, x w0 = (Ok a, w1) → stable w0 w1 → wp Q R True (f a) w1) →
    wp Q R True (pbind x f) w0).
  { intros A B x f Q R w0 Hx Herr Hf. apply wp_bind. specialize (Hx w0). unfold wp at 1.
    destruct (x w0) as [[b|err|] w1] eqn:Ex; [by apply Hf|by destruct (Herr w1 err)|done]. }
  apply Hbind; [eauto with keeps|done|intros table w1 _ S1].
  apply Hbind; [eauto with keeps|done|intros p w2 G2 S2]. injection G2 as <- <-.
  apply Hbind; [eauto with keeps|done|intros mem w3 G3 S3].
  assert (Hmem : is_Some (mems w3 !! mem)).
  { unfold new_mem, pbind, new_obj, modify, pret in G3. injection G3 as <- <-. simpl.
    rewrite lookup_insert_eq. eauto. }
  apply Hbind; [eauto with keeps|done|intros cwd w4 _ S4].
  apply Hbind; [eauto with keeps|done|intros mask w5 _ S5].
  set (p := next_tid w1). set (w2 := set_next_tid (p + 1) w1) in *.
  assert (S25 : stable w2 w5) by eauto using stable_trans.
  assert (S05 : stable w w5) by eauto using stable_trans.
  pose proof (pinv_stable _ _ (stable_with_kernel _ _ S05) I) as I5.
  assert (Hp5 : p < next_tid w5) by (pose proof (st_next _ _ S25); simpl in *; lia).
  assert (Hpw : next_tid w ≤ p) by apply (st_next _ _ S1).
  assert (Hfresh : execs w5 !! p = None).
  { destruct (execs w5 !! p) as [x|] eqn:Ex; [|done]. exfalso.
    destruct (st_dom _ _ S05 p) as [y Hy]; [eauto|]. destruct (pi_ids _ I p y Hy) as (_ & Hlt & _).
    simpl in Hlt. lia. }
  set (np := executor_new _ p _ mem heap table cwd mask).
  apply wp_bind, wp_modify. intros w6 E6. apply wp_bind, wp_modify. intros w7 E7.
  apply wp_bind. unfold new_task_inner. apply wp_bind, wp_new_task_id. intros w8 E8.
  apply wp_bind, wp_modify. intros w9 E9. unfold wp at 1, pret.
  set (t := next_tid w7) in *.
  assert (Ht : t = next_tid w5) by (unfold t; by rewrite E7, E6).
  set (tk := mk_task p _ _ _ _ _ _ _ _ _) in E9.
  apply wp_bind, wp_modify. intros w10 E10. apply wp_bind, wp_modify. intros w11 E11.
  apply wp_bind, wp_modify. intros w12 E12. apply wp_bind, wp_modify. intros w13 E13.
  apply wp_bind, wp_modify. intros w14 E14.
  apply Hbind; [eauto with keeps|done|intros h w15 G15 _]. injection G15 as <- E15. symmetry in E15.
  apply wp_bind, wp_modify. intros w16 E16. apply wp_bind, wp_modify. intros w17 E17.
  apply wp_bind, wp_modify. intros w18 E18. apply wp_bind, wp_modify. intros w19 E19.
  apply wp_bind, wp_modify. intros w20 E20. unfold wp, pret.
  (* the world before the process was made, with its task *)
  set (wv := with_kernel (set_TID2TASK ({[t]} ∪ TID2TASK w5)
               (set_tasks (<[t := tk]> (tasks w5)) (set_next_tid (t + 1) w5)))).
  assert (Iv : pinv wv).
  { eapply pinv_stable; [|exact I5]. apply stable_with_kernel. eapply stable_trans.
    - apply (stable_new_task w5 tk). apply (pi_tids _ I5).
    - rewrite Ht. exact (keeps_add_tid (next_tid w5)
        (set_tasks (<[next_tid w5 := tk]> (tasks w5)) (set_next_tid (next_tid w5 + 1) w5))). }
  apply (pinv_fork wv w20 p t KERNEL_EXECUTOR_ID
    (set_robust_list (<[t := mk_robust 0 0]> ∅) (set_signal_modules (<[t := init_signal (next_obj w14)]> ∅)
      (set_main_task (Some t) (set_etasks [t]
        (set_file_path (if starts_with_slash path then path else [SLASH] ++ path) np)))))).
  - done.
  - done.
  - pose proof (pi_next _ I). simpl in *. lia.
  - pose proof (pi_next _ I). simpl in *. lia.
  - unfold wv. simpl. lia.
  - unfold wv. simpl. set_solver.
  - done.
  - done.
  - done.
  - done.
  - done.
  - eexists. apply lookup_insert_eq.
  - done.
  - unfold wv. simpl. by apply (st_mems _ _ S5), (st_mems _ _ S4).
  - exists tk. unfold wv. simpl. by rewrite lookup_insert_eq.
  - unfold wv. simpl. set_solver.
  - rewrite E20, E19, E18, E17, E16, E15, E14, E13, E12, E11, E10, E9, E8, E7, E6. simpl.
    by rewrite !alter_insert_eq.
  - rewrite E20, E19, E18, E17, E16, E15, E14, E13, E12, E11, E10, E9, E8, E7, E6. simpl. set_solver.
  - rewrite E20, E19, E18, E17, E16, E15, E14, E13, E12, E11, E10, E9, E8, E7, E6. done.
  - rewrite E20, E19, E18, E17, E16, E15, E14, E13, E12, E11, E10, E9, E8, E7, E6. done.
  - rewrite E20, E19, E18, E17, E16, E15, E14, E13, E12, E11, E10, E9, E8. done.
  - rewrite E20, E19, E18, E17, E16, E15, E14, E13, E12, E11, E10, E9, E8, E7, E6. done.
Qed.
End leave.

Section theorems.
Context {SS SH SA SI M : Type} `{AxSignal SS SH SA SI} `{ProcMem M}.
Context (TASK_STACK_SIZE SIGNAL_TRAMPOLINE STATUS : Z).
Notation W := (world SS SH M).
Notation E := (Executor SS).
Implicit Types (w : W) (e : E).

(** ** All the operations, in any order *)

(** Each step is one operation of a task [cur] of a live process [p], or the start
    of a new program by the kernel.  Calls that fail leave the state they reached;
    calls that panic stop the system. *)
Inductive pstep : W → W → Prop :=
  | PInitUser args envs w r w' :
      init_user TASK_STACK_SIZE STATUS args envs w = (r, w') → r ≠ Panic → pstep w w'
  | PClone cur p flags stack ptid tls ctid xs w r w' :
      runs w cur p →
      clone_task TASK_STACK_SIZE cur p flags stack ptid tls ctid xs w = (r, w') → r ≠ Panic →
      pstep w w'
  | PExec cur p now name args envs w r w' :
      runs w cur p → exec SIGNAL_TRAMPOLINE STATUS cur p now name args envs w = (r, w') →
      r ≠ Panic → pstep w w'
  | PExitBegin cur p w r w' : runs w cur p → exit_begin cur w = (r, w') → r ≠ Panic → pstep w w'
  | PExitPoll cur p w r w' : runs w cur p → exit_poll cur w = (r, w') → r ≠ Panic → pstep w w'
  | PExitFinish cur p code w r w' :
      runs w cur p → exit_finish cur code w = (r, w') → r ≠ Panic → pstep w w'
  | PWait cur p want ptr w r w' :
      runs w cur p → wait_pid cur want ptr w = (r, w') → r ≠ Panic → pstep w w'
  | PKill p signum info w r w' :
      send_signal_to_process p signum info w = (r, w') → pstep w w'
  | PTkill t signum w r w' : send_signal_to_thread t signum w = (r, w') → pstep w w'
  | PKtask p name w r w' : p ∈ PID2PC w → new_ktask p name w = (r, w') → r ≠ Panic → pstep w w'.

Lemma keeps_send_to_process p signum info :
  keeps (SS := SS) (SH := SH) (M := M) (send_signal_to_process p signum info).
Proof. unfold send_signal_to_process, the_exec. keep. Qed.
Lemma keeps_send_to_thread t signum :
  keeps (SS := SS) (SH := SH) (M := M) (send_signal_to_thread t signum).
Proof. unfold send_signal_to_thread, the_exec, the_task. keep. Qed.

Lemma new_ktask_pinv p name w :
  pinv w → wp (SS := SS) (SH := SH) (M := M) (λ _ w', pinv w') pinv True (new_ktask p name) w.
Proof.
  intros I. unfold new_ktask. apply wp_bind, wp_the_exec; [intros e _|done].
  apply wp_bind, wp_the_mem; [intros m _|done].
  apply wp_bind, wp_new_task_inner; [apply (pi_tids _ I)|]. intros w1 S1 _ _.
  apply wp_keeps_pinv; [keep|by eapply pinv_stable].
Qed.

(** From a [wp] with the invariant after success and error to the step. *)
Lemma wp_step {A} (Q : A → W → Prop) (R : W → Prop) N (x : P A) w r w' :
  wp Q R N x w → x w = (r, w') → r ≠ Panic → (∀ a w', Q a w' → pinv w') →
  (∀ w', R w' → pinv w') → pinv w'.
Proof. unfold wp. intros Hx E Hr HQ HR. rewrite E in Hx. destruct r; naive_solver. Qed.

Lemma pstep_pinv w w' : pinv w → pstep w w' → pinv w'.
Proof.
  intros I Hs.
  destruct Hs as [args envs w r w' E Hr|cur p flags stack ptid tls ctid xs w r w' R E Hr
    |cur p now name args envs w r w' R E Hr|cur p w r w' R E Hr|cur p w r w' R E Hr
    |cur p code w r w' R E Hr|cur p want ptr w r w' R E Hr|p signum info w r w' E|t signum w r w' E
    |p name w r w' Hp E Hr].
  - eapply wp_step; [apply init_user_pinv|exact E|done|done|by intros ? ->].
    by rewrite with_kernel_id by apply I.
  - eapply wp_step; [by apply (clone_task_pinv TASK_STACK_SIZE cur p)|exact E|done..].
  - eapply wp_step; [by apply (exec_pinv SIGNAL_TRAMPOLINE STATUS cur p)|exact E|done..].
  - eapply wp_step; [by apply (exit_begin_ok cur p)|exact E|done| |done].
    intros ? w1 S1. exact (pinv_stable _ _ S1 I).
  - eapply wp_step; [by apply (exit_poll_ok cur p)|exact E|done| |done].
    intros ? w1 S1. exact (pinv_stable _ _ S1 I).
  - eapply wp_step; [by apply (exit_finish_pinv cur p)|exact E|done..].
  - pose proof R as (_ & _ & e & He & _).
    pose proof (wait_pid_run cur p e want ptr w I R He) as Hw.
    destruct (list_find _ _) as [[i c]|].
    + destruct Hw as (w1 & E1 & _ & _ & _ & I1). congruence.
    + congruence.
  - pose proof (keeps_send_to_process p signum info w) as S. rewrite E in S. by eapply pinv_stable.
  - pose proof (keeps_send_to_thread t signum w) as S. rewrite E in S. by eapply pinv_stable.
  - eapply wp_step; [by apply (new_ktask_pinv p)|exact E|done..].
Qed.

(** The tables before [init]; ids below [next] have gone to kernel tasks. *)
Definition boot_world (next : Z) : W := mk_world ∅ ∅ ∅ ∅ ∅ ∅ ∅ ∅ ∅ ∅ next 0 [].

(** [new_init] makes the kernel process, and no other. *)
Lemma new_init_booted next w :
  KERNEL_EXECUTOR_ID < next → new_init TASK_STACK_SIZE (boot_world next) = (Ok (), w) →
  pinv (with_kernel w).
Proof.
  intros Hn E. cbv [new_init new_std_table new_file new_table new_mem new_cwd new_umask pbind new_obj
    modify pret] in E. simpl in E. injection E as <-. split; simpl.
  - intros p e. rewrite lookup_insert_Some, lookup_empty. intros [[<- <-]|[_ ?]]; [|done].
    simpl. split_and!; [done|done|]. rewrite lookup_insert_eq. eauto.
  - intros t tk Ht. by rewrite lookup_empty in Ht.
  - done.
  - set_solver.
  - intros p Hp. assert (p = KERNEL_EXECUTOR_ID) as -> by set_solver.
    eexists. split; [apply lookup_insert_eq|]. split; simpl; try done.
    + constructor.
    + intros c Hc. by apply not_elem_of_nil in Hc.
    + constructor.
    + intros t Ht. by apply not_elem_of_nil in Ht.
  - intros p e. rewrite lookup_insert_Some, lookup_empty. intros [[<- _]|[_ ?]]; [|done]. set_solver.
Qed.

Lemma booted_pinv next w0 w args envs r :
  KERNEL_EXECUTOR_ID < next → new_init TASK_STACK_SIZE (boot_world next) = (Ok (), w0) →
  init_user TASK_STACK_SIZE STATUS args envs w0 = (Ok r, w) → pinv w.
Proof.
  intros Hn HB Hi. apply new_init_booted in HB; [|done].
  pose proof (init_user_pinv TASK_STACK_SIZE STATUS args envs w0 HB) as Hw.
  unfold wp in Hw. by rewrite Hi in Hw.
Qed.

(** C6: the process tree is kept.  In every state reached after boot by
    starting programs, cloning threads and processes, exec, the pieces of exit,
    wait, signals and kernel coroutines, in any order and by any tasks: the live
    processes form a tree under the kernel process - from each the parents lead
    to it, and never in a circle -, each is in its parent's list of children
    exactly once and each child names its parent, dead processes are zombies, and
    threads are known to [TID2TASK] and have signal modules; and no piece of
    [exit] can fail or panic. *)
Theorem process_tree_invariant next w0 w args envs r :
  KERNEL_EXECUTOR_ID < next → new_init TASK_STACK_SIZE (boot_world next) = (Ok (), w0) →
  init_user TASK_STACK_SIZE STATUS args envs w0 = (Ok r, w) →
  ∀ w', rtc pstep w w' →
    tree w' ∧ pinv w' ∧
    ∀ cur p code, runs w' cur p →
      (∃ w1, exit_begin cur w' = (Ok (), w1)) ∧
      (∃ b w1, exit_poll cur w' = (Ok b, w1)) ∧
      (∃ w1, exit_finish cur code w' = (Ok (), w1)).
Proof.
  intros Hn HB Hi w' Hr.
  assert (I : pinv w').
  { eapply (rtc_invariant pstep pinv); [|..|exact Hr]; [apply pstep_pinv|].
    by eapply booted_pinv. }
  split; [by apply pinv_tree|]. split; [done|]. intros cur p code R.
  pose proof (exit_begin_ok cur p w' I R) as H1. pose proof (exit_poll_ok cur p w' I R) as H2.
  pose proof (exit_finish_pinv cur p code w' I R) as H3. unfold wp in H1, H2, H3.
  split_and!.
  - destruct (exit_begin cur w') as [[[]|?|] w1]; [eauto|done..].
  - destruct (exit_poll cur w') as [[b|?|] w1]; [eauto|done..].
  - destruct (exit_finish cur code w') as [[[]|?|] w1]; [eauto|done..].
Qed.

(** C7: [wait] reaps the first exited child it asks for, and only that one.  The
    result is the first child in the list that is wanted and a zombie; it leaves
    the list and the tables, the others stay, and its exit code, shifted as
    [WEXITSTATUS] expects, is stored when a pointer is given.  With no such child
    nothing changes, and the status says whether a wanted child is running. *)
Theorem wait_pid_spec cur p e want ptr w :
  pinv w → runs w cur p → execs w !! p = Some e →
  match list_find (reapable (execs w) want) (children e) with
  | Some (i, c) =>
      ∃ w' e', wait_pid cur want ptr w = (Ok (inl c), w') ∧
        execs w' !! p = Some e' ∧ children e ≡ₚ c :: children e' ∧ execs w' !! c = None ∧
        (∀ q, q ≠ p → q ≠ c → execs w' !! q = execs w !! q) ∧
        (ptr ≠ 0 → mems w' !! memory_set e =
           mem_store_i32 ptr (as_i32 (as_i32 (code_at (execs w) c) * 256)) <$> mems w !! memory_set e)
  | None =>
      wait_pid cur want ptr w =
        (Ok (inr (if decide (Exists (wanted want) (children e)) then WRunning else WNotExist)), w)
  end.
Proof.
  intros I R He. pose proof (wait_pid_run cur p e want ptr w I R He) as Hw.
  destruct (list_find _ _) as [[i c]|] eqn:Ef; [|done].
  destruct Hw as (w' & E & HE & HM & _ & I'). apply list_find_Some in Ef as (Hi & Hre & _).
  assert (Hcp : c ≠ p).
  { intros ->. destruct R as (Hk & Hp & _). destruct (pi_live _ I p Hp) as (x & Hx & L).
    pose proof (lo_zombie _ _ _ L Hk). destruct Hre as [_ Hz]. unfold zombie_at in Hz. rewrite Hx in Hz.
    congruence. }
  exists w', (set_children (take i (children e) ++ drop (S i) (children e)) e).
  split; [done|]. rewrite HE. split_and!.
  - by rewrite lookup_delete_ne, lookup_insert_eq.
  - simpl. rewrite <- (take_drop_middle _ _ _ Hi) at 1. by rewrite Permutation_middle.
  - by rewrite lookup_delete_eq.
  - intros q Hq Hqc. by rewrite lookup_delete_ne, lookup_insert_ne.
  - intros Hptr. by rewrite HM, decide_False.
Qed.

(** ** A child's death reaches its parent *)

Lemma exit_leader_parent cur p code e w w' ep :
  pinv w → p ≠ KERNEL_EXECUTOR_ID → p ∈ PID2PC w → execs w !! p = Some e → cur ∈ etasks e →
  parent e ≠ KERNEL_EXECUTOR_ID → execs w !! parent e = Some ep →
  exit_leader (SS := SS) (SH := SH) (M := M) cur code e w = (Ok (), w') →
  ∃ ep', execs w' !! parent e = Some ep' ∧ children ep' = children ep ∧ etasks ep' = etasks ep.
Proof.
  intros I Hk Hp He Hc Hpk Hep Ex.
  destruct (pi_live _ I p Hp) as (x & Hx & L). assert (x = e) as -> by congruence.
  destruct (lo_parent _ _ _ L Hk) as (Hne & Hpl & _).
  destruct (pi_ids _ I p e He) as (Hpid & _).
  assert (Hwp : wp (λ _ w', ∃ ep', execs w' !! parent e = Some ep' ∧ children ep' = children ep ∧
            etasks ep' = etasks ep) (λ _, False) False (exit_leader cur code e) w).
  { unfold exit_leader. rewrite Hpid.
    apply wp_bind, wp_modify. intros w1 E1. apply wp_bind, wp_modify. intros w2 E2.
    apply wp_bind, wp_modify. intros w3 E3. apply wp_bind, wp_modify. intros w4 E4.
    apply wp_bind, wp_modify. intros w5 E5. apply wp_bind, adopt_spec.
    { intros Hin. by destruct (lo_children _ _ _ L _ Hin) as [? _]. }
    intros w6 HX6 HL6 _ _ _ _. apply wp_bind, wp_reads.
    rewrite bool_decide_eq_true_2 by (by rewrite HL6, E5, E4, E3, E2, E1).
    apply wp_bind, wp_modify. intros w7 E7. apply wp_bind, wp_modify. intros w8 E8.
    apply wp_bind, wp_modify. intros w9 E9. apply wp_modify. intros w10 E10.
    rewrite E10, E9, E8, E7. simpl. rewrite !(lookup_alter_ne _ _ p (parent e)) by done.
    rewrite lookup_alter_eq, HX6, E5, E4, E3, E2, E1. simpl.
    rewrite !(lookup_alter_ne _ _ p (parent e)) by done. rewrite Hep. eexists. split; [done|].
    simpl. unfold adopted. rewrite !(decide_False (P := parent e = _)) by done. by case_decide. }
  unfold wp in Hwp. by rewrite Ex in Hwp.
Qed.

(** A parent learns of its child's exit, once.  When the leader of process
    [p] finishes exiting with [code], a [wait] for [p] by any task of its parent
    succeeds with [p] and stores [code] as the exit status, and a second wait
    for [p] then answers that there is no such child. *)
Theorem exit_then_wait cur p code ptr w e tk w1 t :
  pinv w → runs w cur p → execs w !! p = Some e → tasks w !! cur = Some tk → is_leader tk = true →
  parent e ≠ KERNEL_EXECUTOR_ID → 0 < p →
  exit_finish cur code w = (Ok (), w1) → runs w1 t (parent e) →
  ∃ w2 ep, wait_pid t p ptr w1 = (Ok (inl p), w2) ∧ execs w1 !! parent e = Some ep ∧
    (ptr ≠ 0 → mems w2 !! memory_set ep =
       mem_store_i32 ptr (as_i32 (as_i32 code * 256)) <$> mems w1 !! memory_set ep) ∧
    wait_pid t p ptr w2 = (Ok (inr WNotExist), w2).
Proof.
  intros I R He Htk Hl Hpk Hp0 Ex Rt. pose proof R as (Hk & Hp & e0 & He0 & Hc).
  assert (e0 = e) as -> by congruence. destruct (pi_ids _ I p e He) as (Hpid & _).
  destruct (pi_live _ I p Hp) as (x & Hx & L). assert (x = e) as -> by congruence.
  destruct (lo_parent _ _ _ L Hk) as (Hne & Hpl & ep & Hep & Hin).
  (* the state after [exit_leader] *)
  pose proof (exit_finish_pinv cur p code w I R) as I1. unfold wp in I1. rewrite Ex in I1.
  pose proof (wp_current_executor (λ e' w', (e', w') = (e, w)) (λ _, False) False cur p e w
      I Hp He Hc eq_refl) as Hcur. unfold wp in Hcur.
  unfold exit_finish, pbind at 1 in Ex.
  destruct (current_executor cur w) as [[e'|?|] w'] eqn:Ecur; [|done..]. injection Hcur as -> ->.
  unfold pbind at 1, the_task in Ex. rewrite Htk in Ex. cbn [punwrap pret] in Ex. rewrite Hl in Ex.
  unfold pbind at 1 in Ex. pose proof (exit_leader_pinv cur p code e w I Hk Hp He Hc) as Hlead.
  unfold wp in Hlead. destruct (exit_leader cur code e w) as [[[]|?|] wl] eqn:El; [|done..].
  destruct Hlead as (Il & Hz & _ & _).
  destruct (exit_leader_parent cur p code e w wl ep I Hk Hp He Hc Hpk Hep El) as (epl & Hepl & Hcl & _).
  unfold pbind, upd_task, modify in Ex. injection Ex as E1. subst p.
  assert (HE1 : execs w1 = execs wl) by (by rewrite <- E1).
  destruct Hz as (ez & Hez & Hzom & Hcode & Hpz & _ & _).
  assert (Hreap : list_find (reapable (execs w1) (pid e)) (children epl) ≠ None).
  { rewrite list_find_None, Forall_forall. intros Hno. apply (Hno (pid e)); [by rewrite Hcl|].
    split; [by right|]. unfold zombie_at. by rewrite HE1, Hez. }
  assert (Hep1 : execs w1 !! parent e = Some epl) by (by rewrite HE1).
  pose proof (wait_pid_run t (parent e) epl (pid e) ptr w1 I1 Rt Hep1) as Hw.
  destruct (list_find _ _) as [[i c]|] eqn:Ef; [|done].
  apply list_find_Some in Ef as (Hi & [[?| ->] _] & _); [lia|].
  destruct Hw as (w2 & Ew & HE2 & HM2 & HL2 & I2).
  set (ep2 := set_children (take i (children epl) ++ drop (S i) (children epl)) epl) in *.
  assert (Hep2 : execs w2 !! parent e = Some ep2).
  { by rewrite HE2, lookup_delete_ne, lookup_insert_eq. }
  assert (Rt2 : runs w2 t (parent e)).
  { destruct Rt as (? & Hlv & et & Het & Htin). split; [done|]. rewrite HL2. split; [done|].
    exists ep2. split; [done|]. by assert (et = epl) as -> by congruence. }
  exists w2, epl. split_and!; [done|done| |].
  - intros Hptr. rewrite HM2, decide_False by done. unfold code_at. by rewrite HE1, Hez, Hcode.
  - assert (Hnone : pid e ∉ children ep2).
    { destruct (pi_live _ I1 (parent e)) as (y & Hy & Ly); [apply Rt|].
      assert (y = epl) as -> by congruence. pose proof (lo_nodup _ _ _ Ly) as Hnd. simpl.
      rewrite <- (take_drop_middle _ _ _ Hi) in Hnd. apply NoDup_app in Hnd as (_ & Hd & Hnd).
      apply NoDup_cons in Hnd as [Hn _]. intros [Hin1|Hin1]%elem_of_app; [|done].
      apply (Hd _ Hin1). by left. }
    pose proof (wait_pid_run t (parent e) ep2 (pid e) ptr w2 I2 Rt2 Hep2) as Hw2.
    destruct (list_find (reapable (execs w2) (pid e)) (children ep2)) as [[j d]|] eqn:Ef2.
    + apply list_find_Some in Ef2 as (Hj & [[?| ->] _] & _); [lia|].
      exfalso. by apply Hnone, (list_elem_of_lookup_2 _ j).
    + rewrite decide_False in Hw2; [done|]. intros (d & Hd & [?| ->])%Exists_exists; [lia|done].
Qed.

(** ** What a new process shares with its parent *)

Lemma wp_new_cwd (Q : Z → W → Prop) R N s w :
  (∀ w', w' = set_cwds (<[next_obj w := s]> (cwds w)) (set_next_obj (next_obj w + 1) w) →
     Q (next_obj w) w') → wp Q R N (new_cwd s) w.
Proof. intros HQ. by apply HQ. Qed.
Lemma wp_new_umask (Q : Z → W → Prop) R N s w :
  (∀ w', w' = set_umasks (<[next_obj w := s]> (umasks w)) (set_next_obj (next_obj w + 1) w) →
     Q (next_obj w) w') → wp Q R N (new_umask s) w.
Proof. intros HQ. by apply HQ. Qed.
Lemma wp_new_table (Q : Z → W → Prop) R N s w :
  (∀ w', w' = set_fd_tables (<[next_obj w := s]> (fd_tables w)) (set_next_obj (next_obj w + 1) w) →
     Q (next_obj w) w') → wp Q R N (new_table s) w.
Proof. intros HQ. by apply HQ. Qed.

(** The object ids in use are below the counter. *)
Definition objects_fresh w : Prop :=
  ∀ i, next_obj w ≤ i → fd_tables w !! i = None ∧ cwds w !! i = None ∧ umasks w !! i = None.

(** Clone shares what its flags say and copies the rest.  The new process of a
    successful clone has the parent, the address space and the heap bottom it was
    given; with [CLONE_FILES] its descriptor table is the parent's, otherwise a
    new object with the same entries; with [CLONE_FS] its working directory and
    mask are the parent's objects, otherwise a new working directory with the
    same path.  The parent's own objects keep their contents. *)
Theorem clone_shares_by_flags cf p pp mem t handler xs e w r w' :
  clone_process TASK_STACK_SIZE cf p pp mem t handler xs e w = (Ok r, w') →
  objects_fresh w → p ≠ pp → fd_table (fd_manager e) < next_obj w →
  FdManager.cwd (fd_manager e) < next_obj w →
  ∃ np, execs w' !! p = Some np ∧ parent np = pp ∧ memory_set np = mem ∧
    heap_bottom np = heap_bottom e ∧ main_task np = Some t ∧ etasks np = [t] ∧
    fd_tables w' !! fd_table (fd_manager np) = fd_tables w !! fd_table (fd_manager e) ∧
    fd_tables w' !! fd_table (fd_manager e) = fd_tables w !! fd_table (fd_manager e) ∧
    (fd_table (fd_manager np) = fd_table (fd_manager e) ↔ has_flag cf CLONE_FILES = true) ∧
    cwds w' !! FdManager.cwd (fd_manager np) = cwds w !! FdManager.cwd (fd_manager e) ∧
    cwds w' !! FdManager.cwd (fd_manager e) = cwds w !! FdManager.cwd (fd_manager e) ∧
    (FdManager.cwd (fd_manager np) = FdManager.cwd (fd_manager e) ↔ has_flag cf CLONE_FS = true) ∧
    (has_flag cf CLONE_FS = true → umask (fd_manager np) = umask (fd_manager e)).
Proof.
  intros Ex Hfr Hpp Hft Hcw.
  match goal with |- ?G => assert (Hwp : wp (λ _ w1, w1 = w' → G) (λ _, True) True
    (clone_process TASK_STACK_SIZE cf p pp mem t handler xs e) w) end.
  2: { unfold wp in Hwp. rewrite Ex in Hwp. by apply Hwp. }
  clear Ex. unfold clone_process.
  apply wp_bind, wp_new_cwd. intros w1 E1. apply wp_bind, wp_new_umask. intros w2 E2.
  set (cwd_src := if has_flag cf CLONE_FS then FdManager.cwd (fd_manager e) else next_obj w).
  set (mask_src := if has_flag cf CLONE_FS then umask (fd_manager e) else next_obj w1).
  assert (N2 : next_obj w2 = next_obj w + 2) by (rewrite E2, E1; simpl; lia).
  assert (Hc2 : cwds w2 = <[next_obj w := [SLASH]]> (cwds w)) by (by rewrite E2, E1).
  apply wp_bind.
  apply wp_mono with (R := λ _, True) (Q := λ table w3,
    fd_tables w3 !! table = fd_tables w !! fd_table (fd_manager e) ∧
    fd_tables w3 !! fd_table (fd_manager e) = fd_tables w !! fd_table (fd_manager e) ∧
    (table = fd_table (fd_manager e) ↔ has_flag cf CLONE_FILES = true) ∧ cwds w3 = cwds w2).
  { assert (Hf2 : fd_tables w2 = fd_tables w) by (by rewrite E2, E1).
    destruct (has_flag cf CLONE_FILES).
    - unfold wp, pret. rewrite Hf2. done.
    - apply wp_bind, wp_lookup; [intros tb Htb|done]. apply wp_new_table. intros w3 E3.
      rewrite E3. simpl. rewrite Hf2 in *. rewrite lookup_insert_eq, lookup_insert_ne by lia.
      split_and!; [done|done| |done]. split; [lia|done]. }
  2: done.
  intros table w3 (Ht1 & Ht2 & Ht3 & Hc3).
  set (np := executor_new _ p pp mem _ table cwd_src mask_src).
  apply wp_bind, wp_modify. intros w4 E4.
  apply wp_bind, wp_lookup; [intros path Hpath|done].
  apply wp_bind, wp_modify. intros w5 E5. apply wp_bind, wp_modify. intros w6 E6.
  apply wp_bind, wp_modify. intros w7 E7. apply wp_bind, wp_modify. intros w8 E8.
  apply wp_bind, wp_modify. intros w9 E9. apply wp_bind, wp_modify. intros w10 E10.
  apply wp_bind, wp_modify. intros w11 E11. apply wp_bind, wp_reads.
  destruct (bool_decide _); [|done]. apply wp_bind, wp_modify. intros w12 E12. unfold wp, pret.
  intros <-.
  assert (HE : execs w12 !! p = Some (set_robust_list (<[t := mk_robust 0 0]> ∅)
    (set_signal_modules (<[t := clone_module handler xs]> ∅) (set_etasks [t] (set_main_task (Some t) np))))).
  { rewrite E12, E11, E10, E9, E8, E7, E6, E5, E4. simpl. rewrite lookup_alter_ne by done.
    by rewrite !alter_insert_eq, lookup_insert_eq. }
  assert (HF : fd_tables w12 = fd_tables w3) by (by rewrite E12, E11, E10, E9, E8, E7, E6, E5, E4).
  assert (HC : cwds w12 = <[cwd_src := path]> (cwds w2)).
  { rewrite E12, E11, E10, E9, E8, E7, E6, E5, E4. simpl. by rewrite Hc3. }
  assert (Hp : cwds w !! FdManager.cwd (fd_manager e) = Some path).
  { rewrite E4 in Hpath. simpl in Hpath. rewrite Hc3, Hc2, lookup_insert_ne in Hpath by lia. done. }
  eexists. split; [exact HE|]. rewrite HF, HC. simpl. unfold cwd_src, mask_src.
  split_and!; try done.
  - by rewrite lookup_insert_eq.
  - destruct (has_flag cf CLONE_FS); [by rewrite lookup_insert_eq|].
    rewrite lookup_insert_ne, Hc2, lookup_insert_ne by lia. done.
  - destruct (has_flag cf CLONE_FS); [done|]. split; [lia|done].
  - by intros ->.
Qed.
End theorems.

(** ** The theorems on a concrete system

    Address spaces that answer every request: enough to run the operations. *)
Module ProcDemo.
Import RefSignal.

Record refmem := mk_refmem { rm_token : Z; rm_bytes : usermem }.

#[export] Instance ref_mem : ProcMem refmem := {
  mem_new := mk_refmem 7 (mk_usermem ∅ ∅);
  mem_token := rm_token;
  mem_clone m := (Ok (mk_refmem (rm_token m + 1) (rm_bytes m)), m);
  mem_map_trampoline m := (Ok (), m);
  mem_query a m := bool_decide (0 < a);
  mem_alloc a m := (bool_decide (0 < a), m);
  mem_store_i32 a v m := mk_refmem (rm_token m) (store_le (rm_bytes m) a 4 v);
  mem_unmap_user m := mk_refmem (rm_token m) (mk_usermem ∅ ∅);
  mem_view := rm_bytes;
  load_app name _ _ m := (if name then None else Some (4096, 65536, 8192), m);
}.

Notation W := (world sset (gmap Z saction) refmem).
Definition demo_init : W := (new_init 0 (boot_world 2)).2.
(** Process 2 with the thread 3. *)
Definition demo_user : W := (init_user 0 0 [lit "/init"] [] demo_init).2.
(** Its fork: process 4 with the thread 5. *)
Definition demo_fork : W := (clone_task 0 3 2 0 None 0 0 0 (Some 17) demo_user).2.
Definition demo_exit : W := (exit_finish 5 7 demo_fork).2.

#[local] Opaque demo_init demo_user demo_fork demo_exit.

Lemma demo_new_init : new_init 0 (boot_world 2) = (Ok (), demo_init).
Proof. by vm_compute. Qed.
Lemma demo_init_user : init_user 0 0 [lit "/init"] [] demo_init = (Ok 3, demo_user).
Proof. by vm_compute. Qed.
Lemma demo_clone : clone_task 0 3 2 0 None 0 0 0 (Some 17) demo_user = (Ok (4, false), demo_fork).
Proof. by vm_compute. Qed.
Lemma demo_exit_finish : exit_finish 5 7 demo_fork = (Ok (), demo_exit).
Proof. by vm_compute. Qed.

Definition demo_exec (w : W) (p : Z) : Executor sset :=
  default (executor_new 0 0 0 0 0 0 0 0) (execs w !! p).
Definition demo_task (w : W) (t : Z) : Task :=
  default (mk_task 0 false Runable 0 0 0 [] 0 None timestat_new) (tasks w !! t).
Lemma demo_runs_user : runs demo_user 3 2.
Proof.
  split; [done|split; [by vm_compute|]]. exists (demo_exec demo_user 2).
  split; [by vm_compute|]. vm_compute. by left.
Qed.
Lemma demo_step_fork : pstep 0 0 0 demo_user demo_fork.
Proof. exact (PClone 0 0 0 _ _ _ _ _ _ _ _ _ _ _ demo_runs_user demo_clone ltac:(discriminate)). Qed.
Lemma demo_pinv_fork : pinv demo_fork.
Proof.
  exact (pstep_pinv 0 0 0 _ _ (booted_pinv 0 0 2 _ _ _ _ _ eq_refl demo_new_init demo_init_user)
    demo_step_fork).
Qed.

Lemma process_tree_invariant_witness : tree demo_fork ∧ ∃ w, exit_finish 5 7 demo_fork = (Ok (), w).
Proof.
  destruct (process_tree_invariant 0 0 0 2 demo_init demo_user [lit "/init"] [] 3 eq_refl
    demo_new_init demo_init_user demo_fork) as (T & _ & H).
  - exact (rtc_once _ _ demo_step_fork).
  - split; [exact T|]. refine (proj2 (proj2 (H 5 4 7 _))).
    split; [done|split; [by vm_compute|]]. exists (demo_exec demo_fork 4).
    split; [by vm_compute|]. vm_compute. by left.
Defined.

Lemma demo_runs_child : runs demo_fork 5 4.
Proof.
  split; [done|split; [by vm_compute|]]. exists (demo_exec demo_fork 4).
  split; [by vm_compute|]. vm_compute. by left.
Qed.
Lemma demo_runs_parent (w : W) : w = demo_fork ∨ w = demo_exit → runs w 3 2.
Proof.
  intros [-> | ->]; (split; [done|split; [by vm_compute|]]);
    [exists (demo_exec demo_fork 2)|exists (demo_exec demo_exit 2)];
    (split; [by vm_compute|]; vm_compute; by left).
Qed.
Lemma demo_parent : parent (demo_exec demo_fork 4) = 2.
Proof. by vm_compute. Qed.
Lemma demo_pinv_exit : pinv demo_exit.
Proof.
  refine (pstep_pinv 0 0 0 demo_fork demo_exit demo_pinv_fork _).
  exact (PExitFinish 0 0 0 _ _ _ _ _ _ demo_runs_child demo_exit_finish ltac:(discriminate)).
Qed.

(** The exited child 4 is reaped, and its code 7 is stored at 0x100. *)
Lemma wait_pid_spec_witness :
  ∃ w' e', wait_pid 3 (-1) 256 demo_exit = (Ok (inl 4), w') ∧ execs w' !! 2 = Some e' ∧
    children e' = [] ∧ execs w' !! 4 = None.
Proof.
  pose proof (wait_pid_spec 3 2 (demo_exec demo_exit 2) (-1) 256 demo_exit demo_pinv_exit
    (demo_runs_parent _ (or_intror eq_refl)) ltac:(by vm_compute)) as H.
  replace (list_find _ _) with (Some (0%nat, 4)) in H by (by vm_compute).
  destruct H as (w' & e' & Hw & He & Hc & Hn & _). exists w', e'. split_and!; [done|done| |done].
  apply Permutation_length in Hc. replace (length (children (demo_exec demo_exit 2))) with 1%nat in Hc
    by (by vm_compute). simpl in Hc. by destruct (children e').
Defined.

Lemma exit_then_wait_witness :
  ∃ w2, wait_pid 3 4 256 demo_exit = (Ok (inl 4), w2) ∧
    wait_pid 3 4 256 w2 = (Ok (inr WNotExist), w2).
Proof.
  destruct (exit_then_wait 5 4 7 256 demo_fork (demo_exec demo_fork 4)
    (demo_task demo_fork 5) demo_exit 3)
    as (w2 & ep & H1 & _ & _ & H2).
  - apply demo_pinv_fork.
  - apply demo_runs_child.
  - by vm_compute.
  - by vm_compute.
  - by vm_compute.
  - by vm_compute.
  - done.
  - apply demo_exit_finish.
  - rewrite demo_parent. exact (demo_runs_parent _ (or_intror eq_refl)).
  - exact (ex_intro _ w2 (conj H1 H2)).
Defined.

Lemma demo_objects_fresh : objects_fresh demo_user.
Proof.
  assert (Hb : ∀ {A} (m : gmap Z A) n i, bool_decide (map_Forall (λ k _, k < n) m) = true →
    n ≤ i → m !! i = None).
  { intros A m n i H%bool_decide_eq_true Hi. destruct (m !! i) as [x|] eqn:E; [|done].
    specialize (H i x E). simpl in H. lia. }
  intros i Hi. split_and!; (eapply Hb; [|exact Hi]); by vm_compute.
Qed.

Definition demo_copy : W := (clone_process 0 0 4 2 0 5 0 (Some 17) (demo_exec demo_user 2) demo_user).2.
Lemma demo_clone_process :
  clone_process 0 0 4 2 0 5 0 (Some 17) (demo_exec demo_user 2) demo_user = (Ok 4, demo_copy).
Proof. by vm_compute. Qed.
#[local] Opaque demo_copy.

(** A fork without flags copies the table and the working directory. *)
Lemma clone_shares_by_flags_witness :
  ∃ np, execs demo_copy !! 4 = Some np ∧ parent np = 2 ∧
    fd_table (fd_manager np) ≠ fd_table (fd_manager (demo_exec demo_user 2)).
Proof.
  destruct (clone_shares_by_flags 0 0 4 2 0 5 0 (Some 17) (demo_exec demo_user 2) demo_user 4 demo_copy
    demo_clone_process demo_objects_fresh) as (np & Hn & Hp & _ & _ & _ & _ & _ & _ & Hf & _);
    [discriminate|by vm_compute|by vm_compute|].
  exists np. split; [exact Hn|split; [exact Hp|]]. rewrite Hf. discriminate.
Defined.

(** A process made with [CLONE_FILES] empties its parent's descriptor table when
    it exits: [exit] clears the table itself, not its reference to it. *)
Lemma exit_clears_shared_files :
  let w := (clone_task 0 3 2 CLONE_FILES None 0 0 0 (Some 17) demo_user).2 in
  let w' := (exit_finish 5 7 w).2 in
  let table (w : W) := fd_tables w !! fd_table (fd_manager (demo_exec w 2)) in
  length <$> table w = Some 3%nat ∧ table w' = Some [].
Proof. by vm_compute. Qed.

(** A child made as [vfork] makes it ([CLONE_VM] and [CLONE_VFORK]) takes its
    parent's address space away when it executes a program: the shared object is
    overwritten with the child's. *)
Lemma exec_overwrites_shared_memory :
  let mem (w : W) := (λ m, load_le (rm_bytes m) 256 4) <$> mems w !! memory_set (demo_exec w 2) in
  let w0 := (store_i32 (memory_set (demo_exec demo_user 2)) 256 5 demo_user).2 in
  let w1 := (clone_task 0 3 2 (Z.lor CLONE_VM CLONE_VFORK) None 0 0 0 (Some 17) w0).2 in
  let r := exec 0 0 5 4 0 (lit "/bin") [] [] w1 in
  mem w1 = Some 5 ∧ r.1 = Ok () ∧ mem r.2 = Some 0.
Proof. by vm_compute. Qed.
End ProcDemo.
