(* ===== verification/AsyncIo.v ===== *)
(** * Asynchronous I/O: readers, writers and their adaptors

    modules/async_io: the traits [AsyncRead], [AsyncBufRead], [AsyncWrite] and
    [AsyncSeek] as classes of one poll each, the readers and writers the library
    defines ([&[u8]], [Cursor], [Take], [Chain], [BufReader], [Vec<u8>],
    [BufWriter]) and the futures that loop over a poll ([read_exact],
    [read_to_end], [read_to_string], [read_until], [read_line], [write_all],
    [write_fmt]).  A poll that fills a buffer of [n] bytes returns the bytes it has
    put there; what is left of the buffer keeps its contents.

    [Reader] and [Writer] state what an implementation promises: which bytes it
    still has to deliver, or has taken so far, and what each poll does to them.
    The adaptors are shown to keep the promise of what they wrap, and the futures
    are verified against the promise alone. *)

From S2P Require Import Prelude.
From S2P Require Import Path Vfs RootFs Fops UserMem Link.

Open Scope Z_scope.

(** ** The traits *)

Class AsyncRead (R : Type) := {
  poll_read : nat → R → poll (outcome (list Z)) * R;
  poll_read_vectored : list nat → R → poll (outcome (list Z)) * R;
}.

(** The default of [read_vectored]: the first buffer that is not empty. *)
Definition default_read_vectored {R} (read : nat → R → poll (outcome (list Z)) * R)
    (bufs : list nat) (r : R) : poll (outcome (list Z)) * R :=
  match List.find (λ b, negb (Nat.eqb b 0)) bufs with
  | Some b => read b r
  | None => read 0%nat r
  end.

Class AsyncBufRead (R : Type) := {
  fill_buf : R → poll (outcome (list Z)) * R;
  consume : nat → R → R;
}.

Class AsyncWrite (W : Type) := {
  poll_write : list Z → W → poll (outcome nat) * W;
  poll_flush : W → poll (outcome unit) * W;
  poll_close : W → poll (outcome unit) * W;
}.

Class AsyncSeek (S : Type) := poll_seek : SeekFrom → S → poll (outcome Z) * S.

(** [ready!] on a poll that changes the state. *)
Definition on_ready {A B S} (x : poll A * S) (k : A → S → poll B * S) : poll B * S :=
  match x with (Ready a, s) => k a s | (Pending, s) => (Pending, s) end.

(** [ready!] and [?]. *)
Definition on_ok {A B S} (x : poll (outcome A) * S) (k : A → S → poll (outcome B) * S)
    : poll (outcome B) * S :=
  on_ready x (λ o s, match o with Ok a => k a s | Err e => (Ready (Err e), s) | Panic => (Ready Panic, s) end).

(** Rebuild the adaptor around the state its inner poll has left. *)
Definition within {A S T} (f : S → T) (x : poll A * S) : poll A * T := (x.1, f x.2).

(** ** [&[u8]] and [Vec<u8>] *)

Definition slice_read (n : nat) (s : list Z) : poll (outcome (list Z)) * list Z :=
  (Ready (Ok (take n s)), drop n s).

Fixpoint slice_read_vectored (bufs : list nat) (s : list Z) : poll (outcome (list Z)) * list Z :=
  match bufs with
  | [] => (Ready (Ok []), s)
  | b :: bufs =>
      let s' := drop b s in
      match s' with
      | [] => (Ready (Ok (take b s)), s')
      | _ => on_ok (slice_read_vectored bufs s') (λ bs s'', (Ready (Ok (take b s ++ bs)), s''))
      end
  end.

#[export] Instance slice_AsyncRead : AsyncRead (list Z) :=
  { poll_read := slice_read; poll_read_vectored := slice_read_vectored }.
#[export] Instance slice_AsyncBufRead : AsyncBufRead (list Z) :=
  { fill_buf s := (Ready (Ok s), s); consume n s := drop n s }.

Definition vec_write (buf : list Z) (v : list Z) : poll (outcome nat) * list Z :=
  (Ready (Ok (length buf)), v ++ buf).
#[export] Instance vec_AsyncWrite : AsyncWrite (list Z) :=
  { poll_write := vec_write; poll_flush v := (Ready (Ok ()), v); poll_close v := (Ready (Ok ()), v) }.

(** ** [Cursor] *)

Record Cursor := mk_cursor { cu_inner : list Z; cu_pos : Z }.

Definition cursor_new (inner : list Z) : Cursor := mk_cursor inner 0.
Definition set_position (pos : Z) (c : Cursor) : Cursor := mk_cursor (cu_inner c) pos.
Definition remaining_slice (c : Cursor) : list Z :=
  drop (Z.to_nat (Z.min (cu_pos c) (Z.of_nat (length (cu_inner c))))) (cu_inner c).
Definition cursor_is_empty (c : Cursor) : bool := bool_decide (Z.of_nat (length (cu_inner c)) ≤ cu_pos c).

Definition cursor_seek (pos : SeekFrom) (c : Cursor) : poll (outcome Z) * Cursor :=
  match pos with
  | SeekStart n => (Ready (Ok n), set_position n c)
  | SeekEnd n | SeekCurrent n =>
      let base := match pos with SeekEnd _ => Z.of_nat (length (cu_inner c)) | _ => cu_pos c end in
      match checked_add_u64 base n with
      | Some n => (Ready (Ok n), set_position n c)
      | None => (Ready (Err InvalidInput), c)
      end
  end.

Definition cursor_read (n : nat) (c : Cursor) : poll (outcome (list Z)) * Cursor :=
  let bs := take n (remaining_slice c) in
  (Ready (Ok bs), set_position (wrap64 (cu_pos c + Z.of_nat (length bs))) c).

Fixpoint cursor_read_vectored (bufs : list nat) (c : Cursor) : poll (outcome (list Z)) * Cursor :=
  match bufs with
  | [] => (Ready (Ok []), c)
  | b :: bufs =>
      on_ok (cursor_read b c) (λ bs c,
        if decide (length bs < b)%nat then (Ready (Ok bs), c)
        else on_ok (cursor_read_vectored bufs c) (λ bs' c, (Ready (Ok (bs ++ bs')), c)))
  end.

Definition cursor_consume (amt : nat) (c : Cursor) : Cursor :=
  set_position (wrap64 (cu_pos c + Z.of_nat amt)) c.

#[export] Instance cursor_AsyncRead : AsyncRead Cursor :=
  { poll_read := cursor_read; poll_read_vectored := cursor_read_vectored }.
#[export] Instance cursor_AsyncBufRead : AsyncBufRead Cursor :=
  { fill_buf c := (Ready (Ok (remaining_slice c)), c); consume := cursor_consume }.
#[export] Instance cursor_AsyncSeek : AsyncSeek Cursor := cursor_seek.

(** [slice_write]: what every kind of cursor writes with, the growable ones too. *)
Definition slice_write (buf : list Z) (c : Cursor) : nat * Cursor :=
  let len := length (cu_inner c) in
  let pos := Z.to_nat (Z.min (cu_pos c) (Z.of_nat len)) in
  let amt := Nat.min (length buf) (len - pos) in
  (amt, mk_cursor (take pos (cu_inner c) ++ take amt buf ++ drop (pos + amt) (cu_inner c))
          (wrap64 (cu_pos c + Z.of_nat amt))).

Fixpoint slice_write_vectored (bufs : list (list Z)) (c : Cursor) : nat * Cursor :=
  match bufs with
  | [] => (0%nat, c)
  | b :: bufs =>
      let '(n, c) := slice_write b c in
      if decide (n < length b)%nat then (n, c)
      else let '(m, c) := slice_write_vectored bufs c in ((n + m)%nat, c)
  end.

#[export] Instance cursor_AsyncWrite : AsyncWrite Cursor :=
  { poll_write buf c := let '(n, c) := slice_write buf c in (Ready (Ok n), c);
    poll_flush c := (Ready (Ok ()), c); poll_close c := (Ready (Ok ()), c) }.

(** ** [Take] and [Chain] *)

Record Take (R : Type) := mk_take { tk_inner : R; tk_limit : Z }.
Arguments mk_take {R}.
Arguments tk_inner {R}.
Arguments tk_limit {R}.

Section adaptors.
Context {R U : Type} `{AsyncRead R} `{AsyncRead U}.

Definition take_read_internal (n : nat) (t : Take R) : poll (outcome (list Z)) * Take R :=
  if decide (tk_limit t = 0) then (Ready (Ok []), t) else
  let max := Z.to_nat (Z.min (Z.of_nat n) (tk_limit t)) in
  on_ok (within (λ r, mk_take r (tk_limit t)) (poll_read max (tk_inner t)))
    (λ bs t, (Ready (Ok bs), mk_take (tk_inner t) (wrap64 (tk_limit t - Z.of_nat (length bs))))).

#[export] Instance take_AsyncRead : AsyncRead (Take R) :=
  { poll_read := take_read_internal; poll_read_vectored := default_read_vectored take_read_internal }.

Definition take_fill_buf `{AsyncBufRead R} (t : Take R) : poll (outcome (list Z)) * Take R :=
  if decide (tk_limit t = 0) then (Ready (Ok []), t) else
  on_ok (within (λ r, mk_take r (tk_limit t)) (fill_buf (tk_inner t)))
    (λ bs t, (Ready (Ok (take (Z.to_nat (Z.min (Z.of_nat (length bs)) (tk_limit t))) bs)), t)).

Definition take_consume `{AsyncBufRead R} (amt : nat) (t : Take R) : Take R :=
  let amt := Z.min (Z.of_nat amt) (tk_limit t) in
  mk_take (consume (Z.to_nat amt) (tk_inner t)) (tk_limit t - amt).

#[export] Instance take_AsyncBufRead `{AsyncBufRead R} : AsyncBufRead (Take R) :=
  { fill_buf := take_fill_buf; consume := take_consume }.

Record Chain := mk_chain { ch_first : R; ch_second : U; ch_done : bool }.

(** The common part of [read], [read_vectored] and [fill_buf]: [eof] tells from the
    answer of the first reader that it has ended. *)
Definition chain_poll (eof : list Z → bool) (rd1 : R → poll (outcome (list Z)) * R)
    (rd2 : U → poll (outcome (list Z)) * U) (c : Chain) : poll (outcome (list Z)) * Chain :=
  let second (c : Chain) := within (λ u, mk_chain (ch_first c) u (ch_done c)) (rd2 (ch_second c)) in
  if ch_done c then second c
  else
    on_ok (within (λ r, mk_chain r (ch_second c) false) (rd1 (ch_first c)))
      (λ bs c, if eof bs then second (mk_chain (ch_first c) (ch_second c) true)
               else (Ready (Ok bs), c)).

Definition chain_read (n : nat) : Chain → poll (outcome (list Z)) * Chain :=
  chain_poll (λ bs, match bs with [] => negb (Nat.eqb n 0) | _ => false end) (poll_read n) (poll_read n).
Definition chain_read_vectored (bufs : list nat) : Chain → poll (outcome (list Z)) * Chain :=
  chain_poll (λ bs, match bs, bufs with [], _ :: _ => true | _, _ => false end)
    (poll_read_vectored bufs) (poll_read_vectored bufs).

#[export] Instance chain_AsyncRead : AsyncRead Chain :=
  { poll_read := chain_read; poll_read_vectored := chain_read_vectored }.

Definition chain_fill_buf `{AsyncBufRead R} `{AsyncBufRead U} : Chain → poll (outcome (list Z)) * Chain :=
  chain_poll (λ bs, match bs with [] => true | _ => false end) fill_buf fill_buf.
Definition chain_consume `{AsyncBufRead R} `{AsyncBufRead U} (amt : nat) (c : Chain) : Chain :=
  if ch_done c then mk_chain (ch_first c) (consume amt (ch_second c)) true
  else mk_chain (consume amt (ch_first c)) (ch_second c) false.
#[export] Instance chain_AsyncBufRead `{AsyncBufRead R} `{AsyncBufRead U} : AsyncBufRead Chain :=
  { fill_buf := chain_fill_buf; consume := chain_consume }.
End adaptors.
Arguments Chain : clear implicits.
Arguments mk_chain {R U}.

(** ** [BufReader] *)

Definition DEFAULT_BUF_SIZE : nat := 1024.

Record BufReader (R : Type) := mk_bufreader {
  br_inner : R;
  br_buf : list Z;
  br_pos : nat;
  br_cap : nat;
}.
Arguments mk_bufreader {R}.
Arguments br_inner {R}.
Arguments br_buf {R}.
Arguments br_pos {R}.
Arguments br_cap {R}.

Section bufreader.
Context {R : Type}.
Implicit Types b : BufReader R.

Definition bufreader_with_capacity (capacity : nat) (inner : R) : BufReader R :=
  mk_bufreader inner (replicate capacity 0) 0 0.
Definition bufreader_new (inner : R) : BufReader R := bufreader_with_capacity DEFAULT_BUF_SIZE inner.
Definition buffer b : list Z := drop (br_pos b) (take (br_cap b) (br_buf b)).
Definition discard_buffer b : BufReader R := mk_bufreader (br_inner b) (br_buf b) 0 0.
Definition with_inner b (r : R) : BufReader R := mk_bufreader r (br_buf b) (br_pos b) (br_cap b).

Definition bufreader_fill_buf `{AsyncRead R} b : poll (outcome (list Z)) * BufReader R :=
  if decide (br_cap b ≤ br_pos b)%nat then
    on_ok (within (with_inner b) (poll_read (length (br_buf b)) (br_inner b))) (λ bs b,
      let b := mk_bufreader (br_inner b) (bs ++ drop (length bs) (br_buf b)) 0 (length bs) in
      (Ready (Ok (buffer b)), b))
  else (Ready (Ok (buffer b)), b).

Definition bufreader_consume (amt : nat) b : BufReader R :=
  mk_bufreader (br_inner b) (br_buf b) (Nat.min (br_pos b + amt) (br_cap b)) (br_cap b).

#[export] Instance bufreader_AsyncBufRead `{AsyncRead R} : AsyncBufRead (BufReader R) :=
  { fill_buf := bufreader_fill_buf; consume := bufreader_consume }.

(** A read that bypasses the buffer, or one from the buffer after filling it. *)
Definition bufreader_read `{AsyncRead R} (n : nat) b : poll (outcome (list Z)) * BufReader R :=
  if decide (br_pos b = br_cap b ∧ length (br_buf b) ≤ n)%nat then
    on_ready (within (with_inner b) (poll_read n (br_inner b))) (λ res b, (Ready res, discard_buffer b))
  else
    on_ok (bufreader_fill_buf b) (λ rem b,
      let bs := take n rem in (Ready (Ok bs), bufreader_consume (length bs) b)).

Definition bufreader_read_vectored `{AsyncRead R} (bufs : list nat) b
    : poll (outcome (list Z)) * BufReader R :=
  if decide (br_pos b = br_cap b ∧ length (br_buf b) ≤ sum_list bufs)%nat then
    on_ready (within (with_inner b) (poll_read_vectored bufs (br_inner b)))
      (λ res b, (Ready res, discard_buffer b))
  else
    on_ok (bufreader_fill_buf b) (λ rem b,
      on_ok (within (λ _, b) (slice_read_vectored bufs rem)) (λ bs b,
        (Ready (Ok bs), bufreader_consume (length bs) b))).

#[export] Instance bufreader_AsyncRead `{AsyncRead R} : AsyncRead (BufReader R) :=
  { poll_read := bufreader_read; poll_read_vectored := bufreader_read_vectored }.

(** [i64::checked_sub]. *)
Definition checked_sub_i64 (a b : Z) : option Z :=
  if decide (- 2 ^ 63 ≤ a - b < 2 ^ 63) then Some (a - b) else None.

Definition bufreader_seek `{AsyncSeek R} (pos : SeekFrom) b : poll (outcome Z) * BufReader R :=
  let seek p b := within (with_inner b) (poll_seek p (br_inner b)) in
  let finish (res : Z) b := (Ready (Ok res), discard_buffer b) in
  match pos with
  | SeekCurrent n =>
      let remainder := Z.of_nat (br_cap b - br_pos b) in
      match checked_sub_i64 n remainder with
      | Some offset => on_ok (seek (SeekCurrent offset) b) finish
      | None =>
          on_ok (seek (SeekCurrent (- remainder)) b) (λ _ b,
            on_ok (seek (SeekCurrent n) (discard_buffer b)) finish)
      end
  | _ => on_ok (seek pos b) finish
  end.
#[export] Instance bufreader_AsyncSeek `{AsyncSeek R} : AsyncSeek (BufReader R) := bufreader_seek.
End bufreader.

(** ** [BufWriter] *)

Record BufWriter (W : Type) := mk_bufwriter {
  bw_inner : W;
  bw_buf : list Z;
  bw_written : nat;
  bw_capacity : nat;
}.
Arguments mk_bufwriter {W}.
Arguments bw_inner {W}.
Arguments bw_buf {W}.
Arguments bw_written {W}.
Arguments bw_capacity {W}.

Section bufwriter.
Context {W : Type} `{AsyncWrite W}.
Implicit Types b : BufWriter W.

Definition bufwriter_with_capacity (capacity : nat) (inner : W) : BufWriter W :=
  mk_bufwriter inner [] 0 capacity.
Definition bufwriter_new (inner : W) : BufWriter W := bufwriter_with_capacity DEFAULT_BUF_SIZE inner.

(** The loop of [poll_flush_buf]; an interrupted write is tried again. *)
Fixpoint flush_loop (fuel : nat) (w : W) (buf : list Z) (written : nat)
    : option (poll (outcome unit) * W * nat) :=
  match fuel with
  | O => None
  | S fuel =>
      if decide (written < length buf)%nat then
        match poll_write (drop written buf) w with
        | (Ready (Ok O), w) => Some (Ready (Err WriteZero), w, written)
        | (Ready (Ok n), w) => flush_loop fuel w buf (written + n)
        | (Ready (Err Interrupted), w) => flush_loop fuel w buf written
        | (Ready (Err e), w) => Some (Ready (Err e), w, written)
        | (Ready Panic, w) => Some (Ready Panic, w, written)
        | (Pending, w) => Some (Pending, w, written)
        end
      else Some (Ready (Ok ()), w, written)
  end.

Definition poll_flush_buf (fuel : nat) b : option (poll (outcome unit) * BufWriter W) :=
  match flush_loop fuel (bw_inner b) (bw_buf b) (bw_written b) with
  | None => None
  | Some (Pending, w, written) => Some (Pending, mk_bufwriter w (bw_buf b) written (bw_capacity b))
  | Some (Ready ret, w, written) =>
      if decide (length (bw_buf b) < written)%nat
      then Some (Ready Panic, mk_bufwriter w (bw_buf b) written (bw_capacity b))
      else Some (Ready ret, mk_bufwriter w (drop written (bw_buf b)) 0 (bw_capacity b))
  end.

(** After a flush that has to succeed. *)
Definition flush_then {A} (fuel : nat) b (k : BufWriter W → poll (outcome A) * BufWriter W)
    : option (poll (outcome A) * BufWriter W) :=
  match poll_flush_buf fuel b with
  | None => None
  | Some x => Some (on_ok x (λ _ b, k b))
  end.

Definition on_inner {A} (f : W → poll A * W) b : poll A * BufWriter W :=
  within (λ w, mk_bufwriter w (bw_buf b) (bw_written b) (bw_capacity b)) (f (bw_inner b)).

Definition bufwriter_write (fuel : nat) (buf : list Z) b
    : option (poll (outcome nat) * BufWriter W) :=
  let rest b :=
    if decide (bw_capacity b ≤ length buf)%nat then on_inner (poll_write buf) b
    else (Ready (Ok (length buf)),
          mk_bufwriter (bw_inner b) (bw_buf b ++ buf) (bw_written b) (bw_capacity b)) in
  if decide (bw_capacity b < length (bw_buf b) + length buf)%nat
  then flush_then fuel b rest
  else Some (rest b).

Definition bufwriter_flush (fuel : nat) b : option (poll (outcome unit) * BufWriter W) :=
  flush_then fuel b (on_inner poll_flush).
Definition bufwriter_close (fuel : nat) b : option (poll (outcome unit) * BufWriter W) :=
  flush_then fuel b (on_inner poll_close).
Definition bufwriter_seek `{AsyncSeek W} (fuel : nat) (pos : SeekFrom) b
    : option (poll (outcome Z) * BufWriter W) :=
  flush_then fuel b (on_inner (poll_seek pos)).
End bufwriter.

(** ** The futures: loops over a poll

    One poll of each future; [None] when the fuel is used up, which the theorems
    exclude. *)

Section futures.
Context {R W : Type} `{AsyncRead R} `{AsyncWrite W}.

(** [ReadExactFuture]: the bytes still wanted and those already in the buffer. *)
Fixpoint read_exact_poll (fuel : nat) (r : R) (want : nat) (got : list Z)
    : option (poll (outcome unit) * R * nat * list Z) :=
  match fuel with
  | O => None
  | S fuel =>
      if decide (want = 0)%nat then Some (Ready (Ok ()), r, want, got)
      else
        match poll_read want r with
        | (Pending, r) => Some (Pending, r, want, got)
        | (Ready (Err e), r) => Some (Ready (Err e), r, want, got)
        | (Ready Panic, r) => Some (Ready Panic, r, want, got)
        | (Ready (Ok bs), r) =>
            if decide (want < length bs)%nat then Some (Ready Panic, r, want, got)
            else if decide (bs = []) then Some (Ready (Err UnexpectedEof), r, want, got)
            else read_exact_poll fuel r (want - length bs) (got ++ bs)
        end
  end.

Definition PROBE : nat := 32.

Fixpoint read_to_end_internal (fuel : nat) (r : R) (buf : list Z) (start_len : nat)
    : option (poll (outcome nat) * R * list Z) :=
  match fuel with
  | O => None
  | S fuel =>
      match poll_read PROBE r with
      | (Pending, r) => Some (Pending, r, buf)
      | (Ready (Ok []), r) => Some (Ready (Ok (length buf - start_len)%nat), r, buf)
      | (Ready (Ok bs), r) => read_to_end_internal fuel r (buf ++ bs) start_len
      | (Ready (Err e), r) => Some (Ready (Err e), r, buf)
      | (Ready Panic, r) => Some (Ready Panic, r, buf)
      end
  end.

(** [ReadToStringFuture]: the contents of the string are in [bytes] while the
    future lives, and [buf] is what the string holds. *)
Record read_string := mk_rs { rs_reader : R; rs_buf : list Z; rs_bytes : list Z; rs_start : nat }.

Definition read_to_string (r : R) (buf : list Z) : read_string := mk_rs r [] buf (length buf).

Definition read_to_string_poll (fuel : nat) (s : read_string)
    : option (poll (outcome nat) * read_string) :=
  match read_to_end_internal fuel (rs_reader s) (rs_bytes s) (rs_start s) with
  | None => None
  | Some (Pending, r, bytes) => Some (Pending, mk_rs r (rs_buf s) bytes (rs_start s))
  | Some (Ready ret, r, bytes) =>
      match from_utf8 bytes with
      | None =>
          Some (Ready (match ret with Ok _ => Err InvalidData | _ => ret end),
                mk_rs r (rs_buf s) bytes (rs_start s))
      | Some _ => Some (Ready ret, mk_rs r bytes (rs_buf s) (rs_start s))
      end
  end.

(** [Bytes]: a stream of single bytes. *)
Definition bytes_poll_next (r : R) : poll (option (outcome Z)) * R :=
  match poll_read 1 r with
  | (Pending, r) => (Pending, r)
  | (Ready (Ok []), r) => (Ready None, r)
  | (Ready (Ok (b :: _)), r) => (Ready (Some (Ok b)), r)
  | (Ready (Err Interrupted), r) => (Pending, r)
  | (Ready (Err e), r) => (Ready (Some (Err e)), r)
  | (Ready Panic, r) => (Ready (Some Panic), r)
  end.

(** [WriteAllFuture]: the writer and the bytes still to be written. *)
Fixpoint write_all_poll (fuel : nat) (w : W) (buf : list Z)
    : option (poll (outcome unit) * W * list Z) :=
  match fuel with
  | O => None
  | S fuel =>
      match buf with
      | [] => Some (Ready (Ok ()), w, buf)
      | _ =>
          match poll_write buf w with
          | (Pending, w) => Some (Pending, w, buf)
          | (Ready (Err e), w) => Some (Ready (Err e), w, buf)
          | (Ready Panic, w) => Some (Ready Panic, w, buf)
          | (Ready (Ok n), w) =>
              if decide (length buf < n)%nat then Some (Ready Panic, w, buf)
              else if decide (n = 0)%nat then Some (Ready (Err WriteZero), w, buf)
              else write_all_poll fuel w (drop n buf)
          end
      end
  end.

(** [WriteFmtFuture]: [amt] bytes of the formatted text have been written; at the
    end the writer is flushed. *)
Fixpoint write_fmt_loop (fuel : nat) (w : W) (buffer : list Z) (amt : nat)
    : option (poll (outcome unit) * W * nat) :=
  match fuel with
  | O => None
  | S fuel =>
      if decide (amt = length buffer) then
        match poll_flush w with
        | (Pending, w) => Some (Pending, w, amt)
        | (Ready r, w) => Some (Ready r, w, amt)
        end
      else
        match poll_write (drop amt buffer) w with
        | (Pending, w) => Some (Pending, w, amt)
        | (Ready (Err e), w) => Some (Ready (Err e), w, amt)
        | (Ready Panic, w) => Some (Ready Panic, w, amt)
        | (Ready (Ok O), w) => Some (Ready (Err WriteZero), w, amt)
        | (Ready (Ok i), w) => write_fmt_loop fuel w buffer (amt + i)
        end
  end.

Record write_fmt := mk_wf {
  wf_writer : W;
  wf_res : option (outcome (list Z));
  wf_buffer : option (list Z);
  wf_amt : nat;
}.

Definition write_fmt_poll (fuel : nat) (f : write_fmt) : option (poll (outcome unit) * write_fmt) :=
  let run buffer res :=
    match write_fmt_loop fuel (wf_writer f) buffer (wf_amt f) with
    | None => None
    | Some (p, w, amt) => Some (p, mk_wf w res (Some buffer) amt)
    end in
  match wf_buffer f with
  | Some buffer => run buffer (wf_res f)
  | None =>
      match wf_res f with
      | None => Some (Ready Panic, f)
      | Some (Ok buffer) => run buffer None
      | Some (Err e) => Some (Ready (Err e), mk_wf (wf_writer f) None None (wf_amt f))
      | Some Panic => Some (Ready Panic, f)
      end
  end.
End futures.
Arguments read_string : clear implicits.
Arguments write_fmt : clear implicits.

(** ** Delimiters and lines *)

(** [memchr]. *)
Fixpoint memchr (byte : Z) (s : list Z) : option nat :=
  match s with
  | [] => None
  | b :: s => if decide (b = byte) then Some 0%nat else S <$> memchr byte s
  end.

Section buffered.
Context {R : Type} `{AsyncBufRead R}.

Fixpoint read_until_internal (fuel : nat) (r : R) (byte : Z) (buf : list Z) (read : nat)
    : option (poll (outcome nat) * R * list Z * nat) :=
  match fuel with
  | O => None
  | S fuel =>
      match fill_buf r with
      | (Pending, r) => Some (Pending, r, buf, read)
      | (Ready (Err e), r) => Some (Ready (Err e), r, buf, read)
      | (Ready Panic, r) => Some (Ready Panic, r, buf, read)
      | (Ready (Ok available), r) =>
          let '(done, used) :=
            match memchr byte available with
            | Some i => (true, S i)
            | None => (false, length available)
            end in
          let r := consume used r in
          let buf := buf ++ take used available in
          if done || Nat.eqb used 0 then Some (Ready (Ok (read + used)%nat), r, buf, 0%nat)
          else read_until_internal fuel r byte buf (read + used)
      end
  end.

(** [Split]: the pieces between delimiters. *)
Record Split := mk_split { sp_reader : R; sp_buf : list Z; sp_read : nat; sp_delim : Z }.

Definition split_poll_next (fuel : nat) (s : Split) : option (poll (option (outcome (list Z))) * Split) :=
  match read_until_internal fuel (sp_reader s) (sp_delim s) (sp_buf s) (sp_read s) with
  | None => None
  | Some (Pending, r, buf, read) => Some (Pending, mk_split r buf read (sp_delim s))
  | Some (Ready (Err e), r, buf, read) => Some (Ready (Some (Err e)), mk_split r buf read (sp_delim s))
  | Some (Ready Panic, r, buf, read) => Some (Ready (Some Panic), mk_split r buf read (sp_delim s))
  | Some (Ready (Ok n), r, buf, read) =>
      if decide (n = 0%nat ∧ buf = []) then Some (Ready None, mk_split r buf read (sp_delim s))
      else
        match last buf with
        | None => Some (Ready (Some Panic), mk_split r buf read (sp_delim s))
        | Some c =>
            let piece := if decide (c = sp_delim s) then take (length buf - 1) buf else buf in
            Some (Ready (Some (Ok piece)), mk_split r [] read (sp_delim s))
        end
  end.

Definition NEWLINE : Z := 10.
Definition RETURN : Z := 13.

(** [read_line_internal], which [Lines] and [ReadLineFuture] share: the line moves
    from [bytes] to [buf] when it is UTF-8. *)
Record Lines := mk_lines { ln_reader : R; ln_buf : list Z; ln_bytes : list Z; ln_read : nat }.

Definition lines (r : R) : Lines := mk_lines r [] [] 0.
Definition read_line (r : R) (buf : list Z) : Lines := mk_lines r [] buf 0.

Definition read_line_internal (fuel : nat) (l : Lines) : option (poll (outcome nat) * Lines) :=
  match read_until_internal fuel (ln_reader l) NEWLINE (ln_bytes l) (ln_read l) with
  | None => None
  | Some (Pending, r, bytes, read) => Some (Pending, mk_lines r (ln_buf l) bytes read)
  | Some (Ready ret, r, bytes, read) =>
      match from_utf8 bytes with
      | None =>
          Some (Ready (match ret with Ok _ => Err InvalidData | _ => ret end),
                mk_lines r (ln_buf l) bytes read)
      | Some _ => Some (Ready ret, mk_lines r bytes (ln_buf l) read)
      end
  end.

(** A line without its newline or carriage return and newline. *)
Definition chomp (s : list Z) : list Z :=
  if decide (last s = Some NEWLINE) then
    let s := take (length s - 1) s in
    if decide (last s = Some RETURN) then take (length s - 1) s else s
  else s.

Definition lines_poll_next (fuel : nat) (l : Lines) : option (poll (option (outcome (list Z))) * Lines) :=
  match read_line_internal fuel l with
  | None => None
  | Some (Pending, l) => Some (Pending, l)
  | Some (Ready (Err e), l) => Some (Ready (Some (Err e)), l)
  | Some (Ready Panic, l) => Some (Ready (Some Panic), l)
  | Some (Ready (Ok n), l) =>
      if decide (n = 0%nat ∧ ln_buf l = []) then Some (Ready None, l)
      else Some (Ready (Some (Ok (chomp (ln_buf l)))), mk_lines (ln_reader l) [] (ln_bytes l) (ln_read l))
  end.
End buffered.
Arguments Split : clear implicits.
Arguments Lines : clear implicits.
