(* ===== verification/AsyncIoProps.v ===== *)
(** * Asynchronous I/O: what readers and writers promise, and the theorems

    [Reader], [BufRead] and [Writer] are the promises; the adaptors are instances
    of them when what they wrap is, so a stack of adaptors is one as well; the
    futures deliver exactly the bytes the promise names. *)

From S2P Require Import Prelude.
From S2P Require Import Path Vfs RootFs Fops UserMem Link AsyncIo.

Open Scope Z_scope.

(** ** The promise of a reader *)

(** What one read of up to [n] bytes does to the bytes [s] still to come. *)
Definition read_ok (n : nat) (s : list Z) (p : poll (outcome (list Z))) (s' : list Z) : Prop :=
  match p with
  | Ready (Ok bs) => (length bs ≤ n)%nat ∧ s = bs ++ s' ∧ (bs = [] → n = 0%nat ∨ s = [])
  | Ready Panic => False
  | _ => s' = s
  end.

Class Reader (R : Type) `{AsyncRead R} := {
  rd_wf : R → Prop;
  rd_rest : R → list Z;
  rd_step n r : rd_wf r →
    rd_wf (poll_read n r).2 ∧ read_ok n (rd_rest r) (poll_read n r).1 (rd_rest (poll_read n r).2);
}.

(** A buffered reader shows a prefix of what is to come. *)
Class BufRead (R : Type) `{AsyncRead R} `{AsyncBufRead R} `{!Reader R} := {
  bf_avail : R → list Z;
  bf_prefix r : rd_wf r → bf_avail r `prefix_of` rd_rest r;
  bf_fill r : rd_wf r →
    rd_wf (fill_buf r).2 ∧ rd_rest (fill_buf r).2 = rd_rest r ∧
    match (fill_buf r).1 with
    | Ready (Ok bs) => bs = bf_avail (fill_buf r).2 ∧ (bs = [] → rd_rest r = [])
    | Ready Panic => False
    | _ => True
    end;
  bf_consume n r : rd_wf r → (n ≤ length (bf_avail r))%nat →
    rd_wf (consume n r) ∧ rd_rest (consume n r) = drop n (rd_rest r);
}.

(** Destruct a poll of a reader together with its promise. *)
Ltac step_read n r :=
  let Hs := fresh "Hs" in
  pose proof (rd_step n r) as Hs; destruct (poll_read n r) as [[[?|?|]|] ?]; simpl in Hs.

(** ** Slices and cursors *)

#[export] Program Instance slice_Reader : Reader (list Z) := { rd_wf _ := True; rd_rest s := s }.
Next Obligation.
  intros n r _. simpl. split; [done|]. split_and!.
  - rewrite length_take. lia.
  - by rewrite take_drop.
  - destruct n, r; simpl; try done; auto.
Qed.

#[export] Program Instance slice_BufRead : BufRead (list Z) := { bf_avail s := s }.
Next Obligation. done. Qed.
Next Obligation. intros r _. simpl. auto. Qed.
Next Obligation. done. Qed.

Definition cursor_wf (c : Cursor) : Prop :=
  is_u64 (cu_pos c) ∧ Z.of_nat (length (cu_inner c)) < 2 ^ 63.

(** Moving a cursor forward inside its data. *)
Lemma cursor_advance (c : Cursor) n :
  cursor_wf c → (n ≤ length (remaining_slice c))%nat →
  cursor_wf (cursor_consume n c) ∧ remaining_slice (cursor_consume n c) = drop n (remaining_slice c).
Proof.
  destruct c as [l p]. unfold cursor_wf, cursor_consume, remaining_slice, is_u64, two64. simpl.
  intros [Hp Hl] Hn. rewrite length_drop in Hn.
  assert (Hw : wrap64 (p + Z.of_nat n) = p + Z.of_nat n).
  { apply wrap64_small. unfold is_u64, two64. lia. }
  rewrite Hw. split; [lia|]. rewrite drop_drop. f_equal. lia.
Qed.

#[export] Program Instance cursor_Reader : Reader Cursor :=
  { rd_wf := cursor_wf; rd_rest := remaining_slice }.
Next Obligation.
  intros n c Hc. simpl.
  assert (Hle : (length (take n (remaining_slice c)) ≤ length (remaining_slice c))%nat)
    by (rewrite length_take; lia).
  destruct (cursor_advance c _ Hc Hle) as [Hw Hr]. unfold cursor_consume in Hw, Hr.
  split; [exact Hw|]. rewrite Hr. split_and!.
  - rewrite length_take. lia.
  - rewrite length_take. destruct (decide (n ≤ length (remaining_slice c))%nat).
    + by rewrite Nat.min_l, take_drop.
    + by rewrite Nat.min_r, take_ge, drop_all, app_nil_r by lia.
  - destruct n, (remaining_slice c); simpl; try done; auto.
Qed.

#[export] Program Instance cursor_BufRead : BufRead Cursor := { bf_avail := remaining_slice }.
Next Obligation. done. Qed.
Next Obligation. intros r Hr. simpl. auto. Qed.
Next Obligation. intros n c. apply cursor_advance. Qed.

(** ** [Take] *)

Section take.
Context {R : Type} `{Reader R}.

Definition take_wf (t : Take R) : Prop := rd_wf (tk_inner t) ∧ is_u64 (tk_limit t).
Definition take_rest (t : Take R) : list Z := take (Z.to_nat (tk_limit t)) (rd_rest (tk_inner t)).

#[export] Program Instance take_Reader : Reader (Take R) := { rd_wf := take_wf; rd_rest := take_rest }.
Next Obligation.
  intros n [r k] [Hr Hk]. unfold take_rest, is_u64 in *. simpl in *. unfold take_read_internal. simpl.
  destruct (decide (k = 0)) as [->|Hk0]; [simpl; split; [done|split; [simpl; lia|by auto]]|].
  set (m := Z.to_nat (Z.min (Z.of_nat n) k)).
  pose proof (rd_step m r Hr) as Hs.
  destruct (poll_read m r) as [[[bs|e|]|] r']; simpl in *; destruct Hs as [Hw Hs];
    [|by rewrite Hs|done|by rewrite Hs].
  destruct Hs as (Hlen & Hrest & Heof).
  assert (Hle : (length bs ≤ n)%nat ∧ Z.of_nat (length bs) ≤ k) by lia.
  assert (Hlim : wrap64 (k - Z.of_nat (length bs)) = k - Z.of_nat (length bs)).
  { apply wrap64_small. unfold is_u64. lia. }
  unfold take_wf, take_rest. simpl. rewrite Hlim. split; [unfold is_u64; split; [done|lia]|].
  split_and!; [lia| |].
  - rewrite Hrest, take_app_ge by lia. do 2 f_equal. lia.
  - intros Hb. destruct (Heof Hb) as [Hm|Hm]; [left; lia|]. right. by rewrite Hm, take_nil.
Qed.

#[export] Program Instance take_BufRead `{AsyncBufRead R} `{!BufRead R} : BufRead (Take R) :=
  { bf_avail t := take (Z.to_nat (tk_limit t)) (bf_avail (tk_inner t)) }.
Next Obligation.
  intros ? ? [r k] [Hr Hk]. simpl in *. unfold take_rest. simpl.
  destruct (bf_prefix r Hr) as [k' ->]. rewrite take_app. by apply prefix_app_r.
Qed.
Next Obligation.
  intros ? ? [r k] [Hr Hk]. unfold is_u64 in Hk. simpl in *. unfold take_fill_buf. simpl.
  destruct (decide (k = 0)) as [->|Hk0]; [by simpl|].
  pose proof (bf_fill r Hr) as Hs.
  destruct (fill_buf r) as [[[bs|e|]|] r']; simpl in *; destruct Hs as (Hw & Hrest & Hs);
    unfold take_wf, take_rest in *; simpl; rewrite ?Hrest; try done.
  destruct Hs as [-> Hnil]. split_and!; [done|done|done| |].
  - destruct (decide (Z.of_nat (length (bf_avail r')) ≤ k)).
    + rewrite Z.min_l, Nat2Z.id, firstn_all by done. by rewrite take_ge by lia.
    + by rewrite Z.min_r by lia.
  - intros Hb. rewrite Hnil, ?take_nil; [done|]. apply (f_equal length) in Hb. rewrite length_take in Hb.
    simpl in Hb. destruct (bf_avail r'); [done|]. simpl in Hb. lia.
Qed.
Next Obligation.
  intros ? ? n [r k] [Hr Hk] Hn. unfold is_u64, take_wf, take_rest in *. simpl in *.
  rewrite length_take in Hn. unfold take_consume. simpl. rewrite (Z.min_l (Z.of_nat n) k), Nat2Z.id by lia.
  unfold take_wf, take_rest, is_u64. simpl.
  destruct (bf_consume n r Hr) as [Hw ->]; [lia|]. split; [split; [done|lia]|].
  rewrite take_drop_commute. do 2 f_equal. lia.
Qed.
End take.

(** ** [Chain] *)

Section chain.
Context {R U : Type} `{Reader R} `{Reader U}.

Definition chain_wf (c : Chain R U) : Prop := rd_wf (ch_first c) ∧ rd_wf (ch_second c).
Definition chain_rest (c : Chain R U) : list Z :=
  (if ch_done c then [] else rd_rest (ch_first c)) ++ rd_rest (ch_second c).

#[export] Program Instance chain_Reader : Reader (Chain R U) := { rd_wf := chain_wf; rd_rest := chain_rest }.
Next Obligation.
  intros n [r u d] [Hr Hu]. unfold chain_wf, chain_rest in *. simpl in *. unfold chain_read, chain_poll. simpl.
  pose proof (rd_step n u Hu) as Hu'. destruct d; simpl.
  - destruct (poll_read n u) as [[[bs|e|]|] u']; simpl in *; tauto.
  - pose proof (rd_step n r Hr) as Hs. destruct (poll_read n r) as [[[bs|e|]|] r']; simpl in *;
      destruct Hs as [Hw Hs]; [|by rewrite Hs|done|by rewrite Hs].
    destruct Hs as (Hlen & Hrest & Heof). destruct bs as [|b bs]; simpl.
    + destruct (Heof eq_refl) as [-> |Hnil]; simpl.
      * rewrite Hrest. simpl. split_and!; auto with lia.
      * destruct n; simpl.
        { rewrite Hrest. simpl. split_and!; auto with lia. }
        rewrite Hnil. simpl. destruct (poll_read (S n) u) as [[[bs|e|]|] u']; simpl in *; tauto.
    + rewrite Hrest. simpl. by rewrite <- app_assoc.
Qed.

#[export] Program Instance chain_BufRead `{AsyncBufRead R} `{AsyncBufRead U} `{!BufRead R} `{!BufRead U} :
    BufRead (Chain R U) :=
  { bf_avail c := if ch_done c then bf_avail (ch_second c) else bf_avail (ch_first c) }.
Next Obligation.
  intros ? ? ? ? [r u d] [Hr Hu]. unfold chain_rest. simpl in *. destruct d; simpl.
  - by apply bf_prefix.
  - by apply prefix_app_r, bf_prefix.
Qed.
Next Obligation.
  intros ? ? ? ? [r u d] [Hr Hu]. unfold chain_wf, chain_rest in *. simpl in *.
  unfold chain_fill_buf, chain_poll. simpl. pose proof (bf_fill u Hu) as Hu'. destruct d; simpl.
  - destruct (fill_buf u) as [[[bs|e|]|] u']; unfold chain_wf, chain_rest; simpl in *; tauto.
  - pose proof (bf_fill r Hr) as Hs. destruct (fill_buf r) as [[[bs|e|]|] r']; simpl in *;
      destruct Hs as (Hw & Hrest & Hs); unfold chain_wf, chain_rest; simpl; rewrite ?Hrest; try tauto.
    destruct Hs as [Hbs Hnil]. destruct bs as [|b bs]; simpl.
    + rewrite (Hnil eq_refl). simpl. destruct (fill_buf u) as [[[bs|e|]|] u']; unfold chain_wf, chain_rest; simpl in *; tauto.
    + unfold chain_wf, chain_rest. simpl. by rewrite Hrest.
Qed.
Next Obligation.
  intros ? ? ? ? n [r u d] [Hr Hu] Hn. unfold chain_wf, chain_rest, chain_consume in *. simpl in *.
  destruct d; unfold chain_wf, chain_rest; simpl.
  - destruct (bf_consume n u Hu Hn). tauto.
  - destruct (bf_consume n r Hr Hn) as [Hw ->]. split; [tauto|].
    pose proof (prefix_length _ _ (bf_prefix r Hr)). by rewrite drop_app_le by lia.
Qed.
End chain.

(** ** [BufReader] *)

Section bufreader.
Context {R : Type} `{Reader R}.
Implicit Types b : BufReader R.

Record bufreader_wf b : Prop := {
  bw_rd : rd_wf (br_inner b);
  bw_bounds : (br_pos b ≤ br_cap b ≤ length (br_buf b))%nat;
  bw_room : (0 < length (br_buf b))%nat;
}.
Definition bufreader_rest b : list Z := buffer b ++ rd_rest (br_inner b).

Lemma length_buffer b : bufreader_wf b → length (buffer b) = (br_cap b - br_pos b)%nat.
Proof. intros []. unfold buffer. rewrite length_drop, length_take. lia. Qed.

Lemma bufreader_consume_ok b n :
  bufreader_wf b → (n ≤ length (buffer b))%nat →
  bufreader_wf (bufreader_consume n b) ∧ buffer (bufreader_consume n b) = drop n (buffer b).
Proof.
  intros Hb Hn. rewrite length_buffer in Hn by done. destruct Hb as [Hr Hp Hl].
  split; [split; simpl; [done|lia|done]|].
  unfold buffer. simpl. rewrite Nat.min_l by lia. by rewrite drop_drop.
Qed.

Lemma bufreader_fill_ok b :
  bufreader_wf b →
  let x := bufreader_fill_buf b in
  bufreader_wf x.2 ∧ bufreader_rest x.2 = bufreader_rest b ∧
  match x.1 with
  | Ready (Ok bs) => bs = buffer x.2 ∧ (bs = [] → bufreader_rest b = [])
  | Ready Panic => False
  | _ => True
  end.
Proof.
  intros Hb. unfold bufreader_fill_buf. pose proof (length_buffer b Hb) as Hlen.
  destruct Hb as [Hr Hp Hl]. unfold bufreader_rest.
  destruct (decide (br_cap b ≤ br_pos b)%nat) as [Hle|Hle]; simpl.
  - assert (Hnil : buffer b = []) by (apply nil_length_inv; lia). rewrite Hnil.
    pose proof (rd_step (length (br_buf b)) (br_inner b) Hr) as Hs.
    destruct (poll_read _ _) as [[[bs|e|]|] r']; simpl in *; destruct Hs as [Hw Hs];
      [|by split_and!; [split|rewrite Hs; unfold buffer; simpl; fold (buffer b); rewrite Hnil|]
       |done|by split_and!; [split|rewrite Hs; unfold buffer; simpl; fold (buffer b); rewrite Hnil|]].
    destruct Hs as (Hlb & Hrest & Heof).
    assert (Hbuf : ∀ x, buffer (mk_bufreader r' (bs ++ x) 0 (length bs)) = bs).
    { intros x. unfold buffer. simpl. by rewrite drop_0, take_app_length. }
    rewrite Hbuf. split_and!; [|done|done|].
    + split; simpl; [done|rewrite length_app; lia|rewrite length_app, length_drop; lia].
    + intros ->. destruct (Heof eq_refl) as [?|?]; [lia|done].
  - split_and!; [by split|done|done|]. intros Hnil. rewrite Hnil in Hlen. simpl in Hlen. lia.
Qed.

#[export] Program Instance bufreader_Reader : Reader (BufReader R) :=
  { rd_wf := bufreader_wf; rd_rest := bufreader_rest }.
Next Obligation.
  intros n b Hb. simpl. unfold bufreader_read.
  destruct (decide (br_pos b = br_cap b ∧ length (br_buf b) ≤ n)%nat) as [[Heq Hn]|Hn].
  - pose proof (length_buffer b Hb) as Hlen. destruct Hb as [Hr Hp Hl].
    assert (Hnil : buffer b = []) by (apply nil_length_inv; lia).
    assert (Hd : ∀ r', bufreader_rest (discard_buffer (with_inner b r')) = rd_rest r') by done.
    pose proof (rd_step n (br_inner b) Hr) as Hs. unfold bufreader_rest at 1. rewrite Hnil. simpl.
    destruct (poll_read n (br_inner b)) as [[[bs|e|]|] r']; simpl in *; destruct Hs as [Hw Hs];
      rewrite ?Hd; (split; [by split; simpl; auto with lia|]); try done.
    unfold bufreader_rest, buffer. simpl. fold (buffer b). by rewrite Hnil.
  - destruct (bufreader_fill_ok b Hb) as (Hw & Hrest & Hs).
    destruct (bufreader_fill_buf b) as [[[rem|e|]|] b']; simpl in *; try done.
    destruct Hs as [-> Hnil].
    assert (Hle : (length (take n (buffer b')) ≤ length (buffer b'))%nat) by (rewrite length_take; lia).
    destruct (bufreader_consume_ok b' _ Hw Hle) as [Hw' Hb']. split; [done|].
    rewrite <- Hrest. unfold bufreader_rest. rewrite Hb'. simpl. rewrite app_assoc. split_and!.
    + rewrite length_take. lia.
    + f_equal. rewrite length_take. destruct (decide (n ≤ length (buffer b'))%nat).
      * by rewrite Nat.min_l, take_drop.
      * by rewrite Nat.min_r, take_ge, drop_all, app_nil_r by lia.
    + intros Ht. destruct (buffer b') as [|x l] eqn:El; [right; rewrite <- Hrest in Hnil|].
      { unfold bufreader_rest in Hnil. rewrite El in Hnil. by apply Hnil. }
      destruct n; [by left|done].
Qed.

#[export] Program Instance bufreader_BufRead : BufRead (BufReader R) := { bf_avail := buffer }.
Next Obligation. intros b _. unfold bufreader_rest. by eexists. Qed.
Next Obligation. intros b Hb. exact (bufreader_fill_ok b Hb). Qed.
Next Obligation.
  intros n b Hb Hn. simpl. destruct (bufreader_consume_ok b n Hb Hn) as [Hw Hc]. split; [done|].
  unfold bufreader_rest. rewrite Hc. simpl. by rewrite drop_app_le.
Qed.
End bufreader.

(** ** Driving a future *)

(** [driven step s a s']: polled again after every [Pending], the future in state
    [s] becomes ready with [a] in state [s']. *)
Inductive driven {S A} (step : S → option (poll A * S)) : S → A → S → Prop :=
  | driven_ready s a s' : step s = Some (Ready a, s') → driven step s a s'
  | driven_pending s s1 a s' :
      step s = Some (Pending, s1) → driven step s1 a s' → driven step s a s'.

(** An invariant of the polls that ends in [Q]. *)
Lemma driven_ind' {S A} (step : S → option (poll A * S)) (I : S → Prop) (Q : A → S → Prop) s a s' :
  I s → (∀ s, I s → match step s with
                    | Some (Ready a, s') => Q a s'
                    | Some (Pending, s') => I s'
                    | None => False
                    end) →
  driven step s a s' → Q a s'.
Proof.
  intros HI Hstep Hd. induction Hd as [s a s' E|s s1 a s' E _ IH]; pose proof (Hstep s HI) as Hs;
    rewrite E in Hs; auto.
Qed.

(** ** Reading *)

Section reading.
Context {R : Type} `{Reader R}.

Definition read_to_end_step (fuel start : nat) (s : R * list Z) : option (poll (outcome nat) * (R * list Z)) :=
  match read_to_end_internal fuel s.1 s.2 start with
  | Some (p, r, buf) => Some (p, (r, buf))
  | None => None
  end.

Lemma read_to_end_ok fuel r buf start :
  rd_wf r → (length (rd_rest r) < fuel)%nat →
  ∃ p r' buf', read_to_end_internal fuel r buf start = Some (p, r', buf') ∧ rd_wf r' ∧
    buf' ++ rd_rest r' = buf ++ rd_rest r ∧ (length (rd_rest r') ≤ length (rd_rest r))%nat ∧
    match p with
    | Ready (Ok n) => rd_rest r' = [] ∧ n = (length buf' - start)%nat
    | Ready Panic => False
    | _ => True
    end.
Proof.
  revert r buf. induction fuel as [|fuel IH]; intros r buf Hr Hf; [lia|]. simpl.
  pose proof (rd_step PROBE r Hr) as Hs.
  destruct (poll_read PROBE r) as [[[bs|e|]|] r']; simpl in Hs; destruct Hs as [Hw Hs];
    [|by eexists _, _, _; rewrite Hs|done|by eexists _, _, _; rewrite Hs].
  destruct Hs as (Hlen & Hrest & Heof). destruct bs as [|b bs].
  - eexists _, _, _. split; [done|]. simpl in Hrest. rewrite <- Hrest. split_and!; [done|done|done| |done].
    destruct (Heof eq_refl); [done|congruence].
  - assert (Hl : (length (rd_rest r') < length (rd_rest r))%nat).
    { rewrite Hrest. simpl. rewrite length_app. lia. }
    destruct (IH r' (buf ++ b :: bs) Hw) as (p & r2 & buf2 & E & Hw2 & Hc & Hm & Hp); [lia|].
    eexists _, _, _. split; [exact E|]. split_and!; [done| |lia|done].
    by rewrite Hc, Hrest, <- app_assoc.
Qed.

Lemma read_to_end_driven fuel r buf n r' buf' :
  rd_wf r → (length (rd_rest r) < fuel)%nat →
  driven (read_to_end_step fuel (length buf)) (r, buf) (Ok n) (r', buf') →
  buf' = buf ++ rd_rest r ∧ n = length (rd_rest r) ∧ rd_rest r' = [].
Proof.
  intros Hr Hf Hd.
  set (Q := λ (o : outcome nat) (s : R * list Z), ∀ n, o = Ok n →
    s.2 = buf ++ rd_rest r ∧ n = length (rd_rest r) ∧ rd_rest s.1 = []).
  assert (HQ : Q (Ok n) (r', buf')).
  { eapply (driven_ind' _ (λ s, rd_wf s.1 ∧ s.2 ++ rd_rest s.1 = buf ++ rd_rest r ∧
      (length (rd_rest s.1) < fuel)%nat) Q); [| |exact Hd].
    - simpl. auto.
    - intros [r1 b1] (Hw & Hc & Hl). simpl in *. unfold read_to_end_step. simpl.
      destruct (read_to_end_ok fuel r1 b1 (length buf) Hw Hl) as (p & r2 & b2 & -> & Hw2 & Hc2 & Hm & Hp).
      rewrite Hc in Hc2. destruct p as [[m|?|]|]; simpl; try done.
      + intros n' [= <-]. destruct Hp as [Hnil ->]. rewrite Hnil, app_nil_r in Hc2. rewrite Hc2.
        rewrite length_app. split_and!; [done|lia|done].
      + split_and!; [done|done|lia]. }
  by apply HQ.
Qed.
End reading.

(** ** Exact reads *)

Section exact.
Context {R : Type} `{Reader R}.

Definition read_exact_step (fuel : nat) (s : R * nat * list Z)
    : option (poll (outcome unit) * (R * nat * list Z)) :=
  match read_exact_poll fuel s.1.1 s.1.2 s.2 with
  | Some (p, r, want, got) => Some (p, (r, want, got))
  | None => None
  end.

(** A poll of the reader that ended with the error. *)
Definition own_error (e : AxError) (r' : R) : Prop := ∃ n r, rd_wf r ∧ poll_read n r = (Ready (Err e), r').

Lemma read_exact_ok fuel r want got :
  rd_wf r → (want < fuel)%nat →
  ∃ p r' want' got', read_exact_poll fuel r want got = Some (p, r', want', got') ∧ rd_wf r' ∧
    got' ++ rd_rest r' = got ++ rd_rest r ∧ (length got' + want' = length got + want)%nat ∧
    (want' ≤ want)%nat ∧
    match p with
    | Ready (Ok _) => want' = 0%nat
    | Ready (Err e) => want' ≠ 0%nat ∧ (e = UnexpectedEof ∧ rd_rest r' = [] ∨ own_error e r')
    | Ready Panic => False
    | Pending => True
    end.
Proof.
  revert r want got. induction fuel as [|fuel IH]; intros r want got Hr Hf; [lia|]. simpl.
  destruct (decide (want = 0)%nat) as [->|Hw0]; [by eexists _, _, _, _|].
  pose proof (rd_step want r Hr) as Hs.
  destruct (poll_read want r) as [[[bs|e|]|] r'] eqn:E0; simpl in Hs; destruct Hs as [Hw Hs].
  - destruct Hs as (Hlen & Hrest & Heof). rewrite decide_False by lia.
    destruct (decide (bs = [])) as [->|Hb].
    + eexists _, _, _, _. split; [done|]. simpl in Hrest. rewrite <- Hrest.
      split_and!; try done. left. by destruct (Heof eq_refl).
    + assert (0 < length bs)%nat by (destruct bs; [done|simpl; lia]).
      destruct (IH r' (want - length bs)%nat (got ++ bs) Hw) as (p & r2 & w2 & g2 & E & Hw2 & Hc & Hl & Hm & Hp);
        [lia|].
      eexists _, _, _, _. split; [exact E|]. rewrite length_app in Hl.
      split_and!; [done| |lia|lia|done]. by rewrite Hc, Hrest, <- app_assoc.
  - eexists _, _, _, _. split; [done|]. rewrite Hs. split_and!; try done. right. by exists want, r.
  - done.
  - eexists _, _, _, _. split; [done|]. by rewrite Hs.
Qed.

(** The invariant between two polls of a read of [want] bytes of [rest]. *)
Definition exact_inv (want : nat) (rest : list Z) (s : R * nat * list Z) : Prop :=
  rd_wf s.1.1 ∧ s.2 ++ rd_rest s.1.1 = rest ∧ (length s.2 + s.1.2 = want)%nat.
Lemma exact_inv_step fuel want rest s :
  (want < fuel)%nat → exact_inv want rest s →
  ∃ p s', read_exact_step fuel s = Some (p, s') ∧ exact_inv want rest s' ∧
    match p with
    | Ready (Ok _) => s'.1.2 = 0%nat
    | Ready (Err e) => s'.1.2 ≠ 0%nat ∧ (e = UnexpectedEof ∧ rd_rest s'.1.1 = [] ∨ own_error e s'.1.1)
    | Ready Panic => False
    | Pending => True
    end.
Proof.
  destruct s as [[r1 w1] g1]. intros Hf (Hw & Hc & Hl). simpl in *. unfold read_exact_step. simpl.
  destruct (read_exact_ok fuel r1 w1 g1 Hw) as (p & r2 & w2 & g2 & -> & Hw2 & Hc2 & Hl2 & Hm & Hp); [lia|].
  exists p, (r2, w2, g2). split; [done|]. split; [|exact Hp]. split_and!; simpl; [done|congruence|lia].
Qed.

(** C38: [read_exact] over a reader that keeps its promise, polled until it is ready,
    with more fuel than bytes are wanted: no poll panics or runs out of fuel.  What it
    has read is what is missing from the front of the reader, never more than the
    [want] bytes asked for.  On success it is exactly these; otherwise it is fewer, and
    the error is [UnexpectedEof] at the end of the data or one that the reader itself
    reported - so that where [want] bytes are left an error is always the reader's own,
    and where fewer are left it never succeeds. *)
Theorem read_exact_spec fuel r want :
  rd_wf r → (want < fuel)%nat →
  (∀ s, rtc (λ s s', read_exact_step fuel s = Some (Pending, s')) (r, want, []) s → is_Some (read_exact_step fuel s)) ∧
  ∀ o r' want' got', driven (read_exact_step fuel) (r, want, []) o (r', want', got') →
    got' ++ rd_rest r' = rd_rest r ∧ (length got' ≤ want)%nat ∧
    match o with
    | Ok _ => got' = take want (rd_rest r) ∧ rd_rest r' = drop want (rd_rest r) ∧ (want ≤ length (rd_rest r))%nat
    | Err e => (length got' < want)%nat ∧ (e = UnexpectedEof ∧ rd_rest r' = [] ∧ got' = rd_rest r ∨ own_error e r')
    | Panic => False
    end.
Proof.
  intros Hr Hf. assert (exact_inv want (rd_rest r) (r, want, [])) as Hinv by done. split.
  - intros s Hs. revert Hinv. induction Hs as [s|s s1 s2 E _ IH]; intros Hinv;
      destruct (exact_inv_step fuel want (rd_rest r) s Hf Hinv) as (p & s' & E' & Hinv' & _); [by rewrite E'|].
    apply IH. rewrite E' in E. by injection E as _ <-.
  - intros o r' want' got' Hd.
    eapply (driven_ind' (read_exact_step fuel) (exact_inv want (rd_rest r)) (λ o s,
      s.2 ++ rd_rest s.1.1 = rd_rest r ∧ (length s.2 ≤ want)%nat ∧
      match o with
      | Ok _ => s.2 = take want (rd_rest r) ∧ rd_rest s.1.1 = drop want (rd_rest r) ∧ (want ≤ length (rd_rest r))%nat
      | Err e => (length s.2 < want)%nat ∧ (e = UnexpectedEof ∧ rd_rest s.1.1 = [] ∧ s.2 = rd_rest r ∨ own_error e s.1.1)
      | Panic => False
      end) _ _ (r', want', got')) in Hd; [exact Hd|exact Hinv|].
    intros s Hs. destruct (exact_inv_step fuel want (rd_rest r) s Hf Hs) as (p & s' & -> & Hi & Hp).
    pose proof Hi as (_ & Hc & Hl). destruct p as [[u|e|]|]; [| |done|exact Hi].
    + split_and!; [done|lia|..]; rewrite <- Hc; replace want with (length s'.2) by lia.
      * by rewrite take_app_length.
      * by rewrite drop_app_length.
      * rewrite length_app. lia.
    + destruct Hp as [Hw He]. split_and!; [done|lia|lia|]. destruct He as [[-> Hn]|He]; [left|by right].
      split_and!; [done|done|]. by rewrite <- Hc, Hn, app_nil_r.
Qed.
End exact.

(** ** Reading up to a delimiter *)

Section until.
Context {R : Type} `{BufRead R}.

Lemma memchr_spec byte s :
  match memchr byte s with
  | Some i => ∃ pre post, s = pre ++ byte :: post ∧ length pre = i ∧ byte ∉ pre
  | None => byte ∉ s
  end.
Proof.
  induction s as [|b s IH]; simpl; [apply not_elem_of_nil|]. destruct (decide (b = byte)) as [->|Hb].
  - exists [], s. split_and!; [done|done|apply not_elem_of_nil].
  - destruct (memchr byte s) as [i|]; simpl.
    + destruct IH as (pre & post & -> & <- & Hn). exists (b :: pre), post. split_and!; [done|done|set_solver].
    + set_solver.
Qed.

(** The bytes [ds] end with the first [byte], or are all there was. *)
Definition up_to (byte : Z) (ds rest : list Z) : Prop :=
  (∃ pre, ds = pre ++ [byte] ∧ byte ∉ pre) ∨ (byte ∉ ds ∧ rest = []).

(** What a poll that starts with [read] bytes counted leaves. *)
Definition until_post (r : R) (byte : Z) (buf : list Z) (read : nat)
    (x : option (poll (outcome nat) * R * list Z * nat)) : Prop :=
  ∃ p r' ds read', x = Some (p, r', buf ++ ds, read') ∧ rd_wf r' ∧ rd_rest r = ds ++ rd_rest r' ∧
    match p with
    | Ready (Ok n) => n = (read + length ds)%nat ∧ read' = 0%nat ∧ up_to byte ds (rd_rest r')
    | Ready Panic => False
    | _ => read' = (read + length ds)%nat ∧ byte ∉ ds
    end.

Lemma until_stop r byte buf read (p : poll (outcome nat)) r1 :
  rd_wf r1 → rd_rest r1 = rd_rest r →
  match p with Ready (Ok _) | Ready Panic => False | _ => True end →
  until_post r byte buf read (Some (p, r1, buf, read)).
Proof.
  intros Hw Hrest Hp. exists p, r1, [], read. rewrite app_nil_r, Hrest. split_and!; [done..|].
  destruct p as [[?|?|]|]; try done; (split; [simpl; lia|apply not_elem_of_nil]).
Qed.

Lemma until_found r byte buf read i :
  rd_wf r → memchr byte (bf_avail r) = Some i →
  until_post r byte buf read
    (Some (Ready (Ok (read + S i)%nat), consume (S i) r, buf ++ take (S i) (bf_avail r), 0%nat)).
Proof.
  intros Hw Hm. pose proof (memchr_spec byte (bf_avail r)) as Hs. rewrite Hm in Hs.
  destruct Hs as (pre & post & Hav & Hi & Hn). destruct (bf_prefix r Hw) as [tl Htl].
  assert (Hl : (S i ≤ length (bf_avail r))%nat) by (rewrite Hav, length_app; simpl; lia).
  destruct (bf_consume (S i) r Hw Hl) as [Hwc Hrc].
  assert (Ht : take (S i) (bf_avail r) = pre ++ [byte]).
  { rewrite Hav, cons_middle, app_assoc, take_app_length'; [done|]. rewrite length_app. simpl. lia. }
  exists (Ready (Ok (read + S i)%nat)), (consume (S i) r), (pre ++ [byte]), 0%nat.
  rewrite Ht, Hrc. split_and!; [done|done| |rewrite length_app; simpl; lia|done|left; by exists pre].
  rewrite <- Ht, Htl. rewrite drop_app_le by done. by rewrite app_assoc, take_drop.
Qed.

Lemma until_more r r1 byte buf read l x :
  rd_rest r = l ++ rd_rest r1 → byte ∉ l →
  until_post r1 byte (buf ++ l) (read + length l) x → until_post r byte buf read x.
Proof.
  intros Hr Hl (p & r2 & ds & rd & -> & Hw2 & Hr2 & Hp). exists p, r2, (l ++ ds), rd.
  rewrite app_assoc, Hr, Hr2, app_assoc, length_app. split_and!; [done..|].
  destruct p as [[n|?|]|]; try done.
  - destruct Hp as (-> & -> & [(pre & -> & Hpre)|[Hds Hz]]); (split; [lia|split; [done|]]).
    + left. exists (l ++ pre). rewrite app_assoc. split; [done|]. set_solver.
    + right. split; [set_solver|done].
  - destruct Hp as [-> Hds]. split; [lia|set_solver].
  - destruct Hp as [-> Hds]. split; [lia|set_solver].
Qed.

(** [read_until] reads up to the delimiter and not beyond.  One poll over a
    buffered reader that keeps its promise moves a run [ds] of bytes into the
    buffer; when it is ready, [ds] ends with the first delimiter or with the data,
    and the count covers the bytes of the earlier polls as well; a poll that is not
    ready has met no delimiter. *)
Theorem read_until_spec fuel r byte buf read :
  rd_wf r → (length (rd_rest r) < fuel)%nat →
  ∃ p r' ds read', read_until_internal fuel r byte buf read = Some (p, r', buf ++ ds, read') ∧
    rd_wf r' ∧ rd_rest r = ds ++ rd_rest r' ∧
    match p with
    | Ready (Ok n) => n = (read + length ds)%nat ∧ read' = 0%nat ∧ up_to byte ds (rd_rest r')
    | Ready Panic => False
    | _ => read' = (read + length ds)%nat ∧ byte ∉ ds
    end.
Proof.
  enough (Hgoal : rd_wf r → (length (rd_rest r) < fuel)%nat →
    until_post r byte buf read (read_until_internal fuel r byte buf read)) by exact Hgoal.
  revert r buf read. induction fuel as [|fuel IH]; intros r buf read Hr Hf; [lia|]. simpl.
  pose proof (bf_fill r Hr) as Hs.
  destruct (fill_buf r) as [[[av|e|]|] r1]; simpl in Hs; destruct Hs as (Hw & Hrest & Hs);
    [|by apply until_stop|done|by apply until_stop].
  destruct Hs as [-> Hnil].
  apply (until_more r r1 byte buf read []); [done|apply not_elem_of_nil|]. rewrite app_nil_r, Nat.add_0_r.
  rewrite <- Hrest in Hf, Hnil. clear dependent r.
  destruct (memchr byte (bf_avail r1)) as [i|] eqn:Em; simpl; [by apply until_found|].
  pose proof (memchr_spec byte (bf_avail r1)) as Hm. rewrite Em in Hm.
  destruct (bf_prefix r1 Hw) as [tl Htl]. rewrite firstn_all.
  destruct (bf_consume (length (bf_avail r1)) r1 Hw) as [Hwc Hrc]; [done|].
  assert (Hd : rd_rest r1 = bf_avail r1 ++ rd_rest (consume (length (bf_avail r1)) r1)).
  { rewrite Hrc, Htl. by rewrite drop_app_length. }
  destruct (bf_avail r1) as [|x l] eqn:El; simpl.
  - exists (Ready (Ok (read + 0)%nat)), (consume 0 r1), [], 0%nat.
    split_and!; [done|done|done|done|done|]. right. simpl in Hrc. by rewrite Hrc, (Hnil eq_refl).
  - apply (until_more r1 (consume (S (length l)) r1) byte buf read (x :: l) _ Hd Hm). apply IH; [done|].
    apply (f_equal length) in Hd. simpl in Hd. rewrite length_app in Hd. lia.
Qed.
End until.

(** ** The promise of a writer *)

Class Writer (W : Type) `{AsyncWrite W} := {
  wr_sunk : W → list Z;
  wr_step bs w :
    match (poll_write bs w).1 with
    | Ready (Ok n) => (n ≤ length bs)%nat ∧ wr_sunk (poll_write bs w).2 = wr_sunk w ++ take n bs
    | Ready Panic => False
    | _ => wr_sunk (poll_write bs w).2 = wr_sunk w
    end;
  wr_flush w : (poll_flush w).1 ≠ Ready Panic ∧ wr_sunk (poll_flush w).2 = wr_sunk w;
}.

#[export] Program Instance vec_Writer : Writer (list Z) := { wr_sunk v := v }.
Next Obligation. intros bs w. simpl. split; [done|]. by rewrite firstn_all. Qed.
Next Obligation. done. Qed.

Section writing.
Context {W : Type} `{Writer W}.

(** Writers that do not answer [Interrupted], which a loop would retry for ever. *)
Definition uninterrupted : Prop := ∀ bs w, (poll_write bs w).1 ≠ Ready (Err Interrupted).

Lemma write_all_run fuel w buf :
  (length buf < fuel)%nat →
  ∃ p w' buf', write_all_poll fuel w buf = Some (p, w', buf') ∧
    wr_sunk w' ++ buf' = wr_sunk w ++ buf ∧ (length buf' ≤ length buf)%nat ∧
    match p with Ready (Ok _) => buf' = [] | Ready Panic => False | _ => buf' ≠ [] end.
Proof.
  revert w buf. induction fuel as [|fuel IH]; intros w buf Hf; [lia|]. simpl.
  destruct buf as [|b buf]; [by eexists _, _, _|].
  pose proof (wr_step (b :: buf) w) as Hs.
  destruct (poll_write (b :: buf) w) as [[[n|e|]|] w']; cbn [fst snd] in Hs;
    [|by eexists _, _, _; rewrite Hs|done|by eexists _, _, _; rewrite Hs].
  destruct Hs as [Hn Hs]. rewrite decide_False by lia.
  destruct (decide (n = 0)%nat) as [->|Hn0].
  - eexists _, _, _. split; [done|]. rewrite Hs. by rewrite take_0, app_nil_r.
  - destruct (IH w' (drop n (b :: buf))) as (p & w2 & b2 & E & Hc & Hl & Hp).
    { rewrite length_drop. lia. }
    rewrite length_drop in Hl. eexists _, _, _. split; [exact E|]. split_and!; [|lia|done].
    by rewrite Hc, Hs, <- app_assoc, take_drop.
Qed.

Definition write_all_step (fuel : nat) (s : W * list Z) : option (poll (outcome unit) * (W * list Z)) :=
  match write_all_poll fuel s.1 s.2 with
  | Some (p, w, buf) => Some (p, (w, buf))
  | None => None
  end.

(** [write_all] writes everything once and in order.  Driven to the end over a
    writer that keeps its promise, it never panics; on success the writer has taken
    exactly the whole buffer; on an error it has taken a proper prefix of it. *)
Theorem write_all_spec fuel w buf o w' buf' :
  (length buf < fuel)%nat →
  driven (write_all_step fuel) (w, buf) o (w', buf') →
  match o with
  | Ok _ => wr_sunk w' = wr_sunk w ++ buf
  | Err _ => ∃ n, (n < length buf)%nat ∧ wr_sunk w' = wr_sunk w ++ take n buf ∧ buf' = drop n buf
  | Panic => False
  end.
Proof.
  intros Hf.
  eapply (driven_ind' (write_all_step fuel)
    (λ s, (length s.2 < fuel)%nat ∧ ∃ pre, buf = pre ++ s.2 ∧ wr_sunk s.1 = wr_sunk w ++ pre)
    (λ o s, match o with
      | Ok _ => wr_sunk s.1 = wr_sunk w ++ buf
      | Err _ => ∃ n, (n < length buf)%nat ∧ wr_sunk s.1 = wr_sunk w ++ take n buf ∧ s.2 = drop n buf
      | Panic => False end) (w, buf) o (w', buf')).
  { split; [done|]. exists []. by rewrite app_nil_r. }
  intros [w1 b1] (Hl & pre & Hb & Hs). simpl in *. unfold write_all_step. simpl.
  destruct (write_all_run fuel w1 b1 Hl) as (p & w2 & b2 & -> & Hc & Hl2 & Hp).
  assert (Hpre : ∃ pre', buf = pre' ++ b2 ∧ wr_sunk w2 = wr_sunk w ++ pre').
  { rewrite Hs, <- app_assoc, <- Hb in Hc.
    exists (take (length buf - length b2) buf).
    assert (Hlen : (length b2 ≤ length buf)%nat) by (rewrite Hb, length_app; lia).
    rewrite <- (take_drop (length buf - length b2) buf), app_assoc in Hc.
    apply app_inj_2 in Hc as [Hc1 Hc2]; [|rewrite length_drop; lia].
    rewrite Hc2 at 2. by rewrite take_drop. }
  destruct Hpre as (pre' & Hb2 & Hs2). destruct p as [[u|e|]|]; simpl; [| |done|].
  - subst b2. rewrite app_nil_r in Hb2. by subst.
  - exists (length pre'). rewrite Hb2, take_app_length, drop_app_length, length_app.
    split_and!; [|done|done]. destruct b2; [done|simpl; lia].
  - split; [lia|]. eauto.
Qed.

(** ** [BufWriter] *)

Implicit Types b : BufWriter W.

(** Everything accepted so far: what the inner writer has, then the buffer. *)
Definition bw_total b : list Z := wr_sunk (bw_inner b) ++ drop (bw_written b) (bw_buf b).
Definition bufwriter_wf b : Prop :=
  (bw_written b ≤ length (bw_buf b))%nat ∧ (length (bw_buf b) ≤ bw_capacity b)%nat.

Lemma flush_loop_ok fuel w buf written :
  uninterrupted → (written ≤ length buf)%nat → (length buf - written < fuel)%nat →
  ∃ p w' written', flush_loop fuel w buf written = Some (p, w', written') ∧
    (written ≤ written' ≤ length buf)%nat ∧
    wr_sunk w' ++ drop written' buf = wr_sunk w ++ drop written buf ∧
    match p with Ready (Ok _) => written' = length buf | Ready Panic => False | _ => True end.
Proof.
  intros Hu. revert w written. induction fuel as [|fuel IH]; intros w written Hw Hf; [lia|]. simpl.
  destruct (decide (written < length buf)%nat) as [Hlt|Hge]; [|by eexists _, _, _; auto with lia].
  pose proof (wr_step (drop written buf) w) as Hs. pose proof (Hu (drop written buf) w) as Hi.
  destruct (poll_write (drop written buf) w) as [[[n|e|]|] w']; cbn [fst snd] in Hs, Hi;
    [|destruct e; first [done|by eexists _, _, _; rewrite Hs; auto with lia]|done
     |by eexists _, _, _; rewrite Hs; auto with lia].
  destruct Hs as [Hn Hs]. rewrite length_drop in Hn. destruct n as [|n].
  { eexists _, _, _. split; [done|]. rewrite Hs, take_0, app_nil_r. auto with lia. }
  destruct (IH w' (written + S n)%nat) as (p & w2 & wr2 & E & Hb & Hc & Hp); [lia|lia|].
  eexists _, _, _. split; [exact E|]. split_and!; [lia|lia| |done].
  by rewrite Hc, Hs, <- app_assoc, <- drop_drop, take_drop.
Qed.

(** A flush of the buffer keeps the total; when it succeeds the buffer is empty. *)
Lemma poll_flush_buf_ok fuel b :
  uninterrupted → bufwriter_wf b → (bw_capacity b < fuel)%nat →
  ∃ p b', poll_flush_buf fuel b = Some (p, b') ∧ bufwriter_wf b' ∧ bw_total b' = bw_total b ∧
    bw_capacity b' = bw_capacity b ∧
    match p with Ready (Ok _) => bw_buf b' = [] ∧ bw_written b' = 0%nat | Ready Panic => False | _ => True end.
Proof.
  intros Hu [Hw Hl] Hf. unfold poll_flush_buf.
  destruct (flush_loop_ok fuel (bw_inner b) (bw_buf b) (bw_written b) Hu Hw) as
    (p & w' & wr & -> & Hb & Hc & Hp); [lia|].
  destruct p as [ret|].
  - rewrite decide_False by lia. eexists _, _. split; [done|].
    unfold bufwriter_wf, bw_total. simpl. rewrite drop_0, length_drop. split_and!; [lia|lia|done|done|].
    destruct ret; [|done|done]. subst wr. by rewrite drop_all.
  - eexists _, _. split; [done|]. by unfold bufwriter_wf, bw_total; simpl; split_and!; try lia.
Qed.

Lemma bufwriter_write_ok fuel buf b :
  uninterrupted → bufwriter_wf b → (bw_capacity b < fuel)%nat →
  ∃ p b', bufwriter_write fuel buf b = Some (p, b') ∧ bufwriter_wf b' ∧
    bw_capacity b' = bw_capacity b ∧
    match p with
    | Ready (Ok n) => (n ≤ length buf)%nat ∧ bw_total b' = bw_total b ++ take n buf
    | Ready Panic => False
    | _ => bw_total b' = bw_total b
    end.
Proof.
  intros Hu Hb Hf.
  (* the part after the flush, on a buffer with room for [buf] or an empty one *)
  assert (Hrest : ∀ b1, bufwriter_wf b1 → bw_capacity b1 = bw_capacity b →
    (length (bw_buf b1) + length buf ≤ bw_capacity b1)%nat ∨ bw_buf b1 = [] →
    ∃ p b', (if decide (bw_capacity b1 ≤ length buf)%nat then on_inner (poll_write buf) b1
      else (Ready (Ok (length buf)),
            mk_bufwriter (bw_inner b1) (bw_buf b1 ++ buf) (bw_written b1) (bw_capacity b1))) = (p, b') ∧
      bufwriter_wf b' ∧ bw_capacity b' = bw_capacity b ∧
      match p with
      | Ready (Ok n) => (n ≤ length buf)%nat ∧ bw_total b' = bw_total b1 ++ take n buf
      | Ready Panic => False
      | _ => bw_total b' = bw_total b1
      end).
  { intros b1 [Hw1 Hl1] Hc1 Hroom. unfold bw_total, bufwriter_wf. case_decide as Hcap.
    - assert (Hnil : bw_buf b1 = []).
      { destruct Hroom as [?|?]; [|done]. apply nil_length_inv. lia. }
      rewrite Hnil in *. simpl in *. unfold on_inner, within. rewrite Hnil. pose proof (wr_step buf (bw_inner b1)) as Hs.
      destruct (poll_write buf (bw_inner b1)) as [[[n|e|]|] w']; cbn [fst snd] in *; [|..];
        (eexists _, _; split; [done|]); simpl; rewrite ?drop_nil, ?app_nil_r in *; auto with lia.
    - eexists _, _. split; [done|]. simpl. rewrite length_app, firstn_all.
      assert (length (bw_buf b1) + length buf ≤ bw_capacity b1)%nat.
      { destruct Hroom as [?|Hnil]; [done|]. rewrite Hnil. simpl. lia. }
      split_and!; [lia|lia|done|done|]. by rewrite drop_app_le, app_assoc by lia. }
  unfold bufwriter_write, flush_then. case_decide as Hfull.
  - destruct (poll_flush_buf_ok fuel b Hu Hb Hf) as (p & b1 & -> & Hb1 & Ht & Hc & Hp).
    destruct p as [[u|e|]|]; simpl; [|by eexists _, _|done|by eexists _, _].
    destruct (Hrest b1 Hb1 Hc) as (p & b2 & -> & ? & ? & Hp2); [right; apply Hp|].
    rewrite Ht in Hp2. by eexists _, _.
  - destruct (Hrest b Hb eq_refl) as (p & b2 & E & ? & ? & Hp2); [left; lia|]. rewrite E. by eexists _, _.
Qed.
Lemma bufwriter_flush_ok fuel b :
  uninterrupted → bufwriter_wf b → (bw_capacity b < fuel)%nat →
  ∃ p b', bufwriter_flush fuel b = Some (p, b') ∧ bufwriter_wf b' ∧ bw_total b' = bw_total b ∧
    bw_capacity b' = bw_capacity b ∧
    match p with Ready (Ok _) => bw_buf b' = [] | Ready Panic => False | _ => True end.
Proof.
  intros Hu Hb Hf. unfold bufwriter_flush, flush_then.
  destruct (poll_flush_buf_ok fuel b Hu Hb Hf) as (p & b1 & -> & Hb1 & Ht & Hc & Hp).
  destruct p as [[u|e|]|]; simpl; [|by eexists _, _|done|by eexists _, _].
  destruct Hp as [Hnil Hw]. unfold on_inner, within. pose proof (wr_flush (bw_inner b1)) as Hs.
  destruct (poll_flush (bw_inner b1)) as [p w']; cbn [fst snd] in *. destruct Hs as [Hp Hs].
  eexists _, _. split; [done|]. unfold bufwriter_wf, bw_total in *. simpl. rewrite Hs, Hnil in *.
  split_and!; try done; try (simpl; lia). by destruct p as [[?|?|]|].
Qed.

(** A program that uses the writer: the bytes its calls have accepted. *)
Inductive bop := BWrite (bs : list Z) | BFlush.

Fixpoint brun (fuel : nat) (ops : list bop) b : option (list Z * BufWriter W) :=
  match ops with
  | [] => Some ([], b)
  | BWrite bs :: ops =>
      '(p, b) ← bufwriter_write fuel bs b;
      '(acc, b) ← brun fuel ops b;
      Some (match p with Ready (Ok n) => take n bs | _ => [] end ++ acc, b)
  | BFlush :: ops => '(_, b) ← bufwriter_flush fuel b; brun fuel ops b
  end.

Lemma brun_ok fuel ops b :
  uninterrupted → bufwriter_wf b → (bw_capacity b < fuel)%nat →
  ∃ acc b', brun fuel ops b = Some (acc, b') ∧ bufwriter_wf b' ∧ bw_capacity b' = bw_capacity b ∧
    bw_total b' = bw_total b ++ acc.
Proof.
  intros Hu. revert b. induction ops as [|[bs|] ops IH]; intros b Hb Hf; simpl.
  - exists [], b. by rewrite app_nil_r.
  - destruct (bufwriter_write_ok fuel bs b Hu Hb Hf) as (p & b1 & -> & Hb1 & Hc & Hp). simpl.
    destruct (IH b1 Hb1) as (acc & b2 & -> & Hb2 & Hc2 & Ht); [lia|]. eexists _, b2. split; [done|].
    split_and!; [done|lia|]. rewrite Ht. destruct p as [[n|e|]|]; [|by rewrite Hp|done|by rewrite Hp].
    destruct Hp as [_ ->]. by rewrite app_assoc.
  - destruct (bufwriter_flush_ok fuel b Hu Hb Hf) as (p & b1 & -> & Hb1 & Ht1 & Hc & _). simpl.
    destruct (IH b1 Hb1) as (acc & b2 & -> & Hb2 & Hc2 & Ht); [lia|]. eexists _, b2. split; [done|].
    rewrite Ht, Ht1. split_and!; [done|lia|done].
Qed.

(** A [BufWriter] loses, repeats and reorders nothing.  Whatever a program does
    with a new one over a writer that keeps its promise (writes of any size, flushes,
    calls that fail or are not ready in between), no call panics or runs out of fuel,
    and after a flush that succeeds the inner writer has taken exactly the bytes the
    calls accepted, in order. *)
Theorem bufwriter_delivers fuel capacity w ops :
  uninterrupted → (capacity < fuel)%nat →
  ∃ acc b, brun fuel ops (bufwriter_with_capacity capacity w) = Some (acc, b) ∧
    ∀ b', bufwriter_flush fuel b = Some (Ready (Ok ()), b') →
      wr_sunk (bw_inner b') = wr_sunk w ++ acc.
Proof.
  intros Hu Hf.
  destruct (brun_ok fuel ops (bufwriter_with_capacity capacity w) Hu) as (acc & b & E & Hb & Hc & Ht).
  { split; simpl; lia. }
  { done. }
  exists acc, b. split; [done|]. intros b' Ef.
  destruct (bufwriter_flush_ok fuel b Hu Hb) as (p & b2 & Ef2 & _ & Ht2 & _ & Hp); [simpl in Hc; lia|].
  rewrite Ef in Ef2. injection Ef2 as <- <-. unfold bw_total in *. simpl in *.
  rewrite Hp, drop_nil, !app_nil_r in *. by rewrite Ht2.
Qed.
End writing.

(** ** Stacks of adaptors *)

Section stack.
Context {R U : Type} `{Reader R} `{Reader U}.

(** Adaptors deliver the bytes of what they wrap.  Reading to the end of a
    chain of a limited, buffered reader and another reader, with any buffer size and
    any sequence of polls that are not ready, never panics or runs out of fuel, and
    gives the first [limit] bytes of the first reader followed by all of the second,
    with their number. *)
Theorem read_to_end_adaptors fuel capacity limit (r : R) (u : U) buf :
  rd_wf r → rd_wf u → (0 < capacity)%nat → is_u64 limit →
  let c := mk_chain (mk_take (bufreader_with_capacity capacity r) limit) u false in
  let bytes := take (Z.to_nat limit) (rd_rest r) ++ rd_rest u in
  (length bytes < fuel)%nat →
  (∃ p r' buf', read_to_end_internal fuel c buf (length buf) = Some (p, r', buf') ∧ p ≠ Ready Panic) ∧
  ∀ n c' buf', driven (read_to_end_step fuel (length buf)) (c, buf) (Ok n) (c', buf') →
    buf' = buf ++ bytes ∧ n = length bytes.
Proof.
  intros Hr Hu Hcap Hl c bytes Hf.
  assert (Hw : rd_wf c).
  { split; [|done]. split; [|done]. split; simpl; rewrite ?length_replicate; auto with lia. }
  assert (Hrest : rd_rest c = bytes) by done.
  split.
  - destruct (read_to_end_ok fuel c buf (length buf) Hw) as (p & r' & buf' & E & _ & _ & _ & Hp);
      [by rewrite Hrest|]. exists p, r', buf'. split; [done|]. by intros ->.
  - intros n c' buf' Hd.
    destruct (read_to_end_driven fuel c buf n c' buf' Hw) as (-> & -> & _); [by rewrite Hrest|done|].
    by rewrite Hrest.
Qed.
End stack.

(** ** Seeking in a buffered reader *)

Class Seeker (R : Type) `{AsyncSeek R} := {
  sk_pos : R → Z;
  sk_step pos r :
    match (poll_seek pos r).1 with
    | Ready (Ok p) => sk_pos (poll_seek pos r).2 = p ∧
        match pos with SeekCurrent d => p = sk_pos r + d | SeekStart s => p = s | _ => True end
    | Ready Panic => False
    | _ => sk_pos (poll_seek pos r).2 = sk_pos r
    end;
}.

#[export] Program Instance cursor_Seeker : Seeker Cursor := { sk_pos := cu_pos }.
Next Obligation.
  intros pos c. unfold poll_seek, cursor_AsyncSeek, cursor_seek. destruct pos as [s|d|d]; simpl; [done|..];
    destruct (checked_add_u64 _ d) as [p|] eqn:E; simpl; try done; split; try done.
  by apply checked_add_u64_Some in E as [-> _].
Qed.

Section seeking.
Context {R : Type} `{Seeker R}.
Implicit Types b : BufReader R.

(** Where the reader of the buffer is: the inner position less what is buffered. *)
Definition logical_pos b : Z := sk_pos (br_inner b) - Z.of_nat (br_cap b - br_pos b).

Lemma logical_discard b : logical_pos (discard_buffer b) = sk_pos (br_inner b).
Proof. unfold logical_pos. simpl. lia. Qed.

(** A relative seek of a [BufReader] counts from what its user has read, not
    from what it has buffered.  A successful seek by [n] answers and reaches the
    user's position plus [n], also when the offset corrected by the buffered bytes
    does not fit 64 bits; a seek that fails or is not ready leaves the user's position
    where it was. *)
Theorem bufreader_seek_logical n b :
  match (bufreader_seek (SeekCurrent n) b).1 with
  | Ready (Ok p) => p = logical_pos b + n ∧ logical_pos (bufreader_seek (SeekCurrent n) b).2 = p
  | Ready Panic => False
  | _ => logical_pos (bufreader_seek (SeekCurrent n) b).2 = logical_pos b
  end.
Proof.
  unfold bufreader_seek, checked_sub_i64. set (k := Z.of_nat (br_cap b - br_pos b)).
  assert (Hk : logical_pos b = sk_pos (br_inner b) - k) by done.
  assert (Hi : ∀ r, logical_pos (with_inner b r) = sk_pos r - k) by done.
  case_decide as Hfit.
  - pose proof (sk_step (SeekCurrent (n - k)) (br_inner b)) as Hs.
    destruct (poll_seek _ (br_inner b)) as [[[p|e|]|] r]; cbn in *; rewrite ?logical_discard; cbn; rewrite ?Hi; lia.
  - pose proof (sk_step (SeekCurrent (- k)) (br_inner b)) as Hs.
    destruct (poll_seek _ (br_inner b)) as [[[p|e|]|] r]; cbn in *; rewrite ?Hi; try lia.
    pose proof (sk_step (SeekCurrent n) r) as Hs2.
    destruct (poll_seek _ r) as [[[p'|e|]|] r']; cbn in *; rewrite ?logical_discard; cbn;
      try (unfold logical_pos; cbn); lia.
Qed.
End seeking.

(** ** What the library gets wrong *)

(** A cursor over a growable vector does not grow it: it writes as over a slice. *)
Lemma cursor_vec_never_grows buf c :
  length (cu_inner (slice_write buf c).2) = length (cu_inner c).
Proof.
  unfold slice_write. simpl. rewrite !length_app, !length_take, length_drop. lia.
Qed.

(** A vectored read of a chain into empty buffers ends its first reader. *)
Lemma chain_empty_vectored_ends_first :
  let c := mk_chain [1; 2] [3] false in
  let c' := (chain_read_vectored [0%nat] c).2 in
  chain_rest c = [1; 2; 3] ∧ chain_rest c' = [3].
Proof. done. Qed.

(** [read_to_string] of data that is not UTF-8 empties the string, where its
    comment promises to leave it unmodified. *)
Lemma read_to_string_loses_contents :
  let s := read_to_string [255] (utf8 (lit "abc")) in
  (λ x, (x.1, rs_buf x.2)) <$> read_to_string_poll 5 s = Some (Ready (Err InvalidData), []).
Proof. done. Qed.

(** After a line that is not UTF-8 every later line is an error too. *)
Lemma lines_stay_broken :
  let l := lines [255; 10; 97; 10] in
  match lines_poll_next 9 l with
  | Some (Ready (Some (Err InvalidData)), l') =>
      (λ x, x.1) <$> lines_poll_next 9 l' = Some (Ready (Some (Err InvalidData)))
  | _ => False
  end.
Proof. done. Qed.

(** ** Witnesses *)

(** A reader that is not ready at every other poll. *)
Definition slow := (bool * list Z)%type.
Definition slow_read (n : nat) (s : slow) : poll (outcome (list Z)) * slow :=
  if s.1 then (Pending, (false, s.2)) else (Ready (Ok (take n s.2)), (true, drop n s.2)).
#[export] Instance slow_AsyncRead : AsyncRead slow :=
  { poll_read := slow_read; poll_read_vectored := default_read_vectored slow_read }.
#[export] Program Instance slow_Reader : Reader slow := { rd_wf _ := True; rd_rest s := s.2 }.
Next Obligation.
  intros n [[|] s] _; simpl; (split; [done|]); [done|]. split_and!.
  - rewrite length_take. lia.
  - by rewrite take_drop.
  - destruct n, s; simpl; try done; auto.
Qed.

Definition demo_stack : Chain (Take (BufReader slow)) (list Z) :=
  mk_chain (mk_take (bufreader_with_capacity 2 (true, [1; 2; 3; 4; 5])) 3) [9] false.
Lemma demo_stack_driven :
  ∃ c' buf', driven (read_to_end_step 20 0) (demo_stack, []) (Ok 4%nat) (c', buf').
Proof.
  eexists _, _. eapply driven_pending; [reflexivity|].
  eapply driven_ready. reflexivity.
Qed.
Lemma read_to_end_adaptors_witness :
  ∃ c' buf', driven (read_to_end_step 20 0) (demo_stack, []) (Ok 4%nat) (c', buf') ∧ buf' = [1; 2; 3; 9].
Proof.
  pose proof (read_to_end_adaptors (R := slow) (U := list Z) 20 2 3 ((true, [1; 2; 3; 4; 5]) : slow) [9] []) as H.
  specialize (H I I ltac:(lia) ltac:(by vm_compute) ltac:(simpl; lia)) as [_ H].
  destruct demo_stack_driven as (c' & buf' & Hd). exists c', buf'. split; [exact Hd|].
  exact (proj1 (H _ _ _ Hd)).
Defined.

Lemma read_exact_spec_witness :
  ∃ s, driven (read_exact_step 9) ((true, [1; 2; 3]) : slow, 2%nat, []) (Ok ()) (s, 0%nat, take 2 [1; 2; 3]) ∧
    rd_rest s = [3].
Proof.
  assert (Hd : driven (read_exact_step 9) ((true, [1; 2; 3]) : slow, 2%nat, []) (Ok ())
    ((true, [3]), 0%nat, [1; 2])).
  { eapply driven_pending; [reflexivity|]. eapply driven_ready. reflexivity. }
  pose proof (read_exact_spec 9 ((true, [1; 2; 3]) : slow) 2) as Hsp. specialize (Hsp I ltac:(lia)) as [_ Hsp].
  destruct (Hsp _ _ _ _ Hd) as (_ & _ & _ & Hr & _).
  exists (true, [3]). split; [exact Hd|exact Hr].
Defined.

Lemma read_until_spec_witness :
  ∃ r', read_until_internal 9 [7; 10; 8] 10 [1] 0 = Some (Ready (Ok 2%nat), r', [1; 7; 10], 0%nat).
Proof.
  pose proof (read_until_spec 9 [7; 10; 8] 10 [1] 0) as H.
  specialize (H I ltac:(simpl; lia)) as (p & r' & ds & rd & E & _). exists r'.
  replace (read_until_internal _ _ _ _ _) with
    (Some (Ready (Ok 2%nat) : poll (outcome nat), [8], [1; 7; 10], 0%nat)) in E by done.
  by injection E as _ <- _ _.
Defined.

Lemma write_all_spec_witness :
  ∃ w', driven (write_all_step 9) ([1], [2; 3]) (Ok ()) (w', []) ∧ wr_sunk w' = [1] ++ [2; 3].
Proof.
  assert (Hd : driven (write_all_step 9) ([1], [2; 3]) (Ok ()) ([1; 2; 3], [])).
  { eapply driven_ready. reflexivity. }
  exists [1; 2; 3]. split; [exact Hd|].
  exact (write_all_spec 9 [1] [2; 3] (Ok ()) [1; 2; 3] [] ltac:(simpl; lia) Hd).
Defined.

Lemma bufwriter_delivers_witness :
  ∃ b', brun 9 [BWrite [1]; BWrite [2; 3]; BWrite [4]] (bufwriter_with_capacity 2 [0]) = Some ([1; 2; 3; 4], b') ∧
    ∀ b'', bufwriter_flush 9 b' = Some (Ready (Ok ()), b'') → bw_inner b'' = [0; 1; 2; 3; 4].
Proof.
  pose proof (bufwriter_delivers 9 2 [0] [BWrite [1]; BWrite [2; 3]; BWrite [4]]) as H.
  specialize (H ltac:(by intros ??) ltac:(lia)) as (acc & b & E & Hf).
  vm_compute in E. injection E as <- <-. eexists. split; [by vm_compute|]. exact Hf.
Defined.
