(* ===== verification/Streams.v ===== *)
(** * Streams and their combinators

    modules/async_io/src/stream: [AsyncStream] as a class of one poll, the sources,
    the adaptors, and the futures that consume a stream.  Closures are functions
    of the items; [Inspect], [Scan] and [ForEach] carry the state theirs change.

    A poll that is not ready has promised to wake the task again, or has not; the
    flag of [Wait] says which.  Sources promise it.  The combinators that return
    [Pending] on their own, after their inner poll was ready, do not: in this port
    the call of the waker is missing.

    [Stream] relates a stream to the list of items it still has to give; every
    adaptor is shown to compute its list function, and every consumer its list
    function on the items. *)

From S2P Require Import Prelude.

Open Scope Z_scope.

(** The answer of a poll: the next item or the end, not ready (and whether a
    wake-up is arranged), or a poll that does not return within its fuel. *)
Inductive npoll (A : Type) :=
  | Next (o : option A)
  | Wait (armed : bool)
  | Spin.
Arguments Next {A}.
Arguments Wait {A}.
Arguments Spin {A}.

Class AsyncStream (S A : Type) := poll_next : S → npoll A * S.

(** [ready!]. *)
Definition on_next {A B S} (x : npoll A * S) (k : option A → S → npoll B * S) : npoll B * S :=
  match x with
  | (Next o, s) => k o s
  | (Wait b, s) => (Wait b, s)
  | (Spin, s) => (Spin, s)
  end.

(** Put the inner stream back. *)
Definition inside {A S T} (f : S → T) (x : npoll A * S) : npoll A * T := (x.1, f x.2).

(** ** Sources *)

Inductive Empty := mk_empty.
#[export] Instance empty_stream {A} : AsyncStream Empty A := λ s, (Next None, s).

Definition Once (A : Type) := option A.
Definition once {A} (t : A) : Once A := Some t.
#[export] Instance once_stream {A} : AsyncStream (Once A) A := λ s, (Next s, None).

Definition FromIter (A : Type) := list A.
#[export] Instance from_iter_stream {A} : AsyncStream (FromIter A) A := λ s,
  match s with [] => (Next None, []) | a :: s => (Next (Some a), s) end.

Record Repeat (A : Type) := mk_repeat { rp_item : A }.
Arguments mk_repeat {A}.
Arguments rp_item {A}.
#[export] Instance repeat_stream {A} : AsyncStream (Repeat A) A := λ s, (Next (Some (rp_item s)), s).

(** [FromFn] and [RepeatWith]: a closure with its state. *)
Record FromFn (St A : Type) := mk_fromfn { fn_state : St; fn_f : St → option A * St }.
Arguments mk_fromfn {St A}.
Arguments fn_state {St A}.
Arguments fn_f {St A}.
#[export] Instance from_fn_stream {St A} : AsyncStream (FromFn St A) A := λ s,
  let '(o, st) := fn_f s (fn_state s) in (Next o, mk_fromfn st (fn_f s)).
Record RepeatWith (St A : Type) := mk_repeatwith { rw_state : St; rw_f : St → A * St }.
Arguments mk_repeatwith {St A}.
Arguments rw_state {St A}.
Arguments rw_f {St A}.
#[export] Instance repeat_with_stream {St A} : AsyncStream (RepeatWith St A) A := λ s,
  let '(a, st) := rw_f s (rw_state s) in (Next (Some a), mk_repeatwith st (rw_f s)).

Record Successors (A : Type) := mk_succ { su_succ : A → option A; su_slot : option A }.
Arguments mk_succ {A}.
Arguments su_succ {A}.
Arguments su_slot {A}.
#[export] Instance successors_stream {A} : AsyncStream (Successors A) A := λ s,
  match su_slot s with
  | None => (Next None, s)
  | Some a => (Next (Some a), mk_succ (su_succ s) (su_succ s a))
  end.

Inductive PendingStream := mk_pending.
#[export] Instance pending_stream {A} : AsyncStream PendingStream A := λ s, (Wait false, s).

(** ** Adaptors *)

Section adaptors.
Context {S U A B : Type} `{AsyncStream S A} `{AsyncStream U B}.

Record Map := mk_map { mp_stream : S; mp_f : A → B }.
#[export] Instance map_stream : AsyncStream Map B := λ m,
  on_next (inside (λ s, mk_map s (mp_f m)) (poll_next (mp_stream m))) (λ o m, (Next (mp_f m <$> o), m)).

Record Filter := mk_filter { fl_stream : S; fl_p : A → bool }.
#[export] Instance filter_stream : AsyncStream Filter A := λ m,
  on_next (inside (λ s, mk_filter s (fl_p m)) (poll_next (fl_stream m))) (λ o m,
    match o with
    | Some v => if fl_p m v then (Next (Some v), m) else (Wait false, m)
    | None => (Next None, m)
    end).

Record FilterMap := mk_filtermap { fm_stream : S; fm_f : A → option B }.
#[export] Instance filter_map_stream : AsyncStream FilterMap B := λ m,
  on_next (inside (λ s, mk_filtermap s (fm_f m)) (poll_next (fm_stream m))) (λ o m,
    match o with
    | Some v => match fm_f m v with Some b => (Next (Some b), m) | None => (Wait false, m) end
    | None => (Next None, m)
    end).

Record STake := mk_stake { st_stream : S; st_remaining : nat }.
#[export] Instance take_stream : AsyncStream STake A := λ m,
  if decide (st_remaining m = 0)%nat then (Next None, m)
  else
    on_next (inside (λ s, mk_stake s (st_remaining m)) (poll_next (st_stream m))) (λ o m,
      match o with
      | Some v => (Next (Some v), mk_stake (st_stream m) (st_remaining m - 1))
      | None => (Next None, mk_stake (st_stream m) 0)
      end).

(** The loop of [Skip] is bounded by its count. *)
Record Skip := mk_skip { sk_stream : S; sk_n : nat }.
Fixpoint skip_poll (n : nat) (s : S) : npoll A * Skip :=
  on_next (inside (λ s, mk_skip s n) (poll_next s)) (λ o m,
    match o, n with
    | Some v, O => (Next (Some v), m)
    | Some _, Datatypes.S n => skip_poll n (sk_stream m)
    | None, _ => (Next None, m)
    end).
#[export] Instance skip_stream : AsyncStream Skip A := λ m, skip_poll (sk_n m) (sk_stream m).

Record StepBy := mk_stepby { sb_stream : S; sb_step : nat; sb_i : nat }.
Definition step_by_new (s : S) (step : nat) : outcome StepBy :=
  match step with O => Panic | Datatypes.S k => Ok (mk_stepby s k 0) end.
Fixpoint step_poll (step i : nat) (s : S) : npoll A * StepBy :=
  on_next (inside (λ s, mk_stepby s step i) (poll_next s)) (λ o m,
    match o, i with
    | Some v, O => (Next (Some v), mk_stepby (sb_stream m) step step)
    | Some _, Datatypes.S i => step_poll step i (sb_stream m)
    | None, _ => (Next None, m)
    end).
#[export] Instance step_by_stream : AsyncStream StepBy A := λ m,
  step_poll (sb_step m) (sb_i m) (sb_stream m).

Record TakeWhile := mk_takewhile { tw_stream : S; tw_p : A → bool }.
#[export] Instance take_while_stream : AsyncStream TakeWhile A := λ m,
  on_next (inside (λ s, mk_takewhile s (tw_p m)) (poll_next (tw_stream m))) (λ o m,
    match o with
    | Some v => if tw_p m v then (Next (Some v), m) else (Next None, m)
    | None => (Next None, m)
    end).

(** [SkipWhile] loops over the items it skips; its poll takes fuel. *)
Record SkipWhile := mk_skipwhile { sw_stream : S; sw_p : option (A → bool); sw_fuel : nat }.
Fixpoint skip_while_poll (fuel : nat) (m : SkipWhile) : npoll A * SkipWhile :=
  match fuel with
  | O => (Spin, m)
  | Datatypes.S fuel =>
      on_next (inside (λ s, mk_skipwhile s (sw_p m) (sw_fuel m)) (poll_next (sw_stream m))) (λ o m,
        match o with
        | Some v =>
            match sw_p m with
            | Some p => if p v then skip_while_poll fuel m
                        else (Next (Some v), mk_skipwhile (sw_stream m) None (sw_fuel m))
            | None => (Next (Some v), m)
            end
        | None => (Next None, m)
        end)
  end.
#[export] Instance skip_while_stream : AsyncStream SkipWhile A := λ m, skip_while_poll (sw_fuel m) m.

Record Enumerate := mk_enum { en_stream : S; en_i : Z }.
#[export] Instance enumerate_stream : AsyncStream Enumerate (Z * A) := λ m,
  on_next (inside (λ s, mk_enum s (en_i m)) (poll_next (en_stream m))) (λ o m,
    match o with
    | Some v => (Next (Some (en_i m, v)), mk_enum (en_stream m) (wrap64 (en_i m + 1)))
    | None => (Next None, m)
    end).

Record Zip := mk_zip { zp_slot : option A; zp_first : S; zp_second : U }.
Definition zip_second (m : Zip) : npoll (A * B) * Zip :=
  on_next (inside (λ u, mk_zip (zp_slot m) (zp_first m) u) (poll_next (zp_second m))) (λ o m,
    match zp_slot m with
    | Some a => (Next ((λ b, (a, b)) <$> o), mk_zip None (zp_first m) (zp_second m))
    | None => (Spin, m)
    end).
#[export] Instance zip_stream : AsyncStream Zip (A * B) := λ m,
  match zp_slot m with
  | Some _ => zip_second m
  | None =>
      on_next (inside (λ s, mk_zip None s (zp_second m)) (poll_next (zp_first m))) (λ o m,
        match o with
        | None => (Next None, m)
        | Some a => zip_second (mk_zip (Some a) (zp_first m) (zp_second m))
        end)
  end.

Record Fuse := mk_fuse { fu_stream : S; fu_done : bool }.
#[export] Instance fuse_stream : AsyncStream Fuse A := λ m,
  if fu_done m then (Next None, m)
  else
    on_next (inside (λ s, mk_fuse s false) (poll_next (fu_stream m))) (λ o m,
      match o with
      | Some v => (Next (Some v), m)
      | None => (Next None, mk_fuse (fu_stream m) true)
      end).

Record Scan (St : Type) := mk_scan { sc_stream : S; sc_state : St; sc_f : St → A → St * option B }.
#[export] Instance scan_stream {St} : AsyncStream (Scan St) B := λ m,
  let f := sc_f _ m in
  let '(p, s) := poll_next (sc_stream _ m) in
  match p with
  | Next (Some v) =>
      let '(st, o) := f (sc_state _ m) v in (Next o, mk_scan _ s st f)
  | Next None => (Next None, mk_scan _ s (sc_state _ m) f)
  | Wait b => (Wait b, mk_scan _ s (sc_state _ m) f)
  | Spin => (Spin, mk_scan _ s (sc_state _ m) f)
  end.

Record Inspect (St : Type) := mk_inspect { in_stream : S; in_state : St; in_f : St → A → St }.
#[export] Instance inspect_stream {St} : AsyncStream (Inspect St) A := λ m,
  let f := in_f _ m in
  let '(p, s) := poll_next (in_stream _ m) in
  (p, mk_inspect _ s (match p with Next (Some v) => f (in_state _ m) v | _ => in_state _ m end) f).

(** [Cloned] and [Copied]: the items by value. *)
Record Cloned := mk_cloned { cl_stream : S }.
#[export] Instance cloned_stream : AsyncStream Cloned A := λ m, inside mk_cloned (poll_next (cl_stream m)).

Record Cycle := mk_cycle { cy_orig : S; cy_source : S }.
#[export] Instance cycle_stream : AsyncStream Cycle A := λ m,
  on_next (inside (mk_cycle (cy_orig m)) (poll_next (cy_source m))) (λ o m,
    match o with
    | None => inside (mk_cycle (cy_orig m)) (poll_next (cy_orig m))
    | _ => (Next o, m)
    end).
End adaptors.
Arguments Map : clear implicits.
Arguments Filter : clear implicits.
Arguments FilterMap : clear implicits.
Arguments STake : clear implicits.
Arguments Skip : clear implicits.
Arguments StepBy : clear implicits.
Arguments TakeWhile : clear implicits.
Arguments SkipWhile : clear implicits.
Arguments Enumerate : clear implicits.
Arguments Zip : clear implicits.
Arguments Fuse : clear implicits.
Arguments Scan : clear implicits.
Arguments Inspect : clear implicits.
Arguments Cloned : clear implicits.
Arguments Cycle : clear implicits.

Section composites.
Context {S U A : Type} `{AsyncStream S A} `{AsyncStream U A}.

(** [Chain]: the first stream, then the second, both fused. *)
Record SChain := mk_schain { sc_first : Fuse S; sc_second : Fuse U }.
Definition schain_new (s : S) (u : U) : SChain := mk_schain (mk_fuse s false) (mk_fuse u false).
Definition schain_rest (m : SChain) : npoll A * SChain :=
  if fu_done (sc_first m) && fu_done (sc_second m) then (Next None, m) else (Wait false, m).
Definition schain_second (m : SChain) : npoll A * SChain :=
  if fu_done (sc_second m) then schain_rest m
  else
    on_next (inside (mk_schain (sc_first m)) (poll_next (sc_second m))) (λ o m,
      match o with Some v => (Next (Some v), m) | None => schain_rest m end).
#[export] Instance schain_stream : AsyncStream SChain A := λ m,
  if fu_done (sc_first m) then schain_second m
  else
    on_next (inside (λ f, mk_schain f (sc_second m)) (poll_next (sc_first m))) (λ o m,
      match o with Some v => (Next (Some v), m) | None => schain_second m end).
End composites.
Arguments SChain : clear implicits.

Section flatten.
Context {S U A : Type} `{AsyncStream S U} `{AsyncStream U A}.

(** [Flatten], and [FlatMap] over a mapped stream: the loop takes fuel. *)
Record Flatten := mk_flatten { ft_stream : S; ft_inner : option U; ft_fuel : nat }.
Fixpoint flatten_poll (fuel : nat) (m : Flatten) : npoll A * Flatten :=
  match fuel with
  | O => (Spin, m)
  | Datatypes.S fuel =>
      let outer (m : Flatten) :=
        on_next (inside (λ s, mk_flatten s (ft_inner m) (ft_fuel m)) (poll_next (ft_stream m))) (λ o m,
          match o with
          | Some inner => flatten_poll fuel (mk_flatten (ft_stream m) (Some inner) (ft_fuel m))
          | None => (Next None, m)
          end) in
      match ft_inner m with
      | Some inner =>
          on_next (inside (λ u, mk_flatten (ft_stream m) (Some u) (ft_fuel m)) (poll_next inner)) (λ o m,
            match o with
            | Some v => (Next (Some v), m)
            | None => outer (mk_flatten (ft_stream m) None (ft_fuel m))
            end)
      | None => outer m
      end
  end.
#[export] Instance flatten_stream : AsyncStream Flatten A := λ m, flatten_poll (ft_fuel m) m.
End flatten.
Arguments Flatten : clear implicits.

(** ** Consumers

    The answer of a poll of a future: ready, not ready (and whether a wake-up is
    arranged), or not returned. *)
Inductive fpoll (B : Type) :=
  | FReady (b : B)
  | FWait (armed : bool)
  | FSpin.
Arguments FReady {B}.
Arguments FWait {B}.
Arguments FSpin {B}.

Section consumers.
Context {S A : Type} `{AsyncStream S A}.

(** Most futures poll one item: [k] takes it to the answer or to a new state, in
    which case the poll returns [Pending] by itself; [e] is the answer at the end. *)
Definition once_poll {St B} (k : St → A → B + St) (e : St → B) (x : St * S) : fpoll B * (St * S) :=
  match poll_next x.2 with
  | (Next (Some v), s) =>
      match k x.1 v with inl b => (FReady b, (x.1, s)) | inr st => (FWait false, (st, s)) end
  | (Next None, s) => (FReady (e x.1), (x.1, s))
  | (Wait b, s) => (FWait b, (x.1, s))
  | (Spin, s) => (FSpin, (x.1, s))
  end.

(** The others loop. *)
Fixpoint loop_poll {St B} (fuel : nat) (k : St → A → B + St) (e : St → B) (x : St * S)
    : fpoll B * (St * S) :=
  match fuel with
  | O => (FSpin, x)
  | Datatypes.S fuel =>
      match poll_next x.2 with
      | (Next (Some v), s) =>
          match k x.1 v with inl b => (FReady b, (x.1, s)) | inr st => loop_poll fuel k e (st, s) end
      | (Next None, s) => (FReady (e x.1), (x.1, s))
      | (Wait b, s) => (FWait b, (x.1, s))
      | (Spin, s) => (FSpin, (x.1, s))
      end
  end.

Definition all_poll (f : A → bool) : unit * S → fpoll bool * (unit * S) :=
  once_poll (λ _ v, if f v then inr () else inl false) (λ _, true).
Definition any_poll (f : A → bool) : unit * S → fpoll bool * (unit * S) :=
  once_poll (λ _ v, if f v then inl true else inr ()) (λ _, false).
Definition count_poll : Z * S → fpoll Z * (Z * S) :=
  once_poll (λ n _, inr (wrap64 (n + 1))) (λ n, n).
Definition find_poll (p : A → bool) : unit * S → fpoll (option A) * (unit * S) :=
  once_poll (λ _ v, if p v then inl (Some v) else inr ()) (λ _, None).
Definition find_map_poll {B} (f : A → option B) : unit * S → fpoll (option B) * (unit * S) :=
  once_poll (λ _ v, match f v with Some b => inl (Some b) | None => inr () end) (λ _, None).
Definition last_poll : option A * S → fpoll (option A) * (option A * S) :=
  once_poll (λ _ v, inr (Some v)) (λ l, l).
Definition nth_poll : nat * S → fpoll (option A) * (nat * S) :=
  once_poll (λ n v, match n with O => inl (Some v) | Datatypes.S n => inr n end) (λ _, None).
Definition position_poll (p : A → bool) : Z * S → fpoll (option Z) * (Z * S) :=
  once_poll (λ i v, if p v then inl (Some i) else inr (wrap64 (i + 1))) (λ _, None).

(** [MaxBy] and [MinBy]; [Max] and [Min] are theirs with the order of the items. *)
Definition max_by_poll (compare : A → A → comparison) : option A * S → fpoll (option A) * (option A * S) :=
  once_poll (λ m new, inr (match m with
    | None => Some new
    | Some old => match compare new old with Gt => Some new | _ => Some old end end)) (λ m, m).
Definition min_by_poll (compare : A → A → comparison) : option A * S → fpoll (option A) * (option A * S) :=
  once_poll (λ m new, inr (match m with
    | None => Some new
    | Some old => match compare new old with Lt => Some new | _ => Some old end end)) (λ m, m).
Definition max_by_key_poll (cmp : A → A → comparison) (key : A → A)
    : option (A * A) * S → fpoll (option A) * (option (A * A) * S) :=
  once_poll (λ m new, inr (match m with
    | None => Some (key new, new)
    | Some old => match cmp (key new) old.1 with Gt => Some (key new, new) | _ => Some old end end))
    (λ m, snd <$> m).
Definition min_by_key_poll (cmp : A → A → comparison) (key : A → A)
    : option (A * A) * S → fpoll (option A) * (option (A * A) * S) :=
  once_poll (λ m new, inr (match m with
    | None => Some (key new, new)
    | Some old => match cmp (key new) old.1 with Lt => Some (key new, new) | _ => Some old end end))
    (λ m, snd <$> m).

Definition fold_poll {B} (fuel : nat) (f : B → A → B) : B * S → fpoll B * (B * S) :=
  loop_poll fuel (λ acc v, inr (f acc v)) (λ acc, acc).
Definition for_each_poll {St} (fuel : nat) (f : St → A → St) : St * S → fpoll St * (St * S) :=
  loop_poll fuel (λ st v, inr (f st v)) (λ st, st).
Definition try_fold_poll {B E} (fuel : nat) (f : B → A → E + B) : B * S → fpoll (E + B) * (B * S) :=
  loop_poll fuel (λ acc v, match f acc v with inr acc => inr acc | inl e => inl (inl e) end) inr.
Definition try_for_each_poll {E} (fuel : nat) (f : A → option E) : unit * S → fpoll (option E) * (unit * S) :=
  loop_poll fuel (λ _ v, match f v with Some e => inl (Some e) | None => inr () end) (λ _, None).
Definition partition_poll (fuel : nat) (f : A → bool)
    : (list A * list A) * S → fpoll (list A * list A) * ((list A * list A) * S) :=
  loop_poll fuel (λ r v, inr (if f v then (r.1 ++ [v], r.2) else (r.1, r.2 ++ [v]))) (λ r, r).
End consumers.

Definition unzip_poll {S A B} `{AsyncStream S (A * B)} (fuel : nat)
    : (list A * list B) * S → fpoll (list A * list B) * ((list A * list B) * S) :=
  loop_poll fuel (λ r v, inr (r.1 ++ [v.1], r.2 ++ [v.2])) (λ r, r).

(** ** Comparing two streams *)

Section comparing.
Context {L R A : Type} `{AsyncStream L A} `{AsyncStream R A}.

Record CmpFuture := mk_cmp {
  cm_l : Fuse L;
  cm_r : Fuse R;
  cm_l_cache : option A;
  cm_r_cache : option A;
}.
Definition cmp_new (l : L) (r : R) : CmpFuture := mk_cmp (mk_fuse l false) (mk_fuse r false) None None.

(** Fetching the next value of a side, if it is needed and there may be one. *)
Definition fetch_l (c : CmpFuture) : npoll A * CmpFuture :=
  if fu_done (cm_l c) then (Next None, c) else
  match cm_l_cache c with
  | Some _ => (Next None, c)
  | None =>
      let '(p, l) := poll_next (cm_l c) in
      (p, mk_cmp l (cm_r c) (match p with Next o => o | _ => None end) (cm_r_cache c))
  end.
Definition fetch_r (c : CmpFuture) : npoll A * CmpFuture :=
  if fu_done (cm_r c) then (Next None, c) else
  match cm_r_cache c with
  | Some _ => (Next None, c)
  | None =>
      let '(p, r) := poll_next (cm_r c) in
      (p, mk_cmp (cm_l c) r (cm_l_cache c) (match p with Next o => o | _ => None end))
  end.

(** [CmpFuture] and [PartialCmpFuture]: [compare] answers [None] for items that are
    not comparable. *)
Fixpoint partial_cmp_poll (fuel : nat) (compare : A → A → option comparison) (c : CmpFuture)
    : fpoll (option comparison) * CmpFuture :=
  match fuel with
  | O => (FSpin, c)
  | Datatypes.S fuel =>
      let l_complete := fu_done (cm_l c) && bool_decide (cm_l_cache c = None) in
      let r_complete := fu_done (cm_r c) && bool_decide (cm_r_cache c = None) in
      if l_complete && r_complete then (FReady (Some Eq), c)
      else if l_complete then (FReady (Some Lt), c)
      else if r_complete then (FReady (Some Gt), c)
      else
        match fetch_l c with
        | (Wait b, c) => (FWait b, c)
        | (Spin, c) => (FSpin, c)
        | (Next _, c) =>
            match fetch_r c with
            | (Wait b, c) => (FWait b, c)
            | (Spin, c) => (FSpin, c)
            | (Next _, c) =>
                match cm_l_cache c, cm_r_cache c with
                | Some x, Some y =>
                    match compare x y with
                    | Some Eq => partial_cmp_poll fuel compare (mk_cmp (cm_l c) (cm_r c) None None)
                    | res => (FReady res, mk_cmp (cm_l c) (cm_r c) None None)
                    end
                | _, _ => partial_cmp_poll fuel compare c
                end
            end
        end
  end.

(** [EqFuture] and [NeFuture] poll one item of each side in turn. *)
Record EqFuture := mk_eq { eq_l : Fuse L; eq_r : Fuse R }.
Definition eq_new (l : L) (r : R) : EqFuture := mk_eq (mk_fuse l false) (mk_fuse r false).

Definition poll_both (c : EqFuture) (k : option A → option A → EqFuture → fpoll bool * EqFuture)
    : fpoll bool * EqFuture :=
  match poll_next (eq_l c) with
  | (Wait b, l) => (FWait b, mk_eq l (eq_r c))
  | (Spin, l) => (FSpin, mk_eq l (eq_r c))
  | (Next l_val, l) =>
      match poll_next (eq_r c) with
      | (Wait b, r) => (FWait b, mk_eq l r)
      | (Spin, r) => (FSpin, mk_eq l r)
      | (Next r_val, r) => k l_val r_val (mk_eq l r)
      end
  end.

Fixpoint eq_poll (fuel : nat) (eqb : A → A → bool) (c : EqFuture) : fpoll bool * EqFuture :=
  match fuel with
  | O => (FSpin, c)
  | Datatypes.S fuel =>
      poll_both c (λ l_val r_val c,
        if fu_done (eq_l c) && fu_done (eq_r c) then (FReady true, c)
        else match l_val, r_val with
             | Some l, Some r => if eqb l r then eq_poll fuel eqb c else (FReady false, c)
             | _, _ => eq_poll fuel eqb c
             end)
  end.

Fixpoint ne_poll (fuel : nat) (eqb : A → A → bool) (c : EqFuture) : fpoll bool * EqFuture :=
  match fuel with
  | O => (FSpin, c)
  | Datatypes.S fuel =>
      poll_both c (λ l_val r_val c,
        if fu_done (eq_l c) || fu_done (eq_r c) then (FReady false, c)
        else match l_val, r_val with
             | Some l, Some r => if eqb l r then ne_poll fuel eqb c else (FReady true, c)
             | _, _ => (FReady true, c)
             end)
  end.

(** [LtFuture], [LeFuture], [GtFuture] and [GeFuture] read the answer of a comparison. *)
Definition cmp_answer (f : option comparison → bool) (x : fpoll (option comparison) * CmpFuture)
    : fpoll bool * CmpFuture :=
  match x with
  | (FReady o, c) => (FReady (f o), c)
  | (FWait b, c) => (FWait b, c)
  | (FSpin, c) => (FSpin, c)
  end.
Definition lt_poll (fuel : nat) (compare : A → A → option comparison) (c : CmpFuture) :=
  cmp_answer (λ o, match o with Some Lt => true | _ => false end) (partial_cmp_poll fuel compare c).
Definition le_poll (fuel : nat) (compare : A → A → option comparison) (c : CmpFuture) :=
  cmp_answer (λ o, match o with Some Lt | Some Eq => true | _ => false end) (partial_cmp_poll fuel compare c).
Definition gt_poll (fuel : nat) (compare : A → A → option comparison) (c : CmpFuture) :=
  cmp_answer (λ o, match o with Some Gt => true | _ => false end) (partial_cmp_poll fuel compare c).
Definition ge_poll (fuel : nat) (compare : A → A → option comparison) (c : CmpFuture) :=
  cmp_answer (λ o, match o with Some Gt | Some Eq => true | _ => false end) (partial_cmp_poll fuel compare c).
End comparing.
Arguments CmpFuture : clear implicits.
Arguments EqFuture : clear implicits.
