(* ===== verification/StreamsProps.v ===== *)
(** * Streams: what they promise, and the theorems

    [Stream] is the promise of a stream that delivers finitely many items with
    finitely many polls; the adaptors keep it, and both adaptors and consumers are
    shown to compute the list functions of their names. *)

From S2P Require Import Prelude Streams.

Open Scope Z_scope.

(** ** The promise *)

Section promise.
Context {S A : Type}.

(** What a poll does to the items and to the bound on further polls. *)
Definition next_ok (wf : S → Prop) (items : S → list A) (left : S → nat) (s : S) (x : npoll A * S) : Prop :=
  match x.1 with
  | Next (Some a) => wf x.2 ∧ items s = a :: items x.2 ∧ (left x.2 < left s)%nat
  | Next None => items s = []
  | Wait _ => wf x.2 ∧ items x.2 = items s ∧ (left x.2 < left s)%nat
  | Spin => False
  end.

(** A poll that starts with another one which was ready. *)
Lemma next_ok_from wf (items : S → list A) left s1 s2 x :
  next_ok wf items left s1 x → items s2 = items s1 → (left s1 ≤ left s2)%nat → next_ok wf items left s2 x.
Proof.
  unfold next_ok. intros Hx -> Hl. destruct x as [[[a|]|b|] s]; cbn in *; intuition lia.
Qed.
End promise.

Class Stream (S A : Type) `{AsyncStream S A} := {
  s_wf : S → Prop;
  s_items : S → list A;
  s_left : S → nat;
  s_step s : s_wf s → next_ok s_wf s_items s_left s (poll_next s);
}.

(** Destruct the poll of a stream together with its promise. *)
Ltac poll_stream s Hs :=
  let H := fresh "Hs" in
  pose proof (s_step s Hs) as H; unfold next_ok in H;
  destruct (poll_next s) as [[[?|]|?|] ?]; cbn [fst snd] in H;
  [destruct H as (? & ? & ?)| |destruct H as (? & ? & ?)|done].

(** Close what is left of the promise of an adaptor. *)
Ltac stream_done :=
  unfold next_ok in *; cbn in *; unfold poll_next in *;
  repeat match goal with E : s_items ?s = _ |- context [s_items ?s] => rewrite E end;
  cbn; split_and?; eauto with lia.

(** ** Sources *)

#[export] Program Instance empty_Stream {A} : Stream Empty A :=
  { s_wf _ := True; s_items _ := []; s_left _ := 0%nat }.
Next Obligation. intros A s _. by hnf. Qed.
#[export] Program Instance once_Stream {A} : Stream (Once A) A :=
  { s_wf _ := True; s_items s := option_list s; s_left s := length (option_list s) }.
Next Obligation. intros A [a|] _; hnf; simpl; auto with lia. Qed.
#[export] Program Instance from_iter_Stream {A} : Stream (FromIter A) A :=
  { s_wf _ := True; s_items s := s; s_left s := length s }.
Next Obligation. intros A [|a s] _; hnf; simpl; auto with lia. Qed.

(** ** List functions *)

Section list_functions.
Context {A : Type}.

Fixpoint every (step i : nat) (l : list A) : list A :=
  match l with
  | [] => []
  | a :: l => match i with O => a :: every step step l | Datatypes.S i => every step i l end
  end.
Fixpoint take_while (p : A → bool) (l : list A) : list A :=
  match l with [] => [] | a :: l => if p a then a :: take_while p l else [] end.
Fixpoint drop_while (p : A → bool) (l : list A) : list A :=
  match l with [] => [] | a :: l' => if p a then drop_while p l' else l end.
Fixpoint enum_from (i : Z) (l : list A) : list (Z * A) :=
  match l with [] => [] | a :: l => (i, a) :: enum_from (wrap64 (i + 1)) l end.
Fixpoint scan_list {St B} (f : St → A → St * option B) (st : St) (l : list A) : list B :=
  match l with
  | [] => []
  | a :: l => match f st a with (st, Some b) => b :: scan_list f st l | (_, None) => [] end
  end.
End list_functions.

(** ** Adaptors *)

Section adaptors.
Context {S A B : Type} `{Stream S A}.

#[export] Program Instance map_Stream : Stream (Map S A B) B :=
  { s_wf m := s_wf (mp_stream m); s_items m := mp_f m <$> s_items (mp_stream m);
    s_left m := s_left (mp_stream m) }.
Next Obligation.
  intros [s f] Hs. unfold poll_next, map_stream. cbn in *. poll_stream s Hs; stream_done.
Qed.

#[export] Program Instance filter_Stream : Stream (Filter S A) A :=
  { s_wf m := s_wf (fl_stream m); s_items m := base.filter (λ a, fl_p m a = true) (s_items (fl_stream m));
    s_left m := s_left (fl_stream m) }.
Next Obligation.
  intros [s p] Hs. unfold poll_next, filter_stream. cbn in *. poll_stream s Hs; stream_done.
  destruct (p a) eqn:Ep; stream_done.
Qed.

#[export] Program Instance filter_map_Stream : Stream (FilterMap S A B) B :=
  { s_wf m := s_wf (fm_stream m); s_items m := omap (fm_f m) (s_items (fm_stream m));
    s_left m := s_left (fm_stream m) }.
Next Obligation.
  intros [s f] Hs. unfold poll_next, filter_map_stream. cbn in *. poll_stream s Hs; stream_done.
  destruct (f a) eqn:Ep; stream_done; try by rewrite Ep.
Qed.

#[export] Program Instance take_Stream : Stream (STake S) A :=
  { s_wf m := s_wf (st_stream m); s_items m := take (st_remaining m) (s_items (st_stream m));
    s_left m := s_left (st_stream m) }.
Next Obligation.
  intros [s n] Hs. unfold poll_next, take_stream. cbn in *. destruct n as [|n]; [done|].
  rewrite decide_False by done. poll_stream s Hs; stream_done. by rewrite Nat.sub_0_r.
Qed.

#[export] Program Instance take_while_Stream : Stream (TakeWhile S A) A :=
  { s_wf m := s_wf (tw_stream m); s_items m := take_while (tw_p m) (s_items (tw_stream m));
    s_left m := s_left (tw_stream m) }.
Next Obligation.
  intros [s p] Hs. unfold poll_next, take_while_stream. cbn in *. poll_stream s Hs; stream_done.
  destruct (p a) eqn:Ep; stream_done; try by rewrite Ep.
Qed.

Lemma skip_poll_ok n s :
  s_wf s →
  next_ok (λ m, s_wf (sk_stream m)) (λ m, drop (sk_n m) (s_items (sk_stream m))) (λ m, s_left (sk_stream m))
    (mk_skip s n) (skip_poll n s).
Proof.
  revert s. induction n as [|n IH]; intros s Hs; simpl; poll_stream s Hs; stream_done.
  match goal with Hw : s_wf ?x |- context [skip_poll n ?x] => specialize (IH x Hw) end.
  unfold next_ok in IH. destruct (skip_poll n _) as [[[?|]|?|] ?]; cbn in *; intuition auto with lia.
Qed.
#[export] Program Instance skip_Stream : Stream (Skip S) A :=
  { s_wf m := s_wf (sk_stream m); s_items m := drop (sk_n m) (s_items (sk_stream m));
    s_left m := s_left (sk_stream m) }.
Next Obligation. intros [s n] Hs. by apply skip_poll_ok. Qed.

Lemma step_poll_ok step i s :
  s_wf s →
  next_ok (λ m, s_wf (sb_stream m)) (λ m, every (sb_step m) (sb_i m) (s_items (sb_stream m)))
    (λ m, s_left (sb_stream m)) (mk_stepby s step i) (step_poll step i s).
Proof.
  revert s. induction i as [|i IH]; intros s Hs; simpl; poll_stream s Hs; stream_done.
  match goal with Hw : s_wf ?x |- context [step_poll step i ?x] => specialize (IH x Hw) end.
  unfold next_ok in IH. destruct (step_poll step i _) as [[[?|]|?|] ?]; cbn in *; intuition auto with lia.
Qed.
#[export] Program Instance step_by_Stream : Stream (StepBy S) A :=
  { s_wf m := s_wf (sb_stream m); s_items m := every (sb_step m) (sb_i m) (s_items (sb_stream m));
    s_left m := s_left (sb_stream m) }.
Next Obligation. intros [s n i] Hs. by apply step_poll_ok. Qed.

(** [SkipWhile]: its fuel has to exceed the items left. *)
Definition skip_while_items (m : SkipWhile S A) : list A :=
  match sw_p m with Some p => drop_while p (s_items (sw_stream m)) | None => s_items (sw_stream m) end.

Lemma skip_while_poll_ok fuel (m : SkipWhile S A) :
  s_wf (sw_stream m) → (length (s_items (sw_stream m)) < fuel)%nat → (fuel ≤ sw_fuel m)%nat →
  next_ok (λ m, s_wf (sw_stream m) ∧ (length (s_items (sw_stream m)) < sw_fuel m)%nat) skip_while_items
    (λ m, s_left (sw_stream m)) m (skip_while_poll fuel m).
Proof.
  revert m. induction fuel as [|fuel IH]; intros [s p F] Hs Hf HF; simpl in *; [lia|].
  unfold skip_while_items. poll_stream s Hs; stream_done; [|by destruct p].
  match goal with E : s_items s = _ |- _ => rewrite E in Hf; simpl in Hf end.
  destruct p as [p|]; [|stream_done]. destruct (p a) eqn:Ep; stream_done.
  match goal with Hw : s_wf ?x |- context [mk_skipwhile ?x _ _] =>
    specialize (IH (mk_skipwhile x (Some p) F) Hw ltac:(simpl; lia) ltac:(simpl; lia)) end.
  unfold skip_while_items in IH. destruct (skip_while_poll fuel _) as [[[?|]|?|] ?]; cbn in *;
    intuition auto with lia.
Qed.
#[export] Program Instance skip_while_Stream : Stream (SkipWhile S A) A :=
  { s_wf m := s_wf (sw_stream m) ∧ (length (s_items (sw_stream m)) < sw_fuel m)%nat;
    s_items := skip_while_items; s_left m := s_left (sw_stream m) }.
Next Obligation. intros m [Hs Hf]. by apply skip_while_poll_ok. Qed.

#[export] Program Instance enumerate_Stream : Stream (Enumerate S) (Z * A) :=
  { s_wf m := s_wf (en_stream m); s_items m := enum_from (en_i m) (s_items (en_stream m));
    s_left m := s_left (en_stream m) }.
Next Obligation.
  intros [s i] Hs. unfold poll_next, enumerate_stream. cbn in *. poll_stream s Hs; stream_done.
Qed.

#[export] Program Instance fuse_Stream : Stream (Fuse S) A :=
  { s_wf m := fu_done m = true ∨ s_wf (fu_stream m);
    s_items m := if fu_done m then [] else s_items (fu_stream m);
    s_left m := if fu_done m then 0%nat else s_left (fu_stream m) }.
Next Obligation.
  intros [s [|]] Hs; unfold poll_next, fuse_stream; cbn in *; [done|].
  destruct Hs as [Hs|Hs]; [done|]. poll_stream s Hs; stream_done.
Qed.

#[export] Program Instance cloned_Stream : Stream (Cloned S) A :=
  { s_wf m := s_wf (cl_stream m); s_items m := s_items (cl_stream m); s_left m := s_left (cl_stream m) }.
Next Obligation.
  intros [s] Hs. unfold poll_next, cloned_stream, inside. cbn in *. poll_stream s Hs; stream_done.
Qed.

#[export] Program Instance inspect_Stream {St} : Stream (Inspect S A St) A :=
  { s_wf m := s_wf (in_stream _ m); s_items m := s_items (in_stream _ m); s_left m := s_left (in_stream _ m) }.
Next Obligation.
  intros St [s st f] Hs. unfold poll_next, inspect_stream. cbn in *. poll_stream s Hs; stream_done.
Qed.

#[export] Program Instance scan_Stream {St} : Stream (Scan S A B St) B :=
  { s_wf m := s_wf (sc_stream _ m); s_items m := scan_list (sc_f _ m) (sc_state _ m) (s_items (sc_stream _ m));
    s_left m := s_left (sc_stream _ m) }.
Next Obligation.
  intros St [s st f] Hs. unfold poll_next, scan_stream. cbn in *. poll_stream s Hs; stream_done.
  destruct (f st a) as [st' [b|]] eqn:Ef; stream_done; try by rewrite Ef.
Qed.
Lemma fuse_poll (f : Fuse S) :
  s_wf f → fu_done f = false →
  match poll_next f with
  | (Next (Some a), f') => s_wf f' ∧ s_items f = a :: s_items f' ∧ (s_left f' < s_left f)%nat ∧ fu_done f' = false
  | (Next None, f') => s_items f = [] ∧ s_wf f' ∧ fu_done f' = true
  | (Wait _, f') => s_wf f' ∧ s_items f' = s_items f ∧ (s_left f' < s_left f)%nat ∧ fu_done f' = false
  | (Spin, _) => False
  end.
Proof.
  destruct f as [s d]. intros Hw Hd. cbn in *. subst d. destruct Hw as [Hw|Hw]; [done|].
  unfold poll_next, fuse_stream. cbn. poll_stream s Hw; stream_done.
Qed.
End adaptors.

Section zip.
Context {S U A B : Type} `{Stream S A} `{Stream U B}.

Definition zip_wf (m : Zip S U A) : Prop := s_wf (zp_first m) ∧ s_wf (zp_second m).
Definition zip_items (m : Zip S U A) : list (A * B) :=
  zip (option_list (zp_slot m) ++ s_items (zp_first m)) (s_items (zp_second m)).
Definition zip_left (m : Zip S U A) : nat := (s_left (zp_first m) + s_left (zp_second m))%nat.

Lemma zip_second_ok (m : Zip S U A) :
  zip_wf m → is_Some (zp_slot m) → next_ok zip_wf zip_items zip_left m (zip_second m).
Proof.
  destruct m as [slot s u]. intros [Hs Hu] [a Ha]. cbn in *. subst slot. unfold zip_second, zip_items, zip_left, zip_wf.
  cbn. poll_stream u Hu; stream_done.
Qed.

#[export] Program Instance zip_Stream : Stream (Zip S U A) (A * B) :=
  { s_wf := zip_wf; s_items := zip_items; s_left := zip_left }.
Next Obligation.
  intros [[a|] s u] [Hs Hu]; unfold poll_next, zip_stream; cbn in *; [by apply zip_second_ok|].
  poll_stream s Hs.
  - eapply next_ok_from; [apply (zip_second_ok (mk_zip (Some a) s0 u)); [done|by eexists]| |].
    + unfold zip_items. cbn. by rewrite H4.
    + unfold zip_left. cbn. lia.
  - unfold next_ok, zip_items. cbn. by rewrite Hs0.
  - unfold next_ok, zip_items, zip_left, zip_wf. cbn. rewrite H4. split_and!; [done|done|done|lia].
Qed.
End zip.

Section chain.
Context {S U A : Type} `{Stream S A} `{Stream U A}.

(** A part that has ended is fused; the other is not polled out of turn. *)
Definition schain_wf (m : SChain S U) : Prop := s_wf (sc_first m) ∧ s_wf (sc_second m).
Definition schain_items (m : SChain S U) : list A := s_items (sc_first m) ++ s_items (sc_second m).
Definition schain_left (m : SChain S U) : nat := (s_left (sc_first m) + s_left (sc_second m))%nat.

Lemma schain_second_ok (m : SChain S U) :
  schain_wf m → fu_done (sc_first m) = true →
  next_ok schain_wf schain_items schain_left m (schain_second m).
Proof.
  destruct m as [[s ds] f]. intros [Hf Hg] Hd. cbn in Hd. subst ds. cbn [sc_second] in Hg.
  unfold schain_second, schain_rest. cbn [sc_first sc_second]. destruct (fu_done f) eqn:Ef.
  { destruct f as [u du]. cbn in Ef. by subst du. }
  pose proof (fuse_poll f Hg Ef) as Hp. destruct (poll_next f) as [[[a|]|b|] f']; cbn; [| | |done].
  - destruct Hp as (? & Hi & ? & _). hnf. split_and!; [split; [by left|done]|exact Hi|unfold schain_left; cbn in *; lia].
  - destruct Hp as (Hi & ? & Hd). rewrite Hd. exact Hi.
  - destruct Hp as (? & Hi & ? & _). hnf. split_and!; [split; [by left|done]|exact Hi|unfold schain_left; cbn in *; lia].
Qed.

#[export] Program Instance schain_Stream : Stream (SChain S U) A :=
  { s_wf := schain_wf; s_items := schain_items; s_left := schain_left }.
Next Obligation.
  intros [f g] [Hf Hg]. cbn [sc_first sc_second] in Hf, Hg.
  change (poll_next (mk_schain f g)) with (schain_stream (mk_schain f g)). unfold schain_stream.
  cbn [sc_first sc_second]. destruct (fu_done f) eqn:Ed; [by apply (schain_second_ok (mk_schain f g))|].
  pose proof (fuse_poll f Hf Ed) as Hp. destruct (poll_next f) as [[[a|]|b|] f']; [| | |done];
    cbn [on_next inside fst snd].
  - destruct Hp as (? & Hi & ? & _). unfold next_ok, schain_items, schain_left. cbn [sc_first sc_second fst snd].
    rewrite Hi. split_and!; [done|done|lia].
  - destruct Hp as (Hi & ? & Hd). eapply next_ok_from.
    + by apply (schain_second_ok (mk_schain f' g)).
    + unfold schain_items. cbn [sc_first sc_second]. rewrite Hi. destruct f' as [s' d']. cbn in Hd. by subst d'.
    + unfold schain_left. cbn [sc_first sc_second]. destruct f' as [s' d']. cbn in Hd. subst d'. cbn. lia.
  - destruct Hp as (? & Hi & ? & _). unfold next_ok, schain_items, schain_left. cbn [sc_first sc_second fst snd].
    rewrite Hi. split_and!; [done|done|lia].
Qed.
End chain.

Section flatten.
Context {S U A : Type} `{Stream S U} `{Stream U A}.
Implicit Types m : Flatten S U.

Definition flatten_wf m : Prop :=
  s_wf (ft_stream m) ∧ Forall s_wf (s_items (ft_stream m)) ∧ (∀ u, ft_inner m = Some u → s_wf u) ∧
  (length (s_items (ft_stream m)) < ft_fuel m)%nat.
Definition flatten_items m : list A :=
  default [] (s_items <$> ft_inner m) ++ concat (s_items <$> s_items (ft_stream m)).
Definition flatten_left m : nat :=
  (s_left (ft_stream m) + default 0 (s_left <$> ft_inner m) +
   sum_list (s_left <$> s_items (ft_stream m)))%nat.
Notation flatten_ok := (next_ok flatten_wf flatten_items flatten_left).

(** The part of the loop that asks the outer stream, before the next turn. *)
Lemma flatten_outer_ok fuel m :
  (∀ m, flatten_wf m → (length (s_items (ft_stream m)) < fuel)%nat → flatten_ok m (flatten_poll fuel m)) →
  flatten_wf m → (length (s_items (ft_stream m)) ≤ fuel)%nat → ft_inner m = None →
  flatten_ok m
    (on_next (inside (λ s, mk_flatten s (ft_inner m) (ft_fuel m)) (poll_next (ft_stream m))) (λ o m,
       match o with
       | Some inner => flatten_poll fuel (mk_flatten (ft_stream m) (Some inner) (ft_fuel m))
       | None => (Next None, m)
       end)).
Proof.
  destruct m as [s i F]. intros IH (Hs & Hall & _ & HF) Hf Hi. cbn in *. subst i.
  pose proof (s_step s Hs) as Hp. unfold next_ok in Hp.
  destruct (poll_next s) as [[[u|]|b|] s']; cbn [fst snd] in Hp; [| | |done];
    cbn [on_next inside fst snd ft_stream ft_fuel].
  - destruct Hp as (Hs' & Hit & Hl). rewrite Hit in Hf, HF, Hall. apply Forall_cons in Hall as [Hu Hall].
    cbn [length] in Hf, HF. eapply next_ok_from; [apply IH; [|cbn; lia]| |].
    + split_and!; [done|done|by intros ? [= <-]|simpl; lia].
    + unfold flatten_items. cbn. by rewrite Hit.
    + unfold flatten_left. cbn [ft_stream ft_inner]. rewrite Hit, fmap_cons. simpl. lia.
  - unfold next_ok, flatten_items. cbn. by rewrite Hp.
  - destruct Hp as (Hs' & Hit & Hl). unfold next_ok, flatten_wf, flatten_items, flatten_left. cbn.
    rewrite Hit. by split_and!; try lia.
Qed.

Lemma flatten_poll_ok fuel m :
  flatten_wf m → (length (s_items (ft_stream m)) < fuel)%nat → flatten_ok m (flatten_poll fuel m).
Proof.
  revert m. induction fuel as [|fuel IH]; intros m Hw Hf; [lia|]. cbn [flatten_poll].
  destruct (ft_inner m) as [u|] eqn:Ei; [|rewrite <- Ei; apply flatten_outer_ok; auto with lia].
  destruct m as [s i F]. cbn in Ei. subst i. destruct Hw as (Hs & Hall & Hu & HF). cbn in *.
  pose proof (s_step u (Hu u eq_refl)) as Hp. unfold next_ok in Hp.
  destruct (poll_next u) as [[[v|]|b|] u']; cbn [fst snd] in Hp; [| | |done];
    cbn [on_next inside fst snd ft_stream ft_fuel ft_inner].
  - destruct Hp as (Hu' & Hit & Hl). unfold next_ok, flatten_wf, flatten_items, flatten_left. cbn.
    rewrite Hit. split_and!; try done; try lia. by intros ? [= <-].
  - eapply next_ok_from; [apply (flatten_outer_ok fuel (mk_flatten s None F)); auto with lia| |].
    + by split_and!.
    + cbn. lia.
    + unfold flatten_items. cbn. by rewrite Hp.
    + unfold flatten_left. cbn. lia.
  - destruct Hp as (Hu' & Hit & Hl). unfold next_ok, flatten_wf, flatten_items, flatten_left. cbn.
    rewrite Hit. split_and!; try done; try lia. by intros ? [= <-].
Qed.

#[export] Program Instance flatten_Stream : Stream (Flatten S U) A :=
  { s_wf := flatten_wf; s_items := flatten_items; s_left := flatten_left }.
Next Obligation. intros m Hw. apply flatten_poll_ok; [done|]. apply Hw. Qed.
End flatten.

(** ** Collecting a stream *)

(** Polled until its end, the stream gives [l]. *)
Inductive collects {S A} `{AsyncStream S A} : S → list A → Prop :=
  | collects_end s s' : poll_next s = (Next None, s') → collects s []
  | collects_item s s' a l : poll_next s = (Next (Some a), s') → collects s' l → collects s (a :: l)
  | collects_wait s s' b l : poll_next s = (Wait b, s') → collects s' l → collects s l.

(** A stream that keeps its promise is collected to its items and nothing else. *)
Lemma collects_items {S A} `{Stream S A} s l : s_wf s → collects s l ↔ l = s_items s.
Proof.
  intros Hs. split.
  - intros Hc. induction Hc as [s s' E|s s' a l E _ IH|s s' b l E _ IH]; pose proof (s_step s Hs) as Hp;
      unfold next_ok in Hp; rewrite E in Hp; cbn in Hp.
    + done.
    + destruct Hp as (Hw & -> & _). by rewrite IH.
    + destruct Hp as (Hw & <- & _). by apply IH.
  - intros ->. remember (s_left s) as n eqn:En. revert s Hs En.
    induction (lt_wf n) as [n _ IH]. intros s Hs ->. pose proof (s_step s Hs) as Hp. unfold next_ok in Hp.
    destruct (poll_next s) as [[[a|]|b|] s'] eqn:E; cbn in Hp; [| | |done].
    + destruct Hp as (Hw & -> & Hl). eapply collects_item; [done|]. by eapply IH.
    + rewrite Hp. by eapply collects_end.
    + destruct Hp as (Hw & <- & Hl). eapply collects_wait; [done|]. by eapply IH.
Qed.

(** ** The adaptors compute their list functions *)

Section refine.
Context {S U A B : Type} `{Stream S A} `{Stream U B}.

(** C39: stream adaptors are the list functions of their names.  Over any stream
    that keeps its promise, collecting an adaptor ends, and gives exactly the list
    function applied to the items of the stream, whatever polls were not ready. *)
Theorem stream_adaptors_refine (s : S) (u : U) :
  s_wf s → s_wf u →
  (∀ (f : A → B) l, collects (mk_map s f) l ↔ l = f <$> s_items s) ∧
  (∀ (p : A → bool) l, collects (mk_filter s p) l ↔ l = base.filter (λ a, p a = true) (s_items s)) ∧
  (∀ (f : A → option B) l, collects (mk_filtermap s f) l ↔ l = omap f (s_items s)) ∧
  (∀ n l, collects (mk_stake s n) l ↔ l = take n (s_items s)) ∧
  (∀ n l, collects (mk_skip s n) l ↔ l = drop n (s_items s)) ∧
  (∀ n m l, step_by_new s n = Ok m → collects m l ↔ l = every (n - 1) 0 (s_items s)) ∧
  (∀ (p : A → bool) l, collects (mk_takewhile s p) l ↔ l = take_while p (s_items s)) ∧
  (∀ (p : A → bool) fuel l, (length (s_items s) < fuel)%nat →
     collects (mk_skipwhile s (Some p) fuel) l ↔ l = drop_while p (s_items s)) ∧
  (∀ l, collects (mk_enum s 0) l ↔ l = enum_from 0 (s_items s)) ∧
  (∀ l, collects (mk_zip None s u) l ↔ l = zip (s_items s) (s_items u)) ∧
  (∀ St (f : St → A → St * option B) st l, collects (mk_scan _ s st f) l ↔ l = scan_list f st (s_items s)) ∧
  (∀ St (f : St → A → St) st l, collects (mk_inspect _ s st f) l ↔ l = s_items s).
Proof.
  intros Hs Hu. split_and!; intros.
  - by rewrite collects_items.
  - by rewrite collects_items.
  - by rewrite collects_items.
  - by rewrite collects_items.
  - by rewrite collects_items.
  - destruct n as [|n]; [done|]. simplify_eq/=. rewrite collects_items by done. cbn. by rewrite Nat.sub_0_r.
  - by rewrite collects_items.
  - by rewrite collects_items.
  - by rewrite collects_items.
  - by rewrite collects_items.
  - by rewrite collects_items.
  - by rewrite collects_items.
Qed.
End refine.

(** Chained and flattened streams give their parts in order.  Collecting a chain
    gives the items of the first stream, then those of the second; collecting a
    flattened stream gives the items of all its inner streams in order; both end. *)
Theorem stream_concat_refine {S T U A} `{Stream S A} `{Stream U A} `{Stream T U} (s : S) (u : U) (t : T) :
  s_wf s → s_wf u → s_wf t → Forall s_wf (s_items t) →
  (∀ l, collects (schain_new s u) l ↔ l = s_items s ++ s_items u) ∧
  (∀ fuel l, (length (s_items t) < fuel)%nat →
     collects (mk_flatten t None fuel) l ↔ l = concat (s_items <$> s_items t)).
Proof.
  intros Hs Hu Ht Hall. split; intros.
  - rewrite collects_items; [done|]. split; by right.
  - rewrite collects_items; [done|]. by split_and!.
Qed.

(** ** The consumers *)

(** Polled until it is ready, the future answers [b]. *)
Inductive consumed {X B} (poll : X → fpoll B * X) : X → B → Prop :=
  | consumed_ready x b x' : poll x = (FReady b, x') → consumed poll x b
  | consumed_wait x a x' b : poll x = (FWait a, x') → consumed poll x' b → consumed poll x b.

(** The list function of a consumer. *)
Fixpoint run {A St B} (k : St → A → B + St) (e : St → B) (st : St) (l : list A) : B :=
  match l with
  | [] => e st
  | a :: l => match k st a with inl b => b | inr st => run k e st l end
  end.

Section consume.
Context {S A : Type} `{Stream S A}.

Lemma once_consumed {St B} (k : St → A → B + St) e st s b :
  s_wf s → consumed (once_poll k e) (st, s) b ↔ b = run k e st (s_items s).
Proof.
  intros Hs. split.
  - intros Hc. remember (st, s) as x eqn:Ex. revert st s Hs Ex.
    induction Hc as [x b x' E|x a x' b E Hc IH]; intros st s Hs ->; unfold once_poll in E; cbn in E;
      pose proof (s_step s Hs) as Hp; unfold next_ok in Hp;
      destruct (poll_next s) as [[[v|]|w|] s']; cbn in *; simplify_eq/=; try done.
    + destruct Hp as (_ & -> & _). simpl. by destruct (k st v); simplify_eq.
    + by rewrite Hp.
    + destruct Hp as (Hw & -> & _). simpl. destruct (k st v); simplify_eq. by eapply IH.
    + destruct Hp as (Hw & <- & _). by eapply IH.
  - intros ->. remember (s_left s) as n eqn:En. revert st s Hs En.
    induction (lt_wf n) as [n _ IH]. intros st s Hs ->. pose proof (s_step s Hs) as Hp. unfold next_ok in Hp.
    destruct (once_poll k e (st, s)) as [p x'] eqn:E. pose proof E as E'. unfold once_poll in E'. cbn in E'.
    destruct (poll_next s) as [[[v|]|w|] s']; cbn in *; [| | |done].
    + destruct Hp as (Hw & -> & Hl). simpl. destruct (k st v); simplify_eq/=.
      * by eapply consumed_ready.
      * eapply consumed_wait; [done|]. by eapply IH.
    + simplify_eq/=. rewrite Hp. by eapply consumed_ready.
    + destruct Hp as (Hw & <- & Hl). simplify_eq/=. eapply consumed_wait; [done|]. by eapply IH.
Qed.

(** One poll of a looping future. *)
Lemma loop_poll_ok {St B} fuel (k : St → A → B + St) e st s :
  s_wf s → (length (s_items s) < fuel)%nat →
  match loop_poll fuel k e (st, s) with
  | (FReady b, _) => b = run k e st (s_items s)
  | (FWait _, (st', s')) => s_wf s' ∧ run k e st' (s_items s') = run k e st (s_items s) ∧
                           (s_left s' < s_left s)%nat ∧ (length (s_items s') ≤ length (s_items s))%nat
  | (FSpin, _) => False
  end.
Proof.
  revert st s. induction fuel as [|fuel IH]; intros st s Hs Hf; [lia|]. cbn [loop_poll].
  cbn [fst snd]. pose proof (s_step s Hs) as Hp. unfold next_ok in Hp.
  destruct (poll_next s) as [[[v|]|w|] s']; cbn [fst snd] in Hp; [| | |done].
  - destruct Hp as (Hw & Hi & Hl). rewrite Hi in *. simpl in *. destruct (k st v) as [b|st']; [done|].
    specialize (IH st' s' Hw ltac:(lia)). destruct (loop_poll fuel k e (st', s')) as [[b|w|] [st2 s2]]; [done| |done].
    destruct IH as (? & ? & ? & ?). split_and!; [done|done|lia|lia].
  - by rewrite Hp.
  - destruct Hp as (Hw & Hi & Hl). rewrite Hi. auto.
Qed.

Lemma loop_consumed {St B} fuel (k : St → A → B + St) e st s b :
  s_wf s → (length (s_items s) < fuel)%nat →
  consumed (loop_poll fuel k e) (st, s) b ↔ b = run k e st (s_items s).
Proof.
  intros Hs Hf. split.
  - intros Hc. remember (st, s) as x eqn:Ex. revert st s Hs Hf Ex.
    induction Hc as [x b x' E|x a [st' s'] b E Hc IH]; intros st s Hs Hf ->;
      pose proof (loop_poll_ok fuel k e st s Hs Hf) as Hp; rewrite E in Hp; [done|].
    destruct Hp as (Hw & <- & _ & Hl). eapply IH; [done|lia|done].
  - intros ->. remember (s_left s) as n eqn:En. revert st s Hs Hf En.
    induction (lt_wf n) as [n _ IH]. intros st s Hs Hf ->.
    pose proof (loop_poll_ok fuel k e st s Hs Hf) as Hp.
    destruct (loop_poll fuel k e (st, s)) as [[b|w|] [st' s']] eqn:E; [| |done].
    + subst b. by eapply consumed_ready.
    + destruct Hp as (Hw & Hr & Hl & Hle). eapply consumed_wait; [done|]. rewrite <- Hr.
      eapply IH; [done|done|lia|done].
Qed.
End consume.

(** *** The list functions of the consumers *)

Section list_answers.
Context {A : Type}.
Implicit Types l : list A.

Lemma run_all (f : A → bool) l : run (λ (_ : unit) v, if f v then inr () else inl false) (λ _, true) () l = forallb f l.
Proof. induction l as [|a l IH]; simpl; [done|]. by destruct (f a). Qed.
Lemma run_any (f : A → bool) l : run (λ (_ : unit) v, if f v then inl true else inr ()) (λ _, false) () l = existsb f l.
Proof. induction l as [|a l IH]; simpl; [done|]. by destruct (f a). Qed.
Lemma run_find (f : A → bool) l :
  run (λ (_ : unit) v, if f v then inl (Some v) else inr ()) (λ _, None) () l = List.find f l.
Proof. induction l as [|a l IH]; simpl; [done|]. by destruct (f a). Qed.
Lemma run_find_map {B} (f : A → option B) l :
  run (λ (_ : unit) v, match f v with Some b => inl (Some b) | None => inr () end) (λ _, None) () l = head (omap f l).
Proof. induction l as [|a l IH]; simpl; [done|]. by destruct (f a). Qed.
Lemma run_nth n l :
  run (λ n v, match n with O => inl (Some v) | Datatypes.S n => inr n end) (λ _, None) n l = l !! n.
Proof. revert n. induction l as [|a l IH]; intros [|n]; simpl; auto. Qed.
Lemma run_last o l : run (λ (_ : option A) v, @inr (option A) _ (Some v)) (λ o, o) o l = from_option Some o (last l).
Proof.
  revert o. induction l as [|a l IH]; intros o; [done|]. simpl. rewrite IH.
  destruct l as [|b l]; [done|]. rewrite last_cons_cons. destruct (last (b :: l)) eqn:E; [done|].
  by apply last_None in E.
Qed.
Lemma run_count n l :
  is_u64 n → run (λ n (_ : A), @inr Z _ (wrap64 (n + 1))) (λ n, n) n l = wrap64 (n + Z.of_nat (length l)).
Proof.
  revert n. induction l as [|a l IH]; intros n Hn; simpl.
  - by rewrite Z.add_0_r, wrap64_small.
  - rewrite IH by apply wrap64_range. unfold wrap64. rewrite Zplus_mod_idemp_l. f_equal. lia.
Qed.
Lemma run_fold {B} (f : B → A → B) b l : run (λ acc v, @inr B _ (f acc v)) (λ acc, acc) b l = foldl f b l.
Proof. revert b. induction l as [|a l IH]; intros b; simpl; auto. Qed.
Lemma run_partition (f : A → bool) r l :
  run (λ (r : list A * list A) v, @inr (list A * list A) _ (if f v then (r.1 ++ [v], r.2) else (r.1, r.2 ++ [v])))
    (λ r, r) r l =
  (r.1 ++ base.filter (λ a, f a = true) l, r.2 ++ base.filter (λ a, f a = false) l).
Proof.
  revert r. induction l as [|a l IH]; intros [x y]; [by rewrite !app_nil_r|]. cbn [run]. rewrite IH, !filter_cons.
  destruct (f a); cbn; by rewrite <- app_assoc.
Qed.
End list_answers.
Lemma run_unzip {A B} r (l : list (A * B)) :
  run (λ (r : list A * list B) v, @inr (list A * list B) _ (r.1 ++ [v.1], r.2 ++ [v.2])) (λ r, r) r l =
  (r.1 ++ l.*1, r.2 ++ l.*2).
Proof.
  revert r. induction l as [|[a b] l IH]; intros [x y]; [by rewrite !app_nil_r|]. simpl. rewrite IH. simpl.
  by rewrite <- !app_assoc.
Qed.
(** The maximum kept by [MaxBy] over a linear order of integers. *)
Lemma run_max m l :
  let k := λ (m : option Z) new, @inr (option Z) _ (match m with
    | None => Some new
    | Some old => match new ?= old with Gt => Some new | _ => Some old end end) in
  run k (λ m, m) m l = match l with [] => m | a :: l => Some (foldl Z.max (match m with Some b => Z.max b a | None => a end) l) end.
Proof.
  cbv zeta. revert m. induction l as [|a l IH]; intros m; [done|]. cbn [run]. rewrite IH.
  assert (Hm : (match m with None => Some a | Some old => match a ?= old with Gt => Some a | _ => Some old end end)
    = Some (match m with Some b => Z.max b a | None => a end)).
  { destruct m as [b|]; [|done]. destruct (Z.compare_spec a b); f_equal; lia. }
  rewrite Hm. by destruct l.
Qed.

Section consumers_refine.
Context {S A : Type} `{Stream S A}.

(** Stream consumers are the list functions of their names.  Over any stream
    that keeps its promise, each of these futures becomes ready when it is polled
    again after every [Pending], and its answer is the list function of the items. *)
Theorem stream_consumers_refine (s : S) fuel :
  s_wf s → (length (s_items s) < fuel)%nat →
  (∀ f b, consumed (all_poll f) ((), s) b ↔ b = forallb f (s_items s)) ∧
  (∀ f b, consumed (any_poll f) ((), s) b ↔ b = existsb f (s_items s)) ∧
  (∀ b, consumed count_poll (0, s) b ↔ b = wrap64 (Z.of_nat (length (s_items s)))) ∧
  (∀ f b, consumed (find_poll f) ((), s) b ↔ b = List.find f (s_items s)) ∧
  (∀ B (f : A → option B) b, consumed (find_map_poll f) ((), s) b ↔ b = head (omap f (s_items s))) ∧
  (∀ b, consumed last_poll (None, s) b ↔ b = last (s_items s)) ∧
  (∀ n b, consumed nth_poll (n, s) b ↔ b = s_items s !! n) ∧
  (∀ B (f : B → A → B) i b, consumed (fold_poll fuel f) (i, s) b ↔ b = foldl f i (s_items s)) ∧
  (∀ E (f : A → option E) b, consumed (try_for_each_poll fuel f) ((), s) b ↔ b = head (omap f (s_items s))) ∧
  (∀ f b, consumed (partition_poll fuel f) (([], []), s) b ↔
     b = (base.filter (λ a, f a = true) (s_items s), base.filter (λ a, f a = false) (s_items s))).
Proof.
  intros Hs Hf. split_and!; intros.
  - unfold all_poll. by rewrite once_consumed, run_all.
  - unfold any_poll. by rewrite once_consumed, run_any.
  - unfold count_poll. rewrite once_consumed, run_count by done. by rewrite Z.add_0_l.
  - unfold find_poll. by rewrite once_consumed, run_find.
  - unfold find_map_poll. by rewrite once_consumed, run_find_map.
  - unfold last_poll. rewrite once_consumed, run_last by done. by destruct (last (s_items s)).
  - unfold nth_poll. by rewrite once_consumed, run_nth.
  - unfold fold_poll. by rewrite loop_consumed, run_fold.
  - unfold try_for_each_poll. by rewrite loop_consumed, run_find_map.
  - unfold partition_poll. by rewrite loop_consumed, run_partition.
Qed.
End consumers_refine.

(** ** What the library gets wrong *)

(** A source that is not ready at every other poll. *)
Definition slow_stream := (bool * list Z)%type.
#[export] Instance slow_stream_stream : AsyncStream slow_stream Z := λ s,
  if s.1 then (Wait true, (false, s.2))
  else match s.2 with [] => (Next None, s) | a :: l => (Next (Some a), (true, l)) end.
#[export] Program Instance slow_stream_Stream : Stream slow_stream Z :=
  { s_wf _ := True; s_items s := s.2; s_left s := (2 * length s.2 + if s.1 then 1 else 0)%nat }.
Next Obligation. intros [[|] [|a l]] _; hnf; simpl; auto with lia. Qed.

(** A filter that drops an item, and a future that goes on after one, answer
    [Pending] without a wake-up: the task that polls them sleeps although its stream
    has more to give. *)
Lemma filter_does_not_wake {S A} `{AsyncStream S A} (s s' : S) p v :
  poll_next s = (Next (Some v), s') → p v = false → (poll_next (mk_filter s p)).1 = Wait false.
Proof.
  intros E Ep. change (poll_next (mk_filter s p)) with (filter_stream (mk_filter s p)).
  unfold filter_stream. cbn [fl_stream fl_p]. rewrite E. cbn. by rewrite Ep.
Qed.
Lemma consumer_does_not_wake {S A St B} `{AsyncStream S A} (k : St → A → B + St) e st st' (s s' : S) v :
  poll_next s = (Next (Some v), s') → k st v = inr st' → (once_poll k e (st, s)).1 = FWait false.
Proof. intros E Ek. unfold once_poll. cbn. rewrite E. by rewrite Ek. Qed.

(** [eq] takes a list for equal to its prefix, and [ne] does not see the difference. *)
Lemma eq_ignores_length :
  (eq_poll 9 Z.eqb (eq_new (L := FromIter Z) (R := FromIter Z) [1] [1; 2])).1 = FReady true ∧
  (ne_poll 9 Z.eqb (eq_new (L := FromIter Z) (R := FromIter Z) [1] [1; 2])).1 = FReady false.
Proof. done. Qed.

(** [eq] drops an item of its left stream when the right one is not ready. *)
Lemma eq_drops_item :
  consumed (eq_poll 9 Z.eqb) (eq_new (L := FromIter Z) (R := slow_stream) [1; 2] (true, [1; 2])) false.
Proof.
  eapply consumed_wait; [reflexivity|]. by eapply consumed_ready.
Qed.

(** The comparison takes equal streams for different when the right one is not
    ready at its end. *)
Lemma cmp_equal_is_less :
  consumed (partial_cmp_poll 9 (λ x y, Some (x ?= y)))
    (cmp_new (L := FromIter Z) (R := slow_stream) [1] (true, [1])) (Some Lt).
Proof.
  eapply consumed_wait; [reflexivity|]. eapply consumed_wait; [reflexivity|]. by eapply consumed_ready.
Qed.

(** ** Witnesses *)

Lemma stream_adaptors_refine_witness :
  s_wf ((true, [1; 2; 3]) : slow_stream) ∧
  collects (mk_filter ((true, [1; 2; 3]) : slow_stream) (λ a, negb (a =? 2))) [1; 3].
Proof.
  split; [exact I|].
  pose proof (stream_adaptors_refine (S := slow_stream) (U := FromIter Z) (true, [1; 2; 3]) [4]) as H.
  specialize (H I I). destruct H as (_ & H & _). by apply H.
Defined.

Lemma stream_concat_refine_witness :
  collects (mk_flatten (S := FromIter (FromIter Z)) (U := FromIter Z) [[1]; []; [2; 3]] None 4) [1; 2; 3].
Proof.
  pose proof (stream_concat_refine (S := FromIter Z) (T := FromIter (FromIter Z)) (U := FromIter Z) [] []
    [[1]; []; [2; 3]]) as H.
  specialize (H I I I). destruct H as (_ & H); [by repeat constructor|]. apply H; [simpl; lia|done].
Defined.

Lemma stream_consumers_refine_witness :
  consumed (find_poll (λ a, 1 <? a)) ((), (true, [1; 2; 3]) : slow_stream) (Some 2).
Proof.
  pose proof (stream_consumers_refine (S := slow_stream) (true, [1; 2; 3]) 4) as H.
  specialize (H I). destruct H as (_ & _ & _ & H & _); [simpl; lia|]. by apply H.
Defined.
