(* ===== verification/FsApi.v ===== *)
(** The file API of the kernel ([modules/async_fs/src/api]: [mod.rs], [file.rs],
    [dir.rs]): opening files with a builder, reading and writing whole files by
    their path, and the stream of the entries of a directory.

    An open file is a reader and a writer of [AsyncIo], a [ReadDir] a stream of
    [Streams]; the state of either carries the file system.  The futures of these
    nodes are never pending, so a call here is one poll of its future.  [None] is
    a call that spins on a directory lock ([RootFs]) or is out of fuel. *)

From S2P Require Import Prelude BTree Path Vfs VfsProps RootFs Fops UserMem Link AsyncIo Streams StreamsProps.

(** ** [OpenOptions] and [Metadata] ([file.rs]) *)

Definition options_new : OpenOptions :=
  {| o_read := false; o_write := false; o_append := false; o_truncate := false; o_create := false; o_create_new := false |}.
Definition set_read (b : bool) (o : OpenOptions) : OpenOptions :=
  {| o_read := b; o_write := o_write o; o_append := o_append o; o_truncate := o_truncate o;
     o_create := o_create o; o_create_new := o_create_new o |}.
Definition set_write (b : bool) (o : OpenOptions) : OpenOptions :=
  {| o_read := o_read o; o_write := b; o_append := o_append o; o_truncate := o_truncate o;
     o_create := o_create o; o_create_new := o_create_new o |}.
Definition set_append (b : bool) (o : OpenOptions) : OpenOptions :=
  {| o_read := o_read o; o_write := o_write o; o_append := b; o_truncate := o_truncate o;
     o_create := o_create o; o_create_new := o_create_new o |}.
Definition set_truncate (b : bool) (o : OpenOptions) : OpenOptions :=
  {| o_read := o_read o; o_write := o_write o; o_append := o_append o; o_truncate := b;
     o_create := o_create o; o_create_new := o_create_new o |}.
Definition set_create (b : bool) (o : OpenOptions) : OpenOptions :=
  {| o_read := o_read o; o_write := o_write o; o_append := o_append o; o_truncate := o_truncate o;
     o_create := b; o_create_new := o_create_new o |}.
Definition set_create_new (b : bool) (o : OpenOptions) : OpenOptions :=
  {| o_read := o_read o; o_write := o_write o; o_append := o_append o; o_truncate := o_truncate o;
     o_create := o_create o; o_create_new := b |}.

(** [Metadata] wraps the attributes of a node. *)
Record Metadata := mk_meta { md_attr : VfsNodeAttr }.
Definition md_file_type (m : Metadata) : VfsNodeType := at_ty (md_attr m).
Definition md_is_dir (m : Metadata) : bool := type_is_dir (at_ty (md_attr m)).
Definition md_is_file (m : Metadata) : bool := type_is_file (at_ty (md_attr m)).
Definition md_len (m : Metadata) : Z := at_size (md_attr m).
Definition md_permissions (m : Metadata) : Z := at_mode (md_attr m).
Definition md_set_permissions (perm : Z) (m : Metadata) : Metadata :=
  mk_meta {| at_mode := perm; at_ty := at_ty (md_attr m); at_size := at_size (md_attr m); at_blocks := at_blocks (md_attr m) |}.
Definition md_size (m : Metadata) : Z := at_size (md_attr m).
Definition md_blocks (m : Metadata) : Z := at_blocks (md_attr m).

(** ** An open file is a reader and a writer, and can be sought ([fops.rs]) *)
Section open_file.
Context `{Capability}.

Definition open_file : Type := gfs * File.

Definition file_poll_read (n : nat) (x : open_file) : poll (outcome (list Z)) * open_file :=
  let '(r, f) := file_read x.1 x.2 n in (Ready r, (x.1, f)).
#[export] Instance file_AsyncRead : AsyncRead open_file :=
  { poll_read := file_poll_read; poll_read_vectored := default_read_vectored file_poll_read }.

Definition file_poll_write (buf : list Z) (x : open_file) : poll (outcome nat) * open_file :=
  match poll_file_write x.1 x.2 buf with
  | (Ok (n, g), f) => (Ready (Ok (Z.to_nat n)), (g, f))
  | (Err e, f) => (Ready (Err e), (x.1, f))
  | (Panic, f) => (Ready Panic, (x.1, f))
  end.
Definition file_poll_flush (x : open_file) : poll (outcome unit) * open_file := (Ready (file_flush x.1 x.2), x).
#[export] Instance file_AsyncWrite : AsyncWrite open_file :=
  { poll_write := file_poll_write; poll_flush := file_poll_flush; poll_close := file_poll_flush }.

#[export] Instance file_AsyncSeek : AsyncSeek open_file := λ pos x,
  match poll_file_seek x.1 x.2 pos with
  | Ok (n, f) => (Ready (Ok n), (x.1, f))
  | Err e => (Ready (Err e), x)
  | Panic => (Ready Panic, x)
  end.

Definition set_len (g : gfs) (f : File) (size : Z) : outcome gfs := file_truncate g f size.
Definition file_metadata (g : gfs) (f : File) : outcome Metadata := attr ← file_get_attr g f; mret (mk_meta attr).
End open_file.

Section api.
Context (alive : nid → bool) `{Capability}.

Definition open_with (o : OpenOptions) (g : gfs) (path : str) : option (outcome (File * gfs)) := open_at alive g None path o.
Definition api_open := open_with (set_read true options_new).
Definition api_create := open_with (set_truncate true (set_create true (set_write true options_new))).
Definition api_create_new := open_with (set_create_new true (set_write true (set_read true options_new))).

(** ** Whole files by their path ([mod.rs]) *)

(** What the one poll of a future over an open file answers. *)
Definition settled {A S B} (x : option (poll (outcome A) * S * B)) : option (outcome (A * S * B)) :=
  match x with
  | Some (Ready (Ok a), s, b) => Some (Ok (a, s, b))
  | Some (Ready (Err e), _, _) => Some (Err e)
  | Some (Ready Panic, _, _) => Some Panic
  | _ => None
  end.

(** [with_capacity] of the size of the file, 0 when its metadata are not known. *)
Definition reserve (g : gfs) (f : File) : outcome unit :=
  match file_metadata g f with
  | Ok m => rassert (bool_decide (md_len m < 2 ^ 63))
  | Err _ => Ok ()
  | Panic => Panic
  end.

(** [fuel] bounds the reads of 32 bytes. *)
Definition api_read (fuel : nat) (g : gfs) (path : str) : option (outcome (list Z)) :=
  let! x := api_open g path in
  let! _ := Some (reserve x.2 x.1) in
  let! y := settled (read_to_end_internal fuel (x.2, x.1) [] 0) in
  Some (Ok y.2).

(** The string, as the bytes of its encoding. *)
Definition api_read_to_string (fuel : nat) (g : gfs) (path : str) : option (outcome (list Z)) :=
  let! x := api_open g path in
  let! _ := Some (reserve x.2 x.1) in
  match read_to_string_poll fuel (read_to_string (x.2, x.1) []) with
  | Some (Ready (Ok _), s) => Some (Ok (rs_buf s))
  | Some (Ready (Err e), _) => Some (Err e)
  | Some (Ready Panic, _) => Some Panic
  | _ => None
  end.

(** [fuel] bounds the writes. *)
Definition api_write (fuel : nat) (g : gfs) (path : str) (contents : list Z) : option (outcome gfs) :=
  let! x := api_create g path in
  let! y := settled (write_all_poll fuel (x.2, x.1) contents) in
  Some (Ok y.1.2.1).

Definition api_metadata (g : gfs) (path : str) : option (outcome Metadata) :=
  let! x := api_open g path in Some (file_metadata x.2 x.1).

Definition api_canonicalize (g : gfs) (path : str) : outcome str := absolute_path g path.
Definition api_current_dir (g : gfs) : outcome str := Ok (cur_path g).
Definition api_set_current_dir (g : gfs) (path : str) : outcome gfs := set_current_dir alive g path.
Definition api_remove_dir (g : gfs) (path : str) : option (outcome gfs) := remove_dir alive g None path.
Definition api_remove_file (g : gfs) (path : str) : option (outcome gfs) := remove_file alive g None path.
Definition api_rename (g : gfs) (old new : str) : option (outcome gfs) := rename alive g old new.
Definition api_path_exists (g : gfs) (path : str) : bool := is_ok (fs_lookup alive g None path).
Definition api_lookup (g : gfs) (path : str) : outcome vnode := fs_lookup alive g None path.

(** ** Directories ([dir.rs]) *)

Record DirBuilder := { recursive : bool }.
Definition builder_new : DirBuilder := {| recursive := false |}.
Definition set_recursive (b : bool) (_ : DirBuilder) : DirBuilder := {| recursive := b |}.
Definition builder_create_dir_all (g : gfs) (path : str) : option (outcome gfs) := Some (Err Unsupported).
Definition builder_create (b : DirBuilder) (g : gfs) (path : str) : option (outcome gfs) :=
  if recursive b then builder_create_dir_all g path else create_dir alive g None path.
Definition api_create_dir := builder_create builder_new.
Definition api_create_dir_all := builder_create (set_recursive true builder_new).

(** [ReadDir]: the directory, and the entries it has read ahead. *)
Record ReadDir := mk_readdir {
  rdr_path : str; rdr_inner : Directory; rdr_buf_pos : nat; rdr_buf_end : nat;
  rdr_end_of_stream : bool; rdr_dirent_buf : list VfsDirEntry }.
Record DirEntry := mk_entry { de_dir_path : str; de_name : list Z; de_type : VfsNodeType }.

Definition DIRENTS : nat := 31.
(** [VfsDirEntry::default]. *)
Definition EMPTY_DIRENT : VfsDirEntry := {| d_type := TFile; d_name := replicate DIRENT_NAME 0 |}.

Definition readdir_new (g : gfs) (path : str) : outcome ReadDir :=
  inner ← open_dir_at alive g None path (set_read true options_new);
  mret (mk_readdir path inner 0 0 false (replicate DIRENTS EMPTY_DIRENT)).
Definition api_read_dir := readdir_new.

(** The full path of an entry, as bytes. *)
Definition de_path (e : DirEntry) : list Z :=
  utf8 (reverse (trim_start_slash (reverse (de_dir_path e)))) ++ [SLASH] ++ de_name e.
End api.

Section read_dir.
Context `{Capability}.

Definition readdir_state : Type := gfs * ReadDir.
Notation item := (outcome DirEntry).

(** The buffer is filled when it is used up; what is returned early is [inl]. *)
Definition refill (x : readdir_state) : (npoll item * readdir_state) + readdir_state :=
  let '(g, r) := x in
  if decide (rdr_buf_end r ≤ rdr_buf_pos r)%nat then
    match dir_read_dir g (rdr_inner r) DIRENTS with
    | (Ok [], inner) => inl (Next None, (g, mk_readdir (rdr_path r) inner (rdr_buf_pos r) (rdr_buf_end r) true (rdr_dirent_buf r)))
    | (Ok es, inner) =>
        inr (g, mk_readdir (rdr_path r) inner 0 (length es) (rdr_end_of_stream r) (es ++ drop (length es) (rdr_dirent_buf r)))
    | (Err e, inner) =>
        inl (Next (Some (Err e)), (g, mk_readdir (rdr_path r) inner (rdr_buf_pos r) (rdr_buf_end r) true (rdr_dirent_buf r)))
    | (Panic, inner) => inl (Next (Some Panic), (g, r))
    end
  else inr x.

Definition dot_name (bs : list Z) : Prop := bs = [DOT] ∨ bs = [DOT; DOT].
#[export] Instance dot_name_dec bs : Decision (dot_name bs).
Proof. unfold dot_name. apply _. Defined.

(** The loop of [poll_next]: a turn looks at one entry, and passes over [.] and
    [..]. *)
Fixpoint next_entry (fuel : nat) (x : readdir_state) : npoll item * readdir_state :=
  match fuel with
  | O => (Spin, x)
  | S fuel =>
      match refill x with
      | inl y => y
      | inr (g, r) =>
          match rdr_dirent_buf r !! rdr_buf_pos r with
          | None => (Next (Some Panic), (g, r))
          | Some entry =>
              let r := mk_readdir (rdr_path r) (rdr_inner r) (S (rdr_buf_pos r)) (rdr_buf_end r)
                         (rdr_end_of_stream r) (rdr_dirent_buf r) in
              let name_bytes := name_as_bytes (d_name entry) in
              if decide (dot_name name_bytes) then next_entry fuel (g, r)
              else (Next (Some (Ok (mk_entry (rdr_path r) name_bytes (d_type entry)))), (g, r))
          end
      end
  end.

(** A directory lists [.] and [..] once, so three turns find an entry or the end. *)
#[export] Instance readdir_stream : AsyncStream readdir_state item := λ x,
  if rdr_end_of_stream x.2 then (Next None, x) else next_entry 3 x.
End read_dir.
