(* ===== verification/FsApiProps.v ===== *)
(** What the file API promises: a file written under a path is read back under
    it, and the stream of a directory delivers its entries. *)

From S2P Require Import Prelude BTree Path Vfs VfsProps RootFs Fops UserMem Link AsyncIo Streams StreamsProps FsApi.

(** ** Contents do not matter to paths *)

Section frame.
Context (alive : nid → bool).

(** Two stores with the same directories. *)
Definition same_dirs (s s' : fs) : Prop := ∀ n, dir_of s' n = dir_of s n.

Lemma lookup_same s s' n path : same_dirs s s' → lookup alive s' n path = lookup alive s n path.
Proof.
  intros Hs. unfold lookup. generalize (S (length path)) as fuel. intros fuel. revert n path.
  induction fuel as [|fuel IH]; intros n path; [done|]. cbn [lookup_fuel].
  destruct (split_path path) as [name rest].
  assert (lookup_step alive s' n name = lookup_step alive s n name) as ->.
  { unfold lookup_step, parent_of. by rewrite Hs. }
  destruct (lookup_step alive s n name); [|done..]. simpl. by destruct rest.
Qed.

Lemma set_file_same s n c c' : nodes s !! n = Some (FileNode c) → same_dirs s (set_node n (FileNode c') s).
Proof.
  intros Hn m. unfold dir_of. simpl. destruct (decide (m = n)) as [->|Hm].
  - by rewrite lookup_insert_eq, Hn.
  - by rewrite lookup_insert_ne.
Qed.

Lemma vlookup_same g s v path : same_dirs (store g) s → vlookup alive (with_store g s) v path = vlookup alive g v path.
Proof.
  intros Hs. destruct v as [|n]; simpl.
  - destruct (lookup_mounted_fs _ _) as [[n rest]| |]; [|done..]. simpl. by rewrite (lookup_same _ _ _ _ Hs).
  - by rewrite (lookup_same _ _ _ _ Hs).
Qed.

(** A path that leads to a file leads to it whatever the file holds. *)
Lemma fs_lookup_file g path n c c' : nodes (store g) !! n = Some (FileNode c) →
  fs_lookup alive g None path = Ok (VNode n) →
  fs_lookup alive (with_store g (set_node n (FileNode c') (store g))) None path = Ok (VNode n).
Proof.
  intros Hn. unfold fs_lookup. case_decide; [done|].
  assert (parent_node_of (with_store g (set_node n (FileNode c') (store g))) None path = parent_node_of g None path) as -> by done.
  rewrite (vlookup_same _ _ _ _ (set_file_same _ _ _ c' Hn)).
  destruct (vlookup alive g _ path) as [v| |]; [|done..]. simpl. destruct (ends_with_slash path); [|done].
  destruct (vget_attr g v) as [attr| |] eqn:Ea; [|done..]. simpl.
  destruct (type_is_dir (at_ty attr)) eqn:Ed; simpl; [|done]. intros [= ->].
  simpl in Ea. unfold get_attr in Ea. rewrite Hn in Ea. by injection Ea as <-.
Qed.
End frame.

(** ** Writing and reading a file by its path *)

Section files.
Context (alive : nid → bool) `{CapabilityLaws}.

(** A handle on a file, at its start. *)
Definition handle (n : nid) (cap : Z) : File := {| f_node := VNode n; f_cap := cap; is_append := false; f_offset := 0 |}.

Lemma open_read_file g path n c : nodes (store g) !! n = Some (FileNode c) →
  fs_lookup alive g None path = Ok (VNode n) → api_open alive g path = Some (Ok (handle n CAP_READ, g)).
Proof.
  intros Hn Hl. unfold api_open, open_with, open_at. cbn. rewrite Hl. cbn. unfold get_attr. by rewrite Hn.
Qed.

Lemma take_drop_length {A} k (l : list A) : take k l ++ drop (length (take k l)) l = l.
Proof.
  rewrite length_take. destruct (Nat.min_spec k (length l)) as [[Hk ->]|[Hk ->]]; [apply take_drop|].
  by rewrite take_ge, drop_all, app_nil_r.
Qed.

(** Reading on from a cursor to the end. *)
Lemma read_rest fuel g f n c start : ∀ buf,
  f_node f = VNode n → nodes (store g) !! n = Some (FileNode c) → cap_contains (f_cap f) CAP_READ = true →
  0 ≤ f_offset f ≤ Z.of_nat (length c) → Z.of_nat (length c) < 2 ^ 63 → (length c - Z.to_nat (f_offset f) < fuel)%nat →
  ∃ x, read_to_end_internal fuel (g, f) buf start =
    Some (Ready (Ok (length buf + (length c - Z.to_nat (f_offset f)) - start)%nat), x, buf ++ drop (Z.to_nat (f_offset f)) c).
Proof.
  revert f. induction fuel as [|fuel IH]; intros f buf Hn Hc Hcap Hoff Hlen Hf; [lia|]. cbn [read_to_end_internal].
  unfold poll_read. cbn [file_AsyncRead]. unfold file_poll_read. cbn [fst snd].
  rewrite (file_read_content g f n c PROBE) by (done || (unfold two64, PROBE; lia)).
  destruct (take PROBE (drop (Z.to_nat (f_offset f)) c)) as [|b bs] eqn:Eb.
  - assert (Hnil : drop (Z.to_nat (f_offset f)) c = []) by (by destruct (drop _ c)).
    apply (f_equal length) in Hnil as Hl. rewrite length_drop in Hl. cbn in Hl. eexists.
    by rewrite Hnil, app_nil_r, Hl, Nat.add_0_r.
  - set (f' := with_offset f _).
    assert (Hd : (length (b :: bs) ≤ length c - Z.to_nat (f_offset f))%nat) by (rewrite <- Eb, length_take, length_drop; lia).
    assert (Hoff' : Z.to_nat (f_offset f') = (Z.to_nat (f_offset f) + length (b :: bs))%nat) by (cbn in *; lia).
    edestruct (IH f' (buf ++ b :: bs)) as [x Hx]; [done..| |done| |].
    { cbn in *. lia. }
    { rewrite Hoff'. cbn in *. lia. }
    exists x. rewrite Hx, Hoff', <- app_assoc.
    assert (Hdrop : (b :: bs) ++ drop (Z.to_nat (f_offset f) + length (b :: bs)) c = drop (Z.to_nat (f_offset f)) c).
    { rewrite <- Eb, <- drop_drop. apply take_drop_length. }
    rewrite Hdrop, length_app.
    by replace (length buf + length (b :: bs) + (length c - (Z.to_nat (f_offset f) + length (b :: bs))) - start)%nat
      with (length buf + (length c - Z.to_nat (f_offset f)) - start)%nat by lia.
Qed.

Lemma api_read_file fuel g path n c : nodes (store g) !! n = Some (FileNode c) →
  fs_lookup alive g None path = Ok (VNode n) → Z.of_nat (length c) < 2 ^ 63 → (length c < fuel)%nat →
  api_read alive fuel g path = Some (Ok c).
Proof.
  intros Hn Hl Hlen Hf. unfold api_read. rewrite (open_read_file g path n c) by done. cbn [hbind fst snd].
  assert (reserve g (handle n CAP_READ) = Ok ()) as ->.
  { unfold reserve, file_metadata, Fops.file_get_attr. rewrite cap_access_spec. cbn. unfold get_attr. rewrite Hn. cbn.
    change (cap_contains CAP_READ 0) with true. cbn. unfold md_len. cbn. by rewrite bool_decide_eq_true_2. }
  cbn [hbind]. destruct (read_rest fuel g (handle n CAP_READ) n c 0 []) as [x ->]; [done..|cbn; lia|done|cbn; lia|]. done.
Qed.

(** Where a path leads when it is opened to be written: to a file there is, or to
    one that is made for it. *)
Definition target (g : gfs) (path : str) (n : nid) (g1 : gfs) : Prop :=
  (fs_lookup alive g None path = Ok (VNode n) ∧ g1 = g) ∨
  (fs_lookup alive g None path = Err NotFound ∧ create_file alive g None path = Some (Ok (VNode n, g1))).

Lemma vcreate_cur_dir g v path ty g1 : vcreate alive g v path ty = Some (Ok g1) → cur_dir g1 = cur_dir g.
Proof.
  assert (Hin : ∀ x, in_store g x = Some (Ok g1) → cur_dir g1 = cur_dir g).
  { intros [[x| |]|]; cbn; intros; by simplify_eq. }
  unfold vcreate. destruct v as [|m]; [|apply Hin].
  destruct (lookup_mounted_fs _ path) as [[m rest]| |]; [|done..]. case_decide; [by intros [= ->]|apply Hin].
Qed.

Lemma create_file_lookup g path n g1 c : create_file alive g None path = Some (Ok (VNode n, g1)) →
  nodes (store g1) !! n = Some (FileNode c) → fs_lookup alive g1 None path = Ok (VNode n).
Proof.
  unfold create_file, fs_lookup. intros Hc Hn. destruct (decide (path = [])); [done|].
  destruct (ends_with_slash path) eqn:Es; [done|].
  destruct (vcreate alive g _ path TFile) as [[g2| |]|] eqn:Ec; [|done..]. cbn in Hc.
  destruct (vlookup alive g2 _ path) as [v| |] eqn:El; [|done..]. cbn in Hc. simplify_eq.
  assert (parent_node_of g1 None path = parent_node_of g None path) as ->; [|by rewrite El].
  unfold parent_node_of. by rewrite (vcreate_cur_dir _ _ _ _ _ Ec).
Qed.

Lemma target_found g path n g1 c : target g path n g1 → nodes (store g1) !! n = Some (FileNode c) →
  fs_lookup alive g1 None path = Ok (VNode n).
Proof. intros [[? ->]|[_ Hc]] Hn; [done|by eapply create_file_lookup]. Qed.

Lemma open_create_file g path n g1 c : target g path n g1 → nodes (store g1) !! n = Some (FileNode c) →
  api_create alive g path = Some (Ok (handle n CAP_WRITE, with_store g1 (set_node n (FileNode []) (store g1)))).
Proof.
  intros Ht Hn. unfold api_create, open_with, open_at. cbn [is_valid].
  assert (Htr : vtruncate g1 (VNode n) 0 = Ok (with_store g1 (set_node n (FileNode []) (store g1)))).
  { cbn. unfold truncate. rewrite Hn. case_decide; [done|]. by destruct c. }
  destruct Ht as [[Hl ->]|[Hl Hc]]; cbn in *; rewrite Hl; [|rewrite Hc]; cbn; unfold get_attr; rewrite Hn; cbn; unfold truncate in *;
    rewrite Hn in *; cbn in *; destruct (decide _); cbn in *; by simplify_eq.
Qed.

(** ** What is not written stays *)

Lemma create_node_file held d p ch name ty s s' m c : create_node held d p ch name ty s = Some (Ok s') →
  dir_of s d = Some (p, ch) → nodes s !! m = Some (FileNode c) → m ≠ next_id s → nodes s' !! m = Some (FileNode c).
Proof.
  intros Hc Hd Hm Hne. assert (m ≠ d) by (intros ->; unfold dir_of in Hd; by rewrite Hm in Hd).
  unfold create_node in Hc. destruct (bt_contains_key name ch); [done|].
  destruct (match ty with TDir => _ | TFile => _ | _ => _ end) as [nd|]; [|done]. case_decide; [done|].
  cbn in Hc. simplify_eq. cbn. by rewrite !lookup_insert_ne.
Qed.

Lemma create_keeps_file s d path ty s' m c : create alive s d path ty = Some (Ok s') →
  nodes s !! m = Some (FileNode c) → m ≠ next_id s → nodes s' !! m = Some (FileNode c).
Proof.
  unfold create. generalize (S (length path)) as fuel, (∅ : gset nat) as held. intros fuel. revert d path.
  induction fuel as [|fuel IH]; intros d path held Hc Hm Hne; [done|]. cbn [walk_fuel] in Hc.
  destruct (dir_of s d) as [[p ch]|] eqn:Ed; [|done]. destruct (split_path path) as [name [rest|]].
  - repeat case_decide; [by eapply IH| |].
    + destruct (parent_of alive d s); [by eapply IH|done].
    + destruct (bt_get name ch); [by eapply IH|done].
  - unfold create_leaf in Hc. unfold dir_of in Ed.
    destruct (nodes s !! d) as [nd|] eqn:En; [|done]. destruct nd; try done; case_decide; simplify_eq; try done.
    eapply create_node_file; [done| |done..]. unfold dir_of. by rewrite En.
Qed.

Lemma create_file_keeps g path v g1 m c : create_file alive g None path = Some (Ok (v, g1)) →
  nodes (store g) !! m = Some (FileNode c) → m ≠ next_id (store g) → nodes (store g1) !! m = Some (FileNode c).
Proof.
  unfold create_file. intros Hc Hm Hne. destruct (decide (path = [])); [done|]. destruct (ends_with_slash path); [done|].
  destruct (vcreate alive g _ path TFile) as [[g2| |]|] eqn:Ec; [|done..]. cbn in Hc.
  destruct (vlookup alive g2 _ path) as [v'| |]; [|done..]. cbn in Hc. simplify_eq.
  assert (Hin : ∀ d rest, in_store g (create alive (store g) d rest TFile) = Some (Ok g1) → nodes (store g1) !! m = Some (FileNode c)).
  { intros d rest Hi. destruct (create alive (store g) d rest TFile) as [[s'| |]|] eqn:E1; cbn in Hi; [|done..].
    simplify_eq. by eapply create_keeps_file. }
  unfold vcreate in Ec. destruct (parent_node_of g None path) as [|d]; [|by eapply Hin].
  destruct (lookup_mounted_fs _ path) as [[d rest]| |]; [|done..]. case_decide; [by simplify_eq|by eapply Hin].
Qed.

(** Writing into an empty file at its start. *)
Lemma write_fresh g n buf : nodes (store g) !! n = Some (FileNode []) → Z.of_nat (length buf) < 2 ^ 63 →
  poll_file_write g (handle n CAP_WRITE) buf =
    (Ok (Z.of_nat (length buf), with_store g (set_node n (FileNode buf) (store g))),
     with_offset (handle n CAP_WRITE) (wrap64 (Z.of_nat (length buf)))).
Proof.
  intros Hn Hl. unfold poll_file_write. cbn [f_cap handle is_append f_node f_offset]. rewrite cap_access_spec.
  change (cap_contains CAP_WRITE CAP_WRITE) with true. unfold vwrite_at, write_at. rewrite Hn, Z.add_0_l.
  rewrite wrap64_small by (unfold is_u64, two64; lia). cbn [length].
  assert ((if decide (Z.of_nat (length buf) > Z.of_nat 0) then resize [] (Z.of_nat (length buf)) else Ok []) =
          Ok (replicate (length buf) 0)) as ->.
  { case_decide; [|by destruct buf]. unfold resize. rewrite decide_True by lia. rewrite take_nil, Nat2Z.id. cbn. by rewrite Nat.sub_0_r. }
  rewrite bind_Ok, decide_True by lia. cbn. rewrite drop_ge by (rewrite length_replicate; lia).
  change (Z.to_nat 0) with 0%nat. by rewrite take_0, app_nil_r, Z.add_0_l, wrap64_small by (unfold is_u64, two64; lia).
Qed.

(** C26: A file of a RAM file system written by its path is read back by its path:
    where the path leads, through mounts and relative to the current directory, to a
    file of a RAM file system, or to none and one can be made there, and the bytes are
    fewer than 2^63, [write] succeeds and leaves there exactly the bytes given,
    whatever the file held before; [read] of the path then gives these bytes, and every
    other file of the RAM file systems holds what it did.  A main file system that is
    FAT or ext4 is not covered. *)
Theorem path_write_read (fuel : nat) (g g1 : gfs) (path : str) (n : nid) (old contents : list Z)
  (Ht : target g path n g1) (Hn : nodes (store g1) !! n = Some (FileNode old))
  (Hlen : Z.of_nat (length contents) < 2 ^ 63) (Hf : (length contents < fuel)%nat) :
  ∃ g', api_write alive 2 g path contents = Some (Ok g') ∧ api_read alive fuel g' path = Some (Ok contents) ∧
    ∀ m c, nodes (store g) !! m = Some (FileNode c) → m ≠ n → m ≠ next_id (store g) → nodes (store g') !! m = Some (FileNode c).
Proof.
  set (s1 := set_node n (FileNode contents) (store g1)). exists (with_store g1 s1). split_and!.
  - unfold api_write. rewrite (open_create_file g path n g1 old) by done. cbn [hbind fst snd].
    set (g2 := with_store g1 _).
    assert (Hw : ∃ f, write_all_poll 2 (g2, handle n CAP_WRITE) contents = Some (Ready (Ok ()), (with_store g1 s1, f), [])).
    { destruct contents as [|b bs]; [by eexists|]. cbn [write_all_poll]. unfold poll_write. cbn [file_AsyncWrite].
      unfold file_poll_write. cbn [fst snd]. rewrite write_fresh; [|by cbn; rewrite lookup_insert_eq|done]. eexists.
      rewrite Nat2Z.id, drop_all, decide_False, decide_False by (cbn; lia). do 4 f_equal. unfold with_store, set_node, s1. cbn.
      by rewrite insert_insert_eq. }
    destruct Hw as [f ->]. done.
  - apply (api_read_file fuel _ path n contents); [|by eapply fs_lookup_file, target_found|done..].
    cbn. by rewrite lookup_insert_eq.
  - intros m c Hm Hne Hnext. cbn. rewrite lookup_insert_ne by done.
    destruct Ht as [[_ ->]|[_ Hc]]; [done|by eapply create_file_keeps].
Qed.
End files.

(** ** The entries of a directory *)

(** The entry of a child, and the whole listing of a directory. *)
Definition raw_entry (s : fs) (e : str * nid) : option VfsDirEntry :=
  match get_attr e.2 s with
  | Ok attr => match dirent_new e.1 (at_ty attr) with Ok d => Some d | _ => None end
  | _ => None
  end.
Definition dot_entry : VfsDirEntry := {| d_type := TDir; d_name := DOT :: replicate 62 0 |}.
Definition dotdot_entry : VfsDirEntry := {| d_type := TDir; d_name := DOT :: DOT :: replicate 61 0 |}.
Definition children (g : gfs) (v : vnode) : list (str * nid) :=
  match v with
  | VRoot => []
  | VNode n => match dir_of (store g) n with Some (_, ch) => ch | None => [] end
  end.
Definition listed (g : gfs) (v : vnode) : list VfsDirEntry :=
  dot_entry :: dotdot_entry :: omap (raw_entry (store g)) (children g v).

#[global] Arguments listed : simpl never.

(** What the stream shows of a listing. *)
Definition show_entry (path : str) (e : VfsDirEntry) : option (outcome DirEntry) :=
  let bs := name_as_bytes (d_name e) in
  if decide (dot_name bs) then None else Some (Ok (mk_entry path bs (d_type e))).
Definition shown (path : str) (es : list VfsDirEntry) : list (outcome DirEntry) := omap (show_entry path) es.

(** Where the stream is: what has been read, less what is still in the buffer. *)
Definition at_entry (r : ReadDir) : nat := Z.to_nat (entry_idx (rdr_inner r)) - (rdr_buf_end r - rdr_buf_pos r).

Section readdir.
Context `{CapabilityLaws}.

(** A directory whose entries can all be listed, no child of which is named like
    a dot entry. *)
Record listable (g : gfs) (v : vnode) : Prop := {
  li_dir : ∃ n p, v = VNode n ∧ dir_of (store g) n = Some (p, children g v);
  li_entries : Forall (λ e, is_Some (raw_entry (store g) e)) (children g v);
  li_names : Forall (λ d, ¬ dot_name (name_as_bytes (d_name d))) (omap (raw_entry (store g)) (children g v));
  li_len : Z.of_nat (length (listed g v)) < 2 ^ 63 }.

Record readdir_wf (x : readdir_state) : Prop := {
  rw_list : listable x.1 (d_node (rdr_inner x.2));
  rw_cap : cap_contains (d_cap (rdr_inner x.2)) CAP_READ = true;
  rw_idx : 0 ≤ entry_idx (rdr_inner x.2) ≤ Z.of_nat (length (listed x.1 (d_node (rdr_inner x.2))));
  rw_pos : (rdr_buf_pos x.2 ≤ rdr_buf_end x.2)%nat;
  rw_ahead : (rdr_buf_end x.2 - rdr_buf_pos x.2 ≤ Z.to_nat (entry_idx (rdr_inner x.2)))%nat;
  rw_buf : ∀ i, (i < rdr_buf_end x.2 - rdr_buf_pos x.2)%nat →
    rdr_dirent_buf x.2 !! (rdr_buf_pos x.2 + i)%nat = listed x.1 (d_node (rdr_inner x.2)) !! (at_entry x.2 + i)%nat }.

Definition readdir_items (x : readdir_state) : list (outcome DirEntry) :=
  if rdr_end_of_stream x.2 then [] else shown (rdr_path x.2) (drop (at_entry x.2) (listed x.1 (d_node (rdr_inner x.2)))).
Definition readdir_left (x : readdir_state) : nat :=
  length (listed x.1 (d_node (rdr_inner x.2))) - at_entry x.2.

Lemma forall2_entries g v : listable g v → Forall2 (child_entry (store g)) (children g v) (omap (raw_entry (store g)) (children g v)).
Proof.
  intros [_ He _ _]. induction He as [|e ch [d Hd] _ IH]; [constructor|]. cbn. rewrite Hd. constructor; [|exact IH].
  unfold raw_entry in Hd. destruct (get_attr e.2 (store g)) as [attr| |] eqn:Ea; [|done..]. exists attr. split; [done|].
  destruct (dirent_new e.1 (at_ty attr)); by simplify_eq.
Qed.

(** One read of the directory. *)
Lemma read_dir_listed g d : listable g (d_node d) → cap_contains (d_cap d) CAP_READ = true →
  0 ≤ entry_idx d ≤ Z.of_nat (length (listed g (d_node d))) →
  let es := take DIRENTS (drop (Z.to_nat (entry_idx d)) (listed g (d_node d))) in
  dir_read_dir g d DIRENTS =
    (Ok es, {| d_node := d_node d; d_cap := d_cap d; entry_idx := entry_idx d + Z.of_nat (length es) |}).
Proof.
  intros Hl Hcap Hidx es. pose proof (li_len _ _ Hl) as Hlen. destruct (li_dir _ _ Hl) as (n & p & Hv & Hd).
  unfold dir_read_dir. rewrite cap_access_spec, Hcap, bind_Ok. rewrite Hv at 1. cbn [vread_dir].
  rewrite (read_dir_window (store g) n p (children g (d_node d)) (omap (raw_entry (store g)) (children g (d_node d)))
    (entry_idx d) DIRENTS dot_entry dotdot_entry); try done.
  - fold (listed g (d_node d)). fold es. do 2 f_equal. apply wrap64_small.
    assert (length es ≤ length (listed g (d_node d)))%nat by (unfold es; rewrite length_take, length_drop; lia).
    unfold is_u64, two64. lia.
  - by apply forall2_entries.
  - lia.
  - unfold DIRENTS, two64. lia.
Qed.

(** A turn of the loop: the end, or an entry in the buffer. *)
Lemma refill_ok x : readdir_wf x →
  match refill x with
  | inl (p, _) => p = Next None ∧ (length (listed x.1 (d_node (rdr_inner x.2))) ≤ at_entry x.2)%nat
  | inr x' => readdir_wf x' ∧ (rdr_buf_pos x'.2 < rdr_buf_end x'.2)%nat ∧ x'.1 = x.1 ∧ at_entry x'.2 = at_entry x.2 ∧
      rdr_path x'.2 = rdr_path x.2 ∧ d_node (rdr_inner x'.2) = d_node (rdr_inner x.2) ∧
      rdr_end_of_stream x'.2 = rdr_end_of_stream x.2
  end.
Proof.
  destruct x as [g [path d pos end_ eos buf]]. intros Hx. pose proof Hx as [Hl Hcap Hidx Hpos Hah Hbuf]. unfold at_entry in *. cbn in *.
  case_decide as Hfull; [|by split; [exact Hx|split; [cbn; lia|]]].
  rewrite read_dir_listed by done. set (es := take DIRENTS (drop _ _)).
  assert (Hes : (Z.to_nat (entry_idx d) + length es ≤ length (listed g (d_node d)))%nat)
    by (unfold es; rewrite length_take, length_drop; lia).
  destruct es as [|e es'] eqn:Ees.
  - split; [done|]. assert (Hnil : drop (Z.to_nat (entry_idx d)) (listed g (d_node d)) = []) by (by destruct (drop _ (listed _ _))).
    apply (f_equal length) in Hnil. rewrite length_drop in Hnil. cbn in Hnil. lia.
  - assert (Hat : (Z.to_nat (entry_idx d + Z.of_nat (length (e :: es'))) - (length (e :: es') - 0) = Z.to_nat (entry_idx d) - (end_ - pos))%nat) by lia.
    unfold at_entry. split_and!; try done; cbn [fst snd rdr_buf_pos rdr_buf_end rdr_inner entry_idx]; [|cbn; lia].
    split; unfold at_entry; cbn [fst snd rdr_buf_pos rdr_buf_end rdr_inner rdr_dirent_buf d_node d_cap entry_idx]; try done; try lia.
    intros i Hi. rewrite Hat, Nat.add_0_l, lookup_app_l by lia. rewrite <- Ees. unfold es.
    assert (i < DIRENTS)%nat.
    { apply (f_equal length) in Ees. unfold es in Ees. rewrite length_take in Ees. lia. }
    rewrite lookup_take_lt, lookup_drop by done. f_equal. lia.
Qed.

(** Past the two dot entries every entry is shown. *)
Lemma listed_shown g v i e : listable g v → (2 ≤ i)%nat → listed g v !! i = Some e → ¬ dot_name (name_as_bytes (d_name e)).
Proof.
  intros [_ _ Hn _] Hi He. destruct i as [|[|i]]; [lia..|]. unfold listed in He. cbn in He. rewrite Forall_forall in Hn.
  apply Hn. by eapply list_elem_of_lookup_2.
Qed.

Definition bump (r : ReadDir) : ReadDir :=
  mk_readdir (rdr_path r) (rdr_inner r) (S (rdr_buf_pos r)) (rdr_buf_end r) (rdr_end_of_stream r) (rdr_dirent_buf r).

Lemma bump_ok g r : readdir_wf (g, r) → (rdr_buf_pos r < rdr_buf_end r)%nat →
  readdir_wf (g, bump r) ∧ at_entry (bump r) = S (at_entry r).
Proof.
  destruct r as [path d pos end_ eos buf]. intros [Hl Hcap Hidx Hpos Hah Hbuf] Hlt. unfold at_entry in *. cbn in *.
  assert (Hat : (Z.to_nat (entry_idx d) - (end_ - S pos) = S (Z.to_nat (entry_idx d) - (end_ - pos)))%nat) by lia.
  split; [|done]. split; unfold at_entry; cbn; try done; try lia. intros i Hi. specialize (Hbuf (S i) ltac:(lia)).
  rewrite Nat.add_succ_r in Hbuf. rewrite Hat. rewrite <- Nat.add_succ_comm in Hbuf. by rewrite Hbuf.
Qed.

Lemma next_entry_ok fuel : ∀ x, readdir_wf x → rdr_end_of_stream x.2 = false → (2 - at_entry x.2 < fuel)%nat →
  next_ok readdir_wf readdir_items readdir_left x (next_entry fuel x).
Proof.
  induction fuel as [|fuel IH]; intros x Hx Heos Hf; [lia|]. cbn [next_entry].
  pose proof (refill_ok x Hx) as Hr. destruct (refill x) as [[p x']|[g r]].
  { destruct Hr as [-> Hend]. unfold next_ok, readdir_items. cbn [fst snd]. rewrite Heos. unfold shown. by rewrite drop_ge. }
  destruct Hr as (Hw & Hlt & Hg & Hat & Hp & Hd & He). destruct x as [g0 r0]. cbn [fst snd] in *. subst g0.
  pose proof (rw_buf _ Hw 0 ltac:(cbn; lia)) as Hb. cbn [fst snd] in Hb. rewrite !Nat.add_0_r in Hb. rewrite Hb.
  destruct (bump_ok g r Hw Hlt) as [Hw' Hat']. pose proof (rw_idx _ Hw) as Hidx. pose proof (rw_ahead _ Hw) as Hah. cbn [fst snd] in Hidx, Hah.
  assert (Hin : (at_entry r < length (listed g (d_node (rdr_inner r))))%nat) by (unfold at_entry; lia).
  destruct (lookup_lt_is_Some_2 _ _ Hin) as [e Hel]. rewrite Hel. fold (bump r).
  assert (Hitems : readdir_items (g, r0) = shown (rdr_path r) [e] ++ readdir_items (g, bump r)).
  { unfold readdir_items. cbn [fst snd]. rewrite Heos. change (rdr_end_of_stream (bump r)) with (rdr_end_of_stream r).
    rewrite He, Heos, <- Hp, <- Hat, <- Hd, Hat'. change (rdr_inner (bump r)) with (rdr_inner r).
    change (rdr_path (bump r)) with (rdr_path r). rewrite (drop_S _ _ _ Hel). unfold shown. cbn.
    by destruct (show_entry (rdr_path r) e). }
  assert (Hleft : (readdir_left (g, bump r) < readdir_left (g, r0))%nat).
  { unfold readdir_left. cbn [fst snd]. rewrite <- Hat, <- Hd, Hat'. change (rdr_inner (bump r)) with (rdr_inner r). lia. }
  case_decide as Hdot.
  - assert (Hk : (at_entry r < 2)%nat).
    { destruct (decide (at_entry r < 2)%nat); [done|]. exfalso. eapply (listed_shown g _ (at_entry r) e); [apply (rw_list _ Hw)|lia|done..]. }
    apply (next_ok_from _ _ _ (g, bump r)).
    + apply IH; [done|by rewrite <- Heos, <- He|]. cbn [snd]. rewrite Hat'. lia.
    + rewrite Hitems. unfold shown. cbn. unfold show_entry. by rewrite decide_True.
    + lia.
  - unfold next_ok. cbn [fst snd]. split; [done|]. split; [|done]. rewrite Hitems. unfold shown. cbn. unfold show_entry.
    by rewrite decide_False.
Qed.

(** So a [ReadDir] is a stream that keeps its promise, as every combinator asks. *)
#[export] Program Instance readdir_Stream : Stream readdir_state (outcome DirEntry) :=
  { s_wf x := readdir_wf x; s_items := readdir_items; s_left := readdir_left }.
Next Obligation.
  intros x Hx. unfold poll_next, readdir_stream. destruct (rdr_end_of_stream x.2) eqn:Heos.
  - unfold next_ok, readdir_items. cbn [fst snd]. by rewrite Heos.
  - apply next_entry_ok; [done..|lia].
Qed.
End readdir.

Section list_dir.
Context (alive : nid → bool) `{CapabilityLaws}.

(** A child that can be listed: its name fits an entry and is no dot entry. *)
Definition listable_child (s : fs) (e : str * nid) : Prop :=
  Forall (λ c, 0 < c < 1114112) e.1 ∧ (length (utf8 e.1) ≤ 63)%nat ∧ ¬ dot_name (utf8 e.1) ∧ is_Some (nodes s !! e.2).

(** What the stream is to give for it. *)
Definition child_type (s : fs) (c : nid) : VfsNodeType :=
  match get_attr c s with Ok attr => at_ty attr | _ => TFile end.
Definition child_item (path : str) (s : fs) (e : str * nid) : outcome DirEntry :=
  Ok (mk_entry path (utf8 e.1) (child_type s e.2)).

Lemma raw_entry_ok s e : listable_child s e →
  ∃ d, raw_entry s e = Some d ∧ name_as_bytes (d_name d) = utf8 e.1 ∧ d_type d = child_type s e.2.
Proof.
  intros (Hn & Hl & _ & [nd Hnd]). unfold raw_entry, child_type.
  assert (∃ attr, get_attr e.2 s = Ok attr) as [attr ->] by (unfold get_attr; rewrite Hnd; destruct nd; by eexists).
  pose proof (dirent_roundtrip e.1 (at_ty attr) Hn) as Hd. rewrite decide_True in Hd by done.
  destruct Hd as (d & -> & Hb & Ht). by exists d.
Qed.

Lemma children_shown path s ch : Forall (listable_child s) ch →
  Forall (λ e, is_Some (raw_entry s e)) ch ∧
  Forall (λ d, ¬ dot_name (name_as_bytes (d_name d))) (omap (raw_entry s) ch) ∧
  shown path (omap (raw_entry s) ch) = child_item path s <$> ch.
Proof.
  induction 1 as [|e ch He _ (IH1 & IH2 & IH3)]; [by repeat constructor|].
  destruct (raw_entry_ok s e He) as (d & Hd & Hb & Ht). destruct He as (_ & _ & Hdot & _).
  unfold shown in *. cbn. rewrite Hd. cbn. unfold show_entry at 1. rewrite Hb, decide_False by done. split_and!.
  - constructor; [by eexists|done].
  - constructor; [by rewrite Hb|done].
  - unfold child_item at 1. by rewrite Ht, IH3.
Qed.

Lemma length_omap {A B} (f : A → option B) l : (length (omap f l) ≤ length l)%nat.
Proof. induction l as [|x l IH]; [done|]. cbn. destruct (f x); cbn; lia. Qed.

(** C27: Listing a directory of a RAM or device file system by its path, with fewer
    than 2^32 children, each a node that is there under a name of fewer than 64 bytes
    that is not a dot name ([listable_child]; a longer name panics), gives every child
    once, in the order of their names, with its type, and neither of the dot entries,
    however many reads of 31 entries it takes; any consumer of the stream sees that
    list, and the stream ends. *)
Theorem read_dir_lists (g : gfs) (path : str) (n : nid) (p : option nid) (ch : list (str * nid))
  (Hl : fs_lookup alive g None path = Ok (VNode n)) (Hd : dir_of (store g) n = Some (p, ch))
  (Hch : Forall (listable_child (store g)) ch) (Hlen : Z.of_nat (length ch) < 2 ^ 32) :
  ∃ r, api_read_dir alive g path = Ok r ∧
    ∀ l, collects (g, r) l ↔ l = child_item path (store g) <$> ch.
Proof.
  set (d := {| d_node := VNode n; d_cap := CAP_READ; entry_idx := 0 |}).
  exists (mk_readdir path d 0 0 false (replicate DIRENTS EMPTY_DIRENT)).
  destruct (children_shown path (store g) ch Hch) as (H1 & H2 & H3).
  assert (Hc : children g (VNode n) = ch) by (unfold children; by rewrite Hd). split.
  - unfold api_read_dir, readdir_new, open_dir_at. cbn. rewrite Hl, bind_Ok.
    assert (vget_attr g (VNode n) = Ok (attr_new_dir 4096 0)) as ->; [|done].
    cbn. unfold get_attr. unfold dir_of in Hd. destruct (nodes (store g) !! n) as [nd|]; [|done]. by destruct nd.
  - intros l. assert (Hw : readdir_wf (g, mk_readdir path d 0 0 false (replicate DIRENTS EMPTY_DIRENT))).
    { assert (Hlist : listable g (VNode n)).
      { split; rewrite ?Hc; [by exists n, p|done..|]. unfold listed. cbn [length]. rewrite Hc.
        pose proof (length_omap (raw_entry (store g)) ch). lia. }
      split; cbn [fst snd rdr_inner rdr_buf_pos rdr_buf_end d_node d_cap entry_idx d]; try done; try lia. }
    etransitivity; [apply (collects_items (S := readdir_state) (A := outcome DirEntry)); exact Hw|]. cbn [s_items readdir_Stream]. unfold readdir_items, at_entry.
    cbn [fst snd rdr_end_of_stream rdr_path rdr_inner rdr_buf_pos rdr_buf_end d_node entry_idx d]. unfold listed. rewrite Hc.
    by rewrite <- H3.
Qed.
End list_dir.

(** ** The hypotheses at work *)
Module ApiDemo.
(** The store of [demo_fs], a directory [a] and a file [f], as the only file
    system. *)
Definition world : gfs := {| store := demo_fs; root_dir := {| main_fs := 0; mounts := [] |}; cur_dir := VRoot; cur_path := [SLASH] |}.

(** A new file in the directory, and the listing of the root. *)
Lemma path_write_read_witness :
  ∃ g', api_write (λ _, true) 2 world (lit "/a/new") [104; 105] = Some (Ok g') ∧
    api_read (λ _, true) 9 g' (lit "/a/new") = Some (Ok [104; 105]).
Proof.
  destruct (create_file (λ _, true) world None (lit "/a/new")) as [[[[|n] g1]| |]|] eqn:E; try (vm_compute in E; discriminate E).
  assert (Hn : nodes (store g1) !! n = Some (FileNode [])) by (vm_compute in E; injection E as <- <-; reflexivity).
  destruct (path_write_read (λ _, true) 9 world g1 (lit "/a/new") n [] [104; 105]) as (g' & H1 & H2 & _);
    [right; split; [vm_compute; reflexivity|exact E]|exact Hn|reflexivity|cbn; lia|].
  by exists g'.
Defined.

Lemma read_dir_lists_witness :
  ∃ r, api_read_dir (λ _, true) world (lit "/") = Ok r ∧
    collects (world, r) [Ok (mk_entry (lit "/") (lit "a") TDir); Ok (mk_entry (lit "/") (lit "f") TFile)].
Proof.
  destruct (read_dir_lists (λ _, true) world (lit "/") 0 None [(lit "a", 1%nat); (lit "f", 2%nat)]) as (r & Hr & Hl).
  - vm_compute. reflexivity.
  - reflexivity.
  - repeat constructor; cbn; try lia; try (by intros [?|?]); by eexists.
  - reflexivity.
  - exists r. split; [exact Hr|]. apply Hl. reflexivity.
Defined.
End ApiDemo.
