(* ===== verification/FdCalls.v ===== *)
(** * System calls on file descriptors

    modules/syscall/src/syscall_fs/imp/io.rs, the descriptor calls of ctl.rs, and
    poll.rs: reading, writing, seeking and copying through descriptors, making,
    duplicating and closing them, and waiting for them.

    Open files are objects behind the trait [FileIO] (async_fs/src/api/port.rs),
    here the class of that name: a world [W] holds the objects, a descriptor
    refers to one by its identity, and several descriptors may refer to the same
    one.  An operation of the class stands for its awaited future: what it answers
    when it is ready, and the world then.

    [call] is the monad of a call: its world is the objects, the descriptor table
    and limit of the process, and its memory; it ends early with an error or a
    panic of the kernel.  User memory that a call does not check is accessed as it
    is. *)

From S2P Require Import Prelude Path Vfs RootFs Fops UserMem TimeStat Link FdManager.

Open Scope Z_scope.

(** ** The trait [FileIO] *)

Class FileIO (W : Type) := {
  io_read : Z → nat → W → outcome (list Z) * W;
  io_write : Z → list Z → W → outcome Z * W;
  io_seek : Z → SeekFrom → W → outcome Z * W;
  io_truncate : Z → Z → W → outcome unit * W;
  io_get_type : Z → W → FileIOType;
  io_readable : Z → W → bool;
  io_writable : Z → W → bool;
  io_get_status : Z → W → Z;
  io_set_status : Z → Z → W → bool * W;
  io_set_close_on_exec : Z → bool → W → bool * W;
  io_in_exceptional_conditions : Z → W → bool;
  io_is_hang_up : Z → W → bool;
  io_ready_to_read : Z → W → outcome bool * W;
  io_ready_to_write : Z → W → outcome bool * W;
  (** The downcast to [Socket]: [is_nonblocking] and [is_connected]. *)
  io_socket : Z → W → option (bool * bool);
  (** The objects the calls make: both ends of a pipe, an event counter, an epoll
      instance. *)
  io_make_pipe : Z → W → (Z * Z) * W;
  io_new_eventfd : Z → Z → W → Z * W;
  io_new_epoll : W → Z * W
}.

(** ** The monad of a call *)

Record sysw (W : Type) := mk_sysw {
  sw_io : W; sw_table : fdtable; sw_limit : Z; sw_mem : usermem
}.
Arguments mk_sysw {W}.
Arguments sw_io {W}.
Arguments sw_table {W}.
Arguments sw_limit {W}.
Arguments sw_mem {W}.

(** A call goes on with a value or has ended with its result. *)
Definition call (W A : Type) : Type := sysw W → (A + sysret) * sysw W.

#[export] Instance call_ret {W} : MRet (call W) := λ A a w, (inl a, w).
#[export] Instance call_bind {W} : MBind (call W) := λ A B f m w,
  match m w with (inl a, w) => f a w | (inr r, w) => (inr r, w) end.

Definition fail {W A} (e : LinuxError) : call W A := λ w, (inr (SErr e), w).
Definition panic {W A} : call W A := λ w, (inr SPanic, w).
Definition reads {W A} (f : sysw W → A) : call W A := λ w, (inl (f w), w).
Definition check {W} (b : bool) (e : LinuxError) : call W unit := if b then mret () else fail e.

(** An operation on the objects, its panics those of the call. *)
Definition in_io {W A} (f : W → A * W) : call W A := λ w,
  let '(a, io) := f (sw_io w) in (inl a, mk_sysw io (sw_table w) (sw_limit w) (sw_mem w)).
Definition await {W A} (f : W → outcome A * W) : call W (option A) :=
  r ← in_io f;
  match r with Ok a => mret (Some a) | Err _ => mret None | Panic => panic end.
(** The same, unwrapped. *)
Definition await_unwrap {W A} (f : W → outcome A * W) : call W A :=
  r ← in_io f;
  match r with Ok a => mret a | _ => panic end.
Definition set_table {W} (t : fdtable) : call W unit := λ w,
  (inl (), mk_sysw (sw_io w) t (sw_limit w) (sw_mem w)).
Definition set_mem {W} (f : usermem → usermem) : call W unit := λ w,
  (inl (), mk_sysw (sw_io w) (sw_table w) (sw_limit w) (f (sw_mem w))).

(** What the process gets back. *)
Definition run {W} (m : call W Z) (w : sysw W) : sysret * sysw W :=
  match m w with (inl v, w) => (SOk v, w) | (inr r, w) => (r, w) end.

Section calls.
Context {W : Type} `{FileIO W} (net : bool).

(** ** Descriptors *)

(** [fd_table.get(fd)]. *)
Definition get_file (fd : Z) : call W Z :=
  t ← reads sw_table;
  match t !! Z.to_nat fd with Some (Some f) => mret f | _ => fail EBADF end.

(** The test of the calls that index the table after it. *)
Definition open_fd (fd : Z) (e : LinuxError) : call W Z :=
  t ← reads sw_table;
  match t !! Z.to_nat fd with Some (Some f) => mret f | _ => fail e end.

(** [fd_table[fd].clone().unwrap()]. *)
Definition index_fd (fd : Z) : call W Z :=
  t ← reads sw_table;
  match t !! Z.to_nat fd with Some (Some f) => mret f | _ => panic end.

Definition new_slot (e : LinuxError) : call W Z :=
  t ← reads sw_table;
  lim ← reads sw_limit;
  match alloc_fd lim t with
  | Ok (fd, t) => _ ← set_table t; mret fd
  | _ => fail e
  end.
Definition install (fd f : Z) : call W unit :=
  t ← reads sw_table; set_table (<[Z.to_nat fd := Some f]> t).

(** ** Reading and writing *)

Definition check_range (start end_ : Z) (e : LinuxError) : call W unit :=
  mem ← reads sw_mem; check (manual_alloc_range_for_lazy_ok mem start end_) e.
Definition check_addr (addr : Z) (e : LinuxError) : call W unit :=
  mem ← reads sw_mem; check (manual_alloc_for_lazy_ok mem addr) e.

(** A file that is not open for the direction: a socket may go on. *)
Definition not_open (f : Z) : call W unit :=
  s ← reads (λ w, io_socket f (sw_io w));
  match s with
  | Some (nonblocking, connected) => check (negb (nonblocking && connected)) EAGAIN
  | None => fail EBADF
  end.

Definition read_error {A} (e : AxError) : call W A :=
  match e with WouldBlock => fail EAGAIN | InvalidInput => fail EINVAL | _ => fail EPERM end.
Definition write_error {A} (e : AxError) : call W A :=
  match e with ConnectionReset => fail EPIPE | _ => read_error e end.

Definition syscall_read (fd buf count : Z) : call W Z :=
  _ ← check (negb (bool_decide (buf = 0))) EFAULT;
  _ ← check_range buf (wrap64 (wrap64 (buf + count) - 1)) EFAULT;
  f ← get_file fd;
  ty ← reads (λ w, io_get_type f (sw_io w));
  _ ← check (negb (bool_decide (ty = DirDesc))) EISDIR;
  r ← reads (λ w, io_readable f (sw_io w));
  _ ← (if r : bool then mret () else _ ← not_open f; check net EBADF);
  r ← in_io (io_read f (Z.to_nat count));
  match r with
  | Ok bs => _ ← set_mem (λ m, store_bytes m buf bs); mret (Z.of_nat (length bs))
  | Err e => read_error e
  | Panic => panic
  end.

Definition syscall_write (fd buf count : Z) : call W Z :=
  _ ← check (negb (bool_decide (buf = 0))) EFAULT;
  _ ← check_range buf (wrap64 (wrap64 (buf + count) - 1)) EFAULT;
  f ← get_file fd;
  ty ← reads (λ w, io_get_type f (sw_io w));
  _ ← check (negb (bool_decide (ty = DirDesc))) EBADF;
  r ← reads (λ w, io_writable f (sw_io w));
  _ ← (if r : bool then mret () else not_open f);
  bs ← reads (λ w, load_bytes (sw_mem w) buf (Z.to_nat count));
  r ← in_io (io_write f bs);
  match r with Ok n => mret n | Err e => write_error e | Panic => panic end.

(** The loops over an array of [IoVec]s; an entry is read when its turn comes. *)
Fixpoint iov_loop (one : Z → Z → call W Z) (n : nat) (iov total : Z) : call W Z :=
  match n with
  | O => mret total
  | S n =>
      base ← reads (λ w, load_le (sw_mem w) iov 8);
      len ← reads (λ w, load_le (sw_mem w) (iov + 8) 8);
      if decide (base = 0 ∨ len = 0) then iov_loop one n (iov + 16) total
      else k ← one base len; iov_loop one n (iov + 16) (total + k)
  end.
Definition syscall_readv (fd iov iov_cnt : Z) : call W Z :=
  iov_loop (syscall_read fd) (Z.to_nat iov_cnt) iov 0.
Definition syscall_writev (fd iov iov_cnt : Z) : call W Z :=
  iov_loop (syscall_write fd) (Z.to_nat iov_cnt) iov 0.

(** ** Making, duplicating and closing descriptors *)

Definition syscall_pipe2 (fd flags : Z) : call W Z :=
  _ ← check_addr fd EINVAL;
  '(read, write) ← in_io (io_make_pipe (open_flags_from flags));
  fd_num ← new_slot EPERM;
  _ ← install fd_num read;
  fd_num2 ← new_slot EPERM;
  _ ← install fd_num2 write;
  _ ← set_mem (λ m, store_le (store_le m fd 4 fd_num) (fd + 4) 4 fd_num2);
  mret 0.

Definition syscall_dup (fd : Z) : call W Z :=
  f ← open_fd fd EBADF;
  new_fd ← new_slot EMFILE;
  _ ← install new_fd f;
  mret new_fd.

Definition O_CLOEXEC : Z := 524288.

Definition syscall_dup3 (fd new_fd flags : Z) : call W Z :=
  f ← open_fd fd EPERM;
  _ ← check (negb (bool_decide (fd = new_fd))) EINVAL;
  t ← reads sw_table;
  _ ← (if decide (Z.of_nat (length t) ≤ new_fd) then
         lim ← reads sw_limit;
         _ ← check (bool_decide (new_fd < lim)) EBADF;
         set_table (t ++ replicate (Z.to_nat (new_fd + 1) - length t) None)
       else mret ());
  _ ← install new_fd f;
  _ ← (if decide (Z.land (wrap32 flags) O_CLOEXEC ≠ 0)
       then in_io (io_set_close_on_exec f true) else mret true);
  mret new_fd.

Definition syscall_close (fd : Z) : call W Z :=
  _ ← open_fd fd EPERM;
  t ← reads sw_table;
  _ ← set_table (<[Z.to_nat fd := None]> t);
  mret 0.

Definition syscall_eventfd (initval flags : Z) : call W Z :=
  fd_num ← new_slot EPERM;
  f ← in_io (io_new_eventfd initval (wrap32 flags));
  _ ← install fd_num f;
  mret fd_num.
Definition syscall_epoll_create1 : call W Z :=
  f ← in_io io_new_epoll;
  fd_num ← new_slot EMFILE;
  _ ← install fd_num f;
  mret fd_num.

(** ** Positioned reads and writes, and copies *)

(** The pieces of [pread64], between which other tasks may run: the position is
    saved, moved, used and put back. *)
Definition save_position (f : Z) : call W Z := await_unwrap (io_seek f (SeekCurrent 0)).
Definition put_position (f pos : Z) : call W unit := _ ← await_unwrap (io_seek f (SeekStart pos)); mret ().

Definition syscall_pread64 (into : AxError → LinuxError) (fd buf count offset : Z) : call W Z :=
  f ← index_fd fd;
  old_offset ← save_position f;
  r ← in_io (io_seek f (SeekStart offset));
  match r with
  | Ok _ =>
      ret ← in_io (io_read f (Z.to_nat count));
      _ ← (match ret with Ok bs => set_mem (λ m, store_bytes m buf bs) | Err _ => mret () | Panic => panic end);
      _ ← put_position f old_offset;
      match ret with Ok bs => mret (Z.of_nat (length bs)) | _ => fail EINVAL end
  | Err e => fail (into e)
  | Panic => panic
  end.

Definition syscall_pwrite64 (into : AxError → LinuxError) (fd buf count offset : Z) : call W Z :=
  f ← index_fd fd;
  old_offset ← save_position f;
  r ← in_io (io_seek f (SeekStart offset));
  match r with
  | Ok _ =>
      bs ← reads (λ w, load_bytes (sw_mem w) buf (Z.to_nat count));
      ret ← in_io (io_write f bs);
      _ ← (match ret with Panic => panic | _ => mret () end);
      _ ← put_position f old_offset;
      match ret with Ok n => mret n | _ => fail EINVAL end
  | Err e => fail (into e)
  | Panic => panic
  end.

Definition syscall_sendfile64 (out_fd in_fd offset count : Z) : call W Z :=
  out_file ← index_fd out_fd;
  in_file ← index_fd in_fd;
  old_in_offset ← save_position in_file;
  bs ← (if decide (offset = 0) then await_unwrap (io_read in_file (Z.to_nat count))
        else
          in_offset ← reads (λ w, load_le (sw_mem w) offset 8);
          _ ← put_position in_file in_offset;
          bs ← await_unwrap (io_read in_file (Z.to_nat count));
          _ ← set_mem (λ m, store_le m offset 8 (in_offset + Z.of_nat (length bs)));
          _ ← put_position in_file old_in_offset;
          mret bs);
  await_unwrap (io_write out_file bs).

Definition syscall_copyfilerange (fd_in off_in fd_out off_out len : Z) : call W Z :=
  in_offset ← reads (λ w, load_le (sw_mem w) off_in 8);
  out_offset ← reads (λ w, load_le (sw_mem w) off_out 8);
  if decide (len = 0) then mret 0 else
  out_file ← index_fd fd_out;
  in_file ← index_fd fd_in;
  old_in_offset ← save_position in_file;
  old_out_offset ← save_position out_file;
  _ ← (if decide (off_in = 0) then mret () else put_position in_file in_offset);
  _ ← (if decide (off_out = 0) then mret () else put_position out_file out_offset);
  bs ← await_unwrap (io_read in_file (Z.to_nat len));
  write_len ← await_unwrap (io_write out_file bs);
  _ ← (if decide (off_in = 0) then mret () else
         _ ← put_position in_file old_in_offset;
         set_mem (λ m, store_le m off_in 8 (load_le m off_in 8 + Z.of_nat (length bs))));
  _ ← (if decide (off_out = 0) then mret () else
         _ ← put_position out_file old_out_offset;
         set_mem (λ m, store_le m off_out 8 (load_le m off_out 8 + write_len)));
  mret write_len.

Definition syscall_lseek (fd offset whence : Z) : call W Z :=
  t ← reads sw_table;
  _ ← check (negb (bool_decide (Z.of_nat (length t) ≤ fd ∨ fd < 3))) EBADF;
  f ← open_fd fd EBADF;
  ty ← reads (λ w, io_get_type f (sw_io w));
  _ ← check (negb (bool_decide (ty = DirDesc))) EISDIR;
  pos ← (if decide (whence = 0) then mret (SeekStart offset)
         else if decide (whence = 1) then mret (SeekCurrent (to_i64 offset))
         else if decide (whence = 2) then mret (SeekEnd (to_i64 offset))
         else fail EINVAL);
  r ← await (io_seek f pos);
  match r with Some now_offset => mret (to_i64 now_offset) | None => fail EINVAL end.

Definition syscall_ftruncate64 (fd len : Z) : call W Z :=
  f ← open_fd fd EINVAL;
  r ← await (io_truncate f len);
  match r with Some _ => mret 0 | None => fail EINVAL end.
End calls.

(** ** [fcntl64] and [ioctl] *)

Inductive Fcntl64Cmd := F_DUPFD | F_GETFD | F_SETFD | F_GETFL | F_SETFL | F_DUPFD_CLOEXEC.
Definition fcntl_cmd_from (cmd : Z) : option Fcntl64Cmd :=
  if decide (cmd = 0) then Some F_DUPFD
  else if decide (cmd = 1) then Some F_GETFD
  else if decide (cmd = 2) then Some F_SETFD
  else if decide (cmd = 3) then Some F_GETFL
  else if decide (cmd = 4) then Some F_SETFL
  else if decide (cmd = 1030) then Some F_DUPFD_CLOEXEC
  else None.

(** [OpenFlags::from_bits]. *)
Definition open_flags_from_bits (v : Z) : option Z :=
  if decide (Z.land v (Z.lnot OpenFlags_all) = 0) then Some v else None.

Definition TCGETS : Z := 21505.
Definition TIOCGPGRP : Z := 21519.
Definition TIOCSPGRP : Z := 21520.
Definition TIOCGWINSZ : Z := 21523.
Definition FIONBIO : Z := 21537.
Definition FIOCLEX : Z := 21585.

Section control.
Context {W : Type} `{FileIO W}.

(** [F_SETFL] makes the future of [set_status] and drops it: the flags of the
    file do not change. *)
Definition syscall_fcntl64 (fd cmd arg : Z) : call W Z :=
  f ← open_fd fd EBADF;
  match fcntl_cmd_from cmd with
  | Some F_DUPFD =>
      new_fd ← new_slot EMFILE;
      _ ← install new_fd f;
      mret new_fd
  | Some F_GETFD =>
      s ← reads (λ w, io_get_status f (sw_io w));
      mret (if of_contains s CLOEXEC then 1 else 0)
  | Some F_SETFD =>
      ok ← in_io (io_set_close_on_exec f (negb (bool_decide (Z.land arg 1 = 0))));
      if ok : bool then mret 0 else fail EINVAL
  | Some F_GETFL => reads (λ w, io_get_status f (sw_io w))
  | Some F_SETFL =>
      match open_flags_from_bits (wrap32 arg) with Some _ => mret 0 | None => fail EINVAL end
  | Some F_DUPFD_CLOEXEC =>
      new_fd ← new_slot EMFILE;
      ok ← in_io (io_set_close_on_exec f (negb (bool_decide (Z.land arg 1 = 0))));
      if ok : bool then _ ← install new_fd f; mret new_fd else fail EINVAL
  | None => fail EINVAL
  end.

Definition syscall_ioctl (fd request argp : Z) : call W Z :=
  f ← open_fd fd EBADF;
  _ ← check_addr argp EFAULT;
  if decide (request = TIOCGWINSZ) then _ ← set_mem (λ m, store_le m argp 8 0); mret 0
  else if decide (request = TCGETS ∨ request = TIOCSPGRP) then mret 0
  else if decide (request = TIOCGPGRP) then _ ← set_mem (λ m, store_le m argp 4 0); mret 0
  else if decide (request = FIONBIO) then
    nonblock ← reads (λ w, load_le (sw_mem w) argp 4);
    if decide (nonblock = 1) then
      old_status ← reads (λ w, io_get_status f (sw_io w));
      _ ← in_io (io_set_status f (Z.lor old_status NON_BLOCK));
      mret 0
    else mret 0
  else if decide (request = FIOCLEX) then mret 0
  else fail EOPNOTSUPP.

(** ** [ppoll] *)

Definition POLLIN : Z := 1.
Definition POLLOUT : Z := 4.
Definition POLLERR : Z := 8.
Definition POLLHUP : Z := 16.

Record PollFd := mk_pollfd { pf_fd : Z; pf_events : Z; pf_revents : Z }.

Definition on_bit (b : bool) (bit : Z) (v : Z) : Z := if b then Z.lor v bit else v.

(** [e && ready().await]: the file is asked only when the event is wanted. *)
Definition wanted (b : bool) (f : W → outcome bool * W) : call W bool :=
  if b then r ← in_io f; match r with Ok x => mret x | _ => panic end else mret false.

(** The events of one descriptor. *)
Definition poll_events (f events : Z) : call W Z :=
  ex ← reads (λ w, io_in_exceptional_conditions f (sw_io w));
  hup ← reads (λ w, io_is_hang_up f (sw_io w));
  rd ← wanted (of_contains events POLLIN) (io_ready_to_read f);
  wr ← wanted (of_contains events POLLOUT) (io_ready_to_write f);
  mret (on_bit wr POLLOUT (on_bit rd POLLIN (on_bit hup POLLHUP (on_bit ex POLLERR 0)))).

(** One entry: indexing the table panics for a descriptor past its end, a
    negative one too. *)
Definition poll_one (p : PollFd) : call W PollFd :=
  t ← reads sw_table;
  match t !! Z.to_nat (wrap64 (pf_fd p)) with
  | None => panic
  | Some None => mret (mk_pollfd (pf_fd p) (pf_events p) POLLERR)
  | Some (Some f) => ev ← poll_events f (pf_events p); mret (mk_pollfd (pf_fd p) (pf_events p) ev)
  end.

(** One round over the entries, and the number of those that answered. *)
Fixpoint poll_round (fds : list PollFd) : call W (Z * list PollFd) :=
  match fds with
  | [] => mret (0, [])
  | p :: fds =>
      p ← poll_one p;
      '(n, fds) ← poll_round fds;
      mret (if decide (pf_revents p = 0) then n else n + 1, p :: fds)
  end.

(** What the task meets between two rounds: the world other tasks have made, the
    clock after the round, and whether a signal is pending after the yield. *)
Record round := mk_round { rd_io : W; rd_table : fdtable; rd_now : Z; rd_signal : bool }.

Definition enter (r : round) : call W unit := λ w,
  (inl (), mk_sysw (rd_io r) (rd_table r) (sw_limit w) (sw_mem w)).

(** The loop, over the rounds to come; [None] when it is still waiting. *)
Fixpoint ppoll (rounds : list round) (fds : list PollFd) (expire_time : Z)
    : call W (option (Z * list PollFd)) :=
  match rounds with
  | [] => mret None
  | r :: rounds =>
      _ ← enter r;
      '(set, fds) ← poll_round fds;
      if decide (0 < set) then mret (Some (set, fds))
      else if decide (expire_time < rd_now r) then mret (Some (0, fds))
      else if rd_signal r then mret (Some (0, fds))
      else ppoll rounds fds expire_time
  end.

(** [PollFd]s in user memory: an [i32] and two [u16]. *)
Definition load_PollFd (m : usermem) (a : Z) : PollFd :=
  mk_pollfd (as_i32 (load_le m a 4)) (load_le m (a + 4) 2) (load_le m (a + 6) 2).
Definition store_PollFd (m : usermem) (a : Z) (p : PollFd) : usermem :=
  store_le (store_le (store_le m a 4 (pf_fd p)) (a + 4) 2 (pf_events p)) (a + 6) 2 (pf_revents p).

Fixpoint load_fds (m : usermem) (a : Z) (n : nat) : list PollFd :=
  match n with O => [] | S n => load_PollFd m a :: load_fds m (a + 8) n end.
Fixpoint store_fds (m : usermem) (a : Z) (fds : list PollFd) : usermem :=
  match fds with [] => m | p :: fds => store_fds (store_PollFd m a p) (a + 8) fds end.

(** [ticks] is the clock, [get_ticks] of axconfig's timer frequency. *)
Definition syscall_ppoll (get_ticks : TimeSecs → Z) (now : Z) (rounds : list round)
    (ufds nfds timeout : Z) : call W (option Z) :=
  _ ← check_range ufds (wrap64 (ufds + nfds * 8)) EFAULT;
  fds ← reads (λ w, load_fds (sw_mem w) ufds (Z.to_nat nfds));
  expire_time ← (if decide (timeout = 0) then mret U64_MAX else
    mem ← reads sw_mem;
    _ ← check (manual_alloc_type_for_lazy_ok mem timeout 16) EFAULT;
    mret (wrap64 (now + get_ticks (load_TimeSecs mem timeout))));
  r ← ppoll rounds fds expire_time;
  match r with
  | None => mret None
  | Some (set, fds) => _ ← set_mem (λ m, store_fds m ufds fds); mret (Some set)
  end.

(** ** [pselect6] *)

(** [ShadowBitset]: a bit set in user memory, of [sb_len] bits in 64-bit words. *)
Record ShadowBitset := mk_bitset { sb_addr : Z; sb_len : Z }.

Definition bitset_check (b : ShadowBitset) (m : usermem) (index : Z) : bool :=
  if decide (sb_len b ≤ index) then false
  else Z.testbit (load_le m (sb_addr b + 8 * (index / 64)) 8) (index mod 64).
Definition bitset_set (b : ShadowBitset) (index : Z) (m : usermem) : usermem :=
  if decide (sb_len b ≤ index) then m
  else let a := sb_addr b + 8 * (index / 64) in
       store_le m a 8 (Z.lor (load_le m a 8) (Z.shiftl 1 (index mod 64))).
Fixpoint clear_words (n : nat) (a : Z) (m : usermem) : usermem :=
  match n with O => m | S n => clear_words n (a + 8) (store_le m a 8 0) end.
(** The last word is that of bit [len - 1], which wraps around for an empty set. *)
Definition bitset_clear (b : ShadowBitset) (m : usermem) : usermem :=
  clear_words (Z.to_nat (wrap64 (sb_len b - 1) / 64 + 1)) (sb_addr b) m.
Definition bitset_valid (b : ShadowBitset) : bool := negb (bool_decide (sb_addr b = 0)).

Record PpollFdSet := mk_fdset { ps_files : list Z; ps_fds : list Z; ps_bitset : ShadowBitset }.

(** The descriptors of the set, from [fd] on. *)
Fixpoint collect_fds (b : ShadowBitset) (n : nat) (fd : Z) : call W (list (Z * Z)) :=
  match n with
  | O => mret []
  | S n =>
      mem ← reads sw_mem;
      if bitset_check b mem fd then
        t ← reads sw_table;
        match t !! Z.to_nat fd with
        | None => panic
        | Some None => fail EBADF
        | Some (Some f) => l ← collect_fds b n (fd + 1); mret ((fd, f) :: l)
        end
      else collect_fds b n (fd + 1)
  end.

Definition init_fd_set (addr len : Z) : call W PpollFdSet :=
  lim ← reads sw_limit;
  _ ← check (bool_decide (len < lim)) EINVAL;
  let b := mk_bitset addr len in
  if decide (addr = 0) then mret (mk_fdset [] [] (mk_bitset addr len)) else
  _ ← check_range addr (wrap64 (addr + (len + 7) / 8)) EFAULT;
  l ← collect_fds b (Z.to_nat len) 0;
  _ ← set_mem (bitset_clear b);
  mret (mk_fdset l.*2 l.*1 b).

(** The files of one set that are ready have their bit set and are counted. *)
Fixpoint select_ready (ready : Z → W → outcome bool * W) (b : ShadowBitset) (l : list (Z * Z)) : call W Z :=
  match l with
  | [] => mret 0
  | (fd, f) :: l =>
      r ← in_io (ready f);
      match r with
      | Ok x =>
          _ ← (if x : bool then set_mem (bitset_set b fd) else mret ());
          n ← select_ready ready b l;
          mret (if x : bool then n + 1 else n)
      | _ => panic
      end
  end.
Definition select_set (ready : Z → W → outcome bool * W) (s : PpollFdSet) : call W Z :=
  if bitset_valid (ps_bitset s) then select_ready ready (ps_bitset s) (zip (ps_fds s) (ps_files s)) else mret 0.

Definition exceptional (f : Z) (w : W) : outcome bool * W := (Ok (io_in_exceptional_conditions f w), w).

(** The loop yields before its first round; [rd_signal] says that SIGKILL is the
    pending signal. *)
Fixpoint pselect (rounds : list round) (r w e : PpollFdSet) (expire_time : Z) : call W (option Z) :=
  match rounds with
  | [] => mret None
  | rd :: rounds =>
      _ ← enter rd;
      nr ← select_set io_ready_to_read r;
      nw ← select_set io_ready_to_write w;
      ne ← select_set exceptional e;
      if decide (0 < nr + nw + ne) then mret (Some (nr + nw + ne))
      else if decide (expire_time < rd_now rd) then mret (Some 0)
      else if rd_signal rd then fail EINTR
      else pselect rounds r w e expire_time
  end.

Definition syscall_pselect6 (turn_to_ticks : TimeVal → Z) (now : Z) (rounds : list round)
    (nfds readfds writefds exceptfds timeout : Z) : call W (option Z) :=
  r ← init_fd_set readfds nfds;
  w ← init_fd_set writefds nfds;
  e ← init_fd_set exceptfds nfds;
  expire_time ← (if decide (timeout = 0) then mret U64_MAX else
    mem ← reads sw_mem;
    _ ← check (manual_alloc_type_for_lazy_ok mem timeout 16) EFAULT;
    mret (wrap64 (now + turn_to_ticks (load_TimeVal mem timeout))));
  pselect rounds r w e expire_time.
End control.
