(* ===== verification/Stdio.v ===== *)
(** Standard input, output and error ([modules/executor/src/stdio.rs]): the
    objects a new process finds behind descriptors 0, 1 and 2.

    The console (axhal) is what has been typed and not yet read, and what was
    put out: [getchar] takes the first character typed, or none when there is
    none yet; [putchar] and [write_bytes] put characters out.  A read of
    standard input is a future: a poll takes what has been typed, edits the line
    of the object with it, and is [Pending] when the line is not ended, the line
    so far kept for the next poll.  More is typed between two polls. *)

From S2P Require Import Prelude Path Vfs Fops UserMem Link FdManager FdCalls.

Definition LF : Z := 10.
Definition CR : Z := 13.
Definition DL : Z := 127.
Definition BS : Z := 8.
Definition SPACE : Z := 32.
Definition BACKSPACE : list Z := [BS; SPACE; BS].

(** ** The console *)
Record console := mk_con { con_in : list Z; con_out : list Z }.

Definition getchar (c : console) : option Z * console :=
  match con_in c with
  | [] => (None, c)
  | x :: rest => (Some x, mk_con rest (con_out c))
  end.
Definition write_bytes (bs : list Z) (c : console) : console := mk_con (con_in c) (con_out c ++ bs).
Definition putchar (x : Z) : console → console := write_bytes [x].
(** Characters arrive. *)
Definition typed (bs : list Z) (c : console) : console := mk_con (con_in c ++ bs) (con_out c).

(** ** The objects *)

(** [Stdin]: its flags, and the line so far, a [String], as its characters. *)
Record stdin := mk_stdin { in_flags : Z; in_line : str }.
(** [Stdout] and [Stderr] have flags only. *)
Record stdout := mk_stdout { out_flags : Z }.

(** The loop of a read into a buffer that is not one byte long: whether the line
    was ended.  It stops when no character is there, and takes one at each turn,
    so what has been typed bounds it. *)
Fixpoint edit_loop (fuel : nat) (line : str) (c : console) : option (bool * str * console) :=
  match fuel with
  | O => None
  | S fuel =>
      match getchar c with
      | (None, c) => Some (false, line, c)
      | (Some x, c) =>
          if decide (x = LF ∨ x = CR) then Some (true, line ++ [LF], putchar LF c)
          else if decide (x = BS ∨ x = DL) then
            if decide (line = []) then edit_loop fuel line c
            else edit_loop fuel (take (pred (length line)) line) (write_bytes BACKSPACE c)
          else edit_loop fuel (line ++ [x]) (putchar x c)
      end
  end.

(** One poll of a read into a buffer of [n] bytes.  The line is put in the
    buffer as UTF-8; [buf[..len]] panics when it does not fit.  [None] is a loop
    out of fuel. *)
Definition stdin_poll_read (n : Z) (s : stdin) (c : console) : option (poll (outcome (list Z)) * stdin * console) :=
  if decide (n = 1) then
    match getchar c with
    | (Some x, c) => Some (Ready (Ok [x]), s, c)
    | (None, c) => Some (Pending, s, c)
    end
  else
    '(ended, line, c) ← edit_loop (S (length (con_in c))) (in_line s) c;
    if ended : bool then
      let bytes := utf8 line in
      if decide (n < Z.of_nat (length bytes)) then Some (Ready Panic, mk_stdin (in_flags s) line, c)
      else Some (Ready (Ok bytes), mk_stdin (in_flags s) [], c)
    else Some (Pending, mk_stdin (in_flags s) line, c).

(** Awaiting it: a poll, and when it is pending another after the next burst of
    typing.  With no burst left the read is still waiting. *)
Fixpoint stdin_read (n : Z) (s : stdin) (c : console) (bursts : list (list Z))
    : option (poll (outcome (list Z)) * stdin * console * list (list Z)) :=
  '(r, s, c) ← stdin_poll_read n s c;
  match r, bursts with
  | Pending, b :: bursts => stdin_read n s (typed b c) bursts
  | _, _ => Some (r, s, c, bursts)
  end.

(** Everything else a call can do. *)
Definition stdin_write (bs : list Z) (s : stdin) (c : console) : outcome Z * stdin * console := (Panic, s, c).
Definition stdin_flush : outcome unit := Panic.
Definition stdin_readable : bool := true.
Definition stdin_writable : bool := false.
Definition stdin_executable : bool := false.
Definition stdin_type : FileIOType := Stdin.
Definition stdin_ready_to_read : bool := true.
Definition stdin_ready_to_write : bool := false.

Definition stdout_read : outcome (list Z) := Panic.
Definition stdout_write (bs : list Z) (c : console) : outcome Z * console := (Ok (Z.of_nat (length bs)), write_bytes bs c).
Definition stdout_flush : outcome unit := Ok ().
Definition stdout_seek (pos : SeekFrom) : outcome Z := Err Unsupported.
Definition stdout_readable : bool := false.
Definition stdout_writable : bool := true.
Definition stdout_executable : bool := false.
Definition stdout_type : FileIOType := Stdout.
Definition stdout_ready_to_read : bool := false.
Definition stdout_ready_to_write : bool := true.

Definition stderr_read : outcome (list Z) := Panic.
Definition stderr_write (bs : list Z) (c : console) : outcome Z * console := (Ok (Z.of_nat (length bs)), write_bytes bs c).
Definition stderr_flush : outcome unit := Ok ().
Definition stderr_seek (pos : SeekFrom) : outcome Z := Err Unsupported.
Definition stderr_readable : bool := false.
Definition stderr_writable : bool := true.
Definition stderr_executable : bool := false.
Definition stderr_type : FileIOType := Stderr.
Definition stderr_ready_to_read : bool := false.
Definition stderr_ready_to_write : bool := true.

(** [set_status] takes flags that close the file on [exec] and refuses others;
    standard error keeps the defaults of the trait, which have no flags. *)
Definition flags_set_status (flags old : Z) : bool * Z :=
  if of_contains flags CLOEXEC then (true, flags) else (false, old).
Definition flags_set_close_on_exec (is_set : bool) (old : Z) : bool * Z :=
  (true, if is_set then Z.lor old CLOEXEC else Z.land old (Z.lnot CLOEXEC)).

Definition stdin_set_status (flags : Z) (s : stdin) : bool * stdin :=
  let '(b, f) := flags_set_status flags (in_flags s) in (b, mk_stdin f (in_line s)).
Definition stdin_get_status (s : stdin) : Z := in_flags s.
Definition stdin_set_close_on_exec (is_set : bool) (s : stdin) : bool * stdin :=
  let '(b, f) := flags_set_close_on_exec is_set (in_flags s) in (b, mk_stdin f (in_line s)).
Definition stdout_set_status (flags : Z) (s : stdout) : bool * stdout :=
  let '(b, f) := flags_set_status flags (out_flags s) in (b, mk_stdout f).
Definition stdout_get_status (s : stdout) : Z := out_flags s.
Definition stdout_set_close_on_exec (is_set : bool) (s : stdout) : bool * stdout :=
  let '(b, f) := flags_set_close_on_exec is_set (out_flags s) in (b, mk_stdout f).

(** [ioctl], the same for the three: the window size, all zero, and the process
    group are stored where the caller says, unchecked. *)
Definition std_ioctl (request data : Z) (m : usermem) : outcome Z * usermem :=
  if decide (request = TIOCGWINSZ) then (Ok 0, store_le m data 8 0)
  else if decide (request = TCGETS ∨ request = TIOCSPGRP) then (Ok 0, m)
  else if decide (request = TIOCGPGRP) then (Ok 0, store_le m data 4 0)
  else if decide (request = FIOCLEX) then (Ok 0, m)
  else (Err Unsupported, m).
Definition stdin_ioctl := std_ioctl.
Definition stdout_ioctl := std_ioctl.
Definition stderr_ioctl := std_ioctl.

(** ** What a line read gives *)

(** The characters up to the first that ends a line, and what follows it. *)
Fixpoint before_eol (l : list Z) : list Z * option (list Z) :=
  match l with
  | [] => ([], None)
  | x :: l => if decide (x = LF ∨ x = CR) then ([], Some l) else let '(t, r) := before_eol l in (x :: t, r)
  end.

(** One character typed at the end of a line: an erase takes the last back. *)
Definition type_char (line : str) (x : Z) : str :=
  if decide (x = BS ∨ x = DL) then take (pred (length line)) line else line ++ [x].
Definition edited (line : str) (t : list Z) : str := foldl type_char line t.

(** What the console shows for it. *)
Definition echo_char (line : str) (x : Z) : list Z :=
  if decide (x = BS ∨ x = DL) then if decide (line = []) then [] else BACKSPACE else [x].
Fixpoint echo (line : str) (t : list Z) : list Z :=
  match t with [] => [] | x :: t => echo_char line x ++ echo (type_char line x) t end.

Lemma before_eol_app a b :
  before_eol (a ++ b) = match before_eol a with
    | (t, Some r) => (t, Some (r ++ b))
    | (t, None) => let '(t', r') := before_eol b in (t ++ t', r')
    end.
Proof.
  induction a as [|x a IH]; cbn; [by destruct (before_eol b)|]. case_decide; [done|].
  rewrite IH. destruct (before_eol a) as [t [r|]]; [done|]. by destruct (before_eol b).
Qed.

Lemma echo_app line t u : echo line (t ++ u) = echo line t ++ echo (edited line t) u.
Proof. revert line. induction t as [|x t IH]; intros line; cbn; [done|]. by rewrite IH, app_assoc. Qed.

Lemma edit_loop_ok fuel : ∀ line c, (length (con_in c) < fuel)%nat →
  edit_loop fuel line c = Some
    match before_eol (con_in c) with
    | (t, Some rest) => (true, edited line t ++ [LF], mk_con rest (con_out c ++ echo line t ++ [LF]))
    | (t, None) => (false, edited line t, mk_con [] (con_out c ++ echo line t))
    end.
Proof.
  induction fuel as [|fuel IH]; intros line [inp out] Hf; [lia|]. cbn in Hf |- *. destruct inp as [|x inp]; cbn.
  { by rewrite app_nil_r. }
  cbn in Hf. case_decide as Heol; [done|].
  assert (Hout : ∀ line', echo_char line x ++ echo line' [] = echo_char line x) by (intros; apply app_nil_r).
  unfold echo_char, type_char in *. case_decide as Hbs.
  - case_decide as Hl.
    + rewrite IH by (cbn; lia). cbn [con_in con_out]. destruct (before_eol inp) as [t [r|]]; cbn;
        unfold type_char, echo_char; rewrite !(decide_True (P := x = BS ∨ x = DL)) by done; subst line; cbn; done.
    + rewrite IH by (cbn; lia). cbn [con_in con_out write_bytes].
      destruct (before_eol inp) as [t [r|]]; cbn; unfold type_char, echo_char;
        rewrite !(decide_True (P := x = BS ∨ x = DL)) by done; rewrite (decide_False (P := line = [])) by done; by rewrite <- !app_assoc.
  - rewrite IH by (cbn; lia). cbn [con_in con_out putchar write_bytes].
    destruct (before_eol inp) as [t [r|]]; cbn; unfold type_char, echo_char;
      rewrite !(decide_False (P := x = BS ∨ x = DL)) by done; by rewrite <- !app_assoc.
Qed.

(** One poll of a line read, by what has been typed. *)
Lemma poll_read_ok n s c : n ≠ 1 →
  stdin_poll_read n s c =
    match before_eol (con_in c) with
    | (t, Some rest) =>
        let line := edited (in_line s) t ++ [LF] in
        let c' := mk_con rest (con_out c ++ echo (in_line s) t ++ [LF]) in
        if decide (n < Z.of_nat (length (utf8 line))) then Some (Ready Panic, mk_stdin (in_flags s) line, c')
        else Some (Ready (Ok (utf8 line)), mk_stdin (in_flags s) [], c')
    | (t, None) => Some (Pending, mk_stdin (in_flags s) (edited (in_line s) t), mk_con [] (con_out c ++ echo (in_line s) t))
    end.
Proof.
  intros Hn. unfold stdin_poll_read. rewrite decide_False by done. rewrite edit_loop_ok by lia.
  by destruct (before_eol (con_in c)) as [t [r|]].
Qed.

(** C40: A read of standard input into a buffer that is not one byte long (one byte is
    a single character as it was typed) gives the line the user typed, edited; the
    console's bytes are taken as characters, so that one of 128 or more comes back as
    the two bytes of its UTF-8: whatever bursts the characters come in and
    however often the read is polled meanwhile, the answer is the text before
    the first line end with the erases applied, a newline after it, as UTF-8;
    nothing typed after the line is taken, the console has echoed exactly the
    editing, and the next read starts with an empty line.  As long as no line
    end is typed the read waits and loses nothing.  A line that does not fit
    the buffer panics the kernel. *)
Theorem stdin_read_line (n : Z) (s : stdin) (c : console) (bursts : list (list Z)) (Hn : n ≠ 1) :
  match before_eol (con_in c ++ concat bursts) with
  | (t, Some rest) =>
      let line := edited (in_line s) t ++ [LF] in
      let fits := bool_decide (Z.of_nat (length (utf8 line)) ≤ n) in
      ∃ c' left, con_in c' ++ concat left = rest ∧ con_out c' = con_out c ++ echo (in_line s) t ++ [LF] ∧
        stdin_read n s c bursts =
          Some (Ready (if fits then Ok (utf8 line) else Panic), mk_stdin (in_flags s) (if fits then [] else line), c', left)
  | (t, None) =>
      stdin_read n s c bursts =
        Some (Pending, mk_stdin (in_flags s) (edited (in_line s) t), mk_con [] (con_out c ++ echo (in_line s) t), [])
  end.
Proof.
  revert s c. induction bursts as [|b bursts IH]; intros s c.
  all: cbn [concat stdin_read]; rewrite poll_read_ok by done; rewrite before_eol_app;
    destruct (before_eol (con_in c)) as [t [rest|]].
  - cbn zeta. eexists (mk_con rest _), []. case_decide as Hfit.
    + rewrite bool_decide_eq_false_2 by lia. done.
    + rewrite bool_decide_eq_true_2 by lia. done.
  - cbn. by rewrite app_nil_r.
  - cbn zeta. eexists (mk_con rest _), (b :: bursts). case_decide as Hfit.
    + rewrite bool_decide_eq_false_2 by lia. done.
    + rewrite bool_decide_eq_true_2 by lia. done.
  - cbn. specialize (IH (mk_stdin (in_flags s) (edited (in_line s) t)) (typed b (mk_con [] (con_out c ++ echo (in_line s) t)))).
    cbn in IH. destruct (before_eol (b ++ concat bursts)) as [t' [rest|]]; cbn in IH |- *.
    + unfold edited in *. rewrite foldl_app. destruct IH as (c' & left & Hl & Ho & Hr). exists c', left.
      split; [done|]. split; [|exact Hr]. rewrite Ho, echo_app, <- !app_assoc. done.
    + unfold edited in *. rewrite foldl_app, echo_app, app_assoc. exact IH.
Qed.

(** ** What the user sees

    The current row of a terminal and the place of its cursor: a backspace moves
    left, a line feed starts an empty row, any other character is put at the
    cursor. *)
Definition term_put (t : list Z * nat) (x : Z) : list Z * nat :=
  let '(row, cur) := t in
  if decide (x = BS) then (row, pred cur)
  else if decide (x = LF) then ([], 0%nat)
  else (take cur row ++ [x] ++ drop (S cur) row, S cur).
Definition screen (out : list Z) : list Z * nat := foldl term_put ([], 0%nat) out.

(** The row is the line and blanks after it, the cursor at the end of the line. *)
Definition shows (out : list Z) (line : str) : Prop :=
  ∃ k, screen out = (line ++ replicate k SPACE, length line).

(** Characters with one cell, and keys that edit or end a line. *)
Definition printable (x : Z) : Prop := 32 ≤ x < 127.
Definition typeable (x : Z) : Prop := printable x ∨ x = BS ∨ x = DL ∨ x = LF ∨ x = CR.

Lemma screen_app out bs : screen (out ++ bs) = foldl term_put (screen out) bs.
Proof. apply foldl_app. Qed.

Lemma term_put_erase row cur : term_put (row, cur) BS = (row, pred cur).
Proof. done. Qed.
Lemma term_put_other row cur x : x ≠ BS → x ≠ LF → term_put (row, cur) x = (take cur row ++ [x] ++ drop (S cur) row, S cur).
Proof. intros. unfold term_put. by rewrite !decide_False. Qed.

Lemma shows_char out line x : shows out line → typeable x → x ≠ LF → x ≠ CR →
  shows (out ++ echo_char line x) (type_char line x).
Proof.
  intros [k Hs] Hx Hlf Hcr. unfold shows. rewrite screen_app, Hs. unfold echo_char, type_char.
  destruct (decide (x = BS ∨ x = DL)) as [Hbs|Hbs].
  - destruct (decide (line = [])) as [->|Hl]; [by exists k|].
    destruct (exists_last Hl) as (l & y & ->). exists (S k). rewrite <- app_assoc, length_app, Nat.add_1_r. cbn [pred].
    rewrite take_app_length. unfold BACKSPACE. cbn [foldl].
    rewrite term_put_erase, term_put_other, term_put_erase by done. cbn [pred].
    rewrite take_app_length, drop_app_ge, Nat.sub_succ_l, Nat.sub_diag by lia. done.
  - destruct Hx as [[Hx1 Hx2]|Hx]; [|tauto]. exists (pred k). cbn.
    rewrite decide_False, decide_False by (unfold BS, LF in *; lia).
    rewrite take_app_length, drop_app_ge, Nat.sub_succ_l, Nat.sub_diag, length_app, Nat.add_1_r by lia.
    f_equal. rewrite <- app_assoc. do 2 f_equal. by destruct k.
Qed.

Lemma shows_echo t : ∀ out line, shows out line → Forall typeable t → Forall (λ x, x ≠ LF ∧ x ≠ CR) t →
  shows (out ++ echo line t) (edited line t).
Proof.
  induction t as [|x t IH]; intros out line Hs Ht Hn; cbn; [by rewrite app_nil_r|].
  apply Forall_cons in Ht as [Hx Ht]. apply Forall_cons in Hn as [[H1 H2] Hn].
  rewrite app_assoc. apply IH; [|done..]. by apply shows_char.
Qed.

Lemma before_eol_spec l : Forall (λ x, x ≠ LF ∧ x ≠ CR) (before_eol l).1 ∧ (before_eol l).1 ⊆ l ∧
  ∀ r, (before_eol l).2 = Some r → r ⊆ l.
Proof.
  induction l as [|x l IH]; cbn; [done|]. case_decide as He; cbn.
  - split; [done|]. split; [set_solver|]. intros r [= <-]. set_solver.
  - destruct (before_eol l) as [t r]. cbn in *. destruct IH as (H1 & H2 & H3). split_and!.
    + constructor; [tauto|done].
    + set_solver.
    + intros r' Hr. specialize (H3 _ Hr). set_solver.
Qed.

Lemma Forall_sub {A} (P : A → Prop) l k : k ⊆ l → Forall P l → Forall P k.
Proof. rewrite !Forall_forall. eauto. Qed.

(** However polls of reads follow each other, line reads and reads of one
    byte, whether they end or wait, what the terminal shows is the line the
    object holds: as long as printable characters, erases and line ends are
    typed and every line fits its buffer, the row is the line with the cursor
    behind it, blanks where characters were erased. *)
Theorem stdin_screen_agrees (n : Z) (s s' : stdin) (c c' : console) (r : poll (outcome (list Z)))
  (Hin : Forall typeable (con_in c)) (Hs : shows (con_out c) (in_line s))
  (Hr : stdin_poll_read n s c = Some (r, s', c')) (Hp : r ≠ Ready Panic) :
  Forall typeable (con_in c') ∧ shows (con_out c') (in_line s').
Proof.
  destruct (decide (n = 1)) as [->|Hn].
  { unfold stdin_poll_read in Hr. rewrite decide_True in Hr by done. unfold getchar in Hr.
    destruct (con_in c) as [|x rest] eqn:Ec; simplify_eq/=; [by rewrite Ec|]. by apply Forall_cons in Hin as [_ ?]. }
  rewrite poll_read_ok in Hr by done. destruct (before_eol_spec (con_in c)) as (Ht & Hsub & Hrest).
  destruct (before_eol (con_in c)) as [t [rest|]]; cbn in *.
  - case_decide; simplify_eq/=. split; [eapply Forall_sub; [by apply Hrest|done]|].
    exists 0%nat. by rewrite app_assoc, screen_app, (surjective_pairing (screen _)).
  - simplify_eq/=. split; [done|]. apply shows_echo; [done| |done]. by eapply Forall_sub.
Qed.

(** ** Where it goes wrong *)

(** A line longer than the buffer panics the kernel, and any line does when the
    read asks for nothing. *)
Lemma long_line_panics n s rest out :
  n ≠ 1 → n < Z.of_nat (length (utf8 (in_line s))) + 1 →
  ∃ s' c', stdin_poll_read n s (mk_con (LF :: rest) out) = Some (Ready Panic, s', c').
Proof.
  intros Hn Hlen. rewrite poll_read_ok by done. cbn. rewrite (decide_True (P := LF = LF ∨ LF = CR)) by auto.
  rewrite decide_True; [by eexists _, _|]. unfold edited, utf8 in *. cbn [foldl].
  rewrite bind_app, length_app. change (length ([LF] ≫= utf8_char)) with 1%nat. lia.
Qed.

(** A byte above 127 is read back as two: it is taken for a character. *)
Lemma high_byte_doubled s x rest out n : in_line s = [] → 128 ≤ x < 256 → 3 ≤ n →
  ∃ c', stdin_poll_read n s (mk_con (x :: LF :: rest) out) =
    Some (Ready (Ok [192 + x / 64; 128 + x mod 64; LF]), mk_stdin (in_flags s) [], c').
Proof.
  intros Hs Hx Hn. rewrite poll_read_ok by lia.
  assert (He : before_eol (x :: LF :: rest) = ([x], Some rest))
    by (cbn; rewrite (decide_False (P := x = LF ∨ x = CR)) by (unfold LF, CR; lia); done).
  assert (Hb : utf8 (edited (in_line s) [x] ++ [LF]) = [192 + x / 64; 128 + x mod 64; LF]).
  { rewrite Hs. cbn. unfold type_char. rewrite decide_False by (unfold BS, DL; lia). cbn. unfold utf8_char.
    rewrite decide_False, decide_True by lia. done. }
  cbn [con_in con_out]. rewrite He, Hb. cbn zeta. rewrite decide_False by (cbn; lia). by eexists.
Qed.

Module StdioDemo.
Definition s0 : stdin := mk_stdin 0 [].
Definition c0 : console := mk_con (lit "lx") [].

(** "lx", then an erase and "s -", then "l" and the line end. *)
Lemma stdin_read_line_witness :
  ∃ c' left, con_in c' ++ concat left = lit "pwd" ∧
    con_out c' = lit "lx" ++ BACKSPACE ++ lit "s -l" ++ [LF] ∧
    stdin_read 16 s0 c0 [DL :: lit "s -"; lit "l" ++ CR :: lit "p"; lit "wd"] =
      Some (Ready (Ok (lit "ls -l" ++ [LF])), mk_stdin 0 [], c', left).
Proof. exact (stdin_read_line 16 s0 c0 [DL :: lit "s -"; lit "l" ++ CR :: lit "p"; lit "wd"] ltac:(done)). Defined.

Lemma stdin_screen_agrees_witness :
  Forall typeable [] ∧ shows (lit "ab" ++ BACKSPACE ++ lit "c") (lit "ac").
Proof.
  apply (stdin_screen_agrees 16 s0 (mk_stdin 0 (lit "ac")) (mk_con (lit "ab" ++ DL :: lit "c") [])
           (mk_con [] (lit "ab" ++ BACKSPACE ++ lit "c")) Pending).
  - cbn. repeat constructor; unfold typeable, printable, BS, DL, LF, CR; lia.
  - by exists 0%nat.
  - reflexivity.
  - done.
Defined.
End StdioDemo.
