(* ===== verification/FileObj.v ===== *)
(** * Open files and directories behind descriptors

    modules/syscall/src/syscall_fs/ctype/file.rs and dir.rs: [FileDesc], a file of
    the file system with its path, flags and times, and [DirDesc].  Both implement
    the trait [FileIO] over a world that holds the file system, the objects by
    identity, and the objects of the other kinds (pipes, sockets, counters, ...),
    to which every other identity is handed on.

    [new_fd], [new_dir] and [new_inode] make them; the inode numbers are a map from
    paths, [INODE_NAME_MAP]. *)

From S2P Require Import Prelude Path Vfs RootFs Fops UserMem TimeStat Link FdManager FdCalls.

Open Scope Z_scope.

Record FileMetaData := mk_meta { m_atime : TimeSecs; m_mtime : TimeSecs; m_ctime : TimeSecs }.
Record file_desc := mk_fdesc { fd_file_path : str; fd_file : File; fd_flags : Z; fd_stat : FileMetaData }.

Inductive fobj :=
  | OFile (d : file_desc)
  | ODir (dir_path : str).

Record fworld (R : Type) := mk_fworld { fw_fs : gfs; fw_objs : gmap Z fobj; fw_rest : R }.
Arguments mk_fworld {R}.
Arguments fw_fs {R}.
Arguments fw_objs {R}.
Arguments fw_rest {R}.

Definition set_file (f : File) (d : file_desc) : file_desc :=
  mk_fdesc (fd_file_path d) f (fd_flags d) (fd_stat d).
Definition set_flags (fl : Z) (d : file_desc) : file_desc :=
  mk_fdesc (fd_file_path d) (fd_file d) fl (fd_stat d).

(** [TimeSecs::default()]. *)
Definition time_zero : TimeSecs := mk_timesecs 0 0.
Definition filedesc_new (path : str) (f : File) (flags : Z) : file_desc :=
  mk_fdesc path f flags (mk_meta time_zero time_zero time_zero).

Section filedesc.
Context `{Capability}.

(** ** [FileIO for FileDesc], on the file system and the object *)

Definition filedesc_read (n : nat) (g : gfs) (d : file_desc) : outcome (list Z) * file_desc :=
  let '(r, f) := file_read g (fd_file d) n in (r, set_file f d).

Definition filedesc_seek (pos : SeekFrom) (g : gfs) (d : file_desc) : outcome Z * file_desc :=
  match poll_file_seek g (fd_file d) pos with
  | Ok (p, f) => (Ok p, set_file f d)
  | Err e => (Err e, d)
  | Panic => (Panic, d)
  end.

(** One write, on the pair of the file system and the file. *)
Definition write_step (bs : list Z) (x : gfs * File) : outcome Z * (gfs * File) :=
  let '(g, f) := x in
  match poll_file_write g f bs with
  | (Ok (k, g), f) => (Ok k, (g, f))
  | (Err e, f) => (Err e, (g, f))
  | (Panic, f) => (Panic, (g, f))
  end.

(** [FileDesc::write]: a hole between the end and the position is filled first, by a
    seek and a write whose errors are ignored. *)
Definition fill_hole (old_offset size : Z) (x : gfs * File) : outcome (gfs * File) :=
  let '(g, f) := x in
  if decide (size < old_offset) then
    match poll_file_seek g f (SeekStart size) with
    | Panic => Panic
    | r =>
        let f := match r with Ok (_, f) => f | _ => f end in
        match write_step (replicate (Z.to_nat (old_offset - size)) 0) (g, f) with
        | (Panic, _) => Panic
        | (_, x) => Ok x
        end
    end
  else Ok (g, f).

Definition filedesc_write (bs : list Z) (g : gfs) (d : file_desc) : outcome Z * (gfs * file_desc) :=
  match poll_file_seek g (fd_file d) (SeekCurrent 0) with
  | Ok (old_offset, f) =>
      match file_get_attr g f with
      | Ok attr =>
          match fill_hole old_offset (at_size attr) (g, f) with
          | Ok x => let '(r, (g, f)) := write_step bs x in (r, (g, set_file f d))
          | _ => (Panic, (g, d))
          end
      | _ => (Panic, (g, d))
      end
  | _ => (Panic, (g, d))
  end.

Definition filedesc_truncate (len : Z) (g : gfs) (d : file_desc) : outcome unit * gfs :=
  match file_truncate g (fd_file d) len with
  | Ok g => (Ok (), g)
  | Err e => (Err e, g)
  | Panic => (Panic, g)
  end.

Definition filedesc_readable (d : file_desc) : bool := is_ok (cap_access (f_cap (fd_file d)) CAP_READ).
Definition filedesc_writable (d : file_desc) : bool := is_ok (cap_access (f_cap (fd_file d)) CAP_WRITE).

(** The position is moved to the end and back to learn the length. *)
Definition not_at_end (g : gfs) (d : file_desc) : outcome bool * file_desc :=
  match filedesc_seek (SeekCurrent 0) g d with
  | (Ok now_pos, d) =>
      match filedesc_seek (SeekEnd 0) g d with
      | (Ok len, d) =>
          match filedesc_seek (SeekStart now_pos) g d with
          | (Ok _, d) => (Ok (negb (bool_decide (now_pos = len))), d)
          | (_, d) => (Panic, d)
          end
      | (_, d) => (Panic, d)
      end
  | (_, d) => (Panic, d)
  end.
Definition filedesc_ready_to_read (g : gfs) (d : file_desc) : outcome bool * file_desc :=
  if filedesc_readable d then (Ok false, d) else not_at_end g d.
Definition filedesc_ready_to_write (g : gfs) (d : file_desc) : outcome bool * file_desc :=
  if filedesc_writable d then (Ok false, d) else not_at_end g d.

Definition filedesc_set_close_on_exec (is_set : bool) (d : file_desc) : file_desc :=
  set_flags (if is_set then Z.lor (fd_flags d) CLOEXEC else Z.land (fd_flags d) (Z.lnot CLOEXEC)) d.
End filedesc.

(** ** The world of the descriptor calls *)

Section world.
Context {R : Type} `{FileIO R} `{Capability}.

Definition put_obj (i : Z) (o : fobj) (w : fworld R) : fworld R :=
  mk_fworld (fw_fs w) (<[i := o]> (fw_objs w)) (fw_rest w).
Definition put_desc (i : Z) (d : file_desc) : fworld R → fworld R := put_obj i (OFile d).
Definition put_fs (g : gfs) (w : fworld R) : fworld R := mk_fworld g (fw_objs w) (fw_rest w).
Definition rest {A} (f : R → A * R) (w : fworld R) : A * fworld R :=
  let '(a, r) := f (fw_rest w) in (a, mk_fworld (fw_fs w) (fw_objs w) r).

(** The object behind an identity: a file, a directory, or one of the rest. *)
Definition dispatch {A} (i : Z) (w : fworld R) (on_file : file_desc → A) (on_dir : str → A) (other : A) : A :=
  match fw_objs w !! i with Some (OFile d) => on_file d | Some (ODir p) => on_dir p | None => other end.

#[export] Instance fworld_FileIO : FileIO (fworld R) := {
  io_read i n w := dispatch i w
    (λ d, let '(r, d) := filedesc_read n (fw_fs w) d in (r, put_desc i d w))
    (λ _, (Err IsADirectory, w)) (rest (io_read i n) w);
  io_write i bs w := dispatch i w
    (λ d, let '(r, (g, d)) := filedesc_write bs (fw_fs w) d in (r, put_desc i d (put_fs g w)))
    (λ _, (Err IsADirectory, w)) (rest (io_write i bs) w);
  io_seek i pos w := dispatch i w
    (λ d, let '(r, d) := filedesc_seek pos (fw_fs w) d in (r, put_desc i d w))
    (λ _, (Err IsADirectory, w)) (rest (io_seek i pos) w);
  io_truncate i len w := dispatch i w
    (λ d, let '(r, g) := filedesc_truncate len (fw_fs w) d in (r, put_fs g w))
    (λ _, (Err Unsupported, w)) (rest (io_truncate i len) w);
  io_get_type i w := dispatch i w (λ _, FileDesc) (λ _, DirDesc) (io_get_type i (fw_rest w));
  io_readable i w := dispatch i w filedesc_readable (λ _, false) (io_readable i (fw_rest w));
  io_writable i w := dispatch i w filedesc_writable (λ _, false) (io_writable i (fw_rest w));
  io_get_status i w := dispatch i w fd_flags (λ _, 0) (io_get_status i (fw_rest w));
  io_set_status i fl w := dispatch i w
    (λ d, (true, put_desc i (set_flags fl d) w)) (λ _, (false, w)) (rest (io_set_status i fl) w);
  io_set_close_on_exec i b w := dispatch i w
    (λ d, (true, put_desc i (filedesc_set_close_on_exec b d) w)) (λ _, (false, w))
    (rest (io_set_close_on_exec i b) w);
  io_in_exceptional_conditions i w := dispatch i w (λ _, false) (λ _, false)
    (io_in_exceptional_conditions i (fw_rest w));
  io_is_hang_up i w := dispatch i w (λ _, false) (λ _, false) (io_is_hang_up i (fw_rest w));
  io_ready_to_read i w := dispatch i w
    (λ d, let '(r, d) := filedesc_ready_to_read (fw_fs w) d in (r, put_desc i d w))
    (λ _, (Ok false, w)) (rest (io_ready_to_read i) w);
  io_ready_to_write i w := dispatch i w
    (λ d, let '(r, d) := filedesc_ready_to_write (fw_fs w) d in (r, put_desc i d w))
    (λ _, (Ok false, w)) (rest (io_ready_to_write i) w);
  io_socket i w := dispatch i w (λ _, None) (λ _, None) (io_socket i (fw_rest w));
  io_make_pipe fl w := rest (io_make_pipe fl) w;
  io_new_eventfd v fl w := rest (io_new_eventfd v fl) w;
  io_new_epoll w := rest io_new_epoll w
}.
End world.

(** ** Making them *)

Section making.
Context (alive : nid → bool) `{Capability}.

(** [new_file] hands on four of the flags. *)
Definition new_file_options (flags : Z) : OpenOptions :=
  {| o_read := readable flags; o_write := writable flags; o_append := false;
     o_truncate := false; o_create := creatable flags; o_create_new := new_creatable flags |}.
Definition new_file (g : gfs) (path : str) (flags : Z) : option (outcome (File * gfs)) :=
  open_at alive g None path (new_file_options flags).
Definition new_fd (g : gfs) (path : str) (flags : Z) : option (outcome (file_desc * gfs)) :=
  let! fg := new_file g path flags in
  Some (Ok (filedesc_new path fg.1 flags, fg.2)).

Definition new_dir (g : gfs) (dir_path : str) : option (outcome gfs) :=
  let! ex := Some (path_exists alive g dir_path) in
  if ex : bool then Some (Ok g) else create_dir alive g None dir_path.

(** [INODE_NAME_MAP]. *)
Definition new_inode (path : str) (m : gmap (list Z) Z) : gmap (list Z) Z :=
  match m !! path with Some _ => m | None => <[path := Z.of_nat (base.size m) + 1]> m end.
End making.
