(* ===== verification/FdCallsProps.v ===== *)
(** * What the descriptor calls promise

    The descriptor table of a process is a map from descriptors to open files: the
    calls that make, duplicate and close descriptors are refinements of updates of
    that map.

    [Files] states what the calls rely on of a regular file: its handles have a
    position and share its contents.  Positioned reads and writes and the copying
    calls are proved from it, and [FileDesc] over the RAM file system is shown to
    keep it. *)

From S2P Require Import Prelude Path Vfs VfsProps RootFs Fops UserMem TimeStat Link FdManager FdCalls FileObj.

Open Scope Z_scope.

(** ** Running a call *)

(** Compute the monadic steps of a call. *)
Ltac call_simp :=
  repeat (progress (unfold mbind, call_bind, mret, call_ret, new_slot, install, reads, set_table, set_mem,
                           in_io, check, fail, panic; cbn)).

Section run.
Context {W : Type}.

Lemma bind_inl {A B} (m : call W A) (f : A → call W B) w a w' :
  m w = (inl a, w') → (m ≫= f) w = f a w'.
Proof. unfold mbind, call_bind. by intros ->. Qed.
Lemma bind_inr {A B} (m : call W A) (f : A → call W B) w r w' :
  m w = (inr r, w') → (m ≫= f) w = (inr r, w').
Proof. unfold mbind, call_bind. by intros ->. Qed.
Lemma check_true e (w : sysw W) : check true e w = (inl (), w).
Proof. done. Qed.
Lemma await_unwrap_Ok {A} (f : W → outcome A * W) w a io :
  f (sw_io w) = (Ok a, io) → await_unwrap f w = (inl a, mk_sysw io (sw_table w) (sw_limit w) (sw_mem w)).
Proof. unfold await_unwrap, mbind, call_bind, in_io. by intros ->. Qed.
End run.

(** ** The descriptor table as a map *)

Definition fd_map (t : fdtable) : gmap Z Z := omap id (map_seqZ 0 t : gmap Z (option Z)).
#[local] Arguments fd_map : simpl never.
#[local] Arguments alloc_fd : simpl never.

Lemma lookup_fd_map t fd :
  0 ≤ fd → fd_map t !! fd = t !! Z.to_nat fd ≫= id.
Proof.
  intros Hfd. unfold fd_map. rewrite lookup_omap, lookup_map_seqZ, Z.sub_0_r.
  by rewrite option_guard_True.
Qed.
Lemma lookup_fd_map_neg t fd : fd < 0 → fd_map t !! fd = None.
Proof.
  intros Hfd. unfold fd_map. rewrite lookup_omap, lookup_map_seqZ.
  by rewrite option_guard_False by lia.
Qed.

Lemma fd_map_insert t fd f :
  0 ≤ fd < Z.of_nat (length t) → fd_map (<[Z.to_nat fd := Some f]> t) = <[fd := f]> (fd_map t).
Proof.
  intros Hfd. apply map_eq. intros k. destruct (decide (k = fd)) as [->|Hk].
  - rewrite lookup_insert_eq, lookup_fd_map, list_lookup_insert_eq by lia. done.
  - rewrite lookup_insert_ne by done. destruct (decide (k < 0)).
    + by rewrite !lookup_fd_map_neg.
    + rewrite !lookup_fd_map by lia. rewrite list_lookup_insert_ne by lia. done.
Qed.
Lemma fd_map_delete t fd :
  0 ≤ fd < Z.of_nat (length t) → fd_map (<[Z.to_nat fd := None]> t) = delete fd (fd_map t).
Proof.
  intros Hfd. apply map_eq. intros k. destruct (decide (k = fd)) as [->|Hk].
  - rewrite lookup_delete_eq, lookup_fd_map, list_lookup_insert_eq by lia. done.
  - rewrite lookup_delete_ne by done. destruct (decide (k < 0)).
    + by rewrite !lookup_fd_map_neg.
    + rewrite !lookup_fd_map by lia. rewrite list_lookup_insert_ne by lia. done.
Qed.
Lemma fd_map_grow t n : fd_map (t ++ replicate n None) = fd_map t.
Proof.
  apply map_eq. intros k. destruct (decide (k < 0)).
  { by rewrite !lookup_fd_map_neg. }
  rewrite !lookup_fd_map by lia. destruct (decide (Z.to_nat k < length t)%nat).
  - by rewrite lookup_app_l.
  - rewrite lookup_app_r by lia. rewrite (lookup_ge_None_2 t) by lia.
    destruct (replicate n None !! _) eqn:E; [|done]. by apply lookup_replicate in E as [-> _].
Qed.

(** The lowest descriptor that is not open. *)
Definition lowest (m : gmap Z Z) (k : Z) : Prop :=
  0 ≤ k ∧ m !! k = None ∧ ∀ j, 0 ≤ j < k → is_Some (m !! j).

(** Open descriptors are below the length of the table. *)
Lemma fd_map_bound t k f : fd_map t !! k = Some f → 0 ≤ k < Z.of_nat (length t) ∧ t !! Z.to_nat k = Some (Some f).
Proof.
  intros Hk. destruct (decide (k < 0)); [by rewrite lookup_fd_map_neg in Hk|].
  rewrite lookup_fd_map in Hk by lia. apply bind_Some in Hk as (x & Hx & Hf). simpl in Hf. subst x.
  split; [|done]. apply lookup_lt_Some in Hx. lia.
Qed.
Lemma fd_map_open t k f : 0 ≤ k → t !! Z.to_nat k = Some (Some f) → fd_map t !! k = Some f.
Proof. intros Hk E. by rewrite lookup_fd_map, E. Qed.

Lemma alloc_fd_spec lim t :
  Z.of_nat (length t) ≤ lim →
  ∃ k, lowest (fd_map t) k ∧
    if decide (k < lim)
    then ∃ t', alloc_fd lim t = Ok (k, t') ∧ fd_map t' = fd_map t ∧
           k < Z.of_nat (length t') ≤ lim ∧ ∃ n, t' = t ++ replicate n None
    else alloc_fd lim t = Err StorageFull.
Proof.
  intros Hlen. unfold alloc_fd. pose proof (first_none_spec 0 t) as Hn.
  destruct (first_none 0 t) as [k|]; rewrite ?Z.sub_0_r in *.
  - destruct Hn as (Hk & Hkn & Hlt). exists k. pose proof (lookup_lt_Some _ _ _ Hkn) as Hkl. split.
    + split; [done|]. split; [by rewrite lookup_fd_map, Hkn|]. intros j Hj.
      destruct (Hlt (Z.to_nat j)) as [f Hf]; [lia|]. rewrite lookup_fd_map, Hf by lia. eauto.
    + rewrite decide_True by lia. exists t. split_and!; [done..|lia|lia|]. exists 0%nat. by rewrite app_nil_r.
  - exists (Z.of_nat (length t)). split.
    + split; [lia|]. split.
      * rewrite lookup_fd_map by lia. rewrite Nat2Z.id, lookup_ge_None_2 by lia. done.
      * intros j Hj. destruct (lookup_lt_is_Some_2 t (Z.to_nat j)) as [x Hx]; [lia|].
        destruct (Hn _ _ Hx) as [f ->]. rewrite lookup_fd_map, Hx by lia. eauto.
    + case_decide; case_decide; try lia; [|done]. exists (t ++ [None]).
      split; [f_equal; f_equal; rewrite length_app; simpl; lia|].
      split; [apply (fd_map_grow t 1)|]. rewrite length_app. simpl. split; [lia|]. by exists 1%nat.
Qed.

(** ** Making, duplicating and closing descriptors *)

Inductive fdop :=
  | Dup (fd : Z)
  | Dup3 (fd new_fd flags : Z)
  | DupFd (fd arg : Z)
  | Close (fd : Z).

(** The arguments are [usize]. *)
Definition fdop_ok (o : fdop) : Prop :=
  match o with
  | Dup fd | DupFd fd _ | Close fd => 0 ≤ fd
  | Dup3 fd new_fd _ => 0 ≤ fd ∧ 0 ≤ new_fd
  end.

(** The operations on the map of open descriptors. *)
Inductive fd_spec (lim : Z) : fdop → gmap Z Z → sysret → gmap Z Z → Prop :=
  | spec_dup o fd m f k :
      o = Dup fd ∨ (∃ arg, o = DupFd fd arg) → m !! fd = Some f → lowest m k → k < lim →
      fd_spec lim o m (SOk k) (<[k := f]> m)
  | spec_dup_full o fd m f k :
      o = Dup fd ∨ (∃ arg, o = DupFd fd arg) → m !! fd = Some f → lowest m k → lim ≤ k →
      fd_spec lim o m (SErr EMFILE) m
  | spec_dup_bad o fd m :
      o = Dup fd ∨ (∃ arg, o = DupFd fd arg) → m !! fd = None → fd_spec lim o m (SErr EBADF) m
  | spec_dup3 fd new flags m f :
      m !! fd = Some f → fd ≠ new → new < lim → fd_spec lim (Dup3 fd new flags) m (SOk new) (<[new := f]> m)
  | spec_dup3_same fd flags m f :
      m !! fd = Some f → fd_spec lim (Dup3 fd fd flags) m (SErr EINVAL) m
  | spec_dup3_limit fd new flags m f :
      m !! fd = Some f → fd ≠ new → lim ≤ new → fd_spec lim (Dup3 fd new flags) m (SErr EBADF) m
  | spec_dup3_bad fd new flags m :
      m !! fd = None → fd_spec lim (Dup3 fd new flags) m (SErr EPERM) m
  | spec_close fd m f : m !! fd = Some f → fd_spec lim (Close fd) m (SOk 0) (delete fd m)
  | spec_close_bad fd m : m !! fd = None → fd_spec lim (Close fd) m (SErr EPERM) m.

(** A sequence of operations, with their results. *)
Inductive fd_specs (lim : Z) : list fdop → gmap Z Z → list sysret → gmap Z Z → Prop :=
  | specs_nil m : fd_specs lim [] m [] m
  | specs_cons o ops m r m1 rs m2 :
      fd_spec lim o m r m1 → fd_specs lim ops m1 rs m2 → fd_specs lim (o :: ops) m (r :: rs) m2.

Section descriptors.
Context {W : Type} `{FileIO W}.

Definition fd_call (o : fdop) : call W Z :=
  match o with
  | Dup fd => syscall_dup fd
  | Dup3 fd new_fd flags => syscall_dup3 fd new_fd flags
  | DupFd fd arg => syscall_fcntl64 fd 0 arg
  | Close fd => syscall_close fd
  end.

Fixpoint fd_run (ops : list fdop) (w : sysw W) : list sysret * sysw W :=
  match ops with
  | [] => ([], w)
  | o :: ops => let '(r, w) := run (fd_call o) w in let '(rs, w) := fd_run ops w in (r :: rs, w)
  end.

(** The result of a step and what it leaves of the table. *)
Definition fd_step_ok (o : fdop) (w : sysw W) : Prop :=
  let '(r, w') := run (fd_call o) w in
  fd_spec (sw_limit w) o (fd_map (sw_table w)) r (fd_map (sw_table w')) ∧
  sw_limit w' = sw_limit w ∧ Z.of_nat (length (sw_table w')) ≤ sw_limit w.

Lemma open_fd_cases fd e (w : sysw W) :
  0 ≤ fd →
  match fd_map (sw_table w) !! fd with
  | Some f => open_fd fd e w = (inl f, w)
  | None => open_fd fd e w = (inr (SErr e), w)
  end.
Proof.
  intros Hfd. rewrite lookup_fd_map by done. unfold open_fd, mbind, call_bind, reads.
  by destruct (sw_table w !! Z.to_nat fd) as [[f|]|].
Qed.

(** The common part of [dup] and [F_DUPFD]. *)
Lemma dup_ok o fd (w : sysw W) :
  o = Dup fd ∨ (∃ arg, o = DupFd fd arg) → 0 ≤ fd → Z.of_nat (length (sw_table w)) ≤ sw_limit w → fd_step_ok o w.
Proof.
  intros Ho Hfd Hlen. unfold fd_step_ok. pose proof (open_fd_cases fd EBADF w Hfd) as Hopen.
  assert (fd_call o w = (f ← open_fd fd EBADF; k ← new_slot EMFILE; _ ← install k f; mret k) w) as Hrun.
  { by destruct Ho as [->|[arg ->]]. }
  unfold run. rewrite Hrun. clear Hrun.
  destruct (fd_map (sw_table w) !! fd) as [f|] eqn:Ef; rewrite ?(bind_inl _ _ _ _ _ Hopen), ?(bind_inr _ _ _ _ _ Hopen).
  - destruct (alloc_fd_spec _ _ Hlen) as (k & Hk & Halloc). case_decide as Hlim.
    + destruct Halloc as (t' & Ha & Hmap & Hkt & _). call_simp. rewrite Ha. call_simp. rewrite length_insert. rewrite fd_map_insert by (destruct Hk; lia).
      rewrite Hmap. split_and!; [by eapply spec_dup|done|lia].
    + call_simp. rewrite Halloc. cbn. split_and!; [|done..]. eapply spec_dup_full; [done..|lia].
  - split_and!; [by eapply spec_dup_bad|done..].
Qed.

Lemma dup3_ok fd new flags (w : sysw W) :
  0 ≤ fd → 0 ≤ new → Z.of_nat (length (sw_table w)) ≤ sw_limit w → fd_step_ok (Dup3 fd new flags) w.
Proof.
  intros Hfd Hnew Hlen. unfold fd_step_ok, run. cbn [fd_call]. unfold syscall_dup3.
  pose proof (open_fd_cases fd EPERM w Hfd) as Hopen.
  destruct (fd_map (sw_table w) !! fd) as [f|] eqn:Ef; rewrite ?(bind_inl _ _ _ _ _ Hopen), ?(bind_inr _ _ _ _ _ Hopen).
  2:{ split_and!; [by apply spec_dup3_bad|done..]. }
  destruct (decide (fd = new)) as [<-|Hne].
  { rewrite bool_decide_true by done. call_simp. split_and!; [by eapply spec_dup3_same|done..]. }
  rewrite bool_decide_false by done.
  assert (∀ (t : fdtable) (io : W), new < Z.of_nat (length t) ≤ sw_limit w → fd_map t = fd_map (sw_table w) →
    fd_spec (sw_limit w) (Dup3 fd new flags) (fd_map (sw_table w)) (SOk new)
      (fd_map (<[Z.to_nat new := Some f]> t)) ∧ Z.of_nat (length (<[Z.to_nat new := Some f]> t)) ≤ sw_limit w) as Hins.
  { intros t io Ht Hm. rewrite fd_map_insert, Hm, length_insert by lia. split; [|lia]. apply spec_dup3; [done..|lia]. }
  call_simp. destruct (decide (Z.of_nat (length (sw_table w)) ≤ new)) as [Hge|Hlt].
  - destruct (decide (new < sw_limit w)) as [Hl|Hl].
    + rewrite bool_decide_true by done. call_simp.
      edestruct (Hins (sw_table w ++ replicate (Z.to_nat (new + 1) - length (sw_table w)) None)) as [H1 H2];
        [exact (sw_io w)|rewrite length_app, length_replicate; lia|apply fd_map_grow|].
      case_decide; cbn; [destruct (io_set_close_on_exec f true (sw_io w)); cbn|]; split_and!; done.
    + rewrite bool_decide_false by done. call_simp. split_and!; [|done..]. by apply (spec_dup3_limit _ _ _ _ _ f); [..|lia].
  - call_simp. edestruct (Hins (sw_table w)) as [H1 H2]; [exact (sw_io w)|lia|done|].
    case_decide; cbn; [destruct (io_set_close_on_exec f true (sw_io w)); cbn|]; split_and!; done.
Qed.

Lemma close_ok fd (w : sysw W) :
  0 ≤ fd → Z.of_nat (length (sw_table w)) ≤ sw_limit w → fd_step_ok (Close fd) w.
Proof.
  intros Hfd Hlen. unfold fd_step_ok, run. cbn [fd_call]. unfold syscall_close.
  pose proof (open_fd_cases fd EPERM w Hfd) as Hopen.
  destruct (fd_map (sw_table w) !! fd) as [f|] eqn:Ef; rewrite ?(bind_inl _ _ _ _ _ Hopen), ?(bind_inr _ _ _ _ _ Hopen).
  - call_simp. rewrite length_insert. apply fd_map_bound in Ef as Hb. rewrite fd_map_delete by apply Hb.
    split_and!; [by eapply spec_close|done..].
  - cbn. split_and!; [by apply spec_close_bad|done..].
Qed.

Lemma fd_call_ok o (w : sysw W) :
  fdop_ok o → Z.of_nat (length (sw_table w)) ≤ sw_limit w → fd_step_ok o w.
Proof.
  intros Ho Hlen. destruct o; simpl in Ho; [apply (dup_ok _ fd)|apply dup3_ok|apply (dup_ok _ fd)|apply close_ok];
    naive_solver.
Qed.

(** C30: the descriptor table implements a map from descriptors to open files.  Any
    sequence of dup, dup3, fcntl(F_DUPFD) and close gives the results, and leaves
    the open descriptors, of the operations on the map: a duplicate is the lowest
    descriptor that is not open, or the one asked for, and refers to the same file;
    closing frees exactly one; errors change nothing. *)
Theorem descriptors_refine_map ops (w : sysw W) :
  Forall fdop_ok ops → Z.of_nat (length (sw_table w)) ≤ sw_limit w →
  fd_specs (sw_limit w) ops (fd_map (sw_table w)) (fd_run ops w).1 (fd_map (sw_table (fd_run ops w).2)).
Proof.
  intros Hops. revert w. induction Hops as [|o ops Ho Hops IH]; intros w Hlen; [apply specs_nil|].
  cbn [fd_run]. pose proof (fd_call_ok o w Ho Hlen) as Hstep. unfold fd_step_ok in Hstep.
  destruct (run (fd_call o) w) as [r w'] eqn:E. destruct Hstep as (Hspec & Hlim & Hlen').
  specialize (IH w' ltac:(lia)). destruct (fd_run ops w') as [rs w'']. simpl in *.
  eapply specs_cons; [exact Hspec|]. by rewrite <- Hlim.
Qed.
End descriptors.

(** ** Regular files, as the calls rely on them *)

(** [n] bytes at a position, and the contents after bytes are written at one; a
    hole reads as zeroes. *)
Definition slice (p : Z) (n : nat) (l : list Z) : list Z := take n (drop (Z.to_nat p) l).
Definition splice (p : Z) (bs l : list Z) : list Z :=
  take (Z.to_nat p) (l ++ replicate (Z.to_nat p - length l) 0) ++ bs ++ drop (Z.to_nat p + length bs) l.

Lemma slice_splice p bs l : slice p (length bs) (splice p bs l) = bs.
Proof.
  unfold slice, splice. rewrite drop_app_length', take_app_length; [done|].
  rewrite length_take, length_app, length_replicate. lia.
Qed.

Class Files (W : Type) `{FileIO W} := {
  fl_ok : Z → W → Prop;
  fl_file : Z → W → nat;
  fl_data : Z → W → list Z;
  fl_pos : Z → W → Z;
  fl_pos_range : ∀ i w, fl_ok i w → is_u64 (fl_pos i w);
  (** A transition that moves one handle and changes the contents of its file. *)
  moves (i p : Z) (upd : list Z → list Z) (w w' : W) : Prop := ∀ j, fl_ok j w →
    fl_ok j w' ∧ fl_file j w' = fl_file j w ∧
    fl_data j w' = (if decide (fl_file j w = fl_file i w) then upd (fl_data j w) else fl_data j w) ∧
    fl_pos j w' = (if decide (j = i) then p else fl_pos j w);
  fl_tell : ∀ i w, fl_ok i w → io_seek i (SeekCurrent 0) w = (Ok (fl_pos i w), w);
  fl_seek : ∀ i p w, fl_ok i w → is_u64 p →
    ∃ w', io_seek i (SeekStart p) w = (Ok p, w') ∧ moves i p id w w';
  fl_read : ∀ i n w, fl_ok i w → fl_pos i w + Z.of_nat n < two64 →
    let bs := slice (fl_pos i w) n (fl_data i w) in
    ∃ w', io_read i n w = (Ok bs, w') ∧ moves i (fl_pos i w + Z.of_nat (length bs)) id w w';
  fl_write : ∀ i bs w, fl_ok i w → fl_pos i w + Z.of_nat (length bs) < 2 ^ 63 →
    ∃ w', io_write i bs w = (Ok (Z.of_nat (length bs)), w') ∧
      moves i (fl_pos i w + Z.of_nat (length bs)) (splice (fl_pos i w) bs) w w'
}.

Section files.
Context {W : Type} `{Files W}.

Lemma moves_trans i p q u v (w w' w'' : W) :
  fl_ok i w → moves i p u w w' → moves i q v w' w'' → moves i q (λ l, v (u l)) w w''.
Proof.
  intros Hi H1 H2 j Hj. destruct (H1 i Hi) as (Hi' & Hfi & _ & _).
  destruct (H1 j Hj) as (Hj' & Hf & Hd & Hp). destruct (H2 j Hj') as (Hj'' & Hf' & Hd' & Hp').
  split; [done|]. split; [congruence|]. split.
  - rewrite Hd', Hd, Hf, Hfi. by destruct (decide (fl_file j w = fl_file i w)).
  - rewrite Hp', Hp. by destruct (decide (j = i)).
Qed.
Lemma moves_ok i p u (w w' : W) : fl_ok i w → moves i p u w w' → fl_ok i w' ∧ fl_pos i w' = p ∧ fl_data i w' = u (fl_data i w).
Proof.
  intros Hi Hm. destruct (Hm i Hi) as (? & _ & Hd & Hp). split; [done|].
  rewrite decide_True in Hp by done. by rewrite decide_True in Hd by done.
Qed.

Definition with_io (io : W) (w : sysw W) : sysw W := mk_sysw io (sw_table w) (sw_limit w) (sw_mem w).
Definition with_mem (m : usermem) (w : sysw W) : sysw W := mk_sysw (sw_io w) (sw_table w) (sw_limit w) m.

Lemma index_fd_ok fd i (w : sysw W) : sw_table w !! Z.to_nat fd = Some (Some i) → index_fd fd w = (inl i, w).
Proof. intros E. unfold index_fd. call_simp. by rewrite E. Qed.
Lemma save_position_ok i (w : sysw W) : fl_ok i (sw_io w) → save_position i w = (inl (fl_pos i (sw_io w)), w).
Proof.
  intros Hi. unfold save_position. rewrite (await_unwrap_Ok _ _ _ _ (fl_tell _ _ Hi)). by destruct w.
Qed.
Lemma put_position_ok i p (w : sysw W) :
  fl_ok i (sw_io w) → is_u64 p →
  ∃ io, put_position i p w = (inl (), with_io io w) ∧ moves i p id (sw_io w) io.
Proof.
  intros Hi Hp. destruct (fl_seek _ _ _ Hi Hp) as (io & E & Hm). exists io. split; [|done].
  unfold put_position. by rewrite (bind_inl _ _ _ _ _ (await_unwrap_Ok _ _ _ _ E)).
Qed.

(** [pread64]: the bytes at the offset, and the position as it was. *)
Lemma pread64_ok into fd buf count off i (w : sysw W) :
  sw_table w !! Z.to_nat fd = Some (Some i) → fl_ok i (sw_io w) → is_u64 off → 0 ≤ count → off + count < two64 →
  let bs := slice off (Z.to_nat count) (fl_data i (sw_io w)) in
  ∃ io, run (syscall_pread64 into fd buf count off) w =
      (SOk (Z.of_nat (length bs)), with_mem (store_bytes (sw_mem w) buf bs) (with_io io w)) ∧
    moves i (fl_pos i (sw_io w)) id (sw_io w) io.
Proof.
  intros Ht Hi Hoff Hc Hend bs. unfold run, syscall_pread64.
  rewrite (bind_inl _ _ _ _ _ (index_fd_ok _ _ _ Ht)), (bind_inl _ _ _ _ _ (save_position_ok _ _ Hi)).
  destruct (fl_seek _ _ _ Hi Hoff) as (io1 & E1 & M1). destruct (moves_ok _ _ _ _ _ Hi M1) as (Hi1 & P1 & D1).
  destruct (fl_read i (Z.to_nat count) io1 Hi1) as (io2 & E2 & M2); [rewrite P1; lia|].
  rewrite P1, D1 in E2, M2. simpl in E2, M2. fold bs in E2, M2.
  assert (fl_ok i io2) as Hi2 by (by eapply moves_ok).
  unfold mbind at 1, call_bind at 1, in_io at 1. rewrite E1.
  unfold mbind at 1, call_bind at 1, in_io at 1. cbn [sw_io]. rewrite E2.
  destruct (put_position_ok i (fl_pos i (sw_io w)) (with_mem (store_bytes (sw_mem w) buf bs) (with_io io2 w)))
    as (io3 & E3 & M3); [done|by apply fl_pos_range|].
  exists io3. split; [|exact (moves_trans _ _ _ _ _ _ _ _ Hi (moves_trans _ _ _ _ _ _ _ _ Hi M1 M2) M3)].
  unfold mbind at 1, call_bind at 1, set_mem. cbn [sw_io sw_table sw_limit sw_mem].
  by rewrite (bind_inl _ _ _ _ _ E3).
Qed.

Lemma pwrite64_ok into fd buf count off i (w : sysw W) :
  sw_table w !! Z.to_nat fd = Some (Some i) → fl_ok i (sw_io w) → is_u64 off → 0 ≤ count → off + count < 2 ^ 63 →
  let bs := load_bytes (sw_mem w) buf (Z.to_nat count) in
  ∃ io, run (syscall_pwrite64 into fd buf count off) w = (SOk count, with_io io w) ∧
    moves i (fl_pos i (sw_io w)) (splice off bs) (sw_io w) io.
Proof.
  intros Ht Hi Hoff Hc Hend bs. unfold run, syscall_pwrite64.
  rewrite (bind_inl _ _ _ _ _ (index_fd_ok _ _ _ Ht)), (bind_inl _ _ _ _ _ (save_position_ok _ _ Hi)).
  destruct (fl_seek _ _ _ Hi Hoff) as (io1 & E1 & M1). destruct (moves_ok _ _ _ _ _ Hi M1) as (Hi1 & P1 & D1).
  assert (length bs = Z.to_nat count) as Hl by apply length_load_bytes.
  destruct (fl_write i bs io1 Hi1) as (io2 & E2 & M2); [rewrite P1, Hl; lia|].
  rewrite P1 in M2. assert (fl_ok i io2) as Hi2 by (by eapply moves_ok).
  unfold mbind at 1, call_bind at 1, in_io at 1. rewrite E1.
  unfold mbind at 1, call_bind at 1, reads at 1. cbn [sw_mem]. fold bs.
  unfold mbind at 1, call_bind at 1, in_io at 1. cbn [sw_io]. rewrite E2.
  destruct (put_position_ok i (fl_pos i (sw_io w)) (with_io io2 w)) as (io3 & E3 & M3); [done|by apply fl_pos_range|].
  exists io3. split; [|exact (moves_trans _ _ _ _ _ _ _ _ Hi (moves_trans _ _ _ _ _ _ _ _ Hi M1 M2) M3)].
  unfold mbind at 1, call_bind at 1, mret at 1, call_ret at 1. rewrite (bind_inl _ _ _ _ _ E3).
  cbn. by rewrite Hl, Z2Nat.id.
Qed.

(** What [pwrite64] writes at an offset [pread64] reads back from it, through
    any descriptor of the file, and neither moves the position of the file: every
    handle stands where it stood, and no other file changes. *)
Theorem pwrite_then_pread into fd buf buf' count off i (w : sysw W) :
  sw_table w !! Z.to_nat fd = Some (Some i) → fl_ok i (sw_io w) → is_u64 off → 0 ≤ count → off + count < 2 ^ 63 →
  let bs := load_bytes (sw_mem w) buf (Z.to_nat count) in
  ∃ io io', run (syscall_pwrite64 into fd buf count off) w = (SOk count, with_io io w) ∧
    run (syscall_pread64 into fd buf' count off) (with_io io w) =
      (SOk count, with_mem (store_bytes (sw_mem w) buf' bs) (with_io io' w)) ∧
    moves i (fl_pos i (sw_io w)) (splice off bs) (sw_io w) io'.
Proof.
  intros Ht Hi Hoff Hc Hend bs.
  destruct (pwrite64_ok into fd buf count off i w) as (io & E & M); [done..|].
  destruct (moves_ok _ _ _ _ _ Hi M) as (Hi' & P & D).
  destruct (pread64_ok into fd buf' count off i (with_io io w)) as (io' & E' & M'); [done..|unfold two64; lia|].
  fold bs in M, D. simpl in E', M'. rewrite D in E'. rewrite P in M'.
  assert (slice off (Z.to_nat count) (splice off bs (fl_data i (sw_io w))) = bs) as Hbs.
  { replace (Z.to_nat count) with (length bs) by apply length_load_bytes. apply slice_splice. }
  rewrite Hbs in E'. exists io, io'. split; [done|]. split.
  - rewrite E'. f_equal. f_equal. unfold bs. rewrite length_load_bytes. lia.
  - exact (moves_trans _ _ _ _ _ _ _ _ Hi M M').
Qed.

(** ** Copying between two files *)

(** A transition that moves the handles [i] and [o] and changes the file of [o]. *)
Definition moves2 (i p o q : Z) (upd : list Z → list Z) (w w' : W) : Prop := ∀ j, fl_ok j w →
  fl_ok j w' ∧ fl_file j w' = fl_file j w ∧
  fl_data j w' = (if decide (fl_file j w = fl_file o w) then upd (fl_data j w) else fl_data j w) ∧
  fl_pos j w' = (if decide (j = i) then p else if decide (j = o) then q else fl_pos j w).

Lemma moves2_refl i o (w : W) : moves2 i (fl_pos i w) o (fl_pos o w) id w w.
Proof.
  intros j Hj. split_and!; [done|done|by destruct (decide _)|].
  destruct (decide (j = i)) as [->|]; [done|]. by destruct (decide (j = o)) as [->|].
Qed.
Lemma moves2_in i p p' o q v (w w' w'' : W) :
  fl_ok i w → moves2 i p o q v w w' → moves i p' id w' w'' → moves2 i p' o q v w w''.
Proof.
  intros Hi H1 H2 j Hj. destruct (H1 j Hj) as (Hj' & Hf & Hd & Hp). destruct (H2 j Hj') as (? & Hf' & Hd' & Hp').
  split_and!; [done|congruence|by rewrite Hd', Hd; destruct (decide (fl_file j w' = _))|].
  rewrite Hp', Hp. by destruct (decide (j = i)).
Qed.
Lemma moves2_out i p o q q' u v (w w' w'' : W) :
  fl_ok o w → i ≠ o → moves2 i p o q v w w' → moves o q' u w' w'' → moves2 i p o q' (λ l, u (v l)) w w''.
Proof.
  intros Ho Hio H1 H2 j Hj. destruct (H1 j Hj) as (Hj' & Hf & Hd & Hp). destruct (H2 j Hj') as (? & Hf' & Hd' & Hp').
  destruct (H1 o Ho) as (_ & Hfo & _ & _). split_and!; [done|congruence|..].
  - rewrite Hd', Hd, Hf, Hfo. by destruct (decide (fl_file j w = fl_file o w)).
  - rewrite Hp', Hp. destruct (decide (j = o)) as [->|]; [by rewrite decide_False|done].
Qed.
Lemma moves2_ok i p o q v (w w' : W) :
  fl_ok i w → fl_ok o w → i ≠ o → fl_file i w ≠ fl_file o w → moves2 i p o q v w w' →
  fl_ok i w' ∧ fl_ok o w' ∧ fl_pos i w' = p ∧ fl_pos o w' = q ∧
  fl_data i w' = fl_data i w ∧ fl_data o w' = v (fl_data o w).
Proof.
  intros Hi Ho Hne Hf Hm. destruct (Hm i Hi) as (? & _ & Hdi & Hpi). destruct (Hm o Ho) as (? & _ & Hdo & Hpo).
  rewrite decide_False in Hdi by done. rewrite decide_True in Hpi by done.
  rewrite decide_True in Hdo by done. rewrite decide_False, decide_True in Hpo by done. done.
Qed.

(** Moving a handle to an offset of user memory, when there is one. *)
Definition pos_at (off : Z) (i : Z) (w : sysw W) : Z :=
  if decide (off = 0) then fl_pos i (sw_io w) else load_le (sw_mem w) off 8.
Lemma seek_to_ok off i pos (w : sysw W) :
  fl_ok i (sw_io w) → (off ≠ 0 → is_u64 pos) →
  ∃ io, (if decide (off = 0) then mret () else put_position i pos) w = (inl (), with_io io w) ∧
    moves i (if decide (off = 0) then fl_pos i (sw_io w) else pos) id (sw_io w) io.
Proof.
  intros Hi Hp. case_decide as Hoff.
  - exists (sw_io w). split; [by destruct w|]. intros j Hj. split_and!; [done|done|by destruct (decide _)|].
    by destruct (decide (j = i)) as [->|].
  - apply put_position_ok; auto.
Qed.

(** Putting the position back and advancing the offset in memory by [n]. *)
Lemma put_back_ok off i pos n (w : sysw W) :
  fl_ok i (sw_io w) → is_u64 pos →
  ∃ io, (if decide (off = 0) then mret () else
           _ ← put_position i pos; set_mem (λ m, store_le m off 8 (load_le m off 8 + n))) w =
      (inl (), with_mem (if decide (off = 0) then sw_mem w
                         else store_le (sw_mem w) off 8 (load_le (sw_mem w) off 8 + n)) (with_io io w)) ∧
    moves i (if decide (off = 0) then fl_pos i (sw_io w) else pos) id (sw_io w) io.
Proof.
  intros Hi Hp. case_decide as Hoff.
  - exists (sw_io w). split; [by destruct w|]. intros j Hj. split_and!; [done|done|by destruct (decide _)|].
    by destruct (decide (j = i)) as [->|].
  - destruct (put_position_ok i pos w Hi Hp) as (io & E & M). exists io. split; [|done].
    by rewrite (bind_inl _ _ _ _ _ E).
Qed.

Definition advance (off n : Z) (m : usermem) : usermem :=
  if decide (off = 0) then m else store_le m off 8 (load_le m off 8 + n).

(** Both handles moved to their offsets, and both put back. *)
Lemma seek_both_ok off_in off_out i o (w : sysw W) :
  fl_ok i (sw_io w) → fl_ok o (sw_io w) → i ≠ o → fl_file i (sw_io w) ≠ fl_file o (sw_io w) →
  is_u64 (pos_at off_in i w) → is_u64 (pos_at off_out o w) →
  ∃ io, (∀ k : call W Z,
      (_ ← (if decide (off_in = 0) then mret () else put_position i (load_le (sw_mem w) off_in 8));
       _ ← (if decide (off_out = 0) then mret () else put_position o (load_le (sw_mem w) off_out 8)); k) w =
      k (with_io io w)) ∧
    moves2 i (pos_at off_in i w) o (pos_at off_out o w) id (sw_io w) io.
Proof.
  intros Hi Ho Hne Hfile Hpin Hpout.
  destruct (seek_to_ok off_in i (load_le (sw_mem w) off_in 8) w Hi) as (io1 & E1 & M1).
  { intros Hoff. unfold pos_at in Hpin. by rewrite decide_False in Hpin. }
  change (moves i (pos_at off_in i w) id (sw_io w) io1) in M1.
  pose proof (moves2_in _ _ _ _ _ _ _ _ _ Hi (moves2_refl i o (sw_io w)) M1) as N1.
  destruct (moves2_ok _ _ _ _ _ _ _ Hi Ho Hne Hfile N1) as (Hi1 & Ho1 & _ & Po1 & _).
  destruct (seek_to_ok off_out o (load_le (sw_mem w) off_out 8) (with_io io1 w) Ho1) as (io2 & E2 & M2).
  { intros Hoff. unfold pos_at in Hpout. by rewrite decide_False in Hpout. }
  cbn [sw_io with_io] in M2. rewrite Po1 in M2. change (moves o (pos_at off_out o w) id io1 io2) in M2.
  exists io2. split; [|exact (moves2_out _ _ _ _ _ _ _ _ _ _ Ho Hne N1 M2)].
  intros k. by rewrite (bind_inl _ _ _ _ _ E1), (bind_inl _ _ _ _ _ E2).
Qed.

Lemma put_both_ok off_in off_out i o p q v n (w0 : W) (w : sysw W) :
  fl_ok i w0 → fl_ok o w0 → i ≠ o → fl_file i w0 ≠ fl_file o w0 → moves2 i p o q v w0 (sw_io w) →
  ∃ io, (∀ k : call W Z,
      (_ ← (if decide (off_in = 0) then mret () else
              _ ← put_position i (fl_pos i w0); set_mem (λ m, store_le m off_in 8 (load_le m off_in 8 + n)));
       _ ← (if decide (off_out = 0) then mret () else
              _ ← put_position o (fl_pos o w0); set_mem (λ m, store_le m off_out 8 (load_le m off_out 8 + n))); k) w =
      k (with_mem (advance off_out n (advance off_in n (sw_mem w))) (with_io io w))) ∧
    moves2 i (if decide (off_in = 0) then p else fl_pos i w0) o (if decide (off_out = 0) then q else fl_pos o w0) v w0 io.
Proof.
  intros Hi Ho Hne Hfile N. destruct (moves2_ok _ _ _ _ _ _ _ Hi Ho Hne Hfile N) as (Hi' & Ho' & Pi & _).
  destruct (put_back_ok off_in i (fl_pos i w0) n w Hi') as (io1 & E1 & M1); [by apply fl_pos_range|].
  rewrite Pi in M1. pose proof (moves2_in _ _ _ _ _ _ _ _ _ Hi N M1) as N1.
  destruct (moves2_ok _ _ _ _ _ _ _ Hi Ho Hne Hfile N1) as (_ & Ho1 & _ & Po1 & _).
  destruct (put_back_ok off_out o (fl_pos o w0) n (with_mem (advance off_in n (sw_mem w)) (with_io io1 w)) Ho1)
    as (io2 & E2 & M2); [by apply fl_pos_range|].
  cbn [sw_io with_io with_mem] in M2. rewrite Po1 in M2.
  exists io2. split; [|exact (moves2_out _ _ _ _ _ _ _ _ _ _ Ho Hne N1 M2)].
  intros k. rewrite (bind_inl _ _ _ _ _ E1). by erewrite bind_inl by exact E2.
Qed.

(** Copy_file_range between two files copies the bytes that are at the one
    position to the other and answers their number.  Where an offset is given the
    handle stays where it was and the offset in memory is advanced, otherwise the
    handle is; the file read from and all others are left as they were. *)
Theorem copyfilerange_copies fd_in off_in fd_out off_out len i o (w : sysw W) :
  let pin := pos_at off_in i w in
  let pout := pos_at off_out o w in
  let bs := slice pin (Z.to_nat len) (fl_data i (sw_io w)) in
  let n := Z.of_nat (length bs) in
  sw_table w !! Z.to_nat fd_in = Some (Some i) → sw_table w !! Z.to_nat fd_out = Some (Some o) →
  fl_ok i (sw_io w) → fl_ok o (sw_io w) → i ≠ o → fl_file i (sw_io w) ≠ fl_file o (sw_io w) →
  0 < len → is_u64 pin → is_u64 pout → pin + len < two64 → pout + n < 2 ^ 63 →
  ∃ io, run (syscall_copyfilerange fd_in off_in fd_out off_out len) w =
      (SOk n, with_mem (advance off_out n (advance off_in n (sw_mem w))) (with_io io w)) ∧
    moves2 i (if decide (off_in = 0) then pin + n else fl_pos i (sw_io w))
           o (if decide (off_out = 0) then pout + n else fl_pos o (sw_io w)) (splice pout bs) (sw_io w) io.
Proof.
  intros pin pout bs n Hti Hto Hi Ho Hne Hfile Hlen Hpin Hpout Hend Hend'.
  unfold run, syscall_copyfilerange.
  rewrite (bind_inl (reads _) _ _ _ _ eq_refl), (bind_inl (reads _) _ _ _ _ eq_refl), decide_False by lia.
  rewrite (bind_inl _ _ _ _ _ (index_fd_ok _ _ _ Hto)), (bind_inl _ _ _ _ _ (index_fd_ok _ _ _ Hti)),
    (bind_inl _ _ _ _ _ (save_position_ok _ _ Hi)), (bind_inl _ _ _ _ _ (save_position_ok _ _ Ho)).
  destruct (seek_both_ok off_in off_out i o w) as (io2 & E2 & N2); [done..|]. rewrite E2. clear E2.
  fold pin pout in N2. destruct (moves2_ok _ _ _ _ _ _ _ Hi Ho Hne Hfile N2) as (Hi2 & Ho2 & Pi2 & _ & Di2 & _).
  destruct (fl_read i (Z.to_nat len) io2 Hi2) as (io3 & E3 & M3); [rewrite Pi2; lia|].
  rewrite Pi2, Di2 in E3, M3. fold bs in E3, M3. fold n in M3.
  rewrite (bind_inl _ _ _ _ _ (await_unwrap_Ok _ (with_io io2 w) _ _ E3)).
  pose proof (moves2_in _ _ _ _ _ _ _ _ _ Hi N2 M3) as N3.
  destruct (moves2_ok _ _ _ _ _ _ _ Hi Ho Hne Hfile N3) as (Hi3 & Ho3 & _ & Po3 & _).
  destruct (fl_write o bs io3 Ho3) as (io4 & E4 & M4); [by rewrite Po3|].
  rewrite Po3 in M4. fold n in E4, M4.
  rewrite (bind_inl _ _ _ _ _ (await_unwrap_Ok _ (with_io io3 w) _ _ E4)).
  pose proof (moves2_out _ _ _ _ _ _ _ _ _ _ Ho Hne N3 M4) as N4.
  destruct (put_both_ok off_in off_out i o _ _ _ n (sw_io w) (with_io io4 w) Hi Ho Hne Hfile N4) as (io5 & E5 & N5).
  exists io5. split; [|exact N5]. fold n. by rewrite E5.
Qed.
End files.

(** ** [FileDesc] keeps the promise *)

Lemma read_at_slice s n c off len :
  nodes s !! n = Some (FileNode c) → 0 ≤ off → off + Z.of_nat len < two64 →
  read_at s n off len = Ok (slice off len c).
Proof.
  intros Hn Hoff Hend. unfold read_at, slice. rewrite Hn, wrap64_small by (unfold is_u64; lia).
  rewrite decide_True by lia. f_equal. destruct (decide (off ≤ Z.of_nat (length c))) as [Hle|Hgt].
  - rewrite (Z.min_r (Z.of_nat (length c)) off) by done.
    destruct (decide (off + Z.of_nat len ≤ Z.of_nat (length c))).
    + rewrite Z.min_r by done. f_equal. lia.
    + rewrite Z.min_l by lia. rewrite !take_ge; [done|rewrite length_drop; lia..].
  - rewrite !Z.min_l by lia. rewrite Z.sub_diag, (drop_ge c) by lia. rewrite (drop_ge c (Z.to_nat off)) by lia.
    by rewrite take_nil, take_nil.
Qed.

Lemma write_at_splice s n c off bs :
  nodes s !! n = Some (FileNode c) → 0 ≤ off → off + Z.of_nat (length bs) < 2 ^ 63 → Z.of_nat (length c) < 2 ^ 63 →
  write_at s n off bs = Ok (Z.of_nat (length bs), set_node n (FileNode (splice off bs c)) s).
Proof.
  intros Hn Hoff Hend Hlen. unfold write_at, splice. rewrite Hn, wrap64_small by (unfold is_u64, two64; lia).
  replace (Z.to_nat (off + Z.of_nat (length bs))) with (Z.to_nat off + length bs)%nat by lia.
  destruct (decide (off + Z.of_nat (length bs) > Z.of_nat (length c))) as [Hgrow|Hgrow];
    [unfold resize; rewrite (decide_True (P := _ ≤ 2 ^ 63 - 1)) by lia|]; cbn [mbind outcome_bind];
    rewrite decide_True by lia; f_equal; f_equal; f_equal; f_equal.
  - replace (Z.to_nat (off + Z.of_nat (length bs))) with (Z.to_nat off + length bs)%nat by lia.
    rewrite (take_ge c) by lia. f_equal.
    + destruct (decide (Z.to_nat off ≤ length c)%nat).
      * replace (Z.to_nat off - length c)%nat with 0%nat by lia. rewrite app_nil_r. by rewrite take_app_le by lia.
      * rewrite !take_app_ge by lia. f_equal. rewrite !take_replicate. f_equal. lia.
    + f_equal. rewrite (drop_ge c), (drop_ge (c ++ _)); [done|rewrite length_app, length_replicate; lia|lia].
  - replace (Z.to_nat off - length c)%nat with 0%nat by lia. by rewrite app_nil_r.
Qed.

Lemma splice_hole off bs c :
  Z.of_nat (length c) < off →
  splice off bs (splice (Z.of_nat (length c)) (replicate (Z.to_nat (off - Z.of_nat (length c))) 0) c) = splice off bs c.
Proof.
  intros Hoff. assert (splice (Z.of_nat (length c)) (replicate (Z.to_nat (off - Z.of_nat (length c))) 0) c =
    c ++ replicate (Z.to_nat off - length c) 0) as ->.
  { unfold splice. rewrite Nat2Z.id, Nat.sub_diag, app_nil_r, take_ge, length_replicate, drop_ge, app_nil_r by lia.
    f_equal. f_equal. lia. }
  unfold splice. rewrite length_app, length_replicate.
  replace (Z.to_nat off - (length c + (Z.to_nat off - length c)))%nat with 0%nat by lia. rewrite app_nil_r.
  f_equal. f_equal. rewrite !drop_ge; [done|lia|rewrite length_app, length_replicate; lia].
Qed.

Section filedesc.
Context {R : Type} `{FileIO R} `{CapabilityLaws}.

(** The handle behind an identity: its object, its node and the contents. *)
Record handle (i : Z) (w : fworld R) (d : file_desc) (n : nid) (c : list Z) : Prop := {
  h_obj : fw_objs w !! i = Some (OFile d);
  h_node : f_node (fd_file d) = VNode n;
  h_data : nodes (store (fw_fs w)) !! n = Some (FileNode c);
  h_len : Z.of_nat (length c) < 2 ^ 63;
  h_cap : cap_contains (f_cap (fd_file d)) CAP_READ = true ∧ cap_contains (f_cap (fd_file d)) CAP_WRITE = true;
  h_append : is_append (fd_file d) = false;
  h_pos : is_u64 (f_offset (fd_file d))
}.

Definition h_desc (i : Z) (w : fworld R) : option file_desc :=
  match fw_objs w !! i with Some (OFile d) => Some d | _ => None end.
Definition h_nid (i : Z) (w : fworld R) : nat :=
  match h_desc i w with
  | Some d => match f_node (fd_file d) with VNode n => n | VRoot => 0%nat end
  | None => 0%nat
  end.
Definition h_contents (i : Z) (w : fworld R) : list Z :=
  match nodes (store (fw_fs w)) !! h_nid i w with Some (FileNode c) => c | _ => [] end.
Definition h_offset (i : Z) (w : fworld R) : Z :=
  match h_desc i w with Some d => f_offset (fd_file d) | None => 0 end.

Lemma handle_eqs i w d n c :
  handle i w d n c → h_nid i w = n ∧ h_contents i w = c ∧ h_offset i w = f_offset (fd_file d).
Proof.
  intros Hh. unfold h_contents, h_offset, h_nid, h_desc. rewrite (h_obj _ _ _ _ _ Hh), (h_node _ _ _ _ _ Hh).
  by rewrite (h_data _ _ _ _ _ Hh).
Qed.

Lemma handle_attr i w d n c :
  handle i w d n c → vget_attr (fw_fs w) (f_node (fd_file d)) = Ok (attr_new_file (Z.of_nat (length c)) 0).
Proof. intros Hh. rewrite (h_node _ _ _ _ _ Hh). cbn. unfold get_attr. by rewrite (h_data _ _ _ _ _ Hh). Qed.

Lemma cap_none g : cap_access g 0 = Ok ().
Proof. rewrite cap_access_spec. unfold cap_contains. by rewrite bool_decide_true by apply Z.land_0_r. Qed.

Lemma handle_seek i w d n c pos p :
  handle i w d n c →
  match pos with
  | SeekStart q => Some q
  | SeekCurrent off => checked_add_u64 (f_offset (fd_file d)) off
  | SeekEnd off => checked_add_u64 (Z.of_nat (length c)) off
  end = Some p →
  poll_file_seek (fw_fs w) (fd_file d) pos = Ok (p, with_offset (fd_file d) p).
Proof.
  intros Hh Hp. unfold poll_file_seek. rewrite cap_none, (handle_attr _ _ _ _ _ Hh). cbn.
  destruct pos; cbn in *; [by simplify_eq|by rewrite Hp..].
Qed.

(** The world with the handle moved and the contents of its node replaced. *)
Definition settle (i : Z) (d : file_desc) (p : Z) (n : nid) (c : list Z) (w : fworld R) : fworld R :=
  put_desc i (set_file (with_offset (fd_file d) p) d)
    (put_fs (with_store (fw_fs w) (set_node n (FileNode c) (store (fw_fs w)))) w).

(** What it does to every handle. *)
Lemma handle_settle i d n c p c' (w : fworld R) j dj nj cj :
  handle i w d n c → is_u64 p → Z.of_nat (length c') < 2 ^ 63 → handle j w dj nj cj →
  ∃ dj', handle j (settle i d p n c' w) dj' nj (if decide (nj = n) then c' else cj) ∧
    f_offset (fd_file dj') = if decide (j = i) then p else f_offset (fd_file dj).
Proof.
  intros Hi Hp Hl Hj.
  assert (nodes (store (fw_fs (settle i d p n c' w))) !! nj = Some (FileNode (if decide (nj = n) then c' else cj))) as Hn.
  { cbn. destruct (decide (nj = n)) as [->|]; [by rewrite lookup_insert_eq|].
    rewrite lookup_insert_ne by done. apply Hj. }
  assert (Z.of_nat (length (if decide (nj = n) then c' else cj)) < 2 ^ 63) as Hlen.
  { destruct (decide (nj = n)); [done|apply Hj]. }
  destruct (decide (j = i)) as [->|Hne].
  - assert (dj = d) as -> by (pose proof (h_obj _ _ _ _ _ Hi); pose proof (h_obj _ _ _ _ _ Hj); congruence).
    exists (set_file (with_offset (fd_file d) p) d). split; [|done].
    split; try apply Hi; try done; [cbn; by rewrite lookup_insert_eq|apply (h_node _ _ _ _ _ Hj)].
  - exists dj. split; [|done].
    split; try apply Hj; try done. cbn. rewrite lookup_insert_ne by done. apply Hj.
Qed.

(** Settling with the contents as they are only moves the handle. *)
Lemma settle_same i d n c p (w : fworld R) :
  handle i w d n c → settle i d p n c w = put_desc i (set_file (with_offset (fd_file d) p) d) w.
Proof.
  intros Hh. unfold settle, put_fs, with_store, set_node.
  rewrite (insert_id (nodes _)) by apply Hh. destruct w as [[[] ? ?] ? ?]. done.
Qed.
Lemma put_same i d n c (w : fworld R) :
  handle i w d n c → put_desc i (set_file (with_offset (fd_file d) (f_offset (fd_file d))) d) w = w.
Proof.
  intros Hh. unfold put_desc, put_obj. rewrite insert_id.
  - by destruct w.
  - rewrite (h_obj _ _ _ _ _ Hh). by destruct d as [? [] ? ?].
Qed.
Lemma with_offset_twice f p q : with_offset (with_offset f p) q = with_offset f q.
Proof. done. Qed.

Lemma filedesc_read_ok i d n c len (w : fworld R) :
  handle i w d n c → f_offset (fd_file d) + Z.of_nat len < two64 →
  let bs := slice (f_offset (fd_file d)) len c in
  io_read i len w = (Ok bs, settle i d (f_offset (fd_file d) + Z.of_nat (length bs)) n c w).
Proof.
  intros Hh Hend bs. rewrite (settle_same _ _ _ _ _ _ Hh). cbn. unfold dispatch. rewrite (h_obj _ _ _ _ _ Hh).
  unfold filedesc_read, file_read. rewrite cap_access_spec, (proj1 (h_cap _ _ _ _ _ Hh)), (h_node _ _ _ _ _ Hh).
  cbn [mbind outcome_bind vread_at]. pose proof (h_pos _ _ _ _ _ Hh) as Hpos.
  rewrite (read_at_slice _ _ c) by (first [apply Hh | apply Hpos | done]). fold bs. rewrite wrap64_small; [done|].
  assert (length bs ≤ len)%nat by (unfold bs, slice; rewrite length_take; lia). destruct Hpos. split; lia.
Qed.
Lemma write_step_ok g f n c bs :
  f_node f = VNode n → nodes (store g) !! n = Some (FileNode c) → Z.of_nat (length c) < 2 ^ 63 →
  cap_contains (f_cap f) CAP_WRITE = true → is_append f = false →
  0 ≤ f_offset f → f_offset f + Z.of_nat (length bs) < 2 ^ 63 →
  write_step bs (g, f) =
    (Ok (Z.of_nat (length bs)),
     (with_store g (set_node n (FileNode (splice (f_offset f) bs c)) (store g)),
      with_offset f (f_offset f + Z.of_nat (length bs)))).
Proof.
  intros Hn Hc Hlen Hcap Happ Hoff Hend. unfold write_step, poll_file_write.
  rewrite cap_access_spec, Hcap, Happ, Hn. cbn [vwrite_at].
  rewrite (write_at_splice _ _ _ _ _ Hc) by done. cbn. rewrite wrap64_small; [done|]. unfold is_u64, two64. lia.
Qed.

(** The hole up to the position is filled, and the handle stands where it stood. *)
Lemma fill_hole_ok i d n c (w : fworld R) :
  handle i w d n c → f_offset (fd_file d) < 2 ^ 63 →
  let off := f_offset (fd_file d) in
  let c1 := if decide (Z.of_nat (length c) < off)
            then splice (Z.of_nat (length c)) (replicate (Z.to_nat (off - Z.of_nat (length c))) 0) c else c in
  fill_hole off (Z.of_nat (length c)) (fw_fs w, with_offset (fd_file d) off) =
    Ok (with_store (fw_fs w) (set_node n (FileNode c1) (store (fw_fs w))), with_offset (fd_file d) off) ∧
  Z.of_nat (length c1) < 2 ^ 63.
Proof.
  intros Hh Hoff off c1. unfold fill_hole, c1. pose proof (h_pos _ _ _ _ _ Hh) as [Hpos _]. fold off in Hpos, Hoff.
  pose proof (h_len _ _ _ _ _ Hh) as Hlen. case_decide as Hhole.
  - unfold poll_file_seek. rewrite cap_none. cbn [f_node with_offset f_cap]. rewrite (handle_attr _ _ _ _ _ Hh).
    cbn [mbind outcome_bind unwrap ok_or]. rewrite with_offset_twice.
    rewrite (write_step_ok _ _ n c); cbn [f_node f_cap is_append f_offset with_offset];
      [|apply Hh|apply Hh|done|apply Hh|apply Hh|lia|rewrite length_replicate; lia].
    split.
    + rewrite length_replicate, with_offset_twice. do 3 f_equal. lia.
    + unfold splice. rewrite !length_app, length_take, length_app, length_drop, !length_replicate. lia.
  - split; [|done]. unfold with_store, set_node. rewrite (insert_id (nodes _)) by apply Hh.
    by destruct (fw_fs w) as [[] ? ? ?].
Qed.

Lemma filedesc_write_ok i d n c bs (w : fworld R) :
  handle i w d n c → f_offset (fd_file d) + Z.of_nat (length bs) < 2 ^ 63 →
  io_write i bs w = (Ok (Z.of_nat (length bs)),
    settle i d (f_offset (fd_file d) + Z.of_nat (length bs)) n (splice (f_offset (fd_file d)) bs c) w).
Proof.
  intros Hh Hend. pose proof (h_pos _ _ _ _ _ Hh) as [Hpos Hmax].
  destruct (fill_hole_ok i d n c w Hh) as [Hfill Hlen]; [lia|].
  cbn. unfold dispatch. rewrite (h_obj _ _ _ _ _ Hh). unfold filedesc_write.
  rewrite (handle_seek _ _ _ _ _ (SeekCurrent 0) (f_offset (fd_file d)) Hh)
    by (unfold checked_add_u64; rewrite decide_True by (unfold U64_MAX; lia); f_equal; lia).
  unfold file_get_attr. cbn [f_cap with_offset f_node]. rewrite cap_none. cbn [mbind outcome_bind].
  rewrite (handle_attr _ _ _ _ _ Hh). cbn [at_size attr_new_file]. rewrite Hfill.
  erewrite write_step_ok;
    [|apply Hh|cbn; apply lookup_insert_eq|exact Hlen|apply Hh|apply Hh|done|exact Hend].
  unfold settle, put_fs, with_store, set_node. cbn. rewrite insert_insert_eq.
  case_decide as Hhole; [|done]. by rewrite splice_hole.
Qed.

(** The world settled, seen by every handle. *)
Lemma settle_moves i d n c p (u : list Z → list Z) (w : fworld R) :
  handle i w d n c → is_u64 p → Z.of_nat (length (u c)) < 2 ^ 63 → ∀ j, (∃ dj nj cj, handle j w dj nj cj) →
  let w' := settle i d p n (u c) w in
  (∃ dj nj cj, handle j w' dj nj cj) ∧ h_nid j w' = h_nid j w ∧
  h_contents j w' = (if decide (h_nid j w = h_nid i w) then u (h_contents j w) else h_contents j w) ∧
  h_offset j w' = (if decide (j = i) then p else h_offset j w).
Proof.
  intros Hi Hp Hl j (dj & nj & cj & Hj) w'.
  destruct (handle_settle i d n c p (u c) w j dj nj cj) as (dj' & Hj' & Ho); [done..|].
  destruct (handle_eqs _ _ _ _ _ Hi) as (-> & Hci & _). destruct (handle_eqs _ _ _ _ _ Hj) as (-> & -> & ->).
  destruct (handle_eqs _ _ _ _ _ Hj') as (Hn' & Hc' & Ho'). split; [by eauto|]. split; [done|].
  unfold w'. rewrite Hc', Ho', Ho. split; [|done]. destruct (decide (nj = n)) as [->|]; [|done].
  f_equal. pose proof (h_data _ _ _ _ _ Hi). pose proof (h_data _ _ _ _ _ Hj). congruence.
Qed.

#[export] Program Instance fworld_Files : Files (fworld R) := {
  fl_ok i w := ∃ d n c, handle i w d n c;
  fl_file := h_nid; fl_data := h_contents; fl_pos := h_offset
}.
Next Obligation.
  intros i w (d & n & c & Hh). destruct (handle_eqs _ _ _ _ _ Hh) as (_ & _ & ->). apply Hh.
Qed.
Next Obligation.
  intros i w (d & n & c & Hh). destruct (handle_eqs _ _ _ _ _ Hh) as (_ & _ & ->).
  cbn. unfold dispatch. rewrite (h_obj _ _ _ _ _ Hh). unfold filedesc_seek.
  pose proof (h_pos _ _ _ _ _ Hh) as [Hpos Hmax].
  rewrite (handle_seek _ _ _ _ _ (SeekCurrent 0) (f_offset (fd_file d)) Hh)
    by (unfold checked_add_u64; rewrite decide_True by (unfold U64_MAX; lia); f_equal; lia).
  by rewrite (put_same _ _ _ _ _ Hh).
Qed.
Next Obligation.
  intros i p w (d & n & c & Hh) Hp. exists (settle i d p n c w). split.
  - rewrite (settle_same _ _ _ _ _ _ Hh). cbn. unfold dispatch. rewrite (h_obj _ _ _ _ _ Hh). unfold filedesc_seek.
    by rewrite (handle_seek _ _ _ _ _ (SeekStart p) p Hh).
  - exact (settle_moves i d n c p id w Hh Hp (h_len _ _ _ _ _ Hh)).
Qed.
Next Obligation.
  intros i len w (d & n & c & Hh) Hend. destruct (handle_eqs _ _ _ _ _ Hh) as (_ & Hc & Ho).
  rewrite Ho in *. rewrite Hc. eexists. split; [exact (filedesc_read_ok _ _ _ _ _ _ Hh Hend)|].
  apply (settle_moves i d n c _ id w Hh); [|apply Hh].
  pose proof (h_pos _ _ _ _ _ Hh) as []. unfold slice. rewrite length_take. split; lia.
Qed.
Next Obligation.
  intros i bs w (d & n & c & Hh) Hend. destruct (handle_eqs _ _ _ _ _ Hh) as (_ & _ & Ho). rewrite Ho in *.
  eexists. split; [exact (filedesc_write_ok _ _ _ _ _ _ Hh Hend)|].
  pose proof (h_pos _ _ _ _ _ Hh) as []. pose proof (h_len _ _ _ _ _ Hh).
  apply (settle_moves i d n c _ (splice (f_offset (fd_file d)) bs) w Hh); [split; unfold two64; lia|].
  unfold splice. rewrite !length_app, length_take, length_app, length_drop, length_replicate. lia.
Qed.
End filedesc.

(** ** What the calls get wrong *)

Section flaws.
Context {W : Type} `{FileIO W}.

(** A descriptor that is not open, or out of range, panics the kernel in the calls
    that index the table; so does a negative descriptor handed to [ppoll]. *)
Lemma pread64_bad_fd_panics into fd buf count off (w : sysw W) :
  fd_map (sw_table w) !! fd = None → 0 ≤ fd → (run (syscall_pread64 into fd buf count off) w).1 = SPanic.
Proof.
  intros Hfd Hpos. rewrite lookup_fd_map in Hfd by done. unfold run, syscall_pread64, index_fd. call_simp.
  by destruct (sw_table w !! Z.to_nat fd) as [[f|]|].
Qed.
Lemma ppoll_negative_fd_panics fd events revents (w : sysw W) :
  - 2 ^ 31 ≤ fd < 0 → Z.of_nat (length (sw_table w)) ≤ 2 ^ 32 → (poll_one (mk_pollfd fd events revents) w).1 = inr SPanic.
Proof.
  intros Hfd Hlen. unfold poll_one. call_simp. replace (wrap64 fd) with (fd + two64).
  - rewrite lookup_ge_None_2; [done|]. unfold two64. lia.
  - unfold wrap64, two64. apply (Z.mod_unique_pos _ _ (-1)); lia.
Qed.

(** [fcntl(F_SETFL)] answers success and changes nothing. *)
Lemma setfl_changes_nothing fd arg f (w : sysw W) :
  sw_table w !! Z.to_nat fd = Some (Some f) → open_flags_from_bits (wrap32 arg) = Some (wrap32 arg) →
  run (syscall_fcntl64 fd 4 arg) w = (SOk 0, w).
Proof. intros E Ef. unfold run, syscall_fcntl64, open_fd. call_simp. rewrite E. call_simp. by rewrite Ef. Qed.

(** [pipe2] with one free descriptor fails and leaves the read end open in it. *)
Lemma pipe2_leaks_read_end fd flags r wr io' (w : sysw W) k f :
  manual_alloc_for_lazy_ok (sw_mem w) fd = true → sw_table w = replicate k (Some f) → sw_limit w = Z.of_nat (S k) →
  io_make_pipe (open_flags_from flags) (sw_io w) = ((r, wr), io') →
  ∃ w', run (syscall_pipe2 fd flags) w = (SErr EPERM, w') ∧ sw_table w' = replicate k (Some f) ++ [Some r].
Proof.
  intros Hm Ht Hl Hp. assert (∀ i, first_none i (replicate k (Some f)) = None) as Hfn.
  { clear. induction k; intros; simpl; auto. }
  assert (∀ i l, first_none i (replicate k (Some f) ++ [Some l]) = None) as Hfn'.
  { clear. induction k; intros; simpl; auto. }
  unfold run, syscall_pipe2, check_addr. call_simp. rewrite Hm. call_simp. rewrite Hp. call_simp.
  rewrite Ht, Hl. unfold alloc_fd. rewrite Hfn, decide_False by (rewrite length_replicate; lia). call_simp.
  rewrite length_app, length_replicate. replace (Z.to_nat _) with (k + 0)%nat by (simpl; lia).
  rewrite insert_app_r_alt by (rewrite length_replicate; lia). rewrite length_replicate, Nat.add_sub_swap by lia.
  rewrite Nat.sub_diag. cbn [list_insert insert Nat.add]. rewrite Hfn'.
  rewrite decide_True by (rewrite length_app, length_replicate; simpl; lia). call_simp. eauto.
Qed.

(** The bit set of [pselect6] with no descriptors is cleared as one of 2^64 bits. *)
Lemma empty_select_clears_everything addr m :
  bitset_clear (mk_bitset addr 0) m = clear_words (Z.to_nat (2 ^ 58)) addr m.
Proof.
  unfold bitset_clear. cbn [sb_len sb_addr].
  replace (wrap64 (0 - 1) / 64 + 1) with (2 ^ 58) by (vm_compute; reflexivity). reflexivity.
Qed.
End flaws.

Section file_flaws.
Context `{CapabilityLaws}.

(** A file that is open for reading is never reported ready to be read: the test of
    [ready_to_read] is inverted.  So is that of [ready_to_write]. *)
Lemma open_files_never_ready g d :
  (filedesc_readable d = true → (filedesc_ready_to_read g d).1 = Ok false) ∧
  (filedesc_writable d = true → (filedesc_ready_to_write g d).1 = Ok false).
Proof. unfold filedesc_ready_to_read, filedesc_ready_to_write. by split; intros ->. Qed.

(** Opening with [O_TRUNC] does not truncate. *)
Lemma open_ignores_trunc flags : o_truncate (new_file_options flags) = false.
Proof. done. Qed.

(** [dup3] with [O_CLOEXEC] marks the file, and with it every descriptor of it. *)
Lemma dup3_marks_the_file {R} `{FileIO R} fd new i d (w : sysw (fworld R)) :
  sw_table w !! Z.to_nat fd = Some (Some i) → fw_objs (sw_io w) !! i = Some (OFile d) →
  fd ≠ new → 0 ≤ new < Z.of_nat (length (sw_table w)) →
  ∃ w', run (syscall_dup3 fd new O_CLOEXEC) w = (SOk new, w') ∧
    io_get_status i (sw_io w') = Z.lor (fd_flags d) CLOEXEC.
Proof.
  intros Ht Hd Hne Hnew. unfold run, syscall_dup3, open_fd. call_simp. rewrite Ht. call_simp.
  rewrite bool_decide_false by done. call_simp. rewrite decide_False by lia. call_simp.
  rewrite decide_True by done. cbn. unfold dispatch. rewrite Hd. cbn. eexists. split; [done|]. cbn.
  unfold dispatch. cbn. by rewrite lookup_insert_eq.
Qed.
End file_flaws.

(** [pread64] moves the position of the file while it reads: another task that
    reads through the same file in between gets the bytes at its offset. *)
Lemma pread64_disturbs_reader {W} `{Files W} i off n (w : sysw W) :
  fl_ok i (sw_io w) → is_u64 off → off + Z.of_nat n < two64 →
  ∃ io io' , put_position i off w = (inl (), with_io io w) ∧
    io_read i n io = (Ok (slice off n (fl_data i (sw_io w))), io').
Proof.
  intros Hi Hoff Hend. destruct (put_position_ok i off w Hi Hoff) as (io & E & M).
  destruct (moves_ok _ _ _ _ _ Hi M) as (Hi' & P & D). destruct (fl_read i n io Hi') as (io' & E' & _); [by rewrite P|].
  exists io, io'. split; [done|]. rewrite E', P, D. done.
Qed.

(** ** Witnesses *)

(** A world without pipes, sockets and the like: the trait's defaults. *)
Inductive no_files := no_file.
#[export] Instance no_files_FileIO : FileIO no_files := {
  io_read _ _ w := (Err Unsupported, w); io_write _ _ w := (Err Unsupported, w);
  io_seek _ _ w := (Err Unsupported, w); io_truncate _ _ w := (Err Unsupported, w);
  io_get_type _ _ := Other; io_readable _ _ := false; io_writable _ _ := false;
  io_get_status _ _ := 0; io_set_status _ _ w := (false, w); io_set_close_on_exec _ _ w := (false, w);
  io_in_exceptional_conditions _ _ := false; io_is_hang_up _ _ := false;
  io_ready_to_read _ w := (Ok false, w); io_ready_to_write _ w := (Ok false, w); io_socket _ _ := None;
  io_make_pipe _ w := ((100, 101), w); io_new_eventfd _ _ w := (102, w); io_new_epoll w := (103, w)
}.

Definition demo_fs : gfs :=
  {| store := {| nodes := {[ 3%nat := FileNode [1; 2; 3; 4]; 4%nat := FileNode [9] ]}; next_id := 5; counters := [] |};
     root_dir := {| main_fs := 0; mounts := [] |}; cur_dir := VRoot; cur_path := [SLASH] |}.
Definition demo_file (n : nid) : file_desc :=
  filedesc_new (lit "/f") {| f_node := VNode n; f_cap := 3; is_append := false; f_offset := 0 |} RDWR.
Definition demo_world : fworld no_files :=
  mk_fworld demo_fs {[ 10 := OFile (demo_file 3); 11 := OFile (demo_file 4) ]} no_file.
Definition demo_proc : sysw (fworld no_files) :=
  mk_sysw demo_world [None; None; None; Some 10; Some 11] 8 (mk_usermem ∅ {[ 64 := 7; 65 := 8 ]}).

Lemma demo_handles : fl_ok 10 demo_world ∧ fl_ok 11 demo_world.
Proof.
  split; [exists (demo_file 3), 3%nat, [1; 2; 3; 4]|exists (demo_file 4), 4%nat, [9]];
    (split; [reflexivity..|by split|reflexivity|by split]).
Qed.

Lemma descriptors_refine_map_witness :
  fd_specs 8 [Dup 3; Dup3 3 6 0; Close 3] (fd_map (sw_table demo_proc)) [SOk 0; SOk 6; SOk 0]
    (fd_map [Some 10; None; None; None; Some 11; None; Some 10]).
Proof.
  pose proof (descriptors_refine_map [Dup 3; Dup3 3 6 0; Close 3] demo_proc) as H.
  apply H; [repeat constructor; simpl; lia|simpl; lia].
Defined.

Lemma pwrite_then_pread_witness :
  ∃ io io', run (syscall_pwrite64 (λ _, EINVAL) 3 64 2 1) demo_proc = (SOk 2, with_io io demo_proc) ∧
    run (syscall_pread64 (λ _, EINVAL) 3 80 2 1) (with_io io demo_proc) =
      (SOk 2, with_mem (store_bytes (sw_mem demo_proc) 80 [7; 8]) (with_io io' demo_proc)) ∧
    moves 10 0 (splice 1 [7; 8]) (sw_io demo_proc) io'.
Proof.
  assert (load_bytes (sw_mem demo_proc) 64 (Z.to_nat 2) = [7; 8]) as Hb by (vm_compute; reflexivity).
  assert (fl_pos 10 (sw_io demo_proc) = 0) as Hp by (vm_compute; reflexivity).
  pose proof (pwrite_then_pread (λ _, EINVAL) 3 64 80 2 1 10 demo_proc) as H.
  rewrite Hb, Hp in H. apply H; [reflexivity|exact (proj1 demo_handles)|unfold is_u64, two64; lia|lia|lia].
Defined.

Lemma copyfilerange_copies_witness :
  ∃ io, run (syscall_copyfilerange 3 0 4 0 3) demo_proc = (SOk 3, with_mem (sw_mem demo_proc) (with_io io demo_proc)) ∧
    moves2 10 3 11 3 (splice 0 [1; 2; 3]) (sw_io demo_proc) io.
Proof.
  assert (pos_at 0 10 demo_proc = 0) as Hi by (vm_compute; reflexivity).
  assert (pos_at 0 11 demo_proc = 0) as Ho by (vm_compute; reflexivity).
  assert (slice 0 (Z.to_nat 3) (fl_data 10 (sw_io demo_proc)) = [1; 2; 3]) as Hd by (vm_compute; reflexivity).
  pose proof (copyfilerange_copies 3 0 4 0 3 10 11 demo_proc) as H. cbv zeta in H. rewrite Hi, Ho, Hd in H.
  apply H; [reflexivity|reflexivity|exact (proj1 demo_handles)|exact (proj2 demo_handles)|done|done|done
    |vm_compute; split; [discriminate|reflexivity]|vm_compute; split; [discriminate|reflexivity]
    |vm_compute; reflexivity|vm_compute; reflexivity].
Defined.
