(* ===== verification/FsPaths.v ===== *)
(** * System calls on paths

    modules/syscall/src/syscall_fs/imp/mod.rs ([solve_path]), [openat] and
    [readlinkat] of io.rs, the path calls of ctl.rs, link.rs, mount.rs and stat.rs,
    and the table of mounted devices of ctype/mount.rs.

    A call works on the file system and its open files, the tables of links, inode
    numbers and mounted devices, and the working directory and program path of the
    process.  File system operations that wait for a lock they hold themselves end
    a call with [SHang]. *)

From S2P Require Import Prelude BTree Path Vfs RootFs Fops UserMem TimeStat Link FdManager FdCalls FileObj.

Open Scope Z_scope.

Record pworld (R : Type) := mk_pworld {
  pw_files : fworld R; pw_next : Z; pw_links : links; pw_inodes : gmap (list Z) Z;
  pw_mounted : list (str * str); pw_cwd : str; pw_exe : str
}.
Arguments mk_pworld {R}.
Arguments pw_files {R}.
Arguments pw_next {R}.
Arguments pw_links {R}.
Arguments pw_inodes {R}.
Arguments pw_mounted {R}.
Arguments pw_cwd {R}.
Arguments pw_exe {R}.

(** [Kstat], as [stat] and its relatives fill it in. *)
Record Kstat := mk_kstat {
  st_dev : Z; st_ino : Z; st_mode : Z; st_nlink : Z; st_uid : Z; st_gid : Z; st_rdev : Z;
  st_size : Z; st_blksize : Z; st_blocks : Z; st_atime : TimeSecs; st_mtime : TimeSecs; st_ctime : TimeSecs
}.
Definition store_Kstat (m : usermem) (a : Z) (k : Kstat) : usermem :=
  let put (x : Z * nat * Z) m := let '(off, n, v) := x in store_le m (a + off) n v in
  foldl (λ m x, put x m) m
    [(0, 8%nat, st_dev k); (8, 8%nat, st_ino k); (16, 4%nat, st_mode k); (20, 4%nat, st_nlink k);
     (24, 4%nat, st_uid k); (28, 4%nat, st_gid k); (32, 8%nat, st_rdev k); (40, 8%nat, 0);
     (48, 8%nat, st_size k); (56, 4%nat, st_blksize k); (60, 4%nat, 0); (64, 8%nat, st_blocks k);
     (72, 8%nat, tv_sec (st_atime k)); (80, 8%nat, tv_nsec (st_atime k));
     (88, 8%nat, tv_sec (st_mtime k)); (96, 8%nat, tv_nsec (st_mtime k));
     (104, 8%nat, tv_sec (st_ctime k)); (112, 8%nat, tv_nsec (st_ctime k))].

Definition S_IFREG : Z := Z.shiftl 1 15.
Definition S_IFDIR : Z := Z.shiftl 1 14.
Definition S_IFCHR : Z := Z.shiftl 1 13.
Definition normal_file_mode (file_type : Z) : Z :=
  Z.lor (Z.lor (Z.lor (Z.lor file_type (Z.shiftl 1 7)) (Z.shiftl 1 8)) (Z.shiftl 1 5)) (Z.shiftl 1 2).

(** [DirDesc::get_stat], and the rest of [get_stat_in_fs] for devices. *)
Definition dir_stat : Kstat :=
  mk_kstat 1 0 (normal_file_mode S_IFDIR) 1 0 0 0 0 0 0 time_zero time_zero time_zero.
Definition char_stat : Kstat :=
  mk_kstat 0 0 (normal_file_mode S_IFCHR) 1 0 0 0 0 0 0 time_zero time_zero time_zero.

Definition O_READ : OpenOptions :=
  {| o_read := true; o_write := false; o_append := false; o_truncate := false; o_create := false; o_create_new := false |}.

Section paths.
Context {R : Type} `{FileIO R} `{Capability} (alive : nid → bool).
Notation pcall := (call (pworld R)).

(** ** The world *)

Definition hang {A} : pcall A := λ w, (inr SHang, w).
Definition the_fs (w : sysw (pworld R)) : gfs := fw_fs (pw_files (sw_io w)).
Definition modify (f : pworld R → pworld R) : pcall unit := λ w,
  (inl (), mk_sysw (f (sw_io w)) (sw_table w) (sw_limit w) (sw_mem w)).

Definition set_files (x : fworld R) (w : pworld R) : pworld R :=
  mk_pworld x (pw_next w) (pw_links w) (pw_inodes w) (pw_mounted w) (pw_cwd w) (pw_exe w).
Definition set_links (l : links) (w : pworld R) : pworld R :=
  mk_pworld (pw_files w) (pw_next w) l (pw_inodes w) (pw_mounted w) (pw_cwd w) (pw_exe w).
Definition set_inodes (m : gmap (list Z) Z) (w : pworld R) : pworld R :=
  mk_pworld (pw_files w) (pw_next w) (pw_links w) m (pw_mounted w) (pw_cwd w) (pw_exe w).
Definition set_mounted (l : list (str * str)) (w : pworld R) : pworld R :=
  mk_pworld (pw_files w) (pw_next w) (pw_links w) (pw_inodes w) l (pw_cwd w) (pw_exe w).
Definition set_cwd (c : str) (w : pworld R) : pworld R :=
  mk_pworld (pw_files w) (pw_next w) (pw_links w) (pw_inodes w) (pw_mounted w) c (pw_exe w).

(** A new object: its identity is fresh. *)
Definition new_object (o : fobj) : pcall Z := λ w,
  let p := sw_io w in
  (inl (pw_next p),
   mk_sysw (mk_pworld (put_obj (pw_next p) o (pw_files p)) (pw_next p + 1) (pw_links p) (pw_inodes p)
              (pw_mounted p) (pw_cwd p) (pw_exe p)) (sw_table w) (sw_limit w) (sw_mem w)).

(** An operation of the file system. *)
Definition in_fs {A} (f : gfs → option (outcome (A * gfs))) : pcall (outcome A) :=
  g ← reads the_fs;
  match f g with
  | None => hang
  | Some Panic => panic
  | Some (Err e) => mret (Err e)
  | Some (Ok (a, g)) => _ ← modify (λ w, set_files (put_fs g (pw_files w)) w); mret (Ok a)
  end.
Definition in_fs_ (f : gfs → option (outcome gfs)) : pcall (outcome unit) :=
  in_fs (λ g, let! g := f g in Some (Ok ((), g))).

Definition exists_path (path : str) : pcall bool :=
  g ← reads the_fs;
  match path_exists alive g path with Ok b => mret b | Err _ => mret false | Panic => panic end.
(** [async_fs::api::metadata]: the file is opened for reading. *)
Definition metadata (path : str) : pcall (outcome VfsNodeAttr) :=
  in_fs (λ g, let! fg := open_at alive g None path O_READ in
              let! attr := Some (file_get_attr fg.2 fg.1) in Some (Ok (attr, fg.2))).
Definition metadata_unwrap (path : str) : pcall VfsNodeAttr :=
  r ← metadata path; match r with Ok a => mret a | _ => panic end.

(** ** [solve_path] *)

Definition obj_path (i : Z) (x : fworld R) : str :=
  dispatch i x fd_file_path id (lit "Function get_path not implemented").
Definition fd_views (w : sysw (pworld R)) : list (option fd_view) :=
  (λ o, match o with
        | Some i => Some (mk_fd (io_get_type i (pw_files (sw_io w))) (obj_path i (pw_files (sw_io w))))
        | None => None
        end) <$> sw_table w.
(** An address outside every area is [InvalidInput]. *)
Definition alloc_path (m : usermem) (a : Z) : outcome unit :=
  if manual_alloc_for_lazy_ok m a then Ok () else Err InvalidInput.

Definition solve_path (dir_fd : Z) (path_addr : option Z) (force_dir : bool) : pcall str :=
  r ← reads (λ w, deal_with_path (the_fs w) (pw_links (sw_io w)) (sw_mem w) (alloc_path (sw_mem w))
                    (pw_cwd (sw_io w)) (fd_views w) dir_fd path_addr force_dir);
  match r with
  | Ok p => mret p
  | Err InvalidInput => fail EBADF
  | Err NotFound => fail ENOENT
  | Err NotADirectory => fail ENOTDIR
  | Err BadAddress => fail EFAULT
  | Err _ => fail EPERM
  | Panic => panic
  end.

(** [FilePath::new(..).unwrap()]. *)
Definition filepath (path : str) : pcall str :=
  r ← reads (λ w, filepath_new (the_fs w) (pw_links (sw_io w)) path);
  match r with Ok p => mret p | _ => panic end.

(** ** Opening *)

Definition link_self (path : str) : pcall unit :=
  r ← reads (λ w, create_link alive (the_fs w) (pw_links (sw_io w)) path path);
  match r with
  | Ok (_, L) => modify (set_links L)
  | Err _ => mret ()
  | Panic => panic
  end.

Definition syscall_openat (fd path flags : Z) : pcall Z :=
  let fl := open_flags_from flags in
  path ← solve_path fd (Some path) (flags_is_dir fl);
  fd_num ← new_slot EMFILE;
  _ ← modify (λ w, set_inodes (new_inode path (pw_inodes w)) w);
  if is_dir path then
    r ← in_fs_ (λ g, new_dir alive g path);
    match r with
    | Ok _ => i ← new_object (ODir path); _ ← install fd_num i; mret fd_num
    | _ => fail ENOENT
    end
  else
    r ← in_fs (λ g, new_fd alive g path fl);
    match r with
    | Ok d => i ← new_object (OFile d); _ ← install fd_num i; _ ← link_self path; mret fd_num
    | _ => fail ENOENT
    end.

(** ** Directories *)

Definition syscall_getcwd (buf len : Z) : pcall Z :=
  cwd ← reads (λ w, utf8 (pw_cwd (sw_io w)) ++ [0]);
  if decide (Z.of_nat (length cwd) ≤ len) then
    _ ← check_range buf (wrap64 (buf + len)) EINVAL;
    _ ← set_mem (λ m, store_bytes m buf cwd);
    mret buf
  else fail ERANGE.

(** The future of [create_dir] is dropped. *)
Definition syscall_mkdirat (dir_fd path : Z) : pcall Z :=
  path ← solve_path dir_fd (Some path) true;
  ex ← exists_path path;
  _ ← check (negb ex) EEXIST;
  ex ← exists_path path;
  if ex : bool then mret 0 else fail EPERM.

Definition syscall_chdir (path : Z) : pcall Z :=
  path ← solve_path AT_FDCWD (Some path) true;
  _ ← modify (set_cwd path);
  mret 0.

(** [ReadDir]: the entries in blocks of 31, without the dot entries; an error ends
    the stream with a panic of the caller. *)
Fixpoint read_dir_entries (fuel : nat) (g : gfs) (d : Directory) : option (outcome (list VfsDirEntry)) :=
  match fuel with
  | O => None
  | S fuel =>
      match dir_read_dir g d 31 with
      | (Ok [], _) => Some (Ok [])
      | (Ok es, d) =>
          match read_dir_entries fuel g d with
          | Some (Ok rest) =>
              Some (Ok (base.filter (λ e, name_as_bytes (d_name e) ≠ [DOT] ∧
                                            name_as_bytes (d_name e) ≠ [DOT; DOT]) es ++ rest))
          | r => r
          end
      | (Err e, _) => Some (Err e)
      | (Panic, _) => Some Panic
      end
  end.

Definition DIRENT_FIXED : Z := 19.
Definition dirent_type (ty : VfsNodeType) : Z :=
  if type_is_dir ty then 4 else if type_is_file ty then 8 else 0.
Definition set_fixed_part (m : usermem) (a off reclen ty : Z) : usermem :=
  store_le (store_le (store_le (store_le m a 8 1) (a + 8) 8 off) (a + 16) 2 reclen) (a + 18) 1 ty.

(** Where the last call stopped, read off the entries it left in the buffer. *)
Fixpoint scan_buf (fuel : nat) (m : usermem) (buf len buf_offset all_offset : Z) : Z :=
  match fuel with
  | O => all_offset
  | S fuel =>
      if decide (len ≤ buf_offset + DIRENT_FIXED) then all_offset
      else
        let reclen := load_le m (buf + buf_offset + 16) 2 in
        let d_off := load_le m (buf + buf_offset + 8) 8 in
        if decide (reclen = 0) then all_offset
        else if decide (all_offset < d_off) then scan_buf fuel m buf len (buf_offset + reclen) d_off
        else all_offset
  end.

(** The loop over the entries: the memory, the bytes written and the offset. *)
Fixpoint put_entries (es : list VfsDirEntry) (buf len all_offset : Z) (m : usermem) (count offset : Z)
    : usermem * Z * Z :=
  match es with
  | [] => (m, count, offset)
  | e :: es =>
      let name := name_as_bytes (d_name e) ++ [0] in
      let entry_size := DIRENT_FIXED + Z.of_nat (length name) + 1 in
      if decide (len < count + entry_size + DIRENT_FIXED + 1) then (m, count, offset)
      else
        let offset := offset + entry_size in
        if decide (offset ≤ all_offset) then put_entries es buf len all_offset m count offset
        else
          let m := set_fixed_part m (buf + count) offset entry_size (dirent_type (d_type e)) in
          let m := store_bytes m (buf + count + DIRENT_FIXED) name in
          put_entries es buf len all_offset m (count + entry_size) offset
  end.

Definition syscall_getdents64 (fuel : nat) (fd buf len : Z) : pcall Z :=
  path ← solve_path fd None true;
  _ ← check_range buf (wrap64 (buf + len)) EFAULT;
  _ ← check (bool_decide (DIRENT_FIXED ≤ len)) EINVAL;
  m ← reads sw_mem;
  let all_offset := scan_buf (Z.to_nat len + 1) m buf len 0 0 in
  g ← reads the_fs;
  match open_dir_at alive g None path O_READ with
  | Ok d =>
      match read_dir_entries fuel g d with
      | Some (Ok es) =>
          let '(m, count, offset) := put_entries es buf len all_offset m 0 0 in
          let m := if decide (count ≠ 0 ∧ count + DIRENT_FIXED ≤ len)
                   then set_fixed_part m (buf + count) offset DIRENT_FIXED 8 else m in
          _ ← set_mem (λ _, m);
          mret count
      | Some _ => panic
      | None => hang
      end
  | _ => panic
  end.

(** ** Renaming and removing *)

Definition NOREPLACE : Z := 1.
Definition EXCHANGE : Z := 2.
Definition WHITEOUT : Z := 4.
Definition rename_flags_from_bits (v : Z) : option Z :=
  if decide (Z.land v (Z.lnot (Z.lor (Z.lor NOREPLACE EXCHANGE) WHITEOUT)) = 0) then Some v else None.

(** Before anything is changed: the flags, and that the two are of one kind. *)
Definition rename_checks (old_path new_path : str) (flags : Z) : pcall Z :=
  proc_path ← filepath (lit "/proc");
  _ ← check (negb (start_with old_path proc_path || start_with new_path proc_path)) EPERM;
  flags ← (match rename_flags_from_bits (wrap32 flags) with Some f => mret f | None => fail EINVAL end);
  _ ← (if of_contains flags NOREPLACE then
         _ ← check (negb (of_contains flags EXCHANGE)) EINVAL;
         ex ← exists_path new_path;
         check (negb ex) EEXIST
       else mret ());
  _ ← (if negb (of_contains flags EXCHANGE) then
         ex ← exists_path new_path;
         if ex : bool then
           old_metadata ← metadata_unwrap old_path;
           new_metadata ← metadata_unwrap new_path;
           if xorb (type_is_dir (at_ty old_metadata)) (type_is_dir (at_ty new_metadata))
           then if type_is_dir (at_ty old_metadata) then fail ENOTDIR else fail EISDIR
           else mret ()
         else mret ()
       else check (negb (of_contains flags WHITEOUT)) EINVAL);
  ex ← exists_path old_path;
  _ ← check ex ENOENT;
  mret flags.

(** The new name is removed when it is taken, then the old one renamed. *)
Definition rename_move (old_path new_path : str) : pcall Z :=
  ex ← exists_path new_path;
  _ ← (if ex : bool then
         new_metadata ← metadata_unwrap new_path;
         r ← (if type_is_dir (at_ty new_metadata) then in_fs_ (λ g, remove_dir alive g None new_path)
              else if type_is_file (at_ty new_metadata) then in_fs_ (λ g, remove_file alive g None new_path)
              else mret (Ok ()));
         check (is_ok r) EPERM
       else mret ());
  r ← in_fs_ (λ g, rename alive g old_path new_path);
  _ ← check (is_ok r) EPERM;
  mret 0.

Definition syscall_renameat2 (old_dirfd old_path new_dirfd new_path flags : Z) : pcall Z :=
  old_path ← solve_path old_dirfd (Some old_path) false;
  new_path ← solve_path new_dirfd (Some new_path) false;
  flags ← rename_checks old_path new_path flags;
  if decide (old_path = new_path) then mret 0
  else if negb (of_contains flags EXCHANGE) then rename_move old_path new_path
  else fail EPERM.

Definition AT_REMOVEDIR : Z := 512.

Definition sys_linkat (old_dir_fd old_path new_dir_fd new_path : Z) : pcall Z :=
  old_path ← solve_path old_dir_fd (Some old_path) false;
  new_path ← solve_path new_dir_fd (Some new_path) false;
  r ← reads (λ w, create_link alive (the_fs w) (pw_links (sw_io w)) old_path new_path);
  match r with
  | Ok (b, L) => _ ← modify (set_links L); if b : bool then mret 0 else fail EINVAL
  | _ => panic
  end.

Definition syscall_unlinkat (dir_fd path flags : Z) : pcall Z :=
  path ← solve_path dir_fd (Some path) false;
  proc_path ← filepath (lit "/proc");
  if start_with path proc_path then mret (-1)
  else if decide (flags = AT_REMOVEDIR) then
    r ← in_fs_ (λ g, remove_dir alive g None path);
    _ ← check (is_ok r) EINVAL;
    mret 0
  else
    attr ← metadata_unwrap path;
    _ ← check (negb (type_is_dir (at_ty attr))) EISDIR;
    r ← reads (λ w, remove_link (pw_links (sw_io w)) path);
    match r with
    | Ok (Some _, L) => _ ← modify (set_links L); mret 0
    | Ok (None, L) => _ ← modify (set_links L); fail EINVAL
    | _ => panic
    end.

(** ** Permissions and times *)

(** The permissions are set in the copy that [metadata] gave. *)
Definition syscall_fchmodat (dir_fd path : Z) : pcall Z :=
  path ← solve_path dir_fd (Some path) false;
  r ← metadata path;
  match r with Ok _ => mret 0 | _ => fail ENOENT end.

Definition syscall_faccessat (dir_fd path mode : Z) : pcall Z :=
  path ← solve_path dir_fd (Some path) false;
  r ← metadata path;
  match r with
  | Ok attr =>
      if decide (mode = 0) then
        ex ← exists_path path; if ex : bool then mret 0 else fail ENOENT
      else
        let ask bit (b : bool) := negb (bool_decide (Z.land mode bit ≠ 0)) || b in
        let ret := ask 1 (owner_executable (at_mode attr)) && ask 2 (owner_writable (at_mode attr)) &&
                   ask 4 (owner_readable (at_mode attr)) in
        mret ((if ret : bool then 1 else 0) - 1)
  | _ => fail ENOENT
  end.

Definition set_times (now : Z) (atime mtime : TimeSecs) (d : file_desc) : file_desc :=
  mk_fdesc (fd_file_path d) (fd_file d) (fd_flags d)
    (mk_meta (set_as_utime now atime (m_atime (fd_stat d))) (set_as_utime now mtime (m_mtime (fd_stat d)))
             (m_ctime (fd_stat d))).

(** With a descriptor the times of the open file are set; with a path those of a
    new one, which is dropped. *)
Definition syscall_utimensat (now dir_fd path times : Z) : pcall Z :=
  _ ← check (negb (bool_decide (dir_fd ≠ AT_FDCWD ∧ to_i64 dir_fd < 0))) EBADF;
  _ ← (if decide (dir_fd = AT_FDCWD) then check_addr path EFAULT else mret ());
  '(atime, mtime) ← (if decide (times = 0) then mret (timesecs_now now, timesecs_now now) else
    m ← reads sw_mem;
    _ ← check (manual_alloc_type_for_lazy_ok m times 16) EFAULT;
    mret (load_TimeSecs m times, load_TimeSecs m (times + 16)));
  if decide (0 < to_i64 dir_fd) then
    t ← reads sw_table;
    _ ← check (negb (bool_decide (Z.of_nat (length t) < dir_fd))) EBADF;
    match t !! Z.to_nat dir_fd with
    | None => panic
    | Some None => fail EBADF
    | Some (Some i) =>
        o ← reads (λ w, fw_objs (pw_files (sw_io w)) !! i);
        match o with
        | Some (OFile d) =>
            _ ← modify (λ w, set_files (put_desc i (set_times now atime mtime d) (pw_files w)) w);
            mret 0
        | _ => fail EPERM
        end
    end
  else
    path ← solve_path dir_fd (Some path) false;
    ex ← exists_path path;
    if negb ex then
      match dir path with
      | Ok d => ex ← exists_path d; if ex : bool then fail ENOENT else fail ENOTDIR
      | _ => panic
      end
    else
      r ← in_fs (λ g, new_fd alive g path 0);
      match r with Ok _ => mret 0 | _ => panic end.

(** The answer is the whole length, also where the buffer was shorter. *)
Definition copy_out (buf bufsiz : Z) (s : list Z) : pcall Z :=
  let len := Z.to_nat (Z.min bufsiz (Z.of_nat (length s))) in
  _ ← set_mem (λ m, store_bytes m buf (take len s));
  mret (Z.of_nat (length s)).

Definition syscall_readlinkat (dir_fd path buf bufsiz : Z) : pcall Z :=
  _ ← check_addr path EFAULT;
  _ ← (if decide (buf = 0) then mret () else check_addr buf EFAULT);
  path ← solve_path dir_fd (Some path) false;
  if decide (path = lit "/proc/self/exe") then
    exe ← reads (λ w, pw_exe (sw_io w)); copy_out buf bufsiz (utf8 exe)
  else
    real ← reads (λ w, real_path (pw_links (sw_io w)) path);
    if decide (path = real) then fail EINVAL else copy_out buf bufsiz (utf8 path).

(** ** Mounted devices *)

Definition check_mounted (path : str) : pcall bool :=
  reads (λ w, existsb (λ m, start_with path m.2) (pw_mounted (sw_io w))).

Definition mount_fat_fs (device mount_path : str) : pcall bool :=
  ex ← exists_path mount_path;
  if ex : bool then
    if is_file device && is_dir mount_path
    then _ ← modify (λ w, set_mounted (pw_mounted w ++ [(device, mount_path)]) w); mret true
    else panic
  else mret false.

(** The first device mounted there. *)
Fixpoint remove_mounted (mount_path : str) (l : list (str * str)) : option (list (str * str)) :=
  match l with
  | [] => None
  | m :: l =>
      if equal_to m.2 mount_path then Some l
      else match remove_mounted mount_path l with Some l => Some (m :: l) | None => None end
  end.
Definition umount_fat_fs (mount_path : str) : pcall bool :=
  l ← reads (λ w, pw_mounted (sw_io w));
  match remove_mounted mount_path l with
  | Some l => _ ← modify (set_mounted l); mret true
  | None => mret false
  end.

Definition user_string (a : Z) : pcall str :=
  _ ← check_addr a EINVAL;
  reads (λ w, default [] (raw_ptr_to_ref_str (sw_mem w) a)).

Definition syscall_mount (special dir fs_type data : Z) : pcall Z :=
  device_path ← solve_path AT_FDCWD (Some special) false;
  mount_path ← solve_path AT_FDCWD (Some dir) true;
  fs_type ← user_string fs_type;
  _ ← (if decide (data = 0) then mret [] else user_string data);
  _ ← check (negb (is_dir device_path)) EPERM;
  _ ← check (is_dir mount_path) EPERM;
  ex ← exists_path mount_path;
  _ ← (if ex : bool then mret () else
         r ← in_fs_ (λ g, create_dir alive g None mount_path); check (is_ok r) EPERM);
  _ ← check (bool_decide (fs_type = lit "vfat")) EPERM;
  ex ← exists_path mount_path;
  _ ← check ex EPERM;
  mounted ← check_mounted mount_path;
  _ ← check (negb mounted) EPERM;
  ok ← mount_fat_fs device_path mount_path;
  _ ← check ok EPERM;
  mret 0.

Definition syscall_umount (dir flags : Z) : pcall Z :=
  mount_path ← solve_path AT_FDCWD (Some dir) true;
  _ ← check (bool_decide (flags = 0)) EPERM;
  ex ← exists_path mount_path;
  _ ← check ex EPERM;
  ok ← umount_fat_fs mount_path;
  _ ← check ok EPERM;
  mret 0.

(** ** File status *)

Section stat.
Context (block_size : Z) (rest_stat : Z → R → outcome Kstat).

(** [FileDesc::get_stat]; a path that was never opened gets its number now. *)
Definition filedesc_get_stat (d : file_desc) : pcall (outcome Kstat) :=
  g ← reads the_fs;
  match file_get_attr g (fd_file d) with
  | Ok attr =>
      _ ← modify (λ w, set_inodes (new_inode (fd_file_path d) (pw_inodes w)) w);
      ino ← reads (λ w, default 0 (pw_inodes (sw_io w) !! fd_file_path d));
      n ← reads (λ w, get_link_count (pw_links (sw_io w)) (fd_file_path d));
      match n with
      | Ok n =>
          mret (Ok (mk_kstat 1 ino (Z.lor (normal_file_mode S_IFREG) 511) (wrap32 n) 0 0 0 (at_size attr)
                      block_size (at_blocks attr) (m_atime (fd_stat d)) (m_mtime (fd_stat d)) (m_ctime (fd_stat d))))
      | _ => panic
      end
  | Err e => mret (Err e)
  | Panic => panic
  end.

Definition obj_get_stat (i : Z) : pcall (outcome Kstat) :=
  o ← reads (λ w, fw_objs (pw_files (sw_io w)) !! i);
  match o with
  | Some (OFile d) => filedesc_get_stat d
  | Some (ODir _) => mret (Ok dir_stat)
  | None => r ← reads (λ w, rest_stat i (fw_rest (pw_files (sw_io w)))); mret r
  end.

Definition put_stat (kst : Z) (e : LinuxError) (r : outcome Kstat) : pcall Z :=
  match r with
  | Ok k => _ ← set_mem (λ m, store_Kstat m kst k); mret 0
  | Err _ => fail e
  | Panic => panic
  end.

Definition syscall_fstat (fd kst : Z) : pcall Z :=
  i ← open_fd fd EPERM;
  r ← obj_get_stat i;
  put_stat kst EPERM r.

Definition get_stat_in_fs (path : str) : pcall (outcome Kstat) :=
  attr ← metadata_unwrap path;
  if type_is_file (at_ty attr) then
    r ← in_fs (λ g, new_fd alive g path 0);
    match r with Ok d => filedesc_get_stat d | _ => fail ENOENT end
  else if type_is_dir (at_ty attr) then
    r ← in_fs_ (λ g, new_dir alive g path);
    match r with Ok _ => mret (Ok dir_stat) | _ => fail ENOENT end
  else mret (Ok char_stat).

(** A path that cannot be resolved panics, but for the empty one at descriptor 1. *)
Definition syscall_fstatat (dir_fd path kst : Z) : pcall Z := λ w,
  match solve_path dir_fd (Some path) false w with
  | (inl file_path, w) =>
      (ex ← exists_path file_path;
       _ ← check ex ENOENT;
       r ← get_stat_in_fs file_path;
       put_stat kst EINVAL r) w
  | (inr (SErr _), w) =>
      if decide (default [] (raw_ptr_to_ref_str (sw_mem w) path) = [] ∧ dir_fd = 1) then
        (_ ← set_mem (λ m, store_le (store_le (store_le m (kst + 16) 4 8336) (kst + 8) 8 1) (kst + 20) 4 1);
         mret 0) w
      else panic w
  | (inr r, w) => (inr r, w)
  end.
End stat.
End paths.
