(* ===== verification/FsCalls.v ===== *)
(** The rest of the file system calls ([modules/syscall/src/syscall_fs]): the
    epoll calls ([imp/epoll.rs]), [statfs] and [statx] ([imp/stat.rs]),
    [pidfd_open] ([imp/ctl.rs]), and the dispatcher [fs_syscall] ([mod.rs]) with
    its call numbers on riscv64 ([fs_syscall_id.rs]).

    The calls run in the monad of [FdCalls], over the world of [FsPaths].  What
    they need of objects that are not files is the class [KernelObjects] over
    the rest of the world: the epoll instance behind an object, the signal
    module of the calling thread, and the descriptor of a process. *)

From S2P Require Import Prelude BTree Path Vfs RootFs Fops UserMem TimeStat Link FdManager FdCalls FileObj FsPaths Signal Epoll.

Class KernelObjects (SS R : Type) := {
  (** [as_any().downcast_ref::<EpollFile>()], and the instance changed. *)
  ko_epoll : Z → R → option EpollFile;
  ko_put_epoll : Z → EpollFile → R → R;
  (** the signal module of the calling thread *)
  ko_module : R → SignalModule SS;
  ko_put_module : SignalModule SS → R → R;
  (** [PID2PC.get(pid)], and the [PidFd] made of it *)
  ko_new_pidfd : Z → Z → R → option (Z * R) }.

Definition EpollEvent_size : Z := 12.
#[export] Hint Mode KernelObjects - ! : typeclass_instances.

Definition load_EpollEvent (m : usermem) (a : Z) : EpollEvent :=
  {| event_type := load_le m a 4; ev_data := load_le m (a + 4) 8 |}.
Definition store_EpollEvent (m : usermem) (a : Z) (e : EpollEvent) : usermem :=
  store_le (store_le m a 4 (event_type e)) (a + 4) 8 (ev_data e).
Fixpoint store_EpollEvents (m : usermem) (a : Z) (es : list EpollEvent) : usermem :=
  match es with [] => m | e :: es => store_EpollEvents (store_EpollEvent m a e) (a + EpollEvent_size) es end.

Definition epoll_ctl_from (op : Z) : option EpollCtl :=
  match op with 1 => Some CtlAdd | 2 => Some CtlDel | 3 => Some CtlMod | _ => None end.

Section epoll_calls.
Context {SS SH SA SI W : Type} `{AxSignal SS SH SA SI} `{FileIO W} `{KernelObjects SS W}.

Definition stuck {A} : call W A := λ w, (inr SHang, w).

(** [fd_table[fd as usize]] of an [i32]: outside the table it panics. *)
Definition index_table (fd : Z) : call W (option Z) :=
  t ← reads sw_table;
  if decide (0 ≤ fd) then match t !! Z.to_nat fd with Some o => mret o | None => panic end else panic.

Definition check_type (addr sz : Z) (e : LinuxError) : call W unit :=
  mem ← reads sw_mem; check (manual_alloc_type_for_lazy_ok mem addr sz) e.

(** The descriptor's epoll instance. *)
Definition epoll_behind (epfd : Z) : call W (Z * EpollFile) :=
  o ← index_table epfd;
  match o with
  | None => fail EBADF
  | Some f =>
      e ← reads (λ w, ko_epoll f (sw_io w));
      match e with Some e => mret (f, e) | None => fail EBADF end
  end.

Definition syscall_epoll_ctl (args : list Z) : call W Z :=
  let epfd := as_i32 (arg args 0) in
  let op := as_i32 (arg args 1) in
  let fd := as_i32 (arg args 2) in
  let event := arg args 3 in
  _ ← check_type event EpollEvent_size EFAULT;
  event ← reads (λ w, load_EpollEvent (sw_mem w) event);
  o ← index_table fd;
  match o with
  | None => fail EBADF
  | Some _ =>
      match epoll_ctl_from op with
      | None => fail EINVAL
      | Some op =>
          '(f, epoll_file) ← epoll_behind epfd;
          let '(r, epoll_file) := epoll_ctl op fd event epoll_file in
          _ ← in_io (λ w, ((), ko_put_epoll f epoll_file w));
          match r with inl v => mret v | inr _ => fail UserMem.ENOENT end
      end
  end.

(** What [epoll_wait] asks a file.  Both [epoll_wait] and the [ready_to_read] of
    an epoll instance lock the descriptor table: asking one for the other waits
    for ever. *)
Definition file_ready (f : Z) : call W FileReady :=
  hup ← reads (λ w, io_is_hang_up f (sw_io w));
  exc ← reads (λ w, io_in_exceptional_conditions f (sw_io w));
  e ← reads (λ w, ko_epoll f (sw_io w));
  match e with
  | Some _ => stuck
  | None =>
      r ← await_unwrap (io_ready_to_read f);
      w ← await_unwrap (io_ready_to_write f);
      mret {| hang_up := hup; exceptional := exc; can_read := r; can_write := w |}
  end.

(** The scan of the monitor list, in the order of the descriptors. *)
Fixpoint scan_monitor (m : list (Z * EpollEvent)) : call W (list EpollEvent) :=
  match m with
  | [] => mret []
  | (fd, req_event) :: m =>
      o ← index_table fd;
      here ← match o return call W (list EpollEvent) with
        | Some file =>
            x ← file_ready file;
            let t := ret_event_type x (event_type req_event) in
            mret (if decide (t = 0) then [] else [{| event_type := t; ev_data := ev_data req_event |}])
        | None => mret [{| event_type := EPOLLERR; ev_data := ev_data req_event |}]
        end;
      rest ← scan_monitor m;
      mret (here ++ rest)
  end.

(** [EpollFile::epoll_wait] on the instance [f], over the rounds to come: the
    events, or an error when a signal is pending; [None] when it still waits. *)
Fixpoint epoll_rounds (rounds : list round) (f expire_time : Z) : call W (option (outcome (list EpollEvent))) :=
  match rounds with
  | [] => mret None
  | r :: rounds =>
      _ ← enter r;
      m ← reads (λ w, match ko_epoll f (sw_io w) with Some e => monitor_list e | None => [] end);
      ret_events ← scan_monitor m;
      if decide (ret_events ≠ []) then mret (Some (Ok ret_events))
      else if decide (expire_time < rd_now r) then mret (Some (Ok ret_events))
      else if rd_signal r then mret (Some (Err Timeout))
      else epoll_rounds rounds f expire_time
  end.

(** [now] is [current_ticks]. *)
Definition syscall_epoll_wait (now : Z) (rounds : list round) (args : list Z) : call W (option Z) :=
  let epfd := as_i32 (arg args 0) in
  let event := arg args 1 in
  let max_event := as_i32 (arg args 2) in
  let timeout := as_i32 (arg args 3) in
  _ ← check (negb (bool_decide (max_event ≤ 0))) EINVAL;
  let max_event := Z.min max_event 400 in
  _ ← check_range event (wrap64 (event + max_event * EpollEvent_size)) EFAULT;
  '(f, _) ← epoll_behind epfd;
  let timeout := if decide (0 < timeout) then wrap64 (now + timeout) else U64_MAX in
  ret_events ← epoll_rounds rounds f timeout;
  match ret_events with
  | None => mret None
  | Some (Ok ret_events) =>
      let real_len := Z.min (Z.of_nat (length ret_events)) max_event in
      _ ← set_mem (λ m, store_EpollEvents m event (take (Z.to_nat real_len) ret_events));
      mret (Some real_len)
  | Some _ => fail EINTR
  end.

(** [syscall_sigprocmask] of the calling thread. *)
Definition do_sigprocmask (args : list Z) : call W Z := λ w,
  let '(um, m, r) := syscall_sigprocmask (SH := SH) (SA := SA) (SI := SI) (sw_mem w) (ko_module (sw_io w)) args in
  let w := mk_sysw (ko_put_module m (sw_io w)) (sw_table w) (sw_limit w) um in
  match r with SOk v => (inl v, w) | r => (inr r, w) end.

Definition SIG_SETMASK : Z := 2.

(** [old_mask] is a local of the kernel: [old_mask_at] is where it lies. *)
Definition syscall_epoll_pwait (old_mask_at now : Z) (rounds : list round) (args : list Z) : call W (option Z) :=
  let sigmask := arg args 4 in
  if decide (sigmask = 0) then syscall_epoll_wait now rounds args else
  _ ← check_type sigmask 8 EFAULT;
  _ ← do_sigprocmask [SIG_SETMASK; sigmask; old_mask_at; 8; 0; 0];
  r ← syscall_epoll_wait now rounds args;
  match r with
  | None => mret None
  | Some ret =>
      _ ← do_sigprocmask [SIG_SETMASK; old_mask_at; 0; 8; 0; 0];
      mret (Some ret)
  end.

(** *** [pidfd_open] *)
Definition syscall_pidfd_open (args : list Z) : call W Z :=
  let pid := wrap32 (arg args 0) in
  match open_flags_from_bits (wrap32 (arg args 1)) with
  | None => fail EINVAL
  | Some flags =>
      p ← reads (λ w, ko_new_pidfd pid (Z.lor flags CLOEXEC) (sw_io w));
      match p with
      | None => fail EINVAL
      | Some (f, io) =>
          fd ← new_slot EMFILE;
          _ ← in_io (λ _, ((), io));
          _ ← install fd f;
          mret fd
      end
  end.
End epoll_calls.

(** ** The calls on paths: the world of [FsPaths] *)

(** The objects of a world with paths are those of its files. *)
Section pworld_objects.
Context {R : Type} `{FileIO R} `{Capability}.

Definition on_files {A} (f : fworld R → A * fworld R) (w : pworld R) : A * pworld R :=
  let '(a, x) := f (pw_files w) in (a, set_files x w).

#[export] Instance pworld_FileIO : FileIO (pworld R) := {
  io_read i n := on_files (io_read i n);
  io_write i bs := on_files (io_write i bs);
  io_seek i pos := on_files (io_seek i pos);
  io_truncate i len := on_files (io_truncate i len);
  io_get_type i w := io_get_type i (pw_files w);
  io_readable i w := io_readable i (pw_files w);
  io_writable i w := io_writable i (pw_files w);
  io_get_status i w := io_get_status i (pw_files w);
  io_set_status i fl := on_files (io_set_status i fl);
  io_set_close_on_exec i b := on_files (io_set_close_on_exec i b);
  io_in_exceptional_conditions i w := io_in_exceptional_conditions i (pw_files w);
  io_is_hang_up i w := io_is_hang_up i (pw_files w);
  io_ready_to_read i := on_files (io_ready_to_read i);
  io_ready_to_write i := on_files (io_ready_to_write i);
  io_socket i w := io_socket i (pw_files w);
  io_make_pipe fl := on_files (io_make_pipe fl);
  io_new_eventfd v fl := on_files (io_new_eventfd v fl);
  io_new_epoll := on_files io_new_epoll }.
End pworld_objects.

Section pworld_kernel.
Context {SS R : Type} `{KernelObjects SS R}.

Definition on_rest (f : R → R) (w : pworld R) : pworld R :=
  set_files (mk_fworld (fw_fs (pw_files w)) (fw_objs (pw_files w)) (f (fw_rest (pw_files w)))) w.

#[export] Instance pworld_KernelObjects : KernelObjects SS (pworld R) := {
  ko_epoll f w := ko_epoll f (fw_rest (pw_files w));
  ko_put_epoll f e := on_rest (ko_put_epoll f e);
  ko_module w := ko_module (fw_rest (pw_files w));
  ko_put_module m := on_rest (ko_put_module m);
  ko_new_pidfd pid fl w :=
    match ko_new_pidfd pid fl (fw_rest (pw_files w)) with
    | Some (f, r) => Some (f, on_rest (λ _, r) w)
    | None => None
    end }.
End pworld_kernel.

(** [FsStat] and [FsStatx] in user memory: the offset, width and value of each
    field. *)
Definition store_fields (m : usermem) (a : Z) (fields : list (Z * nat * Z)) : usermem :=
  foldl (λ m '(off, n, v), store_le m (a + off) n v) m fields.

Definition FsStat_size : Z := 120.
Definition get_fs_stat : list (Z * nat * Z) :=
  [(0, 8%nat, 0); (8, 8%nat, 1024); (16, 8%nat, 0x40000000 / 512); (24, 8%nat, 1); (32, 8%nat, 1); (40, 8%nat, 1);
   (48, 8%nat, 1); (56, 4%nat, 0); (60, 4%nat, 0); (64, 8%nat, 256); (72, 8%nat, 0x1000); (80, 8%nat, 0);
   (88, 8%nat, 0); (96, 8%nat, 0); (104, 8%nat, 0); (112, 8%nat, 0)].

(** [FsStatxTimestamp::new]. *)
Definition FsStatxTimestamp_new (off : Z) : list (Z * nat * Z) := [(off, 8%nat, 0); (off + 8, 4%nat, 0)].
Definition FsStatx_new : list (Z * nat * Z) :=
  [(0, 4%nat, 0); (4, 4%nat, 1024); (8, 8%nat, 0); (16, 4%nat, 0); (20, 4%nat, 0); (24, 4%nat, 0); (28, 2%nat, 0);
   (32, 8%nat, 0); (40, 8%nat, 0); (48, 8%nat, 0x40000000 / 512); (56, 8%nat, 0)] ++
  FsStatxTimestamp_new 64 ++ FsStatxTimestamp_new 80 ++ FsStatxTimestamp_new 96 ++ FsStatxTimestamp_new 112 ++
  [(128, 4%nat, 0); (132, 4%nat, 0); (136, 4%nat, 0); (140, 4%nat, 0); (144, 8%nat, 0); (152, 4%nat, 0); (156, 4%nat, 0)].

Section fs_syscall.
Context {SS SH SA SI R : Type} `{AxSignal SS SH SA SI} `{FileIO R} `{KernelObjects SS R} `{Capability}.
Context (alive : nid → bool).
Notation pcall := (call (pworld R)).

Definition syscall_statfs (args : list Z) : pcall Z :=
  _ ← solve_path AT_FDCWD (Some (arg args 0)) false;
  _ ← set_mem (λ m, store_fields m (arg args 1) get_fs_stat);
  mret 0.

Definition syscall_statx (args : list Z) : pcall Z :=
  file_path ← solve_path (arg args 0) (Some (arg args 1)) false;
  ex ← exists_path alive file_path;
  _ ← check ex UserMem.ENOENT;
  p ← reads (λ w, filepath_new (the_fs w) (pw_links (sw_io w)) [SLASH]);
  match p with
  | Ok p =>
      if equal_to file_path p then
        _ ← set_mem (λ m, store_fields m (arg args 4) FsStatx_new); mret 0
      else mret 0
  | Err _ => mret 0
  | Panic => panic
  end.

(** ** The dispatcher *)

(** [FsSyscallId] on riscv64. *)
Inductive FsSyscallId :=
  | GETCWD | EVENTFD | EPOLL_CREATE | EPOLL_CTL | EPOLL_PWAIT | DUP | DUP3 | FCNTL64 | IOCTL | MKDIRAT
  | SYMLINKAT | UNLINKAT | LINKAT | RENAMEAT | UNMOUNT | MOUNT | STATFS | FTRUNCATE64 | FACCESSAT | CHDIR
  | FCHMODAT | FCHOWN | OPENAT | CLOSE | PIPE2 | GETDENTS64 | LSEEK | READ | WRITE | READV | WRITEV | PPOLL
  | FSTATAT | PREAD64 | PWRITE64 | SENDFILE64 | PSELECT6 | PREADLINKAT | FSTAT | SYNC | FSYNC | UTIMENSAT
  | RENAMEAT2 | COPYFILERANGE | STATX | PIDFD_OPEN.

Definition fs_syscall_try_from (id : Z) : option FsSyscallId :=
  match id with
  | 17 => Some GETCWD | 19 => Some EVENTFD | 20 => Some EPOLL_CREATE | 21 => Some EPOLL_CTL | 22 => Some EPOLL_PWAIT
  | 23 => Some DUP | 24 => Some DUP3 | 25 => Some FCNTL64 | 29 => Some IOCTL | 34 => Some MKDIRAT
  | 36 => Some SYMLINKAT | 35 => Some UNLINKAT | 37 => Some LINKAT | 38 => Some RENAMEAT | 39 => Some UNMOUNT
  | 40 => Some MOUNT | 43 => Some STATFS | 46 => Some FTRUNCATE64 | 48 => Some FACCESSAT | 49 => Some CHDIR
  | 53 => Some FCHMODAT | 54 => Some FCHOWN | 56 => Some OPENAT | 57 => Some CLOSE | 59 => Some PIPE2
  | 61 => Some GETDENTS64 | 62 => Some LSEEK | 63 => Some READ | 64 => Some WRITE | 65 => Some READV | 66 => Some WRITEV
  | 73 => Some PPOLL | 79 => Some FSTATAT | 67 => Some PREAD64 | 68 => Some PWRITE64 | 71 => Some SENDFILE64
  | 72 => Some PSELECT6 | 78 => Some PREADLINKAT | 80 => Some FSTAT | 81 => Some SYNC | 82 => Some FSYNC
  | 88 => Some UTIMENSAT | 276 => Some RENAMEAT2 | 285 => Some COPYFILERANGE | 291 => Some STATX | 434 => Some PIDFD_OPEN
  | _ => None
  end.

Definition once (x : pcall Z) : pcall (option Z) := v ← x; mret (Some v).

(** [block_size] and [rest_stat] are those of [fstat] (FsPaths); [net] is the
    feature of that name; [into] the conversion of errors of
    axerrno; [get_ticks] and [turn_to_ticks] convert times to ticks; [now] is
    the clock in ticks, [wall] its time; [rounds] is what a call meets each time
    it has yielded; [dents] bounds the entries of one [getdents64]. *)
Context (block_size : Z) (rest_stat : Z → R → outcome Kstat).
Context (net : bool) (into : AxError → LinuxError) (get_ticks : TimeSecs → Z) (turn_to_ticks : TimeVal → Z).

Definition fs_syscall (old_mask_at now wall : Z) (rounds : list (@round (pworld R))) (dents : nat)
    (id : FsSyscallId) (args : list Z) : pcall (option Z) :=
  let a := arg args in
  match id with
  | OPENAT => once (syscall_openat alive (a 0%nat) (a 1%nat) (a 2%nat))
  | CLOSE => once (syscall_close (a 0%nat))
  | READ => once (syscall_read net (a 0%nat) (a 1%nat) (a 2%nat))
  | WRITE => once (syscall_write (a 0%nat) (a 1%nat) (a 2%nat))
  | GETCWD => once (syscall_getcwd (a 0%nat) (a 1%nat))
  | PIPE2 => once (syscall_pipe2 (a 0%nat) (wrap32 (a 1%nat)))
  | DUP => once (syscall_dup (a 0%nat))
  | DUP3 => once (syscall_dup3 (a 0%nat) (a 1%nat) (a 2%nat))
  | MKDIRAT => once (syscall_mkdirat alive (a 0%nat) (a 1%nat))
  | CHDIR => once (syscall_chdir (a 0%nat))
  | GETDENTS64 => once (syscall_getdents64 alive dents (a 0%nat) (a 1%nat) (a 2%nat))
  | MOUNT => once (syscall_mount alive (a 0%nat) (a 1%nat) (a 2%nat) (a 4%nat))
  | UNMOUNT => once (syscall_umount alive (a 0%nat) (a 1%nat))
  | FSTAT => once (syscall_fstat block_size rest_stat (a 0%nat) (a 1%nat))
  | RENAMEAT | RENAMEAT2 => once (syscall_renameat2 alive (a 0%nat) (a 1%nat) (a 2%nat) (a 3%nat) (a 4%nat))
  | READV => once (syscall_readv net (a 0%nat) (a 1%nat) (a 2%nat))
  | WRITEV => once (syscall_writev (a 0%nat) (a 1%nat) (a 2%nat))
  | FCNTL64 => once (syscall_fcntl64 (a 0%nat) (a 1%nat) (a 2%nat))
  | FSTATAT => once (syscall_fstatat alive block_size (a 0%nat) (a 1%nat) (a 2%nat))
  | STATFS => once (syscall_statfs args)
  | FCHMODAT => once (syscall_fchmodat alive (a 0%nat) (a 1%nat))
  | FACCESSAT => once (syscall_faccessat alive (a 0%nat) (a 1%nat) (a 2%nat))
  | LSEEK => once (syscall_lseek (a 0%nat) (a 1%nat) (a 2%nat))
  | PREAD64 => once (syscall_pread64 into (a 0%nat) (a 1%nat) (a 2%nat) (a 3%nat))
  | PREADLINKAT => once (syscall_readlinkat (a 0%nat) (a 1%nat) (a 2%nat) (a 3%nat))
  | PWRITE64 => once (syscall_pwrite64 into (a 0%nat) (a 1%nat) (a 2%nat) (a 3%nat))
  | SENDFILE64 => once (syscall_sendfile64 (a 0%nat) (a 1%nat) (a 2%nat) (a 3%nat))
  | FSYNC => mret (Some 0)
  | FTRUNCATE64 => once (syscall_ftruncate64 (a 0%nat) (a 1%nat))
  | IOCTL => once (syscall_ioctl (a 0%nat) (a 1%nat) (a 2%nat))
  | SYNC => mret (Some 0)
  | COPYFILERANGE => once (syscall_copyfilerange (a 0%nat) (a 1%nat) (a 2%nat) (a 3%nat) (a 4%nat))
  | LINKAT => once (sys_linkat alive (a 0%nat) (a 1%nat) (a 2%nat) (a 3%nat))
  | UNLINKAT => once (syscall_unlinkat alive (a 0%nat) (a 1%nat) (a 2%nat))
  | SYMLINKAT => mret (Some 0)
  | UTIMENSAT => once (syscall_utimensat alive wall (a 0%nat) (a 1%nat) (a 2%nat))
  | EPOLL_CREATE => once syscall_epoll_create1
  | EPOLL_CTL => once (syscall_epoll_ctl args)
  | EPOLL_PWAIT => syscall_epoll_pwait old_mask_at now rounds args
  | PPOLL => syscall_ppoll get_ticks now rounds (a 0%nat) (a 1%nat) (a 2%nat)
  | PSELECT6 => syscall_pselect6 turn_to_ticks now rounds (a 0%nat) (a 1%nat) (a 2%nat) (a 3%nat) (a 4%nat)
  | STATX => once (syscall_statx args)
  | PIDFD_OPEN => once (syscall_pidfd_open args)
  | FCHOWN => mret (Some 0)
  | EVENTFD => once (syscall_eventfd (a 0%nat) (wrap32 (a 1%nat)))
  end.
End fs_syscall.
