(* ===== verification/FsCallsProps.v ===== *)
(** What the calls of [FsCalls] promise: the epoll calls are [epoll_ctl] and
    [epoll_wait] of [Epoll] on the instance behind the descriptor, with the
    events read from and written to user memory; and where they fail. *)

From S2P Require Import Prelude BTree Path Vfs RootFs Fops UserMem TimeStat Link FdManager FdCalls FileObj FsPaths Signal Epoll FsCalls.

(** *** Events in user memory *)

Definition event_ok (e : EpollEvent) : Prop := is_u32 (event_type e) ∧ is_u64 (ev_data e).

Lemma store_event_bytes m a e b : ¬ (a ≤ b < a + EpollEvent_size) → um_bytes (store_EpollEvent m a e) !! b = um_bytes m !! b.
Proof. intros Hb. unfold store_EpollEvent, EpollEvent_size in *. rewrite !store_le_bytes by lia. done. Qed.

Lemma load_store_event m a e : event_ok e → load_EpollEvent (store_EpollEvent m a e) a = e.
Proof.
  intros [Ht Hd]. unfold load_EpollEvent, store_EpollEvent. rewrite load_store_ne by lia.
  rewrite !load_store_eq; [by destruct e| |]; unfold is_u32, is_u64, two32, two64 in *; cbn; lia.
Qed.

Lemma load_event_ext m m' a : (∀ b, a ≤ b < a + EpollEvent_size → um_bytes m' !! b = um_bytes m !! b) →
  load_EpollEvent m' a = load_EpollEvent m a.
Proof. intros Hb. unfold load_EpollEvent, EpollEvent_size in *. f_equal; apply load_le_ext; intros; apply Hb; lia. Qed.

Lemma store_events_bytes es : ∀ m a b, ¬ (a ≤ b < a + EpollEvent_size * Z.of_nat (length es)) →
  um_bytes (store_EpollEvents m a es) !! b = um_bytes m !! b.
Proof.
  induction es as [|e es IH]; intros m a b Hb; [done|]. cbn [store_EpollEvents length] in *.
  unfold EpollEvent_size in *. rewrite IH by lia. apply store_event_bytes. unfold EpollEvent_size. lia.
Qed.

Lemma load_store_events es : ∀ m a i e, Forall event_ok es → es !! i = Some e →
  load_EpollEvent (store_EpollEvents m a es) (a + EpollEvent_size * Z.of_nat i) = e.
Proof.
  induction es as [|x es IH]; intros m a i e Hok Hi; [done|]. apply Forall_cons in Hok as [Hx Hok].
  cbn [store_EpollEvents]. destruct i as [|i]; cbn in Hi.
  - simplify_eq. rewrite Z.mul_0_r, Z.add_0_r. rewrite <- (load_store_event m a e Hx) at 2.
    apply load_event_ext. intros b Hb. apply store_events_bytes. unfold EpollEvent_size in *. lia.
  - rewrite <- (IH (store_EpollEvent m a x) (a + EpollEvent_size) i e Hok Hi). f_equal. unfold EpollEvent_size. lia.
Qed.

Section epoll_props.
Context {SS SH SA SI W : Type} `{AxSignal SS SH SA SI} `{FileIO W} `{KernelObjects SS W}.
Implicit Types (w : sysw W) (m : list (Z * EpollEvent)).

(** *** A world whose files can be asked without changing it *)

(** The answers [rdy] of the files in [io], none of them an epoll instance. *)
Definition quiet (io : W) (rdy : Z → FileReady) (f : Z) : Prop :=
  ko_epoll f io = None ∧ io_is_hang_up f io = hang_up (rdy f) ∧
  io_in_exceptional_conditions f io = exceptional (rdy f) ∧
  io_ready_to_read f io = (Ok (can_read (rdy f)), io) ∧
  io_ready_to_write f io = (Ok (can_write (rdy f)), io).

Definition ready_table (rdy : Z → FileReady) (t : fdtable) : list (option FileReady) :=
  fmap (M := list) (fmap (M := option) rdy) t.

Lemma scan_monitor_ok m w rdy :
  (∀ fd req f, (fd, req) ∈ m → sw_table w !! Z.to_nat fd = Some (Some f) → quiet (sw_io w) rdy f) →
  scan_monitor m w = match epoll_scan (ready_table rdy (sw_table w)) m with
                     | Ok evs => (inl evs, w) | _ => (inr SPanic, w) end.
Proof.
  intros Hq. destruct w as [io t lim um]. cbn in Hq. induction m as [|[fd req] m IH]; [done|].
  assert (Hm : ∀ fd req f, (fd, req) ∈ m → t !! Z.to_nat fd = Some (Some f) → quiet io rdy f)
    by (intros; eapply Hq; [by apply list_elem_of_further|done]). specialize (IH Hm).
  cbn. unfold index_table, table_get, ready_table. unfold mbind, call_bind, mret, call_ret, outcome_bind. cbn.
  destruct (decide (0 ≤ fd)); [|done]. rewrite list_lookup_fmap.
  destruct (t !! Z.to_nat fd) as [[f|]|] eqn:Et; cbn; [| |done].
  - destruct (Hq fd req f) as (He & Hh & Hx & Hr & Hw); [by left|done|].
    unfold file_ready, reads, await_unwrap, in_io. unfold mbind, call_bind, mret, call_ret. cbn.
    rewrite He. cbn. rewrite Hr. cbn. rewrite Hw. cbn. rewrite IH, Hh, Hx.
    replace {| hang_up := _; exceptional := _; can_read := _; can_write := _ |} with (rdy f) by (by destruct (rdy f)).
    unfold ready_table. destruct (epoll_scan _ m); done.
  - rewrite IH. unfold ready_table. destruct (epoll_scan _ m); done.
Qed.

(** The rounds as [Epoll] sees them. *)
Definition monitored (f : Z) (io : W) : list (Z * EpollEvent) :=
  match ko_epoll f io with Some e => monitor_list e | None => [] end.
Definition quiet_round (f : Z) (x : @round W * (Z → FileReady)) : Prop :=
  ∀ fd req g, (fd, req) ∈ monitored f (rd_io x.1) → FdCalls.rd_table x.1 !! Z.to_nat fd = Some (Some g) → quiet (rd_io x.1) x.2 g.
Definition epoll_round (f : Z) (x : @round W * (Z → FileReady)) : EpollRound :=
  {| rd_monitor := monitored f (rd_io x.1);
     Epoll.rd_table := ready_table x.2 (FdCalls.rd_table x.1);
     rd_ticks := rd_now x.1; rd_signals := rd_signal x.1 |}.
Definition no_round : EpollRound := {| rd_monitor := []; Epoll.rd_table := []; rd_ticks := 0; rd_signals := false |}.
Definition epoll_env (f : Z) (xs : list (@round W * (Z → FileReady))) (k : nat) : EpollRound :=
  default no_round (epoll_round f <$> xs !! k).


Lemma epoll_wait_shift fuel : ∀ env k t, epoll_wait fuel (λ j, env (S j)) k t = epoll_wait fuel env (S k) t.
Proof. induction fuel as [|fuel IH]; intros env k t; [done|]. cbn. by rewrite IH. Qed.

Lemma epoll_scan_no_err t m e : epoll_scan t m ≠ Err e.
Proof.
  induction m as [|[fd req] m IH]; cbn; [done|]. unfold table_get, mbind, outcome_bind.
  case_decide; [|done]. destruct (t !! _) as [o|]; [|done]. destruct (epoll_scan t m); [done|naive_solver|done].
Qed.

(** Whoever waits has the limit and the memory it had. *)
Lemma epoll_rounds_ok f t xs : ∀ w, Forall (quiet_round f) xs →
  ∃ io tab, let w' := mk_sysw io tab (sw_limit w) (sw_mem w) in
    epoll_rounds (fst <$> xs) f t w =
      match epoll_wait (length xs) (epoll_env f xs) 0 t with
      | None => (inl None, w')
      | Some (Ok evs) => (inl (Some (Ok evs)), w')
      | Some (Err _) => (inl (Some (Err Timeout)), w')
      | Some Panic => (inr SPanic, w')
      end.
Proof.
  induction xs as [|[r rdy] xs IH]; intros [io tab lim um] Hq; cbn; [by eexists _, _|].
  apply Forall_cons in Hq as [Hr Hq]. unfold mbind, call_bind. cbn.
  fold (monitored f (rd_io r)). rewrite (scan_monitor_ok (monitored f (rd_io r)) (mk_sysw (rd_io r) (FdCalls.rd_table r) lim um) rdy Hr). cbn. unfold epoll_env at 1. cbn.
  destruct (epoll_scan _ _) as [evs|e|] eqn:Es; cbn; [|by apply epoll_scan_no_err in Es|by eexists _, _].
  case_decide; [by eexists _, _|]. case_decide; [by eexists _, _|].
  destruct (rd_signal r); [by eexists _, _|].
  destruct (IH (mk_sysw (rd_io r) (FdCalls.rd_table r) lim um) Hq) as (io2 & tab2 & ->). exists io2, tab2.
  rewrite <- (epoll_wait_shift _ (epoll_env f ((r, rdy) :: xs))). done.
Qed.

Lemma index_table_ok fd o w : 0 ≤ fd → sw_table w !! Z.to_nat fd = Some o → index_table fd w = (inl o, w).
Proof. intros Hf Ht. unfold index_table, reads, mbind, call_bind. cbn. by rewrite decide_True, Ht. Qed.

Lemma epoll_behind_ok epfd f ep w : 0 ≤ epfd → sw_table w !! Z.to_nat epfd = Some (Some f) →
  ko_epoll f (sw_io w) = Some ep → epoll_behind epfd w = (inl (f, ep), w).
Proof.
  intros Hf Ht He. unfold epoll_behind, mbind, call_bind. rewrite (index_table_ok _ _ _ Hf Ht). cbn.
  unfold reads. by rewrite He.
Qed.

Definition expiry (now timeout : Z) : Z := if decide (0 < timeout) then wrap64 (now + timeout) else U64_MAX.

(** C31: A wait on a descriptor of an epoll instance, for at least one event and with
    room for them that the process may write, is [epoll_wait] on that instance, with
    all that other tasks do between its rounds, provided that these are quiet
    ([quiet_round]): the files asked answer without changing anything and none of them
    is an epoll instance, which leaves out sockets, whose answer polls the network, and
    instances watched by instances.  It waits as long
    as [epoll_wait] does, a pending signal makes it [EINTR], and when there are
    events it answers how many, at most as many as asked for and never more
    than 400, and stores exactly these, in order, each with the data registered
    for its descriptor; no other byte of the process changes. *)
Theorem epoll_wait_refines (now : Z) (xs : list (@round W * (Z → FileReady))) (args : list Z) (w : sysw W) (f : Z) (ep : EpollFile)
  (Hn : 0 < as_i32 (arg args 2))
  (Hm : manual_alloc_range_for_lazy_ok (sw_mem w) (arg args 1)
          (wrap64 (arg args 1 + Z.min (as_i32 (arg args 2)) 400 * EpollEvent_size)) = true)
  (Hfd : 0 ≤ as_i32 (arg args 0) ∧ sw_table w !! Z.to_nat (as_i32 (arg args 0)) = Some (Some f))
  (He : ko_epoll f (sw_io w) = Some ep) (Hq : Forall (quiet_round f) xs) :
  let n := Z.min (as_i32 (arg args 2)) 400 in
  let r := epoll_wait (length xs) (epoll_env f xs) 0 (expiry now (as_i32 (arg args 3))) in
  let k := match r with Some (Ok evs) => Z.min (Z.of_nat (length evs)) n | _ => 0 end in
  ∃ w', syscall_epoll_wait now (fst <$> xs) args w =
      (match r with
       | None => inl None
       | Some (Ok _) => inl (Some k)
       | Some (Err _) => inr (SErr EINTR)
       | Some Panic => inr SPanic
       end, w') ∧
    (∀ b, ¬ (arg args 1 ≤ b < arg args 1 + EpollEvent_size * k) → um_bytes (sw_mem w') !! b = um_bytes (sw_mem w) !! b) ∧
    (∀ evs i e, r = Some (Ok evs) → Forall event_ok evs → Z.of_nat i < k → evs !! i = Some e →
       load_EpollEvent (sw_mem w') (arg args 1 + EpollEvent_size * Z.of_nat i) = e).
Proof.
  intros n r k. destruct Hfd as [Hf Ht].
  destruct (epoll_rounds_ok f (expiry now (as_i32 (arg args 3))) xs w Hq) as (io & tab & Hrun). fold r in Hrun.
  unfold syscall_epoll_wait, check_range, check, reads, mbind, call_bind. rewrite bool_decide_eq_false_2 by lia. cbn.
  fold n in Hm |- *. rewrite Hm. cbn. rewrite (epoll_behind_ok _ _ _ _ Hf Ht He). cbn.
  fold (expiry now (as_i32 (arg args 3))). rewrite Hrun. cbn zeta.
  destruct r as [[evs|e|]|]; (eexists; split; [reflexivity|]); cbn; try (split; [done|naive_solver]).
  assert (Hl : length (take (Z.to_nat k) evs) = Z.to_nat k) by (rewrite length_take; unfold k; lia).
  split.
  - intros b Hb. apply store_events_bytes. fold k. rewrite Hl. unfold EpollEvent_size in *. unfold k in *. lia.
  - intros evs' i e [= <-] Hok Hi He'. apply load_store_events; [by apply Forall_take|].
    fold k. rewrite lookup_take_lt by lia. done.
Qed.
End epoll_props.

(** *** [epoll_ctl] and the mask of [epoll_pwait] *)
Section more_epoll.
Context {SS SH SA SI W : Type} `{AxSignal SS SH SA SI} `{FileIO W} `{KernelObjects SS W}.
Implicit Types (w : sysw W).

(** [epoll_ctl] on open descriptors, one of an epoll instance, is the
    operation of that name on the instance with the event in the memory of the
    process: its answer, and its change of the instance and of nothing else; an
    event outside the memory, an unknown operation or a descriptor of another
    kind is refused and changes nothing. *)
Theorem epoll_ctl_call (args : list Z) (w : sysw W) (g f : Z)
  (Hfd : 0 ≤ as_i32 (arg args 2) ∧ sw_table w !! Z.to_nat (as_i32 (arg args 2)) = Some (Some g))
  (Hep : 0 ≤ as_i32 (arg args 0) ∧ sw_table w !! Z.to_nat (as_i32 (arg args 0)) = Some (Some f)) :
  let refused e := (inr (SErr e), w) in
  syscall_epoll_ctl args w =
    if negb (manual_alloc_type_for_lazy_ok (sw_mem w) (arg args 3) EpollEvent_size) then refused EFAULT
    else match epoll_ctl_from (as_i32 (arg args 1)), ko_epoll f (sw_io w) with
         | None, _ => refused EINVAL
         | _, None => refused EBADF
         | Some op, Some ep =>
             let '(r, ep') := epoll_ctl op (as_i32 (arg args 2)) (load_EpollEvent (sw_mem w) (arg args 3)) ep in
             (match r with inl v => inl v | inr _ => inr (SErr UserMem.ENOENT) end,
              mk_sysw (ko_put_epoll f ep' (sw_io w)) (sw_table w) (sw_limit w) (sw_mem w))
         end.
Proof.
  intros refused. destruct Hfd as [Hf0 Hf], Hep as [He0 He].
  unfold syscall_epoll_ctl, check_type, check, reads, mbind, call_bind.
  destruct (manual_alloc_type_for_lazy_ok _ _ _); [cbn|done]. rewrite (index_table_ok _ _ _ Hf0 Hf). cbn.
  destruct (epoll_ctl_from _) as [op|]; [|done].
  destruct (ko_epoll f (sw_io w)) as [ep|] eqn:Ek.
  - rewrite (epoll_behind_ok _ _ _ _ He0 He Ek). destruct (epoll_ctl op _ _ ep) as [[v|[]] ep']; done.
  - unfold epoll_behind, mbind, call_bind. rewrite (index_table_ok _ _ _ He0 He). cbn. unfold reads. by rewrite Ek.
Qed.

(** With a signal mask, [epoll_pwait] hands [sigprocmask] the address of a local
    of the kernel, which is not the process's: it is refused, and nothing waits. *)
Lemma epoll_pwait_mask_refused (old_mask_at now : Z) rounds args w :
  arg args 4 ≠ 0 → manual_alloc_type_for_lazy_ok (sw_mem w) (arg args 4) 8 = true →
  old_mask_at ≠ 0 → manual_alloc_for_lazy_ok (sw_mem w) old_mask_at = false →
  (∀ io : W, ko_put_module (ko_module io) io = io) →
  syscall_epoll_pwait (SH := SH) (SA := SA) (SI := SI) old_mask_at now rounds args w = (inr (SErr EFAULT), w).
Proof.
  intros Hmask Hm Ho Hk Hput. unfold syscall_epoll_pwait. rewrite decide_False by done.
  unfold check_type, check, reads, mbind, call_bind. cbn. rewrite Hm. cbn. unfold do_sigprocmask, syscall_sigprocmask, arg. cbn.
  rewrite (bool_decide_eq_true_2 (old_mask_at ≠ 0)), Hk by done. cbn.
  change (sigmaskflag_from SIG_SETMASK) with (Some Setmask).
  rewrite decide_False by (unfold SIGSET_SIZE_IN_BYTE; lia). cbn. rewrite Hput. by destruct w.
Qed.

(** A timeout of zero, which asks not to wait, is the longest one. *)
Lemma zero_timeout_waits now : expiry now 0 = U64_MAX.
Proof. done. Qed.

(** Waiting for an epoll instance through another never ends: both lock the
    descriptor table. *)
Lemma nested_epoll_hangs w fd f ep req m :
  0 ≤ fd → sw_table w !! Z.to_nat fd = Some (Some f) → ko_epoll f (sw_io w) = Some ep →
  scan_monitor ((fd, req) :: m) w = (inr SHang, w).
Proof.
  intros Hf Ht He. cbn. unfold mbind, call_bind. rewrite (index_table_ok _ _ _ Hf Ht). cbn.
  unfold file_ready, reads, mbind, call_bind. rewrite He. done.
Qed.

(** A descriptor outside the table panics the kernel. *)
Lemma epoll_ctl_out_of_table args w :
  manual_alloc_type_for_lazy_ok (sw_mem w) (arg args 3) EpollEvent_size = true →
  as_i32 (arg args 2) < 0 → syscall_epoll_ctl args w = (inr SPanic, w).
Proof.
  intros Hm Hf. unfold syscall_epoll_ctl, check_type, check, reads, mbind, call_bind. cbn. rewrite Hm. cbn.
  unfold index_table, reads, mbind, call_bind. cbn. rewrite decide_False by lia. done.
Qed.
End more_epoll.

(** *** Descriptor 3 is an epoll instance, 4 a readable file *)
Module EpollDemo.
#[export] Instance demo_io : FileIO EpollFile := {
  io_read _ _ w := (Ok [], w); io_write _ _ w := (Ok 0, w); io_seek _ _ w := (Err Unsupported, w);
  io_truncate _ _ w := (Err Unsupported, w); io_get_type _ _ := FileDesc; io_readable _ _ := true; io_writable _ _ := false;
  io_get_status _ _ := 0; io_set_status _ _ w := (false, w); io_set_close_on_exec _ _ w := (false, w);
  io_in_exceptional_conditions _ _ := false; io_is_hang_up _ _ := false;
  io_ready_to_read f w := (Ok (bool_decide (f = 20)), w); io_ready_to_write _ w := (Ok false, w);
  io_socket _ _ := None; io_make_pipe _ w := (0, 0, w); io_new_eventfd _ _ w := (0, w); io_new_epoll w := (10, w) }.
#[export] Instance demo_kernel : KernelObjects (option ()) EpollFile := {
  ko_epoll f w := if decide (f = 10) then Some w else None;
  ko_put_epoll _ e _ := e;
  ko_module _ := mk_sigmod false None 0 None None (mk_sigstack 0 0 0);
  ko_put_module _ w := w;
  ko_new_pidfd _ _ _ := None }.

Definition memory : usermem := store_EpollEvent (mk_usermem {[0]} ∅) 64 {| event_type := EPOLLIN; ev_data := 777 |}.
Definition world : sysw EpollFile := mk_sysw epoll_new [None; None; None; Some 10; Some 20] 16 memory.

Definition registered : EpollFile :=
  with_monitor epoll_new [(4, {| event_type := EPOLLIN; ev_data := 777 |})].

Lemma epoll_ctl_call_witness :
  syscall_epoll_ctl [3; 1; 4; 64; 0; 0] world = (inl 0, mk_sysw registered (sw_table world) 16 memory).
Proof.
  pose proof (epoll_ctl_call [3; 1; 4; 64; 0; 0] world 20 10 ltac:(vm_compute; split; [discriminate|reflexivity])
    ltac:(vm_compute; split; [discriminate|reflexivity])) as H. exact H.
Defined.

Definition waiting : sysw EpollFile := mk_sysw registered (sw_table world) 16 memory.
Definition demo_ready (f : Z) : FileReady :=
  {| hang_up := false; exceptional := false; can_read := bool_decide (f = 20); can_write := false |}.
Definition demo_rounds : list (@round EpollFile * (Z → FileReady)) :=
  [(mk_round epoll_new [None; None; None; Some 10; Some 20] 5 false, demo_ready);
   (mk_round registered [None; None; None; None; Some 20] 6 false, demo_ready)].

(** A second task registers the descriptor while the first one waits. *)
Lemma epoll_wait_refines_witness :
  ∃ w', syscall_epoll_wait 0 (fst <$> demo_rounds) [3; 128; 8; 100; 0; 0] waiting = (inl (Some 1), w') ∧
    load_EpollEvent (sw_mem w') 128 = {| event_type := EPOLLIN; ev_data := 777 |}.
Proof.
  edestruct (epoll_wait_refines 0 demo_rounds [3; 128; 8; 100; 0; 0] waiting 10 registered) as (w' & Hrun & _ & Hev).
  - reflexivity.
  - reflexivity.
  - vm_compute. split; [discriminate|reflexivity].
  - reflexivity.
  - apply Forall_cons. split; [|apply Forall_singleton].
    + intros fd req g Hin. cbn in Hin. by apply elem_of_nil in Hin.
    + intros fd req g Hin. cbn in Hin. apply list_elem_of_singleton in Hin as [= -> ->]. intros [= <-]. by vm_compute.
  - exists w'. split; [exact Hrun|].
    apply (Hev [{| event_type := EPOLLIN; ev_data := 777 |}] 0%nat); [reflexivity| |reflexivity|reflexivity].
    apply Forall_singleton. vm_compute. by split.
Defined.
End EpollDemo.
