(* ===== verification/Net.v ===== *)
(** * Sockets over the TCP/IP stack

    modules/async_net/src/smoltcp_impl: addresses (addr.rs), the socket set (mod.rs),
    the table of listening ports (listen_table.rs), [TcpSocket] (tcp.rs) and
    [UdpSocket] (udp.rs).

    The protocol itself is the crate smoltcp: its sockets, the choice of handles and
    the polling of an interface are the class [Smoltcp], polling with the callback
    that the devices of mod.rs and loopback.rs call for a first SYN.  The socket set
    is the container it is documented to be, a map from handles; getting or removing
    a handle that is not in it panics.

    [netm] is the monad of an operation: it changes the sockets, the listening table
    and the socket set, and fails or panics; what was changed before stays.  The
    closure of [update_state] runs without interruption here. *)

From S2P Require Import Prelude.

Open Scope Z_scope.

(** ** Addresses *)

Inductive IpAddress := Ipv4 (octets : list Z) | Ipv6 (octets : list Z).
Inductive IpAddr := V4 (octets : list Z) | V6 (octets : list Z).
#[export] Instance IpAddress_eq_dec : EqDecision IpAddress.
Proof. solve_decision. Defined.

Record IpEndpoint := mk_endpoint { ep_addr : IpAddress; ep_port : Z }.
#[export] Instance IpEndpoint_eq_dec : EqDecision IpEndpoint.
Proof. solve_decision. Defined.
Record IpListenEndpoint := mk_listen { le_addr : option IpAddress; le_port : Z }.
Record SocketAddr := mk_sockaddr { sa_ip : IpAddr; sa_port : Z }.

Definition as_bytes (ip : IpAddress) : list Z := match ip with Ipv4 o | Ipv6 o => o end.
Definition from_core_ipaddr (ip : IpAddr) : IpAddress := match ip with V4 o => Ipv4 o | V6 o => Ipv6 o end.
Definition into_core_ipaddr (ip : IpAddress) : IpAddr := match ip with Ipv4 o => V4 o | Ipv6 o => V6 o end.
Definition from_core_sockaddr (a : SocketAddr) : IpEndpoint := mk_endpoint (from_core_ipaddr (sa_ip a)) (sa_port a).
Definition into_core_sockaddr (e : IpEndpoint) : SocketAddr := mk_sockaddr (into_core_ipaddr (ep_addr e)) (ep_port e).
Definition is_unspecified (ip : IpAddress) : bool := bool_decide (as_bytes ip = [0; 0; 0; 0]).
Definition UNSPECIFIED_IP : IpAddress := Ipv4 [0; 0; 0; 0].
Definition UNSPECIFIED_ENDPOINT : IpEndpoint := mk_endpoint UNSPECIFIED_IP 0.
(** [IpAddr::is_unspecified] of the core library. *)
Definition core_is_unspecified (ip : IpAddr) : bool :=
  match ip with V4 o => bool_decide (o = replicate 4 0) | V6 o => bool_decide (o = replicate 16 0) end.

(** ** smoltcp *)

(** The states of RFC 793. *)
Inductive State :=
  | Closed | Listen | SynSent | SynReceived | Established | FinWait1 | FinWait2 | CloseWait
  | Closing | LastAck | TimeWait.
#[export] Instance State_eq_dec : EqDecision State.
Proof. solve_decision. Defined.

Inductive ConnectError := InvalidState | Unaddressable.
Inductive BindError := BindInvalidState | BindUnaddressable.
Inductive SendError := BufferFull | SendUnaddressable.

Inductive sock (T U : Type) := STcp (t : T) | SUdp (u : U).
Arguments STcp {T U}.
Arguments SUdp {T U}.

(** [ListenTableEntry]: one for each listening port. *)
Record ListenTableEntry := mk_entry { listen_endpoint : IpListenEndpoint; syn_queue : list Z }.
Notation ListenTable := (gmap Z ListenTableEntry).

Class Smoltcp (T U I : Type) := {
  tcp_new : T;
  t_state : T → State;
  t_local : T → option IpEndpoint;
  t_remote : T → option IpEndpoint;
  t_connect : bool → I → IpEndpoint → IpListenEndpoint → T → (unit + ConnectError) * T;
  t_listen : IpListenEndpoint → T → option T;
  t_close : T → T;
  t_abort : T → T;
  t_recv_queue : T → Z;
  t_is_active : T → bool;
  t_may_recv : T → bool;
  t_may_send : T → bool;
  t_can_recv : T → bool;
  t_can_send : T → bool;
  t_recv_slice : nat → T → option (list Z) * T;
  t_send_slice : list Z → T → option Z * T;
  t_bound : T → IpListenEndpoint;
  t_set_bound : IpListenEndpoint → T → T;
  t_nagle : T → bool;
  t_set_nagle : bool → T → T;
  t_keep_alive : T → option Z;
  t_set_keep_alive : option Z → T → T;
  udp_new : U;
  u_endpoint : U → IpListenEndpoint;
  u_bind : IpListenEndpoint → U → (unit + BindError) * U;
  u_is_open : U → bool;
  u_can_recv : U → bool;
  u_can_send : U → bool;
  u_recv_slice : nat → U → option (list Z * IpEndpoint) * U;
  u_peek_slice : nat → U → option (list Z * IpEndpoint) * U;
  u_send_slice : list Z → IpEndpoint → U → (unit + SendError) * U;
  u_close : U → U;
  u_set_hop_limit : option Z → U → U;
  (** The handle a new socket gets, and [Interface::poll], which calls back for every
      packet its device received; the flag tells the loopback interface. *)
  new_handle : gmap Z (sock T U) → Z;
  iface_poll : bool → (IpEndpoint → IpEndpoint → gmap Z (sock T U) * ListenTable → gmap Z (sock T U) * ListenTable) →
    I → gmap Z (sock T U) * ListenTable → I * (gmap Z (sock T U) * ListenTable)
}.

Definition STATE_CLOSED : Z := 0.
Definition STATE_BUSY : Z := 1.
Definition STATE_CONNECTING : Z := 2.
Definition STATE_CONNECTED : Z := 3.
Definition STATE_LISTENING : Z := 4.

Record TcpSocket := mk_tcp {
  tcp_st : Z; tcp_handle : option Z; tcp_local_addr : IpEndpoint; tcp_peer_addr : IpEndpoint;
  tcp_nonblock : bool; tcp_reuse : bool
}.
Record UdpSocket := mk_udp {
  udp_handle : Z; udp_local_addr : option IpEndpoint; udp_peer_addr : option IpEndpoint;
  udp_nonblock : bool; udp_reuse : bool
}.

(** [TcpSocket::new] and [new_connected]. *)
Definition tcpsocket_new : TcpSocket :=
  mk_tcp STATE_CLOSED None UNSPECIFIED_ENDPOINT UNSPECIFIED_ENDPOINT false false.
Definition tcp_new_connected (h : Z) (local peer : IpEndpoint) : TcpSocket :=
  mk_tcp STATE_CONNECTED (Some h) local peer false false.

Definition tcp_set_state (st : Z) (s : TcpSocket) : TcpSocket :=
  mk_tcp st (tcp_handle s) (tcp_local_addr s) (tcp_peer_addr s) (tcp_nonblock s) (tcp_reuse s).
Definition tcp_set_handle (h : option Z) (s : TcpSocket) : TcpSocket :=
  mk_tcp (tcp_st s) h (tcp_local_addr s) (tcp_peer_addr s) (tcp_nonblock s) (tcp_reuse s).
Definition tcp_set_local (e : IpEndpoint) (s : TcpSocket) : TcpSocket :=
  mk_tcp (tcp_st s) (tcp_handle s) e (tcp_peer_addr s) (tcp_nonblock s) (tcp_reuse s).
Definition tcp_set_peer (e : IpEndpoint) (s : TcpSocket) : TcpSocket :=
  mk_tcp (tcp_st s) (tcp_handle s) (tcp_local_addr s) e (tcp_nonblock s) (tcp_reuse s).
Definition tcp_set_nonblocking (b : bool) (s : TcpSocket) : TcpSocket :=
  mk_tcp (tcp_st s) (tcp_handle s) (tcp_local_addr s) (tcp_peer_addr s) b (tcp_reuse s).
Definition tcp_set_reuse_addr (b : bool) (s : TcpSocket) : TcpSocket :=
  mk_tcp (tcp_st s) (tcp_handle s) (tcp_local_addr s) (tcp_peer_addr s) (tcp_nonblock s) b.

Record PollState := mk_poll { ps_readable : bool; ps_writable : bool }.

(** The sockets by identity, the set of smoltcp sockets, the listening table, the
    next ephemeral ports, and the interfaces. *)
Record net (T U I : Type) := mk_net {
  n_tcp : gmap Z TcpSocket; n_udp : gmap Z UdpSocket; n_set : gmap Z (sock T U); n_table : ListenTable;
  n_curr : Z; n_udp_curr : Z; n_iface : I
}.
Arguments mk_net {T U I}.
Arguments n_tcp {T U I}.
Arguments n_udp {T U I}.
Arguments n_set {T U I}.
Arguments n_table {T U I}.
Arguments n_curr {T U I}.
Arguments n_udp_curr {T U I}.
Arguments n_iface {T U I}.

Section net.
Context {T U I : Type} `{Smoltcp T U I}.
Notation net := (net T U I).
Notation sset := (gmap Z (sock T U)).

Definition netm (A : Type) : Type := net → outcome A * net.
#[export] Instance netm_ret : MRet netm := λ A a n, (Ok a, n).
#[export] Instance netm_bind : MBind netm := λ A B f m n,
  match m n with (Ok a, n) => f a n | (Err e, n) => (Err e, n) | (Panic, n) => (Panic, n) end.
Definition nfail {A} (e : AxError) : netm A := λ n, (Err e, n).
Definition npanic {A} : netm A := λ n, (Panic, n).
Definition gets {A} (f : net → A) : netm A := λ n, (Ok (f n), n).
Definition puts (f : net → net) : netm unit := λ n, (Ok (), f n).
Definition lift {A} (o : outcome A) : netm A := λ n, (o, n).
(** The result as a value: [.ok()], or a match on it. *)
Definition attempt {A} (m : netm A) : netm (A + AxError) := λ n,
  match m n with (Ok a, n) => (Ok (inl a), n) | (Err e, n) => (Ok (inr e), n) | (Panic, n) => (Panic, n) end.

Definition set_tcps (x : gmap Z TcpSocket) (n : net) : net :=
  mk_net x (n_udp n) (n_set n) (n_table n) (n_curr n) (n_udp_curr n) (n_iface n).
Definition set_udps (x : gmap Z UdpSocket) (n : net) : net :=
  mk_net (n_tcp n) x (n_set n) (n_table n) (n_curr n) (n_udp_curr n) (n_iface n).
Definition set_set (x : sset) (n : net) : net :=
  mk_net (n_tcp n) (n_udp n) x (n_table n) (n_curr n) (n_udp_curr n) (n_iface n).
Definition set_ltable (x : ListenTable) (n : net) : net :=
  mk_net (n_tcp n) (n_udp n) (n_set n) x (n_curr n) (n_udp_curr n) (n_iface n).
Definition set_curr (p : Z) (n : net) : net :=
  mk_net (n_tcp n) (n_udp n) (n_set n) (n_table n) p (n_udp_curr n) (n_iface n).
Definition set_udp_curr (p : Z) (n : net) : net :=
  mk_net (n_tcp n) (n_udp n) (n_set n) (n_table n) (n_curr n) p (n_iface n).

(** ** The socket set *)

Definition get_tcp_sock (s : sset) (h : Z) : outcome T :=
  match s !! h with Some (STcp t) => Ok t | _ => Panic end.
Definition get_udp_sock (s : sset) (h : Z) : outcome U :=
  match s !! h with Some (SUdp u) => Ok u | _ => Panic end.

Definition set_add (x : sock T U) : netm Z := λ n,
  let h := new_handle (n_set n) in (Ok h, set_set (<[h := x]> (n_set n)) n).
Definition with_tcp {A} (h : Z) (f : T → A) : netm A := t ← (n ← gets n_set; lift (get_tcp_sock n h)); mret (f t).
Definition with_tcp_mut {A} (h : Z) (f : T → A * T) : netm A :=
  s ← gets n_set;
  t ← lift (get_tcp_sock s h);
  let '(a, t) := f t in _ ← puts (set_set (<[h := STcp t]> s)); mret a.
Definition with_udp_mut {A} (h : Z) (f : U → A * U) : netm A :=
  s ← gets n_set;
  u ← lift (get_udp_sock s h);
  let '(a, u) := f u in _ ← puts (set_set (<[h := SUdp u]> s)); mret a.
Definition set_remove (h : Z) : netm unit :=
  s ← gets n_set;
  match s !! h with Some _ => puts (set_set (delete h s)) | None => npanic end.
Fixpoint remove_all (hs : list Z) : netm unit :=
  match hs with [] => mret () | h :: hs => _ ← set_remove h; remove_all hs end.

(** The port is not looked at. *)
Definition sock_addr (x : sock T U) : option IpAddress :=
  match x with STcp t => le_addr (t_bound t) | SUdp u => le_addr (u_endpoint u) end.
Definition bind_check (addr : IpAddress) (port : Z) : netm unit :=
  s ← gets n_set;
  if existsb (λ kx, bool_decide (sock_addr kx.2 = Some addr)) (map_to_list s) then nfail AddrInUse else mret ().

(** ** The listening table *)

Definition PORT_NUM : Z := 65536.
Definition LISTEN_QUEUE_SIZE : nat := 512.

Definition entry_can_accept (e : ListenTableEntry) (dst : IpAddress) : bool :=
  match le_addr (listen_endpoint e) with Some a => bool_decide (a = dst) | None => true end.

(** The callback of [preprocess], for a SYN without ACK. *)
Definition incoming_tcp_packet (src dst : IpEndpoint) (x : sset * ListenTable) : sset * ListenTable :=
  let '(s, tab) := x in
  match tab !! ep_port dst with
  | Some e =>
      if negb (entry_can_accept e (ep_addr dst)) then x
      else if decide (LISTEN_QUEUE_SIZE ≤ length (syn_queue e))%nat then x
      else match t_listen (listen_endpoint e) tcp_new with
           | Some t =>
               let h := new_handle s in
               (<[h := STcp t]> s, <[ep_port dst := mk_entry (listen_endpoint e) (syn_queue e ++ [h])]> tab)
           | None => x
           end
  | None => x
  end.

(** [SocketSetWrapper::poll_interfaces]: the loopback interface, then the card. *)
Definition poll_interfaces : netm unit := λ n,
  let '(i, x) := iface_poll true incoming_tcp_packet (n_iface n) (n_set n, n_table n) in
  let '(i, (s, tab)) := iface_poll false incoming_tcp_packet i x in
  (Ok (), mk_net (n_tcp n) (n_udp n) s tab (n_curr n) (n_udp_curr n) i).

Definition can_listen (port : Z) : netm bool := gets (λ n, bool_decide (n_table n !! port = None)).
Definition table_listen (e : IpListenEndpoint) : netm unit :=
  _ ← lift (rassert (bool_decide (le_port e ≠ 0)));
  free ← can_listen (le_port e);
  if free : bool then puts (λ n, set_ltable (<[le_port e := mk_entry e []]> (n_table n)) n) else nfail AddrInUse.
(** Dropping the entry removes the sockets of its queue. *)
Definition unlisten (port : Z) : netm unit :=
  e ← gets (λ n, n_table n !! port);
  _ ← puts (λ n, set_ltable (delete port (n_table n)) n);
  match e with Some e => remove_all (syn_queue e) | None => mret () end.

Definition past_handshake (st : State) : bool := match st with Listen | SynReceived => false | _ => true end.

(** The first connected socket of a queue. *)
Fixpoint find_connected (s : sset) (q : list Z) (i : nat) : outcome (option nat) :=
  match q with
  | [] => Ok None
  | h :: q => t ← get_tcp_sock s h; if past_handshake (t_state t) then Ok (Some i) else find_connected s q (S i)
  end.

Definition table_can_accept (port : Z) : netm bool :=
  e ← gets (λ n, n_table n !! port);
  match e with
  | Some e => s ← gets n_set; r ← lift (find_connected s (syn_queue e) 0); mret (bool_decide (is_Some r))
  | None => nfail InvalidInput
  end.

(** [VecDeque::swap_remove_front]. *)
Definition swap_remove_front (i : nat) (q : list Z) : list Z :=
  match q with [] => [] | h :: q => tail (<[i := h]> (h :: q)) end.

Definition get_addr_tuple (h : Z) : netm (IpEndpoint * IpEndpoint) :=
  s ← gets n_set;
  t ← lift (get_tcp_sock s h);
  match t_local t, t_remote t with Some l, Some r => mret (l, r) | _, _ => npanic end.

(** One step here: the source takes the lock of the set again for each of its looks at
    the connection, so that a reset between the last two would make [get_addr_tuple]
    panic. *)
Definition table_accept (port : Z) : netm (Z * (IpEndpoint * IpEndpoint)) :=
  e ← gets (λ n, n_table n !! port);
  match e with
  | Some e =>
      s ← gets n_set;
      r ← lift (find_connected s (syn_queue e) 0);
      match r with
      | None => nfail WouldBlock
      | Some i =>
          match syn_queue e !! i with
          | Some h =>
              _ ← puts (λ n, set_ltable (<[port := mk_entry (listen_endpoint e) (swap_remove_front i (syn_queue e))]>
                                           (n_table n)) n);
              closed ← with_tcp h (λ t, bool_decide (t_state t = Closed));
              if closed : bool then nfail ConnectionReset else a ← get_addr_tuple h; mret (h, a)
          | None => npanic
          end
      end
  | None => nfail InvalidInput
  end.

(** ** Ephemeral ports *)

Definition PORT_START : Z := 49152.
Definition PORT_END : Z := 65535.
Definition next_port (p : Z) : Z := if decide (p = PORT_END) then PORT_START else p + 1.

(** The loop, at most one try for every port. *)
Fixpoint port_loop (tries : nat) : netm Z :=
  match tries with
  | O => nfail AddrInUse
  | S tries =>
      port ← gets n_curr;
      _ ← puts (set_curr (next_port port));
      ok ← can_listen port;
      if ok : bool then mret port else port_loop tries
  end.
Definition get_ephemeral_port : netm Z := port_loop (Z.to_nat (PORT_END - PORT_START + 1)).

(** ** [TcpSocket] *)

Definition get_tcp (id : Z) : netm TcpSocket :=
  o ← gets (λ n, n_tcp n !! id); match o with Some s => mret s | None => npanic end.
Definition upd_tcp (id : Z) (f : TcpSocket → TcpSocket) : netm unit :=
  puts (λ n, set_tcps (alter f id (n_tcp n)) n).

(** [inr] is the state that was not the expected one. *)
Definition update_state {A} (id expect new : Z) (f : netm A) : netm (A + Z) :=
  s ← get_tcp id;
  if decide (tcp_st s = expect) then
    _ ← upd_tcp id (tcp_set_state STATE_BUSY);
    r ← attempt f;
    match r with
    | inl a => _ ← upd_tcp id (tcp_set_state new); mret (inl a)
    | inr e => _ ← upd_tcp id (tcp_set_state expect); nfail e
    end
  else mret (inr (tcp_st s)).
(** [unwrap_or_else]: what the call answers when the state was another. *)
Definition or_else {A} (m : netm (A + Z)) (other : netm A) : netm A :=
  r ← m; match r with inl a => mret a | inr _ => other end.

Definition bound_endpoint (id : Z) : netm IpListenEndpoint :=
  s ← get_tcp id;
  let local := tcp_local_addr s in
  port ← (if decide (ep_port local ≠ 0) then mret (ep_port local) else get_ephemeral_port);
  _ ← lift (rassert (bool_decide (port ≠ 0)));
  mret (mk_listen (if is_unspecified (ep_addr local) then None else Some (ep_addr local)) port).

(** The handle, made when there is none; it is not stored here. *)
Definition handle_or_new (id : Z) : netm Z :=
  s ← get_tcp id; match tcp_handle s with Some h => mret h | None => set_add (STcp tcp_new) end.
Definition the_handle (id : Z) : netm Z :=
  s ← get_tcp id; match tcp_handle s with Some h => mret h | None => npanic end.

(** What the task meets when it runs again: what other tasks did, whether a signal
    is pending, and the clock. *)
Record nround := mk_nround { nr_env : net → net; nr_signal : bool; nr_now : Z }.

(** [block_on]: [None] when the task is still waiting at the end of the rounds. *)
Fixpoint block_loop {A} (rounds : list nround) (f : Z → netm A) : netm (option A) :=
  match rounds with
  | [] => mret None
  | r :: rounds =>
      _ ← puts (nr_env r);
      if nr_signal r then nfail Interrupted
      else
        _ ← poll_interfaces;
        x ← attempt (f (nr_now r));
        match x with
        | inl a => mret (Some a)
        | inr WouldBlock => block_loop rounds f
        | inr e => nfail e
        end
  end.
Definition block_on {A} (nonblocking : bool) (now : Z) (rounds : list nround) (f : Z → netm A) : netm (option A) :=
  if nonblocking then a ← f now; mret (Some a) else block_loop rounds f.

Definition poll_connect (id : Z) : netm PollState :=
  h ← the_handle id;
  st ← with_tcp h t_state;
  match st with
  | SynSent => mret (mk_poll false false)
  | Established => _ ← upd_tcp id (tcp_set_state STATE_CONNECTED); mret (mk_poll false true)
  | _ =>
      _ ← upd_tcp id (λ s, tcp_set_state STATE_CLOSED
                             (tcp_set_peer UNSPECIFIED_ENDPOINT (tcp_set_local UNSPECIFIED_ENDPOINT s)));
      mret (mk_poll false true)
  end.
Definition poll_stream (id : Z) : netm PollState :=
  h ← the_handle id;
  with_tcp h (λ t, mk_poll (negb (t_may_recv t) || t_can_recv t) (negb (t_may_send t) || t_can_send t)).
Definition poll_listener (id : Z) : netm PollState :=
  s ← get_tcp id;
  r ← table_can_accept (ep_port (tcp_local_addr s));
  mret (mk_poll r false).
Definition tcp_poll (id : Z) : netm PollState :=
  s ← get_tcp id;
  if decide (tcp_st s = STATE_CONNECTING) then poll_connect id
  else if decide (tcp_st s = STATE_CONNECTED) then poll_stream id
  else if decide (tcp_st s = STATE_LISTENING) then poll_listener id
  else mret (mk_poll false false).

(** The closure of [connect]; a smoltcp socket made for it is lost when it fails. *)
Definition connect_socket (id : Z) (remote : IpEndpoint) : netm unit :=
  h ← handle_or_new id;
  bound ← bound_endpoint id;
  i ← gets n_iface;
  r ← with_tcp_mut h (t_connect (bool_decide (head (as_bytes (ep_addr remote)) = Some 127)) i remote bound);
  match r with
  | inl _ =>
      a ← get_addr_tuple h;
      upd_tcp id (λ s, tcp_set_handle (Some h) (tcp_set_peer a.2 (tcp_set_local a.1 s)))
  | inr InvalidState => nfail BadState
  | inr Unaddressable => nfail ConnectionRefused
  end.
Definition connected_yet (id : Z) : netm unit :=
  p ← poll_connect id;
  if negb (ps_writable p) then nfail WouldBlock
  else s ← get_tcp id; if decide (tcp_st s = STATE_CONNECTED) then mret () else nfail ConnectionRefused.
Definition tcp_connect (rounds : list nround) (id : Z) (remote : SocketAddr) : netm (option unit) :=
  _ ← or_else (update_state id STATE_CLOSED STATE_CONNECTING (connect_socket id (from_core_sockaddr remote)))
              (nfail AlreadyExists);
  s ← get_tcp id;
  if tcp_nonblock s then nfail WouldBlock else block_on false 0 rounds (λ _, connected_yet id).

(** The closure of [bind]; the handle of the socket it binds is not stored. *)
Definition bind_socket (id : Z) (local : IpEndpoint) : netm unit :=
  local ← (if decide (ep_port local = 0) then p ← get_ephemeral_port; mret (mk_endpoint (ep_addr local) p)
           else mret local);
  s ← get_tcp id;
  if decide (tcp_local_addr s ≠ UNSPECIFIED_ENDPOINT) then nfail InvalidInput
  else
    _ ← upd_tcp id (tcp_set_local local);
    bound ← bound_endpoint id;
    h ← handle_or_new id;
    _ ← with_tcp_mut h (λ t, ((), t_set_bound bound t));
    if tcp_reuse s then mret () else bind_check (ep_addr local) (ep_port local).
Definition tcp_bind (id : Z) (local : SocketAddr) : netm unit :=
  or_else (update_state id STATE_CLOSED STATE_CLOSED (bind_socket id (from_core_sockaddr local))) (nfail InvalidInput).

Definition listen_socket (id : Z) : netm unit :=
  bound ← bound_endpoint id;
  _ ← upd_tcp id (λ s, tcp_set_local (mk_endpoint (ep_addr (tcp_local_addr s)) (le_port bound)) s);
  table_listen bound.
Definition tcp_listen (id : Z) : netm unit :=
  or_else (update_state id STATE_CLOSED STATE_LISTENING (listen_socket id)) (mret ()).

(** A socket with a new identity. *)
Definition tcp_create (s : TcpSocket) : netm Z :=
  id ← gets (λ n, fresh (dom (n_tcp n)));
  _ ← puts (λ n, set_tcps (<[id := s]> (n_tcp n)) n);
  mret id.

Definition accept_once (port : Z) : netm Z :=
  r ← table_accept port;
  tcp_create (tcp_new_connected r.1 r.2.1 r.2.2).
Definition tcp_accept (rounds : list nround) (id : Z) : netm (option Z) :=
  s ← get_tcp id;
  if decide (tcp_st s = STATE_LISTENING) then
    block_on (tcp_nonblock s) 0 rounds (λ _, accept_once (ep_port (tcp_local_addr s)))
  else nfail InvalidInput.

Definition shutdown_stream (id : Z) : netm unit :=
  h ← the_handle id;
  _ ← with_tcp_mut h (λ t, ((), t_close t));
  _ ← upd_tcp id (tcp_set_local UNSPECIFIED_ENDPOINT);
  poll_interfaces.
Definition shutdown_listener (id : Z) : netm unit :=
  s ← get_tcp id;
  _ ← upd_tcp id (tcp_set_local UNSPECIFIED_ENDPOINT);
  _ ← unlisten (ep_port (tcp_local_addr s));
  poll_interfaces.
Definition tcp_shutdown (id : Z) : netm unit :=
  _ ← or_else (update_state id STATE_CONNECTED STATE_CLOSED (shutdown_stream id)) (mret ());
  or_else (update_state id STATE_LISTENING STATE_CLOSED (shutdown_listener id)) (mret ()).

Definition tcp_close (id : Z) : netm unit :=
  s ← get_tcp id;
  match tcp_handle s with
  | Some h => _ ← with_tcp_mut h (λ t, ((), t_close t)); poll_interfaces
  | None => mret ()
  end.

(** [Drop]: the future is polled once, and here runs to its end, which assumes that no
    other task holds a lock it takes; if one does, the handle and the entry of the
    table stay behind. *)
Definition tcp_drop (id : Z) : netm unit :=
  _ ← attempt (tcp_shutdown id);
  s ← get_tcp id;
  _ ← (match tcp_handle s with Some h => set_remove h | None => mret () end);
  puts (λ n, set_tcps (delete id (n_tcp n)) n).

(** One try of [recv], [recv_timeout] (with the time it expires) and [send] on the
    smoltcp socket. *)
Definition recv_once (expire_at : option Z) (len : nat) (now : Z) (t : T) : outcome (list Z) * T :=
  if decide (0 < t_recv_queue t) then
    let '(r, t) := t_recv_slice len t in (match r with Some bs => Ok bs | None => Err BadState end, t)
  else if negb (t_is_active t) then (Err ConnectionRefused, t)
  else if negb (t_may_recv t) then (Ok [], t)
  else (Err (match expire_at with Some e => if decide (e < now) then Timeout else WouldBlock | None => WouldBlock end), t).
Definition send_once (bs : list Z) (t : T) : outcome Z * T :=
  if negb (t_is_active t) || negb (t_may_send t) then (Err ConnectionReset, t)
  else if t_can_send t then
    let '(r, t) := t_send_slice bs t in (match r with Some k => Ok k | None => Err BadState end, t)
  else (Err WouldBlock, t).

Definition stream_op {A} (rounds : list nround) (id now : Z) (op : Z → T → outcome A * T) : netm (option A) :=
  s ← get_tcp id;
  if decide (tcp_st s = STATE_CONNECTING) then nfail WouldBlock
  else if negb (bool_decide (tcp_st s = STATE_CONNECTED)) then nfail NotConnected
  else
    h ← the_handle id;
    block_on (tcp_nonblock s) now rounds (λ now, r ← with_tcp_mut h (op now); lift r).
Definition tcp_recv (rounds : list nround) (id now : Z) (len : nat) : netm (option (list Z)) :=
  stream_op rounds id now (recv_once None len).
Definition tcp_recv_timeout (rounds : list nround) (id now ticks : Z) (len : nat) : netm (option (list Z)) :=
  stream_op rounds id now (recv_once (Some (now + ticks)) len).
Definition tcp_send (rounds : list nround) (id now : Z) (bs : list Z) : netm (option Z) :=
  stream_op rounds id now (λ _, send_once bs).

Definition tcp_local_name (id : Z) : netm SocketAddr :=
  s ← get_tcp id;
  if decide (tcp_st s = STATE_CONNECTED ∨ tcp_st s = STATE_LISTENING ∨ tcp_st s = STATE_CLOSED)
  then mret (into_core_sockaddr (tcp_local_addr s)) else nfail NotConnected.
Definition tcp_peer_name (id : Z) : netm SocketAddr :=
  s ← get_tcp id;
  if decide (tcp_st s = STATE_CONNECTED ∨ tcp_st s = STATE_LISTENING)
  then mret (into_core_sockaddr (tcp_peer_addr s)) else nfail NotConnected.

(** [with_socket], [with_socket_mut]: nothing where there is no smoltcp socket. *)
Definition tcp_with_socket {A} (id : Z) (none : A) (f : T → A * T) : netm A :=
  s ← get_tcp id; match tcp_handle s with Some h => with_tcp_mut h f | None => mret none end.
Definition set_nagle_enabled (id : Z) (b : bool) : netm unit :=
  s ← get_tcp id;
  match tcp_handle s with Some h => with_tcp_mut h (λ t, ((), t_set_nagle b t)) | None => nfail NotConnected end.
Definition nagle_enabled (id : Z) : netm bool :=
  s ← get_tcp id; match tcp_handle s with Some h => with_tcp h t_nagle | None => mret true end.

(** ** [UdpSocket] *)

Definition udp_next_port : netm Z :=
  port ← gets n_udp_curr; _ ← puts (set_udp_curr (next_port port)); mret port.

Definition get_udp (id : Z) : netm UdpSocket :=
  o ← gets (λ n, n_udp n !! id); match o with Some s => mret s | None => npanic end.
Definition put_udp (id : Z) (s : UdpSocket) : netm unit := puts (λ n, set_udps (<[id := s]> (n_udp n)) n).

Definition udpsocket_new : netm Z :=
  h ← set_add (SUdp udp_new);
  id ← gets (λ n, fresh (dom (n_udp n)));
  _ ← put_udp id (mk_udp h None None false false);
  mret id.

Definition udp_bind (id : Z) (local : SocketAddr) : netm unit :=
  local ← (if decide (sa_port local = 0) then p ← udp_next_port; mret (mk_sockaddr (sa_ip local) p) else mret local);
  s ← get_udp id;
  match udp_local_addr s with
  | Some _ => nfail InvalidInput
  | None =>
      let e := from_core_sockaddr local in
      let endpoint := mk_listen (if is_unspecified (ep_addr e) then None else Some (ep_addr e)) (ep_port e) in
      _ ← (if udp_reuse s then mret () else bind_check (ep_addr e) (ep_port e));
      r ← with_udp_mut (udp_handle s) (u_bind endpoint);
      match r with
      | inl _ => put_udp id (mk_udp (udp_handle s) (Some e) (udp_peer_addr s) (udp_nonblock s) (udp_reuse s))
      | inr BindInvalidState => nfail AlreadyExists
      | inr BindUnaddressable => nfail InvalidInput
      end
  end.

Definition set_socket_ttl (id ttl : Z) : netm unit :=
  s ← get_udp id; with_udp_mut (udp_handle s) (λ u, ((), u_set_hop_limit (Some ttl) u)).

Definition udp_connect (id : Z) (addr : SocketAddr) : netm unit :=
  s ← get_udp id;
  _ ← (match udp_local_addr s with Some _ => mret () | None => udp_bind id (into_core_sockaddr UNSPECIFIED_ENDPOINT) end);
  s ← get_udp id;
  put_udp id (mk_udp (udp_handle s) (udp_local_addr s) (Some (from_core_sockaddr addr)) (udp_nonblock s) (udp_reuse s)).

Definition udp_peer_name (id : Z) : netm IpEndpoint :=
  s ← get_udp id; lift (ok_or (udp_peer_addr s) NotConnected).
Definition udp_local_name (id : Z) : netm SocketAddr :=
  s ← get_udp id;
  match udp_local_addr s with Some e => mret (into_core_sockaddr e) | None => nfail NotConnected end.

(** [send_impl] and [recv_impl]. *)
Definition udp_send_once (bs : list Z) (e : IpEndpoint) (u : U) : outcome Z * U :=
  if negb (u_is_open u) then (Err NotConnected, u)
  else if u_can_send u then
    match u_send_slice bs e u with
    | (inl _, u) => (Ok (Z.of_nat (length bs)), u)
    | (inr BufferFull, u) => (Err WouldBlock, u)
    | (inr SendUnaddressable, u) => (Err ConnectionRefused, u)
    end
  else (Err WouldBlock, u).
Definition udp_recv_once {A} (op : U → outcome A * U) (u : U) : outcome A * U :=
  if negb (u_is_open u) then (Err NotConnected, u)
  else if u_can_recv u then op u
  else (Err WouldBlock, u).
Definition udp_op {A} (rounds : list nround) (id now : Z) (op : Z → U → outcome A * U) : netm (option A) :=
  s ← get_udp id;
  match udp_local_addr s with
  | None => nfail NotConnected
  | Some _ => block_on (udp_nonblock s) now rounds (λ now, r ← with_udp_mut (udp_handle s) (op now); lift r)
  end.

Definition udp_send_to (rounds : list nround) (id now : Z) (bs : list Z) (remote : SocketAddr) : netm (option Z) :=
  if decide (sa_port remote = 0 ∨ core_is_unspecified (sa_ip remote) = true) then nfail InvalidInput
  else udp_op rounds id now (λ _, udp_send_once bs (from_core_sockaddr remote)).
Definition udp_send (rounds : list nround) (id now : Z) (bs : list Z) : netm (option Z) :=
  e ← udp_peer_name id; udp_op rounds id now (λ _, udp_send_once bs e).

(** A datagram and where it came from; [expired] is the error when smoltcp has none. *)
Definition datagram (expired : AxError) (take : U → option (list Z * IpEndpoint) * U) (u : U)
    : outcome (list Z * SocketAddr) * U :=
  match take u with
  | (Some (bs, e), u) => (Ok (bs, into_core_sockaddr e), u)
  | (None, u) => (Err expired, u)
  end.
Definition udp_recv_from (rounds : list nround) (id now : Z) (len : nat) : netm (option (list Z * SocketAddr)) :=
  udp_op rounds id now (λ _, udp_recv_once (datagram BadState (u_recv_slice len))).
Definition udp_peek_from (rounds : list nround) (id now : Z) (len : nat) : netm (option (list Z * SocketAddr)) :=
  udp_op rounds id now (λ _, udp_recv_once (datagram BadState (u_peek_slice len))).
Definition udp_recv_from_timeout (rounds : list nround) (id now ticks : Z) (len : nat)
    : netm (option (list Z * SocketAddr)) :=
  udp_op rounds id now (λ t, udp_recv_once
    (datagram (if decide (now + ticks < t) then Timeout else WouldBlock) (u_recv_slice len))).

(** [recv] of a connected socket: a datagram from elsewhere is dropped. *)
Definition from_peer (peer e : IpEndpoint) : bool :=
  (is_unspecified (ep_addr peer) || bool_decide (ep_addr peer = ep_addr e)) &&
  (bool_decide (ep_port peer = 0) || bool_decide (ep_port peer = ep_port e)).
Definition recv_peer (peer : IpEndpoint) (len : nat) (u : U) : outcome (list Z) * U :=
  match u_recv_slice len u with
  | (Some (bs, e), u) => (if from_peer peer e then Ok bs else Err WouldBlock, u)
  | (None, u) => (Err BadState, u)
  end.
Definition udp_recv (rounds : list nround) (id now : Z) (len : nat) : netm (option (list Z)) :=
  peer ← udp_peer_name id; udp_op rounds id now (λ _, udp_recv_once (recv_peer peer len)).

Definition udp_shutdown (id : Z) : netm unit :=
  s ← get_udp id;
  _ ← poll_interfaces;
  with_udp_mut (udp_handle s) (λ u, ((), u_close u)).
Definition udp_poll (id : Z) : netm PollState :=
  s ← get_udp id;
  match udp_local_addr s with
  | None => mret (mk_poll false false)
  | Some _ => with_udp_mut (udp_handle s) (λ u, (mk_poll (u_can_recv u) (u_can_send u), u))
  end.
Definition udp_drop (id : Z) : netm unit :=
  s ← get_udp id;
  _ ← attempt (udp_shutdown id);
  _ ← set_remove (udp_handle s);
  puts (λ n, set_udps (delete id (n_udp n)) n).
End net.
Arguments netm T U I A : clear implicits.
Arguments nround T U I : clear implicits.
Arguments mk_nround {T U I}.
