(* ===== verification/NetProps.v ===== *)
(** * What the sockets promise

    Every smoltcp socket that a socket or a listening queue refers to is in the socket
    set, is of the right kind and belongs to it alone, so that no operation meets a
    dangling handle; the listening table holds exactly the ports of the listening
    sockets.  The laws of [Smoltcp] are what the crate documents: a new handle is not
    in use, a connected socket has two endpoints, and polling an interface only calls
    back and lets the sockets evolve. *)

From S2P Require Import Prelude Net.

Open Scope Z_scope.

(** ** Laws of the stack *)

Definition has_kind {T U} (s : gmap Z (sock T U)) (h : Z) (udp : bool) : Prop :=
  match s !! h with Some (STcp _) => udp = false | Some (SUdp _) => udp = true | None => False end.
Definition evolves {T U} (s s' : gmap Z (sock T U)) : Prop :=
  ∀ h udp, has_kind s h udp ↔ has_kind s' h udp.

Class SmoltcpLaws T U I `{Smoltcp T U I} := {
  new_handle_fresh (s : gmap Z (sock T U)) : s !! new_handle s = None;
  connect_endpoints b i r l (t t' : T) :
    t_connect b i r l t = (inl (), t') → is_Some (t_local t') ∧ is_Some (t_remote t');
  connected_endpoints (t : T) :
    past_handshake (t_state t) = true → t_state t ≠ Closed → is_Some (t_local t) ∧ is_Some (t_remote t);
  iface_poll_only b cb i (P : gmap Z (sock T U) * ListenTable → Prop) :
    (∀ src dst x, P x → P (cb src dst x)) → (∀ s s' tab, evolves s s' → P (s, tab) → P (s', tab)) →
    ∀ x, P x → P (iface_poll b cb i x).2
}.

Section props.
Context {T U I : Type} `{SmoltcpLaws T U I}.
Notation net := (net T U I).
Notation netm := (netm T U I).
Notation sset := (gmap Z (sock T U)).
Implicit Types n : net.

(** ** Weakest preconditions *)

(** No panic, and [Q] of a result, [E] of an error. *)
Definition wp {A} (m : netm A) (Q : A → net → Prop) (E : AxError → net → Prop) (n : net) : Prop :=
  match m n with (Ok a, n') => Q a n' | (Err e, n') => E e n' | (Panic, _) => False end.

Lemma nwp_bind {A B} (m : netm A) (f : A → netm B) Q E n :
  wp m (λ a n', wp (f a) Q E n') E n → wp (m ≫= f) Q E n.
Proof. unfold wp, mbind, netm_bind. by destruct (m n) as [[a|e|] n']. Qed.
Lemma wp_ret {A} (a : A) Q E n : Q a n → wp (mret a) Q E n.
Proof. done. Qed.
Lemma wp_gets {A} (f : net → A) Q E n : Q (f n) n → wp (gets f) Q E n.
Proof. done. Qed.
Lemma wp_puts f (Q : unit → net → Prop) E n : Q () (f n) → wp (puts f) Q E n.
Proof. done. Qed.
Lemma wp_fail {A} e (Q : A → net → Prop) E n : E e n → wp (nfail e) Q E n.
Proof. done. Qed.
Lemma wp_attempt {A} (m : netm A) Q E n :
  wp m (λ a, Q (inl a)) (λ e, Q (inr e)) n → wp (attempt m) Q E n.
Proof. unfold wp, attempt. by destruct (m n) as [[a|e|] n']. Qed.
Lemma nwp_mono {A} (m : netm A) (Q Q' : A → net → Prop) (E E' : AxError → net → Prop) n :
  wp m Q E n → (∀ a n', Q a n' → Q' a n') → (∀ e n', E e n' → E' e n') → wp m Q' E' n.
Proof. unfold wp. destruct (m n) as [[a|e|] n']; auto. Qed.

(** ** Who holds a handle *)

Inductive owner := OTcp (id : Z) | OQueue (port : Z) | OUdp (id : Z).
Definition owner_udp (o : owner) : bool := match o with OUdp _ => true | _ => false end.
Definition owns (n : net) (o : owner) (h : Z) : Prop :=
  match o with
  | OTcp id => ∃ s, n_tcp n !! id = Some s ∧ tcp_handle s = Some h
  | OQueue p => ∃ e, n_table n !! p = Some e ∧ h ∈ syn_queue e
  | OUdp id => ∃ s, n_udp n !! id = Some s ∧ udp_handle s = h
  end.
Definition queues_ok (tab : ListenTable) : Prop :=
  ∀ p e, tab !! p = Some e → NoDup (syn_queue e) ∧ (length (syn_queue e) ≤ LISTEN_QUEUE_SIZE)%nat.

Record own_inv (n : net) : Prop := {
  oi_live o h : owns n o h → has_kind (n_set n) h (owner_udp o);
  oi_inj o o' h : owns n o h → owns n o' h → o = o';
  oi_queues : queues_ok (n_table n)
}.

(** A step after which an owner holds what it held before, or one handle that nobody
    else held. *)
Lemma own_step n n' (new : option (owner * Z)) :
  own_inv n →
  (∀ o h, owns n' o h → owns n o h ∨ new = Some (o, h)) →
  (∀ o h, new = Some (o, h) → has_kind (n_set n') h (owner_udp o) ∧ ∀ o', owns n o' h → o' = o) →
  (∀ o h, owns n' o h → owns n o h → has_kind (n_set n) h (owner_udp o) → has_kind (n_set n') h (owner_udp o)) →
  queues_ok (n_table n') → own_inv n'.
Proof.
  intros [Hl Hi _] Hown Hnew Hset Hq. split; [| |done].
  - intros o h Ho. destruct (Hown _ _ Ho) as [Ho'|Ho']; [by eauto|]. by apply Hnew.
  - intros o o' h Ho Ho'. destruct (Hown _ _ Ho) as [Ha|Ha], (Hown _ _ Ho') as [Hb|Hb]; [eauto| | |congruence].
    + by apply (Hnew _ _ Hb).
    + symmetry. by apply (Hnew _ _ Ha).
Qed.
Lemma own_weaken n n' :
  own_inv n → (∀ o h, owns n' o h → owns n o h) →
  (∀ h udp, has_kind (n_set n) h udp → has_kind (n_set n') h udp) →
  queues_ok (n_table n') → own_inv n'.
Proof. intros Hn Ho Hs Hq. apply (own_step n n' None); eauto; done. Qed.

(** ** The invariant *)

(** [b] is a socket in the middle of [update_state], [x] a port whose entry has lost
    or not yet got its socket. *)
Definition listens (n : net) (id p : Z) : Prop :=
  ∃ s, n_tcp n !! id = Some s ∧ tcp_st s = STATE_LISTENING ∧ ep_port (tcp_local_addr s) = p.
Definition state_ok (b : option Z) (id : Z) (s : TcpSocket) : Prop :=
  (tcp_st s = STATE_BUSY → b = Some id) ∧
  (tcp_st s = STATE_CONNECTING ∨ tcp_st s = STATE_CONNECTED → is_Some (tcp_handle s)).

Record ninv (b x : option Z) (n : net) : Prop := {
  ni_own : own_inv n;
  ni_curr : PORT_START ≤ n_curr n ≤ PORT_END;
  ni_state id s : n_tcp n !! id = Some s → state_ok b id s;
  ni_listens id p : listens n id p → is_Some (n_table n !! p) ∧ x ≠ Some p;
  ni_unique id id' p : listens n id p → listens n id' p → id = id';
  ni_table p : is_Some (n_table n !! p) → x = Some p ∨ ∃ id, listens n id p
}.

(** Changes of the socket set and of the queues only. *)
Lemma ninv_sets b x n n' :
  ninv b x n → own_inv n' → n_tcp n' = n_tcp n → n_curr n' = n_curr n →
  (∀ p, is_Some (n_table n' !! p) ↔ is_Some (n_table n !! p)) → ninv b x n'.
Proof.
  intros [Ho Hc Hs Hl Hu Ht] Ho' Et Ec Hd.
  assert (∀ id p, listens n' id p ↔ listens n id p) as El by (intros; unfold listens; by rewrite Et).
  split; [done|by rewrite Ec|rewrite Et; eauto| | |].
  - intros id p Hp%El. rewrite Hd. eauto.
  - intros id id' p H1%El H2%El. eauto.
  - intros p Hp%Hd. destruct (Ht p Hp) as [?|[id ?]]; [eauto|]. right. exists id. by apply El.
Qed.

(** ** The socket set *)

Lemma has_kind_insert_same (s : sset) h x udp h' :
  has_kind s h udp → has_kind (<[h := x]> s) h udp → ∀ b, has_kind s h' b → has_kind (<[h := x]> s) h' b.
Proof.
  intros Hk Hx b Hb. destruct (decide (h' = h)) as [->|Hn].
  - assert (b = udp) as ->; [|done]. unfold has_kind in *. by repeat case_match; simplify_eq.
  - unfold has_kind in *. by rewrite lookup_insert_ne.
Qed.
Lemma has_kind_tcp (s : sset) h t : has_kind (<[h := STcp t]> s) h false.
Proof. unfold has_kind. by rewrite lookup_insert_eq. Qed.
Lemma has_kind_udp (s : sset) h u : has_kind (<[h := SUdp u]> s) h true.
Proof. unfold has_kind. by rewrite lookup_insert_eq. Qed.
Lemma has_kind_fresh (s : sset) x h b : has_kind s h b → has_kind (<[new_handle s := x]> s) h b.
Proof.
  intros Hb. unfold has_kind in *. rewrite lookup_insert_ne; [done|]. intros <-. by rewrite new_handle_fresh in Hb.
Qed.
Lemma get_tcp_sock_kind (s : sset) h : has_kind s h false → ∃ t, get_tcp_sock s h = Ok t.
Proof. unfold has_kind, get_tcp_sock. repeat case_match; naive_solver. Qed.
Lemma get_udp_sock_kind (s : sset) h : has_kind s h true → ∃ u, get_udp_sock s h = Ok u.
Proof. unfold has_kind, get_udp_sock. repeat case_match; naive_solver. Qed.
Lemma has_kind_get (s : sset) h t : get_tcp_sock s h = Ok t → has_kind s h false.
Proof. unfold has_kind, get_tcp_sock. repeat case_match; naive_solver. Qed.

(** A handle that nobody holds but that is in the set. *)
Lemma fresh_unowned n o : own_inv n → ¬ owns n o (new_handle (n_set n)).
Proof. intros Ho Hn. apply (oi_live _ Ho) in Hn. unfold has_kind in Hn. by rewrite new_handle_fresh in Hn. Qed.

Lemma ninv_set b x n s :
  ninv b x n → (∀ h udp, has_kind (n_set n) h udp → has_kind s h udp) → ninv b x (set_set s n).
Proof. intros Hn Hs. apply (ninv_sets b x n); try done. apply (own_weaken n); try done; apply Hn. Qed.

(** The set gets a socket; nothing else changes. *)
Definition adds (n : net) (h : Z) (n' : net) : Prop :=
  n' = set_set (n_set n') n ∧ has_kind (n_set n') h false ∧ ∀ o, ¬ owns n' o h.

Lemma wp_add_tcp b x n E :
  ninv b x n → wp (set_add (STcp tcp_new)) (λ h n', ninv b x n' ∧ adds n h n') E n.
Proof.
  intros Hn. split; [|split; [done|split; [apply has_kind_tcp|]]].
  - apply ninv_set; [done|]. intros. by apply has_kind_fresh.
  - intros o Ho. by apply (fresh_unowned n o (ni_own _ _ _ Hn)).
Qed.
Lemma wp_with_tcp {A} h (f : T → A) (Q : A → net → Prop) E n :
  has_kind (n_set n) h false → (∀ t, get_tcp_sock (n_set n) h = Ok t → Q (f t) n) → wp (with_tcp h f) Q E n.
Proof.
  intros [t Ht]%get_tcp_sock_kind HQ. unfold wp, with_tcp, lift, gets, mbind, netm_bind, mret, netm_ret.
  rewrite Ht. auto.
Qed.
Lemma wp_addr_tuple h t l r (Q : IpEndpoint * IpEndpoint → net → Prop) E n :
  get_tcp_sock (n_set n) h = Ok t → t_local t = Some l → t_remote t = Some r → Q (l, r) n →
  wp (get_addr_tuple h) Q E n.
Proof.
  intros Ht Hl Hr HQ. unfold wp, get_addr_tuple, lift, gets, mbind, netm_bind, mret, netm_ret. by rewrite Ht, Hl, Hr.
Qed.
Lemma wp_with_tcp_mut {A} b x h (f : T → A * T) (Q : A → net → Prop) E n :
  ninv b x n → has_kind (n_set n) h false →
  (∀ t a t', get_tcp_sock (n_set n) h = Ok t → f t = (a, t') → let n' := set_set (<[h := STcp t']> (n_set n)) n in
     ninv b x n' → Q a n') → wp (with_tcp_mut h f) Q E n.
Proof.
  intros Hn Hh HQ. destruct (get_tcp_sock_kind _ _ Hh) as [t Ht].
  unfold wp, with_tcp_mut, lift, gets, puts, mbind, netm_bind, mret, netm_ret. rewrite Ht.
  destruct (f t) as [a t'] eqn:Ef. eapply HQ; [done..|]. apply ninv_set; [done|].
  intros. eapply has_kind_insert_same; [exact Hh|apply has_kind_tcp|done].
Qed.
Lemma wp_with_udp_mut {A} b x h (f : U → A * U) (Q : A → net → Prop) E n :
  ninv b x n → has_kind (n_set n) h true →
  (∀ u a u', f u = (a, u') → let n' := set_set (<[h := SUdp u']> (n_set n)) n in ninv b x n' → Q a n') →
  wp (with_udp_mut h f) Q E n.
Proof.
  intros Hn Hh HQ. destruct (get_udp_sock_kind _ _ Hh) as [u Hu].
  unfold wp, with_udp_mut, lift, gets, puts, mbind, netm_bind, mret, netm_ret. rewrite Hu.
  destruct (f u) as [a u'] eqn:Ef. eapply HQ; [done|]. apply ninv_set; [done|].
  intros. eapply has_kind_insert_same; [exact Hh|apply has_kind_udp|done].
Qed.

(** ** Polling the interfaces *)

Lemma incoming_ninv b x n src dst :
  ninv b x n → let y := incoming_tcp_packet src dst (n_set n, n_table n) in
  ninv b x (set_set y.1 (set_ltable y.2 n)).
Proof.
  intros Hn. assert (ninv b x (set_set (n_set n) (set_ltable (n_table n) n))) as Hid by by destruct n.
  cbn. unfold incoming_tcp_packet. destruct (n_table n !! ep_port dst) as [e|] eqn:Ee; [|done].
  destruct (entry_can_accept e (ep_addr dst)); [|done]. cbn. case_decide as Hlen; [done|].
  destruct (t_listen (listen_endpoint e) tcp_new) as [t|]; [|done]. cbn.
  set (h := new_handle (n_set n)). destruct (oi_queues _ (ni_own _ _ _ Hn) _ _ Ee) as [Hnd Hle].
  assert (h ∉ syn_queue e) as Hh
    by (intros Hin; apply (fresh_unowned n (OQueue (ep_port dst)) (ni_own _ _ _ Hn)); by exists e).
  apply (ninv_sets b x n); [done| |done..|].
  - apply (own_step n _ (Some (OQueue (ep_port dst), h))); [apply Hn| | | |].
    + intros [id|p|id] h'; cbn; [eauto| |eauto]. intros (e' & He' & Hin).
      destruct (decide (p = ep_port dst)) as [->|Hp].
      * rewrite lookup_insert_eq in He'. simplify_eq. cbn in Hin. apply elem_of_app in Hin as [?|?%list_elem_of_singleton];
          [left; eauto|right; by subst].
      * rewrite lookup_insert_ne in He' by done. eauto.
    + intros o h' [= <- <-]. split; [apply has_kind_tcp|]. intros o' Ho'.
      by destruct (fresh_unowned n o' (ni_own _ _ _ Hn)).
    + intros o h' _ _. apply has_kind_fresh.
    + intros p e' He'. cbn in He'. destruct (decide (p = ep_port dst)) as [->|Hp].
      * rewrite lookup_insert_eq in He'. simplify_eq. cbn. rewrite length_app. cbn. split; [by apply NoDup_snoc|lia].
      * rewrite lookup_insert_ne in He' by done. by apply (oi_queues _ (ni_own _ _ _ Hn) p).
  - intros p. cbn. destruct (decide (p = ep_port dst)) as [->|Hp];
      [rewrite lookup_insert_eq, Ee; naive_solver|by rewrite lookup_insert_ne].
Qed.

(** Polling keeps the invariant and the sockets themselves. *)
Definition same_socks (n n' : net) : Prop := n_tcp n' = n_tcp n ∧ n_udp n' = n_udp n.
Lemma poll_step b x bl n i y :
  ninv b x n → (∀ i, ninv b x (mk_net (n_tcp n) (n_udp n) y.1 y.2 (n_curr n) (n_udp_curr n) i)) →
  ∀ i', ninv b x (mk_net (n_tcp n) (n_udp n) (iface_poll bl incoming_tcp_packet i y).2.1
                    (iface_poll bl incoming_tcp_packet i y).2.2 (n_curr n) (n_udp_curr n) i').
Proof.
  intros Hn. revert y. apply (iface_poll_only bl incoming_tcp_packet i (λ y,
    ∀ i', ninv b x (mk_net (n_tcp n) (n_udp n) y.1 y.2 (n_curr n) (n_udp_curr n) i'))).
  - intros src dst [s tab] Hy i'. apply (incoming_ninv b x _ src dst (Hy i')).
  - intros s s' tab Hs Hy i'. apply (ninv_set b x _ s' (Hy i')). intros h udp. apply Hs.
Qed.
Lemma wp_poll b x n (Q : unit → net → Prop) E :
  ninv b x n → (∀ n', ninv b x n' → same_socks n n' → Q () n') → wp poll_interfaces Q E n.
Proof.
  intros Hn HQ. unfold wp, poll_interfaces.
  destruct (iface_poll true _ (n_iface n) (n_set n, n_table n)) as [i y] eqn:E1.
  destruct (iface_poll false _ i y) as [i' [s tab]] eqn:E2.
  apply HQ; [|done].
  pose proof (poll_step b x true n (n_iface n) (n_set n, n_table n) Hn) as H1. rewrite E1 in H1. cbn in H1.
  pose proof (poll_step b x false n i y Hn) as H2. rewrite E2 in H2. cbn in H2. apply H2. apply H1.
  intros i''. apply (ninv_sets b x n); [done| |done..]. apply (own_weaken n); try done; apply Hn.
Qed.

(** ** Changing a socket *)

Lemma owns_alter n id s f o h :
  n_tcp n !! id = Some s → owns (set_tcps (alter f id (n_tcp n)) n) o h →
  (owns n o h ∧ o ≠ OTcp id) ∨ (o = OTcp id ∧ tcp_handle (f s) = Some h).
Proof.
  intros Hs. destruct o as [id'|p|id']; cbn; [|eauto..].
  intros (s' & Hs' & Hh). destruct (decide (id' = id)) as [->|Hn].
  - rewrite lookup_alter_eq, Hs in Hs'. cbn in Hs'. simplify_eq. eauto.
  - rewrite lookup_alter_ne in Hs' by done. left. split; [eauto|congruence].
Qed.
Lemma own_alter n id s f :
  own_inv n → n_tcp n !! id = Some s →
  (∀ h, tcp_handle (f s) = Some h → tcp_handle s = Some h ∨ (has_kind (n_set n) h false ∧ ∀ o, ¬ owns n o h)) →
  own_inv (set_tcps (alter f id (n_tcp n)) n).
Proof.
  intros Ho Hs Hf.
  apply (own_step n _ (match tcp_handle (f s) with Some h => Some (OTcp id, h) | None => None end)); [done| | | |].
  - intros o h [[? _]|[-> ->]]%(owns_alter _ _ s); [by left|by right|done].
  - intros o h. case_match eqn:Eh; [|done]. intros [= <- <-]. destruct (Hf _ eq_refl) as [E|[Hk Hno]].
    + assert (owns n (OTcp id) z) as Hown by by exists s. split; [by apply (oi_live _ Ho) in Hown|].
      intros o' Ho'. by apply (oi_inj _ Ho o' (OTcp id) z).
    + split; [done|]. intros o' Ho'. by destruct (Hno o').
  - done.
  - apply Ho.
Qed.
Lemma listens_alter n id s f id' p :
  n_tcp n !! id = Some s →
  listens (set_tcps (alter f id (n_tcp n)) n) id' p ↔
  (id' ≠ id ∧ listens n id' p) ∨ (id' = id ∧ tcp_st (f s) = STATE_LISTENING ∧ ep_port (tcp_local_addr (f s)) = p).
Proof.
  intros Hs. unfold listens. cbn. destruct (decide (id' = id)) as [->|Hn].
  - rewrite lookup_alter_eq, Hs. cbn. naive_solver.
  - rewrite lookup_alter_ne by done. naive_solver.
Qed.
(** What a change of the socket [id] has to keep. *)
Lemma ninv_alter b b' x x' n id s f :
  ninv b x n → n_tcp n !! id = Some s →
  (∀ h, tcp_handle (f s) = Some h → tcp_handle s = Some h ∨ (has_kind (n_set n) h false ∧ ∀ o, ¬ owns n o h)) →
  state_ok b' id (f s) → (∀ id', id' ≠ id → b = Some id' → b' = Some id') →
  (tcp_st (f s) = STATE_LISTENING → ∀ q, ep_port (tcp_local_addr (f s)) = q →
     is_Some (n_table n !! q) ∧ x' ≠ Some q ∧ ∀ id', id' ≠ id → ¬ listens n id' q) →
  (∀ id' q, id' ≠ id → listens n id' q → x' ≠ Some q) →
  (∀ q, is_Some (n_table n !! q) → x = Some q ∨ listens n id q →
     x' = Some q ∨ (tcp_st (f s) = STATE_LISTENING ∧ ep_port (tcp_local_addr (f s)) = q)) →
  ninv b' x' (set_tcps (alter f id (n_tcp n)) n).
Proof.
  intros Hn Hs Hh Hok Hb Hnew Hold Htab. split.
  - eapply own_alter; [apply Hn|done..].
  - apply Hn.
  - intros id' s'. cbn. destruct (decide (id' = id)) as [->|Hne].
    + rewrite lookup_alter_eq, Hs. cbn. by intros [= <-].
    + rewrite lookup_alter_ne by done. intros Hs'. destruct (ni_state _ _ _ Hn _ _ Hs'). split; eauto.
  - intros id' p. rewrite listens_alter by done. intros [[Hne Hl]|(-> & Hl & Hp)].
    + split; [apply (ni_listens _ _ _ Hn _ _ Hl)|eauto].
    + destruct (Hnew Hl p Hp) as (? & ? & ?). by split.
  - intros id1 id2 p. rewrite !listens_alter by done.
    intros [[H1 L1]|(-> & L1 & P1)] [[H2 L2]|(-> & L2 & P2)]; [by eapply (ni_unique _ _ _ Hn)| | |done].
    + destruct (Hnew L2 p P2) as (_ & _ & Hno). by destruct (Hno id1).
    + destruct (Hnew L1 p P1) as (_ & _ & Hno). by destruct (Hno id2).
  - intros p Hp. destruct (ni_table _ _ _ Hn p Hp) as [Hx|[id' Hl]].
    + destruct (Htab p Hp) as [?|[? ?]]; [by left|by left|]. right. exists id. rewrite listens_alter by done. auto.
    + destruct (decide (id' = id)) as [->|Hne].
      * destruct (Htab p Hp) as [?|[? ?]]; [by right|by left|]. right. exists id. rewrite listens_alter by done. auto.
      * right. exists id'. rewrite listens_alter by done. auto.
Qed.

(** ** Inside [update_state] *)

Lemma wp_get_tcp id s (Q : TcpSocket → net → Prop) E n :
  n_tcp n !! id = Some s → Q s n → wp (get_tcp id) Q E n.
Proof. intros Hs HQ. unfold wp, get_tcp, gets, mbind, netm_bind, mret, netm_ret. by rewrite Hs. Qed.

Definition busy (id : Z) (x : option Z) (P : TcpSocket → Prop) (n : net) : Prop :=
  ninv (Some id) x n ∧ ∃ s, n_tcp n !! id = Some s ∧ tcp_st s = STATE_BUSY ∧ P s.

Lemma enter_busy id n s x :
  ninv None None n → n_tcp n !! id = Some s →
  x = (if decide (tcp_st s = STATE_LISTENING) then Some (ep_port (tcp_local_addr s)) else None) →
  busy id x (λ s', s' = tcp_set_state STATE_BUSY s) (set_tcps (alter (tcp_set_state STATE_BUSY) id (n_tcp n)) n).
Proof.
  intros Hn Hs ->. split.
  - eapply (ninv_alter None (Some id) None); [done..|by left| |done|done| |].
    + split; [done|]. intros [?|?]; done.
    + intros id' q Hne Hl. case_decide as Hst; [|done]. intros [= <-]. apply Hne.
      eapply (ni_unique _ _ _ Hn); [done|]. by exists s.
    + intros q _ [?|(s' & ? & Hst & <-)]; [done|]. simplify_eq. left. by rewrite decide_True.
  - exists (tcp_set_state STATE_BUSY s). cbn. by rewrite lookup_alter_eq, Hs.
Qed.
(** Back to a state without a port, and to listening. *)
Lemma leave_busy id x (P : TcpSocket → Prop) n st :
  busy id None P n → st = STATE_CLOSED ∨ ((st = STATE_CONNECTING ∨ st = STATE_CONNECTED) ∧ ∀ s, P s → is_Some (tcp_handle s)) →
  x = None → ninv None x (set_tcps (alter (tcp_set_state st) id (n_tcp n)) n).
Proof.
  intros (Hn & s & Hs & Hst & HP) Hnew ->.
  assert (st ≠ STATE_BUSY ∧ st ≠ STATE_LISTENING) as [Hnb Hnl] by (destruct Hnew as [->|[[->| ->] _]]; done).
  eapply (ninv_alter (Some id) None None); [done..|by left| | |done|done|].
  - split; [done|]. cbn. intros Hc. destruct Hnew as [->|[_ Hh]]; [by destruct Hc|]. by apply Hh.
  - naive_solver.
  - intros q _ [?|(s' & ? & Hst' & <-)]; [done|]. simplify_eq. by rewrite Hst in Hst'.
Qed.
Lemma leave_busy_listening id p (P : TcpSocket → Prop) n :
  busy id (Some p) P n → (∀ s, P s → ep_port (tcp_local_addr s) = p) → is_Some (n_table n !! p) →
  ninv None None (set_tcps (alter (tcp_set_state STATE_LISTENING) id (n_tcp n)) n).
Proof.
  intros (Hn & s & Hs & Hst & HP) Hp Htab. specialize (Hp s HP).
  eapply (ninv_alter (Some id) None (Some p)); [done..|by left| | | |done|].
  - split; [done|]. intros [?|?]; done.
  - naive_solver.
  - intros _ q <-. cbn. rewrite Hp. split; [done|]. split; [done|]. intros id' _ Hl.
    by apply (ni_listens _ _ _ Hn) in Hl as [_ ?].
  - intros q _ [[= ->]|(s' & ? & Hst' & <-)]; [by right|]. simplify_eq. by rewrite Hst in Hst'.
Qed.

(** The rule of [update_state]: the closure runs from the busy socket, and leaves it
    fit for the new state, or for the old one when it fails. *)
Lemma wp_update_state {A} id expect new (f : netm A) (Q : A + Z → net → Prop) (E : AxError → net → Prop) n s :
  n_tcp n !! id = Some s → (tcp_st s ≠ expect → Q (inr (tcp_st s)) n) →
  (tcp_st s = expect → wp f (λ a n', Q (inl a) (set_tcps (alter (tcp_set_state new) id (n_tcp n')) n'))
                        (λ e n', E e (set_tcps (alter (tcp_set_state expect) id (n_tcp n')) n'))
                        (set_tcps (alter (tcp_set_state STATE_BUSY) id (n_tcp n)) n)) →
  wp (update_state id expect new f) Q E n.
Proof.
  intros Hs Hno Hf. unfold update_state. apply nwp_bind, (wp_get_tcp _ s); [done|]. case_decide as Hd; [|by apply wp_ret, Hno].
  apply nwp_bind, wp_puts. apply nwp_bind, wp_attempt. eapply nwp_mono; [exact (Hf Hd)| |].
  - intros a n' HQ. apply nwp_bind, wp_puts. by apply wp_ret.
  - intros e n' HE. apply nwp_bind, wp_puts. by apply wp_fail.
Qed.
Lemma wp_or_else {A} (m : netm (A + Z)) (other : netm A) (Q : A → net → Prop) E n :
  wp m (λ r n', match r with inl a => Q a n' | inr _ => wp other Q E n' end) E n → wp (or_else m other) Q E n.
Proof. intros Hm. apply nwp_bind. eapply nwp_mono; [exact Hm| |done]. intros [a|st] n'; auto. Qed.

(** ** Ephemeral ports *)

Lemma next_port_range p : PORT_START ≤ p ≤ PORT_END → PORT_START ≤ next_port p ≤ PORT_END.
Proof. unfold next_port, PORT_START, PORT_END. case_decide; lia. Qed.
Definition only_curr (n n' : net) : Prop := n' = set_curr (n_curr n') n ∧ PORT_START ≤ n_curr n' ≤ PORT_END.
Lemma wp_port_loop tries n :
  PORT_START ≤ n_curr n ≤ PORT_END →
  wp (port_loop tries) (λ p n', PORT_START ≤ p ≤ PORT_END ∧ n_table n !! p = None ∧ only_curr n n')
    (λ _ n', only_curr n n') n.
Proof.
  revert n. induction tries as [|tries IH]; intros n Hc; cbn [port_loop]; [by apply wp_fail; destruct n|].
  apply nwp_bind, wp_gets. apply nwp_bind, wp_puts. apply nwp_bind, wp_gets.
  pose proof (next_port_range _ Hc) as Hc'. case_bool_decide as Ht; [by apply wp_ret|].
  eapply nwp_mono; [apply IH; done| |].
  - intros p n' (Hp & Hfree & -> & Hr). done.
  - intros e n' (-> & Hr). done.
Qed.
Lemma only_curr_ninv b x n n' : ninv b x n → only_curr n n' → ninv b x n'.
Proof.
  intros Hn (-> & Hr). split; [|done|apply Hn..]. apply (own_weaken n); try done; apply Hn.
Qed.
Lemma only_curr_busy id x P n n' : busy id x P n → only_curr n n' → busy id x P n'.
Proof. intros (Hn & Hs) Hc. split; [by eapply only_curr_ninv|]. by destruct Hc as [-> _]. Qed.
Lemma wp_bound_endpoint id s (Q : IpListenEndpoint → net → Prop) (E : AxError → net → Prop) n :
  n_tcp n !! id = Some s → PORT_START ≤ n_curr n ≤ PORT_END →
  (∀ e n', only_curr n n' → le_port e ≠ 0 → Q e n') → (∀ e n', only_curr n n' → E e n') →
  wp (bound_endpoint id) Q E n.
Proof.
  intros Hs Hc HQ HE. unfold bound_endpoint. apply nwp_bind, (wp_get_tcp _ s); [done|]. cbv zeta. apply nwp_bind.
  assert (only_curr n n) as Hnn by by destruct n.
  case_decide as Hp.
  - apply wp_ret, nwp_bind. unfold rassert. rewrite bool_decide_true by done. apply wp_ret. by apply HQ.
  - eapply nwp_mono; [by apply wp_port_loop| |by eauto].
    intros p n' (Hr & _ & Hc'). assert (p ≠ 0) by (unfold PORT_START in Hr; lia).
    apply nwp_bind. unfold rassert. rewrite bool_decide_true by done. apply wp_ret. by apply HQ.
Qed.

(** A handle the socket [id] may take: its own, or one that nobody holds. *)
Definition usable (id h : Z) (n : net) : Prop :=
  has_kind (n_set n) h false ∧ ∀ s, n_tcp n !! id = Some s → tcp_handle s = Some h ∨ ∀ o, ¬ owns n o h.

Lemma busy_alter id x (P P' : TcpSocket → Prop) f n :
  busy id x P n → (∀ s, tcp_st (f s) = tcp_st s) → (∀ s, P s → P' (f s)) →
  (∀ s h, n_tcp n !! id = Some s → tcp_handle (f s) = Some h →
     tcp_handle s = Some h ∨ (has_kind (n_set n) h false ∧ ∀ o, ¬ owns n o h)) →
  busy id x P' (set_tcps (alter f id (n_tcp n)) n).
Proof.
  intros (Hn & s & Hs & Hst & HP) Hf HP' Hh. assert (tcp_st (f s) = STATE_BUSY) as Hst' by by rewrite Hf.
  split.
  - eapply (ninv_alter (Some id) (Some id) x x); [done|done|by eauto| |done| | |].
    + split; [done|]. rewrite Hst'. by intros [?|?].
    + by rewrite Hst'.
    + intros id' q _ Hl. by apply (ni_listens _ _ _ Hn) in Hl as [_ ?].
    + intros q _ [->|(s' & ? & Hst2 & _)]; [by left|]. simplify_eq. by rewrite Hst in Hst2.
  - exists (f s). cbn. rewrite lookup_alter_eq, Hs. auto.
Qed.
Lemma busy_set id x P n s : busy id x P n → (∀ h udp, has_kind (n_set n) h udp → has_kind s h udp) → busy id x P (set_set s n).
Proof. intros (Hn & Hs) Hk. split; [by apply ninv_set|done]. Qed.

Lemma wp_handle_or_new id x P n (Q : Z → net → Prop) E :
  busy id x P n → (∀ h n', busy id x P n' → usable id h n' → Q h n') → wp (handle_or_new id) Q E n.
Proof.
  intros Hb HQ. pose proof Hb as (Hn & s & Hs & Hst & HP). unfold handle_or_new.
  apply nwp_bind, (wp_get_tcp _ s); [done|]. destruct (tcp_handle s) as [h|] eqn:Hh.
  - apply wp_ret, HQ; [done|]. split; [by apply (oi_live _ (ni_own _ _ _ Hn) (OTcp id) h); exists s|].
    intros s' ?. simplify_eq. by left.
  - eapply nwp_mono; [by eapply (wp_add_tcp (Some id) x n (λ _ _, False))| |done].
    intros h n' [Hn' (En & Hk & Hno)]. assert (n_tcp n' = n_tcp n) as Et by by rewrite En.
    apply HQ; [split; [done|exists s; by rewrite Et]|]. split; [done|]. auto.
Qed.
Lemma usable_curr id h n n' : usable id h n → only_curr n n' → usable id h n'.
Proof. intros [Hk Hu] [-> _]. by split. Qed.

(** ** The closures *)

Lemma wp_connect_socket id n remote :
  busy id None (λ _, True) n →
  wp (connect_socket id remote) (λ _ n', busy id None (λ s, is_Some (tcp_handle s)) n')
    (λ _ n', busy id None (λ _, True) n') n.
Proof.
  intros Hb. unfold connect_socket. apply nwp_bind. eapply wp_handle_or_new; [done|]. clear Hb.
  intros h n1 Hb1 Hu1. apply nwp_bind. pose proof Hb1 as (Hn1 & s1 & Hs1 & _).
  eapply wp_bound_endpoint; [done|apply Hn1| |by intros; eapply only_curr_busy].
  intros e n2 Hc _. pose proof (only_curr_busy _ _ _ _ _ Hb1 Hc) as Hb2. pose proof (usable_curr _ _ _ _ Hu1 Hc) as [Hk2 Hu2].
  apply nwp_bind, wp_gets. apply nwp_bind. eapply wp_with_tcp_mut; [apply Hb2|done|].
  intros t r t' Ht Ec n3 Hn3.
  assert (busy id None (λ _, True) n3) as Hb3 by (split; [done|apply Hb2]).
  destruct r as [[]|[]]; [|by apply wp_fail..].
  apply connect_endpoints in Ec as [[l El] [r Er]].
  apply nwp_bind. eapply (wp_addr_tuple h t'); [unfold get_tcp_sock; subst n3; cbn; by rewrite lookup_insert_eq|done..|].
  apply wp_puts.
  eapply busy_alter; [done|done|done|]. cbn. intros s h' Hs [= <-].
  destruct (Hu2 s Hs) as [?|Hno]; [by left|right]. split; [apply has_kind_tcp|done].
Qed.

Lemma wp_bind_check id x P n addr port :
  busy id x P n → wp (bind_check addr port) (λ _ n', busy id x P n') (λ _ n', busy id x P n') n.
Proof. intros Hb. unfold bind_check. apply nwp_bind, wp_gets. by case_match. Qed.

Lemma wp_bind_socket id n local :
  busy id None (λ _, True) n →
  wp (bind_socket id local) (λ _ n', busy id None (λ _, True) n') (λ _ n', busy id None (λ _, True) n') n.
Proof.
  intros Hb. unfold bind_socket. apply nwp_bind. set (P := λ _ : TcpSocket, True).
  apply (nwp_mono _ (λ _ n', busy id None P n') _ (λ _ n', busy id None P n')); [| |done].
  { case_decide; [|by apply wp_ret]. apply nwp_bind. eapply nwp_mono; [apply wp_port_loop, Hb|cbn|cbn].
    - intros p n' (_ & _ & Hc). exact (only_curr_busy _ _ _ _ _ Hb Hc).
    - intros e n' Hc. exact (only_curr_busy _ _ _ _ _ Hb Hc). }
  clear Hb n. intros e n Hb. pose proof Hb as (Hn & s & Hs & _).
  apply nwp_bind, (wp_get_tcp _ s); [done|]. case_decide; [by apply wp_fail|].
  apply nwp_bind, wp_puts. apply (busy_alter _ _ _ P (tcp_set_local e)) in Hb; [|done|done|by left].
  apply nwp_bind. pose proof Hb as (Hn1 & s1 & Hs1 & _).
  eapply wp_bound_endpoint; [done|apply Hn1| |by intros; eapply only_curr_busy].
  intros b n2 Hc _. pose proof (only_curr_busy _ _ _ _ _ Hb Hc) as Hb2. apply nwp_bind. eapply wp_handle_or_new; [done|].
  intros h n3 Hb3 [Hk3 _]. apply nwp_bind. eapply wp_with_tcp_mut; [apply Hb3|done|].
  intros t r t' _ _ n4 Hn4. assert (busy id None P n4) as Hb4 by (split; [done|apply Hb3]).
  case_match; [by apply wp_ret|by apply wp_bind_check].
Qed.

(** ** The listening table *)

(** An entry without connections, for a port that had none. *)
Lemma busy_new_entry id P n p e :
  busy id None P n → n_table n !! p = None →
  busy id (Some p) P (set_ltable (<[p := mk_entry e []]> (n_table n)) n).
Proof.
  intros (Hn & Hs) Hp. split; [|done]. split.
  - apply (own_weaken n); [apply Hn| |done|].
    + intros [id'|q|id'] h; cbn; [done| |done]. intros (e' & He' & Hh).
      destruct (decide (q = p)) as [->|Hq]; [rewrite lookup_insert_eq in He'; simplify_eq; by apply elem_of_nil in Hh|].
      rewrite lookup_insert_ne in He' by done. eauto.
    + intros q e' He'. cbn in He'. destruct (decide (q = p)) as [->|Hq].
      * rewrite lookup_insert_eq in He'. simplify_eq. cbn. split; [constructor|lia].
      * rewrite lookup_insert_ne in He' by done. by apply (oi_queues _ (ni_own _ _ _ Hn) q).
  - apply Hn.
  - apply Hn.
  - intros id' q Hl. destruct (ni_listens _ _ _ Hn id' q Hl) as [Hq _].
    assert (q ≠ p) by (intros ->; rewrite Hp in Hq; by destruct Hq). cbn. rewrite lookup_insert_ne by done. split; congruence.
  - apply Hn.
  - intros q Hq. cbn in Hq. destruct (decide (q = p)) as [->|Hne]; [by left|]. rewrite lookup_insert_ne in Hq by done.
    destruct (ni_table _ _ _ Hn q Hq) as [?|?]; [done|by right].
Qed.
Lemma wp_listen_socket id n :
  busy id None (λ _, True) n →
  wp (listen_socket id)
    (λ _ n', ∃ p, busy id (Some p) (λ s, ep_port (tcp_local_addr s) = p) n' ∧ is_Some (n_table n' !! p))
    (λ _ n', busy id None (λ _, True) n') n.
Proof.
  intros Hb. unfold listen_socket. apply nwp_bind. pose proof Hb as (Hn & s & Hs & _).
  eapply wp_bound_endpoint; [done|apply Hn| |by intros; eapply only_curr_busy].
  intros e n' Hc He. pose proof (only_curr_busy _ _ _ _ _ Hb Hc) as Hb'.
  apply nwp_bind, wp_puts. set (f := λ s, tcp_set_local _ s).
  apply (busy_alter _ _ _ (λ s, ep_port (tcp_local_addr s) = le_port e) f) in Hb'; [|done|done|by left].
  unfold table_listen, rassert. rewrite bool_decide_true by done. apply nwp_bind, wp_ret, nwp_bind, wp_gets.
  case_bool_decide as Hfree.
  - apply wp_puts. exists (le_port e). split; [by apply busy_new_entry|]. cbn. rewrite lookup_insert_eq. eauto.
  - apply wp_fail. destruct Hb' as (? & s' & ? & ? & _). split; [done|]. by exists s'.
Qed.

(** Dropping handles that nobody holds. *)
Lemma ninv_remove b x n h : ninv b x n → (∀ o, ¬ owns n o h) → ninv b x (set_set (delete h (n_set n)) n).
Proof.
  intros Hn Hno. apply (ninv_sets b x n); [done| |done..].
  apply (own_step n _ None); [apply Hn|by left|done| |apply Hn].
  intros o h' Ho _ Hk. unfold has_kind in *. cbn. rewrite lookup_delete_ne; [done|]. intros <-. by destruct (Hno o).
Qed.
Lemma wp_remove_all b x hs n (Q : unit → net → Prop) E :
  ninv b x n → NoDup hs → (∀ h, h ∈ hs → has_kind (n_set n) h false ∧ ∀ o, ¬ owns n o h) →
  (∀ n', ninv b x n' → n' = set_set (n_set n') n → Q () n') → wp (remove_all hs) Q E n.
Proof.
  revert n. induction hs as [|h hs IH]; intros n Hn Hnd Hhs HQ; cbn [remove_all]; [apply HQ; [done|by destruct n]|].
  apply NoDup_cons in Hnd as [Hh Hnd]. destruct (Hhs h) as [Hk Hno]; [by left|].
  apply nwp_bind. unfold set_remove. apply nwp_bind, wp_gets. unfold has_kind in Hk.
  destruct (n_set n !! h) as [y|]; [|done]. apply wp_puts. apply IH; [by apply ninv_remove|done| |].
  - intros h' Hh'. destruct (Hhs h') as [Hk' Hno']; [by right|]. split; [|done].
    unfold has_kind in *. cbn. rewrite lookup_delete_ne; [done|]. by intros <-.
  - intros n' Hn' E'. apply HQ; [done|]. by rewrite E'.
Qed.

(** Dropping the entry of a port that is about to be free. *)
Lemma ninv_delete_entry b n p :
  ninv b (Some p) n → ninv b None (set_ltable (delete p (n_table n)) n).
Proof.
  intros Hn. split.
  - apply (own_weaken n); [apply Hn| |done|].
    + intros [id'|q|id'] h; cbn; [done| |done]. intros (e' & [_ He']%lookup_delete_Some & Hh). eauto.
    + intros q e' He'. cbn in He'. apply lookup_delete_Some in He' as [_ He']. by apply (oi_queues _ (ni_own _ _ _ Hn) q).
  - apply Hn.
  - apply Hn.
  - intros id' q Hl. destruct (ni_listens _ _ _ Hn id' q Hl) as [Hq Hne]. split; [|done]. cbn.
    rewrite lookup_delete_ne by congruence. done.
  - apply Hn.
  - intros q [e He]. cbn in He. apply lookup_delete_Some in He as [Hne He].
    destruct (ni_table _ _ _ Hn q) as [[= ->]|?]; [by eauto|done|by right].
Qed.
Lemma wp_unlisten b p n (Q : unit → net → Prop) E :
  ninv b (Some p) n → (∀ n', ninv b None n' → same_socks n n' → Q () n') → wp (unlisten p) Q E n.
Proof.
  intros Hn HQ. unfold unlisten. apply nwp_bind, wp_gets, nwp_bind, wp_puts.
  pose proof (ninv_delete_entry _ _ _ Hn) as Hn'. destruct (n_table n !! p) as [e|] eqn:Ee; [|by apply wp_ret, HQ].
  destruct (oi_queues _ (ni_own _ _ _ Hn) _ _ Ee) as [Hnd _].
  eapply wp_remove_all; [done|done| |].
  - intros h Hh. assert (owns n (OQueue p) h) as Ho by by exists e.
    split; [apply (oi_live _ (ni_own _ _ _ Hn) _ _ Ho)|]. intros o Ho'.
    assert (o = OQueue p) as -> .
    { apply (oi_inj _ (ni_own _ _ _ Hn) o (OQueue p) h); [|done]. destruct o as [id|q|id]; cbn in *; [done| |done].
      destruct Ho' as (e' & [_ ?]%lookup_delete_Some & ?). eauto. }
    cbn in Ho'. by destruct Ho' as (e' & [? _]%lookup_delete_Some & ?).
  - intros n' H' E'. apply HQ; [done|]. by rewrite E'.
Qed.

(** ** Shutting down and dropping *)

Lemma wp_shutdown_stream id n s0 :
  busy id None (λ s, s = s0) n → is_Some (tcp_handle s0) →
  wp (shutdown_stream id) (λ _ n', busy id None (λ s, tcp_handle s = tcp_handle s0) n') (λ _ _, False) n.
Proof.
  intros Hb [h Hh]. pose proof Hb as (Hn & s & Hs & Hst & ->). unfold shutdown_stream, the_handle.
  apply nwp_bind, nwp_bind, (wp_get_tcp _ s0); [done|]. rewrite Hh. apply wp_ret, nwp_bind.
  eapply wp_with_tcp_mut; [done|by apply (oi_live _ (ni_own _ _ _ Hn) (OTcp id)); exists s0|].
  intros t a t' _ _ n1 Hn1. apply nwp_bind, wp_puts.
  assert (busy id None (λ s, tcp_handle s = tcp_handle s0) n1) as Hb1 by (split; [done|by exists s0]).
  apply (busy_alter _ _ _ (λ s, tcp_handle s = tcp_handle s0) (tcp_set_local UNSPECIFIED_ENDPOINT)) in Hb1;
    [|done|done|by left].
  eapply wp_poll; [apply Hb1|]. intros n' Hn' [Et _]. split; [done|]. rewrite Et, <- Hh. apply Hb1.
Qed.
Lemma wp_shutdown_listener id n s0 :
  busy id (Some (ep_port (tcp_local_addr s0))) (λ s, s = s0) n →
  wp (shutdown_listener id) (λ _ n', busy id None (λ s, tcp_handle s = tcp_handle s0) n') (λ _ _, False) n.
Proof.
  intros Hb. pose proof Hb as (Hn & s & Hs & Hst & ->). unfold shutdown_listener.
  apply nwp_bind, (wp_get_tcp _ s0); [done|]. apply nwp_bind, wp_puts.
  apply (busy_alter _ _ _ (λ s, tcp_handle s = tcp_handle s0) (tcp_set_local UNSPECIFIED_ENDPOINT)) in Hb;
    [|done|by intros ? ->|by left].
  apply nwp_bind. eapply wp_unlisten; [apply Hb|]. intros n1 Hn1 [Et1 _].
  eapply wp_poll; [done|]. intros n' Hn' [Et _]. split; [done|]. rewrite Et, Et1. apply Hb.
Qed.

(** The socket after a shutdown. *)
Definition shut (id : Z) (s0 : TcpSocket) (n : net) : Prop :=
  ninv None None n ∧
  ∃ s, n_tcp n !! id = Some s ∧ tcp_st s ≠ STATE_LISTENING ∧ tcp_handle s = tcp_handle s0.
Lemma left_busy id n s0 st :
  busy id None (λ s, tcp_handle s = tcp_handle s0) n → st = STATE_CLOSED →
  shut id s0 (set_tcps (alter (tcp_set_state st) id (n_tcp n)) n).
Proof.
  intros Hb ->. split; [eapply leave_busy; [done|by left|done]|]. destruct Hb as (_ & s & Hs & _ & Hh).
  exists (tcp_set_state STATE_CLOSED s). cbn. by rewrite lookup_alter_eq, Hs.
Qed.

Lemma wp_tcp_shutdown id n s0 (Q : unit → net → Prop) E :
  ninv None None n → n_tcp n !! id = Some s0 → (∀ n', shut id s0 n' → Q () n') → wp (tcp_shutdown id) Q E n.
Proof.
  intros Hn Hs HQ. unfold tcp_shutdown. apply nwp_bind.
  set (mid := λ n', ninv None None n' ∧ ∃ s, n_tcp n' !! id = Some s ∧ tcp_handle s = tcp_handle s0).
  apply (nwp_mono _ (λ _ n', mid n') _ (λ _ _, False)); [| |done].
  { apply wp_or_else. eapply wp_update_state; [done| |].
    - intros _. apply wp_ret. split; [done|eauto].
    - intros Hst. pose proof (enter_busy id n s0 None Hn Hs) as Hb. rewrite Hst in Hb. specialize (Hb eq_refl).
      destruct (proj2 (ni_state _ _ _ Hn _ _ Hs)) as [h Hh]; [by right|].
      eapply nwp_mono; [eapply wp_shutdown_stream; [done|by cbn; rewrite Hh]| |done].
      intros ? n' Hb'. destruct (left_busy id n' s0 STATE_CLOSED Hb' eq_refl) as (? & s & ? & _ & ?).
      split; [done|eauto]. }
  intros _ n1 (Hn1 & s1 & Hs1 & Hh1). apply wp_or_else. eapply wp_update_state; [done| |].
  - intros Hne. apply wp_ret, HQ. split; [done|eauto].
  - intros Hst. pose proof (enter_busy id n1 s1 (Some (ep_port (tcp_local_addr s1))) Hn1 Hs1) as Hb.
    rewrite Hst in Hb. specialize (Hb eq_refl).
    eapply nwp_mono; [by apply (wp_shutdown_listener id _ (tcp_set_state STATE_BUSY s1))| |done].
    intros [] n' Hb'. apply HQ. destruct (left_busy id n' s1 STATE_CLOSED Hb' eq_refl) as (? & s & ? & ? & ?).
    split; [done|]. exists s. split_and!; congruence.
Qed.

Lemma ninv_delete n id s :
  ninv None None n → n_tcp n !! id = Some s → tcp_st s ≠ STATE_LISTENING →
  ninv None None (set_tcps (delete id (n_tcp n)) n) ∧
  ∀ h, tcp_handle s = Some h → ∀ o, ¬ owns (set_tcps (delete id (n_tcp n)) n) o h.
Proof.
  intros Hn Hs Hst.
  assert (∀ id' p, listens (set_tcps (delete id (n_tcp n)) n) id' p ↔ listens n id' p) as Hl.
  { intros id' p. unfold listens. cbn. destruct (decide (id' = id)) as [->|Hne].
    - rewrite lookup_delete_eq. naive_solver.
    - by rewrite lookup_delete_ne. }
  assert (∀ o h, owns (set_tcps (delete id (n_tcp n)) n) o h → owns n o h ∧ o ≠ OTcp id) as Ho.
  { intros [id'|p|id'] h; cbn; [|done..]. intros (s' & [Hne ?]%lookup_delete_Some & ?). split; [eauto|congruence]. }
  split.
  - split.
    + apply (own_weaken n); [apply Hn|intros o h Hoh; by apply Ho|done|apply Hn].
    + apply Hn.
    + intros id' s' Hs'. cbn in Hs'. apply lookup_delete_Some in Hs' as [_ Hs']. by apply (ni_state _ _ _ Hn).
    + intros id' p ?%Hl. by apply (ni_listens _ _ _ Hn id').
    + intros id1 id2 p ?%Hl ?%Hl. by eapply (ni_unique _ _ _ Hn).
    + intros p Hp. destruct (ni_table _ _ _ Hn p Hp) as [?|[id' ?]]; [by left|]. right. exists id'. by apply Hl.
  - intros h Hh o [Hoh Hne]%Ho. apply Hne. apply (oi_inj _ (ni_own _ _ _ Hn) o (OTcp id) h); [done|by exists s].
Qed.
Lemma wp_tcp_drop id n s0 (Q : unit → net → Prop) E :
  ninv None None n → n_tcp n !! id = Some s0 → (∀ n', ninv None None n' → Q () n') → wp (tcp_drop id) Q E n.
Proof.
  intros Hn Hs HQ. unfold tcp_drop. apply nwp_bind, wp_attempt. eapply wp_tcp_shutdown; [done..|].
  intros n1 (Hn1 & s & Hs1 & Hst & _). apply nwp_bind, (wp_get_tcp _ s); [done|]. apply nwp_bind.
  destruct (ninv_delete n1 id s Hn1 Hs1 Hst) as [Hd Hno].
  destruct (tcp_handle s) as [h|] eqn:Hh; [|apply wp_ret, wp_puts; by apply HQ].
  assert (has_kind (n_set n1) h false) as Hk by (apply (oi_live _ (ni_own _ _ _ Hn1) (OTcp id)); by exists s).
  unfold set_remove. apply nwp_bind, wp_gets. unfold has_kind in Hk. destruct (n_set n1 !! h); [|done].
  apply wp_puts, wp_puts, HQ. apply (ninv_remove _ _ _ h Hd). by apply Hno.
Qed.

(** ** Waiting *)

(** What the other tasks may do while an operation of [o] waits: they keep the
    invariant and the handle of [o]. *)
Definition round_ok (o : owner) (r : nround T U I) : Prop :=
  ∀ n, ninv None None n → ninv None None (nr_env r n) ∧ ∀ h, owns n o h → owns (nr_env r n) o h.
(** While a socket connects, nobody makes it listen. *)
Definition stays_unlistened (id : Z) (r : nround T U I) : Prop :=
  ∀ n, (∀ p, ¬ listens n id p) → ∀ p, ¬ listens (nr_env r n) id p.

Definition inv_error (e : AxError) (n : net) : Prop := ninv None None n.
Definition inv_after {A} (a : A) (n : net) : Prop := ninv None None n.

Lemma wp_block {A} (P : net → Prop) nb now rounds (f : Z → netm A) n :
  P n → (∀ n, P n → ninv None None n) → Forall (λ r, ∀ n, P n → P (nr_env r n)) rounds →
  (∀ n n', P n → ninv None None n' → same_socks n n' → P n') →
  (∀ now n, P n → wp (f now) inv_after (λ _ n', P n') n) →
  wp (block_on nb now rounds f) inv_after inv_error n.
Proof.
  intros HP HPn Henv Hpoll Hf. unfold block_on. destruct nb.
  { apply nwp_bind. eapply nwp_mono; [by apply Hf| |]; [intros a n' Hn'; by apply wp_ret|intros e n' Hn'; by apply HPn]. }
  revert n HP. induction Henv as [|r rounds Hr _ IH]; intros n HP; cbn [block_loop]; [apply wp_ret; by apply HPn|].
  apply nwp_bind, wp_puts. specialize (Hr n HP). destruct (nr_signal r); [apply wp_fail; by apply HPn|].
  apply nwp_bind. eapply wp_poll; [by apply HPn|]. intros n1 Hn1 Hsame.
  apply nwp_bind, wp_attempt. eapply nwp_mono; [apply Hf, (Hpoll _ n1 Hr Hn1 Hsame)| |].
  - intros a n' Hn'. by apply wp_ret.
  - intros e n' Hn'. destruct e; try (apply wp_fail; by apply HPn). by apply IH.
Qed.

(** The predicate kept while an operation that uses the handle [h] of [o] waits. *)
Definition holds (o : owner) (h : Z) (n : net) : Prop := ninv None None n ∧ owns n o h.
Lemma holds_env o h rounds : Forall (round_ok o) rounds → Forall (λ r, ∀ n, holds o h n → holds o h (nr_env r n)) rounds.
Proof. intros Hf. eapply Forall_impl; [exact Hf|]. intros r Hr n [Hn Ho]. destruct (Hr n Hn). split; auto. Qed.
Lemma holds_socks o h n n' : owner_udp o = true ∨ (∃ id, o = OTcp id) → holds o h n → ninv None None n' → same_socks n n' → holds o h n'.
Proof.
  intros Hk [Hn Ho] Hn' [Et Eu]. split; [done|]. destruct o as [id|p|id]; cbn in *; [by rewrite Et| |by rewrite Eu].
  by destruct Hk as [?|[? ?]].
Qed.

(** ** Using a connected socket *)

Lemma wp_lift {A} (o : outcome A) (Q : A → net → Prop) E n :
  o ≠ Panic → (∀ a, o = Ok a → Q a n) → (∀ e, o = Err e → E e n) → wp (lift o) Q E n.
Proof. intros Ho HQ HE. unfold wp, lift. destruct o; [by apply HQ|by apply HE|done]. Qed.

Lemma wp_use_tcp {A} id h (op : T → outcome A * T) n :
  holds (OTcp id) h n → (∀ t, (op t).1 ≠ Panic) →
  wp (r ← with_tcp_mut h op; lift r) inv_after (λ _ n', holds (OTcp id) h n') n.
Proof.
  intros [Hn Ho] Hop. apply nwp_bind. eapply wp_with_tcp_mut; [done|by apply (oi_live _ (ni_own _ _ _ Hn) (OTcp id))|].
  intros t a t' _ Ea n' Hn'. apply wp_lift; [by specialize (Hop t); rewrite Ea in Hop|done|done].
Qed.
Lemma wp_stream_op {A} rounds id now (op : Z → T → outcome A * T) n s :
  ninv None None n → n_tcp n !! id = Some s → Forall (round_ok (OTcp id)) rounds → (∀ now t, (op now t).1 ≠ Panic) →
  wp (stream_op rounds id now op) inv_after inv_error n.
Proof.
  intros Hn Hs Hr Hop. unfold stream_op. apply nwp_bind, (wp_get_tcp _ s); [done|]. case_decide; [by apply wp_fail|].
  case_bool_decide as Hst; cbn [negb]; [|by apply wp_fail].
  destruct (proj2 (ni_state _ _ _ Hn _ _ Hs)) as [h Hh]; [by right|].
  apply nwp_bind. unfold the_handle. apply nwp_bind, (wp_get_tcp _ s); [done|]. rewrite Hh. apply wp_ret.
  apply (wp_block (holds (OTcp id) h)); [split; [done|by exists s]|by intros ? []|by apply holds_env|
    intros ? ?; apply holds_socks; eauto|]. intros now' n' Hn'. by apply wp_use_tcp.
Qed.
Lemma recv_once_no_panic e len now t : (recv_once e len now t).1 ≠ Panic.
Proof. unfold recv_once. repeat case_match; done. Qed.
Lemma send_once_no_panic bs t : (send_once bs t).1 ≠ Panic.
Proof. unfold send_once. repeat case_match; done. Qed.

(** ** Connecting *)

Definition connecting (id h : Z) (n : net) : Prop := holds (OTcp id) h n ∧ ∀ p, ¬ listens n id p.

Lemma wp_poll_connect id h n :
  connecting id h n → wp (poll_connect id) (λ _ n', connecting id h n') (λ _ _, False) n.
Proof.
  intros Hc. pose proof Hc as [[Hn (s & Hs & Hh)] Hl]. unfold poll_connect, the_handle.
  apply nwp_bind, nwp_bind, (wp_get_tcp _ s); [done|]. rewrite Hh. apply wp_ret, nwp_bind.
  apply wp_with_tcp; [apply (oi_live _ (ni_own _ _ _ Hn) (OTcp id)); by exists s|]. intros t _.
  assert (tcp_st s ≠ STATE_LISTENING) as Hst by (intros ?; apply (Hl (ep_port (tcp_local_addr s))); by exists s).
  assert (∀ f, tcp_handle (f s) = tcp_handle s → tcp_st (f s) = STATE_CONNECTED ∨ tcp_st (f s) = STATE_CLOSED →
    connecting id h (set_tcps (alter f id (n_tcp n)) n)) as Hf.
  { intros f Ef Hfs. assert (tcp_st (f s) ≠ STATE_LISTENING) as Hfl by (destruct Hfs as [->| ->]; done).
    split; [split|].
    - eapply (ninv_alter None None None None); [done|done|rewrite Ef; by left| |done|done|done|].
      + split; [by destruct Hfs as [->| ->]|]. intros _. rewrite Ef. eauto.
      + intros q _ [?|[s' (? & ? & _)]]; simplify_eq; done.
    - exists (f s). cbn. rewrite lookup_alter_eq, Hs, Ef. done.
    - intros p. rewrite listens_alter by done. intros [[? _]|(_ & ? & _)]; done. }
  destruct (t_state t); (apply nwp_bind, wp_puts; apply wp_ret; apply Hf; by auto) || exact Hc.
Qed.
Lemma wp_connected_yet id h n :
  connecting id h n → wp (connected_yet id) inv_after (λ _ n', connecting id h n') n.
Proof.
  intros Hc. unfold connected_yet. apply nwp_bind. eapply nwp_mono; [by apply (wp_poll_connect id h)| |done].
  intros p n' Hn'. case_match; [by apply wp_fail|]. pose proof Hn' as [[? (s & Hs & _)] _].
  apply nwp_bind, (wp_get_tcp _ s); [done|]. case_decide; [by apply wp_ret|by apply wp_fail].
Qed.
Lemma wp_tcp_connect rounds id remote n s :
  ninv None None n → n_tcp n !! id = Some s → Forall (round_ok (OTcp id)) rounds → Forall (stays_unlistened id) rounds →
  wp (tcp_connect rounds id remote) inv_after inv_error n.
Proof.
  intros Hn Hs Hr Hu. unfold tcp_connect. apply nwp_bind.
  apply (nwp_mono _ (λ _ n', ∃ h, connecting id h n') _ inv_error); [| |done].
  { apply wp_or_else. eapply wp_update_state; [done|intros _; by apply wp_fail|]. intros Hst.
    pose proof (enter_busy id n s None Hn Hs) as Hb. rewrite Hst in Hb. specialize (Hb eq_refl).
    eapply nwp_mono; [apply wp_connect_socket; destruct Hb as (? & s' & ? & ? & _); split; [done|by exists s']| |].
    - intros a n' Hb'. pose proof Hb' as (Hn' & s' & Hs' & _ & [h Hh]). exists h.
      assert (ninv None None (set_tcps (alter (tcp_set_state STATE_CONNECTING) id (n_tcp n')) n')) as Hi
        by (eapply leave_busy; [exact Hb'|right; split; [by left|done]|done]).
      split; [split; [done|]|].
      + exists (tcp_set_state STATE_CONNECTING s'). cbn. by rewrite lookup_alter_eq, Hs'.
      + intros p. rewrite listens_alter by done. intros [[? _]|(_ & ? & _)]; done.
    - intros e n' Hb'. by eapply leave_busy; [exact Hb'|left|]. }
  intros _ n1 [h Hc]. pose proof Hc as [[Hn1 (s1 & Hs1 & Hh1)] _]. apply nwp_bind, (wp_get_tcp _ s1); [done|].
  destruct (tcp_nonblock s1); [by apply wp_fail|].
  apply (wp_block (connecting id h)); [done|by intros ? [[]]| | |].
  - apply Forall_forall. intros r Hrin n2 [Hh Hl]. rewrite Forall_forall in Hr, Hu. split; [|by apply Hu].
    destruct Hh as [Hn2 Ho]. destruct (Hr r Hrin n2 Hn2). split; auto.
  - intros n2 n3 [Hh Hl] Hn3 Hsame. split; [eapply holds_socks; eauto|]. intros p. unfold listens. rewrite (proj1 Hsame). apply Hl.
  - intros _ n2. apply wp_connected_yet.
Qed.

Lemma wp_tcp_bind id addr n s :
  ninv None None n → n_tcp n !! id = Some s → wp (tcp_bind id addr) inv_after inv_error n.
Proof.
  intros Hn Hs. apply wp_or_else. eapply wp_update_state; [done|intros _; by apply wp_fail|]. intros Hst.
  pose proof (enter_busy id n s None Hn Hs) as Hb. rewrite Hst in Hb. specialize (Hb eq_refl).
  eapply nwp_mono; [apply wp_bind_socket; destruct Hb as (? & s' & ? & ? & _); split; [done|by exists s']| |];
    intros ? n' Hb'; by eapply leave_busy; [exact Hb'|left|].
Qed.
Lemma wp_tcp_listen id n s :
  ninv None None n → n_tcp n !! id = Some s → wp (tcp_listen id) inv_after inv_error n.
Proof.
  intros Hn Hs. apply wp_or_else. eapply wp_update_state; [done|intros _; by apply wp_ret|]. intros Hst.
  pose proof (enter_busy id n s None Hn Hs) as Hb. rewrite Hst in Hb. specialize (Hb eq_refl).
  eapply nwp_mono; [apply wp_listen_socket; destruct Hb as (? & s' & ? & ? & _); split; [done|by exists s']| |].
  - intros a n' (p & Hb' & Hp). by eapply leave_busy_listening; [exact Hb'|cbn; intros s' ->|].
  - intros ? n' Hb'. by eapply leave_busy; [exact Hb'|left|].
Qed.

(** ** Accepting *)

Lemma find_connected_spec (s : sset) q i :
  (∀ h, h ∈ q → has_kind s h false) →
  ∃ r, find_connected s q i = Ok r ∧
    match r with
    | None => ∀ h, h ∈ q → ∃ t, get_tcp_sock s h = Ok t ∧ past_handshake (t_state t) = false
    | Some j => ∃ k h t, j = (i + k)%nat ∧ q !! k = Some h ∧ get_tcp_sock s h = Ok t ∧ past_handshake (t_state t) = true ∧
        ∀ h', h' ∈ take k q → ∃ t', get_tcp_sock s h' = Ok t' ∧ past_handshake (t_state t') = false
    end.
Proof.
  revert i. induction q as [|h q IH]; intros i Hq; cbn [find_connected].
  { exists None. split; [done|]. by intros h ?%elem_of_nil. }
  destruct (get_tcp_sock_kind s h) as [t Ht]; [apply Hq; by left|]. rewrite Ht. cbn.
  destruct (past_handshake (t_state t)) eqn:Hp.
  - exists (Some i). split; [done|]. exists 0%nat, h, t. split_and!; [lia|done..|]. by intros h' ?%elem_of_nil.
  - destruct (IH (S i)) as (r & -> & Hr); [intros; apply Hq; by right|]. exists r. split; [done|]. destruct r as [j|].
    + destruct Hr as (k & h' & t' & -> & Hk & Ht' & Hp' & Hb). exists (S k), h', t'. split_and!; [lia|done..|].
      intros h'' [->|Hin]%elem_of_cons; [by exists t|by apply Hb].
    + intros h' [->|Hin]%elem_of_cons; [by exists t|by apply Hr].
Qed.
Lemma swap_remove_front_perm i q h : q !! i = Some h → q ≡ₚ h :: swap_remove_front i q.
Proof.
  destruct q as [|x q]; [done|]. destruct i as [|i]; [by intros [= ->]|]. intros Hi. change (q !! i = Some h) in Hi.
  change (swap_remove_front (S i) (x :: q)) with (<[i:=x]> q).
  rewrite <- (take_drop_middle q i h Hi) at 1. rewrite insert_take_drop by (by eapply lookup_lt_Some).
  rewrite <- !Permutation_middle. apply perm_swap.
Qed.

(** The handle leaves its queue. *)
Lemma ninv_dequeue n p e i h :
  ninv None None n → n_table n !! p = Some e → syn_queue e !! i = Some h →
  let n' := set_ltable (<[p := mk_entry (listen_endpoint e) (swap_remove_front i (syn_queue e))]> (n_table n)) n in
  ninv None None n' ∧ has_kind (n_set n') h false ∧ ∀ o, ¬ owns n' o h.
Proof.
  intros Hn He Hh n'. pose proof (swap_remove_front_perm _ _ _ Hh) as Hperm.
  destruct (oi_queues _ (ni_own _ _ _ Hn) _ _ He) as [Hnd Hlen].
  assert (NoDup (h :: swap_remove_front i (syn_queue e))) as [Hni Hnd']%NoDup_cons by by rewrite <- Hperm.
  apply Permutation_length in Hperm as Hl.
  assert (∀ o h', owns n' o h' → owns n o h' ∧ (o = OQueue p → h' ∈ swap_remove_front i (syn_queue e))) as Ho.
  { intros [id|q|id] h'; cbn; [done| |done]. intros (e' & He' & Hin).
    destruct (decide (q = p)) as [->|Hq].
    - rewrite lookup_insert_eq in He'. simplify_eq. cbn in Hin. split; [|done]. exists e. split; [done|].
      rewrite Hperm. by right.
    - rewrite lookup_insert_ne in He' by done. split; [eauto|congruence]. }
  assert (owns n (OQueue p) h) as Hown by (exists e; split; [done|by eapply list_elem_of_lookup_2]).
  split; [|split].
  - apply (ninv_sets None None n); [done| |done..|].
    + apply (own_weaken n); [apply Hn|by intros o h' [? _]%Ho|done|]. intros q e' He'. cbn in He'.
      destruct (decide (q = p)) as [->|Hq]; [|rewrite lookup_insert_ne in He' by done; by apply (oi_queues _ (ni_own _ _ _ Hn) q)].
      rewrite lookup_insert_eq in He'. simplify_eq. cbn in *. split; [done|lia].
    + intros q. cbn. destruct (decide (q = p)) as [->|Hq]; [rewrite lookup_insert_eq, He; naive_solver|by rewrite lookup_insert_ne].
  - apply (oi_live _ (ni_own _ _ _ Hn) _ _ Hown).
  - intros o [Hoh Hin]%Ho. apply Hni, Hin. apply (oi_inj _ (ni_own _ _ _ Hn) _ _ _ Hoh Hown).
Qed.
Lemma queue_kinds n p e h : ninv None None n → n_table n !! p = Some e → h ∈ syn_queue e → has_kind (n_set n) h false.
Proof. intros Hn He Hh. apply (oi_live _ (ni_own _ _ _ Hn) (OQueue p)). by exists e. Qed.

Lemma wp_table_accept p n :
  ninv None None n →
  wp (table_accept p) (λ r n', ninv None None n' ∧ has_kind (n_set n') r.1 false ∧ ∀ o, ¬ owns n' o r.1) inv_error n.
Proof.
  intros Hn. unfold table_accept. apply nwp_bind, wp_gets. destruct (n_table n !! p) as [e|] eqn:He; [|by apply wp_fail].
  apply nwp_bind, wp_gets, nwp_bind.
  destruct (find_connected_spec (n_set n) (syn_queue e) 0) as (r & -> & Hr); [by intros; eapply queue_kinds|].
  apply wp_ret. destruct r as [i|]; [|by apply wp_fail]. destruct Hr as (k & h & t & -> & Hk & Ht & Hp & _). cbn [Nat.add].
  rewrite Hk. apply nwp_bind, wp_puts. destruct (ninv_dequeue _ _ _ _ _ Hn He Hk) as (Hn' & Hkind & Hno).
  apply nwp_bind, wp_with_tcp; [done|]. intros t' Ht'. cbn in Ht'. rewrite Ht in Ht'. injection Ht' as <-.
  case_bool_decide as Hc; [by apply wp_fail|]. destruct (connected_endpoints t Hp Hc) as [[l Hl] [r Hr]].
  apply nwp_bind. eapply wp_addr_tuple; [done..|]. by apply wp_ret.
Qed.

Lemma ninv_create n id s :
  ninv None None n → n_tcp n !! id = None → tcp_st s = STATE_CLOSED ∨ tcp_st s = STATE_CONNECTED ∧ is_Some (tcp_handle s) →
  (∀ h, tcp_handle s = Some h → has_kind (n_set n) h false ∧ ∀ o, ¬ owns n o h) →
  ninv None None (set_tcps (<[id := s]> (n_tcp n)) n).
Proof.
  intros Hn Hid Hst Hh.
  assert (tcp_st s ≠ STATE_LISTENING ∧ tcp_st s ≠ STATE_BUSY) as [Hl Hb] by (destruct Hst as [->|[-> _]]; done).
  assert (∀ id' p, listens (set_tcps (<[id := s]> (n_tcp n)) n) id' p ↔ listens n id' p) as El.
  { intros id' p. unfold listens. cbn. destruct (decide (id' = id)) as [->|Hne].
    - rewrite lookup_insert_eq, Hid. naive_solver.
    - by rewrite lookup_insert_ne. }
  split.
  - apply (own_step n _ (match tcp_handle s with Some h => Some (OTcp id, h) | None => None end)); [apply Hn| | |done|apply Hn].
    + intros [id'|p|id'] h; cbn; [|eauto..]. intros (s' & Hs' & Hh').
      destruct (decide (id' = id)) as [->|Hne]; [rewrite lookup_insert_eq in Hs'; simplify_eq; rewrite Hh'; by right|].
      rewrite lookup_insert_ne in Hs' by done. eauto.
    + intros o h. destruct (tcp_handle s) as [h'|]; [|done]. intros [= <- <-]. destruct (Hh h' eq_refl) as [Hk Hno].
      split; [done|]. intros o Ho. by destruct (Hno o).
  - apply Hn.
  - intros id' s' Hs'. cbn in Hs'. destruct (decide (id' = id)) as [->|Hne].
    + rewrite lookup_insert_eq in Hs'. simplify_eq. split; [done|]. intros Hc. destruct Hst as [E|[_ ?]]; [|done].
      rewrite E in Hc. by destruct Hc.
    + rewrite lookup_insert_ne in Hs' by done. by apply (ni_state _ _ _ Hn).
  - intros id' p ?%El. by apply (ni_listens _ _ _ Hn id').
  - intros id1 id2 p ?%El ?%El. by eapply (ni_unique _ _ _ Hn).
  - intros p Hp. destruct (ni_table _ _ _ Hn p Hp) as [?|[id' ?]]; [by left|]. right. exists id'. by apply El.
Qed.
Lemma wp_tcp_create s n E :
  ninv None None n → tcp_st s = STATE_CLOSED ∨ tcp_st s = STATE_CONNECTED ∧ is_Some (tcp_handle s) →
  (∀ h, tcp_handle s = Some h → has_kind (n_set n) h false ∧ ∀ o, ¬ owns n o h) → wp (tcp_create s) inv_after E n.
Proof.
  intros Hn Hst Hh. unfold tcp_create. apply nwp_bind, wp_gets, nwp_bind, wp_puts, wp_ret. apply ninv_create; [done| |done|done].
  apply not_elem_of_dom, is_fresh.
Qed.
Lemma wp_tcp_accept rounds id n s :
  ninv None None n → n_tcp n !! id = Some s → Forall (round_ok (OTcp id)) rounds →
  wp (tcp_accept rounds id) inv_after inv_error n.
Proof.
  intros Hn Hs Hr. unfold tcp_accept. apply nwp_bind, (wp_get_tcp _ s); [done|]. case_decide; [|by apply wp_fail].
  apply (wp_block (ninv None None)); [done|done| |done|].
  - eapply Forall_impl; [exact Hr|]. intros r H' n' Hn'. by apply H'.
  - intros _ n' Hn'. unfold accept_once. apply nwp_bind. eapply nwp_mono; [by apply wp_table_accept| |done].
    intros [h [l r]] n1 (Hn1 & Hk & Hno). apply wp_tcp_create; [done|right; by split|]. by intros h' [= <-].
Qed.

Lemma wp_tcp_poll id n s : ninv None None n → n_tcp n !! id = Some s → wp (tcp_poll id) inv_after inv_error n.
Proof.
  intros Hn Hs. unfold tcp_poll. apply nwp_bind, (wp_get_tcp _ s); [done|].
  assert (∀ h, tcp_handle s = Some h → holds (OTcp id) h n) as Hown by (intros h Hh; split; [done|by exists s]).
  case_decide as Hst.
  { destruct (proj2 (ni_state _ _ _ Hn _ _ Hs)) as [h Hh]; [by left|].
    eapply nwp_mono; [apply (wp_poll_connect id h)|by intros ? ? [[]]|done]. split; [auto|].
    intros p (s' & ? & Hl & _). simplify_eq. by rewrite Hst in Hl. }
  case_decide as Hst2.
  { destruct (proj2 (ni_state _ _ _ Hn _ _ Hs)) as [h Hh]; [by right|]. unfold poll_stream, the_handle.
    apply nwp_bind, nwp_bind, (wp_get_tcp _ s); [done|]. rewrite Hh. apply wp_ret, wp_with_tcp; [|done].
    destruct (Hown h Hh) as [_ Ho]. apply (oi_live _ (ni_own _ _ _ Hn) _ _ Ho). }
  case_decide; [|by apply wp_ret]. unfold poll_listener. apply nwp_bind, (wp_get_tcp _ s); [done|]. apply nwp_bind.
  unfold table_can_accept. apply nwp_bind, wp_gets. case_match eqn:He; [|by apply wp_fail].
  apply nwp_bind, wp_gets, nwp_bind. destruct (find_connected_spec (n_set n) (syn_queue l) 0) as (r & -> & _);
    [by intros; eapply queue_kinds|]. exact Hn.
Qed.
(** Using the smoltcp socket of a socket, when there is one. *)
Lemma wp_with_handle {A} id n s h (f : T → A * T) (Q : A → net → Prop) E :
  ninv None None n → n_tcp n !! id = Some s → tcp_handle s = Some h → (∀ a n', ninv None None n' → Q a n') →
  wp (with_tcp_mut h f) Q E n.
Proof.
  intros Hn Hs Hh HQ. eapply wp_with_tcp_mut; [done|apply (oi_live _ (ni_own _ _ _ Hn) (OTcp id)); by exists s|].
  intros t a t' _ _ n' Hn'. by apply HQ.
Qed.
Lemma wp_tcp_close id n s : ninv None None n → n_tcp n !! id = Some s → wp (tcp_close id) inv_after inv_error n.
Proof.
  intros Hn Hs. unfold tcp_close. apply nwp_bind, (wp_get_tcp _ s); [done|].
  destruct (tcp_handle s) as [h|] eqn:Hh; [|by apply wp_ret]. apply nwp_bind. eapply wp_with_handle; [done..|].
  intros a n' Hn'. by eapply wp_poll.
Qed.
Lemma wp_set_nagle id b n s : ninv None None n → n_tcp n !! id = Some s → wp (set_nagle_enabled id b) inv_after inv_error n.
Proof.
  intros Hn Hs. unfold set_nagle_enabled. apply nwp_bind, (wp_get_tcp _ s); [done|].
  destruct (tcp_handle s) as [h|] eqn:Hh; [|by apply wp_fail]. by eapply wp_with_handle.
Qed.

(** ** UDP *)

Lemma wp_get_udp id s (Q : UdpSocket → net → Prop) E n : n_udp n !! id = Some s → Q s n → wp (get_udp id) Q E n.
Proof. intros Hs HQ. unfold wp, get_udp, gets, mbind, netm_bind, mret, netm_ret. by rewrite Hs. Qed.

(** A socket with its old handle, or a new one with a handle of its own. *)
Lemma ninv_put_udp n id s :
  ninv None None n →
  (∃ s0, n_udp n !! id = Some s0 ∧ udp_handle s = udp_handle s0) ∨
  (has_kind (n_set n) (udp_handle s) true ∧ ∀ o, ¬ owns n o (udp_handle s)) →
  ninv None None (set_udps (<[id := s]> (n_udp n)) n).
Proof.
  intros Hn Hs. apply (ninv_sets None None n); [done| |done..].
  apply (own_step n _ (Some (OUdp id, udp_handle s))); [apply Hn| | |done|apply Hn].
  - intros [id'|p|id'] h; cbn; [by left..|]. intros (s' & Hs' & Hh).
    destruct (decide (id' = id)) as [->|Hne]; [rewrite lookup_insert_eq in Hs'; simplify_eq; by right|].
    rewrite lookup_insert_ne in Hs' by done. left. eauto.
  - intros o h [= <- <-]. destruct Hs as [(s0 & Hs0 & ->)|[Hk Hno]].
    + assert (owns n (OUdp id) (udp_handle s0)) as Ho by by exists s0.
      split; [apply (oi_live _ (ni_own _ _ _ Hn) _ _ Ho)|]. intros o' Ho'. by apply (oi_inj _ (ni_own _ _ _ Hn) _ _ _ Ho').
    + split; [done|]. intros o' Ho'. by destruct (Hno o').
Qed.
Lemma udp_live n id s : ninv None None n → n_udp n !! id = Some s → has_kind (n_set n) (udp_handle s) true.
Proof. intros Hn Hs. apply (oi_live _ (ni_own _ _ _ Hn) (OUdp id)). by exists s. Qed.

Lemma wp_set_add x (Q : Z → net → Prop) E n :
  Q (new_handle (n_set n)) (set_set (<[new_handle (n_set n) := x]> (n_set n)) n) → wp (set_add x) Q E n.
Proof. done. Qed.
Lemma wp_udpsocket_new n E : ninv None None n → wp udpsocket_new inv_after E n.
Proof.
  intros Hn. unfold udpsocket_new. apply nwp_bind, wp_set_add. apply nwp_bind, wp_gets, nwp_bind, wp_puts, wp_ret.
  apply ninv_put_udp; [apply ninv_set; [done|intros; by apply has_kind_fresh]|]. right. cbn.
  split; [apply has_kind_udp|]. intros o Ho. by apply (fresh_unowned n o (ni_own _ _ _ Hn)).
Qed.
Lemma wp_udp_bind id addr n s (Q : unit → net → Prop) :
  ninv None None n → n_udp n !! id = Some s →
  (∀ n', ninv None None n' → is_Some (n_udp n' !! id) → Q () n') → wp (udp_bind id addr) Q inv_error n.
Proof.
  intros Hn Hs HQ. unfold udp_bind. apply nwp_bind.
  apply (nwp_mono _ (λ _ n', ninv None None n' ∧ n_udp n' !! id = Some s) _ inv_error); [| |done].
  { case_decide; [|by apply wp_ret]. unfold udp_next_port. apply nwp_bind, nwp_bind, wp_gets, nwp_bind, wp_puts, wp_ret, wp_ret.
    split; [|done]. apply (ninv_sets None None n); [done| |done..]. apply (own_weaken n); try done; apply Hn. }
  clear Hn. intros a n1 [Hn Hs1]. apply nwp_bind, (wp_get_udp _ s); [done|]. case_match; [by apply wp_fail|]. cbv zeta. apply nwp_bind.
  apply (nwp_mono _ (λ _ n', n' = n1) _ (λ _ n', n' = n1)); [|intros ? ? ->|by intros ? ? ->].
  { case_match; [by apply wp_ret|]. unfold bind_check. apply nwp_bind, wp_gets. by case_match. }
  apply nwp_bind. eapply wp_with_udp_mut; [done|by eapply udp_live|]. intros u r u' _ n2 Hn2.
  destruct r as [?|[]]; [|by apply wp_fail..]. apply wp_puts, HQ.
  - apply ninv_put_udp; [done|]. left. by exists s.
  - cbn. rewrite lookup_insert_eq. eauto.
Qed.
Lemma wp_udp_connect id addr n s :
  ninv None None n → n_udp n !! id = Some s → wp (udp_connect id addr) inv_after inv_error n.
Proof.
  intros Hn Hs. unfold udp_connect. apply nwp_bind, (wp_get_udp _ s); [done|]. apply nwp_bind.
  apply (nwp_mono _ (λ _ n', ninv None None n' ∧ is_Some (n_udp n' !! id)) _ inv_error); [| |done].
  { case_match; [apply wp_ret; by eauto|]. by eapply wp_udp_bind. }
  intros _ n1 [Hn1 [s1 Hs1]]. apply nwp_bind, (wp_get_udp _ s1); [done|]. apply wp_puts, ninv_put_udp; [done|]. left. by exists s1.
Qed.
Lemma wp_udp_op {A} rounds id now (op : Z → U → outcome A * U) n s :
  ninv None None n → n_udp n !! id = Some s → Forall (round_ok (OUdp id)) rounds → (∀ now u, (op now u).1 ≠ Panic) →
  wp (udp_op rounds id now op) inv_after inv_error n.
Proof.
  intros Hn Hs Hr Hop. unfold udp_op. apply nwp_bind, (wp_get_udp _ s); [done|]. case_match; [|by apply wp_fail].
  apply (wp_block (holds (OUdp id) (udp_handle s))); [split; [done|by exists s]|by intros ? []|by apply holds_env|
    intros ? ?; apply holds_socks; by left|].
  intros now' n' [Hn' Ho]. apply nwp_bind. eapply wp_with_udp_mut; [done|by apply (oi_live _ (ni_own _ _ _ Hn') _ _ Ho)|].
  intros u a u' Ea n2 Hn2. apply wp_lift; [by specialize (Hop now' u); rewrite Ea in Hop|done|done].
Qed.
Lemma udp_send_no_panic bs e (u : U) : (udp_send_once bs e u).1 ≠ Panic.
Proof. unfold udp_send_once. repeat case_match; done. Qed.
Lemma udp_recv_no_panic {A} (op : U → outcome A * U) u : (∀ u, (op u).1 ≠ Panic) → (udp_recv_once op u).1 ≠ Panic.
Proof. intros Hop. unfold udp_recv_once. repeat case_match; done. Qed.
Lemma datagram_no_panic e (take : U → option (list Z * IpEndpoint) * U) u : (datagram e take u).1 ≠ Panic.
Proof. unfold datagram. repeat case_match; done. Qed.
Lemma recv_peer_no_panic p len (u : U) : (recv_peer p len u).1 ≠ Panic.
Proof. unfold recv_peer. repeat case_match; done. Qed.

Lemma wp_udp_shutdown id n s E : ninv None None n → n_udp n !! id = Some s →
  wp (udp_shutdown id) (λ _ n', ninv None None n' ∧ n_udp n' = n_udp n) E n.
Proof.
  intros Hn Hs. unfold udp_shutdown. apply nwp_bind, (wp_get_udp _ s); [done|]. apply nwp_bind. eapply wp_poll; [done|].
  intros n1 Hn1 [_ Eu]. eapply wp_with_udp_mut; [done|eapply udp_live; [done|by rewrite Eu]|]. intros u a u' _ n2 Hn2. done.
Qed.
Lemma wp_udp_poll id n s : ninv None None n → n_udp n !! id = Some s → wp (udp_poll id) inv_after inv_error n.
Proof.
  intros Hn Hs. unfold udp_poll. apply nwp_bind, (wp_get_udp _ s); [done|]. case_match; [|by apply wp_ret].
  eapply wp_with_udp_mut; [done|by eapply udp_live|]. intros u a u' _ n2 Hn2. done.
Qed.
Lemma wp_set_ttl id ttl n s : ninv None None n → n_udp n !! id = Some s → wp (set_socket_ttl id ttl) inv_after inv_error n.
Proof.
  intros Hn Hs. unfold set_socket_ttl. apply nwp_bind, (wp_get_udp _ s); [done|].
  eapply wp_with_udp_mut; [done|by eapply udp_live|]. by intros u a u' _ n2 Hn2.
Qed.
Lemma wp_udp_drop id n s : ninv None None n → n_udp n !! id = Some s → wp (udp_drop id) inv_after inv_error n.
Proof.
  intros Hn Hs. unfold udp_drop. apply nwp_bind, (wp_get_udp _ s); [done|]. apply nwp_bind, wp_attempt.
  eapply nwp_mono; [by eapply (wp_udp_shutdown id n s (λ _ _, False))| |done]. intros _ n1 [Hn1 Eu].
  apply nwp_bind. unfold set_remove. apply nwp_bind, wp_gets. rewrite <- Eu in Hs. pose proof (udp_live _ _ _ Hn1 Hs) as Hk.
  unfold has_kind in Hk. destruct (n_set n1 !! udp_handle s); [|done]. apply wp_puts, wp_puts.
  assert (ninv None None (set_udps (delete id (n_udp n1)) n1) ∧ ∀ o, ¬ owns (set_udps (delete id (n_udp n1)) n1) o (udp_handle s))
    as [Hd Hno]; [|exact (ninv_remove _ _ _ _ Hd Hno)].
  assert (∀ o h, owns (set_udps (delete id (n_udp n1)) n1) o h → owns n1 o h ∧ o ≠ OUdp id) as Ho.
  { intros [id'|p|id'] h; cbn; [done..|]. intros (s' & [Hne ?]%lookup_delete_Some & ?). split; [eauto|congruence]. }
  split.
  - apply (ninv_sets None None n1); [done| |done..]. apply (own_weaken n1); [apply Hn1|by intros o h [? _]%Ho|done|apply Hn1].
  - intros o [Hoh Hne]%Ho. apply Hne. apply (oi_inj _ (ni_own _ _ _ Hn1) _ _ _ Hoh). by exists s.
Qed.

(** ** Any sequence of operations *)

Inductive netop :=
  | NTcpNew | NBind (id : Z) (a : SocketAddr) | NListen (id : Z)
  | NConnect (rounds : list (nround T U I)) (id : Z) (a : SocketAddr)
  | NAccept (rounds : list (nround T U I)) (id : Z)
  | NSend (rounds : list (nround T U I)) (id now : Z) (bs : list Z)
  | NRecv (rounds : list (nround T U I)) (id now : Z) (len : nat)
  | NRecvTimeout (rounds : list (nround T U I)) (id now ticks : Z) (len : nat)
  | NPoll (id : Z) | NNagle (id : Z) (b : bool) | NClose (id : Z) | NShutdown (id : Z) | NDrop (id : Z)
  | NUdpNew | NUdpBind (id : Z) (a : SocketAddr) | NUdpConnect (id : Z) (a : SocketAddr)
  | NUdpSend (rounds : list (nround T U I)) (id now : Z) (bs : list Z)
  | NUdpSendTo (rounds : list (nround T U I)) (id now : Z) (bs : list Z) (a : SocketAddr)
  | NUdpRecv (rounds : list (nround T U I)) (id now : Z) (len : nat)
  | NUdpRecvFrom (rounds : list (nround T U I)) (id now : Z) (len : nat)
  | NUdpRecvFromTimeout (rounds : list (nround T U I)) (id now ticks : Z) (len : nat)
  | NUdpPeekFrom (rounds : list (nround T U I)) (id now : Z) (len : nat)
  | NUdpPoll (id : Z) | NUdpTtl (id ttl : Z) | NUdpShutdown (id : Z) | NUdpDrop (id : Z)
  | NInterfaces.

Definition quiet {A} (m : netm A) : netm unit := _ ← m; mret ().
Definition net_op (op : netop) : netm unit :=
  match op with
  | NTcpNew => quiet (tcp_create tcpsocket_new)
  | NBind id a => tcp_bind id a
  | NListen id => tcp_listen id
  | NConnect rs id a => quiet (tcp_connect rs id a)
  | NAccept rs id => quiet (tcp_accept rs id)
  | NSend rs id now bs => quiet (tcp_send rs id now bs)
  | NRecv rs id now len => quiet (tcp_recv rs id now len)
  | NRecvTimeout rs id now k len => quiet (tcp_recv_timeout rs id now k len)
  | NPoll id => quiet (tcp_poll id)
  | NNagle id b => set_nagle_enabled id b
  | NClose id => tcp_close id
  | NShutdown id => tcp_shutdown id
  | NDrop id => tcp_drop id
  | NUdpNew => quiet udpsocket_new
  | NUdpBind id a => udp_bind id a
  | NUdpConnect id a => udp_connect id a
  | NUdpSend rs id now bs => quiet (udp_send rs id now bs)
  | NUdpSendTo rs id now bs a => quiet (udp_send_to rs id now bs a)
  | NUdpRecv rs id now len => quiet (udp_recv rs id now len)
  | NUdpRecvFrom rs id now len => quiet (udp_recv_from rs id now len)
  | NUdpRecvFromTimeout rs id now k len => quiet (udp_recv_from_timeout rs id now k len)
  | NUdpPeekFrom rs id now len => quiet (udp_peek_from rs id now len)
  | NUdpPoll id => quiet (udp_poll id)
  | NUdpTtl id ttl => set_socket_ttl id ttl
  | NUdpShutdown id => udp_shutdown id
  | NUdpDrop id => udp_drop id
  | NInterfaces => poll_interfaces
  end.
(** The socket exists, and the other tasks leave it alone while it waits. *)
Definition net_op_ok (op : netop) (n : net) : Prop :=
  let tcp id := is_Some (n_tcp n !! id) in
  let udp id := is_Some (n_udp n !! id) in
  match op with
  | NTcpNew | NUdpNew | NInterfaces => True
  | NConnect rs id _ => tcp id ∧ Forall (round_ok (OTcp id)) rs ∧ Forall (stays_unlistened id) rs
  | NAccept rs id | NSend rs id _ _ | NRecv rs id _ _ | NRecvTimeout rs id _ _ _ => tcp id ∧ Forall (round_ok (OTcp id)) rs
  | NBind id _ | NListen id | NPoll id | NNagle id _ | NClose id | NShutdown id | NDrop id => tcp id
  | NUdpSend rs id _ _ | NUdpSendTo rs id _ _ _ | NUdpRecv rs id _ _ | NUdpRecvFrom rs id _ _
  | NUdpRecvFromTimeout rs id _ _ _ | NUdpPeekFrom rs id _ _ => udp id ∧ Forall (round_ok (OUdp id)) rs
  | NUdpBind id _ | NUdpConnect id _ | NUdpPoll id | NUdpTtl id _ | NUdpShutdown id | NUdpDrop id => udp id
  end.

Definition net_init (i : I) : net := mk_net ∅ ∅ ∅ ∅ PORT_START PORT_START i.
Inductive net_reach : net → Prop :=
  | reach_init i : net_reach (net_init i)
  | reach_step n op : net_reach n → net_op_ok op n → net_reach (net_op op n).2.

Lemma net_init_ninv i : ninv None None (net_init i).
Proof.
  split; [split| |..]; cbn.
  - by intros [id|p|id] h (s & Hs & _).
  - by intros [id|p|id] o' h (s & Hs & _).
  - done.
  - done.
  - done.
  - by intros id p (s & Hs & _).
  - by intros id id' p (s & Hs & _).
  - by intros p [e He].
Qed.
Lemma wp_quiet {A} (m : netm A) n : wp m inv_after inv_error n → wp (quiet m) inv_after inv_error n.
Proof. intros Hm. apply nwp_bind. by eapply nwp_mono; [exact Hm| |]. Qed.
Lemma wp_peer_then {A} id s (f : IpEndpoint → netm A) n :
  n_udp n !! id = Some s → ninv None None n → (∀ e, wp (f e) inv_after inv_error n) →
  wp (e ← udp_peer_name id; f e) inv_after inv_error n.
Proof.
  intros Hs Hn Hf. apply nwp_bind. unfold udp_peer_name. apply nwp_bind, (wp_get_udp _ s); [done|].
  destruct (udp_peer_addr s); [apply Hf|done].
Qed.
Lemma wp_net_op op n : ninv None None n → net_op_ok op n → wp (net_op op) inv_after inv_error n.
Proof.
  intros Hn Hok. destruct op; cbn in Hok; cbn [net_op];
    match type of Hok with True => idtac | is_Some _ => destruct Hok as [s Hs] | _ => destruct Hok as [[s Hs] Hok] end;
    repeat (apply wp_quiet || (unfold udp_send, udp_recv; eapply wp_peer_then; [done..|intros e]));
    first [by eapply wp_tcp_bind | by eapply wp_tcp_listen | by eapply wp_tcp_accept | by eapply wp_tcp_poll
      | by eapply wp_set_nagle | by eapply wp_tcp_close | by eapply wp_udpsocket_new | by eapply wp_udp_bind
      | by eapply wp_udp_connect | by eapply wp_udp_poll | by eapply wp_set_ttl | by eapply wp_udp_drop | by eapply wp_poll | idtac].
  - apply wp_tcp_create; [done|by left|done].
  - destruct Hok. by eapply wp_tcp_connect.
  - eapply wp_stream_op; [done..|]. intros. apply send_once_no_panic.
  - eapply wp_stream_op; [done..|]. apply recv_once_no_panic.
  - eapply wp_stream_op; [done..|]. apply recv_once_no_panic.
  - eapply wp_tcp_shutdown; [done..|]. by intros n' [? _].
  - by eapply wp_tcp_drop.
  - eapply wp_udp_op; [done..|]. intros. apply udp_send_no_panic.
  - unfold udp_send_to. case_decide; [by apply wp_fail|]. eapply wp_udp_op; [done..|]. intros. apply udp_send_no_panic.
  - eapply wp_udp_op; [done..|]. intros. apply udp_recv_no_panic. intros. apply recv_peer_no_panic.
  - eapply wp_udp_op; [done..|]. intros. apply udp_recv_no_panic. intros. apply datagram_no_panic.
  - eapply wp_udp_op; [done..|]. intros. apply udp_recv_no_panic. intros. apply datagram_no_panic.
  - eapply wp_udp_op; [done..|]. intros. apply udp_recv_no_panic. intros. apply datagram_no_panic.
  - eapply nwp_mono; [by eapply (wp_udp_shutdown id n s)| |done]. by intros ? ? [? _].
Qed.
Lemma net_reach_ninv n : net_reach n → ninv None None n.
Proof.
  induction 1 as [i|n op _ Hn Hok]; [apply net_init_ninv|]. pose proof (wp_net_op op n Hn Hok) as Hw.
  unfold wp in Hw. destruct (net_op op n) as [[a|e|] n']; done.
Qed.


(** ** The search for a port *)

(** The port [k] places after [p], in the cycle of the ephemeral ports. *)
Fixpoint port_after (p : Z) (k : nat) : Z :=
  match k with O => p | S k => next_port (port_after p k) end.
Definition PORTS : nat := Z.to_nat (PORT_END - PORT_START + 1).

Lemma port_after_eq p k :
  PORT_START ≤ p ≤ PORT_END → port_after p k = PORT_START + (p - PORT_START + Z.of_nat k) mod 16384.
Proof.
  intros Hp. unfold PORT_START, PORT_END in *. induction k as [|k IH]; [cbn; rewrite Z.mod_small; lia|].
  cbn [port_after]. rewrite IH. unfold next_port, PORT_START, PORT_END. case_decide; mlia.
Qed.
Lemma port_after_all p q :
  PORT_START ≤ p ≤ PORT_END → PORT_START ≤ q ≤ PORT_END → ∃ k, (k < PORTS)%nat ∧ port_after p k = q.
Proof.
  intros Hp Hq. exists (Z.to_nat ((q - p) mod 16384)). rewrite port_after_eq by done.
  unfold PORTS, PORT_START, PORT_END in *. split; mlia.
Qed.
Lemma port_after_S p k : port_after (next_port p) k = port_after p (S k).
Proof. induction k as [|k IH]; [done|]. cbn [port_after] in *. by rewrite IH. Qed.

(** What the loop answers from its next port. *)
Lemma port_loop_result tries n :
  (∃ k, (k < tries)%nat ∧ port_loop tries n = (Ok (port_after (n_curr n) k), set_curr (port_after (n_curr n) (S k)) n) ∧
     n_table n !! port_after (n_curr n) k = None ∧ ∀ j, (j < k)%nat → is_Some (n_table n !! port_after (n_curr n) j)) ∨
  ((port_loop tries n).1 = Err AddrInUse ∧ ∀ j, (j < tries)%nat → is_Some (n_table n !! port_after (n_curr n) j)).
Proof.
  revert n. induction tries as [|tries IH]; intros n; [right; split; [done|lia]|]. cbn [port_loop].
  unfold mbind, netm_bind, gets, puts, can_listen. cbn. destruct (n_table n !! n_curr n) as [e|] eqn:He.
  - rewrite bool_decide_false by done. destruct (IH (set_curr (next_port (n_curr n)) n)) as [(k & Hk & -> & Hf & Hb)|[-> Hb]].
    + left. exists (S k). cbn in *. rewrite !port_after_S in *. split_and!; [lia|done|done|].
      intros [|j] Hj; [by exists e|]. rewrite <- port_after_S. apply Hb. lia.
    + right. split; [done|]. intros [|j] Hj; [by exists e|]. cbn in Hb. rewrite <- port_after_S. apply Hb. lia.
  - rewrite bool_decide_true by done. left. exists 0%nat. split_and!; [lia|done|done|lia].
Qed.

(** C35: The search for an ephemeral port ends with the first port, going round from
    the one after the last given, on which nobody listens; it fails only when every
    one of the 16384 ports is taken. *)
Theorem ephemeral_port_search n :
  PORT_START ≤ n_curr n ≤ PORT_END →
  (∃ k, (k < PORTS)%nat ∧
     get_ephemeral_port n = (Ok (port_after (n_curr n) k), set_curr (port_after (n_curr n) (S k)) n) ∧
     PORT_START ≤ port_after (n_curr n) k ≤ PORT_END ∧ n_table n !! port_after (n_curr n) k = None ∧
     ∀ j, (j < k)%nat → is_Some (n_table n !! port_after (n_curr n) j)) ∨
  ((get_ephemeral_port n).1 = Err AddrInUse ∧ ∀ p, PORT_START ≤ p ≤ PORT_END → is_Some (n_table n !! p)).
Proof.
  intros Hc. unfold get_ephemeral_port. fold PORTS.
  destruct (port_loop_result PORTS n) as [(k & Hk & E & Hf & Hb)|[E Hb]].
  - left. exists k. split_and!; try done; rewrite port_after_eq by done; unfold PORT_START, PORT_END; mlia.
  - right. split; [done|]. intros p Hp. destruct (port_after_all _ _ Hc Hp) as (k & Hk & <-). by apply Hb.
Qed.

(** ** The order of accepting *)

Definition established_at (s : sset) (h : Z) : Prop := ∃ t, get_tcp_sock s h = Ok t ∧ past_handshake (t_state t) = true.
Definition in_handshake_at (s : sset) (h : Z) : Prop := ∃ t, get_tcp_sock s h = Ok t ∧ past_handshake (t_state t) = false.

(** [accept] on a listening port hands out the first socket of the queue whose
    handshake is done, and the others stay in the queue; when there is none it would
    block and changes nothing; when the connection was reset meanwhile it says so, and
    the socket is gone from the queue. *)
Theorem accept_takes_first n p e :
  net_reach n → n_table n !! p = Some e →
  ((∀ h, h ∈ syn_queue e → in_handshake_at (n_set n) h) ∧ table_accept p n = (Err WouldBlock, n)) ∨
  ∃ k h q, syn_queue e !! k = Some h ∧ established_at (n_set n) h ∧
    (∀ h', h' ∈ take k (syn_queue e) → in_handshake_at (n_set n) h') ∧ syn_queue e ≡ₚ h :: q ∧
    let n' := set_ltable (<[p := mk_entry (listen_endpoint e) q]> (n_table n)) n in
    table_accept p n = (Err ConnectionReset, n') ∨ ∃ l r, table_accept p n = (Ok (h, (l, r)), n').
Proof.
  intros Hn%net_reach_ninv He. unfold table_accept, gets, lift, puts, mbind, netm_bind. rewrite He.
  destruct (find_connected_spec (n_set n) (syn_queue e) 0) as (r & -> & Hr); [by intros; eapply queue_kinds|].
  destruct r as [i|]; [|left; by split]. right. destruct Hr as (k & h & t & -> & Hk & Ht & Hp & Hb). cbn [Nat.add].
  exists k, h, (swap_remove_front k (syn_queue e)). rewrite Hk.
  split; [done|]. split; [by exists t|]. split; [done|]. split; [by apply swap_remove_front_perm|]. cbn zeta.
  unfold with_tcp, gets, lift, mbind, netm_bind, mret, netm_ret. cbn [n_set set_ltable]. rewrite Ht.
  case_bool_decide as Hc; [by left|]. right. destruct (connected_endpoints t Hp Hc) as [[l El] [r Er]]. exists l, r.
  unfold get_addr_tuple, gets, lift, mbind, netm_bind, mret, netm_ret. cbn [n_set set_ltable]. by rewrite Ht, El, Er.
Qed.

(** ** What the sockets do not do *)

(** The timeout of a UDP socket is looked at only when smoltcp refuses a datagram that
    it said was there: with nothing to receive the socket would block at any time. *)
Lemma udp_timeout_never_fires n id now ticks len s u :
  n_udp n !! id = Some s → is_Some (udp_local_addr s) → udp_nonblock s = true →
  n_set n !! udp_handle s = Some (SUdp u) → u_is_open u = true → u_can_recv u = false → ticks < 0 →
  (udp_recv_from_timeout [] id now ticks len n).1 = Err WouldBlock.
Proof.
  intros Hs [e He] Hnb Hu Ho Hc _. unfold udp_recv_from_timeout, udp_op, get_udp, gets, mbind, netm_bind, mret, netm_ret.
  rewrite Hs, He. unfold block_on. rewrite Hnb. unfold with_udp_mut, gets, lift, puts, get_udp_sock, mbind, netm_bind, mret, netm_ret.
  rewrite Hu. unfold udp_recv_once. by rewrite Ho, Hc.
Qed.
End props.

(** ** A small stack *)

(** Sockets that connect at once: a listening one when the interface is polled, one
    that connects likewise; the loopback interface holds the SYNs to come. *)
Record simt := mk_simt {
  sm_state : State; sm_local : IpEndpoint; sm_remote : IpEndpoint; sm_bound : IpListenEndpoint;
  sm_rx : list Z; sm_nagle : bool; sm_keep : option Z
}.
Record simu := mk_simu { su_endpoint : option IpListenEndpoint; su_queue : list (list Z * IpEndpoint); su_hops : option Z }.
Definition sim_set_state (st : State) (t : simt) : simt :=
  mk_simt st (sm_local t) (sm_remote t) (sm_bound t) (sm_rx t) (sm_nagle t) (sm_keep t).
Definition sim_known (t : simt) : bool := match sm_state t with Closed | Listen => false | _ => true end.
Definition sim_evolve (x : sock simt simu) : sock simt simu :=
  match x with
  | STcp t => STcp (match sm_state t with Listen | SynSent => sim_set_state Established t | _ => t end)
  | SUdp u => SUdp u
  end.

#[export] Instance sim_smoltcp : Smoltcp simt simu (list (IpEndpoint * IpEndpoint)) := {
  tcp_new := mk_simt Closed UNSPECIFIED_ENDPOINT UNSPECIFIED_ENDPOINT (mk_listen None 0) [] true None;
  t_state := sm_state;
  t_local t := if sim_known t then Some (sm_local t) else None;
  t_remote t := if sim_known t then Some (sm_remote t) else None;
  t_connect _ _ r l t :=
    if decide (sm_state t = Closed)
    then (inl (), mk_simt SynSent (mk_endpoint (Ipv4 [127; 0; 0; 1]) (le_port l)) r l (sm_rx t) (sm_nagle t) (sm_keep t))
    else (inr InvalidState, t);
  t_listen l t := Some (mk_simt Listen (mk_endpoint UNSPECIFIED_IP (le_port l)) UNSPECIFIED_ENDPOINT l [] true None);
  t_close t := sim_set_state (if sim_known t then FinWait1 else Closed) t;
  t_abort t := sim_set_state Closed t;
  t_recv_queue t := Z.of_nat (length (sm_rx t));
  t_is_active := sim_known;
  t_may_recv t := bool_decide (sm_state t = Established);
  t_may_send t := bool_decide (sm_state t = Established);
  t_can_recv t := bool_decide (sm_rx t ≠ []);
  t_can_send t := bool_decide (sm_state t = Established);
  t_recv_slice k t :=
    (Some (take k (sm_rx t)),
     mk_simt (sm_state t) (sm_local t) (sm_remote t) (sm_bound t) (drop k (sm_rx t)) (sm_nagle t) (sm_keep t));
  t_send_slice bs t := (Some (Z.of_nat (length bs)), t);
  t_bound := sm_bound;
  t_set_bound b t := mk_simt (sm_state t) (sm_local t) (sm_remote t) b (sm_rx t) (sm_nagle t) (sm_keep t);
  t_nagle := sm_nagle;
  t_set_nagle b t := mk_simt (sm_state t) (sm_local t) (sm_remote t) (sm_bound t) (sm_rx t) b (sm_keep t);
  t_keep_alive := sm_keep;
  t_set_keep_alive k t := mk_simt (sm_state t) (sm_local t) (sm_remote t) (sm_bound t) (sm_rx t) (sm_nagle t) k;
  udp_new := mk_simu None [] None;
  u_endpoint u := default (mk_listen None 0) (su_endpoint u);
  u_bind e u := match su_endpoint u with
                | None => (inl (), mk_simu (Some e) (su_queue u) (su_hops u))
                | Some _ => (inr BindInvalidState, u)
                end;
  u_is_open u := bool_decide (is_Some (su_endpoint u));
  u_can_recv u := bool_decide (su_queue u ≠ []);
  u_can_send _ := true;
  u_recv_slice k u := match su_queue u with
                      | (bs, e) :: q => (Some (take k bs, e), mk_simu (su_endpoint u) q (su_hops u))
                      | [] => (None, u)
                      end;
  u_peek_slice k u := match su_queue u with (bs, e) :: _ => (Some (take k bs, e), u) | [] => (None, u) end;
  u_send_slice bs e u := (inl (), u);
  u_close u := mk_simu None [] (su_hops u);
  u_set_hop_limit h u := mk_simu (su_endpoint u) (su_queue u) h;
  new_handle s := 1 + foldr (λ kx m, Z.max kx.1 m) 0 (map_to_list s);
  iface_poll loop cb i x :=
    if loop then let '(s, tab) := foldl (λ x p, cb p.1 p.2 x) x i in ([], (sim_evolve <$> s, tab)) else (i, x)
}.

Lemma sim_max_bound (l : list (Z * sock simt simu)) k x : (k, x) ∈ l → k ≤ foldr (λ kx m, Z.max kx.1 m) 0 l.
Proof.
  induction l as [|[k' x'] l IH]; [by intros ?%elem_of_nil|]. intros [[= <- <-]|Hin]%elem_of_cons; cbn; [lia|].
  apply IH in Hin. lia.
Qed.
#[export] Instance sim_smoltcp_laws : SmoltcpLaws simt simu (list (IpEndpoint * IpEndpoint)).
Proof.
  split.
  - intros s. apply eq_None_not_Some. intros [x Hx]. apply elem_of_map_to_list, sim_max_bound in Hx. cbn in Hx. lia.
  - intros b i r l t t'. cbn. case_decide; [|done]. intros [= <-]. by split.
  - intros t. cbn. unfold sim_known. destruct (sm_state t); done || by split.
  - intros b cb i P Hcb Hev [s tab] Hx. cbn. destruct b; [|done].
    assert (P (foldl (λ x p, cb p.1 p.2 x) (s, tab) i)) as Hf
      by (revert Hx; generalize (s, tab); induction i as [|p i IH]; intros x Hx; [done|apply IH; by apply Hcb]).
    destruct (foldl _ (s, tab) i) as [s' tab']. cbn. refine (Hev s' _ tab' _ Hf).
    intros h udp. unfold has_kind. rewrite lookup_fmap. by destruct (s' !! h) as [[]|].
Qed.

(** A server on port 80 that gets a connection, and a UDP socket. *)
Notation sim_op := (netop (T := simt) (U := simu) (I := list (IpEndpoint * IpEndpoint))).
Definition any_addr (port : Z) : SocketAddr := mk_sockaddr (V4 [0; 0; 0; 0]) port.
Definition loopback_addr (port : Z) : SocketAddr := mk_sockaddr (V4 [127; 0; 0; 1]) port.
Definition server_start : net simt simu (list (IpEndpoint * IpEndpoint)) :=
  net_init [(from_core_sockaddr (loopback_addr 50000), from_core_sockaddr (loopback_addr 80))].
Definition idle_round : nround simt simu (list (IpEndpoint * IpEndpoint)) := mk_nround id false 0.
Definition server_ops : list sim_op :=
  [NTcpNew; NBind 0 (any_addr 80); NListen 0; NAccept [idle_round] 0; NUdpNew; NUdpBind 0 (any_addr 0)].
Definition run_ops (ops : list sim_op) (n : net simt simu (list (IpEndpoint * IpEndpoint))) :=
  foldl (λ n op, (net_op op n).2) n ops.

Example bind_to_address_fails :
  let n := run_ops [NTcpNew] server_start in
  let r := tcp_bind 0 (loopback_addr 80) n in
  r.1 = Err AddrInUse ∧ (tcp_bind 0 (loopback_addr 80) r.2).1 = Err InvalidInput.
Proof. by vm_compute. Qed.

Fixpoint legal_ops (ops : list sim_op) (n : net simt simu (list (IpEndpoint * IpEndpoint))) : Prop :=
  match ops with [] => True | op :: ops => net_op_ok op n ∧ legal_ops ops (net_op op n).2 end.
Lemma run_ops_reach ops n : net_reach n → legal_ops ops n → net_reach (run_ops ops n).
Proof.
  revert n. induction ops as [|op ops IH]; intros n Hn Hl; [done|]. destruct Hl as [Hok Hl].
  apply IH; [by apply reach_step|done].
Qed.
Lemma idle_round_ok o : round_ok o idle_round.
Proof. by intros n Hn. Qed.
Lemma server_legal : legal_ops server_ops server_start.
Proof.
  repeat split; try (eexists; vm_compute; reflexivity). constructor; [apply idle_round_ok|constructor].
Qed.


Lemma ephemeral_port_search_witness :
  let n := set_curr 65535 (set_ltable {[ 65535 := mk_entry (mk_listen None 65535) [] ]} server_start) in
  PORT_START ≤ n_curr n ≤ PORT_END ∧ get_ephemeral_port n = (Ok 49152, set_curr 49153 n).
Proof.
  intros n. assert (PORT_START ≤ n_curr n ≤ PORT_END) as Hr by (vm_compute; split; discriminate).
  split; [exact Hr|]. destruct (ephemeral_port_search n Hr) as [(k & Hk & E & _ & Hf & Hb)|[_ Hall]].
  - destruct k as [|[|k]].
    + vm_compute in Hf. discriminate Hf.
    + rewrite E. vm_compute. reflexivity.
    + destruct (Hb 1%nat) as [e He]; [lia|]. vm_compute in He. discriminate He.
  - destruct (Hall 49152) as [e He]; [vm_compute; split; discriminate|]. vm_compute in He. discriminate He.
Defined.

(** The connection is there before it is accepted. *)
Definition queued_ops : list sim_op := [NTcpNew; NBind 0 (any_addr 80); NListen 0; NInterfaces].
Lemma accept_takes_first_witness :
  let n := run_ops queued_ops server_start in
  ∃ k h q, (k < 1)%nat ∧ established_at (n_set n) h ∧
    let n' := set_ltable (<[80 := mk_entry (mk_listen None 80) q]> (n_table n)) n in
    table_accept 80 n = (Err ConnectionReset, n') ∨ ∃ l r, table_accept 80 n = (Ok (h, (l, r)), n').
Proof.
  intros n.
  assert (net_reach n) as Hn.
  { apply run_ops_reach; [apply reach_init|]. repeat split; eexists; vm_compute; reflexivity. }
  assert (n_table n !! 80 = Some (mk_entry (mk_listen None 80) [2])) as He by (vm_compute; reflexivity).
  destruct (accept_takes_first n 80 _ Hn He) as [[Hno _]|(k & h & q & Hk & Hh & _ & _ & Hr)].
  - destruct (Hno 2) as (t & Ht & Hp); [by left|]. vm_compute in Ht. injection Ht as <-. discriminate Hp.
  - exists k, h, q. split; [|split; [exact Hh|exact Hr]]. apply lookup_lt_Some in Hk. exact Hk.
Defined.

(** While a socket waits in [connect] another task may let the connection finish, shut
    it down and listen with the same socket; [poll_connect] does not look at the state
    again, and marks the listening socket closed: its port stays in the table. *)
Definition relisten (n : net simt simu (list (IpEndpoint * IpEndpoint))) :=
  run_ops [NInterfaces; NPoll 0; NShutdown 0; NListen 0] n.
Example connect_race_strands_port :
  let n := run_ops [NTcpNew; NConnect [mk_nround relisten false 0] 0 (loopback_addr 80)] server_start in
  (tcp_st <$> n_tcp n !! 0) = Some STATE_CLOSED ∧ map_to_list (listen_endpoint <$> n_table n) ≠ [].
Proof. by vm_compute. Qed.
