(* ===== verification/Sockets.v ===== *)
(** * Sockets behind descriptors

    modules/syscall/src/syscall_net: [Socket] with its options (socket.rs), and the
    system calls on sockets (imp.rs).

    A socket is a TCP or a UDP socket of the stack, or, made by [socketpair], the end
    of a pipe, which is one of the other objects behind descriptors.  An operation
    of the stack that is still waiting after the rounds it was given ends the call
    with [SHang].  The futures that the sources build and do not await do nothing. *)

From S2P Require Import Prelude Path Vfs RootFs Fops UserMem TimeStat Link FdManager Net FdCalls.

Open Scope Z_scope.

(** ** Numbers of the interface *)

Inductive Domain := AF_UNIX | AF_INET.
#[export] Instance Domain_eq_dec : EqDecision Domain.
Proof. solve_decision. Defined.
Definition domain_try_from (v : Z) : option Domain :=
  match v with 1 => Some AF_UNIX | 2 => Some AF_INET | _ => None end.

Inductive SocketType :=
  | SOCK_STREAM | SOCK_DGRAM | SOCK_RAW | SOCK_RDM | SOCK_SEQPACKET | SOCK_DCCP | SOCK_PACKET.
#[export] Instance SocketType_eq_dec : EqDecision SocketType.
Proof. solve_decision. Defined.
Definition socket_type_try_from (v : Z) : option SocketType :=
  match v with
  | 1 => Some SOCK_STREAM | 2 => Some SOCK_DGRAM | 3 => Some SOCK_RAW | 4 => Some SOCK_RDM
  | 5 => Some SOCK_SEQPACKET | 6 => Some SOCK_DCCP | 10 => Some SOCK_PACKET | _ => None
  end.
Definition SOCKET_TYPE_MASK : Z := 255.
Definition SOCK_NONBLOCK : Z := 2048.
Definition SOCK_CLOEXEC : Z := 524288.

Inductive SocketOptionLevel := LevelIP | LevelSocket | LevelTcp | LevelIPv6.
Definition level_try_from (v : Z) : option SocketOptionLevel :=
  match v with 0 => Some LevelIP | 1 => Some LevelSocket | 6 => Some LevelTcp | 41 => Some LevelIPv6 | _ => None end.
Inductive IpOption := IP_MULTICAST_IF | IP_MULTICAST_TTL | IP_MULTICAST_LOOP | IP_ADD_MEMBERSHIP.
Definition ip_option_try_from (v : Z) : option IpOption :=
  match v with
  | 32 => Some IP_MULTICAST_IF | 33 => Some IP_MULTICAST_TTL | 34 => Some IP_MULTICAST_LOOP
  | 35 => Some IP_ADD_MEMBERSHIP | _ => None
  end.
Inductive SocketOption :=
  | SO_REUSEADDR | SO_ERROR | SO_DONTROUTE | SO_SNDBUF | SO_RCVBUF | SO_KEEPALIVE | SO_RCVTIMEO | SO_SNDTIMEO.
Definition socket_option_try_from (v : Z) : option SocketOption :=
  match v with
  | 2 => Some SO_REUSEADDR | 4 => Some SO_ERROR | 5 => Some SO_DONTROUTE | 7 => Some SO_SNDBUF
  | 8 => Some SO_RCVBUF | 9 => Some SO_KEEPALIVE | 20 => Some SO_RCVTIMEO | 21 => Some SO_SNDTIMEO | _ => None
  end.
Inductive TcpSocketOption := TCP_NODELAY | TCP_MAXSEG | TCP_INFO | TCP_CONGESTION.
#[export] Instance TcpSocketOption_eq_dec : EqDecision TcpSocketOption.
Proof. solve_decision. Defined.
Definition tcp_option_try_from (v : Z) : option TcpSocketOption :=
  match v with
  | 1 => Some TCP_NODELAY | 2 => Some TCP_MAXSEG | 11 => Some TCP_INFO | 13 => Some TCP_CONGESTION | _ => None
  end.
Definition ipv6_option_known (v : Z) : bool := bool_decide (v ∈ [4; 9; 10; 27; 61; 66; 67]).

(** Bytes as a little-endian number. *)
Fixpoint le_of_bytes (bs : list Z) : Z := match bs with [] => 0 | b :: bs => b + 256 * le_of_bytes bs end.

(** ** [Socket] *)

Inductive SocketInner := InnerTcp (id : Z) | InnerUdp (id : Z).
Record Socket := mk_socket {
  so_domain : Domain; so_type : SocketType; so_inner : SocketInner; so_close_exec : bool;
  so_recv_timeout : option TimeVal; so_buffer : option Z; so_dont_route : bool;
  so_send_buf_size : Z; so_recv_buf_size : Z; so_congestion : list Z
}.
Definition new_socket_of (d : Domain) (ty : SocketType) (inner : SocketInner) : Socket :=
  mk_socket d ty inner false None None false 65536 65536 (lit "reno").
Definition so_set_close_exec (b : bool) (s : Socket) : Socket :=
  mk_socket (so_domain s) (so_type s) (so_inner s) b (so_recv_timeout s) (so_buffer s) (so_dont_route s)
    (so_send_buf_size s) (so_recv_buf_size s) (so_congestion s).
Definition so_set_buffer (f : Z) (s : Socket) : Socket :=
  mk_socket (so_domain s) (so_type s) (so_inner s) (so_close_exec s) (so_recv_timeout s) (Some f) (so_dont_route s)
    (so_send_buf_size s) (so_recv_buf_size s) (so_congestion s).
Definition so_set_send_buf (n : Z) (s : Socket) : Socket :=
  mk_socket (so_domain s) (so_type s) (so_inner s) (so_close_exec s) (so_recv_timeout s) (so_buffer s) (so_dont_route s)
    n (so_recv_buf_size s) (so_congestion s).
Definition so_set_recv_buf (n : Z) (s : Socket) : Socket :=
  mk_socket (so_domain s) (so_type s) (so_inner s) (so_close_exec s) (so_recv_timeout s) (so_buffer s) (so_dont_route s)
    (so_send_buf_size s) n (so_congestion s).

(** Where the sockets live: the stack, the [Socket] objects by identity, the next
    identity, and the other objects behind descriptors. *)
Record sworld (T U I R : Type) := mk_sworld {
  sw_net : net T U I; sw_socks : gmap Z Socket; sw_next : Z; sw_others : R
}.
Arguments mk_sworld {T U I R}.
Arguments sw_net {T U I R}.
Arguments sw_socks {T U I R}.
Arguments sw_next {T U I R}.
Arguments sw_others {T U I R}.

(** ** Addresses in user memory *)

(** [socket_address_from]: family, port and address, the last two in network order. *)
Definition socket_address_from (m : usermem) (addr : Z) (d : Domain) : option IpEndpoint :=
  match d with
  | AF_UNIX => None
  | AF_INET =>
      let port := load_le m (addr + 2) 1 * 256 + load_le m (addr + 3) 1 in
      Some (mk_endpoint (Ipv4 (load_bytes m (addr + 4) 4)) port)
  end.

Definition LIBC_SOCKADDR_SIZE : Z := 16.
Definition u16_be (p : Z) : list Z := [p / 256 mod 256; p mod 256].
(** One of the three pieces: what fits of it, and where to go on. *)
Definition put_piece (bs : list Z) (x : usermem * Z * nat) : usermem * Z * nat :=
  let '(m, buf, left_) := x in
  let n := Nat.min left_ (length bs) in
  (store_bytes m buf (take n bs), buf + Z.of_nat n, (left_ - n)%nat).
Definition socket_address_to (a : IpEndpoint) (buf : Z) (buf_len : nat) (buf_len_addr : Z) (m : usermem) : usermem :=
  let m := store_le m buf_len_addr 4 LIBC_SOCKADDR_SIZE in
  let x := put_piece [2; 0] (m, buf, buf_len) in
  let x := put_piece (u16_be (ep_port a)) x in
  (put_piece (take 4 (as_bytes (ep_addr a))) x).1.1.

Section sockets.
Context {T U I R : Type} `{Smoltcp T U I} `{FileIO R}.
Context (turn_to_ticks : TimeVal → Z) (now : Z) (rounds : list (nround T U I)).
Notation scall := (call (sworld T U I R)).

(** ** The world of a call *)

Definition set_net (n : net T U I) (w : sworld T U I R) : sworld T U I R :=
  mk_sworld n (sw_socks w) (sw_next w) (sw_others w).
Definition set_socks (x : gmap Z Socket) (w : sworld T U I R) : sworld T U I R :=
  mk_sworld (sw_net w) x (sw_next w) (sw_others w).
Definition set_others (r : R) (w : sworld T U I R) : sworld T U I R :=
  mk_sworld (sw_net w) (sw_socks w) (sw_next w) r.

(** An operation of the stack, its error as a value; one that may wait. *)
Definition in_net {A} (m : netm T U I A) : scall (A + AxError) := λ w,
  match m (sw_net (sw_io w)) with
  | (Ok a, n) => (inl (inl a), mk_sysw (set_net n (sw_io w)) (sw_table w) (sw_limit w) (sw_mem w))
  | (Err e, n) => (inl (inr e), mk_sysw (set_net n (sw_io w)) (sw_table w) (sw_limit w) (sw_mem w))
  | (Panic, n) => (inr SPanic, mk_sysw (set_net n (sw_io w)) (sw_table w) (sw_limit w) (sw_mem w))
  end.
Definition still_waiting {A} : scall A := λ w, (inr SHang, w).
Definition in_net_wait {A} (m : netm T U I (option A)) : scall (A + AxError) :=
  r ← in_net m;
  match r return scall (A + AxError) with
  | inl (Some a) => mret (inl a)
  | inl None => still_waiting
  | inr e => mret (inr e)
  end.
Definition in_others {A} (f : R → outcome A * R) : scall (A + AxError) :=
  r ← in_io (λ w, let '(r, o) := f (sw_others w) in (r, set_others o w));
  match r return scall (A + AxError) with Ok a => mret (inl a) | Err e => mret (inr e) | Panic => panic end.
Definition modify_io (f : sworld T U I R → sworld T U I R) : scall unit := in_io (λ w, ((), f w)).

Definition get_socket (i : Z) : scall Socket :=
  o ← reads (λ w, sw_socks (sw_io w) !! i); match o with Some s => mret s | None => panic end.
Definition upd_socket (i : Z) (f : Socket → Socket) : scall unit :=
  modify_io (λ w, set_socks (alter f i (sw_socks w)) w).
Definition add_socket (s : Socket) : scall Z := λ w,
  let x := sw_io w in
  (inl (sw_next x), mk_sysw (mk_sworld (sw_net x) (<[sw_next x := s]> (sw_socks x)) (sw_next x + 1) (sw_others x))
                      (sw_table w) (sw_limit w) (sw_mem w)).

(** A [Socket] that gets no descriptor is dropped with its call, and its TCP or UDP
    socket with it. *)
Fixpoint drop_sockets (ss : list Socket) : scall unit :=
  match ss with
  | [] => mret ()
  | s :: ss => _ ← in_net (match so_inner s with InnerTcp id => tcp_drop id | InnerUdp id => udp_drop id end); drop_sockets ss
  end.
Definition new_slot_or_drop (e : LinuxError) (ss : list Socket) : scall Z :=
  t ← reads sw_table;
  lim ← reads sw_limit;
  match alloc_fd lim t with
  | Ok (fd, t) => _ ← set_table t; mret fd
  | _ => _ ← drop_sockets ss; fail e
  end.

(** The descriptor and its downcast. *)
Definition socket_of (fd : Z) : scall Z :=
  f ← get_file fd;
  s ← reads (λ w, sw_socks (sw_io w) !! f);
  match s with Some _ => mret f | None => fail ENOTSOCK end.

(** ** Operations of [Socket] *)

Definition new_socket (d : Domain) (ty : SocketType) : scall Socket :=
  match ty with
  | SOCK_STREAM | SOCK_SEQPACKET =>
      r ← in_net (tcp_create tcpsocket_new);
      match r with inl id => mret (new_socket_of d ty (InnerTcp id)) | inr _ => panic end
  | SOCK_DGRAM =>
      r ← in_net udpsocket_new;
      match r with inl id => mret (new_socket_of d ty (InnerUdp id)) | inr _ => panic end
  | _ => panic
  end.

Definition upd_udp (id : Z) (f : UdpSocket → UdpSocket) : netm T U I unit :=
  puts (λ n, set_udps (alter f id (n_udp n)) n).
Definition so_set_nonblocking (b : bool) (s : Socket) : scall unit :=
  _ ← in_net (match so_inner s with
              | InnerTcp id => upd_tcp id (tcp_set_nonblocking b)
              | InnerUdp id => upd_udp id (λ u, mk_udp (udp_handle u) (udp_local_addr u) (udp_peer_addr u) b (udp_reuse u))
              end); mret ().
Definition so_set_reuse_addr (b : bool) (s : Socket) : scall unit :=
  _ ← in_net (match so_inner s with
              | InnerTcp id => upd_tcp id (tcp_set_reuse_addr b)
              | InnerUdp id => upd_udp id (λ u, mk_udp (udp_handle u) (udp_local_addr u) (udp_peer_addr u) (udp_nonblock u) b)
              end); mret ().
Definition so_reuse_addr (s : Socket) : netm T U I bool :=
  match so_inner s with
  | InnerTcp id => x ← get_tcp id; mret (tcp_reuse x)
  | InnerUdp id => x ← get_udp id; mret (udp_reuse x)
  end.
Definition so_is_nonblocking (s : Socket) : netm T U I bool :=
  match so_inner s with
  | InnerTcp id => x ← get_tcp id; mret (tcp_nonblock x)
  | InnerUdp id => x ← get_udp id; mret (udp_nonblock x)
  end.
Definition so_is_connected (s : Socket) : netm T U I bool :=
  match so_inner s with
  | InnerTcp id => x ← get_tcp id; mret (bool_decide (tcp_st x = STATE_CONNECTED))
  | InnerUdp id => x ← get_udp id; with_udp_mut (udp_handle x) (λ u, (u_is_open u, u))
  end.

Definition so_name (s : Socket) : netm T U I IpEndpoint :=
  a ← (match so_inner s with InnerTcp id => tcp_local_name id | InnerUdp id => udp_local_name id end);
  mret (from_core_sockaddr a).
Definition so_peer_name (s : Socket) : netm T U I IpEndpoint :=
  match so_inner s with
  | InnerTcp id => a ← tcp_peer_name id; mret (from_core_sockaddr a)
  | InnerUdp id => udp_peer_name id
  end.
Definition so_bind (a : IpEndpoint) (s : Socket) : netm T U I unit :=
  match so_inner s with
  | InnerTcp id => tcp_bind id (into_core_sockaddr a)
  | InnerUdp id => udp_bind id (into_core_sockaddr a)
  end.
Definition is_stream (s : Socket) : bool :=
  bool_decide (so_type s = SOCK_STREAM) || bool_decide (so_type s = SOCK_SEQPACKET).
Definition so_listen (s : Socket) : netm T U I unit :=
  if negb (is_stream s) then nfail Unsupported
  else match so_inner s with InnerTcp id => tcp_listen id | InnerUdp _ => nfail Unsupported end.
(** The identity of the new TCP socket and its peer. *)
Definition so_accept (s : Socket) : netm T U I (option (Z * IpEndpoint)) :=
  if negb (is_stream s) then nfail Unsupported
  else match so_inner s with
       | InnerTcp id =>
           r ← tcp_accept rounds id;
           match r with
           | Some new => a ← tcp_peer_name new; mret (Some (new, from_core_sockaddr a))
           | None => mret None
           end
       | InnerUdp _ => nfail Unsupported
       end.
Definition so_connect (a : IpEndpoint) (s : Socket) : netm T U I (option unit) :=
  match so_inner s with
  | InnerTcp id => tcp_connect rounds id (into_core_sockaddr a)
  | InnerUdp id => _ ← udp_connect id (into_core_sockaddr a); mret (Some ())
  end.

(** The pipe of a socket pair, unwrapped. *)
Definition so_pipe (s : Socket) : scall Z := match so_buffer s with Some f => mret f | None => panic end.

Definition so_sendto (bs : list Z) (addr : option IpEndpoint) (s : Socket) : scall (Z + AxError) :=
  if decide (so_domain s = AF_UNIX) then f ← so_pipe s; in_others (io_write f bs)
  else in_net_wait
    match so_inner s with
    | InnerUdp id =>
        x ← get_udp id;
        _ ← (match udp_local_addr x with
             | Some _ => mret ()
             | None => r ← attempt (udp_bind id (into_core_sockaddr UNSPECIFIED_ENDPOINT));
                       match r with inl _ => mret () | inr _ => npanic end
             end);
        match addr with
        | Some a => udp_send_to rounds id now bs (into_core_sockaddr a)
        | None => _ ← udp_peer_name id; udp_send rounds id now bs
        end
    | InnerTcp id =>
        x ← get_tcp id;
        if decide (tcp_st x = STATE_CLOSED) then nfail ConnectionReset else tcp_send rounds id now bs
    end.

Definition so_recv_from (len : nat) (s : Socket) : scall (list Z * IpEndpoint + AxError) :=
  if decide (so_domain s = AF_UNIX) then
    f ← so_pipe s;
    r ← in_others (io_read f len);
    match r with inl bs => mret (inl (bs, mk_endpoint (Ipv4 [127; 0; 0; 1]) 0)) | inr e => mret (inr e) end
  else in_net_wait
    match so_inner s with
    | InnerTcp id =>
        a ← tcp_peer_name id;
        r ← (match so_recv_timeout s with
             | Some t => tcp_recv_timeout rounds id now (turn_to_ticks t) len
             | None => tcp_recv rounds id now len
             end);
        mret (match r with Some bs => Some (bs, from_core_sockaddr a) | None => None end)
    | InnerUdp id =>
        r ← (match so_recv_timeout s with
             | Some t => udp_recv_from_timeout rounds id now (turn_to_ticks t) len
             | None => udp_recv_from rounds id now len
             end);
        mret (match r with Some (bs, a) => Some (bs, from_core_sockaddr a) | None => None end)
    end.

Definition so_shutdown (s : Socket) : netm T U I unit :=
  match so_inner s with
  | InnerUdp id => _ ← attempt (udp_shutdown id); mret ()
  | InnerTcp id => tcp_close id
  end.
Definition so_abort (s : Socket) : netm T U I unit :=
  match so_inner s with
  | InnerUdp id => _ ← attempt (udp_shutdown id); mret ()
  | InnerTcp id => tcp_with_socket id () (λ t, ((), t_abort t))
  end.

(** [FileIO for Socket]. *)
Definition so_read (len : nat) (s : Socket) : scall (list Z + AxError) :=
  if decide (so_domain s = AF_UNIX) then f ← so_pipe s; in_others (io_read f len)
  else in_net_wait match so_inner s with
                   | InnerTcp id => tcp_recv rounds id now len
                   | InnerUdp id => udp_recv rounds id now len
                   end.
Definition so_write (bs : list Z) (s : Socket) : scall (Z + AxError) :=
  if decide (so_domain s = AF_UNIX) then f ← so_pipe s; in_others (io_write f bs)
  else in_net_wait match so_inner s with
                   | InnerTcp id => tcp_send rounds id now bs
                   | InnerUdp id => udp_send rounds id now bs
                   end.
Definition so_poll (s : Socket) : netm T U I PollState :=
  _ ← poll_interfaces;
  r ← attempt (match so_inner s with InnerTcp id => tcp_poll id | InnerUdp id => udp_poll id end);
  mret (match r with inl p => p | inr _ => mk_poll false false end).
Definition so_ready (write : bool) (s : Socket) : scall bool :=
  if decide (so_domain s = AF_UNIX) then
    f ← so_pipe s; reads (λ w, (if write then io_writable f else io_readable f) (sw_others (sw_io w)))
  else
    r ← in_net (so_poll s);
    match r with inl p => mret (if write then ps_writable p else ps_readable p) | inr _ => panic end.
Definition so_get_status (s : Socket) : scall Z :=
  r ← in_net (so_is_nonblocking s);
  match r with
  | inl nb => mret (Z.lor (if so_close_exec s then CLOEXEC else 0) (if nb : bool then NON_BLOCK else 0))
  | inr _ => panic
  end.
Definition so_set_status (flags : Z) (s : Socket) : scall bool :=
  _ ← so_set_nonblocking (of_contains flags NON_BLOCK) s; mret true.

(** ** Options *)

(** An [int] of the option value; a shorter one is a panic. *)
Definition opt_int (opt : list Z) : scall Z :=
  if decide (length opt < 4)%nat then panic else mret (as_i32 (le_of_bytes (take 4 opt))).

Definition ip_option_set (o : IpOption) (s : Socket) (opt : list Z) : scall Z :=
  match o with
  | IP_MULTICAST_IF | IP_MULTICAST_LOOP => mret 0
  | IP_MULTICAST_TTL =>
      match so_inner s with InnerUdp _ => if decide (opt = []) then panic else mret 0 | InnerTcp _ => panic end
  | IP_ADD_MEMBERSHIP => if decide (length opt < 8)%nat then panic else mret 0
  end.

Definition socket_option_set (o : SocketOption) (i : Z) (s : Socket) (opt : list Z) : scall Z :=
  match o with
  | SO_REUSEADDR | SO_DONTROUTE => v ← opt_int opt; _ ← so_set_reuse_addr (bool_decide (v ≠ 0)) s; mret 0
  | SO_SNDBUF => v ← opt_int opt; _ ← upd_socket i (so_set_send_buf (wrap64 v)); mret 0
  | SO_RCVBUF => v ← opt_int opt; _ ← upd_socket i (so_set_recv_buf (wrap64 v)); mret 0
  | SO_KEEPALIVE =>
      v ← opt_int opt;
      let interval := if decide (v ≠ 0) then Some 45 else None in
      _ ← (match so_inner s with
           | InnerUdp _ => mret ()
           | InnerTcp id =>
               r ← in_net (tcp_with_socket id () (λ t, ((), t_set_keep_alive interval t))); mret ()
           end);
      _ ← upd_socket i (so_set_recv_buf (wrap64 v));
      mret 0
  | SO_RCVTIMEO => if decide (length opt < 16)%nat then panic else mret 0
  | SO_ERROR => panic
  | SO_SNDTIMEO => fail EPERM
  end.

(** The option is written to user memory, with its length; [stack] are the bytes that
    follow the zero that [SO_RCVTIMEO] copies. *)
Definition put_int (v opt_value opt_len : Z) : scall unit :=
  set_mem (λ m, store_le (store_le m opt_value 4 v) opt_len 4 4).
Definition need_int (buf_len : Z) : scall unit := if decide (buf_len < 4) then panic else mret ().

Definition socket_option_get (stack : list Z) (o : SocketOption) (s : Socket) (opt_value opt_len : Z) : scall unit :=
  buf_len ← reads (λ w, load_le (sw_mem w) opt_len 4);
  match o with
  | SO_REUSEADDR =>
      r ← in_net (so_reuse_addr s);
      match r with
      | inl b => _ ← need_int buf_len; put_int (if b : bool then 1 else 0) opt_value opt_len
      | inr _ => panic
      end
  | SO_DONTROUTE => _ ← need_int buf_len; put_int (if so_dont_route s then 1 else 0) opt_value opt_len
  | SO_SNDBUF => _ ← need_int buf_len; put_int (so_send_buf_size s) opt_value opt_len
  | SO_RCVBUF => _ ← need_int buf_len; put_int (so_recv_buf_size s) opt_value opt_len
  | SO_KEEPALIVE =>
      _ ← need_int buf_len;
      r ← (match so_inner s with
           | InnerUdp _ => mret (inl 0)
           | InnerTcp id => in_net (tcp_with_socket id 0 (λ t, (match t_keep_alive t with Some _ => 1 | None => 0 end, t)))
           end);
      match r with inl v => put_int v opt_value opt_len | inr _ => panic end
  | SO_RCVTIMEO =>
      if decide (buf_len < 16) then panic
      else
        _ ← (match so_recv_timeout s with
             | Some t => set_mem (λ m, store_le (store_le m opt_value 8 (sec t)) (opt_value + 8) 8 (usec t))
             | None => set_mem (λ m, store_bytes m opt_value (0 :: take 15 stack))
             end);
        set_mem (λ m, store_le m opt_len 4 16)
  | SO_ERROR => mret ()
  | SO_SNDTIMEO => panic
  end.

Definition tcp_option_set (o : TcpSocketOption) (s : Socket) (opt : list Z) : scall Z :=
  match so_inner s with
  | InnerUdp _ => panic
  | InnerTcp id =>
      match o with
      | TCP_NODELAY => _ ← opt_int opt; mret 0
      | TCP_INFO => mret 0
      | TCP_CONGESTION => match from_utf8 opt with Some _ => mret 0 | None => panic end
      | TCP_MAXSEG => panic
      end
  end.
Definition tcp_option_get (o : TcpSocketOption) (s : Socket) (opt_value opt_len : Z) : scall unit :=
  match so_inner s with
  | InnerUdp _ => panic
  | InnerTcp id =>
      buf_len ← reads (λ w, load_le (sw_mem w) opt_len 4);
      match o with
      | TCP_NODELAY =>
          _ ← need_int buf_len;
          r ← in_net (nagle_enabled id);
          match r with inl b => put_int (if b : bool then 0 else 1) opt_value opt_len | inr _ => panic end
      | TCP_MAXSEG => set_mem (λ m, store_le (store_le m opt_value 8 1500) opt_len 4 8)
      | TCP_INFO => mret ()
      | TCP_CONGESTION =>
          let bs := utf8 (so_congestion s) in
          set_mem (λ m, store_le (store_bytes m opt_value bs) opt_len 4 (Z.of_nat (length bs)))
      end
  end.

(** ** The system calls *)

Definition on_bits (flags bit : Z) : bool := bool_decide (Z.land flags bit ≠ 0).

Definition syscall_socket (domain s_type : Z) : scall Z :=
  match domain_try_from domain with
  | None => fail EAFNOSUPPORT
  | Some d =>
      match socket_type_try_from (Z.land s_type SOCKET_TYPE_MASK) with
      | None => fail EINVAL
      | Some ty =>
          s ← new_socket d ty;
          _ ← so_set_nonblocking (on_bits s_type SOCK_NONBLOCK) s;
          fd ← new_slot_or_drop EMFILE [s];
          i ← add_socket (so_set_close_exec (on_bits s_type SOCK_CLOEXEC) s);
          _ ← install fd i;
          mret fd
      end
  end.

Definition user_address (s : Socket) (addr : Z) : scall IpEndpoint :=
  a ← reads (λ w, socket_address_from (sw_mem w) addr (so_domain s));
  match a with Some a => mret a | None => panic end.
Definition put_address (a : IpEndpoint) (buf : Z) (buf_len : nat) (len_addr : Z) : scall unit :=
  set_mem (socket_address_to a buf buf_len len_addr).

(** [map_or(-1, |_| 0)]. *)
Definition minus_one {A} (r : A + AxError) : scall Z := mret (match r with inl _ => 0 | inr _ => -1 end).

Definition syscall_bind (fd addr : Z) : scall Z :=
  i ← socket_of fd;
  s ← get_socket i;
  a ← user_address s addr;
  r ← in_net (so_bind a s);
  minus_one r.
Definition syscall_listen (fd : Z) : scall Z :=
  i ← socket_of fd;
  s ← get_socket i;
  r ← in_net (so_listen s);
  minus_one r.

(** The length at [addr_len], and the buffer it describes. *)
Definition user_buffer (buf addr_len : Z) : scall nat :=
  m ← reads sw_mem;
  _ ← check (manual_alloc_type_for_lazy_ok m addr_len 4) EFAULT;
  let buf_len := load_le m addr_len 4 in
  _ ← check (negb (bool_decide (as_i32 buf_len < 0))) EINVAL;
  _ ← check_range buf (wrap64 (buf + buf_len)) EFAULT;
  mret (Z.to_nat buf_len).

Definition accept_error {A} (e : AxError) : scall A :=
  match e with
  | Unsupported => fail EOPNOTSUPP
  | Interrupted => fail EINTR
  | ConnectionReset => fail ECONNABORTED
  | WouldBlock => fail EAGAIN
  | _ => fail EPERM
  end.
Definition syscall_accept4 (fd addr_buf addr_len flags : Z) : scall Z :=
  i ← socket_of fd;
  s ← get_socket i;
  buf_len ← user_buffer addr_buf addr_len;
  r ← in_net_wait (so_accept s);
  match r with
  | inl (id, a) =>
      _ ← put_address a addr_buf buf_len addr_len;
      let ns := new_socket_of (so_domain s) (so_type s) (InnerTcp id) in
      new_fd ← new_slot_or_drop ENFILE [ns];
      _ ← so_set_nonblocking (on_bits flags SOCK_NONBLOCK) ns;
      j ← add_socket (so_set_close_exec (on_bits flags SOCK_CLOEXEC) ns);
      _ ← install new_fd j;
      mret new_fd
  | inr e => accept_error e
  end.

Definition connect_error {A} (e : AxError) : scall A :=
  match e with
  | WouldBlock => fail EINPROGRESS
  | Interrupted => fail EINTR
  | AlreadyExists => fail EISCONN
  | _ => fail ECONNREFUSED
  end.
Definition syscall_connect (fd addr_buf : Z) : scall Z :=
  i ← socket_of fd;
  s ← get_socket i;
  a ← user_address s addr_buf;
  r ← in_net_wait (so_connect a s);
  match r with inl _ => mret 0 | inr e => connect_error e end.

Definition syscall_get_sock_name (fd addr addr_len : Z) : scall Z :=
  i ← socket_of fd;
  s ← get_socket i;
  buf_len ← user_buffer addr addr_len;
  r ← in_net (so_name s);
  match r with inl a => _ ← put_address a addr buf_len addr_len; mret 0 | inr _ => fail EPERM end.
Definition syscall_getpeername (fd addr addr_len : Z) : scall Z :=
  f ← get_file fd;
  buf_len ← user_buffer addr addr_len;
  i ← socket_of fd;
  s ← get_socket i;
  _ ← check_addr addr_len EFAULT;
  r ← in_net (so_peer_name s);
  match r with
  | inl a => _ ← put_address a addr buf_len addr_len; mret 0
  | inr NotConnected => fail ENOTCONN
  | inr _ => panic
  end.

Definition send_error {A} (e : AxError) : scall A :=
  match e with
  | Interrupted => fail EINTR
  | WouldBlock => fail EAGAIN
  | NotConnected => fail ENOTCONN
  | ConnectionReset => fail EPIPE
  | _ => fail EPERM
  end.
Definition syscall_sendto (fd buf len addr addr_len : Z) : scall Z :=
  i ← socket_of fd;
  s ← get_socket i;
  _ ← check (negb (bool_decide (buf = 0))) EFAULT;
  _ ← check_range buf (wrap64 (buf + len)) EFAULT;
  bs ← reads (λ w, load_bytes (sw_mem w) buf (Z.to_nat len));
  a ← (if decide (addr ≠ 0 ∧ addr_len ≠ 0) then
         _ ← check_range addr (wrap64 (addr + addr_len)) EFAULT; a ← user_address s addr; mret (Some a)
       else mret None);
  r ← so_sendto bs a s;
  match r with inl n => mret n | inr e => send_error e end.

Definition recv_error {A} (e : AxError) : scall A :=
  match e with
  | NotConnected => fail ENOTCONN
  | ConnectionRefused => fail ECONNREFUSED
  | Interrupted => fail EINTR
  | Timeout | WouldBlock => fail EAGAIN
  | _ => fail EPERM
  end.
(** [info] is whether the log prints at that level: its argument unwraps the name. *)
Definition syscall_recvfrom (info : bool) (fd buf len addr_buf addr_len : Z) : scall Z :=
  i ← socket_of fd;
  s ← get_socket i;
  m ← reads sw_mem;
  _ ← check (bool_decide (addr_len = 0) || manual_alloc_type_for_lazy_ok m addr_len 4) EFAULT;
  _ ← check (bool_decide (addr_buf = 0) || manual_alloc_type_for_lazy_ok m addr_buf 1) EFAULT;
  _ ← check_range buf (wrap64 (buf + len)) EFAULT;
  _ ← (if info then r ← in_net (so_name s); match r with inl _ => mret () | inr _ => panic end else mret ());
  r ← so_recv_from (Z.to_nat len) s;
  match r with
  | inl (bs, a) =>
      _ ← set_mem (λ m, store_bytes m buf bs);
      if decide (addr_buf ≠ 0 ∧ addr_len ≠ 0) then
        buf_len ← reads (λ w, load_le (sw_mem w) addr_len 4);
        _ ← check (negb (bool_decide (as_i32 buf_len < 0))) EINVAL;
        _ ← put_address a addr_buf (Z.to_nat buf_len) addr_len;
        mret (Z.of_nat (length bs))
      else mret (Z.of_nat (length bs))
  | inr e => recv_error e
  end.

Definition syscall_set_sock_opt (fd level opt_name opt_value opt_len : Z) : scall Z :=
  match level_try_from level with
  | None => panic
  | Some level =>
      i ← socket_of fd;
      s ← get_socket i;
      opt ← reads (λ w, load_bytes (sw_mem w) opt_value (Z.to_nat (wrap32 opt_len)));
      match level with
      | LevelIP => match ip_option_try_from opt_name with Some o => ip_option_set o s opt | None => mret 0 end
      | LevelSocket => match socket_option_try_from opt_name with Some o => socket_option_set o i s opt | None => mret 0 end
      | LevelTcp => match tcp_option_try_from opt_name with Some o => tcp_option_set o s opt | None => mret 0 end
      | LevelIPv6 => mret 0
      end
  end.
Definition syscall_get_sock_opt (stack : list Z) (fd level opt_name opt_value opt_len : Z) : scall Z :=
  match level_try_from level with
  | None => panic
  | Some level =>
      _ ← check (negb (bool_decide (opt_value = 0 ∨ opt_len = 0))) EFAULT;
      i ← socket_of fd;
      s ← get_socket i;
      m ← reads sw_mem;
      _ ← check (manual_alloc_type_for_lazy_ok m opt_len 4) EFAULT;
      _ ← check_range opt_value (wrap64 (opt_value + load_le m opt_len 4)) EFAULT;
      _ ← (match level with
           | LevelIP | LevelIPv6 => mret ()
           | LevelSocket =>
               match socket_option_try_from opt_name with
               | Some o => socket_option_get stack o s opt_value opt_len
               | None => panic
               end
           | LevelTcp =>
               match tcp_option_try_from opt_name with
               | Some TCP_INFO => fail ENOPROTOOPT
               | Some o => tcp_option_get o s opt_value opt_len
               | None => panic
               end
           end);
      mret 0
  end.

Inductive SocketShutdown := ShutRead | ShutWrite | ShutReadWrite.
Definition shutdown_try_from (v : Z) : option SocketShutdown :=
  match v with 0 => Some ShutRead | 1 => Some ShutWrite | 2 => Some ShutReadWrite | _ => None end.
Definition syscall_shutdown (fd how : Z) : scall Z :=
  i ← socket_of fd;
  s ← get_socket i;
  match shutdown_try_from how with
  | None => fail EINVAL
  | Some ShutRead => mret 0
  | Some ShutWrite => _ ← in_net (so_shutdown s); mret 0
  | Some ShutReadWrite => _ ← in_net (so_abort s); mret 0
  end.

(** Two sockets on the two ends of one pipe: the first reads, the second writes. *)
Definition make_socketpair (s_type : Z) (ty : SocketType) : scall (Socket * Socket) :=
  s1 ← new_socket AF_UNIX ty;
  s2 ← new_socket AF_UNIX ty;
  let nb := on_bits s_type SOCK_NONBLOCK in
  let ce := on_bits s_type SOCK_CLOEXEC in
  _ ← (if nb then _ ← so_set_nonblocking true s1; so_set_nonblocking true s2 else mret ());
  '(p1, p2) ← in_io (λ w, let '(p, o) := io_make_pipe (Z.lor (if nb then NON_BLOCK else 0) (if ce then CLOEXEC else 0))
                                             (sw_others w) in (p, set_others o w));
  mret (so_set_buffer p1 (so_set_close_exec ce s1), so_set_buffer p2 (so_set_close_exec ce s2)).
Definition syscall_socketpair (domain s_type fd : Z) : scall Z :=
  _ ← check_addr fd EINVAL;
  if decide (domain ≠ 1) then panic
  else
    match socket_type_try_from (Z.land s_type SOCKET_TYPE_MASK) with
    | None => fail EINVAL
    | Some ty =>
        '(s1, s2) ← make_socketpair s_type ty;
        fd_num ← new_slot_or_drop EPERM [s2; s1];
        i1 ← add_socket s1;
        _ ← install fd_num i1;
        fd_num2 ← new_slot_or_drop EPERM [s2];
        i2 ← add_socket s2;
        _ ← install fd_num2 i2;
        _ ← set_mem (λ m, store_le (store_le m fd 4 fd_num) (fd + 4) 4 fd_num2);
        mret 0
    end.

(** The calls of the part, their numbers on riscv64, and the dispatch.  [accept] is
    [accept4] with whatever is in the fourth register. *)
Inductive NetSyscallId :=
  | SOCKET | SOCKETPAIR | BIND | LISTEN | ACCEPT | CONNECT | GETSOCKNAME | GETPEERNAME | SENDTO | RECVFROM
  | SETSOCKOPT | GETSOCKOPT | SHUTDOWN | ACCEPT4.
Definition net_syscall_try_from (id : Z) : option NetSyscallId :=
  match id with
  | 198 => Some SOCKET | 199 => Some SOCKETPAIR | 200 => Some BIND | 201 => Some LISTEN | 202 => Some ACCEPT
  | 203 => Some CONNECT | 204 => Some GETSOCKNAME | 205 => Some GETPEERNAME | 206 => Some SENDTO | 207 => Some RECVFROM
  | 208 => Some SETSOCKOPT | 209 => Some GETSOCKOPT | 210 => Some SHUTDOWN | 242 => Some ACCEPT4 | _ => None
  end.
Definition net_syscall (info : bool) (stack : list Z) (id : NetSyscallId) (args : list Z) : scall Z :=
  let arg i := nth i args 0 in
  match id with
  | SOCKET => syscall_socket (arg 0%nat) (arg 1%nat)
  | BIND => syscall_bind (arg 0%nat) (arg 1%nat)
  | LISTEN => syscall_listen (arg 0%nat)
  | ACCEPT | ACCEPT4 => syscall_accept4 (arg 0%nat) (arg 1%nat) (arg 2%nat) (arg 3%nat)
  | CONNECT => syscall_connect (arg 0%nat) (arg 1%nat)
  | GETSOCKNAME => syscall_get_sock_name (arg 0%nat) (arg 1%nat) (arg 2%nat)
  | GETPEERNAME => syscall_getpeername (arg 0%nat) (arg 1%nat) (arg 2%nat)
  | SENDTO => syscall_sendto (arg 0%nat) (arg 1%nat) (arg 2%nat) (arg 4%nat) (arg 5%nat)
  | RECVFROM => syscall_recvfrom info (arg 0%nat) (arg 1%nat) (arg 2%nat) (arg 4%nat) (arg 5%nat)
  | SETSOCKOPT => syscall_set_sock_opt (arg 0%nat) (arg 1%nat) (arg 2%nat) (arg 3%nat) (arg 4%nat)
  | GETSOCKOPT => syscall_get_sock_opt stack (arg 0%nat) (arg 1%nat) (arg 2%nat) (arg 3%nat) (arg 4%nat)
  | SOCKETPAIR => syscall_socketpair (arg 0%nat) (arg 1%nat) (arg 3%nat)
  | SHUTDOWN => syscall_shutdown (arg 0%nat) (arg 1%nat)
  end.
End sockets.
