(* ===== verification/SocketsProps.v ===== *)
(** * What the socket calls promise

    Addresses written to user memory are read back, also when only a prefix fits;
    buffer sizes set as options are got back; and every call on sockets, whatever it
    answers, keeps the invariant of the stack and its links to the [Socket] objects.
    At the end, the options that do not do what they are for. *)

From S2P Require Import Prelude Path Vfs RootFs Fops UserMem TimeStat Link FdManager Net NetProps FdCalls FdCallsProps Sockets.

Open Scope Z_scope.

(** ** Addresses *)

Definition sockaddr_bytes (a : IpEndpoint) : list Z := [2; 0] ++ u16_be (ep_port a) ++ take 4 (as_bytes (ep_addr a)).

Lemma store_bytes_app um a bs bs' :
  store_bytes um a (bs ++ bs') = store_bytes (store_bytes um a bs) (a + Z.of_nat (length bs)) bs'.
Proof.
  revert um a. induction bs as [|b bs IH]; intros um a; [cbn; by rewrite Z.add_0_r|].
  cbn [app store_bytes length]. rewrite IH. f_equal. lia.
Qed.
(** The pieces one after another write what fits of the whole. *)
Lemma put_piece_app bs bs' x : put_piece bs' (put_piece bs x) = put_piece (bs ++ bs') x.
Proof.
  destruct x as [[m buf] left_]. unfold put_piece. rewrite length_app.
  destruct (Nat.le_gt_cases left_ (length bs)) as [Hl|Hl].
  - rewrite !(Nat.min_l left_) by lia. rewrite Nat.sub_diag, Nat.min_0_l, !Nat.sub_diag, take_0, take_app_le by lia.
    cbn [store_bytes]. f_equal. f_equal. lia.
  - rewrite (Nat.min_r left_ (length bs)), (take_ge bs) by lia.
    rewrite (take_app_ge bs bs'), store_bytes_app by lia.
    replace (Nat.min (left_ - length bs) (length bs')) with (Nat.min left_ (length bs + length bs') - length bs)%nat by lia.
    f_equal; [f_equal; lia|lia].
Qed.
Lemma socket_address_to_bytes a buf n len_addr m :
  socket_address_to a buf n len_addr m = store_bytes (store_le m len_addr 4 LIBC_SOCKADDR_SIZE) buf (take n (sockaddr_bytes a)).
Proof.
  unfold socket_address_to. rewrite !put_piece_app. fold (sockaddr_bytes a). unfold put_piece. cbn [fst].
  destruct (Nat.le_gt_cases n (length (sockaddr_bytes a))); [by rewrite Nat.min_l by lia|].
  rewrite Nat.min_r by lia. by rewrite !take_ge by lia.
Qed.

(** A well-formed IPv4 endpoint. *)
Definition ipv4_endpoint (a : IpEndpoint) : Prop :=
  ∃ o, ep_addr a = Ipv4 o ∧ length o = 4%nat ∧ Forall is_byte o ∧ 0 ≤ ep_port a < 65536.
Lemma sockaddr_bytes_ok a : ipv4_endpoint a → length (sockaddr_bytes a) = 8%nat ∧ Forall is_byte (sockaddr_bytes a).
Proof.
  intros (o & Ho & Hlen & Hb & Hp). unfold sockaddr_bytes, u16_be. rewrite Ho. cbn [as_bytes].
  rewrite take_ge by lia. cbn. split; [lia|]. unfold is_byte in *. repeat (constructor; [mlia|]). done.
Qed.

Lemma load_bytes_ext um um' a n :
  (∀ b, a ≤ b < a + Z.of_nat n → um_bytes um' !! b = um_bytes um !! b) → load_bytes um' a n = load_bytes um a n.
Proof.
  revert a. induction n as [|n IH]; intros a Hb; [done|]. cbn [load_bytes]. f_equal.
  - apply load_le_ext. intros b Hb'. apply Hb. lia.
  - apply IH. intros b Hb'. apply Hb. lia.
Qed.
Lemma load_bytes_lookup um a n i : (i < n)%nat → load_bytes um a n !! i = Some (load_le um (a + Z.of_nat i) 1).
Proof.
  revert a i. induction n as [|n IH]; intros a i Hi; [lia|]. destruct i as [|i]; cbn [load_bytes lookup list_lookup].
  - by rewrite Z.add_0_r.
  - change ((load_bytes um (a + 1) n) !! i = Some (load_le um (a + Z.of_nat (S i)) 1)). rewrite IH by lia. do 2 f_equal. lia.
Qed.
Lemma load_bytes_drop um a n k : (k ≤ n)%nat → drop k (load_bytes um a n) = load_bytes um (a + Z.of_nat k) (n - k).
Proof.
  intros Hk. apply list_eq. intros i. rewrite lookup_drop. destruct (Nat.lt_ge_cases i (n - k)).
  - rewrite !load_bytes_lookup by lia. do 2 f_equal. lia.
  - rewrite !lookup_ge_None_2; [done|rewrite length_load_bytes; lia..].
Qed.

(** An IPv4 address that [accept], [getsockname] and their relatives write to a
    buffer of at least eight bytes is the one that [bind], [connect] and [sendto] read
    from it; the length at [len_addr] is that of a C socket address whatever fitted;
    and a shorter buffer gets a prefix of the same bytes and nothing behind it. *)
Theorem sockaddr_roundtrip a buf n len_addr m :
  ipv4_endpoint a → len_addr + 4 ≤ buf ∨ buf + Z.of_nat n ≤ len_addr →
  let m' := socket_address_to a buf n len_addr m in
  load_le m' len_addr 4 = 16 ∧
  load_bytes m' buf (Nat.min n 8) = take n (sockaddr_bytes a) ∧
  (∀ b, ¬ (buf ≤ b < buf + Z.of_nat (Nat.min n 8)) → ¬ (len_addr ≤ b < len_addr + 4) →
     um_bytes m' !! b = um_bytes m !! b) ∧
  ((8 ≤ n)%nat → socket_address_from m' buf AF_INET = Some a).
Proof.
  intros Ha Hd m'. unfold m'. rewrite socket_address_to_bytes. destruct (sockaddr_bytes_ok a Ha) as [Hlen Hb].
  set (m1 := store_le m len_addr 4 LIBC_SOCKADDR_SIZE).
  assert (length (take n (sockaddr_bytes a)) = Nat.min n 8) as Hl by by rewrite length_take, Hlen.
  assert (load_bytes (store_bytes m1 buf (take n (sockaddr_bytes a))) buf (Nat.min n 8) = take n (sockaddr_bytes a)) as Hload.
  { rewrite <- Hl. apply load_store_bytes_prefix; [by apply Forall_take|done]. }
  split; [|split; [done|split]].
  - transitivity (load_le m1 len_addr 4); [|by apply load_store_eq].
    apply load_le_ext. intros b Hb'. apply store_bytes_ne. rewrite Hl. lia.
  - intros b H1 H2. rewrite store_bytes_ne by (rewrite Hl; lia). by apply store_le_bytes.
  - intros Hn. rewrite Nat.min_r, take_ge in Hload by lia. rewrite take_ge by lia.
    set (m2 := store_bytes m1 buf (sockaddr_bytes a)) in *. destruct a as [ip port]. destruct Ha as (o & Eip & Ho & _ & Hp). cbn in Eip, Hp. subst ip.
    assert (load_bytes m2 (buf + 4) 4 = o) as Eo.
    { change (buf + 4) with (buf + Z.of_nat 4). change 4%nat with (8 - 4)%nat at 2. rewrite <- load_bytes_drop by lia.
      rewrite Hload. unfold sockaddr_bytes. cbn. by rewrite take_ge by lia. }
    assert (∀ i b, sockaddr_bytes (mk_endpoint (Ipv4 o) port) !! i = Some b → (i < 8)%nat → load_le m2 (buf + Z.of_nat i) 1 = b) as Hi.
    { intros i b Hib Hi8. rewrite <- Hload in Hib. rewrite load_bytes_lookup in Hib by done. by injection Hib. }
    assert (load_le m2 (buf + 2) 1 = port / 256 mod 256) as E2 by (apply (Hi 2%nat); [done|lia]).
    assert (load_le m2 (buf + 3) 1 = port mod 256) as E3 by (apply (Hi 3%nat); [done|lia]).
    unfold socket_address_from. rewrite Eo, E2, E3.
    f_equal. f_equal. mlia.
Qed.

(** A short buffer. *)
Lemma sockaddr_roundtrip_witness :
  let a := mk_endpoint (Ipv4 [127; 0; 0; 1]) 8080 in
  let m := mk_usermem ∅ ∅ in
  socket_address_from (socket_address_to a 100 16 64 m) 100 AF_INET = Some a ∧
  load_bytes (socket_address_to a 100 5 64 m) 100 5 = [2; 0; 31; 144; 127].
Proof.
  assert (ipv4_endpoint (mk_endpoint (Ipv4 [127; 0; 0; 1]) 8080)) as Ha.
  { exists [127; 0; 0; 1]. split; [reflexivity|]. split; [reflexivity|]. split; [|cbn; lia].
    repeat (constructor; [unfold is_byte; lia|]). constructor. }
  split.
  - destruct (sockaddr_roundtrip _ 100 16 64 (mk_usermem ∅ ∅) Ha) as (_ & _ & _ & H); [lia|]. apply H. lia.
  - destruct (sockaddr_roundtrip _ 100 5 64 (mk_usermem ∅ ∅) Ha) as (_ & H & _); [lia|]. apply H.
Defined.

(** ** The calls keep the invariant of the stack *)

Section keeps.
Context {T U I R : Type} `{SmoltcpLaws T U I} `{FileIO R}.
Notation net := (net T U I).
Notation netm := (netm T U I).
Notation scall := (call (sworld T U I R)).

(** No socket of the stack goes away. *)
Definition net_le (n n' : net) : Prop := dom (n_tcp n) ⊆ dom (n_tcp n') ∧ dom (n_udp n) ⊆ dom (n_udp n').
#[export] Instance net_le_pre : PreOrder net_le.
Proof. split; [by intros n|]. intros a b c [? ?] [? ?]. split; by etrans. Qed.
Class Grows {A} (m : netm A) := grows : ∀ n, net_le n (m n).2.

#[local] Instance grows_ret {A} (a : A) : Grows (mret a).
Proof. by intros n. Qed.
#[local] Instance grows_fail {A} e : Grows (A := A) (nfail e).
Proof. by intros n. Qed.
#[local] Instance grows_panic {A} : Grows (A := A) npanic.
Proof. by intros n. Qed.
#[local] Instance grows_gets {A} (f : net → A) : Grows (gets f).
Proof. by intros n. Qed.
#[local] Instance grows_lift {A} (o : outcome A) : Grows (lift o).
Proof. by intros n. Qed.
#[local] Instance grows_puts f : (∀ n, net_le n (f n)) → Grows (puts f).
Proof. intros Hf n. apply Hf. Qed.
#[local] Instance grows_bind {A B} (m : netm A) (f : A → netm B) : Grows m → (∀ a, Grows (f a)) → Grows (m ≫= f).
Proof.
  intros Hm Hf n. specialize (Hm n). unfold mbind, netm_bind. destruct (m n) as [[a|e|] n1]; [|done..].
  etrans; [exact Hm|apply Hf].
Qed.
#[local] Instance grows_attempt {A} (m : netm A) : Grows m → Grows (attempt m).
Proof. intros Hm n. specialize (Hm n). unfold attempt. by destruct (m n) as [[a|e|] n1]. Qed.
#[local] Instance grows_upd_tcp id f : Grows (upd_tcp (T := T) (U := U) (I := I) id f).
Proof. intros n. split; cbn; [by rewrite dom_alter_L|done]. Qed.
#[local] Instance grows_upd_udp id f : Grows (upd_udp (T := T) (U := U) (I := I) id f).
Proof. intros n. split; cbn; [done|by rewrite dom_alter_L]. Qed.
#[local] Instance grows_put_udp id s : Grows (put_udp (T := T) (U := U) (I := I) id s).
Proof. intros n. split; cbn; [done|set_solver]. Qed.
#[local] Instance grows_poll : Grows (poll_interfaces (T := T) (U := U) (I := I)).
Proof. intros n. unfold poll_interfaces. by repeat case_match. Qed.
#[local] Instance grows_set_add x : Grows (set_add (T := T) (U := U) (I := I) x).
Proof. by intros n. Qed.
#[local] Instance grows_tcp_create s : Grows (tcp_create (T := T) (U := U) (I := I) s).
Proof. intros n. split; cbn; [set_solver|done]. Qed.
#[local] Instance grows_remove_all hs : Grows (remove_all (T := T) (U := U) (I := I) hs).
Proof.
  induction hs as [|h hs IH]; cbn [remove_all]; [exact _|]. apply grows_bind; [|intros; exact IH].
  unfold set_remove. apply grows_bind; [exact _|intros s]. case_match; [|exact _]. by apply grows_puts.
Qed.
#[local] Instance grows_port_loop k : Grows (port_loop (T := T) (U := U) (I := I) k).
Proof.
  induction k as [|k IH]; cbn [port_loop]; [exact _|]. repeat (apply grows_bind; [|intros ?]); try exact _; [by apply grows_puts|].
  by case_match; exact _.
Qed.

(** Rounds that end no socket. *)
Definition round_grows (r : nround T U I) : Prop := ∀ n, net_le n (nr_env r n).
Lemma grows_block_loop {A} rounds (f : Z → netm A) :
  Forall round_grows rounds → (∀ now, Grows (f now)) → Grows (block_loop rounds f).
Proof.
  intros Hr Hf. induction Hr as [|r rounds Hr _ IH]; cbn [block_loop]; [exact _|].
  apply grows_bind; [by apply grows_puts|intros _]. case_match; [exact _|].
  apply grows_bind; [exact _|intros _]. apply grows_bind; [by apply grows_attempt|intros x].
  destruct x as [a|[]]; exact _ || exact IH.
Qed.
Ltac grow := repeat first
  [ exact _ | assumption | apply grows_bind; [|intros ?] | apply grows_attempt | apply grows_block_loop; [by auto|intros ?]
  | case_match | case_decide | apply grows_puts; by intros ? ].
Ltac unfold_net := unfold quiet, tcp_bind, tcp_listen, tcp_connect, tcp_accept, tcp_close, tcp_shutdown, or_else, update_state,
  bind_socket, listen_socket, connect_socket, connected_yet, poll_connect, accept_once, table_accept, table_listen, can_listen,
  bound_endpoint, handle_or_new, the_handle, get_addr_tuple, bind_check, get_ephemeral_port, with_tcp, with_tcp_mut, with_udp_mut,
  block_on, get_tcp, get_udp, tcp_send, tcp_recv, tcp_recv_timeout, stream_op, tcp_poll, poll_stream, poll_listener,
  table_can_accept, tcp_peer_name, tcp_local_name, udp_bind, udp_connect, udp_next_port, udp_send, udp_send_to, udp_recv,
  udp_recv_from, udp_recv_from_timeout, udp_op, udp_peer_name, udp_local_name, udp_shutdown, udp_poll, udpsocket_new,
  set_nagle_enabled, nagle_enabled, tcp_with_socket, shutdown_stream, shutdown_listener, unlisten, set_remove,
  so_bind, so_listen, so_accept, so_connect, so_shutdown, so_abort, so_poll, so_name, so_peer_name, so_reuse_addr, so_is_nonblocking.
(** ** Operations that keep the invariant *)

Definition inner_ok (n : net) (s : Socket) : Prop :=
  match so_inner s with InnerTcp id => is_Some (n_tcp n !! id) | InnerUdp id => is_Some (n_udp n !! id) end.
Lemma inner_ok_le n n' s : net_le n n' → inner_ok n s → inner_ok n' s.
Proof. intros [Ht Hu]. unfold inner_ok. destruct (so_inner s); rewrite <- !elem_of_dom; auto. Qed.
Lemma inner_ok_inner n s s' : so_inner s' = so_inner s → inner_ok n s → inner_ok n s'.
Proof. unfold inner_ok. by intros ->. Qed.

(** Run when the sockets [ss] are there, an operation of the stack keeps its invariant
    and the sockets, whatever it answers. *)
Class Safe (ss : list Socket) {A} (m : netm A) :=
  safe : ∀ n, ninv None None n → Forall (inner_ok n) ss → ninv None None (m n).2 ∧ net_le n (m n).2.

Lemma safe_wp {ss A} (m : netm A) :
  Grows m → (∀ n, ninv None None n → Forall (inner_ok n) ss → wp m inv_after inv_error n) → Safe ss m.
Proof.
  intros Hg Hw n Hn Hss. specialize (Hw n Hn Hss). split; [|apply Hg]. unfold wp in Hw. by destruct (m n) as [[a|e|] n'].
Qed.
Lemma safe_pure {ss A} (m : netm A) : (∀ n, (m n).2 = n) → Safe ss m.
Proof. intros Hm n Hn _. by rewrite Hm. Qed.
Lemma safe_bind {ss A B} (m : netm A) (f : A → netm B) : Safe ss m → (∀ a, Safe ss (f a)) → Safe ss (m ≫= f).
Proof.
  intros Hm Hf n Hn Hss. destruct (Hm n Hn Hss) as [Hn1 Hl]. unfold mbind, netm_bind. destruct (m n) as [[a|e|] n1]; [|done..].
  cbn in Hn1, Hl. destruct (Hf a n1 Hn1) as [? ?]; [by eapply Forall_impl; [|intros s; by apply inner_ok_le]|].
  split; [done|by etrans].
Qed.
Lemma safe_attempt {ss A} (m : netm A) : Safe ss m → Safe ss (attempt m).
Proof. intros Hm n Hn Hss. destruct (Hm n Hn Hss). unfold attempt. by destruct (m n) as [[a|e|] n1]. Qed.
Lemma safe_weaken {s ss A} (m : netm A) : Safe [s] m → s ∈ ss → Safe ss m.
Proof. intros Hm Hs n Hn Hss. apply Hm; [done|]. constructor; [|constructor]. rewrite Forall_forall in Hss. auto. Qed.
(** The other tasks while an operation waits: they keep the invariant and every
    socket with its handle, and make no connecting socket listen. *)
Definition peaceful (r : nround T U I) : Prop :=
  (∀ id, round_ok (OTcp id) r ∧ round_ok (OUdp id) r ∧ stays_unlistened id r) ∧ round_grows r.
Context (turn_to_ticks : TimeVal → Z) (now : Z) (rounds : list (nround T U I)) (Hrounds : Forall peaceful rounds).
Lemma rounds_tcp id : Forall (round_ok (OTcp id)) rounds.
Proof. eapply Forall_impl; [exact Hrounds|]. intros r [Hr _]. apply (Hr id). Qed.
Lemma rounds_udp id : Forall (round_ok (OUdp id)) rounds.
Proof. eapply Forall_impl; [exact Hrounds|]. intros r [Hr _]. apply (Hr id). Qed.
Lemma rounds_unlistened id : Forall (stays_unlistened id) rounds.
Proof. eapply Forall_impl; [exact Hrounds|]. intros r [Hr _]. apply (Hr id). Qed.
Lemma rounds_grow : Forall round_grows rounds.
Proof. eapply Forall_impl; [exact Hrounds|]. by intros r [_ Hr]. Qed.
#[local] Hint Resolve rounds_tcp rounds_udp rounds_unlistened rounds_grow : core.

Section one_socket.
Context (s : Socket).
Lemma safe_tcp {A} id (m : netm A) :
  so_inner s = InnerTcp id → Grows m →
  (∀ n x, ninv None None n → n_tcp n !! id = Some x → wp m inv_after inv_error n) → Safe [s] m.
Proof. intros E Hg Hw. apply safe_wp; [done|]. intros n Hn Hss. apply (proj1 (Forall_singleton _ _)) in Hss. unfold inner_ok in Hss. rewrite E in Hss. destruct Hss. eauto. Qed.
Lemma safe_udp {A} id (m : netm A) :
  so_inner s = InnerUdp id → Grows m →
  (∀ n x, ninv None None n → n_udp n !! id = Some x → wp m inv_after inv_error n) → Safe [s] m.
Proof. intros E Hg Hw. apply safe_wp; [done|]. intros n Hn Hss. apply (proj1 (Forall_singleton _ _)) in Hss. unfold inner_ok in Hss. rewrite E in Hss. destruct Hss. eauto. Qed.

Lemma safe_so_bind a : Safe [s] (so_bind a s).
Proof.
  unfold so_bind. destruct (so_inner s) as [id|id] eqn:E.
  - apply (safe_tcp id); [done| |intros; by eapply wp_tcp_bind]. unfold_net; unfold_net. grow.
  - apply (safe_udp id); [done| |intros; by eapply wp_udp_bind]. unfold_net; unfold_net. grow.
Qed.
Lemma safe_so_listen : Safe [s] (so_listen s).
Proof.
  unfold so_listen. destruct (is_stream s); cbn [negb]; [|by apply safe_pure]. destruct (so_inner s) as [id|id] eqn:E; [|by apply safe_pure].
  apply (safe_tcp id); [done| |intros; by eapply wp_tcp_listen]. unfold_net; unfold_net. grow.
Qed.
Lemma safe_so_connect a : Safe [s] (so_connect rounds a s).
Proof.
  unfold so_connect. destruct (so_inner s) as [id|id] eqn:E.
  - apply (safe_tcp id); [done| |intros; by eapply wp_tcp_connect]. unfold_net; unfold_net. grow.
  - apply safe_bind; [|intros _; by apply safe_pure].
    apply (safe_udp id); [done| |intros; by eapply wp_udp_connect]. unfold_net; unfold_net. grow.
Qed.
Lemma unchanged_bind {A B} (m : netm A) (f : A → netm B) :
  (∀ n, (m n).2 = n) → (∀ a n, (f a n).2 = n) → ∀ n, ((m ≫= f) n).2 = n.
Proof. intros Hm Hf n. specialize (Hm n). unfold mbind, netm_bind. destruct (m n) as [[a|e|] n1]; cbn in Hm; subst; [apply Hf|done..]. Qed.
Ltac unchanged := apply safe_pure; repeat first [done | apply unchanged_bind; [|intros ?] | case_match].

Lemma safe_so_name : Safe [s] (so_name s).
Proof. unfold so_name, tcp_local_name, udp_local_name, get_tcp, get_udp. unchanged. Qed.
Lemma safe_so_peer_name : Safe [s] (so_peer_name s).
Proof. unfold so_peer_name, tcp_peer_name, udp_peer_name, get_tcp, get_udp. unchanged. Qed.
Lemma safe_so_reuse_addr : Safe [s] (so_reuse_addr s).
Proof. unfold so_reuse_addr, get_tcp, get_udp. unchanged. Qed.
Lemma safe_so_is_nonblocking : Safe [s] (so_is_nonblocking s).
Proof. unfold so_is_nonblocking, get_tcp, get_udp. unchanged. Qed.
Lemma safe_nagle_enabled id : Safe [s] (nagle_enabled (T := T) (U := U) (I := I) id).
Proof. unfold nagle_enabled, get_tcp, with_tcp. unchanged. Qed.

Lemma safe_so_accept : Safe [s] (so_accept rounds s).
Proof.
  unfold so_accept. destruct (is_stream s); cbn [negb]; [|by apply safe_pure]. destruct (so_inner s) as [id|id] eqn:E; [|by apply safe_pure].
  apply safe_bind.
  - apply (safe_tcp id); [done| |intros; by eapply wp_tcp_accept]. unfold_net; unfold_net. grow.
  - intros r. unfold tcp_peer_name, get_tcp. unchanged.
Qed.
Lemma safe_tcp_with_socket {A} id (none : A) f : so_inner s = InnerTcp id → Safe [s] (tcp_with_socket id none f).
Proof.
  intros E. apply (safe_tcp id); [done| |].
  - unfold_net; unfold_net. grow.
  - intros n x Hn Hx. unfold tcp_with_socket. apply nwp_bind, (wp_get_tcp _ x); [done|].
    destruct (tcp_handle x) as [h|] eqn:Hh; [|done]. eapply wp_with_handle; [done..|]. done.
Qed.
Lemma safe_udp_shutdown id : so_inner s = InnerUdp id → Safe [s] (udp_shutdown (T := T) (U := U) (I := I) id).
Proof.
  intros E. apply (safe_udp id); [done| |].
  - unfold_net; unfold_net. grow.
  - intros n x Hn Hx. eapply nwp_mono; [by eapply (wp_udp_shutdown id n x)| |done]. by intros ? ? [? _].
Qed.
Lemma safe_so_shutdown : Safe [s] (so_shutdown s).
Proof.
  unfold so_shutdown. destruct (so_inner s) as [id|id] eqn:E.
  - apply (safe_tcp id); [done| |intros; by eapply wp_tcp_close]. unfold_net; unfold_net. grow.
  - apply safe_bind; [by apply safe_attempt, safe_udp_shutdown|intros; unchanged].
Qed.
Lemma safe_so_abort : Safe [s] (so_abort s).
Proof.
  unfold so_abort. destruct (so_inner s) as [id|id] eqn:E; [by apply safe_tcp_with_socket|].
  apply safe_bind; [by apply safe_attempt, safe_udp_shutdown|intros; unchanged].
Qed.
Lemma safe_udp_bind id a : so_inner s = InnerUdp id → Safe [s] (udp_bind (T := T) (U := U) (I := I) id a).
Proof. intros E. apply (safe_udp id); [done| |intros; by eapply wp_udp_bind]. unfold_net; unfold_net. grow. Qed.
Lemma safe_udp_op {A} id (op : Z → U → outcome A * U) :
  so_inner s = InnerUdp id → (∀ now u, (op now u).1 ≠ Panic) → Safe [s] (udp_op rounds id now op).
Proof. intros E Hop. apply (safe_udp id); [done| |intros; by eapply wp_udp_op]. unfold_net; unfold_net. grow. Qed.
Lemma safe_stream_op {A} id (op : Z → T → outcome A * T) :
  so_inner s = InnerTcp id → (∀ now t, (op now t).1 ≠ Panic) → Safe [s] (stream_op rounds id now op).
Proof. intros E Hop. apply (safe_tcp id); [done| |intros; by eapply wp_stream_op]. unfold_net; unfold_net. grow. Qed.
Lemma safe_udp_peer_name id : Safe [s] (udp_peer_name (T := T) (U := U) (I := I) id).
Proof. unfold udp_peer_name, get_udp. unchanged. Qed.
Lemma safe_udp_send_to id bs a : so_inner s = InnerUdp id → Safe [s] (udp_send_to rounds id now bs a).
Proof. intros E. unfold udp_send_to. case_decide; [by apply safe_pure|]. apply safe_udp_op; [done|]. intros. apply udp_send_no_panic. Qed.
Lemma safe_udp_send id bs : so_inner s = InnerUdp id → Safe [s] (udp_send rounds id now bs).
Proof.
  intros E. apply safe_bind; [apply safe_udp_peer_name|]. intros e. apply safe_udp_op; [done|]. intros. apply udp_send_no_panic.
Qed.
Lemma safe_udp_recv id len : so_inner s = InnerUdp id → Safe [s] (udp_recv rounds id now len).
Proof.
  intros E. apply safe_bind; [apply safe_udp_peer_name|]. intros e. apply safe_udp_op; [done|].
  intros. apply udp_recv_no_panic. intros. apply recv_peer_no_panic.
Qed.
Lemma safe_udp_recv_from id len : so_inner s = InnerUdp id → Safe [s] (udp_recv_from rounds id now len).
Proof. intros E. apply safe_udp_op; [done|]. intros. apply udp_recv_no_panic. intros. apply datagram_no_panic. Qed.
Lemma safe_udp_recv_from_timeout id ticks len : so_inner s = InnerUdp id → Safe [s] (udp_recv_from_timeout rounds id now ticks len).
Proof. intros E. apply safe_udp_op; [done|]. intros. apply udp_recv_no_panic. intros. apply datagram_no_panic. Qed.
Lemma safe_tcp_send id bs : so_inner s = InnerTcp id → Safe [s] (tcp_send rounds id now bs).
Proof. intros E. apply safe_stream_op; [done|]. intros. apply send_once_no_panic. Qed.
Lemma safe_tcp_recv id len : so_inner s = InnerTcp id → Safe [s] (tcp_recv rounds id now len).
Proof. intros E. apply safe_stream_op; [done|]. apply recv_once_no_panic. Qed.
Lemma safe_tcp_recv_timeout id ticks len : so_inner s = InnerTcp id → Safe [s] (tcp_recv_timeout rounds id now ticks len).
Proof. intros E. apply safe_stream_op; [done|]. apply recv_once_no_panic. Qed.

Lemma safe_poll_interfaces : Safe [s] (poll_interfaces (T := T) (U := U) (I := I)).
Proof. apply safe_wp; [exact _|]. intros n Hn _. by eapply wp_poll. Qed.
Lemma safe_so_poll : Safe [s] (so_poll s).
Proof.
  unfold so_poll. apply safe_bind; [apply safe_poll_interfaces|intros _]. apply safe_bind; [|intros r; unchanged]. apply safe_attempt.
  destruct (so_inner s) as [id|id] eqn:E.
  - apply (safe_tcp id); [done| |intros; by eapply wp_tcp_poll]. unfold_net; unfold_net. grow.
  - apply (safe_udp id); [done| |intros; by eapply wp_udp_poll]. unfold_net; unfold_net. grow.
Qed.
Lemma safe_upd_tcp id f :
  so_inner s = InnerTcp id → (∀ x, tcp_handle (f x) = tcp_handle x ∧ tcp_st (f x) = tcp_st x ∧ tcp_local_addr (f x) = tcp_local_addr x) →
  Safe [s] (upd_tcp (T := T) (U := U) (I := I) id f).
Proof.
  intros E Hf. apply (safe_tcp id); [done|exact _|]. intros n x Hn Hx. apply wp_puts. destruct (Hf x) as (Eh & Es & El).
  eapply (ninv_alter None None None None); rewrite ?Eh, ?Es, ?El; try done.
  - by left.
  - unfold state_ok. rewrite Es, Eh. by eapply ni_state.
  - intros Hl q Hq. assert (listens n id q) as Hlq by by exists x. split; [by eapply ni_listens|]. split; [done|].
    intros id' Hne Hl'. apply Hne. by eapply ni_unique.
  - intros q _ [?|(x' & Hx' & ? & ?)]; [done|]. simplify_eq. by right.
Qed.
Lemma safe_upd_udp id f :
  so_inner s = InnerUdp id → (∀ x, udp_handle (f x) = udp_handle x) → Safe [s] (upd_udp (T := T) (U := U) (I := I) id f).
Proof.
  intros E Hf. apply (safe_udp id); [done|exact _|]. intros n x Hn Hx. apply wp_puts.
  replace (alter f id (n_udp n)) with (<[id := f x]> (n_udp n)); [apply ninv_put_udp; [done|left; by exists x]|].
  apply map_eq. intros k. destruct (decide (k = id)) as [->|Hne].
  - by rewrite lookup_insert_eq, lookup_alter_eq, Hx.
  - by rewrite lookup_insert_ne, lookup_alter_ne.
Qed.
End one_socket.
(** ** Calls that keep the links *)

(** The stack keeps its invariant, and every [Socket] is linked to a socket of it. *)
Definition linked (w : sworld T U I R) : Prop :=
  ninv None None (sw_net w) ∧ map_Forall (λ _ s, inner_ok (sw_net w) s) (sw_socks w).

(** Where the sockets [ss] are there, a call keeps the links and the sockets. *)
Class Keeps (ss : list Socket) {A} (m : scall A) := keeps : ∀ w,
  linked (sw_io w) → Forall (inner_ok (sw_net (sw_io w))) ss →
  linked (sw_io (m w).2) ∧ net_le (sw_net (sw_io w)) (sw_net (sw_io (m w).2)).
#[local] Hint Mode Keeps - - ! : typeclass_instances.

#[local] Instance keeps_ret {ss A} (a : A) : Keeps ss (mret a).
Proof. by intros w. Qed.
#[local] Instance keeps_fail {ss A} e : Keeps (A := A) ss (fail e).
Proof. by intros w. Qed.
#[local] Instance keeps_panic {ss A} : Keeps (A := A) ss panic.
Proof. by intros w. Qed.
#[local] Instance keeps_hang {ss A} : Keeps (A := A) ss still_waiting.
Proof. by intros w. Qed.
#[local] Instance keeps_reads {ss A} (f : sysw (sworld T U I R) → A) : Keeps ss (reads f).
Proof. by intros w. Qed.
#[local] Instance keeps_check {ss} b e : Keeps ss (check b e).
Proof. intros w. unfold check. by destruct b. Qed.
#[local] Instance keeps_set_table {ss} t : Keeps ss (set_table t).
Proof. by intros w. Qed.
#[local] Instance keeps_set_mem {ss} f : Keeps ss (set_mem f).
Proof. by intros w. Qed.
Lemma call_keeps_bind {ss A B} (m : scall A) (f : A → scall B) : Keeps ss m → (∀ a, Keeps ss (f a)) → Keeps ss (m ≫= f).
Proof.
  intros Hm Hf w Hw Hss. destruct (Hm w Hw Hss) as [Hw1 Hl]. unfold mbind, call_bind. destruct (m w) as [[a|r] w1]; [|done].
  cbn in Hw1, Hl. destruct (Hf a w1 Hw1) as [? ?]; [by eapply Forall_impl; [|intros s; by apply inner_ok_le]|].
  split; [done|by etrans].
Qed.
(** A result may come with sockets that are there from then on. *)
Definition gives {A} (ss : list Socket) (m : scall A) (g : A → list Socket) : Prop := ∀ w,
  linked (sw_io w) → Forall (inner_ok (sw_net (sw_io w))) ss →
  ∀ a w', m w = (inl a, w') → Forall (inner_ok (sw_net (sw_io w'))) (g a).
Lemma keeps_bind_gives {ss A B} g (m : scall A) (f : A → scall B) :
  Keeps ss m → gives ss m g → (∀ a, Keeps (g a ++ ss) (f a)) → Keeps ss (m ≫= f).
Proof.
  intros Hm Hg Hf w Hw Hss. destruct (Hm w Hw Hss) as [Hw1 Hl]. specialize (Hg w Hw Hss). unfold mbind, call_bind.
  destruct (m w) as [[a|r] w1]; [|done]. cbn in Hw1, Hl. destruct (Hf a w1 Hw1) as [? ?].
  - apply Forall_app. split; [by apply Hg|]. by eapply Forall_impl; [|intros s; by apply inner_ok_le].
  - split; [done|by etrans].
Qed.
(** The socket of a descriptor. *)
Lemma keeps_get_socket {ss A} i (f : Socket → scall A) : (∀ s, Keeps (s :: ss) (f s)) → Keeps ss (get_socket i ≫= f).
Proof.
  intros Hf. apply (keeps_bind_gives (λ s, [s])); [|intros w Hw _ s w'|exact Hf].
  - apply call_keeps_bind; [exact _|intros o]. case_match; exact _.
  - unfold get_socket, reads, mbind, call_bind. destruct (sw_socks (sw_io w) !! i) as [s'|] eqn:Hs; [|done].
    intros [= <- <-]. constructor; [|done]. by apply (proj2 Hw i).
Qed.
Lemma keeps_in_net {ss A} (m : netm A) : Safe ss m → Keeps ss (in_net m).
Proof.
  intros Hm w [Hn Hs] Hss. destruct (Hm _ Hn Hss) as [Hn1 Hl]. unfold in_net. destruct (m (sw_net (sw_io w))) as [[a|e|] n1];
    (split; [split; [done|]|done]); intros i s Hi; (eapply inner_ok_le; [exact Hl|by eapply Hs]).
Qed.
#[local] Instance keeps_in_others {ss A} (f : R → outcome A * R) : Keeps ss (in_others f).
Proof. intros w Hw _. unfold in_others, in_io, mbind, call_bind. cbn. by destruct (f _) as [[a|e|] o]. Qed.
Lemma keeps_upd_socket {ss} i f : (∀ s, so_inner (f s) = so_inner s) → Keeps ss (upd_socket i f).
Proof.
  intros Hf w [Hn Hs] _. split; [split; [done|]|done]. intros j s. cbn. destruct (decide (j = i)) as [->|Hne].
  - rewrite lookup_alter_eq. intros (s' & Hs' & ->)%fmap_Some. eapply inner_ok_inner; [apply Hf|by eapply Hs].
  - rewrite lookup_alter_ne by done. apply Hs.
Qed.
Lemma keeps_add_socket {ss} s' : so_inner s' ∈ so_inner <$> ss → Keeps ss (add_socket s').
Proof.
  intros (s & E & Hin)%list_elem_of_fmap w [Hn Hs] Hss. split; [split; [done|]|done]. cbn. apply map_Forall_insert_2; [|done].
  eapply inner_ok_inner; [exact E|]. rewrite Forall_forall in Hss. auto.
Qed.
Lemma keeps_weaken {ss ss' A} (m : scall A) : Keeps ss m → ss ⊆ ss' → Keeps ss' m.
Proof. intros Hm Hs w Hw Hss. apply Hm; [done|]. rewrite Forall_forall in Hss |- *. auto. Qed.
Lemma keeps_in_net_wait {ss A} (m : netm (option A)) : Safe ss m → Keeps ss (in_net_wait m).
Proof. intros Hm. apply call_keeps_bind; [by apply keeps_in_net|]. intros r. repeat case_match; exact _. Qed.
(** A new socket is there. *)
Lemma safe_tcp_create ss : Safe ss (tcp_create (T := T) (U := U) (I := I) tcpsocket_new).
Proof. apply safe_wp; [exact _|]. intros n Hn _. by apply wp_tcp_create; [|left|]. Qed.
Lemma safe_udpsocket_new ss : Safe ss (udpsocket_new (T := T) (U := U) (I := I)).
Proof. apply safe_wp; [unfold udpsocket_new; grow|]. intros n Hn _. by apply wp_udpsocket_new. Qed.
Lemma keeps_new_socket {ss A} d ty (f : Socket → scall A) : (∀ s, Keeps (s :: ss) (f s)) → Keeps ss (new_socket d ty ≫= f).
Proof.
  intros Hf. apply (keeps_bind_gives (λ s, [s])); [| |exact Hf].
  - unfold new_socket. destruct ty; try exact _; (apply call_keeps_bind; [apply keeps_in_net|intros []; exact _]);
      apply safe_tcp_create || apply safe_udpsocket_new.
  - intros w Hw _ s w'. unfold new_socket. destruct ty; try done; intros [= <- <-]; (constructor; [|done]); cbn;
      rewrite lookup_insert_eq; eauto.
Qed.

(** The socket that is accepted is there, and is a new one. *)
Lemma block_loop_result {A} rs (f : Z → netm A) (P : A → net → net → Prop) :
  Forall round_grows rs → (∀ now, Grows (f now)) →
  (∀ a n n1 n', net_le n n1 → P a n1 n' → P a n n') → (∀ now n a n', f now n = (Ok a, n') → P a n n') →
  ∀ n a n', block_loop rs f n = (Ok (Some a), n') → P a n n'.
Proof.
  intros Hr Hg HP Hf. induction Hr as [|r rs Hr _ IH]; intros n a n'; [done|]. cbn [block_loop]. unfold puts, mbind, netm_bind.
  destruct (nr_signal r); [done|]. pose proof (grows_poll (nr_env r n)) as Hp. destruct (poll_interfaces _) as [[[]|e|] n1]; [|done..].
  assert (net_le n n1) as Hn1 by (etrans; [apply Hr|exact Hp]). pose proof (Hg (nr_now r) n1) as Hn2.
  unfold attempt. destruct (f (nr_now r) n1) as [[a1|e|] n2] eqn:E; [intros [= -> ->]; by eapply HP, Hf| |done].
  cbn in Hn2. destruct e; try done. intros Hl. eapply HP; [|by eapply IH]. by etrans.
Qed.
Definition newly (a : Z) (n n' : net) : Prop := n_tcp n !! a = None ∧ is_Some (n_tcp n' !! a).
Lemma newly_le a n n1 n' : net_le n n1 → newly a n1 n' → newly a n n'.
Proof. intros [Ht _] [Hn Hs]. split; [|done]. rewrite <- not_elem_of_dom in Hn |- *. auto. Qed.
Lemma grows_accept_once p : Grows (accept_once (T := T) (U := U) (I := I) p).
Proof. unfold_net; unfold_net. grow. Qed.
Lemma accept_once_new p n a n' : accept_once (T := T) (U := U) (I := I) p n = (Ok a, n') → newly a n n'.
Proof.
  assert (Grows (table_accept (T := T) (U := U) (I := I) p)) as Hg by (unfold_net; grow). specialize (Hg n).
  unfold accept_once, mbind, netm_bind. destruct (table_accept p n) as [[[h [l r]]|e|] n1]; [|done..].
  intros [= <- <-]. eapply newly_le; [exact Hg|]. split; cbn; [|rewrite lookup_insert_eq; eauto].
  rewrite <- not_elem_of_dom. apply is_fresh.
Qed.
Lemma so_accept_new s n id a n' : so_accept rounds s n = (Ok (Some (id, a)), n') → newly id n n'.
Proof.
  unfold so_accept. destruct (is_stream s); cbn [negb]; [|done]. destruct (so_inner s) as [i|i]; [|done].
  unfold mbind, netm_bind. destruct (tcp_accept rounds i n) as [[[new|]|e|] n1] eqn:Ea; [|done..].
  assert (newly new n n1) as Hnew.
  { revert Ea. unfold tcp_accept, get_tcp, gets, mbind, netm_bind. destruct (n_tcp n !! i) as [x|]; [|done]. cbn. case_decide; [|done].
    unfold block_on. destruct (tcp_nonblock x).
    - unfold mbind, netm_bind. destruct (accept_once _ n) as [[b|e|] n3] eqn:Eo; [|done..]. intros [= <- <-]. by eapply accept_once_new.
    - apply (block_loop_result _ _ newly); [done|intros; apply grows_accept_once|exact newly_le|intros ????; apply accept_once_new]. }
  unfold tcp_peer_name, get_tcp, gets, mbind, netm_bind. destruct (n_tcp n1 !! new) as [x|] eqn:Ex; [|by destruct Hnew as [_ []]].
  cbn. case_decide; [|done]. intros [= <- <- <-]. exact Hnew.
Qed.
Lemma keeps_set_nonblocking ss b s : so_inner s ∈ so_inner <$> ss → Keeps ss (so_set_nonblocking b s).
Proof.
  intros (s' & E & Hs)%list_elem_of_fmap. apply call_keeps_bind; [|intros; exact _]. apply keeps_in_net. eapply safe_weaken; [|exact Hs].
  destruct (so_inner s) eqn:Ei; [by apply safe_upd_tcp|by apply safe_upd_udp].
Qed.
Ltac in_list := cbn; rewrite ?elem_of_cons; by auto.
Ltac safe := eapply safe_weaken; [first
  [ apply safe_so_bind | apply safe_so_listen | apply safe_so_connect | apply safe_so_name | apply safe_so_peer_name
  | apply safe_so_reuse_addr | apply safe_so_is_nonblocking | apply safe_so_shutdown | apply safe_so_abort | apply safe_so_poll
  | apply safe_nagle_enabled | by apply safe_tcp_with_socket ] | in_list].
Ltac keep_step :=
  match goal with
  | |- Keeps _ (get_socket _ ≫= _) => apply keeps_get_socket; intros ?
  | |- Keeps _ (new_socket _ _ ≫= _) => apply keeps_new_socket; intros ?
  | |- Keeps _ (_ ≫= _) => apply call_keeps_bind; [|intros ?]
  | |- Keeps _ (in_net _) => apply keeps_in_net; safe
  | |- Keeps _ (in_net_wait _) => apply keeps_in_net_wait; safe
  | |- Keeps _ (upd_socket _ _) => by apply keeps_upd_socket
  | |- Keeps _ (add_socket _) => apply keeps_add_socket; in_list
  | |- Keeps _ (so_set_nonblocking _ _) => apply keeps_set_nonblocking; in_list
  | |- Keeps _ (match _ with _ => _ end) => case_match
  | |- _ => exact _
  end.
Ltac keep := repeat keep_step.

(** The bodies the calls share. *)
Lemma keeps_set_reuse_addr ss b s : s ∈ ss → Keeps ss (so_set_reuse_addr b s).
Proof.
  intros Hs. apply call_keeps_bind; [|intros; exact _]. apply keeps_in_net. eapply safe_weaken; [|exact Hs].
  destruct (so_inner s) eqn:Ei; [by apply safe_upd_tcp|by apply safe_upd_udp].
Qed.
#[local] Instance keeps_so_pipe ss s : Keeps ss (so_pipe s).
Proof. unfold so_pipe. case_match; exact _. Qed.
Ltac safe_bind := apply safe_bind; [|intros ?].
Lemma keeps_so_sendto ss bs a s : s ∈ ss → Keeps ss (so_sendto now rounds bs a s).
Proof.
  intros Hs. unfold so_sendto. case_decide; [keep|]. apply keeps_in_net_wait. eapply safe_weaken; [|exact Hs].
  destruct (so_inner s) as [id|id] eqn:E.
  - safe_bind; [apply safe_pure; intros n; unfold get_tcp, gets, mbind, netm_bind; by destruct (n_tcp n !! id)|].
    case_decide; [by apply safe_pure|by apply safe_tcp_send].
  - safe_bind; [apply safe_pure; intros n; unfold get_udp, gets, mbind, netm_bind; by destruct (n_udp n !! id)|].
    safe_bind.
    + case_match; [by apply safe_pure|]. safe_bind; [by apply safe_attempt, safe_udp_bind|]. case_match; by apply safe_pure.
    + case_match; [by apply safe_udp_send_to|]. safe_bind; [apply safe_udp_peer_name|by apply safe_udp_send].
Qed.
Lemma keeps_so_recv_from ss len s : s ∈ ss → Keeps ss (so_recv_from turn_to_ticks now rounds len s).
Proof.
  intros Hs. unfold so_recv_from. case_decide; [keep|]. apply keeps_in_net_wait. eapply safe_weaken; [|exact Hs].
  destruct (so_inner s) as [id|id] eqn:E; safe_bind.
  - apply safe_pure. intros n. unfold tcp_peer_name, get_tcp, gets, mbind, netm_bind. destruct (n_tcp n !! id); [|done]. cbn. by case_decide.
  - safe_bind; [|by apply safe_pure]. case_match; [by apply safe_tcp_recv_timeout|by apply safe_tcp_recv].
  - case_match; [by apply safe_udp_recv_from_timeout|by apply safe_udp_recv_from].
  - by apply safe_pure.
Qed.
Lemma keeps_so_read ss len s : s ∈ ss → Keeps ss (so_read now rounds len s).
Proof.
  intros Hs. unfold so_read. case_decide; [keep|]. apply keeps_in_net_wait. eapply safe_weaken; [|exact Hs].
  destruct (so_inner s) eqn:E; [by apply safe_tcp_recv|by apply safe_udp_recv].
Qed.
Lemma keeps_so_write ss bs s : s ∈ ss → Keeps ss (so_write now rounds bs s).
Proof.
  intros Hs. unfold so_write. case_decide; [keep|]. apply keeps_in_net_wait. eapply safe_weaken; [|exact Hs].
  destruct (so_inner s) eqn:E; [by apply safe_tcp_send|by apply safe_udp_send].
Qed.
#[local] Instance keeps_socket_of ss fd : Keeps ss (socket_of fd).
Proof. unfold socket_of, get_file. keep. Qed.
#[local] Instance keeps_new_slot ss e : Keeps ss (new_slot e).
Proof. unfold new_slot. keep. Qed.
#[local] Instance keeps_install ss fd f : Keeps ss (install fd f).
Proof. unfold install. keep. Qed.
#[local] Instance keeps_user_buffer ss b l : Keeps ss (user_buffer b l).
Proof. unfold user_buffer, check_range. keep. Qed.
#[local] Instance keeps_user_address ss s a : Keeps ss (user_address s a).
Proof. unfold user_address. keep. Qed.
#[local] Instance keeps_opt_int ss opt : Keeps ss (opt_int opt).
Proof. unfold opt_int. keep. Qed.
Lemma keeps_ip_option_set ss o s opt : Keeps ss (ip_option_set o s opt).
Proof. unfold ip_option_set. keep. Qed.
Lemma keeps_socket_option_set ss o i s opt : s ∈ ss → Keeps ss (socket_option_set o i s opt).
Proof. intros Hs. unfold socket_option_set. repeat first [by apply keeps_set_reuse_addr | keep_step]. Qed.
Lemma keeps_socket_option_get ss stack o s v l : s ∈ ss → Keeps ss (socket_option_get stack o s v l).
Proof. intros Hs. unfold socket_option_get, need_int, put_int. keep. Qed.
Lemma keeps_tcp_option_set ss o s opt : Keeps ss (tcp_option_set o s opt).
Proof. unfold tcp_option_set. keep. Qed.
Lemma keeps_tcp_option_get ss o s v l : s ∈ ss → Keeps ss (tcp_option_get o s v l).
Proof. intros Hs. unfold tcp_option_get, need_int, put_int. keep. Qed.
(** ** Sockets that have no descriptor yet *)

(** Between being made and being given a descriptor, a socket may be dropped again: the
    links are kept, and so is what was there before. *)
Definition inner_live (n : net) (i : SocketInner) : Prop :=
  match i with InnerTcp id => is_Some (n_tcp n !! id) | InnerUdp id => is_Some (n_udp n !! id) end.
Notation world := (sysw (sworld T U I R)).
Notation net_of w := (sw_net (sw_io w)).

Record pending (P : SocketInner → Prop) (ss : list Socket) (w : world) : Prop := {
  pe_linked : linked (sw_io w);
  pe_base i : P i → inner_live (net_of w) i;
  pe_live : Forall (inner_ok (net_of w)) ss;
  pe_fresh : Forall (λ s, ¬ P (so_inner s)) ss;
  pe_nodup : NoDup (so_inner <$> ss);
  pe_socks k s : sw_socks (sw_io w) !! k = Some s → P (so_inner s)
}.
Definition settles (P : SocketInner → Prop) {A} (m : scall A) (w : world) : Prop :=
  linked (sw_io (m w).2) ∧ ∀ i, P i → inner_live (net_of (m w).2) i.

Lemma inner_live_le n n' i : net_le n n' → inner_live n i → inner_live n' i.
Proof. intros Hle. exact (inner_ok_le n n' (new_socket_of AF_INET SOCK_STREAM i) Hle). Qed.
Lemma keeps_settles ss {A} (m : scall A) :
  (∀ P w, pending P [] w → Forall (λ s, P (so_inner s)) ss → settles P m w) → Keeps ss m.
Proof.
  intros Hm w Hw Hss. destruct (Hm (inner_live (net_of w)) w) as [Hl Hle].
  - split; [done..|constructor|constructor|constructor|exact (proj2 Hw)].
  - exact Hss.
  - split; [done|]. split; intros id; rewrite !elem_of_dom; [apply (Hle (InnerTcp id))|apply (Hle (InnerUdp id))].
Qed.
Lemma settles_keeps P ss {A} (m : scall A) w : Keeps ss m → pending P ss w → settles P m w.
Proof.
  intros Hm [Hl Hb Hs _ _ _]. destruct (Hm w Hl Hs) as [? Hle]. split; [done|]. intros i Hi. eapply inner_live_le; eauto.
Qed.
(** A step of the call, which makes no [Socket] object. *)
Lemma pending_step P ss ss' {A} (m : scall A) w :
  Keeps ss' m → sw_socks (sw_io (m w).2) = sw_socks (sw_io w) → Forall (inner_ok (net_of w)) ss' →
  pending P ss w → pending P ss (m w).2.
Proof.
  intros Hm E Hs' [Hl Hb Hs Hf Hn Hk]. destruct (Hm w Hl Hs') as [? Hle]. split; [done| | |done|done|by rewrite E].
  - intros i Hi. eapply inner_live_le; eauto.
  - eapply Forall_impl; [exact Hs|]. intros s. by apply inner_ok_le.
Qed.
Lemma settles_bind P ss {A B} (m : scall A) (f : A → scall B) w :
  Keeps ss m → sw_socks (sw_io (m w).2) = sw_socks (sw_io w) → pending P ss w →
  (∀ a w', pending P ss w' → settles P (f a) w') → settles P (m ≫= f) w.
Proof.
  intros Hm E Hp Hf. pose proof (pending_step P ss ss m w Hm E (pe_live _ _ _ Hp) Hp) as Hp1.
  unfold settles, mbind, call_bind. destruct (m w) as [[a|r] w1]; [by apply Hf|].
  split; [by apply Hp1|]. by apply (pe_base _ _ _ Hp1).
Qed.

(** Dropping one of them. *)
Lemma live_grows {A} (m : netm A) n i : Grows m → inner_live n i → inner_live (m n).2 i.
Proof. intros Hm. apply inner_live_le, Hm. Qed.
Lemma live_bind {A B} (m : netm A) (f : A → netm B) n i :
  Grows m → (∀ a n, inner_live n i → inner_live (f a n).2 i) → inner_live n i → inner_live ((m ≫= f) n).2 i.
Proof.
  intros Hm Hf Hi. apply (live_grows m n i Hm) in Hi. unfold mbind, netm_bind. destruct (m n) as [[a|e|] n1]; [by apply Hf|done..].
Qed.
Lemma drop_live s n i :
  i ≠ so_inner s → inner_live n i →
  inner_live (match so_inner s with InnerTcp id => tcp_drop id | InnerUdp id => udp_drop id end n).2 i.
Proof.
  destruct (so_inner s) as [id|id]; intros Hne Hi.
  - unfold tcp_drop. apply live_bind; [unfold_net; unfold_net; grow| |done]. intros _ n1 Hi1.
    apply live_bind; [unfold_net; grow| |done]. intros x n2 Hi2. apply live_bind; [unfold_net; grow| |done].
    intros _ n3 Hi3. destruct i as [id'|id']; cbn; [|done]. rewrite lookup_delete_ne; [done|congruence].
  - unfold udp_drop. apply live_bind; [unfold_net; grow| |done]. intros x n1 Hi1.
    apply live_bind; [unfold_net; grow| |done]. intros _ n2 Hi2. apply live_bind; [unfold_net; grow| |done].
    intros _ n3 Hi3. destruct i as [id'|id']; cbn; [done|]. rewrite lookup_delete_ne; [done|congruence].
Qed.
Lemma drop_ninv s n :
  ninv None None n → inner_ok n s →
  ninv None None (match so_inner s with InnerTcp id => tcp_drop id | InnerUdp id => udp_drop id end n).2.
Proof.
  unfold inner_ok. intros Hn. destruct (so_inner s) as [id|id]; intros [x Hx].
  - pose proof (wp_tcp_drop id n x inv_after inv_error Hn Hx ltac:(done)) as Hw. unfold wp in Hw.
    by destruct (tcp_drop id n) as [[a|e|] n'].
  - pose proof (wp_udp_drop id n x Hn Hx) as Hw. unfold wp in Hw. by destruct (udp_drop id n) as [[a|e|] n'].
Qed.
Lemma pending_drop P s ss w :
  pending P (s :: ss) w → pending P ss (in_net (match so_inner s with InnerTcp id => tcp_drop id | InnerUdp id => udp_drop id end) w).2.
Proof.
  intros [[Hn Hk0] Hb Hs Hf Hd Hk]. apply Forall_cons in Hs as [Hs Hss], Hf as [Hf Hfs]. cbn in Hd. apply NoDup_cons in Hd as [Hd Hds].
  pose proof (drop_ninv s _ Hn Hs) as Hn'. pose proof (drop_live s (net_of w)) as Hl. unfold in_net.
  destruct (match so_inner s with InnerTcp id => tcp_drop id | InnerUdp id => udp_drop id end (net_of w)) as [o n'] eqn:E.
  cbn in Hn', Hl. assert (pending P ss (mk_sysw (set_net n' (sw_io w)) (sw_table w) (sw_limit w) (sw_mem w))) as Hp; [|by destruct o].
  assert (∀ i, P i → inner_live n' i) as Hb' by (intros i Hi; apply Hl; [by intros ->|by apply Hb]).
  split; cbn; [split; [done|]|done| |done|done|exact Hk].
  - intros k s' Hs'. apply Hb'. by eapply Hk.
  - apply Forall_forall. intros s' Hs'. rewrite Forall_forall in Hss. apply (Hl (so_inner s')); [|by apply Hss].
    intros E'. apply Hd. rewrite <- E'. by apply list_elem_of_fmap_2.
Qed.
Lemma settles_drop P ss {A} e w : pending P ss w → settles P (_ ← drop_sockets ss; fail (A := A) e) w.
Proof.
  revert w. induction ss as [|s ss IH]; intros w Hp; [split; [apply Hp|apply (pe_base _ _ _ Hp)]|].
  apply pending_drop in Hp. cbn [drop_sockets]. unfold settles, mbind, call_bind in *.
  destruct (in_net _ w) as [[a|r] w1]; [|split; [apply Hp|apply (pe_base _ _ _ Hp)]]. by apply IH in Hp.
Qed.
Lemma settles_slot P ss {A} e (f : Z → scall A) w :
  pending P ss w → (∀ fd w', pending P ss w' → settles P (f fd) w') → settles P (new_slot_or_drop e ss ≫= f) w.
Proof.
  intros Hp Hf. unfold new_slot_or_drop, settles, mbind, call_bind, reads. destruct (alloc_fd _ _) as [[fd t]|x|].
  - apply Hf. destruct Hp. by split.
  - pose proof (settles_drop P ss (A := Z) e w Hp) as Hd. unfold settles, mbind, call_bind in Hd.
    destruct (drop_sockets ss w) as [[a|r] w1]; exact Hd.
  - pose proof (settles_drop P ss (A := Z) e w Hp) as Hd. unfold settles, mbind, call_bind in Hd.
    destruct (drop_sockets ss w) as [[a|r] w1]; exact Hd.
Qed.

(** New ones. *)
Lemma pending_new P ss i d ty n' w :
  pending P ss w → linked (set_net n' (sw_io w)) → net_le (net_of w) n' → ¬ inner_live (net_of w) i → inner_live n' i →
  pending P (new_socket_of d ty i :: ss) (mk_sysw (set_net n' (sw_io w)) (sw_table w) (sw_limit w) (sw_mem w)).
Proof.
  intros [Hl Hb Hs Hf Hd Hk] Hl' Hle Hn Hi. split; cbn; [done| | | | |exact Hk].
  - intros j Hj. eapply inner_live_le; eauto.
  - constructor; [exact Hi|]. eapply Forall_impl; [exact Hs|]. intros s. by apply inner_ok_le.
  - constructor; [|done]. intros HP. by apply Hn, Hb.
  - constructor; [|done]. intros (s & E & Hin)%list_elem_of_fmap. apply Hn. rewrite E. rewrite Forall_forall in Hs. by apply Hs.
Qed.
Lemma settles_new P ss d ty {A} (f : Socket → scall A) w :
  pending P ss w → (∀ s w', pending P (s :: ss) w' → settles P (f s) w') → settles P (new_socket d ty ≫= f) w.
Proof.
  intros Hp Hf. assert (∀ {B} (m : netm B), Safe [] m → linked (set_net (m (net_of w)).2 (sw_io w)) ∧ net_le (net_of w) (m (net_of w)).2) as Hm.
  { intros B m Hm. pose proof (keeps_in_net m Hm w (pe_linked _ _ _ Hp) (Forall_nil_2 _)) as Hk. unfold in_net in Hk.
    by destruct (m (net_of w)) as [[]]. }
  assert (settles P (A := A) panic w) as Hpanic by (split; [apply Hp|apply (pe_base _ _ _ Hp)]).
  unfold new_socket. destruct ty; try exact Hpanic.
  - destruct (Hm _ _ (safe_tcp_create [])) as [Hl Hle].
    apply Hf, (pending_new P ss _ _ _ _ w Hp Hl Hle); cbn; [rewrite <- elem_of_dom; apply is_fresh|eexists; apply lookup_insert_eq].
  - destruct (Hm _ _ (safe_udpsocket_new [])) as [Hl Hle].
    apply Hf, (pending_new P ss _ _ _ _ w Hp Hl Hle); cbn; [rewrite <- elem_of_dom; apply is_fresh|eexists; apply lookup_insert_eq].
  - destruct (Hm _ _ (safe_tcp_create [])) as [Hl Hle].
    apply Hf, (pending_new P ss _ _ _ _ w Hp Hl Hle); cbn; [rewrite <- elem_of_dom; apply is_fresh|eexists; apply lookup_insert_eq].
Qed.

Lemma settles_accept P s {A} (f : (Z * IpEndpoint) + AxError → scall A) w :
  pending P [] w → P (so_inner s) →
  (∀ id a w', pending P [new_socket_of (so_domain s) (so_type s) (InnerTcp id)] w' → settles P (f (inl (id, a))) w') →
  (∀ e, Keeps [] (f (inr e))) → settles P (in_net_wait (so_accept rounds s) ≫= f) w.
Proof.
  intros Hp Hs Hf He. pose proof (pe_linked _ _ _ Hp) as [Hn Hk].
  destruct (safe_so_accept s (net_of w) Hn) as [Hn1 Hle].
  { constructor; [|constructor]. apply (pe_base _ _ _ Hp), Hs. }
  pose proof (so_accept_new s (net_of w)) as Hnew. unfold settles, in_net_wait, mbind, call_bind, in_net.
  destruct (so_accept rounds s (net_of w)) as [o n1]. cbn in Hn1, Hle.
  assert (pending P [] (mk_sysw (set_net n1 (sw_io w)) (sw_table w) (sw_limit w) (sw_mem w))) as Hp1.
  { destruct Hp as [_ Hb _ _ _ Hsk]. split; [|intros i Hi; eapply inner_live_le; eauto|constructor..|exact Hsk].
    split; [done|]. intros k s' Hs'. eapply inner_ok_le; [exact Hle|]. by eapply Hk. }
  destruct o as [[[id a]|]|e|]; cbn [call_ret mret]; [|split; [apply Hp1|apply (pe_base _ _ _ Hp1)]| |split; [apply Hp1|apply (pe_base _ _ _ Hp1)]].
  - destruct (Hnew id a n1 eq_refl) as [Hno Hyes]. apply Hf, pending_new; [done|apply Hp1|done|cbn; rewrite Hno; by intros []|done].
  - by apply (settles_keeps P [] _ _ (He e)).
Qed.

(** Given a descriptor, it is one of the sockets there. *)
Lemma settles_weaken (P Q : SocketInner → Prop) {A} (m : scall A) w : (∀ i, Q i → P i) → settles P m w → settles Q m w.
Proof. intros HPQ [? Hb]. split; [done|]. eauto. Qed.
Lemma settles_add P s s' ss {A} (f : Z → scall A) w :
  pending P (s :: ss) w → so_inner s' = so_inner s →
  (∀ i w', pending (λ x, P x ∨ x = so_inner s) ss w' → settles (λ x, P x ∨ x = so_inner s) (f i) w') →
  settles P (add_socket s' ≫= f) w.
Proof.
  intros [[Hn Hk0] Hb Hs Hf Hd Hk] E Hf'. apply Forall_cons in Hs as [Hs Hss], Hf as [Hf Hfs]. cbn in Hd. apply NoDup_cons in Hd as [Hd Hds].
  apply (settles_weaken (λ x, P x ∨ x = so_inner s)); [by left|]. apply Hf'. split; cbn; [split; [done|]| |done| |done|].
  - apply map_Forall_insert_2; [|done]. by eapply inner_ok_inner.
  - intros i [Hi| ->]; [by apply Hb|exact Hs].
  - apply Forall_forall. intros s2 Hs2 [HP|E2]; rewrite Forall_forall in Hfs; [by apply (Hfs s2)|].
    apply Hd. rewrite <- E2. by apply list_elem_of_fmap_2.
  - intros k s2. destruct (decide (k = sw_next (sw_io w))) as [->|Hne].
    + rewrite lookup_insert_eq. intros [= <-]. by right.
    + rewrite lookup_insert_ne by done. intros Hs2. left. by eapply Hk.
Qed.
Lemma set_nonblocking_socks b s (w : world) : sw_socks (sw_io (so_set_nonblocking b s w).2) = sw_socks (sw_io w).
Proof. unfold so_set_nonblocking, in_net, mbind, call_bind. destruct (so_inner s); by cbn.
Qed.
Lemma settles_set_nonblocking P ss b s {A} (f : unit → scall A) w :
  pending P ss w → s ∈ ss → (∀ a w', pending P ss w' → settles P (f a) w') → settles P (so_set_nonblocking b s ≫= f) w.
Proof.
  intros Hp Hs Hf. apply (settles_bind P ss); [|apply set_nonblocking_socks|done|done].
  apply keeps_set_nonblocking. by apply list_elem_of_fmap_2.
Qed.
(** The rest of a call that has used its sockets. *)
Lemma settles_install P fd i {A} (m : scall A) w : pending P [] w → Keeps [] m → settles P (install fd i ≫= λ _, m) w.
Proof. intros Hp Hm. apply (settles_keeps P []); [|done]. apply call_keeps_bind; [exact _|done]. Qed.

#[local] Instance keeps_syscall_socket ss d ty : Keeps ss (syscall_socket d ty).
Proof.
  apply (keeps_weaken (ss := [])); [|intros ? []%elem_of_nil]. apply keeps_settles. intros P w Hp _.
  assert (∀ e, settles P (fail (A := Z) e) w) as He by (intros e; by apply (settles_keeps P []); [exact _|]).
  unfold syscall_socket. destruct (domain_try_from d); [|apply He]. destruct (socket_type_try_from _); [|apply He].
  apply (settles_new P []); [done|]. intros so w1 Hp1. apply (settles_set_nonblocking P [so]); [done|by left|]. intros _ w2 Hp2.
  apply (settles_slot P [so]); [done|]. intros fd w3 Hp3. apply (settles_add P so _ []); [done|done|]. intros i w4 Hp4.
  by apply settles_install.
Qed.
#[local] Instance keeps_accepted s buf len addr_len flags : Keeps [s]
  (r ← in_net_wait (so_accept rounds s);
   match r with
   | inl (id, a) =>
       _ ← put_address a buf len addr_len;
       let ns := new_socket_of (so_domain s) (so_type s) (InnerTcp id) in
       new_fd ← new_slot_or_drop ENFILE [ns];
       _ ← so_set_nonblocking (on_bits flags SOCK_NONBLOCK) ns;
       j ← add_socket (so_set_close_exec (on_bits flags SOCK_CLOEXEC) ns);
       _ ← install new_fd j;
       mret new_fd
   | inr e => accept_error e
   end).
Proof.
  apply keeps_settles. intros P w Hp Hs. apply (proj1 (Forall_singleton _ _)) in Hs. apply settles_accept; [done|done| |].
  - intros id a1 w1 Hp1. apply (settles_bind P [new_socket_of (so_domain s) (so_type s) (InnerTcp id)]); [exact _|reflexivity|exact Hp1|]. intros _ w2 Hp2.
    apply settles_slot; [done|]. intros fd w3 Hp3. eapply settles_set_nonblocking; [done|by left|]. intros _ w4 Hp4.
    eapply settles_add; [done|done|]. intros i w5 Hp5. by apply settles_install.
  - intros e. unfold accept_error. keep.
Qed.
#[local] Instance keeps_syscall_accept4 fd buf len flags : Keeps [] (syscall_accept4 rounds fd buf len flags).
Proof.
  unfold syscall_accept4. apply call_keeps_bind; [exact _|intros i]. apply keeps_get_socket. intros s.
  apply call_keeps_bind; [exact _|intros n]. exact (keeps_accepted s buf n len flags).
Qed.

#[local] Instance keeps_make_pipe ss flags :
  Keeps ss (in_io (λ w : sworld T U I R, let '(p, o) := io_make_pipe flags (sw_others w) in (p, set_others o w))).
Proof. intros w Hw _. unfold in_io. by destruct (io_make_pipe flags (sw_others (sw_io w))). Qed.

(** A pair, of which none, one or both get a descriptor. *)
Lemma pending_same P ss ss' (w : world) : so_inner <$> ss ≡ₚ so_inner <$> ss' → pending P ss w → pending P ss' w.
Proof.
  intros E [Hl Hb Hs Hf Hd Hk]. split; [done|done| | |by rewrite <- E|done].
  - change (Forall (inner_live (net_of w) ∘ so_inner) ss'). apply Forall_fmap. rewrite <- E. by apply Forall_fmap.
  - change (Forall ((λ i, ¬ P i) ∘ so_inner) ss'). apply Forall_fmap. rewrite <- E. by apply Forall_fmap.
Qed.
Definition quiet_socks {A} (m : scall A) : Prop := ∀ w, sw_socks (sw_io (m w).2) = sw_socks (sw_io w).
Lemma quiet_bind {A B} (m : scall A) (f : A → scall B) : quiet_socks m → (∀ a, quiet_socks (f a)) → quiet_socks (m ≫= f).
Proof.
  intros Hm Hf w. specialize (Hm w). unfold mbind, call_bind. destruct (m w) as [[a|r] w1]; [|done]. cbn in Hm. rewrite <- Hm. apply Hf.
Qed.
Lemma settles_socketpair P t ty {A} (f : Socket * Socket → scall A) w :
  pending P [] w → (∀ s1 s2 w', pending P [s2; s1] w' → settles P (f (s1, s2)) w') → settles P (make_socketpair t ty ≫= f) w.
Proof.
  intros Hp Hf. unfold make_socketpair. generalize (on_bits t SOCK_NONBLOCK), (on_bits t SOCK_CLOEXEC). intros nb ce.
  assert (∀ {B C} (m : scall B) (g : B → scall C) (h : C → scall A) w, settles P (m ≫= λ b, g b ≫= h) w → settles P ((m ≫= g) ≫= h) w) as Hassoc.
  { intros B C m g h w0. unfold settles, mbind, call_bind. by destruct (m w0) as [[]]. }
  apply Hassoc, (settles_new P []); [done|]. intros s1 w1 Hp1. apply Hassoc, (settles_new P [s1]); [done|]. intros s2 w2 Hp2.
  apply Hassoc, (settles_bind P [s2; s1]); [destruct nb; [apply call_keeps_bind; [|intros _]; apply keeps_set_nonblocking; in_list|exact _]| |done|].
  { destruct nb; [|done]. apply quiet_bind; [|intros _]; intros w'; apply set_nonblocking_socks. }
  intros _ w3 Hp3. apply Hassoc, (settles_bind P [s2; s1]); [exact _|unfold in_io; by destruct (io_make_pipe _ _)|done|].
  intros [p1 p2] w4 Hp4. cbn. apply Hf. by eapply pending_same; [|exact Hp4].
Qed.
#[local] Instance keeps_syscall_socketpair ss d t fd : Keeps ss (syscall_socketpair d t fd).
Proof.
  apply (keeps_weaken (ss := [])); [|intros ? []%elem_of_nil]. unfold syscall_socketpair, check_addr.
  apply call_keeps_bind; [keep|intros _]. case_decide; [exact _|]. case_match; [|exact _].
  apply keeps_settles. intros P w Hp _. apply settles_socketpair; [done|]. intros s1 s2 w1 Hp1.
  apply (settles_slot P [s2; s1]); [done|]. intros k w2 Hp2. apply (pending_same _ _ [s1; s2]) in Hp2; [|apply Permutation_swap].
  eapply settles_add; [done|done|]. intros i w3 Hp3. eapply settles_bind; [exact (keeps_install [s2] k i)|done|done|]. intros _ w4 Hp4.
  apply (settles_slot _ [s2]); [done|]. intros k2 w5 Hp5. eapply settles_add; [done|done|]. intros i2 w6 Hp6.
  apply settles_install; [done|keep].
Qed.
(** ** Any call on sockets *)

Inductive sockcall :=
  | CSyscall (info : bool) (stack : list Z) (id : NetSyscallId) (args : list Z)
  | CRead (fd : Z) (len : nat) | CWrite (fd : Z) (bs : list Z) | CReady (fd : Z) (write : bool) | CGetStatus (fd : Z)
  | CSetStatus (fd flags : Z).
(** The operations of [FileIO] are called with the object that a descriptor finds. *)
Definition of_fd {A} (fd : Z) (f : Socket → scall A) : scall Z :=
  i ← socket_of fd; s ← get_socket i; _ ← f s; mret 0.
Definition sock_call (c : sockcall) : scall Z :=
  match c with
  | CSyscall info stack id args => net_syscall turn_to_ticks now rounds info stack id args
  | CRead fd len => of_fd fd (so_read now rounds len)
  | CWrite fd bs => of_fd fd (so_write now rounds bs)
  | CReady fd w => of_fd fd (so_ready w)
  | CGetStatus fd => of_fd fd so_get_status
  | CSetStatus fd flags => of_fd fd (so_set_status flags)
  end.

Ltac call_step :=
  match goal with
  | |- Keeps _ (so_sendto _ _ _ _ _) => apply keeps_so_sendto; in_list
  | |- Keeps _ (so_recv_from _ _ _ _ _) => apply keeps_so_recv_from; in_list
  | |- Keeps _ (so_read _ _ _ _) => apply keeps_so_read; in_list
  | |- Keeps _ (so_write _ _ _ _) => apply keeps_so_write; in_list
  | |- Keeps _ (ip_option_set _ _ _) => apply keeps_ip_option_set
  | |- Keeps _ (socket_option_set _ _ _ _) => apply keeps_socket_option_set; in_list
  | |- Keeps _ (socket_option_get _ _ _ _ _) => apply keeps_socket_option_get; in_list
  | |- Keeps _ (tcp_option_set _ _ _) => apply keeps_tcp_option_set
  | |- Keeps _ (tcp_option_get _ _ _ _) => apply keeps_tcp_option_get; in_list
  | |- _ => keep_step
  end.
Ltac calls := repeat call_step.

Lemma keeps_net_syscall info stack id args : Keeps [] (net_syscall turn_to_ticks now rounds info stack id args).
Proof.
  destruct id; cbn [net_syscall]; unfold syscall_bind, syscall_listen,
    syscall_connect, syscall_get_sock_name, syscall_getpeername, syscall_sendto, syscall_recvfrom, syscall_set_sock_opt,
    syscall_get_sock_opt, syscall_shutdown, put_address, minus_one, accept_error, connect_error, send_error, recv_error,
    get_file, check_addr, check_range; calls.
Qed.
Lemma keeps_sock_call c : Keeps [] (sock_call c).
Proof.
  destruct c; cbn [sock_call]; [apply keeps_net_syscall|..]; unfold of_fd, so_ready, so_get_status, so_set_status; calls.
Qed.
End keeps.

Section any_calls.
Context {T U I R : Type} `{SmoltcpLaws T U I} `{FileIO R}.
Notation world := (sysw (sworld T U I R)).

(** A call, the time at which it starts and what the other tasks do while it waits. *)
Record sock_step := mk_sock_step { ss_call : sockcall; ss_now : Z; ss_rounds : list (nround T U I) }.
Definition run_sock_calls (ticks : TimeVal → Z) (l : list sock_step) (w : world) : world :=
  foldl (λ w x, (run (sock_call ticks (ss_now x) (ss_rounds x) (ss_call x)) w).2) w l.

(** C36: Whatever calls a process makes on sockets, whatever numbers and addresses it
    passes and whatever the calls answer, as long as the other tasks are [peaceful]
    while a call waits - they keep the invariant, close no socket and do not make one
    listen that connects ([NetProps.connect_race_strands_port] is what happens
    otherwise): no [Socket] loses the TCP or UDP socket of the stack that it is for,
    the ports of the listening table stay those of the listening sockets, and no handle
    dangles or is held twice.  A socket that gets no descriptor is dropped with its
    call.  Closing a descriptor is not one of these calls; the drop it causes is one of
    the operations of [NetProps.sockets_never_dangle]. *)
Theorem socket_calls_keep_invariant ticks l (w : world) :
  linked (sw_io w) → Forall (λ x, Forall peaceful (ss_rounds x)) l →
  let n' := sw_net (sw_io (run_sock_calls ticks l w)) in
  own_inv n' ∧ (∀ p, is_Some (n_table n' !! p) ↔ ∃ id, listens n' id p) ∧
  net_le (sw_net (sw_io w)) n' ∧ map_Forall (λ _ s, inner_ok n' s) (sw_socks (sw_io (run_sock_calls ticks l w))).
Proof.
  intros Hw Hl n'. assert (linked (sw_io (run_sock_calls ticks l w)) ∧ net_le (sw_net (sw_io w)) n') as [[Hn Hs] Hle].
  { unfold n'. clear n'. revert w Hw. induction Hl as [|x l Hx _ IH]; intros w Hw; [by split|]. cbn [run_sock_calls foldl].
    destruct (keeps_sock_call ticks (ss_now x) (ss_rounds x) Hx (ss_call x) w Hw (Forall_nil_2 _)) as [Hw1 Hl1].
    fold (run_sock_calls ticks l (run (sock_call ticks (ss_now x) (ss_rounds x) (ss_call x)) w).2).
    assert ((run (sock_call ticks (ss_now x) (ss_rounds x) (ss_call x)) w).2 = (sock_call ticks (ss_now x) (ss_rounds x) (ss_call x) w).2)
      as -> by (unfold run; by destruct (sock_call _ _ _ _ _) as [[]]).
    destruct (IH _ Hw1) as [? ?]. split; [done|by etrans]. }
  split; [apply Hn|]. split; [|by split]. intros p. split.
  - intros Hp. by destruct (ni_table _ _ _ Hn p Hp).
  - intros [id Hlp]. by apply (ni_listens _ _ _ Hn id).
Qed.
End any_calls.

(** ** A server *)

Notation sim_world := (sysw (sworld simt simu (list (IpEndpoint * IpEndpoint)) no_files)).
Definition server_proc : sim_world :=
  mk_sysw (mk_sworld server_start ∅ 0 no_file) [] 8
    (store_le (store_bytes (mk_usermem {[ 4096 ]} ∅) 4096 [2; 0; 0; 80; 0; 0; 0; 0]) 4128 4 16).
Definition at_once (c : sockcall) := mk_sock_step (T := simt) (U := simu) (I := list (IpEndpoint * IpEndpoint)) c 0 [idle_round].
Notation sys := (CSyscall false []).
Definition server_calls := at_once <$> [sys SOCKET [2; 1]; sys BIND [0; 4096]; sys LISTEN [0]; sys ACCEPT4 [0; 4112; 4128; 0]; CRead 1 4; sys SHUTDOWN [1; 2]].

Lemma server_linked : linked (sw_io server_proc).
Proof. split; [apply net_init_ninv|]. intros i s Hi. discriminate Hi. Qed.
Lemma idle_peaceful : Forall peaceful [idle_round].
Proof.
  constructor; [|constructor]. split; [|by intros n]. intros id. split; [apply idle_round_ok|]. split; [apply idle_round_ok|]. by intros n Hn.
Qed.
Lemma socket_calls_keep_invariant_witness :
  let w' := run_sock_calls sec server_calls server_proc in
  own_inv (sw_net (sw_io w')) ∧ (∃ id, listens (sw_net (sw_io w')) id 80) ∧ length (sw_table w') = 2%nat.
Proof.
  destruct (socket_calls_keep_invariant sec server_calls server_proc server_linked) as (Ho & Ht & _).
  - unfold server_calls. repeat (constructor; [exact idle_peaceful|]). constructor.
  - split; [exact Ho|]. split; [apply (Ht 80); eexists|]; vm_compute; reflexivity.
Defined.

(** ** What the options and pairs do not do *)

Definition after (l : list sockcall) : sim_world := run_sock_calls sec (at_once <$> l) server_proc.
Definition answer (c : sockcall) (w : sim_world) : sysret := (run (sock_call sec 0 [] c) w).1.
Definition sock0 (w : sim_world) : option Socket := sw_socks (sw_io w) !! 0.

(** A socket that gets no descriptor is gone again, with its handle. *)
Example no_descriptor_no_socket :
  let full := mk_sysw (sw_io server_proc) [] 0 (sw_mem server_proc) in
  let '(r, w) := run (sock_call sec 0 [] (sys SOCKET [2; 2])) full in
  r = SErr EMFILE ∧ map_to_list (n_udp (sw_net (sw_io w))) = [] ∧ map_to_list (n_set (sw_net (sw_io w))) = [].
Proof. by vm_compute. Qed.
(** [SO_KEEPALIVE] overwrites the size of the receive buffer with its flag: here the
    first four bytes at 4098, a port, as the value. *)
Example keepalive_sets_buffer_size :
  let w := after [sys SOCKET [2; 1]; sys SETSOCKOPT [0; 1; 9; 4100; 4]] in
  (so_recv_buf_size <$> sock0 (after [sys SOCKET [2; 1]])) = Some 65536 ∧ (so_recv_buf_size <$> sock0 w) = Some 0.
Proof. by vm_compute. Qed.
(** [SO_DONTROUTE] sets the reuse of addresses, and is not read back. *)
Example dontroute_sets_reuse :
  let w := after [sys SOCKET [2; 1]; sys SETSOCKOPT [0; 1; 5; 4096; 4]] in
  (so_dont_route <$> sock0 w) = Some false ∧ (tcp_reuse <$> n_tcp (sw_net (sw_io w)) !! 0) = Some true.
Proof. by vm_compute. Qed.
(** [SO_RCVTIMEO] answers 0 and sets no timeout. *)
Example rcvtimeo_not_set :
  answer (sys SETSOCKOPT [0; 1; 20; 4096; 16]) (after [sys SOCKET [2; 1]]) = SOk 0 ∧
  sock0 (after [sys SOCKET [2; 1]; sys SETSOCKOPT [0; 1; 20; 4096; 16]]) = sock0 (after [sys SOCKET [2; 1]]).
Proof. by vm_compute. Qed.
(** Reading it back copies fifteen bytes of the stack of the kernel. *)
Example rcvtimeo_leaks_stack :
  load_bytes (sw_mem (after [sys SOCKET [2; 1]; CSyscall false (replicate 15 119) GETSOCKOPT [0; 1; 20; 4112; 4128]])) 4112 16 = 0 :: replicate 15 119.
Proof. by vm_compute. Qed.
(** A socket of the domain [AF_UNIX] has no pipe, and writing to it is a panic. *)
Example unix_socket_panics : answer (CWrite 0 [1]) (after [sys SOCKET [1; 1]]) = SPanic.
Proof. by vm_compute. Qed.
(** The name of an unbound UDP socket is unwrapped for the log. *)
Example recvfrom_unbound_panics : answer (CSyscall true [] RECVFROM [0; 4096; 1; 0; 0; 0]) (after [sys SOCKET [2; 2]]) = SPanic.
Proof. by vm_compute. Qed.
(** A level that is not known panics, and so does an [int] option of two bytes. *)
Example unknown_level_panics : answer (sys SETSOCKOPT [0; 270; 1; 4096; 4]) (after [sys SOCKET [2; 1]]) = SPanic.
Proof. by vm_compute. Qed.
Example short_option_panics : answer (sys SETSOCKOPT [0; 1; 2; 4096; 2]) (after [sys SOCKET [2; 1]]) = SPanic.
Proof. by vm_compute. Qed.
