(* ===== verification/MemCalls.v ===== *)
(** * Memory system calls

    modules/syscall/src/syscall_mem/imp.rs and what of modules/async_mem it needs
    beyond [Memory]: [mremap], the tables of shared memory (lib.rs, shared.rs) and the
    copy of an address space that a fork makes ([clone_alloc] of area.rs,
    [clone_or_err] of lib.rs).

    There are several page tables: the operations of [MemWorld] act on the selected
    one, [PageTables] makes, selects and fills them.  Memory accessed by its virtual
    address is the physical page that the table in use maps there; an access without
    one is a fault in the kernel, a panic.  The global tables of shared memory are
    behind spinning locks: taking one that the caller already holds never ends. *)

From S2P Require Import Prelude BTree Path Vfs RootFs Fops UserMem TimeStat Link FdManager FdCalls Memory.

Open Scope Z_scope.

Class PageTables (W : Type) `{MemWorld W} := {
  pt_try_new : W → outcome (nat * W);
  pt_current : W → nat;
  pt_select : nat → W → W;
  pt_map : Z → Z → Z → W → outcome W;          (** vaddr, paddr, flags; one page *)
  pt_map_fault : Z → Z → W → outcome W;        (** vaddr, flags; one page *)
  va_page : Z → W → option PageRef;            (** the page at an address, in the table in use *)
  global_alloc : Z → W → outcome (Z * W)       (** pages; the physical address *)
}.

(** [MappingFlags]. *)
Definition READ : Z := 1.
Definition WRITE : Z := 2.
Definition EXECUTE : Z := 4.
Definition USER : Z := 8.

Section clone.
Context {W : Type} `{PageTables W}.

(** An operation on the page table [k]. *)
Definition on_table (k : nat) (f : W → outcome W) (w : W) : outcome W :=
  let old := pt_current w in
  w ← f (pt_select k w); Ok (pt_select old w).

(** ** [MapArea::clone_alloc] *)

(** Every page of a shared area that is not there yet. *)
Fixpoint fault_missing (i n : nat) (a : MapArea) (w : W) : outcome (MapArea * W) :=
  match n with
  | O => Ok (a, w)
  | S n =>
      '(a, w) ← (match pages a !! i with
                 | Some None => '(_, a, w) ← handle_page_fault (vaddr a + Z.of_nat i * PAGE_SIZE_4K) 0 a w; Ok (a, w)
                 | _ => Ok (a, w)
                 end);
      fault_missing (S i) n a w
  end.
(** The pages of a shared area in the table [child]. *)
Fixpoint map_shared (child : nat) (va f : Z) (ps : list (option PageRef)) (w : W) : outcome W :=
  match ps with
  | [] => Ok w
  | Some p :: ps =>
      w ← on_table child (λ w, unwrap (pt_map va (page_paddr p w) f w)) w;
      map_shared child (va + PAGE_SIZE_4K) f ps w
  | None :: _ => Panic
  end.
(** Copies of the pages of an area that has some. *)
Fixpoint copy_pages (child : nat) (va f : Z) (ps : list (option PageRef)) (w : W) : outcome (list (option PageRef) * W) :=
  match ps with
  | [] => Ok ([], w)
  | Some p :: ps =>
      '(new, w) ← unwrap (page_alloc w);
      let w := page_set_bytes new (page_bytes p w) w in
      w ← on_table child (λ w, unwrap (pt_map va (page_paddr new w) f w)) w;
      '(ps, w) ← copy_pages child (va + PAGE_SIZE_4K) f ps w;
      Ok (Some new :: ps, w)
  | None :: ps =>
      w ← on_table child (λ w, unwrap (pt_map_fault va f w)) w;
      '(ps, w) ← copy_pages child (va + PAGE_SIZE_4K) f ps w;
      Ok (None :: ps, w)
  end.
(** [as_slice], by the virtual address. *)
Fixpoint as_slice (va : Z) (n : nat) (w : W) : outcome (list Z) :=
  match n with
  | O => Ok []
  | S n =>
      match va_page va w with
      | Some p => bs ← as_slice (va + PAGE_SIZE_4K) n w; Ok (page_bytes p w ++ bs)
      | None => Panic
      end
  end.
Definition clone_backend (b : option MemBackend) : outcome (option MemBackend) :=
  match b with Some b => b ← backend_clone b; Ok (Some b) | None => Ok None end.

(** The copy, and the area itself, which gets its missing pages if it is shared. *)
Definition clone_alloc (child : nat) (a : MapArea) (w : W) : outcome (MapArea * MapArea * W) :=
  if shared a then
    '(a, w) ← fault_missing 0 (length (pages a)) a w;
    w ← map_shared child (vaddr a) (flags a) (pages a) w;
    b ← clone_backend (backend a);
    Ok (with_backend a b, a, w)
  else if allocated a then
    data ← as_slice (vaddr a) (length (pages a)) w;
    b ← clone_backend (backend a);
    let old := pt_current w in
    '(new, w) ← new_alloc (vaddr a) (length (pages a)) (flags a) (Some data) b (pt_select child w);
    Ok (new, a, pt_select old w)
  else
    '(ps, w) ← copy_pages child (vaddr a) (flags a) (pages a) w;
    b ← clone_backend (backend a);
    Ok (with_backend (with_pages a ps) b, a, w).

(** ** [MemorySet::clone_or_err] *)

(** The regions of the kernel: physical address, size, flags. *)
Context (memory_regions : list (Z * Z * Z)) (phys_to_virt : Z → Z).
Fixpoint map_kernel (rs : list (Z * Z * Z)) (w : W) : outcome W :=
  match rs with
  | [] => Ok w
  | (pa, sz, f) :: rs => w ← unwrap (pt_map_region (phys_to_virt pa) pa sz f w); map_kernel rs w
  end.

(** The areas of the parent after the clone, and those of the child. *)
Fixpoint clone_areas (child : nat) (m : list (Z * MapArea)) (new : list (Z * MapArea)) (w : W)
    : outcome (list (Z * MapArea) * list (Z * MapArea) * W) :=
  match m with
  | [] => Ok ([], new, w)
  | (k, a) :: m =>
      '(a', a, w) ← clone_alloc child a w;
      '(m, new, w) ← clone_areas child m (bt_insert k a' new) w;
      Ok ((k, a) :: m, new, w)
  end.
Fixpoint attach_all (child : nat) (l : list (Z * Z * SharedMem)) (ms : MemorySet) (w : W) : outcome (MemorySet * W) :=
  match l with
  | [] => Ok (ms, w)
  | (addr, f, mem) :: l =>
      let old := pt_current w in
      '(ms, w) ← attach_shared_mem mem addr f ms (pt_select child w);
      attach_all child l ms (pt_select old w)
  end.

(** The page table of the child with its memory set, the parent's, the world. *)
Definition clone_or_err (ms : MemorySet) (w : W) : outcome (nat * MemorySet * MemorySet * W) :=
  '(child, w) ← unwrap (pt_try_new w);
  w ← on_table child (map_kernel memory_regions) w;
  '(m, new, w) ← clone_areas child (owned_mem ms) [] w;
  let ms' := {| owned_mem := new; private_mem := private_mem ms; attached_mem := [] |} in
  '(ms', w) ← attach_all child (attached_mem ms) ms' w;
  Ok (child, ms', with_owned ms m, w).

(** Dropping a memory set. *)
Definition drop_memory_set (ms : MemorySet) (w : W) : outcome W := '(_, w) ← unmap_user_areas ms w; Ok w.

(** ** [MemorySet::mremap] *)

Context (user_memory_start : Z).

(** Copying the pages that are there, [n] of them from [addr], to where they have
    moved; [false] is the answer -1. *)
Fixpoint move_pages (n : nat) (addr dest : Z) (ms : MemorySet) (w : W) : outcome (bool * MemorySet * W) :=
  match n with
  | O => Ok (true, ms, w)
  | S n =>
      match check_page_table_entry_validity addr w with
      | inl _ =>
          '(ms, w) ← (match manual_alloc_for_lazy dest ms w with
                      | (Ok _, ms, w) =>
                          match va_page addr w, va_page dest w with
                          | Some p, Some q => Ok (ms, page_set_bytes q (page_bytes p w) w)
                          | _, _ => Panic
                          end
                      | (Err _, ms, w) => Ok (ms, w)
                      | (Panic, _, _) => Panic
                      end);
          move_pages n (addr + PAGE_SIZE_4K) (dest + PAGE_SIZE_4K) ms w
      | inr PagingNotMapped => move_pages n (addr + PAGE_SIZE_4K) (dest + PAGE_SIZE_4K) ms w
      | inr PagingNoMemory => Ok (false, ms, w)
      end
  end.

(** The number of pages [(start..=end).step_by(PAGE_SIZE_4K)] goes through. *)
Definition pages_between (start end_ : Z) : nat := Z.to_nat ((end_ - start) / PAGE_SIZE_4K + 1).

Definition mremap (old_start old_size new_size : Z) (ms : MemorySet) (w : W) : outcome (Z * MemorySet * W) :=
  match find_free_area user_memory_start old_start new_size ms with
  | None => Ok (-1, ms, w)
  | Some start =>
      let old_page_start := align_down_4k old_start in
      let old_page_end := align_down_4k (wrap64 (old_start + old_size - 1)) in
      '(ms, w) ← new_region start new_size false (Z.lor USER (Z.lor READ WRITE)) None None ms w;
      _ ← rassert (is_aligned_4k (wrap64 (start + new_size)));
      '(moved, ms, w) ← move_pages (pages_between old_page_start old_page_end) old_page_start start ms w;
      if moved : bool then '(ms, w) ← munmap old_start old_size ms w; Ok (start, ms, w) else Ok (-1, ms, w)
  end.
End clone.

(** ** The tables of shared memory *)

Record shm_tables := mk_shm { SHMID : Z; KEY_TO_SHMID : gmap Z Z; SHARED_MEMS : gmap Z SharedMem }.

(** What the calls work on: the address space, its page table among the others, the
    heap and the identity of the process, and the global tables. *)
Record memw (W : Type) := mk_memw {
  mw_set : MemorySet; mw_pt : W; mw_heap_bottom : Z; mw_heap_top : Z; mw_pid : Z; mw_shm : shm_tables
}.
Arguments mk_memw {W}.
Arguments mw_set {W}.
Arguments mw_pt {W}.
Arguments mw_heap_bottom {W}.
Arguments mw_heap_top {W}.
Arguments mw_pid {W}.
Arguments mw_shm {W}.

(** ** Flags *)

Definition truncate_bits (known v : Z) : Z := Z.land v known.
Definition from_bits (known v : Z) : option Z := if decide (Z.land v known = v) then Some v else None.

Definition PROT_READ : Z := 1.
Definition PROT_WRITE : Z := 2.
Definition PROT_EXEC : Z := 4.
Definition MMAPPROT_ALL : Z := 7.
Definition mapping_flags_from (prot : Z) : Z :=
  let f := USER in
  let f := if flags_contains prot PROT_READ then Z.lor f READ else f in
  let f := if flags_contains prot PROT_WRITE then Z.lor f WRITE else f in
  if flags_contains prot PROT_EXEC then Z.lor f EXECUTE else f.

Definition MAP_SHARED : Z := 1.
Definition MAP_PRIVATE : Z := 2.
Definition MAP_FIXED : Z := 16.
Definition MAP_ANONYMOUS : Z := 32.
Definition MMAPFLAGS_ALL : Z := 147507.
Definition MREMAP_MAYMOVE : Z := 1.
Definition MREMAP_FIXED : Z := 2.
Definition MREMAP_DONTUNMAP : Z := 4.

Definition IPC_PRIVATE : Z := 0.
Definition IPC_CREAT : Z := 512.
Definition IPC_EXCL : Z := 1024.
Definition SHMFLAGS_ALL : Z := 7680.
Definition SHM_RND : Z := 8192.
Definition SHM_EXEC : Z := 32768.
Definition SHM_RDONLY : Z := 4096.
Definition SHM_REMAP : Z := 16384.
Definition SHMATFLAGS_ALL : Z := 61440.
Definition MAX_HEAP_SIZE : Z := 131072.

Definition align_up_4k (x : Z) : Z := align_down_4k (wrap64 (x + PAGE_SIZE_4K - 1)).

Section calls.
Context {W : Type} `{PageTables W}.
Context (user_memory_start now_secs : Z).
(** [downcast_ref::<FileDesc>] and its file, of an object behind a descriptor. *)
Context (file_of : Z → option MemBackend).
Notation mcall := (call (memw W)).

Definition with_set (ms : MemorySet) (w : W) (x : memw W) : memw W :=
  mk_memw ms w (mw_heap_bottom x) (mw_heap_top x) (mw_pid x) (mw_shm x).
Definition set_heap_top (top : Z) (x : memw W) : memw W :=
  mk_memw (mw_set x) (mw_pt x) (mw_heap_bottom x) top (mw_pid x) (mw_shm x).
Definition set_shm (s : shm_tables) (x : memw W) : memw W :=
  mk_memw (mw_set x) (mw_pt x) (mw_heap_bottom x) (mw_heap_top x) (mw_pid x) s.

(** An operation on the address space; its panics end the call. *)
Definition on_set {A} (f : MemorySet → W → outcome (A * MemorySet * W)) : mcall (A + AxError) :=
  r ← in_io (λ x, match f (mw_set x) (mw_pt x) with
                  | Ok (a, ms, w) => (Ok a, with_set ms w x)
                  | Err e => (Err e, x)
                  | Panic => (Panic, x)
                  end);
  match r return mcall (A + AxError) with Ok a => mret (inl a) | Err e => mret (inr e) | Panic => panic end.
Definition on_set_unit (f : MemorySet → W → outcome (MemorySet * W)) : mcall unit :=
  _ ← on_set (λ ms w, '(ms, w) ← f ms w; Ok ((), ms, w)); mret ().
Definition of_io {A} (f : memw W → A) : mcall A := reads (λ w, f (sw_io w)).

(** ** Calls on mappings *)

Definition syscall_brk (brk : Z) : mcall Z :=
  top ← of_io mw_heap_top;
  bottom ← of_io mw_heap_bottom;
  if decide (brk ≠ 0 ∧ bottom ≤ brk ∧ brk ≤ bottom + MAX_HEAP_SIZE) then
    _ ← in_io (λ x, ((), set_heap_top brk x)); mret brk
  else mret top.

(** The file of a mapping, with the position where it starts. *)
Definition mmap_file (fd offset : Z) : mcall MemBackend :=
  t ← reads sw_table;
  if decide (Z.of_nat (length t) ≤ fd ∨ fd < 0) then fail EINVAL
  else
    match t !! Z.to_nat fd with
    | Some (Some f) => match file_of f with Some b => mret (backend_at b offset) | None => panic end
    | _ => fail EINVAL
    end.
Definition mmap_result (r : Z + AxError) : mcall Z :=
  match r with inl addr => mret addr | inr NoMemory => fail ENOMEM | inr _ => fail EINVAL end.
Definition syscall_mmap (start len prot flags fd offset : Z) : mcall Z :=
  let prot := mapping_flags_from (truncate_bits MMAPPROT_ALL (wrap32 prot)) in
  let flags := truncate_bits MMAPFLAGS_ALL (wrap32 flags) in
  let fixed := flags_contains flags MAP_FIXED in
  let shared := flags_contains flags MAP_SHARED in
  _ ← check (negb (fixed && bool_decide (start = 0))) EINVAL;
  r ← (if flags_contains flags MAP_ANONYMOUS then
         _ ← check (bool_decide (offset = 0)) EINVAL;
         on_set (mmap user_memory_start start len prot shared fixed None)
       else
         b ← mmap_file (as_i32 fd) offset;
         on_set (mmap user_memory_start start len prot shared fixed (Some b)));
  mmap_result r.

Definition syscall_munmap (start len : Z) : mcall Z := _ ← on_set_unit (munmap start len); mret 0.
Definition syscall_msync (start len : Z) : mcall Z := _ ← on_set_unit (msync start len); mret 0.
Definition syscall_mprotect (start len prot : Z) : mcall Z :=
  _ ← on_set_unit (mprotect start len (mapping_flags_from (truncate_bits MMAPPROT_ALL (wrap32 prot)))); mret 0.

Definition syscall_mremap (old_addr old_size new_size flags new_addr : Z) : mcall Z :=
  _ ← check (is_aligned_4k old_addr && negb (bool_decide (new_size = 0))) EINVAL;
  _ ← check (bool_decide (wrap64 (new_addr + new_size) ≤ old_addr ∨ wrap64 (old_addr + old_size) ≤ new_addr)) EINVAL;
  let flags := truncate_bits 7 (wrap32 flags) in
  let maymove := flags_contains flags MREMAP_MAYMOVE in
  let fixed := flags_contains flags MREMAP_FIXED in
  let dontunmap := flags_contains flags MREMAP_DONTUNMAP in
  _ ← check (negb (fixed && negb maymove)) EINVAL;
  _ ← check (negb (dontunmap && negb maymove)) EINVAL;
  _ ← check (negb (dontunmap && negb (bool_decide (old_size = new_size)))) EINVAL;
  _ ← check (negb (bool_decide (old_size = 0) && negb maymove)) EINVAL;
  if fixed then panic
  else if decide (new_size < old_size) then
    _ ← on_set_unit (munmap (wrap64 (old_addr + new_size)) (old_size - new_size)); mret old_addr
  else
    r ← on_set (mremap user_memory_start old_addr old_size new_size);
    match r with inl addr => mret addr | inr _ => panic end.

(** ** Shared memory *)

(** [SharedMem::try_new]. *)
Definition new_shared_mem (key size pid uid gid mode : Z) (w : W) : outcome (SharedMem * W) :=
  let num_pages := page_count size in
  '(paddr, w) ← global_alloc num_pages w;
  let size := num_pages * PAGE_SIZE_4K in
  Ok ({| sm_paddr := paddr; sm_size := size;
         sm_info := {| info_perm := {| perm_key := key; perm_uid := uid; perm_gid := gid; perm_cuid := uid;
                                       perm_cgid := gid; perm_mode := mode |};
                       info_size := size; a_time := 0; d_time := 0; c_time := now_secs; c_pid := pid; l_pid := 0 |} |}, w).

(** [held] is whether the caller holds the lock of the keys. *)
Definition create_shared_mem (held : bool) (key size pid mode : Z) : mcall ((Z * SharedMem) + AxError) :=
  if held then λ w, (inr SHang, w)
  else
    s ← of_io mw_shm;
    let shmid := SHMID s in
    _ ← in_io (λ x, ((), set_shm (mk_shm (as_i32 (shmid + 1)) (<[key := shmid]> (KEY_TO_SHMID s)) (SHARED_MEMS s)) x));
    r ← in_io (λ x, match new_shared_mem key size pid 0 0 mode (mw_pt x) with
                    | Ok (m, w) => (Ok m, with_set (mw_set x) w x)
                    | Err e => (Err e, x)
                    | Panic => (Panic, x)
                    end);
    match r return mcall ((Z * SharedMem) + AxError) with
    | Ok m => mret (inl (shmid, m)) | Err e => mret (inr e) | Panic => panic
    end.
Definition add_shared_mem (shmid : Z) (m : SharedMem) : mcall unit :=
  s ← of_io mw_shm;
  match SHARED_MEMS s !! shmid with
  | Some _ => panic
  | None => in_io (λ x, ((), set_shm (mk_shm (SHMID s) (KEY_TO_SHMID s) (<[shmid := m]> (SHARED_MEMS s))) x))
  end.
Definition add_private_shared_mem (shmid : Z) (m : SharedMem) : mcall unit :=
  ms ← of_io mw_set;
  if bt_contains_key shmid (private_mem ms) then panic
  else in_io (λ x, ((), with_set {| owned_mem := owned_mem ms; private_mem := bt_insert shmid m (private_mem ms);
                                    attached_mem := attached_mem ms |} (mw_pt x) x)).

Definition syscall_shmget (key size flags : Z) : mcall Z :=
  let key := as_i32 key in
  let flags := as_i32 flags in
  pid ← of_io mw_pid;
  let mode := Z.land flags 1023 in
  match from_bits SHMFLAGS_ALL (flags - mode) with
  | None => fail EINVAL
  | Some flags =>
      if decide (key = IPC_PRIVATE) then
        r ← create_shared_mem false key size pid mode;
        match r with
        | inl (shmid, m) => _ ← add_private_shared_mem shmid m; mret shmid
        | inr _ => fail EINVAL
        end
      else
        s ← of_io mw_shm;
        match KEY_TO_SHMID s !! key with
        | Some shmid =>
            if flags_contains flags IPC_CREAT && flags_contains flags IPC_EXCL then fail EEXIST else mret shmid
        | None =>
            if flags_contains flags IPC_CREAT then
              r ← create_shared_mem true key size pid mode;
              match r with
              | inl (shmid, m) =>
                  _ ← in_io (λ x, ((), let s := mw_shm x in
                                       set_shm (mk_shm (SHMID s) (<[key := shmid]> (KEY_TO_SHMID s)) (SHARED_MEMS s)) x));
                  _ ← add_shared_mem shmid m;
                  mret shmid
              | inr _ => fail EINVAL
              end
            else fail ENOENT
        end
  end.

(** Where a segment goes. *)
Definition shmat_address (addr size flags : Z) : mcall Z :=
  if decide (addr = 0) then
    ms ← of_io mw_set;
    match find_free_area user_memory_start addr size ms with Some addr => mret addr | None => fail ENOMEM end
  else
    addr ← (if is_aligned_4k addr then mret addr
            else if flags_contains flags SHM_RND then mret (align_up_4k addr) else fail EINVAL);
    if flags_contains flags SHM_REMAP then _ ← on_set_unit (split_for_area addr size); mret addr else panic.
Definition shmat_flags (flags : Z) : Z :=
  let f := if flags_contains flags SHM_RDONLY then Z.lor USER READ else Z.lor USER (Z.lor READ WRITE) in
  if flags_contains flags SHM_EXEC then Z.lor f EXECUTE else f.
Definition syscall_shmat (shmid addr flags : Z) : mcall Z :=
  let shmid := as_i32 shmid in
  match from_bits SHMATFLAGS_ALL (as_i32 flags) with
  | None => panic
  | Some flags =>
      ms ← of_io mw_set;
      s ← of_io mw_shm;
      let private := bt_get shmid (private_mem ms) in
      match match private with Some m => Some m | None => SHARED_MEMS s !! shmid end with
      | None => fail EINVAL
      | Some m =>
          addr ← shmat_address addr (sm_size m) flags;
          _ ← on_set_unit (attach_shared_mem m addr (shmat_flags flags));
          mret addr
      end
  end.

(** ** The dispatch, with the numbers of riscv64 *)

Inductive MemSyscallId := SHMGET | SHMCTL | SHMAT | BRK | MUNMAP | MREMAP | MMAP | MSYNC | MPROTECT | MEMBARRIER.
Definition mem_syscall_try_from (id : Z) : option MemSyscallId :=
  match id with
  | 194 => Some SHMGET | 195 => Some SHMCTL | 196 => Some SHMAT | 214 => Some BRK | 215 => Some MUNMAP
  | 216 => Some MREMAP | 222 => Some MMAP | 227 => Some MSYNC | 226 => Some MPROTECT | 283 => Some MEMBARRIER
  | _ => None
  end.
Definition mem_syscall (id : MemSyscallId) (args : list Z) : mcall Z :=
  let arg i := nth i args 0 in
  match id with
  | BRK => syscall_brk (arg 0%nat)
  | MUNMAP => syscall_munmap (arg 0%nat) (arg 1%nat)
  | MREMAP => syscall_mremap (arg 0%nat) (arg 1%nat) (arg 2%nat) (arg 3%nat) (arg 4%nat)
  | MMAP => syscall_mmap (arg 0%nat) (arg 1%nat) (arg 2%nat) (arg 3%nat) (arg 4%nat) (arg 5%nat)
  | MSYNC => syscall_msync (arg 0%nat) (arg 1%nat)
  | MPROTECT => syscall_mprotect (arg 0%nat) (arg 1%nat) (arg 2%nat)
  | MEMBARRIER | SHMCTL => mret 0
  | SHMGET => syscall_shmget (arg 0%nat) (arg 1%nat) (arg 2%nat)
  | SHMAT => syscall_shmat (arg 0%nat) (arg 1%nat) (arg 2%nat)
  end.
End calls.
