(* ===== verification/MemCallsProps.v ===== *)
(** * What the memory calls promise

    Any sequence of calls with page-aligned addresses keeps the address space, the
    attached segments and the heap well formed and never panics, whatever the calls
    answer; and what the calls do not do. *)

From S2P Require Import Prelude BTree Path Vfs RootFs Fops UserMem TimeStat Link FdManager FdCalls Memory MemoryProps MemorySpec MemCalls.

Open Scope Z_scope.

(** What mapping a region of the page table and allocating a segment promise. *)
Class ShmLaws (W : Type) `{MemWorldLaws W, !PageTables W} := {
  law_map_region : ∀ va pa sz f w,
    va mod PAGE_SIZE_4K = 0 → sz mod PAGE_SIZE_4K = 0 → 0 ≤ sz →
    (∀ p, p mod PAGE_SIZE_4K = 0 → va ≤ p < va + sz → pt_flags w p = None) →
    ∃ w', pt_map_region va pa sz f w = Ok w' ∧
      ∀ p, p mod PAGE_SIZE_4K = 0 →
        pt_flags w' p = if decide (va ≤ p < va + sz) then Some f else pt_flags w p;
  law_global_alloc : ∀ n w, global_alloc n w ≠ Panic ∧
    ∀ pa w', global_alloc n w = Ok (pa, w') → ∀ p, pt_flags w' p = pt_flags w p
}.

Section calls.
Context {W : Type} `{ShmLaws W}.
Context (user_memory_start now_secs : Z) (file_of : Z → option MemBackend).
Context (Hums : 0 ≤ user_memory_start < 2 ^ 63 ∧ user_memory_start mod PAGE_SIZE_4K = 0).
(** The pages of user space that the kernel maps without an area of the set: the page of
    the signal trampoline. *)
Context (T : Z → Prop).
Notation mcall := (call (memw W)).
Notation world := (sysw (memw W)).

(** ** The invariant *)

Definition segment_ok (m : SharedMem) : Prop :=
  0 < sm_size m < 2 ^ 62 ∧ sm_size m mod PAGE_SIZE_4K = 0.

Record mem_ok (R : Z → Prop) (x : memw W) : Prop := {
  mo_wf : ms_wf R (mw_set x) (mw_pt x);
  mo_att : attached_ok T R (mw_set x);
  mo_heap : mw_heap_bottom x ≤ mw_heap_top x ≤ mw_heap_bottom x + MAX_HEAP_SIZE;
  mo_id : 0 ≤ SHMID (mw_shm x);
  mo_private k m : bt_get k (private_mem (mw_set x)) = Some m → k < SHMID (mw_shm x) ∧ segment_ok m;
  mo_sorted : bt_sorted (private_mem (mw_set x));
  mo_shared k m : SHARED_MEMS (mw_shm x) !! k = Some m → segment_ok m
}.

(** A call that answers and leaves a well-formed process, with its reserved pages. *)
Definition answers {A} (m : mcall A) (w : world) (Q : A → world → Prop) : Prop :=
  match m w with
  | (inl a, w') => Q a w'
  | (inr r, w') => returned r = true ∧ ∃ R, mem_ok R (sw_io w')
  end.
Lemma answers_bind {A B} (m : mcall A) (f : A → mcall B) w Q :
  answers m w (λ a w', answers (f a) w' Q) → answers (m ≫= f) w Q.
Proof. unfold answers, mbind, call_bind. by destruct (m w) as [[a|r] w']. Qed.
Lemma answers_mono {A} (m : mcall A) w (Q Q' : A → world → Prop) :
  answers m w Q → (∀ a w', Q a w' → Q' a w') → answers m w Q'.
Proof. unfold answers. intros Hm HQ. destruct (m w) as [[a|r] w']; [by apply HQ|done]. Qed.
Lemma answers_ret {A} (a : A) w (Q : A → world → Prop) : Q a w → answers (mret a) w Q.
Proof. done. Qed.
Lemma answers_reads {A} (f : world → A) w (Q : A → world → Prop) : Q (f w) w → answers (reads f) w Q.
Proof. done. Qed.
Lemma answers_io {A} (f : memw W → A * memw W) w (Q : A → world → Prop) :
  (∀ a x, f (sw_io w) = (a, x) → Q a (mk_sysw x (sw_table w) (sw_limit w) (sw_mem w))) → answers (in_io f) w Q.
Proof. intros HQ. unfold answers, in_io. destruct (f (sw_io w)) as [a x]. by apply HQ. Qed.
Lemma answers_fail {A} e w (Q : A → world → Prop) R : mem_ok R (sw_io w) → answers (fail e) w Q.
Proof. intros Hx. split; [done|by exists R]. Qed.
Lemma answers_check b e w (Q : unit → world → Prop) R :
  mem_ok R (sw_io w) → (b = true → Q () w) → answers (check b e) w Q.
Proof. intros Hx HQ. unfold check. destruct b; [by apply HQ|by apply (answers_fail _ _ _ R)]. Qed.

(** An operation that succeeds. *)
Lemma answers_set_ok {A} (f : MemorySet → W → outcome (A * MemorySet * W)) a ms' pt' w (Q : A + AxError → world → Prop) :
  f (mw_set (sw_io w)) (mw_pt (sw_io w)) = Ok (a, ms', pt') →
  Q (inl a) (mk_sysw (with_set ms' pt' (sw_io w)) (sw_table w) (sw_limit w) (sw_mem w)) → answers (on_set f) w Q.
Proof. intros E HQ. unfold answers, on_set, in_io, mbind, call_bind. by rewrite E. Qed.
Lemma answers_set_err {A} (f : MemorySet → W → outcome (A * MemorySet * W)) e w (Q : A + AxError → world → Prop) :
  f (mw_set (sw_io w)) (mw_pt (sw_io w)) = Err e → Q (inr e) w → answers (on_set f) w Q.
Proof. intros E HQ. unfold answers, on_set, in_io, mbind, call_bind. rewrite E. by destruct w. Qed.
Lemma answers_set_unit f ms' pt' w (Q : unit → world → Prop) :
  f (mw_set (sw_io w)) (mw_pt (sw_io w)) = Ok (ms', pt') →
  Q () (mk_sysw (with_set ms' pt' (sw_io w)) (sw_table w) (sw_limit w) (sw_mem w)) → answers (on_set_unit f) w Q.
Proof. intros E HQ. apply answers_bind. eapply answers_set_ok; [by rewrite E|]. exact HQ. Qed.

(** A change of the owned areas only. *)
Lemma mem_ok_areas R x ms' pt' :
  mem_ok R x → ms_wf R ms' pt' → attached_mem ms' = attached_mem (mw_set x) → private_mem ms' = private_mem (mw_set x) →
  mem_ok R (with_set ms' pt' x).
Proof.
  intros [Hwf Hatt Hh Hi Hp Hs Hm] Hwf' Ea Ep. split; cbn; rewrite ?Ep; try done.
  destruct Hatt as [[] ?]. split; [split|]; rewrite ?Ea; done.
Qed.

Lemma split_for_area_others start sz ms (w : W) ms' w' :
  split_for_area start sz ms w = Ok (ms', w') → attached_mem ms' = attached_mem ms ∧ private_mem ms' = private_mem ms.
Proof.
  unfold split_for_area. destruct (rassert _); cbn; [|done..]. destruct (drain_overlap _ _ _ _ _) as [ov prev].
  destruct (for_areas _ ov prev w) as [[m w1]|e|]; [|done..]. by intros [= <- <-].
Qed.
Lemma mprotect_others start sz f ms (w : W) ms' w' :
  mprotect start sz f ms w = Ok (ms', w') → attached_mem ms' = attached_mem ms ∧ private_mem ms' = private_mem ms.
Proof.
  unfold mprotect. destruct (rassert _); cbn; [|done..]. destruct (drain_overlap _ _ _ _ _) as [ov prev].
  destruct (for_areas _ ov prev w) as [[m w1]|e|]; [|done..]. by intros [= <- <-].
Qed.
Lemma new_region_others va sz sh f d b ms (w : W) ms' w' :
  new_region va sz sh f d b ms w = Ok (ms', w') → attached_mem ms' = attached_mem ms ∧ private_mem ms' = private_mem ms.
Proof.
  unfold new_region. destruct (match d with Some _ => _ | None => _ end) as [[a w1]|e|]; cbn; [|done..].
  destruct (insert_new _ _) as [m|e|]; cbn; [|done..]. by intros [= <- <-].
Qed.
Lemma mmap_others st sz f sh fixed b ms (w : W) r ms' w' :
  mmap user_memory_start st sz f sh fixed b ms w = Ok (r, ms', w') →
  attached_mem ms' = attached_mem ms ∧ private_mem ms' = private_mem ms.
Proof.
  unfold mmap. destruct fixed.
  - intros ([ms1 w1] & E1 & ([ms2 w2] & E2 & [= _ <- <-])%bind_Ok_inv)%bind_Ok_inv.
    apply split_for_area_others in E1 as [<- <-]. by eapply new_region_others.
  - destruct (find_free_area _ _ _ ms); [|done].
    intros ([ms2 w2] & E2 & [= _ <- <-])%bind_Ok_inv. by eapply new_region_others.
Qed.

(** ** Each call *)

(** A range that starts on a page, of user space. *)
Definition page_range (start len : Z) : Prop :=
  start mod PAGE_SIZE_4K = 0 ∧ 0 ≤ start ∧ 0 < len ∧ start + len + 2 * PAGE_SIZE_4K < 2 ^ 63.
(** The segment with an id: one of the process or one with a key. *)
Definition sm_of (shmid : Z) (w : world) : option SharedMem :=
  match bt_get (as_i32 shmid) (private_mem (mw_set (sw_io w))) with
  | Some m => Some m
  | None => SHARED_MEMS (mw_shm (sw_io w)) !! as_i32 shmid
  end.
(** The gap that a search finds, if any, is clear of the trampoline, of which it does not
    know. *)
Definition gap_clear (hint sz : Z) (w : world) : Prop :=
  ∀ r, find_free_area user_memory_start hint sz (mw_set (sw_io w)) = Some r → ∀ p, r ≤ p < r + sz → ¬ T p.
Definition keeps_mem (m : mcall Z) (w : world) : Prop := answers m w (λ _ w', ∃ R, mem_ok R (sw_io w')).

Lemma keeps_brk R brk w : mem_ok R (sw_io w) → keeps_mem (syscall_brk brk) w.
Proof.
  intros Hx. unfold keeps_mem, syscall_brk, of_io. apply answers_bind, answers_reads, answers_bind, answers_reads. case_decide as Hb.
  - apply answers_bind, answers_io. intros [] x [= <-]. apply answers_ret. exists R. destruct Hx. split; cbn; try done. lia.
  - apply answers_ret. by exists R.
Qed.

Lemma split_keeps R start sz w :
  mem_ok R (sw_io w) → start mod PAGE_SIZE_4K = 0 → sz mod PAGE_SIZE_4K = 0 → 0 ≤ start → 0 < sz → start + sz < two64 →
  answers (on_set_unit (split_for_area start sz)) w (λ _ w', mem_ok R (sw_io w')).
Proof.
  intros Hx Hal Hsz Hge Hpos Hlt.
  destruct (split_for_area_ok R (mw_set (sw_io w)) (mw_pt (sw_io w)) start sz (mo_wf _ _ Hx)) as (ms' & w' & E & Hwf & _); try done.
  eapply answers_set_unit; [exact E|]. cbn. destruct (split_for_area_others _ _ _ _ _ _ E). by apply mem_ok_areas.
Qed.
Lemma munmap_keeps R start sz w :
  mem_ok R (sw_io w) → start mod PAGE_SIZE_4K = 0 → 0 ≤ start → 0 < sz → start + sz + 2 * PAGE_SIZE_4K < two64 →
  answers (on_set_unit (munmap start sz)) w (λ _ w', mem_ok R (sw_io w')).
Proof.
  intros Hx Hal Hge Hpos Hlt. unfold PAGE_SIZE_4K in Hlt. destruct (align_up_ok sz) as [Hm Hr]; [done|unfold PAGE_SIZE_4K; lia|].
  unfold PAGE_SIZE_4K in Hr. unfold munmap. apply split_keeps; [done..|lia|lia].
Qed.
(** After an operation that keeps the space, a call that answers. *)
Lemma keeps_after {A} R (m : mcall A) (f : A → mcall Z) w :
  answers m w (λ _ w', mem_ok R (sw_io w')) →
  (∀ a w', mem_ok R (sw_io w') → keeps_mem (f a) w') → keeps_mem (m ≫= f) w.
Proof. intros Hm Hf. apply answers_bind, (answers_mono _ _ _ _ Hm). exact Hf. Qed.
Lemma keeps_answer R (z : Z) w : mem_ok R (sw_io w) → keeps_mem (mret z) w.
Proof. intros Hx. by exists R. Qed.
Lemma keeps_fail R e w : mem_ok R (sw_io w) → keeps_mem (fail e) w.
Proof. apply answers_fail. Qed.
Lemma keeps_check R b e (f : unit → mcall Z) w :
  mem_ok R (sw_io w) → (b = true → keeps_mem (f ()) w) → keeps_mem (check b e ≫= f) w.
Proof. intros Hx Hf. apply answers_bind, (answers_check _ _ _ _ R); [done|exact Hf]. Qed.

Lemma keeps_munmap R start len w : mem_ok R (sw_io w) → page_range start len → keeps_mem (syscall_munmap start len) w.
Proof.
  intros Hx (Hal & Hge & Hpos & Hlt). apply (keeps_after R); [apply munmap_keeps; try done; unfold two64; lia|].
  intros _ w' Hw. by apply (keeps_answer R).
Qed.
Lemma keeps_mprotect R start len prot w :
  mem_ok R (sw_io w) → page_range start len → len mod PAGE_SIZE_4K = 0 → keeps_mem (syscall_mprotect start len prot) w.
Proof.
  intros Hx (Hal & Hge & Hpos & Hlt) Hl. apply (keeps_after R).
  - destruct (mprotect_ok R (mw_set (sw_io w)) (mw_pt (sw_io w)) start len
      (mapping_flags_from (truncate_bits MMAPPROT_ALL (wrap32 prot))) (mo_wf _ _ Hx)) as (ms' & w' & E & Hwf & _);
      try done; [unfold two64, PAGE_SIZE_4K in *; lia|].
    eapply answers_set_unit; [exact E|]. cbn. destruct (mprotect_others _ _ _ _ _ _ _ E). by apply mem_ok_areas.
  - intros _ w' Hw. by apply (keeps_answer R).
Qed.

Lemma mmap_keeps R start len f sh fixed b w :
  mem_ok R (sw_io w) → page_range start len →
  (∀ bk, b = Some bk → backend_ok bk (align_up_size len)) →
  (fixed = true → ∀ p, start ≤ p < start + align_up_size len → ¬ R p) →
  (fixed = false → gap_clear start (align_up_size len) w) →
  answers (on_set (mmap user_memory_start start len f sh fixed b)) w (λ _ w', mem_ok R (sw_io w')).
Proof.
  intros Hx (Hal & Hge & Hpos & Hlt) Hb HR HT. pose proof (mo_wf _ _ Hx) as Hwf.
  destruct (align_up_ok len) as [Hm Hr]; [done|unfold two64, PAGE_SIZE_4K in *; lia|].
  assert (start + align_up_size len < 2 ^ 63) by (unfold PAGE_SIZE_4K in *; lia).
  assert (len < 2 ^ 63) by (unfold PAGE_SIZE_4K in *; lia). destruct fixed.
  - destruct (mmap_fixed_ok R _ _ user_memory_start start len f sh b Hwf) as (ms' & w' & E & Hwf' & _); try done; [by apply HR|].
    eapply answers_set_ok; [exact E|]. cbn. destruct (mmap_others _ _ _ _ _ _ _ _ _ _ _ E). by apply mem_ok_areas.
  - destruct (mmap_anywhere_ok T R (mw_set (sw_io w)) (mw_pt (sw_io w)) user_memory_start start len f sh b)
      as [E|(r & ms' & w' & E & Hwf' & _)]; try done; [apply Hx|by apply HT|lia|apply Hums|apply Hums|lia|..].
    + by eapply answers_set_err.
    + eapply answers_set_ok; [exact E|]. cbn. destruct (mmap_others _ _ _ _ _ _ _ _ _ _ _ E). by apply mem_ok_areas.
Qed.
Lemma mmap_result_keeps R r w : mem_ok R (sw_io w) → keeps_mem (mmap_result r) w.
Proof. intros Hx. destruct r as [a|[]]; first [by apply (keeps_answer R)|by apply (keeps_fail R)]. Qed.

(** The files a process may map. *)
Definition mappable (table : fdtable) (fd off len : Z) : Prop :=
  0 ≤ off ∧ off + len + PAGE_SIZE_4K < 2 ^ 63 ∧
  ∀ f, table !! Z.to_nat fd = Some (Some f) → ∃ b, file_of f = Some b ∧ b_is_file b = true.

Lemma mmap_file_keeps R fd off len w :
  mem_ok R (sw_io w) → 0 < len → mappable (sw_table w) fd off len →
  answers (mmap_file file_of fd off) w (λ b w', w' = w ∧ backend_ok b (align_up_size len)).
Proof.
  intros Hx Hpos (Ho & Hlt & Hf). unfold mmap_file. apply answers_bind, answers_reads.
  case_decide; [by apply (answers_fail _ _ _ R)|].
  destruct (sw_table w !! Z.to_nat fd) as [[f|]|]; [|by apply (answers_fail _ _ _ R)..].
  destruct (Hf f eq_refl) as (b & -> & Hb). apply answers_ret. split; [done|].
  destruct (align_up_ok len) as [_ Hr]; [done|unfold two64, PAGE_SIZE_4K in *; lia|]. by split; cbn; [..|lia].
Qed.
Lemma keeps_mmap R start len prot flags fd off w :
  mem_ok R (sw_io w) → page_range start len → mappable (sw_table w) (as_i32 fd) off len →
  (flags_contains (truncate_bits MMAPFLAGS_ALL (wrap32 flags)) MAP_FIXED = true →
     ∀ p, start ≤ p < start + align_up_size len → ¬ R p) →
  (flags_contains (truncate_bits MMAPFLAGS_ALL (wrap32 flags)) MAP_FIXED = false → gap_clear start (align_up_size len) w) →
  keeps_mem (syscall_mmap user_memory_start file_of start len prot flags fd off) w.
Proof.
  intros Hx Hr Hf HR HT. unfold syscall_mmap. apply (keeps_check R); [done|intros _].
  assert (∀ r w', mem_ok R (sw_io w') → keeps_mem (mmap_result r) w') as Hres by (intros; by apply (mmap_result_keeps R)).
  case_match; apply answers_bind.
  - apply answers_bind, (answers_check _ _ _ _ R); [done|intros _].
    eapply answers_mono; [by apply mmap_keeps|]. intros r w' Hw'. by apply Hres.
  - apply answers_bind. eapply answers_mono; [apply (mmap_file_keeps R _ _ len); [done|apply Hr|done]|].
    intros b w' [-> Hb]. eapply answers_mono; [apply mmap_keeps; [done..|by intros ? [= <-]|done|done]|].
    intros r w' Hw'. by apply Hres.
Qed.

Lemma keeps_mremap R old_addr old_size new_size flags new_addr w :
  mem_ok R (sw_io w) → page_range old_addr old_size → new_size < old_size → 0 ≤ new_size → new_size mod PAGE_SIZE_4K = 0 →
  flags_contains (truncate_bits 7 (wrap32 flags)) MREMAP_FIXED = false →
  keeps_mem (syscall_mremap user_memory_start old_addr old_size new_size flags new_addr) w.
Proof.
  intros Hx (Hal & Hge & Hpos & Hlt) Hn Hn0 Hna Hfix. unfold syscall_mremap. rewrite Hfix.
  do 6 (apply (keeps_check R); [done|intros _]). rewrite decide_True by done.
  rewrite wrap64_small by (unfold is_u64, two64, PAGE_SIZE_4K in *; lia).
  apply (keeps_after R); [|intros _ w' Hw; by apply (keeps_answer R)].
  apply munmap_keeps; [done|..]; unfold two64, PAGE_SIZE_4K in *; [mlia|lia..].
Qed.

(** ** Shared memory *)

(** The same address space over a table with the same entries. *)
Lemma ms_wf_pt R ms (w w' : W) : ms_wf R ms w → (∀ p, pt_flags w' p = pt_flags w p) → ms_wf R ms w'.
Proof. intros [? ? Hin Hout ?] E. split; try done; intros; rewrite E; eauto. Qed.

(** The creating flag never gets through the mask of the mode. *)
Lemma creat_masked flags f : from_bits SHMFLAGS_ALL (flags - Z.land flags 1023) = Some f → flags_contains f IPC_CREAT = false.
Proof.
  unfold from_bits. case_decide; [|done]. intros [= <-]. apply bool_decide_eq_false_2. intros Hb.
  assert (Z.testbit (flags - Z.land flags 1023) 9 = true) as Ht.
  { rewrite <- (Z.land_m1_r (flags - _)). change IPC_CREAT with (2 ^ 9) in Hb.
    assert (Z.testbit (Z.land (flags - Z.land flags 1023) (2 ^ 9)) 9 = true) as Hl by (rewrite Hb; by apply Z.pow2_bits_true).
    rewrite Z.land_spec in Hl. apply andb_true_iff in Hl as [Hl _]. by rewrite Z.land_m1_r. }
  change 1023 with (Z.ones 10) in Ht. rewrite Z.land_ones in Ht by lia.
  replace (flags - flags mod 2 ^ 10) with (flags / 2 ^ 10 * 2 ^ 10) in Ht by (pose proof (Z.div_mod flags (2 ^ 10)); lia).
  by rewrite Z.mul_pow2_bits_low in Ht.
Qed.

Lemma new_segment_ok key size pid mode (w : W) m w' :
  0 < size < 2 ^ 61 → new_shared_mem now_secs key size pid 0 0 mode w = Ok (m, w') →
  segment_ok m ∧ ∀ p, pt_flags w' p = pt_flags w p.
Proof.
  intros Hs ([pa w1] & E & [= <- <-])%bind_Ok_inv. split; [|by eapply law_global_alloc].
  destruct (align_up_ok size) as [Hm Hr]; [lia|unfold two64, PAGE_SIZE_4K; lia|].
  unfold align_up_size, PAGE_SIZE_4K in *. split; cbn; unfold PAGE_SIZE_4K; [lia|done].
Qed.
Lemma new_segment_answers key size pid mode (w : W) : new_shared_mem now_secs key size pid 0 0 mode w ≠ Panic.
Proof.
  unfold new_shared_mem. destruct (law_global_alloc (page_count size) w) as [Hn _].
  destruct (global_alloc _ w) as [[pa w']|e|]; done.
Qed.

Lemma create_keeps R key size pid mode w :
  mem_ok R (sw_io w) → 0 < size < 2 ^ 61 → SHMID (mw_shm (sw_io w)) < 2 ^ 31 - 1 →
  answers (create_shared_mem now_secs false key size pid mode) w (λ r w', mem_ok R (sw_io w') ∧
    ∀ k m, r = inl (k, m) → 0 ≤ k < SHMID (mw_shm (sw_io w')) ∧ segment_ok m ∧ bt_get k (private_mem (mw_set (sw_io w'))) = None).
Proof.
  intros Hx Hs Hi. unfold create_shared_mem, of_io. apply answers_bind, answers_reads, answers_bind, answers_io.
  intros [] x1 [= <-]. apply answers_bind, answers_io. cbn. intros r x2.
  assert (as_i32 (SHMID (mw_shm (sw_io w)) + 1) = SHMID (mw_shm (sw_io w)) + 1) as Eid.
  { pose proof (mo_id _ _ Hx). unfold as_i32, wrap32, two32. rewrite Z.mod_small by lia. case_decide; lia. }
  rewrite Eid. destruct Hx as [Hwf Hatt Hh Hid Hp Hsor Hm].
  pose proof (new_segment_answers key size pid mode (mw_pt (sw_io w))) as Hnp.
  destruct (new_shared_mem _ _ _ _ _ _ _ _) as [[m w']|e|] eqn:E; [| |done]; intros [= <- <-].
  - apply new_segment_ok in E as [Hseg Hpt]; [|done]. apply answers_ret. split.
    + split; cbn; try done; [by eapply ms_wf_pt|lia|]. intros k m' Hk. apply Hp in Hk as [? ?]. split; [lia|done].
    + intros k m' [= <- <-]. cbn. split_and!; [done|lia|done..|].
      destruct (bt_get _ _) as [m'|] eqn:Ek; [|done]. apply Hp in Ek as [? _]. lia.
  - apply answers_ret. split; [|done]. split; cbn; try done; [lia|].
    intros k m' Hk. apply Hp in Hk as [? ?]. split; [lia|done].
Qed.

Lemma insert_private_keeps R k m w :
  mem_ok R (sw_io w) → 0 ≤ k < SHMID (mw_shm (sw_io w)) → segment_ok m → bt_get k (private_mem (mw_set (sw_io w))) = None →
  answers (add_private_shared_mem k m) w (λ _ w', mem_ok R (sw_io w')).
Proof.
  intros [Hwf Hatt Hh Hid Hp Hsor Hm] Hk Hs Hn. unfold add_private_shared_mem, of_io. apply answers_bind, answers_reads.
  assert (bt_contains_key k (private_mem (mw_set (sw_io w))) = false) as ->.
  { unfold bt_contains_key. rewrite Hn. apply bool_decide_eq_false_2, is_Some_None. }
  apply answers_io. intros [] x [= <-].
  split; cbn; try done; [by destruct Hwf; split|by destruct Hatt as [[] ?]; split; [split|]| |by apply bt_insert_sorted].
  intros k' m' Hk'. destruct (decide (k' = k)) as [->|Hne].
  - rewrite bt_get_insert_eq in Hk'. injection Hk' as <-. split; [lia|done].
  - rewrite bt_get_insert_ne in Hk' by done. by apply Hp.
Qed.
Lemma keeps_shmget R key size flags w :
  mem_ok R (sw_io w) → 0 < size < 2 ^ 61 → SHMID (mw_shm (sw_io w)) < 2 ^ 31 - 1 →
  keeps_mem (syscall_shmget now_secs key size flags) w.
Proof.
  intros Hx Hs Hi. unfold syscall_shmget. apply answers_bind, answers_reads.
  destruct (from_bits _ _) as [f|] eqn:Ef; [|by apply (keeps_fail R)]. apply creat_masked in Ef. case_decide.
  - apply answers_bind. eapply answers_mono; [by apply create_keeps|]. intros [[k m]|e] w' [Hw' Hnew]; [|by apply (keeps_fail R)].
    destruct (Hnew k m eq_refl) as (? & ? & ?).
    apply (keeps_after R); [by apply insert_private_keeps|]. intros [] w2 Hw2. by apply (keeps_answer R).
  - apply answers_bind, answers_reads. rewrite Ef. case_match; [by apply (keeps_answer R)|by apply (keeps_fail R)].
Qed.

(** ** Attaching a segment to a free range: its pages become reserved *)

Section attach.
Context (R : Z → Prop) (ms : MemorySet) (w : W) (m : SharedMem) (addr f : Z).
Context (Hwf : ms_wf R ms w) (Hatt : attached_ok T R ms) (Hm : segment_ok m).
Context (Hfree : find_free_area user_memory_start 0 (sm_size m) ms = Some addr).
Context (Hclear : ∀ p, addr ≤ p < addr + sm_size m → ¬ T p).
Definition reserved_with (p : Z) : Prop := R p ∨ addr ≤ p < addr + sm_size m.
Notation attached := {| owned_mem := owned_mem ms; private_mem := private_mem ms;
                        attached_mem := attached_mem ms ++ [(addr, f, m)] |}.

Lemma gap_ok : 0 ≤ addr ∧ addr mod PAGE_SIZE_4K = 0 ∧ addr + sm_size m < 2 ^ 63 ∧
  (∀ x, x ∈ segments ms → x.2 ≤ addr ∨ addr + sm_size m ≤ x.1) ∧
  (∀ p, addr ≤ p < addr + sm_size m → ¬ R p ∧ space ms !! p = None).
Proof.
  destruct Hm as [Hs Ha]. pose proof Hfree as Hf. apply (find_free_area_ok R ms w) in Hf as (? & ? & ? & ?);
    try done; [|apply Hatt|apply Hums|apply Hums|lia].
  split_and!; try done. intros p Hp. apply (segments_free T R ms w addr (sm_size m) p Hwf); auto.
Qed.
Lemma attach_wf w' :
  (∀ p, p mod PAGE_SIZE_4K = 0 → pt_flags w' p = if decide (addr ≤ p < addr + sm_size m) then Some f else pt_flags w p) →
  ms_wf reserved_with attached w'.
Proof.
  intros Hpt. destruct gap_ok as (_ & _ & _ & _ & Hgap). destruct Hwf as [Hmap Hnd Hin Hout Hres]. split; [done|done|..].
  - intros p s Hp. change (space _) with (space ms) in Hp. rewrite Hpt.
    + rewrite decide_False; [by apply Hin|]. intros Hr. apply Hgap in Hr as [_ Hr]. congruence.
    + apply space_elem in Hp; [|done]. apply slots_elem in Hp as (a & Hain & Hps).
      eapply area_slots_aligned; [by eapply map_ok_elem|exact Hps].
  - intros p Hp HR Hsp. rewrite Hpt by done. rewrite decide_False by (intros ?; apply HR; by right).
    apply Hout; [done| |done]. intros ?. apply HR. by left.
  - intros p [HR|HR]; [by apply Hres|by apply Hgap].
Qed.
Lemma attach_apart s f0 m0 : (s, f0, m0) ∈ attached_mem ms → s ≠ addr ∧ seg_disj (s, s + sm_size m0) (addr, addr + sm_size m).
Proof.
  intros Hin. destruct (att_seg _ _ Hatt _ _ _ Hin) as (_ & _ & Hok & _). destruct Hm as [Hs _].
  destruct gap_ok as (Hg1 & _ & Hg2 & Hseg & _).
  destruct (Hseg (s, wrap64 (s + sm_size m0))) as [Hd|Hd]; unfold seg_disj, seg_ok in *; cbn in *.
  - apply elem_of_app. right. apply list_elem_of_fmap. by exists (s, f0, m0).
  - rewrite wrap64_small in Hd by (unfold is_u64, two64; lia). lia.
  - lia.
Qed.
Lemma attach_attached : attached_ok T reserved_with attached.
Proof.
  destruct gap_ok as (Hg1 & Hg2 & Hg3 & _ & _). pose proof Hm as [Hs Ha]. split; [split|]; cbn [attached_mem].
  - rewrite !fmap_app. apply NoDup_app. split; [apply Hatt|]. split; [|by apply NoDup_singleton].
    intros s Hin Hs2%list_elem_of_singleton. cbn in Hs2. subst s.
    apply list_elem_of_fmap in Hin as ([s f0] & Es & ([[s' f'] m'] & E' & Hin)%list_elem_of_fmap).
    cbn in *. injection E' as -> ->. by apply attach_apart in Hin as [? _].
  - intros s f0 m0 [Hin|[= -> -> ->]%list_elem_of_singleton]%elem_of_app.
    + destruct (att_seg _ _ Hatt _ _ _ Hin) as (? & ? & ? & Hr). split_and!; try done. intros p Hp Hp2. left. by apply Hr.
    + split_and!; [done..|unfold seg_ok; cbn; lia|]. intros p _ Hr. by right.
  - intros s f0 m0 s' f' m' [Hin|[= -> -> ->]%list_elem_of_singleton]%elem_of_app
      [Hin'|[= -> -> ->]%list_elem_of_singleton]%elem_of_app Hne; [by eapply (att_disj _ _ Hatt)|by eapply attach_apart| |done].
    apply attach_apart in Hin' as [_ [?|?]]; unfold seg_disj in *; cbn in *; lia.
  - intros p [HR|HR] Hp HT.
    + destruct (att_all _ _ _ Hatt p HR Hp HT) as (s & f0 & m0 & Hin & ?). exists s, f0, m0. split; [apply elem_of_app; by left|done].
    + exists addr, f, m. split; [apply elem_of_app; right; by left|done].
Qed.
Lemma attach_ok : ∃ w', attach_shared_mem m addr f ms w = Ok (attached, w') ∧ ms_wf reserved_with attached w'.
Proof.
  destruct gap_ok as (Hg1 & Hg2 & Hg3 & _ & Hgap). pose proof Hm as [Hs Ha].
  destruct (law_map_region addr (sm_paddr m) (sm_size m) f w) as (w' & E & Hpt); [done..|lia| |].
  { intros p Hp Hr. apply (ms_pt_out _ _ _ Hwf); [done|by apply Hgap..]. }
  unfold attach_shared_mem. rewrite E. exists w'. split; [done|by apply attach_wf].
Qed.
End attach.

Lemma keeps_shmat R shmid flags w :
  mem_ok R (sw_io w) → from_bits SHMATFLAGS_ALL (as_i32 flags) ≠ None →
  (∀ m, sm_of shmid w = Some m → gap_clear 0 (sm_size m) w) →
  keeps_mem (syscall_shmat user_memory_start shmid 0 flags) w.
Proof.
  intros Hx Hfl HT. unfold syscall_shmat. destruct (from_bits _ _) as [f|]; [|done].
  apply answers_bind, answers_reads, answers_bind, answers_reads.
  destruct (match bt_get _ _ with Some m => Some m | None => _ end) as [m|] eqn:Em; [|by apply (keeps_fail R)].
  assert (segment_ok m) as Hm.
  { destruct (bt_get _ _) as [m'|] eqn:E; [injection Em as ->; by eapply (mo_private _ _ Hx)|by eapply (mo_shared _ _ Hx)]. }
  unfold shmat_address, of_io. rewrite decide_True by done. apply answers_bind, answers_bind, answers_reads.
  destruct (find_free_area _ _ _ _) as [addr|] eqn:Ef; [|by apply (answers_fail _ _ _ R)]. apply answers_ret, answers_bind.
  destruct (attach_ok R _ (mw_pt (sw_io w)) m addr (shmat_flags f) (mo_wf _ _ Hx) (mo_att _ _ Hx) Hm Ef (HT m Em _ Ef)) as (w' & E & Hwf').
  eapply answers_set_unit; [exact E|]. apply (keeps_answer (reserved_with R m addr)).
  pose proof (attach_attached R _ (mw_pt (sw_io w)) m addr (shmat_flags f) (mo_wf _ _ Hx) (mo_att _ _ Hx) Hm Ef (HT m Em _ Ef)).
  destruct Hx as [_ _ Hh Hid Hp Hsor Hsh]. by split.
Qed.

(** ** Any calls *)

Definition attached_at (ms : MemorySet) (p : Z) : Prop :=
  ∃ s f m, (s, f, m) ∈ attached_mem ms ∧ s ≤ p < s + sm_size m.
(** What a call has to be passed: pages, a fixed mapping off the attached segments and
    the trampoline, and no request for what is not implemented. *)
Definition mem_call_ok (w : world) (id : MemSyscallId) (args : list Z) : Prop :=
  let arg i := nth i args 0 in
  let '(start, len) := (arg 0%nat, arg 1%nat) in
  match id with
  | BRK | SHMCTL | MEMBARRIER => True
  | MUNMAP => page_range start len
  | MPROTECT => page_range start len ∧ len mod PAGE_SIZE_4K = 0
  | MMAP =>
      page_range start len ∧ mappable (sw_table w) (as_i32 (arg 4%nat)) (arg 5%nat) len ∧
      (flags_contains (truncate_bits MMAPFLAGS_ALL (wrap32 (arg 3%nat))) MAP_FIXED = true →
         ∀ p, start ≤ p < start + align_up_size len → ¬ attached_at (mw_set (sw_io w)) p ∧ ¬ T p) ∧
      (flags_contains (truncate_bits MMAPFLAGS_ALL (wrap32 (arg 3%nat))) MAP_FIXED = false → gap_clear start (align_up_size len) w)
  | MREMAP =>
      let new_size := arg 2%nat in
      page_range start len ∧ new_size < len ∧ 0 ≤ new_size ∧ new_size mod PAGE_SIZE_4K = 0 ∧
      flags_contains (truncate_bits 7 (wrap32 (arg 3%nat))) MREMAP_FIXED = false
  | SHMGET => 0 < len < 2 ^ 61 ∧ SHMID (mw_shm (sw_io w)) < 2 ^ 31 - 1
  | SHMAT => len = 0 ∧ from_bits SHMATFLAGS_ALL (as_i32 (arg 2%nat)) ≠ None ∧
      ∀ m, sm_of start w = Some m → gap_clear 0 (sm_size m) w
  | MSYNC => False
  end.
Notation mem_call id args := (mem_syscall user_memory_start now_secs file_of id args).

Lemma keeps_mem_call R id args w : mem_ok R (sw_io w) → mem_call_ok w id args → keeps_mem (mem_call id args) w.
Proof.
  intros Hx Hc. destruct id; cbn [mem_syscall mem_call_ok] in *.
  - apply (keeps_shmget R); [done|apply Hc..].
  - by apply (keeps_answer R).
  - destruct Hc as (-> & ? & ?). by apply (keeps_shmat R).
  - by apply (keeps_brk R).
  - by apply (keeps_munmap R).
  - by destruct Hc as (? & ? & ? & ? & ?); apply (keeps_mremap R).
  - destruct Hc as (Hr & Hf & HR & HT). apply (keeps_mmap R); [done..| |done]. intros Hfix p Hp HRp.
    destruct (HR Hfix p Hp) as [HA HnT]. apply HA, (att_all _ _ _ (mo_att _ _ Hx) p HRp); [|done]. destruct Hr as (_ & ? & ? & ?).
    destruct (align_up_ok (nth 1 args 0)) as [_ ?]; unfold two64, PAGE_SIZE_4K in *; [lia..|]; lia.
  - done.
  - by destruct Hc as [? ?]; apply (keeps_mprotect R).
  - by apply (keeps_answer R).
Qed.
Lemma keeps_mem_run (m : mcall Z) w : keeps_mem m w → returned (run m w).1 = true ∧ ∃ R, mem_ok R (sw_io (run m w).2).
Proof. unfold keeps_mem, answers, run. by destruct (m w) as [[z|r] w']. Qed.

(** What calls make of a process. *)
Inductive after_calls (w : world) : world → Prop :=
  | after_none : after_calls w w
  | after_call w' id args : after_calls w w' → mem_call_ok w' id args → after_calls w (run (mem_call id args) w').2.

(** C17: After any sequence of memory calls that satisfy [mem_call_ok], whatever they
    answered, the areas of the address space are disjoint and in step with the page
    table, the attached segments disjoint from them and from each other, the heap within
    its bounds and the numbers of segments fresh; and the next such call answers: it
    neither panics nor spins on a lock.  [mem_call_ok] asks for ranges that start on a
    page and end below 2^63, for fixed mappings off the attached segments and the pages
    [T] of the trampoline, for mappings without an address and attachments whose gap is
    clear of [T], for files that can be mapped, for [mremap] only to shrink and without
    [MREMAP_FIXED], for [shmat] without an address and with known flags, and for no
    [msync]; [MemSim.unsupported_calls_panic] and its neighbours show calls outside it
    on which the kernel panics. *)
Theorem mem_calls_keep_space R w w' :
  mem_ok R (sw_io w) → after_calls w w' →
  (∃ R', mem_ok R' (sw_io w')) ∧ ∀ id args, mem_call_ok w' id args → returned (run (mem_call id args) w').1 = true.
Proof.
  intros Hw Hr. assert (∃ R', mem_ok R' (sw_io w')) as [R' Hx].
  { induction Hr as [|w' id args _ [R' IH] Hc]; [by exists R|]. by eapply keeps_mem_run, keeps_mem_call. }
  split; [by exists R'|]. intros id args Hc. by eapply keeps_mem_run, keeps_mem_call.
Qed.
End calls.
