(* ===== verification/ForkSpec.v ===== *)
(** * What a fork does to an address space

    The contract of [clone_or_err]: the child sees, at every page of its parent, the same
    bytes with the same permissions; a private page that is there is a fresh page that
    nothing else has, a shared one is the page of the parent, and the page of a shared
    area that was missing is there in both. *)

From S2P Require Import Prelude BTree Memory MemoryProps MemorySpec MemCalls.

Open Scope Z_scope.

(** What can be seen of the page tables and of physical memory: the entry of a page in
    each table, with its physical address unless it faults, and the pages in use. *)
Class PageTabs (W : Type) `{MemWorldLaws W} := {
  pt_tab : W → nat → Z → option (option Z * Z);
  live : W → PageRef → Prop
}.

Definition aligned (p : Z) : Prop := p mod PAGE_SIZE_4K = 0.
Definition page_va (va : Z) (i : nat) : Z := va + Z.of_nat i * PAGE_SIZE_4K.

Section steps.
Context {W : Type} `{PageTabs W} `{!PageTables W}.

(** Nothing is lost of physical memory or of the files. *)
Record mem_ext (w w' : W) : Prop := {
  ext_live g : live w g → live w' g;
  ext_bytes g : live w g → page_bytes g w' = page_bytes g w;
  ext_paddr g : live w g → page_paddr g w' = page_paddr g w;
  ext_file fd pos n : file_read_full fd pos n w' = file_read_full fd pos n w
}.
#[export] Instance mem_ext_preorder : PreOrder mem_ext.
Proof.
  split; [by split|]. intros w1 w2 w3 [A1 B1 C1 D1] [A2 B2 C2 D2]. split; intros; auto.
  - rewrite B2, B1; auto.
  - rewrite C2, C1; auto.
  - by rewrite D2, D1.
Qed.

(** Only the entries of [n] pages from [lo] in the table [k] change, and new pages may be
    in use. *)
Record span_step (k : nat) (lo : Z) (n : nat) (w w' : W) : Prop := {
  span_current : pt_current w' = pt_current w;
  span_ext : mem_ext w w';
  span_tab j p : aligned p → j ≠ k ∨ p < lo ∨ page_va lo n ≤ p → pt_tab w' j p = pt_tab w j p
}.
Lemma span_refl k lo n w : span_step k lo n w w.
Proof. by split. Qed.
Lemma span_trans k lo n w1 w2 w3 : span_step k lo n w1 w2 → span_step k lo n w2 w3 → span_step k lo n w1 w3.
Proof.
  intros [C1 E1 T1] [C2 E2 T2]. split; [congruence|by etrans|]. intros j p Hp Hj. rewrite T2, T1; done.
Qed.
Lemma span_weaken k lo n lo' n' w w' :
  lo' ≤ lo → page_va lo n ≤ page_va lo' n' → span_step k lo n w w' → span_step k lo' n' w w'.
Proof. intros ?? [C E T]. split; [done..|]. intros j p Hp Hj. apply T; [done|]. destruct Hj as [?|[?|?]]; [by left|right; left; lia|right; right; lia]. Qed.
(** Nothing changes in any table. *)
Lemma span_none k lo w w' j p : span_step k lo 0 w w' → aligned p → pt_tab w' j p = pt_tab w j p.
Proof. intros [_ _ T] Hp. apply T; [done|]. right. unfold page_va. lia. Qed.

(** The entry of one page set, in the table in use. *)
Definition entry_set (va : Z) (e : option Z * Z) (w w' : W) : Prop :=
  span_step (pt_current w) va 1 w w' ∧ pt_tab w' (pt_current w) va = Some e.
End steps.

(** What the page tables and the allocator of pages promise. *)
Class ForkLaws (W : Type) `{PageTabs W, !PageTables W} := {
  law_flags w p : aligned p → pt_flags w p = snd <$> pt_tab w (pt_current w) p;
  law_select k w : pt_current (pt_select k w) = k ∧ mem_ext w (pt_select k w) ∧ mem_ext (pt_select k w) w ∧
    ∀ j p, pt_tab (pt_select k w) j p = pt_tab w j p;
  law_try_new w k w' : pt_try_new w = Ok (k, w') →
    k ≠ pt_current w ∧ pt_current w' = pt_current w ∧ mem_ext w w' ∧ (∀ p, pt_tab w' k p = None) ∧
    ∀ j p, j ≠ k → pt_tab w' j p = pt_tab w j p;
  law_pt_map va pa f w : aligned va → pt_tab w (pt_current w) va = None →
    ∃ w', pt_map va pa f w = Ok w' ∧ entry_set va (Some pa, f) w w';
  law_pt_map_fault va f w : aligned va → pt_tab w (pt_current w) va = None →
    ∃ w', pt_map_fault va f w = Ok w' ∧ entry_set va (None, f) w w';
  law_pt_overwrite va pa f w : aligned va → is_Some (pt_tab w (pt_current w) va) →
    ∃ w', pt_map_overwrite va pa f w = Ok w' ∧ entry_set va (Some pa, f) w w';
  law_pt_region va pa n f w : aligned va → (∀ i, (i < n)%nat → pt_tab w (pt_current w) (page_va va i) = None) →
    ∃ w', pt_map_region va pa (Z.of_nat n * PAGE_SIZE_4K) f w = Ok w' ∧ span_step (pt_current w) va n w w' ∧
      ∀ i, (i < n)%nat → pt_tab w' (pt_current w) (page_va va i) = Some (Some (page_va pa i), f);
  law_page_alloc w g w' : page_alloc w = Ok (g, w') →
    ¬ live w g ∧ live w' g ∧ length (page_bytes g w') = 4096%nat ∧ ∀ k lo, span_step k lo 0 w w';
  law_contiguous n data w l w' : page_alloc_contiguous n (Some data) w = Ok (l, w') → length data = (n * 4096)%nat →
    (∀ k lo, span_step k lo 0 w w') ∧ ∃ gs, l = Some <$> gs ∧ length gs = n ∧ NoDup gs ∧
      ∀ i g, gs !! i = Some g → ¬ live w g ∧ live w' g ∧ page_bytes g w' = take 4096 (drop (i * 4096) data) ∧
        ∀ g0, gs !! 0%nat = Some g0 → page_paddr g w' = page_va (page_paddr g0 w') i;
  law_put_bytes g bs w : page_bytes g (page_set_bytes g bs w) = bs ∧ pt_current (page_set_bytes g bs w) = pt_current w ∧
    (∀ k p, pt_tab (page_set_bytes g bs w) k p = pt_tab w k p) ∧
    (∀ h, live w h → live (page_set_bytes g bs w) h ∧ page_paddr h (page_set_bytes g bs w) = page_paddr h w ∧
      (h ≠ g → page_bytes h (page_set_bytes g bs w) = page_bytes h w)) ∧
    ∀ fd pos n, file_read_full fd pos n (page_set_bytes g bs w) = file_read_full fd pos n w;
  law_va_page p w g f : aligned p → pt_tab w (pt_current w) p = Some (Some (page_paddr g w), f) → live w g → va_page p w = Some g;
  law_read_len fd pos n w : (length (file_read_full fd pos n w).1 ≤ n)%nat
}.
(** Memory is not exhausted. *)
Class EnoughMemory (W : Type) `{PageTables W} := {
  try_new_succeeds w : is_ok (pt_try_new w) = true;
  alloc_succeeds w : is_ok (page_alloc w) = true;
  contiguous_succeeds n data w : is_ok (page_alloc_contiguous n data w) = true
}.

Lemma page_va_0 va : page_va va 0 = va.
Proof. unfold page_va. lia. Qed.
Lemma page_va_S va i : page_va (va + PAGE_SIZE_4K) i = page_va va (S i).
Proof. unfold page_va, PAGE_SIZE_4K. lia. Qed.
Lemma page_va_aligned va i : aligned va → aligned (page_va va i).
Proof. unfold aligned, page_va, PAGE_SIZE_4K. intros. mlia. Qed.
Lemma page_va_lt va i j : (i < j)%nat → page_va va i + PAGE_SIZE_4K ≤ page_va va j.
Proof. unfold page_va, PAGE_SIZE_4K. lia. Qed.
Lemma page_va_inj va i j : page_va va i = page_va va j → i = j.
Proof. unfold page_va, PAGE_SIZE_4K. lia. Qed.

Section fork.
Context {W : Type} `{ForkLaws W} `{!EnoughMemory W}.

Lemma select_span k lo n w w2 :
  span_step k lo n (pt_select k w) w2 → span_step k lo n w (pt_select (pt_current w) w2).
Proof.
  intros [C E T]. destruct (law_select k w) as (_ & E1 & _ & T1).
  destruct (law_select (pt_current w) w2) as (C2 & E2 & _ & T2). split; [done|by do 2 (etrans; [eassumption|])|].
  intros j p Hp Hj. by rewrite T2, T, T1.
Qed.
(** An operation on another table than the one in use. *)
Lemma on_table_ok k lo n f w (g : nat → option Z * Z) :
  (∃ w2, f (pt_select k w) = Ok w2 ∧ span_step k lo n (pt_select k w) w2 ∧
     ∀ i, (i < n)%nat → pt_tab w2 k (page_va lo i) = Some (g i)) →
  ∃ w', on_table k f w = Ok w' ∧ span_step k lo n w w' ∧ ∀ i, (i < n)%nat → pt_tab w' k (page_va lo i) = Some (g i).
Proof.
  intros (w2 & E & S & T). unfold on_table. rewrite E. eexists. split; [done|]. split; [by apply select_span|].
  intros i Hi. destruct (law_select (pt_current w) w2) as (_ & _ & _ & T2). by rewrite T2, T.
Qed.
(** One page mapped in another table. *)
Lemma map_in_table k va (f : W → outcome W) e w :
  pt_tab w k va = None →
  (∀ w1, pt_current w1 = k → pt_tab w1 k va = None → mem_ext w w1 → ∃ w2, f w1 = Ok w2 ∧ entry_set va e w1 w2) →
  ∃ w', on_table k (λ w, unwrap (f w)) w = Ok w' ∧ span_step k va 1 w w' ∧ pt_tab w' k va = Some e.
Proof.
  intros Hn Hf. destruct (law_select k w) as (C & E & _ & T).
  destruct (on_table_ok k va 1 (λ w, unwrap (f w)) w (λ _, e)) as (w' & E' & S' & T').
  - destruct (Hf (pt_select k w)) as (w2 & E2 & S2 & Te2); [done|by rewrite T|done|]. rewrite C in S2, Te2.
    exists w2. rewrite E2. split_and!; [done..|]. intros i Hi. assert (i = 0%nat) as -> by lia. by rewrite page_va_0.
  - exists w'. split_and!; [done..|]. specialize (T' 0%nat ltac:(lia)). by rewrite page_va_0 in T'.
Qed.

(** The pages of an area as the table [k] should have them: each maps its page, which is
    in use and whole, or faults. *)
Definition in_tab (w : W) (k : nat) (va f : Z) (ps : list (option PageRef)) : Prop :=
  ∀ i pg, ps !! i = Some pg →
    pt_tab w k (page_va va i) = Some ((λ g, page_paddr g w) <$> pg, f) ∧
    ∀ g, pg = Some g → live w g ∧ length (page_bytes g w) = 4096%nat.

Lemma in_tab_cons w k va f pg ps :
  in_tab w k va f (pg :: ps) ↔
    (pt_tab w k va = Some ((λ g, page_paddr g w) <$> pg, f) ∧ ∀ g, pg = Some g → live w g ∧ length (page_bytes g w) = 4096%nat) ∧
    in_tab w k (va + PAGE_SIZE_4K) f ps.
Proof.
  split.
  - intros Hp. split; [by specialize (Hp 0%nat pg eq_refl); rewrite page_va_0 in Hp|].
    intros i pg' Hi. rewrite page_va_S. by apply Hp.
  - intros [Hf Hp] [|i] pg' Hi; [simplify_eq/=; by rewrite page_va_0|]. rewrite <- page_va_S. by apply Hp.
Qed.
(** Steps elsewhere keep it. *)
Lemma in_tab_step k lo n w w' k' va f ps :
  span_step k lo n w w' → aligned va → k' ≠ k ∨ page_va va (length ps) ≤ lo ∨ page_va lo n ≤ va →
  in_tab w k' va f ps → in_tab w' k' va f ps.
Proof.
  intros [C E T] Ha Hk Hp i pg Hi. destruct (Hp i pg Hi) as [Ht Hl]. pose proof (lookup_lt_Some _ _ _ Hi) as Hlt. split.
  - rewrite T.
    + rewrite Ht. destruct pg as [g|]; [|done]. cbn. by rewrite (ext_paddr _ _ E) by naive_solver.
    + by apply page_va_aligned.
    + pose proof (page_va_lt va i (length ps) Hlt). unfold page_va, PAGE_SIZE_4K in *.
      destruct Hk as [?|[?|?]]; [by left|right; left; lia|right; right; lia].
  - intros g Hg. destruct (Hl g Hg) as [Hv Hn]. split; [by apply (ext_live _ _ E)|]. by rewrite (ext_bytes _ _ E).
Qed.
(** Free pages in a table stay free. *)
Definition free_in (w : W) (k : nat) (va : Z) (n : nat) : Prop :=
  ∀ i, (i < n)%nat → pt_tab w k (page_va va i) = None.
Lemma free_step k lo n w w' k' va m :
  span_step k lo n w w' → aligned va → k' ≠ k ∨ page_va va m ≤ lo ∨ page_va lo n ≤ va →
  free_in w k' va m → free_in w' k' va m.
Proof.
  intros [C E T] Ha Hk Hf i Hi. rewrite T; [by apply Hf|by apply page_va_aligned|].
  pose proof (page_va_lt va i m Hi). unfold page_va, PAGE_SIZE_4K in *.
  destruct Hk as [?|[?|?]]; [by left|right; left; lia|right; right; lia].
Qed.
Lemma free_cons w k va n : free_in w k va (S n) → pt_tab w k va = None ∧ free_in w k (va + PAGE_SIZE_4K) n.
Proof.
  intros Hf. split; [by specialize (Hf 0%nat ltac:(lia)); rewrite page_va_0 in Hf|].
  intros i Hi. rewrite page_va_S. apply Hf. lia.
Qed.

(** A page and its copy. *)
Definition page_copy (w w' : W) (pg pg' : option PageRef) : Prop :=
  match pg with
  | None => pg' = None
  | Some g => ∃ g', pg' = Some g' ∧ ¬ live w g' ∧ live w' g' ∧ page_bytes g' w' = page_bytes g w
  end.

Lemma page_copy_ext w w1 w' pg pg' :
  mem_ext w w1 → (∀ g, pg = Some g → live w g) → page_copy w1 w' pg pg' → page_copy w w' pg pg'.
Proof.
  intros E Hl. destruct pg as [g|]; [|done]. intros (g' & -> & Hn & Hl' & Hb). exists g'. split_and!; [done| |done|].
  - intros Hg. apply Hn, (ext_live _ _ E _ Hg).
  - rewrite Hb. apply (ext_bytes _ _ E). by apply Hl.
Qed.
Lemma page_copy_after w w1 w' pg pg' : mem_ext w1 w' → page_copy w w1 pg pg' → page_copy w w' pg pg'.
Proof.
  intros E. destruct pg as [g|]; [|done]. intros (g' & -> & Hn & Hl' & Hb). exists g'.
  split_and!; [done..|by apply (ext_live _ _ E)|]. by rewrite (ext_bytes _ _ E).
Qed.

(** A page allocated and filled. *)
Lemma alloc_ok w :
  ∃ g w1, page_alloc w = Ok (g, w1) ∧ mem_ext w w1 ∧ length (page_bytes g w1) = 4096%nat ∧ ¬ live w g ∧
    ∀ bs, let w2 := page_set_bytes g bs w1 in
      live w2 g ∧ page_bytes g w2 = bs ∧ (∀ k lo, span_step k lo 0 w w2).
Proof.
  pose proof (alloc_succeeds w) as Ho. destruct (page_alloc w) as [[g w1]|e|] eqn:E; [|done..].
  destruct (law_page_alloc _ _ _ E) as (Hn & Hl & Hb & Hs). exists g, w1. split_and!; [done|apply (span_ext 0%nat 0 0%nat), Hs|done..|].
  intros bs w2. destruct (law_put_bytes g bs w1) as (B & C & T & M & F). fold w2 in B, C, T, M, F.
  split_and!; [by apply M|done|]. intros k lo. destruct (Hs k lo) as [C1 E1 T1]. split; [by rewrite C| |].
  - destruct E1 as [L1 B1 P1 F1]. split; intros.
    + by apply M, L1.
    + destruct (M g0) as (_ & _ & ->); [by apply L1|by apply B1|by intros ->].
    + destruct (M g0) as (_ & -> & _); [by apply L1|by apply P1].
    + by rewrite F, F1.
  - intros j p Hp Hj. by rewrite T, T1.
Qed.

Definition pages_live (w : W) (ps : list (option PageRef)) : Prop :=
  ∀ g, Some g ∈ ps → live w g ∧ length (page_bytes g w) = 4096%nat.
Lemma pages_live_ext w w' ps : mem_ext w w' → pages_live w ps → pages_live w' ps.
Proof.
  intros E Hl g Hg. destruct (Hl g Hg) as [Hv Hn]. split; [by apply (ext_live _ _ E)|by rewrite (ext_bytes _ _ E)].
Qed.
Lemma in_tab_live w k va f ps : in_tab w k va f ps → pages_live w ps.
Proof. intros Hp g (i & Hi)%list_elem_of_lookup. by apply (Hp i (Some g) Hi). Qed.

(** [span_step] of the first page and of the rest. *)
Lemma span_cons k va n w w1 w2 :
  span_step k va 1 w w1 → span_step k (va + PAGE_SIZE_4K) n w1 w2 → span_step k va (S n) w w2.
Proof.
  intros S1 S2. eapply span_trans; eapply span_weaken; [| |exact S1| | |exact S2]; unfold page_va, PAGE_SIZE_4K; lia.
Qed.
Lemma aligned_next va : aligned va → aligned (va + PAGE_SIZE_4K).
Proof. unfold aligned, PAGE_SIZE_4K. intros. mlia. Qed.

(** One page of [copy_pages]. *)
Definition copy_one (child : nat) (va f : Z) (p : PageRef) (w : W) : outcome (PageRef * W) :=
  '(new, w) ← unwrap (page_alloc w);
  let w := page_set_bytes new (page_bytes p w) w in
  w ← on_table child (λ w, unwrap (pt_map va (page_paddr new w) f w)) w;
  Ok (new, w).
Lemma copy_pages_cons child va f p ps w :
  copy_pages child va f (Some p :: ps) w =
    '(new, w) ← copy_one child va f p w;
    '(ps, w) ← copy_pages child (va + PAGE_SIZE_4K) f ps w; Ok (Some new :: ps, w).
Proof.
  unfold copy_one. cbn [copy_pages]. destruct (unwrap (page_alloc w)) as [[n w1]| |]; [|done..]. rewrite !bind_Ok. cbv beta iota zeta.
  by destruct (on_table child _ _).
Qed.
Lemma copy_one_ok child va f g w :
  aligned va → live w g → length (page_bytes g w) = 4096%nat → pt_tab w child va = None →
  ∃ n w', copy_one child va f g w = Ok (n, w') ∧ span_step child va 1 w w' ∧ ¬ live w n ∧ live w' n ∧
    page_bytes n w' = page_bytes g w ∧ pt_tab w' child va = Some (Some (page_paddr n w'), f).
Proof.
  intros Ha Hg Hlen Hf. unfold copy_one. destruct (alloc_ok w) as (n & w1 & -> & E1 & _ & Hn & Hset).
  destruct (Hset (page_bytes g w1)) as (Hnl & Hnb & Hs). cbn [unwrap]. rewrite bind_Ok. cbv beta iota zeta.
  set (w2 := page_set_bytes n (page_bytes g w1) w1) in *. pose proof (Hs child va) as S0.
  destruct (map_in_table child va (λ w, pt_map va (page_paddr n w) f w) (Some (page_paddr n w2), f) w2) as (w3 & -> & S1 & T1).
  { by rewrite (span_none _ _ _ _ _ _ S0). }
  { intros w' C' T' E'. destruct (law_pt_map va (page_paddr n w') f w') as (w'' & -> & He); [done|by rewrite C'|].
    exists w''. split; [done|]. by rewrite <- (ext_paddr _ _ E' n Hnl). }
  pose proof (span_ext _ _ _ _ _ S1) as E3. exists n, w3. split_and!; [done| |done|by apply (ext_live _ _ E3)| |].
  - eapply span_trans; [|exact S1]. eapply span_weaken; [| |exact S0]; unfold page_va, PAGE_SIZE_4K; lia.
  - by rewrite (ext_bytes _ _ E3), Hnb, (ext_bytes _ _ E1).
  - by rewrite T1, (ext_paddr _ _ E3).
Qed.

(** Copies of one page and of those after it, made in this order. *)
Lemma page_copies_cons w w1 w' g n ps ps' :
  mem_ext w w1 → mem_ext w1 w' → pages_live w ps →
  ¬ live w n → live w1 n → page_bytes n w1 = page_bytes g w → Forall2 (page_copy w1 w') ps ps' → NoDup (omap id ps') →
  Forall2 (page_copy w w') (Some g :: ps) (Some n :: ps') ∧ NoDup (n :: omap id ps').
Proof.
  intros E1 E2 Hl Hn Hnl Hnb [Hlen F]%Forall2_same_length_lookup Hnd. split; [constructor|constructor; [|done]].
  - exists n. split_and!; [done..|by apply (ext_live _ _ E2)|]. by rewrite (ext_bytes _ _ E2).
  - apply Forall2_same_length_lookup. split; [done|]. intros i x y Hx Hy. eapply page_copy_ext; [done| |by eapply F].
    intros g' ->. apply Hl. by apply list_elem_of_lookup_2 in Hx.
  - intros (x & [i Hi]%list_elem_of_lookup & Hxe)%list_elem_of_omap. cbn in Hxe. subst x.
    assert (i < length ps)%nat as [x Hx]%lookup_lt_is_Some_2 by (rewrite Hlen; by eapply lookup_lt_Some).
    pose proof (F i x _ Hx Hi) as Hc. destruct x; [|done]. destruct Hc as (g' & [= <-] & Hno & _). done.
Qed.

Lemma copy_pages_ok child f ps : ∀ va w,
  aligned va → pages_live w ps → free_in w child va (length ps) →
  ∃ ps' w', copy_pages child va f ps w = Ok (ps', w') ∧ span_step child va (length ps) w w' ∧
    Forall2 (page_copy w w') ps ps' ∧ in_tab w' child va f ps' ∧ NoDup (omap id ps') ∧ pages_live w' ps'.
Proof.
  induction ps as [|pg ps IH]; intros va w Ha Hl Hf.
  { exists [], w. split_and!; [done|apply span_refl|constructor|done|constructor|by intros ? ?%elem_of_nil]. }
  apply (free_cons _ _ _ (length ps)) in Hf as [Hf0 Hf]. assert (pages_live w ps) as Hl' by (intros g Hg; apply Hl; by right).
  assert (∀ w1, span_step child va 1 w w1 → pages_live w1 ps ∧ free_in w1 child (va + PAGE_SIZE_4K) (length ps)) as Hnext.
  { intros w1 S1. split; [by eapply pages_live_ext; [apply (span_ext _ _ _ _ _ S1)|]|].
    eapply free_step; [exact S1|by apply aligned_next|right; right; unfold page_va, PAGE_SIZE_4K; lia|done]. }
  pose proof (aligned_next va Ha) as Ha'. destruct pg as [g|].
  - destruct (Hl g) as [Hgl Hgn]; [by left|]. rewrite copy_pages_cons.
    destruct (copy_one_ok child va f g w) as (n & w1 & -> & S1 & Hn & Hnl & Hnb & T1); [done..|]. rewrite bind_Ok.
    destruct (Hnext w1 S1) as [Hl1 Hf1]. destruct (IH _ w1 Ha' Hl1 Hf1) as (ps' & w' & -> & S2 & F2 & I2 & N2 & L2).
    pose proof (span_ext _ _ _ _ _ S1) as E1. pose proof (span_ext _ _ _ _ _ S2) as E2. exists (Some n :: ps'), w'.
    destruct (page_copies_cons w w1 w' g n ps ps') as [HF HN]; [done..|].
    assert (live w' n ∧ length (page_bytes n w') = 4096%nat) as Hn'
      by (split; [by apply (ext_live _ _ E2)|by rewrite (ext_bytes _ _ E2), Hnb]).
    split_and!; [done|by eapply span_cons|done| |done|].
    + apply in_tab_cons. split; [|done]. split; [|by intros g' [= <-]].
      rewrite (span_tab _ _ _ _ _ S2 child va Ha) by (right; left; unfold PAGE_SIZE_4K; lia).
      rewrite T1. cbn. by rewrite (ext_paddr _ _ E2).
    + intros g' [[= ->]|Hg']%elem_of_cons; [done|by apply L2].
  - cbn [copy_pages].
    destruct (map_in_table child va (pt_map_fault va f) (None, f) w Hf0) as (w1 & -> & S1 & T1).
    { intros w1 C1 T1 _. apply law_pt_map_fault; [done|by rewrite C1]. }
    rewrite bind_Ok. destruct (Hnext w1 S1) as [Hl1 Hf1]. destruct (IH _ w1 Ha' Hl1 Hf1) as (ps' & w' & -> & S2 & F2 & I2 & N2 & L2).
    exists (None :: ps'), w'. split_and!; [done|by eapply span_cons| | |done|].
    + constructor; [done|]. apply Forall2_same_length_lookup in F2 as [Hlen F2]. apply Forall2_same_length_lookup.
      split; [done|]. intros i x y Hx Hy. eapply page_copy_ext; [apply (span_ext _ _ _ _ _ S1)| |by eapply F2].
      intros g' ->. apply Hl'. by apply list_elem_of_lookup_2 in Hx.
    + apply in_tab_cons. split; [|done]. split; [|done]. cbn.
      by rewrite (span_tab _ _ _ _ _ S2 child va Ha) by (right; left; unfold PAGE_SIZE_4K; lia).
    + intros g' [|Hg']%elem_of_cons; [done|by apply L2].
Qed.

Lemma map_shared_ok child f gs : ∀ va w,
  aligned va → pages_live w (Some <$> gs) → free_in w child va (length gs) →
  ∃ w', map_shared child va f (Some <$> gs) w = Ok w' ∧ span_step child va (length gs) w w' ∧
    in_tab w' child va f (Some <$> gs).
Proof.
  induction gs as [|g gs IH]; intros va w Ha Hl Hf; [by exists w; split_and!; [|apply span_refl|]|].
  apply (free_cons _ _ _ (length gs)) in Hf as [Hf0 Hf]. destruct (Hl g) as [Hgl Hgn]; [by left|]. cbn [fmap list_fmap map_shared].
  destruct (map_in_table child va (λ w, pt_map va (page_paddr g w) f w) (Some (page_paddr g w), f) w Hf0) as (w1 & -> & S1 & T1).
  { intros w1 C1 T1 E1. rewrite <- (ext_paddr _ _ E1 g Hgl). apply law_pt_map; [done|by rewrite C1]. }
  pose proof (span_ext _ _ _ _ _ S1) as E1. rewrite bind_Ok.
  destruct (IH (va + PAGE_SIZE_4K) w1) as (w' & -> & S2 & I2).
  { by apply aligned_next. }
  { eapply pages_live_ext; [exact E1|]. intros g' Hg'. apply Hl. by right. }
  { eapply free_step; [exact S1|by apply aligned_next|right; right; unfold page_va, PAGE_SIZE_4K; lia|done]. }
  pose proof (span_ext _ _ _ _ _ S2) as E2. exists w'. split_and!; [done|by eapply span_cons|].
  apply in_tab_cons. split; [|done]. split.
  - rewrite (span_tab _ _ _ _ _ S2 child va Ha) by (right; left; unfold PAGE_SIZE_4K; lia).
    rewrite T1. cbn. by rewrite (ext_paddr _ _ E2), (ext_paddr _ _ E1) by (try apply (ext_live _ _ E1); done).
  - intros g' [= <-]. split; [by apply (ext_live _ _ E2), (ext_live _ _ E1)|].
    by rewrite (ext_bytes _ _ E2), (ext_bytes _ _ E1) by (try apply (ext_live _ _ E1); done).
Qed.

(** ** The copy of an area that is there, read by its virtual address *)

Definition all_bytes (w : W) (gs : list PageRef) : list Z := gs ≫= λ g, page_bytes g w.
Lemma all_bytes_length w gs : pages_live w (Some <$> gs) → length (all_bytes w gs) = (length gs * 4096)%nat.
Proof.
  intros Hl. induction gs as [|g gs IH]; [done|]. unfold all_bytes in *. rewrite bind_cons, length_app, IH.
  - destruct (Hl g) as [_ ->]; [by left|]. done.
  - intros g' Hg'. apply Hl. by right.
Qed.
Lemma all_bytes_page w gs i g :
  pages_live w (Some <$> gs) → gs !! i = Some g → take 4096 (drop (i * 4096) (all_bytes w gs)) = page_bytes g w.
Proof.
  revert i. induction gs as [|h gs IH]; intros i Hl Hi; [done|]. unfold all_bytes in *. rewrite bind_cons.
  destruct (Hl h) as [_ Hh]; [by left|]. destruct i as [|i]; cbn in Hi.
  - simplify_eq. rewrite Nat.mul_0_l, drop_0. by rewrite take_app_length'.
  - replace (S i * 4096)%nat with (length (page_bytes h w) + i * 4096)%nat by lia. rewrite drop_app_add. apply IH; [|done].
    intros g' Hg'. apply Hl. by right.
Qed.
Lemma as_slice_ok gs f w : ∀ va,
  aligned va → in_tab w (pt_current w) va f (Some <$> gs) → as_slice va (length gs) w = Ok (all_bytes w gs).
Proof.
  induction gs as [|g gs IH]; intros va Ha Hp; [done|]. apply in_tab_cons in Hp as [[Ht Hl] Hp].
  destruct (Hl g eq_refl) as [Hg _]. cbn [length as_slice]. by rewrite (law_va_page va w g f Ha Ht Hg), (IH _ (aligned_next va Ha) Hp).
Qed.

(** Fresh pages with the bytes of others, one after the other in physical memory. *)
Definition copies (w w' : W) (base : Z) (gs hs : list PageRef) : Prop :=
  length hs = length gs ∧ ∀ i g, hs !! i = Some g → ¬ live w g ∧ live w' g ∧
    ∃ g0, gs !! i = Some g0 ∧ page_bytes g w' = page_bytes g0 w ∧ page_paddr g w' = page_va base i.
Lemma copies_page_copy w w' base gs hs :
  copies w w' base gs hs → pages_live w (Some <$> gs) →
  Forall2 (page_copy w w') (Some <$> gs) (Some <$> hs) ∧ pages_live w' (Some <$> hs).
Proof.
  intros [Hn Hc] Hl. split.
  - apply Forall2_same_length_lookup. split; [by rewrite !length_fmap, Hn|]. intros i x y Hx Hy.
    rewrite list_lookup_fmap in Hx, Hy. destruct (gs !! i) as [g0|] eqn:Hg0; [|done]. destruct (hs !! i) as [g|] eqn:Hg; [|done].
    simplify_eq/=. destruct (Hc i g Hg) as (Hno & Hgl & g0' & Hg0' & Hb & _). exists g. by simplify_eq.
  - intros g (h & [= <-] & [i Hi]%list_elem_of_lookup)%list_elem_of_fmap. destruct (Hc i g Hi) as (_ & Hgl & g0 & Hg0 & -> & _).
    split; [done|]. destruct (Hl g0) as [_ ?]; [|done]. apply list_elem_of_fmap. exists g0. split; [done|by eapply list_elem_of_lookup_2].
Qed.
Lemma copies_in_tab w w' k va f base gs hs :
  copies w w' base gs hs → pages_live w (Some <$> gs) →
  (∀ i, (i < length gs)%nat → pt_tab w' k (page_va va i) = Some (Some (page_va base i), f)) → in_tab w' k va f (Some <$> hs).
Proof.
  intros Hc Hl Ht i pg Hi. destruct (copies_page_copy _ _ _ _ _ Hc Hl) as [_ Hlive]. destruct Hc as [Hn Hc].
  pose proof Hi as Hin%list_elem_of_lookup_2. rewrite list_lookup_fmap in Hi. destruct (hs !! i) as [g|] eqn:Hg; [|done]. simplify_eq/=.
  destruct (Hc i g Hg) as (_ & Hgl & g0 & Hg0 & Hb & Hp). split; [|by intros g' [= <-]; apply Hlive].
  rewrite Ht, Hp; [done|]. by eapply lookup_lt_Some.
Qed.
Lemma omap_Some {A} (l : list A) : omap id (Some <$> l) = l.
Proof. induction l as [|x l IH]; [done|]. cbn. by rewrite IH. Qed.

Lemma whole_copy_ok child va f gs b w :
  aligned va → gs ≠ [] → pages_live w (Some <$> gs) → free_in w child va (length gs) →
  ∃ ps' w2, new_alloc va (length gs) f (Some (all_bytes w gs)) b (pt_select child w) =
      Ok ({| pages := ps'; vaddr := va; shared := false; flags := f; backend := b |}, w2) ∧
    let w' := pt_select (pt_current w) w2 in
    span_step child va (length gs) w w' ∧ Forall2 (page_copy w w') (Some <$> gs) ps' ∧ in_tab w' child va f ps' ∧
    NoDup (omap id ps') ∧ pages_live w' ps'.
Proof.
  intros Ha Hne Hl Hf. unfold new_alloc. destruct (law_select child w) as (C0 & E0 & E0' & T0). set (w0 := pt_select child w) in *.
  pose proof (contiguous_succeeds (length gs) (Some (all_bytes w gs)) w0) as Ho.
  destruct (page_alloc_contiguous _ _ w0) as [[l w1]|e|] eqn:Ea; [|done..]. rewrite bind_Ok.
  destruct (law_contiguous _ _ _ _ _ Ea (all_bytes_length w gs Hl)) as (Hs & hs & -> & Hn & Hnd & Hpg).
  pose proof (Hs child va) as S1. destruct hs as [|h0 hs]; [by destruct gs|]. rewrite fmap_cons, bind_Ok. cbv beta iota zeta.
  destruct (law_pt_region va (page_paddr h0 w1) (length gs) f w1) as (w2 & Er & S2 & T2); [done| |].
  { rewrite (span_current _ _ _ _ _ S1), C0. eapply free_step; [exact S1|done|right; right; unfold page_va; lia|].
    intros i Hi. rewrite T0. by apply Hf. }
  rewrite Er. cbn [unwrap]. rewrite bind_Ok. exists (Some <$> h0 :: hs), w2. split; [done|]. cbv zeta. set (w' := pt_select (pt_current w) w2).
  rewrite (span_current _ _ _ _ _ S1), C0 in S2, T2.
  destruct (law_select (pt_current w) w2) as (_ & E3 & _ & T3). fold w' in E3, T3.
  assert (mem_ext w1 w') as E1' by (etrans; [exact (span_ext _ _ _ _ _ S2)|done]).
  assert (copies w w' (page_paddr h0 w1) gs (h0 :: hs)) as Hc.
  { split; [done|]. intros i g Hi. destruct (Hpg i g Hi) as (Hno & Hgl & Hgb & Hgp).
    assert (i < length gs)%nat as [g0 Hg0]%lookup_lt_is_Some_2 by (rewrite <- Hn; by eapply lookup_lt_Some).
    split_and!; [intros Hw; by apply Hno, (ext_live _ _ E0)|by apply (ext_live _ _ E1')|]. exists g0. split_and!; [done| |].
    - rewrite (ext_bytes _ _ E1') by done. rewrite Hgb. by apply all_bytes_page.
    - rewrite (ext_paddr _ _ E1') by done. by apply Hgp. }
  destruct (copies_page_copy _ _ _ _ _ Hc Hl) as [HF HL]. split_and!; [|done| | |done].
  - apply select_span. eapply span_trans; [|exact S2]. eapply span_weaken; [| |exact S1]; unfold page_va, PAGE_SIZE_4K; lia.
  - eapply copies_in_tab; [done..|]. intros i Hi. by rewrite T3, T2.
  - by rewrite omap_Some.
Qed.

(** ** The missing pages of a shared area *)

(** The file behind an area can be read at each of its pages. *)
Definition readable (w : W) (a : MapArea) : Prop :=
  ∀ b i, backend a = Some b → (i < length (pages a))%nat →
    (file_read_full (b_file b) (b_pos b + Z.of_nat i * PAGE_SIZE_4K) (Z.to_nat PAGE_SIZE_4K) w).2 = None.

(** The page a fault allocates and fills. *)
Lemma fault_fill_ok a i w :
  area_ok a → readable w a → (i < length (pages a))%nat →
  ∃ g w1, page_alloc w = Ok (g, w1) ∧ ¬ live w g ∧ ∃ w2,
    (match backend a with
     | Some b => '(r, b) ← read_from_seek (Z.of_nat i * PAGE_SIZE_4K) (Z.to_nat PAGE_SIZE_4K) b w1;
                 Ok (with_backend a (Some b), fill_page g r w1)
     | None => Ok (a, page_set_bytes g zero_page w1)
     end) = Ok (a, w2) ∧ (∀ k lo, span_step k lo 0 w w2) ∧ live w2 g ∧ length (page_bytes g w2) = 4096%nat.
Proof.
  intros Ha Hr Hi. destruct (alloc_ok w) as (g & w1 & E & E1 & Hlen & Hn & Hset). exists g, w1. split_and!; [done..|].
  assert (∀ bs, length bs = 4096%nat → (∀ k lo, span_step k lo 0 w (page_set_bytes g bs w1)) ∧ live (page_set_bytes g bs w1) g ∧
    length (page_bytes g (page_set_bytes g bs w1)) = 4096%nat) as Hput.
  { intros bs Hbs. destruct (Hset bs) as (Hl & Hb & Hs). by rewrite Hb. }
  destruct (backend a) as [b|] eqn:Eb; [|by exists (page_set_bytes g zero_page w1); split; [done|apply Hput]].
  unfold read_from_seek. rewrite (seek_ok a i b Ha) by (done || lia). cbn [unwrap]. rewrite bind_Ok.
  specialize (Hr b i Eb Hi). cbn [backend_at b_file b_pos]. rewrite <- (ext_file _ _ E1) in Hr.
  pose proof (law_read_len (b_file b) (b_pos b + Z.of_nat i * PAGE_SIZE_4K) (Z.to_nat PAGE_SIZE_4K) w1) as Hle.
  destruct (file_read_full _ _ _ w1) as [bs err]. cbn in Hr, Hle. subst err. rewrite bind_Ok. eexists. split.
  - f_equal. f_equal. unfold with_backend, backend_at. destruct a, b. cbn in *. by rewrite Eb.
  - apply Hput. rewrite length_app, length_drop, Hlen. unfold PAGE_SIZE_4K in Hle. lia.
Qed.

Lemma fault_one_ok a i w :
  area_ok a → in_tab w (pt_current w) (vaddr a) (flags a) (pages a) → readable w a → pages a !! i = Some None →
  ∃ g w', handle_page_fault (page_va (vaddr a) i) 0 a w = Ok (true, with_pages a (<[i := Some g]> (pages a)), w') ∧
    span_step (pt_current w) (page_va (vaddr a) i) 1 w w' ∧
    in_tab w' (pt_current w) (vaddr a) (flags a) (<[i := Some g]> (pages a)).
Proof.
  intros Ha Hp Hr Hi. pose proof (lookup_lt_Some _ _ _ Hi) as Hlt. pose proof (ok_aligned a Ha) as Hal.
  pose proof (page_va_aligned _ i Hal) as Hpa. unfold handle_page_fault.
  assert (vaddr a ≤ page_va (vaddr a) i < end_va a) as Hin by (unfold page_va, end_va, size, PAGE_SIZE_4K; lia).
  assert ((page_va (vaddr a) i - vaddr a) / PAGE_SIZE_4K = Z.of_nat i) as -> by (unfold page_va, PAGE_SIZE_4K; mlia).
  assert (align_down_4k (page_va (vaddr a) i) = page_va (vaddr a) i) as -> by (unfold align_down_4k, aligned in *; lia).
  rewrite bool_decide_eq_true_2 by lia. cbn [rassert]. rewrite bind_Ok.
  assert (flags_contains (flags a) 0 = true) as -> by (apply bool_decide_eq_true_2, Z.land_0_r). cbn [negb]. rewrite Nat2Z.id, Hi.
  destruct (fault_fill_ok a i w Ha Hr Hlt) as (g & w1 & -> & Hn & w2 & Hfill & Hs & Hl & Hlen). cbn [unwrap]. rewrite bind_Ok. cbv beta iota zeta.
  rewrite Hfill, bind_Ok. destruct (Hs (pt_current w) (page_va (vaddr a) i)) as [C1 E1 T1].
  destruct (law_pt_overwrite (page_va (vaddr a) i) (page_paddr g w2) (flags a) w2) as (w' & -> & S2 & T2); [done| |].
  { rewrite C1, T1 by (done || right; unfold page_va; lia). destruct (Hp i None Hi) as [-> _]. by eexists. }
  cbn [unwrap]. rewrite bind_Ok. exists g, w'. rewrite C1 in S2, T2. pose proof (span_ext _ _ _ _ _ S2) as E2. split_and!; [done| |].
  - eapply span_trans; [|exact S2]. eapply span_weaken; [| |exact (Hs (pt_current w) (page_va (vaddr a) i))]; unfold page_va, PAGE_SIZE_4K; lia.
  - intros j pg Hj. destruct (decide (i = j)) as [<-|Hne].
    + rewrite list_lookup_insert_eq in Hj by done. simplify_eq/=. rewrite T2, (ext_paddr _ _ E2) by done. split; [done|].
      intros g' [= <-]. split; [by apply (ext_live _ _ E2)|by rewrite (ext_bytes _ _ E2)].
    + rewrite list_lookup_insert_ne in Hj by done. destruct (Hp j pg Hj) as [Ht Hg].
      assert (mem_ext w w') as E by (by etrans). split.
      * pose proof (page_va_aligned _ j Hal) as Hja.
        rewrite (span_tab _ _ _ _ _ S2), T1, Ht by first [done|right; unfold page_va, PAGE_SIZE_4K; lia].
        destruct pg as [h|]; [|done]. cbn. rewrite (ext_paddr _ _ E); [done|]. by apply Hg.
      * intros h Hh. destruct (Hg h Hh). split; [by apply (ext_live _ _ E)|by rewrite (ext_bytes _ _ E)].
Qed.

Lemma with_pages_twice a ps ps' : with_pages (with_pages a ps) ps' = with_pages a ps'.
Proof. done. Qed.
Lemma with_pages_self a : with_pages a (pages a) = a.
Proof. by destruct a. Qed.
Lemma with_pages_area_ok a ps : area_ok a → length ps = length (pages a) → area_ok (with_pages a ps).
Proof. intros [A B C D E] Hl. split; unfold end_va, size in *; cbn; rewrite ?Hl; done. Qed.
Lemma all_some {A} (l : list (option A)) : (∀ i x, l !! i = Some x → x ≠ None) → ∃ gs, l = Some <$> gs.
Proof.
  induction l as [|[x|] l IH]; intros Hl; [by exists []| |by destruct (Hl 0%nat None)].
  destruct IH as [gs ->]; [|by exists (x :: gs)]. intros i. apply (Hl (S i)).
Qed.
Lemma readable_step w w' a ps : mem_ext w w' → length ps = length (pages a) → readable w a → readable w' (with_pages a ps).
Proof. intros E Hl Hr b i Hb Hi. cbn in Hi. rewrite Hl in Hi. rewrite (ext_file _ _ E). by apply Hr. Qed.

Lemma fault_missing_ok n : ∀ i a w,
  area_ok a → in_tab w (pt_current w) (vaddr a) (flags a) (pages a) → readable w a →
  (i + n = length (pages a))%nat → (∀ j, (j < i)%nat → pages a !! j ≠ Some None) →
  ∃ gs w', fault_missing i n a w = Ok (with_pages a (Some <$> gs), w') ∧ length gs = length (pages a) ∧
    (∀ j g, pages a !! j = Some (Some g) → gs !! j = Some g) ∧
    span_step (pt_current w) (vaddr a) (length (pages a)) w w' ∧
    in_tab w' (pt_current w) (vaddr a) (flags a) (Some <$> gs).
Proof.
  induction n as [|n IH]; intros i a w Ha Hp Hr Hn Hall.
  - destruct (all_some (pages a)) as [gs Hgs].
    { intros j x Hj ->. apply (Hall j); [|done]. apply lookup_lt_Some in Hj. lia. }
    exists gs, w. rewrite Hgs in *. split_and!; [by rewrite <- Hgs, with_pages_self|by rewrite length_fmap| |apply span_refl|done].
    intros j g. rewrite list_lookup_fmap. destruct (gs !! j); cbn; by intros [= ->].
  - cbn [fault_missing]. assert (i < length (pages a))%nat as [pg Hi]%lookup_lt_is_Some_2 by lia. rewrite Hi. destruct pg as [g|].
    + rewrite bind_Ok. apply IH; [done..|lia|]. intros j Hj. destruct (decide (j = i)) as [->|]; [by rewrite Hi|apply Hall; lia].
    + destruct (fault_one_ok a i w Ha Hp Hr Hi) as (g & w1 & E & S1 & I1). unfold page_va in E. rewrite E, !bind_Ok.
      set (ps1 := <[i := Some g]> (pages a)) in *. assert (length ps1 = length (pages a)) as Hl1 by apply length_insert.
      pose proof (span_current _ _ _ _ _ S1) as C1. rewrite <- C1 in I1.
      destruct (IH (S i) (with_pages a ps1) w1) as (gs & w' & -> & Hgl & Hkeep & S2 & I2).
      { by apply with_pages_area_ok. }
      { done. }
      { eapply readable_step; [apply (span_ext _ _ _ _ _ S1)|done..]. }
      { cbn. rewrite Hl1. lia. }
      { intros j Hj. cbn. subst ps1. destruct (decide (i = j)) as [<-|]; [by rewrite list_lookup_insert_eq by lia|].
        rewrite list_lookup_insert_ne by done. apply Hall. lia. }
      cbn in Hgl, Hkeep, S2, I2. rewrite C1, Hl1 in *. exists gs, w'. split_and!; [by rewrite with_pages_twice|done| |  |done].
      * intros j h Hj. apply Hkeep. subst ps1. rewrite list_lookup_insert_ne; [done|]. intros ->. congruence.
      * eapply span_trans; [|exact S2]. apply lookup_lt_Some in Hi. eapply span_weaken; [| |exact S1]; unfold page_va, PAGE_SIZE_4K; lia.
Qed.

(** ** One area *)

(** A window ([new_without_alloc], the area of the vDSO): no page of it has a frame, but
    the table maps it, as [T0] says. *)
Definition window (T0 : Z → option (option Z * Z)) (w : W) (k : nat) (a : MapArea) (ps : list (option PageRef)) : Prop :=
  shared a = false ∧ Forall (λ pg, pg = None) ps ∧
  ∀ i, (i < length ps)%nat → ∃ pa, T0 (page_va (vaddr a) i) = Some (Some pa, flags a) ∧
    pt_tab w k (page_va (vaddr a) i) = T0 (page_va (vaddr a) i).
(** The table [k] maps the pages [ps] of the area, or it is a window. *)
Definition held (T0 : Z → option (option Z * Z)) (w : W) (k : nat) (a : MapArea) (ps : list (option PageRef)) : Prop :=
  in_tab w k (vaddr a) (flags a) ps ∨ window T0 w k a ps.

Lemma held_live T0 w k a ps : held T0 w k a ps → pages_live w ps.
Proof.
  intros [Hp|(_ & Hn & _)]; [by eapply in_tab_live|]. intros g Hg. rewrite Forall_forall in Hn. by specialize (Hn _ Hg).
Qed.

(** The pages of an area before, its pages after, and those of its copy. *)
Definition area_forked (w w' : W) (sh : bool) (ps ps2 ps' : list (option PageRef)) : Prop :=
  if sh then
    ∃ gs, ps2 = Some <$> gs ∧ ps' = Some <$> gs ∧ length gs = length ps ∧ ∀ j g, ps !! j = Some (Some g) → gs !! j = Some g
  else ps2 = ps ∧ Forall2 (page_copy w w') ps ps' ∧ NoDup (omap id ps').
(** Entries of the [n] pages from [lo] may change in every table. *)
Record pages_step (lo : Z) (n : nat) (w w' : W) : Prop := {
  pstep_current : pt_current w' = pt_current w;
  pstep_ext : mem_ext w w';
  pstep_tab j p : aligned p → p < lo ∨ page_va lo n ≤ p → pt_tab w' j p = pt_tab w j p
}.
Lemma span_pages k lo n w w' : span_step k lo n w w' → pages_step lo n w w'.
Proof. intros [C E T]. split; [done..|]. intros j p Hp Hj. apply T; [done|by right]. Qed.

Lemma clone_backend_ok a : area_ok a → clone_backend (backend a) = Ok (backend a).
Proof.
  intros Ha. destruct (backend a) as [b|] eqn:E; [|done]. cbn. unfold backend_clone. by rewrite (bk_file _ _ (ok_backend a Ha b E)).
Qed.
Lemma with_backend_self a ps : with_backend (with_pages a ps) (backend a) = with_pages a ps.
Proof. done. Qed.

(** A window is copied as an area without any page: the child has nothing there. *)
Lemma window_copy_ok T0 child a w :
  child ≠ pt_current w → area_ok a → window T0 w (pt_current w) a (pages a) → free_in w child (vaddr a) (length (pages a)) →
  ∃ ps2 ps' w', clone_alloc child a w = Ok (with_pages a ps', with_pages a ps2, w') ∧
    area_forked w w' (shared a) (pages a) ps2 ps' ∧ pages_step (vaddr a) (length (pages a)) w w' ∧
    held T0 w' (pt_current w) a ps2 ∧ in_tab w' child (vaddr a) (flags a) ps'.
Proof.
  intros Hch Ha Hw Hf. pose proof (ok_aligned a Ha) as Hal. pose proof (held_live T0 w (pt_current w) a _ (or_intror Hw)) as Hl.
  destruct Hw as (Esh & Hn & Ht). unfold clone_alloc, area_forked. rewrite Esh.
  assert (allocated a = false) as ->.
  { unfold allocated. pose proof (ok_nonempty a Ha) as Hne. destruct (pages a) as [|pg ps]; [cbn in Hne; lia|].
    apply Forall_cons in Hn as [-> _]. done. }
  destruct (copy_pages_ok child (flags a) (pages a) (vaddr a) w) as (ps' & w' & -> & S & F & I & N & _); [done..|].
  rewrite bind_Ok, (clone_backend_ok a Ha), bind_Ok. exists (pages a), ps', w'.
  split_and!; [by rewrite with_pages_self|done..|by eapply span_pages| |done].
  right. split_and!; [done..|]. intros i Hi. destruct (Ht i Hi) as (pa & Hpa & Heq). exists pa. split; [done|].
  rewrite (span_tab _ _ _ _ _ S); [done|by apply page_va_aligned|left; by apply not_eq_sym].
Qed.

Lemma clone_alloc_ok T0 child a w :
  child ≠ pt_current w → area_ok a → held T0 w (pt_current w) a (pages a) →
  free_in w child (vaddr a) (length (pages a)) → (shared a = true → readable w a) →
  ∃ ps2 ps' w', clone_alloc child a w = Ok (with_pages a ps', with_pages a ps2, w') ∧
    area_forked w w' (shared a) (pages a) ps2 ps' ∧ pages_step (vaddr a) (length (pages a)) w w' ∧
    held T0 w' (pt_current w) a ps2 ∧ in_tab w' child (vaddr a) (flags a) ps'.
Proof.
  intros Hch Ha Hp Hf Hr. pose proof (ok_aligned a Ha) as Hal.
  destruct Hp as [Hp|Hw]; [|by apply window_copy_ok]. unfold clone_alloc, area_forked. destruct (shared a) eqn:Esh.
  - destruct (fault_missing_ok (length (pages a)) 0 a w) as (gs & w1 & -> & Hgl & Hkeep & S1 & I1); [done|done|by apply Hr|done|lia|].
    rewrite bind_Ok. cbn [with_pages pages vaddr flags backend].
    destruct (map_shared_ok child (flags a) gs (vaddr a) w1) as (w' & -> & S2 & I2); [done|by eapply in_tab_live| |].
    { eapply free_step; [exact S1|done|by left|]. by rewrite Hgl. }
    rewrite bind_Ok, (clone_backend_ok a Ha), bind_Ok. exists (Some <$> gs), (Some <$> gs), w'. split_and!; [done|by exists gs| | |done].
    + destruct (span_pages _ _ _ _ _ S1) as [C1 E1 T1]. rewrite Hgl in S2. destruct (span_pages _ _ _ _ _ S2) as [C2 E2 T2].
      split; [congruence|by etrans|]. intros j p Hj Hq. by rewrite T2, T1.
    + left. eapply in_tab_step; [exact S2|done|by left|done].
  - destruct (allocated a) eqn:Eal.
    + destruct (all_some (pages a)) as [gs Hgs].
      { intros i x Hi ->. apply forallb_forall with (x := None) in Eal; [done|]. apply list_elem_of_In. by eapply list_elem_of_lookup_2. }
      rewrite Hgs in *. rewrite length_fmap in *. rewrite (as_slice_ok gs (flags a) w _ Hal Hp), bind_Ok, (clone_backend_ok a Ha), bind_Ok.
      destruct (whole_copy_ok child (vaddr a) (flags a) gs (backend a) w) as (ps' & w2 & -> & S & F & I & N & L).
      { done. }
      { intros ->. pose proof (ok_nonempty a Ha) as Hne. rewrite Hgs in Hne. cbn in Hne. lia. }
      { by eapply in_tab_live. }
      { done. }
      rewrite bind_Ok. exists (pages a), ps', (pt_select (pt_current w) w2). rewrite Hgs, ?length_fmap. split_and!; [|done..|by eapply span_pages| |done].
      * clear -Esh Hgs. destruct a. cbn in *. by subst.
      * left. eapply in_tab_step; [exact S|done|by left|done].
    + destruct (copy_pages_ok child (flags a) (pages a) (vaddr a) w) as (ps' & w' & -> & S & F & I & N & L); [done|by eapply in_tab_live|done|].
      rewrite bind_Ok, (clone_backend_ok a Ha), bind_Ok. exists (pages a), ps', w'.
      split_and!; [by rewrite with_pages_self|done..|by eapply span_pages| |done]. left. eapply in_tab_step; [exact S|done|by left|done].
Qed.

(** ** All areas *)

Lemma bt_insert_last {V} (k : Z) (v : V) m : Forall (λ e, e.1 < k) m → bt_insert k v m = m ++ [(k, v)].
Proof.
  induction 1 as [|[k' v'] m Hk Hm IH]; [done|]. cbn in *. rewrite decide_False by (unfold ord_lt; cbn; lia).
  by rewrite decide_False, IH by lia.
Qed.

(** Areas in the order of their addresses, apart from each other. *)
Record apart (m : list (Z * MapArea)) : Prop := {
  apart_sorted : StronglySorted (λ e e', e.1 < e'.1 ∧ end_va e.2 ≤ vaddr e'.2) m;
  apart_ok : Forall (λ '(k, a), k = vaddr a ∧ area_ok a) m
}.
Lemma apart_cons k a m : apart ((k, a) :: m) →
  apart m ∧ area_ok a ∧ Forall (λ e, k < e.1 ∧ end_va a ≤ vaddr e.2 ∧ area_ok e.2) m.
Proof.
  intros [Hs Hk]. apply StronglySorted_inv in Hs as [Hs Hf]. apply Forall_cons in Hk as [[_ Ha] Hk]. split_and!; [by split|done|].
  apply Forall_forall. intros [k' a'] Hin. rewrite Forall_forall in Hf, Hk. destruct (Hf _ Hin). by destruct (Hk _ Hin).
Qed.
Lemma end_va_page a : end_va a = page_va (vaddr a) (length (pages a)).
Proof. done. Qed.

(** An area, what it is after the fork, and its copy. *)
Definition area_rel (T0 : Z → option (option Z * Z)) (cur child : nat) (w w' : W) (e e2 e' : Z * MapArea) : Prop :=
  ∃ ps2 ps', e2 = (e.1, with_pages e.2 ps2) ∧ e' = (e.1, with_pages e.2 ps') ∧
    area_forked w w' (shared e.2) (pages e.2) ps2 ps' ∧
    held T0 w' cur e.2 ps2 ∧ in_tab w' child (vaddr e.2) (flags e.2) ps'.
(** Only entries of pages of the areas change. *)
Record areas_step (m : list (Z * MapArea)) (w w' : W) : Prop := {
  astep_current : pt_current w' = pt_current w;
  astep_ext : mem_ext w w';
  astep_tab j p : aligned p → Forall (λ e, p < vaddr e.2 ∨ end_va e.2 ≤ p) m → pt_tab w' j p = pt_tab w j p
}.
Definition private_pages (m : list (Z * MapArea)) : list PageRef :=
  m ≫= λ e, if shared e.2 then [] else omap id (pages e.2).

Lemma in_tab_frame w w' k va f ps :
  mem_ext w w' → (∀ i, (i < length ps)%nat → pt_tab w' k (page_va va i) = pt_tab w k (page_va va i)) →
  in_tab w k va f ps → in_tab w' k va f ps.
Proof.
  intros E T Hp i pg Hi. destruct (Hp i pg Hi) as [Ht Hl]. split.
  - rewrite T, Ht by (by eapply lookup_lt_Some). destruct pg as [g|]; [|done]. cbn. by rewrite (ext_paddr _ _ E) by naive_solver.
  - intros g Hg. destruct (Hl g Hg) as [Hv Hn]. split; [by apply (ext_live _ _ E)|by rewrite (ext_bytes _ _ E)].
Qed.
Lemma held_frame T0 w w' k a ps :
  mem_ext w w' → (∀ i, (i < length ps)%nat → pt_tab w' k (page_va (vaddr a) i) = pt_tab w k (page_va (vaddr a) i)) →
  held T0 w k a ps → held T0 w' k a ps.
Proof.
  intros E T [Hp|(Hs & Hn & Ht)]; [left; by eapply in_tab_frame|right]. split_and!; [done..|]. intros i Hi.
  destruct (Ht i Hi) as (pa & Hpa & Heq). exists pa. split; [done|]. by rewrite T.
Qed.
Lemma area_forked_mono w w1 w2 w' sh ps ps2 ps' :
  mem_ext w w1 → mem_ext w2 w' → pages_live w ps → area_forked w1 w2 sh ps ps2 ps' → area_forked w w' sh ps ps2 ps'.
Proof.
  intros E1 E2 Hl. unfold area_forked. destruct sh; [done|]. intros (-> & [Hlen F]%Forall2_same_length_lookup & N).
  split_and!; [done| |done]. apply Forall2_same_length_lookup. split; [done|]. intros i x y Hx Hy.
  eapply page_copy_after; [done|]. eapply page_copy_ext; [done| |by eapply F]. intros g ->. apply Hl. by apply list_elem_of_lookup_2 in Hx.
Qed.
(** The private pages of a copy are fresh. *)
Lemma area_forked_fresh w w' ps ps2 ps' g :
  area_forked w w' false ps ps2 ps' → g ∈ omap id ps' → ¬ live w g ∧ live w' g.
Proof.
  intros (_ & [Hlen F]%Forall2_same_length_lookup & _) (x & [i Hi]%list_elem_of_lookup & Hx)%list_elem_of_omap. cbn in Hx. subst x.
  assert (i < length ps)%nat as [x Hx]%lookup_lt_is_Some_2 by (rewrite Hlen; by eapply lookup_lt_Some).
  pose proof (F i x _ Hx Hi) as Hc. destruct x; [|done]. by destruct Hc as (g' & [= <-] & ? & ? & _).
Qed.
Lemma area_forked_length w w' sh ps ps2 ps' : area_forked w w' sh ps ps2 ps' → length ps2 = length ps ∧ length ps' = length ps.
Proof.
  unfold area_forked. destruct sh.
  - intros (gs & -> & -> & Hl & _). by rewrite length_fmap.
  - intros (-> & F & _). split; [done|]. symmetry. by eapply Forall2_length.
Qed.
Lemma area_step_mono T0 cur child w w1 w' k a e2 e' m :
  mem_ext w w1 → areas_step m w1 w' → apart ((k, a) :: m) → pages_live w (pages a) →
  area_rel T0 cur child w w1 (k, a) e2 e' → area_rel T0 cur child w w' (k, a) e2 e'.
Proof.
  intros E1 [C2 E2 T2] (_ & Ha & Hm)%apart_cons Hl (ps2 & ps' & -> & -> & F & I2 & I'). exists ps2, ps'.
  destruct (area_forked_length _ _ _ _ _ _ F) as [L2 L']. cbn [fst snd] in *.
  assert (∀ j (ps : list (option PageRef)) i, length ps = length (pages a) → (i < length ps)%nat → pt_tab w' j (page_va (vaddr a) i) = pt_tab w1 j (page_va (vaddr a) i)) as Hsame.
  { intros j ps i Hlen Hi. apply T2; [apply page_va_aligned, (ok_aligned a Ha)|]. eapply Forall_impl; [exact Hm|].
    intros [k' a'] (_ & He & _). left. cbn in *. rewrite end_va_page in He.
    pose proof (page_va_lt (vaddr a) i (length (pages a))). unfold PAGE_SIZE_4K in *. lia. }
  split_and!; [done..| | |]; cbn.
  - by eapply (area_forked_mono w w w1 w').
  - apply (held_frame T0 w1); [done| |done]. intros i Hi. by apply (Hsame _ ps2).
  - apply (in_tab_frame w1); [done| |done]. intros i Hi. by apply (Hsame _ ps').
Qed.

(** An area that a fork can copy to the table [child]. *)
Record clonable (T0 : Z → option (option Z * Z)) (w : W) (child : nat) (a : MapArea) : Prop := {
  cl_tab : held T0 w (pt_current w) a (pages a);
  cl_free : free_in w child (vaddr a) (length (pages a));
  cl_read : shared a = true → readable w a
}.
Lemma clonable_step T0 w w1 child k a m :
  pages_step (vaddr a) (length (pages a)) w w1 → apart ((k, a) :: m) →
  Forall (λ e, clonable T0 w child e.2) m → Forall (λ e, clonable T0 w1 child e.2) m.
Proof.
  intros [C E T] (_ & _ & Hm)%apart_cons Hcl. apply Forall_forall. intros [k' a'] Hin. rewrite Forall_forall in Hm, Hcl.
  destruct (Hm _ Hin) as (_ & He & Ha'). destruct (Hcl _ Hin) as [Ht Hf Hr]. rewrite end_va_page in He. cbn [snd] in *.
  assert (∀ j i, pt_tab w1 j (page_va (vaddr a') i) = pt_tab w j (page_va (vaddr a') i)) as Hsame.
  { intros j i. apply T; [apply page_va_aligned, (ok_aligned a' Ha')|]. right. unfold page_va, PAGE_SIZE_4K in *. lia. }
  split; [|intros i Hi; rewrite Hsame; by apply Hf|].
  - rewrite C. by apply (held_frame T0 w).
  - intros Hs b i Hb Hi. rewrite (ext_file _ _ E). by apply Hr.
Qed.
Lemma private_pages_cons k a m : private_pages ((k, a) :: m) = (if shared a then [] else omap id (pages a)) ++ private_pages m.
Proof. done. Qed.

(** The pages of the copy of one area are fresh, and so other than those of the rest. *)
Lemma private_pages_fresh w w1 w' k a ps2 ps' mc :
  mem_ext w w1 → mem_ext w1 w' → area_forked w w1 (shared a) (pages a) ps2 ps' →
  NoDup (private_pages mc) → (∀ g, g ∈ private_pages mc → ¬ live w1 g ∧ live w' g) →
  NoDup (private_pages ((k, with_pages a ps') :: mc)) ∧
  ∀ g, g ∈ private_pages ((k, with_pages a ps') :: mc) → ¬ live w g ∧ live w' g.
Proof.
  intros E1 E2 F N Hf. rewrite private_pages_cons. cbn [with_pages shared pages].
  assert (∀ g, g ∈ (if shared a then [] else omap id ps') → ¬ live w g ∧ live w1 g) as Hhead.
  { destruct (shared a); [by intros g ?%elem_of_nil|]. intros g. by apply (area_forked_fresh w w1 (pages a) ps2). }
  split.
  - apply NoDup_app. split_and!; [|intros g Hg Hg'|done].
    + destruct (shared a); [constructor|]. by destruct F as (_ & _ & ?).
    + destruct (Hf g Hg') as [Hno _]. by apply Hno, Hhead.
  - intros g [Hg|Hg]%elem_of_app.
    + destruct (Hhead g Hg). split; [done|by apply (ext_live _ _ E2)].
    + destruct (Hf g Hg) as [Hno ?]. split; [|done]. intros Hl. by apply Hno, (ext_live _ _ E1).
Qed.

Lemma area_rel_before T0 cur child w w1 w' e e2 e' :
  mem_ext w w1 → pages_live w (pages e.2) → area_rel T0 cur child w1 w' e e2 e' → area_rel T0 cur child w w' e e2 e'.
Proof.
  intros E Hl (ps2 & ps' & -> & -> & F & I). exists ps2, ps'. split_and!; [done..| |apply I|apply I].
  by eapply (area_forked_mono w w1 w' w').
Qed.
Lemma Forall3_impl_elem {A B C} (P Q : A → B → C → Prop) l k k' :
  (∀ x y z, x ∈ l → P x y z → Q x y z) → Forall3 P l k k' → Forall3 Q l k k'.
Proof.
  intros Hpq. induction 1 as [|x y z l k k' Hp H3 IH]; constructor; [apply Hpq; [by left|done]|].
  apply IH. intros. apply Hpq; [by right|done].
Qed.
Lemma areas_step_cons k a m w w1 w' :
  pages_step (vaddr a) (length (pages a)) w w1 → areas_step m w1 w' → areas_step ((k, a) :: m) w w'.
Proof.
  intros [C1 E1 T1] [C2 E2 T2]. split; [congruence|by etrans|]. intros j p Hp [He Hm]%Forall_cons. by rewrite T2, T1.
Qed.

Lemma clone_areas_ok T0 child m : ∀ new w,
  child ≠ pt_current w → apart m → Forall (λ e, clonable T0 w child e.2) m →
  (∀ e e', e ∈ new → e' ∈ m → e.1 < e'.1) →
  ∃ m2 mc w', clone_areas child m new w = Ok (m2, new ++ mc, w') ∧
    Forall3 (area_rel T0 (pt_current w) child w w') m m2 mc ∧ areas_step m w w' ∧
    NoDup (private_pages mc) ∧ ∀ g, g ∈ private_pages mc → ¬ live w g ∧ live w' g.
Proof.
  induction m as [|[k a] m IH]; intros new w Hch Hap Hcl Hnew.
  { exists [], [], w. split_and!; [by rewrite app_nil_r|constructor|by split|constructor|by intros g ?%elem_of_nil]. }
  pose proof (apart_cons _ _ _ Hap) as (Hap' & Ha & Hm). apply Forall_cons in Hcl as [[Ht Hf Hr] Hcl]. cbn [snd] in *.
  destruct (clone_alloc_ok T0 child a w Hch Ha Ht Hf Hr) as (ps2 & ps' & w1 & E & F & S & I2 & I').
  cbn [clone_areas]. rewrite E, bind_Ok. cbv beta iota zeta. pose proof (pstep_current _ _ _ _ S) as C1.
  pose proof (pstep_ext _ _ _ _ S) as E1.
  destruct (IH (bt_insert k (with_pages a ps') new) w1) as (m2 & mc & w' & -> & F3 & S2 & N & Hfr).
  { by rewrite C1. }
  { done. }
  { by eapply clonable_step. }
  { rewrite bt_insert_last; [|apply Forall_forall; intros e He; by apply (Hnew e (k, a)); [|left]].
    intros e e' [He|He]%elem_of_app Hin; [apply Hnew; [done|by right]|]. apply list_elem_of_singleton in He as ->.
    rewrite Forall_forall in Hm. by apply Hm. }
  rewrite bt_insert_last, <- app_assoc by (apply Forall_forall; intros e He; by apply (Hnew e (k, a)); [|left]).
  rewrite bind_Ok. pose proof (astep_ext _ _ _ S2) as E2. exists ((k, with_pages a ps2) :: m2), ((k, with_pages a ps') :: mc), w'.
  destruct (private_pages_fresh w w1 w' k a ps2 ps' mc) as [HN HF]; [done..|]. split_and!; [done| |by eapply areas_step_cons|done..].
  rewrite C1 in F3. constructor.
  - eapply area_step_mono; [done|done|done|by eapply held_live|]. by exists ps2, ps'.
  - eapply Forall3_impl_elem; [|exact F3]. intros e e2 e' He Hrel. eapply area_rel_before; [done| |done].
    rewrite Forall_forall in Hcl. eapply held_live, (cl_tab _ _ _ _ (Hcl e He)).
Qed.

(** ** Regions of one table: those of the kernel and the attached segments *)

(** Regions of pages, apart from each other. *)
Notation span := (Z * nat)%type (only parsing).
Definition span_apart (x y : span) : Prop := page_va x.1 x.2 ≤ y.1 ∨ page_va y.1 y.2 ≤ x.1.
Definition outside (p : Z) (x : span) : Prop := p < x.1 ∨ page_va x.1 x.2 ≤ p.
Definition spans_ok (l : list span) : Prop := StronglySorted span_apart l ∧ Forall (λ x, aligned x.1) l.
Record spans_step (k : nat) (l : list span) (w w' : W) : Prop := {
  sstep_current : pt_current w' = pt_current w;
  sstep_ext : mem_ext w w';
  sstep_tab j p : aligned p → j ≠ k ∨ Forall (outside p) l → pt_tab w' j p = pt_tab w j p
}.
Lemma spans_nil k w : spans_step k [] w w.
Proof. by split. Qed.
Lemma spans_cons k va n l w w1 w' : span_step k va n w w1 → spans_step k l w1 w' → spans_step k ((va, n) :: l) w w'.
Proof.
  intros [C1 E1 T1] [C2 E2 T2]. split; [congruence|by etrans|]. intros j p Hp Hj.
  rewrite T2, T1; [done|done| |done|]; (destruct Hj as [?|[Ho Hl]%Forall_cons]; [by left|by right]).
Qed.
Lemma spans_ok_cons va n l : spans_ok ((va, n) :: l) → spans_ok l ∧ aligned va ∧ Forall (span_apart (va, n)) l.
Proof. intros [[Hs Hf]%StronglySorted_inv [Ha Hl]%Forall_cons]. by split_and!. Qed.
Lemma spans_free_step k va n l w w' :
  span_step k va n w w' → Forall (λ x, aligned x.1) l → Forall (span_apart (va, n)) l →
  Forall (λ x, free_in w k x.1 x.2) l → Forall (λ x, free_in w' k x.1 x.2) l.
Proof.
  intros S Ha Hap Hf. apply Forall_forall. intros [va' n'] Hin. rewrite Forall_forall in Ha, Hap, Hf.
  eapply free_step; [exact S|by apply (Ha _ Hin)| |by apply (Hf _ Hin)]. right. destruct (Hap _ Hin); cbn in *; [by right|by left].
Qed.

Definition span_of (va sz : Z) : span := (va, Z.to_nat (sz / PAGE_SIZE_4K)).
Lemma span_size sz : 0 ≤ sz → sz mod PAGE_SIZE_4K = 0 → Z.of_nat (Z.to_nat (sz / PAGE_SIZE_4K)) * PAGE_SIZE_4K = sz.
Proof. unfold PAGE_SIZE_4K. intros. mlia. Qed.

Lemma map_kernel_ok phys_to_virt rs : ∀ w,
  Forall (λ '(pa, sz, f), 0 ≤ sz ∧ sz mod PAGE_SIZE_4K = 0) rs →
  let l := (λ '(pa, sz, f), span_of (phys_to_virt pa) sz) <$> rs in
  spans_ok l → Forall (λ x, free_in w (pt_current w) x.1 x.2) l →
  ∃ w', map_kernel phys_to_virt rs w = Ok w' ∧ spans_step (pt_current w) l w w'.
Proof.
  induction rs as [|[[pa sz] f] rs IH]; intros w Hsz l Hok Hf; [by exists w|]. subst l.
  apply Forall_cons in Hsz as [[Hs0 Hs] Hsz]. cbn in Hok, Hf.
  apply spans_ok_cons in Hok as (Hok & Ha & Hap). apply Forall_cons in Hf as [Hf0 Hf]. cbn [fst snd span_of] in *.
  destruct (law_pt_region (phys_to_virt pa) pa (Z.to_nat (sz / PAGE_SIZE_4K)) f w Ha Hf0) as (w1 & E & S1 & _).
  rewrite span_size in E by done. cbn [map_kernel]. rewrite E. cbn [unwrap]. rewrite bind_Ok.
  pose proof (span_current _ _ _ _ _ S1) as C1. destruct (IH w1) as (w' & -> & S2); [done|done| |].
  { rewrite C1. eapply spans_free_step; [done|apply Hok|done..]. }
  rewrite C1 in S2. exists w'. split; [done|]. by eapply spans_cons.
Qed.

Definition segment_span (x : Z * Z * SharedMem) : span := span_of x.1.1 (sm_size x.2).
(** The table [k] shows the segment where it is attached. *)
Definition segment_shown (w : W) (k : nat) (x : Z * Z * SharedMem) : Prop :=
  ∀ i, (i < (segment_span x).2)%nat →
    pt_tab w k (page_va x.1.1 i) = Some (Some (page_va (sm_paddr x.2) i), x.1.2).

Lemma attach_one_ok child addr f mem ms w :
  aligned addr → 0 ≤ sm_size mem → sm_size mem mod PAGE_SIZE_4K = 0 →
  free_in w child addr (segment_span (addr, f, mem)).2 →
  ∃ w1, attach_shared_mem mem addr f ms (pt_select child w) =
      Ok ({| owned_mem := owned_mem ms; private_mem := private_mem ms; attached_mem := attached_mem ms ++ [(addr, f, mem)] |}, w1) ∧
    let w' := pt_select (pt_current w) w1 in
    span_step child addr (segment_span (addr, f, mem)).2 w w' ∧ segment_shown w' child (addr, f, mem).
Proof.
  intros Ha H0s Hsz Hf. destruct (law_select child w) as (C0 & _ & _ & T0).
  destruct (law_pt_region addr (sm_paddr mem) (segment_span (addr, f, mem)).2 f (pt_select child w) Ha) as (w1 & E & S1 & T1).
  { rewrite C0. intros i Hi. rewrite T0. by apply Hf. }
  cbn [segment_span span_of snd fst] in E. rewrite span_size in E by done. unfold attach_shared_mem. rewrite E. exists w1. split; [done|].
  rewrite C0 in S1, T1. split; [by apply select_span|]. intros i Hi. destruct (law_select (pt_current w) w1) as (_ & _ & _ & T2).
  rewrite T2. by apply T1.
Qed.
Lemma attach_all_ok child l : ∀ ms w,
  Forall (λ x, 0 ≤ sm_size x.2 ∧ sm_size x.2 mod PAGE_SIZE_4K = 0) l →
  spans_ok (segment_span <$> l) → Forall (λ x, free_in w child x.1 x.2) (segment_span <$> l) →
  ∃ w', attach_all child l ms w =
      Ok ({| owned_mem := owned_mem ms; private_mem := private_mem ms; attached_mem := attached_mem ms ++ l |}, w') ∧
    spans_step child (segment_span <$> l) w w' ∧ Forall (segment_shown w' child) l.
Proof.
  induction l as [|[[addr f] mem] l IH]; intros ms w Hsz Hok Hf.
  { exists w. rewrite app_nil_r. split_and!; [by destruct ms|apply spans_nil|constructor]. }
  apply Forall_cons in Hsz as [[Hs0 Hs] Hsz]. apply spans_ok_cons in Hok as (Hok & Ha & Hap). apply Forall_cons in Hf as [Hf0 Hf].
  destruct (attach_one_ok child addr f mem ms w Ha Hs0 Hs Hf0) as (w1 & E & S1 & Hshow). cbv zeta in S1, Hshow.
  cbn [attach_all]. rewrite E, bind_Ok. cbv beta iota zeta.
  destruct (IH {| owned_mem := owned_mem ms; private_mem := private_mem ms; attached_mem := attached_mem ms ++ [(addr, f, mem)] |}
    (pt_select (pt_current w) w1)) as (w' & -> & S2 & Hall); [done|done| |].
  { eapply spans_free_step; [exact S1|apply Hok|done..]. }
  exists w'. cbn [owned_mem private_mem attached_mem]. rewrite <- app_assoc. split_and!; [done|by eapply spans_cons|]. constructor; [|done].
  intros i Hi. rewrite (sstep_tab _ _ _ _ S2), Hshow; [done|done|by apply page_va_aligned|]. right.
  eapply Forall_impl; [exact Hap|]. intros x Hx. unfold span_apart, outside, segment_shown in *. cbn in *.
  pose proof (page_va_lt addr i _ Hi). unfold page_va, PAGE_SIZE_4K in *. destruct Hx; [left|right]; lia.
Qed.

(** ** Areas with other pages *)

Definition refilled : list (Z * MapArea) → list (Z * MapArea) → Prop :=
  Forall2 (λ e e', ∃ ps, e' = (e.1, with_pages e.2 ps) ∧ length ps = length (pages e.2)).
Lemma area_slots_keys a ps : length ps = length (pages a) → (area_slots (with_pages a ps)).*1 = (area_slots a).*1.
Proof.
  intros Hl. apply list_eq. intros i. unfold area_slots. rewrite !list_lookup_fmap, !list_lookup_imap. cbn.
  destruct (ps !! i) eqn:E, (pages a !! i) eqn:E'; [done| | |done].
  - apply lookup_lt_Some in E. apply lookup_ge_None in E'. lia.
  - apply lookup_lt_Some in E'. apply lookup_ge_None in E. lia.
Qed.
Lemma refilled_keys m m' : refilled m m' → (slots m'.*2).*1 = (slots m.*2).*1 ∧ m'.*1 = m.*1.
Proof.
  induction 1 as [|[k a] e' m m' (ps & -> & Hl) _ [IH IH']]; [done|]. cbn [fst snd] in *.
  rewrite !fmap_cons, IH'. split; [|done]. unfold slots in *. rewrite !bind_cons, !fmap_app, IH. cbn [snd]. by rewrite area_slots_keys.
Qed.
Lemma refilled_map_ok m m' : refilled m m' → map_ok m → map_ok m'.
Proof.
  intros Hr [Hs Hf]. split; [unfold bt_sorted in *; by rewrite (proj2 (refilled_keys _ _ Hr))|].
  clear Hs. induction Hr as [|[k a] e' m m' (ps & -> & Hl) _ IH]; [constructor|].
  apply Forall_cons in Hf as [[-> Ha] Hf]. constructor; [|by apply IH]. split; [done|by apply with_pages_area_ok].
Qed.
(** The slots of the areas have the permissions they had. *)
Lemma refilled_slot m m' p s' :
  refilled m m' → (p, s') ∈ slots m'.*2 → ∃ s, (p, s) ∈ slots m.*2 ∧ s_flags s' = s_flags s.
Proof.
  intros Hr (a' & ([k e'] & -> & [j Hj]%list_elem_of_lookup)%list_elem_of_fmap & Hp)%slots_elem.
  destruct (Forall2_lookup_r _ _ _ _ _ Hr Hj) as ([k0 a] & Ha & ps & [= -> ->] & Hl). cbn [fst snd] in Hp, Hl.
  apply area_slots_elem in Hp as (i & pg & Hi & -> & ->). cbn in Hi.
  assert (i < length (pages a))%nat as [pg0 Hpg]%lookup_lt_is_Some_2 by (rewrite <- Hl; by eapply lookup_lt_Some).
  exists (mk_slot a i pg0). split; [|done]. apply slots_elem. exists a. split.
  - apply list_elem_of_fmap. exists (k0, a). split; [done|by eapply list_elem_of_lookup_2].
  - apply area_slots_elem. by exists i, pg0.
Qed.
Lemma refilled_wf R ms w ms' w' :
  ms_wf R ms w → refilled (owned_mem ms) (owned_mem ms') →
  (∀ p s, space ms !! p = Some s → pt_flags w' p = Some (s_flags s)) →
  (∀ p, aligned p → ¬ R p → space ms !! p = None → pt_flags w' p = None) →
  ms_wf R ms' w' ∧ ∀ p, space ms !! p = None → space ms' !! p = None.
Proof.
  intros Hwf Hr Hin Hout. destruct (refilled_keys _ _ Hr) as [Hk _].
  assert (NoDup (slots (owned_mem ms').*2).*1) as Hnd by (rewrite Hk; apply Hwf).
  assert (∀ p s', space ms' !! p = Some s' → ∃ s, space ms !! p = Some s ∧ s_flags s' = s_flags s) as Hback.
  { intros p s' Hs'. apply space_elem in Hs'; [|done]. destruct (refilled_slot _ _ p s' Hr Hs') as (s & Hs & Hf).
    exists s. split; [|done]. apply space_elem; [apply Hwf|done]. }
  assert (∀ p s, space ms !! p = Some s → is_Some (space ms' !! p)) as Hforth.
  { intros p s Hs. apply space_elem in Hs; [|apply Hwf]. assert (p ∈ (slots (owned_mem ms').*2).*1) as Hp.
    { rewrite Hk. apply keys_elem. by exists s. }
    apply keys_elem in Hp as [s' Hs']. exists s'. by apply space_elem. }
  split; [split; [by eapply refilled_map_ok; [|apply Hwf]|done| | |]|].
  - intros p s' (s & Hs & ->)%Hback. by apply Hin.
  - intros p Hp HR Hn. apply Hout; [done..|]. apply eq_None_not_Some. intros [s Hs]. destruct (Hforth p s Hs). congruence.
  - intros p HR. apply eq_None_not_Some. intros [s' (s & Hs & _)%Hback]. by rewrite (ms_reserved R ms w Hwf p HR) in Hs.
  - intros p Hn. apply eq_None_not_Some. intros [s' (s & Hs & _)%Hback]. congruence.
Qed.

(** ** The contract *)

(** A page of the address space before the fork, after it, and in the child. *)
Definition slot_forked (w w' : W) (s s2 s' : slot) : Prop :=
  s_flags s2 = s_flags s ∧ s_flags s' = s_flags s ∧ s_shared s2 = s_shared s ∧ s_shared s' = s_shared s ∧
  s_file s2 = s_file s ∧ s_file s' = s_file s ∧
  if s_shared s then ∃ g, s_page s2 = Some g ∧ s_page s' = Some g ∧ ∀ g0, s_page s = Some g0 → g0 = g
  else s2 = s ∧ page_copy w w' (s_page s) (s_page s').
(** The table [k] maps the slot at [p]. *)
Definition shows (w : W) (k : nat) (p : Z) (s : slot) : Prop :=
  pt_tab w k p = Some ((λ g, page_paddr g w) <$> s_page s, s_flags s).
(** The same, or it is a page of a window, mapped as [T0] says. *)
Definition shows_held (T0 : Z → option (option Z * Z)) (w : W) (k : nat) (p : Z) (s : slot) : Prop :=
  shows w k p s ∨ s_page s = None ∧ s_shared s = false ∧ pt_tab w k p = T0 p ∧ ∃ pa, T0 p = Some (Some pa, s_flags s).

Lemma area_forked_at w w' a ps2 ps' i pg :
  area_forked w w' (shared a) (pages a) ps2 ps' → pages a !! i = Some pg →
  ∃ pg2 pg', ps2 !! i = Some pg2 ∧ ps' !! i = Some pg' ∧
    slot_forked w w' (mk_slot a i pg) (mk_slot (with_pages a ps2) i pg2) (mk_slot (with_pages a ps') i pg').
Proof.
  intros F Hi. unfold slot_forked, area_forked in *. cbn. destruct (shared a) eqn:Esh.
  - destruct F as (gs & -> & -> & Hl & Hk). assert (i < length gs)%nat as [g Hg]%lookup_lt_is_Some_2 by (rewrite Hl; by eapply lookup_lt_Some).
    exists (Some g), (Some g). rewrite list_lookup_fmap, Hg. split_and!; [done..|]. exists g. split_and!; [done..|].
    intros g0 ->. apply Hk in Hi. congruence.
  - destruct F as (-> & [Hl F]%Forall2_same_length_lookup & _).
    assert (i < length ps')%nat as [pg' Hg]%lookup_lt_is_Some_2 by (rewrite <- Hl; by eapply lookup_lt_Some).
    exists pg, pg'. split_and!; [done..| |by eapply F]. unfold mk_slot. by rewrite with_pages_self.
Qed.

(** From areas to the address space. *)
Lemma areas_forked_space T0 R ms w cur child w0 w' ms2 ms' p s :
  ms_wf R ms w → NoDup (slots (owned_mem ms2).*2).*1 → NoDup (slots (owned_mem ms').*2).*1 →
  Forall3 (area_rel T0 cur child w0 w') (owned_mem ms) (owned_mem ms2) (owned_mem ms') →
  space ms !! p = Some s →
  ∃ s2 s', space ms2 !! p = Some s2 ∧ space ms' !! p = Some s' ∧ slot_forked w0 w' s s2 s' ∧
    shows_held T0 w' cur p s2 ∧ shows w' child p s'.
Proof.
  intros Hwf N2 N' F3 Hs. apply space_elem in Hs; [|apply Hwf].
  apply slots_elem in Hs as (a & ([k a0] & -> & [j Hj]%list_elem_of_lookup)%list_elem_of_fmap & Hp).
  destruct (Forall3_lookup_l _ _ _ _ _ _ F3 Hj) as (e2 & e' & Hj2 & Hj' & ps2 & ps' & -> & -> & F & I2 & I'). cbn [fst snd] in *.
  apply area_slots_elem in Hp as (i & pg & Hi & -> & ->).
  destruct (area_forked_at _ _ _ _ _ _ _ F Hi) as (pg2 & pg' & Hi2 & Hi' & Hsl).
  exists (mk_slot (with_pages a0 ps2) i pg2), (mk_slot (with_pages a0 ps') i pg').
  assert (∀ m ps pg, m !! j = Some (k, with_pages a0 ps) → ps !! i = Some pg →
    (page_va (vaddr a0) i, mk_slot (with_pages a0 ps) i pg) ∈ slots m.*2) as Hin.
  { intros m ps pg1 Hm Hpg. apply slots_elem. exists (with_pages a0 ps). split.
    - apply list_elem_of_fmap. exists (k, with_pages a0 ps). split; [done|by eapply list_elem_of_lookup_2].
    - apply area_slots_elem. by exists i, pg1. }
  split_and!; [apply space_elem; [done|by apply Hin]..|done| |]; [|unfold shows; cbn; by apply I'].
  destruct I2 as [I2|(Hsh & Hnone & Ht)]; [left; unfold shows; cbn; by apply I2|right].
  destruct (Ht i) as (pa & Hpa & Heq); [by eapply lookup_lt_Some|]. cbn. split_and!; [|done|exact Heq|by exists pa].
  rewrite Forall_forall in Hnone. by eapply Hnone, list_elem_of_lookup_2.
Qed.
Lemma area_rel_refilled T0 cur child w w' m m2 mc :
  Forall3 (area_rel T0 cur child w w') m m2 mc → refilled m m2 ∧ refilled m mc.
Proof.
  induction 1 as [|e e2 e' m m2 mc (ps2 & ps' & -> & -> & F & _) _ [IH2 IH']]; [by split; constructor|].
  destruct (area_forked_length _ _ _ _ _ _ F). split; constructor; [by exists ps2|done|by exists ps'|done].
Qed.

Lemma wf_apart R ms w : ms_wf R ms w → apart (owned_mem ms).
Proof.
  intros Hwf. destruct (ms_map _ _ _ Hwf) as [Hs Hf]. split; [|done].
  assert (∀ e e', e ∈ owned_mem ms → e' ∈ owned_mem ms → e.1 < e'.1 → end_va e.2 ≤ vaddr e'.2) as Hdj.
  { intros [k a] [k' a'] Hin Hin' Hlt. cbn in *. rewrite Forall_forall in Hf.
    destruct (Hf _ Hin) as [-> Ha], (Hf _ Hin') as [-> Ha'].
    pose proof (area_nonempty a Ha). pose proof (area_nonempty a' Ha').
    destruct (areas_disjoint R ms w (vaddr a) a (vaddr a') a' Hwf Hin Hin') as [?|?]; [lia| |]; cbn in *; lia. }
  clear Hf. unfold bt_sorted in Hs. revert Hs Hdj. generalize (owned_mem ms). intros l Hs Hdj. induction l as [|e l IH]; [constructor|].
  cbn in Hs. apply StronglySorted_inv in Hs as [Hs He]. constructor.
  - apply IH; [done|]. intros. apply Hdj; [by right..|done].
  - apply Forall_forall. intros e' Hin. rewrite Forall_forall in He. assert (e.1 < e'.1) as Hlt.
    { apply (He e'.1). apply list_elem_of_fmap. by exists e'. }
    split; [done|]. apply Hdj; [by left|by right|done].
Qed.
Lemma segment_end x : 0 ≤ sm_size x.2 → sm_size x.2 mod PAGE_SIZE_4K = 0 →
  page_va (segment_span x).1 (segment_span x).2 = x.1.1 + sm_size x.2.
Proof. intros Hs Hm. unfold page_va, segment_span, span_of. cbn. by rewrite span_size. Qed.
Lemma segment_outside p x : 0 ≤ sm_size x.2 → sm_size x.2 mod PAGE_SIZE_4K = 0 →
  outside p (segment_span x) ↔ p < x.1.1 ∨ x.1.1 + sm_size x.2 ≤ p.
Proof. intros Hs Hm. unfold outside. by rewrite segment_end. Qed.
Lemma segment_page i x : 0 ≤ sm_size x.2 → sm_size x.2 mod PAGE_SIZE_4K = 0 → (i < (segment_span x).2)%nat →
  x.1.1 ≤ page_va x.1.1 i ∧ page_va x.1.1 i + PAGE_SIZE_4K ≤ x.1.1 + sm_size x.2.
Proof.
  intros Hs Hm Hi. pose proof (segment_end x Hs Hm). pose proof (page_va_lt x.1.1 i _ Hi). cbn in *.
  unfold page_va, PAGE_SIZE_4K in *. lia.
Qed.
Lemma attached_spans R ms : attached_wf R ms →
  spans_ok (segment_span <$> attached_mem ms) ∧
  Forall (λ x, 0 ≤ sm_size x.2 ∧ sm_size x.2 mod PAGE_SIZE_4K = 0) (attached_mem ms).
Proof.
  intros [Hnd Hseg Hdj].
  assert (∀ x, x ∈ attached_mem ms → aligned x.1.1 ∧ 0 ≤ sm_size x.2 ∧ sm_size x.2 mod PAGE_SIZE_4K = 0) as Hx.
  { intros [[s f] m] Hin. destruct (Hseg s f m Hin) as (Ha & Hsz & [? _] & _). cbn in *. split_and!; [done|lia|done]. }
  assert (∀ x y, x ∈ attached_mem ms → y ∈ attached_mem ms → x.1.1 ≠ y.1.1 → span_apart (segment_span x) (segment_span y)) as Hap.
  { intros [[s f] m] [[s' f'] m'] Hin Hin' Hne. destruct (Hx _ Hin) as (_ & ? & ?), (Hx _ Hin') as (_ & ? & ?).
    unfold span_apart. rewrite !segment_end by done. by destruct (Hdj _ _ _ _ _ _ Hin Hin' Hne); [left|right]. }
  split; [split|].
  - clear Hseg Hdj Hx. revert Hnd Hap. generalize (attached_mem ms). intros l Hnd Hap. induction l as [|x l IH]; [constructor|].
    cbn in Hnd. apply NoDup_cons in Hnd as [Hn Hnd]. cbn. constructor; [apply IH; [done|]; intros; apply Hap; [by right..|done]|].
    apply Forall_fmap, Forall_forall. intros y Hy. apply Hap; [by left|by right|]. intros E. apply Hn. rewrite E.
    rewrite <- list_fmap_compose. apply list_elem_of_fmap. by exists y.
  - apply Forall_fmap, Forall_forall. intros x Hin. by apply (Hx x).
  - apply Forall_forall. intros x Hin. by apply (Hx x).
Qed.

(** The regions of the kernel: whole pages in the upper half, apart, and reserved. *)
Record kernel_ok (R : Z → Prop) (phys_to_virt : Z → Z) (rs : list (Z * Z * Z)) : Prop := {
  kern_size : Forall (λ '(pa, sz, f), 0 ≤ sz ∧ sz mod PAGE_SIZE_4K = 0) rs;
  kern_spans : spans_ok ((λ '(pa, sz, f), span_of (phys_to_virt pa) sz) <$> rs);
  kern_high : Forall (λ '(pa, sz, f), 2 ^ 63 ≤ phys_to_virt pa) rs;
  kern_reserved p pa sz f : (pa, sz, f) ∈ rs → phys_to_virt pa ≤ p < phys_to_virt pa + sz → R p
}.
(** An address space whose page table shows it, but for windows, and whose shared files
    can be read. *)
Record forkable (R : Z → Prop) (ms : MemorySet) (w : W) : Prop := {
  fk_wf : ms_wf R ms w;
  fk_att : attached_wf R ms;
  fk_tab k a : (k, a) ∈ owned_mem ms → held (pt_tab w (pt_current w)) w (pt_current w) a (pages a);
  fk_read k a : (k, a) ∈ owned_mem ms → shared a = true → readable w a
}.

(** The first part of a fork: a table with the regions of the kernel. *)
Lemma child_table_ok R phys_to_virt rs w :
  kernel_ok R phys_to_virt rs →
  ∃ child w0 w1, pt_try_new w = Ok (child, w0) ∧ on_table child (map_kernel phys_to_virt rs) w0 = Ok w1 ∧
    child ≠ pt_current w ∧ pt_current w1 = pt_current w ∧ mem_ext w w1 ∧
    (∀ j p, aligned p → j ≠ child → pt_tab w1 j p = pt_tab w j p) ∧
    (∀ p, aligned p → p < 2 ^ 63 ∨ ¬ R p → pt_tab w1 child p = None).
Proof.
  intros [Hsz Hsp Hhigh HR]. pose proof (try_new_succeeds w) as Ho. destruct (pt_try_new w) as [[child w0]|e|] eqn:E0; [|done..].
  destruct (law_try_new _ _ _ E0) as (Hne & C0 & E1 & Tn & T0). destruct (law_select child w0) as (C1 & E2 & _ & T1).
  destruct (map_kernel_ok phys_to_virt rs (pt_select child w0) Hsz Hsp) as (w' & Ek & S).
  { apply Forall_forall. intros x Hx i Hi. by rewrite C1, T1, Tn. }
  rewrite C1 in S. exists child, w0, (pt_select (pt_current w0) w'). destruct S as [C2 E3 T2].
  destruct (law_select (pt_current w0) w') as (C3 & E4 & _ & T3).
  split_and!; [done|unfold on_table; by rewrite Ek|done|by rewrite C3|by do 3 (etrans; [eassumption|])| |].
  - intros j p Hp Hj. rewrite T3, T2, T1, T0; [done|done|done|by left].
  - intros p Hp Hout. rewrite T3, T2, T1; [apply Tn|done|]. right. apply Forall_fmap, Forall_forall.
    intros [[pa sz] f] Hin. cbn. unfold outside, span_of. rewrite Forall_forall in Hsz, Hhigh.
    destruct (Hsz _ Hin) as [? ?]. pose proof (Hhigh _ Hin) as Hh. cbn in Hh |- *. unfold page_va. cbn. rewrite span_size by done.
    destruct Hout as [?|HnR]; [left; lia|]. destruct (decide (p < phys_to_virt pa)); [by left|right].
    destruct (decide (phys_to_virt pa + sz ≤ p)); [done|]. exfalso. apply HnR, (HR p pa sz f Hin). lia.
Qed.

Lemma owned_area R ms w k a : ms_wf R ms w → (k, a) ∈ owned_mem ms → k = vaddr a ∧ area_ok a.
Proof. intros Hwf Hin. destruct (ms_map _ _ _ Hwf) as [_ Hf]. rewrite Forall_forall in Hf. by apply (Hf (k, a)). Qed.
Lemma clonable_child R ms w w1 child :
  forkable R ms w → pt_current w1 = pt_current w → child ≠ pt_current w → mem_ext w w1 →
  (∀ j p, aligned p → j ≠ child → pt_tab w1 j p = pt_tab w j p) → (∀ p, aligned p → p < 2 ^ 63 ∨ ¬ R p → pt_tab w1 child p = None) →
  Forall (λ e, clonable (pt_tab w (pt_current w)) w1 child e.2) (owned_mem ms).
Proof.
  intros [Hwf _ Ht Hr] C Hne E T Tc. apply Forall_forall. intros [k a] Hin. cbn.
  destruct (owned_area R ms w k a Hwf Hin) as [_ Ha]. pose proof (ok_aligned a Ha) as Hal. split.
  - rewrite C. eapply held_frame; [exact E| |by eapply Ht]. intros i _. apply T; [by apply page_va_aligned|done].
  - intros i Hi. apply Tc; [by apply page_va_aligned|left]. pose proof (ok_end a Ha). rewrite end_va_page in *.
    pose proof (page_va_lt (vaddr a) i _ Hi). unfold PAGE_SIZE_4K in *. lia.
  - intros Hs b i Hb Hi. rewrite (ext_file _ _ E). by eapply Hr.
Qed.

(** The segments meet no area, nor the pages of one. *)
Lemma segments_outside R ms w p :
  ms_wf R ms w → attached_wf R ms → is_Some (space ms !! p) → aligned p → Forall (outside p) (segment_span <$> attached_mem ms).
Proof.
  intros Hwf Hatt [s Hs] Hp. apply Forall_fmap, Forall_forall. intros [[st f] m] Hin.
  destruct (att_seg _ _ Hatt _ _ _ Hin) as (_ & Hsz & [? _] & HR). cbn in *. apply segment_outside; cbn; [lia|done|].
  destruct (decide (p < st)); [by left|right]. destruct (decide (st + sm_size m ≤ p)); [done|]. exfalso.
  rewrite (ms_reserved R ms w Hwf p) in Hs; [done|]. apply HR; [done|lia].
Qed.
Lemma segments_free_in R ms w w1 w2 child :
  forkable R ms w → areas_step (owned_mem ms) w1 w2 → (∀ p, aligned p → p < 2 ^ 63 ∨ ¬ R p → pt_tab w1 child p = None) →
  Forall (λ x, free_in w2 child x.1 x.2) (segment_span <$> attached_mem ms).
Proof.
  intros [Hwf Hatt _ _] [_ _ T] Tc. apply Forall_fmap, Forall_forall. intros [[st f] m] Hin i Hi.
  destruct (att_seg _ _ Hatt _ _ _ Hin) as (Ha & Hsz & [? Hend] & HR). cbn [fst snd] in *.
  destruct (segment_page i (st, f, m)) as [_ Hlt]; [cbn; lia|done|done|]. cbn in Hlt.
  assert (aligned (page_va st i)) as Hp by (by apply page_va_aligned).
  assert (st ≤ page_va st i) as Hge by (unfold page_va, PAGE_SIZE_4K; lia). change (pt_tab w2 child (page_va st i) = None).
  assert (0 < PAGE_SIZE_4K) by done. rewrite T; [apply Tc; [done|left; lia]|done|]. apply Forall_forall. intros [k a] Hina. cbn.
  destruct (owned_area R ms w k a Hwf Hina) as [-> Hak].
  destruct (owned_attached_disjoint R ms w a st f m Hwf Hatt Hina Hak Hin) as [?|?]; cbn in *; lia.
Qed.

(** A step that leaves the entries of the pages of the areas. *)
Lemma area_rel_after T0 R ms w cur child w1 w2 w' e e2 e' l :
  forkable R ms w → e ∈ owned_mem ms → spans_step child l w2 w' →
  (∀ p, is_Some (space ms !! p) → aligned p → Forall (outside p) l) →
  area_rel T0 cur child w1 w2 e e2 e' → pages_live w1 (pages e.2) → area_rel T0 cur child w1 w' e e2 e'.
Proof.
  intros Hfk Hin [C E T] Hout (ps2 & ps' & -> & -> & F & I2 & I') Hl. exists ps2, ps'. destruct e as [k a]. cbn [fst snd] in *.
  destruct (owned_area R ms w k a (fk_wf _ _ _ Hfk) Hin) as [_ Ha]. destruct (area_forked_length _ _ _ _ _ _ F) as [L2 L'].
  assert (∀ j i, (i < length (pages a))%nat → pt_tab w' j (page_va (vaddr a) i) = pt_tab w2 j (page_va (vaddr a) i)) as Hsame.
  { intros j i Hi. assert (aligned (page_va (vaddr a) i)) by (apply page_va_aligned, (ok_aligned a Ha)). apply T; [done|right]. apply Hout; [|done].
    apply lookup_lt_is_Some_2 in Hi as [pg Hpg]. exists (mk_slot a i pg). apply space_elem; [apply (fk_wf _ _ _ Hfk)|].
    apply slots_elem. exists a. split; [apply list_elem_of_fmap; by exists (k, a)|]. apply area_slots_elem. by exists i, pg. }
  split_and!; [done..|by eapply (area_forked_mono w1 w1 w2 w')| |].
  - apply (held_frame T0 w2); [done| |done]. intros i Hi. apply Hsame. by rewrite <- L2.
  - apply (in_tab_frame w2); [done| |done]. intros i Hi. apply Hsame. by rewrite <- L'.
Qed.

Lemma unmapped_outside R ms w p :
  ms_wf R ms w → aligned p → space ms !! p = None → Forall (λ e, p < vaddr e.2 ∨ end_va e.2 ≤ p) (owned_mem ms).
Proof.
  intros Hwf Hp Hn. apply Forall_forall. intros [k a] Hin. cbn. destruct (owned_area R ms w k a Hwf Hin) as [_ Ha].
  destruct (decide (p < vaddr a)); [by left|right]. destruct (decide (end_va a ≤ p)); [done|]. exfalso.
  destruct (area_slots_cover a p Ha Hp) as [s Hs]; [lia|]. apply eq_None_not_Some in Hn. apply Hn. exists s.
  apply space_elem; [apply Hwf|]. apply slots_elem. exists a. split; [|done]. apply list_elem_of_fmap. by exists (k, a).
Qed.
Lemma unreserved_outside R ms p :
  attached_wf R ms → aligned p → ¬ R p → Forall (outside p) (segment_span <$> attached_mem ms).
Proof.
  intros Hatt Hp HR. apply Forall_fmap, Forall_forall. intros [[st f] m] Hin.
  destruct (att_seg _ _ Hatt _ _ _ Hin) as (_ & Hsz & [? _] & HRs). cbn in *. apply segment_outside; cbn; [lia|done|].
  destruct (decide (p < st)); [by left|right]. destruct (decide (st + sm_size m ≤ p)); [done|]. exfalso. apply HR, HRs; [done|lia].
Qed.
(** Both address spaces in terms of their tables. *)
Lemma forked_wf R ms w ms' w' k :
  ms_wf R ms w → refilled (owned_mem ms) (owned_mem ms') →
  (∀ p s, space ms !! p = Some s → snd <$> pt_tab w' k p = Some (s_flags s)) →
  (∀ p, aligned p → ¬ R p → space ms !! p = None → pt_tab w' k p = None) → pt_current w' = k →
  ms_wf R ms' w' ∧ ∀ p, space ms !! p = None → space ms' !! p = None.
Proof.
  intros Hwf Hr Hin Hout Hk. apply (refilled_wf R ms w); [done..| |].
  - intros p s Hs. rewrite law_flags, Hk; [by apply Hin|]. apply space_elem in Hs; [|apply Hwf].
    apply slots_elem in Hs as (a & Ha & Hs). eapply area_slots_aligned; [|exact Hs]. by eapply map_ok_elem; [apply Hwf|].
  - intros p Hp HR Hn. by rewrite law_flags, Hk, Hout.
Qed.
(** What a fork leaves: the areas, changed and copied, the attached segments, and no
    other change in either table. *)
Lemma clone_or_err_ok R phys_to_virt rs ms w :
  forkable R ms w → kernel_ok R phys_to_virt rs →
  ∃ child m2 mc w', let ms' := {| owned_mem := mc; private_mem := private_mem ms; attached_mem := attached_mem ms |} in
    clone_or_err rs phys_to_virt ms w = Ok (child, ms', with_owned ms m2, w') ∧
    child ≠ pt_current w ∧ pt_current w' = pt_current w ∧ mem_ext w w' ∧
    Forall3 (area_rel (pt_tab w (pt_current w)) (pt_current w) child w w') (owned_mem ms) m2 mc ∧
    Forall (segment_shown w' child) (attached_mem ms) ∧ NoDup (private_pages mc) ∧
    ∀ p, aligned p → space ms !! p = None →
      pt_tab w' (pt_current w) p = pt_tab w (pt_current w) p ∧ (¬ R p → pt_tab w' child p = None).
Proof.
  intros Hfk Hk. pose proof (fk_wf _ _ _ Hfk) as Hwf. pose proof (fk_att _ _ _ Hfk) as Hatt.
  destruct (child_table_ok R phys_to_virt rs w Hk) as (child & w0 & w1 & Et & Ek & Hne & C1 & E1 & T1 & Tc).
  pose proof (clonable_child R ms w w1 child Hfk C1 Hne E1 T1 Tc) as Hcl.
  destruct (clone_areas_ok (pt_tab w (pt_current w)) child (owned_mem ms) [] w1) as (m2 & mc & w2 & Ec & F3 & S2 & Hnd & _);
    [by rewrite C1|by eapply wf_apart|done|by intros ?? ?%elem_of_nil|].
  destruct (attached_spans R ms Hatt) as [Hsp Hsz].
  destruct (attach_all_ok child (attached_mem ms)
    {| owned_mem := mc; private_mem := private_mem ms; attached_mem := [] |} w2 Hsz Hsp) as (w' & Ea & S3 & Hshow).
  { by eapply segments_free_in. }
  pose proof (sstep_current _ _ _ _ S3) as C3. rewrite (astep_current _ _ _ S2), C1 in C3.
  assert (mem_ext w w') as E' by (etrans; [exact E1|]; etrans; [apply (astep_ext _ _ _ S2)|apply (sstep_ext _ _ _ _ S3)]).
  exists child, m2, mc, w'. split_and!; [|done..| |done|done|].
  - unfold clone_or_err. rewrite Et. cbn [unwrap]. rewrite bind_Ok. cbv beta iota zeta. rewrite Ek, bind_Ok, Ec, bind_Ok.
    cbv beta iota zeta. by rewrite app_nil_l, Ea, bind_Ok.
  - rewrite C1 in F3. eapply Forall3_impl_elem; [|exact F3]. intros e e2 e' He Hrel. rewrite Forall_forall in Hcl.
    pose proof (held_live _ _ _ _ _ (cl_tab _ _ _ _ (Hcl e He))) as Hl. destruct e as [k a].
    pose proof (held_live _ _ _ _ _ (fk_tab _ _ _ Hfk k a He)) as Hl0. apply (area_rel_before _ _ _ w w1 w'); [done..|].
    eapply (area_rel_after _ R ms w _ _ w1 w2 w' _ _ _ _ Hfk He S3); [|done|done]. intros p Hs Hp. by eapply segments_outside.
  - assert (∀ j p, aligned p → space ms !! p = None → j ≠ child ∨ ¬ R p → pt_tab w' j p = pt_tab w1 j p) as Hout.
    { intros j p Hp Hn Hj. rewrite (sstep_tab _ _ _ _ S3), (astep_tab _ _ _ S2); [done|done|by eapply unmapped_outside|done|].
      destruct Hj; [by left|right; by apply (unreserved_outside R)]. }
    intros p Hp Hn. split; [rewrite Hout, T1; [done|done|done|done|done|by left]|].
    intros HR. rewrite Hout, Tc; [done|done|by right|done|done|by right].
Qed.

(** C18: A fork of an address space that its page table shows - but for windows, areas
    that the table maps although no page of them has a frame, as that of the vDSO -
    and whose shared files can be read succeeds, if memory is never exhausted
    ([EnoughMemory]).  Parent and child then have the same pages with the same
    permissions, files and sharing; the child's table shows each of its pages, the
    parent's table each of its own, and windows as before.  A private page of the
    child is a fresh page of its own with the bytes of the parent's; one that the
    parent has no frame for is missing in the child and faults there, which for a
    window loses what the parent sees ([vdso_lost_in_child] of [MemSim]); a page of a
    shared area is one page in both, also where it was missing; no page that was in
    use has changed; the attached segments are attached at the same addresses; and
    both address spaces are well formed. *)
Theorem fork_copies_space R phys_to_virt rs ms w :
  forkable R ms w → kernel_ok R phys_to_virt rs →
  ∃ child ms' ms2 w', clone_or_err rs phys_to_virt ms w = Ok (child, ms', ms2, w') ∧
    child ≠ pt_current w ∧ pt_current w' = pt_current w ∧ mem_ext w w' ∧
    attached_mem ms' = attached_mem ms ∧ attached_mem ms2 = attached_mem ms ∧
    Forall (segment_shown w' child) (attached_mem ms) ∧
    NoDup (private_pages (owned_mem ms')) ∧
    ms_wf R ms2 w' ∧ ms_wf R ms' (pt_select child w') ∧
    ∀ p, match space ms !! p with
         | Some s => ∃ s2 s', space ms2 !! p = Some s2 ∧ space ms' !! p = Some s' ∧ slot_forked w w' s s2 s' ∧
                       shows_held (pt_tab w (pt_current w)) w' (pt_current w) p s2 ∧ shows w' child p s'
         | None => space ms2 !! p = None ∧ space ms' !! p = None
         end.
Proof.
  intros Hfk Hk. pose proof (fk_wf _ _ _ Hfk) as Hwf.
  destruct (clone_or_err_ok R phys_to_virt rs ms w Hfk Hk) as (child & m2 & mc & w' & E & Hne & C & E' & F & Hshow & Hnd & Hout).
  set (ms' := {| owned_mem := mc; private_mem := private_mem ms; attached_mem := attached_mem ms |}) in *.
  destruct (area_rel_refilled _ _ _ _ _ _ _ _ F) as [R2 R'].
  assert (∀ p s, space ms !! p = Some s → ∃ s2 s', space (with_owned ms m2) !! p = Some s2 ∧ space ms' !! p = Some s' ∧
    slot_forked w w' s s2 s' ∧ shows_held (pt_tab w (pt_current w)) w' (pt_current w) p s2 ∧ shows w' child p s') as Hsp.
  { intros p s Hs. eapply areas_forked_space; [exact Hwf| | |exact F|exact Hs].
    - rewrite (proj1 (refilled_keys _ (owned_mem (with_owned ms m2)) R2)). apply Hwf.
    - rewrite (proj1 (refilled_keys _ (owned_mem ms') R')). apply Hwf. }
  destruct (forked_wf R ms w (with_owned ms m2) w' (pt_current w) Hwf R2) as [W2 N2]; [| |done|].
  { intros p s Hs. destruct (Hsp p s Hs) as (s2 & s' & _ & _ & (Hf & _) & Hsh & _).
    destruct Hsh as [Hsh|(_ & _ & Ht & pa & Hpa)]; [unfold shows in Hsh; rewrite Hsh|rewrite Ht, Hpa]; cbn; by rewrite Hf. }
  { intros p Hp HR Hn. destruct (Hout p Hp Hn) as [-> _]. pose proof (ms_pt_out _ _ _ Hwf p Hp HR Hn) as Hf.
    rewrite law_flags in Hf by done. by destruct (pt_tab w _ p). }
  destruct (law_select child w') as (Cs & _ & _ & Ts).
  destruct (forked_wf R ms w ms' (pt_select child w') child Hwf R') as [W' N']; [| |done|].
  { intros p s Hs. destruct (Hsp p s Hs) as (s2 & s' & _ & _ & (_ & Hf & _) & _ & Hsh). unfold shows in Hsh. rewrite Ts, Hsh. cbn. by rewrite Hf. }
  { intros p Hp HR Hn. rewrite Ts. by apply Hout. }
  exists child, ms', (with_owned ms m2), w'. split_and!; [done..|]. intros p. destruct (space ms !! p) as [s|] eqn:Hs; [by apply Hsp|].
  split; [by apply N2|by apply N'].
Qed.
End fork.
