(* ===== verification/MemSim.v ===== *)
(** * Page tables, pages and files to run the memory calls on

    Numbered page tables whose entries are a physical address, none for an entry that
    faults, and permissions; pages at the addresses that follow their numbers; and the
    laws assumed of the code outside the memory module, which they satisfy. *)

From S2P Require Import Prelude BTree Path Vfs RootFs Fops UserMem TimeStat Link FdManager FdCalls Memory MemoryProps MemorySpec MemCalls MemCallsProps ForkSpec.

Open Scope Z_scope.

Notation entry := (option Z * Z)%type (only parsing).
Notation entries := (gmap Z entry).
Record TabWorld := mk_tab {
  t_tables : gmap nat entries; t_current : nat; t_next : nat;
  t_pages : gmap nat (list Z); t_files : gmap nat (list Z)
}.
Definition t_entries (w : TabWorld) : entries := default ∅ (t_tables w !! t_current w).
Definition t_with (e : entries) (w : TabWorld) : TabWorld :=
  mk_tab (<[t_current w := e]> (t_tables w)) (t_current w) (t_next w) (t_pages w) (t_files w).
Definition t_select (k : nat) (w : TabWorld) : TabWorld := mk_tab (t_tables w) k (t_next w) (t_pages w) (t_files w).
Definition t_with_pages (next : nat) (p : gmap nat (list Z)) (w : TabWorld) : TabWorld :=
  mk_tab (t_tables w) (t_current w) next p (t_files w).
Definition t_with_files (f : gmap nat (list Z)) (w : TabWorld) : TabWorld :=
  mk_tab (t_tables w) (t_current w) (t_next w) (t_pages w) f.

(** Every entry of a region, from its address and what it was, provided [ok] of it. *)
Definition t_set (ok : option entry → bool) (v : Z → option entry → option entry) (va sz : Z) (w : TabWorld)
    : outcome TabWorld :=
  if forallb (λ p, ok (t_entries w !! p)) (sim_region va sz)
  then Ok (t_with (foldr (λ p, partial_alter (v p) p) (t_entries w) (sim_region va sz)) w)
  else Err InvalidInput.
Definition t_mapped (o : option entry) : bool := bool_decide (is_Some o).
Definition t_free (o : option entry) : bool := bool_decide (o = None).
Definition page_at (n : nat) : Z := 0x100000 + Z.of_nat n * PAGE_SIZE_4K.
Fixpoint fill_pages (n : nat) (data : list Z) (p : gmap nat (list Z)) (k : nat) : gmap nat (list Z) :=
  match k with
  | O => p
  | S k => fill_pages (S n) (drop 4096 data) (<[n := take 4096 (data ++ zero_page)]> p) k
  end.

#[export] Instance tab_world : MemWorld TabWorld := {
  pt_map_fault_region va sz f := t_set t_free (λ _ _, Some (None, f)) va sz;
  pt_map_region va pa sz f := t_set t_free (λ p _, Some (Some (pa + (p - va)), f)) va sz;
  pt_unmap_region := t_set t_mapped (λ _ _, None);
  pt_update_region va sz f := t_set t_mapped (λ _ o, Some (o ≫= fst, f)) va sz;
  pt_map_overwrite va pa f w := Ok (t_with (<[va := (Some pa, f)]> (t_entries w)) w);
  pt_get_entry va w := (λ '(pa, f), (bool_decide (is_Some pa), f)) <$> t_entries w !! align_down_4k va;
  page_alloc w := Ok (t_next w, t_with_pages (S (t_next w)) (<[t_next w := zero_page]> (t_pages w)) w);
  page_alloc_contiguous n data w := Ok (Some <$> seq (t_next w) n,
    t_with_pages (t_next w + n) (fill_pages (t_next w) (default [] data) (t_pages w) n) w);
  page_paddr p _ := page_at p;
  page_bytes p w := default [] (t_pages w !! p);
  page_set_bytes p bs w := t_with_pages (t_next w) (<[p := bs]> (t_pages w)) w;
  file_read_full fd pos n w :=
    match t_files w !! fd with Some l => (take n (drop (Z.to_nat pos) l), None) | None => ([], Some NotFound) end;
  file_write fd pos bs w :=
    match t_files w !! fd with
    | Some l => (Ok (Z.of_nat (length bs)), t_with_files (<[fd := write_bytes (Z.to_nat pos) bs l]> (t_files w)) w)
    | None => (Err NotFound, w)
    end
}.

#[export] Instance tab_tables : PageTables TabWorld := {
  pt_try_new w := let k := S (foldr Nat.max (t_current w) (map_to_list (t_tables w)).*1) in
    Ok (k, mk_tab (<[k := ∅]> (t_tables w)) (t_current w) (t_next w) (t_pages w) (t_files w));
  pt_current := t_current;
  pt_select := t_select;
  pt_map va pa f w := t_set t_free (λ _ _, Some (Some pa, f)) va PAGE_SIZE_4K w;
  pt_map_fault va f w := t_set t_free (λ _ _, Some (None, f)) va PAGE_SIZE_4K w;
  va_page va w := '(pa, _) ← t_entries w !! align_down_4k va;
                  pa ← pa; Some (Z.to_nat ((pa - page_at 0) / PAGE_SIZE_4K));
  global_alloc n w := Ok (page_at (t_next w),
    t_with_pages (t_next w + Z.to_nat n) (fill_pages (t_next w) [] (t_pages w) (Z.to_nat n)) w)
}.

(** ** The laws *)

Lemma t_entries_with e w : t_entries (t_with e w) = e.
Proof. unfold t_entries. cbn. by rewrite lookup_insert_eq. Qed.
Lemma t_set_lookup (v : Z → option entry → option entry) l (m : entries) p (o : option Z) :
  (∀ e, snd <$> v p e = o) →
  snd <$> foldr (λ p, partial_alter (v p) p) m l !! p = if decide (p ∈ l) then o else snd <$> m !! p.
Proof.
  intros Hv. induction l as [|q l IH]; [done|]. simpl foldr. destruct (decide (q = p)) as [->|Hne].
  - rewrite lookup_partial_alter_eq, decide_True by set_solver. apply Hv.
  - rewrite lookup_partial_alter_ne by done. rewrite IH. apply decide_ext. set_solver.
Qed.
Lemma t_set_ok ok v va sz w (o : option Z) :
  va mod PAGE_SIZE_4K = 0 → sz mod PAGE_SIZE_4K = 0 → 0 ≤ sz → (∀ p e, snd <$> v p e = o) →
  (∀ p, p mod PAGE_SIZE_4K = 0 → va ≤ p < va + sz → ok (t_entries w !! p) = true) →
  ∃ w', t_set ok v va sz w = Ok w' ∧
    ∀ p, p mod PAGE_SIZE_4K = 0 →
      snd <$> t_entries w' !! p = if decide (va ≤ p < va + sz) then o else snd <$> t_entries w !! p.
Proof.
  intros Hva Hsz Hpos Hv Hok. unfold t_set.
  assert (forallb (λ p, ok (t_entries w !! p)) (sim_region va sz) = true) as ->.
  { apply forallb_forall. intros p Hp%list_elem_of_In. apply sim_region_elem in Hp; naive_solver. }
  eexists. split; [done|]. intros p Hp. rewrite t_entries_with, (t_set_lookup v _ _ _ o) by done. apply decide_ext.
  rewrite sim_region_elem by done. naive_solver.
Qed.
Lemma t_mapped_flags w p : is_Some (snd <$> t_entries w !! p) → t_mapped (t_entries w !! p) = true.
Proof. intros [f Hf]. apply bool_decide_eq_true_2. destruct (t_entries w !! p); [by eexists|done]. Qed.
Lemma t_free_flags w p : snd <$> t_entries w !! p = None → t_free (t_entries w !! p) = true.
Proof. intros Hf. apply bool_decide_eq_true_2. by destruct (t_entries w !! p). Qed.

#[export, refine] Instance tab_laws : MemWorldLaws TabWorld := {| pt_flags w p := snd <$> t_entries w !! p |}.
Proof.
  - intros va sz w ??? Hm. apply t_set_ok; try done. intros. by apply t_mapped_flags, Hm.
  - intros va sz f w ??? Hm. apply t_set_ok; try done. intros. by apply t_mapped_flags, Hm.
  - intros va sz f w ??? Hm. apply t_set_ok; try done. intros. by apply t_free_flags, Hm.
Defined.
#[export] Instance tab_shm_laws : ShmLaws TabWorld.
Proof.
  split.
  - intros va pa sz f w ??? Hm. apply t_set_ok; try done. intros. by apply t_free_flags, Hm.
  - intros n w. split; [done|]. by intros pa w' [= <- <-].
Qed.

(** ** The laws of a fork *)

#[export] Instance tab_tabs : PageTabs TabWorld := {
  pt_tab w k p := default ∅ (t_tables w !! k) !! p;
  live w g := (g < t_next w)%nat
}.
Lemma tab_ext w w' :
  t_files w' = t_files w → (t_next w ≤ t_next w')%nat → (∀ g, (g < t_next w)%nat → t_pages w' !! g = t_pages w !! g) → mem_ext w w'.
Proof.
  intros Hf Hn Hp. split; cbn; intros.
  - lia.
  - by rewrite Hp.
  - done.
  - by rewrite Hf.
Qed.
Lemma t_set_const (v : Z → entry) l (m : entries) p :
  foldr (λ p, partial_alter (λ _, Some (v p)) p) m l !! p = if decide (p ∈ l) then Some (v p) else m !! p.
Proof.
  induction l as [|q l IH]; [done|]. simpl foldr. destruct (decide (q = p)) as [->|Hne].
  - by rewrite lookup_partial_alter_eq, decide_True by set_solver.
  - rewrite lookup_partial_alter_ne, IH by done. apply decide_ext. set_solver.
Qed.
Lemma sim_region_pages va n p :
  p ∈ sim_region va (Z.of_nat n * PAGE_SIZE_4K) ↔ ∃ i, p = page_va va i ∧ (i < n)%nat.
Proof.
  unfold sim_region. rewrite Z.div_mul, Nat2Z.id by done. rewrite list_elem_of_fmap. setoid_rewrite elem_of_seq.
  split; intros (i & -> & ?); exists i; (split; [done|lia]).
Qed.
Lemma t_set_span (v : Z → entry) va n w :
  free_in w (t_current w) va n →
  ∃ w', t_set t_free (λ p _, Some (v p)) va (Z.of_nat n * PAGE_SIZE_4K) w = Ok w' ∧ span_step (t_current w) va n w w' ∧
    ∀ i, (i < n)%nat → pt_tab w' (t_current w) (page_va va i) = Some (v (page_va va i)).
Proof.
  intros Hf. unfold t_set.
  assert (forallb (λ p, t_free (t_entries w !! p)) (sim_region va (Z.of_nat n * PAGE_SIZE_4K)) = true) as ->.
  { apply forallb_forall. intros p Hp%list_elem_of_In. apply sim_region_pages in Hp as (i & -> & Hi).
    apply bool_decide_eq_true_2. by apply Hf. }
  eexists. split; [done|]. split.
  - split; [done|by apply tab_ext|]. intros j p Hp Hj. cbn. destruct (decide (j = t_current w)) as [->|Hne].
    + rewrite lookup_insert_eq. cbn. rewrite t_set_const, decide_False; [done|].
      intros (i & -> & Hi)%sim_region_pages. pose proof (page_va_lt va i n Hi). unfold page_va, PAGE_SIZE_4K in *.
      destruct Hj as [?|[?|?]]; [done|lia|lia].
    + by rewrite lookup_insert_ne.
  - intros i Hi. cbn. rewrite lookup_insert_eq. cbn. rewrite t_set_const, decide_True; [done|]. apply sim_region_pages. by exists i.
Qed.
Lemma t_set_entry (e : entry) va w :
  pt_tab w (t_current w) va = None →
  ∃ w', t_set t_free (λ _ _, Some e) va PAGE_SIZE_4K w = Ok w' ∧ entry_set va e w w'.
Proof.
  intros Hf. destruct (t_set_span (λ _, e) va 1 w) as (w' & E & S & T).
  - intros i Hi. assert (i = 0%nat) as -> by lia. by rewrite page_va_0.
  - exists w'. split; [exact E|]. split; [done|]. specialize (T 0%nat ltac:(lia)). by rewrite page_va_0 in T.
Qed.
Lemma max_above (l : list nat) x k : k ∈ l → (k ≤ foldr Nat.max x l)%nat.
Proof. induction l as [|y l IH]; [by intros ?%elem_of_nil|]. cbn. intros [->|Hk]%elem_of_cons; [lia|]. specialize (IH Hk). lia. Qed.
Lemma base_below (l : list nat) x : (x ≤ foldr Nat.max x l)%nat.
Proof. induction l; cbn; lia. Qed.

Lemma fill_pages_same n data p k g : (g < n)%nat → fill_pages n data p k !! g = p !! g.
Proof.
  revert n data p. induction k as [|k IH]; intros n data p Hg; [done|]. cbn. rewrite IH by lia. by rewrite lookup_insert_ne by lia.
Qed.
Lemma fill_pages_at n data p k i :
  (i < k)%nat → length data = (k * 4096)%nat → fill_pages n data p k !! (n + i)%nat = Some (take 4096 (drop (i * 4096) data)).
Proof.
  revert n data p i. induction k as [|k IH]; intros n data p i Hi Hl; [lia|]. cbn [fill_pages]. destruct i as [|i].
  - rewrite Nat.add_0_r, fill_pages_same by lia. rewrite lookup_insert_eq, Nat.mul_0_l, drop_0. f_equal. rewrite take_app_le; [done|lia].
  - replace (n + S i)%nat with (S n + i)%nat by lia. rewrite IH; [|lia|rewrite length_drop; lia].
    by rewrite drop_drop.
Qed.

#[export] Instance tab_fork_laws : ForkLaws TabWorld.
Proof.
  split.
  - done.
  - intros k w. split_and!; [done|by apply tab_ext..|done].
  - intros w k w' [= <- <-]. set (k := S _).
    assert (t_tables w !! k = None) as Hk.
    { apply eq_None_not_Some. intros [e He]. pose proof (max_above (map_to_list (t_tables w)).*1 (t_current w) k) as Hm.
      assert (k ∈ (map_to_list (t_tables w)).*1) as Hin by (apply list_elem_of_fmap; exists (k, e); split; [done|by apply elem_of_map_to_list]).
      specialize (Hm Hin). unfold k in Hm. lia. }
    pose proof (base_below (map_to_list (t_tables w)).*1 (t_current w)) as Hb. split_and!; [cbn; unfold k; lia|done|by apply tab_ext| |].
    + intros p. cbn. by rewrite lookup_insert_eq.
    + intros j p Hj. cbn. by rewrite lookup_insert_ne.
  - intros va pa f w _ Hn. by apply (t_set_entry (Some pa, f)).
  - intros va f w _ Hn. by apply (t_set_entry (None, f)).
  - intros va pa f w Ha _. eexists. split; [done|]. split.
    + split; [done|by apply tab_ext|]. intros j p Hp Hj. cbn. destruct (decide (j = t_current w)) as [->|Hne].
      * rewrite lookup_insert_eq. cbn. rewrite lookup_insert_ne; [done|]. intros ->. unfold page_va, PAGE_SIZE_4K in Hj.
        destruct Hj as [?|[?|?]]; [done|lia|lia].
      * by rewrite lookup_insert_ne.
    + cbn. rewrite lookup_insert_eq. cbn. by rewrite lookup_insert_eq.
  - intros va pa n f w Ha Hf. destruct (t_set_span (λ p, (Some (pa + (p - va)), f)) va n w Hf) as (w' & E & S & T).
    exists w'. split_and!; [exact E|exact S|]. intros i Hi. rewrite T by done. do 2 f_equal. f_equal. unfold page_va. lia.
  - intros w g w' [= <- <-]. split_and!; cbn; [lia|lia|by rewrite lookup_insert_eq|]. intros k lo. split; [done| |done].
    apply tab_ext; cbn; [done|lia|]. intros g Hg. by rewrite lookup_insert_ne by lia.
  - intros n data w l w' [= <- <-] Hl. split.
    + intros k lo. split; [done| |done]. apply tab_ext; cbn; [done|lia|]. intros g Hg. by apply fill_pages_same.
    + exists (seq (t_next w) n). split_and!; [done|by rewrite length_seq|apply NoDup_seq|]. intros i g Hi.
      apply lookup_seq in Hi as [-> Hi]. split_and!; cbn; [lia|lia| |].
      * by rewrite fill_pages_at by done.
      * intros g0 Hg0. apply lookup_seq in Hg0 as [-> _]. unfold page_at, page_va. lia.
  - intros g bs w. split_and!; cbn; [by rewrite lookup_insert_eq|done|done| |done].
    intros h Hh. split_and!; [done|done|]. intros Hne. by rewrite lookup_insert_ne.
  - intros p w g f Hp Ht _. cbn in *. assert (align_down_4k p = p) as -> by (unfold align_down_4k, aligned in *; lia).
    unfold t_entries. rewrite Ht. cbn. f_equal. unfold page_at, PAGE_SIZE_4K. mlia.
  - intros fd pos n w. cbn. destruct (t_files w !! fd); cbn; [|lia]. rewrite length_take. lia.
Qed.
#[export] Instance tab_enough : EnoughMemory TabWorld.
Proof. by split. Qed.

(** ** A process *)

Notation proc := (sysw (memw TabWorld)).
Definition tab_start : TabWorld := mk_tab {[ 0%nat := ∅ ]} 0 0 ∅ {[ 5%nat := replicate 4096 65 ]}.
Definition brick : SharedMem :=
  {| sm_paddr := 0x80000; sm_size := 0x1000;
     sm_info := {| info_perm := {| perm_key := 0; perm_uid := 0; perm_gid := 0; perm_cuid := 0; perm_cgid := 0; perm_mode := 0 |};
                   info_size := 0x1000; a_time := 0; d_time := 0; c_time := 0; c_pid := 1; l_pid := 0 |} |}.
(** [find_free_area] looks below the segments there are: here one at the top. *)
Definition set_start : MemorySet := {| owned_mem := []; private_mem := []; attached_mem := [(0x3ffff000, 3, brick)] |}.
Definition trampoline (p : Z) : Prop := 0x40000000 ≤ p < 0x40001000.
Definition R_start (p : Z) : Prop := 0x3ffff000 ≤ p < 0x40001000.
Definition proc_start : proc :=
  mk_sysw (mk_memw set_start tab_start 0x200000 0x200000 1 (mk_shm 1 ∅ ∅)) [None; Some 3; Some 4] 8 (mk_usermem ∅ ∅).
Definition files (f : Z) : option MemBackend :=
  if decide (f = 3) then Some {| b_file := 5; b_pos := 0; b_is_file := true; b_writable := true |} else None.
Notation mem_call id args := (mem_syscall 0x1000 0 files id args).
Definition run_mem_calls (l : list (MemSyscallId * list Z)) (w : proc) : proc :=
  foldl (λ w c, (run (mem_call c.1 c.2) w).2) w l.
Definition mem_answer (l : list (MemSyscallId * list Z)) (id : MemSyscallId) (args : list Z) : sysret :=
  (run (mem_call id args) (run_mem_calls l proc_start)).1.

Lemma start_ok : mem_ok trampoline R_start (sw_io proc_start).
Proof.
  split; cbn; try done.
  - split; try done.
    + split; [by constructor|by constructor].
    + constructor.
  - split; [split|].
    + apply NoDup_singleton.
    + intros s f m [= -> -> ->]%list_elem_of_singleton. split_and!; [done..|]. unfold R_start. cbn. lia.
    + intros s f m s' f' m' [= -> -> ->]%list_elem_of_singleton [= -> -> ->]%list_elem_of_singleton. done.
    + unfold R_start, trampoline. intros p Hp _ Ht. exists 0x3ffff000, 3, brick. split; [by left|cbn; lia].
  - constructor.
Qed.

Definition some_calls : list (MemSyscallId * list Z) :=
  [(MMAP, [0x10000; 0x3000; 3; 34; 0; 0]); (MPROTECT, [0x11000; 0x1000; 1]); (MUNMAP, [0x12000; 0x1000]);
   (SHMGET, [0; 0x1800; 0]); (SHMAT, [1; 0; 0]); (MREMAP, [0x10000; 0x2000; 0x1000; 0; 0]); (BRK, [0x200010])].
Example some_calls_run :
  imap (λ i c, mem_answer (take i some_calls) c.1 c.2) some_calls =
    SOk <$> [0x10000; 0; 0; 1; 0x1000; 0x10000; 0x200010].
Proof. by vm_compute. Qed.


Fixpoint calls_ok (l : list (MemSyscallId * list Z)) (w : proc) : Prop :=
  match l with [] => True | c :: l => mem_call_ok 0x1000 files trampoline w c.1 c.2 ∧ calls_ok l (run (mem_call c.1 c.2) w).2 end.
Lemma run_calls_after w0 w l : after_calls 0x1000 0 files trampoline w0 w → calls_ok l w → after_calls 0x1000 0 files trampoline w0 (run_mem_calls l w).
Proof.
  revert w. induction l as [|c l IH]; intros w Hw; [done|]. intros [Hc Hl]. apply IH; [|done]. by apply after_call.
Qed.
(** The gap found, if any, computed. *)
Lemma gap_clear_run hint sz (w : proc) :
  match find_free_area 0x1000 hint sz (mw_set (sw_io w)) with Some r => r + sz ≤ 0x40000000 | None => True end →
  gap_clear 0x1000 trampoline hint sz w.
Proof. intros Hg r E p Hp. rewrite E in Hg. unfold trampoline. lia. Qed.
Lemma some_calls_ok : calls_ok some_calls proc_start.
Proof.
  unfold some_calls. cbn [calls_ok fst snd mem_call_ok nth]. unfold page_range.
  split; [split_and!; [done..|]; intros _; apply gap_clear_run; by vm_compute|]. split; [done|]. split; [done|].
  split; [split; [done|by vm_compute]|]. split; [|done].
  split_and!; [done..|]. intros m E. vm_compute in E. injection E as <-. apply gap_clear_run. by vm_compute.
Qed.
Lemma mem_calls_keep_space_witness :
  (∃ R', mem_ok trampoline R' (sw_io (run_mem_calls some_calls proc_start))) ∧
  returned (run (mem_call SHMAT [1; 0; 0x1000]) (run_mem_calls some_calls proc_start)).1 = true.
Proof.
  assert (0 ≤ 0x1000 < 2 ^ 63 ∧ 0x1000 mod PAGE_SIZE_4K = 0) as Hums by done.
  destruct (mem_calls_keep_space 0x1000 0 files Hums trampoline R_start proc_start
    (run_mem_calls some_calls proc_start) start_ok) as [Hw Hr].
  - apply run_calls_after; [apply after_none|exact some_calls_ok].
  - split; [exact Hw|]. apply Hr. cbn [mem_call_ok nth]. split_and!; [done..|].
    intros m E. vm_compute in E. injection E as <-. apply gap_clear_run. by vm_compute.
Defined.

(** ** A fork *)

Definition touch (addr : Z) (w : proc) : proc :=
  let x := sw_io w in
  let '(_, ms, pt) := ms_handle_page_fault addr 1 (mw_set x) (mw_pt x) in
  mk_sysw (with_set ms pt x) (sw_table w) (sw_limit w) (sw_mem w).
(** Two pages of a private mapping of a file, the first there, one page of a shared
    one, and two pages there of an anonymous one. *)
Definition before_fork : proc :=
  touch 0x13000 (touch 0x14000 (touch 0x10000
    (run_mem_calls [(MMAP, [0x10000; 0x2000; 3; 2; 1; 0]); (MMAP, [0x18000; 0x1000; 3; 1; 1; 0]);
                    (MMAP, [0x20000; 0x2000; 3; 34; 0; 0])] proc_start))).
Definition fork_of (w : proc) : outcome (nat * MemorySet * MemorySet * TabWorld) :=
  clone_or_err [] id (mw_set (sw_io w)) (mw_pt (sw_io w)).
(** Pages of an address space: where, shared or not, its page, how its bytes start and
    its entry in the table [k]. *)
Definition view (k : nat) (ms : MemorySet) (w : TabWorld) : list (Z * bool * option PageRef * list Z * option entry) :=
  (λ '(p, s), (p, s_shared s, s_page s, take 2 (default [] ((λ g, page_bytes g w) <$> s_page s)), t_entries (t_select k w) !! p))
    <$> slots (owned_mem ms).*2.
(** The child has its own copy of each private page that was there and the parent's page
    of the shared one, which the fork allocates; what was not there is not. *)
Example fork_copies :
  match fork_of before_fork with
  | Ok (child, ms', ms, w) =>
      view 0 ms w =
        [(0x10000, false, Some 0%nat, [65; 65], Some (Some (page_at 0), 11)); (0x11000, false, None, [], Some (None, 11));
         (0x12000, true, Some 4%nat, [65; 65], Some (Some (page_at 4), 11));
         (0x13000, false, Some 2%nat, [0; 0], Some (Some (page_at 2), 11)); (0x14000, false, Some 1%nat, [0; 0], Some (Some (page_at 1), 11))] ∧
      view child ms' w =
        [(0x10000, false, Some 3%nat, [65; 65], Some (Some (page_at 3), 11)); (0x11000, false, None, [], Some (None, 11));
         (0x12000, true, Some 4%nat, [65; 65], Some (Some (page_at 4), 11));
         (0x13000, false, Some 5%nat, [0; 0], Some (Some (page_at 5), 11)); (0x14000, false, Some 6%nat, [0; 0], Some (Some (page_at 6), 11))]
  | _ => False
  end.
Proof. by vm_compute. Qed.

(** A process with a page that is there and one that is not, a shared page that is not,
    the window of the vDSO, an attached segment and a kernel of one page. *)
Definition fork_table : entries :=
  list_to_map [(0x10000, (Some (page_at 0), 11)); (0x11000, (None, 11)); (0x12000, (None, 11));
               (0x13000, (Some 0x90000, 13)); (0x3ffff000, (Some 0x80000, 3))].
Definition fork_start : TabWorld := mk_tab {[ 0%nat := fork_table ]} 0 1 {[ 0%nat := replicate 4096 65 ]} ∅.
Definition fork_set : MemorySet :=
  {| owned_mem :=
       [(0x10000, {| pages := [Some 0%nat; None]; vaddr := 0x10000; shared := false; flags := 11; backend := None |});
        (0x12000, {| pages := [None]; vaddr := 0x12000; shared := true; flags := 11; backend := None |});
        (0x13000, {| pages := [None]; vaddr := 0x13000; shared := false; flags := 13; backend := None |})];
     private_mem := []; attached_mem := [(0x3ffff000, 3, brick)] |}.
Definition to_virt (pa : Z) : Z := pa + 0xffffffc000000000.
Definition kernel_regions : list (Z * Z * Z) := [(0x80200000, 0x1000, 7)].
Definition R_fork (p : Z) : Prop := R_start p ∨ to_virt 0x80200000 ≤ p < to_virt 0x80201000.

Lemma fork_set_wf : ms_wf R_fork fork_set fork_start.
Proof.
  assert (∀ p, R_fork p → space fork_set !! p = None) as HR.
  { intros p Hp. apply eq_None_not_Some. intros [s Hs].
    assert (map_Forall (λ p _, 0x10000 ≤ p < 0x14000) (space fork_set)) as Hr by (apply (bool_decide_unpack _); by vm_compute).
    specialize (Hr p s Hs). cbv beta in Hr. unfold R_fork, R_start, to_virt in Hp. lia. }
  split; [| | | |done].
  - split; [repeat constructor|]. repeat constructor; cbn; try done; by unfold end_va.
  - apply (bool_decide_unpack _). by vm_compute.
  - assert (map_Forall (λ p s, pt_flags fork_start p = Some (s_flags s)) (space fork_set)) as Hin
      by (apply (bool_decide_unpack _); by vm_compute). exact Hin.
  - intros p _ Hn Hs. cbn. apply fmap_None, eq_None_not_Some. intros [e He].
    assert (map_Forall (λ p _, 0x3ffff000 ≤ p < 0x40000000 ∨ is_Some (space fork_set !! p)) (t_entries fork_start)) as Hr
      by (apply (bool_decide_unpack _); by vm_compute).
    destruct (Hr p e He) as [?|Hx]; [apply Hn; left; unfold R_start; lia|]. rewrite Hs in Hx. by destruct Hx.
Qed.
Lemma fork_forkable : forkable R_fork fork_set fork_start.
Proof.
  split; [exact fork_set_wf| | |].
  - split; cbn.
    + apply NoDup_singleton.
    + intros s f m [= -> -> ->]%list_elem_of_singleton. split_and!; [done..|]. intros p _ Hp. left. unfold R_start. cbn in Hp. lia.
    + intros s f m s' f' m' [= -> -> ->]%list_elem_of_singleton [= -> -> ->]%list_elem_of_singleton. done.
  - intros k a [[= -> ->]|[[= -> ->]|[[= -> ->]|[]%elem_of_nil]%elem_of_cons]%elem_of_cons]%elem_of_cons.
    + left. intros [|[|i]] pg Hi; cbn in Hi; simplify_eq; (split; [by vm_compute|]); intros g; [|done].
      intros [= <-]. split; [cbn; lia|by vm_compute].
    + left. intros [|i] pg Hi; cbn in Hi; simplify_eq. split; [by vm_compute|done].
    + right. split_and!; [done|by repeat constructor|]. intros [|i] Hi; cbn in Hi; [|lia]. by exists 0x90000.
  - intros k a [[= -> ->]|[[= -> ->]|[[= -> ->]|[]%elem_of_nil]%elem_of_cons]%elem_of_cons]%elem_of_cons _ b i Hb; done.
Qed.
Lemma fork_kernel : kernel_ok R_fork to_virt kernel_regions.
Proof.
  split.
  - by repeat constructor.
  - split; repeat constructor.
  - by repeat constructor.
  - intros p pa sz f [= -> -> ->]%list_elem_of_singleton Hp. right. unfold to_virt in *. lia.
Qed.
Lemma fork_copies_space_witness :
  ∃ child ms' ms2 w', clone_or_err kernel_regions to_virt fork_set fork_start = Ok (child, ms', ms2, w') ∧
    ms_wf R_fork ms' (pt_select child w') ∧
    ∃ g, space ms2 !! 0x12000 = Some {| s_page := Some g; s_flags := 11; s_shared := true; s_file := None |} ∧
         space ms' !! 0x12000 = Some {| s_page := Some g; s_flags := 11; s_shared := true; s_file := None |}.
Proof.
  destruct (fork_copies_space R_fork to_virt kernel_regions fork_set fork_start fork_forkable fork_kernel)
    as (child & ms' & ms2 & w' & E & _ & _ & _ & _ & _ & _ & _ & _ & Hwf & Hsp).
  exists child, ms', ms2, w'. split; [exact E|]. split; [exact Hwf|]. clear E Hwf. specialize (Hsp 0x12000).
  assert (space fork_set !! 0x12000 = Some {| s_page := None; s_flags := 11; s_shared := true; s_file := None |}) as Hs by (by vm_compute).
  rewrite Hs in Hsp. destruct Hsp as (s2 & s' & H2 & H' & (F2 & F' & S2 & S' & B2 & B' & g & P2 & P' & _) & _).
  exists g. rewrite H2, H'. destruct s2, s'. cbn in *. by simplify_eq.
Defined.

(** The area of the vDSO has no page of its own ([new_without_alloc]): a fork copies it
    as an area whose pages are missing, so that the child faults where its parent reads
    the vDSO. *)
Example vdso_lost_in_child :
  match clone_or_err kernel_regions to_virt fork_set fork_start with
  | Ok (child, _, _, w) => pt_tab w 0 0x13000 = Some (Some 0x90000, 13) ∧ pt_tab w child 0x13000 = Some (None, 13)
  | _ => False
  end.
Proof. by vm_compute. Qed.

(** ** What the calls do not do *)

(** A keyed segment cannot be created: the mask of the mode takes the creating flag. *)
Example keyed_shmget_creates_nothing :
  mem_answer [] SHMGET [7; 4096; Z.lor IPC_CREAT 438] = SErr ENOENT.
Proof. by vm_compute. Qed.
(** A mapping of no bytes is made, and then a fork panics on its first page. *)
Example empty_mapping_breaks_fork :
  let w := run_mem_calls [(MMAP, [0x10000; 0; 3; 34; 0; 0])] proc_start in
  mem_answer [] MMAP [0x10000; 0; 3; 34; 0; 0] = SOk 0x10000 ∧ fork_of w = Panic.
Proof. by vm_compute. Qed.
(** Ranges that do not start on a page, or sizes that are not pages. *)
Example unaligned_calls_panic :
  mem_answer [] MUNMAP [0x10800; 0x1000] = SPanic ∧ mem_answer [] MPROTECT [0x10000; 0x800; 1] = SPanic ∧
  mem_answer [(MMAP, [0x10000; 0x1000; 3; 34; 0; 0])] MREMAP [0x10000; 0x1000; 0x1800; 1; 0x20000] = SPanic.
Proof. by vm_compute. Qed.
(** [mremap] moves what it grows without being allowed to, and what it moves is neither
    shared nor read-only nor backed by a file any more. *)
Definition grown : proc :=
  run_mem_calls [(MMAP, [0x10000; 0x1000; 1; 1; 1; 0]); (MREMAP, [0x10000; 0x1000; 0x2000; 0; 0x20000])] proc_start.
Example mremap_loses_sharing :
  (λ e, (e.1, shared e.2, flags e.2, backend e.2)) <$> owned_mem (mw_set (sw_io grown)) = [(0x11000, false, 11, None)] ∧
  (λ e, (e.1, shared e.2, flags e.2, b_file <$> backend e.2)) <$>
    owned_mem (mw_set (sw_io (run_mem_calls [(MMAP, [0x10000; 0x1000; 1; 1; 1; 0])] proc_start))) = [(0x10000, true, 9, Some 5%nat)].
Proof. by vm_compute. Qed.
(** The check of an overlap with a new address is made even without [MREMAP_FIXED]. *)
Example mremap_checks_unused_address :
  mem_answer [(MMAP, [0x10000; 0x1000; 3; 34; 0; 0])] MREMAP [0x10000; 0x1000; 0x2000; 1; 0] = SOk 0x11000 ∧
  mem_answer [(MMAP, [0x10000; 0x1000; 3; 34; 0; 0])] MREMAP [0x10000; 0x1000; 0x2000; 1; 0x10000] = SErr EINVAL.
Proof. by vm_compute. Qed.
(** A fixed mapping over an attached segment, of which [split_for_area] knows nothing. *)
Example fixed_over_segment_panics :
  mem_answer [(SHMGET, [0; 0x1000; 0])] SHMAT [1; 0; 0] = SOk 0x1000 ∧
  mem_answer [(SHMGET, [0; 0x1000; 0]); (SHMAT, [1; 0; 0])] MMAP [0x1000; 0x1000; 3; 50; 0; 0] = SPanic.
Proof. by vm_compute. Qed.
(** A segment at a chosen address, flags that are not known, a mapping of what is not a file. *)
Example unsupported_calls_panic :
  mem_answer [(SHMGET, [0; 4096; 0])] SHMAT [1; 0x10000; 0] = SPanic ∧ mem_answer [] SHMAT [1; 0; 1] = SPanic ∧
  mem_answer [] MMAP [0x10000; 0x1000; 3; 2; 2; 0] = SPanic.
Proof. by vm_compute. Qed.
