(* ===== verification/TaskCalls.v ===== *)
(** * System calls on tasks

    modules/syscall/src/syscall_task: task.rs, schedule.rs, the senders of signals of
    signal.rs, [uname] and [getrandom] of utils.rs, the dispatch of mod.rs, the
    descriptors of processes (syscall_fs/ctype/pidfd.rs), and the scheduling status and
    CPU set of a task (modules/taskctx/src/task.rs).

    A call works on the process tables of the file on processes, by the task [cur]; the
    calls on times, signals and lists of robust futexes that other files give on the
    state they touch are put to the state of the task here.  What other tasks do while a
    call waits are its rounds: [None] says that it still waits at their end. *)

From S2P Require Import Prelude Memory UserMem Path Vfs RootFs TaskRun Futex TimeStat Link Signal FdManager Process.

Open Scope Z_scope.

(** ** Scheduling status (taskctx/src/task.rs) *)

Inductive SchedPolicy := SCHED_OTHER | SCHED_FIFO | SCHED_RR | SCHED_BATCH | SCHED_IDLE | SCHED_UNKNOWN.
#[export] Instance SchedPolicy_eq_dec : EqDecision SchedPolicy.
Proof. solve_decision. Defined.
Definition policy_from (policy : Z) : SchedPolicy :=
  match policy with 0 => SCHED_OTHER | 1 => SCHED_FIFO | 2 => SCHED_RR | 3 => SCHED_BATCH | 5 => SCHED_IDLE | _ => SCHED_UNKNOWN end.
Definition policy_number (policy : SchedPolicy) : Z :=
  match policy with
  | SCHED_OTHER => 0 | SCHED_FIFO => 1 | SCHED_RR => 2 | SCHED_BATCH => 3 | SCHED_IDLE => 5 | SCHED_UNKNOWN => -1
  end.
Record SchedStatus := mk_sched { policy : SchedPolicy; priority : Z }.

(** [1 << n] of a word: the amount is taken modulo 64. *)
Definition bit64 (n : Z) : Z := Z.shiftl 1 (n mod 64).
(** [set_cpu_set]: the mask it stores. *)
Definition cpu_set_of (mask set_size max_cpu_num : Z) : Z :=
  let n := wrap64 (set_size * 4) in
  let len := if decide (max_cpu_num < n) then max_cpu_num else n in
  Z.land mask (bit64 (wrap64 (len - 1))).

(** ** Structures (ctypes.rs, pidfd.rs) *)

Definition WNOHANG : Z := 1.
Definition WaitFlags_all : Z := foldr Z.lor 0 [1; 2; 8; Z.shiftl 1 30; Z.shiftl 1 31].
Definition wait_flags_of (v : Z) : option Z := if decide (Z.land v WaitFlags_all = v) then Some v else None.

Record CloneArgs := mk_clone_args {
  ca_flags : Z; ca_pidfd : Z; ca_child_tid : Z; ca_parent_tid : Z; ca_exit_signal : Z; ca_stack : Z;
  ca_stack_size : Z; ca_tls : Z
}.
Definition CloneArgs_size : Z := 88.
Definition load_CloneArgs (um : usermem) (a : Z) : CloneArgs :=
  let w i := load_le um (a + 8 * i) 8 in mk_clone_args (w 0) (w 1) (w 2) (w 3) (w 4) (w 5) (w 6) (w 7).

Definition RLIMIT_STACK : Z := 3.
Definition RLIMIT_NOFILE : Z := 7.
Definition RLIMIT_AS : Z := 9.
Definition USER_MEMORY_LIMIT : Z := 0xffffffff.
Definition store_RLimit (um : usermem) (a v : Z) : usermem := store_le (store_le um a 8 v) (a + 8) 8 v.

Inductive PrctlOption := PR_SET_NAME | PR_GET_NAME.
Definition prctl_try_from (o : Z) : option PrctlOption :=
  match o with 15 => Some PR_SET_NAME | 16 => Some PR_GET_NAME | _ => None end.
Definition PR_NAME_SIZE : nat := 16.

(** [UtsName::from_str]: a field of 65 bytes. *)
Definition uts_field (info : str) : list Z := info ++ replicate (65 - length info) 0.
Definition UtsName_default : list Z :=
  concat (uts_field <$>
    [lit "Starry"; lit "Starry - machine[0]"; lit "10.0.0"; lit "10.0.0"; lit "RISC-V 64 on SIFIVE FU740";
     lit "https://github.com/Azure-stars/arceos"]).

(** [SigInfo] as these calls make and read it. *)
Class SigInfos (SI : Type) := {
  siginfo_from : Z → Z → SI;               (** signal, sender *)
  load_siginfo : usermem → Z → SI
}.
(** User memory put back behind the address space that shows it. *)
Class MemPut (M : Type) := { mem_put : usermem → M → M }.

Section calls.
Context {SS SH SA SI M : Type} `{AxSignal SS SH SA SI} `{ProcMem M} `{!SigInfos SI} `{!MemPut M}.
Notation world := (world SS SH M).
Notation Executor := (Executor SS).

(** The process tables, the scheduling status and CPU set of tasks where they have
    been set, the process behind each descriptor of a process, the queues of the
    futexes and the clock in nanoseconds. *)
Record tstate := mk_ts {
  ts_w : world; ts_sched : gmap Z SchedStatus; ts_cpus : gmap Z Z; ts_pidfds : gmap Z Z;
  ts_queues : FutexQueues; ts_now : Z
}.
Definition with_world (w : world) (s : tstate) : tstate :=
  mk_ts w (ts_sched s) (ts_cpus s) (ts_pidfds s) (ts_queues s) (ts_now s).
Definition with_status (t : Z) (v : SchedStatus) (s : tstate) : tstate :=
  mk_ts (ts_w s) (<[t := v]> (ts_sched s)) (ts_cpus s) (ts_pidfds s) (ts_queues s) (ts_now s).
Definition with_cpus (t mask : Z) (s : tstate) : tstate :=
  mk_ts (ts_w s) (ts_sched s) (<[t := mask]> (ts_cpus s)) (ts_pidfds s) (ts_queues s) (ts_now s).
Definition with_pidfd (f p : Z) (s : tstate) : tstate :=
  mk_ts (ts_w s) (ts_sched s) (ts_cpus s) (<[f := p]> (ts_pidfds s)) (ts_queues s) (ts_now s).
Definition with_queues (q : FutexQueues) (s : tstate) : tstate :=
  mk_ts (ts_w s) (ts_sched s) (ts_cpus s) (ts_pidfds s) q (ts_now s).

(** A call: its value, or what ends it. *)
Definition T (A : Type) : Type := tstate → (A + sysret) * tstate.
#[export] Instance t_ret : MRet T := λ A a s, (inl a, s).
#[export] Instance t_bind : MBind T := λ A B f m s,
  match m s with (inl a, s) => f a s | (inr r, s) => (inr r, s) end.
Definition tfail {A} (e : LinuxError) : T A := λ s, (inr (SErr e), s).
Definition tpanic {A} : T A := λ s, (inr SPanic, s).
Definition tcheck (b : bool) (e : LinuxError) : T unit := if b then mret () else tfail e.
Definition asks {A} (f : tstate → A) : T A := λ s, (inl (f s), s).
Definition puts (f : tstate → tstate) : T unit := λ s, (inl (), f s).
Definition of_option {A} (o : option A) : T A := match o with Some a => mret a | None => tpanic end.
(** An operation on processes, its result or its error. *)
Definition on_world {A} (x : P A) : T (A + AxError) := λ s,
  match x (ts_w s) with
  | (Ok a, w) => (inl (inl a), with_world w s)
  | (Err e, w) => (inl (inr e), with_world w s)
  | (Panic, w) => (inr SPanic, with_world w s)
  end.
(** The same, of one that has no error. *)
Definition on_world_ok {A} (x : P A) : T A := r ← on_world x; match r return T A with inl a => mret a | inr _ => tpanic end.

(** The sizes and addresses of the configuration, the running task. *)
Context (TASK_STACK_SIZE SIGNAL_TRAMPOLINE STATUS SMP : Z) (cur : Z).
Context (errno_of : AxError → LinuxError).

Definition the_process : T Executor := on_world_ok (current_executor cur).
Definition current_task : T Task := on_world_ok (the_task cur).
Definition set_process (p : Z) (f : Executor → Executor) : T unit := on_world_ok (upd_exec p f).
Definition set_current (f : Task → Task) : T unit := on_world_ok (upd_task cur f).

(** User memory. *)
Definition user_mem : T usermem := e ← the_process; m ← on_world_ok (the_mem (memory_set e)); mret (mem_view m).
Definition put_user_mem (um : usermem) : T unit :=
  e ← the_process; m ← on_world_ok (the_mem (memory_set e)); on_world_ok (put_mem (memory_set e) (mem_put um m)).
Definition user_store (f : usermem → usermem) : T unit := um ← user_mem; put_user_mem (f um).
Definition alloc_ok (addr : Z) : T bool := um ← user_mem; mret (manual_alloc_for_lazy_ok um addr).
Definition alloc_type_ok (addr sz : Z) : T bool := um ← user_mem; mret (manual_alloc_type_for_lazy_ok um addr sz).

(** ** Descriptors of processes (pidfd.rs) *)

(** [PidFd]: its flags are those of the file object. *)
Definition new_pidfd (p flags : Z) : T Z :=
  live ← asks (λ s, bool_decide (p ∈ PID2PC (ts_w s)));
  _ ← tcheck live EINVAL;
  e ← the_process;
  t ← asks (λ s, default [] (fd_tables (ts_w s) !! fd_table (fd_manager e)));
  match alloc_fd (get_limit (fd_manager e)) t return T Z with
  | Ok (fd, t) =>
      f ← on_world_ok (new_file (Z.lor flags CLOEXEC));
      _ ← puts (with_pidfd f p);
      _ ← on_world_ok (modify (λ w, set_fd_tables (<[fd_table (fd_manager e) := <[Z.to_nat fd := Some f]> t]> (fd_tables w)) w));
      mret fd
  | _ => tfail EMFILE
  end.
(** [PidFd::readable]: whether the process is a zombie; one that has been reaped was. *)
Definition pidfd_readable (f : Z) (s : tstate) : option bool :=
  p ← ts_pidfds s !! f; Some (match execs (ts_w s) !! p with Some e => is_zombie e | None => true end).
Definition pidfd_status (f : Z) (s : tstate) : Z := default 0 (fstatus (ts_w s) !! f).
Definition pidfd_set_status (f flags : Z) : T unit := on_world_ok (modify (λ w, set_fstatus (<[f := flags]> (fstatus w)) w)).
Definition pidfd_set_close_on_exec (f : Z) (is_set : bool) : T unit :=
  flags ← asks (pidfd_status f);
  pidfd_set_status f (if is_set then Z.lor flags CLOEXEC else Z.land flags (Z.lnot CLOEXEC)).

(** ** [exit] and [execve] *)

Notation round := (tstate → tstate).

(** [executor::exit]: the loop over the other threads runs again after each round. *)
Fixpoint exit_loop (rounds : list round) : T bool :=
  done ← on_world_ok (exit_poll cur);
  if done : bool then mret true
  else match rounds with [] => mret false | r :: rounds => _ ← puts r; exit_loop rounds end.
Definition exit (code : Z) (rounds : list round) : T bool :=
  _ ← on_world_ok (exit_begin cur);
  c ← current_task;
  done ← (if is_leader c then exit_loop rounds else mret true);
  if done : bool then _ ← on_world_ok (exit_finish cur code); mret true else mret false.
Definition syscall_exit (rounds : list round) (args : list Z) : T (option Z) :=
  let exit_code := to_i64 (arg args 0) in
  done ← exit exit_code rounds; mret (if done : bool then Some exit_code else None).

(** The vector of strings behind a pointer, up to a null word; unmapped words are
    null, so one word more than there are bytes is enough. *)
Fixpoint string_vec (fuel : nat) (um : usermem) (ptr : Z) : option (list str) :=
  match fuel with
  | O => None
  | S fuel =>
      let p := load_le um ptr 8 in
      if decide (p = 0) then Some []
      else l ← string_vec fuel um (ptr + 8); Some (default [] (raw_ptr_to_ref_str um p) :: l)
  end.
Definition read_string_vec (um : usermem) (ptr : Z) : list str :=
  default [] (string_vec (S (base.size (um_bytes um))) um ptr).
(** [solved] is what [solve_path] of the path in the first argument answers. *)
Definition syscall_exec (solved : str + sysret) (rounds : list round) (args : list Z) : T (option Z) :=
  match solved return T (option Z) with
  | inr r => λ s, (inr r, s)
  | inl path =>
      _ ← tcheck (negb (Link.is_dir path)) EISDIR;
      um ← user_mem;
      let args_vec := read_string_vec um (arg args 1) in
      let envs_vec := if decide (arg args 2 = 0) then [] else read_string_vec um (arg args 2) in
      e ← the_process;
      _ ← set_process (pid e) (set_file_path path);
      now ← asks ts_now;
      r ← on_world (exec SIGNAL_TRAMPOLINE STATUS cur (pid e) now path args_vec envs_vec);
      match r return T (option Z) with
      | inl _ => mret (Some (Z.of_nat (length args_vec)))
      | inr _ => done ← exit 0 rounds; mret (if done : bool then Some (Z.of_nat (length args_vec)) else None)
      end
  end.

(** ** [clone] *)

(** The wait of [CLONE_VFORK]. *)
Fixpoint vfork_wait (self : Z) (rounds : list round) : T bool :=
  done ← on_world_ok (vfork_done self);
  if done : bool then mret true
  else match rounds with [] => mret false | r :: rounds => _ ← puts r; vfork_wait self rounds end.
(** [clone_task] up to its return: its id, [ENOMEM] for an error. *)
Definition do_clone (flags : Z) (stack : option Z) (ptid tls ctid : Z) (exit_sig : option Z) (rounds : list round) : T (option Z) :=
  e ← the_process;
  r ← on_world (clone_task TASK_STACK_SIZE cur (pid e) flags stack ptid tls ctid exit_sig);
  match r return T (option Z) with
  | inl (id, false) => mret (Some id)
  | inl (id, true) => done ← vfork_wait (pid e) rounds; mret (if done : bool then Some id else None)
  | inr _ => tfail ENOMEM
  end.
Definition sighand_ok (cf : Z) : bool := negb (has_flag cf CLONE_SIGHAND && negb (has_flag cf CLONE_VM)).

Definition syscall_clone (rounds : list round) (args : list Z) : T (option Z) :=
  let flags := arg args 0 in
  let user_stack := arg args 1 in
  let ptid := arg args 2 in
  let tls := arg args 3 in
  let ctid := arg args 4 in
  let stack := if decide (user_stack = 0) then None else Some user_stack in
  let sig_child := if decide (signo_from (Z.land flags 0x3f) = SIGCHLD) then Some SIGCHLD else None in
  cf ← of_option (clone_flags_of flags);
  _ ← tcheck (sighand_ok cf) EINVAL;
  r ← do_clone flags stack ptid tls ctid sig_child rounds;
  match r return T (option Z) with
  | None => mret None
  | Some id =>
      _ ← (if has_flag cf CLONE_PIDFD then
             _ ← tcheck (negb (has_flag cf CLONE_PARENT_SETTID)) EINVAL;
             ok ← alloc_ok ptid;
             if ok : bool then fd ← new_pidfd id 0; user_store (λ um, store_le um ptid 4 (wrap32 fd)) else mret ()
           else mret ());
      mret (Some id)
  end.

(** [CloneFlags::from_bits], of flags that still hold what [clone] masks. *)
Definition clone3_flags_of (flags : Z) : option Z :=
  let b := wrap32 flags in if decide (Z.land b CloneFlags_all = b) then Some b else None.
Definition syscall_clone3 (rounds : list round) (args : list Z) : T (option Z) :=
  _ ← tcheck (negb (bool_decide (arg args 1 < CloneArgs_size))) EINVAL;
  ok ← alloc_type_ok (arg args 0) CloneArgs_size;
  _ ← tcheck ok EFAULT;
  um ← user_mem;
  let a := load_CloneArgs um (arg args 0) in
  cf ← of_option (clone3_flags_of (ca_flags a));
  _ ← tcheck (negb ((has_flag cf CLONE_THREAD || has_flag cf CLONE_PARENT) && negb (bool_decide (ca_exit_signal a = 0)))) EINVAL;
  _ ← tcheck (sighand_ok cf) EINVAL;
  let stack := if decide (ca_stack a = 0) then None else Some (wrap64 (ca_stack a + ca_stack_size a)) in
  let sig_child := if decide (ca_exit_signal a = 0) then None else Some (signo_from (ca_exit_signal a)) in
  _ ← tcheck (negb (bool_decide (ca_stack a ≠ 0 ∧ (ca_stack a mod 16 ≠ 0 ∨ ca_stack_size a = 0)))) EINVAL;
  r ← do_clone (ca_flags a) stack (ca_parent_tid a) (ca_tls a) (ca_child_tid a) sig_child rounds;
  match r return T (option Z) with
  | None => mret None
  | Some id =>
      _ ← (if has_flag cf CLONE_PIDFD then
             fd ← new_pidfd id 0; user_store (λ um, store_le um (ca_pidfd a) 8 fd)
           else mret ());
      mret (Some id)
  end.

(** ** [wait4], sleeping *)

(** [have_signals] and [have_restart_signals], of the signal module of the task. *)
Definition my_module : T (SignalModule SS) := e ← the_process; of_option (signal_modules e !! cur).
Definition have_signals : T (option Z) :=
  m ← my_module;
  match find_signal (signal_set m) return T (option Z) with
  | Some n => mret (Some n)
  | None =>
      c ← current_task;
      let r := check_pending_timer_signal (ttime c) in
      _ ← set_current (set_ttime r.2); mret r.1
  end.
Definition have_restart_signals : T (option bool) :=
  m ← my_module;
  h ← asks (λ s, handlers (ts_w s) !! signal_handler m);
  h ← of_option h;
  mret (have_restart_signal h m).

Fixpoint wait_loop (want ptr : Z) (nohang : bool) (rounds : list round) : T (option Z) :=
  r ← on_world_ok (wait_pid cur want ptr);
  match r return T (option Z) with
  | inl p => mret (Some p)
  | inr WNotExist => tfail ECHILD
  | inr WRunning =>
      if nohang then mret (Some 0)
      else
        restart ← have_restart_signals;
        match restart return T (option Z) with
        | Some true => tfail ERESTART
        | Some false => tfail EINTR
        | None => match rounds with [] => mret None | r :: rounds => _ ← puts r; wait_loop want ptr nohang rounds end
        end
  | inr WExited => tpanic
  end.
Definition syscall_wait4 (rounds : list round) (args : list Z) : T (option Z) :=
  option ← of_option (wait_flags_of (wrap32 (arg args 2)));
  wait_loop (as_i32 (arg args 0)) (arg args 1) (has_flag option WNOHANG) rounds.

Definition syscall_yield (r : round) : T Z := _ ← puts r; mret 0.

(** [r] is what the others do until the task runs again, and what the clock says then. *)
Definition syscall_sleep (r : round) (args : list Z) : T Z :=
  let req := arg args 0 in
  let rem := arg args 1 in
  um ← user_mem;
  let req_time := load_TimeSecs um req in
  dur ← of_option (duration_new (tv_sec req_time) (wrap32 (tv_nsec req_time)));
  start_to_sleep ← asks ts_now;
  _ ← puts r;
  now ← asks ts_now;
  let sleep_time := now - start_to_sleep in
  _ ← (if decide (rem = 0) then mret ()
       else
         let delta := if decide (sleep_time < dur) then wrap64 (dur - sleep_time) else 0 in
         user_store (λ um, store_TimeSecs um rem (mk_timesecs (delta / 1000000000) (delta mod 1000000000))));
  sig ← have_signals;
  match sig return T Z with Some _ => tfail EINTR | None => mret 0 end.

(** ** Identities and limits *)

Definition syscall_set_tid_address (args : list Z) : T Z :=
  _ ← set_current (set_clear_child_tid (arg args 0)); mret cur.

Definition when_ptr (ptr : Z) (x : T unit) : T unit := if decide (ptr = 0) then mret () else x.
Definition syscall_prlimit64 (args : list Z) : T Z :=
  let p := arg args 0 in
  let resource := as_i32 (arg args 1) in
  let new_limit := arg args 2 in
  let old_limit := arg args 3 in
  e ← the_process;
  _ ← (if decide (p = 0 ∨ p = pid e) then
         if decide (resource = RLIMIT_STACK) then
           _ ← when_ptr old_limit (user_store (λ um, store_RLimit um old_limit (stack_size e)));
           when_ptr new_limit
             (um ← user_mem;
              let new_size := load_le um new_limit 8 in
              if decide (TASK_STACK_SIZE < new_size) then set_process (pid e) (set_stack_size new_size) else mret ())
         else if decide (resource = RLIMIT_NOFILE) then
           _ ← when_ptr old_limit (user_store (λ um, store_RLimit um old_limit (get_limit (fd_manager e))));
           when_ptr new_limit
             (um ← user_mem;
              set_process (pid e) (λ e, set_fd_manager (set_limit (load_le um new_limit 8) (fd_manager e)) e))
         else if decide (resource = RLIMIT_AS) then
           when_ptr old_limit (user_store (λ um, store_RLimit um old_limit USER_MEMORY_LIMIT))
         else mret ()
       else mret ());
  mret 0.

Definition syscall_getpgid : T Z := mret 0.
Definition syscall_setpgid (args : list Z) : T Z := mret 0.
Definition syscall_getpid : T Z := e ← the_process; mret (pid e).
Definition syscall_getppid : T Z := e ← the_process; mret (parent e).
Definition syscall_umask (args : list Z) : T Z :=
  e ← the_process;
  old ← asks (λ s, umasks (ts_w s) !! umask (fd_manager e));
  old ← of_option old;
  let r := set_mask (as_i32 (arg args 0)) old in
  _ ← on_world_ok (modify (λ w, set_umasks (<[umask (fd_manager e) := r.1]> (umasks w)) w));
  mret r.2.
Definition syscall_getuid : T Z := mret 0.
Definition syscall_geteuid : T Z := mret 0.
Definition syscall_getgid : T Z := mret 0.
Definition syscall_getegid : T Z := mret 0.
Definition syscall_gettid : T Z := mret cur.

Definition set_process_id (v : Z) (x : Task) : Task :=
  mk_task v (is_leader x) (Process.tstate x) (texit_code x) (child_tid x) (clear_child_tid x) (tname x)
    (page_table_token x) (utrap_frame x) (ttime x).
(** The new process has the thread and its address space, a copy of its descriptor
    table, the root as working directory; nobody has it as a child. *)
Definition syscall_setsid : T Z :=
  e ← the_process;
  _ ← tcheck (negb (bool_decide (pid e = cur))) EPERM;
  _ ← set_process (pid e) (λ e, set_etasks (filter (λ t, t ≠ cur) (etasks e)) e);
  new_pid ← on_world_ok new_task_id;
  t ← asks (λ s, fd_tables (ts_w s) !! fd_table (fd_manager e));
  t ← of_option t;
  table ← on_world_ok (new_table t);
  cwd ← on_world_ok (new_cwd [SLASH]);
  mask ← on_world_ok (new_umask 18);
  h ← on_world_ok (new_handler handler_new);
  let np := executor_new TASK_STACK_SIZE new_pid (parent e) (memory_set e) (heap_bottom e) table cwd mask in
  let np := set_signal_modules {[ cur := init_signal h ]} np in
  let np := set_etasks [cur] np in
  _ ← on_world_ok (modify (λ w, set_execs (<[new_pid := np]> (execs w)) w));
  _ ← set_current (set_is_leader true);
  _ ← set_current (set_process_id new_pid);
  _ ← on_world_ok (modify (λ w, set_PID2PC ({[new_pid]} ∪ PID2PC w) w));
  mret cur.

(** ** [prctl] *)

(** [String::truncate]: a panic inside a character. *)
Definition string_truncate (n : nat) (bs : list Z) : option (list Z) :=
  match bs !! n with Some b => if cont_byte b then None else Some (take n bs) | None => Some bs end.
Fixpoint take_while_nonzero (bs : list Z) : list Z :=
  match bs with [] => [] | b :: bs => if decide (b = 0) then [] else b :: take_while_nonzero bs end.
Definition syscall_prctl (args : list Z) : T Z :=
  let arg2 := arg args 1 in
  match prctl_try_from (arg args 0) return T Z with
  | Some PR_GET_NAME =>
      c ← current_task;
      name ← of_option (string_truncate PR_NAME_SIZE (utf8 (tname c ++ [0])));
      ok ← alloc_ok arg2;
      _ ← tcheck ok EINVAL;
      _ ← user_store (λ um, store_bytes um arg2 name);
      mret 0
  | Some PR_SET_NAME =>
      ok ← alloc_ok arg2;
      _ ← tcheck ok EINVAL;
      um ← user_mem;
      let new_name := default [] (from_utf8 (take_while_nonzero (load_bytes um arg2 PR_NAME_SIZE))) in
      _ ← set_current (set_tname new_name);
      mret 0
  | None => mret 0
  end.

(** ** Signals *)

Definition syscall_kill (args : list Z) : T Z :=
  let p := to_i64 (arg args 0) in
  let signum := to_i64 (arg args 1) in
  if decide (0 < p ∧ 0 < signum) then _ ← on_world (send_signal_to_process (SI := SI) p signum None); mret 0
  else if decide (p = 0) then tfail ESRCH else tfail EINVAL.
Definition syscall_tkill (args : list Z) : T Z :=
  let tid := to_i64 (arg args 0) in
  let signum := to_i64 (arg args 1) in
  if decide (0 < tid ∧ 0 < signum) then _ ← on_world (send_signal_to_thread tid signum); mret 0 else tfail EINVAL.
Definition syscall_tgkill (args : list Z) : T Z :=
  let tgid := to_i64 (arg args 0) in
  let tid := to_i64 (arg args 1) in
  let signum := to_i64 (arg args 2) in
  if decide (0 < tgid ∧ 0 < tid ∧ 0 < signum) then _ ← on_world (send_signal_to_thread tid signum); mret 0 else tfail EINVAL.

Definition syscall_pidfd_send_signal (args : list Z) : T Z :=
  let signum := as_i32 (arg args 1) in
  let info := arg args 2 in
  e ← the_process;
  t ← asks (λ s, default [] (fd_tables (ts_w s) !! fd_table (fd_manager e)));
  match t !! Z.to_nat (arg args 0) return T Z with
  | Some (Some f) =>
      p ← asks (λ s, ts_pidfds s !! f);
      match p return T Z with
      | None => tfail EBADF
      | Some p =>
          um ← user_mem;
          _ ← tcheck (bool_decide (info = 0) || manual_alloc_type_for_lazy_ok um info siginfo_size) EFAULT;
          let si := if decide (info = 0) then siginfo_from signum (pid e) else load_siginfo um info in
          r ← on_world (send_signal_to_process p signum (Some si));
          match r return T Z with inl _ => mret 0 | inr err => tfail (errno_of err) end
      end
  | _ => tfail EBADF
  end.

(** ** Scheduling (schedule.rs) *)

(** The task an id stands for: a thread, the main thread of a process, or, with 0, the
    running one. *)
Definition task_of (p : Z) : T Z :=
  s ← asks id;
  if decide (p ∈ TID2TASK (ts_w s)) then mret p
  else if decide (p ∈ PID2PC (ts_w s)) then
    e ← of_option (execs (ts_w s) !! p); of_option (main_task e)
  else if decide (p = 0) then mret cur else tfail ESRCH.

Definition cpu_set_initial : Z := cpu_set_of (Z.shiftl 1 SMP - 1) 1 SMP.
Definition get_cpu_set (t : Z) (s : tstate) : Z := default cpu_set_initial (ts_cpus s !! t).
Definition get_sched_status (t : Z) (s : tstate) : SchedStatus := default (mk_sched SCHED_FIFO 1) (ts_sched s !! t).

(** What is left of the caller's mask: its bits beyond [len], then of those the bits of
    the set below [len]. *)
Definition affinity_mask (len prev cpu_set : Z) : Z :=
  let below := bit64 len - 1 in
  Z.land (Z.land prev (Z.lnot below)) (Z.land cpu_set below).
Definition syscall_sched_getaffinity (args : list Z) : T Z :=
  let mask := arg args 2 in
  t ← task_of (arg args 0);
  ok ← alloc_ok mask;
  _ ← tcheck ok EFAULT;
  cpu_set ← asks (get_cpu_set t);
  let len := Z.min SMP (wrap64 (arg args 1 * 4)) in
  _ ← user_store (λ um, store_le um mask 8 (affinity_mask len (load_le um mask 8) cpu_set));
  mret SMP.
Definition syscall_sched_setaffinity (args : list Z) : T Z :=
  let mask := arg args 2 in
  t ← task_of (arg args 0);
  ok ← alloc_ok mask;
  _ ← tcheck ok EFAULT;
  um ← user_mem;
  _ ← puts (with_cpus t (cpu_set_of (load_le um mask 8) (arg args 1) SMP));
  mret 0.
Definition syscall_sched_setscheduler (args : list Z) : T Z :=
  let param := arg args 2 in
  _ ← tcheck (bool_decide (0 ≤ to_i64 (arg args 0) ∧ param ≠ 0)) EINVAL;
  t ← task_of (arg args 0);
  ok ← alloc_ok param;
  _ ← tcheck ok EFAULT;
  um ← user_mem;
  let prio := load_le um param 8 in
  let policy := policy_from (arg args 1) in
  _ ← tcheck (negb (bool_decide (policy = SCHED_UNKNOWN))) EINVAL;
  _ ← tcheck (if decide (policy = SCHED_OTHER ∨ policy = SCHED_BATCH ∨ policy = SCHED_IDLE)
              then bool_decide (prio = 0) else bool_decide (1 ≤ prio ≤ 99)) EINVAL;
  _ ← puts (with_status t (mk_sched policy prio));
  mret 0.
Definition syscall_sched_getscheduler (args : list Z) : T Z :=
  _ ← tcheck (bool_decide (0 ≤ to_i64 (arg args 0))) EINVAL;
  t ← task_of (arg args 0);
  s ← asks (get_sched_status t);
  mret (policy_number (policy s)).

(** ** The rest of utils.rs *)

Definition syscall_uname (args : list Z) : T Z :=
  _ ← user_store (λ um, store_bytes um (arg args 0) UtsName_default); mret 0.
(** [random]: the bytes the generator gives, always from the seed of zeroes. *)
Definition syscall_getrandom (random : nat → list Z) (args : list Z) : T Z :=
  let buf := arg args 0 in
  let len := arg args 1 in
  um ← user_mem;
  _ ← tcheck (manual_alloc_range_for_lazy_ok um buf (wrap64 (buf + len))) EFAULT;
  _ ← user_store (λ um, store_bytes um buf (random (Z.to_nat len)));
  mret len.

(** ** The calls that other files give on the state they touch *)

Definition answer (r : sysret) : T Z := match r with SOk v => mret v | _ => λ s, (inr r, s) end.
Definition on_times (f : TimeStat → usermem → usermem * sysret) : T Z :=
  c ← current_task; um ← user_mem; let r := f (ttime c) um in _ ← put_user_mem r.1; answer r.2.
Definition set_task_times (f : TimeStat → usermem → TimeStat * usermem * sysret) : T Z :=
  c ← current_task; um ← user_mem;
  let '(t, um, r) := f (ttime c) um in
  _ ← set_current (set_ttime t); _ ← put_user_mem um; answer r.
Definition on_module (f : usermem → SignalModule SS → usermem * SignalModule SS * sysret) : T Z :=
  e ← the_process; m ← my_module; um ← user_mem;
  let '(um, m, r) := f um m in
  _ ← on_world_ok (insert_module (pid e) cur m); _ ← put_user_mem um; answer r.
Definition on_handler (f : usermem → SH → usermem * SH * sysret) : T Z :=
  m ← my_module; h ← asks (λ s, handlers (ts_w s) !! signal_handler m); h ← of_option h; um ← user_mem;
  let '(um, h, r) := f um h in
  _ ← on_world_ok (modify (λ w, set_handlers (<[signal_handler m := h]> (handlers w)) w));
  _ ← put_user_mem um; answer r.

Fixpoint sigsuspend_loop (rounds : list round) : T (option Z) :=
  m ← my_module;
  match sigsuspend_poll m return T (option Z) with
  | Some r => v ← answer r; mret (Some v)
  | None => match rounds with [] => mret None | r :: rounds => _ ← puts r; sigsuspend_loop rounds end
  end.
Definition syscall_sigsuspend (rounds : list round) (args : list Z) : T (option Z) :=
  e ← the_process; m ← my_module; um ← user_mem;
  let '(m, r) := sigsuspend_begin um m args in
  _ ← on_world_ok (insert_module (pid e) cur m);
  match r return T (option Z) with Some r => v ← answer r; mret (Some v) | None => sigsuspend_loop rounds end.
Definition do_sigreturn : T Z :=
  e ← the_process; m ← my_module; um ← user_mem; c ← current_task;
  tf ← of_option (utrap_frame c);
  let '(r, m, tf) := syscall_sigreturn um m tf in
  _ ← on_world_ok (insert_module (pid e) cur m); _ ← set_current (set_utrap_frame (Some tf)); answer r.

(** A futex call; one that waits runs its next piece after each round. *)
Fixpoint futex_loop (f : WaitFrame) (rounds : list round) : T (option Z) :=
  um ← user_mem; sig ← have_signals; s ← asks id;
  let '(qs, o) := futex_wait_poll um (ts_now s) (bool_decide (is_Some sig)) cur f (ts_queues s) in
  _ ← puts (with_queues qs);
  match o return T (option Z) with
  | inr r => v ← answer r; mret (Some v)
  | inl f => match rounds with [] => mret None | r :: rounds => _ ← puts r; futex_loop f rounds end
  end.
Definition do_futex (rounds : list round) (args : list Z) : T (option Z) :=
  e ← the_process; um ← user_mem; s ← asks id;
  match syscall_futex (pid e) um (ts_now s) (ts_queues s) args return T (option Z) with
  | Return qs r => _ ← puts (with_queues qs); v ← answer r; mret (Some v)
  | Wait f => futex_loop f rounds
  end.
Definition do_set_robust_list (args : list Z) : T Z :=
  e ← the_process; um ← user_mem;
  let '(l, r) := syscall_set_robust_list um cur (robust_list e) args in
  _ ← set_process (pid e) (set_robust_list l); answer r.
Definition do_get_robust_list (args : list Z) : T Z :=
  e ← the_process; um ← user_mem;
  let '(w, r) := syscall_get_robust_list um cur (robust_list e) args in
  _ ← match w return T unit with
      | Some (head, len) => user_store (λ um, store_le (store_le um (arg args 1) 8 head) (arg args 2) 8 len)
      | None => mret ()
      end;
  answer r.
(** The deadline is that of the request before the sleep. *)
Definition do_clock_nanosleep (r : round) (args : list Z) : T Z :=
  let remain := arg args 3 in
  um ← user_mem; now ← asks ts_now;
  match syscall_clock_nanosleep now now um args return T Z with
  | (_, None, res) => answer res
  | (_, Some deadline, _) =>
      _ ← puts r;
      woken ← asks ts_now;
      if decide (woken < deadline ∧ remain ≠ 0) then
        ok ← alloc_type_ok remain TimeSecs_size;
        _ ← tcheck ok EFAULT;
        let delta := wrap64 (deadline - woken) in
        _ ← user_store (λ um, store_TimeSecs um remain (mk_timesecs (delta / 1000000000) (delta mod 1000000000)));
        tfail EINTR
      else mret 0
  end.

(** ** The dispatch, with the numbers of riscv64 *)

Inductive TaskSyscallId :=
  | EXIT | EXIT_GROUP | SET_TID_ADDRESS | FUTEX | SET_ROBUST_LIST | GET_ROBUST_LIST | NANO_SLEEP | GETTIMER
  | SETITIMER | CLOCK_GETRES | CLOCK_NANOSLEEP | SYSLOG | SCHED_SETSCHEDULER | SCHED_GETSCHEDULER
  | SCHED_SETAFFINITY | SCHED_GETAFFINITY | SIGALTSTACK | GET_MEMPOLICY | SETPGID | GETPGID | SETSID | GETRUSAGE
  | UMASK | PRCTL | GETPID | GETPPID | GETUID | GETEUID | GETGID | SETGID | GETEGID | GETTID | SYSINFO | CLONE
  | CLONE3 | EXECVE | MADVICE | WAIT4 | GETRANDOM | SCHED_YIELD | CLOCK_GET_TIME | SIGTIMEDWAIT | TIMES | UNAME
  | GETTIMEOFDAY | PRLIMIT64 | KILL | TKILL | TGKILL | SIGSUSPEND | SIGACTION | SIGPROCMASK | SIGRETURN
  | PIDFD_SEND_SIGNAL.
Definition task_syscall_try_from (id : Z) : option TaskSyscallId :=
  match id with
  | 93 => Some EXIT | 94 => Some EXIT_GROUP | 96 => Some SET_TID_ADDRESS | 98 => Some FUTEX | 99 => Some SET_ROBUST_LIST
  | 100 => Some GET_ROBUST_LIST | 101 => Some NANO_SLEEP | 102 => Some GETTIMER | 103 => Some SETITIMER
  | 114 => Some CLOCK_GETRES | 115 => Some CLOCK_NANOSLEEP | 116 => Some SYSLOG | 119 => Some SCHED_SETSCHEDULER
  | 120 => Some SCHED_GETSCHEDULER | 122 => Some SCHED_SETAFFINITY | 123 => Some SCHED_GETAFFINITY
  | 132 => Some SIGALTSTACK | 236 => Some GET_MEMPOLICY | 154 => Some SETPGID | 155 => Some GETPGID | 157 => Some SETSID
  | 165 => Some GETRUSAGE | 166 => Some UMASK | 167 => Some PRCTL | 172 => Some GETPID | 173 => Some GETPPID
  | 174 => Some GETUID | 175 => Some GETEUID | 176 => Some GETGID | 144 => Some SETGID | 177 => Some GETEGID
  | 178 => Some GETTID | 179 => Some SYSINFO | 220 => Some CLONE | 435 => Some CLONE3 | 221 => Some EXECVE
  | 233 => Some MADVICE | 260 => Some WAIT4 | 278 => Some GETRANDOM | 124 => Some SCHED_YIELD
  | 113 => Some CLOCK_GET_TIME | 137 => Some SIGTIMEDWAIT | 153 => Some TIMES | 160 => Some UNAME
  | 169 => Some GETTIMEOFDAY | 261 => Some PRLIMIT64 | 129 => Some KILL | 130 => Some TKILL | 131 => Some TGKILL
  | 133 => Some SIGSUSPEND | 134 => Some SIGACTION | 135 => Some SIGPROCMASK | 139 => Some SIGRETURN
  | 424 => Some PIDFD_SEND_SIGNAL | _ => None
  end.

Definition at_once (x : T Z) : T (option Z) := v ← x; mret (Some v).
(** [ticks] is [nanos_to_ticks]; a call that waits once takes the first round. *)
Definition task_syscall (solved : str + sysret) (random : nat → list Z) (ticks : Z → Z) (rounds : list round)
    (id : TaskSyscallId) (args : list Z) : T (option Z) :=
  let wait_once (f : round → T Z) : T (option Z) := match rounds with [] => mret None | r :: _ => at_once (f r) end in
  now ← asks ts_now;
  match id return T (option Z) with
  | EXIT | EXIT_GROUP => syscall_exit rounds args
  | EXECVE => syscall_exec solved rounds args
  | CLONE => syscall_clone rounds args
  | CLONE3 => syscall_clone3 rounds args
  | NANO_SLEEP => wait_once (λ r, syscall_sleep r args)
  | SCHED_YIELD => wait_once syscall_yield
  | TIMES => at_once (on_times (λ t um, syscall_time (ticks now) t um args))
  | UNAME => at_once (syscall_uname args)
  | GETTIMEOFDAY => at_once (on_times (λ _ um, syscall_get_time_of_day now um args))
  | GETPGID => at_once syscall_getpgid
  | SETPGID => at_once (syscall_setpgid args)
  | GETPID => at_once syscall_getpid
  | GETPPID => at_once syscall_getppid
  | WAIT4 => syscall_wait4 rounds args
  | GETRANDOM => at_once (syscall_getrandom random args)
  | SIGSUSPEND => syscall_sigsuspend rounds args
  | SIGACTION => at_once (on_handler (λ um h, syscall_sigaction um h args))
  | KILL => at_once (syscall_kill args)
  | TKILL => at_once (syscall_tkill args)
  | TGKILL => at_once (syscall_tgkill args)
  | SIGPROCMASK => at_once (on_module (λ um m, syscall_sigprocmask um m args))
  | SIGALTSTACK => at_once (on_module (λ um m, syscall_sigaltstack um m args))
  | SIGRETURN => at_once do_sigreturn
  | SET_TID_ADDRESS => at_once (syscall_set_tid_address args)
  | PRLIMIT64 => at_once (syscall_prlimit64 args)
  | CLOCK_GET_TIME => at_once (on_times (λ _ um, syscall_clock_get_time now um args))
  | GETUID => at_once syscall_getuid
  | GETEUID => at_once syscall_geteuid
  | GETGID => at_once syscall_getgid
  | GETEGID => at_once syscall_getegid
  | GETTID => at_once syscall_gettid
  | FUTEX => do_futex rounds args
  | SET_ROBUST_LIST => at_once (do_set_robust_list args)
  | GET_ROBUST_LIST => at_once (do_get_robust_list args)
  | SYSINFO => at_once (on_times (λ _ um, syscall_sysinfo now um args))
  | SETITIMER => at_once (set_task_times (λ t um, syscall_settimer t um args))
  | GETTIMER => at_once (on_times (λ t um, syscall_gettimer t um args))
  | SETSID => at_once syscall_setsid
  | GETRUSAGE => at_once (on_times (λ t um, syscall_getrusage t um args))
  | UMASK => at_once (syscall_umask args)
  | SETGID | SIGTIMEDWAIT | SYSLOG | MADVICE | SCHED_SETAFFINITY | GET_MEMPOLICY => mret (Some 0)
  | SCHED_GETAFFINITY => at_once (syscall_sched_getaffinity args)
  | SCHED_SETSCHEDULER => at_once (syscall_sched_setscheduler args)
  | SCHED_GETSCHEDULER => at_once (syscall_sched_getscheduler args)
  | CLOCK_GETRES => at_once (on_times (λ _ um, syscall_clock_getres um args))
  | CLOCK_NANOSLEEP => wait_once (λ r, do_clock_nanosleep r args)
  | PRCTL => at_once (syscall_prctl args)
  | PIDFD_SEND_SIGNAL => at_once (syscall_pidfd_send_signal args)
  end.
(** What the process gets back: [None] while the call waits. *)
Definition task_answer (x : T (option Z)) (s : tstate) : option sysret * tstate :=
  match x s with
  | (inl (Some v), s) => (Some (SOk v), s)
  | (inl None, s) => (None, s)
  | (inr r, s) => (Some r, s)
  end.
End calls.
Arguments tstate : clear implicits.
Arguments T : clear implicits.
