(* ===== verification/TaskCallsProps.v ===== *)
(** * What the calls on tasks promise

    Every call but [setsid] keeps the process tree, whatever the other tasks do in
    between; [wait4] returns as soon as the task that waits looks after a child has
    exited; and what the calls do not do. *)

From S2P Require Import Prelude Memory UserMem Path Vfs RootFs TaskRun Futex TimeStat Link Signal FdManager Process ProcessProps ProcessTree TaskCalls.

Open Scope Z_scope.

Section props.
Context {SS SH SA SI M : Type} `{AxSignal SS SH SA SI} `{ProcMem M} `{!SigInfos SI} `{!MemPut M}.
Context (TASK_STACK_SIZE SIGNAL_TRAMPOLINE STATUS SMP : Z) (cur p : Z) (errno_of : AxError → LinuxError).
Notation T := (T SS SH M).
Notation tstate := (tstate SS SH M).
Notation round := (tstate → tstate).

(** ** Calls that leave the tree alone *)

Definition t_keeps {A} (x : T A) : Prop := ∀ s, stable (ts_w s) (ts_w (x s).2).
Lemma t_keeps_bind {A B} (x : T A) (f : A → T B) : t_keeps x → (∀ a, t_keeps (f a)) → t_keeps (x ≫= f).
Proof.
  intros Hx Hf s. unfold mbind, t_bind. specialize (Hx s). destruct (x s) as [[a|r] s']; [|done].
  eapply stable_trans; [exact Hx|apply Hf].
Qed.
Lemma t_keeps_ret {A} (a : A) : t_keeps (mret a).
Proof. intros s. apply stable_refl. Qed.
Lemma t_keeps_end {A} (r : sysret) : t_keeps (A := A) (λ s, (inr r, s)).
Proof. intros s. apply stable_refl. Qed.
Lemma t_keeps_fail {A} e : t_keeps (tfail (A := A) e).
Proof. intros s. apply stable_refl. Qed.
Lemma t_keeps_panic {A} : t_keeps (tpanic (A := A)).
Proof. intros s. apply stable_refl. Qed.
Lemma t_keeps_asks {A} (f : tstate → A) : t_keeps (asks f).
Proof. intros s. apply stable_refl. Qed.
Lemma t_keeps_check b e : t_keeps (tcheck b e).
Proof. unfold tcheck. destruct b; [apply t_keeps_ret|apply t_keeps_fail]. Qed.
Lemma t_keeps_option {A} (o : option A) : t_keeps (of_option o).
Proof. destruct o; [apply t_keeps_ret|apply t_keeps_panic]. Qed.
Lemma t_keeps_puts f : (∀ s, ts_w (f s) = ts_w s) → t_keeps (puts f).
Proof. intros Hf s. cbn. rewrite Hf. apply stable_refl. Qed.
Lemma t_keeps_world {A} (x : P A) : keeps x → t_keeps (on_world x).
Proof. intros Hx s. unfold on_world. specialize (Hx (ts_w s)). by destruct (x (ts_w s)) as [[]]. Qed.
Lemma t_keeps_world_ok {A} (x : P A) : keeps x → t_keeps (on_world_ok x).
Proof.
  intros Hx. apply t_keeps_bind; [by apply t_keeps_world|]. intros [a|e]; [apply t_keeps_ret|apply t_keeps_panic].
Qed.
Lemma t_keeps_answer r : t_keeps (answer r).
Proof. destruct r; [apply t_keeps_ret|apply t_keeps_end..]. Qed.
Lemma keeps_current_executor : keeps (current_executor (SS := SS) (SH := SH) (M := M) cur).
Proof. unfold current_executor, the_task, the_exec. keep. Qed.
Lemma t_keeps_process : t_keeps (the_process cur).
Proof. apply t_keeps_world_ok, keeps_current_executor. Qed.
Lemma t_keeps_task : t_keeps (current_task cur).
Proof. apply t_keeps_world_ok. unfold the_task. keep. Qed.
Lemma t_keeps_set_process q f : (∀ e, esim e (f e)) → t_keeps (set_process q f).
Proof. intros Hf. by apply t_keeps_world_ok, keeps_upd_exec. Qed.
Lemma t_keeps_set_current f :
  (∀ t, process_id (f t) = process_id t ∧ is_leader (f t) = is_leader t) → t_keeps (set_current cur f).
Proof. intros Hf. apply t_keeps_world_ok, keeps_upd_task; intros t; apply Hf. Qed.

End props.

(** One step of a call that leaves the tree alone. *)
Ltac t_step :=
  match goal with
  | |- t_keeps (_ ≫= _) => apply t_keeps_bind; [|intros ?]
  | |- t_keeps (mret _) => apply t_keeps_ret
  | |- t_keeps (tfail _) => apply t_keeps_fail
  | |- t_keeps tpanic => apply t_keeps_panic
  | |- t_keeps (asks _) => apply t_keeps_asks
  | |- t_keeps (tcheck _ _) => apply t_keeps_check
  | |- t_keeps (of_option _) => apply t_keeps_option
  | |- t_keeps (answer _) => apply t_keeps_answer
  | |- t_keeps (puts _) => apply t_keeps_puts; by intros ?
  | |- t_keeps (the_process _) => apply t_keeps_process
  | |- t_keeps (current_task _) => apply t_keeps_task
  | |- t_keeps (set_process _ _) => apply t_keeps_set_process; intros ?; by split
  | |- t_keeps (set_current _ _) => apply t_keeps_set_current; by intros ?
  | |- t_keeps (on_world_ok _) => apply t_keeps_world_ok; solve [keep | unfold the_mem, the_task, the_exec; keep]
  | |- t_keeps (on_world _) => apply t_keeps_world; solve [keep]
  | |- t_keeps (if ?b then _ else _) => destruct b
  | |- t_keeps (match ?o with _ => _ end) => destruct o
  | |- t_keeps (λ _, (inr _, _)) => apply t_keeps_end
  | |- t_keeps _ => solve [eauto with t_keeps]
  end.
Ltac t_keep := repeat (t_step; cbv zeta).
Create HintDb t_keeps discriminated.

Section keeping.
Context {SS SH SA SI M : Type} `{AxSignal SS SH SA SI} `{ProcMem M} `{!SigInfos SI} `{!MemPut M}.
Context (TASK_STACK_SIZE SIGNAL_TRAMPOLINE STATUS SMP : Z) (cur p : Z) (errno_of : AxError → LinuxError).
Notation T := (T SS SH M).
Notation tstate := (tstate SS SH M).
Notation round := (tstate → tstate).
Notation tkeeps x := (t_keeps (SS := SS) (SH := SH) (M := M) x).

#[local] Hint Resolve keeps_send_to_process keeps_send_to_thread : keeps.
Lemma t_keeps_user_mem : tkeeps (user_mem cur).
Proof. unfold user_mem. t_keep. Qed.
Lemma t_keeps_put_user_mem um : tkeeps (put_user_mem cur um).
Proof. unfold put_user_mem. t_keep. Qed.
#[local] Hint Resolve t_keeps_user_mem t_keeps_put_user_mem : t_keeps.
Lemma t_keeps_user_store f : tkeeps (user_store cur f).
Proof. unfold user_store. t_keep. Qed.
Lemma t_keeps_alloc a : tkeeps (alloc_ok cur a).
Proof. unfold alloc_ok. t_keep. Qed.
Lemma t_keeps_alloc_type a n : tkeeps (alloc_type_ok cur a n).
Proof. unfold alloc_type_ok. t_keep. Qed.
Lemma t_keeps_module : tkeeps (my_module cur).
Proof. unfold my_module. t_keep. Qed.
#[local] Hint Resolve t_keeps_user_store t_keeps_alloc t_keeps_alloc_type t_keeps_module : t_keeps.
Lemma t_keeps_have_signals : tkeeps (have_signals cur).
Proof. unfold have_signals. t_keep. Qed.
Lemma t_keeps_have_restart : tkeeps (have_restart_signals cur).
Proof. unfold have_restart_signals. t_keep. Qed.
Lemma t_keeps_new_pidfd q f : tkeeps (new_pidfd cur q f).
Proof. unfold new_pidfd. t_keep. Qed.
Lemma t_keeps_task_of q : tkeeps (task_of cur q).
Proof. unfold task_of. t_keep. Qed.
#[local] Hint Resolve t_keeps_have_signals t_keeps_have_restart t_keeps_new_pidfd t_keeps_task_of : t_keeps.
Lemma t_keeps_on_times f : tkeeps (on_times cur f).
Proof. unfold on_times. t_keep. Qed.
Lemma t_keeps_set_times f : tkeeps (set_task_times cur f).
Proof. unfold set_task_times. t_keep. Qed.
Lemma t_keeps_on_module f : tkeeps (on_module cur f).
Proof. unfold on_module. t_keep. Qed.
Lemma t_keeps_on_handler f : tkeeps (on_handler cur f).
Proof. unfold on_handler. t_keep. Qed.
#[local] Hint Resolve t_keeps_on_times t_keeps_set_times t_keeps_on_module t_keeps_on_handler : t_keeps.
Lemma t_keeps_at_once x : t_keeps x → tkeeps (at_once x).
Proof. intros Hx. unfold at_once. t_keep. Qed.

(** The calls that do not wait and are neither [clone], [exec], [exit] nor [setsid]. *)
Lemma t_keeps_calls random args :
  tkeeps (syscall_set_tid_address cur args) ∧
  tkeeps (syscall_prlimit64 TASK_STACK_SIZE cur args) ∧
  tkeeps (syscall_umask cur args) ∧
  tkeeps (syscall_prctl cur args) ∧
  tkeeps (syscall_kill args) ∧
  tkeeps (syscall_tkill args) ∧
  tkeeps (syscall_tgkill args) ∧
  tkeeps (syscall_pidfd_send_signal cur errno_of args) ∧
  tkeeps (syscall_sched_getaffinity SMP cur args) ∧
  tkeeps (syscall_sched_setscheduler cur args) ∧
  tkeeps (syscall_sched_getscheduler cur args) ∧
  tkeeps (syscall_uname cur args) ∧
  tkeeps (syscall_getrandom cur random args) ∧
  tkeeps (do_sigreturn cur) ∧
  tkeeps (do_set_robust_list cur args) ∧
  tkeeps (do_get_robust_list cur args).
Proof.
  split_and!; unfold syscall_set_tid_address, syscall_prlimit64, syscall_umask, syscall_prctl, syscall_kill, syscall_tkill,
    syscall_tgkill, syscall_pidfd_send_signal, syscall_sched_getaffinity, syscall_sched_setscheduler,
    syscall_sched_getscheduler, syscall_uname, syscall_getrandom, do_sigreturn, do_set_robust_list, do_get_robust_list, when_ptr; t_keep.
Qed.

(** ** Calls that wait *)

Definition tree_ok (s : tstate) : Prop := pinv (ts_w s).
Definition running (s : tstate) : Prop := pinv (ts_w s) ∧ runs (ts_w s) cur p.
(** What other tasks do while one waits keeps the tree, and the one that waits. *)
Definition fair (r : round) : Prop := (∀ s, running s → running (r s)) ∧ ∀ s, tree_ok s → tree_ok (r s).

(** [Q] of the value; the tree in any case but a panic. *)
Definition twp {A} (x : T A) (s : tstate) (Q : A → tstate → Prop) : Prop :=
  match x s with
  | (inl a, s') => Q a s'
  | (inr SPanic, _) => True
  | (inr _, s') => tree_ok s'
  end.
Lemma twp_bind {A B} (x : T A) (f : A → T B) s Q : twp x s (λ a s', twp (f a) s' Q) → twp (x ≫= f) s Q.
Proof. unfold twp, mbind, t_bind. destruct (x s) as [[a|r] s']; [done|by destruct r]. Qed.
Lemma twp_mono {A} (x : T A) s (Q Q' : A → tstate → Prop) : twp x s Q → (∀ a s', Q a s' → Q' a s') → twp x s Q'.
Proof. unfold twp. destruct (x s) as [[a|[]] s']; naive_solver. Qed.
Lemma twp_fail {A} e s (Q : A → tstate → Prop) : tree_ok s → twp (tfail e) s Q.
Proof. done. Qed.
Lemma twp_panic {A} s (Q : A → tstate → Prop) : twp tpanic s Q.
Proof. done. Qed.

Lemma running_stable (s s' : tstate) : stable (ts_w s) (ts_w s') → running s → running s'.
Proof. intros S [I R]. split; [exact (pinv_stable _ _ S I)|by eapply runs_stable]. Qed.
Lemma running_world s w' : running s → stable (ts_w s) w' → running (with_world w' s).
Proof. intros R S. by apply (running_stable s). Qed.
(** A part that leaves the tree alone, before a part that needs it. *)
Lemma twp_keeps {A} (x : T A) s (Q : A → tstate → Prop) :
  tkeeps x → running s → (∀ a s', running s' → Q a s') → twp x s Q.
Proof.
  intros Hx R HQ. unfold twp. specialize (Hx s).
  assert (running (x s).2) as R' by by eapply running_stable.
  destruct (x s) as [[a|r] s']; [by apply HQ|destruct r; try done; apply R'].
Qed.
Lemma twp_keeps_bind {A B} (x : T A) (f : A → T B) s Q :
  tkeeps x → running s → (∀ a s', running s' → twp (f a) s' Q) → twp (x ≫= f) s Q.
Proof. intros Hx R Hf. by apply twp_bind, twp_keeps. Qed.
Lemma twp_tree {A} (x : T A) s : tkeeps x → tree_ok s → twp x s (λ _ s', tree_ok s').
Proof.
  intros Hx I. unfold twp. specialize (Hx s). assert (tree_ok (x s).2) by exact (pinv_stable _ _ Hx I).
  destruct (x s) as [[a|[]] s']; done.
Qed.
(** An operation of the file on processes, by its weakest precondition. *)
Lemma twp_world {A} (x : P A) s (Q : A + AxError → tstate → Prop) R N :
  wp (λ a w', Q (inl a) (with_world w' s)) R N x (ts_w s) → (∀ e w', R w' → Q (inr e) (with_world w' s)) → twp (on_world x) s Q.
Proof. unfold wp, twp, on_world. intros Hx HR. destruct (x (ts_w s)) as [[a|e|] w']; [done|by apply HR|done]. Qed.
Lemma twp_world_ok {A} (x : P A) s (Q : A → tstate → Prop) R N :
  wp (λ a w', Q a (with_world w' s)) R N x (ts_w s) → twp (on_world_ok x) s Q.
Proof. unfold wp, twp, on_world_ok, on_world, mbind, t_bind. by destruct (x (ts_w s)) as [[a|e|] w']. Qed.

(** The loops. *)
Lemma exit_loop_ok rounds s : Forall fair rounds → running s → twp (exit_loop cur rounds) s (λ _ s', running s').
Proof.
  intros Hr. revert s. induction Hr as [|r rounds Hf _ IH]; intros s R; cbn [exit_loop]; apply twp_bind;
    (eapply (twp_world_ok _ _ _ (λ _, False) False), wp_mono; [apply (exit_poll_ok cur p); apply R| |done]);
    intros fin w' S; pose proof (running_world s w' R S) as R'.
  - by destruct fin.
  - destruct fin; [done|]. apply twp_bind. unfold twp at 1. cbn. by apply IH, Hf.
Qed.
Lemma exit_keeps code rounds s : Forall fair rounds → running s → twp (exit cur code rounds) s (λ _ s', tree_ok s').
Proof.
  intros Hr R. unfold exit. apply twp_bind, (twp_world_ok _ _ _ (λ _, False) False).
  eapply wp_mono; [apply (exit_begin_ok cur p); apply R| |done]. intros [] w' S.
  pose proof (running_world s w' R S) as R'.
  apply twp_keeps_bind; [t_keep|done|]. intros c s1 R1. apply twp_bind.
  apply (twp_mono _ _ (λ _ s', running s')); [destruct (is_leader c); [by apply exit_loop_ok|done]|].
  intros [] s2 R2; [|apply R2]. apply twp_bind, (twp_world_ok _ _ _ (λ _, False) False).
  apply (exit_finish_pinv cur p); apply R2.
Qed.
Lemma wait_loop_ok want ptr nohang rounds s :
  Forall fair rounds → running s → twp (wait_loop cur want ptr nohang rounds) s (λ _ s', tree_ok s').
Proof.
  intros Hr. revert s. induction Hr as [|r rounds Hf _ IH]; intros s R; cbn [wait_loop]; apply twp_bind;
    destruct R as [I Hrun]; pose proof Hrun as (_ & _ & e & He & _); pose proof (wait_pid_run cur p e want ptr _ I Hrun He) as Hw;
    destruct (list_find _ _) as [[i c]|]; unfold twp at 1, on_world_ok, on_world, mbind, t_bind.
  1, 3: by destruct Hw as (w1 & -> & _ & _ & _ & ?).
  all: rewrite Hw; cbn; destruct (decide _); [|done]; destruct nohang; [done|].
  all: assert (running (with_world (ts_w s) s)) as R by by split.
  all: apply twp_keeps_bind; [t_keep|done|]; intros [[]|] s1 R1; try (apply twp_fail, R1).
  - apply R1.
  - by apply IH, Hf.
Qed.
Lemma vfork_wait_ok self rounds s : Forall fair rounds → tree_ok s → twp (vfork_wait self rounds) s (λ _ s', tree_ok s').
Proof.
  intros Hr. revert s. induction Hr as [|r rounds Hf _ IH]; intros s I; cbn [vfork_wait]; apply twp_bind;
    (eapply twp_mono; [apply twp_tree; [unfold vfork_done; t_keep|done]|]); intros fin s1 I1; destruct fin; try done.
  apply twp_bind. unfold twp at 1. cbn. by apply IH, Hf.
Qed.
Lemma sigsuspend_loop_ok rounds s : Forall fair rounds → running s → twp (sigsuspend_loop cur rounds) s (λ _ s', tree_ok s').
Proof.
  intros Hr. revert s. induction Hr as [|r rounds Hf _ IH]; intros s R; cbn [sigsuspend_loop];
    (apply twp_keeps_bind; [t_keep|done|]); intros m s1 R1; destruct (sigsuspend_poll m); try (apply twp_keeps; [solve [t_keep]|done|by intros ? ? [? _]]).
  apply twp_bind. unfold twp at 1. cbn. by apply IH, Hf.
Qed.
Lemma futex_loop_ok rounds f s : Forall fair rounds → running s → twp (futex_loop cur f rounds) s (λ _ s', tree_ok s').
Proof.
  intros Hr. revert f s. induction Hr as [|r rounds Hf _ IH]; intros f s R; cbn [futex_loop];
    (apply twp_keeps_bind; [t_keep|done|]); intros um s1 R1; (apply twp_keeps_bind; [t_keep|done|]); intros sig s2 R2;
    (apply twp_keeps_bind; [t_keep|done|]); intros s' s3 R3; destruct (futex_wait_poll _ _ _ _ _ _) as [qs [f'|res]];
    (apply twp_keeps_bind; [t_keep|done|]); intros _ s4 R4; try (apply twp_keeps; [solve [t_keep]|done|by intros ? ? [? _]]).
  apply twp_bind. unfold twp at 1. cbn. by apply IH, Hf.
Qed.

(** ** The calls that wait, and those that change the tree *)

Lemma do_clone_ok flags stack ptid tls ctid xs rounds s :
  Forall fair rounds → running s → twp (do_clone TASK_STACK_SIZE cur flags stack ptid tls ctid xs rounds) s (λ _ s', tree_ok s').
Proof.
  intros Hr R. unfold do_clone. unfold the_process. apply twp_bind, (twp_world_ok _ _ _ (λ _, False) False).
  destruct R as [I Hrun]. pose proof Hrun as (_ & Hl & e & He & Hc).
  apply (wp_current_executor _ _ _ _ p e); [done..|]. destruct (pi_ids _ I p e He) as (-> & _ & _).
  apply twp_bind, (twp_world _ _ _ (λ w, pinv w) True); [|done].
  eapply wp_mono; [by apply (clone_task_pinv TASK_STACK_SIZE cur p)| |done]. intros [id []] w' I'; [|done].
  apply twp_bind. eapply twp_mono; [by apply vfork_wait_ok|]. by intros [] s' I''.
Qed.
Lemma syscall_clone_ok rounds args s :
  Forall fair rounds → running s → twp (syscall_clone TASK_STACK_SIZE cur rounds args) s (λ _ s', tree_ok s').
Proof.
  intros Hr R. unfold syscall_clone. apply twp_keeps_bind; [t_keep|done|]. intros cf s1 R1.
  apply twp_keeps_bind; [t_keep|done|]. intros _ s2 R2. apply twp_bind. eapply twp_mono; [by apply do_clone_ok|].
  intros [id|] s3 I3; [|done]. apply twp_tree; [t_keep|done].
Qed.
Lemma syscall_clone3_ok rounds args s :
  Forall fair rounds → running s → twp (syscall_clone3 TASK_STACK_SIZE cur rounds args) s (λ _ s', tree_ok s').
Proof.
  intros Hr R. unfold syscall_clone3. do 8 (apply twp_keeps_bind; [t_keep|done|]; clear R; intros ? s' R; clear s; rename s' into s).
  apply twp_bind. eapply twp_mono; [by apply do_clone_ok|].
  intros [id|] s3 I3; [|done]. apply twp_tree; [t_keep|done].
Qed.
(** An [exec] that fails leaves the task running, so that it can exit. *)
Definition kept_running {A} (x : P (SS := SS) (SH := SH) (M := M) A) : Prop := ∀ w, runs w cur p → runs (x w).2 cur p.
Lemma kept_keeps {A} (x : P A) : keeps x → kept_running x.
Proof. intros Hx w. apply runs_stable, Hx. Qed.
Lemma kept_bind {A B} (x : P A) (f : A → P B) : kept_running x → (∀ a, kept_running (f a)) → kept_running (pbind x f).
Proof. intros Hx Hf w R. unfold pbind. specialize (Hx w R). destruct (x w) as [[a|e|] w']; [by apply Hf|done..]. Qed.
Lemma kept_upd_exec q f : (∀ e, cur ∈ etasks e → cur ∈ etasks (f e)) → kept_running (upd_exec q f).
Proof.
  intros Hf w (Hk & Hl & e & He & Hc). split; [done|]. split; [done|]. cbn. destruct (decide (q = p)) as [->|Hne].
  - exists (f e). rewrite lookup_alter_eq, He. split; [done|by apply Hf].
  - exists e. by rewrite lookup_alter_ne.
Qed.
Lemma kept_upd_task t f : kept_running (upd_task t f).
Proof. by intros w (? & ? & ?). Qed.
Lemma kept_modify f : (∀ w, execs (f w) = execs w) → (∀ w, PID2PC (f w) = PID2PC w) → kept_running (modify f).
Proof. intros He Hl w (? & ? & ?). cbn. split; [done|]. by rewrite He, Hl. Qed.
Lemma kept_exec_tasks n ts : kept_running (exec_tasks n cur ts).
Proof.
  revert ts. induction n as [|n IH]; intros ts; cbn [exec_tasks]; [by intros w|].
  destruct (last ts); [case_decide|]; [apply IH| |by intros w].
  apply kept_bind; [by apply kept_modify|]. by intros _ w.
Qed.
Lemma kept_bind_spec {A B} (x : P A) (f : A → P B) :
  kept_running x → (∀ a w w', x w = (Ok a, w') → runs w cur p → kept_running (f a)) → kept_running (pbind x f).
Proof.
  intros Hx Hf w R. unfold pbind. specialize (Hx w R). destruct (x w) as [[a|e|] w'] eqn:E; [by apply (Hf a w w')|done..].
Qed.
Lemma exec_kept now name args envs : kept_running (exec SIGNAL_TRAMPOLINE STATUS cur p now name args envs).
Proof.
  unfold exec. apply kept_bind_spec; [apply kept_keeps; unfold the_exec; keep|]. intros e w w' E (_ & _ & e' & He & Hc).
  unfold the_exec in E. rewrite He in E. injection E as <- <-.
  apply kept_bind; [apply kept_keeps, keeps_exec_memory|intros _].
  apply kept_bind; [apply kept_keeps, keeps_close_files|intros _].
  apply kept_bind_spec; [apply kept_exec_tasks|]. intros ts w1 w2 E _.
  pose proof (exec_tasks_spec (length (etasks e')) cur (etasks e') (λ _, True) w1) as Hts. unfold wp in Hts. rewrite E in Hts.
  destruct Hts as [_ ->].
  apply kept_bind; [by apply kept_upd_exec; intros|intros _]. apply kept_bind; [apply kept_upd_task|intros _].
  apply kept_bind; [apply kept_upd_exec; by intros|intros _].
  do 2 (apply kept_bind; [apply kept_upd_task|intros _]).
  apply kept_bind; [destruct (decide _); by intros w3|intros _]. apply kept_bind; [apply kept_keeps; unfold the_mem; keep|intros m].
  apply kept_bind; [apply kept_keeps; keep|intros _]. destruct (load_app _ _ _ _).1 as [[[entry usp] heap]|]; [|by intros w3].
  do 3 (apply kept_bind; [apply kept_upd_exec; by intros|intros _]).
  apply kept_bind; [apply kept_keeps; eauto with keeps|intros h]. apply kept_bind; [apply kept_upd_exec; by intros|intros _].
  apply kept_keeps. unfold the_mem. keep.
Qed.
Lemma wp_and {A} (Q Q' : A → world SS SH M → Prop) R R' N (x : P A) w :
  wp Q R N x w → wp Q' R' N x w → wp (λ a w', Q a w' ∧ Q' a w') (λ w', R w' ∧ R' w') N x w.
Proof. unfold wp. by destruct (x w) as [[]]. Qed.
Lemma exec_fails_running now name args envs w :
  pinv w → runs w cur p →
  wp (λ _ w', pinv w' ∧ runs w' cur p) (λ w', pinv w' ∧ runs w' cur p) True
    (exec SIGNAL_TRAMPOLINE STATUS cur p now name args envs) w.
Proof.
  intros I R. apply wp_and; [by apply exec_pinv|]. pose proof (exec_kept now name args envs w R) as K.
  unfold wp. by destruct (exec _ _ _ _ _ _ _ _ _) as [[]].
Qed.
Lemma syscall_exec_ok solved rounds args s :
  Forall fair rounds → running s →
  twp (syscall_exec SIGNAL_TRAMPOLINE STATUS cur solved rounds args) s (λ _ s', tree_ok s').
Proof.
  intros Hr R. destruct solved as [path|r]; [|destruct r; try done; apply R]. unfold syscall_exec.
  apply twp_keeps_bind; [t_keep|done|]. intros _ s1 R1. apply twp_keeps_bind; [t_keep|done|]. intros um s2 R2.
  apply twp_bind. unfold the_process. apply (twp_world_ok _ _ _ (λ _, False) False).
  pose proof R2 as [I2 (_ & Hl & e & He & Hc)]. apply (wp_current_executor _ _ _ _ p e); [done..|].
  destruct (pi_ids _ I2 p e He) as (-> & _ & _). apply twp_keeps_bind; [t_keep|done|]. intros _ s3 R3.
  apply twp_keeps_bind; [t_keep|done|]. intros now s4 [I4 R4].
  apply twp_bind, (twp_world _ _ _ (λ w, pinv w ∧ runs w cur p) True).
  - eapply wp_mono; [by apply exec_fails_running|by intros [] w' [I' _]|done].
  - intros err w' R'. apply twp_bind. eapply twp_mono; [by apply exit_keeps|]. by intros [] s' I'.
Qed.

Lemma twp_at_once (x : T Z) s : running s → tkeeps x → twp (at_once x) s (λ _ s', tree_ok s').
Proof. intros R Hx. apply twp_tree; [by apply t_keeps_at_once|apply R]. Qed.
Lemma twp_round (r : round) (f : () → T Z) s :
  fair r → running s → (∀ a, tkeeps (f a)) → twp (_ ← puts r; f ()) s (λ _ s', tree_ok s').
Proof. intros Hf R Hk. apply twp_bind. unfold twp at 1. cbn. apply twp_tree; [apply Hk|by destruct (proj1 Hf s R)]. Qed.
Lemma wait_once_ok rounds (f : round → T Z) s :
  Forall fair rounds → running s → (∀ r, fair r → twp (f r) s (λ _ s', tree_ok s')) →
  twp (match rounds with [] => mret None | r :: _ => at_once (f r) end) s (λ _ s', tree_ok s').
Proof.
  intros [|r rounds' Hr _] R Hx; [apply R|]. unfold at_once. apply twp_bind. eapply twp_mono; [by apply Hx|]. done.
Qed.
Lemma syscall_sleep_ok r args s : fair r → running s → twp (syscall_sleep cur r args) s (λ _ s', tree_ok s').
Proof.
  intros Hr R. unfold syscall_sleep. do 3 (apply twp_keeps_bind; [t_keep|done|]; clear R; intros ? s' R; clear s; rename s' into s).
  apply twp_bind. unfold twp at 1. cbn [puts]. apply twp_tree; [t_keep|]. by apply Hr, R.
Qed.
Lemma do_clock_nanosleep_ok r args s : fair r → running s → twp (do_clock_nanosleep cur r args) s (λ _ s', tree_ok s').
Proof.
  intros Hr R. unfold do_clock_nanosleep. do 2 (apply twp_keeps_bind; [t_keep|done|]; clear R; intros ? s' R; clear s; rename s' into s).
  destruct (syscall_clock_nanosleep _ _ _ _) as [[um [d|]] res]; [|apply twp_tree; [t_keep|apply R]].
  apply twp_bind. unfold twp at 1. cbn [puts]. apply twp_tree; [t_keep|]. by apply Hr, R.
Qed.
Lemma do_futex_ok rounds args s : Forall fair rounds → running s → twp (do_futex cur rounds args) s (λ _ s', tree_ok s').
Proof.
  intros Hr R. unfold do_futex. do 3 (apply twp_keeps_bind; [t_keep|done|]; clear R; intros ? s' R; clear s; rename s' into s).
  destruct (syscall_futex _ _ _ _ _) as [qs res|f]; [apply twp_tree; [t_keep|apply R]|by apply futex_loop_ok].
Qed.
Lemma syscall_sigsuspend_ok rounds args s :
  Forall fair rounds → running s → twp (syscall_sigsuspend cur rounds args) s (λ _ s', tree_ok s').
Proof.
  intros Hr R. unfold syscall_sigsuspend. do 3 (apply twp_keeps_bind; [t_keep|done|]; clear R; intros ? s' R; clear s; rename s' into s).
  destruct (sigsuspend_begin _ _ _) as [m res]. apply twp_keeps_bind; [t_keep|done|]. intros _ s1 R1.
  destruct res; [apply twp_tree; [t_keep|apply R1]|by apply sigsuspend_loop_ok].
Qed.

(** The calls on identities. *)
Lemma t_keeps_ids args :
  tkeeps (syscall_setpgid args) ∧ tkeeps syscall_getpgid ∧ tkeeps (syscall_getpid cur) ∧ tkeeps (syscall_getppid cur) ∧
  tkeeps syscall_getuid ∧ tkeeps syscall_geteuid ∧ tkeeps syscall_getgid ∧ tkeeps syscall_getegid ∧ tkeeps (syscall_gettid cur).
Proof.
  unfold syscall_setpgid, syscall_getpgid, syscall_getpid, syscall_getppid, syscall_getuid, syscall_geteuid, syscall_getgid,
    syscall_getegid, syscall_gettid. split_and!; t_keep.
Qed.
Lemma task_syscall_ok solved random ticks rounds id args s :
  id ≠ SETSID → Forall fair rounds → running s →
  twp (task_syscall TASK_STACK_SIZE SIGNAL_TRAMPOLINE STATUS SMP cur errno_of solved random ticks rounds id args) s
    (λ _ s', tree_ok s').
Proof.
  intros Hid Hr R. destruct (t_keeps_calls random args) as (?&?&?&?&?&?&?&?&?&?&?&?&?&?&?&?).
  destruct (t_keeps_ids args) as (?&?&?&?&?&?&?&?&?).
  unfold task_syscall. apply twp_keeps_bind; [t_keep|done|]. intros now s1 R1.
  destruct id; try done; try (apply twp_at_once; [done|]; first [assumption|solve [t_keep]]); try apply R1.
  1, 2: apply twp_bind; eapply twp_mono; [by apply exit_keeps|done].
  - by apply do_futex_ok.
  - apply (wait_once_ok rounds (λ r, syscall_sleep cur r args)); [done..|]. intros r Hf. by apply syscall_sleep_ok.
  - apply (wait_once_ok rounds (λ r, do_clock_nanosleep cur r args)); [done..|]. intros r Hf. by apply do_clock_nanosleep_ok.
  - by apply syscall_clone_ok.
  - by apply syscall_clone3_ok.
  - by apply syscall_exec_ok.
  - apply twp_keeps_bind; [t_keep|done|]. intros option s2 R2. by apply wait_loop_ok.
  - apply (wait_once_ok rounds syscall_yield); [done..|]. intros r Hf.
    apply (twp_round r (λ _, mret 0)); [done..|]. intros _. t_keep.
  - by apply syscall_sigsuspend_ok.
Qed.

(** C8: Whatever system call on tasks a thread makes, [setsid] apart, with whatever
    arguments, whatever it answers short of a panic or while it still waits, and whatever the other tasks
    do in between as long as they keep the process tree and leave the thread running:
    the process tables stay a tree under the kernel process, its dead are zombies that
    their parents can reap, and its threads are known and have signal modules. *)
Theorem task_calls_keep_tree solved random ticks rounds id args s :
  id ≠ SETSID → pinv (ts_w s) → runs (ts_w s) cur p → Forall fair rounds →
  let r := task_answer
    (task_syscall TASK_STACK_SIZE SIGNAL_TRAMPOLINE STATUS SMP cur errno_of solved random ticks rounds id args) s in
  r.1 ≠ Some SPanic → pinv (ts_w r.2).
Proof.
  intros Hid I R Hr r Hp.
  assert (twp (task_syscall TASK_STACK_SIZE SIGNAL_TRAMPOLINE STATUS SMP cur errno_of solved random ticks rounds id args) s
    (λ _ s', tree_ok s')) as Hw by (apply task_syscall_ok; [done|done|by split]).
  revert Hp. subst r. unfold twp, task_answer in *. by destruct (task_syscall _ _ _ _ _ _ _ _ _ _ _ _ s) as [[[v|]|[]] s'].
Qed.
(** ** [wait4] *)

(** A child [c] that is waited for exits while the others run [rounds]: until then some
    wanted child runs and no signal is pending; [sf] is the state in which it is found. *)
Inductive exits_after (want c : Z) : list round → tstate → tstate → Prop :=
  | exited_now rounds s e i :
      running s → execs (ts_w s) !! p = Some e →
      list_find (reapable (execs (ts_w s)) want) (children e) = Some (i, c) → exits_after want c rounds s s
  | exits_later r rounds s sf e m h :
      running s → execs (ts_w s) !! p = Some e →
      list_find (reapable (execs (ts_w s)) want) (children e) = None → Exists (wanted want) (children e) →
      signal_modules e !! cur = Some m → handlers (ts_w s) !! signal_handler m = Some h →
      find_signal (signal_set m) = None → exits_after want c rounds (r s) sf → exits_after want c (r :: rounds) s sf.

(** The state [s'] after a wait that found [sf]: the child is gone from the tables and
    from the list of its parent, and its status is stored where the caller asked. *)
Definition reaped (c ptr : Z) (sf s' : tstate) : Prop :=
  execs (ts_w s') !! c = None ∧ c ∉ PID2PC (ts_w s') ∧
  ∃ e i, execs (ts_w sf) !! p = Some e ∧ children e !! i = Some c ∧
    execs (ts_w s') !! p = Some (set_children (take i (children e) ++ drop (S i) (children e)) e) ∧
    mems (ts_w s') !! memory_set e =
      (if decide (ptr = 0) then id else fmap (mem_store_i32 ptr (as_i32 (as_i32 (code_at (execs (ts_w sf)) c) * 256))))
        (mems (ts_w sf) !! memory_set e).

Lemma with_world_self (s : tstate) : with_world (ts_w s) s = s.
Proof. by destruct s. Qed.
Lemma the_process_run (s : tstate) e : running s → execs (ts_w s) !! p = Some e → the_process cur s = (inl e, s).
Proof.
  intros [I (_ & Hl & e' & He' & Hc)] He. assert (e' = e) as -> by congruence.
  pose proof (wp_current_executor (λ a w, a = e ∧ w = ts_w s) (λ _, False) False cur p e (ts_w s) I Hl He Hc (conj eq_refl eq_refl)) as Hw.
  unfold wp in Hw. unfold the_process, on_world_ok, on_world, mbind, t_bind.
  destruct (current_executor cur (ts_w s)) as [[a|err|] w']; [|done..]. destruct Hw as [-> ->]. by rewrite with_world_self.
Qed.

Lemma wait_loop_reaps want ptr c rounds s sf :
  exits_after want c rounds s sf →
  ∃ s', wait_loop cur want ptr false rounds s = (inl (Some c), s') ∧ reaped c ptr sf s' ∧ pinv (ts_w s').
Proof.
  induction 1 as [rounds s e i R He Hf|r rounds s sf e m h R He Hf Hw Hm Hh Hs _ IH].
  - pose proof (wait_pid_run cur p e want ptr _ (proj1 R) (proj2 R) He) as Hrun. rewrite Hf in Hrun.
    destruct Hrun as (w' & E & Hx & Hmm & HL & I). exists (with_world w' s).
    split; [destruct rounds; cbn [wait_loop]; unfold on_world_ok, on_world, mbind, t_bind; by rewrite E|].
    split; [|done]. pose proof Hf as Hf'. apply list_find_Some in Hf' as (Hi & [_ Hz] & _).
    assert (Hcp : c ≠ p).
    { intros ->. destruct R as [I0 (Hk & Hl & _)]. destruct (pi_live _ I0 p Hl) as (e1 & He1 & L).
      unfold zombie_at in Hz. rewrite He in Hz. assert (e1 = e) as -> by congruence. pose proof (lo_zombie _ _ _ L Hk). congruence. }
    unfold reaped. cbn. rewrite Hx, lookup_delete_eq. split; [done|]. split.
    + intros Hin. destruct (pi_live _ I c Hin) as (x & Hxc & _). cbn in Hxc. rewrite Hx, lookup_delete_eq in Hxc. done.
    + exists e, i. split_and!; [done|done| |done]. by rewrite lookup_delete_ne, lookup_insert_eq.
  - pose proof (wait_pid_run cur p e want ptr _ (proj1 R) (proj2 R) He) as Hrun. rewrite Hf, decide_True in Hrun by done.
    destruct IH as (s' & E & IH). exists s'. split; [|done]. rewrite <- E. cbn [wait_loop].
    unfold on_world_ok at 1, on_world at 1, mbind at 1, t_bind at 1. unfold mbind at 1, t_bind at 1. rewrite Hrun, with_world_self.
    cbn. unfold have_restart_signals, my_module, mbind, t_bind. rewrite (the_process_run s e R He), Hm.
    cbn. rewrite Hh. cbn. unfold have_restart_signal. by rewrite Hs.
Qed.

(** C9: The system call [wait4], without [WNOHANG], returns: once a child its first
    argument names has exited, the next time the waiting task runs, if no signal came
    before, it answers the number of that child, stores its status at its second argument
    if that is not zero, takes the child out of the tables and of its parent's list, and
    the live processes are still a tree.  With [WNOHANG] and only running children it
    answers 0, with no child of the kind it fails with [ECHILD], and options that are
    not flags of the call panic the kernel; these change nothing. *)
Theorem wait4_reaps args rounds s :
  (∀ opts c sf, wait_flags_of (wrap32 (arg args 2)) = Some opts → has_flag opts WNOHANG = false →
     exits_after (as_i32 (arg args 0)) c rounds s sf →
     ∃ s', syscall_wait4 cur rounds args s = (inl (Some c), s') ∧ reaped c (arg args 1) sf s' ∧ pinv (ts_w s') ∧ tree (ts_w s')) ∧
  (∀ opts e, wait_flags_of (wrap32 (arg args 2)) = Some opts → running s → execs (ts_w s) !! p = Some e →
     list_find (reapable (execs (ts_w s)) (as_i32 (arg args 0))) (children e) = None →
     (Exists (wanted (as_i32 (arg args 0))) (children e) → has_flag opts WNOHANG = true → syscall_wait4 cur rounds args s = (inl (Some 0), s)) ∧
     (¬ Exists (wanted (as_i32 (arg args 0))) (children e) → syscall_wait4 cur rounds args s = (inr (SErr ECHILD), s))) ∧
  (wait_flags_of (wrap32 (arg args 2)) = None → syscall_wait4 cur rounds args s = (inr SPanic, s)).
Proof.
  split_and!.
  - intros opts c sf Ho Hn Hx. destruct (wait_loop_reaps _ (arg args 1) _ _ _ _ Hx) as (s' & E & Hr & I).
    exists s'. unfold syscall_wait4. rewrite Ho. cbn. unfold mbind, t_bind. cbn. rewrite Hn, E. eauto using pinv_tree.
  - intros opts e Ho R He Hf. pose proof (wait_pid_run cur p e (as_i32 (arg args 0)) (arg args 1) _ (proj1 R) (proj2 R) He) as Hrun.
    rewrite Hf in Hrun. unfold syscall_wait4. rewrite Ho. cbn.
    split; intros Hx; [intros Hn; rewrite decide_True in Hrun by done|rewrite decide_False in Hrun by done];
      destruct rounds; cbn [wait_loop]; unfold on_world_ok, on_world, mbind, t_bind; cbn; rewrite Hrun, with_world_self; cbn;
      rewrite ?Hn; done.
  - intros Ho. unfold syscall_wait4. by rewrite Ho.
Qed.
End keeping.

(** ** On a concrete system *)

Module TaskDemo.
Import RefSignal ProcDemo.

#[export] Instance ref_siginfos : SigInfos Z := {
  siginfo_from n _ := n;
  load_siginfo um a := load_le um a 4
}.
#[export] Instance ref_put : MemPut refmem := { mem_put um m := mk_refmem (rm_token m) um }.

Notation state := (tstate sset (gmap Z saction) refmem).
Definition at_world (w : W) : state := mk_ts w ∅ ∅ ∅ [] 0.
Definition errno (e : AxError) : LinuxError := match e with NotFound => ENOENT | _ => EINVAL end.
Definition zeroes (n : nat) : list Z := replicate n 0.
(** A call of the thread [cur], on four processors. *)
Definition demo_call (cur : Z) (rounds : list (state → state)) (nr : TaskSyscallId) (args : list Z) (s : state) : option sysret * state :=
  task_answer (task_syscall 0 0 0 4 cur errno (inl [47; 97]) zeroes id rounds nr args) s.

#[local] Opaque demo_init demo_user demo_fork demo_exit.

(** The parent waits; meanwhile the child finishes its exit. *)
Definition child_exits (s : state) : state := with_world demo_exit s.
Lemma child_exits_fair : fair 3 2 child_exits.
Proof.
  split; intros s _; [|exact demo_pinv_exit]. split; [exact demo_pinv_exit|]. apply demo_runs_parent. by right.
Qed.
Lemma demo_running : running 3 2 (at_world demo_fork).
Proof. split; [exact demo_pinv_fork|]. apply demo_runs_parent. by left. Qed.

Lemma task_calls_keep_tree_witness :
  let r := demo_call 3 [child_exits] WAIT4 [wrap32 (-1); 0x100; 0] (at_world demo_fork) in r.1 = Some (SOk 4) ∧ pinv (ts_w r.2).
Proof.
  assert (Forall (fair 3 2) [child_exits]) as Hr by (constructor; [exact child_exits_fair|constructor]).
  destruct demo_running as [I R].
  pose proof (task_calls_keep_tree 0 0 0 4 3 2 errno (inl [47; 97]) zeroes id [child_exits] WAIT4 [wrap32 (-1); 0x100; 0]
    (at_world demo_fork) ltac:(discriminate) I R Hr) as Hk. cbv zeta in Hk |- *.
  assert ((demo_call 3 [child_exits] WAIT4 [wrap32 (-1); 0x100; 0] (at_world demo_fork)).1 = Some (SOk 4)) as E by (by vm_compute).
  split; [exact E|]. apply Hk. unfold demo_call in E. rewrite E. discriminate.
Defined.

Lemma wait4_reaps_witness :
  let args := [wrap32 (-1); 0x100; 0] in
  ∃ s', syscall_wait4 3 [child_exits] args (at_world demo_fork) = (inl (Some 4), s') ∧
    reaped 2 4 0x100 (child_exits (at_world demo_fork)) s' ∧ tree (ts_w s').
Proof.
  intros args.
  assert (exits_after 3 2 (as_i32 (arg args 0)) 4 [child_exits] (at_world demo_fork) (child_exits (at_world demo_fork))) as Hx.
  { eapply exits_later.
    - exact demo_running.
    - by vm_compute.
    - by vm_compute.
    - vm_compute. constructor. left. discriminate.
    - by vm_compute.
    - by vm_compute.
    - by vm_compute.
    - eapply exited_now; [apply child_exits_fair, demo_running|by vm_compute|by vm_compute]. }
  assert (wait_flags_of (wrap32 (arg args 2)) = Some 0) as Ho by (by vm_compute).
  assert (has_flag 0 WNOHANG = false) as Hn by (by vm_compute).
  pose proof (wait4_reaps 3 2 args [child_exits] (at_world demo_fork)) as [H4 _].
  destruct (H4 0 4 _ Ho Hn Hx) as (s' & E & Hr & _ & Ht). exists s'. exact (conj E (conj Hr Ht)).
Defined.

(** ** What the calls do not do *)

(** A child that has begun to exit has sent its signal and can not be reaped yet: the
    wait for it ends with [EINTR]. *)
Example wait4_interrupted_by_exit :
  (demo_call 3 [child_exits] WAIT4 [wrap32 (-1); 0; 0] (at_world (exit_begin 5 demo_fork).2)).1 = Some (SErr EINTR).
Proof. by vm_compute. Qed.

(** A new session of a second thread: its process has no main task, so signals to it get
    lost, and is not a child of the parent it names, so it is never reaped. *)
Definition thread_flags : Z := foldr Z.lor 0 [CLONE_VM; CLONE_FS; CLONE_FILES; CLONE_SIGHAND; CLONE_THREAD].
Definition two_threads : state := (demo_call 3 [] CLONE [thread_flags; 0; 0; 0; 0] (at_world demo_user)).2.
Definition own_session : state := (demo_call 4 [] SETSID [] two_threads).2.
Example setsid_makes_orphan :
  (demo_call 4 [] SETSID [] two_threads).1 = Some (SOk 4) ∧
  (λ e, (main_task e, parent e, etasks e)) <$> execs (ts_w own_session) !! 5 = Some (None, 1, [4]) ∧
  (children <$> execs (ts_w own_session) !! 1) = Some [2] ∧
  (demo_call 3 [] KILL [5; 10] own_session).1 = Some (SOk 0) ∧
  (λ e, pend ∘ signal_set <$> signal_modules e !! 4) <$> execs (ts_w (demo_call 3 [] KILL [5; 10] own_session).2) !! 5 = Some (Some []).
Proof. vm_compute. split_and!; reflexivity. Qed.
(** A clone that is refused because of its descriptor has made its process. *)
Definition pidfd_flags : Z := foldr Z.lor 17 [CLONE_PIDFD; CLONE_PARENT_SETTID].
Example refused_clone_leaves_process :
  let r := demo_call 3 [] CLONE [pidfd_flags; 0; 0x100; 0; 0] (at_world demo_user) in
  r.1 = Some (SErr EINVAL) ∧ (4 ∈ PID2PC (ts_w r.2)) ∧ 4 ∉ PID2PC demo_user.
Proof. cbv zeta. split; [by vm_compute|]. split; [|intros Hc]; [apply (bool_decide_eq_true_1 _)|apply (bool_decide_eq_true_2 _) in Hc]; by vm_compute. Qed.
(** Flags of [clone3] that hold the signal as those of [clone] do, and options of
    [wait4] that are not known, panic. *)
Example unknown_flags_panic :
  clone3_flags_of 17 = None ∧ (demo_call 3 [] WAIT4 [0; 0; 4] (at_world demo_fork)).1 = Some SPanic.
Proof. by vm_compute. Qed.
End TaskDemo.

(** The mask that [sched_getaffinity] stores is empty, whatever the CPU set. *)
Lemma affinity_always_empty len prev cpu_set : affinity_mask len prev cpu_set = 0.
Proof.
  unfold affinity_mask. apply Z.bits_inj'. intros n Hn. rewrite !Z.land_spec, Z.lnot_spec, Z.bits_0 by done.
  destruct (Z.testbit (bit64 len - 1) n), (Z.testbit prev n), (Z.testbit cpu_set n); done.
Qed.
(** The CPU set of a new task holds one processor of four. *)
Example one_processor : cpu_set_initial 4 = 8.
Proof. done. Qed.
(** A name of sixteen bytes is given without its terminator. *)
Example name_not_terminated : string_truncate PR_NAME_SIZE (replicate 16 97 ++ [0]) = Some (replicate 16 97).
Proof. done. Qed.
(** [getrandom] asks for the page after a buffer that ends with one. *)
Example random_asks_for_next_page : manual_alloc_range_for_lazy_ok (mk_usermem {[ 0x1000 ]} ∅) 0x1000 0x2000 = false.
Proof. by vm_compute. Qed.

(** ** The vectors of strings of [execve] end *)

Lemma load_le_nonzero um a n : load_le um a n ≠ 0 → ∃ b, a ≤ b < a + Z.of_nat n ∧ is_Some (um_bytes um !! b).
Proof.
  revert a. induction n as [|n IH]; intros a; cbn [load_le]; [done|]. intros Hn.
  destruct (um_bytes um !! a) as [v|] eqn:E; [exists a; split; [lia|by rewrite E]|]. cbn in Hn.
  destruct (IH (a + 1)) as (b & Hb & Hs); [lia|]. exists b. split; [lia|done].
Qed.
Lemma string_vec_None fuel um a :
  string_vec fuel um a = None →
  ∃ bs : list Z, length bs = fuel ∧ NoDup bs ∧ Forall (λ b, a ≤ b ∧ is_Some (um_bytes um !! b)) bs.
Proof.
  revert a. induction fuel as [|fuel IH]; intros a; cbn [string_vec]; [intros _; exists []; by repeat constructor|].
  case_decide as Hp; [done|]. destruct (string_vec fuel um (a + 8)) as [l|] eqn:E; [done|]. intros _.
  destruct (IH _ E) as (bs & Hl & Hnd & Hbs). destruct (load_le_nonzero _ _ _ Hp) as (b & Hb & Hs).
  exists (b :: bs). split; [by cbn; rewrite Hl|]. rewrite Forall_forall in Hbs. split.
  - constructor; [|done]. intros Hin%Hbs. lia.
  - constructor; [split; [lia|done]|]. apply Forall_forall. intros x Hx%Hbs. split; [lia|apply Hx].
Qed.
(** The scan needs no more turns than it is given. *)
Lemma string_vec_total um a : is_Some (string_vec (S (base.size (um_bytes um))) um a).
Proof.
  destruct (string_vec _ um a) as [l|] eqn:E; [by eexists|]. apply string_vec_None in E as (bs & Hl & Hnd & Hbs).
  rewrite Forall_forall in Hbs. exfalso.
  assert (length bs ≤ base.size (um_bytes um))%nat as Hle; [|lia]. rewrite <- size_dom.
  rewrite <- (size_list_to_set (C := gset Z) bs Hnd). apply subseteq_size. intros x. rewrite elem_of_list_to_set, elem_of_dom.
  intros Hx. by apply Hbs.
Qed.
