(* ===== verification/Entry.v ===== *)
(** The entry of system calls: [syscall] ([modules/syscall/src/syscall.rs]),
    [deal_result] ([lib.rs]) and the trap handlers ([trap.rs]).

    The calls come in four groups, each with its numbers and its dispatcher; a
    group runs on the part of the kernel its dispatcher is about, which a [View]
    takes out of the kernel's state and puts back.  The entry asks every group
    in turn. *)

From S2P Require Import Prelude UserMem TimeStat FdCalls FsPaths Memory MemCalls Process Signal Net Sockets TaskCalls FsCalls.

(** ** Groups of calls *)

(** A part [S] of a state [K]. *)
Class View (K S : Type) := { view : K → S; put_view : S → K → K }.

(** What a group does with a call number: nothing when it is not one of its own,
    else an answer, [None] for a call that still waits. *)
Definition CallGroup (K : Type) : Type := Z → list Z → K → option (option sysret * K).

Definition answered {S} (x : (option Z + sysret) * S) : option sysret * S :=
  let '(r, s) := x in (match r with inl (Some v) => Some (SOk v) | inl None => None | inr r => Some r end, s).

(** The dispatcher of a group, by the numbers of its enum. *)
Definition group_of {K S Id} `{View K S} (from : Z → option Id)
    (dispatch : Id → list Z → S → (option Z + sysret) * S) : CallGroup K := λ id args k,
  i ← from id;
  let '(r, s) := answered (dispatch i args (view k)) in Some (r, put_view s k).

(** Without the waits of the other groups. *)
Definition no_wait {S} (x : (Z + sysret) * S) : (option Z + sysret) * S :=
  let '(r, s) := x in (match r with inl v => inl (Some v) | inr r => inr r end, s).

(** ** [syscall] *)

(** How a call ends: with a word for the process, waiting, or not at all. *)
Inductive ended := Returned (v : Z) | Waits | Panicked | Hung.

(** [LinuxError::code], of axerrno. *)
Class Errno := { code : LinuxError → Z }.

Section entry.
Context {K : Type} `{Errno}.

Definition deal_result (r : sysret) : ended :=
  match r with
  | SOk x => Returned x
  | SErr e => Returned (- code e)
  | SPanic => Panicked
  | SHang => Hung
  end.

(** Every group is asked, and the last answer kept; a call that does not return
    ends it. *)
Fixpoint ask_groups (gs : list (CallGroup K)) (id : Z) (args : list Z) (ans : option sysret) (k : K)
    : (option sysret + ended) * K :=
  match gs with
  | [] => (inl ans, k)
  | g :: gs =>
      match g id args k with
      | None => ask_groups gs id args ans k
      | Some (None, k) => (inr Waits, k)
      | Some (Some r, k) =>
          if returned r then ask_groups gs id args (Some r) k else (inr (deal_result r), k)
      end
  end.

Definition syscall_in (gs : list (CallGroup K)) (id : Z) (args : list Z) (k : K) : ended * K :=
  match ask_groups gs id args None k with
  | (inl None, k) => (Panicked, k)
  | (inl (Some ans), k) => (deal_result ans, k)
  | (inr e, k) => (e, k)
  end.

(** What the entry is to do: the one group that knows the number serves it. *)
Definition serve (g : CallGroup K) (id : Z) (args : list Z) (k : K) : option (ended * K) :=
  match g id args k with
  | None => None
  | Some (r, k) => Some (match r with Some r => deal_result r | None => Waits end, k)
  end.
End entry.

(** *** The four groups *)
Section groups.
Context {K : Type} `{Errno}.
Context {T U I R1 : Type} `{Smoltcp T U I} `{FileIO R1} `{View K (sysw (sworld T U I R1))}.
Context {P : Type} `{PageTables P} `{View K (sysw (memw P))}.
Context {SS SH SA SI R : Type} `{AxSignal SS SH SA SI} `{FileIO R} `{KernelObjects SS R} `{Fops.Capability}.
Context `{View K (sysw (pworld R))}.
Context {M : Type} `{ProcMem M} `{!SigInfos SI} `{!MemPut M} `{View K (tstate SS SH M)}.

(** What the dispatchers are told: of the hardware, the configuration, the
    clock, and what other tasks do while a call waits. *)
Record surroundings := {
  sr_timeval_ticks : TimeVal → Z; sr_timesecs_ticks : TimeSecs → Z; sr_nanos_ticks : Z → Z;
  sr_now : Z; sr_wall : Z; sr_secs : Z;
  sr_net_rounds : list (nround T U I); sr_fs_rounds : list (@round (pworld R));
  sr_task_rounds : list (tstate SS SH M → tstate SS SH M);
  sr_info : bool; sr_stack : list Z; sr_net : bool; sr_into : AxError → LinuxError;
  sr_user_memory : Z; sr_file_of : Z → option MemBackend;
  sr_alive : nat → bool; sr_block_size : Z; sr_rest_stat : Z → R → outcome Kstat; sr_old_mask_at : Z; sr_dents : nat;
  sr_stack_size : Z; sr_trampoline : Z; sr_status : Z; sr_smp : Z; sr_cur : Z;
  sr_solved : list Z + sysret; sr_random : nat → list Z }.

Context (e : surroundings).

Definition net_group : CallGroup K := group_of net_syscall_try_from (λ i args s,
  no_wait (net_syscall (sr_timeval_ticks e) (sr_now e) (sr_net_rounds e) (sr_info e) (sr_stack e) i args s)).
Definition mem_group : CallGroup K := group_of mem_syscall_try_from (λ i args s,
  no_wait (mem_syscall (sr_user_memory e) (sr_secs e) (sr_file_of e) i args s)).
Definition fs_group : CallGroup K := group_of fs_syscall_try_from (λ i args s,
  fs_syscall (sr_alive e) (sr_block_size e) (sr_rest_stat e) (sr_net e) (sr_into e) (sr_timesecs_ticks e) (sr_timeval_ticks e)
    (sr_old_mask_at e) (sr_now e) (sr_wall e) (sr_fs_rounds e) (sr_dents e) i args s).
Definition task_group : CallGroup K := group_of task_syscall_try_from (λ i args s,
  task_syscall (sr_stack_size e) (sr_trampoline e) (sr_status e) (sr_smp e) (sr_cur e) (sr_into e)
    (sr_solved e) (sr_random e) (sr_nanos_ticks e) (sr_task_rounds e) i args s).

Definition syscall : Z → list Z → K → ended * K := syscall_in [net_group; mem_group; fs_group; task_group].

(** ** [handle_syscall] ([trap.rs])

    The time until the call is the thread's in user mode, the time of the call
    its time in the kernel. *)
Context `{View K TimeStat}.
Definition time_stat_from_user_to_kernel (now : Z) (k : K) : K := put_view (switch_into_kernel_mode now (view k)) k.
Definition time_stat_from_kernel_to_user (now : Z) (k : K) : K := put_view (switch_into_user_mode now (view k)) k.

Definition handle_syscall (entered left : Z) (id : Z) (args : list Z) (k : K) : ended * K :=
  let k := time_stat_from_user_to_kernel entered k in
  match syscall id args k with
  | (Returned ans, k) => (Returned ans, time_stat_from_kernel_to_user left k)
  | r => r
  end.

(** [handle_page_fault] of the running thread [sr_cur]: a fault the address
    space cannot serve is a [SIGSEGV] for the thread. *)
Definition handle_page_fault (entered left : Z) (addr flags : Z) (k : K) : ended * K :=
  let k := time_stat_from_user_to_kernel entered k in
  let s : sysw (memw P) := view k in
  let '(r, ms, pt) := ms_handle_page_fault addr flags (mw_set (sw_io s)) (mw_pt (sw_io s)) in
  let k := put_view (mk_sysw (MemCalls.with_set ms pt (sw_io s)) (sw_table s) (sw_limit s) (sw_mem s)) k in
  match r with
  | Panic => (Panicked, k)
  | Ok _ => (Returned 0, time_stat_from_kernel_to_user left k)
  | Err _ =>
      let t : tstate SS SH M := view k in
      match send_signal_to_thread (sr_cur e) SIGSEGV (ts_w t) with
      | (Panic, w) => (Panicked, put_view (with_world w t) k)
      | (_, w) => (Returned 0, time_stat_from_kernel_to_user left (put_view (with_world w t) k))
      end
  end.
End groups.

(** ** The numbers of the groups *)

Definition has {A} (o : option A) : bool := match o with Some _ => true | None => false end.
Definition numbers {Id} (from : Z → option Id) : list Z := List.filter (λ id, has (from id)) (seqZ 0 512).
Definition known {Id} (from : Z → option Id) : Prop := ∀ id, is_Some (from id) → id ∈ numbers from.

Lemma existsb_elem id ids : existsb (Z.eqb id) ids = true → id ∈ ids.
Proof. intros (x & Hx & He)%List.existsb_exists. apply Z.eqb_eq in He. subst. by apply list_elem_of_In. Qed.

(** A match on numerals is read digit by digit: what it knows has at most nine. *)
Ltac solve_known :=
  let id := fresh "id" in let H := fresh "H" in let i := fresh "i" in let p := fresh "p" in
  intros id [i H]; apply existsb_elem;
  destruct id as [|p|p]; [discriminate H| |discriminate H];
  do 9 (try (destruct p as [p|p|]; try discriminate H; try reflexivity)).

Lemma net_known : known net_syscall_try_from.
Proof. solve_known. Qed.
Lemma mem_known : known mem_syscall_try_from.
Proof. solve_known. Qed.
Lemma fs_known : known fs_syscall_try_from.
Proof. solve_known. Qed.
Lemma task_known : known task_syscall_try_from.
Proof. solve_known. Qed.

(** A number of one group is none of another's. *)
Lemma disjoint_numbers {I J} (from : Z → option I) (from' : Z → option J) :
  known from → forallb (λ id, negb (has (from' id))) (numbers from) = true →
  ∀ id, is_Some (from id) → from' id = None.
Proof.
  intros Hk Hd id Hid. apply Hk, list_elem_of_In in Hid. rewrite List.forallb_forall in Hd. specialize (Hd _ Hid).
  by destruct (from' id).
Qed.

Lemma net_only id : is_Some (net_syscall_try_from id) →
  mem_syscall_try_from id = None ∧ fs_syscall_try_from id = None ∧ task_syscall_try_from id = None.
Proof. intros Hid. split_and!; (eapply disjoint_numbers; [apply net_known|by vm_compute|done]). Qed.
Lemma mem_only id : is_Some (mem_syscall_try_from id) → fs_syscall_try_from id = None ∧ task_syscall_try_from id = None.
Proof. intros Hid. split_and!; (eapply disjoint_numbers; [apply mem_known|by vm_compute|done]). Qed.
Lemma fs_only id : is_Some (fs_syscall_try_from id) → task_syscall_try_from id = None.
Proof. intros Hid. eapply disjoint_numbers; [apply fs_known|by vm_compute|done]. Qed.

Section groups_props.
Context {K : Type} `{Errno}.

Lemma group_None {S Id} `{View K S} (from : Z → option Id) d id args k : from id = None → group_of from d id args k = None.
Proof. intros Hf. unfold group_of. by rewrite Hf. Qed.

(** A group that knows the number answers, and the rest, which do not, keep the answer. *)
Lemma ask_one (g : CallGroup K) gs id args k r k' :
  g id args k = Some (r, k') → Forall (λ g' : CallGroup K, ∀ k, g' id args k = None) gs →
  syscall_in (g :: gs) id args k = (match r with Some r => deal_result r | None => Waits end, k').
Proof.
  intros Hg Hgs. unfold syscall_in. cbn. rewrite Hg. destruct r as [r|]; [|done].
  assert (Hrest : ∀ ans k, ask_groups gs id args ans k = (inl ans, k)).
  { clear Hg. induction Hgs as [|g' gs Hg' _ IH]; intros ans k0; [done|]. cbn. by rewrite Hg'. }
  destruct r; cbn; rewrite ?Hrest; done.
Qed.

(** The group whose number it is, ahead of groups that do not know it. *)
Lemma serve_here {S Id} `{View K S} (from : Z → option Id) d gs id args k :
  is_Some (from id) → Forall (λ g : CallGroup K, ∀ k, g id args k = None) gs →
  ∃ r, serve (group_of from d) id args k = Some r ∧ syscall_in (group_of from d :: gs) id args k = r.
Proof.
  intros [i Hi] Hgs. unfold serve. destruct (group_of from d id args k) as [[r k']|] eqn:Eg.
  - eexists. split; [done|]. by eapply ask_one.
  - unfold group_of in Eg. rewrite Hi in Eg. cbn in Eg. by destruct (answered _).
Qed.

Lemma serve_None {S Id} `{View K S} (from : Z → option Id) d id args k : from id = None → serve (group_of from d) id args k = None.
Proof. intros Hf. unfold serve. by rewrite group_None. Qed.

Lemma ask_skip (g : CallGroup K) gs id args k : g id args k = None → syscall_in (g :: gs) id args k = syscall_in gs id args k.
Proof. intros Hg. unfold syscall_in. cbn. by rewrite Hg. Qed.
End groups_props.

Section entry_props.
Context {K : Type} `{Errno}.
Context {T U I R1 : Type} `{Smoltcp T U I} `{FileIO R1} `{View K (sysw (sworld T U I R1))}.
Context {P : Type} `{PageTables P} `{View K (sysw (memw P))}.
Context {SS SH SA SI R : Type} `{AxSignal SS SH SA SI} `{FileIO R} `{KernelObjects SS R} `{Fops.Capability}.
Context `{View K (sysw (pworld R))}.
Context {M : Type} `{ProcMem M} `{!SigInfos SI} `{!MemPut M} `{View K (tstate SS SH M)}.

(** C32: Every number a process can pass is served by one dispatcher at most: the
    numbers of the network, memory, file and task calls are disjoint, so that
    no answer of a call is replaced by that of another group, and no call is
    made twice.  A number of no group panics the kernel, with its state
    unchanged. *)
Theorem entry_serves_one (e : surroundings (T := T) (U := U) (I := I) (SS := SS) (SH := SH) (R := R) (M := M))
  (id : Z) (args : list Z) (k : K) :
  syscall e id args k =
    match serve (net_group e) id args k with Some r => r | None =>
    match serve (mem_group e) id args k with Some r => r | None =>
    match serve (fs_group e) id args k with Some r => r | None =>
    match serve (task_group e) id args k with Some r => r | None => (Panicked, k) end end end end.
Proof.
  unfold syscall, net_group, mem_group, fs_group, task_group. destruct (net_syscall_try_from id) eqn:En.
  { destruct (net_only id) as (Hm & Hf & Ht); [by rewrite En|].
    edestruct @serve_here as (r & -> & ->); [by rewrite En| |done]. repeat constructor; intros; by apply group_None. }
  rewrite ask_skip, (serve_None net_syscall_try_from) by (by try apply group_None). destruct (mem_syscall_try_from id) eqn:Em.
  { destruct (mem_only id) as (Hf & Ht); [by rewrite Em|].
    edestruct @serve_here as (r & -> & ->); [by rewrite Em| |done]. repeat constructor; intros; by apply group_None. }
  rewrite ask_skip, (serve_None mem_syscall_try_from) by (by try apply group_None). destruct (fs_syscall_try_from id) eqn:Ef.
  { pose proof (fs_only id ltac:(by rewrite Ef)) as Ht.
    edestruct @serve_here as (r & -> & ->); [by rewrite Ef| |done]. repeat constructor; intros; by apply group_None. }
  rewrite ask_skip, (serve_None fs_syscall_try_from) by (by try apply group_None). destruct (task_syscall_try_from id) eqn:Et.
  { edestruct @serve_here as (r & -> & ->); [by rewrite Et|by constructor|done]. }
  by rewrite ask_skip, (serve_None task_syscall_try_from) by (by try apply group_None).
Qed.
End entry_props.
