(* ===== verification/UserTask.v ===== *)
(** The task of a user thread ([user_task_top] of
    [modules/trampoline/src/task_api.rs]): what one turn of its loop makes of a
    trap, and the system calls a program does not wait for, on both sides: the
    kernel coroutine [user_task_top] makes for one, and the future of the program
    ([SyscallFuture] of [syscalls/src/fut.rs]) that is told its result.

    The trap frame of the thread is a part of the kernel's state: the calls that
    replace it ([execve], [sigreturn]) write through the same reference.  What a
    trap needs of the rest of the kernel is the class [TrapWorld]. *)

From S2P Require Import Prelude UserMem MemCalls Signal Entry.

(** ** Traps *)

(** [scause] as the riscv crate reads it. *)
Inductive trap :=
  | Interrupt (code : Z) | UserEnvCall | InstructionPageFault | LoadPageFault | StorePageFault | OtherTrap.

Definition IS_ASYNC : Z := 0x5f5f5f5f.

Class TrapWorld (K : Type) := {
  tw_cause : Z → trap;
  (** [handle_user_irq]: the interrupt is served, and the thread may yield *)
  tw_irq : Z → K → K;
  (** [handle_syscall] of [Entry] *)
  tw_syscall : Z → list Z → K → ended * K;
  (** the coroutine of a call the program does not wait for, polled once: the
      place of the result and the program's task are its own *)
  tw_async : Z → list Z → Z → Z → K → ended * K;
  (** [handle_page_fault] of [Entry] *)
  tw_page_fault : Z → Z → K → ended * K;
  (** [handle_signals], which may change the frame, wait or exit *)
  tw_signals : K → ended * K;
  (** the exit code, once the thread has exited *)
  tw_exited : K → option Z }.

(** What a turn ends with: back to the program, the thread over, a call still
    waiting, or the kernel's panic. *)
Inductive turn := Resume | Exit (exit_code : Z) | Blocked | Dead.

Section user_task.
Context {K : Type} `{View K TrapFrame} `{TrapWorld K} `{Errno}.

Definition on_frame (f : TrapFrame → TrapFrame) (k : K) : K := put_view (f (view k)) k.

(** The end of a turn: signals, and the frame is done with. *)
Definition finish_trap (k : K) : turn * K :=
  match tw_signals k with
  | (Returned _, k) =>
      let k := on_frame (set_trap_status Done) k in
      match tw_exited k with Some code => (Exit code, k) | None => (Resume, k) end
  | (Waits, k) => (Blocked, k)
  | (_, k) => (Dead, k)
  end.
Definition finish_fault (x : ended * K) : turn * K :=
  match x with
  | (Returned _, k) => finish_trap k
  | (Waits, k) => (Blocked, k)
  | (_, k) => (Dead, k)
  end.

(** The result of a call: it starts again, or its word is in [a0]. *)
Definition put_result (result : Z) (k : K) : K :=
  if decide (- result = code ERESTART) then on_frame rewind_pc k else on_frame (set_reg a0 (wrap64 result)) k.

Definition env_call (k : K) : ended * K :=
  let k := on_frame (λ tf, set_sepc (wrap64 (sepc tf + 4)) tf) k in
  let tf : TrapFrame := view k in
  if decide (regs tf t0 ≠ IS_ASYNC) then tw_syscall (get_syscall_num tf) (get_syscall_args tf) k
  else tw_async (get_syscall_num tf) (get_syscall_args tf) (regs tf t1) (regs tf t2) k.

Definition user_trap (k : K) : turn * K :=
  let tf : TrapFrame := view k in
  if decide (trap_status tf ≠ TsBlocked) then (Resume, k) else
  match tw_cause (scause tf) with
  | Interrupt c => finish_trap (on_frame (set_trap_status Done) (tw_irq c k))
  | UserEnvCall =>
      match env_call k with
      | (Returned result, k) =>
          match tw_exited k with
          | Some code => (Exit code, k)
          | None => finish_trap (put_result result k)
          end
      | (Waits, k) => (Blocked, k)
      | (_, k) => (Dead, k)
      end
  | InstructionPageFault => finish_fault (tw_page_fault (stval tf) (Z.lor USER EXECUTE) k)
  | LoadPageFault => finish_fault (tw_page_fault (stval tf) (Z.lor USER READ) k)
  | StorePageFault => finish_fault (tw_page_fault (stval tf) (Z.lor USER WRITE) k)
  | OtherTrap => (Dead, k)
  end.
End user_task.

(** ** A call and the frame *)

(** A view reads back what it put. *)
Class ViewLaws (K S : Type) `{View K S} := {
  view_put s k : view (put_view s k) = s;
  put_put s s' k : put_view s (put_view s' k) = put_view s k }.

Section frame_props.
Context {K : Type} `{ViewLaws K TrapFrame} `{TrapWorld K} `{Errno}.

(** The frame a returned call leaves: to run the call again, or past it with
    the word of its result. *)
Definition after_call (tf : TrapFrame) (result : Z) : TrapFrame :=
  if decide (- result = code ERESTART) then tf
  else set_reg a0 (wrap64 result) (set_sepc (wrap64 (sepc tf + 4)) tf).

Lemma rewind_call tf : is_u64 (sepc tf) → rewind_pc (set_sepc (wrap64 (sepc tf + 4)) tf) = tf.
Proof.
  intros Hpc. unfold rewind_pc, set_sepc. destruct tf as [r pc st f sc sv ts ks]. cbn in *. f_equal.
  unfold wrap64. rewrite Zminus_mod_idemp_l. rewrite Z.add_simpl_r. by apply Z.mod_small.
Qed.

(** A system call that returns, to a thread that goes on, with nothing to
    deliver and the frame not replaced by the call itself, leaves the thread's
    registers as they were but for [a0], which holds the result, and goes on
    behind the call instruction; when the result asks for a restart the frame
    is the one of the trap to the last register, so that the program makes the
    same call with the same arguments again. *)
Theorem call_returns_to_frame (k k1 k2 : K) (tf : TrapFrame) (result : Z)
  (Hk : view k = tf) (Hst : trap_status tf = TsBlocked) (Hc : tw_cause (scause tf) = UserEnvCall)
  (Hsync : regs tf t0 ≠ IS_ASYNC) (Hpc : is_u64 (sepc tf))
  (Hrun : tw_syscall (get_syscall_num tf) (get_syscall_args tf) (put_view (set_sepc (wrap64 (sepc tf + 4)) tf) k) = (Returned result, k1))
  (Hframe : view k1 = set_sepc (wrap64 (sepc tf + 4)) tf) (Hlive : tw_exited k1 = None)
  (Hsig : tw_signals (put_view (after_call tf result) k1) = (Returned 0, k2)) (Hf2 : view k2 = after_call tf result)
  (Hlive2 : tw_exited (put_view (set_trap_status Done (after_call tf result)) k2) = None) :
  ∃ k', user_trap k = (Resume, k') ∧ view k' = set_trap_status Done (after_call tf result).
Proof.
  exists (put_view (set_trap_status Done (after_call tf result)) k2). split; [|apply view_put].
  unfold user_trap. rewrite Hk, decide_False by (by rewrite Hst; intros []). rewrite Hc.
  unfold env_call, on_frame. rewrite Hk, view_put. cbn [regs set_sepc]. rewrite decide_True by done.
  change (get_syscall_num (set_sepc _ tf)) with (get_syscall_num tf).
  change (get_syscall_args (set_sepc _ tf)) with (get_syscall_args tf). rewrite Hrun, Hlive.
  assert (Hput : put_result result k1 = put_view (after_call tf result) k1).
  { unfold put_result, after_call, on_frame. rewrite Hframe. case_decide; [by rewrite rewind_call|done]. }
  rewrite Hput. unfold finish_trap. rewrite Hsig. unfold on_frame. by rewrite Hf2, Hlive2.
Qed.
End frame_props.

(** ** Calls a program does not wait for *)

(** [Errno::from_ret] and [into_raw] of the crate syscalls: a word of the last
    page is an error. *)
Class UserErrno := { from_ret : Z → Z + Z; EAGAIN_RAW : Z }.

(** The kernel's side: the coroutine, polled once, has its result or none yet.
    A result is stored where the program said, and is the word of the call; with
    none the word is [EAGAIN], and the coroutine stores its result later. *)
Definition async_word `{Errno} (first : option Z) : Z :=
  match first with Some r => wrap64 r | None => wrap64 (code EAGAIN) end.

(** [SyscallFuture]: whether the call was made, and the place of its result. *)
Record SyscallFuture := mk_fut { has_issued : bool; res : option (Z + Z) }.
Definition fut_new : SyscallFuture := mk_fut false None.
Definition is_finished (f : SyscallFuture) : bool := match res f with Some _ => true | None => false end.

Section async.
Context `{Errno} `{UserErrno}.

(** [run]: [stored] is what the kernel stored meanwhile, [raw] the word of the
    call; a word that is not [EAGAIN] is taken for the result. *)
Definition fut_run (stored : option Z) (raw : Z) (f : SyscallFuture) : SyscallFuture :=
  let r := match stored with Some v => Some (from_ret (wrap64 v)) | None => res f end in
  mk_fut (has_issued f) (if decide (as_i32 raw ≠ EAGAIN_RAW) then Some (from_ret raw) else r).

(** [poll], with what the kernel makes of the call if it is made now. *)
Definition fut_poll (stored : option Z) (raw : Z) (f : SyscallFuture) : poll (Z + Z) * SyscallFuture :=
  match res f with
  | Some ret => (Ready ret, f)
  | None =>
      let f := if has_issued f then f else fut_run stored raw (mk_fut true (res f)) in
      match res f with Some ret => (Ready ret, f) | None => (Pending, f) end
  end.

(** The call of a blocking program, and the call that is not waited for: [stored] is
    what the kernel has left at the place of the result, [first] what the coroutine of
    the call that returned had made of its first poll. *)
Definition poll_blocking (result : Z) : SyscallFuture → poll (Z + Z) * SyscallFuture := fut_poll None (wrap64 result).
Definition poll_async (stored first : option Z) : SyscallFuture → poll (Z + Z) * SyscallFuture :=
  fut_poll stored (async_word first).

(** The call instruction of a call that is not waited for, by the first polls of the
    coroutines made for it: one that ends at once has stored its result, and if that
    asks for a restart the kernel rewinds the pc and the program makes the call again,
    with a new coroutine.  How often the call was made, what is stored and what the
    coroutine of the last call had; none if it is still being made. *)
Fixpoint issue (calls : nat) (stored : option Z) (outcomes : list (option Z)) : option (nat * option Z * option Z) :=
  match outcomes with
  | [] => None
  | None :: _ => Some (S calls, stored, None)
  | Some r :: outcomes =>
      if decide (- r = code ERESTART) then issue (S calls) (Some r) outcomes else Some (S calls, Some r, Some r)
  end.

(** A coroutine that is left ends later, and replaces what is at the place of the
    result. *)
Definition store_result (r : Z) (f : SyscallFuture) : SyscallFuture := mk_fut (has_issued f) (Some (from_ret (wrap64 r))).

(** The program and the kernel, in any order: the future is polled (the kernel makes
    its coroutines for the first of these polls), the coroutine that is left ends. *)
Inductive aevent := EvPoll (outcomes : list (option Z)) | EvStore (r : Z).
Record astate := mk_as { as_fut : SyscallFuture; as_running : bool; as_calls : nat }.
Definition as_init : astate := mk_as fut_new false 0.

Definition astep (ev : aevent) (s : astate) : option (option (poll (Z + Z)) * astate) :=
  match ev with
  | EvPoll outcomes =>
      if negb (is_finished (as_fut s)) && negb (has_issued (as_fut s)) then
        '(calls, stored, first) ← issue (as_calls s) None outcomes;
        let '(p, f) := poll_async stored first (as_fut s) in
        Some (Some p, mk_as f (negb (bool_decide (is_Some first))) calls)
      else let '(p, f) := poll_async None None (as_fut s) in Some (Some p, mk_as f (as_running s) (as_calls s))
  | EvStore r =>
      if as_running s then Some (None, mk_as (store_result r (as_fut s)) false (as_calls s)) else None
  end.
Fixpoint arun (evs : list aevent) (s : astate) : option astate :=
  match evs with
  | [] => Some s
  | ev :: evs => '(_, s) ← astep ev s; arun evs s
  end.

(** What the kernel answers a history with: the calls it was asked for, and the result
    a program finds, the one stored last - that of a coroutine which ended at its first
    poll, [ERESTART] of one before it, or the one stored later. *)
Fixpoint later_result (evs : list aevent) : option Z :=
  match evs with
  | [] => None
  | EvPoll _ :: evs => later_result evs
  | EvStore r :: _ => Some r
  end.
Fixpoint restarts (outcomes : list (option Z)) : nat :=
  match outcomes with
  | Some r :: outcomes => if decide (- r = code ERESTART) then S (restarts outcomes) else 0
  | _ => 0
  end.
Definition at_once (outcomes : list (option Z)) : option Z := outcomes !! restarts outcomes ≫= id.
Definition kernel_result (evs : list aevent) : option Z :=
  match evs with
  | EvPoll outcomes :: evs =>
      match at_once outcomes with
      | Some r => Some r
      | None => match later_result evs with
                | Some r => Some r
                | None => if decide (restarts outcomes = 0)%nat then None else Some (- code ERESTART)
                end
      end
  | _ => None
  end.
Definition kernel_calls (evs : list aevent) : nat :=
  match evs with EvPoll outcomes :: _ => S (restarts outcomes) | _ => 0 end.
End async.

(** The numbers agree on both sides, and are those of Linux. *)
Class ErrnoLaws `{Errno} `{UserErrno} := {
  code_range e : 0 < code e < 4096;
  eagain_raw : EAGAIN_RAW = code EAGAIN;
  from_ret_spec v : is_u64 v → from_ret v = if decide (two64 - 4096 < v) then inr (two64 - v) else inl v }.

Section async_props.
Context `{EL : ErrnoLaws}.

Lemma eagain_word : as_i32 (wrap64 (code EAGAIN)) = EAGAIN_RAW.
Proof.
  rewrite eagain_raw. pose proof (code_range EAGAIN). rewrite wrap64_small by (unfold is_u64, two64; lia). unfold as_i32, wrap32, two32. rewrite Z.mod_small by lia.
  by rewrite ?decide_True by lia.
Qed.

(** What making the call comes to. *)
Lemma issue_ok outcomes : ∀ calls stored x, issue calls stored outcomes = Some x →
  x = (S (restarts outcomes) + calls,
       match at_once outcomes with
       | Some r => Some r
       | None => if decide (restarts outcomes = 0)%nat then stored else Some (- code ERESTART)
       end, at_once outcomes)%nat.
Proof.
  unfold at_once. induction outcomes as [|[r|] outcomes IH]; intros calls stored x; cbn [issue restarts]; [done| |by intros [= <-]].
  destruct (decide (- r = code ERESTART)) as [Hr|Hr]; [|by intros [= <-]]. intros E. apply IH in E. rewrite E. cbn [lookup list_lookup].
  assert (r = - code ERESTART) as -> by lia. f_equal. f_equal; [lia|].
  destruct (outcomes !! restarts outcomes ≫= id); [done|]. rewrite (decide_False (P := S _ = 0%nat)) by lia. by case_decide.
Qed.

(** The future of a call made, by what is stored. *)
Definition fut_of (calls : nat) (running : bool) (r : option Z) : astate :=
  mk_as (mk_fut true (from_ret <$> (wrap64 <$> r))) running calls.
Lemma poll_fut_of r stored first :
  poll_async stored first (mk_fut true (from_ret <$> (wrap64 <$> r))) =
    (match r with Some r => Ready (from_ret (wrap64 r)) | None => Pending end, mk_fut true (from_ret <$> (wrap64 <$> r))).
Proof. by destruct r. Qed.

Lemma first_poll stored first :
  (∀ r, first = Some r → stored = Some r) →
  poll_async stored first fut_new =
    (match stored with Some r => Ready (from_ret (wrap64 r)) | None => Pending end, mk_fut true (from_ret <$> (wrap64 <$> stored))).
Proof.
  intros Hs. unfold poll_async, fut_poll, fut_run, fut_new. cbn. destruct first as [r|]; cbn.
  - rewrite (Hs r eq_refl). cbn. by case_decide.
  - rewrite decide_False by (rewrite eagain_word; tauto). by destruct stored.
Qed.

Lemma later_run evs : ∀ calls running r s, arun evs (fut_of calls running r) = Some s →
  as_calls s = calls ∧
  as_fut s = as_fut (fut_of 0 false (if running then match later_result evs with Some r => Some r | None => r end else r)).
Proof.
  induction evs as [|ev evs IH]; intros calls running r s; cbn [arun].
  - intros [= <-]. by destruct running.
  - destruct ev as [outcomes|v]; cbn [astep later_result].
    + replace (negb _ && negb _) with false by (cbn; by rewrite andb_false_r). cbn [as_fut fut_of]. rewrite poll_fut_of.
      cbn. intros Hrun. by apply IH in Hrun.
    + cbn [as_running fut_of]. destruct running; [|done]. cbn. intros Hrun. by apply (IH calls false (Some v)) in Hrun.
Qed.

(** C33: A system call a program does not wait for is made by the first poll of its
    future, once, and once more for every coroutine of it that ends at its first poll
    and asks for a restart ([ERESTART]); no later poll calls the kernel.  After any
    history of polls and of the end of the coroutine that is left, a poll is ready
    exactly when a result is stored, and every poll then has the same answer, read as
    a value or an error number: the result of the coroutine of the last call when that
    ended at its first poll, otherwise the result that it ended with later, and until
    then none - or, if the call was restarted, the [ERESTART] of the coroutine before
    it, which the program takes for the result. *)
Theorem async_call_result (evs : list aevent) (s : astate) (Hne : evs ≠ []) (Hrun : arun evs as_init = Some s) :
  as_calls s = kernel_calls evs ∧ (0 < kernel_calls evs)%nat ∧
  ∀ stored first, poll_async stored first (as_fut s) =
    (match kernel_result evs with Some r => Ready (from_ret (wrap64 r)) | None => Pending end, as_fut s).
Proof.
  destruct evs as [|[outcomes|r] evs]; [done| |done]. cbn [arun astep] in Hrun.
  change (negb (is_finished _) && negb (has_issued _)) with true in Hrun. cbv iota in Hrun. cbn [as_calls as_fut as_init] in Hrun.
  destruct (issue 0 None outcomes) as [x|] eqn:E; [|done]. apply issue_ok in E. subst x. cbn [mbind option_bind] in Hrun.
  rewrite first_poll in Hrun by (by intros ? ->). cbn [mbind option_bind] in Hrun. cbn in Hrun.
  apply (later_run evs (S (restarts outcomes + 0)) (negb (bool_decide (is_Some (at_once outcomes)))) _ s) in Hrun as [Hc Hf].
  split_and!; [rewrite Hc; cbn; lia|cbn; lia|]. intros stored first. rewrite Hf. cbn [as_fut fut_of]. rewrite poll_fut_of. f_equal.
  cbn [kernel_result]. destruct (at_once outcomes) as [v|]; [done|]. rewrite bool_decide_eq_false_2 by (by intros []). cbn.
  destruct (later_result evs); [done|]. by case_decide.
Qed.

(** The word of a call that returned, read by the program: the value, or the
    number of the error. *)
Lemma result_read_back (r : sysret) v : deal_result r = Returned v →
  match r with SOk x => 0 ≤ x ≤ two64 - 4096 → from_ret (wrap64 v) = inl x | SErr e => from_ret (wrap64 v) = inr (code e) | _ => False end.
Proof.
  destruct r as [x|e| |]; cbn; intros [= <-].
  - intros Hx. rewrite wrap64_small by (unfold is_u64, two64 in *; lia). rewrite from_ret_spec by (unfold is_u64, two64 in *; lia).
    rewrite decide_False by lia. done.
  - pose proof (code_range e) as Hc. assert (Hw : wrap64 (- code e) = two64 - code e).
    { unfold wrap64. symmetry. apply (Z.mod_unique_pos _ _ (-1)); unfold two64; lia. }
    rewrite Hw, from_ret_spec by (unfold is_u64, two64; lia). rewrite decide_True by lia. f_equal. lia.
Qed.

(** A program that waits for its calls gets the result with the first poll,
    unless the result happens to have the number of [EAGAIN] in its low word:
    that one is taken for a call that is still running, and the future, which
    makes no second call, is never ready. *)
Theorem blocking_call_result (result : Z) :
  let r := poll_blocking result fut_new in
  if decide (as_i32 (wrap64 result) = code EAGAIN)
  then r.1 = Pending ∧ ∀ result', poll_blocking result' r.2 = (Pending, r.2)
  else r.1 = Ready (from_ret (wrap64 result)) ∧ ∀ result', poll_blocking result' r.2 = (Ready (from_ret (wrap64 result)), r.2).
Proof.
  unfold poll_blocking, fut_poll, fut_run. cbn. rewrite eagain_raw. case_decide as Hr.
  - by rewrite decide_False by tauto.
  - by rewrite decide_True by done.
Qed.

End async_props.

(** ** The hypotheses at work *)

Module UserDemo.
(** The numbers of [errno.h]; those of errors no example uses are made one. *)
#[export] Instance linux_codes : Errno :=
  { code e := match e with EPERM => 1 | EINTR => 4 | EAGAIN => 11 | EINVAL => 22 | ERESTART => 85 | _ => 38 end }.
#[export] Instance user_codes : UserErrno :=
  { from_ret v := if decide (two64 - 4096 < v) then inr (two64 - v) else inl v; EAGAIN_RAW := 11 }.
#[export] Instance codes_agree : ErrnoLaws.
Proof. split; [by intros []|done|done]. Qed.

(** A kernel that is a trap frame and a clock: call 169 tells the time, 35
    sleeps, and every other call is interrupted. *)
Record demo := mk_demo { d_tf : TrapFrame; d_clock : Z }.
#[export] Instance demo_view : View demo TrapFrame := { view := d_tf; put_view tf k := mk_demo tf (d_clock k) }.
#[export] Instance demo_laws : ViewLaws demo TrapFrame.
Proof. by split. Qed.
Definition demo_call (num : Z) (_ : list Z) (k : demo) : ended * demo :=
  if decide (num = 169) then (Returned (d_clock k), mk_demo (d_tf k) (d_clock k + 1))
  else if decide (num = 35) then (Waits, k) else (Returned (- 85), k).
#[export] Instance demo_world : TrapWorld demo := {
  tw_cause c := if decide (c = 8) then UserEnvCall else OtherTrap;
  tw_irq _ k := k;
  tw_syscall := demo_call;
  tw_async n args _ _ := demo_call n args;
  tw_page_fault _ _ k := (Returned 0, k);
  tw_signals k := (Returned 0, k);
  tw_exited _ := None }.

Definition call_frame (num : Z) : TrapFrame :=
  mk_tf (λ r, if decide (r = a7) then num else 0) 4096 0 (0, 0) 8 0 TsBlocked 0.

Lemma call_returns_to_frame_witness :
  (∃ k', user_trap (mk_demo (call_frame 169) 7) = (Resume, k') ∧ sepc (d_tf k') = 4100 ∧ regs (d_tf k') a0 = 7) ∧
  (∃ k', user_trap (mk_demo (call_frame 101) 7) = (Resume, k') ∧ d_tf k' = set_trap_status Done (call_frame 101)).
Proof.
  split.
  - destruct (call_returns_to_frame (mk_demo (call_frame 169) 7)
      (mk_demo (set_sepc 4100 (call_frame 169)) 8) (mk_demo (set_reg a0 7 (set_sepc 4100 (call_frame 169))) 8)
      (call_frame 169) 7) as (k' & H1 & H2); try done.
    exists k'. split; [done|]. change (d_tf k') with (view k' : TrapFrame). by rewrite H2.
  - destruct (call_returns_to_frame (mk_demo (call_frame 101) 7)
      (mk_demo (set_sepc 4100 (call_frame 101)) 7) (mk_demo (call_frame 101) 7)
      (call_frame 101) (- 85)) as (k' & H1 & H2); try done.
    exists k'. split; [done|]. change (d_tf k') with (view k' : TrapFrame). by rewrite H2.
Defined.

(** A call polled twice while its coroutine waits, then after it ended with [EINVAL];
    and one that was restarted: its second coroutine reads twelve bytes, but the program
    has already been told [ERESTART]. *)
Lemma async_call_result_witness :
  (∃ s, arun [EvPoll [None]; EvPoll []; EvStore (- 22)] as_init = Some s ∧ as_calls s = 1%nat ∧
     (poll_async None None (as_fut s)).1 = Ready (inr 22)) ∧
  ∃ s, arun [EvPoll [Some (- 85); None]; EvPoll []] as_init = Some s ∧ as_calls s = 2%nat ∧
    (poll_async None None (as_fut s)).1 = Ready (inr 85) ∧ astep (EvStore 12) s ≠ None.
Proof.
  split; eexists; (split; [reflexivity|]).
  - destruct (async_call_result [EvPoll [None]; EvPoll []; EvStore (- 22)] _ ltac:(done) ltac:(reflexivity)) as (Hc & _ & Hp).
    split; [exact Hc|]. rewrite (Hp None None). reflexivity.
  - destruct (async_call_result [EvPoll [Some (- 85); None]; EvPoll []] _ ltac:(done) ltac:(reflexivity)) as (Hc & _ & Hp).
    split; [exact Hc|]. split; [|done]. rewrite (Hp None None). reflexivity.
Defined.
(** So what a program is told of a restarted call is not what the call did. *)
Example async_restart_is_an_error :
  (λ s, (as_calls s, (poll_async None None (as_fut s)).1)) <$> arun [EvPoll [Some (- 85); None]] as_init
    = Some (2%nat, Ready (inr 85)).
Proof. reflexivity. Qed.

(** A read of eleven bytes never ends for a program that waits for it, one of
    ten does. *)
Lemma blocking_call_result_witness :
  (poll_blocking 11 fut_new).1 = Pending ∧ (poll_blocking 10 fut_new).1 = Ready (inl 10).
Proof.
  pose proof (blocking_call_result 11) as H1. pose proof (blocking_call_result 10) as H2. cbn zeta in H1, H2.
  rewrite decide_True in H1 by reflexivity. rewrite decide_False in H2 by (vm_compute; discriminate).
  split; [exact (proj1 H1)|exact (proj1 H2)].
Defined.
End UserDemo.
